(* ===== verification/_CoqProject ===== *)
-Q . S2P
Prelude.v
Bits.v
Vclock.v
VclockText.v
Double.v
Raft.v
RaftNode.v
RaftSafety.v
Ring.v
Executor.v
ExecutorSafety.v
TxnLimbo.v
LimboQueue.v
LimboSafety.v
LimboTheorems.v
Port.v
BindingBox.v
BindingSafety.v
BindingAnswers.v
Heap.v
HeapSafety.v
VyStmt.v
VyWriteIterator.v
VyVisible.v
VyViews.v
VyDeferred.v
VyMerge.v
VyBuild.v
VyLoop.v
VyResults.v
VyOutput.v
VyRun.v
VyCompaction.v
VyTheorems.v
VyMem.v
VyMemSafety.v
VyMemTheorems.v
VyLevels.v
VyInsert.v
VyLsm.v
VyLsmSafety.v
VyLsmSteps.v
VyLsmTasks.v
VyLsmTheorems.v
VyRunReader.v
VyPages.v
VyRunSearch.v
VyRunScan.v
VyRunSeek.v
VyRunTheorems.v
VySlices.v
Bloom.v
BloomTheorems.v
VyRunWriter.v
VyRunRoundtrip.v
VyLookup.v
VyLookupTheorems.v
VyConcurrent.v
VyReadSet.v
VyReadSetTheorems.v
VyTx.v
VyTxLog.v
VyTxLsm.v
VyTxTheorems.v
VyTxWrite.v
VyTxAtomic.v
