(* ===== verification/Prelude.v ===== *)
(** * Verification of dart-tarantool-storage

    The program is a storage for Dart: a fork of the Tarantool database server
    (src/) and a native binding (binding/native/) through which Dart threads
    run requests in the server's transaction thread.  This development models
    the parts of it on which its guarantees rest and proves what makes them
    correct.  File names below are relative to the root of the sources.

    ** The parts and how they interact

    Dart threads put messages into a ring buffer (binding/native/ck/include/
    ck_ring.h).  A fiber of the transaction thread takes them out, runs the
    function each message carries and posts the message back
    (binding/native/src/binding_executor.c); messages of another owner have to
    wait while a transaction is open.  The functions call the box
    (binding_box.c) and copy its results, through ports (src/box/port.c) and an
    output buffer, to memory that Dart owns.

    A transaction on a synchronous space waits in the limbo
    (src/box/txn_limbo.c) until a quorum of replicas has acknowledged it; who
    may write is decided by leader elections (src/lib/raft/raft.c).  Both, and
    all of replication, count changes with vector clocks
    (src/lib/vclock/vclock.c), which use the bit operations of src/lib/bit/.

    The engine vinyl keeps an index as an LSM tree: writes go to a memory level
    (src/box/vy_mem.c), which is dumped to a sorted run; runs are merged by
    compaction.  Both are tasks of a scheduler (src/box/vy_scheduler.c) and use
    the write iterator (src/box/vy_write_iterator.c) over the heap of
    src/lib/salad/ and the writer of runs (src/box/vy_run.c), which makes pages
    and Bloom filters (src/box/tuple_bloom.c).  A lookup
    (src/box/vy_point_lookup.c) collects the statements of a key from the
    levels and applies them (src/box/vy_history.c, vy_upsert.c), while the tree
    goes on.  Transactions (src/box/vy_tx.c) collect statements in a write set
    and remember what they have read as intervals of keys
    (src/box/vy_read_set.c); when one is prepared, the readers of its keys go on
    in a read view.

    ** The files

    - [Prelude] (this file): machine integers, record update, the monad of
      programs that can abort with its weakest preconditions, frame conditions,
      transition systems and reachability.
    - [Bits]: src/lib/bit/bit.h and bit.c: words, bitmaps, the bit iterator.
    - [Vclock], [VclockText]: vclock.h and vclock.c: the operations and
      comparisons of clocks, and their text form with the goto parser.
    - [Double]: C doubles, by the Standard Library's executable floats.
    - [Raft]: every function of raft.c on struct raft.  [RaftNode]: its
      invariant and the theorems about one node.  [RaftSafety]: a cluster with
      a network and disks.
    - [Ring]: the ring, as functions and as interleaved steps of threads.
    - [Executor], [ExecutorSafety]: the message loop as a program and as a
      system of the loop thread, sending threads and stop requests.
    - [TxnLimbo]: struct txn_limbo and the functions of txn_limbo.c.
      [LimboQueue]: what its loops do.  [LimboSafety]: the invariant and its
      preservation by every operation.  [LimboTheorems]: the transition system.
    - [Port]: src/box/port.c and the memory it uses.  [BindingBox]: the
      requests of binding_box.c and the loop of box_select.  [BindingSafety]:
      what requests leave behind.  [BindingAnswers]: what they answer.
    - [Heap], [HeapSafety]: src/lib/salad/heap.h, the intrusive priority queue
      of the schedulers, for any comparison.
    - [VyStmt]: the statements of vinyl, UPSERTs and histories, over the
      interfaces [Tuples] and [SearchKeys].  [VyVisible]: what a read view sees, the reference for
      everything below.
    - [VyWriteIterator]: the write iterator and the loop that writes a run.
      [VyViews], [VyDeferred], [VyBuild], [VyLoop], [VyMerge], [VyResults],
      [VyOutput], [VyRun]: what its functions do, from one statement to a whole
      task.  [VyCompaction]: the run by key.  [VyTheorems]: the theorems, and an
      instance of the interface with tuples of a key and a counter.
    - [VyMem]: the memory level and its iterator.  [VyMemSafety]: what the
      functions of the iterator do.  [VyMemTheorems]: scans and lookups.
    - [VyLsm]: the LSM tree of a primary index (vy_lsm.c) with the tasks of
      vy_scheduler.c and the read views of vy_tx.c.  [VyLevels]: sequences of
      levels and the replacement of some of them by a run.  [VyInsert]: a
      statement more.  [VyLsmSafety]: the invariant; [VyLsmSteps] and
      [VyLsmTasks]: its preservation by writes, read views and tasks.
      [VyLsmTheorems]: the transition system.
    - [VyRunReader]: pages, the page index, slices, the iterator over a run and
      the stream of a slice (vy_run.c).  [VyPages], [VyRunSearch],
      [VyRunScan], [VyRunSeek]: what its functions do.  [VyRunTheorems],
      [VySlices]: the theorems on the iterator, and on slices and streams.
    - [Bloom], [BloomTheorems]: src/lib/salad/bloom.h and tuple_bloom.c.
    - [VyRunWriter]: the writer of vy_run.c.  [VyRunRoundtrip]: a run that is
      written can be read.
    - [VyLookup]: vy_point_lookup.c.  [VyLookupTheorems]: lookups in a tree
      that changes while they yield.  [VyConcurrent]: the same for the tree of
      [VyLsm].
    - [VyReadSet], [VyReadSetTheorems]: intervals of keys, their merging and the
      search for conflicts.
    - [VyTx]: vy_tx.c and the requests of vinyl.c on a space with one index.
      [VyTxLog]: the write set against the statements of the client.
      [VyTxLsm]: one statement of a transaction in the memory.
      [VyTxTheorems]: statements and savepoints.  [VyTxWrite]: the loops of
      prepare, commit and rollback.  [VyTxAtomic]: whole transactions.

    ** How code is modelled

    A C struct is a record with the fields of the source that matter, a
    function is a definition with the name of the source.  Integers are [Z],
    with the wrap-around of their type written out where it can happen; an
    array is a list.  A function on a shared object is a program of the monad
    [prog]: it returns, or it ends in [Abort], which stands for a failed
    assert(), an access outside of an object, a null dereference or panic().
    Where the code yields or another thread can run, functions are split into
    steps, and the systems built from the steps allow every interleaving.

    Code that is not among the sources is a parameter with named laws: the
    library small (class [Obuf]), msgpuck (mp_encode_array), the Dart API, the
    clock and the logarithms of libm, the shape of a tree of intervals.  Some
    code that is among the sources is a parameter as well, because the theorems
    hold for whatever it computes.  Tuples and their comparison by a full key
    (tuple_compare) are the interface [Tuples] with the laws [TuplesLaws] of a
    total order.  Keys to search for may be partial; they are the interface
    [SearchKeys] with laws [SearchKeysLaws], of which the iterators over
    memories and runs are independent, and have as instances the full keys
    ([search_tuples]) and the keys of two parts of the witnesses.  The size of a
    row in a file, the hashes of the prefixes of a key, the size of a statement
    (tuple.h) and the operations of an UPDATE (xrow_update.c; class [TxEnv],
    laws [TxEnvLaws]) are parameters.  The database behind the binding is an
    interface too (classes [Box] and [BoxApi]); every theorem that assumes laws
    of an interface has a witness with a concrete instance.

    ** What is shown

    - Elections: at most one leader per term in every execution of a cluster
      with lost, repeated and reordered messages and crashes at any point; votes
      survive crashes; the messages of a cluster are processed without an abort
      and never refused; of the calls of the interface only a change of the death
      timeout can abort, and it is shown when; the worker's loop ends when it is
      not interrupted; the rule of voting.
    - Limbo: in every interleaving that [op_pre] admits no assertion fails and
      the invariant holds; a step that is not the processing of a request commits
      a synchronous transaction only with a quorum; the counters of
      acknowledgements are right; what a PROMOTE decides about a settled queue;
      recovery from a checkpoint.
    - Ring: it is a FIFO queue for any number of producers until its counters
      wrap around, and across the wrap-around for a single caller; no access is
      out of bounds.
    - Message loop: transactions are isolated between owners, no message is
      lost or duplicated, no freed buffer is used by the loop, a stop completes
      if no transaction is open and none is going to be opened.
    - Binding: requests leave the output buffer clean and no memory but their
      answer, or at most one block when they fail; selects and iterator requests
      answer with the right tuples when nothing runs out; ports are balanced.
    - Heap: every operation keeps the heap in order with the expected nodes,
      and inserting and popping sorts.
    - Vinyl: a dump or compaction keeps what every open read view and the
      newest state see of every key, if there is no read view or no UPSERT
      directly on a DELETE; it writes a sorted run, and generates exactly the
      deferred DELETEs that are due, whichever allocations fail; the iterator
      over a memory level returns the visible history of every key that matches
      a full, partial or absent search key, in order; applying a history gives
      the value of the key.
    - LSM tree: a workload ([workload] of [VyLevels]) is tame if no task that
      knows of a read view has an UPSERT directly on a DELETE.  In every order of
      writes, dumps, compactions and read views of a tame workload, with any
      failure, the levels of the tree give the values of the journal to every
      open read view, and a lookup that yields and does not run out of memory
      returns the value of the journal.  In every workload the operations succeed
      when nothing fails.
    - Transactions: the conflicts found for a statement are exactly the
      transactions that have read its key; a transaction takes effect at one
      LSN with just the effect of its statements, or not at all, with UPSERTs if
      no allocation fails; the first rolled back statement leaves the write set
      as it was.
    - Runs: the iterator and the stream return just what a slice has, in order,
      the iterator for full, partial and absent search keys; what is written is
      read back; Bloom filters have no false negatives.
    - Clocks and bits: the operations and comparisons agree with the pointwise
      view of clocks, text round trips, the parser ends on every input, bit
      iteration and bit indexes are complete.
    - For the places where the code does not do what it means to, a theorem
      that exhibits an execution: for example a PROMOTE that aborts the process
      or is accepted although outdated, a transaction left waiting for ever, a
      send to a freed buffer, a stop that never completes, a compaction that
      loses an UPSERT or returns a statement twice, readers that do not notice a failed allocation, a
      reverse iterator that loses keys, a Bloom filter without blocks, a reader
      that loses what it has read when a prepared transaction is rolled back.

    ** Bounds and fuel

    Loops are structural recursions on the data they go through where there is
    some.  The others have fuel with a bound that is proved or evident: the
    width of the word in [Bits], the length of the text in [VclockText], four
    turns in [raft_process_async], two steps per message for the end of the
    message loop, offset plus limit for [box_select] and the count for
    [tarantool_iterator_next], the positions before or after the node in
    [Heap], the statements that are left in the sources in [VyWriteIterator]
    and those of the tree in [VyMem], the rows of the run in [VyRunReader] and
    one restart per yield in [VyLookup]; running out of fuel is [Abort] there,
    which the theorems exclude.

    ** What is not modelled

    Of the storage engines memtx; of vinyl ranges,
    secondary indexes, the read iterator, the cache, the coding of rows and
    files, the metadata log and quotas, and the memory of an LSM tree is not
    rotated while transactions run; SQL, Lua, the network protocol, the
    journal files,
    the schema and the core of fibers and threads: each is either input/output
    or a program of its own; where a modelled part calls them, they are steps
    or interfaces.  Of txn_limbo.c the functions that wait for an empty queue
    are left out, of binding/ the start and stop of the process.  Memory is
    sequentially consistent; times are inputs of the operations. *)

From Stdlib Require Export ZArith Lia Sorted.
From stdpp Require Export list list_numbers sets.

Open Scope Z_scope.

(** ** Machine integers

    A C integer of [w] bits is a [Z]; every operation of the source that can
    leave the range of its type is followed by the wrap-around written out
    here.  Unsigned arithmetic is reduction modulo [2 ^ w]; signed arithmetic
    is two's complement; C leaves signed overflow undefined, and the theorems
    that need its absence say so. *)

Definition uwrap (w x : Z) : Z := x mod 2 ^ w.
Definition swrap (w x : Z) : Z := (x + 2 ^ (w - 1)) mod 2 ^ w - 2 ^ (w - 1).

Abbreviation u8 := (uwrap 8).
Abbreviation u32 := (uwrap 32).
Abbreviation u64 := (uwrap 64).
Abbreviation i32 := (swrap 32).
Abbreviation i64 := (swrap 64).

Definition UINT32_MAX : Z := 2 ^ 32 - 1.
Definition UINT64_MAX : Z := 2 ^ 64 - 1.
Definition SIZE_MAX : Z := 2 ^ 64 - 1.
Definition INT64_MAX : Z := 2 ^ 63 - 1.
Definition INT_MAX : Z := 2 ^ 31 - 1.

(** A value already in range is a fixed point of the wrap-around. *)
Lemma uwrap_small w x : 0 <= x < 2 ^ w -> uwrap w x = x.
Proof. apply Z.mod_small. Qed.

Lemma uwrap_range w x : 0 <= w -> 0 <= uwrap w x < 2 ^ w.
Proof. intros. apply Z.mod_pos_bound, Z.pow_pos_nonneg; lia. Qed.

Lemma swrap_small w x :
  0 < w -> - 2 ^ (w - 1) <= x < 2 ^ (w - 1) -> swrap w x = x.
Proof.
  intros Hw Hx. unfold swrap. rewrite Z.mod_small; [lia|].
  replace (2 ^ w) with (2 * 2 ^ (w - 1)); [lia|].
  rewrite <- Z.pow_succ_r by lia. f_equal; lia.
Qed.

Lemma i32_small x : - 2 ^ 31 <= x < 2 ^ 31 -> i32 x = x.
Proof. intros. by apply swrap_small. Qed.

Lemma uwrap_testbit w x i :
  0 <= w -> 0 <= i -> Z.testbit (uwrap w x) i = (i <? w) && Z.testbit x i.
Proof.
  intros. unfold uwrap. rewrite Z.testbit_mod_pow2 by lia. done.
Qed.

(** A number with no bit at or above [w] is a [w]-bit unsigned integer. *)
Lemma bits_bound w x :
  0 <= w -> (forall k, w <= k -> Z.testbit x k = false) -> 0 <= x < 2 ^ w.
Proof.
  intros Hw Hx. replace x with (uwrap w x); [by apply uwrap_range|].
  apply Z.bits_inj'. intros k Hk. rewrite uwrap_testbit by done.
  destruct (Z.ltb_spec k w); [done|]. by rewrite Hx.
Qed.

Lemma testbit_above w x k :
  0 <= x < 2 ^ w -> w <= k -> Z.testbit x k = false.
Proof.
  intros Hx Hk. destruct (Z.lt_ge_cases w 0) as [?|Hw].
  { rewrite Z.pow_neg_r in Hx; lia. }
  rewrite <- (uwrap_small w x Hx), uwrap_testbit by lia.
  by replace (k <? w) with false by lia.
Qed.

Lemma land_range w a b :
  0 <= w -> 0 <= a < 2 ^ w -> 0 <= Z.land a b < 2 ^ w.
Proof.
  intros. apply bits_bound; [done|]. intros k Hk.
  by rewrite Z.land_spec, (testbit_above w a).
Qed.

Lemma lor_range w a b :
  0 <= w -> 0 <= a < 2 ^ w -> 0 <= b < 2 ^ w -> 0 <= Z.lor a b < 2 ^ w.
Proof.
  intros. apply bits_bound; [done|]. intros k Hk.
  by rewrite Z.lor_spec, (testbit_above w a), (testbit_above w b).
Qed.

Lemma lxor_range w a b :
  0 <= w -> 0 <= a < 2 ^ w -> 0 <= b < 2 ^ w -> 0 <= Z.lxor a b < 2 ^ w.
Proof.
  intros. apply bits_bound; [done|]. intros k Hk.
  by rewrite Z.lxor_spec, (testbit_above w a), (testbit_above w b).
Qed.

(** ** Record update

    [r <| f := v |>] is the record [r] with field [f] replaced by [v], and
    [r <| f ::= g |>] applies [g] to it.  A record opts in by an instance of
    [Rebuild]: the record put together again from its own projections.  The
    setter of a field is that term with the projection of the field composed
    with the update. *)

Class Rebuild (R : Type) := rebuild : R -> R.

Class Setter {R E : Type} (field : R -> E) := update : (E -> E) -> R -> R.
Arguments update {R E} field {Setter} g r /.

Ltac derive_setter :=
  match goal with
  | |- @Setter ?R ?E ?field =>
      let inst := constr:(_ : Rebuild R) in
      let body := eval unfold rebuild in (@rebuild R inst) in
      let body := eval red in body in
      match eval pattern field in body with
      | ?abs _ =>
          let s := eval cbv beta in
            (fun (g : E -> E) (r : R) => abs (fun x => g (field x)) r) in
          exact s
      end
  end.
#[export] Hint Extern 1 (Setter _) => derive_setter : typeclass_instances.

Declare Scope record_scope.
Delimit Scope record_scope with rec.
Open Scope record_scope.
Notation "r <| f ::= g |>" := (update f g r)
  (at level 1, f at level 200, g at level 99, left associativity,
   format "r  <| f  ::=  g |>") : record_scope.
Notation "r <| f := v |>" := (update f (fun _ => v) r)
  (at level 1, f at level 200, v at level 99, left associativity,
   format "r  <| f  :=  v |>") : record_scope.

(** ** Effects

    A C function that works on one shared object is a function of that
    object's state.  [Abort] is the outcome of a failed [assert()], of an
    out-of-range memory access or of [panic()]: the program does not go on.
    The monad is an instance of stdpp's [MRet] and [MBind], so programs are
    written with the notations [x ← m; k] and [m;; k]. *)

Inductive outcome (A : Type) : Type :=
| Done (a : A)
| Abort.
Arguments Done {A} a.
Arguments Abort {A}.

Definition prog (S A : Type) : Type := S -> outcome (A * S).

#[export] Instance prog_ret S : MRet (prog S) := fun _ a s => Done (a, s).
#[export] Instance prog_bind S : MBind (prog S) := fun _ _ k m s =>
  match m s with
  | Done (a, s') => k a s'
  | Abort => Abort
  end.

Definition gets {S A} (f : S -> A) : prog S A := fun s => Done (f s, s).
Definition modify {S} (f : S -> S) : prog S unit := fun s => Done (tt, f s).
Definition assert {S} (c : S -> bool) : prog S unit :=
  fun s => if c s then Done (tt, s) else Abort.
Definition abort {S A} : prog S A := fun _ => Abort.
Definition skip {S} : prog S unit := mret tt.

(** Weakest precondition: the program does not abort, and its result and
    final state satisfy [Q].  All Hoare-style specifications use it. *)
Definition wp {S A} (m : prog S A) (Q : A -> S -> Prop) (s : S) : Prop :=
  match m s with
  | Done (a, s') => Q a s'
  | Abort => False
  end.

Section WP.
Context {S : Type}.
Implicit Types s : S.

Lemma wp_ret {A} (a : A) Q s : wp (mret a) Q s <-> Q a s.
Proof. done. Qed.

Lemma wp_bind {A B} (m : prog S A) (k : A -> prog S B) Q s :
  wp (m ≫= k) Q s <-> wp m (fun a s' => wp (k a) Q s') s.
Proof. unfold wp, mbind, prog_bind. by destruct (m s) as [[a s']|]. Qed.

Lemma wp_gets {A} (f : S -> A) Q s : wp (gets f) Q s <-> Q (f s) s.
Proof. done. Qed.

Lemma wp_modify (f : S -> S) Q s : wp (modify f) Q s <-> Q tt (f s).
Proof. done. Qed.

Lemma wp_assert (c : S -> bool) Q s :
  wp (assert c) Q s <-> c s = true /\ Q tt s.
Proof. unfold wp, assert. destruct (c s); intuition congruence. Qed.

Lemma wp_mono {A} (m : prog S A) (Q Q' : A -> S -> Prop) s :
  wp m Q s -> (forall a s', Q a s' -> Q' a s') -> wp m Q' s.
Proof. unfold wp. destruct (m s) as [[a s']|]; auto. Qed.

Lemma wp_Done {A} (m : prog S A) Q s a s' :
  wp m Q s -> m s = Done (a, s') -> Q a s'.
Proof. unfold wp. intros H E. by rewrite E in H. Qed.

(** Running a program step by step. *)
Lemma bind_Done {A B} (m : prog S A) (k : A -> prog S B) s a s' :
  m s = Done (a, s') -> (m ≫= k) s = k a s'.
Proof. intros E. unfold mbind, prog_bind. by rewrite E. Qed.

Lemma wp_total {A} (m : prog S A) Q s :
  wp m Q s <-> exists a s', m s = Done (a, s') /\ Q a s'.
Proof. unfold wp. destruct (m s) as [[a s']|]; naive_solver. Qed.

Lemma wp_and {A} (m : prog S A) (Q Q' : A -> S -> Prop) s :
  wp m Q s -> wp m Q' s -> wp m (fun a s' => Q a s' /\ Q' a s') s.
Proof. unfold wp. destruct (m s) as [[a s']|]; auto. Qed.
End WP.

(** The partial version: if the program does not abort, its result and final
    state satisfy [Q]. *)
Definition wlp {S A} (m : prog S A) (Q : A -> S -> Prop) (s : S) : Prop :=
  match m s with
  | Done (a, s') => Q a s'
  | Abort => True
  end.

Section WLP.
Context {S : Type}.
Implicit Types s : S.

Lemma wlp_ret {A} (a : A) Q s : wlp (mret a) Q s <-> Q a s.
Proof. done. Qed.
Lemma wlp_bind {A B} (m : prog S A) (k : A -> prog S B) Q s :
  wlp (m ≫= k) Q s <-> wlp m (fun a s' => wlp (k a) Q s') s.
Proof. unfold wlp, mbind, prog_bind. by destruct (m s) as [[a s']|]. Qed.
Lemma wlp_gets {A} (f : S -> A) Q s : wlp (gets f) Q s <-> Q (f s) s.
Proof. done. Qed.
Lemma wlp_assert (c : S -> bool) Q s : wlp (assert c) Q s <-> (c s = true -> Q tt s).
Proof. unfold wlp, assert. destruct (c s); naive_solver. Qed.
Lemma wlp_abort {A} (Q : A -> S -> Prop) s : wlp abort Q s.
Proof. done. Qed.
Lemma wlp_mono {A} (m : prog S A) (Q Q' : A -> S -> Prop) s :
  wlp m Q s -> (forall a s', Q a s' -> Q' a s') -> wlp m Q' s.
Proof. unfold wlp. destruct (m s) as [[a s']|]; auto. Qed.
Lemma wp_wlp {A} (m : prog S A) (Q : A -> S -> Prop) s : wp m Q s -> wlp m Q s.
Proof. unfold wp, wlp. by destruct (m s) as [[a s']|]. Qed.
Lemma wlp_Done {A} (m : prog S A) Q s a s' : wlp m Q s -> m s = Done (a, s') -> Q a s'.
Proof. unfold wlp. intros H E. by rewrite E in H. Qed.
End WLP.

(** Total correctness up to failures: the program may abort only if [F].  With
    [F] false it is [wp], with [F] true it is [wlp]. *)
Definition wpx {S A} (F : Prop) (m : prog S A) (Q : A -> S -> Prop) (s : S) : Prop :=
  match m s with
  | Done (a, s') => Q a s'
  | Abort => F
  end.

Section WPX.
Context {S : Type} (F : Prop).
Implicit Types s : S.

Lemma wpx_wp {A} (m : prog S A) Q s : ~ F -> wpx F m Q s -> wp m Q s.
Proof. unfold wpx, wp. by destruct (m s) as [[a s']|]. Qed.
Lemma wpx_ret {A} (a : A) Q s : wpx F (mret a) Q s <-> Q a s.
Proof. done. Qed.
Lemma wpx_bind {A B} (m : prog S A) (k : A -> prog S B) Q s :
  wpx F (m ≫= k) Q s <-> wpx F m (fun a s' => wpx F (k a) Q s') s.
Proof. unfold wpx, mbind, prog_bind. by destruct (m s) as [[a s']|]. Qed.
(** The first two steps of a program as one. *)
Lemma wpx_seq {B C} (m : prog S unit) (k : prog S B) (k' : B -> prog S C) Q s :
  wpx F (m;; k) (fun b s' => wpx F (k' b) Q s') s -> wpx F (m ≫= fun _ => k ≫= k') Q s.
Proof.
  unfold wpx, mbind, prog_bind. destruct (m s) as [[a s']|]; [|done]. by destruct (k s') as [[b s2]|].
Qed.
Lemma wpx_gets {A} (f : S -> A) Q s : wpx F (gets f) Q s <-> Q (f s) s.
Proof. done. Qed.
Lemma wpx_modify (f : S -> S) Q s : wpx F (modify f) Q s <-> Q tt (f s).
Proof. done. Qed.
Lemma wpx_assert (c : S -> bool) Q s : c s = true -> Q tt s -> wpx F (assert c) Q s.
Proof. unfold wpx, assert. by intros ->. Qed.
Lemma wpx_mono {A} (m : prog S A) (Q Q' : A -> S -> Prop) s :
  wpx F m Q s -> (forall a s', Q a s' -> Q' a s') -> wpx F m Q' s.
Proof. unfold wpx. destruct (m s) as [[a s']|]; auto. Qed.
Lemma wp_wpx {A} (m : prog S A) Q s : wp m Q s -> wpx F m Q s.
Proof. unfold wpx, wp. by destruct (m s) as [[a s']|]. Qed.
Lemma wpx_Done {A} (m : prog S A) Q s a s' : wpx F m Q s -> m s = Done (a, s') -> Q a s'.
Proof. unfold wpx. intros H E. by rewrite E in H. Qed.
End WPX.

(** Frame conditions: every run of the program relates the state before it to
    the state after it.  The database [keeps] walks through a program. *)
Definition keeps {S A} (R : S -> S -> Prop) (m : prog S A) : Prop :=
  forall s a s', m s = Done (a, s') -> R s s'.

Section Keeps.
Context {S : Type} (R : S -> S -> Prop) {HR : PreOrder R}.

Lemma keeps_ret {A} (a : A) : keeps R (mret a).
Proof. intros s b s' [= _ <-]. reflexivity. Qed.
Lemma keeps_skip : keeps R skip.
Proof. apply keeps_ret. Qed.
Lemma keeps_gets {A} (f : S -> A) : keeps R (gets f).
Proof. intros s b s' [= _ <-]. reflexivity. Qed.
Lemma keeps_assert c : keeps R (assert c).
Proof. intros s b s'. unfold assert. destruct (c s); [|done]. intros [= _ <-]. reflexivity. Qed.
Lemma keeps_abort {A} : keeps R (@abort S A).
Proof. done. Qed.
Lemma keeps_modify f : (forall s, R s (f s)) -> keeps R (modify f).
Proof. intros H s b s' [= _ <-]. apply H. Qed.
Lemma keeps_bind {A B} (m : prog S A) (k : A -> prog S B) :
  keeps R m -> (forall a, keeps R (k a)) -> keeps R (m ≫= k).
Proof.
  intros Hm Hk s b s'. unfold mbind, prog_bind. destruct (m s) as [[a s1]|] eqn:E; [|done].
  intros E'. etransitivity; [by eapply Hm|by eapply Hk].
Qed.
Lemma keeps_if {A} (b : bool) (m1 m2 : prog S A) :
  keeps R m1 -> keeps R m2 -> keeps R (if b then m1 else m2).
Proof. by destruct b. Qed.
End Keeps.

Create HintDb keeps.
#[export] Hint Resolve keeps_ret keeps_skip keeps_gets keeps_assert keeps_abort
  keeps_bind keeps_if : keeps.

(** Running one step of an option program by rewriting. *)
Lemma obind_Some {A B} (f : A -> option B) (x : A) : Some x ≫= f = f x.
Proof. done. Qed.

(** ** Transition systems

    Reachability by a step relation, with the induction principle every
    invariant of the development is proved with. *)

Section Reach.
Context {S : Type} (init : S -> Prop) (step : S -> S -> Prop).

Inductive reachable : S -> Prop :=
| reach_init s : init s -> reachable s
| reach_step s s' : reachable s -> step s s' -> reachable s'.

Lemma reachable_invariant (I : S -> Prop) :
  (forall s, init s -> I s) ->
  (forall s s', I s -> step s s' -> I s') ->
  forall s, reachable s -> I s.
Proof. intros Hi Hs s. induction 1; eauto. Qed.

(** Executions between two states. *)
Inductive steps : S -> S -> Prop :=
| steps_refl s : steps s s
| steps_cons s1 s2 s3 : step s1 s2 -> steps s2 s3 -> steps s1 s3.

Lemma steps_trans s1 s2 s3 : steps s1 s2 -> steps s2 s3 -> steps s1 s3.
Proof. induction 1; eauto using steps. Qed.

Lemma steps_reachable s s' : reachable s -> steps s s' -> reachable s'.
Proof. intros Hr Hs. induction Hs; eauto using reachable. Qed.
End Reach.

(** ** Booleans and automation *)

Create HintDb tarantool.

(** Turn the boolean tests of the code into the propositions they decide. *)
Ltac boolp :=
  repeat match goal with
  | H : negb _ = true |- _ => apply negb_true_iff in H
  | H : negb _ = false |- _ => apply negb_false_iff in H
  | H : _ && _ = true |- _ => apply andb_true_iff in H; destruct H
  | H : _ || _ = false |- _ => apply orb_false_iff in H; destruct H
  | H : (_ =? _) = true |- _ => apply Z.eqb_eq in H
  | H : (_ =? _) = false |- _ => apply Z.eqb_neq in H
  | H : (_ <? _) = true |- _ => apply Z.ltb_lt in H
  | H : (_ <? _) = false |- _ => apply Z.ltb_ge in H
  | H : (_ <=? _) = true |- _ => apply Z.leb_le in H
  | H : (_ <=? _) = false |- _ => apply Z.leb_gt in H
  | H : bool_decide _ = true |- _ => apply bool_decide_eq_true in H
  | H : bool_decide _ = false |- _ => apply bool_decide_eq_false in H
  end.

(** Case analysis on the first test of the goal. *)
Ltac casep :=
  match goal with
  | |- context [if ?c then _ else _] => destruct c eqn:?; boolp
  end.

(** Linear arithmetic with division and remainder by constants. *)
Ltac dlia := Z.to_euclidean_division_equations; lia.
