(* ===== verification/Bits.v ===== *)
(** * Bit manipulation (src/lib/bit/bit.h, src/lib/bit/bit.c)

    Memory chunks are lists of bytes ([Z] in [0, 256)); a read or write
    outside the chunk is [None].  Words are loaded little-endian, as on
    x86_64, whose 64-bit iterator words are the ones modelled.  The loops of
    the portable branches (CTZ_NAIVE, CLZ_NAIVE, POPCOUNT_NAIVE,
    BITINDEX_NAIVE) are written out with the word width as fuel, which is
    enough because every turn shifts out or clears a bit. *)

From S2P Require Import Prelude.

Open Scope Z_scope.

Definition CHAR_BIT : Z := 8.
Definition bytes_wf (bs : list Z) : Prop := Forall (fun b => 0 <= b < 256) bs.

(** ** Loads and stores *)

(** Little-endian value of a run of bytes, and the bytes of a value. *)
Fixpoint le_load (bs : list Z) : Z :=
  match bs with
  | [] => 0
  | b :: bs => b + 256 * le_load bs
  end.

Fixpoint le_store (n : nat) (v : Z) : list Z :=
  match n with
  | O => []
  | S n => v mod 256 :: le_store n (v / 256)
  end.

Definition load_u (size : nat) (mem : list Z) (off : nat) : option Z :=
  if bool_decide (off + size <= length mem)%nat
  then Some (le_load (take size (drop off mem)))
  else None.
Definition load_u32 : list Z -> nat -> option Z := load_u 4.
Definition load_u64 : list Z -> nat -> option Z := load_u 8.
Definition store_u32 (v : Z) : list Z := le_store 4 (u32 v).
Definition store_u64 (v : Z) : list Z := le_store 8 (u64 v).

(** ** Bitmaps *)

Definition bitmap_size (bit_count : Z) : Z :=
  let word_count := (bit_count + 64 - 1) / 64 in word_count * 8.

Definition bit_test (data : list Z) (pos : Z) : option bool :=
  let chunk := Z.to_nat (pos / CHAR_BIT) in
  let offset := pos mod CHAR_BIT in
  b ← data !! chunk;
  Some (negb (Z.land (Z.shiftr b offset) 1 =? 0)).

Definition bit_set (data : list Z) (pos : Z) : option (bool * list Z) :=
  let chunk := Z.to_nat (pos / CHAR_BIT) in
  let offset := pos mod CHAR_BIT in
  b ← data !! chunk;
  let prev := negb (Z.land (Z.shiftr b offset) 1 =? 0) in
  Some (prev, <[chunk := u8 (Z.lor b (Z.shiftl 1 offset))]> data).

Definition bit_clear (data : list Z) (pos : Z) : option (bool * list Z) :=
  let chunk := Z.to_nat (pos / CHAR_BIT) in
  let offset := pos mod CHAR_BIT in
  b ← data !! chunk;
  let prev := negb (Z.land (Z.shiftr b offset) 1 =? 0) in
  Some (prev, <[chunk := u8 (Z.land b (Z.lnot (Z.shiftl 1 offset)))]> data).

(** ** Counting *)

Fixpoint ctz_loop (fuel : nat) (x r : Z) : Z :=
  match fuel with
  | O => r
  | S fuel =>
      if Z.land x 1 =? 0 then ctz_loop fuel (Z.shiftr x 1) (r + 1) else r
  end.
Definition ctz_naive (bitsize : nat) (x : Z) : Z :=
  if x =? 0 then Z.of_nat bitsize else ctz_loop bitsize x 0.
Definition bit_ctz_u32 : Z -> Z := ctz_naive 32.
Definition bit_ctz_u64 : Z -> Z := ctz_naive 64.

Fixpoint clz_loop (fuel : nat) (x r : Z) : Z :=
  match fuel with
  | O => r
  | S fuel => if x =? 0 then r else clz_loop fuel (Z.shiftr x 1) (r - 1)
  end.
Definition clz_naive (bitsize : nat) (x : Z) : Z :=
  if x =? 0 then Z.of_nat bitsize
  else clz_loop bitsize x (Z.of_nat bitsize).
Definition bit_clz_u32 : Z -> Z := clz_naive 32.
Definition bit_clz_u64 : Z -> Z := clz_naive 64.

Fixpoint popcount_loop (fuel : nat) (x r : Z) : Z :=
  match fuel with
  | O => r
  | S fuel =>
      if x =? 0 then r else popcount_loop fuel (Z.land x (x - 1)) (r + 1)
  end.
Definition bit_count_u32 (x : Z) : Z := popcount_loop 32 x 0.
Definition bit_count_u64 (x : Z) : Z := popcount_loop 64 x 0.

(** ** Rotations and byte swaps *)

Definition bit_rotl_u32 (x r : Z) : Z :=
  Z.lor (u32 (Z.shiftl x r)) (Z.shiftr x (32 - r)).
Definition bit_rotl_u64 (x r : Z) : Z :=
  Z.lor (u64 (Z.shiftl x r)) (Z.shiftr x (64 - r)).
Definition bit_rotr_u32 (x r : Z) : Z :=
  Z.lor (Z.shiftr x r) (u32 (Z.shiftl x (32 - r))).
Definition bit_rotr_u64 (x r : Z) : Z :=
  Z.lor (Z.shiftr x r) (u64 (Z.shiftl x (64 - r))).

Definition bswap_u16 (x : Z) : Z :=
  Z.lor (Z.land (Z.shiftl x 8) 0xff00) (Z.land (Z.shiftr x 8) 0x00ff).
Definition bswap_u32 (x : Z) : Z :=
  Z.lor (Z.lor (Z.lor
    (Z.land (Z.shiftl x 24) 0xff000000)
    (Z.land (Z.shiftl x 8) 0x00ff0000))
    (Z.land (Z.shiftr x 8) 0x0000ff00))
    (Z.land (Z.shiftr x 24) 0x000000ff).
Definition bswap_u64 (x : Z) : Z :=
  Z.lor (Z.lor (Z.lor (Z.lor (Z.lor (Z.lor (Z.lor
    (Z.land (Z.shiftl x 56) 0xff00000000000000)
    (Z.land (Z.shiftl x 40) 0x00ff000000000000))
    (Z.land (Z.shiftl x 24) 0x0000ff0000000000))
    (Z.land (Z.shiftl x 8) 0x000000ff00000000))
    (Z.land (Z.shiftr x 8) 0x00000000ff000000))
    (Z.land (Z.shiftr x 24) 0x0000000000ff0000))
    (Z.land (Z.shiftr x 40) 0x000000000000ff00))
    (Z.land (Z.shiftr x 56) 0x00000000000000ff).

(** ** Indexing: the positions written into [indexes], terminator included *)

Fixpoint bit_index_loop (ctz : Z -> Z) (n : nat) (x prev_pos offset : Z)
    : list Z :=
  match n with
  | O => [0]
  | S n =>
      let a := ctz x in
      let prev_pos := prev_pos + (a + 1) in
      let x := Z.shiftr (Z.shiftr x a) 1 in
      offset + prev_pos :: bit_index_loop ctz n x prev_pos offset
  end.
Definition bit_index_u32 (x offset : Z) : list Z :=
  bit_index_loop bit_ctz_u32 (Z.to_nat (bit_count_u32 x)) x 0 offset.
Definition bit_index_u64 (x offset : Z) : list Z :=
  bit_index_loop bit_ctz_u64 (Z.to_nat (bit_count_u64 x)) x 0 offset.

Fixpoint bitindex_naive_loop (fuel : nat) (w x bit k offset : Z) : list Z :=
  match fuel with
  | O => [0]
  | S fuel =>
      let rest := bitindex_naive_loop fuel w x (uwrap w (Z.shiftl bit 1))
                    (k + 1) offset in
      if Z.land x bit =? 0 then rest else offset + k + 1 :: rest
  end.
Definition bitindex_naive (w : nat) (x offset : Z) : list Z :=
  bitindex_naive_loop w (Z.of_nat w) x 1 0 offset.

(** ** The bit iterator *)

Record bit_iterator := mk_bit_iterator {
  it_word : Z;          (** current word to process using ctz *)
  it_word_xor : Z;      (** mask XORed with every loaded word *)
  it_word_base : Z;     (** base offset of the word, in bits *)
  it_mem : list Z;      (** the memory chunk from [start] to [end] *)
  it_next : nat;        (** offset of [next] from [start] *)
}.

Definition ITER_SIZE : nat := 8.

Definition bit_iterator_init (data : list Z) (set : bool)
    : option bit_iterator :=
  let size := length data in
  if bool_decide (size = 0%nat) then
    Some (mk_bit_iterator 0 0 0 data 0)
  else
    let word_xor := if set then 0 else u64 (-1) in
    let e := (size mod ITER_SIZE)%nat in
    '(word, next) ←
      (if bool_decide (e = 0%nat) then
         w ← load_u64 data 0; Some (w, ITER_SIZE)
       else
         Some (le_load (take e data ++ drop e (le_store 8 word_xor)), e));
    Some (mk_bit_iterator (Z.lxor word word_xor) word_xor 0 data next).

(** The [while (word == 0)] loop of [bit_iterator_next]. *)
Fixpoint bit_iterator_refill (fuel : nat) (it : bit_iterator)
    : option (bool * bit_iterator) :=
  if it_word it =? 0 then
    match fuel with
    | O => None
    | S fuel =>
        if bool_decide (length (it_mem it) <= it_next it)%nat then
          Some (false, it)
        else
          w ← load_u64 (it_mem it) (it_next it);
          bit_iterator_refill fuel
            (mk_bit_iterator (Z.lxor w (it_word_xor it)) (it_word_xor it)
               (Z.of_nat (it_next it) * CHAR_BIT) (it_mem it)
               (it_next it + ITER_SIZE))
    end
  else Some (true, it).

Definition bit_iterator_next (it : bit_iterator)
    : option (Z * bit_iterator) :=
  '(found, it) ← bit_iterator_refill (S (length (it_mem it))) it;
  if (found : bool) then
    let bit := bit_ctz_u64 (it_word it) in
    Some (it_word_base it + bit,
          mk_bit_iterator (Z.land (it_word it) (it_word it - 1))
            (it_word_xor it) (it_word_base it) (it_mem it) (it_next it))
  else Some (SIZE_MAX, it).

(** [for (p = next(it); p != SIZE_MAX; p = next(it))]: the positions visited. *)
Fixpoint bit_iterator_run (fuel : nat) (it : bit_iterator)
    : option (list Z) :=
  match fuel with
  | O => None
  | S fuel =>
      '(p, it) ← bit_iterator_next it;
      if p =? SIZE_MAX then Some []
      else l ← bit_iterator_run fuel it; Some (p :: l)
  end.

Definition bit_positions (data : list Z) (set : bool) : option (list Z) :=
  it ← bit_iterator_init data set;
  bit_iterator_run (S (8 * length data)) it.

(** ** Specification vocabulary *)

(** Positions in [[a, a + n)] at which a test holds, in increasing order. *)
Definition positions (f : Z -> bool) (a n : Z) : list Z :=
  List.filter f (seqZ a n).

(** Trailing zeros of a positive number, by recursion on its binary form. *)
Fixpoint ptrail (p : positive) : Z :=
  match p with
  | xO p => 1 + ptrail p
  | _ => 0
  end.

(** ** Lemmas: trailing zeros and clearing the lowest bit *)

Lemma ptrail_nonneg p : 0 <= ptrail p.
Proof. induction p; simpl; lia. Qed.

Lemma testbit_xO p k :
  0 <= k -> Z.testbit (Z.pos p~0) k = (0 <? k) && Z.testbit (Z.pos p) (k - 1).
Proof.
  intros. replace (Z.pos p~0) with (2 * Z.pos p) by lia.
  destruct (Z.ltb_spec 0 k).
  - replace k with (Z.succ (k - 1)) at 1 by lia.
    rewrite Z.testbit_even_succ by lia. done.
  - replace k with 0 by lia. by rewrite Z.testbit_even_0.
Qed.

Lemma ptrail_testbit p k :
  0 <= k <= ptrail p -> Z.testbit (Z.pos p) k = (k =? ptrail p).
Proof.
  revert k. induction p as [p IH|p IH|]; intros k Hk; simpl ptrail in *.
  - by replace k with 0 by lia.
  - rewrite testbit_xO by lia. destruct (Z.ltb_spec 0 k); cbn [andb].
    + rewrite IH by lia.
      destruct (Z.eqb_spec (k - 1) (ptrail p)), (Z.eqb_spec k (1 + ptrail p));
        lia || done.
    + pose proof (ptrail_nonneg p).
      destruct (Z.eqb_spec k (1 + ptrail p)); [lia|done].
  - by replace k with 0 by lia.
Qed.

Lemma ptrail_bound p w : 0 <= w -> Z.pos p < 2 ^ w -> ptrail p < w.
Proof.
  intros Hw Hp. destruct (Z.lt_ge_cases (ptrail p) w) as [|Hge]; [done|].
  pose proof (ptrail_testbit p (ptrail p)) as Ht.
  rewrite Z.eqb_refl in Ht. specialize (Ht ltac:(pose proof (ptrail_nonneg p); lia)).
  rewrite Z.bits_above_log2 in Ht; [done|lia|].
  apply Z.log2_lt_pow2 in Hp; lia.
Qed.

(** [x & (x - 1)] clears exactly the lowest set bit. *)
Lemma clear_lowest p k :
  0 <= k ->
  Z.testbit (Z.land (Z.pos p) (Z.pos p - 1)) k =
  Z.testbit (Z.pos p) k && negb (k =? ptrail p).
Proof.
  revert k. induction p as [p IH|p IH|]; intros k Hk; simpl ptrail.
  - rewrite Z.land_spec. replace (Z.pos p~1 - 1) with (Z.pos p~0) by lia.
    destruct (Z.eqb_spec k 0) as [->|Hne]; [done|]. cbn [negb]. rewrite andb_true_r.
    rewrite testbit_xO by lia. replace (0 <? k) with true by lia.
    replace (Z.pos p~1) with (2 * Z.pos p + 1) by lia.
    replace k with (Z.succ (k - 1)) by lia. rewrite Z.testbit_odd_succ by lia.
    replace (Z.succ (k - 1) - 1) with (k - 1) by lia. by destruct (Z.testbit _ _).
  - replace (Z.land (Z.pos p~0) (Z.pos p~0 - 1))
      with (2 * Z.land (Z.pos p) (Z.pos p - 1)).
    2:{ apply Z.bits_inj'. intros n Hn. rewrite Z.land_spec.
        replace (Z.pos p~0 - 1) with (2 * (Z.pos p - 1) + 1) by lia.
        replace (Z.pos p~0) with (2 * Z.pos p) by lia.
        destruct (Z.eq_dec n 0) as [->|]; [by rewrite !Z.testbit_even_0|].
        replace n with (Z.succ (n - 1)) by lia.
        by rewrite !Z.testbit_even_succ, Z.testbit_odd_succ, Z.land_spec by lia. }
    rewrite testbit_xO by lia. destruct (Z.ltb_spec 0 k); cbn [andb].
    + replace k with (Z.succ (k - 1)) at 1 by lia.
      rewrite Z.testbit_even_succ, IH by lia. f_equal. f_equal.
      destruct (Z.eqb_spec (k - 1) (ptrail p)), (Z.eqb_spec k (1 + ptrail p));
        lia || done.
    + replace k with 0 by lia. by rewrite Z.testbit_even_0.
  - rewrite Z.land_spec. destruct (Z.eqb_spec k 0) as [->|Hne]; [done|].
    cbn [negb]. rewrite andb_true_r. replace (1 - 1) with 0 by done.
    rewrite Z.bits_0, andb_false_r. symmetry.
    rewrite Z.bits_above_log2; [done|lia|]. rewrite Z.log2_1. lia.
Qed.

Lemma ctz_loop_spec fuel p r :
  ptrail p <= Z.of_nat fuel -> ctz_loop fuel (Z.pos p) r = r + ptrail p.
Proof.
  revert p r. induction fuel as [|fuel IH]; intros p r Hf; simpl.
  - pose proof (ptrail_nonneg p). lia.
  - destruct p as [p|p|]; simpl in *; try lia.
    rewrite Z.shiftr_div_pow2 by lia. replace (Z.pos p~0 / 2 ^ 1) with (Z.pos p).
    2:{ change (2 ^ 1) with 2. replace (Z.pos p~0) with (Z.pos p * 2) by lia.
        by rewrite Z.div_mul by lia. }
    rewrite IH by lia. lia.
Qed.

Lemma ctz_naive_spec (w : nat) p :
  Z.pos p < 2 ^ Z.of_nat w -> ctz_naive w (Z.pos p) = ptrail p.
Proof.
  intros Hp. unfold ctz_naive. simpl.
  apply ptrail_bound in Hp; [|lia]. rewrite ctz_loop_spec by lia. lia.
Qed.

(** ** Lemmas: the bits of a byte string *)

(** Bit [k] of a memory chunk, false outside it. *)
Definition membit (bs : list Z) (k : Z) : bool := default false (bit_test bs k).

Lemma test_shiftr_land b o :
  0 <= o -> negb (Z.land (Z.shiftr b o) 1 =? 0) = Z.testbit b o.
Proof.
  intros. rewrite (Z.land_ones _ 1) by lia. change (2 ^ 1) with 2.
  rewrite Z.testbit_odd. rewrite Zmod_odd. by destruct (Z.odd _).
Qed.

Lemma bit_test_lookup bs pos :
  0 <= pos ->
  bit_test bs pos =
  (fun b => Z.testbit b (pos mod 8)) <$> bs !! Z.to_nat (pos / 8).
Proof.
  intros. unfold bit_test, CHAR_BIT.
  destruct (bs !! _) as [b|]; simpl; [|done].
  rewrite test_shiftr_land; [done|]. apply Z.mod_pos_bound; lia.
Qed.

Lemma le_load_range bs : bytes_wf bs -> 0 <= le_load bs < 256 ^ Z.of_nat (length bs).
Proof.
  induction 1 as [|b bs Hb _ IH]; cbn [le_load length]; [done|].
  rewrite Nat2Z.inj_succ, Z.pow_succ_r by lia. lia.
Qed.

Lemma byte_split b x k :
  0 <= b < 256 -> 0 <= k ->
  Z.testbit (b + 256 * x) k =
  if k <? 8 then Z.testbit b k else Z.testbit x (k - 8).
Proof.
  intros Hb Hk. destruct (Z.ltb_spec k 8).
  - rewrite <- (Z.mod_pow2_bits_low (b + 256 * x) 8 k) by lia.
    rewrite Z.mul_comm. change (2 ^ 8) with 256. rewrite Z.mod_add by lia.
    by rewrite Z.mod_small.
  - replace k with ((k - 8) + 8) at 1 by lia.
    rewrite <- Z.div_pow2_bits by lia. change (2 ^ 8) with 256.
    rewrite Z.mul_comm, Z.div_add by lia. by rewrite Z.div_small.
Qed.

Lemma le_load_testbit bs k :
  bytes_wf bs -> 0 <= k -> Z.testbit (le_load bs) k = membit bs k.
Proof.
  intros Hwf. revert k. induction Hwf as [|b bs Hb Hwf IH]; intros k Hk.
  - unfold membit. rewrite bit_test_lookup by done. by rewrite Z.bits_0.
  - cbn [le_load]. rewrite byte_split by done. unfold membit.
    rewrite bit_test_lookup by done. destruct (Z.ltb_spec k 8).
    + by rewrite Z.div_small, Z.mod_small by lia.
    + rewrite IH by lia. unfold membit. rewrite bit_test_lookup by lia.
      assert ((k - 8) / 8 = k / 8 - 1 /\ (k - 8) mod 8 = k mod 8) as [-> ->] by dlia.
      replace (Z.to_nat (k / 8)) with (S (Z.to_nat (k / 8 - 1))) by dlia. done.
Qed.

Lemma membit_oob bs k : 8 * Z.of_nat (length bs) <= k -> membit bs k = false.
Proof.
  intros. unfold membit. rewrite bit_test_lookup by lia.
  rewrite lookup_ge_None_2; [done|].
  apply Nat2Z.inj_le. rewrite Z2Nat.id by (apply Z.div_pos; lia).
  apply Z.div_le_lower_bound; lia.
Qed.

Lemma le_store_length n v : length (le_store n v) = n.
Proof. revert v. induction n; simpl; auto. Qed.

Lemma le_store_wf n v : bytes_wf (le_store n v).
Proof.
  revert v. induction n as [|n IH]; intros v; simpl; constructor; [|apply IH].
  apply Z.mod_pos_bound; lia.
Qed.

Lemma le_load_store n v : le_load (le_store n v) = v mod 256 ^ Z.of_nat n.
Proof.
  revert v. induction n as [|n IH]; intros v; cbn [le_load le_store].
  - by rewrite Z.mod_1_r.
  - rewrite IH, Nat2Z.inj_succ, Z.pow_succ_r by lia.
    rewrite Z.rem_mul_r by lia. lia.
Qed.

Lemma le_store_load bs : bytes_wf bs -> le_store (length bs) (le_load bs) = bs.
Proof.
  induction 1 as [|b bs Hb _ IH]; cbn [le_load le_store length]; [done|].
  rewrite Z.mul_comm, Z.mod_add, Z.div_add by lia.
  rewrite Z.mod_small, Z.div_small by lia. by rewrite Z.add_0_l, IH.
Qed.

Lemma drop_membit bs n k :
  0 <= k -> membit (drop n bs) k = membit bs (8 * Z.of_nat n + k).
Proof.
  intros. unfold membit. rewrite !bit_test_lookup, lookup_drop by lia.
  replace (8 * Z.of_nat n + k) with (k + Z.of_nat n * 8) by lia.
  rewrite Z.mod_add, Z.div_add by lia.
  replace (Z.to_nat (k / 8 + Z.of_nat n)) with (n + Z.to_nat (k / 8))%nat; [done|].
  rewrite Z2Nat.inj_add by (try apply Z.div_pos; lia). lia.
Qed.

Lemma app_membit bs bs' k :
  0 <= k ->
  membit (bs ++ bs') k =
  if k <? 8 * Z.of_nat (length bs) then membit bs k
  else membit bs' (k - 8 * Z.of_nat (length bs)).
Proof.
  intros. unfold membit. destruct (Z.ltb_spec k (8 * Z.of_nat (length bs))).
  - rewrite !bit_test_lookup by done. rewrite lookup_app_l; [done|].
    apply Nat2Z.inj_lt. rewrite Z2Nat.id by (apply Z.div_pos; lia).
    apply Z.div_lt_upper_bound; lia.
  - rewrite !bit_test_lookup by lia. rewrite lookup_app_r.
    2:{ apply Nat2Z.inj_le. rewrite Z2Nat.id by (apply Z.div_pos; lia).
        apply Z.div_le_lower_bound; lia. }
    replace (k - 8 * Z.of_nat (length bs)) with (k + (- Z.of_nat (length bs)) * 8) by lia.
    rewrite Z.mod_add, Z.div_add by lia.
    replace (Z.to_nat (k / 8 + - Z.of_nat (length bs)))
      with (Z.to_nat (k / 8) - length bs)%nat; [done|].
    rewrite Z.add_opp_r, Z2Nat.inj_sub by lia. lia.
Qed.

Lemma take_membit bs n k :
  (n <= length bs)%nat -> 0 <= k < 8 * Z.of_nat n ->
  membit (take n bs) k = membit bs k.
Proof.
  intros Hn Hk. rewrite <- (take_drop n bs) at 2. rewrite app_membit by lia.
  rewrite length_take_le by lia. by replace (k <? 8 * Z.of_nat n) with true by lia.
Qed.

(** ** Lemmas: enumerating positions *)

Lemma positions_app f a n m :
  0 <= n -> 0 <= m ->
  positions f a (n + m) = positions f a n ++ positions f (a + n) m.
Proof. intros. unfold positions. rewrite seqZ_app by done. apply List.filter_app. Qed.

Lemma positions_ext f g a n :
  (forall k, a <= k < a + n -> f k = g k) -> positions f a n = positions g a n.
Proof.
  intros Hfg. unfold positions. apply List.filter_ext_in. intros k Hk.
  apply Hfg. apply list_elem_of_In, elem_of_seqZ in Hk. lia.
Qed.

Lemma positions_none f a n :
  (forall k, a <= k < a + n -> f k = false) -> positions f a n = [].
Proof.
  intros Hf. rewrite (positions_ext f (fun _ => false)) by done.
  unfold positions. by induction (seqZ a n).
Qed.

Lemma positions_shift f a n :
  positions f a n = Z.add a <$> positions (fun k => f (a + k)) 0 n.
Proof.
  unfold positions. replace a with (a + 0) at 1 by lia.
  rewrite <- fmap_add_seqZ. induction (seqZ 0 n) as [|k l IH]; [done|].
  rewrite fmap_cons. cbn [List.filter].
  destruct (f (a + k)); rewrite ?fmap_cons; by rewrite IH.
Qed.

Lemma positions_In f a n k :
  In k (positions f a n) <-> a <= k < a + n /\ f k = true.
Proof.
  unfold positions. rewrite filter_In, <- list_elem_of_In, elem_of_seqZ. done.
Qed.

Lemma positions_length f a n : (length (positions f a n) <= Z.to_nat n)%nat.
Proof.
  unfold positions. rewrite <- (length_seqZ a n). apply List.filter_length_le.
Qed.

(** Taking the lowest set bit out of a word. *)
Lemma positions_pop p w :
  0 <= w -> Z.pos p < 2 ^ w ->
  positions (Z.testbit (Z.pos p)) 0 w =
  ptrail p :: positions (Z.testbit (Z.land (Z.pos p) (Z.pos p - 1))) 0 w.
Proof.
  intros Hw Hp. pose proof (ptrail_bound p w Hw Hp).
  pose proof (ptrail_nonneg p).
  set (c := ptrail p) in *.
  replace w with (c + (1 + (w - c - 1))) by lia.
  rewrite !positions_app by lia. rewrite !Z.add_0_l.
  rewrite !(positions_none _ 0 c).
  2:{ intros k Hk. rewrite clear_lowest by lia.
      rewrite ptrail_testbit by (subst c; lia).
      destruct (Z.eqb_spec k (ptrail p)); [subst c; lia|done]. }
  2:{ intros k Hk. rewrite ptrail_testbit by (subst c; lia).
      destruct (Z.eqb_spec k (ptrail p)); [subst c; lia|done]. }
  rewrite (positions_none (Z.testbit (Z.land _ _)) c 1).
  2:{ intros k Hk. replace k with c by lia. rewrite clear_lowest by lia.
      subst c. by rewrite Z.eqb_refl, andb_false_r. }
  unfold positions at 1. rewrite seqZ_cons by lia. simpl.
  rewrite ptrail_testbit by lia. subst c. rewrite Z.eqb_refl. simpl. f_equal.
  apply positions_ext. intros k Hk. rewrite clear_lowest by lia.
  destruct (Z.eqb_spec k (ptrail p)); [lia|]. by rewrite andb_true_r.
Qed.

Lemma positions_one f k : positions f k 1 = if f k then [k] else [].
Proof. unfold positions. by rewrite seqZ_cons by lia. Qed.

Lemma positions_sorted f a n : StronglySorted Z.lt (positions f a n).
Proof.
  unfold positions. assert (StronglySorted Z.lt (seqZ a n)) as Hs.
  { destruct (Z.lt_ge_cases n 0) as [Hn|Hn]; [rewrite seqZ_nil by lia; constructor|].
    revert a. pattern n. apply natlike_ind; [|intros m Hm IH a|done].
    - intros a. rewrite seqZ_nil by lia. constructor.
    - rewrite seqZ_cons by lia. rewrite Z.pred_succ. constructor; [apply IH|].
      apply Forall_forall. intros k Hk%elem_of_seqZ. lia. }
  induction Hs as [|k l Hs IH Hk]; simpl; [constructor|].
  destruct (f k); [|done]. constructor; [done|].
  apply Forall_forall. intros j [Hj _]%list_elem_of_In%filter_In.
  by apply (proj1 (Forall_forall _ _) Hk), list_elem_of_In.
Qed.

Lemma fmap_add_0 (l : list Z) : Z.add 0 <$> l = l.
Proof. by rewrite <- (list_fmap_id l) at 2. Qed.

#[global] Opaque positions.

(** ** Lemmas: the iterator visits the requested bits *)

Section Iterator.
Context (mem : list Z) (set : bool).
Hypothesis Hwf : bytes_wf mem.

Let xor : Z := if set then 0 else u64 (-1).
Let want (k : Z) : bool := Bool.eqb (membit mem k) set.

Definition it_ok (it : bit_iterator) : Prop :=
  it_mem it = mem /\ it_word_xor it = xor /\ 0 <= it_word it < 2 ^ 64 /\
  0 <= it_word_base it <= 8 * Z.of_nat (length mem) /\
  exists n, length mem = (it_next it + 8 * n)%nat.

Definition it_remaining (it : bit_iterator) : list Z :=
  (Z.add (it_word_base it) <$> positions (Z.testbit (it_word it)) 0 64) ++
  positions want (8 * Z.of_nat (it_next it))
    (8 * Z.of_nat (length mem - it_next it)).

Lemma xor_range : 0 <= xor < 2 ^ 64.
Proof. subst xor. by destruct set. Qed.

(** XOR with the mask turns "set" bits into wanted ones. *)
Lemma xor_want w k b :
  0 <= k < 64 -> Z.testbit w k = b ->
  Z.testbit (Z.lxor w xor) k = Bool.eqb b set.
Proof.
  intros Hk <-. rewrite Z.lxor_spec. subst xor. destruct set.
  - rewrite Z.bits_0. by destruct (Z.testbit w k).
  - replace (Z.testbit (u64 (-1)) k) with true; [by destruct (Z.testbit w k)|].
    change (u64 (-1)) with (Z.ones 64). by rewrite Z.ones_spec_low.
Qed.

Lemma le_load_range64 bs : bytes_wf bs -> length bs = 8%nat -> 0 <= le_load bs < 2 ^ 64.
Proof. intros H Hl. pose proof (le_load_range bs H) as Hr. by rewrite Hl in Hr. Qed.

Lemma load_u64_word n :
  (n + 8 <= length mem)%nat ->
  exists w, load_u64 mem n = Some w /\ 0 <= w < 2 ^ 64 /\
    forall k, 0 <= k < 64 ->
      Z.testbit (Z.lxor w xor) k = want (8 * Z.of_nat n + k).
Proof.
  intros Hn. unfold load_u64, load_u. rewrite bool_decide_eq_true_2 by done.
  eexists. split; [done|].
  assert (bytes_wf (take 8 (drop n mem))) as Hb by (by apply Forall_take, Forall_drop).
  assert (length (take 8 (drop n mem)) = 8%nat) as Hl
    by (rewrite length_take, length_drop; lia).
  split; [by apply le_load_range64|]. intros k Hk. apply xor_want; [done|].
  rewrite le_load_testbit, take_membit, drop_membit by (rewrite ?length_drop; auto; lia).
  done.
Qed.

Lemma it_remaining_refill it w :
  it_ok it -> it_word it = 0 -> (it_next it + 8 <= length mem)%nat ->
  (forall k, 0 <= k < 64 ->
     Z.testbit (Z.lxor w xor) k = want (8 * Z.of_nat (it_next it) + k)) ->
  it_remaining it =
  it_remaining (mk_bit_iterator (Z.lxor w xor) xor
    (Z.of_nat (it_next it) * CHAR_BIT) (it_mem it) (it_next it + ITER_SIZE)).
Proof.
  intros Hok H0 Hn Hw. unfold it_remaining. simpl. rewrite H0.
  rewrite (positions_none (Z.testbit 0)) by (intros; apply Z.bits_0). simpl.
  replace (8 * Z.of_nat (length mem - it_next it))
    with (64 + 8 * Z.of_nat (length mem - (it_next it + ITER_SIZE)))
    by (unfold ITER_SIZE; lia).
  rewrite positions_app by lia. f_equal.
  - rewrite positions_shift. unfold CHAR_BIT.
    replace (Z.of_nat (it_next it) * 8) with (8 * Z.of_nat (it_next it)) by lia.
    f_equal. apply positions_ext. intros k Hk. rewrite Hw by lia. done.
  - f_equal; unfold ITER_SIZE; lia.
Qed.

Lemma bit_iterator_refill_spec fuel it :
  it_ok it -> (length mem - it_next it < fuel)%nat ->
  exists found it',
    bit_iterator_refill fuel it = Some (found, it') /\ it_ok it' /\
    it_remaining it' = it_remaining it /\
    if (found : bool) then it_word it' <> 0 else it_remaining it = [].
Proof.
  revert it. induction fuel as [|fuel IH]; intros it Hok Hf; [lia|].
  simpl. destruct (Z.eqb_spec (it_word it) 0) as [H0|H0].
  2:{ exists true, it. auto. }
  pose proof Hok as (Hmem & Hxor & Hw & Hb & n & Hn).
  rewrite Hmem. case_bool_decide as Hend.
  - exists false, it. repeat split; try done; try lia; eauto.
    unfold it_remaining. rewrite H0.
    rewrite (positions_none (Z.testbit 0)) by (intros; apply Z.bits_0).
    by replace (length mem - it_next it)%nat with 0%nat by lia.
  - destruct (load_u64_word (it_next it)) as (w & Hld & Hwr & Hbits); [lia|].
    rewrite Hld. cbn [mbind option_bind]. rewrite Hxor.
    edestruct (IH (mk_bit_iterator (Z.lxor w xor) xor
      (Z.of_nat (it_next it) * CHAR_BIT) mem (it_next it + ITER_SIZE)))
      as (found & it' & Hr & Hok' & Hrem & Hfound).
    + repeat split; simpl; try done; try (apply (lxor_range 64); [done|done|apply xor_range]);
        unfold CHAR_BIT, ITER_SIZE; try lia.
      exists (n - 1)%nat. lia.
    + simpl. unfold ITER_SIZE. lia.
    + exists found, it'. split; [done|]. split; [done|].
      pose proof (it_remaining_refill it w Hok H0 ltac:(lia) Hbits) as Hrr.
      rewrite Hmem in Hrr. rewrite Hrr. auto.
Qed.

Lemma bit_iterator_next_spec it :
  it_ok it -> 8 * Z.of_nat (length mem) + 64 <= SIZE_MAX ->
  exists p it', bit_iterator_next it = Some (p, it') /\ it_ok it' /\
    if p =? SIZE_MAX then it_remaining it = []
    else it_remaining it = p :: it_remaining it'.
Proof.
  intros Hok Hsz. unfold bit_iterator_next.
  destruct (bit_iterator_refill_spec (S (length (it_mem it))) it)
    as (found & it' & -> & Hok' & Hrem & Hfound); [done|destruct Hok as (-> & _); lia|].
  cbn [mbind option_bind]. destruct found.
  2:{ exists SIZE_MAX, it'. rewrite Z.eqb_refl. auto. }
  pose proof Hok' as (Hmem & Hxor & Hw & Hb & n & Hn).
  destruct (it_word it') as [|p|p] eqn:Ep; [done| |lia].
  pose proof (ptrail_bound p 64 ltac:(lia) ltac:(lia)) as Hlt.
  pose proof (ptrail_nonneg p) as Hge.
  unfold bit_ctz_u64. rewrite ctz_naive_spec by (simpl; lia).
  eexists _, _. split; [done|]. split.
  - repeat split; cbn [it_word it_word_base it_next]; try done; try lia;
      try (apply (land_range 64); lia). by exists n.
  - replace (it_word_base it' + ptrail p =? SIZE_MAX) with false by lia.
    rewrite <- Hrem. unfold it_remaining. rewrite Ep.
    rewrite positions_pop by lia. rewrite fmap_cons.
    cbn [it_word it_word_base it_next app]. f_equal.
Qed.

Lemma bit_iterator_run_spec fuel it :
  it_ok it -> 8 * Z.of_nat (length mem) + 64 <= SIZE_MAX ->
  (length (it_remaining it) < fuel)%nat ->
  bit_iterator_run fuel it = Some (it_remaining it).
Proof.
  intros Hok Hsz. revert it Hok. induction fuel as [|fuel IH]; intros it Hok Hf; [lia|].
  simpl. destruct (bit_iterator_next_spec it Hok Hsz) as (p & it' & -> & Hok' & Hp).
  cbn [mbind option_bind]. destruct (p =? SIZE_MAX); [by rewrite Hp|].
  rewrite Hp in *. simpl in Hf. rewrite IH by (auto; lia). done.
Qed.
End Iterator.

(** The first, possibly partial, word of [bit_iterator_init]. *)
Lemma partial_word data set e k :
  bytes_wf data -> (e < 8)%nat -> (e <= length data)%nat -> 0 <= k < 64 ->
  let xor := if (set : bool) then 0 else u64 (-1) in
  Z.testbit (Z.lxor (le_load (take e data ++ drop e (le_store 8 xor))) xor) k =
  (k <? 8 * Z.of_nat e) && Bool.eqb (membit data k) set.
Proof.
  intros Hwf He Hle Hk xor.
  assert (bytes_wf (take e data ++ drop e (le_store 8 xor))) as Hb.
  { apply Forall_app. split; [by apply Forall_take|]. apply Forall_drop, le_store_wf. }
  erewrite (xor_want data set); [|done|by apply le_load_testbit; [|lia]].
  rewrite app_membit, length_take_le by lia.
  destruct (Z.ltb_spec k (8 * Z.of_nat e)); [by rewrite take_membit by lia|].
  rewrite drop_membit by lia.
  replace (8 * Z.of_nat e + (k - 8 * Z.of_nat e)) with k by lia.
  rewrite <- le_load_testbit by (apply le_store_wf || lia).
  rewrite le_load_store. subst xor. destruct set; [by rewrite Z.bits_0|].
  change (u64 (-1) mod 256 ^ Z.of_nat 8) with (Z.ones 64).
  by rewrite Z.ones_spec_low.
Qed.

Lemma bit_iterator_init_spec data set :
  bytes_wf data -> data <> [] ->
  exists it, bit_iterator_init data set = Some it /\ it_ok data set it /\
    it_remaining data set it =
    positions (fun k => Bool.eqb (membit data k) set) 0 (8 * Z.of_nat (length data)).
Proof.
  intros Hwf Hne. unfold bit_iterator_init.
  assert (0 < length data)%nat as Hlen by (destruct data; [done|simpl; lia]).
  rewrite bool_decide_eq_false_2 by lia.
  set (xor := if set then 0 else u64 (-1)). unfold ITER_SIZE.
  pose proof (xor_range data set : 0 <= xor < 2 ^ 64) as Hxr.
  pose proof (Nat.mod_upper_bound (length data) 8 ltac:(lia)) as Hub.
  pose proof (Nat.div_mod_eq (length data) 8) as Hdm.
  set (q := (length data / 8)%nat) in *.
  set (e := (length data mod 8)%nat) in *. case_bool_decide as He.
  - destruct (load_u64_word data set Hwf 0) as (w & Hld & Hw & Hbits); [lia|].
    rewrite Hld. cbn [mbind option_bind]. eexists. split; [done|]. split.
    + (repeat split); cbn [it_word it_word_base it_next it_word_xor]; try lia;
        try (apply (lxor_range 64); done || lia).
      exists (q - 1)%nat. lia.
    + unfold it_remaining. cbn [it_word it_next it_word_base].
      replace (8 * Z.of_nat (length data))
        with (64 + 8 * Z.of_nat (length data - 8)) by lia.
      rewrite positions_app by lia. f_equal.
      rewrite fmap_add_0. apply positions_ext. intros k Hk.
      apply Hbits. lia.
  - cbn [mbind option_bind]. eexists. split; [done|].
    assert (e <= length data)%nat by lia. split.
    + assert (bytes_wf (take e data ++ drop e (le_store 8 xor))) as Hb.
      { apply Forall_app. split; [by apply Forall_take|]. apply Forall_drop, le_store_wf. }
      (repeat split); cbn [it_word it_word_base it_next it_word_xor]; try lia.
      1,2: apply (lxor_range 64); try done; try lia; apply le_load_range64; [done|];
        rewrite length_app, length_take_le, length_drop, le_store_length; lia.
      exists q. lia.
    + unfold it_remaining. cbn [it_word it_next it_word_base].
      replace (8 * Z.of_nat (length data))
        with (8 * Z.of_nat e + 8 * Z.of_nat (length data - e)) by lia.
      rewrite positions_app by lia. f_equal.
      replace 64 with (8 * Z.of_nat e + (64 - 8 * Z.of_nat e)) by lia.
      rewrite positions_app by lia.
      rewrite (positions_none _ (0 + 8 * Z.of_nat e)).
      2:{ intros k Hk. subst xor. rewrite partial_word by (done || lia).
          by replace (k <? 8 * Z.of_nat e) with false by lia. }
      rewrite app_nil_r, fmap_add_0. apply positions_ext. intros k Hk.
      subst xor. rewrite partial_word by (done || lia).
      by replace (k <? 8 * Z.of_nat e) with true by lia.
Qed.

(** The iterator started on a chunk visits, in increasing order and without
    reading outside the chunk, exactly the bits with the requested value. *)
Lemma bit_positions_spec data set :
  bytes_wf data -> 8 * Z.of_nat (length data) + 64 <= SIZE_MAX ->
  bit_positions data set =
  Some (positions (fun k => Bool.eqb (membit data k) set) 0
          (8 * Z.of_nat (length data))).
Proof.
  intros Hwf Hsz. unfold bit_positions. destruct data as [|b bs]; [done|].
  destruct (bit_iterator_init_spec (b :: bs) set Hwf ltac:(done)) as (it & -> & Hok & Hrem).
  cbn [mbind option_bind]. rewrite (bit_iterator_run_spec _ set Hwf) by
    (try done; rewrite Hrem;
     pose proof (positions_length (fun k => Bool.eqb (membit (b :: bs) k) set) 0
       (8 * Z.of_nat (length (b :: bs)))); lia).
  by rewrite Hrem.
Qed.

(** ** Lemmas: counting *)

Lemma positions_0 a w : positions (Z.testbit 0) a w = [].
Proof. apply positions_none. intros. apply Z.bits_0. Qed.

Lemma positions_pos p w :
  0 <= w -> Z.pos p < 2 ^ w -> positions (Z.testbit (Z.pos p)) 0 w <> [].
Proof. intros. by rewrite positions_pop. Qed.

Lemma popcount_loop_spec w fuel x r :
  0 <= w -> 0 <= x < 2 ^ w ->
  (length (positions (Z.testbit x) 0 w) <= fuel)%nat ->
  popcount_loop fuel x r = r + Z.of_nat (length (positions (Z.testbit x) 0 w)).
Proof.
  intros Hw. revert x r. induction fuel as [|fuel IH]; intros x r Hx Hf; simpl.
  - destruct (positions _ _ _); simpl in *; lia.
  - destruct x as [|p|p]; [|simpl|lia].
    + rewrite positions_0. simpl. lia.
    + rewrite positions_pop in Hf |- * by lia. simpl in Hf |- *.
      rewrite IH; [lia| |lia]. apply land_range; lia.
Qed.

Lemma popcount_positions (w : nat) x :
  0 <= x < 2 ^ Z.of_nat w ->
  popcount_loop w x 0 = Z.of_nat (length (positions (Z.testbit x) 0 (Z.of_nat w))).
Proof.
  intros. rewrite (popcount_loop_spec (Z.of_nat w)) by
    (try lia; pose proof (positions_length (Z.testbit x) 0 (Z.of_nat w)); lia).
  lia.
Qed.

Lemma clz_loop_spec fuel x r :
  0 < x -> Z.log2 x < Z.of_nat fuel -> clz_loop fuel x r = r - (1 + Z.log2 x).
Proof.
  revert x r. induction fuel as [|fuel IH]; intros x r Hx Hf.
  { pose proof (Z.log2_nonneg x). lia. }
  simpl. replace (x =? 0) with false by lia. rewrite Z.shiftr_div_pow2 by lia.
  change (2 ^ 1) with 2. destruct (Z.lt_ge_cases x 2) as [Hlt|Hge].
  - replace x with 1 in * by lia. simpl. destruct fuel; simpl; lia.
  - assert (Z.log2 x = 1 + Z.log2 (x / 2)) as Hl.
    { rewrite (Z.div_mod x 2) at 1 by lia.
      pose proof (Z.mod_pos_bound x 2 ltac:(lia)).
      assert (x mod 2 = 0 \/ x mod 2 = 1) as [->| ->] by lia.
      - rewrite Z.add_0_r, Z.log2_double by dlia. lia.
      - rewrite Z.log2_succ_double by dlia. lia. }
    rewrite IH by (lia || dlia). lia.
Qed.

Lemma shiftr_positions x a w :
  0 <= a <= w -> (forall k, 0 <= k < a -> Z.testbit x k = false) ->
  positions (Z.testbit x) 0 w =
  Z.add a <$> positions (Z.testbit (Z.shiftr x a)) 0 (w - a).
Proof.
  intros Ha Hlow. replace w with (a + (w - a)) at 1 by lia.
  rewrite positions_app by lia. rewrite (positions_none _ 0 a) by (intros; apply Hlow; lia).
  rewrite positions_shift. simpl. f_equal.
  apply positions_ext. intros k Hk. rewrite Z.shiftr_spec by lia. f_equal. lia.
Qed.

Lemma positions_after_lowest p w :
  0 <= w -> Z.pos p < 2 ^ w ->
  positions (Z.testbit (Z.pos p)) 0 w =
  ptrail p :: (Z.add (ptrail p + 1) <$>
    positions (Z.testbit (Z.shiftr (Z.shiftr (Z.pos p) (ptrail p)) 1)) 0
      (w - (ptrail p + 1))).
Proof.
  intros Hw Hp. pose proof (ptrail_bound p w Hw Hp). pose proof (ptrail_nonneg p).
  rewrite positions_pop by done. f_equal. rewrite (shiftr_positions _ (ptrail p + 1)).
  - f_equal. apply positions_ext. intros k Hk.
    rewrite !Z.shiftr_spec, clear_lowest by lia.
    replace (k + (ptrail p + 1) =? ptrail p) with false by lia.
    rewrite andb_true_r. f_equal. lia.
  - lia.
  - intros k Hk. rewrite clear_lowest, ptrail_testbit by lia.
    by destruct (k =? ptrail p).
Qed.

Lemma bit_index_loop_spec (W : nat) w n x prev offset :
  0 <= w <= Z.of_nat W -> 0 <= x < 2 ^ w ->
  length (positions (Z.testbit x) 0 w) = n ->
  bit_index_loop (ctz_naive W) n x prev offset =
  ((fun k => offset + (prev + k + 1)) <$> positions (Z.testbit x) 0 w) ++ [0].
Proof.
  revert w x prev. induction n as [|n IH]; intros w x prev Hw Hx Hn.
  - apply nil_length_inv in Hn. by rewrite Hn.
  - destruct x as [|p|p]; [by rewrite positions_0 in Hn| |lia].
    pose proof (ptrail_bound p w ltac:(lia) ltac:(lia)). pose proof (ptrail_nonneg p).
    rewrite positions_after_lowest in Hn |- * by lia.
    rewrite fmap_cons, <- list_fmap_compose. simpl in Hn |- *.
    assert (2 ^ w <= 2 ^ Z.of_nat W) by (apply Z.pow_le_mono_r; lia).
    rewrite ctz_naive_spec by lia. f_equal; [lia|].
    rewrite (IH (w - (ptrail p + 1))).
    + f_equal. apply list_fmap_ext. intros i k _. simpl. lia.
    + lia.
    + rewrite Z.shiftr_shiftr by lia. apply bits_bound; [lia|]. intros k Hk.
      rewrite Z.shiftr_spec by lia. apply (testbit_above w); lia.
    + rewrite length_fmap in Hn. lia.
Qed.

Lemma bitindex_naive_loop_spec fuel (w : nat) x k offset :
  0 <= k -> k + Z.of_nat fuel = Z.of_nat w ->
  bitindex_naive_loop fuel (Z.of_nat w) x (uwrap (Z.of_nat w) (2 ^ k)) k offset =
  ((fun i => offset + (0 + i + 1)) <$> positions (Z.testbit x) k (Z.of_nat fuel)) ++ [0].
Proof.
  revert k. induction fuel as [|fuel IH]; intros k Hk Hf.
  - by rewrite positions_none by (intros; lia).
  - cbn [bitindex_naive_loop]. rewrite (uwrap_small _ (2 ^ k)) by
      (split; [apply Z.pow_nonneg; lia|apply Z.pow_lt_mono_r; lia]).
    rewrite Z.shiftl_mul_pow2 by lia.
    replace (2 ^ k * 2 ^ 1) with (2 ^ (k + 1)) by (rewrite Z.pow_add_r; lia).
    rewrite IH by lia. replace (Z.of_nat (S fuel)) with (1 + Z.of_nat fuel) by lia.
    rewrite positions_app by lia. rewrite fmap_app, <- app_assoc.
    rewrite positions_one.
    replace (Z.land x (2 ^ k) =? 0) with (negb (Z.testbit x k)).
    { destruct (Z.testbit x k); simpl; [|done]. f_equal. lia. }
    destruct (Z.testbit x k) eqn:Hb; symmetry.
    + apply Z.eqb_neq. intros H0. apply (f_equal (fun y => Z.testbit y k)) in H0.
      rewrite Z.land_spec, Hb, Z.pow2_bits_true, Z.bits_0 in H0 by lia. done.
    + apply Z.eqb_eq. apply Z.bits_inj'. intros i Hi. rewrite Z.land_spec, Z.bits_0.
      rewrite Z.pow2_bits_eqb by lia.
      destruct (Z.eqb_spec k i) as [<-|]; [by rewrite Hb|apply andb_false_r].
Qed.

(** ** Lemmas: setting and clearing bits *)

Lemma insert_membit bs (n : nat) b k :
  (n < length bs)%nat -> 0 <= k ->
  membit (<[n := b]> bs) k =
  if k / 8 =? Z.of_nat n then Z.testbit b (k mod 8) else membit bs k.
Proof.
  intros Hn Hk. unfold membit. rewrite !bit_test_lookup by done.
  destruct (Z.eqb_spec (k / 8) (Z.of_nat n)) as [E|E].
  - rewrite E, Nat2Z.id, list_lookup_insert_eq by done. done.
  - rewrite list_lookup_insert_ne; [done|]. intros ->. apply E.
    rewrite Z2Nat.id; [done|]. apply Z.div_pos; lia.
Qed.

Lemma byte_lookup_lt (bs : list Z) pos :
  0 <= pos < 8 * Z.of_nat (length bs) ->
  exists b, bs !! Z.to_nat (pos / 8) = Some b /\ (Z.to_nat (pos / 8) < length bs)%nat.
Proof.
  intros Hp. assert (Z.to_nat (pos / 8) < length bs)%nat as Hlt by dlia.
  destruct (lookup_lt_is_Some_2 _ _ Hlt) as [b Hb]. eauto.
Qed.

(** Shared by [bit_set] and [bit_clear]: rewriting one byte so that only the
    bit at [pos] changes, to [v]. *)
Lemma byte_update_spec bs pos b b' v :
  bytes_wf bs -> 0 <= pos < 8 * Z.of_nat (length bs) ->
  bs !! Z.to_nat (pos / 8) = Some b -> 0 <= b' < 256 ->
  (forall o, 0 <= o < 8 -> Z.testbit b' o =
     if o =? pos mod 8 then v else Z.testbit b o) ->
  bytes_wf (<[Z.to_nat (pos / 8) := b']> bs) /\
  forall k, 0 <= k ->
    membit (<[Z.to_nat (pos / 8) := b']> bs) k = if k =? pos then v else membit bs k.
Proof.
  intros Hwf Hp Hb Hb' Ho. split; [by apply Forall_insert|].
  intros k Hk. destruct (byte_lookup_lt bs pos Hp) as (b0 & Hb0 & Hlt).
  rewrite insert_membit by done. rewrite Z2Nat.id by (apply Z.div_pos; lia).
  destruct (Z.eqb_spec (k / 8) (pos / 8)) as [E|E].
  - rewrite Ho by (apply Z.mod_pos_bound; lia).
    destruct (Z.eqb_spec k pos) as [->|Hne]; [by rewrite Z.eqb_refl|].
    replace (k mod 8 =? pos mod 8) with false by dlia.
    unfold membit. rewrite bit_test_lookup by lia. by rewrite E, Hb.
  - destruct (Z.eqb_spec k pos) as [->|]; done.
Qed.

Lemma byte_mask_bits b o v :
  0 <= b < 256 -> 0 <= o < 8 ->
  let b' := u8 (if (v : bool) then Z.lor b (Z.shiftl 1 o)
                else Z.land b (Z.lnot (Z.shiftl 1 o))) in
  0 <= b' < 256 /\
  forall i, 0 <= i < 8 -> Z.testbit b' i = if i =? o then v else Z.testbit b i.
Proof.
  intros Hb Ho b'. split; [apply (uwrap_range 8); lia|]. intros i Hi. subst b'.
  rewrite uwrap_testbit by lia. replace (i <? 8) with true by lia. cbn [andb].
  destruct v.
  - rewrite Z.lor_spec, Z.shiftl_1_l, Z.pow2_bits_eqb by lia.
    destruct (Z.eqb_spec i o) as [->|]; [by rewrite Z.eqb_refl, orb_true_r|].
    replace (o =? i) with false by lia. apply orb_false_r.
  - rewrite Z.land_spec, Z.lnot_spec, Z.shiftl_1_l, Z.pow2_bits_eqb by lia.
    destruct (Z.eqb_spec i o) as [->|]; [by rewrite Z.eqb_refl, andb_false_r|].
    replace (o =? i) with false by lia. apply andb_true_r.
Qed.

(** [bit_set] ([v = true]) and [bit_clear] ([v = false]). *)
Definition bit_write (v : bool) (data : list Z) (pos : Z) :=
  if v then bit_set data pos else bit_clear data pos.

Lemma bit_write_spec v data pos :
  bytes_wf data -> 0 <= pos < 8 * Z.of_nat (length data) ->
  exists data', bit_write v data pos = Some (membit data pos, data') /\
    length data' = length data /\ bytes_wf data' /\
    forall k, 0 <= k -> membit data' k = if k =? pos then v else membit data k.
Proof.
  intros Hwf Hp. destruct (byte_lookup_lt data pos Hp) as (b & Hb & Hlt).
  assert (0 <= b < 256) as Hbr by exact (Forall_lookup_1 _ _ _ _ Hwf Hb).
  pose proof (Z.mod_pos_bound pos 8 ltac:(lia)) as Ho.
  destruct (byte_mask_bits b (pos mod 8) v Hbr Ho) as [Hr Hbits].
  eapply byte_update_spec in Hbits as [Hwf' Hk]; [|done..].
  eexists. split; [|split; [|split; [exact Hwf'|exact Hk]]].
  - unfold bit_write, bit_set, bit_clear, CHAR_BIT, membit.
    rewrite bit_test_lookup by lia. rewrite Hb. cbn [mbind option_bind].
    rewrite test_shiftr_land by lia. by destruct v.
  - by rewrite length_insert.
Qed.

Lemma bytes_ext bs bs' :
  bytes_wf bs -> bytes_wf bs' -> length bs = length bs' ->
  (forall k, 0 <= k < 8 * Z.of_nat (length bs) -> membit bs k = membit bs' k) ->
  bs = bs'.
Proof.
  intros H1 H2 Hl Hk. rewrite <- (le_store_load bs H1), <- (le_store_load bs' H2), <- Hl.
  f_equal. apply Z.bits_inj'. intros k H0. rewrite !le_load_testbit by done.
  destruct (Z.lt_ge_cases k (8 * Z.of_nat (length bs))); [by apply Hk|].
  by rewrite !membit_oob by lia.
Qed.

(** ** 32-bit masks: [vclock_map_t] and the vote mask of raft *)

Lemma store_u32_wf v : bytes_wf (store_u32 v).
Proof. apply le_store_wf. Qed.

Lemma store_u32_membit v k :
  0 <= v < 2 ^ 32 -> 0 <= k -> membit (store_u32 v) k = Z.testbit v k.
Proof.
  intros Hv Hk. rewrite <- le_load_testbit by (apply store_u32_wf || done).
  unfold store_u32. rewrite uwrap_small by done. rewrite le_load_store.
  change (256 ^ Z.of_nat 4) with (2 ^ 32). by rewrite Z.mod_small.
Qed.

(** Iterating a 32-bit mask lists its set bits. *)
Lemma bit_positions_u32 v :
  0 <= v < 2 ^ 32 ->
  bit_positions (store_u32 v) true = Some (positions (Z.testbit v) 0 32).
Proof.
  intros Hv. rewrite bit_positions_spec by (apply store_u32_wf || done).
  unfold store_u32. rewrite le_store_length. f_equal. apply positions_ext.
  intros k Hk. rewrite <- (store_u32_membit v) by lia. unfold store_u32.
  by destruct (membit _ _).
Qed.

Lemma bit_set_u32 v pos :
  0 <= v < 2 ^ 32 -> 0 <= pos < 32 ->
  bit_set (store_u32 v) pos = Some (Z.testbit v pos, store_u32 (Z.setbit v pos)).
Proof.
  intros Hv Hp.
  destruct (bit_write_spec true (store_u32 v) pos) as (d & Hd & Hl & Hwf & Hk);
    [apply store_u32_wf|unfold store_u32; rewrite le_store_length; lia|].
  cbn [bit_write] in Hd. rewrite Hd, store_u32_membit by lia. do 2 f_equal.
  assert (0 <= Z.setbit v pos < 2 ^ 32) as Hs.
  { rewrite Z.setbit_spec'. apply lor_range; [lia|done|].
    split; [apply Z.pow_nonneg; lia|apply Z.pow_lt_mono_r; lia]. }
  apply bytes_ext; [done|apply store_u32_wf|by rewrite Hl; unfold store_u32; rewrite !le_store_length|].
  intros k Hk'. rewrite Hk, !store_u32_membit by lia. rewrite Z.setbit_eqb by lia.
  rewrite (Z.eqb_sym pos k). by destruct (k =? pos).
Qed.

(** ** Lemmas: byte swaps *)

Lemma bswap_term x m s k :
  0 <= k -> Z.testbit (Z.land (Z.shiftl x s) m) k = Z.testbit x (k - s) && Z.testbit m k.
Proof. intros. by rewrite Z.land_spec, Z.shiftl_spec. Qed.

Lemma bswap_term' x m s k :
  0 <= k -> Z.testbit (Z.land (Z.shiftr x s) m) k = Z.testbit x (k + s) && Z.testbit m k.
Proof. intros. by rewrite Z.land_spec, Z.shiftr_spec. Qed.

(** Decide the mask bits of one concrete position. *)
Ltac bswap_bit :=
  rewrite ?Z.lor_spec, ?bswap_term, ?bswap_term' by lia;
  repeat match goal with
  | |- context [Z.testbit (Z.pos ?m) ?c] =>
      let v := eval vm_compute in (Z.testbit (Z.pos m) c) in
      change (Z.testbit (Z.pos m) c) with v
  end;
  rewrite ?andb_false_r, ?andb_true_r, ?orb_false_r, ?orb_false_l; reflexivity.

Lemma bswap_u32_testbit x k :
  0 <= k < 32 ->
  Z.testbit (bswap_u32 x) k = Z.testbit x (8 * (3 - k / 8) + k mod 8).
Proof.
  intros Hk. unfold bswap_u32. destruct (Z_of_nat_complete k) as [n ->]; [lia|].
  do 32 (destruct n as [|n]; [bswap_bit|]). lia.
Qed.

Lemma bswap_u64_testbit x k :
  0 <= k < 64 ->
  Z.testbit (bswap_u64 x) k = Z.testbit x (8 * (7 - k / 8) + k mod 8).
Proof.
  intros Hk. unfold bswap_u64. destruct (Z_of_nat_complete k) as [n ->]; [lia|].
  do 64 (destruct n as [|n]; [bswap_bit|]). lia.
Qed.

Lemma bit_index_naive (w : nat) x offset :
  0 <= x < 2 ^ Z.of_nat w ->
  bit_index_loop (ctz_naive w) (Z.to_nat (popcount_loop w x 0)) x 0 offset =
  bitindex_naive w x offset.
Proof.
  intros Hx. rewrite popcount_positions, Nat2Z.id by done.
  rewrite (bit_index_loop_spec w (Z.of_nat w)) by (done || lia).
  unfold bitindex_naive. destruct w as [|w]; [by rewrite positions_none by (intros; lia)|].
  rewrite <- (bitindex_naive_loop_spec _ (S w)) by lia.
  rewrite uwrap_small; [done|]. change (2 ^ 0) with 1.
  split; [lia|]. apply Z.pow_gt_1; lia.
Qed.

Lemma rot_inverse w x r :
  0 <= x < 2 ^ w -> 0 < r < w ->
  let y := Z.lor (uwrap w (Z.shiftl x r)) (Z.shiftr x (w - r)) in
  Z.lor (Z.shiftr y r) (uwrap w (Z.shiftl y (w - r))) = x.
Proof.
  intros Hx Hr y. apply Z.bits_inj'. intros k Hk. subst y.
  rewrite Z.lor_spec, uwrap_testbit, Z.shiftl_spec, Z.shiftr_spec by lia.
  assert (forall i, Z.testbit (Z.lor (uwrap w (Z.shiftl x r)) (Z.shiftr x (w - r))) i =
    if i <? 0 then false else
    ((i <? w) && Z.testbit x (i - r)) || Z.testbit x (i + (w - r))) as Hy.
  { intros i. destruct (Z.ltb_spec i 0) as [Hi|Hi]; [by apply Z.testbit_neg_r|].
    by rewrite Z.lor_spec, uwrap_testbit, Z.shiftl_spec, Z.shiftr_spec by lia. }
  rewrite !Hy. clear Hy.
  replace (k + r <? 0) with false by lia.
  replace (k + r - r) with k by lia. replace (k - (w - r) + (w - r)) with k by lia.
  rewrite (testbit_above w x (k + r + (w - r))) by lia. rewrite orb_false_r.
  destruct (Z.ltb_spec (k + r) w), (Z.ltb_spec (k - (w - r)) 0),
    (Z.ltb_spec k w), (Z.ltb_spec (k - (w - r)) w); try lia; cbn [andb orb].
  - by rewrite orb_false_r.
  - rewrite (Z.testbit_neg_r x (k - (w - r) - r)) by lia. done.
  - by rewrite (testbit_above w x k) by lia.
  - by rewrite (testbit_above w x k) by lia.
Qed.

Section Bswap.
Context (n : nat) (swap : Z -> Z).
Let w : Z := 8 * Z.of_nat n.
Hypothesis swap_bit : forall x k, 0 <= k < w ->
  Z.testbit (swap x) k = Z.testbit x (8 * (Z.of_nat n - 1 - k / 8) + k mod 8).
Hypothesis swap_range : forall x, 0 <= swap x < 2 ^ w.

Lemma bswap_involutive x : 0 <= x < 2 ^ w -> swap (swap x) = x.
Proof.
  intros Hx. apply Z.bits_inj'. intros k Hk.
  destruct (Z.lt_ge_cases k w) as [Hlt|Hge].
  - subst w. rewrite !swap_bit by dlia. f_equal. dlia.
  - by rewrite !(testbit_above w) by auto.
Qed.

Lemma bswap_bytes x :
  0 <= x < 2 ^ w ->
  le_store n (uwrap w (swap x)) = reverse (le_store n (uwrap w x)).
Proof.
  intros Hx. assert (256 ^ Z.of_nat n = 2 ^ w) as Hpow.
  { subst w. rewrite Z.pow_mul_r by lia. done. }
  rewrite !uwrap_small by auto.
  apply bytes_ext; [apply le_store_wf|apply Forall_reverse, le_store_wf| |].
  { by rewrite length_reverse, !le_store_length. }
  rewrite le_store_length. intros k Hk.
  assert (forall y i, 0 <= y < 2 ^ w -> 0 <= i -> membit (le_store n y) i = Z.testbit y i) as Hm.
  { intros y i Hy Hi. rewrite <- le_load_testbit by (apply le_store_wf || done).
    rewrite le_load_store, Hpow. by rewrite Z.mod_small. }
  rewrite Hm by (auto || lia). rewrite swap_bit by done. rewrite <- Hm by (done || dlia).
  unfold membit. rewrite !bit_test_lookup by dlia.
  replace ((8 * (Z.of_nat n - 1 - k / 8) + k mod 8) mod 8) with (k mod 8) by dlia.
  rewrite reverse_lookup by (rewrite le_store_length; dlia).
  rewrite le_store_length. do 3 f_equal. dlia.
Qed.
End Bswap.

Lemma bswap_u32_range x : 0 <= bswap_u32 x < 2 ^ 32.
Proof.
  unfold bswap_u32.
  repeat (apply lor_range; [lia| |]); rewrite Z.land_comm; apply (land_range 32); lia.
Qed.

Lemma bswap_u64_range x : 0 <= bswap_u64 x < 2 ^ 64.
Proof.
  unfold bswap_u64.
  repeat (apply lor_range; [lia| |]); rewrite Z.land_comm; apply (land_range 64); lia.
Qed.

(** ** Theorems *)

(** The bit iterator, run to the end over any memory chunk, never reads
    outside it and visits in strictly increasing order exactly those positions
    whose bit, as [bit_test] sees it, has the requested value. *)
Theorem bit_iterator_complete data set :
  bytes_wf data -> 8 * Z.of_nat (length data) + 64 <= SIZE_MAX ->
  exists l, bit_positions data set = Some l /\ StronglySorted Z.lt l /\
    forall pos, In pos l <->
      0 <= pos /\ bit_test data pos = Some set.
Proof.
  intros Hwf Hsz. eexists. split; [by apply bit_positions_spec|]. split.
  - apply positions_sorted.
  - intros pos. rewrite positions_In, eqb_true_iff. unfold membit. split.
    + intros [Hp Hb]. split; [lia|].
      destruct (byte_lookup_lt data pos ltac:(lia)) as (b & Hl & _).
      rewrite bit_test_lookup in Hb |- * by lia. rewrite Hl in Hb |- *. simpl in *. by rewrite Hb.
    + intros [Hp Hb]. rewrite Hb. split; [|done]. split; [done|].
      apply Z.nle_gt. intros Hoob. rewrite bit_test_lookup in Hb by lia.
      rewrite lookup_ge_None_2 in Hb by dlia. done.
Qed.

Lemma bit_iterator_complete_witness :
  exists l, bit_positions [0x81; 0x00; 0x03; 0x00; 0xff] false = Some l /\
    StronglySorted Z.lt l /\
    forall pos, In pos l <->
      0 <= pos /\ bit_test [0x81; 0x00; 0x03; 0x00; 0xff] pos = Some false.
Proof.
  apply (bit_iterator_complete [0x81; 0x00; 0x03; 0x00; 0xff] false).
  - repeat constructor; lia.
  - vm_compute. discriminate.
Defined.

(** the ctz/popcount routines [bit_index_u32] and [bit_index_u64] write
    the same zero-terminated list of indexes as the bit-by-bit reference loop
    BITINDEX_NAIVE, for every word and offset. *)
Theorem bit_index_equiv_naive x offset :
  (0 <= x < 2 ^ 32 -> bit_index_u32 x offset = bitindex_naive 32 x offset) /\
  (0 <= x < 2 ^ 64 -> bit_index_u64 x offset = bitindex_naive 64 x offset).
Proof. split; intros Hx; by apply bit_index_naive. Qed.

Lemma bit_index_equiv_naive_witness :
  bit_index_u32 0x80000005 10 = bitindex_naive 32 0x80000005 10 /\
  bit_index_u64 0x8000000000000005 0 = bitindex_naive 64 0x8000000000000005 0.
Proof.
  split.
  - exact (proj1 (bit_index_equiv_naive 0x80000005 10) ltac:(lia)).
  - exact (proj2 (bit_index_equiv_naive 0x8000000000000005 0) ltac:(lia)).
Defined.

(** Inside the bitmap [bit_set] and [bit_clear] return the previous value
    of the bit, change that bit and no other, keep the size, and the bytes
    stay bytes; outside the bitmap they are an out-of-range access. *)
Theorem bit_set_clear_frame v data pos :
  bytes_wf data -> 0 <= pos ->
  match bit_write v data pos with
  | Some (prev, data') =>
      bit_test data pos = Some prev /\ bit_test data' pos = Some v /\
      length data' = length data /\ bytes_wf data' /\
      forall k, 0 <= k -> k <> pos -> bit_test data' k = bit_test data k
  | None => 8 * Z.of_nat (length data) <= pos
  end.
Proof.
  intros Hwf Hp. destruct (Z.lt_ge_cases pos (8 * Z.of_nat (length data))) as [Hlt|Hge].
  - destruct (bit_write_spec v data pos Hwf ltac:(lia)) as (d & -> & Hl & Hw & Hk).
    assert (forall l k, 0 <= k < 8 * Z.of_nat (length l) -> bit_test l k = Some (membit l k)) as Hin.
    { intros l k Hkr. destruct (byte_lookup_lt l k Hkr) as (b & Hb & _).
      unfold membit. rewrite bit_test_lookup by lia. by rewrite Hb. }
    rewrite !Hin by lia. rewrite Hk, Z.eqb_refl by lia. (repeat split); try done.
    intros k H0 Hne. destruct (Z.lt_ge_cases k (8 * Z.of_nat (length data))).
    + rewrite !Hin by lia. rewrite Hk by lia. by replace (k =? pos) with false by lia.
    + rewrite !bit_test_lookup by lia. by rewrite !lookup_ge_None_2 by dlia.
  - destruct (bit_write v data pos) as [[prev d]|] eqn:E; [|done].
    unfold bit_write, bit_set, bit_clear, CHAR_BIT in E.
    rewrite lookup_ge_None_2 in E by dlia. by destruct v.
Qed.

Lemma bit_set_clear_frame_witness :
  bit_test [0; 5] 9 = Some false /\ bit_test [0; 7] 9 = Some true.
Proof.
  pose proof (bit_set_clear_frame true [0; 5] 9
    ltac:(repeat constructor; lia) ltac:(lia)) as H.
  change (bit_write true [0; 5] 9) with (Some (false, [0; 7])) in H.
  destruct H as (H1 & H2 & _). exact (conj H1 H2).
Defined.

(** Rotating left and back right is the identity, and a byte swap reverses
    the bytes of the word and is its own inverse, for 32- and 64-bit words. *)
Theorem rotate_and_swap_roundtrip x r :
  (0 <= x < 2 ^ 32 -> 0 < r < 32 ->
     bit_rotr_u32 (bit_rotl_u32 x r) r = x /\ bswap_u32 (bswap_u32 x) = x /\
     store_u32 (bswap_u32 x) = reverse (store_u32 x)) /\
  (0 <= x < 2 ^ 64 -> 0 < r < 64 ->
     bit_rotr_u64 (bit_rotl_u64 x r) r = x /\ bswap_u64 (bswap_u64 x) = x /\
     store_u64 (bswap_u64 x) = reverse (store_u64 x)).
Proof.
  split; intros Hx Hr; (split; [|split]).
  - by apply (rot_inverse 32).
  - apply (bswap_involutive 4); auto using bswap_u32_testbit, bswap_u32_range.
  - apply (bswap_bytes 4); auto using bswap_u32_testbit, bswap_u32_range.
  - by apply (rot_inverse 64).
  - apply (bswap_involutive 8); auto using bswap_u64_testbit, bswap_u64_range.
  - apply (bswap_bytes 8); auto using bswap_u64_testbit, bswap_u64_range.
Qed.

Lemma rotate_and_swap_roundtrip_witness :
  bit_rotr_u32 (bit_rotl_u32 0x12345678 7) 7 = 0x12345678 /\
  bswap_u64 (bswap_u64 0x1122334455667788) = 0x1122334455667788.
Proof.
  split.
  - exact (proj1 (proj1 (rotate_and_swap_roundtrip 0x12345678 7)
             ltac:(lia) ltac:(lia))).
  - exact (proj1 (proj2 (proj2 (rotate_and_swap_roundtrip 0x1122334455667788 7)
             ltac:(lia) ltac:(lia)))).
Defined.
