(* ===== verification/Vclock.v ===== *)
(** * Vector clocks (src/lib/vclock/vclock.h, src/lib/vclock/vclock.c)

    The record [vclock] is the C struct without its tree link; the array
    [lsn] may hold garbage at components whose bit in [map] is clear, as in C.
    A failed [assert()] and an access outside the array are [None].  [comp]
    reads a component the way the abstract clock has it: 0 when absent. *)

From S2P Require Import Prelude Bits.

Open Scope Z_scope.

Definition VCLOCK_MAX : Z := 32.
Definition VCLOCK_ORDER_UNDEFINED : Z := INT_MAX.

Record vclock := mk_vclock {
  vc_map : Z;            (** map of used components, uint32_t *)
  vc_signature : Z;      (** sum of all components, int64_t *)
  vc_lsn : list Z;       (** int64_t lsn[VCLOCK_MAX] *)
}.
#[export] Instance vclock_rebuild : Rebuild vclock :=
  fun v => mk_vclock (vc_map v) (vc_signature v) (vc_lsn v).

Definition guard_assert (b : bool) : option unit := if b then Some tt else None.

(** ** Operations of vclock.h *)

Definition vclock_create (v : vclock) : vclock :=
  v <| vc_signature := 0 |> <| vc_map := 0 |> <| vc_lsn ::= <[0%nat := 0]> |>.

Definition vclock_clear (v : vclock) : vclock :=
  v <| vc_signature := -1 |> <| vc_map := 0 |> <| vc_lsn ::= <[0%nat := 0]> |>.

Definition vclock_is_set (v : vclock) : bool := 0 <=? vc_signature v.

Definition vclock_get (v : vclock) (replica_id : Z) : option Z :=
  guard_assert (replica_id <? VCLOCK_MAX);;
  l ← vc_lsn v !! Z.to_nat replica_id;
  let mask := i64 (u64 (0 - Z.land (Z.shiftr (vc_map v) replica_id) 1)) in
  Some (Z.land mask l).

Definition map_set (m replica_id : Z) : Z :=
  u32 (Z.lor m (Z.shiftl 1 replica_id)).
Definition map_clear (m replica_id : Z) : Z :=
  u32 (Z.land m (Z.lnot (Z.shiftl 1 replica_id))).

Definition vclock_inc (v : vclock) (replica_id : Z) : option (Z * vclock) :=
  guard_assert (replica_id <? VCLOCK_MAX);;
  let id := Z.to_nat replica_id in
  let v :=
    if Z.land (Z.shiftr (vc_map v) replica_id) 1 =? 0 then
      v <| vc_lsn ::= <[id := 0]> |>
        <| vc_map ::= fun m => map_set m replica_id |>
    else v in
  let v := v <| vc_signature ::= fun s => i64 (s + 1) |> in
  l ← vc_lsn v !! id;
  Some (i64 (l + 1), v <| vc_lsn ::= <[id := i64 (l + 1)]> |>).

Definition vclock_reset (v : vclock) (replica_id lsn : Z) : option vclock :=
  guard_assert (0 <=? lsn);;
  guard_assert (replica_id <? VCLOCK_MAX);;
  g ← vclock_get v replica_id;
  let v := v <| vc_signature ::= fun s => i64 (s - g) |> in
  if lsn =? 0 then
    Some (v <| vc_map ::= fun m => map_clear m replica_id |>)
  else
    Some (v <| vc_lsn ::= <[Z.to_nat replica_id := lsn]> |>
            <| vc_map ::= fun m => map_set m replica_id |>
            <| vc_signature ::= fun s => i64 (s + lsn) |>).

(** [memcpy] of the header and of the first [max_pos] components. *)
Definition vclock_copy (dst src : vclock) : vclock :=
  let max_pos := Z.to_nat (VCLOCK_MAX - bit_clz_u32 (Z.lor (vc_map src) 1)) in
  mk_vclock (vc_map src) (vc_signature src)
    (take max_pos (vc_lsn src) ++ drop max_pos (vc_lsn dst)).

Definition vclock_size (v : vclock) : Z := bit_count_u32 (vc_map v).
Definition vclock_size_ignore0 (v : vclock) : Z :=
  bit_count_u32 (Z.land (vc_map v) (Z.lnot 1)).

(** The component ids a [bit_iterator] over a map visits. *)
Definition map_ids (m : Z) : option (list Z) := bit_positions (store_u32 m) true.

(** [vclock_foreach]: the (id, lsn) pairs [vclock_iterator_next] returns. *)
Record vclock_c := mk_vclock_c { c_id : Z; c_lsn : Z }.

Definition vclock_foreach (v : vclock) : option (list vclock_c) :=
  ids ← map_ids (vc_map v);
  mapM (fun id => l ← vc_lsn v !! Z.to_nat id; Some (mk_vclock_c id l)) ids.

Definition vclock_calc_sum (v : vclock) : option Z :=
  cs ← vclock_foreach v;
  Some (foldl (fun sum c => i64 (sum + c_lsn c)) 0 cs).

Definition vclock_sum (v : vclock) : Z := vc_signature v.

Definition vclock_follow (v : vclock) (replica_id lsn : Z)
    : option (Z * vclock) :=
  guard_assert (0 <=? lsn);;
  guard_assert (replica_id <? VCLOCK_MAX);;
  prev_lsn ← vclock_get v replica_id;
  guard_assert (prev_lsn <? lsn);;
  Some (prev_lsn,
        v <| vc_map ::= fun m => map_set m replica_id |>
          <| vc_lsn ::= <[Z.to_nat replica_id := lsn]> |>
          <| vc_signature ::= fun s => i64 (s + (lsn - prev_lsn)) |>).

(** [vclock_merge(dst, diff)]: both clocks after the call. *)
Fixpoint merge_loop (dst : vclock) (cs : list vclock_c) : option vclock :=
  match cs with
  | [] => Some dst
  | c :: cs =>
      g ← vclock_get dst (c_id c);
      '(_, dst) ← vclock_follow dst (c_id c) (i64 (g + c_lsn c));
      merge_loop dst cs
  end.
Definition vclock_merge (dst diff : vclock) : option (vclock * vclock) :=
  cs ← vclock_foreach diff;
  dst ← merge_loop dst cs;
  Some (dst, vclock_create diff).

Fixpoint compare_loop (a b : vclock) (le ge : bool) (ids : list Z) : option Z :=
  match ids with
  | [] =>
      Some (if ge && negb le then 1 else if le && negb ge then -1 else 0)
  | replica_id :: ids =>
      lsn_a ← vclock_get a replica_id;
      lsn_b ← vclock_get b replica_id;
      let le := le && (lsn_a <=? lsn_b) in
      let ge := ge && (lsn_b <=? lsn_a) in
      if negb ge && negb le then Some VCLOCK_ORDER_UNDEFINED
      else compare_loop a b le ge ids
  end.

(** Drop a leading component 0. *)
Definition skip_zero (ids : list Z) : list Z :=
  match ids with
  | replica_id :: rest => if replica_id =? 0 then rest else ids
  | [] => []
  end.

Definition vclock_compare_generic (a b : vclock) (ignore_zero : bool)
    : option Z :=
  ids ← map_ids (Z.lor (vc_map a) (vc_map b));
  compare_loop a b true true (if ignore_zero then skip_zero ids else ids).

Definition vclock_compare (a b : vclock) : option Z :=
  vclock_compare_generic a b false.
Definition vclock_compare_ignore0 (a b : vclock) : option Z :=
  vclock_compare_generic a b true.

Fixpoint lex_loop (a b : vclock) (ids : list Z) : option Z :=
  match ids with
  | [] => Some 0
  | replica_id :: ids =>
      lsn_a ← vclock_get a replica_id;
      lsn_b ← vclock_get b replica_id;
      if lsn_a <? lsn_b then Some (-1)
      else if lsn_b <? lsn_a then Some 1
      else lex_loop a b ids
  end.
Definition vclock_lex_compare (a b : vclock) : option Z :=
  ids ← map_ids (Z.lor (vc_map a) (vc_map b));
  lex_loop a b ids.

Fixpoint min_loop (a b : vclock) (ids : list Z) : option vclock :=
  match ids with
  | [] => Some a
  | replica_id :: ids =>
      lsn_a ← vclock_get a replica_id;
      lsn_b ← vclock_get b replica_id;
      if lsn_a <=? lsn_b then min_loop a b ids
      else a ← vclock_reset a replica_id lsn_b; min_loop a b ids
  end.
Definition vclock_min_ignore0 (a b : vclock) : option vclock :=
  ids ← map_ids (Z.lor (vc_map a) (vc_map b));
  min_loop a b (skip_zero ids).

(** ** Sets of clocks (vclock.c, [vclockset_t])

    The red-black tree comes from a library outside this repository.  A set is
    seen here as its clocks in tree order; [psearch] is the tree's proximity
    search and returns a position of that order. *)

Definition vclockset_node_compare (a b : vclock) : option Z :=
  res ← vclock_compare a b;
  Some (if res =? VCLOCK_ORDER_UNDEFINED then 0 else res).

Fixpoint match_loop (set : list vclock) (key : vclock) (n : nat)
    : option (option vclock) :=
  match n with
  | O => Some None
  | S n =>
      match set !! n with
      | None => None
      | Some m =>
          c ← vclock_compare m key;
          if c <=? 0 then Some (Some m) else match_loop set key n
      end
  end.

(** [n] clocks of the order are at or before the match [psearch] found. *)
Definition vclockset_match (psearch : list vclock -> vclock -> nat)
    (set : list vclock) (key : vclock) : option (option vclock) :=
  r ← match_loop set key (psearch set key);
  match r with
  | Some m => Some (Some m)
  | None => Some (head set)
  end.

(** ** The abstract clock *)

(** Component [id]: 0 when the clock does not have it. *)
Definition comp (v : vclock) (id : Z) : Z :=
  if Z.testbit (vc_map v) id then vc_lsn v !!! Z.to_nat id else 0.

Definition ids_all : list Z := seqZ 0 32.
Definition total_over (f : Z -> Z) (l : list Z) : Z := foldr (fun id s => f id + s) 0 l.
(** The exact sum of the components. *)
Definition total (v : vclock) : Z := total_over (comp v) ids_all.

(** Shape of a clock: the array has its size, the map its width, and the
    components are LSNs. *)
Record vclock_ok (v : vclock) : Prop := {
  ok_len : length (vc_lsn v) = 32%nat;
  ok_map : 0 <= vc_map v < 2 ^ 32;
  ok_comp : forall id, 0 <= id < 32 -> 0 <= comp v id <= INT64_MAX;
}.

(** Well-formed clock: the cached signature is the sum (modulo 2^64). *)
Definition vclock_wf (v : vclock) : Prop :=
  vclock_ok v /\ vc_signature v = i64 (total v).

(** Two clocks denote the same abstract clock. *)
#[export] Instance vclock_equiv : Equiv vclock := fun a b =>
  forall id, 0 <= id < 32 -> comp a id = comp b id.
#[export] Instance vclock_equivalence : Equivalence (≡@{vclock}).
Proof.
  split; unfold equiv, vclock_equiv.
  - done.
  - intros a b H id Hid. by rewrite H.
  - intros a b c H1 H2 id Hid. by rewrite H1, H2.
Qed.

(** ** Lemmas on 64-bit arithmetic and maps *)

Lemma i64_add_l a b : i64 (i64 a + b) = i64 (a + b).
Proof.
  unfold swrap. f_equal.
  replace ((a + 2 ^ (64 - 1)) mod 2 ^ 64 - 2 ^ (64 - 1) + b + 2 ^ (64 - 1))
    with ((a + 2 ^ (64 - 1)) mod 2 ^ 64 + b) by lia.
  rewrite Z.add_mod_idemp_l by lia. f_equal. lia.
Qed.

Lemma i64_sub_l a b : i64 (i64 a - b) = i64 (a - b).
Proof. rewrite <- Z.add_opp_r, i64_add_l. by rewrite Z.add_opp_r. Qed.

Lemma i64_small x : - 2 ^ 63 <= x <= INT64_MAX -> i64 x = x.
Proof. intros. apply swrap_small; unfold INT64_MAX in *; lia. Qed.

Lemma map_set_testbit m i k :
  0 <= m < 2 ^ 32 -> 0 <= i < 32 -> 0 <= k ->
  Z.testbit (map_set m i) k = (k =? i) || Z.testbit m k.
Proof.
  intros Hm Hi Hk. unfold map_set. rewrite uwrap_testbit by lia.
  rewrite Z.lor_spec, Z.shiftl_1_l, Z.pow2_bits_eqb, (Z.eqb_sym i k) by lia.
  destruct (Z.ltb_spec k 32); cbn [andb]; [apply orb_comm|].
  rewrite (testbit_above 32) by lia. by replace (k =? i) with false by lia.
Qed.

Lemma map_clear_testbit m i k :
  0 <= m < 2 ^ 32 -> 0 <= i < 32 -> 0 <= k ->
  Z.testbit (map_clear m i) k = negb (k =? i) && Z.testbit m k.
Proof.
  intros Hm Hi Hk. unfold map_clear. rewrite uwrap_testbit by lia.
  rewrite Z.land_spec, Z.lnot_spec, Z.shiftl_1_l, Z.pow2_bits_eqb, (Z.eqb_sym i k) by lia.
  destruct (Z.ltb_spec k 32); cbn [andb]; [apply andb_comm|].
  rewrite (testbit_above 32) by lia. by rewrite andb_false_r.
Qed.

Lemma map_set_range m i : 0 <= map_set m i < 2 ^ 32.
Proof. apply (uwrap_range 32). lia. Qed.
Lemma map_clear_range m i : 0 <= map_clear m i < 2 ^ 32.
Proof. apply (uwrap_range 32). lia. Qed.

(** ** Lemmas on components *)

Lemma lsn_lookup v id :
  vclock_ok v -> 0 <= id < 32 ->
  vc_lsn v !! Z.to_nat id = Some (vc_lsn v !!! Z.to_nat id).
Proof.
  intros Hok Hid. apply list_lookup_lookup_total_lt. rewrite ok_len by done. lia.
Qed.

Lemma test_map v id :
  0 <= id -> (Z.land (Z.shiftr (vc_map v) id) 1 =? 0) = negb (Z.testbit (vc_map v) id).
Proof. intros. by rewrite <- test_shiftr_land, negb_involutive by done. Qed.

Lemma vclock_get_spec v id :
  vclock_ok v -> 0 <= id < 32 -> vclock_get v id = Some (comp v id).
Proof.
  intros Hok Hid. unfold vclock_get, comp, guard_assert, VCLOCK_MAX.
  replace (id <? 32) with true by lia. cbn [mbind option_bind].
  rewrite lsn_lookup by done. cbn [mbind option_bind].
  rewrite (Z.land_ones _ 1) by lia. change (2 ^ 1) with 2.
  rewrite Zmod_odd, <- Z.testbit_odd. destruct (Z.testbit _ _); [|done].
  change (i64 (u64 (0 - 1))) with (-1). by rewrite Z.land_m1_l.
Qed.

Lemma total_over_ext f g l :
  (forall id, In id l -> f id = g id) -> total_over f l = total_over g l.
Proof.
  induction l as [|x l IH]; intros H; simpl; [done|].
  rewrite (H x) by (by left). rewrite IH; [done|]. intros; apply H; by right.
Qed.

Lemma total_over_update f g l i :
  NoDup l -> In i l -> (forall id, In id l -> id <> i -> g id = f id) ->
  total_over g l = total_over f l + (g i - f i).
Proof.
  induction 1 as [|x l Hx Hnd IH]; intros Hin Hg; [done|]. simpl.
  destruct Hin as [->|Hin].
  - rewrite (total_over_ext g f l); [lia|]. intros id Hid. apply Hg; [by right|].
    intros ->. by apply Hx, list_elem_of_In.
  - rewrite IH; [|done|intros; apply Hg; auto; by right].
    rewrite (Hg x); [lia|by left|]. intros ->. by apply Hx, list_elem_of_In.
Qed.

Lemma ids_all_In id : In id ids_all <-> 0 <= id < 32.
Proof. unfold ids_all. rewrite <- list_elem_of_In, elem_of_seqZ. lia. Qed.

Lemma total_update v w i :
  0 <= i < 32 -> (forall id, 0 <= id < 32 -> id <> i -> comp w id = comp v id) ->
  total w = total v + (comp w i - comp v i).
Proof.
  intros Hi H. apply total_over_update; [apply NoDup_seqZ|by apply ids_all_In|].
  intros id Hid. by apply H, ids_all_In.
Qed.

Lemma total_equiv v w : v ≡ w -> total v = total w.
Proof. intros H. apply total_over_ext. intros id Hid. by apply H, ids_all_In. Qed.

(** The common shape of every update of one component. *)
Lemma vclock_set_wf v w i x :
  vclock_wf v -> 0 <= i < 32 -> 0 <= x <= INT64_MAX ->
  length (vc_lsn w) = 32%nat -> 0 <= vc_map w < 2 ^ 32 ->
  (forall id, 0 <= id < 32 -> comp w id = if id =? i then x else comp v id) ->
  vc_signature w = i64 (vc_signature v + (x - comp v i)) ->
  vclock_wf w.
Proof.
  intros [Hok Hsig] Hi Hx Hl Hm Hc Hs. split.
  - split; [done|done|]. intros id Hid. rewrite Hc by done.
    destruct (id =? i); [done|]. by apply ok_comp.
  - rewrite Hs, Hsig, i64_add_l. f_equal. rewrite (total_update v w i) by
      (try done; intros id Hid Hne; rewrite Hc by done; by replace (id =? i) with false by lia).
    rewrite Hc, Z.eqb_refl by done. done.
Qed.

Lemma comp_set v m s i x id :
  vclock_ok v -> 0 <= i < 32 -> 0 <= id < 32 ->
  Z.testbit m id = (id =? i) || Z.testbit (vc_map v) id ->
  comp (mk_vclock m s (<[Z.to_nat i := x]> (vc_lsn v))) id =
  if id =? i then x else comp v id.
Proof.
  intros Hok Hi Hid Hm. unfold comp. cbn [vc_map vc_lsn]. rewrite Hm.
  destruct (Z.eqb_spec id i) as [->|Hne]; cbn [orb].
  - rewrite list_lookup_total_insert_eq; [done|]. rewrite ok_len by done. lia.
  - destruct (Z.testbit (vc_map v) id); [|done].
    rewrite list_lookup_total_insert_ne; [done|]. lia.
Qed.

(** ** Lemmas: the operations on one component *)

Definition upd (v : vclock) (i x id : Z) : Z := if id =? i then x else comp v id.

Lemma vclock_follow_spec v id lsn :
  vclock_wf v -> 0 <= id < 32 -> comp v id < lsn <= INT64_MAX ->
  exists w, vclock_follow v id lsn = Some (comp v id, w) /\ vclock_wf w /\
    forall k, 0 <= k < 32 -> comp w k = upd v id lsn k.
Proof.
  intros Hwf Hid Hlsn. pose proof Hwf as [Hok Hsig].
  pose proof (ok_comp v Hok id Hid) as Hc. unfold vclock_follow, guard_assert, VCLOCK_MAX.
  replace (0 <=? lsn) with true by lia. replace (id <? 32) with true by lia.
  cbn [mbind option_bind]. rewrite vclock_get_spec by done. cbn [mbind option_bind].
  replace (comp v id <? lsn) with true by lia. cbn [mbind option_bind].
  eexists. split; [done|].
  assert (forall k, 0 <= k < 32 -> comp (v <| vc_map ::= fun m => map_set m id |>
    <| vc_lsn ::= <[Z.to_nat id := lsn]> |>
    <| vc_signature ::= fun s => i64 (s + (lsn - comp v id)) |>) k = upd v id lsn k) as Hcw.
  { intros k Hk. cbn. apply comp_set; try done. apply map_set_testbit; [apply Hok|lia..]. }
  split; [|done]. apply (vclock_set_wf v _ id lsn); [done|done|lia
    |cbn; rewrite length_insert; apply Hok|apply map_set_range|done|done].
Qed.

Lemma vclock_reset_spec v id lsn :
  vclock_wf v -> 0 <= id < 32 -> 0 <= lsn <= INT64_MAX ->
  exists w, vclock_reset v id lsn = Some w /\ vclock_wf w /\
    forall k, 0 <= k < 32 -> comp w k = upd v id lsn k.
Proof.
  intros Hwf Hid Hlsn. pose proof Hwf as [Hok Hsig].
  unfold vclock_reset, guard_assert, VCLOCK_MAX.
  replace (0 <=? lsn) with true by lia. replace (id <? 32) with true by lia.
  cbn [mbind option_bind]. rewrite vclock_get_spec by done. cbn [mbind option_bind].
  destruct (Z.eqb_spec lsn 0) as [->|Hne]; eexists; (split; [done|]).
  - match goal with |- vclock_wf ?w /\ _ =>
      assert (forall k, 0 <= k < 32 -> comp w k = upd v id 0 k) as Hcw end.
    { intros k Hk. unfold comp, upd. cbn. rewrite map_clear_testbit by (apply Hok || lia).
      destruct (Z.eqb_spec k id); done. }
    split; [|done]. apply (vclock_set_wf v _ id 0); [done|done|done|apply Hok
      |apply map_clear_range|done|cbn; f_equal; lia].
  - match goal with |- vclock_wf ?w /\ _ =>
      assert (forall k, 0 <= k < 32 -> comp w k = upd v id lsn k) as Hcw end.
    { intros k Hk. cbn. apply comp_set; try done. apply map_set_testbit; [apply Hok|lia..]. }
    split; [|done]. apply (vclock_set_wf v _ id lsn); [done|done|done
      |cbn; rewrite length_insert; apply Hok|apply map_set_range|done
      |cbn; rewrite i64_add_l; f_equal; lia].
Qed.

Lemma vclock_inc_spec v id :
  vclock_wf v -> 0 <= id < 32 -> comp v id < INT64_MAX ->
  exists w, vclock_inc v id = Some (comp v id + 1, w) /\ vclock_wf w /\
    forall k, 0 <= k < 32 -> comp w k = upd v id (comp v id + 1) k.
Proof.
  intros Hwf Hid Hlt. pose proof Hwf as [Hok Hsig].
  pose proof (ok_comp v Hok id Hid) as Hc.
  assert (i64 (comp v id + 1) = comp v id + 1) as Hi by (apply i64_small; lia).
  unfold vclock_inc, guard_assert, VCLOCK_MAX. replace (id <? 32) with true by lia.
  cbn [mbind option_bind]. rewrite test_map by lia.
  assert (Z.to_nat id < length (vc_lsn v))%nat by (rewrite ok_len by done; lia).
  destruct (Z.testbit (vc_map v) id) eqn:Hb; cbn [negb].
  - cbn. rewrite lsn_lookup by done. cbn. assert (vc_lsn v !!! Z.to_nat id = comp v id) as Hl
      by (unfold comp; by rewrite Hb). rewrite Hl, Hi. eexists. split; [done|].
    match goal with |- vclock_wf ?w /\ _ =>
      assert (forall k, 0 <= k < 32 -> comp w k = upd v id (comp v id + 1) k) as Hcw end.
    { intros k Hk. apply comp_set; try done.
      destruct (Z.eqb_spec k id) as [->|]; [by rewrite Hb|done]. }
    split; [|done]. apply (vclock_set_wf v _ id (comp v id + 1)); [done|done|lia
      |cbn; rewrite length_insert; apply Hok|apply Hok|done|cbn; f_equal; lia].
  - assert (comp v id = 0) as H0 by (unfold comp; by rewrite Hb).
    cbn. rewrite list_lookup_insert_eq by done. cbn.
    rewrite H0 in Hi |- *. simpl in Hi. rewrite Hi, list_insert_insert_eq.
    eexists. split; [done|].
    match goal with |- vclock_wf ?w /\ _ =>
      assert (forall k, 0 <= k < 32 -> comp w k = upd v id 1 k) as Hcw end.
    { intros k Hk. apply comp_set; try done. apply map_set_testbit; [apply Hok|lia..]. }
    split; [|done]. apply (vclock_set_wf v _ id 1); [done|done|done
      |cbn; rewrite length_insert; apply Hok|apply map_set_range|done
      |cbn; f_equal; lia].
Qed.

(** ** Lemmas: iteration *)

Lemma map_ids_spec m :
  0 <= m < 2 ^ 32 -> map_ids m = Some (positions (Z.testbit m) 0 32).
Proof. apply bit_positions_u32. Qed.

Lemma skip_zero_positions f :
  skip_zero (positions f 0 32) = positions f 1 31.
Proof.
  change 32 with (1 + 31). rewrite positions_app by lia. rewrite positions_one.
  change (0 + 1) with 1. destruct (f 0); [done|]. simpl.
  destruct (positions f 1 31) as [|k l] eqn:E; [done|]. simpl.
  assert (In k (positions f 1 31)) as Hin by (rewrite E; by left).
  apply positions_In in Hin. by replace (k =? 0) with false by lia.
Qed.

(** The first component a comparison looks at. *)
Definition first_id (ignore_zero : bool) : Z := if ignore_zero then 1 else 0.

Lemma ids_from (ign : bool) m :
  0 <= m < 2 ^ 32 ->
  exists ids, map_ids m = Some ids /\
    (if ign then skip_zero ids else ids) =
    positions (Z.testbit m) (first_id ign) (32 - first_id ign).
Proof.
  intros Hm. eexists. split; [by apply map_ids_spec|].
  destruct ign; [apply skip_zero_positions|done].
Qed.

Lemma comp_absent v id : Z.testbit (vc_map v) id = false -> comp v id = 0.
Proof. unfold comp. by intros ->. Qed.

(** A property of pairs of components that holds of absent ones holds of all
    as soon as it holds of the ids in the joint map. *)
Lemma joint_ids (P : Z -> Z -> Prop) a b i :
  0 <= i -> P 0 0 ->
  (forall id, In id (positions (Z.testbit (Z.lor (vc_map a) (vc_map b))) i (32 - i)) ->
     P (comp a id) (comp b id)) <->
  (forall id, i <= id < 32 -> P (comp a id) (comp b id)).
Proof.
  intros Hi H0. split; intros H id Hid.
  - destruct (Z.testbit (Z.lor (vc_map a) (vc_map b)) id) eqn:Hb.
    + apply H, positions_In. split; [lia|done].
    + rewrite Z.lor_spec in Hb. boolp. by rewrite !comp_absent.
  - apply positions_In in Hid. apply H. lia.
Qed.

Lemma joint_map_range a b :
  vclock_ok a -> vclock_ok b -> 0 <= Z.lor (vc_map a) (vc_map b) < 2 ^ 32.
Proof. intros [] []. by apply lor_range. Qed.

Definition ids_ok (l : list Z) : Prop := forall id, In id l -> 0 <= id < 32.

Lemma positions_ids_ok f i : 0 <= i -> ids_ok (positions f i (32 - i)).
Proof. intros Hi id Hid. apply positions_In in Hid. lia. Qed.

(** ** Lemmas: comparison *)

Section Order.
Context (a b : vclock).
Hypotheses (Ha : vclock_ok a) (Hb : vclock_ok b).

Let leb_id (id : Z) : bool := comp a id <=? comp b id.
Let geb_id (id : Z) : bool := comp b id <=? comp a id.

Definition compare_result (le ge : bool) : Z :=
  if le then (if ge then 0 else -1)
  else if ge then 1 else VCLOCK_ORDER_UNDEFINED.

Lemma compare_loop_spec ids le ge :
  ids_ok ids -> le || ge = true ->
  compare_loop a b le ge ids =
  Some (compare_result (le && forallb leb_id ids) (ge && forallb geb_id ids)).
Proof.
  revert le ge. induction ids as [|id ids IH]; intros le ge Hids Hlg.
  - simpl. rewrite !andb_true_r. by destruct le, ge.
  - simpl. rewrite !vclock_get_spec by (done || apply Hids; by left).
    cbn [mbind option_bind]. fold (leb_id id) (geb_id id). rewrite !andb_assoc.
    destruct (negb (ge && geb_id id) && negb (le && leb_id id)) eqn:E.
    + boolp. by rewrite H, H0.
    + apply IH; [intros i Hi; apply Hids; by right|].
      destruct (ge && geb_id id), (le && leb_id id); done.
Qed.

Lemma forallb_Prop (f : Z -> bool) (P : Z -> Prop) l :
  (forall id, f id = true <-> P id) ->
  forallb f l = true <-> forall id, In id l -> P id.
Proof. intros H. rewrite forallb_forall. split; intros; apply H; auto. Qed.

Definition vle_from (i : Z) (x y : vclock) : Prop :=
  forall id, i <= id < 32 -> comp x id <= comp y id.

Lemma compare_generic_spec ign :
  exists le ge, vclock_compare_generic a b ign = Some (compare_result le ge) /\
    (le = true <-> vle_from (first_id ign) a b) /\
    (ge = true <-> vle_from (first_id ign) b a).
Proof.
  unfold vclock_compare_generic.
  destruct (ids_from ign _ (joint_map_range a b Ha Hb)) as (ids & -> & Hids).
  cbn [mbind option_bind]. rewrite Hids.
  assert (0 <= first_id ign) as Hf by (destruct ign; simpl; lia).
  rewrite compare_loop_spec by (done || by apply positions_ids_ok).
  eexists _, _. split; [done|]. split; simpl.
  - rewrite (forallb_Prop _ (fun id => comp a id <= comp b id)) by (intros; apply Z.leb_le).
    by apply (joint_ids Z.le a b).
  - rewrite (forallb_Prop _ (fun id => comp b id <= comp a id)) by (intros; apply Z.leb_le).
    by apply (joint_ids (fun x y => y <= x) a b).
Qed.
End Order.

(** ** Lemmas: lexicographic comparison *)

Definition lex_lt (a b : vclock) : Prop :=
  exists i, 0 <= i < 32 /\ comp a i < comp b i /\
    forall j, 0 <= j < i -> comp a j = comp b j.

Lemma lex_loop_spec a b (n : nat) i :
  vclock_ok a -> vclock_ok b -> 0 <= i -> i + Z.of_nat n = 32 ->
  (forall j, 0 <= j < i -> comp a j = comp b j) ->
  exists r, lex_loop a b
      (positions (Z.testbit (Z.lor (vc_map a) (vc_map b))) i (Z.of_nat n)) = Some r /\
    (r = 0 /\ a ≡ b \/ r = -1 /\ lex_lt a b \/ r = 1 /\ lex_lt b a).
Proof.
  intros Ha Hb. revert i. induction n as [|n IH]; intros i Hi Hn Heq.
  - rewrite positions_none by (intros; lia). exists 0. split; [done|]. left.
    split; [done|]. intros j Hj. apply Heq. lia.
  - replace (Z.of_nat (S n)) with (1 + Z.of_nat n) by lia.
    rewrite positions_app, positions_one by lia.
    assert (comp a i = comp b i -> exists r, lex_loop a b (positions (Z.testbit
      (Z.lor (vc_map a) (vc_map b))) (i + 1) (Z.of_nat n)) = Some r /\
      (r = 0 /\ a ≡ b \/ r = -1 /\ lex_lt a b \/ r = 1 /\ lex_lt b a)) as Hnext.
    { intros E. apply IH; try lia. intros j Hj.
      destruct (Z.eq_dec j i) as [->|]; [done|]. apply Heq. lia. }
    destruct (Z.testbit _ i) eqn:Hbit.
    2:{ apply Hnext. rewrite Z.lor_spec in Hbit. boolp. by rewrite !comp_absent. }
    simpl. rewrite !vclock_get_spec by (done || lia). cbn [mbind option_bind].
    destruct (Z.ltb_spec (comp a i) (comp b i)); [|destruct (Z.ltb_spec (comp b i) (comp a i))].
    + exists (-1). split; [done|]. right. left. split; [done|]. exists i. split; [lia|done].
    + exists 1. split; [done|]. right. right. split; [done|]. exists i. split; [lia|].
      split; [done|]. intros j Hj. by rewrite Heq.
    + apply Hnext. lia.
Qed.

Lemma lex_compare_spec a b :
  vclock_ok a -> vclock_ok b ->
  exists r, vclock_lex_compare a b = Some r /\
    (r = 0 /\ a ≡ b \/ r = -1 /\ lex_lt a b \/ r = 1 /\ lex_lt b a).
Proof.
  intros Ha Hb. unfold vclock_lex_compare.
  rewrite map_ids_spec by (by apply joint_map_range). cbn [mbind option_bind].
  by apply (lex_loop_spec a b 32 0); try lia.
Qed.

Lemma lex_lt_trans a b c : lex_lt a b -> lex_lt b c -> lex_lt a c.
Proof.
  intros (i & Hi & Hlt & He) (j & Hj & Hlt' & He').
  exists (Z.min i j). split; [lia|]. split.
  - destruct (Z.lt_trichotomy i j) as [H|[->|H]].
    + rewrite Z.min_l by lia. rewrite <- He' by lia. done.
    + rewrite Z.min_id. lia.
    + rewrite Z.min_r by lia. rewrite He by lia. done.
  - intros k Hk. rewrite He, He' by lia. done.
Qed.

Lemma lex_lt_irrefl a b : a ≡ b -> ~ lex_lt a b.
Proof. intros E (i & Hi & Hlt & _). rewrite (E i Hi) in Hlt. lia. Qed.

(** Dominance with one strict component is a lexicographic step. *)
Lemma strict_dominance_lex a b :
  (forall id, 0 <= id < 32 -> comp a id <= comp b id) ->
  ~ (forall id, 0 <= id < 32 -> comp b id <= comp a id) -> lex_lt a b.
Proof.
  intros Hle Hn.
  assert (forall n : nat, (n <= 32)%nat ->
    lex_lt a b \/ forall j, 0 <= j < Z.of_nat n -> comp a j = comp b j) as H.
  { induction n as [|n IH]; intros Hn'; [right; lia|].
    destruct (IH ltac:(lia)) as [?|He]; [by left|].
    destruct (Z.eq_dec (comp a (Z.of_nat n)) (comp b (Z.of_nat n))) as [E|E].
    - right. intros j Hj. destruct (Z.eq_dec j (Z.of_nat n)) as [->|]; [done|].
      apply He. lia.
    - left. exists (Z.of_nat n). split; [lia|]. split; [|done].
      specialize (Hle (Z.of_nat n) ltac:(lia)). lia. }
  destruct (H 32%nat ltac:(lia)) as [?|He]; [done|]. exfalso. apply Hn.
  intros id Hid. rewrite He by lia. lia.
Qed.

(** ** Lemmas: minimum, merge, copy and sum *)

Lemma min_loop_spec a b l :
  vclock_wf a -> vclock_ok b -> NoDup l -> ids_ok l ->
  exists w, min_loop a b l = Some w /\ vclock_wf w /\
    forall id, 0 <= id < 32 ->
      comp w id = if decide (id ∈ l) then Z.min (comp a id) (comp b id) else comp a id.
Proof.
  intros Ha Hb Hnd. revert a Ha. induction Hnd as [|i l Hi Hnd IH]; intros a Ha Hl.
  { exists a. split; [done|]. split; [done|]. done. }
  assert (0 <= i < 32) as Hir by (apply Hl; by left).
  assert (ids_ok l) as Hl' by (intros id Hid; apply Hl; by right).
  simpl. rewrite !vclock_get_spec by (done || apply Ha). cbn [mbind option_bind].
  destruct (Z.leb_spec (comp a i) (comp b i)) as [Hle|Hgt].
  - destruct (IH a Ha Hl') as (w & Hw & Hwf & Hc). exists w. split; [done|]. split; [done|].
    intros id Hid. rewrite Hc by done.
    destruct (decide (id = i)) as [->|Hne].
    + rewrite decide_False by done. rewrite decide_True by set_solver. lia.
    + destruct (decide (id ∈ l)); [rewrite decide_True by set_solver|
        rewrite decide_False by set_solver]; done.
  - destruct (vclock_reset_spec a i (comp b i)) as (a' & -> & Ha' & Hca');
      [done|done|by apply ok_comp|]. cbn [mbind option_bind].
    destruct (IH a' Ha' Hl') as (w & Hw & Hwf & Hc). exists w. split; [done|].
    split; [done|]. intros id Hid. rewrite Hc by done. rewrite Hca' by done. unfold upd.
    destruct (Z.eqb_spec id i) as [->|Hne].
    + rewrite decide_False by done. rewrite decide_True by set_solver. lia.
    + destruct (decide (id ∈ l)); [rewrite decide_True by set_solver|
        rewrite decide_False by set_solver]; done.
Qed.

Lemma positions_NoDup f i n : NoDup (positions f i n).
Proof.
  pose proof (positions_sorted f i n) as Hs. induction Hs as [|x l Hs IH Hx]; constructor.
  - intros Hin. apply (proj1 (Forall_forall _ _) Hx) in Hin. lia.
  - done.
Qed.

Lemma vclock_foreach_spec v :
  vclock_ok v ->
  vclock_foreach v =
  Some ((fun id => mk_vclock_c id (comp v id)) <$> positions (Z.testbit (vc_map v)) 0 32).
Proof.
  intros Hok. unfold vclock_foreach. rewrite map_ids_spec by apply Hok.
  cbn [mbind option_bind]. apply mapM_Some_2.
  assert (forall id, In id (positions (Z.testbit (vc_map v)) 0 32) ->
    0 <= id < 32 /\ Z.testbit (vc_map v) id = true) as H.
  { intros id Hid. apply positions_In in Hid. split; [lia|apply Hid]. }
  induction (positions _ 0 32) as [|id l IH]; constructor.
  - destruct (H id) as [Hid Hbit]; [by left|]. rewrite lsn_lookup by done.
    cbn. unfold comp. by rewrite Hbit.
  - apply IH. intros; apply H; by right.
Qed.

Lemma merge_loop_spec dst cs :
  vclock_wf dst -> NoDup (c_id <$> cs) ->
  (forall c, In c cs -> 0 <= c_id c < 32 /\ 0 < c_lsn c /\
     comp dst (c_id c) + c_lsn c <= INT64_MAX) ->
  exists w, merge_loop dst cs = Some w /\ vclock_wf w /\
    (forall c, In c cs -> comp w (c_id c) = comp dst (c_id c) + c_lsn c) /\
    (forall id, 0 <= id < 32 -> id ∉ c_id <$> cs -> comp w id = comp dst id).
Proof.
  revert dst. induction cs as [|c cs IH]; intros dst Hwf Hnd Hc.
  { exists dst. done. }
  rewrite fmap_cons, NoDup_cons in Hnd. destruct Hnd as [Hni Hnd].
  destruct (Hc c ltac:(by left)) as (Hid & Hpos & Hmax).
  pose proof (ok_comp dst (proj1 Hwf) (c_id c) Hid).
  simpl. rewrite vclock_get_spec by (done || apply Hwf). cbn [mbind option_bind].
  rewrite i64_small by (unfold INT64_MAX in *; lia).
  destruct (vclock_follow_spec dst (c_id c) (comp dst (c_id c) + c_lsn c))
    as (d' & -> & Hd' & Hcd'); [done|done|lia|]. cbn [mbind option_bind].
  assert (forall x, In x cs -> c_id x <> c_id c) as Hdiff.
  { intros x Hx E. apply Hni. rewrite <- E. apply list_elem_of_fmap_2, list_elem_of_In, Hx. }
  destruct (IH d' Hd' Hnd) as (w & -> & Hw & Hin & Hout).
  { intros x Hx. destruct (Hc x ltac:(by right)) as (? & ? & ?). rewrite Hcd' by done.
    unfold upd. pose proof (Hdiff x Hx). by replace (c_id x =? c_id c) with false by lia. }
  exists w. split; [done|]. split; [done|]. split.
  - intros x [<-|Hx].
    + rewrite Hout, Hcd' by done. unfold upd. by rewrite Z.eqb_refl.
    + rewrite Hin by done. destruct (Hc x ltac:(by right)) as (? & _ & _).
      rewrite Hcd' by done. unfold upd. pose proof (Hdiff x Hx).
      by replace (c_id x =? c_id c) with false by lia.
  - intros id Hidr [Hne Hnin]%not_elem_of_cons.
    rewrite Hout by done. rewrite Hcd' by done. unfold upd.
    by replace (id =? c_id c) with false by lia.
Qed.

Lemma clz_max_pos m :
  0 <= m < 2 ^ 32 ->
  VCLOCK_MAX - bit_clz_u32 (Z.lor m 1) = Z.log2 (Z.lor m 1) + 1 /\
  forall id, 0 <= id -> Z.testbit m id = true -> id < Z.log2 (Z.lor m 1) + 1.
Proof.
  intros Hm. assert (0 < Z.lor m 1) as Hpos.
  { assert (Z.lor m 1 <> 0) by (intros E%Z.lor_eq_0_iff; lia).
    pose proof (proj2 (Z.lor_nonneg m 1)). lia. }
  assert (Z.lor m 1 < 2 ^ 32) by (apply lor_range; lia).
  split.
  - unfold bit_clz_u32, clz_naive, VCLOCK_MAX. replace (Z.lor m 1 =? 0) with false by lia.
    rewrite clz_loop_spec; [lia|done|]. apply Z.log2_lt_pow2; lia.
  - intros id Hid Hb. apply Z.nle_gt. intros Hge.
    assert (Z.testbit (Z.lor m 1) id = false) as Hf by (apply Z.bits_above_log2; lia).
    rewrite Z.lor_spec, Hb in Hf. done.
Qed.

Lemma vclock_copy_spec dst src :
  vclock_ok src -> length (vc_lsn dst) = 32%nat ->
  vclock_ok (vclock_copy dst src) /\
  vc_map (vclock_copy dst src) = vc_map src /\
  vc_signature (vclock_copy dst src) = vc_signature src /\
  vclock_copy dst src ≡ src.
Proof.
  intros Hok Hl. destruct (clz_max_pos (vc_map src)) as [Hmp Hbit]; [apply Hok|].
  assert (vclock_copy dst src ≡ src) as Heq.
  { intros id Hid. unfold comp, vclock_copy. cbn [vc_map vc_lsn]. rewrite Hmp.
    destruct (Z.testbit (vc_map src) id) eqn:E; [|done]. apply Hbit in E; [|lia].
    rewrite !list_lookup_total_alt. f_equal. rewrite lookup_app_l.
    - rewrite lookup_take_lt by lia. done.
    - rewrite length_take, ok_len by done. lia. }
  split; [|done]. split.
  - unfold vclock_copy. cbn [vc_lsn]. rewrite length_app, length_take, length_drop, Hl.
    rewrite ok_len by done. lia.
  - apply Hok.
  - intros id Hid. rewrite Heq by done. by apply ok_comp.
Qed.

Lemma foldl_sum (l : list Z) f s :
  foldl (fun sum c => i64 (sum + c_lsn c)) (i64 s) ((fun id => mk_vclock_c id (f id)) <$> l) =
  i64 (s + total_over f l).
Proof.
  revert s. induction l as [|x l IH]; intros s; simpl; [by rewrite Z.add_0_r|].
  rewrite i64_add_l, IH. f_equal. lia.
Qed.

Lemma total_positions v (n : nat) i :
  0 <= i ->
  total_over (comp v) (positions (Z.testbit (vc_map v)) i (Z.of_nat n)) =
  total_over (comp v) (seqZ i (Z.of_nat n)).
Proof.
  revert i. induction n as [|n IH]; intros i Hi.
  { by rewrite positions_none by (intros; lia). }
  replace (Z.of_nat (S n)) with (1 + Z.of_nat n) by lia.
  rewrite positions_app, positions_one by lia.
  rewrite seqZ_cons by lia. replace (Z.pred (1 + Z.of_nat n)) with (Z.of_nat n) by lia.
  cbn [total_over foldr]. fold (total_over (comp v) (seqZ (Z.succ i) (Z.of_nat n))).
  rewrite <- (IH (Z.succ i)) by lia. replace (Z.succ i) with (i + 1) by lia.
  destruct (Z.testbit (vc_map v) i) eqn:E; [done|]. by rewrite comp_absent.
Qed.

Lemma vclock_calc_sum_spec v :
  vclock_ok v -> vclock_calc_sum v = Some (i64 (total v)).
Proof.
  intros Hok. unfold vclock_calc_sum. rewrite vclock_foreach_spec by done.
  cbn [mbind option_bind]. rewrite (foldl_sum _ (comp v) 0).
  f_equal. f_equal. apply (total_positions v 32 0). lia.
Qed.

Lemma fmap_c_id f (l : list Z) :
  c_id <$> ((fun id => mk_vclock_c id (f id)) <$> l) = l.
Proof. induction l as [|x l IH]; [done|]. rewrite !fmap_cons. by rewrite IH. Qed.

Lemma vclock_create_spec v :
  length (vc_lsn v) = 32%nat ->
  vclock_wf (vclock_create v) /\ forall id, comp (vclock_create v) id = 0.
Proof.
  intros Hl. assert (forall id, comp (vclock_create v) id = 0) as Hc
    by (intros id; apply comp_absent, Z.bits_0).
  split; [|done]. split; [split|].
  - cbn. by rewrite length_insert.
  - done.
  - intros id _. by rewrite Hc.
  - unfold total. rewrite (total_over_ext _ (fun _ => 0)) by done. done.
Qed.

(** Comparison and lexicographic order only see the abstract clock. *)
#[export] Instance lex_lt_proper :
  Proper ((≡) ==> (≡) ==> iff) lex_lt.
Proof.
  assert (forall a a' b b' : vclock, a ≡ a' -> b ≡ b' -> lex_lt a b -> lex_lt a' b') as H.
  { intros a a' b b' Ha Hb (i & Hi & Hlt & He). exists i. split; [done|].
    rewrite <- (Ha i), <- (Hb i) by done. split; [done|].
    intros j Hj. rewrite <- (Ha j), <- (Hb j) by lia. by apply He. }
  intros a a' Ha b b' Hb. split; apply H; done.
Qed.

#[export] Instance vle_from_proper i :
  0 <= i -> Proper ((≡) ==> (≡) ==> iff) (vle_from i).
Proof.
  intros Hi a a' Ha b b' Hb. split; intros H id Hid.
  - rewrite <- (Ha id), <- (Hb id) by lia. by apply H.
  - rewrite (Ha id), (Hb id) by lia. by apply H.
Qed.

(** Executable well-formedness, to evaluate it on concrete clocks. *)
Definition vclock_okb (v : vclock) : bool :=
  bool_decide (length (vc_lsn v) = 32%nat) &&
  (0 <=? vc_map v) && (vc_map v <? 2 ^ 32) &&
  forallb (fun id => (0 <=? comp v id) && (comp v id <=? INT64_MAX)) ids_all.
Definition vclock_wfb (v : vclock) : bool :=
  vclock_okb v && (vc_signature v =? i64 (total v)).

Lemma vclock_okb_ok v : vclock_okb v = true -> vclock_ok v.
Proof.
  unfold vclock_okb. intros H. boolp. split; [done|lia|].
  intros id Hid%ids_all_In. rewrite forallb_forall in H0. apply H0 in Hid. boolp. lia.
Qed.

Lemma vclock_wfb_wf v : vclock_wfb v = true -> vclock_wf v.
Proof.
  unfold vclock_wfb. intros H. boolp. split; [by apply vclock_okb_ok|done].
Qed.

Lemma match_loop_spec (set : list vclock) key :
  Forall vclock_ok set -> vclock_ok key ->
  forall n : nat, (n <= length set)%nat ->
  (forall (j : nat) m, (n <= j)%nat -> set !! j = Some m -> ~ vle_from 0 m key) ->
  (exists (i : nat) m, match_loop set key n = Some (Some m) /\ set !! i = Some m /\
     vle_from 0 m key /\
     forall (j : nat) m', (i < j)%nat -> set !! j = Some m' -> ~ vle_from 0 m' key) \/
  (match_loop set key n = Some None /\
     forall (j : nat) m, set !! j = Some m -> ~ vle_from 0 m key).
Proof.
  intros Hset Hkey. induction n as [|n IH]; intros Hn Habove.
  { right. split; [done|]. intros j m. apply Habove. lia. }
  simpl. destruct (lookup_lt_is_Some_2 set n) as [m Hm]; [lia|]. rewrite Hm.
  pose proof (Forall_lookup_1 _ _ _ _ Hset Hm) as Hmok. unfold vclock_compare.
  destruct (compare_generic_spec m key Hmok Hkey false) as (le & ge & -> & Hle & Hge).
  cbn [mbind option_bind]. destruct le.
  - left. exists n, m. replace (compare_result true ge <=? 0) with true by (by destruct ge).
    split; [done|]. split; [done|]. split; [by apply Hle|].
    intros j m' Hj. apply Habove. lia.
  - replace (compare_result false ge <=? 0) with false by (by destruct ge).
    apply IH; [lia|]. intros j m' Hj Hm'.
    destruct (decide (j = n)) as [->|]; [|apply (Habove j); [lia|done]].
    rewrite Hm in Hm'. injection Hm' as <-. intros H. by apply Hle in H.
Qed.

Lemma lex_compare_iff x y :
  vclock_ok x -> vclock_ok y ->
  (vclock_lex_compare x y = Some (-1) <-> lex_lt x y) /\
  (vclock_lex_compare x y = Some 1 <-> lex_lt y x) /\
  (vclock_lex_compare x y = Some 0 <-> x ≡ y).
Proof.
  intros Hx Hy. destruct (lex_compare_spec x y Hx Hy) as (r & -> & Hr).
  assert (lex_lt x y -> ~ lex_lt y x) as Hasym.
  { intros H1 H2. apply (lex_lt_irrefl x x); [done|]. by eapply lex_lt_trans. }
  assert (x ≡ y -> ~ lex_lt x y /\ ~ lex_lt y x) as Hirr.
  { intros E. split; by apply lex_lt_irrefl. }
  destruct Hr as [[-> E]|[[-> L]|[-> L]]]; intuition (congruence || eauto).
Qed.

Lemma compare_strict a b :
  vclock_ok a -> vclock_ok b -> vclock_compare a b = Some (-1) -> lex_lt a b.
Proof.
  intros Ha Hb. unfold vclock_compare.
  destruct (compare_generic_spec a b Ha Hb false) as (le & ge & -> & Hle & Hge).
  intros E. apply strict_dominance_lex.
  - apply Hle. by destruct le, ge.
  - intros H. apply Hge in H. by destruct le, ge.
Qed.

Lemma compare_strict_ge a b :
  vclock_ok a -> vclock_ok b -> vclock_compare a b = Some 1 -> lex_lt b a.
Proof.
  intros Ha Hb. unfold vclock_compare.
  destruct (compare_generic_spec a b Ha Hb false) as (le & ge & -> & Hle & Hge).
  intros E. apply strict_dominance_lex.
  - apply Hge. by destruct le, ge.
  - intros H. apply Hle in H. by destruct le, ge.
Qed.

(** ** Theorems *)

(** on a well-formed clock every single-component operation does to the
    abstract clock what its name says, keeps the clock well-formed with the
    cached signature equal to the sum, and [vclock_follow] refuses to go back. *)
Theorem vclock_component_ops v id :
  vclock_wf v -> 0 <= id < 32 ->
  vclock_get v id = Some (comp v id) /\
  (comp v id < INT64_MAX -> exists w,
     vclock_inc v id = Some (comp v id + 1, w) /\ vclock_wf w /\
     forall k, 0 <= k < 32 -> comp w k = upd v id (comp v id + 1) k) /\
  (forall lsn, comp v id < lsn <= INT64_MAX -> exists w,
     vclock_follow v id lsn = Some (comp v id, w) /\ vclock_wf w /\
     forall k, 0 <= k < 32 -> comp w k = upd v id lsn k) /\
  (forall lsn, lsn <= comp v id -> vclock_follow v id lsn = None) /\
  (forall lsn, 0 <= lsn <= INT64_MAX -> exists w,
     vclock_reset v id lsn = Some w /\ vclock_wf w /\
     forall k, 0 <= k < 32 -> comp w k = upd v id lsn k) /\
  vclock_calc_sum v = Some (vclock_sum v).
Proof.
  intros Hwf Hid. split; [by apply vclock_get_spec; [apply Hwf|]|].
  split; [by apply vclock_inc_spec|]. split; [intros; by apply vclock_follow_spec|].
  split; [|split; [intros; by apply vclock_reset_spec|]].
  - intros lsn Hle. unfold vclock_follow, guard_assert.
    destruct (0 <=? lsn); [|done]. destruct (id <? VCLOCK_MAX); [|done].
    cbn [mbind option_bind]. rewrite vclock_get_spec by (apply Hwf || done).
    cbn [mbind option_bind]. by replace (comp v id <? lsn) with false by lia.
  - rewrite vclock_calc_sum_spec by apply Hwf. unfold vclock_sum. by rewrite (proj2 Hwf).
Qed.

Definition vclock_example : vclock :=
  mk_vclock 0x80000007 45 ([10; 20; 10] ++ repeat 77 28 ++ [5]).

Lemma vclock_example_wf : vclock_wf vclock_example.
Proof. apply vclock_wfb_wf. vm_compute. reflexivity. Defined.

Lemma vclock_component_ops_witness :
  vclock_get vclock_example 1 = Some 20 /\
  vclock_follow vclock_example 31 5 = None.
Proof.
  pose proof (vclock_component_ops vclock_example 1 vclock_example_wf ltac:(lia)) as H.
  pose proof (vclock_component_ops vclock_example 31 vclock_example_wf ltac:(lia)) as H'.
  split.
  - exact (proj1 H).
  - apply H'. vm_compute. discriminate.
Defined.

(** [vclock_compare_generic] decides the componentwise order of the two
    clocks (from component 1 on when component 0 is ignored): 0, -1, 1 or
    VCLOCK_ORDER_UNDEFINED exactly when they are equal, below, above or
    incomparable.  Garbage in absent components does not matter. *)
Theorem vclock_compare_pointwise a b ign :
  vclock_ok a -> vclock_ok b ->
  exists r, vclock_compare_generic a b ign = Some r /\
    let le := vle_from (first_id ign) a b in
    let ge := vle_from (first_id ign) b a in
    (r = 0 <-> le /\ ge) /\ (r = -1 <-> le /\ ~ ge) /\
    (r = 1 <-> ge /\ ~ le) /\ (r = VCLOCK_ORDER_UNDEFINED <-> ~ le /\ ~ ge).
Proof.
  intros Ha Hb. destruct (compare_generic_spec a b Ha Hb ign) as (le & ge & -> & Hle & Hge).
  eexists. split; [done|]. cbv zeta. rewrite <- Hle, <- Hge.
  destruct le, ge; unfold compare_result, VCLOCK_ORDER_UNDEFINED, INT_MAX;
    intuition (congruence || lia).
Qed.

Definition vclock_example2 : vclock :=
  mk_vclock 0x00000003 51 ([1; 50] ++ repeat 0 30).

Lemma vclock_example2_ok : vclock_ok vclock_example2.
Proof. apply vclock_okb_ok. vm_compute. reflexivity. Defined.

Lemma vclock_compare_pointwise_witness :
  exists r, vclock_compare_generic vclock_example vclock_example2 true = Some r /\
    (r = VCLOCK_ORDER_UNDEFINED <->
       ~ vle_from 1 vclock_example vclock_example2 /\
       ~ vle_from 1 vclock_example2 vclock_example).
Proof.
  destruct (vclock_compare_pointwise vclock_example vclock_example2 true
    (proj1 vclock_example_wf) vclock_example2_ok) as (r & Hr & _ & _ & _ & H).
  exists r. exact (conj Hr H).
Defined.

(** [vclock_lex_compare] is a total order on abstract clocks (it returns 0
    only on equal clocks, is antisymmetric and transitive) and it extends
    [vclock_compare], as its comment promises. *)
Theorem vclock_lex_compare_total a b c :
  vclock_ok a -> vclock_ok b -> vclock_ok c ->
  exists r r', vclock_lex_compare a b = Some r /\ vclock_lex_compare b a = Some r' /\
    r' = - r /\ (r = 0 <-> a ≡ b) /\ (r = -1 \/ r = 0 \/ r = 1) /\
    (vclock_lex_compare a b = Some (-1) -> vclock_lex_compare b c = Some (-1) ->
       vclock_lex_compare a c = Some (-1)) /\
    (vclock_compare a b = Some (-1) -> r = -1) /\
    (vclock_compare a b = Some 1 -> r = 1).
Proof.
  intros Ha Hb Hc.
  assert (forall x y, vclock_ok x -> vclock_ok y ->
    (vclock_lex_compare x y = Some (-1) <-> lex_lt x y) /\
    (vclock_lex_compare x y = Some 1 <-> lex_lt y x) /\
    (vclock_lex_compare x y = Some 0 <-> x ≡ y)) as Hspec by apply lex_compare_iff.
  destruct (lex_compare_spec a b Ha Hb) as (r & Hr & Hcase).
  destruct (lex_compare_spec b a Hb Ha) as (r' & Hr' & Hcase').
  exists r, r'. split; [done|]. split; [done|].
  pose proof (Hspec a b Ha Hb) as (H1 & H2 & H3).
  pose proof (Hspec b a Hb Ha) as (H1' & H2' & H3').
  split; [|split; [|split; [naive_solver|split; [|split]]]].
  - destruct Hcase as [[-> E]|[[-> L]|[-> L]]].
    + symmetry in E. apply H3' in E. naive_solver lia.
    + apply H2' in L. naive_solver lia.
    + apply H1' in L. naive_solver lia.
  - rewrite <- H3, Hr. naive_solver.
  - rewrite (proj1 (Hspec a b Ha Hb)), (proj1 (Hspec b c Hb Hc)),
      (proj1 (Hspec a c Ha Hc)). apply lex_lt_trans.
  - intros E. apply compare_strict in E; [|done..]. apply H1 in E. naive_solver.
  - intros E. apply compare_strict_ge in E; [|done..]. apply H2 in E. naive_solver.
Qed.

Lemma vclock_lex_compare_total_witness :
  vclock_lex_compare vclock_example vclock_example2 = Some 1 /\
  exists r, vclock_lex_compare vclock_example2 vclock_example = Some r /\ r = -1.
Proof.
  destruct (vclock_lex_compare_total vclock_example vclock_example2 vclock_example2
    (proj1 vclock_example_wf) vclock_example2_ok vclock_example2_ok)
    as (r & r' & Hr & Hr' & E & _).
  vm_compute in Hr. injection Hr as <-. split; [vm_compute; reflexivity|].
  exists r'. split; [exact Hr'|exact E].
Defined.

(** [vclock_min_ignore0] leaves the componentwise minimum of the two
    clocks in the first one, except for component 0 which it does not touch;
    the result is well-formed, signature included. *)
Theorem vclock_min_ignore0_glb a b :
  vclock_wf a -> vclock_ok b ->
  exists w, vclock_min_ignore0 a b = Some w /\ vclock_wf w /\
    comp w 0 = comp a 0 /\
    forall id, 1 <= id < 32 -> comp w id = Z.min (comp a id) (comp b id).
Proof.
  intros Ha Hb. unfold vclock_min_ignore0.
  rewrite map_ids_spec by (apply joint_map_range; [apply Ha|done]).
  cbn [mbind option_bind]. rewrite skip_zero_positions.
  destruct (min_loop_spec a b (positions (Z.testbit (Z.lor (vc_map a) (vc_map b))) 1 31))
    as (w & -> & Hw & Hc); [done|done|apply positions_NoDup|by apply (positions_ids_ok _ 1)|].
  exists w. split; [done|]. split; [done|].
  assert (forall id, id ∈ positions (Z.testbit (Z.lor (vc_map a) (vc_map b))) 1 31 <->
    1 <= id < 32 /\ Z.testbit (Z.lor (vc_map a) (vc_map b)) id = true) as Hin.
  { intros id. rewrite list_elem_of_In, positions_In. split; (intros [? ?]; split; [lia|done]). }
  split.
  - rewrite Hc by lia. rewrite decide_False; [done|]. rewrite Hin. lia.
  - intros id Hid. rewrite Hc by lia. case_decide as Hd; [done|].
    destruct (Z.testbit (Z.lor (vc_map a) (vc_map b)) id) eqn:E;
      [exfalso; apply Hd, Hin; auto|].
    rewrite Z.lor_spec in E. boolp. by rewrite !comp_absent.
Qed.

Lemma vclock_min_ignore0_glb_witness :
  exists w, vclock_min_ignore0 vclock_example vclock_example2 = Some w /\
    vclock_wf w /\ comp w 0 = 10 /\ comp w 1 = 20 /\ comp w 2 = 0.
Proof.
  destruct (vclock_min_ignore0_glb vclock_example vclock_example2
    vclock_example_wf vclock_example2_ok) as (w & E & Hw & H0 & H).
  exists w. split; [exact E|]. split; [exact Hw|]. split; [exact H0|].
  split; [apply (H 1); lia|apply (H 2); lia].
Defined.

(** [vclock_merge] adds every component of the diff to the destination
    (both stay well-formed, the sums add up as long as no LSN overflows) and
    leaves the diff empty, ready for the next transaction. *)
Theorem vclock_merge_adds dst diff :
  vclock_wf dst -> vclock_ok diff ->
  (forall id, 0 <= id < 32 -> Z.testbit (vc_map diff) id = true -> 0 < comp diff id) ->
  (forall id, 0 <= id < 32 -> comp dst id + comp diff id <= INT64_MAX) ->
  exists d e, vclock_merge dst diff = Some (d, e) /\ vclock_wf d /\ vclock_wf e /\
    (forall id, 0 <= id < 32 -> comp d id = comp dst id + comp diff id) /\
    (forall id, comp e id = 0).
Proof.
  intros Hd Hf Hpos Hmax. unfold vclock_merge. rewrite vclock_foreach_spec by done.
  rewrite obind_Some.
  pose proof (fun id => positions_In (Z.testbit (vc_map diff)) 0 32 id) as Hin.
  pose proof (positions_NoDup (Z.testbit (vc_map diff)) 0 32) as Hnd.
  generalize dependent (positions (Z.testbit (vc_map diff)) 0 32). intros ids Hin Hnd.
  pose proof (fmap_c_id (comp diff) ids) as Hids.
  destruct (merge_loop_spec dst ((fun id => mk_vclock_c id (comp diff id)) <$> ids))
    as (w & -> & Hw & Hc & Hc').
  - done.
  - by rewrite Hids.
  - intros c Hcin. apply list_elem_of_In, list_elem_of_fmap in Hcin as (id & -> & Hid).
    apply list_elem_of_In, Hin in Hid as [Hr Hb]. cbn [c_id c_lsn].
    split; [lia|]. split; [apply Hpos; [lia|done]|apply Hmax; lia].
  - destruct (vclock_create_spec diff) as [Hcw Hcz]; [apply Hf|].
    cbn [mbind option_bind]. eexists _, _. split; [done|]. split; [done|].
    split; [done|]. split; [|done]. intros id Hid.
    destruct (Z.testbit (vc_map diff) id) eqn:E.
    + apply (Hc (mk_vclock_c id (comp diff id))). apply list_elem_of_In.
      apply list_elem_of_fmap. exists id. split; [done|]. apply list_elem_of_In, Hin. auto.
    + rewrite Hc', (comp_absent diff id) by
        (try done; rewrite Hids, list_elem_of_In, Hin, E; naive_solver). lia.
Qed.

Lemma vclock_merge_adds_witness :
  exists d e, vclock_merge vclock_example vclock_example2 = Some (d, e) /\
    vclock_wf d /\ comp d 1 = 70 /\ comp e 1 = 0.
Proof.
  assert (forall P : Z -> bool, forallb P ids_all = true ->
    forall id, 0 <= id < 32 -> P id = true) as Hall.
  { intros P HP id Hid. rewrite forallb_forall in HP. by apply HP, ids_all_In. }
  destruct (vclock_merge_adds vclock_example vclock_example2 vclock_example_wf
    vclock_example2_ok) as (d & e & E & Hd & He & H1 & H2).
  - intros id Hid Hb. apply Z.ltb_lt.
    apply (Hall (fun id => negb (Z.testbit 3 id) || (0 <? comp vclock_example2 id))
      ltac:(vm_compute; reflexivity)) in Hid.
    change (vc_map vclock_example2) with 3 in Hb. rewrite Hb in Hid. exact Hid.
  - intros id Hid. apply Z.leb_le.
    exact (Hall (fun id => comp vclock_example id + comp vclock_example2 id <=? INT64_MAX)
      ltac:(vm_compute; reflexivity) id Hid).
  - exists d, e. split; [exact E|]. split; [exact Hd|].
    split; [apply (H1 1); lia|apply H2].
Defined.

(** [vclock_copy] copies only the components up to the last one in use,
    and yet the copy is the same abstract clock, with the same map and
    signature, whatever the destination held before. *)
Theorem vclock_copy_faithful dst src :
  vclock_wf src -> length (vc_lsn dst) = 32%nat ->
  vclock_wf (vclock_copy dst src) /\ vclock_copy dst src ≡ src /\
  vc_map (vclock_copy dst src) = vc_map src /\
  forall v ign, vclock_ok v ->
    vclock_compare_generic (vclock_copy dst src) v ign =
    vclock_compare_generic src v ign.
Proof.
  intros [Hok Hsig] Hl. destruct (vclock_copy_spec dst src Hok Hl) as (Hc & Hm & Hs & He).
  split; [|split; [done|split; [done|]]].
  - split; [done|]. rewrite Hs, Hsig. by rewrite (total_equiv _ _ He).
  - intros v ign Hv.
    destruct (compare_generic_spec (vclock_copy dst src) v Hc Hv ign) as (le & ge & -> & H1 & H2).
    destruct (compare_generic_spec src v Hok Hv ign) as (le' & ge' & -> & H1' & H2').
    assert (0 <= first_id ign) by (destruct ign; simpl; lia).
    rewrite (vle_from_proper _ H _ _ He v v ltac:(done)) in H1.
    rewrite (vle_from_proper _ H v v ltac:(done) _ _ He) in H2.
    destruct le, le', ge, ge'; try done; naive_solver.
Qed.

Lemma vclock_copy_faithful_witness :
  vclock_copy (mk_vclock 0 0 (repeat 99 32)) vclock_example ≡ vclock_example.
Proof.
  apply (vclock_copy_faithful (mk_vclock 0 0 (repeat 99 32)) vclock_example);
    [exact vclock_example_wf|reflexivity].
Defined.

(** Given a proximity search that skips no clock at or below the key,
    [vclockset_match] returns the last clock of the set that is at or below
    the key, and the first clock of the set when there is none. *)
Theorem vclockset_match_last psearch (set : list vclock) key :
  Forall vclock_ok set -> vclock_ok key ->
  (psearch set key <= length set)%nat ->
  (forall (j : nat) m, (psearch set key <= j)%nat -> set !! j = Some m -> ~ vle_from 0 m key) ->
  (exists (i : nat) m, vclockset_match psearch set key = Some (Some m) /\
     set !! i = Some m /\ vle_from 0 m key /\
     forall (j : nat) m', (i < j)%nat -> set !! j = Some m' -> ~ vle_from 0 m' key) \/
  (vclockset_match psearch set key = Some (head set) /\
     forall (j : nat) m, set !! j = Some m -> ~ vle_from 0 m key).
Proof.
  intros Hset Hkey Hn Habove. unfold vclockset_match.
  destruct (match_loop_spec set key Hset Hkey (psearch set key) Hn Habove)
    as [(i & m & -> & H)|[-> H]].
  - left. exists i, m. split; [done|]. exact H.
  - right. done.
Qed.

Lemma vclockset_match_last_witness :
  vclockset_match (fun set _ => length set) [vclock_example2; vclock_example]
    (mk_vclock 3 61 ([11; 50] ++ repeat 0 30)) = Some (Some vclock_example2).
Proof.
  destruct (vclockset_match_last (fun set _ => length set)
    [vclock_example2; vclock_example] (mk_vclock 3 61 ([11; 50] ++ repeat 0 30)))
    as [(i & m & E & _)|[E _]].
  - constructor; [exact vclock_example2_ok|].
    constructor; [exact (proj1 vclock_example_wf)|constructor].
  - apply vclock_okb_ok. vm_compute. reflexivity.
  - simpl. lia.
  - intros j m Hj Hm. apply lookup_lt_Some in Hm. lia.
  - rewrite E. vm_compute in E. injection E as <-. reflexivity.
  - exact E.
Defined.
