(* ===== verification/VclockText.v ===== *)
(** * Text form of vector clocks (src/lib/vclock/vclock.c)

    [vclock_to_string] prints a clock as {id: lsn, id: lsn} into the static
    buffer, and [vclock_from_string] parses it back with a state machine made
    of gotos.  C strings are lists of characters; reading at the end of the
    list reads the terminating zero.  The labels of the parser are the
    constructors of [label]; every goto but the final ones consumes at least
    one character, so a run needs no more turns than there are characters. *)

From Stdlib Require Import Ascii.
From S2P Require Import Prelude Bits Vclock.

Open Scope Z_scope.

(** ** Characters *)

Definition code (c : ascii) : Z := Z.of_nat (nat_of_ascii c).
Definition chr (n : Z) : ascii := ascii_of_nat (Z.to_nat n).

Definition isdigit (c : ascii) : bool := (48 <=? code c) && (code c <=? 57).
Definition isblank (c : ascii) : bool := (code c =? 32) || (code c =? 9).
Definition isspace (c : ascii) : bool :=
  (code c =? 32) || ((9 <=? code c) && (code c <=? 13)).

Definition ch_nul : ascii := "000".
Definition ch_open : ascii := "{".
Definition ch_close : ascii := "}".
Definition ch_colon : ascii := ":".
Definition ch_comma : ascii := ",".
Definition ch_space : ascii := " ".
Definition ch_minus : ascii := "-".

(** ** snprintf("%u"), snprintf("%lld"), strtol() and strtoll() *)

Fixpoint dec_digits (fuel : nat) (n : Z) (acc : list ascii) : list ascii :=
  match fuel with
  | O => acc
  | S fuel =>
      let acc := chr (48 + n mod 10) :: acc in
      if n / 10 =? 0 then acc else dec_digits fuel (n / 10) acc
  end.
(** Twenty digits hold any 64-bit number. *)
Definition print_u (n : Z) : list ascii := dec_digits 20 n [].
Definition print_lld (n : Z) : list ascii :=
  if n <? 0 then ch_minus :: print_u (- n) else print_u n.

(** The longest run of digits: its value and the rest of the string. *)
Fixpoint scan_digits (acc : Z) (p : list ascii) : Z * list ascii :=
  match p with
  | c :: p' =>
      if isdigit c then scan_digits (10 * acc + (code c - 48)) p' else (acc, p)
  | [] => (acc, p)
  end.
(** [None] is a value out of range, for which errno is ERANGE. *)
Definition strtoll (p : list ascii) : option Z * list ascii :=
  let '(n, p) := scan_digits 0 p in
  ((if n <=? INT64_MAX then Some n else None), p).

(** ** Printing *)

Definition TT_STATIC_BUF_LEN : nat := 1024.
Definition VCLOCK_STR_LEN_MAX : Z := 1 + VCLOCK_MAX * (2 + 2 + 20 + 2) + 1.

Fixpoint snprint_pairs (sep : list ascii) (cs : list vclock_c) : list ascii :=
  match cs with
  | [] => []
  | c :: cs =>
      sep ++ print_u (c_id c) ++ [ch_colon; ch_space] ++ print_lld (c_lsn c) ++
      snprint_pairs [ch_comma; ch_space] cs
  end.

Definition vclock_snprint (v : vclock) : option (list ascii) :=
  cs ← vclock_foreach v;
  Some ([ch_open] ++ snprint_pairs [] cs ++ [ch_close]).

(** The static buffer keeps what fits before its terminating zero. *)
Definition vclock_to_string (v : vclock) : option (list ascii) :=
  s ← vclock_snprint v;
  Some (take (TT_STATIC_BUF_LEN - 1) s).

(** ** Parsing *)

Inductive label := l_begin | l_key | l_sep | l_val | l_comma | l_end.

Definition peek (p : list ascii) : ascii := default ch_nul (head p).

(** The result is the return value and the clock; [len] is the length of the
    whole string, so that [len - length p] is [p - str]. *)
Fixpoint from_string_run (fuel : nat) (len : nat) (l : label)
    (replica_id : Z) (v : vclock) (p : list ascii) : option (Z * vclock) :=
  match fuel with
  | O => None
  | S fuel =>
      let error (p : list ascii) := Some (Z.of_nat (len - length p) + 1, v) in
      let goto l := from_string_run fuel len l replica_id v (tail p) in
      let c := peek p in
      match l with
      | l_begin =>
          if Ascii.eqb c ch_open then goto l_key
          else if isblank c then goto l_begin
          else error p
      | l_key =>
          if isdigit c then
            match strtoll p with
            | (Some id, p) =>
                if (id <? 0) || (VCLOCK_MAX <=? id) then error p
                else from_string_run fuel len l_sep id v p
            | (None, p) => error p
            end
          else if Ascii.eqb c ch_close then goto l_end
          else if isblank c then goto l_key
          else error p
      | l_sep =>
          if Ascii.eqb c ch_colon then goto l_val
          else if isblank c then goto l_sep
          else error p
      | l_val =>
          if isblank c then goto l_val
          else if isdigit c then
            match strtoll p with
            | (Some lsn, p) =>
                g ← vclock_get v replica_id;
                if (lsn <? 0) || (INT64_MAX <? lsn) ||
                   (VCLOCK_MAX <=? replica_id) || (0 <? g)
                then error p
                else
                  from_string_run fuel len l_comma replica_id
                    (v <| vc_map ::= fun m => map_set m replica_id |>
                       <| vc_lsn ::= <[Z.to_nat replica_id := lsn]> |>) p
            | (None, p) => error p
            end
          else error p
      | l_comma =>
          if isspace c then goto l_comma
          else if Ascii.eqb c ch_close then goto l_end
          else if Ascii.eqb c ch_comma then goto l_key
          else error p
      | l_end =>
          if Ascii.eqb c ch_nul then
            s ← vclock_calc_sum v;
            Some (0, v <| vc_signature := s |>)
          else if isblank c then goto l_end
          else error p
      end
  end.

Definition vclock_from_string (v : vclock) (str : list ascii)
    : option (Z * vclock) :=
  from_string_run (S (length str)) (length str) l_begin 0 v str.

(** ** Lemmas: decimal numbers *)

Lemma code_chr n : 0 <= n < 256 -> code (chr n) = n.
Proof. intros. unfold code, chr. rewrite nat_ascii_embedding by lia. lia. Qed.

Definition value (a : Z) (ds : list ascii) : Z :=
  foldl (fun a c => 10 * a + (code c - 48)) a ds.

Definition no_digit (p : list ascii) : Prop := isdigit (peek p) = false.

Lemma scan_digits_app ds a p :
  Forall (fun c => isdigit c = true) ds -> no_digit p ->
  scan_digits a (ds ++ p) = (value a ds, p).
Proof.
  intros Hds Hp. revert a. induction Hds as [|c ds Hc Hds IH]; intros a; simpl.
  - destruct p as [|c p]; [done|]. unfold no_digit, peek in Hp. simpl in *. by rewrite Hp.
  - by rewrite Hc, IH.
Qed.

Lemma dec_digits_app fuel n acc :
  dec_digits fuel n acc = dec_digits fuel n [] ++ acc.
Proof.
  revert n acc. induction fuel as [|fuel IH]; intros n acc; simpl; [done|].
  destruct (n / 10 =? 0); [done|]. rewrite IH, (IH _ [_]), <- app_assoc. done.
Qed.

Lemma dec_digits_spec fuel n :
  (0 < fuel)%nat -> 0 <= n < 10 ^ Z.of_nat fuel ->
  let ds := dec_digits fuel n [] in
  Forall (fun c => isdigit c = true) ds /\ value 0 ds = n /\
  (0 < length ds)%nat /\ (forall k : nat, (0 < k)%nat -> n < 10 ^ Z.of_nat k -> (length ds <= k)%nat).
Proof.
  revert n. induction fuel as [|fuel IH]; intros n Hf Hn; [lia|]. cbn [dec_digits].
  assert (isdigit (chr (48 + n mod 10)) = true) as Hd.
  { unfold isdigit. rewrite code_chr by dlia. apply andb_true_iff.
    rewrite !Z.leb_le. dlia. }
  destruct (Z.eqb_spec (n / 10) 0) as [E|E].
  - cbv zeta. split; [by repeat constructor|]. split; [|simpl; split; intros; lia].
    unfold value. cbn [foldl]. rewrite code_chr by dlia. dlia.
  - rewrite Nat2Z.inj_succ, Z.pow_succ_r in Hn by lia.
    assert (fuel <> 0)%nat by (intros ->; simpl in Hn; dlia).
    destruct (IH (n / 10)) as (Hall & Hv & Hlen & Hk); [lia|split; dlia|]. cbv zeta.
    rewrite dec_digits_app. split; [by apply Forall_app; repeat constructor|].
    unfold value in *. rewrite foldl_snoc, Hv, code_chr by dlia. split; [dlia|].
    rewrite length_app. simpl. split; [lia|]. intros k Hk0 Hlt.
    destruct k as [|[|k]]; [lia|simpl in Hlt; dlia|].
    rewrite Nat2Z.inj_succ, Z.pow_succ_r in Hlt by lia.
    specialize (Hk (S k) ltac:(lia) ltac:(dlia)). lia.
Qed.

Lemma print_u_spec n :
  0 <= n <= INT64_MAX ->
  Forall (fun c => isdigit c = true) (print_u n) /\ value 0 (print_u n) = n /\
  (0 < length (print_u n))%nat /\
  (forall k : nat, (0 < k)%nat -> n < 10 ^ Z.of_nat k -> (length (print_u n) <= k)%nat).
Proof. intros. apply dec_digits_spec; [lia|]. unfold INT64_MAX in *. lia. Qed.

Lemma print_lld_nonneg n : 0 <= n -> print_lld n = print_u n.
Proof. intros. unfold print_lld. by replace (n <? 0) with false by lia. Qed.

Lemma strtoll_print n p :
  0 <= n <= INT64_MAX -> no_digit p -> strtoll (print_u n ++ p) = (Some n, p).
Proof.
  intros Hn Hp. destruct (print_u_spec n Hn) as (Hd & Hv & _). unfold strtoll.
  rewrite scan_digits_app by done. rewrite Hv. by replace (n <=? INT64_MAX) with true by lia.
Qed.

Lemma peek_print n p : 0 <= n <= INT64_MAX -> isdigit (peek (print_u n ++ p)) = true.
Proof.
  intros Hn. destruct (print_u_spec n Hn) as (Hd & _ & Hl & _).
  destruct (print_u n) as [|c ds]; [simpl in Hl; lia|]. by inversion Hd.
Qed.

Lemma digit_class c :
  isdigit c = true ->
  isblank c = false /\ Ascii.eqb c ch_close = false /\ Ascii.eqb c ch_open = false.
Proof.
  unfold isdigit, isblank. intros H. boolp. split; [lia|].
  split; apply Ascii.eqb_neq; intros ->; vm_compute in H, H0; done.
Qed.

(** ** Lemmas: one turn of the parser *)

Lemma run_key_number fuel len id0 v id p :
  0 <= id < 32 -> no_digit p ->
  from_string_run (S fuel) len l_key id0 v (print_u id ++ p) =
  from_string_run fuel len l_sep id v p.
Proof.
  intros Hid Hp. cbn [from_string_run].
  rewrite peek_print, strtoll_print by (done || unfold INT64_MAX; lia).
  unfold VCLOCK_MAX. by replace ((id <? 0) || (32 <=? id)) with false by lia.
Qed.

(** The assignment of one parsed component. *)
Definition put (v : vclock) (id lsn : Z) : vclock :=
  v <| vc_map ::= fun m => map_set m id |> <| vc_lsn ::= <[Z.to_nat id := lsn]> |>.

Lemma run_val_number fuel len id v lsn p :
  vclock_ok v -> 0 <= id < 32 -> comp v id = 0 ->
  0 <= lsn <= INT64_MAX -> no_digit p ->
  from_string_run (S fuel) len l_val id v (print_u lsn ++ p) =
  from_string_run fuel len l_comma id (put v id lsn) p.
Proof.
  intros Hv Hid H0 Hl Hp. cbn [from_string_run].
  pose proof (peek_print lsn p Hl) as Hd. destruct (digit_class _ Hd) as (-> & _ & _).
  rewrite Hd, strtoll_print, vclock_get_spec, obind_Some, H0 by done.
  unfold VCLOCK_MAX. by replace ((lsn <? 0) || (INT64_MAX <? lsn) || (32 <=? id) || (0 <? 0))
    with false by lia.
Qed.

Lemma put_spec v id lsn :
  vclock_ok v -> 0 <= id < 32 -> 0 <= lsn <= INT64_MAX ->
  vclock_ok (put v id lsn) /\
  (forall k, 0 <= k < 32 -> comp (put v id lsn) k = upd v id lsn k) /\
  (forall k, 0 <= k -> Z.testbit (vc_map (put v id lsn)) k = (k =? id) || Z.testbit (vc_map v) k).
Proof.
  intros Hv Hid Hl.
  assert (forall k, 0 <= k < 32 -> comp (put v id lsn) k = upd v id lsn k) as Hc.
  { intros k Hk. unfold put, upd. cbn. apply comp_set; try done.
    apply map_set_testbit; [apply Hv|lia..]. }
  split; [|split; [done|]].
  - split; [cbn; rewrite length_insert; apply Hv|apply map_set_range|].
    intros k Hk. rewrite Hc by done. unfold upd. destruct (k =? id); [done|by apply ok_comp].
  - intros k Hk. cbn. apply map_set_testbit; [apply Hv|lia..].
Qed.

(** ** Lemmas: parsing what was printed *)

Definition put_all (v : vclock) (cs : list vclock_c) : vclock :=
  foldl (fun v c => put v (c_id c) (c_lsn c)) v cs.

Definition fresh_comps (v : vclock) (cs : list vclock_c) : Prop :=
  NoDup (c_id <$> cs) /\
  forall c, In c cs -> 0 <= c_id c < 32 /\ 0 <= c_lsn c <= INT64_MAX /\
    comp v (c_id c) = 0.

Lemma fresh_comps_put v c cs :
  vclock_ok v -> fresh_comps v (c :: cs) ->
  fresh_comps (put v (c_id c) (c_lsn c)) cs.
Proof.
  intros Hv [Hnd Hc]. rewrite fmap_cons, NoDup_cons in Hnd. destruct Hnd as [Hni Hnd].
  split; [done|]. intros x Hx. destruct (Hc x) as (H1 & H2 & H3); [by right|].
  destruct (Hc c) as (H1' & H2' & _); [by left|]. split; [done|]. split; [done|].
  destruct (put_spec v (c_id c) (c_lsn c) Hv H1' H2') as (_ & -> & _); [|done].
  unfold upd. destruct (Z.eqb_spec (c_id x) (c_id c)) as [E|]; [|done].
  exfalso. apply Hni. rewrite <- E. apply list_elem_of_fmap_2, list_elem_of_In, Hx.
Qed.

Lemma run_end fuel len id v :
  vclock_ok v ->
  from_string_run (S fuel) len l_end id v [] =
  Some (0, v <| vc_signature := i64 (total v) |>).
Proof. intros Hv. cbn. by rewrite vclock_calc_sum_spec. Qed.

(** From the digits of a key to the comma after its value. *)
Lemma run_pair fuel len id0 v c p :
  vclock_ok v -> 0 <= c_id c < 32 -> 0 <= c_lsn c <= INT64_MAX ->
  comp v (c_id c) = 0 -> no_digit p ->
  from_string_run (S (S (S (S fuel)))) len l_key id0 v
    (print_u (c_id c) ++ [ch_colon; ch_space] ++ print_lld (c_lsn c) ++ p) =
  from_string_run fuel len l_comma (c_id c) (put v (c_id c) (c_lsn c)) p.
Proof.
  intros Hv Hid Hl H0 Hp. rewrite run_key_number by done.
  cbn [app]. change (from_string_run (S (S (S fuel))) len l_sep (c_id c) v
    (ch_colon :: ch_space :: print_lld (c_lsn c) ++ p))
    with (from_string_run (S fuel) len l_val (c_id c) v (print_lld (c_lsn c) ++ p)).
  rewrite print_lld_nonneg by lia. by rewrite run_val_number.
Qed.

Lemma no_digit_rest cs : no_digit (snprint_pairs [ch_comma; ch_space] cs ++ [ch_close]).
Proof. by destruct cs. Qed.

Lemma run_comma len cs :
  forall v id fuel, vclock_ok v -> fresh_comps v cs ->
  (length (snprint_pairs [ch_comma; ch_space] cs) + 2 <= fuel)%nat ->
  from_string_run fuel len l_comma id v
    (snprint_pairs [ch_comma; ch_space] cs ++ [ch_close]) =
  Some (0, (put_all v cs) <| vc_signature := i64 (total (put_all v cs)) |>) /\
  vclock_ok (put_all v cs).
Proof.
  induction cs as [|c cs IH]; intros v id fuel Hv Hf Hfuel.
  - destruct fuel as [|[|fuel]]; [simpl in Hfuel; lia..|]. split; [|done].
    change (from_string_run (S (S fuel)) len l_comma id v _)
      with (from_string_run (S fuel) len l_end id v []). by apply run_end.
  - pose proof (fresh_comps_put v c cs Hv Hf) as Hf'. destruct Hf as [_ Hc].
    destruct (Hc c) as (Hid & Hl & H0); [by left|].
    destruct (put_spec v (c_id c) (c_lsn c) Hv Hid Hl) as (Hok & _ & _).
    destruct (print_u_spec (c_id c)) as (_ & _ & L1 & _); [unfold INT64_MAX; lia|].
    destruct (print_u_spec (c_lsn c) Hl) as (_ & _ & L2 & _).
    cbn [snprint_pairs] in Hfuel |- *. rewrite !length_app in Hfuel.
    rewrite print_lld_nonneg in Hfuel by lia. cbn [length] in Hfuel.
    destruct fuel as [|[|[|[|[|[|fuel]]]]]]; [lia..|].
    rewrite <- !app_assoc. cbn [app].
    change (from_string_run (S (S (S (S (S (S fuel)))))) len l_comma id v _)
      with (from_string_run (S (S (S (S fuel)))) len l_key id v
        (print_u (c_id c) ++ [ch_colon; ch_space] ++ print_lld (c_lsn c) ++
         snprint_pairs [ch_comma; ch_space] cs ++ [ch_close])).
    rewrite run_pair by (done || apply no_digit_rest).
    apply (IH (put v (c_id c) (c_lsn c))); [done|done|lia].
Qed.

Lemma run_printed v0 cs :
  vclock_ok v0 -> fresh_comps v0 cs ->
  let str := [ch_open] ++ snprint_pairs [] cs ++ [ch_close] in
  vclock_from_string v0 str =
  Some (0, (put_all v0 cs) <| vc_signature := i64 (total (put_all v0 cs)) |>) /\
  vclock_ok (put_all v0 cs).
Proof.
  intros Hv Hf str. unfold vclock_from_string.
  assert (from_string_run (S (length str)) (length str) l_begin 0 v0 str =
    from_string_run (length str) (length str) l_key 0 v0 (snprint_pairs [] cs ++ [ch_close]))
    as -> by reflexivity.
  generalize (length str) at 2. intros len. subst str. destruct cs as [|c cs].
  - split; [|done]. change (from_string_run _ len l_key 0 v0 _)
      with (from_string_run 1 len l_end 0 v0 []). by apply run_end.
  - pose proof (fresh_comps_put v0 c cs Hv Hf) as Hf'. destruct Hf as [_ Hc].
    destruct (Hc c) as (Hid & Hl & H0); [by left|].
    destruct (put_spec v0 (c_id c) (c_lsn c) Hv Hid Hl) as (Hok & _ & _).
    destruct (print_u_spec (c_id c)) as (_ & _ & L1 & _); [unfold INT64_MAX; lia|].
    destruct (print_u_spec (c_lsn c) Hl) as (_ & _ & L2 & _).
    match goal with |- context [from_string_run ?f] => remember f as fuel eqn:Ef end.
    cbn [snprint_pairs] in Ef |- *. rewrite app_nil_l, <- !app_assoc in Ef |- *.
    rewrite (print_lld_nonneg (c_lsn c)) in Ef by lia.
    rewrite !length_app in Ef. cbn [length] in Ef.
    destruct fuel as [|[|[|[|fuel]]]]; [lia..|].
    rewrite (run_pair fuel len 0 v0 c _ Hv Hid Hl H0 (no_digit_rest cs)).
    apply (run_comma len cs (put v0 (c_id c) (c_lsn c))); [done|done|lia].
Qed.

(** What the assignments leave behind, for the components of a printed clock. *)
Definition comps_of (src : vclock) (ids : list Z) : list vclock_c :=
  (fun id => mk_vclock_c id (comp src id)) <$> ids.

Lemma fresh_comps_of v src ids :
  vclock_ok src -> NoDup ids -> ids_ok ids ->
  (forall id, In id ids -> comp v id = 0) -> fresh_comps v (comps_of src ids).
Proof.
  intros Hs Hnd Hok H0. split; [by unfold comps_of; rewrite fmap_c_id|].
  intros c Hc. apply in_map_iff in Hc as (id & <- & Hid). simpl.
  pose proof (Hok id Hid). split; [done|]. split; [by apply ok_comp|by apply H0].
Qed.

Lemma put_all_spec src ids v :
  vclock_ok src -> vclock_ok v -> NoDup ids -> ids_ok ids ->
  forall k, 0 <= k < 32 ->
  comp (put_all v (comps_of src ids)) k =
    (if bool_decide (k ∈ ids) then comp src k else comp v k) /\
  Z.testbit (vc_map (put_all v (comps_of src ids))) k =
    bool_decide (k ∈ ids) || Z.testbit (vc_map v) k.
Proof.
  intros Hs. revert v. induction ids as [|i ids IH]; intros v Hv Hnd Hok k Hk.
  { by rewrite bool_decide_eq_false_2 by set_solver. }
  rewrite NoDup_cons in Hnd. destruct Hnd as [Hni Hnd].
  assert (0 <= i < 32) as Hi by (apply Hok; by left).
  destruct (put_spec v i (comp src i) Hv Hi (ok_comp src Hs i Hi)) as (Hok' & Hc & Hm).
  destruct (IH (put v i (comp src i)) Hok' Hnd) with (k := k) as [H1 H2];
    [intros x Hx; apply Hok; by right|done|].
  change (put_all v (comps_of src (i :: ids)))
    with (put_all (put v i (comp src i)) (comps_of src ids)).
  rewrite H1, H2, Hc, Hm by lia. unfold upd. destruct (Z.eqb_spec k i) as [->|Hne].
  - rewrite !(bool_decide_eq_true_2 (i ∈ i :: ids)) by set_solver.
    by rewrite !bool_decide_eq_false_2 by done.
  - rewrite (bool_decide_ext (k ∈ i :: ids) (k ∈ ids)) by set_solver. done.
Qed.

Lemma snprint_pairs_length sep cs :
  (forall c, In c cs -> 0 <= c_id c < 32 /\ 0 <= c_lsn c <= INT64_MAX) ->
  (length (snprint_pairs sep cs) <= (length sep + 21) + 25 * length cs)%nat.
Proof.
  revert sep. induction cs as [|c cs IH]; intros sep H; cbn [snprint_pairs]; [simpl; lia|].
  destruct (H c) as [Hid Hl]; [by left|].
  destruct (print_u_spec (c_id c)) as (_ & _ & _ & L1); [unfold INT64_MAX; lia|].
  destruct (print_u_spec (c_lsn c) Hl) as (_ & _ & _ & L2).
  specialize (L1 2%nat ltac:(lia) ltac:(lia)).
  specialize (L2 19%nat ltac:(lia) ltac:(unfold INT64_MAX in Hl; lia)).
  specialize (IH [ch_comma; ch_space] ltac:(intros; apply H; by right)).
  rewrite print_lld_nonneg by lia. rewrite !length_app. cbn [length] in *. lia.
Qed.

Lemma vclock_snprint_spec v :
  vclock_ok v ->
  let s := [ch_open] ++
    snprint_pairs [] (comps_of v (positions (Z.testbit (vc_map v)) 0 32)) ++ [ch_close] in
  vclock_snprint v = Some s /\ (Z.of_nat (length s) <= VCLOCK_STR_LEN_MAX) /\
  vclock_to_string v = Some s.
Proof.
  intros Hv s.
  assert (vclock_snprint v = Some s) as E.
  { unfold vclock_snprint. rewrite vclock_foreach_spec, obind_Some by done. done. }
  assert (Z.of_nat (length s) <= 824) as L.
  { subst s. rewrite !length_app. cbn [length]. unfold comps_of.
    pose proof (snprint_pairs_length [] (comps_of v (positions (Z.testbit (vc_map v)) 0 32)))
      as H. unfold comps_of in H. rewrite length_map in H. cbn [length] in H.
    assert (length (positions (Z.testbit (vc_map v)) 0 32) <= 32)%nat as Hp
      by (apply positions_length).
    lapply H; [lia|]. intros c Hc. apply in_map_iff in Hc as (id & <- & Hid).
    apply positions_In in Hid. simpl. split; [lia|]. apply ok_comp; [done|lia]. }
  split; [done|]. split; [unfold VCLOCK_STR_LEN_MAX, VCLOCK_MAX; lia|].
  unfold vclock_to_string. rewrite E, obind_Some. f_equal.
  apply firstn_all2. unfold TT_STATIC_BUF_LEN. lia.
Qed.

(** ** Lemmas: the parser on any string *)

Lemma scan_digits_shorter a p :
  (length (scan_digits a p).2 <= length p)%nat /\
  (isdigit (peek p) = true -> (length (scan_digits a p).2 < length p)%nat).
Proof.
  revert a. induction p as [|c p IH]; intros a; simpl.
  { split; [done|]. unfold peek. simpl. vm_compute. done. }
  unfold peek. simpl. destruct (isdigit c); simpl; [|split; [lia|done]].
  destruct (IH (10 * a + (code c - 48))) as [H _]. lia.
Qed.

Lemma strtoll_shorter p :
  isdigit (peek p) = true -> (length (strtoll p).2 < length p)%nat.
Proof.
  intros H. unfold strtoll. pose proof (proj2 (scan_digits_shorter 0 p) H) as Hs.
  by destruct (scan_digits 0 p).
Qed.

Lemma scan_digits_nonneg a p : 0 <= a -> 0 <= (scan_digits a p).1.
Proof.
  revert a. induction p as [|c p IH]; intros a Ha; simpl; [done|].
  destruct (isdigit c) eqn:E; [|done]. apply IH. unfold isdigit in E. boolp. lia.
Qed.

Lemma tail_shorter (p : list ascii) c :
  peek p = c -> c <> ch_nul -> (length (tail p) < length p)%nat.
Proof. destruct p; simpl; [|lia]. unfold peek. simpl. congruence. Qed.

(** What a run of the parser promises: it returns, the result is 0 or a
    position in the string, the clock stays well formed, and no component
    that was positive has changed. *)
Definition parse_result (len : nat) (v : vclock) (r : option (Z * vclock)) : Prop :=
  exists res w, r = Some (res, w) /\ 0 <= res <= Z.of_nat len + 1 /\ vclock_ok w /\
    (res = 0 -> vclock_wf w) /\
    (forall k, 0 <= k < 32 -> 0 < comp v k -> comp w k = comp v k).

Lemma parse_error len v (p : list ascii) :
  vclock_ok v -> parse_result len v (Some (Z.of_nat (len - length p) + 1, v)).
Proof.
  intros Hv. exists (Z.of_nat (len - length p) + 1), v.
  split; [done|]. split; [lia|]. split; [done|]. split; [lia|done].
Qed.

Lemma parse_put len v id lsn r :
  vclock_ok v -> 0 <= id < 32 -> 0 <= lsn <= INT64_MAX -> comp v id <= 0 ->
  parse_result len (put v id lsn) r -> parse_result len v r.
Proof.
  intros Hv Hid Hl H0 (res & w & -> & Hr & Hok & Hwf & Hk).
  exists res, w. split; [done|]. split; [done|]. split; [done|]. split; [done|].
  destruct (put_spec v id lsn Hv Hid Hl) as (_ & Hc & _).
  intros k Hk32 Hpos. specialize (Hk k Hk32). rewrite Hc in Hk by done.
  unfold upd in Hk. destruct (Z.eqb_spec k id) as [E|]; [subst; lia|auto].
Qed.

(** Storing the sum makes a clock well formed. *)
Lemma sign_wf v :
  vclock_ok v -> vclock_wf (v <| vc_signature := i64 (total v) |>).
Proof. intros Hv. split; [by destruct Hv|done]. Qed.

Lemma parse_end len v :
  vclock_ok v ->
  parse_result len v (s ← vclock_calc_sum v; Some (0, v <| vc_signature := s |>)).
Proof.
  intros Hv. rewrite vclock_calc_sum_spec, obind_Some by done.
  eexists 0, _. split; [done|]. split; [lia|].
  pose proof (sign_wf v Hv) as H. split; [apply H|]. by split.
Qed.

Lemma blank_class c : isblank c = true -> c <> ch_nul.
Proof. by intros H ->. Qed.
Lemma space_class c : isspace c = true -> c <> ch_nul.
Proof. by intros H ->. Qed.
Lemma eqb_class c d : Ascii.eqb c d = true -> d <> ch_nul -> c <> ch_nul.
Proof. by intros H%Ascii.eqb_eq; subst. Qed.

(** The next character is not the terminating zero. *)
Ltac not_nul :=
  match goal with
  | H : isblank _ = true |- _ => exact (blank_class _ H)
  | H : isspace _ = true |- _ => exact (space_class _ H)
  | H : Ascii.eqb _ _ = true |- _ => exact (eqb_class _ _ H ltac:(done))
  end.

Lemma run_parse len fuel :
  forall l id v p, (length p < fuel)%nat -> 0 <= id < 32 -> vclock_ok v ->
  parse_result len v (from_string_run fuel len l id v p).
Proof.
  induction fuel as [|fuel IH]; intros l id v p Hp Hid Hv; [lia|].
  assert (peek p <> ch_nul -> forall l,
    parse_result len v (from_string_run fuel len l id v (tail p))) as Hgoto.
  { intros Hc l'. apply IH; [|done|done]. pose proof (tail_shorter p _ eq_refl Hc). lia. }
  cbn [from_string_run].
  destruct l; repeat casep; try first [by apply parse_error|apply Hgoto; not_nul].
  - destruct (strtoll p) as [[n|] q] eqn:E; [|by apply parse_error].
    cbv beta iota. casep; [by apply parse_error|]. unfold VCLOCK_MAX in *.
    pose proof (strtoll_shorter p ltac:(done)) as Hs. rewrite E in Hs. simpl in Hs.
    apply IH; [lia|lia|done].
  - destruct (strtoll p) as [[n|] q] eqn:E; [|by apply parse_error].
    rewrite vclock_get_spec, obind_Some by done.
    cbv beta iota. casep; [by apply parse_error|]. unfold VCLOCK_MAX in *.
    pose proof (strtoll_shorter p ltac:(done)) as Hs. rewrite E in Hs. simpl in Hs.
    apply (parse_put len v id n); [done|lia|lia|lia|].
    apply IH; [lia|lia|]. by apply put_spec; [|lia|lia].
  - by apply parse_end.
Qed.

(** ** Theorems *)

(** C26: Printing a clock and parsing the text back gives the clock: for every
    well-formed clock [v], [vclock_to_string] produces a text that fits in
    VCLOCK_STR_LEN_MAX characters and is not truncated by the static buffer,
    and [vclock_from_string] into a fresh clock accepts it (returns 0) with the
    same component and presence bit at every id and with the signature equal to
    the sum of the components. *)
Theorem vclock_text_roundtrip v u :
  vclock_ok v -> length (vc_lsn u) = 32%nat ->
  exists s w, vclock_to_string v = Some s /\
    Z.of_nat (length s) <= VCLOCK_STR_LEN_MAX /\
    vclock_from_string (vclock_create u) s = Some (0, w) /\
    vclock_wf w /\ w ≡ v /\ vc_map w = vc_map v.
Proof.
  intros Hv Hu. destruct (vclock_create_spec u Hu) as [[Hok _] H0].
  pose proof (vclock_snprint_spec v Hv) as (_ & Hlen & Hs).
  set (ids := positions (Z.testbit (vc_map v)) 0 32) in *.
  assert (ids_ok ids) as Hids by (apply (positions_ids_ok _ 0); lia).
  assert (NoDup ids) as Hnd by apply positions_NoDup.
  destruct (run_printed (vclock_create u) (comps_of v ids)) as [Hrun Hok'];
    [done|by apply fresh_comps_of|].
  set (w := put_all (vclock_create u) (comps_of v ids)) in *.
  assert (forall k, k ∈ ids <-> 0 <= k < 32 /\ Z.testbit (vc_map v) k = true) as Hin.
  { intros k. rewrite list_elem_of_In. unfold ids. rewrite positions_In.
    intuition lia. }
  pose proof (put_all_spec v ids (vclock_create u) Hv Hok Hnd Hids) as Hput. fold w in Hput.
  clearbody w.
  eexists _, _. split; [exact Hs|]. split; [exact Hlen|]. split; [exact Hrun|].
  split; [by apply sign_wf|]. split.
  - intros k Hk. change (comp w k = comp v k). destruct (Hput k Hk) as [-> _].
    case_bool_decide as E; [done|]. rewrite H0. symmetry. apply comp_absent.
    destruct (Z.testbit (vc_map v) k) eqn:B; [|done]. exfalso. apply E, Hin. done.
  - change (vc_map w = vc_map v). apply Z.bits_inj'. intros k Hk.
    destruct (Z.lt_ge_cases k 32) as [H32|H32].
    + destruct (Hput k ltac:(lia)) as [_ ->]. rewrite Z.bits_0, orb_false_r.
      apply eq_true_iff_eq. rewrite bool_decide_eq_true, Hin. intuition lia.
    + rewrite !(testbit_above 32) by (done || apply Hok' || apply Hv). done.
Qed.

Lemma vclock_text_roundtrip_witness :
  vclock_ok vclock_example /\ length (vc_lsn vclock_example2) = 32%nat /\
  exists s w, vclock_to_string vclock_example = Some s /\
    Z.of_nat (length s) <= VCLOCK_STR_LEN_MAX /\
    vclock_from_string (vclock_create vclock_example2) s = Some (0, w) /\
    vclock_wf w /\ w ≡ vclock_example /\ vc_map w = vc_map vclock_example.
Proof.
  assert (vclock_ok vclock_example) as H by apply vclock_example_wf.
  assert (length (vc_lsn vclock_example2) = 32%nat) as H2 by (vm_compute; reflexivity).
  split; [exact H|]. split; [exact H2|].
  exact (vclock_text_roundtrip vclock_example vclock_example2 H H2).
Defined.

(** The parser returns on every string: starting from a well-formed clock
    its goto loop ends within the length of the string, without reading a
    component out of range, with 0 or a one-based position inside the string;
    the clock it leaves is well formed, its signature is the sum of its
    components when the result is 0, and a component that was already positive
    is never overwritten (a duplicate id is an error). *)
Theorem vclock_from_string_total v str :
  vclock_ok v ->
  exists r w, vclock_from_string v str = Some (r, w) /\
    0 <= r <= Z.of_nat (length str) + 1 /\ vclock_ok w /\
    (r = 0 -> vclock_wf w) /\
    (forall k, 0 <= k < 32 -> 0 < comp v k -> comp w k = comp v k).
Proof. intros Hv. apply run_parse; [lia|lia|done]. Qed.

Lemma vclock_from_string_total_witness :
  vclock_ok vclock_example /\
  exists r w, vclock_from_string vclock_example [ch_open; "1"%char; ch_colon] = Some (r, w) /\
    0 <= r <= 4 /\ vclock_ok w.
Proof.
  assert (vclock_ok vclock_example) as H by apply vclock_example_wf.
  split; [exact H|].
  destruct (vclock_from_string_total vclock_example [ch_open; "1"%char; ch_colon] H)
    as (r & w & E & Hr & Hok & _).
  exists r, w. split; [exact E|]. split; [exact Hr|exact Hok].
Defined.
