(* ===== verification/Double.v ===== *)
(** * Doubles

    The C [double] is IEEE 754 binary64, computed with the Standard Library's
    executable specification of floating point. *)

From Stdlib Require Export SpecFloat.
From S2P Require Import Prelude.

Open Scope Z_scope.

Abbreviation double := spec_float.

Definition d_add : double -> double -> double := SFadd 53 1024.
Definition d_sub : double -> double -> double := SFsub 53 1024.
Definition d_mul : double -> double -> double := SFmul 53 1024.
Definition d_div : double -> double -> double := SFdiv 53 1024.
Definition d_eq : double -> double -> bool := SFeqb.
Definition d_lt : double -> double -> bool := SFltb.

(** The double nearest to an integer. *)
Definition d_of_Z (n : Z) : double := binary_normalize 53 1024 n 0 false.
Definition d_zero : double := S754_zero false.
(** The literal 0.1. *)
Definition d_tenth : double := d_div (d_of_Z 1) (d_of_Z 10).

(** Conversion to uint32_t: truncation towards zero, undefined when the
    truncated value does not fit. *)
Definition d_trunc (d : double) : option Z :=
  match d with
  | S754_zero _ => Some 0
  | S754_finite s m e =>
      let a := if e <? 0 then Z.pos m / 2 ^ (- e) else Z.pos m * 2 ^ e in
      Some (if s then - a else a)
  | _ => None
  end.
Definition d_to_u32 (d : double) : option Z :=
  match d_trunc d with
  | Some z => if (0 <=? z) && (z <=? UINT32_MAX) then Some z else None
  | None => None
  end.
