(* ===== verification/Raft.v ===== *)
(** * Leader election: one node (src/lib/raft/raft.c, raft.h, raft_ev.c)

    The state machine of one Raft node.  [raft] is struct raft; the calls of
    its virtual table and the runs of its update trigger are recorded in
    [r_log], most recent first.  Every function of raft.c is a program on this
    state; a failed assert, a dereference of a null clock or a bit written
    outside of the vote mask is [Abort].

    The worker fiber writes to the WAL in [raft_worker_handle_io], which
    yields: the function is split there into [raft_worker_handle_io_begin] and
    [raft_worker_handle_io_end], so that any other call can run in between. *)

From S2P Require Import Prelude Bits Vclock Double.

Open Scope Z_scope.

(** ** Data *)

Inductive raft_state :=
| RAFT_STATE_FOLLOWER
| RAFT_STATE_CANDIDATE
| RAFT_STATE_LEADER.

#[export] Instance raft_state_eq_dec : EqDecision raft_state.
Proof. solve_decision. Defined.

(** The numbers of the states in messages; 0 is no state. *)
Definition raft_state_code (s : raft_state) : Z :=
  match s with
  | RAFT_STATE_FOLLOWER => 1
  | RAFT_STATE_CANDIDATE => 2
  | RAFT_STATE_LEADER => 3
  end.
Definition raft_state_MAX : Z := 4.

Record raft_msg := mk_raft_msg {
  m_term : Z;
  m_vote : Z;
  m_state : Z;
  m_vclock : option vclock;
}.

(** What other parts of the node can see of Raft. *)
Record raft_visible := mk_raft_visible {
  v_state : raft_state;
  v_leader : Z;
  v_term : Z;
  v_vote : Z;
}.

Inductive raft_event :=
| ev_broadcast (m : raft_msg)
| ev_write (m : raft_msg)
| ev_schedule_async
| ev_on_update (v : raft_visible).

(** The watcher of libev: whether it is in the heap of the loop, and its
    absolute (relative when stopped) time and period. *)
Record ev_timer := mk_ev_timer {
  t_active : bool;
  t_at : double;
  t_repeat : double;
}.
#[export] Instance ev_timer_rebuild : Rebuild ev_timer :=
  fun t => mk_ev_timer (t_active t) (t_at t) (t_repeat t).

Record raft := mk_raft {
  r_self : Z;
  r_leader : Z;
  r_state : raft_state;
  r_volatile_term : Z;
  r_volatile_vote : Z;
  r_is_enabled : bool;
  r_is_candidate : bool;
  r_is_cfg_candidate : bool;
  r_is_write_in_progress : bool;
  r_is_broadcast_scheduled : bool;
  r_term : Z;
  r_vote : Z;
  r_vote_mask : Z;
  r_vote_count : Z;
  r_election_quorum : Z;
  r_vclock : option vclock;
  r_timer : ev_timer;
  r_election_timeout : double;
  r_death_timeout : double;
  (** The environment: the time of the event loop, the numbers rand() will
      return, and the calls made to the virtual table and the triggers. *)
  r_now : double;
  r_rand : list Z;
  r_log : list raft_event;
}.
#[export] Instance raft_rebuild : Rebuild raft := fun r =>
  mk_raft (r_self r) (r_leader r) (r_state r) (r_volatile_term r)
    (r_volatile_vote r) (r_is_enabled r) (r_is_candidate r)
    (r_is_cfg_candidate r) (r_is_write_in_progress r)
    (r_is_broadcast_scheduled r) (r_term r) (r_vote r) (r_vote_mask r)
    (r_vote_count r) (r_election_quorum r) (r_vclock r) (r_timer r)
    (r_election_timeout r) (r_death_timeout r) (r_now r) (r_rand r) (r_log r).

Abbreviation rprog := (prog raft).

Definition state_is (s : raft_state) (r : raft) : bool :=
  raft_state_code (r_state r) =? raft_state_code s.
Definition visible (r : raft) : raft_visible :=
  mk_raft_visible (r_state r) (r_leader r) (r_term r) (r_vote r).

Definition log (e : raft -> raft_event) : rprog unit :=
  modify (fun r => r <| r_log ::= cons (e r) |>).

(** ** The environment *)

Definition rand : rprog Z := fun r =>
  match r_rand r with
  | x :: xs => Done (x, r <| r_rand := xs |>)
  | [] => Done (0, r)
  end.

Definition raft_ev_timer_start : rprog unit := modify (fun r =>
  if t_active (r_timer r) then r
  else r <| r_timer := mk_ev_timer true (d_add (t_at (r_timer r)) (r_now r))
                         (t_repeat (r_timer r)) |>).
Definition raft_ev_timer_stop : rprog unit := modify (fun r =>
  if t_active (r_timer r) then
    r <| r_timer := mk_ev_timer false (d_sub (t_at (r_timer r)) (r_now r))
                      (t_repeat (r_timer r)) |>
  else r).
Definition raft_ev_timer_set (after repeat : double) : rprog unit := modify (fun r =>
  r <| r_timer := mk_ev_timer (t_active (r_timer r)) after repeat |>).
Definition raft_ev_timer_remaining (r : raft) : double :=
  d_sub (t_at (r_timer r)) (if t_active (r_timer r) then r_now r else d_zero).
Definition raft_ev_is_active (r : raft) : bool := t_active (r_timer r).

(** ** Helpers *)

Definition raft_broadcast (req : raft_msg) : rprog unit := log (fun _ => ev_broadcast req).
Definition raft_write (req : raft_msg) : rprog unit := log (fun _ => ev_write req).
Definition raft_schedule_async : rprog unit := log (fun _ => ev_schedule_async).

Definition raft_is_fully_on_disk (r : raft) : bool :=
  (r_volatile_term r =? r_term r) && (r_volatile_vote r =? r_vote r).

Definition raft_is_ro (r : raft) : bool :=
  r_is_enabled r && negb (state_is RAFT_STATE_LEADER r).

(** The part of the election timeout to randomise, in ms. *)
Definition rand_part (timeout : double) : option Z :=
  d_to_u32 (d_mul (d_mul timeout d_tenth) (d_of_Z 1000)).

Definition raft_new_random_election_shift : rprog double :=
  timeout ← gets r_election_timeout;
  match rand_part timeout with
  | None => abort
  | Some part =>
      let part := if part =? 0 then 1 else part in
      x ← rand;
      let m := u32 (part + 1) in
      if m =? 0 then abort
      else mret (d_div (d_of_Z (u32 x mod m)) (d_of_Z 1000))
  end.

Definition raft_can_vote_for (v : vclock) : rprog bool :=
  mine ← gets r_vclock;
  match mine ≫= vclock_compare_ignore0 v with
  | None => abort
  | Some cmp => mret ((cmp =? 0) || (cmp =? 1))
  end.

Definition raft_schedule_broadcast : rprog unit :=
  log (fun r => ev_on_update (visible r));;
  modify (fun r => r <| r_is_broadcast_scheduled := true |>);;
  raft_schedule_async.

(** bit_set(&raft->vote_mask, pos) *)
Definition vote_mask_set (pos : Z) : rprog bool :=
  mask ← gets r_vote_mask;
  match bit_set (store_u32 mask) pos with
  | None => abort
  | Some (was_set, bytes) =>
      match load_u32 bytes 0 with
      | None => abort
      | Some mask =>
          modify (fun r => r <| r_vote_mask := mask |>);; mret was_set
      end
  end.

(** ** The state machine *)

Definition raft_sm_pause_and_dump : rprog unit :=
  assert (state_is RAFT_STATE_FOLLOWER);;
  wip ← gets r_is_write_in_progress;
  if wip : bool then skip
  else
    raft_ev_timer_stop;;
    raft_schedule_async;;
    modify (fun r => r <| r_is_write_in_progress := true |>).

Definition raft_sm_become_leader : rprog unit :=
  assert (fun r => negb (state_is RAFT_STATE_LEADER r));;
  assert (fun r => r_leader r =? 0);;
  assert r_is_candidate;;
  assert (fun r => negb (r_is_write_in_progress r));;
  modify (fun r => r <| r_state := RAFT_STATE_LEADER |>);;
  modify (fun r => r <| r_leader := r_self r |>);;
  raft_ev_timer_stop;;
  raft_schedule_broadcast.

Definition raft_sm_wait_leader_dead : rprog unit :=
  assert (fun r => negb (raft_ev_is_active r));;
  assert (fun r => negb (r_is_write_in_progress r));;
  assert r_is_candidate;;
  assert (state_is RAFT_STATE_FOLLOWER);;
  assert (fun r => negb (r_leader r =? 0));;
  timeout ← gets r_death_timeout;
  raft_ev_timer_set timeout timeout;;
  raft_ev_timer_start.

Definition raft_sm_wait_leader_found : rprog unit :=
  assert (fun r => negb (raft_ev_is_active r));;
  assert (fun r => negb (r_is_write_in_progress r));;
  assert r_is_candidate;;
  assert (state_is RAFT_STATE_FOLLOWER);;
  assert (fun r => r_leader r =? 0);;
  timeout ← gets r_death_timeout;
  raft_ev_timer_set timeout timeout;;
  raft_ev_timer_start.

Definition raft_sm_wait_election_end : rprog unit :=
  assert (fun r => negb (raft_ev_is_active r));;
  assert (fun r => negb (r_is_write_in_progress r));;
  assert r_is_candidate;;
  assert (fun r => state_is RAFT_STATE_FOLLOWER r ||
    (state_is RAFT_STATE_CANDIDATE r && (r_volatile_vote r =? r_self r)));;
  assert (fun r => r_leader r =? 0);;
  timeout ← gets r_election_timeout;
  shift ← raft_new_random_election_shift;
  let election_timeout := d_add timeout shift in
  raft_ev_timer_set election_timeout election_timeout;;
  raft_ev_timer_start.

Definition raft_sm_follow_leader (leader : Z) : rprog unit :=
  assert (fun r => negb (state_is RAFT_STATE_LEADER r));;
  assert (fun r => r_leader r =? 0);;
  modify (fun r => r <| r_state := RAFT_STATE_FOLLOWER |>);;
  modify (fun r => r <| r_leader := leader |>);;
  waits ← gets (fun r => negb (r_is_write_in_progress r) && r_is_candidate r);
  (if waits : bool then raft_ev_timer_stop;; raft_sm_wait_leader_dead else skip);;
  raft_schedule_broadcast.

Definition raft_sm_become_candidate : rprog unit :=
  assert (state_is RAFT_STATE_FOLLOWER);;
  assert (fun r => r_leader r =? 0);;
  assert (fun r => r_vote r =? r_self r);;
  assert r_is_candidate;;
  assert (fun r => negb (r_is_write_in_progress r));;
  assert (fun r => 1 <? r_election_quorum r);;
  modify (fun r => r <| r_state := RAFT_STATE_CANDIDATE |>);;
  modify (fun r => r <| r_vote_count := 1 |>);;
  modify (fun r => r <| r_vote_mask := 0 |>);;
  self ← gets r_self;
  _ ← vote_mask_set self;
  raft_sm_wait_election_end;;
  raft_schedule_broadcast.

Definition raft_start_candidate : rprog unit :=
  assert r_is_enabled;;
  candidate ← gets r_is_candidate;
  if candidate : bool then skip
  else
    assert (state_is RAFT_STATE_FOLLOWER);;
    modify (fun r => r <| r_is_candidate := true |>);;
    r ← gets (fun r => r);
    if r_is_write_in_progress r then skip
    else if negb (r_leader r =? 0) then raft_sm_wait_leader_dead
    else raft_sm_wait_leader_found.

Definition raft_stop_candidate : rprog unit :=
  candidate ← gets r_is_candidate;
  if negb candidate then skip
  else
    modify (fun r => r <| r_is_candidate := false |>);;
    raft_ev_timer_stop;;
    modify (fun r =>
      if state_is RAFT_STATE_LEADER r then r <| r_leader := 0 |> else r);;
    modify (fun r => r <| r_state := RAFT_STATE_FOLLOWER |>);;
    raft_schedule_broadcast.

Definition raft_set_candidate (is_candidate : bool) : rprog unit :=
  if is_candidate then raft_start_candidate else raft_stop_candidate.

Definition raft_restore : rprog unit :=
  is_candidate ← gets (fun r => r_is_cfg_candidate r && r_is_enabled r);
  raft_set_candidate is_candidate.

Definition raft_sm_schedule_new_term (new_term : Z) : rprog unit :=
  assert (fun r => r_volatile_term r <? new_term);;
  assert (fun r => r_term r <=? r_volatile_term r);;
  modify (fun r => r <| r_volatile_term := new_term |>);;
  modify (fun r => r <| r_volatile_vote := 0 |>);;
  modify (fun r => r <| r_leader := 0 |>);;
  modify (fun r => r <| r_state := RAFT_STATE_FOLLOWER |>);;
  raft_restore;;
  raft_sm_pause_and_dump;;
  raft_schedule_broadcast.

Definition raft_sm_schedule_new_vote (new_vote : Z) : rprog unit :=
  assert (fun r => r_volatile_vote r =? 0);;
  assert (fun r => r_leader r =? 0);;
  assert (state_is RAFT_STATE_FOLLOWER);;
  modify (fun r => r <| r_volatile_vote := new_vote |>);;
  raft_sm_pause_and_dump.

Definition raft_sm_schedule_new_election : rprog unit :=
  assert r_is_candidate;;
  term ← gets r_volatile_term;
  raft_sm_schedule_new_term (u64 (term + 1));;
  self ← gets r_self;
  raft_sm_schedule_new_vote self.

Definition raft_sm_schedule_new_election_cb : rprog unit :=
  assert raft_is_fully_on_disk;;
  raft_ev_timer_stop;;
  raft_sm_schedule_new_election.

Definition raft_sm_start : rprog unit :=
  assert (fun r => negb (raft_ev_is_active r));;
  assert (fun r => negb (r_is_enabled r));;
  assert (state_is RAFT_STATE_FOLLOWER);;
  modify (fun r => r <| r_is_enabled := true |>);;
  modify (fun r => r <| r_is_candidate := r_is_cfg_candidate r |>);;
  r ← gets (fun r => r);
  (if r_is_write_in_progress r then skip
   else if negb (r_is_candidate r) then skip
   else if negb (r_leader r =? 0) then raft_sm_wait_leader_dead
   else raft_sm_wait_leader_found);;
  raft_schedule_broadcast.

Definition raft_sm_stop : rprog unit :=
  assert r_is_enabled;;
  modify (fun r => r <| r_is_enabled := false |>);;
  modify (fun r => r <| r_is_candidate := false |>);;
  modify (fun r =>
    if state_is RAFT_STATE_LEADER r then r <| r_leader := 0 |> else r);;
  modify (fun r => r <| r_state := RAFT_STATE_FOLLOWER |>);;
  raft_ev_timer_stop;;
  raft_schedule_broadcast.

(** ** Messages, heartbeats and recovery *)

Definition raft_process_recovery (req : raft_msg) : rprog unit :=
  modify (fun r =>
    if negb (m_term req =? 0) then
      r <| r_term := m_term req |> <| r_volatile_term := m_term req |>
    else r);;
  modify (fun r =>
    if negb (m_vote req =? 0) then
      r <| r_vote := m_vote req |> <| r_volatile_vote := m_vote req |>
    else r);;
  assert (fun _ => m_state req =? 0);;
  assert (fun _ => bool_decide (m_vclock req = None));;
  assert (fun r => negb (r_is_enabled r)).

(** The switch on the state of the node for a message that has a vote: the
    cases of a follower and a leader, and the case of a candidate. *)
Definition raft_process_vote_request (req : raft_msg) : rprog unit :=
  r ← gets (fun r => r);
  if negb (r_is_enabled r) then skip
  else if negb (r_leader r =? 0) then skip
  else if m_vote req =? r_self r then skip
  else if negb (m_state req =? raft_state_code RAFT_STATE_CANDIDATE) then skip
  else if negb (r_volatile_vote r =? 0) then skip
  else
    match m_vclock req with
    | None => abort
    | Some v =>
        can_vote ← raft_can_vote_for v;
        if negb can_vote then skip
        else raft_sm_schedule_new_vote (m_vote req)
    end.

Definition raft_process_vote_response (req : raft_msg) (source : Z) : rprog unit :=
  self ← gets r_self;
  if negb (m_vote req =? self) then skip
  else
    assert (fun r => r_volatile_vote r =? r_self r);;
    was_set ← vote_mask_set source;
    modify (fun r =>
      r <| r_vote_count ::= fun n => n + (if was_set : bool then 0 else 1) |>);;
    r ← gets (fun r => r);
    if r_vote_count r <? r_election_quorum r then skip
    else raft_sm_become_leader.

Definition raft_process_vote (req : raft_msg) (source : Z) : rprog unit :=
  state ← gets r_state;
  match state with
  | RAFT_STATE_FOLLOWER | RAFT_STATE_LEADER => raft_process_vote_request req
  | RAFT_STATE_CANDIDATE => raft_process_vote_response req source
  end.

Definition raft_process_msg (req : raft_msg) (source : Z) : rprog Z :=
  assert (fun _ => 0 <? source);;
  assert (fun r => negb (source =? r_self r));;
  if (m_term req =? 0) || (m_state req =? 0) || (raft_state_MAX <=? m_state req)
  then mret (-1)
  else if (m_state req =? raft_state_code RAFT_STATE_CANDIDATE) &&
          (negb (m_vote req =? source) || bool_decide (m_vclock req = None))
  then mret (-1)
  else
    term ← gets r_volatile_term;
    if m_term req <? term then mret 0
    else
      (if term <? m_term req then raft_sm_schedule_new_term (m_term req) else skip);;
      (if negb (m_vote req =? 0) then raft_process_vote req source else skip);;
      leader ← gets r_leader;
      if negb (m_state req =? raft_state_code RAFT_STATE_LEADER) then
        (if source =? leader then
           modify (fun r => r <| r_leader := 0 |>);;
           candidate ← gets r_is_candidate;
           if candidate : bool then raft_sm_schedule_new_election else skip
         else skip);;
        mret 0
      else if source =? leader then mret 0
      else if negb (leader =? 0) then mret 0
      else raft_sm_follow_leader source;; mret 0.

Definition raft_process_heartbeat (source : Z) : rprog unit :=
  r ← gets (fun r => r);
  if source =? 0 then skip
  else if negb (r_is_candidate r) then skip
  else if state_is RAFT_STATE_LEADER r then skip
  else if negb (r_leader r =? source) then skip
  else if r_is_write_in_progress r then skip
  else
    assert raft_ev_is_active;;
    raft_ev_timer_stop;;
    raft_sm_wait_leader_dead.

(** ** The worker *)

(** The code at the label end_dump. *)
Definition raft_worker_end_dump : rprog unit :=
  modify (fun r => r <| r_is_write_in_progress := false |>);;
  r ← gets (fun r => r);
  if negb (r_is_candidate r) then skip
  else if negb (r_leader r =? 0) then raft_sm_wait_leader_dead
  else if r_vote r =? r_self r then
    if r_election_quorum r =? 1 then raft_sm_become_leader
    else raft_sm_become_candidate
  else if negb (r_vote r =? 0) then raft_sm_wait_election_end
  else raft_sm_schedule_new_vote (r_self r).

(** Up to the WAL write: the message to write, if there is one. *)
Definition raft_worker_handle_io_begin : rprog (option raft_msg) :=
  assert r_is_write_in_progress;;
  assert (state_is RAFT_STATE_FOLLOWER);;
  r ← gets (fun r => r);
  if raft_is_fully_on_disk r then raft_worker_end_dump;; mret None
  else
    assert (fun r => r_term r <=? r_volatile_term r);;
    mret (Some (mk_raft_msg (r_volatile_term r) (r_volatile_vote r) 0 None)).

(** After the WAL write of [req]. *)
Definition raft_worker_handle_io_end (req : raft_msg) : rprog unit :=
  assert (fun r => r_term r <=? m_term req);;
  modify (fun r => r <| r_term := m_term req |>);;
  modify (fun r => r <| r_vote := m_vote req |>);;
  raft_schedule_broadcast;;
  r ← gets (fun r => r);
  if raft_is_fully_on_disk r then raft_worker_end_dump else skip.

(** With a write that nothing interrupts. *)
Definition raft_worker_handle_io : rprog unit :=
  req ← raft_worker_handle_io_begin;
  match req with
  | None => skip
  | Some req => raft_write req;; raft_worker_handle_io_end req
  end.

Definition raft_worker_handle_broadcast : rprog unit :=
  assert r_is_broadcast_scheduled;;
  r ← gets (fun r => r);
  let req := mk_raft_msg (r_term r) (r_vote r) (raft_state_code (r_state r))
    (if state_is RAFT_STATE_CANDIDATE r then r_vclock r else None) in
  assert (fun r => negb (state_is RAFT_STATE_CANDIDATE r) || (r_vote r =? r_self r));;
  raft_broadcast req;;
  modify (fun r => r <| r_is_broadcast_scheduled := false |>).

(** One turn of the loop; the result is [is_idle]. *)
Definition raft_process_async_turn : rprog bool :=
  io ← gets r_is_write_in_progress;
  (if io : bool then raft_worker_handle_io else skip);;
  bc ← gets r_is_broadcast_scheduled;
  (if bc : bool then raft_worker_handle_broadcast else skip);;
  mret (negb io && negb bc).

(** The loop runs until a turn finds no work; the fuel is the number of turns. *)
Fixpoint raft_process_async_loop (fuel : nat) : rprog bool :=
  match fuel with
  | O => mret false
  | S fuel =>
      is_idle ← raft_process_async_turn;
      if is_idle : bool then mret true else raft_process_async_loop fuel
  end.
(** [false] is a loop that has not ended. *)
Definition raft_process_async (fuel : nat) : rprog bool :=
  ended ← raft_process_async_loop fuel;
  if ended : bool then assert raft_is_fully_on_disk;; mret true else mret false.

Definition raft_checkpoint_remote (r : raft) : raft_msg :=
  mk_raft_msg (r_term r) (r_vote r) (raft_state_code (r_state r))
    (if state_is RAFT_STATE_CANDIDATE r then r_vclock r else None).
Definition raft_checkpoint_local (r : raft) : raft_msg :=
  mk_raft_msg (r_term r) (r_vote r) 0 None.

(** ** Configuration *)

Definition raft_cfg_is_enabled (is_enabled : bool) : rprog unit :=
  enabled ← gets r_is_enabled;
  if Bool.eqb is_enabled enabled then skip
  else if negb is_enabled then raft_sm_stop
  else raft_sm_start.

Definition raft_cfg_is_candidate (is_candidate : bool) : rprog unit :=
  modify (fun r => r <| r_is_cfg_candidate := is_candidate |>);;
  raft_restore.

Definition raft_promote : rprog unit :=
  r ← gets (fun r => r);
  if negb (r_is_enabled r) then skip
  else
    raft_sm_schedule_new_term (u64 (r_volatile_term r + 1));;
    raft_start_candidate.

Definition raft_new_term : rprog unit :=
  term ← gets r_volatile_term;
  raft_sm_schedule_new_term (u64 (term + 1)).

Definition raft_cfg_election_timeout (timeout : double) : rprog unit :=
  old_timeout ← gets r_election_timeout;
  if d_eq timeout old_timeout then skip
  else
    modify (fun r => r <| r_election_timeout := timeout |>);;
    r ← gets (fun r => r);
    if (r_vote r =? 0) || negb (r_leader r =? 0) || negb (r_is_candidate r) ||
       r_is_write_in_progress r
    then skip
    else
      assert raft_ev_is_active;;
      let timeout := d_add timeout (d_sub (raft_ev_timer_remaining r) old_timeout) in
      let timeout := if d_lt timeout d_zero then d_zero else timeout in
      raft_ev_timer_stop;;
      raft_ev_timer_set timeout (r_election_timeout r);;
      raft_ev_timer_start.

Definition raft_cfg_election_quorum (election_quorum : Z) : rprog unit :=
  assert (fun _ => 0 <? election_quorum);;
  modify (fun r => r <| r_election_quorum := election_quorum |>);;
  r ← gets (fun r => r);
  if state_is RAFT_STATE_CANDIDATE r && (r_election_quorum r <=? r_vote_count r)
  then raft_sm_become_leader
  else skip.

Definition raft_cfg_death_timeout (timeout : double) : rprog unit :=
  old_timeout ← gets r_death_timeout;
  if d_eq timeout old_timeout then skip
  else
    modify (fun r => r <| r_death_timeout := timeout |>);;
    r ← gets (fun r => r);
    if negb (state_is RAFT_STATE_FOLLOWER r) || negb (r_is_candidate r) ||
       (r_leader r =? 0)
    then skip
    else
      assert raft_ev_is_active;;
      let timeout := d_add timeout (d_sub (raft_ev_timer_remaining r) old_timeout) in
      let timeout := if d_lt timeout d_zero then d_zero else timeout in
      raft_ev_timer_stop;;
      raft_ev_timer_set timeout (r_death_timeout r);;
      raft_ev_timer_start.

Definition raft_cfg_instance_id (instance_id : Z) : rprog unit :=
  assert (fun r => r_self r =? 0);;
  assert (fun _ => negb (instance_id =? 0));;
  modify (fun r => r <| r_self := instance_id |>).

Definition raft_cfg_vclock (v : option vclock) : rprog unit :=
  assert (fun r => bool_decide (r_vclock r = None));;
  assert (fun _ => negb (bool_decide (v = None)));;
  modify (fun r => r <| r_vclock := v |>).

(** [now] and [rnd] are the environment of the new node. *)
Definition raft_create (now : double) (rnd : list Z) : raft :=
  mk_raft 0 0 RAFT_STATE_FOLLOWER 1 0 false false false false false 1 0 0 0 1 None
    (mk_ev_timer false d_zero d_zero) (d_of_Z 5) (d_of_Z 5) now rnd [].

Definition raft_destroy : rprog unit := raft_ev_timer_stop.

(** Replay of the rows of the WAL: box_raft_recover for each of them. *)
Fixpoint raft_recover (rows : list raft_msg) : rprog unit :=
  match rows with
  | [] => skip
  | req :: rows => raft_process_recovery req;; raft_recover rows
  end.
