(* ===== verification/RaftNode.v ===== *)
(** * Leader election: the theorems about one node (src/lib/raft/raft.c)

    The invariant of struct raft, a Hoare-style lemma for every function of
    [Raft], and what follows for any interleaving of the calls of the
    interface with the worker fiber: no assertion of raft.c can fail but one of
    raft_cfg_death_timeout, votes follow the rule, every visible change is
    announced, and the loop of the worker ends when it is not interrupted.  The
    last section holds the executions in which the code does
    something else than its comments say. *)

From S2P Require Import Prelude Bits Vclock Double Raft.

Open Scope Z_scope.

(** ** The invariant *)

(** The configured timeout can be randomised: the conversion of its tenth to
    milliseconds is defined and the modulus is not zero. *)
Definition timeout_ok (timeout : double) : bool :=
  match rand_part timeout with
  | Some part => part <? UINT32_MAX
  | None => false
  end.

Record raft_inv (r : raft) : Prop := {
  inv_term : 0 < r_term r <= r_volatile_term r;
  inv_term_max : r_volatile_term r < UINT64_MAX;
  (** The state is on disk unless a write is in progress, and during a write
      the vote of the persisted term can only be set once. *)
  inv_disk : r_is_write_in_progress r = false -> raft_is_fully_on_disk r = true;
  inv_vote : r_term r = r_volatile_term r ->
    r_vote r = 0 \/ r_vote r = r_volatile_vote r;
  (** During a write the node is a follower. *)
  inv_write : r_is_write_in_progress r = true -> r_state r = RAFT_STATE_FOLLOWER;
  inv_enabled : r_is_candidate r = true -> r_is_enabled r = true;
  inv_self : r_is_enabled r = true -> 0 < r_self r < 32 /\
    exists v, r_vclock r = Some v /\ vclock_ok v;
  (** The timer runs exactly when the node waits for something. *)
  inv_timer : t_active (r_timer r) =
    r_is_candidate r && negb (r_is_write_in_progress r) &&
    negb (state_is RAFT_STATE_LEADER r);
  inv_candidate : r_state r = RAFT_STATE_CANDIDATE ->
    r_is_candidate r = true /\ r_leader r = 0 /\ r_volatile_vote r = r_self r;
  inv_leader : r_state r = RAFT_STATE_LEADER ->
    r_is_candidate r = true /\ r_leader r = r_self r;
  (** The votes counted are the bits of the mask. *)
  inv_mask : 0 <= r_vote_mask r < 2 ^ 32;
  inv_count : r_state r = RAFT_STATE_CANDIDATE ->
    r_vote_count r = bit_count_u32 (r_vote_mask r);
  inv_quorum : 0 < r_election_quorum r;
  inv_timeout : timeout_ok (r_election_timeout r) = true;
}.

(** The most recent state announced to the update triggers. *)
Fixpoint last_update (l : list raft_event) : option raft_visible :=
  match l with
  | ev_on_update v :: _ => Some v
  | _ :: l => last_update l
  | [] => None
  end.

(** ** Lemmas: running a program *)

Lemma wp_if {A} (c : bool) (p q : rprog A) Q r :
  (c = true -> wp p Q r) -> (c = false -> wp q Q r) ->
  wp (if c then p else q) Q r.
Proof. destruct c; auto. Qed.

Lemma wp_skip (Q : unit -> raft -> Prop) r : Q tt r -> wp skip Q r.
Proof. done. Qed.

Lemma wp_timer_stop (Q : unit -> raft -> Prop) r :
  (forall tm, t_active tm = false -> Q tt (r <| r_timer := tm |>)) ->
  wp raft_ev_timer_stop Q r.
Proof.
  intros H. unfold raft_ev_timer_stop. apply wp_modify.
  destruct (t_active (r_timer r)) eqn:E.
  - by apply (H (mk_ev_timer false (d_sub (t_at (r_timer r)) (r_now r))
      (t_repeat (r_timer r)))).
  - specialize (H (r_timer r) E). by destruct r.
Qed.

Lemma wp_timer_run after repeat (Q : unit -> raft -> Prop) r :
  (forall tm, t_active tm = true -> Q tt (r <| r_timer := tm |>)) ->
  wp (raft_ev_timer_set after repeat;; raft_ev_timer_start) Q r.
Proof.
  intros H. unfold raft_ev_timer_set, raft_ev_timer_start.
  apply wp_bind, wp_modify, wp_modify. cbn.
  destruct (t_active (r_timer r)) eqn:E.
  - by apply (H (mk_ev_timer true after repeat)).
  - by apply (H (mk_ev_timer true (d_add after (r_now r)) repeat)).
Qed.

Lemma wp_schedule_broadcast (Q : unit -> raft -> Prop) r :
  (forall l, last_update l = Some (visible r) ->
    Q tt (r <| r_is_broadcast_scheduled := true |> <| r_log := l |>)) ->
  wp raft_schedule_broadcast Q r.
Proof.
  intros H. specialize (H (ev_schedule_async :: ev_on_update (visible r) :: r_log r) eq_refl).
  by destruct r.
Qed.

Lemma wp_schedule_async (Q : unit -> raft -> Prop) r :
  (forall l, last_update l = last_update (r_log r) -> Q tt (r <| r_log := l |>)) ->
  wp raft_schedule_async Q r.
Proof. intros H. by apply (H (ev_schedule_async :: r_log r)). Qed.

Lemma wp_wait_leader_dead (Q : unit -> raft -> Prop) r :
  t_active (r_timer r) = false -> r_is_write_in_progress r = false ->
  r_is_candidate r = true -> r_state r = RAFT_STATE_FOLLOWER -> r_leader r <> 0 ->
  (forall tm, t_active tm = true -> Q tt (r <| r_timer := tm |>)) ->
  wp raft_sm_wait_leader_dead Q r.
Proof.
  intros Ht Hw Hc Hs Hl HQ. unfold raft_sm_wait_leader_dead.
  do 5 (apply wp_bind, wp_assert; split;
    [unfold raft_ev_is_active, state_is; rewrite ?Ht, ?Hw, ?Hc, ?Hs; try done; lia|]).
  apply wp_bind, wp_gets. by apply wp_timer_run.
Qed.

Lemma wp_wait_leader_found (Q : unit -> raft -> Prop) r :
  t_active (r_timer r) = false -> r_is_write_in_progress r = false ->
  r_is_candidate r = true -> r_state r = RAFT_STATE_FOLLOWER -> r_leader r = 0 ->
  (forall tm, t_active tm = true -> Q tt (r <| r_timer := tm |>)) ->
  wp raft_sm_wait_leader_found Q r.
Proof.
  intros Ht Hw Hc Hs Hl HQ. unfold raft_sm_wait_leader_found.
  do 5 (apply wp_bind, wp_assert; split;
    [unfold raft_ev_is_active, state_is; rewrite ?Ht, ?Hw, ?Hc, ?Hs; try done; lia|]).
  apply wp_bind, wp_gets. by apply wp_timer_run.
Qed.

Lemma wp_random_shift (Q : double -> raft -> Prop) r :
  timeout_ok (r_election_timeout r) = true ->
  (forall d rnd, Q d (r <| r_rand := rnd |>)) ->
  wp raft_new_random_election_shift Q r.
Proof.
  unfold timeout_ok. intros Ht HQ. apply wp_bind, wp_gets.
  destruct (rand_part (r_election_timeout r)) as [part|] eqn:E; [|done].
  assert (0 <= part) as Hp.
  { unfold rand_part, d_to_u32 in E. destruct (d_trunc _) as [z|]; [|done].
    destruct (_ && _) eqn:B; [|done]. boolp. congruence. }
  assert (u32 ((if part =? 0 then 1 else part) + 1) =? 0 = false) as Hm.
  { unfold UINT32_MAX in Ht. rewrite uwrap_small by (casep; lia). casep; lia. }
  apply wp_bind. unfold rand, wp. destruct (r_rand r) as [|x xs] eqn:Er; cbv beta iota; rewrite Hm.
  - assert (r <| r_rand := [] |> = r) as Hr by (destruct r; cbn in Er; by subst).
    set (d := d_div _ _). pose proof (HQ d []) as H. by rewrite Hr in H.
  - apply HQ.
Qed.

#[global] Opaque timeout_ok.

Lemma wp_wait_election_end (Q : unit -> raft -> Prop) r :
  t_active (r_timer r) = false -> r_is_write_in_progress r = false ->
  r_is_candidate r = true -> r_leader r = 0 ->
  timeout_ok (r_election_timeout r) = true ->
  (r_state r = RAFT_STATE_FOLLOWER \/
   r_state r = RAFT_STATE_CANDIDATE /\ r_volatile_vote r = r_self r) ->
  (forall tm rnd, t_active tm = true -> Q tt (r <| r_rand := rnd |> <| r_timer := tm |>)) ->
  wp raft_sm_wait_election_end Q r.
Proof.
  intros Ht Hw Hc Hl Hto Hs HQ. unfold raft_sm_wait_election_end.
  assert (state_is RAFT_STATE_FOLLOWER r ||
    (state_is RAFT_STATE_CANDIDATE r && (r_volatile_vote r =? r_self r)) = true) as Hs'.
  { unfold state_is. destruct Hs as [->|[-> ->]]; [done|]. by rewrite !Z.eqb_refl, orb_true_r. }
  do 5 (apply wp_bind, wp_assert; split;
    [unfold raft_ev_is_active; rewrite ?Ht, ?Hw, ?Hc, ?Hs'; try done; lia|]).
  apply wp_bind, wp_gets, wp_bind, wp_random_shift; [done|]. intros d rnd.
  apply wp_timer_run. auto.
Qed.

Lemma load_store_u32 v : 0 <= v < 2 ^ 32 -> load_u32 (store_u32 v) 0 = Some v.
Proof.
  intros Hv. unfold load_u32, load_u, store_u32. rewrite le_store_length. cbn [Nat.leb Nat.add].
  rewrite bool_decide_eq_true_2 by lia. f_equal.
  change (drop 0 (le_store 4 (u32 v))) with (le_store 4 (u32 v)).
  rewrite take_ge by (rewrite le_store_length; lia).
  rewrite le_load_store, uwrap_small, Z.mod_small; done.
Qed.

Lemma setbit_range v pos : 0 <= v < 2 ^ 32 -> 0 <= pos < 32 -> 0 <= Z.setbit v pos < 2 ^ 32.
Proof.
  intros Hv Hp. rewrite Z.setbit_spec'. apply lor_range; [lia|done|].
  split; [apply Z.pow_nonneg; lia|apply Z.pow_lt_mono_r; lia].
Qed.

Lemma wp_vote_mask_set pos (Q : bool -> raft -> Prop) r :
  0 <= r_vote_mask r < 2 ^ 32 -> 0 <= pos < 32 ->
  Q (Z.testbit (r_vote_mask r) pos) (r <| r_vote_mask := Z.setbit (r_vote_mask r) pos |>) ->
  wp (vote_mask_set pos) Q r.
Proof.
  intros Hm Hp HQ. unfold vote_mask_set. apply wp_bind, wp_gets.
  rewrite bit_set_u32, load_store_u32 by (done || by apply setbit_range).
  by apply wp_bind, wp_modify.
Qed.

(** Setting a bit adds one vote unless it was set. *)
Lemma positions_setbit m i :
  0 <= i < 32 ->
  Z.of_nat (length (positions (Z.testbit (Z.setbit m i)) 0 32)) =
  Z.of_nat (length (positions (Z.testbit m) 0 32)) + (if Z.testbit m i then 0 else 1).
Proof.
  intros Hi. replace 32 with (i + (1 + (31 - i))) by lia.
  rewrite !(positions_app _ 0 i), !(positions_app _ (0 + i) 1), !positions_one by lia.
  rewrite !length_app, Z.add_0_l, Z.setbit_eqb, Z.eqb_refl by lia. cbn [orb].
  rewrite (positions_ext (Z.testbit (Z.setbit m i)) (Z.testbit m) 0 i),
    (positions_ext (Z.testbit (Z.setbit m i)) (Z.testbit m) (i + 1) (31 - i)).
  - destruct (Z.testbit m i); simpl; lia.
  - intros k Hk. rewrite Z.setbit_eqb by lia. by replace (i =? k) with false by lia.
  - intros k Hk. rewrite Z.setbit_eqb by lia. by replace (i =? k) with false by lia.
Qed.

Lemma bit_count_positions m :
  0 <= m < 2 ^ 32 -> bit_count_u32 m = Z.of_nat (length (positions (Z.testbit m) 0 32)).
Proof. apply (popcount_positions 32). Qed.

Lemma bit_count_setbit m i :
  0 <= m < 2 ^ 32 -> 0 <= i < 32 ->
  bit_count_u32 (Z.setbit m i) = bit_count_u32 m + (if Z.testbit m i then 0 else 1).
Proof.
  intros Hm Hi. rewrite !bit_count_positions by (done || by apply setbit_range).
  by apply positions_setbit.
Qed.

(** ** Lemmas: transitions *)

Lemma state_is_true s r : r_state r = s -> state_is s r = true.
Proof. intros <-. apply Z.eqb_refl. Qed.

Lemma state_is_false s r : r_state r <> s -> state_is s r = false.
Proof. unfold state_is. by destruct (r_state r), s. Qed.

Lemma wp_pause_and_dump (Q : unit -> raft -> Prop) r :
  r_state r = RAFT_STATE_FOLLOWER ->
  (r_is_write_in_progress r = true -> t_active (r_timer r) = false) ->
  (forall tm l, t_active tm = false -> last_update l = last_update (r_log r) ->
    Q tt (r <| r_timer := tm |> <| r_log := l |> <| r_is_write_in_progress := true |>)) ->
  wp raft_sm_pause_and_dump Q r.
Proof.
  intros Hs Ht HQ. apply wp_bind, wp_assert. split; [by apply state_is_true|].
  apply wp_bind, wp_gets, wp_if; intros Hw.
  - specialize (HQ (r_timer r) (r_log r) (Ht Hw) eq_refl). apply wp_skip.
    destruct r; cbn in *. by subst.
  - apply wp_bind, wp_timer_stop. intros tm Htm.
    apply wp_bind, wp_schedule_async. intros l Hl. apply wp_modify. by apply HQ.
Qed.

Lemma wp_schedule_new_vote v (Q : unit -> raft -> Prop) r :
  r_volatile_vote r = 0 -> r_leader r = 0 -> r_state r = RAFT_STATE_FOLLOWER ->
  (r_is_write_in_progress r = true -> t_active (r_timer r) = false) ->
  (forall tm l, t_active tm = false -> last_update l = last_update (r_log r) ->
    Q tt (r <| r_volatile_vote := v |> <| r_timer := tm |> <| r_log := l |>
            <| r_is_write_in_progress := true |>)) ->
  wp (raft_sm_schedule_new_vote v) Q r.
Proof.
  intros Hv Hl Hs Ht HQ. apply wp_bind, wp_assert. split; [by apply Z.eqb_eq|].
  apply wp_bind, wp_assert. split; [by apply Z.eqb_eq|].
  apply wp_bind, wp_assert. split; [by apply state_is_true|].
  apply wp_bind, wp_modify, wp_pause_and_dump; [done|done|]. apply HQ.
Qed.

(** Becoming a candidate or ceasing to be one, as a follower. *)
Lemma wp_set_candidate_follower c (Q : unit -> raft -> Prop) r :
  r_state r = RAFT_STATE_FOLLOWER ->
  (c = true -> r_is_enabled r = true) ->
  (t_active (r_timer r) = true ->
   r_is_candidate r = true /\ r_is_write_in_progress r = false) ->
  (forall tm b l,
    (t_active tm = true -> c = true /\ r_is_write_in_progress r = false) ->
    (r_is_candidate r = c -> tm = r_timer r) ->
    (r_is_candidate r = false -> c = true -> t_active tm = negb (r_is_write_in_progress r)) ->
    (l = r_log r /\ b = r_is_broadcast_scheduled r \/
     last_update l = Some (visible r) /\ b = true) ->
    Q tt (r <| r_is_candidate := c |> <| r_timer := tm |>
            <| r_is_broadcast_scheduled := b |> <| r_log := l |>)) ->
  wp (raft_set_candidate c) Q r.
Proof.
  intros Hs He Ht HQ.
  assert (r_is_candidate r = c -> Q tt r) as Hsame.
  { intros E. specialize (HQ (r_timer r) (r_is_broadcast_scheduled r) (r_log r)).
    destruct r; cbn in *; subst. apply HQ; [done|done|congruence|by left]. }
  destruct c.
  - apply wp_bind, wp_assert. split; [by apply He|].
    apply wp_bind, wp_gets, wp_if; intros Hc; [by apply wp_skip, Hsame|].
    apply wp_bind, wp_assert. split; [by apply state_is_true|].
    apply wp_bind, wp_modify, wp_bind, wp_gets.
    assert (t_active (r_timer r) = false) as Hoff
      by (destruct (t_active (r_timer r)); [destruct Ht; congruence|done]).
    apply wp_if; intros Hw; cbn in Hw.
    { specialize (HQ (r_timer r) (r_is_broadcast_scheduled r) (r_log r)).
      apply wp_skip. destruct r; cbn in *; subst.
      apply HQ; [congruence|congruence|done|by left]. }
    assert (forall tm, t_active tm = true ->
      Q tt (r <| r_is_candidate := true |> <| r_timer := tm |>)) as Hgo.
    { intros tm Htm. specialize (HQ tm (r_is_broadcast_scheduled r) (r_log r)).
      destruct r; cbn in *; subst. apply HQ; [done|congruence|done|by left]. }
    apply wp_if; intros Hl; cbn in Hl; boolp.
    + by apply wp_wait_leader_dead.
    + by apply wp_wait_leader_found.
  - apply wp_bind, wp_gets, wp_if; intros Hc; boolp; [by apply wp_skip, Hsame|].
    apply wp_bind, wp_modify, wp_bind, wp_timer_stop. intros tm Htm.
    apply wp_bind, wp_modify, wp_bind, wp_modify, wp_schedule_broadcast. intros l Hl.
    rewrite state_is_false in Hl |- * by (cbn; congruence).
    specialize (HQ tm true l). destruct r; cbn in *; subst.
    apply HQ; [congruence|done|done|by right].
Qed.

Definition after_new_term (r : raft) (term vote : Z) (tm : ev_timer) (l : list raft_event) :=
  r <| r_volatile_term := term |> <| r_volatile_vote := vote |> <| r_leader := 0 |>
    <| r_state := RAFT_STATE_FOLLOWER |>
    <| r_is_candidate := r_is_cfg_candidate r && r_is_enabled r |>
    <| r_is_write_in_progress := true |> <| r_is_broadcast_scheduled := true |>
    <| r_timer := tm |> <| r_log := l |>.

Lemma wp_schedule_new_term t (Q : unit -> raft -> Prop) r :
  r_volatile_term r < t -> r_term r <= r_volatile_term r ->
  (t_active (r_timer r) = true ->
   r_is_candidate r = true /\ r_is_write_in_progress r = false) ->
  (forall tm l, t_active tm = false ->
    last_update l = Some (mk_raft_visible RAFT_STATE_FOLLOWER 0 (r_term r) (r_vote r)) ->
    Q tt (after_new_term r t 0 tm l)) ->
  wp (raft_sm_schedule_new_term t) Q r.
Proof.
  intros Hlt Hle Ht HQ. apply wp_bind, wp_assert. split; [by apply Z.ltb_lt|].
  apply wp_bind, wp_assert. split; [by apply Z.leb_le|].
  do 4 apply wp_bind, wp_modify. apply wp_bind, wp_bind, wp_gets.
  apply wp_set_candidate_follower; [done|cbn; intros H; by boolp|done|].
  intros tm b l Htm _ _ _. apply wp_bind, wp_pause_and_dump; [done| |].
  { cbn in *. intros Hw. destruct (t_active tm) eqn:E; [|done].
    destruct Htm as [_ Hf]; [done|congruence]. }
  intros tm' l' Htm' _. apply wp_schedule_broadcast. intros l'' Hl''.
  specialize (HQ tm' l'' Htm'). destruct r; cbn in *. by apply HQ.
Qed.

Lemma wp_schedule_new_election (Q : unit -> raft -> Prop) r :
  r_is_candidate r = true ->
  0 <= r_volatile_term r < UINT64_MAX -> r_term r <= r_volatile_term r ->
  (t_active (r_timer r) = true -> r_is_write_in_progress r = false) ->
  (forall tm l, t_active tm = false ->
    last_update l = Some (mk_raft_visible RAFT_STATE_FOLLOWER 0 (r_term r) (r_vote r)) ->
    Q tt (after_new_term r (r_volatile_term r + 1) (r_self r) tm l)) ->
  wp raft_sm_schedule_new_election Q r.
Proof.
  intros Hc Hv Ht Htm HQ. apply wp_bind, wp_assert. split; [done|].
  apply wp_bind, wp_gets, wp_bind. unfold UINT64_MAX in Hv. rewrite uwrap_small by lia.
  apply wp_schedule_new_term; [lia|lia|auto|]. intros tm l Htm' Hl.
  apply wp_bind, wp_gets. apply wp_schedule_new_vote; [done..|].
  intros tm' l' Htm'' Hl'. specialize (HQ tm' l' Htm''). rewrite Hl' in HQ.
  by apply HQ.
Qed.

Lemma wp_become_leader (Q : unit -> raft -> Prop) r :
  r_state r <> RAFT_STATE_LEADER -> r_leader r = 0 -> r_is_candidate r = true ->
  r_is_write_in_progress r = false ->
  (forall tm l, t_active tm = false ->
    last_update l = Some (mk_raft_visible RAFT_STATE_LEADER (r_self r) (r_term r) (r_vote r)) ->
    Q tt (r <| r_state := RAFT_STATE_LEADER |> <| r_leader := r_self r |>
            <| r_timer := tm |> <| r_is_broadcast_scheduled := true |> <| r_log := l |>)) ->
  wp raft_sm_become_leader Q r.
Proof.
  intros Hs Hl Hc Hw HQ.
  apply wp_bind, wp_assert. split; [by rewrite state_is_false|].
  apply wp_bind, wp_assert. split; [by apply Z.eqb_eq|].
  apply wp_bind, wp_assert. split; [done|].
  apply wp_bind, wp_assert. split; [by rewrite Hw|].
  do 2 apply wp_bind, wp_modify. apply wp_bind, wp_timer_stop. intros tm Htm.
  apply wp_schedule_broadcast. intros l Hlog. by apply HQ.
Qed.

Lemma wp_follow_leader leader (Q : unit -> raft -> Prop) r :
  r_state r <> RAFT_STATE_LEADER -> r_leader r = 0 -> leader <> 0 ->
  (forall tm l,
    (if negb (r_is_write_in_progress r) && r_is_candidate r
     then t_active tm = true else tm = r_timer r) ->
    last_update l = Some (mk_raft_visible RAFT_STATE_FOLLOWER leader (r_term r) (r_vote r)) ->
    Q tt (r <| r_state := RAFT_STATE_FOLLOWER |> <| r_leader := leader |>
            <| r_timer := tm |> <| r_is_broadcast_scheduled := true |> <| r_log := l |>)) ->
  wp (raft_sm_follow_leader leader) Q r.
Proof.
  intros Hs Hl Hne HQ.
  apply wp_bind, wp_assert. split; [by rewrite state_is_false|].
  apply wp_bind, wp_assert. split; [by apply Z.eqb_eq|].
  do 2 apply wp_bind, wp_modify. apply wp_bind, wp_gets, wp_bind. cbn.
  apply wp_if; intros Hw; rewrite Hw in HQ.
  - boolp. apply wp_bind, wp_timer_stop. intros tm Htm.
    apply wp_wait_leader_dead; [done..|]. intros tm' Htm'.
    apply wp_schedule_broadcast. intros l Hlog. by apply HQ.
  - apply wp_skip, wp_schedule_broadcast. intros l Hlog.
    specialize (HQ (r_timer r) l eq_refl). by apply HQ.
Qed.

Lemma wp_become_candidate (Q : unit -> raft -> Prop) r :
  r_state r = RAFT_STATE_FOLLOWER -> r_leader r = 0 -> r_vote r = r_self r ->
  r_volatile_vote r = r_self r -> r_is_candidate r = true ->
  r_is_write_in_progress r = false -> 1 < r_election_quorum r ->
  t_active (r_timer r) = false -> 0 <= r_self r < 32 ->
  timeout_ok (r_election_timeout r) = true ->
  (forall tm rnd l, t_active tm = true ->
    last_update l = Some (mk_raft_visible RAFT_STATE_CANDIDATE 0 (r_term r) (r_vote r)) ->
    Q tt (r <| r_state := RAFT_STATE_CANDIDATE |> <| r_vote_count := 1 |>
            <| r_vote_mask := Z.setbit 0 (r_self r) |> <| r_rand := rnd |>
            <| r_timer := tm |> <| r_is_broadcast_scheduled := true |> <| r_log := l |>)) ->
  wp raft_sm_become_candidate Q r.
Proof.
  intros Hs Hl Hv Hvv Hc Hw Hq Htm Hself Hto HQ.
  apply wp_bind, wp_assert. split; [by apply state_is_true|].
  apply wp_bind, wp_assert. split; [by apply Z.eqb_eq|].
  apply wp_bind, wp_assert. split; [by apply Z.eqb_eq|].
  apply wp_bind, wp_assert. split; [done|].
  apply wp_bind, wp_assert. split; [by rewrite Hw|].
  apply wp_bind, wp_assert. split; [by apply Z.ltb_lt|].
  do 3 apply wp_bind, wp_modify. apply wp_bind, wp_gets, wp_bind.
  apply wp_vote_mask_set; [done|done|]. cbn [r_vote_mask update].
  apply wp_bind.
  apply wp_wait_election_end.
  { exact Htm. } { exact Hw. } { exact Hc. } { exact Hl. } { exact Hto. }
  { right. split; [reflexivity|exact Hvv]. }
  intros tm rnd Htm'.
  apply wp_schedule_broadcast. intros l Hlog. apply (HQ tm rnd l); [done|].
  cbn in Hlog. unfold visible in Hlog. cbn in Hlog. by rewrite Hl in Hlog.
Qed.

(** ** The interface of a node

    The calls other parts of the system make, each of them without a yield;
    [op_timer] is the callback of the timer, [op_broadcast] the broadcast of
    the worker, and the last two are changes of what the node only reads. *)

Inductive raft_op :=
| op_msg (req : raft_msg) (source : Z)
| op_heartbeat (source : Z)
| op_timer
| op_cfg_is_enabled (is_enabled : bool)
| op_cfg_is_candidate (is_candidate : bool)
| op_promote
| op_restore
| op_new_term
| op_cfg_election_timeout (timeout : double)
| op_cfg_election_quorum (quorum : Z)
| op_cfg_death_timeout (timeout : double)
| op_cfg_instance_id (id : Z)
| op_cfg_vclock (v : vclock)
| op_broadcast
| op_env_now (now : double)
| op_env_vclock (v : vclock).

Definition run_op (op : raft_op) : rprog unit :=
  match op with
  | op_msg req source => _ ← raft_process_msg req source; skip
  | op_heartbeat source => raft_process_heartbeat source
  | op_timer => raft_sm_schedule_new_election_cb
  | op_cfg_is_enabled b => raft_cfg_is_enabled b
  | op_cfg_is_candidate b => raft_cfg_is_candidate b
  | op_promote => raft_promote
  | op_restore => raft_restore
  | op_new_term => raft_new_term
  | op_cfg_election_timeout d => raft_cfg_election_timeout d
  | op_cfg_election_quorum q => raft_cfg_election_quorum q
  | op_cfg_death_timeout d => raft_cfg_death_timeout d
  | op_cfg_instance_id id => raft_cfg_instance_id id
  | op_cfg_vclock v => raft_cfg_vclock (Some v)
  | op_broadcast => raft_worker_handle_broadcast
  | op_env_now now => modify (fun r => r <| r_now := now |>)
  | op_env_vclock v => modify (fun r => r <| r_vclock := Some v |>)
  end.

(** When raft_cfg_death_timeout fails its assertion: a write is in progress, so
    the timer is off although the node is a candidate with a leader.  Nothing in
    the code prevents such a call. *)
Definition death_timeout_fails (d : double) (r : raft) : bool :=
  r_is_write_in_progress r && r_is_candidate r && negb (r_leader r =? 0) && negb (d_eq d (r_death_timeout r)).

(** The messages [raft_process_msg] refuses. *)
Definition msg_invalid (req : raft_msg) (source : Z) : bool :=
  (m_term req =? 0) || (m_state req =? 0) || (raft_state_MAX <=? m_state req) ||
  ((m_state req =? raft_state_code RAFT_STATE_CANDIDATE) &&
   (negb (m_vote req =? source) || bool_decide (m_vclock req = None))).

(** What the callers guarantee.  The identifiers are replica ids of the
    cluster; a term leaves room for the next one; Raft is enabled after the
    instance has its id and clock; the timer callback runs when the timer is
    active.  A call that changes the death timeout when it fails ends the
    process, so it is not a step of an execution that goes on. *)
Definition op_pre (op : raft_op) (r : raft) : Prop :=
  match op with
  | op_msg req source =>
      0 < source < 32 /\ source <> r_self r /\
      r_volatile_term r + 1 < UINT64_MAX /\ 0 <= m_term req /\ m_term req + 1 < UINT64_MAX /\
      (forall v, m_vclock req = Some v -> vclock_ok v)
  | op_timer => t_active (r_timer r) = true /\ r_volatile_term r + 1 < UINT64_MAX
  | op_cfg_is_enabled true =>
      0 < r_self r < 32 /\ exists v, r_vclock r = Some v /\ vclock_ok v
  | op_promote | op_new_term => r_volatile_term r + 1 < UINT64_MAX
  | op_cfg_election_timeout d => timeout_ok d = true
  | op_cfg_election_quorum q => 0 < q
  | op_cfg_death_timeout d => death_timeout_fails d r = false
  | op_cfg_instance_id id => r_self r = 0 /\ 0 < id < 32
  | op_cfg_vclock v => r_vclock r = None /\ vclock_ok v
  | op_broadcast => r_is_broadcast_scheduled r = true
  | op_env_vclock v => vclock_ok v
  | _ => True
  end.

(** The vote carried by a call: who sent it, in which term, for whom. *)
Definition op_vote (op : raft_op) : option (Z * Z * Z) :=
  match op with
  | op_msg req source => Some (source, m_term req, m_vote req)
  | _ => None
  end.

(** [mask] is the vote mask of [r], with the vote the call carries when it is
    one for this node in its term. *)
Definition mask_grows (got : option (Z * Z * Z)) (r : raft) (mask : Z) : Prop :=
  mask = r_vote_mask r \/
  exists source, got = Some (source, r_volatile_term r, r_self r) /\ 0 <= source < 32 /\
    mask = Z.setbit (r_vote_mask r) source.

(** The rule for giving a vote away: the node is enabled, the message is a
    request of the candidate itself in the term of the node, and the clock of
    the candidate is not behind the clock of the node in any component but the
    local one. *)
Definition granted (op : raft_op) (r : raft) (term vote : Z) : Prop :=
  exists req source v mine, op = op_msg req source /\
    m_state req = raft_state_code RAFT_STATE_CANDIDATE /\
    m_term req = term /\ m_vote req = vote /\ vote = source /\
    r_is_enabled r = true /\ m_vclock req = Some v /\ r_vclock r = Some mine /\
    vle_from 1 mine v.

(** What a call can change of the election.  The persisted state only changes
    in the worker; the volatile term grows and a vote is given once per term;
    the node stays a candidate or becomes a leader only with the votes it got. *)
Record op_effect (op : raft_op) (r r' : raft) : Prop := {
  eff_self : r_self r <> 0 -> r_self r' = r_self r;
  eff_term : r_term r' = r_term r;
  eff_vote : r_vote r' = r_vote r;
  eff_volatile : r_volatile_term r < r_volatile_term r' \/
    r_volatile_term r' = r_volatile_term r /\
    (r_volatile_vote r' = r_volatile_vote r \/ r_volatile_vote r = 0);
  eff_given : r_volatile_vote r' = 0 \/ r_volatile_vote r' = r_self r \/
    r_volatile_term r' = r_volatile_term r /\ r_volatile_vote r' = r_volatile_vote r \/
    granted op r (r_volatile_term r') (r_volatile_vote r');
  eff_msg : op_vote op <> None ->
    r_self r' = r_self r /\ r_vclock r' = r_vclock r /\ r_is_enabled r' = r_is_enabled r;
  eff_write : r_is_write_in_progress r = true -> r_is_write_in_progress r' = true;
  eff_quorum : r_election_quorum r' = r_election_quorum r \/
    op = op_cfg_election_quorum (r_election_quorum r');
  eff_candidate : r_state r' = RAFT_STATE_CANDIDATE ->
    r_state r = RAFT_STATE_CANDIDATE /\ r_volatile_term r' = r_volatile_term r /\
    mask_grows (op_vote op) r (r_vote_mask r');
  eff_leader : r_state r' = RAFT_STATE_LEADER ->
    r_volatile_term r' = r_volatile_term r /\
    (r_state r = RAFT_STATE_LEADER \/
     r_state r = RAFT_STATE_CANDIDATE /\ exists mask, mask_grows (op_vote op) r mask /\
     r_election_quorum r' <= bit_count_u32 mask);
}.

(** The leader of a node that is not a candidate has stepped down: the one
    change of the visible state that is not announced. *)
Definition resigned (op : raft_op) (r : raft) : Prop :=
  exists req source, op = op_msg req source /\ source = r_leader r /\
    m_state req <> raft_state_code RAFT_STATE_LEADER /\ r_is_candidate r = false.

Definition announced (op : raft_op) (r r' : raft) : Prop :=
  visible r' = visible r /\ last_update (r_log r') = last_update (r_log r) \/
  last_update (r_log r') = Some (visible r') \/ resigned op r.

Definition op_post (op : raft_op) (r : raft) (_ : unit) (r' : raft) : Prop :=
  raft_inv r' /\ op_effect op r r' /\ announced op r r'.

(** Split the goals of [op_post] into facts on the fields. *)
Ltac use_inv H :=
  destruct H as [?Hterm ?Hmax ?Hdisk ?Hvote ?Hwrite ?Hen ?Hself ?Htimer ?Hcand ?Hlead
                 ?Hmask ?Hcount ?Hquorum ?Htimeout].

Lemma effect_refl op r : op_effect op r r.
Proof. split; auto; intros; by repeat split; [|left]. Qed.

Lemma post_same op r : raft_inv r -> op_post op r tt r.
Proof. intros H. split; [done|]. split; [apply effect_refl|by left]. Qed.

#[global] Opaque bit_count_u32.
#[local] Arguments Z.pow : simpl never.
#[local] Arguments Z.setbit : simpl never.
#[local] Arguments Z.testbit : simpl never.

(** The state of a call's result as a record of fields, with the invariant of
    the state before in the context. *)
Ltac post_split r Hinv :=
  use_inv Hinv; destruct r; unfold op_post, announced, visible, after_new_term in *; cbn in *;
  split; [split; cbn|split; [split; cbn|]].

Ltac post_auto :=
  intros; unfold state_is in *; cbn in *; boolp;
  rewrite ?andb_false_r, ?andb_true_r in *; cbn in *;
  try solve [done | lia | congruence | naive_solver].

Lemma post_new_term op r t v tm l :
  raft_inv r -> r_volatile_term r < t < UINT64_MAX -> t_active tm = false ->
  (v = 0 \/ v = r_self r) ->
  last_update l = Some (mk_raft_visible RAFT_STATE_FOLLOWER 0 (r_term r) (r_vote r)) ->
  op_post op r tt (after_new_term r t v tm l).
Proof. intros Hinv Ht Htm Hv Hl. post_split r Hinv; post_auto. Qed.

(** The leader has stepped down. *)
Lemma inv_resign r :
  raft_inv r -> r_leader r <> 0 -> r_leader r <> r_self r -> raft_inv (r <| r_leader := 0 |>).
Proof. intros Hinv Hl Hs. use_inv Hinv. destruct r; cbn in *. split; post_auto. Qed.

Lemma setbit_idem m i : 0 <= i -> Z.setbit (Z.setbit m i) i = Z.setbit m i.
Proof.
  intros Hi. apply Z.bits_inj'. intros k Hk. rewrite !Z.setbit_eqb by done.
  by destruct (i =? k).
Qed.

Lemma mask_grows_trans got r r1 mask :
  r_volatile_term r1 = r_volatile_term r -> r_self r1 = r_self r ->
  mask_grows got r (r_vote_mask r1) -> mask_grows got r1 mask -> mask_grows got r mask.
Proof.
  intros Ht Hs H1 H2. destruct H2 as [->|(s & E & Hb & ->)]; [done|].
  rewrite Ht, Hs in E. right. exists s. split; [done|]. split; [done|].
  destruct H1 as [->|(s' & E' & Hb' & ->)]; [done|].
  rewrite E in E'. injection E' as ->. apply setbit_idem. lia.
Qed.

(** The phases of a call that handles a message compose. *)
Lemma effect_trans op r r1 r2 :
  op_vote op <> None -> op_effect op r r1 -> op_effect op r1 r2 -> op_effect op r r2.
Proof.
  intros Hmsg H1 H2. destruct (eff_msg _ _ _ H1 Hmsg) as (Hs1 & _ & _).
  assert (forall q, op <> op_cfg_election_quorum q) as Hop by (by destruct op).
  destruct H1 as [_ Et1 Ev1 Evol1 Eg1 Em1 Ew1 Eq1 Ec1 El1],
    H2 as [Es2 Et2 Ev2 Evol2 Eg2 Em2 Ew2 Eq2 Ec2 El2].
  split; [intros; rewrite Es2; congruence|congruence|congruence| | |
    intros Hm; destruct (Em1 Hm) as (? & ? & ?), (Em2 Hm) as (? & ? & ?);
    repeat split; congruence|auto| | |].
  - destruct Evol1 as [?|[? [?|?]]], Evol2 as [?|[? [?|?]]]; try (left; lia); right; split;
      try lia; (left; congruence) || (right; congruence).
  - destruct Eg2 as [?|[?|[[Ht Hv]|Hg]]]; [by left|right; left; congruence| |].
    + rewrite Ht, Hv. destruct Eg1 as [?|[?|[[??]|?]]]; [by left|by right; left|..];
        right; right; [by left|by right].
    + right. right. right. destruct Hg as (req & source & v & mine & -> & Hg).
      destruct Em1 as (_ & Ecl & Een); [done|]. rewrite Ecl, Een in Hg. by exists req, source, v, mine.
  - destruct Eq1 as [?|?], Eq2 as [?|?]; [left; congruence|right; congruence|..];
      exfalso; by eapply Hop.
  - intros Hc. destruct (Ec2 Hc) as (Hc1 & Ht & Hm). destruct (Ec1 Hc1) as (Hc0 & Ht0 & Hm0).
    split; [done|]. split; [congruence|]. by apply (mask_grows_trans _ _ r1).
  - intros Hl. destruct (El2 Hl) as (Ht & [Hl1|(Hc1 & m & Hm & Hq)]).
    + destruct (El1 Hl1) as (Ht0 & [?|(Hc0 & m & Hm & Hq)]); (split; [congruence|]); [by left|].
      right. split; [done|]. exists m. split; [done|]. destruct Eq2 as [->|E]; [done|].
      exfalso. by eapply Hop.
    + destruct (Ec1 Hc1) as (Hc0 & Ht0 & Hm0). split; [congruence|]. right. split; [done|].
      exists m. split; [|done]. by apply (mask_grows_trans _ _ r1).
Qed.

(** The effect of a call that leaves the election alone. *)
Definition same_election (r r' : raft) : Prop :=
  r_self r' = r_self r /\ r_term r' = r_term r /\ r_vote r' = r_vote r /\
  r_volatile_term r' = r_volatile_term r /\ r_volatile_vote r' = r_volatile_vote r /\
  r_is_write_in_progress r' = r_is_write_in_progress r /\
  r_election_quorum r' = r_election_quorum r /\ r_vote_mask r' = r_vote_mask r.
Definition same_config (r r' : raft) : Prop :=
  r_self r' = r_self r /\ r_vclock r' = r_vclock r /\ r_is_enabled r' = r_is_enabled r.

Lemma effect_same op r r' :
  same_election r r' -> (op_vote op = None \/ same_config r r') ->
  (r_state r' = r_state r \/ r_state r' = RAFT_STATE_FOLLOWER) -> op_effect op r r'.
Proof.
  intros (E1 & E2 & E3 & E4 & E5 & E6 & E7 & E8) Hcfg Hs. split; try congruence.
  - right. split; [done|by left].
  - right. right. by left.
  - by destruct Hcfg.
  - by left.
  - intros Hc. split; [naive_solver congruence|]. split; [done|by left].
  - intros Hl. split; [done|]. left. naive_solver congruence.
Qed.


(** ** Messages in phases *)

Lemma can_vote_result le ge :
  (compare_result le ge =? 0) || (compare_result le ge =? 1) = ge.
Proof. by destruct le, ge. Qed.

Lemma wp_can_vote_for v (Q : bool -> raft -> Prop) r :
  raft_inv r -> r_is_enabled r = true -> vclock_ok v ->
  (forall b mine, r_vclock r = Some mine -> (b = true <-> vle_from 1 mine v) -> Q b r) ->
  wp (raft_can_vote_for v) Q r.
Proof.
  intros Hinv He Hv HQ. destruct (inv_self r Hinv He) as (_ & w & Hw & Hok).
  apply wp_bind, wp_gets. rewrite Hw, obind_Some. unfold vclock_compare_ignore0.
  destruct (compare_generic_spec v w Hv Hok true) as (le & ge & -> & _ & Hge).
  rewrite can_vote_result. by apply (HQ ge w).
Qed.

(** After the bump and the vote of a message: a known leader is this node, or
    nothing visible has changed. *)
Definition kept (r r' : raft) : Prop :=
  r_leader r' = 0 \/ r_leader r' = r_self r' \/
  visible r' = visible r /\ r_is_candidate r' = r_is_candidate r.

Section Message.
Context (req : raft_msg) (source : Z).
Let op : raft_op := op_msg req source.

Definition phase_post (r : raft) (_ : unit) (r' : raft) : Prop :=
  op_post op r tt r' /\ kept r r' /\
  r_volatile_term r' <= Z.max (r_volatile_term r) (m_term req).

Lemma phase_same r : raft_inv r -> phase_post r tt r.
Proof. intros H. split; [by apply post_same|]. split; [by right; right|lia]. Qed.

Lemma phase_new_vote r tm l v :
  raft_inv r -> r_state r = RAFT_STATE_FOLLOWER -> r_volatile_vote r = 0 -> r_leader r = 0 ->
  granted op r (r_volatile_term r) v ->
  t_active tm = false -> last_update l = last_update (r_log r) ->
  phase_post r tt (r <| r_volatile_vote := v |> <| r_timer := tm |> <| r_log := l |>
                     <| r_is_write_in_progress := true |>).
Proof.
  intros Hinv Hs Hv Hl Hg Htm Hlog. split; [|split; [by left|cbn; lia]].
  post_split r Hinv; subst; post_auto.
Qed.

Lemma phase_count r r' :
  raft_inv r -> r_state r = RAFT_STATE_CANDIDATE ->
  m_term req = r_volatile_term r -> m_vote req = r_self r -> 0 < source < 32 ->
  r' = r <| r_vote_mask := Z.setbit (r_vote_mask r) source |>
         <| r_vote_count ::= fun n => n + (if Z.testbit (r_vote_mask r) source then 0 else 1) |> ->
  phase_post r tt r' /\ r_vote_count r' = bit_count_u32 (r_vote_mask r').
Proof.
  intros Hinv Hs Ht Hv Hsrc ->.
  assert (mask_grows (op_vote op) r (Z.setbit (r_vote_mask r) source)) as Hm.
  { right. exists source. cbn. rewrite Ht, Hv. split; [done|]. split; [lia|done]. }
  pose proof (setbit_range (r_vote_mask r) source (inv_mask r Hinv) ltac:(lia)) as Hr.
  pose proof (bit_count_setbit (r_vote_mask r) source (inv_mask r Hinv) ltac:(lia)) as Hc.
  pose proof (inv_count r Hinv Hs) as Hn. split; [|cbn in *; lia].
  split; [|split; [left; by apply (inv_candidate r Hinv)|cbn; lia]].
  split; [use_inv Hinv; split; cbn in *; try done; lia|]. split; [|by left].
  split; cbn; auto.
Qed.

Lemma phase_leader r r' tm l :
  phase_post r tt r' -> raft_inv r' -> r_state r = RAFT_STATE_CANDIDATE ->
  r_state r' = RAFT_STATE_CANDIDATE ->
  r_election_quorum r' <= bit_count_u32 (r_vote_mask r') -> t_active tm = false ->
  last_update l = Some (mk_raft_visible RAFT_STATE_LEADER (r_self r') (r_term r') (r_vote r')) ->
  phase_post r tt (r' <| r_state := RAFT_STATE_LEADER |> <| r_leader := r_self r' |>
    <| r_timer := tm |> <| r_is_broadcast_scheduled := true |> <| r_log := l |>).
Proof.
  intros [(_ & Heff & _) [_ Hle]] Hinv Hs Hs' Hq Htm Hl. split; [|by split; [right; left|]].
  destruct (inv_candidate r' Hinv Hs') as (Hca & _ & _).
  destruct (eff_candidate _ _ _ Heff Hs') as (_ & Ht & Hm).
  split; [|split; [|by right; left]].
  - use_inv Hinv. destruct r'; cbn in *; subst. split; cbn; try done.
    + intros Hw. by specialize (Hwrite Hw).
    + unfold state_is. cbn. by rewrite andb_false_r.
  - destruct Heff. split; cbn; try done. intros _. split; [done|]. right. split; [done|].
    by exists (r_vote_mask r').
Qed.

Lemma write_off r :
  raft_inv r -> r_is_write_in_progress r = true -> t_active (r_timer r) = false.
Proof. intros Hinv Hw. rewrite (inv_timer r Hinv), Hw. by rewrite andb_false_r. Qed.

Lemma no_write r :
  raft_inv r -> r_state r <> RAFT_STATE_FOLLOWER -> r_is_write_in_progress r = false.
Proof.
  intros Hinv Hs. destruct (r_is_write_in_progress r) eqn:E; [|done].
  by pose proof (inv_write r Hinv E).
Qed.

(** An enabled node without a leader that is not a candidate is a follower. *)
Lemma no_leader_follower r :
  raft_inv r -> r_is_enabled r = true -> r_leader r = 0 ->
  r_state r <> RAFT_STATE_CANDIDATE -> r_state r = RAFT_STATE_FOLLOWER.
Proof.
  intros Hinv He Hl Hc. destruct (inv_self r Hinv He) as [Hs _], (r_state r) eqn:E; try done.
  destruct (inv_leader r Hinv E). lia.
Qed.

(** What the checks before the vote establish. *)
Definition valid_vote : Prop :=
  m_vote req <> 0 /\
  (m_state req = raft_state_code RAFT_STATE_CANDIDATE ->
   m_vote req = source /\ m_vclock req <> None).

Lemma vote_request_phase r :
  raft_inv r -> op_pre op r -> valid_vote -> m_term req = r_volatile_term r ->
  r_state r <> RAFT_STATE_CANDIDATE ->
  wp (raft_process_vote_request req) (phase_post r) r.
Proof.
  intros Hinv (_ & _ & _ & _ & _ & Hvc) [_ Hcl] Ht Hs. apply wp_bind, wp_gets.
  assert (wp skip (phase_post r) r) as Hskip by (by apply wp_skip, phase_same).
  repeat (apply wp_if; intros ?; boolp; [exact Hskip|]).
  pose proof (no_leader_follower r Hinv ltac:(done) ltac:(done) Hs) as Hf.
  destruct (m_vclock req) as [v|] eqn:Ev; [|by destruct Hcl].
  destruct Hcl as [Hvs _]; [done|].
  apply wp_bind, wp_can_vote_for; [done|done|by apply Hvc|]. intros b mine Hmine Hb.
  apply wp_if; intros ?; boolp; [exact Hskip|].
  apply wp_schedule_new_vote; [done|done|done|by apply write_off|].
  intros tm l Htm Hl. apply phase_new_vote; try done.
  exists req, source, v, mine. rewrite <- Ht. repeat split; try done. by apply Hb.
Qed.

Lemma vote_response_phase r :
  raft_inv r -> op_pre op r -> m_term req = r_volatile_term r ->
  r_state r = RAFT_STATE_CANDIDATE ->
  wp (raft_process_vote_response req source) (phase_post r) r.
Proof.
  intros Hinv (Hsrc & _) Ht Es. apply wp_bind, wp_gets.
  destruct (inv_candidate r Hinv Es) as (Hca & Hl0 & Hvv).
  apply wp_if; intros ?; boolp; [by apply wp_skip, phase_same|].
  apply wp_bind, wp_assert. split; [by apply Z.eqb_eq|].
  apply wp_bind, wp_vote_mask_set; [apply (inv_mask r Hinv)|lia|].
  apply wp_bind, wp_modify, wp_bind, wp_gets.
  destruct (phase_count r _ Hinv Es Ht ltac:(done) Hsrc eq_refl) as [Hpost Hcnt].
  set (r' := _ <| r_vote_count ::= _ |>) in *.
  pose proof (no_write r Hinv ltac:(congruence)) as Hw.
  apply wp_if; intros ?; boolp; [by apply wp_skip|].
  apply wp_become_leader; [by cbn; rewrite Es|done..|]. intros tm l Htm Hlog.
  apply phase_leader; try done; [by apply Hpost|lia].
Qed.

Lemma vote_phase r :
  raft_inv r -> op_pre op r -> valid_vote -> m_term req = r_volatile_term r ->
  wp (raft_process_vote req source) (phase_post r) r.
Proof.
  intros Hinv Hpre Hval Ht. apply wp_bind, wp_gets.
  destruct (r_state r) eqn:Es; [apply vote_request_phase|apply vote_response_phase|
    apply vote_request_phase]; try done; congruence.
Qed.

(** The phases together *)

Lemma kept_resigned r r1 :
  op_pre op r1 -> kept r r1 -> resigned op r1 -> resigned op r.
Proof.
  intros (Hsrc & Hne & _) Hk (rq & s & E & Hl & Hst & Hc). injection E as <- <-.
  destruct Hk as [Hk|[Hk|[Hvis Hcand]]]; [lia|congruence|].
  exists req, source. unfold visible in Hvis. injection Hvis as _ El _ _.
  repeat split; congruence.
Qed.

Lemma post_trans r r1 r2 :
  phase_post r tt r1 -> op_pre op r1 -> op_post op r1 tt r2 -> op_post op r tt r2.
Proof.
  intros [(_ & He1 & Ha1) [Hk _]] Hpre (Hinv & He2 & Ha2). split; [done|].
  split; [by apply (effect_trans _ _ r1)|].
  destruct Ha2 as [[Hv Hl]|[Ha2|Ha2]].
  - destruct Ha1 as [[Hv1 Hl1]|[Ha1|Ha1]]; [left; split; congruence| |by right; right].
    right. left. congruence.
  - by right; left.
  - right. right. by apply (kept_resigned r r1).
Qed.

Lemma phase_trans r r1 r2 :
  phase_post r tt r1 -> op_pre op r1 -> phase_post r1 tt r2 -> phase_post r tt r2.
Proof.
  intros H1 Hpre [H2 [Hk2 Hle2]]. split; [by apply (post_trans r r1)|].
  destruct H1 as [_ [Hk1 Hle1]]. split; [|lia]. destruct H2 as (_ & He2 & _).
  destruct (eff_msg _ _ _ He2) as (Hs & _ & _); [done|].
  destruct Hk2 as [?|[?|[Hv2 Hc2]]]; [by left|by right; left|].
  pose proof Hv2 as Hv2'. unfold visible in Hv2'. injection Hv2' as _ El _ _.
  destruct Hk1 as [?|[?|[Hv1 Hc1]]]; [left; congruence|right; left; congruence|].
  right. right. split; congruence.
Qed.

Lemma bump_phase r :
  raft_inv r -> op_pre op r -> r_volatile_term r < m_term req ->
  wp (raft_sm_schedule_new_term (m_term req))
    (fun _ r' => phase_post r tt r' /\ r_volatile_term r' = m_term req) r.
Proof.
  intros Hinv Hpre Hlt. apply wp_schedule_new_term; [done|apply (inv_term r Hinv)| |].
  { rewrite (inv_timer r Hinv). intros H. by boolp. }
  intros tm l Htm Hl. split; [|done]. split; [|split; [by left|cbn; lia]].
  destruct Hpre as (_ & _ & _ & _ & Hmax & _).
  apply post_new_term; [done|lia|done|by left|done].
Qed.

Lemma post_follow r tm l :
  raft_inv r -> r_state r <> RAFT_STATE_LEADER -> source <> 0 ->
  (if negb (r_is_write_in_progress r) && r_is_candidate r
   then t_active tm = true else tm = r_timer r) ->
  last_update l = Some (mk_raft_visible RAFT_STATE_FOLLOWER source (r_term r) (r_vote r)) ->
  op_post op r tt (r <| r_state := RAFT_STATE_FOLLOWER |> <| r_leader := source |>
    <| r_timer := tm |> <| r_is_broadcast_scheduled := true |> <| r_log := l |>).
Proof.
  intros Hinv Hs Hsrc Htm Hl.
  split; [|split; [apply effect_same; [done|by right|by right]|by right; left]].
  pose proof (inv_timer r Hinv) as Ht.
  use_inv Hinv. split; cbn; try done.
  rewrite (state_is_false RAFT_STATE_LEADER r Hs) in Ht. unfold state_is. cbn.
  destruct (r_is_write_in_progress r), (r_is_candidate r); cbn in *; congruence.
Qed.

Lemma pre_kept r r1 :
  op_pre op r -> phase_post r tt r1 -> r_volatile_term r1 + 1 < UINT64_MAX -> op_pre op r1.
Proof.
  intros (H1 & H2 & H3 & H4 & H5 & H6) [(_ & He & _) _] Ht.
  destruct (eff_msg _ _ _ He) as (Hs & _ & _); [done|]. unfold op, op_pre. by rewrite Hs.
Qed.

(** What follows the vote. *)
Definition msg_tail : rprog Z :=
  leader ← gets r_leader;
  if negb (m_state req =? raft_state_code RAFT_STATE_LEADER) then
    (if source =? leader then
       modify (fun r => r <| r_leader := 0 |>);;
       candidate ← gets r_is_candidate;
       if candidate : bool then raft_sm_schedule_new_election else skip
     else skip);;
    mret 0
  else if source =? leader then mret 0
  else if negb (leader =? 0) then mret 0
  else raft_sm_follow_leader source;; mret 0.

Lemma tail_phase r :
  raft_inv r -> op_pre op r -> wp msg_tail (fun rc r' => rc = 0 /\ op_post op r tt r') r.
Proof.
  intros Hinv (Hsrc & Hne & Hmax & _). apply wp_bind, wp_gets.
  apply wp_if; intros Hst; boolp.
  - apply wp_bind, wp_if; intros Hl; boolp; [|by apply wp_skip, wp_ret; split; [|apply post_same]].
    assert (raft_inv (r <| r_leader := 0 |>)) as Hinv' by (apply inv_resign; [done|lia|congruence]).
    apply wp_bind, wp_modify, wp_bind, wp_gets, wp_if; intros Hc.
    + destruct (inv_term r Hinv). apply wp_schedule_new_election; [done|cbn; lia|done| |].
      { cbn. rewrite (inv_timer r Hinv). intros Ha. by boolp. }
      intros tm l Htm Hlog. split; [done|].
      apply (post_new_term op r (r_volatile_term r + 1) (r_self r) tm l);
        [done|lia|done|by right|done].
    + apply wp_skip, wp_ret. split; [done|]. split; [done|].
      split; [apply effect_same; [done|by right|by left]|].
      right. right. by exists req, source.
  - apply wp_if; intros Hl; [by split; [|apply post_same]|].
    apply wp_if; intros Hl0; boolp; [by split; [|apply post_same]|].
    assert (r_state r <> RAFT_STATE_LEADER) as Hs.
    { intros E. destruct (inv_leader r Hinv E) as [Hc El].
      destruct (inv_self r Hinv (inv_enabled r Hinv Hc)) as [Hb _]. lia. }
    apply wp_bind, wp_follow_leader; [done|done|lia|]. intros tm l Htm Hlog.
    apply wp_ret. split; [done|]. apply post_follow; [done|done|lia|done|done].
Qed.

Lemma process_msg_post r :
  raft_inv r -> op_pre op r ->
  wp (raft_process_msg req source) (fun rc r' =>
    (rc = 0 \/ rc = -1 /\ r' = r /\ msg_invalid req source = true) /\ op_post op r tt r') r.
Proof.
  intros Hinv Hpre. pose proof Hpre as (Hsrc & Hne & Hmax & H0 & Hmt & Hvc).
  apply wp_bind, wp_assert. split; [lia|]. apply wp_bind, wp_assert. split; [lia|].
  apply wp_if; intros Hbad;
    [split; [right; unfold msg_invalid; by rewrite Hbad|by apply post_same]|].
  apply wp_if; intros Hbad2;
    [split; [right; unfold msg_invalid; by rewrite Hbad, Hbad2|by apply post_same]|].
  apply wp_bind, wp_gets, wp_if; intros Hold; [split; [by left|by apply post_same]|]. boolp.
  apply wp_bind. eapply (wp_mono _ (fun _ r1 => phase_post r tt r1 /\
    r_volatile_term r1 = m_term req)).
  { apply wp_if; intros Hlt; boolp; [by apply bump_phase|].
    apply wp_skip. split; [by apply phase_same|lia]. }
  intros _ r1 [Hp1 Ht1]. pose proof (pre_kept r r1 Hpre Hp1 ltac:(lia)) as Hpre1.
  assert (raft_inv r1) as Hinv1 by apply Hp1.
  apply wp_bind. eapply (wp_mono _ (fun _ r2 => phase_post r1 tt r2)).
  { apply wp_if; intros Hv; boolp; [|by apply wp_skip, phase_same].
    apply vote_phase; [done|done| |done]. split; [done|]. intros Hc.
    rewrite Hc in Hbad2. cbn in Hbad2. boolp. split; congruence. }
  intros _ r2 Hp2. pose proof (phase_trans r r1 r2 Hp1 Hpre1 Hp2) as Hp.
  assert (raft_inv r2) as Hinv2 by apply Hp.
  eapply wp_mono; [apply (tail_phase r2 Hinv2)|].
  { apply (pre_kept r r2 Hpre Hp). destruct Hp as (_ & _ & Hle). lia. }
  intros rc r3 [-> Hp3]. split; [by left|]. apply (post_trans r r2); [done| |done].
  apply (pre_kept r r2 Hpre Hp). destruct Hp as (_ & _ & Hle). lia.
Qed.
End Message.

(** ** The other calls *)

Lemma post_timer op r tm :
  raft_inv r -> t_active tm = t_active (r_timer r) -> op_post op r tt (r <| r_timer := tm |>).
Proof.
  intros Hinv Ht. split; [|split; [apply effect_same; [done|by right|by left]|by left]].
  use_inv Hinv. split; cbn; try done. by rewrite Ht.
Qed.

Lemma heartbeat_post source r :
  raft_inv r -> wp (raft_process_heartbeat source) (op_post (op_heartbeat source) r) r.
Proof.
  intros Hinv. apply wp_bind, wp_gets.
  repeat (apply wp_if; intros ?; boolp; [by apply wp_skip, post_same|]).
  assert (t_active (r_timer r) = true) as Ht.
  { rewrite (inv_timer r Hinv). by rewrite H0, H1, H3. }
  assert (r_state r = RAFT_STATE_FOLLOWER) as Hs.
  { destruct (r_state r) eqn:E; [done| |].
    - destruct (inv_candidate r Hinv E) as (_ & ? & _). lia.
    - by rewrite (state_is_true RAFT_STATE_LEADER) in H1. }
  apply wp_bind, wp_assert. split; [done|].
  apply wp_bind, wp_timer_stop. intros tm Htm.
  apply wp_wait_leader_dead; [done..|cbn; lia|]. intros tm' Htm'.
  apply (post_timer _ r tm'); [done|congruence].
Qed.

Lemma timer_post r :
  raft_inv r -> op_pre op_timer r ->
  wp raft_sm_schedule_new_election_cb (op_post op_timer r) r.
Proof.
  intros Hinv [Ht Hmax]. rewrite (inv_timer r Hinv) in Ht. boolp.
  apply wp_bind, wp_assert. split; [by apply inv_disk|].
  apply wp_bind, wp_timer_stop. intros tm Htm.
  destruct (inv_term r Hinv).
  apply wp_schedule_new_election; [done|cbn; lia|done|done|].
  intros tm' l Htm' Hl.
  apply (post_new_term op_timer r (r_volatile_term r + 1) (r_self r) tm' l);
    [done|lia|done|by right|done].
Qed.

Lemma new_term_post r :
  raft_inv r -> op_pre op_new_term r -> wp raft_new_term (op_post op_new_term r) r.
Proof.
  intros Hinv Hmax. cbn in Hmax. destruct (inv_term r Hinv). apply wp_bind, wp_gets.
  unfold UINT64_MAX in *. rewrite uwrap_small by lia.
  apply wp_schedule_new_term; [lia|done| |].
  { rewrite (inv_timer r Hinv). intros Ht. by boolp. }
  intros tm l Htm Hl. apply post_new_term; [done|unfold UINT64_MAX; lia|done|by left|done].
Qed.

(** The candidate flag can be raised in a state where a write has begun. *)
Lemma post_candidate op r r' :
  op_post op r tt r' -> r_is_write_in_progress r' = true -> r_is_enabled r' = true ->
  op_post op r tt (r' <| r_is_candidate := true |>).
Proof.
  intros (Hinv & Heff & Hann) Hw He. split; [|split; [by destruct Heff|done]].
  pose proof (inv_write r' Hinv Hw) as Hs. pose proof (inv_timer r' Hinv) as Ht.
  rewrite Hw in Ht. use_inv Hinv. split; cbn; try done; try congruence.
  rewrite Hw, Ht. by destruct (r_is_candidate r').
Qed.

Lemma promote_post r :
  raft_inv r -> op_pre op_promote r -> wp raft_promote (op_post op_promote r) r.
Proof.
  intros Hinv Hmax. cbn in Hmax. destruct (inv_term r Hinv). apply wp_bind, wp_gets.
  apply wp_if; intros He; boolp; [by apply wp_skip, post_same|].
  unfold UINT64_MAX in *. apply wp_bind. rewrite uwrap_small by lia.
  apply wp_schedule_new_term; [lia|done| |].
  { rewrite (inv_timer r Hinv). intros Ht. by boolp. }
  intros tm l Htm Hl.
  assert (op_post op_promote r tt (after_new_term r (r_volatile_term r + 1) 0 tm l)) as Hp
    by (apply post_new_term; [done|unfold UINT64_MAX; lia|done|by left|done]).
  apply wp_bind, wp_assert. split; [done|].
  apply wp_bind, wp_gets, wp_if; intros Hc; [by apply wp_skip|].
  apply wp_bind, wp_assert. split; [done|].
  apply wp_bind, wp_modify, wp_bind, wp_gets, wp_if; intros Hw; [|done].
  apply wp_skip. by apply (post_candidate _ r (after_new_term _ _ _ _ _) Hp).
Qed.

(** Only a candidate can be something else than a follower. *)
Lemma not_candidate_follower r :
  raft_inv r -> r_is_candidate r = false -> r_state r = RAFT_STATE_FOLLOWER.
Proof.
  intros Hinv Hc. destruct (r_state r) eqn:E; [done| |].
  - destruct (inv_candidate r Hinv E). congruence.
  - destruct (inv_leader r Hinv E). congruence.
Qed.

Lemma follower_inv r leader tm cand en b l :
  raft_inv r -> (cand = true -> en = true) ->
  (en = true -> 0 < r_self r < 32 /\ exists v, r_vclock r = Some v /\ vclock_ok v) ->
  t_active tm = cand && negb (r_is_write_in_progress r) ->
  raft_inv (r <| r_is_enabled := en |> <| r_is_candidate := cand |>
    <| r_leader := leader |> <| r_state := RAFT_STATE_FOLLOWER |> <| r_timer := tm |>
    <| r_is_broadcast_scheduled := b |> <| r_log := l |>).
Proof.
  intros Hinv He Hself Htm. use_inv Hinv. split; cbn; try done.
  unfold state_is. cbn. by rewrite andb_true_r.
Qed.

Lemma candidate_leader r :
  raft_inv r -> r_state r <> RAFT_STATE_FOLLOWER -> r_is_candidate r = true.
Proof.
  intros Hinv Hs. destruct (r_is_candidate r) eqn:E; [done|].
  by destruct Hs; apply not_candidate_follower.
Qed.

Lemma start_candidate_post op r :
  raft_inv r -> op_vote op = None -> r_is_enabled r = true ->
  wp raft_start_candidate (op_post op r) r.
Proof.
  intros Hinv Hop He. destruct (r_is_candidate r) eqn:Hc.
  { apply wp_bind, wp_assert. split; [done|]. apply wp_bind, wp_gets. rewrite Hc.
    by apply wp_skip, post_same. }
  pose proof (not_candidate_follower r Hinv Hc) as Hs.
  apply (wp_set_candidate_follower true); [done|done| |].
  { rewrite (inv_timer r Hinv). intros H. by boolp. }
  intros tm b l _ _ Ht Hl. rewrite Hc in Ht.
  split; [|split; [apply effect_same; [done|by left|by left]|]].
  - pose proof (follower_inv r (r_leader r) tm true (r_is_enabled r) b l Hinv
      ltac:(done) (inv_self r Hinv) ltac:(by apply Ht)) as H. destruct r; cbn in *. by subst.
  - destruct Hl as [[-> ->]|[Hl ->]]; [by left|by right; left].
Qed.

Lemma stop_candidate_post op r :
  raft_inv r -> op_vote op = None -> wp raft_stop_candidate (op_post op r) r.
Proof.
  intros Hinv Hop. apply wp_bind, wp_gets, wp_if; intros Hc; boolp; [by apply wp_skip, post_same|].
  apply wp_bind, wp_modify, wp_bind, wp_timer_stop. intros tm Htm.
  apply wp_bind, wp_modify, wp_bind, wp_modify, wp_schedule_broadcast. intros l Hl.
  pose proof (fun leader => follower_inv r leader tm false (r_is_enabled r) true l Hinv
    ltac:(done) (inv_self r Hinv) Htm) as H.
  destruct (state_is RAFT_STATE_LEADER _) eqn:E in Hl |- *;
    (split; [|split; [apply effect_same; [done|by left|by right]|by right; left]]).
  - specialize (H 0). by destruct r.
  - specialize (H (r_leader r)). by destruct r.
Qed.

Lemma restore_post op r :
  raft_inv r -> op_vote op = None -> wp raft_restore (op_post op r) r.
Proof.
  intros Hinv Hop. apply wp_bind, wp_gets. destruct (_ && _) eqn:E; boolp.
  - by apply start_candidate_post.
  - by apply stop_candidate_post.
Qed.

Lemma cfg_is_candidate_post b r :
  raft_inv r -> wp (raft_cfg_is_candidate b) (op_post (op_cfg_is_candidate b) r) r.
Proof.
  intros Hinv. apply wp_bind, wp_modify.
  eapply wp_mono; [apply (restore_post (op_cfg_is_candidate b)); [|done]|].
  { use_inv Hinv. by split. }
  intros [] r' (Hi & He & Ha). split; [done|]. split; [by destruct He|].
  destruct Ha as [?|[?|(rq & src & ? & _)]]; [by left|by right; left|done].
Qed.

Lemma sm_stop_post op r :
  raft_inv r -> op_vote op = None -> r_is_enabled r = true ->
  wp raft_sm_stop (op_post op r) r.
Proof.
  intros Hinv Hop He. apply wp_bind, wp_assert. split; [done|].
  do 4 apply wp_bind, wp_modify. apply wp_bind, wp_timer_stop. intros tm Htm.
  apply wp_schedule_broadcast. intros l Hl.
  pose proof (fun leader => follower_inv r leader tm false false true l Hinv
    ltac:(done) ltac:(done) Htm) as H.
  destruct (state_is RAFT_STATE_LEADER _) eqn:E in Hl |- *;
    (split; [|split; [apply effect_same; [done|by left|by right]|by right; left]]).
  - specialize (H 0). by destruct r.
  - specialize (H (r_leader r)). by destruct r.
Qed.

Lemma sm_start_post op r :
  raft_inv r -> op_vote op = None -> r_is_enabled r = false ->
  0 < r_self r < 32 -> (exists v, r_vclock r = Some v /\ vclock_ok v) ->
  wp raft_sm_start (op_post op r) r.
Proof.
  intros Hinv Hop He Hself Hvc.
  assert (r_is_candidate r = false) as Hc.
  { destruct (r_is_candidate r) eqn:E; [|done]. pose proof (inv_enabled r Hinv E). congruence. }
  pose proof (not_candidate_follower r Hinv Hc) as Hs.
  assert (t_active (r_timer r) = false) as Ht by (by rewrite (inv_timer r Hinv), Hc).
  apply wp_bind, wp_assert. split; [unfold raft_ev_is_active; by rewrite Ht|].
  apply wp_bind, wp_assert. split; [by rewrite He|].
  apply wp_bind, wp_assert. split; [by apply state_is_true|].
  do 2 apply wp_bind, wp_modify. apply wp_bind, wp_gets, wp_bind.
  assert (forall tm, t_active tm = r_is_cfg_candidate r && negb (r_is_write_in_progress r) ->
    wp raft_schedule_broadcast (op_post op r)
      (r <| r_is_enabled := true |> <| r_is_candidate := r_is_cfg_candidate r |>
         <| r_timer := tm |>)) as Hend.
  { intros tm Htm. apply wp_schedule_broadcast. intros l Hl.
    split; [|split; [apply effect_same; [done|by left|by left]|by right; left]].
    pose proof (follower_inv r (r_leader r) tm (r_is_cfg_candidate r) true true l Hinv
      ltac:(done) ltac:(done) Htm) as H. destruct r; cbn in *. by subst. }
  pose proof (Hend (r_timer r)) as Hend'. rewrite Ht in Hend'.
  apply wp_if; intros Hw; cbn in Hw.
  { apply wp_skip. rewrite Hw, andb_false_r in Hend'. by destruct r; apply Hend'. }
  apply wp_if; intros Hcc; cbn in Hcc; boolp.
  { apply wp_skip. specialize (Hend' ltac:(by rewrite Hcc)). by destruct r. }
  apply wp_if; intros Hl; cbn in Hl; boolp;
    [apply wp_wait_leader_dead|apply wp_wait_leader_found]; cbn; try done;
    intros tm Htm; apply Hend; by rewrite Hcc, Hw.
Qed.

Lemma cfg_is_enabled_post b r :
  raft_inv r -> op_pre (op_cfg_is_enabled b) r ->
  wp (raft_cfg_is_enabled b) (op_post (op_cfg_is_enabled b) r) r.
Proof.
  intros Hinv Hpre. apply wp_bind, wp_gets, wp_if; intros Hb; [by apply wp_skip, post_same|].
  apply wp_if; intros Hn; boolp; subst b.
  - apply sm_stop_post; [done|done|by destruct (r_is_enabled r)].
  - apply sm_start_post; [done|done|by destruct (r_is_enabled r)|apply Hpre|apply Hpre].
Qed.

(** Stopping the active timer and starting it again with another delay. *)
Lemma wp_timer_reset after repeat op r :
  raft_inv r -> t_active (r_timer r) = true ->
  wp (raft_ev_timer_stop;; raft_ev_timer_set after repeat;; raft_ev_timer_start)
    (op_post op r) r.
Proof.
  intros Hinv Ht. apply wp_bind, wp_timer_stop. intros tm Htm.
  apply wp_timer_run. intros tm' Htm'. apply (post_timer op r tm'); [done|congruence].
Qed.

(** The invariant does not depend on these fields. *)
Lemma inv_timeouts r e d :
  raft_inv r -> timeout_ok e = true ->
  raft_inv (r <| r_election_timeout := e |> <| r_death_timeout := d |>).
Proof. intros Hinv He. use_inv Hinv. by split. Qed.

Lemma post_timeouts op r r' e d :
  op_post op (r <| r_election_timeout := e |> <| r_death_timeout := d |>) tt r' ->
  op_vote op = None -> op_post op r tt r'.
Proof.
  intros (Hi & He & Ha) Hop. split; [done|]. split; [by destruct He|].
  destruct Ha as [?|[?|(rq & src & -> & _)]]; [by left|by right; left|done].
Qed.

Lemma cfg_election_timeout_post d r :
  raft_inv r -> timeout_ok d = true ->
  wp (raft_cfg_election_timeout d) (op_post (op_cfg_election_timeout d) r) r.
Proof.
  intros Hinv Hd. apply wp_bind, wp_gets, wp_if; intros Heq; [by apply wp_skip, post_same|].
  apply wp_bind, wp_modify, wp_bind, wp_gets.
  pose proof (inv_timeouts r d (r_death_timeout r) Hinv Hd) as Hinv'.
  set (r1 := r <| r_election_timeout := d |>).
  assert (raft_inv r1) as Hi1 by (by destruct r).
  apply (wp_mono _ (op_post (op_cfg_election_timeout d) r1)); [|
    intros [] r' Hp; apply (post_timeouts _ r r' d (r_death_timeout r)); [by destruct r|done]].
  apply wp_if; intros Hc; [by apply wp_skip, post_same|]. boolp.
  assert (t_active (r_timer r) = true) as Ht.
  { rewrite (inv_timer r Hinv). cbn in *. rewrite H1, H0. rewrite state_is_false; [done|].
    intros E. destruct (inv_leader r Hinv E) as [Hca Hl].
    destruct (inv_self r Hinv (inv_enabled r Hinv Hca)). lia. }
  apply wp_bind, wp_assert. split; [done|]. by apply wp_timer_reset.
Qed.

Lemma cfg_death_timeout_post d r :
  raft_inv r -> death_timeout_fails d r = false ->
  wp (raft_cfg_death_timeout d) (op_post (op_cfg_death_timeout d) r) r.
Proof.
  intros Hinv Hf. apply wp_bind, wp_gets, wp_if; intros Heq; [by apply wp_skip, post_same|].
  apply wp_bind, wp_modify, wp_bind, wp_gets.
  pose proof (inv_timeouts r (r_election_timeout r) d Hinv (inv_timeout r Hinv)) as Hinv'.
  set (r1 := r <| r_death_timeout := d |>).
  assert (raft_inv r1) as Hi1 by (by destruct r).
  apply (wp_mono _ (op_post (op_cfg_death_timeout d) r1)); [|
    intros [] r' Hp; apply (post_timeouts _ r r' (r_election_timeout r) d); [by destruct r|done]].
  apply wp_if; intros Hc; [by apply wp_skip, post_same|]. boolp.
  assert (t_active (r_timer r) = true) as Ht.
  { rewrite (inv_timer r Hinv). cbn in *.
    assert (r_is_write_in_progress r = false) as Hw.
    { unfold death_timeout_fails in Hf. rewrite H1, Heq in Hf. destruct (Z.eqb_spec (r_leader r) 0); [done|]. by destruct (r_is_write_in_progress r). }
    rewrite H1, Hw. rewrite state_is_false; [done|].
    intros E. rewrite state_is_false in H; [done|]. cbn. congruence. }
  apply wp_bind, wp_assert. split; [done|]. by apply wp_timer_reset.
Qed.
Lemma cfg_death_timeout_abort d r :
  raft_inv r -> raft_cfg_death_timeout d r = Abort <-> death_timeout_fails d r = true.
Proof.
  intros Hinv. destruct (death_timeout_fails d r) eqn:Hf.
  - split; [done|]. intros _. unfold death_timeout_fails in Hf. apply andb_prop in Hf as [Hf Hd]. apply andb_prop in Hf as [Hf Hl]. apply andb_prop in Hf as [Hw Hc].
    pose proof (inv_write r Hinv Hw) as Hs. pose proof (inv_timer r Hinv) as Ht. rewrite Hw, Hc in Ht. cbn in Ht.
    apply negb_true_iff in Hd. apply negb_true_iff in Hl. unfold raft_cfg_death_timeout, mbind, prog_bind, gets, modify. rewrite Hd. cbn.
    rewrite state_is_true by done. rewrite Hc, Hl. cbn. unfold assert, raft_ev_is_active. cbn. by rewrite Ht.
  - split; [|done]. intros Ha. pose proof (cfg_death_timeout_post d r Hinv Hf) as H. unfold wp in H. by rewrite Ha in H.
Qed.

Lemma cfg_election_quorum_post q r :
  raft_inv r -> 0 < q ->
  wp (raft_cfg_election_quorum q) (op_post (op_cfg_election_quorum q) r) r.
Proof.
  intros Hinv Hq. apply wp_bind, wp_assert. split; [lia|].
  apply wp_bind, wp_modify, wp_bind, wp_gets.
  assert (raft_inv (r <| r_election_quorum := q |>)) as Hinv1 by (use_inv Hinv; by split).
  apply wp_if; intros Hc; boolp.
  - assert (r_state r = RAFT_STATE_CANDIDATE) as Hs
      by (unfold state_is in H; cbn in H; by destruct (r_state r)).
    destruct (inv_candidate r Hinv Hs) as (Hca & Hl & _).
    pose proof (no_write r Hinv ltac:(congruence)) as Hw.
    pose proof (inv_count r Hinv Hs) as Hn. cbn in H0.
    apply wp_become_leader; [by cbn; rewrite Hs|done..|]. intros tm l Htm Hlog.
    split; [|split; [|by right; left]].
    + use_inv Hinv. destruct r; cbn in *; subst. by split.
    + split; cbn; auto; [done|]. intros _. split; [done|]. right. split; [done|].
      exists (r_vote_mask r). split; [by left|lia].
  - apply wp_skip. split; [done|]. split; [|by left].
    split; cbn; auto; intros Hs; by repeat split; [|left].
Qed.

Lemma cfg_instance_id_post id r :
  raft_inv r -> op_pre (op_cfg_instance_id id) r ->
  wp (raft_cfg_instance_id id) (op_post (op_cfg_instance_id id) r) r.
Proof.
  intros Hinv [Hs Hid]. apply wp_bind, wp_assert. split; [lia|].
  apply wp_bind, wp_assert. split; [lia|]. apply wp_modify.
  assert (r_is_enabled r = false) as He.
  { destruct (r_is_enabled r) eqn:E; [|done]. destruct (inv_self r Hinv E). lia. }
  assert (r_is_candidate r = false) as Hc.
  { destruct (r_is_candidate r) eqn:E; [|done]. pose proof (inv_enabled r Hinv E). congruence. }
  pose proof (not_candidate_follower r Hinv Hc) as Hst.
  split; [|split; [|by left]].
  - use_inv Hinv. split; cbn; try done; congruence.
  - split; cbn; auto; [lia|done|..]; intros; congruence.
Qed.

Lemma set_vclock_post op v r :
  raft_inv r -> vclock_ok v -> op_vote op = None ->
  op_post op r tt (r <| r_vclock := Some v |>).
Proof.
  intros Hinv Hv Hop. split; [|split; [apply effect_same; [done|by left|by left]|by left]].
  use_inv Hinv. split; cbn; try done. intros He. split; [by apply Hself|]. by exists v.
Qed.

Lemma cfg_vclock_post v r :
  raft_inv r -> op_pre (op_cfg_vclock v) r ->
  wp (raft_cfg_vclock (Some v)) (op_post (op_cfg_vclock v) r) r.
Proof.
  intros Hinv [Hn Hv]. apply wp_bind, wp_assert. split; [by apply bool_decide_eq_true_2|].
  apply wp_bind, wp_assert. split; [by rewrite bool_decide_eq_false_2|].
  by apply wp_modify, set_vclock_post.
Qed.

Lemma candidate_vote r :
  raft_inv r -> r_state r = RAFT_STATE_CANDIDATE -> r_vote r = r_self r /\ r_term r = r_volatile_term r.
Proof.
  intros Hinv Hs. destruct (inv_candidate r Hinv Hs) as (_ & _ & Hv).
  pose proof (inv_disk r Hinv (no_write r Hinv ltac:(congruence))) as Hd.
  unfold raft_is_fully_on_disk in Hd. boolp. split; congruence.
Qed.

Lemma broadcast_post r :
  raft_inv r -> r_is_broadcast_scheduled r = true ->
  wp raft_worker_handle_broadcast (fun _ r' => op_post op_broadcast r tt r' /\
    r' = r <| r_is_broadcast_scheduled := false |>
           <| r_log := ev_broadcast (raft_checkpoint_remote r) :: r_log r |>) r.
Proof.
  intros Hinv Hb. apply wp_bind, wp_assert. split; [done|]. apply wp_bind, wp_gets.
  apply wp_bind, wp_assert. split.
  { destruct (r_state r) eqn:E; unfold state_is; rewrite E; try done. cbn.
    apply Z.eqb_eq. by apply candidate_vote. }
  apply wp_bind, wp_modify, wp_modify. split; [|done].
  split; [|split; [apply effect_same; [done|by left|by left]|by left]].
  use_inv Hinv. by split.
Qed.

(** Every call of the interface, under its precondition, ends without an abort,
    keeps the invariant and has the effect of the interface. *)
Lemma op_correct op r :
  raft_inv r -> op_pre op r -> wp (run_op op) (op_post op r) r.
Proof.
  intros Hinv Hpre. destruct op; cbn [run_op].
  - apply wp_bind. eapply wp_mono; [by apply process_msg_post|]. by intros rc r' [_ Hp].
  - by apply heartbeat_post.
  - by apply timer_post.
  - by apply cfg_is_enabled_post.
  - by apply cfg_is_candidate_post.
  - by apply promote_post.
  - by apply restore_post.
  - by apply new_term_post.
  - by apply cfg_election_timeout_post.
  - by apply cfg_election_quorum_post.
  - by apply cfg_death_timeout_post.
  - by apply cfg_instance_id_post.
  - by apply cfg_vclock_post.
  - eapply wp_mono; [by apply broadcast_post|]. by intros [] r' [Hp _].
  - apply wp_modify. split; [|split; [apply effect_same; [done|by left|by left]|by left]].
    use_inv Hinv. by split.
  - by apply wp_modify, set_vclock_post.
Qed.

Lemma create_inv now rnd : raft_inv (raft_create now rnd).
Proof. split; cbn; try done; unfold UINT64_MAX; lia. Qed.

(** ** The worker *)

(** What the end of a dump can change: the node may vote for itself, or become
    a candidate with its own vote, or a leader when its vote is a quorum. *)
Record dump_effect (r r' : raft) : Prop := {
  dump_self : r_self r' = r_self r;
  dump_term : r_term r' = r_term r;
  dump_vote : r_vote r' = r_vote r;
  dump_volatile_term : r_volatile_term r' = r_volatile_term r;
  dump_volatile_vote : r_volatile_vote r' = r_volatile_vote r \/ r_volatile_vote r = 0 /\ r_volatile_vote r' = r_self r;
  dump_quorum : r_election_quorum r' = r_election_quorum r;
  dump_enabled : r_is_enabled r' = r_is_enabled r;
  dump_clock : r_vclock r' = r_vclock r;
  dump_candidate : r_state r' = RAFT_STATE_CANDIDATE ->
    r_vote r = r_self r /\ r_vote_mask r' = Z.setbit 0 (r_self r);
  dump_leader : r_state r' = RAFT_STATE_LEADER ->
    r_vote r = r_self r /\ r_election_quorum r = 1;
  dump_log : visible r' = visible r /\ last_update (r_log r') = last_update (r_log r) \/
    last_update (r_log r') = Some (visible r');
}.

(** The state in which the worker may reach the label end_dump. *)
Record dump_ready (r : raft) : Prop := {
  ready_inv : raft_inv r;
  ready_write : r_is_write_in_progress r = true;
  ready_disk : raft_is_fully_on_disk r = true;
}.

Definition dump_post (r : raft) (r' : raft) : Prop :=
  raft_inv r' /\ dump_effect r r' /\
  (r_is_write_in_progress r' = true ->
   r_volatile_vote r = 0 /\ r_volatile_vote r' <> 0).

Section Dump.
Context (r : raft) (Hready : dump_ready r).
Let Hinv := ready_inv r Hready.
Let Hw := ready_write r Hready.
Let Hd := ready_disk r Hready.

Lemma ready_follower : r_state r = RAFT_STATE_FOLLOWER.
Proof. by apply inv_write. Qed.

Lemma ready_timer : t_active (r_timer r) = false.
Proof. by apply write_off. Qed.

Lemma ready_vote : r_volatile_term r = r_term r /\ r_volatile_vote r = r_vote r.
Proof. pose proof Hd as H. unfold raft_is_fully_on_disk in H. by boolp. Qed.

Let r0 := r <| r_is_write_in_progress := false |>.

Lemma dump_timer tm rnd :
  t_active tm = r_is_candidate r ->
  dump_post r (r0 <| r_rand := rnd |> <| r_timer := tm |>).
Proof.
  intros Htm. pose proof ready_follower as Hs. split; [|split; [|done]].
  - pose proof Hinv as Hi. use_inv Hi. split; cbn; try done.
    unfold state_is. cbn. rewrite Hs, Htm. cbn. by rewrite !andb_true_r.
  - split; cbn; auto; congruence.
Qed.

Lemma dump_to_leader tm l :
  r_is_candidate r = true -> r_vote r = r_self r -> r_election_quorum r = 1 ->
  t_active tm = false ->
  last_update l = Some (mk_raft_visible RAFT_STATE_LEADER (r_self r) (r_term r) (r_vote r)) ->
  dump_post r (r0 <| r_state := RAFT_STATE_LEADER |> <| r_leader := r_self r |>
    <| r_timer := tm |> <| r_is_broadcast_scheduled := true |> <| r_log := l |>).
Proof.
  intros Hc Hv Hq Htm Hl. split; [|split; [|done]].
  - pose proof Hinv as Hi. use_inv Hi. split; cbn; try done.
    unfold state_is. cbn. by rewrite !andb_false_r.
  - split; cbn; auto; done.
Qed.

Lemma dump_to_candidate tm rnd l :
  r_is_candidate r = true -> r_vote r = r_self r -> r_leader r = 0 -> t_active tm = true ->
  last_update l = Some (mk_raft_visible RAFT_STATE_CANDIDATE 0 (r_term r) (r_vote r)) ->
  dump_post r (r0 <| r_state := RAFT_STATE_CANDIDATE |> <| r_vote_count := 1 |>
    <| r_vote_mask := Z.setbit 0 (r_self r) |> <| r_rand := rnd |>
    <| r_timer := tm |> <| r_is_broadcast_scheduled := true |> <| r_log := l |>).
Proof.
  intros Hc Hv Hl0 Htm Hl. destruct ready_vote as [_ Hvv].
  destruct (inv_self r Hinv (inv_enabled r Hinv Hc)) as [Hb _].
  split; [|split; [|done]].
  - pose proof (bit_count_setbit 0 (r_self r) ltac:(lia) ltac:(lia)) as Hcnt.
    rewrite Z.bits_0 in Hcnt.
    pose proof Hinv as Hi. use_inv Hi. split; cbn; try done.
    + unfold state_is. cbn. by rewrite Hc, Htm.
    + intros _. split; [done|]. split; [done|congruence].
    + apply setbit_range; lia.
  - split; cbn; auto; try done. right. by rewrite Hl, <- Hl0.
Qed.

Lemma dump_to_vote tm l :
  r_is_candidate r = true -> r_leader r = 0 -> r_vote r = 0 -> t_active tm = false ->
  last_update l = last_update (r_log r) ->
  dump_post r (r0 <| r_volatile_vote := r_self r |> <| r_timer := tm |> <| r_log := l |>
                 <| r_is_write_in_progress := true |>).
Proof.
  intros Hc Hl0 Hv Htm Hl. destruct ready_vote as [Ht Hvv]. pose proof ready_follower as Hs.
  destruct (inv_self r Hinv (inv_enabled r Hinv Hc)) as [Hb _].
  split; [|split].
  - pose proof Hinv as Hi. use_inv Hi. split; cbn; try done; try congruence.
    + by left.
    + by rewrite andb_false_r.
  - split; cbn; auto; try congruence; right; split; congruence.
  - cbn. intros _. split; [congruence|lia].
Qed.

Lemma end_dump_post : wp raft_worker_end_dump (fun _ r' => dump_post r r') r.
Proof.
  pose proof ready_follower as Hs. pose proof ready_timer as Ht.
  destruct ready_vote as [Et Ev].
  apply wp_bind, wp_modify, wp_bind, wp_gets.
  apply wp_if; intros Hc; cbn in Hc; boolp.
  { apply wp_skip. pose proof (dump_timer (r_timer r) (r_rand r)) as H.
    unfold r0 in H. destruct r; cbn in *. apply H. congruence. }
  apply wp_if; intros Hl; cbn in Hl; boolp.
  { apply wp_wait_leader_dead; cbn; try done. intros tm Htm.
    pose proof (dump_timer tm (r_rand r)) as H. unfold r0 in H. destruct r; cbn in *.
    apply H. congruence. }
  destruct (inv_self r Hinv (inv_enabled r Hinv Hc)) as [Hb _].
  apply wp_if; intros Hv; cbn in Hv; boolp.
  - apply wp_if; intros Hq; cbn in Hq; boolp.
    + apply wp_become_leader; cbn; try done; [by rewrite Hs|]. intros tm l Htm Hlog.
      by apply dump_to_leader.
    + pose proof (inv_quorum r Hinv). pose proof (inv_timeout r Hinv).
      apply wp_become_candidate; cbn; try done; try lia; try congruence. intros tm rnd l Htm Hlog.
      by apply dump_to_candidate.
  - apply wp_if; intros Hv0; cbn in Hv0; boolp.
    + pose proof (inv_timeout r Hinv).
      apply wp_wait_election_end; cbn; try done; [by left|]. intros tm rnd Htm.
      apply dump_timer. congruence.
    + apply wp_schedule_new_vote; cbn; try done; [congruence|]. intros tm l Htm Hlog.
      by apply dump_to_vote.
Qed.
End Dump.

(** A message on its way to the disk. *)
Record in_flight (r : raft) (req : raft_msg) : Prop := {
  fl_write : r_is_write_in_progress r = true;
  fl_term : r_term r <= m_term req <= r_volatile_term r;
  fl_vote : m_term req = r_volatile_term r ->
    m_vote req = 0 \/ m_vote req = r_volatile_vote r;
  fl_old : m_term req = r_term r -> r_vote r = 0 \/ r_vote r = m_vote req;
}.

Lemma in_flight_effect op r r' req :
  in_flight r req -> op_effect op r r' -> in_flight r' req.
Proof.
  intros [Hw Ht Hv Ho] He. pose proof (eff_write _ _ _ He Hw) as Hw'.
  pose proof (eff_volatile _ _ _ He) as Hvol.
  split; rewrite ?(eff_term _ _ _ He), ?(eff_vote _ _ _ He); [done|lia| |done].
  intros E. destruct Hvol as [?|[Ht' [Hv'|Hv']]]; [lia| |]; rewrite Ht' in E.
  - rewrite Hv'. auto.
  - destruct (Hv E) as [?|?]; left; congruence.
Qed.

Lemma io_begin_post r :
  raft_inv r -> r_is_write_in_progress r = true ->
  wp raft_worker_handle_io_begin (fun o r' =>
    match o with
    | None => dump_ready r /\ dump_post r r'
    | Some req => r' = r /\ in_flight r req /\ 0 < m_term req < UINT64_MAX /\
        m_state req = 0 /\ m_vclock req = None /\
        m_term req = r_volatile_term r /\ m_vote req = r_volatile_vote r
    end) r.
Proof.
  intros Hinv Hw. apply wp_bind, wp_assert. split; [done|].
  apply wp_bind, wp_assert. split; [by apply state_is_true, inv_write|].
  destruct (inv_term r Hinv) as [H0 Hle].
  apply wp_bind, wp_gets, wp_if; intros Hd.
  - assert (dump_ready r) as Hr by done. apply wp_bind.
    eapply wp_mono; [by apply end_dump_post|]. done.
  - apply wp_bind, wp_assert. split; [lia|]. apply wp_ret. split; [done|].
    split; [|pose proof (inv_term_max r Hinv); repeat split; cbn; lia].
    split; cbn; [done|lia|by right|]. intros E. apply (inv_vote r Hinv). lia.
Qed.

(** The state right after the write, before anything else is decided. *)
Record written (r : raft) (req : raft_msg) (r1 : raft) : Prop := {
  wr_eq : exists l, r1 = r <| r_term := m_term req |> <| r_vote := m_vote req |>
    <| r_is_broadcast_scheduled := true |> <| r_log := l |> /\
    last_update l = Some (visible r1);
  wr_inv : raft_inv r1;
}.

Lemma io_end_post r req :
  raft_inv r -> in_flight r req ->
  wp (raft_worker_handle_io_end req) (fun _ r' => exists r1, written r req r1 /\
    (raft_is_fully_on_disk r1 = true /\ dump_post r1 r' \/
     raft_is_fully_on_disk r1 = false /\ r' = r1)) r.
Proof.
  intros Hinv [Hw Ht Hv Ho]. apply wp_bind, wp_assert. split; [lia|].
  apply wp_bind, wp_modify, wp_bind, wp_modify, wp_bind, wp_schedule_broadcast. intros l Hl.
  set (r1 := _ <| r_log := l |>).
  assert (raft_inv r1) as Hinv1.
  { pose proof (inv_write r Hinv Hw) as Hs. pose proof (inv_term r Hinv).
    use_inv Hinv. split; cbn; try done; [lia|congruence]. }
  assert (written r req r1) as Hwr by (split; [by exists l|done]).
  apply wp_bind, wp_gets, wp_if; intros Hd.
  - eapply wp_mono; [apply (end_dump_post r1)|].
    + by split.
    + intros [] r' Hp. exists r1. split; [done|]. by left.
  - apply wp_skip. exists r1. split; [done|]. by right.
Qed.

Lemma written_fields r req r1 :
  written r req r1 -> in_flight r req ->
  r_self r1 = r_self r /\ r_term r1 = m_term req /\ r_vote r1 = m_vote req /\
  r_volatile_term r1 = r_volatile_term r /\ r_volatile_vote r1 = r_volatile_vote r /\
  r_election_quorum r1 = r_election_quorum r /\ r_state r1 = r_state r /\
  r_is_write_in_progress r1 = true /\ r_vclock r1 = r_vclock r /\ r_is_enabled r1 = r_is_enabled r.
Proof. intros [(l & -> & _) _] [Hw _ _ _]. repeat split; done. Qed.

(** ** The loop of the worker without interruption *)

(** How many turns of writing are left: none, the last, or one and the last. *)
Definition turns (r : raft) : nat :=
  if r_is_write_in_progress r then
    if r_volatile_vote r =? 0 then 2 else 1
  else 0.

Lemma handle_io_post r :
  raft_inv r -> r_is_write_in_progress r = true ->
  wp raft_worker_handle_io (fun _ r' => raft_inv r' /\ (turns r' < turns r)%nat /\
    r_volatile_term r' = r_volatile_term r /\ r_self r' = r_self r /\
    r_is_enabled r' = r_is_enabled r) r.
Proof.
  intros Hinv Hw. unfold turns at 2. rewrite Hw. apply wp_bind.
  eapply wp_mono; [by apply io_begin_post|]. intros [req|] r' H.
  - destruct H as (-> & Hfl & _ & _ & _ & Ht & Hv). apply wp_bind, wp_modify.
    set (rl := r <| r_log ::= _ |>).
    assert (raft_inv rl) as Hil by (use_inv Hinv; by split).
    assert (in_flight rl req) as Hfl' by (by destruct Hfl; split).
    eapply wp_mono; [by apply io_end_post|]. intros _ r2 (r1 & Hwr & Hcase).
    destruct (written_fields rl req r1 Hwr Hfl') as (E1 & E2 & E3 & E4 & E5 & _ & _ & _ & _ & E6).
    assert (raft_is_fully_on_disk r1 = true) as Hd.
    { unfold raft_is_fully_on_disk. rewrite E2, E3, E4, E5, Ht, Hv. cbn. by rewrite !Z.eqb_refl. }
    destruct Hcase as [[_ (Hi & He & Hnw)]|[? _]]; [|congruence]. destruct He.
    split; [done|]. split; [|cbn in *; repeat split; congruence].
    unfold turns. destruct (r_is_write_in_progress r2) eqn:Hw2; [|casep; lia].
    destruct (Hnw eq_refl) as [Hz Hnz]. rewrite E5 in Hz. cbn in Hz.
    rewrite (proj2 (Z.eqb_neq _ _) Hnz), (proj2 (Z.eqb_eq _ _) Hz). lia.
  - destruct H as [_ (Hi & He & Hnw)]. apply wp_skip. destruct He.
    split; [done|]. split; [|repeat split; congruence].
    unfold turns. destruct (r_is_write_in_progress r') eqn:Hw2; [|casep; lia].
    destruct (Hnw eq_refl) as [Hz Hnz].
    rewrite (proj2 (Z.eqb_neq _ _) Hnz), (proj2 (Z.eqb_eq _ _) Hz). lia.
Qed.

(** One turn of the loop: the write, if any, then the broadcast, if any. *)
Lemma turn_post r :
  raft_inv r ->
  wp raft_process_async_turn
    (fun idle r' => raft_inv r' /\ r_is_broadcast_scheduled r' = false /\
      r_volatile_term r' = r_volatile_term r /\
      (turns r' < turns r \/ turns r' = O)%nat /\
      (idle = true <-> r_is_write_in_progress r = false /\ r_is_broadcast_scheduled r = false)) r.
Proof.
  intros Hinv. apply wp_bind, wp_gets, wp_bind.
  apply (wp_mono _ (fun _ r1 => raft_inv r1 /\ r_volatile_term r1 = r_volatile_term r /\
    (turns r1 < turns r \/ turns r1 = O)%nat /\
    (r_is_write_in_progress r = false -> r1 = r))).
  { apply wp_if; intros Hw.
    - eapply wp_mono; [by apply handle_io_post|].
      intros _ r1 (Hi & Ht & Hv & _). do 3 (split; [by auto|]). congruence.
    - apply wp_skip. do 2 (split; [done|]). split; [|done]. right. unfold turns. by rewrite Hw. }
  intros _ r1 (Hi & Hv & Ht & Hsame). apply wp_bind, wp_gets, wp_bind.
  destruct (r_is_broadcast_scheduled r1) eqn:Hb.
  - eapply wp_mono; [by apply broadcast_post|]. intros _ r2 [(Hi2 & _ & _) ->].
    apply wp_ret. split; [done|]. split; [done|]. split; [done|]. split; [done|].
    split; [by rewrite andb_false_r|]. intros [Hw Hb0].
    rewrite (Hsame Hw) in Hb. congruence.
  - apply wp_skip, wp_ret. split; [done|]. split; [done|]. split; [done|]. split; [done|].
    destruct (r_is_write_in_progress r) eqn:Hw; [split; [done|by intros [? _]]|].
    rewrite (Hsame eq_refl) in Hb. done.
Qed.

Definition idle (r : raft) : Prop :=
  raft_inv r /\ r_is_write_in_progress r = false /\ r_is_broadcast_scheduled r = false.

Lemma turns_zero r : turns r = O <-> r_is_write_in_progress r = false.
Proof. unfold turns. destruct (r_is_write_in_progress r); [|done]. casep; done. Qed.

Lemma async_loop_post n r :
  raft_inv r -> (turns r <= n)%nat ->
  wp (raft_process_async_loop (S (S n))) (fun ended r' => ended = true /\ idle r' /\
    r_volatile_term r' = r_volatile_term r) r.
Proof.
  revert r. induction n as [|n IH]; intros r Hinv Hn.
  - apply wp_bind. eapply wp_mono; [by apply turn_post|]. intros b r1 (Hi & Hb & Hv & Ht & Hidle).
    assert (turns r1 = O) as Hz by (destruct Ht; lia).
    apply wp_if; intros E; [apply wp_ret; split; [done|]; split; [|done]; split; [done|];
      split; [by apply turns_zero|done]|].
    apply wp_bind. eapply wp_mono; [by apply turn_post|].
    intros b2 r2 (Hi2 & Hb2 & Hv2 & Ht2 & Hidle2).
    assert (b2 = true) as -> by (apply Hidle2; split; [by apply turns_zero|done]).
    apply wp_ret. split; [done|]. split; [|congruence]. split; [done|].
    split; [|done]. apply turns_zero. destruct Ht2; lia.
  - apply wp_bind. eapply wp_mono; [by apply turn_post|]. intros b r1 (Hi & Hb & Hv & Ht & Hidle).
    apply wp_if; intros E.
    + apply wp_ret. split; [done|]. split; [|done]. split; [done|]. split; [|done].
      apply turns_zero. destruct Ht; [|done]. apply Hidle in E as [Hw _].
      apply turns_zero in Hw. lia.
    + eapply wp_mono; [apply (IH r1 Hi)|]. { destruct Ht; lia. }
      intros e r2 (He & Hid & Hv2). split; [done|]. split; [done|congruence].
Qed.

(** ** Recovery *)

(** Rows a node can have written: no state and no clock. *)
Definition row_ok (m : raft_msg) : Prop :=
  0 <= m_term m < UINT64_MAX /\ m_state m = 0 /\ m_vclock m = None.

(** The term and the vote that a row leaves. *)
Definition replay_row (tv : Z * Z) (m : raft_msg) : Z * Z :=
  ((if m_term m =? 0 then tv.1 else m_term m), (if m_vote m =? 0 then tv.2 else m_vote m)).
Definition replay (rows : list raft_msg) (tv : Z * Z) : Z * Z := foldl replay_row tv rows.

Definition with_state (r : raft) (tv : Z * Z) : raft :=
  r <| r_term := tv.1 |> <| r_volatile_term := tv.1 |>
    <| r_vote := tv.2 |> <| r_volatile_vote := tv.2 |>.

Lemma recovery_row r tv m :
  row_ok m -> r_is_enabled r = false ->
  wp (raft_process_recovery m) (fun _ r' => r' = with_state r (replay_row tv m)) (with_state r tv).
Proof.
  intros (_ & Hs & Hc) He. apply wp_bind, wp_modify, wp_bind, wp_modify.
  apply wp_bind, wp_assert. split; [by apply Z.eqb_eq|].
  apply wp_bind, wp_assert. split; [by apply bool_decide_eq_true_2|].
  unfold replay_row, with_state.
  destruct (m_term m =? 0), (m_vote m =? 0); apply wp_assert; (split; [by cbn; rewrite He|done]).
Qed.

Lemma recover_spec rows r tv :
  Forall row_ok rows -> r_is_enabled r = false ->
  wp (raft_recover rows) (fun _ r' => r' = with_state r (replay rows tv)) (with_state r tv).
Proof.
  intros Hrows He. revert tv. induction Hrows as [|m rows Hm Hrows IH]; intros tv; [done|].
  apply wp_bind. eapply wp_mono; [by apply recovery_row|]. intros [] r' ->. apply IH.
Qed.

Lemma replay_term rows tv :
  Forall row_ok rows -> 0 < tv.1 < UINT64_MAX -> 0 < (replay rows tv).1 < UINT64_MAX.
Proof.
  intros Hrows. revert tv. induction Hrows as [|m rows (Hm & _) Hrows IH]; intros tv Htv; [done|].
  apply IH. unfold replay_row. cbn. casep; lia.
Qed.

Lemma with_state_inv r tv :
  raft_inv r -> r_is_enabled r = false -> r_is_write_in_progress r = false ->
  0 < tv.1 < UINT64_MAX -> raft_inv (with_state r tv).
Proof.
  intros Hinv He Hw Htv.
  assert (r_is_candidate r = false) as Hc.
  { destruct (r_is_candidate r) eqn:E; [|done]. pose proof (inv_enabled r Hinv E). congruence. }
  pose proof (not_candidate_follower r Hinv Hc) as Hs.
  use_inv Hinv. split; cbn; try done; [lia|lia| | |congruence].
  - intros _. unfold raft_is_fully_on_disk. cbn. by rewrite !Z.eqb_refl.
  - by right.
Qed.

Lemma recovered_inv rows now rnd :
  Forall row_ok rows ->
  wp (raft_recover rows) (fun _ r' => r' = with_state (raft_create now rnd) (replay rows (1, 0)) /\
    raft_inv r') (raft_create now rnd).
Proof.
  intros Hrows. eapply wp_mono.
  - apply (recover_spec rows (raft_create now rnd) (1, 0) Hrows). done.
  - intros [] r' ->. split; [done|]. apply with_state_inv; [apply create_inv|done|done|].
    apply replay_term; [done|]. unfold UINT64_MAX. cbn. lia.
Qed.

(** ** A node with its worker

    A node is its state and the message the worker is writing, if it is inside
    of raft_worker_handle_io.  The worker does not broadcast while it writes;
    every other call can come at any time. *)

Record node := mk_node {
  n_raft : raft;
  n_writing : option raft_msg;
}.

Definition node_init (n : node) : Prop :=
  n_writing n = None /\ exists now rnd rows, Forall row_ok rows /\
    raft_recover rows (raft_create now rnd) = Done (tt, n_raft n).

Inductive node_step : node -> node -> Prop :=
| ns_call op r r' w :
    op_pre op r -> (op = op_broadcast -> w = None) ->
    run_op op r = Done (tt, r') ->
    node_step (mk_node r w) (mk_node r' w)
| ns_write_begin r r' w :
    r_is_write_in_progress r = true ->
    raft_worker_handle_io_begin r = Done (w, r') ->
    node_step (mk_node r None) (mk_node r' w)
| ns_write_end r r' req :
    raft_worker_handle_io_end req r = Done (tt, r') ->
    node_step (mk_node r (Some req)) (mk_node r' None).

Definition node_inv (n : node) : Prop :=
  raft_inv (n_raft n) /\ forall req, n_writing n = Some req -> in_flight (n_raft n) req.

Lemma node_init_inv n : node_init n -> node_inv n.
Proof.
  intros (Hw & now & rnd & rows & Hrows & Hrec). split; [|congruence].
  exact (proj2 (wp_Done _ _ _ _ _ (recovered_inv rows now rnd Hrows) Hrec)).
Qed.

Lemma node_step_inv n n' : node_inv n -> node_step n n' -> node_inv n'.
Proof.
  intros [Hinv Hfl] Hstep. destruct Hstep as [op r r' w Hpre _ Hrun|r r' w Hw Hrun|r r' req Hrun].
  - destruct (wp_Done _ _ _ _ _ (op_correct op r Hinv Hpre) Hrun) as (Hi & He & _).
    split; [done|]. intros req Hreq. apply (in_flight_effect op r); [by apply Hfl|done].
  - pose proof (wp_Done _ _ _ _ _ (io_begin_post r Hinv Hw) Hrun) as H.
    destruct w as [req|]; [destruct H as (-> & H & _)|destruct H as [_ [Hi _]]].
    + split; [done|]. by intros req' [= <-].
    + by split.
  - destruct (wp_Done _ _ _ _ _ (io_end_post r req Hinv (Hfl req eq_refl)) Hrun)
      as (r1 & Hwr & [[_ [Hi _]]|[_ ->]]); (split; [|done]); [done|apply Hwr].
Qed.

Lemma node_reachable_inv n : reachable node_init node_step n -> node_inv n.
Proof.
  apply reachable_invariant; [apply node_init_inv|]. intros; by eapply node_step_inv.
Qed.

(** ** Theorems *)

(** A concrete execution for the witnesses: instance 1 of a cluster with a
    quorum of two gets its id and clock, is enabled as a candidate, and hears a
    message of instance 2 in term 3. *)
Definition clock0 : vclock := mk_vclock 0 0 (replicate 32 0).

Lemma clock0_ok : vclock_ok clock0.
Proof. apply vclock_okb_ok. vm_compute. reflexivity. Qed.

Definition boot_ops : list raft_op :=
  [op_cfg_instance_id 1; op_cfg_vclock clock0; op_cfg_election_quorum 2;
   op_cfg_is_candidate true; op_cfg_is_enabled true].

Fixpoint run_ops (ops : list raft_op) (r : raft) : outcome (unit * raft) :=
  match ops with
  | [] => Done (tt, r)
  | op :: ops => match run_op op r with Done (_, r) => run_ops ops r | Abort => Abort end
  end.

Definition result (o : outcome (unit * raft)) : raft :=
  match o with Done (_, r) => r | Abort => raft_create d_zero [] end.

Definition node1 : raft := result (run_ops boot_ops (raft_create d_zero [])).
Definition msg2 : raft_msg := mk_raft_msg 3 0 1 None.
Definition node1_busy : raft := result (run_op (op_msg msg2 2) node1).

#[local] Opaque node1 node1_busy.

Lemma reach_op r op r' w :
  reachable node_init node_step (mk_node r w) -> op_pre op r ->
  (op = op_broadcast -> w = None) -> run_op op r = Done (tt, r') ->
  reachable node_init node_step (mk_node r' w).
Proof. intros Hr Hpre Hb Hrun. eapply reach_step; [exact Hr|by apply (ns_call op)]. Qed.

Lemma node1_reachable : reachable node_init node_step (mk_node node1 None).
Proof.
  assert (reachable node_init node_step (mk_node (raft_create d_zero []) None)) as H.
  { apply reach_init. split; [done|]. by exists d_zero, [], []. }
  eapply (reach_op _ (op_cfg_instance_id 1)) in H; [|done..].
  eapply (reach_op _ (op_cfg_vclock clock0)) in H; [|by split; [|apply clock0_ok]|done|by vm_compute].
  eapply (reach_op _ (op_cfg_election_quorum 2)) in H; [|done|done|by vm_compute].
  eapply (reach_op _ (op_cfg_is_candidate true)) in H; [|done|done|by vm_compute].
  eapply (reach_op _ (op_cfg_is_enabled true)) in H; [| |done|by vm_compute].
  - exact H.
  - split; [done|]. exists clock0. split; [done|apply clock0_ok].
Qed.

Lemma node1_busy_reachable : reachable node_init node_step (mk_node node1_busy None).
Proof.
  eapply (reach_op node1 (op_msg msg2 2)); [exact node1_reachable| |done|by vm_compute].
  vm_compute. repeat split; congruence.
Qed.

(** C2: In every state a node can reach by calls of the interface interleaved
    in any way with the two halves of the worker's WAL write, the invariant
    holds, both halves of the write return, and so does every call that keeps
    the preconditions of its function (instances have ids from 1 to 31, the
    node is configured before it is enabled, the election timeout and the
    quorum are positive, the timer fires only when it runs, and terms stay
    below the greatest number), with one exception: raft_cfg_death_timeout
    aborts, and exactly then, when it changes the timeout of a candidate that
    knows a leader while a write is in progress. To return means that no
    assertion of raft.c fails, no null clock is read and no vote is recorded
    outside of the vote mask. *)
Theorem raft_calls_never_abort n :
  reachable node_init node_step n ->
  raft_inv (n_raft n) /\
  (forall op, op_pre op (n_raft n) -> exists r', run_op op (n_raft n) = Done (tt, r')) /\
  (r_is_write_in_progress (n_raft n) = true -> n_writing n = None ->
   exists w r', raft_worker_handle_io_begin (n_raft n) = Done (w, r')) /\
  (forall req, n_writing n = Some req ->
   exists r', raft_worker_handle_io_end req (n_raft n) = Done (tt, r')) /\
  (forall d, raft_cfg_death_timeout d (n_raft n) = Abort <-> death_timeout_fails d (n_raft n) = true).
Proof.
  intros Hr. destruct (node_reachable_inv n Hr) as [Hinv Hfl]. split; [done|]. split; [|split; [|split; [|intros d; by apply cfg_death_timeout_abort]]].
  - intros op Hpre. pose proof (op_correct op _ Hinv Hpre) as H.
    apply wp_total in H as ([] & r' & H & _). by exists r'.
  - intros Hw _. pose proof (io_begin_post _ Hinv Hw) as H.
    apply wp_total in H as (w & r' & H & _). by exists w, r'.
  - intros req Hreq. pose proof (io_end_post _ _ Hinv (Hfl req Hreq)) as H.
    apply wp_total in H as ([] & r' & H & _). by exists r'.
Qed.

Lemma raft_calls_never_abort_witness :
  reachable node_init node_step (mk_node node1_busy None) /\
  (exists r', run_op op_promote node1_busy = Done (tt, r')) /\
  exists w r', raft_worker_handle_io_begin node1_busy = Done (w, r').
Proof.
  split; [exact node1_busy_reachable|].
  destruct (raft_calls_never_abort _ node1_busy_reachable) as (_ & Hop & Hbegin & _).
  cbn [n_raft n_writing] in Hop, Hbegin.
  assert (op_pre op_promote node1_busy) as Hpre by (vm_compute; reflexivity).
  assert (r_is_write_in_progress node1_busy = true) as Hw by (vm_compute; reflexivity).
  split; [exact (Hop op_promote Hpre)|exact (Hbegin Hw eq_refl)].
Defined.

(** What the worker does to the vote. *)
Definition vote_kept (r r' : raft) : Prop :=
  r_volatile_term r' = r_volatile_term r /\ r_self r' = r_self r /\
  (r_volatile_vote r' = r_volatile_vote r \/ r_volatile_vote r = 0 /\ r_volatile_vote r' = r_self r).
Lemma dump_keeps_vote r r' : dump_post r r' -> vote_kept r r'.
Proof. intros (_ & H & _). split; [apply (dump_volatile_term _ _ H)|]. split; [apply (dump_self _ _ H)|apply (dump_volatile_vote _ _ H)]. Qed.
Lemma begin_keeps_vote r w r' : raft_inv r -> r_is_write_in_progress r = true -> raft_worker_handle_io_begin r = Done (w, r') -> vote_kept r r'.
Proof.
  intros Hinv Hw Hrun. pose proof (wp_Done _ _ _ _ _ (io_begin_post r Hinv Hw) Hrun) as H.
  destruct w; [destruct H as (-> & _); repeat split; by left|]. destruct H as [_ H]. by apply dump_keeps_vote.
Qed.
Lemma end_keeps_vote r req r' : raft_inv r -> in_flight r req -> raft_worker_handle_io_end req r = Done (tt, r') -> vote_kept r r'.
Proof.
  intros Hinv Hfl Hrun. destruct (wp_Done _ _ _ _ _ (io_end_post r req Hinv Hfl) Hrun) as (r1 & [(l & -> & _) _] & H).
  destruct H as [[_ H%dump_keeps_vote]|[_ ->]]; [exact H|]. repeat split. by left.
Qed.

(** C7: The voting rule of Raft, for every step of a node after its recovery,
    be it a call of the interface or one of the two halves of the worker's
    write, in any interleaving: the volatile term never decreases; within a
    term a vote once given is never changed; and a vote after the step that is
    not the one before it in the same term is none, a vote for this node itself,
    or the answer to a request that the candidate itself sent in this very term,
    when the node is enabled and its clock is not ahead of the candidate's
    clock in any component except the local one.  The worker gives no vote but
    to the node itself.  What the recovery makes of the rows is not a step. *)
Theorem raft_vote_rule n n' :
  reachable node_init node_step n -> node_step n n' ->
  let r := n_raft n in let r' := n_raft n' in
  (r_volatile_term r < r_volatile_term r' \/
   r_volatile_term r' = r_volatile_term r /\
   (r_volatile_vote r' = r_volatile_vote r \/ r_volatile_vote r = 0)) /\
  (r_volatile_vote r' = 0 \/ r_volatile_vote r' = r_self r \/
   r_volatile_term r' = r_volatile_term r /\ r_volatile_vote r' = r_volatile_vote r \/
   exists op, run_op op r = Done (tt, r') /\ granted op r (r_volatile_term r') (r_volatile_vote r')).
Proof.
  intros Hr Hstep. destruct (node_reachable_inv n Hr) as [Hinv Hfl].
  assert (forall r r', vote_kept r r' ->
    (r_volatile_term r < r_volatile_term r' \/ r_volatile_term r' = r_volatile_term r /\ (r_volatile_vote r' = r_volatile_vote r \/ r_volatile_vote r = 0)) /\
    (r_volatile_vote r' = 0 \/ r_volatile_vote r' = r_self r \/ r_volatile_term r' = r_volatile_term r /\ r_volatile_vote r' = r_volatile_vote r \/
     exists op, run_op op r = Done (tt, r') /\ granted op r (r_volatile_term r') (r_volatile_vote r'))) as Hk.
  { intros r r' (H1 & _ & H2). naive_solver. }
  destruct Hstep as [op r r' w Hpre _ Hrun|r r' w Hw Hrun|r r' req Hrun]; cbn [n_raft n_writing] in *.
  - destruct (wp_Done _ _ _ _ _ (op_correct op r Hinv Hpre) Hrun) as (_ & He & _). pose proof (eff_volatile _ _ _ He). pose proof (eff_given _ _ _ He). naive_solver.
  - by eapply Hk, begin_keeps_vote.
  - by eapply Hk, end_keeps_vote; [|apply Hfl|].
Qed.

(** A vote request of instance 2 in term 4, and the node that answered it. *)
Definition vote_req2 : raft_msg := mk_raft_msg 4 2 2 (Some clock0).
Definition node1_voted : raft := result (run_op (op_msg vote_req2 2) node1).
#[local] Opaque node1_voted.

Lemma vote_req2_pre : op_pre (op_msg vote_req2 2) node1.
Proof.
  split; [vm_compute; split; congruence|]. split; [vm_compute; congruence|].
  split; [vm_compute; reflexivity|]. split; [vm_compute; congruence|].
  split; [vm_compute; reflexivity|]. intros v [= <-]. exact clock0_ok.
Qed.

Lemma raft_vote_rule_witness :
  r_volatile_vote node1_voted = 2 /\ r_volatile_term node1_voted = 4 /\
  exists op, run_op op node1 = Done (tt, node1_voted) /\ granted op node1 4 2.
Proof.
  assert (r_volatile_vote node1_voted = 2) as Hv by (vm_compute; reflexivity).
  assert (r_volatile_term node1_voted = 4) as Ht by (vm_compute; reflexivity).
  assert (run_op (op_msg vote_req2 2) node1 = Done (tt, node1_voted)) as Hrun
    by (vm_compute; reflexivity).
  pose proof (raft_vote_rule _ (mk_node node1_voted None) node1_reachable
    (ns_call (op_msg vote_req2 2) _ _ None vote_req2_pre ltac:(done) Hrun)) as [_ H]. cbn [n_raft] in H.
  split; [exact Hv|]. split; [exact Ht|].
  destruct H as [H|[H|[[H _]|H]]].
  - rewrite Hv in H. discriminate.
  - vm_compute in H. discriminate.
  - vm_compute in H. discriminate.
  - rewrite Ht, Hv in H. exact H.
Defined.

(** C15: The loop of the worker ends when nothing interrupts it: from any
    state of the invariant, if no other call runs between the two halves of
    its WAL writes, raft_process_async stops after at most four turns, without
    an abort (the final assertion holds), with the term of the volatile state
    on disk, nothing left to write and nothing left to broadcast. A real write
    yields, and calls that change the volatile state during it can make the
    loop turn more often; no bound is claimed for these executions. *)
Theorem raft_process_async_terminates r :
  raft_inv r ->
  exists r', raft_process_async 4 r = Done (true, r') /\ idle r' /\
    r_term r' = r_volatile_term r /\ raft_is_fully_on_disk r' = true.
Proof.
  intros Hinv.
  assert (wp (raft_process_async 4) (fun b r' => b = true /\ idle r' /\
    r_volatile_term r' = r_volatile_term r /\ raft_is_fully_on_disk r' = true) r) as H.
  { apply wp_bind. eapply wp_mono; [apply (async_loop_post 2 r Hinv)|].
    { unfold turns. repeat casep; lia. }
    intros b r' (-> & Hid & Hv). apply wp_bind, wp_assert.
    pose proof Hid as (Hi & Hw & _). pose proof (inv_disk r' Hi Hw) as Hd.
    split; [done|]. apply wp_ret. done. }
  apply wp_total in H as (b & r' & E & -> & Hid & Hv & Hd). exists r'.
  split; [done|]. split; [done|]. split; [|done].
  unfold raft_is_fully_on_disk in Hd. boolp. congruence.
Qed.

Lemma raft_process_async_terminates_witness :
  raft_inv node1_voted /\
  exists r', raft_process_async 4 node1_voted = Done (true, r') /\ idle r' /\ r_term r' = 4.
Proof.
  assert (raft_inv node1_voted) as Hinv.
  { assert (reachable node_init node_step (mk_node node1_voted None)) as Hr.
    { apply (reach_op node1 (op_msg vote_req2 2)); [exact node1_reachable|exact vote_req2_pre|
        congruence|vm_compute; reflexivity]. }
    exact (proj1 (node_reachable_inv _ Hr)). }
  split; [exact Hinv|].
  destruct (raft_process_async_terminates node1_voted Hinv) as (r' & E & Hid & Ht & _).
  exists r'. split; [exact E|]. split; [exact Hid|]. rewrite Ht. vm_compute. reflexivity.
Defined.

(** Every change of the visible state (role, leader, persisted term and
    vote) is announced.  After any call in a reachable state either nothing
    visible has changed, or the last run of the update triggers saw exactly the
    state the call left; the one exception is a node that is not a candidate and
    whose leader steps down.  The worker announces its changes without
    exception. *)
Theorem raft_changes_announced n :
  reachable node_init node_step n ->
  let r := n_raft n in
  (forall op r', op_pre op r -> run_op op r = Done (tt, r') ->
   visible r' = visible r \/ last_update (r_log r') = Some (visible r') \/ resigned op r) /\
  (forall w r', r_is_write_in_progress r = true ->
   raft_worker_handle_io_begin r = Done (w, r') ->
   visible r' = visible r \/ last_update (r_log r') = Some (visible r')) /\
  (forall req r', n_writing n = Some req -> raft_worker_handle_io_end req r = Done (tt, r') ->
   last_update (r_log r') = Some (visible r')).
Proof.
  intros Hr r. destruct (node_reachable_inv n Hr) as [Hinv Hfl]. split; [|split].
  - intros op r' Hpre Hrun.
    destruct (wp_Done _ _ _ _ _ (op_correct op r Hinv Hpre) Hrun) as (_ & _ & Ha).
    destruct Ha as [[Hv _]|[Ha|Ha]]; auto.
  - intros w r' Hw Hrun. pose proof (wp_Done _ _ _ _ _ (io_begin_post r Hinv Hw) Hrun) as H.
    destruct w; [destruct H as [-> _]; by left|]. destruct H as [_ (_ & He & _)].
    destruct (dump_log _ _ He) as [[Hv _]|Hl]; auto.
  - intros req r' Hreq Hrun.
    destruct (wp_Done _ _ _ _ _ (io_end_post r req Hinv (Hfl req Hreq)) Hrun)
      as (r1 & [(l & -> & Hl) _] & [[_ (_ & He & _)]|[_ ->]]); [|done].
    destruct (dump_log _ _ He) as [[Hv Hlog]|Hl2]; [|done]. by rewrite Hlog, Hv.
Qed.

(** Instance 2 announces itself as the leader of term 1. *)
Definition leader_msg2 : raft_msg := mk_raft_msg 1 0 3 None.
Definition node1_follows : raft := result (run_op (op_msg leader_msg2 2) node1).
#[local] Opaque node1_follows.

Lemma raft_changes_announced_witness :
  reachable node_init node_step (mk_node node1 None) /\
  r_leader node1 = 0 /\ r_leader node1_follows = 2 /\
  last_update (r_log node1_follows) = Some (visible node1_follows).
Proof.
  split; [exact node1_reachable|]. split; [vm_compute; reflexivity|].
  split; [vm_compute; reflexivity|].
  pose proof (raft_changes_announced _ node1_reachable) as (Hop & _ & _).
  cbn [n_raft n_writing] in Hop.
  assert (op_pre (op_msg leader_msg2 2) node1) as Hpre by (vm_compute; repeat split; congruence).
  assert (run_op (op_msg leader_msg2 2) node1 = Done (tt, node1_follows)) as Hrun
    by (vm_compute; reflexivity).
  destruct (Hop (op_msg leader_msg2 2) node1_follows Hpre Hrun) as [H|[H|H]].
  - vm_compute in H. discriminate.
  - exact H.
  - destruct H as (rq & src & _ & _ & _ & Hc). vm_compute in Hc. discriminate.
Defined.

(** ** Executions against the comments *)

(** Raft_cfg_death_timeout fails its assertion that the timer is active when
    the timeout is changed while the node, a candidate, writes a new term and has
    already learned the leader of that term: the state is reachable, and the
    call aborts in it.  The sister function raft_cfg_election_timeout tests
    is_write_in_progress and returns in the same state. *)
Theorem raft_death_timeout_aborts :
  exists n timeout, reachable node_init node_step n /\
    raft_cfg_death_timeout timeout (n_raft n) = Abort /\
    exists r', raft_cfg_election_timeout timeout (n_raft n) = Done (tt, r').
Proof.
  set (m := mk_raft_msg 3 0 3 None).
  exists (mk_node (result (run_op (op_msg m 2) node1_busy)) None), (d_of_Z 3). split; [|split].
  - eapply (reach_op node1_busy (op_msg m 2)); [exact node1_busy_reachable| |done|by vm_compute].
    vm_compute. repeat split; congruence.
  - vm_compute. reflexivity.
  - eexists. vm_compute. reflexivity.
Qed.

(** When the leader steps down, a follower that is not a candidate forgets it
    without running the update triggers: the leader it shows changes while the
    log of calls stays as it was, although the triggers are documented to run
    each time a visible attribute changes. *)
Theorem raft_resign_not_announced r req source :
  raft_inv r -> op_pre (op_msg req source) r ->
  r_is_candidate r = false -> source = r_leader r ->
  m_term req = r_volatile_term r -> m_vote req = 0 -> m_state req = 1 ->
  exists r', raft_process_msg req source r = Done (0, r') /\
    r_leader r <> 0 /\ r_leader r' = 0 /\ r_log r' = r_log r.
Proof.
  intros Hinv (Hsrc & Hne & _) Hc Hl Ht Hv Hs.
  pose proof (inv_term r Hinv). exists (r <| r_leader := 0 |>).
  split; [|split; [lia|done]]. unfold raft_process_msg, mbind, prog_bind, assert.
  replace (0 <? source) with true by lia.
  replace (source =? r_self r) with false by lia. cbn [negb].
  rewrite Hs, Hv, Ht. replace (r_volatile_term r =? 0) with false by lia.
  cbn [orb andb Z.eqb raft_state_code raft_state_MAX Z.leb Z.compare Pos.compare Pos.compare_cont
       Pos.eqb negb gets].
  rewrite Z.ltb_irrefl. cbn [skip mret prog_ret]. rewrite Hl, Z.eqb_refl.
  unfold modify. cbn. by rewrite Hc.
Qed.

(** A voter that follows instance 2. *)
Definition node1_voter : raft := result (run_op (op_cfg_is_candidate false) node1_follows).
#[local] Opaque node1_voter.

Lemma node1_voter_inv : raft_inv node1_voter.
Proof.
  assert (reachable node_init node_step (mk_node node1_follows None)) as Hr.
  { eapply (reach_op node1 (op_msg leader_msg2 2)); [exact node1_reachable| |done|by vm_compute].
    vm_compute. repeat split; congruence. }
  eapply (reach_op _ (op_cfg_is_candidate false) node1_voter) in Hr; [|done|done|by vm_compute].
  exact (proj1 (node_reachable_inv _ Hr)).
Qed.

Lemma raft_resign_not_announced_witness :
  exists r', raft_process_msg (mk_raft_msg 1 0 1 None) 2 node1_voter = Done (0, r') /\
    r_leader node1_voter <> 0 /\ r_leader r' = 0 /\ r_log r' = r_log node1_voter.
Proof.
  assert (op_pre (op_msg (mk_raft_msg 1 0 1 None) 2) node1_voter) as Hpre
    by (vm_compute; repeat split; congruence).
  assert (r_is_candidate node1_voter = false) as Hc by (vm_compute; reflexivity).
  assert (2 = r_leader node1_voter) as Hl by (vm_compute; reflexivity).
  assert (1 = r_volatile_term node1_voter) as Ht by (vm_compute; reflexivity).
  exact (raft_resign_not_announced node1_voter (mk_raft_msg 1 0 1 None) 2 node1_voter_inv
    Hpre Hc Hl Ht eq_refl eq_refl).
Defined.

(** Replaying a row that starts a new term without a vote keeps the vote of an
    older term: the node that wrote the row had not voted in the new term, the
    recovered node believes that it voted there for the instance it chose
    before, and tells so to the others. *)
Theorem raft_recovery_keeps_old_vote now rnd rows term :
  Forall row_ok rows -> 0 < term < UINT64_MAX ->
  let row := mk_raft_msg term 0 0 None in
  let old := (replay rows (1, 0)).2 in
  exists r', raft_recover (rows ++ [row]) (raft_create now rnd) = Done (tt, r') /\
    r_term r' = term /\ r_vote r' = old /\ r_volatile_vote r' = old /\
    m_vote (raft_checkpoint_remote r') = old.
Proof.
  intros Hrows Ht row old.
  assert (Forall row_ok (rows ++ [row])) as Hrows'.
  { apply Forall_app. split; [done|]. constructor; [|done]. unfold row_ok. cbn. split; [lia|done]. }
  pose proof (recovered_inv (rows ++ [row]) now rnd Hrows') as H.
  apply wp_total in H as ([] & r' & E & -> & _). eexists. split; [exact E|].
  unfold replay. rewrite foldl_snoc. unfold replay_row. cbn.
  replace (term =? 0) with false by lia. done.
Qed.

Lemma raft_recovery_keeps_old_vote_witness :
  exists r', raft_recover [mk_raft_msg 2 3 0 None; mk_raft_msg 3 0 0 None]
      (raft_create d_zero []) = Done (tt, r') /\ r_term r' = 3 /\ r_vote r' = 3.
Proof.
  assert (Forall row_ok [mk_raft_msg 2 3 0 None]) as Hrows.
  { constructor; [|constructor]. split; [vm_compute; split; congruence|split; reflexivity]. }
  assert (0 < 3 < UINT64_MAX) as Ht by (vm_compute; split; reflexivity).
  destruct (raft_recovery_keeps_old_vote d_zero [] [mk_raft_msg 2 3 0 None] 3 Hrows Ht)
    as (r' & E & H1 & H2 & _).
  exists r'. split; [exact E|]. split; [exact H1|exact H2].
Defined.

(** A node promoted against its configuration that is not elected in time
    votes for itself in the next term without being a candidate there: after the
    timer has fired and the vote is written, it is a follower without a timer,
    and cannot vote for anybody else in that term. *)
Theorem raft_promoted_timeout_wastes_vote :
  exists r0 r r', reachable node_init node_step (mk_node r0 None) /\
    run_op op_promote r0 = Done (tt, r) /\
    (exists r1 r2, raft_process_async 4 r = Done (true, r1) /\
      r_state r1 = RAFT_STATE_CANDIDATE /\ run_op op_timer r1 = Done (tt, r2) /\
      raft_process_async 4 r2 = Done (true, r')) /\
    r_vote r' = r_self r' /\ r_term r' = r_volatile_term r + 1 /\
    r_state r' = RAFT_STATE_FOLLOWER /\ r_is_candidate r' = false /\
    t_active (r_timer r') = false.
Proof.
  set (r0 := result (run_op (op_cfg_is_candidate false) node1)).
  set (r := result (run_op op_promote r0)).
  set (r1 := match raft_process_async 4 r with Done (_, s) => s | Abort => r end).
  set (r2 := result (run_op op_timer r1)).
  set (r' := match raft_process_async 4 r2 with Done (_, s) => s | Abort => r end).
  exists r0, r, r'. split.
  { eapply (reach_op node1 (op_cfg_is_candidate false)); [exact node1_reachable|done|done|].
    by vm_compute. }
  split; [by vm_compute|]. split.
  { exists r1, r2. do 3 (split; [vm_compute; reflexivity|]). vm_compute; reflexivity. }
  do 4 (split; [vm_compute; reflexivity|]). vm_compute; reflexivity.
Qed.
