(* ===== verification/RaftSafety.v ===== *)
(** * Leader election: a cluster of nodes

    Nodes that run the code of [Raft], a network that can lose, duplicate and
    reorder messages, and disks: a node can crash at any moment, also in the
    middle of a WAL write, and starts again from the rows that reached the
    disk.  The theorem of this file is the safety of the election: at most one
    node is ever a leader in a term. *)

From S2P Require Import Prelude Bits Vclock Double Raft RaftNode.

Open Scope Z_scope.
#[local] Arguments replay : simpl never.

(** ** A node of the cluster *)

(** The start of an instance: replay of the WAL, then the id, the clock and the
    quorum, as box_cfg_xc does it; Raft is still disabled. *)
Definition raft_boot (id : Z) (v : vclock) (quorum : Z) (rows : list raft_msg) : rprog unit :=
  raft_recover rows;;
  raft_cfg_instance_id id;;
  raft_cfg_vclock (Some v);;
  raft_cfg_election_quorum quorum.

(** [cn_write] is the row the worker is writing and whether it has reached the
    disk; [cn_wal] are the rows on disk. *)
Record cnode := mk_cnode {
  cn_raft : raft;
  cn_write : option (raft_msg * bool);
  cn_wal : list raft_msg;
}.

(** [c_claims] and [c_elected] are history: every vote (node, term, vote) a node
    ever had as its persisted state, and every (term, node) with the node in
    the state of a leader. *)
Record cluster := mk_cluster {
  c_node : Z -> cnode;
  c_net : list (Z * raft_msg);
  c_claims : list (Z * Z * Z);
  c_elected : list (Z * Z);
}.

Definition claims_of (i : Z) (r : raft) : list (Z * Z * Z) :=
  if r_vote r =? 0 then [] else [(i, r_term r, r_vote r)].
Definition elected_of (i : Z) (r : raft) : list (Z * Z) :=
  if state_is RAFT_STATE_LEADER r then [(r_term r, i)] else [].

(** Node [i] moves to [nd] and sends [out]. *)
Definition move (c : cluster) (i : Z) (nd : cnode) (out : list raft_msg) : cluster :=
  mk_cluster (fun j => if j =? i then nd else c_node c j)
    (((fun m => (i, m)) <$> out) ++ c_net c)
    (claims_of i (cn_raft nd) ++ c_claims c)
    (elected_of i (cn_raft nd) ++ c_elected c).

(** Calls of the interface other than messages and broadcasts. *)
Definition local_op (op : raft_op) : bool :=
  match op with
  | op_msg _ _ | op_broadcast => false
  | _ => true
  end.

Section Cluster.
(** The instances of the cluster. *)
Context (ids : list Z).
Context (ids_range : forall i, i ∈ ids -> 0 < i < 32).

Definition majority (q : Z) : Prop := Z.of_nat (length ids) < 2 * q.

(** The quorum a call configures. *)
Definition op_majority (op : raft_op) : Prop :=
  match op with op_cfg_election_quorum q => majority q | _ => True end.

Inductive cluster_step (c : cluster) : cluster -> Prop :=
| cs_call i op r w wal r' :
    i ∈ ids -> c_node c i = mk_cnode r w wal ->
    local_op op = true -> op_pre op r -> op_majority op ->
    run_op op r = Done (tt, r') ->
    cluster_step c (move c i (mk_cnode r' w wal) [])
| cs_receive i source req r w wal r' :
    i ∈ ids -> c_node c i = mk_cnode r w wal ->
    (source, req) ∈ c_net c -> op_pre (op_msg req source) r ->
    run_op (op_msg req source) r = Done (tt, r') ->
    cluster_step c (move c i (mk_cnode r' w wal) [])
| cs_broadcast i r wal r' :
    i ∈ ids -> c_node c i = mk_cnode r None wal ->
    r_is_broadcast_scheduled r = true ->
    raft_worker_handle_broadcast r = Done (tt, r') ->
    (* the message the worker gave to the virtual table *)
    forall req, head (r_log r') = Some (ev_broadcast req) ->
    cluster_step c (move c i (mk_cnode r' None wal) [req])
| cs_subscribe i r w wal :
    i ∈ ids -> c_node c i = mk_cnode r w wal ->
    cluster_step c (move c i (mk_cnode r w wal) [raft_checkpoint_remote r])
| cs_write_begin i r wal w r' :
    i ∈ ids -> c_node c i = mk_cnode r None wal ->
    r_is_write_in_progress r = true ->
    raft_worker_handle_io_begin r = Done (w, r') ->
    cluster_step c (move c i (mk_cnode r' ((fun m => (m, false)) <$> w) wal) [])
| cs_write_durable i r req wal :
    i ∈ ids -> c_node c i = mk_cnode r (Some (req, false)) wal ->
    cluster_step c (move c i (mk_cnode r (Some (req, true)) (wal ++ [req])) [])
| cs_write_end i r req wal r' :
    i ∈ ids -> c_node c i = mk_cnode r (Some (req, true)) wal ->
    raft_worker_handle_io_end req r = Done (tt, r') ->
    cluster_step c (move c i (mk_cnode r' None wal) [])
| cs_crash i r w wal v quorum now rnd r' :
    i ∈ ids -> c_node c i = mk_cnode r w wal ->
    vclock_ok v -> 0 < quorum -> majority quorum ->
    raft_boot i v quorum wal (raft_create now rnd) = Done (tt, r') ->
    cluster_step c (move c i (mk_cnode r' None wal) []).

Definition cluster_init (c : cluster) : Prop :=
  c_net c = [] /\ c_claims c = [] /\ c_elected c = [] /\
  forall i, i ∈ ids -> exists v quorum now rnd r,
    vclock_ok v /\ 0 < quorum /\ majority quorum /\
    raft_boot i v quorum [] (raft_create now rnd) = Done (tt, r) /\
    c_node c i = mk_cnode r None [].

(** ** The invariant *)

(** [i] has the votes of a majority in [t]. *)
Definition won (claims : list (Z * Z * Z)) (t i : Z) : Prop :=
  exists voters, NoDup voters /\ majority (Z.of_nat (length voters)) /\
    forall j, j ∈ voters -> (j, t, i) ∈ claims.

Record node_ok (claims : list (Z * Z * Z)) (i : Z) (nd : cnode) : Prop := {
  ok_inv : raft_inv (cn_raft nd);
  ok_self : r_self (cn_raft nd) = i;
  ok_quorum : majority (r_election_quorum (cn_raft nd));
  ok_write : forall req b, cn_write nd = Some (req, b) ->
    in_flight (cn_raft nd) req /\ row_ok req /\ 0 < m_term req;
  ok_rows : Forall row_ok (cn_wal nd);
  (** What the disk would give back after a crash. *)
  ok_disk : let tv := replay (cn_wal nd) (1, 0) in
    match cn_write nd with
    | Some (req, true) => tv.1 = m_term req /\ (m_vote req <> 0 -> tv.2 = m_vote req)
    | _ => tv.1 = r_term (cn_raft nd) /\
           (r_vote (cn_raft nd) <> 0 -> tv.2 = r_vote (cn_raft nd))
    end;
  (** A vote of the past is in an older term, or the present vote. *)
  ok_claims : forall t v, (i, t, v) ∈ claims ->
    v <> 0 /\ (t < r_term (cn_raft nd) \/ t = r_term (cn_raft nd) /\ v = r_vote (cn_raft nd));
  ok_mask : r_state (cn_raft nd) = RAFT_STATE_CANDIDATE ->
    forall k, 0 <= k < 32 -> Z.testbit (r_vote_mask (cn_raft nd)) k = true ->
    (k, r_term (cn_raft nd), i) ∈ claims;
  ok_leader : r_state (cn_raft nd) = RAFT_STATE_LEADER ->
    won claims (r_term (cn_raft nd)) i;
}.

Record cluster_inv (c : cluster) : Prop := {
  ci_nodes : forall i, i ∈ ids -> node_ok (c_claims c) i (c_node c i);
  ci_unique : forall i t v w, (i, t, v) ∈ c_claims c -> (i, t, w) ∈ c_claims c -> v = w;
  ci_ids : forall i t v, (i, t, v) ∈ c_claims c -> i ∈ ids;
  ci_net : forall i m, (i, m) ∈ c_net c -> m_vote m <> 0 ->
    (i, m_term m, m_vote m) ∈ c_claims c;
  ci_elected : forall t i, (t, i) ∈ c_elected c -> won (c_claims c) t i;
}.

Lemma won_mono claims claims' t i : claims ⊆ claims' -> won claims t i -> won claims' t i.
Proof. intros Hsub (vs & Hnd & Hm & Hv). exists vs. split; [done|]. split; [done|]. auto. Qed.

Lemma claims_of_in i r x : x ∈ claims_of i r -> x = (i, r_term r, r_vote r) /\ r_vote r <> 0.
Proof.
  unfold claims_of. destruct (Z.eqb_spec (r_vote r) 0); [by intros ?%not_elem_of_nil|].
  by intros ->%list_elem_of_singleton.
Qed.

Lemma claims_of_own i r : r_vote r <> 0 -> (i, r_term r, r_vote r) ∈ claims_of i r.
Proof. intros H. unfold claims_of. rewrite (proj2 (Z.eqb_neq _ _) H). set_solver. Qed.

(** A move of one node keeps the invariant of the cluster, when the node is
    fine with its new claim and sends what it claims. *)
Lemma move_inv c i nd out :
  cluster_inv c -> i ∈ ids ->
  node_ok (claims_of i (cn_raft nd) ++ c_claims c) i nd ->
  (forall m, m ∈ out -> m_term m = r_term (cn_raft nd) /\ m_vote m = r_vote (cn_raft nd)) ->
  cluster_inv (move c i nd out).
Proof.
  intros Hc Hi Hok Hout. set (claims' := claims_of i (cn_raft nd) ++ c_claims c) in *.
  assert (c_claims c ⊆ claims') as Hsub by (unfold claims'; set_solver).
  split; cbn; fold claims'.
  - intros j Hj. destruct (Z.eqb_spec j i) as [->|Hne]; [done|].
    destruct (ci_nodes c Hc j Hj) as [H1 H2 H3 H4 H5 H6 H7 H8 H9]. split; try done.
    + intros t v [Hn|Ho]%elem_of_app; [|by apply H7]. apply claims_of_in in Hn as [E _]. congruence.
    + intros Hs k Hk Hb. apply Hsub. by apply H8.
    + intros Hs. by apply (won_mono (c_claims c)), H9.
  - intros j t v w Hv Hw.
    assert (forall x, (j, t, x) ∈ claims_of i (cn_raft nd) -> forall y, (j, t, y) ∈ claims' -> x = y)
      as Hone.
    { intros x [[= -> -> ->] _]%claims_of_in y Hy.
      destruct (ok_claims _ _ _ Hok _ _ Hy) as [_ [?|[_ ?]]]; [lia|done]. }
    pose proof Hv as Hv'. pose proof Hw as Hw'. unfold claims' in Hv', Hw'.
    apply elem_of_app in Hv' as [Hv'|Hv'], Hw' as [Hw'|Hw'];
      [by apply Hone|by apply Hone|symmetry; by apply Hone|by apply (ci_unique c Hc j t)].
  - intros j t v [[[= -> _ _] _]%claims_of_in|Ho]%elem_of_app; [done|by apply (ci_ids c Hc j t v)].
  - intros j m [Hn|Ho]%elem_of_app Hv; [|by apply Hsub, (ci_net c Hc)].
    apply list_elem_of_fmap in Hn as (m' & [= -> ->] & Hm).
    destruct (Hout m' Hm) as [-> E]. rewrite E in Hv |- *.
    unfold claims'. apply elem_of_app. left. by apply claims_of_own.
  - intros t j [Hn|Ho]%elem_of_app; [|by apply (won_mono (c_claims c)), (ci_elected c Hc)].
    unfold elected_of in Hn. destruct (state_is _ _) eqn:E; [|by apply not_elem_of_nil in Hn].
    apply list_elem_of_singleton in Hn as [= -> ->].
    apply (ok_leader _ _ _ Hok). unfold state_is in E. by destruct (r_state (cn_raft nd)).
Qed.

(** ** The steps *)

(** The persisted state goes forward: a new term, or a vote in a term that had
    none. *)
Definition persist_le (r r' : raft) : Prop :=
  r_term r < r_term r' \/
  r_term r = r_term r' /\ (r_vote r = r_vote r' \/ r_vote r = 0).

Lemma claims_forward claims i nd r' :
  node_ok claims i nd -> persist_le (cn_raft nd) r' ->
  forall t v, (i, t, v) ∈ claims_of i r' ++ claims ->
    v <> 0 /\ (t < r_term r' \/ t = r_term r' /\ v = r_vote r').
Proof.
  intros Hok Hle t v [[[= -> ->] Hv]%claims_of_in|Ho]%elem_of_app; [by split; [|right]|].
  destruct (ok_claims _ _ _ Hok t v Ho) as [Hv Ht]. split; [done|].
  destruct Hle as [?|[? [?|?]]], Ht as [?|[? ?]]; try (left; lia).
  right. split; congruence.
Qed.

(** The votes in a mask are a majority. *)
Lemma mask_wins claims t i mask q :
  0 <= mask < 2 ^ 32 -> majority q -> q <= bit_count_u32 mask ->
  (forall k, 0 <= k < 32 -> Z.testbit mask k = true -> (k, t, i) ∈ claims) ->
  won claims t i.
Proof.
  intros Hm Hmaj Hq Hk. exists (positions (Z.testbit mask) 0 32).
  split; [apply positions_NoDup|]. split.
  - rewrite <- bit_count_positions by done. unfold majority in *. lia.
  - intros j Hj. apply list_elem_of_In, positions_In in Hj as [Hr Hb]. apply Hk; [lia|done].
Qed.

(** The vote mask after a call: old votes, and the vote of the message. *)
Lemma mask_grows_claims (claims : list (Z * Z * Z)) i r op mask :
  raft_inv r -> r_self r = i -> r_state r = RAFT_STATE_CANDIDATE ->
  (forall k, 0 <= k < 32 -> Z.testbit (r_vote_mask r) k = true -> (k, r_term r, i) ∈ claims) ->
  (forall source req, op = op_msg req source -> m_vote req <> 0 ->
    (source, m_term req, m_vote req) ∈ claims) ->
  mask_grows (op_vote op) r mask ->
  0 <= mask < 2 ^ 32 /\
  forall k, 0 <= k < 32 -> Z.testbit mask k = true -> (k, r_term r, i) ∈ claims.
Proof.
  intros Hinv Hself Hs Hold Hmsg Hm. pose proof (inv_mask r Hinv) as Hr.
  destruct (candidate_vote r Hinv Hs) as [_ Ht].
  destruct (inv_candidate r Hinv Hs) as (Hc & _ & _).
  destruct (inv_self r Hinv (inv_enabled r Hinv Hc)) as [Hb _].
  destruct Hm as [->|(source & Hop & Hsrc & ->)]; [done|].
  split; [by apply setbit_range|]. intros k Hk Hbit.
  rewrite Z.setbit_eqb in Hbit by lia. apply orb_true_iff in Hbit as [E|E]; [|by apply Hold].
  apply Z.eqb_eq in E as <-. destruct op; try done. cbn in Hop. injection Hop as -> Et Ev.
  rewrite Ht, <- Hself, <- Et, <- Ev. apply (Hmsg source req); [done|lia].
Qed.

Lemma call_ok claims i r w wal op r' :
  i ∈ ids -> node_ok claims i (mk_cnode r w wal) -> op_pre op r -> op_majority op ->
  (forall source req, op = op_msg req source -> m_vote req <> 0 ->
    (source, m_term req, m_vote req) ∈ claims) ->
  run_op op r = Done (tt, r') ->
  node_ok (claims_of i r' ++ claims) i (mk_cnode r' w wal).
Proof.
  intros Hi Hok Hpre Hmaj Hmsg Hrun. pose proof (ids_range i Hi) as Hir.
  pose proof (ok_inv _ _ _ Hok) as Hinv. pose proof (ok_self _ _ _ Hok) as Hself.
  pose proof (ok_quorum _ _ _ Hok) as Hq. cbn in Hinv, Hself, Hq.
  destruct (wp_Done _ _ _ _ _ (op_correct op r Hinv Hpre) Hrun) as (Hinv' & He & _).
  pose proof (eff_term _ _ _ He) as Et. pose proof (eff_vote _ _ _ He) as Ev.
  assert (majority (r_election_quorum r')) as Hq'.
  { destruct (eff_quorum _ _ _ He) as [->| ->]; done. }
  assert (forall x, x ∈ claims -> x ∈ claims_of i r' ++ claims) as Hsub by set_solver.
  split; cbn; try done.
  - rewrite (eff_self _ _ _ He); lia.
  - intros req b Hw. destruct (ok_write _ _ _ Hok req b Hw) as [Hfl Hrow].
    split; [by apply (in_flight_effect op r)|done].
  - apply (ok_rows _ _ _ Hok).
  - rewrite Et, Ev. apply (ok_disk _ _ _ Hok).
  - apply (claims_forward _ _ _ _ Hok). right. cbn. rewrite Et, Ev. auto.
  - intros Hs. destruct (eff_candidate _ _ _ He Hs) as (Hs0 & _ & Hm).
    destruct (mask_grows_claims claims i r op _ Hinv Hself Hs0 (ok_mask _ _ _ Hok Hs0) Hmsg Hm)
      as [_ Hk]. intros k Hk32 Hb. rewrite Et. by apply Hsub, Hk.
  - intros Hs. rewrite Et. apply (won_mono claims); [done|].
    destruct (eff_leader _ _ _ He Hs) as [_ [Hs0|(Hs0 & mask & Hm & Hcnt)]].
    + by apply (ok_leader _ _ _ Hok).
    + destruct (mask_grows_claims claims i r op _ Hinv Hself Hs0 (ok_mask _ _ _ Hok Hs0) Hmsg Hm)
        as [Hmr Hk]. by apply (mask_wins claims _ i mask (r_election_quorum r')).
Qed.

(** The end of a dump: the own vote is the first claim of a candidate, and is a
    majority when the quorum is one. *)
Lemma dump_claims (claims : list (Z * Z * Z)) i r r' :
  0 < i < 32 -> r_self r = i -> majority (r_election_quorum r) -> dump_effect r r' ->
  claims_of i r' ⊆ claims ->
  (r_state r' = RAFT_STATE_CANDIDATE -> forall k, 0 <= k < 32 ->
   Z.testbit (r_vote_mask r') k = true -> (k, r_term r', i) ∈ claims) /\
  (r_state r' = RAFT_STATE_LEADER -> won claims (r_term r') i).
Proof.
  intros Hi Hself Hq He Hsub.
  assert (r_vote r = r_self r -> (i, r_term r', i) ∈ claims) as Hown.
  { intros E. apply Hsub. pose proof (claims_of_own i r') as H.
    rewrite (dump_vote _ _ He), E, Hself in H. apply H. lia. }
  split; intros Hs.
  - destruct (dump_candidate _ _ He Hs) as [Hv ->]. intros k Hk Hb.
    rewrite Z.setbit_eqb, Z.bits_0, orb_false_r in Hb by lia. apply Z.eqb_eq in Hb as <-.
    rewrite Hself. by apply Hown.
  - destruct (dump_leader _ _ He Hs) as [Hv Hq1]. exists [i].
    split; [apply NoDup_singleton|]. split; [by rewrite Hq1 in Hq|].
    intros j ->%list_elem_of_singleton. by apply Hown.
Qed.

(** A node whose state changes without a call: only the log, or nothing. *)
Lemma same_ok claims i r w wal r' :
  node_ok claims i (mk_cnode r w wal) -> raft_inv r' -> same_election r r' ->
  r_state r' = r_state r -> node_ok (claims_of i r' ++ claims) i (mk_cnode r' w wal).
Proof.
  intros [H1 H2 H3 H4 H5 H6 H7 H8 H9] Hinv (E1 & E2 & E3 & E4 & E5 & E6 & E7 & E8) Hs.
  assert (claims ⊆ claims_of i r' ++ claims) as Hsub by set_solver. cbn in *.
  split; cbn; rewrite ?E2, ?E3, ?E7, ?E8, ?Hs; try done; try congruence.
  - intros req b Hw. destruct (H4 req b Hw) as [[F1 F2 F3 F4] Hrow]. split; [|done].
    split; rewrite ?E2, ?E3, ?E4, ?E5, ?E6; done.
  - intros t v [[[= -> ->] Hv]%claims_of_in|Ho]%elem_of_app; [|by apply H7].
    split; [done|]. right. done.
  - intros Hc k Hk Hb. apply Hsub. by apply H8.
  - intros Hl. by apply (won_mono claims), H9.
Qed.

Lemma write_begin_ok claims i r wal w r' :
  i ∈ ids -> node_ok claims i (mk_cnode r None wal) -> r_is_write_in_progress r = true ->
  raft_worker_handle_io_begin r = Done (w, r') ->
  node_ok (claims_of i r' ++ claims) i (mk_cnode r' ((fun m => (m, false)) <$> w) wal).
Proof.
  intros Hi Hok Hw Hrun. pose proof (ok_inv _ _ _ Hok) as Hinv.
  pose proof (wp_Done _ _ _ _ _ (io_begin_post r Hinv Hw) Hrun) as H. destruct w as [req|].
  - destruct H as (-> & Hfl & Ht & Hs & Hc & _).
    pose proof (same_ok claims i r None wal r Hok Hinv ltac:(repeat split) eq_refl) as H.
    destruct H. split; cbn in *; try done. intros req' b [= <- <-]. split; [done|].
    split; [|lia]. split; [lia|done].
  - destruct H as (_ & Hinv' & He & _). pose proof (ok_quorum _ _ _ Hok) as Hq.
    pose proof (ok_self _ _ _ Hok) as Hself. cbn in Hq, Hself.
    destruct (dump_claims (claims_of i r' ++ claims) i r r' (ids_range i Hi) Hself Hq He)
      as [Hc Hl]; [set_solver|].
    split; cbn; try done.
    + by rewrite (dump_self _ _ He).
    + by rewrite (dump_quorum _ _ He).
    + apply (ok_rows _ _ _ Hok).
    + rewrite (dump_term _ _ He), (dump_vote _ _ He). apply (ok_disk _ _ _ Hok).
    + apply (claims_forward _ _ _ _ Hok). right. cbn.
      rewrite (dump_term _ _ He), (dump_vote _ _ He). auto.
Qed.

Lemma replay_snoc rows m tv : replay (rows ++ [m]) tv = replay_row (replay rows tv) m.
Proof. apply foldl_snoc. Qed.

Lemma write_durable_ok claims i r req wal :
  node_ok claims i (mk_cnode r (Some (req, false)) wal) ->
  node_ok (claims_of i r ++ claims) i (mk_cnode r (Some (req, true)) (wal ++ [req])).
Proof.
  intros Hok. destruct (ok_write _ _ _ Hok req false eq_refl) as (Hfl & Hrow & Ht).
  pose proof (ok_inv _ _ _ Hok) as Hinv. pose proof (ok_rows _ _ _ Hok) as Hrows.
  pose proof (same_ok claims i r _ wal r Hok Hinv ltac:(repeat split) eq_refl) as H.
  destruct H. split; cbn in *; try done.
  - intros req' b [= <- <-]. done.
  - apply Forall_app. by split; [|constructor].
  - rewrite replay_snoc. unfold replay_row. cbn.
    replace (m_term req =? 0) with false by lia. split; [done|]. intros Hv.
    by rewrite (proj2 (Z.eqb_neq _ _) Hv).
Qed.

Lemma written_forward r req r' :
  in_flight r req -> r_term r' = m_term req -> r_vote r' = m_vote req -> persist_le r r'.
Proof.
  intros [_ Ht _ Ho] E1 E2. unfold persist_le. rewrite E1, E2.
  destruct (Z.eq_dec (m_term req) (r_term r)) as [E|E]; [|left; lia].
  right. split; [done|]. destruct (Ho E); auto.
Qed.

Lemma write_end_ok claims i r req wal r' :
  i ∈ ids -> node_ok claims i (mk_cnode r (Some (req, true)) wal) ->
  raft_worker_handle_io_end req r = Done (tt, r') ->
  node_ok (claims_of i r' ++ claims) i (mk_cnode r' None wal).
Proof.
  intros Hi Hok Hrun. pose proof (ok_inv _ _ _ Hok) as Hinv. cbn in Hinv.
  destruct (ok_write _ _ _ Hok req true eq_refl) as (Hfl & _ & _). cbn in Hfl.
  pose proof (ok_quorum _ _ _ Hok) as Hq. pose proof (ok_self _ _ _ Hok) as Hself. cbn in Hq, Hself.
  pose proof (ok_disk _ _ _ Hok) as Hdisk. pose proof (ok_rows _ _ _ Hok) as Hrows. cbn in Hdisk, Hrows.
  destruct (wp_Done _ _ _ _ _ (io_end_post r req Hinv Hfl) Hrun) as (r1 & Hwr & Hcase).
  destruct (written_fields r req r1 Hwr Hfl) as (E1 & E2 & E3 & _ & _ & E6 & E7 & _).
  assert (raft_inv r' /\ r_self r' = i /\ r_election_quorum r' = r_election_quorum r /\
    r_term r' = m_term req /\ r_vote r' = m_vote req /\
    (r_state r' = RAFT_STATE_CANDIDATE -> forall k, 0 <= k < 32 ->
     Z.testbit (r_vote_mask r') k = true -> (k, r_term r', i) ∈ claims_of i r' ++ claims) /\
    (r_state r' = RAFT_STATE_LEADER -> won (claims_of i r' ++ claims) (r_term r') i))
    as (F1 & F2 & F3 & F4 & F5 & F6 & F7).
  { destruct Hcase as [[_ (Hi' & He & _)]|[_ ->]].
    - destruct (dump_claims (claims_of i r' ++ claims) i r1 r' (ids_range i Hi)) as [Hc Hl];
        [congruence|congruence|done|set_solver|].
      destruct He. split_and!; try done; congruence.
    - destruct Hfl as [Hw _ _ _]. pose proof (inv_write r Hinv Hw) as Hs. rewrite Hs in E7.
      split_and!; try congruence; apply Hwr. }
  pose proof (written_forward r req r' Hfl F4 F5) as Hle.
  split; cbn; rewrite ?F2, ?F3, ?F4, ?F5; try done.
  - rewrite <- F4, <- F5. apply (claims_forward _ _ _ _ Hok Hle).
  - by rewrite <- F4.
  - by rewrite <- F4.
Qed.

Lemma boot_spec i v quorum rows now rnd r' :
  0 < i < 32 -> vclock_ok v -> 0 < quorum -> Forall row_ok rows ->
  raft_boot i v quorum rows (raft_create now rnd) = Done (tt, r') ->
  let tv := replay rows (1, 0) in
  raft_inv r' /\ r_self r' = i /\ r_election_quorum r' = quorum /\
  r_term r' = tv.1 /\ r_vote r' = tv.2 /\ r_state r' = RAFT_STATE_FOLLOWER.
Proof.
  intros Hi Hv Hq Hrows Hrun tv.
  refine (wp_Done _ (fun _ r' => raft_inv r' /\ r_self r' = i /\ r_election_quorum r' = quorum /\
    r_term r' = tv.1 /\ r_vote r' = tv.2 /\ r_state r' = RAFT_STATE_FOLLOWER) _ _ _ _ Hrun).
  apply wp_bind.
  eapply wp_mono; [by apply recovered_inv|]. fold tv. intros [] r1 [-> Hinv1].
  set (r1 := with_state _ tv) in *. apply wp_bind.
  eapply wp_mono; [apply (wp_and _ (op_post (op_cfg_instance_id i) r1) (fun _ r2 => r2 = r1 <| r_self := i |>));
    [apply cfg_instance_id_post; [done|by split]|]|].
  { apply wp_bind, wp_assert. split; [done|]. apply wp_bind, wp_assert. split; [lia|done]. }
  intros [] r2 [(Hinv2 & _) E2]. apply wp_bind.
  eapply wp_mono; [apply (wp_and _ (op_post (op_cfg_vclock v) r2) (fun _ r3 => r3 = r2 <| r_vclock := Some v |>));
    [apply cfg_vclock_post; [done|by rewrite E2]|]|].
  { rewrite E2. apply wp_bind, wp_assert. split; [done|].
    apply wp_bind, wp_assert. split; [by rewrite bool_decide_eq_false_2|done]. }
  intros [] r3 [(Hinv3 & _) E3].
  eapply wp_mono; [apply (wp_and _ (op_post (op_cfg_election_quorum quorum) r3) (fun _ r4 => r4 = r3 <| r_election_quorum := quorum |>));
    [by apply cfg_election_quorum_post|]|].
  { rewrite E3, E2. apply wp_bind, wp_assert. split; [lia|]. done. }
  intros [] r4 [(Hinv4 & _) E4]. subst. split_and!; done.
Qed.

Lemma disk_forward claims i nd :
  node_ok claims i nd ->
  let tv := replay (cn_wal nd) (1, 0) in
  forall t v, v <> 0 -> t < r_term (cn_raft nd) \/
    t = r_term (cn_raft nd) /\ v = r_vote (cn_raft nd) ->
  t < tv.1 \/ t = tv.1 /\ v = tv.2.
Proof.
  intros Hok tv t v Hv Ht. pose proof (ok_disk _ _ _ Hok) as Hd. cbv zeta in Hd. fold tv in Hd.
  destruct (cn_write nd) as [[req [|]]|] eqn:Hw.
  - destruct (ok_write _ _ _ Hok req true Hw) as ([_ Hle _ Ho] & _ & _).
    destruct Hd as [Hd1 Hd2]. destruct Ht as [?|[-> ->]]; [left; lia|].
    destruct (Z.eq_dec (m_term req) (r_term (cn_raft nd))) as [E|E]; [|left; lia].
    right. destruct (Ho E) as [?|E2]; [done|]. rewrite E2 in Hv |- *. split; [lia|].
    symmetry. by apply Hd2.
  - destruct Hd as [-> Hd2], Ht as [?|[-> ->]]; [by left|]. right. split; [done|].
    symmetry. by apply Hd2.
  - destruct Hd as [-> Hd2], Ht as [?|[-> ->]]; [by left|]. right. split; [done|].
    symmetry. by apply Hd2.
Qed.

Lemma crash_ok claims i r w wal v quorum now rnd r' :
  i ∈ ids -> node_ok claims i (mk_cnode r w wal) ->
  vclock_ok v -> 0 < quorum -> majority quorum ->
  raft_boot i v quorum wal (raft_create now rnd) = Done (tt, r') ->
  node_ok (claims_of i r' ++ claims) i (mk_cnode r' None wal).
Proof.
  intros Hi Hok Hv Hq Hmaj Hrun. pose proof (ok_rows _ _ _ Hok) as Hrows.
  destruct (boot_spec i v quorum wal now rnd r' (ids_range i Hi) Hv Hq Hrows Hrun)
    as (F1 & F2 & F3 & F4 & F5 & F6).
  pose proof (disk_forward _ _ _ Hok) as Hfwd. cbv zeta in Hfwd. cbn in Hfwd, Hrows.
  rewrite <- F4, <- F5 in Hfwd.
  split; cbn; rewrite ?F3; try done; try congruence.
  intros t x [[[= -> ->] Hx]%claims_of_in|Ho]%elem_of_app; [by split; [|right]|].
  destruct (ok_claims _ _ _ Hok t x Ho) as [Hx Ht]. split; [done|]. by apply Hfwd.
Qed.

Lemma cluster_init_inv c : cluster_init c -> cluster_inv c.
Proof.
  intros (Hnet & Hcl & Hel & Hnodes). split; rewrite ?Hnet, ?Hcl, ?Hel; try (intros *; set_solver).
  intros i Hi. destruct (Hnodes i Hi) as (v & q & now & rnd & r & Hv & Hq & Hmaj & Hrun & ->).
  destruct (boot_spec i v q [] now rnd r (ids_range i Hi) Hv Hq ltac:(constructor) Hrun)
    as (F1 & F2 & F3 & F4 & F5 & F6).
  split; cbn; rewrite ?F3; try done; try congruence. intros t x ?%not_elem_of_nil. done.
Qed.

Lemma head_log r req r' :
  raft_inv r -> r_is_broadcast_scheduled r = true ->
  raft_worker_handle_broadcast r = Done (tt, r') -> head (r_log r') = Some (ev_broadcast req) ->
  raft_inv r' /\ same_election r r' /\ r_state r' = r_state r /\ req = raft_checkpoint_remote r'.
Proof.
  intros Hinv Hb Hrun Hh.
  destruct (wp_Done _ _ _ _ _ (broadcast_post r Hinv Hb) Hrun) as [(Hi & _) ->].
  split; [done|]. cbn in Hh. injection Hh as <-. done.
Qed.

Lemma cluster_step_inv c c' : cluster_inv c -> cluster_step c c' -> cluster_inv c'.
Proof.
  intros Hc Hstep.
  destruct Hstep as [i op r w wal r' Hi E Hop Hpre Hmaj Hrun
    |i source req r w wal r' Hi E Hnet Hpre Hrun|i r wal r' Hi E Hb Hrun req Hreq
    |i r w wal Hi E|i r wal w r' Hi E Hw Hrun|i r req wal Hi E|i r req wal r' Hi E Hrun
    |i r w wal v quorum now rnd r' Hi E Hv Hq Hmaj Hrun];
  pose proof (ci_nodes c Hc i Hi) as Hok; rewrite E in Hok;
  pose proof (ok_inv _ _ _ Hok) as Hinv; cbn in Hinv; apply move_inv; try done; cbn [cn_raft];
  try (by intros m ?%not_elem_of_nil).
  - apply (call_ok _ _ r w wal op); try done. by intros source req ->.
  - apply (call_ok _ _ r w wal (op_msg req source)); try done.
    intros s q [= <- <-] Hv. by apply (ci_net c Hc).
  - destruct (head_log r req r' Hinv Hb Hrun Hreq) as (Hi' & Hsame & Hs & ->).
    by apply (same_ok _ _ r).
  - destruct (head_log r req r' Hinv Hb Hrun Hreq) as (Hi' & Hsame & Hs & ->).
    by intros m ->%list_elem_of_singleton.
  - by apply (same_ok _ _ r).
  - by intros m ->%list_elem_of_singleton.
  - by apply (write_begin_ok _ _ r).
  - by apply write_durable_ok.
  - by apply (write_end_ok _ _ r req).
  - by apply (crash_ok _ _ r w wal v quorum now rnd).
Qed.

Lemma cluster_reachable_inv c : reachable cluster_init cluster_step c -> cluster_inv c.
Proof.
  apply reachable_invariant; [apply cluster_init_inv|]. intros; by eapply cluster_step_inv.
Qed.

(** Two majorities have an instance in common. *)
Lemma majorities_meet (q1 q2 : list Z) :
  NoDup q1 -> NoDup q2 -> (forall j, j ∈ q1 -> j ∈ ids) -> (forall j, j ∈ q2 -> j ∈ ids) ->
  majority (Z.of_nat (length q1)) -> majority (Z.of_nat (length q2)) ->
  exists j, j ∈ q1 /\ j ∈ q2.
Proof.
  intros H1 H2 S1 S2 M1 M2. destruct (decide (Exists (fun j => j ∈ q2) q1)) as [H|H].
  { apply Exists_exists in H as (j & ? & ?). by exists j. }
  exfalso. unfold majority in *.
  assert (NoDup (q1 ++ q2)) as Hnd.
  { apply NoDup_app. split; [done|]. split; [|done]. intros j Hj1 Hj2. apply H, Exists_exists.
    by exists j. }
  assert (length (q1 ++ q2) <= length ids)%nat as Hlen.
  { apply submseteq_length, NoDup_submseteq; [done|]. intros j [?|?]%elem_of_app; auto. }
  rewrite length_app in Hlen. lia.
Qed.

Lemma won_unique c t i j :
  cluster_inv c -> won (c_claims c) t i -> won (c_claims c) t j -> i = j.
Proof.
  intros Hc (q1 & N1 & M1 & C1) (q2 & N2 & M2 & C2).
  destruct (majorities_meet q1 q2) as (k & K1 & K2); try done;
    [by intros k Hk; eapply (ci_ids c Hc), C1|by intros k Hk; eapply (ci_ids c Hc), C2|].
  exact (ci_unique c Hc k t i j (C1 k K1) (C2 k K2)).
Qed.

(** ** An executable scheduler

    Actions of a schedule, run one after the other; a schedule that runs is an
    execution of the step relation.  The witnesses are schedules. *)

Inductive action :=
| act_call (i : Z) (op : raft_op)
| act_receive (i : Z) (n : nat)
| act_broadcast (i : Z)
| act_write (i : Z)
| act_crash (i : Z) (v : vclock) (quorum : Z).

Definition term_room (r : raft) : bool := r_volatile_term r + 1 <? UINT64_MAX.

(** A test for the preconditions of the calls a schedule may make. *)
Definition op_preb (op : raft_op) (r : raft) : bool :=
  match op with
  | op_msg req source =>
      (0 <? source) && (source <? 32) && negb (source =? r_self r) && term_room r &&
      (0 <=? m_term req) && (m_term req + 1 <? UINT64_MAX) &&
      match m_vclock req with Some v => vclock_okb v | None => true end
  | op_timer => t_active (r_timer r) && term_room r
  | op_cfg_is_enabled true =>
      (0 <? r_self r) && (r_self r <? 32) &&
      match r_vclock r with Some v => vclock_okb v | None => false end
  | op_cfg_is_enabled false | op_cfg_is_candidate _ | op_restore | op_heartbeat _ => true
  | op_promote | op_new_term => term_room r
  | _ => false
  end.

Lemma op_preb_sound op r : op_preb op r = true -> op_pre op r /\ op_majority op.
Proof.
  destruct op; try done; cbn; unfold term_room; intros H; try (split; [|done]); boolp; try done.
  - split_and!; try done. intros v E. rewrite E in *. by apply vclock_okb_ok.
  - destruct is_enabled; [|done]. boolp. split; [done|].
    destruct (r_vclock r) as [v|]; [|done]. exists v. split; [done|]. by apply vclock_okb_ok.
Qed.

Definition exec_call (c : cluster) (i : Z) (op : raft_op) : option cluster :=
  let '(mk_cnode r w wal) := c_node c i in
  if op_preb op r then
    match run_op op r with
    | Done (_, r') => Some (move c i (mk_cnode r' w wal) [])
    | Abort => None
    end
  else None.

(** The write of the worker from its beginning to its end, when it does not
    find everything on disk. *)
Definition exec_write (c : cluster) (i : Z) : option cluster :=
  let '(mk_cnode r w wal) := c_node c i in
  match w, raft_worker_handle_io_begin r with
  | None, Done (Some req, r1) =>
      if r_is_write_in_progress r then
        match raft_worker_handle_io_end req r1 with
        | Done (_, r2) =>
            let c := move c i (mk_cnode r1 (Some (req, false)) wal) [] in
            let c := move c i (mk_cnode r1 (Some (req, true)) (wal ++ [req])) [] in
            Some (move c i (mk_cnode r2 None (wal ++ [req])) [])
        | Abort => None
        end
      else None
  | _, _ => None
  end.

Definition exec (c : cluster) (a : action) : option cluster :=
  match a with
  | act_call i op =>
      if bool_decide (i ∈ ids) && local_op op then exec_call c i op else None
  | act_receive i n =>
      match c_net c !! n with
      | Some (source, req) =>
          if bool_decide (i ∈ ids) then exec_call c i (op_msg req source) else None
      | None => None
      end
  | act_broadcast i =>
      let '(mk_cnode r w wal) := c_node c i in
      match w, raft_worker_handle_broadcast r with
      | None, Done (_, r') =>
          match head (r_log r') with
          | Some (ev_broadcast req) =>
              if bool_decide (i ∈ ids) && r_is_broadcast_scheduled r
              then Some (move c i (mk_cnode r' None wal) [req]) else None
          | _ => None
          end
      | _, _ => None
      end
  | act_write i => if bool_decide (i ∈ ids) then exec_write c i else None
  | act_crash i v quorum =>
      let '(mk_cnode r w wal) := c_node c i in
      match raft_boot i v quorum wal (raft_create d_zero []) with
      | Done (_, r') =>
          if bool_decide (i ∈ ids) && vclock_okb v && (0 <? quorum) &&
             (Z.of_nat (length ids) <? 2 * quorum)
          then Some (move c i (mk_cnode r' None wal) []) else None
      | Abort => None
      end
  end.

Fixpoint exec_all (c : cluster) (acts : list action) : option cluster :=
  match acts with
  | [] => Some c
  | a :: acts => c ← exec c a; exec_all c acts
  end.

Lemma move_node c i nd out : c_node (move c i nd out) i = nd.
Proof. cbn. by rewrite Z.eqb_refl. Qed.

Abbreviation creach := (reachable cluster_init cluster_step).

Lemma exec_call_sound c i op c' :
  creach c -> i ∈ ids ->
  (local_op op = true \/ exists source req, op = op_msg req source /\ (source, req) ∈ c_net c) ->
  exec_call c i op = Some c' -> creach c'.
Proof.
  intros Hr Hi Hop. unfold exec_call. destruct (c_node c i) as [r w wal] eqn:En.
  destruct (op_preb op r) eqn:Hp; [|done]. apply op_preb_sound in Hp as [Hpre Hmaj].
  destruct (run_op op r) as [[[] r']|] eqn:Hrun; [|done]. intros [= <-].
  eapply reach_step; [exact Hr|].
  destruct Hop as [Hop|(source & req & -> & Hnet)]; [by apply (cs_call _ i op r)|].
  by apply (cs_receive _ i source req r).
Qed.

Lemma exec_write_sound c i c' : creach c -> i ∈ ids -> exec_write c i = Some c' -> creach c'.
Proof.
  intros Hr Hi. unfold exec_write. destruct (c_node c i) as [r [w|] wal] eqn:En; [done|].
  destruct (raft_worker_handle_io_begin r) as [[[req|] r1]|] eqn:Hb; try done.
  destruct (r_is_write_in_progress r) eqn:Hw; [|done].
  destruct (raft_worker_handle_io_end req r1) as [[[] r2]|] eqn:He; [|done]. intros [= <-].
  eapply reach_step; [eapply reach_step; [eapply reach_step; [exact Hr|]|]|].
  - by apply (cs_write_begin _ i r wal (Some req) r1).
  - apply (cs_write_durable _ i r1 req wal); [done|apply move_node].
  - apply (cs_write_end _ i r1 req (wal ++ [req])); [done|apply move_node|done].
Qed.

Lemma exec_sound c a c' : creach c -> exec c a = Some c' -> creach c'.
Proof.
  intros Hr. destruct a as [i op|i n|i|i|i v q]; cbn.
  - destruct (bool_decide (i ∈ ids) && local_op op) eqn:E; [|done]. boolp.
    apply exec_call_sound; auto.
  - destruct (c_net c !! n) as [[source req]|] eqn:E; [|done].
    destruct (bool_decide (i ∈ ids)) eqn:Ei; [|done]. boolp.
    apply exec_call_sound; [done|done|]. right. exists source, req. split; [done|].
    by apply list_elem_of_lookup_2 in E.
  - destruct (c_node c i) as [r [w|] wal] eqn:En; [done|].
    destruct (raft_worker_handle_broadcast r) as [[[] r']|] eqn:Hrun; [|done].
    destruct (head (r_log r')) as [[req| | |]|] eqn:Hh; try done.
    destruct (bool_decide (i ∈ ids) && r_is_broadcast_scheduled r) eqn:E; [|done]. boolp.
    intros [= <-]. eapply reach_step; [exact Hr|]. by apply (cs_broadcast _ i r wal r').
  - destruct (bool_decide (i ∈ ids)) eqn:E; [|done]. boolp. by apply exec_write_sound.
  - destruct (c_node c i) as [r w wal] eqn:En.
    destruct (raft_boot i v q wal (raft_create d_zero [])) as [[[] r']|] eqn:Hrun; [|done].
    destruct (_ && _) eqn:E; [|done]. boolp. intros [= <-].
    eapply reach_step; [exact Hr|].
    apply (cs_crash _ i r w wal v q d_zero [] r'); try done. by apply vclock_okb_ok.
Qed.

Lemma exec_all_sound acts c c' : creach c -> exec_all c acts = Some c' -> creach c'.
Proof.
  revert c. induction acts as [|a acts IH]; intros c Hr; [by intros [= <-]|]. cbn [exec_all].
  destruct (exec c a) as [c1|] eqn:E; [|done]. rewrite obind_Some.
  apply IH. by apply (exec_sound c a).
Qed.

(** ** Theorems *)

(** C1: Election safety.  In every execution of a cluster whose instances run this
    code with quorums larger than half of the cluster, over a network that
    loses, duplicates and reorders messages, with crashes at any point and
    recovery from the rows on disk, at most one instance is ever in the leader
    state of a given term. *)
Theorem raft_election_safety c t i j :
  reachable cluster_init cluster_step c ->
  (t, i) ∈ c_elected c -> (t, j) ∈ c_elected c -> i = j.
Proof.
  intros Hr%cluster_reachable_inv Hi Hj.
  apply (won_unique c t i j Hr); by apply (ci_elected c Hr).
Qed.

(** C11: Votes survive crashes.  A vote that an instance has told to anybody is on
    its disk: whatever rows are there when it crashes, their replay gives a
    later term, or the same term and the same vote. *)
Theorem raft_votes_survive_crash c i m :
  reachable cluster_init cluster_step c ->
  (i, m) ∈ c_net c -> m_vote m <> 0 ->
  let tv := replay (cn_wal (c_node c i)) (1, 0) in
  m_term m < tv.1 \/ m_term m = tv.1 /\ m_vote m = tv.2.
Proof.
  intros Hr%cluster_reachable_inv Hnet Hv tv.
  pose proof (ci_net c Hr i m Hnet Hv) as Hcl.
  pose proof (ci_nodes c Hr i (ci_ids c Hr _ _ _ Hcl)) as Hok.
  destruct (ok_claims _ _ _ Hok _ _ Hcl) as [_ Ht].
  by apply (disk_forward _ _ _ Hok).
Qed.

(** What travels in the network: messages of instances of the cluster, which
    the receiver does not refuse and whose clocks are well formed. *)
Definition net_ok (c : cluster) : Prop :=
  forall source m, (source, m) ∈ c_net c ->
    source ∈ ids /\ 0 <= m_term m /\ msg_invalid m source = false /\
    forall v, m_vclock m = Some v -> vclock_ok v.

Lemma checkpoint_ok r :
  raft_inv r -> let m := raft_checkpoint_remote r in
  0 <= m_term m /\ msg_invalid m (r_self r) = false /\
  forall v, m_vclock m = Some v -> vclock_ok v.
Proof.
  intros Hinv m. pose proof (inv_term _ Hinv) as [Ht _]. split; [cbn; lia|].
  unfold msg_invalid, m, raft_checkpoint_remote, state_is. cbn.
  rewrite (proj2 (Z.eqb_neq _ _)) by lia. destruct (r_state r) eqn:Hs; cbn; try done.
  rewrite (proj1 (candidate_vote r Hinv Hs)), Z.eqb_refl. cbn.
  destruct (inv_candidate _ Hinv Hs) as [Hc _].
  destruct (inv_self _ Hinv (inv_enabled _ Hinv Hc)) as (_ & v & Hv & ?). rewrite Hv.
  split; [by apply bool_decide_eq_false|congruence].
Qed.

Lemma move_net c i nd out :
  net_ok c -> i ∈ ids ->
  (forall m, m ∈ out -> exists r, raft_inv r /\ r_self r = i /\ m = raft_checkpoint_remote r) ->
  net_ok (move c i nd out).
Proof.
  intros Hc Hi Hout source m [Hn|Ho]%elem_of_app; [|by apply Hc].
  apply list_elem_of_fmap in Hn as (m' & [= -> ->] & Hm).
  destruct (Hout m' Hm) as (r & Hr & <- & ->). split; [done|]. by apply checkpoint_ok.
Qed.

Lemma cluster_step_net c c' : cluster_inv c -> net_ok c -> cluster_step c c' -> net_ok c'.
Proof.
  intros Hc Hn Hstep.
  assert (forall i r w wal, i ∈ ids -> c_node c i = mk_cnode r w wal ->
    raft_inv r /\ r_self r = i) as Hinv.
  { intros i r w wal Hi E. pose proof (ci_nodes c Hc i Hi) as H. rewrite E in H.
    split; [exact (ok_inv _ _ _ H)|exact (ok_self _ _ _ H)]. }
  destruct Hstep as [| |i r wal r' Hi E Hb Hrun req Hreq|i r w wal Hi E| | | |];
    (apply move_net; [done|done|]); try (by intros m ?%not_elem_of_nil);
    intros m ->%list_elem_of_singleton.
  - destruct (Hinv _ _ _ _ Hi E) as [Hr Hs].
    destruct (head_log r req r' Hr Hb Hrun Hreq) as (Hi' & [Hsame _] & _ & ->).
    exists r'. split_and!; [done|congruence|done].
  - destruct (Hinv _ _ _ _ Hi E) as [Hr Hs]. by exists r.
Qed.

Lemma cluster_reachable_net c : reachable cluster_init cluster_step c -> net_ok c.
Proof.
  induction 1 as [c Hc|c c' Hr IH Hstep].
  - intros source m. rewrite (proj1 Hc). by intros ?%not_elem_of_nil.
  - by apply (cluster_step_net c); [apply cluster_reachable_inv| |].
Qed.

(** C16: In every execution of a cluster an instance can be given any message
    another instance has sent at any time before, in any order and any number
    of times, and [raft_process_msg] neither aborts nor refuses it: it returns
    0.  The only condition is on the number of terms (fewer than 2^64 - 2);
    that the message is well formed is an invariant of the network, not an
    assumption.  Both halves of the write
    of the worker and the replay of the rows on disk after a crash return too.
    The calls of the configuration are not part of the statement:
    [raft_cfg_death_timeout] can abort (C2 says when). *)
Theorem raft_cluster_never_aborts c i :
  reachable cluster_init cluster_step c -> i ∈ ids ->
  let nd := c_node c i in
  (forall source m, (source, m) ∈ c_net c -> source <> i ->
   r_volatile_term (cn_raft nd) + 1 < UINT64_MAX -> m_term m + 1 < UINT64_MAX ->
   exists r', raft_process_msg m source (cn_raft nd) = Done (0, r')) /\
  (r_is_write_in_progress (cn_raft nd) = true ->
   exists w r', raft_worker_handle_io_begin (cn_raft nd) = Done (w, r')) /\
  (forall req b, cn_write nd = Some (req, b) ->
   exists r', raft_worker_handle_io_end req (cn_raft nd) = Done (tt, r')) /\
  (forall now rnd, exists r', raft_recover (cn_wal nd) (raft_create now rnd) = Done (tt, r')).
Proof.
  intros Hreach Hi nd. pose proof (cluster_reachable_net c Hreach) as Hnet.
  pose proof (ci_nodes c (cluster_reachable_inv c Hreach) i Hi) as Hok.
  pose proof (ok_inv _ _ _ Hok) as Hinv. split_and!.
  - intros source m Hm Hne Ht1 Ht2. destruct (Hnet source m Hm) as (Hs & Hge & Hok' & Hv).
    assert (op_pre (op_msg m source) (cn_raft nd)) as Hpre.
    { pose proof (ids_range _ Hs). split; [done|]. split; [|done].
      unfold nd. by rewrite (ok_self _ _ _ Hok). }
    pose proof (process_msg_post m source _ Hinv Hpre) as H.
    apply wp_total in H as (rc & r' & H & [->|(_ & _ & ?)] & _); [by exists r'|congruence].
  - intros Hw. pose proof (io_begin_post _ Hinv Hw) as H.
    apply wp_total in H as (w & r' & H & _). by exists w, r'.
  - intros req b Hreq. destruct (ok_write _ _ _ Hok req b Hreq) as [Hfl _].
    pose proof (io_end_post _ _ Hinv Hfl) as H. apply wp_total in H as ([] & r' & H & _). by exists r'.
  - intros now rnd. pose proof (recovered_inv _ now rnd (ok_rows _ _ _ Hok)) as H.
    apply wp_total in H as ([] & r' & H & _). by exists r'.
Qed.
End Cluster.

(** ** A schedule with an elected leader

    Three instances; instance 1 is enabled and promoted, persists its term and
    its vote, asks for votes; instance 2 persists its vote and answers. *)

Definition three : list Z := [1; 2; 3].
Definition booted (i : Z) : cnode :=
  mk_cnode (result (raft_boot i clock0 2 [] (raft_create d_zero []))) None [].
Definition cluster3 : cluster := mk_cluster booted [] [] [].

Definition election : list action :=
  [act_call 1 (op_cfg_is_enabled true); act_call 1 op_promote; act_write 1; act_write 1;
   act_broadcast 1; act_call 2 (op_cfg_is_enabled true); act_receive 2 0; act_write 2;
   act_broadcast 2; act_receive 1 0; act_broadcast 1].

Definition after_election : cluster := default cluster3 (exec_all three cluster3 election).

Lemma three_range i : i ∈ three -> 0 < i < 32.
Proof. intros Hi%list_elem_of_In. cbn in Hi. intuition lia. Qed.

Lemma cluster3_init : cluster_init three cluster3.
Proof.
  do 3 (split; [reflexivity|]). intros i Hi. exists clock0, 2, d_zero, [].
  exists (cn_raft (booted i)). split; [apply clock0_ok|]. split; [lia|].
  split; [unfold majority; cbn; lia|]. split; [|reflexivity].
  apply list_elem_of_In in Hi. cbn in Hi.
  destruct Hi as [<-|[<-|[<-|[]]]]; vm_compute; reflexivity.
Qed.

Lemma after_election_reachable :
  reachable (cluster_init three) (cluster_step three) after_election.
Proof.
  apply (exec_all_sound three election cluster3); [apply reach_init, cluster3_init|].
  unfold after_election. destruct (exec_all three cluster3 election) eqn:E; [done|].
  assert (match exec_all three cluster3 election with Some _ => true | None => false end = true) as H
    by (vm_compute; reflexivity).
  by rewrite E in H.
Qed.

Lemma after_election_elected : (2, 1) ∈ c_elected after_election.
Proof.
  apply list_elem_of_In.
  assert (existsb (fun x => (x.1 =? 2) && (x.2 =? 1)) (c_elected after_election) = true) as H
    by (vm_compute; reflexivity).
  apply existsb_exists in H as ([t i] & Hin & H). cbn in H. boolp. by subst.
Qed.

Lemma raft_election_safety_witness :
  (forall i, i ∈ three -> 0 < i < 32) /\
  reachable (cluster_init three) (cluster_step three) after_election /\
  (2, 1) ∈ c_elected after_election /\
  forall j, (2, j) ∈ c_elected after_election -> 1 = j.
Proof.
  split; [exact three_range|].
  split; [exact after_election_reachable|]. split; [exact after_election_elected|].
  intros j Hj. exact (raft_election_safety three three_range after_election 2 1 j
    after_election_reachable after_election_elected Hj).
Defined.

(** The answer of instance 2. *)
Definition answer2 : raft_msg := mk_raft_msg 2 1 1 None.

Lemma answer2_sent : (2, answer2) ∈ c_net after_election.
Proof. apply (list_elem_of_lookup_2 _ 1). vm_compute. reflexivity. Qed.

Lemma raft_votes_survive_crash_witness :
  2 < (replay (cn_wal (c_node after_election 2)) (1, 0)).1 \/
  2 = (replay (cn_wal (c_node after_election 2)) (1, 0)).1 /\
  1 = (replay (cn_wal (c_node after_election 2)) (1, 0)).2.
Proof.
  assert (m_vote answer2 <> 0) as Hv by (vm_compute; congruence).
  exact (raft_votes_survive_crash three three_range after_election 2 answer2
    after_election_reachable answer2_sent Hv).
Defined.

Lemma raft_cluster_never_aborts_witness :
  (2, answer2) ∈ c_net after_election /\
  exists r', raft_process_msg answer2 2 (cn_raft (c_node after_election 1)) = Done (0, r').
Proof.
  split; [exact answer2_sent|].
  assert (1 ∈ three) as Hin by (apply list_elem_of_In; left; reflexivity).
  destruct (raft_cluster_never_aborts three three_range after_election 1
    after_election_reachable Hin) as (H & _).
  apply (H 2 answer2 answer2_sent); [lia|vm_compute; reflexivity|vm_compute; reflexivity].
Defined.
