(* ===== verification/Ring.v ===== *)
(** * The concurrent ring buffer (binding/native/ck/include/ck_ring.h)

    The multi-producer single-consumer operations of Concurrency Kit's ring,
    which carries the messages from the Dart threads to the message loop.
    [ck_ring_enqueue_mpsc] and [ck_ring_dequeue_mpsc] are modelled twice: as
    functions, for a caller that is alone, and as step relations of any number
    of producer threads and the consumer thread, one step for each access to
    shared memory.  Memory is sequentially consistent: the source orders its
    accesses with the fences ck_pr_fence_load and ck_pr_fence_store.

    The counters are 32-bit and wrap around.  The functional operations are
    correct across the wrap-around; the concurrent theorems are about
    executions of fewer than 2^32 enqueues, because a producer that is stopped
    between its load and its compare-and-swap for exactly 2^32 enqueues of the
    others is not noticed by the compare-and-swap. *)

From S2P Require Import Prelude.

Open Scope Z_scope.

(** ** Data *)

Record ck_ring := mk_ck_ring {
  c_head : Z;
  p_tail : Z;
  p_head : Z;
  size : Z;
  mask : Z;
}.
#[export] Instance ck_ring_rebuild : Rebuild ck_ring := fun r =>
  mk_ck_ring (c_head r) (p_tail r) (p_head r) (size r) (mask r).

Definition ck_ring_init (n : Z) : ck_ring := mk_ck_ring 0 0 0 n (u32 (n - 1)).

Definition ck_ring_size (r : ck_ring) : Z :=
  Z.land (u32 (p_tail r - c_head r)) (mask r).
Definition ck_ring_capacity (r : ck_ring) : Z := size r.

(** The slot of a counter. *)
Definition slot (r : ck_ring) (counter : Z) : nat := Z.to_nat (Z.land counter (mask r)).

(** The test for a full ring. *)
Definition is_full (r : ck_ring) (producer consumer : Z) : bool :=
  Z.land (u32 (producer + 1)) (mask r) =? Z.land consumer (mask r).

(** ** One caller at a time

    The result of the enqueue is [None] when the caller would wait for another
    producer forever, or when the slot is outside of the buffer. *)

Section Functions.
Context {V : Type}.

Definition buffer_set (buffer : list V) (i : nat) (v : V) : option (list V) :=
  if bool_decide (i < length buffer)%nat then Some (<[i := v]> buffer) else None.

(** _ck_ring_enqueue_mp with [*size] as second result. *)
Definition ck_ring_enqueue_mp (r : ck_ring) (buffer : list V) (entry : V)
    : option (bool * Z * ck_ring * list V) :=
  let producer := p_head r in
  let consumer := c_head r in
  let count := Z.land (u32 (producer - consumer)) (mask r) in
  if is_full r producer consumer then Some (false, count, r, buffer)
  else
    let delta := u32 (producer + 1) in
    let r := r <| p_head := delta |> in
    buffer ← buffer_set buffer (slot r producer) entry;
    if negb (p_tail r =? producer) then None
    else Some (true, count, r <| p_tail := delta |>, buffer).

Definition ck_ring_enqueue_mpsc (r : ck_ring) (buffer : list V) (entry : V)
    : option (bool * ck_ring * list V) :=
  '(ok, _, r, buffer) ← ck_ring_enqueue_mp r buffer entry;
  Some (ok, r, buffer).

(** _ck_ring_dequeue_sc: the value read, if the ring is not empty. *)
Definition ck_ring_dequeue_mpsc (r : ck_ring) (buffer : list V)
    : option (option V * ck_ring) :=
  let consumer := c_head r in
  let producer := p_tail r in
  if consumer =? producer then Some (None, r)
  else
    v ← buffer !! slot r consumer;
    Some (Some v, r <| c_head := u32 (consumer + 1) |>).
End Functions.

(** ** Threads *)

(** Where a producer is inside of _ck_ring_enqueue_mp, with its locals. *)
Inductive producer_pc (V : Type) :=
| PIdle
| PLoadHead (v : V)                        (* producer = load p_head *)
| PLoadCons (v : V) (producer : Z)         (* consumer = load c_head; full? *)
| PCas (v : V) (producer consumer : Z)     (* cas p_head *)
| PWrite (v : V) (producer : Z)            (* memcpy *)
| PWait (v : V) (producer : Z)             (* while (load p_tail != producer) *)
| PPublish (v : V) (producer : Z)          (* store p_tail *)
| PDone (v : V) (result : bool).
Arguments PIdle {V}.
Arguments PLoadHead {V}.
Arguments PLoadCons {V}.
Arguments PCas {V}.
Arguments PWrite {V}.
Arguments PWait {V}.
Arguments PPublish {V}.
Arguments PDone {V}.

(** Where the consumer is inside of _ck_ring_dequeue_sc. *)
Inductive consumer_pc (V : Type) :=
| CIdle
| CLoadTail (consumer : Z)                 (* producer = load p_tail; empty? *)
| CRead (consumer : Z)                     (* memcpy *)
| CStore (consumer : Z) (v : V)            (* store c_head *)
| CDone (result : option V).
Arguments CIdle {V}.
Arguments CLoadTail {V}.
Arguments CRead {V}.
Arguments CStore {V}.
Arguments CDone {V}.

(** [hist] is the history of the values in the order of the compare-and-swaps,
    [out] the history of the values dequeued. *)
Record rstate (V : Type) := mk_rstate {
  ring : ck_ring;
  buffer : list V;
  producers : nat -> producer_pc V;
  consumer : consumer_pc V;
  hist : list V;
  out : list V;
}.
Arguments mk_rstate {V}.
Arguments ring {V}.
Arguments buffer {V}.
Arguments producers {V}.
Arguments consumer {V}.
Arguments hist {V}.
Arguments out {V}.

Section Threads.
Context {V : Type}.

Definition set_pc (f : nat -> producer_pc V) (t : nat) (pc : producer_pc V) :=
  fun u => if Nat.eqb u t then pc else f u.

(** One access to shared memory of producer [t]. *)
Inductive producer_step (t : nat) : rstate V -> rstate V -> Prop :=
| ps_call r b f c h o v :
    f t = PIdle ->
    producer_step t (mk_rstate r b f c h o)
      (mk_rstate r b (set_pc f t (PLoadHead v)) c h o)
| ps_load_head r b f c h o v :
    f t = PLoadHead v ->
    producer_step t (mk_rstate r b f c h o)
      (mk_rstate r b (set_pc f t (PLoadCons v (p_head r))) c h o)
| ps_full r b f c h o v producer :
    f t = PLoadCons v producer -> is_full r producer (c_head r) = true ->
    producer_step t (mk_rstate r b f c h o)
      (mk_rstate r b (set_pc f t (PDone v false)) c h o)
| ps_not_full r b f c h o v producer :
    f t = PLoadCons v producer -> is_full r producer (c_head r) = false ->
    producer_step t (mk_rstate r b f c h o)
      (mk_rstate r b (set_pc f t (PCas v producer (c_head r))) c h o)
| ps_cas_ok r b f c h o v producer consumer :
    f t = PCas v producer consumer -> p_head r = producer ->
    producer_step t (mk_rstate r b f c h o)
      (mk_rstate (r <| p_head := u32 (producer + 1) |>) b
         (set_pc f t (PWrite v producer)) c (h ++ [v]) o)
| ps_cas_fail r b f c h o v producer consumer :
    f t = PCas v producer consumer -> p_head r <> producer ->
    producer_step t (mk_rstate r b f c h o)
      (mk_rstate r b (set_pc f t (PLoadCons v (p_head r))) c h o)
| ps_write r b f c h o v producer b' :
    f t = PWrite v producer -> buffer_set b (slot r producer) v = Some b' ->
    producer_step t (mk_rstate r b f c h o)
      (mk_rstate r b' (set_pc f t (PWait v producer)) c h o)
| ps_spin r b f c h o v producer :
    f t = PWait v producer -> p_tail r <> producer ->
    producer_step t (mk_rstate r b f c h o) (mk_rstate r b f c h o)
| ps_wait r b f c h o v producer :
    f t = PWait v producer -> p_tail r = producer ->
    producer_step t (mk_rstate r b f c h o)
      (mk_rstate r b (set_pc f t (PPublish v producer)) c h o)
| ps_publish r b f c h o v producer :
    f t = PPublish v producer ->
    producer_step t (mk_rstate r b f c h o)
      (mk_rstate (r <| p_tail := u32 (producer + 1) |>) b
         (set_pc f t (PDone v true)) c h o)
| ps_return r b f c h o v res :
    f t = PDone v res ->
    producer_step t (mk_rstate r b f c h o)
      (mk_rstate r b (set_pc f t PIdle) c h o).

Inductive consumer_step : rstate V -> rstate V -> Prop :=
| cs_call r b f h o :
    consumer_step (mk_rstate r b f CIdle h o) (mk_rstate r b f (CLoadTail (c_head r)) h o)
| cs_empty r b f h o c :
    c = p_tail r ->
    consumer_step (mk_rstate r b f (CLoadTail c) h o) (mk_rstate r b f (CDone None) h o)
| cs_not_empty r b f h o c :
    c <> p_tail r ->
    consumer_step (mk_rstate r b f (CLoadTail c) h o) (mk_rstate r b f (CRead c) h o)
| cs_read r b f h o c v :
    b !! slot r c = Some v ->
    consumer_step (mk_rstate r b f (CRead c) h o) (mk_rstate r b f (CStore c v) h o)
| cs_store r b f h o c v :
    consumer_step (mk_rstate r b f (CStore c v) h o)
      (mk_rstate (r <| c_head := u32 (c + 1) |>) b f (CDone (Some v)) h (o ++ [v]))
| cs_return r b f h o res :
    consumer_step (mk_rstate r b f (CDone res) h o) (mk_rstate r b f CIdle h o).

Inductive ring_step (s s' : rstate V) : Prop :=
| rs_producer t : producer_step t s s' -> ring_step s s'
| rs_consumer : consumer_step s s' -> ring_step s s'.

(** A new ring of [n] slots with a buffer of that many cells. *)
Definition ring_start (n : Z) (s : rstate V) : Prop :=
  ring s = ck_ring_init n /\ Z.of_nat (length (buffer s)) = n /\
  (forall t, producers s t = PIdle) /\ consumer s = CIdle /\ hist s = [] /\ out s = [].
End Threads.

(** ** Lemmas: slots *)

Section Slots.
Context (k : Z) (Hk : 0 <= k <= 31).

(** The ring has 2^k slots. *)
Definition shape (r : ck_ring) : Prop := size r = 2 ^ k /\ mask r = 2 ^ k - 1.

Lemma pow_range : 1 <= 2 ^ k < 2 ^ 32.
Proof.
  split; [|apply Z.pow_lt_mono_r; lia].
  pose proof (Z.pow_pos_nonneg 2 k ltac:(lia) ltac:(lia)). lia.
Qed.

Lemma land_mask r x : shape r -> Z.land x (mask r) = x mod 2 ^ k.
Proof.
  intros [_ ->]. rewrite <- Z.land_ones by lia. f_equal. rewrite Z.ones_equiv. lia.
Qed.

Lemma wrap_mod x : u32 x mod 2 ^ k = x mod 2 ^ k.
Proof.
  apply Z.mod_mod_divide. exists (2 ^ (32 - k)). rewrite <- Z.pow_add_r by lia. f_equal. lia.
Qed.

Lemma slot_eq r x : shape r -> slot r x = Z.to_nat (x mod 2 ^ k).
Proof. intros Hs. unfold slot. by rewrite land_mask. Qed.

Lemma slot_wrap r x : shape r -> slot r (u32 x) = slot r x.
Proof. intros Hs. rewrite !slot_eq by done. by rewrite wrap_mod. Qed.

Lemma slot_range r x : shape r -> (slot r x < Z.to_nat (2 ^ k))%nat.
Proof.
  intros Hs. rewrite slot_eq by done. pose proof pow_range.
  pose proof (Z.mod_pos_bound x (2 ^ k) ltac:(lia)). lia.
Qed.

(** Counters less than a ring apart have different slots. *)
Lemma slot_inj r x y : shape r -> slot r x = slot r y -> - 2 ^ k < x - y < 2 ^ k -> x = y.
Proof.
  intros Hs. rewrite !slot_eq by done. intros E Hd. pose proof pow_range.
  pose proof (Z.mod_pos_bound x (2 ^ k) ltac:(lia)).
  pose proof (Z.mod_pos_bound y (2 ^ k) ltac:(lia)).
  assert (x mod 2 ^ k = y mod 2 ^ k) as E' by lia.
  pose proof (Z.div_mod x (2 ^ k) ltac:(lia)). pose proof (Z.div_mod y (2 ^ k) ltac:(lia)).
  assert (x - y = 2 ^ k * (x / 2 ^ k - y / 2 ^ k)) as Ed by lia.
  destruct (Z.lt_trichotomy (x / 2 ^ k - y / 2 ^ k) 0) as [Hq|[Hq|Hq]]; nia.
Qed.

(** The test for a full ring, for counters at most a ring apart. *)
Lemma is_full_spec r p c :
  shape r -> 0 <= p - c <= 2 ^ k - 1 -> is_full r p c = (p - c =? 2 ^ k - 1).
Proof.
  intros Hs Hd. unfold is_full. rewrite !land_mask, wrap_mod by done. pose proof pow_range.
  apply eq_true_iff_eq. rewrite !Z.eqb_eq. split; intros E.
  - assert ((p + 1 - c) mod 2 ^ k = 0) as E'.
    { rewrite Zminus_mod, E, Z.sub_diag. apply Zmod_0_l. }
    apply Z.mod_divide in E' as [q E']; [|lia].
    assert (q = 1) as -> by (destruct (Z.lt_trichotomy q 1) as [?|[?|?]]; nia). lia.
  - replace (p + 1) with (c + 1 * 2 ^ k) by lia. apply Z_mod_plus_full.
Qed.

Lemma is_full_wrap r p c d :
  shape r -> 0 <= d <= 2 ^ k - 1 -> p = u32 (c + d) -> is_full r p c = (d =? 2 ^ k - 1).
Proof.
  intros Hs Hd ->. replace d with (c + d - c) at 2 by lia. rewrite <- (is_full_spec r) by (done || lia).
  unfold is_full. rewrite !land_mask, !wrap_mod by done.
  by rewrite <- (Zplus_mod_idemp_l (u32 (c + d)) 1), wrap_mod, Zplus_mod_idemp_l.
Qed.

(** ** One caller: the ring is a bounded queue *)

Context {V : Type}.

(** The ring between calls holds the queue [q]. *)
Record holds (r : ck_ring) (b : list V) (q : list V) : Prop := {
  h_shape : shape r;
  h_buffer : Z.of_nat (length b) = 2 ^ k;
  h_head : 0 <= c_head r < 2 ^ 32;
  h_tail : p_tail r = p_head r;
  h_count : p_head r = u32 (c_head r + Z.of_nat (length q));
  h_room : Z.of_nat (length q) <= 2 ^ k - 1;
  h_slots : forall i, (i < length q)%nat ->
    b !! slot r (c_head r + Z.of_nat i) = q !! i;
}.

Lemma init_holds (b : list V) :
  Z.of_nat (length b) = 2 ^ k -> holds (ck_ring_init (2 ^ k)) b [].
Proof.
  intros Hb. pose proof pow_range. split; cbn; try done; try lia.
  split; cbn; [done|]. rewrite uwrap_small; lia.
Qed.

Lemma enqueue_spec r b q v :
  holds r b q ->
  exists r' b', ck_ring_enqueue_mpsc r b v =
    Some (Z.of_nat (length q) <? 2 ^ k - 1, r', b') /\
    holds r' b' (if Z.of_nat (length q) <? 2 ^ k - 1 then q ++ [v] else q).
Proof.
  intros [Hs Hb Hc Ht Hn Hq Hsl]. unfold ck_ring_enqueue_mpsc, ck_ring_enqueue_mp.
  rewrite (is_full_wrap r _ _ (Z.of_nat (length q))) by (done || lia).
  destruct (Z.eqb_spec (Z.of_nat (length q)) (2 ^ k - 1)) as [E|E].
  { replace (_ <? _) with false by lia. rewrite obind_Some. by exists r, b. }
  replace (_ <? _) with true by lia.
  change (slot (r <| p_head := u32 (p_head r + 1) |>) (p_head r)) with (slot r (p_head r)).
  unfold buffer_set. pose proof (slot_range r (p_head r) Hs) as Hlt.
  rewrite bool_decide_eq_true_2, obind_Some by lia.
  cbn [p_tail update]. rewrite Ht, Z.eqb_refl. cbn [negb]. rewrite obind_Some.
  eexists _, _. split; [reflexivity|].
  assert (slot r (p_head r) = slot r (c_head r + Z.of_nat (length q))) as Eslot
    by (rewrite Hn; by apply slot_wrap).
  split; cbn; try done.
  - by rewrite length_insert.
  - rewrite length_app, Hn. cbn. unfold uwrap. rewrite Zplus_mod_idemp_l. f_equal. lia.
  - rewrite length_app. cbn. lia.
  - intros i Hi. rewrite length_app in Hi. cbn in Hi.
    change (slot _ (c_head r + Z.of_nat i)) with (slot r (c_head r + Z.of_nat i)).
    destruct (decide (i = length q)) as [->|Hne].
    + rewrite Eslot, list_lookup_insert_eq by lia. by rewrite lookup_app_r, Nat.sub_diag by lia.
    + rewrite list_lookup_insert_ne; [by rewrite Hsl, lookup_app_l by lia|].
      rewrite Eslot. intros Eq. apply slot_inj in Eq; [lia|done|lia].
Qed.

Lemma dequeue_spec r b q :
  holds r b q ->
  match q with
  | [] => ck_ring_dequeue_mpsc r b = Some (None, r)
  | v :: q' => exists r', ck_ring_dequeue_mpsc r b = Some (Some v, r') /\ holds r' b q'
  end.
Proof.
  intros [Hs Hb Hc Ht Hn Hq Hsl]. unfold ck_ring_dequeue_mpsc. pose proof pow_range.
  assert (c_head r =? p_tail r = match q with [] => true | _ => false end) as E.
  { rewrite Ht, Hn. destruct q as [|v q]; cbn [length] in *.
    - rewrite Z.add_0_r, uwrap_small by lia. apply Z.eqb_refl.
    - apply Z.eqb_neq. intros E. rewrite <- (uwrap_small 32 (c_head r)) in E at 1 by lia.
      unfold uwrap in E. assert ((Z.of_nat (S (length q))) mod 2 ^ 32 = 0) as E0.
      { replace (Z.of_nat (S (length q))) with (c_head r + Z.of_nat (S (length q)) - c_head r) by lia.
        rewrite Zminus_mod, <- E, Z.sub_diag. apply Zmod_0_l. }
      rewrite Z.mod_small in E0; lia. }
  rewrite E. destruct q as [|v q]; [done|].
  pose proof (Hsl 0%nat ltac:(cbn; lia)) as H0. rewrite Z.add_0_r in H0. cbn in H0.
  rewrite H0, obind_Some. eexists. split; [reflexivity|].
  split; cbn; try done.
  - apply uwrap_range. lia.
  - rewrite Hn. cbn [length]. unfold uwrap. rewrite Zplus_mod_idemp_l. f_equal. lia.
  - cbn [length] in Hq. lia.
  - intros i Hi. change (slot _ ?x) with (slot r x).
    pose proof (Hsl (S i) ltac:(cbn; lia)) as Hi'.
    change ((v :: q) !! S i) with (q !! i) in Hi'. rewrite <- Hi'.
    f_equal. rewrite !slot_eq by done. f_equal.
    rewrite <- Zplus_mod_idemp_l, wrap_mod, Zplus_mod_idemp_l. f_equal. lia.
Qed.

Lemma size_spec r b q : holds r b q -> ck_ring_size r = Z.of_nat (length q).
Proof.
  intros [Hs Hb Hc Ht Hn Hq Hsl]. unfold ck_ring_size. rewrite land_mask, wrap_mod by done.
  rewrite Ht, Hn. rewrite Zminus_mod, wrap_mod, <- Zminus_mod.
  replace (_ - _) with (Z.of_nat (length q)) by lia. pose proof pow_range.
  rewrite Z.mod_small; lia.
Qed.
End Slots.

(** ** Threads: the invariant *)

Section Invariant.
Context (k : Z) (Hk : 0 <= k <= 31) {V : Type}.
Implicit Types (s : rstate V) (h o : list V).

(** The place a producer has reserved. *)
Definition ticket (pc : producer_pc V) : option Z :=
  match pc with
  | PWrite _ p | PWait _ p | PPublish _ p => Some p
  | _ => None
  end.

Definition producer_ok (r : ck_ring) (b : list V) (h : list V) (pc : producer_pc V) : Prop :=
  match pc with
  | PIdle | PLoadHead _ | PDone _ false => True
  | PLoadCons v p => 0 <= p <= p_head r
  | PCas v p c =>
      0 <= p <= p_head r /\ 0 <= c <= c_head r /\ (p = p_head r -> p + 1 - c <= 2 ^ k - 1)
  | PWrite v p => p_tail r <= p < p_head r /\ h !! Z.to_nat p = Some v
  | PWait v p =>
      p_tail r <= p < p_head r /\ h !! Z.to_nat p = Some v /\ b !! slot r p = Some v
  | PPublish v p =>
      p = p_tail r /\ p < p_head r /\ h !! Z.to_nat p = Some v /\ b !! slot r p = Some v
  | PDone v true => v ∈ h
  end.

Definition consumer_ok (r : ck_ring) (h : list V) (pc : consumer_pc V) : Prop :=
  match pc with
  | CIdle | CDone _ => True
  | CLoadTail c => c = c_head r
  | CRead c => c = c_head r /\ c < p_tail r
  | CStore c v => c = c_head r /\ c < p_tail r /\ h !! Z.to_nat c = Some v
  end.

Record ring_inv (s : rstate V) : Prop := {
  ri_shape : shape k (ring s);
  ri_buffer : Z.of_nat (length (buffer s)) = 2 ^ k;
  ri_hist : p_head (ring s) = Z.of_nat (length (hist s));
  ri_order : 0 <= c_head (ring s) <= p_tail (ring s) /\ p_tail (ring s) <= p_head (ring s);
  ri_room : p_head (ring s) <= c_head (ring s) + 2 ^ k - 1;
  ri_out : out s = take (Z.to_nat (c_head (ring s))) (hist s);
  ri_live : forall i, c_head (ring s) <= i < p_tail (ring s) ->
    buffer s !! slot (ring s) i = hist s !! Z.to_nat i;
  ri_producers : forall t, producer_ok (ring s) (buffer s) (hist s) (producers s t);
  ri_tickets : forall t u p, ticket (producers s t) = Some p ->
    ticket (producers s u) = Some p -> t = u;
  ri_owned : forall i, p_tail (ring s) <= i < p_head (ring s) ->
    exists t, ticket (producers s t) = Some i;
  ri_consumer : consumer_ok (ring s) (hist s) (consumer s);
}.

Lemma start_inv s : ring_start (2 ^ k) s -> ring_inv s.
Proof.
  intros (Hr & Hb & Hp & Hc & Hh & Ho). pose proof (pow_range k Hk).
  split; rewrite ?Hr, ?Hh, ?Ho, ?Hc; cbn; try done; try lia.
  - split; cbn; [done|]. rewrite uwrap_small; lia.
  - intros t. by rewrite Hp.
  - intros t u p. by rewrite Hp.
Qed.

Lemma set_pc_eq (f : nat -> producer_pc V) t pc : set_pc f t pc t = pc.
Proof. unfold set_pc. by rewrite Nat.eqb_refl. Qed.

Lemma set_pc_ne (f : nat -> producer_pc V) t u pc : u <> t -> set_pc f t pc u = f u.
Proof. intros H. unfold set_pc. by rewrite (proj2 (Nat.eqb_neq u t) H). Qed.

(** A step of producer [t]: the others are checked against the new shared
    state, and a new ticket is nobody else's. *)
Lemma producers_set r b h r' b' h' (f : nat -> producer_pc V) t pc :
  (forall u, producer_ok r b h (f u)) ->
  (forall u p, u <> t -> ticket (f u) = Some p -> ticket pc = Some p -> False) ->
  (forall u, u <> t -> producer_ok r b h (f u) -> producer_ok r' b' h' (f u)) ->
  producer_ok r' b' h' pc ->
  (forall t u p, ticket (f t) = Some p -> ticket (f u) = Some p -> t = u) ->
  (forall u, producer_ok r' b' h' (set_pc f t pc u)) /\
  (forall u w p, ticket (set_pc f t pc u) = Some p -> ticket (set_pc f t pc w) = Some p -> u = w).
Proof.
  intros Hall Hnew Hother Hpc Huniq. split.
  - intros u. destruct (decide (u = t)) as [->|Hne]; [by rewrite set_pc_eq|].
    rewrite set_pc_ne by done. by apply Hother.
  - intros u w p. destruct (decide (u = t)) as [->|Hu], (decide (w = t)) as [->|Hw];
      rewrite ?set_pc_eq, ?set_pc_ne by done; intros H1 H2; try done.
    + exfalso. by apply (Hnew w p).
    + exfalso. by apply (Hnew u p).
    + by apply (Huniq u w p).
Qed.

Lemma owner_same (f : nat -> producer_pc V) t u pc :
  ticket pc = ticket (f t) -> ticket (set_pc f t pc u) = ticket (f u).
Proof.
  intros E. destruct (decide (u = t)) as [->|Hne]; [by rewrite set_pc_eq|by rewrite set_pc_ne].
Qed.

(** Steps that only move the producer, without a new ticket. *)
Lemma local_inv r b f c h o t pc :
  ring_inv (mk_rstate r b f c h o) -> producer_ok r b h pc ->
  ticket pc = ticket (f t) ->
  ring_inv (mk_rstate r b (set_pc f t pc) c h o).
Proof.
  intros [H1 H2 H3 H4 H5 H6 H7 H8 H9 HO H10] Hpc Htk. cbn in *.
  destruct (producers_set r b h r b h f t pc H8) as [P1 P2]; try done.
  - intros u p Hne Hu Hp. apply Hne. apply (H9 u t p Hu). congruence.
  - split; try done. cbn. intros i Hi. destruct (HO i Hi) as [u Hu]. exists u.
    by rewrite owner_same.
Qed.

Lemma cas_inv r b f c h o t v p cc :
  ring_inv (mk_rstate r b f c h o) -> f t = PCas v p cc -> p_head r = p ->
  Z.of_nat (length (h ++ [v])) < 2 ^ 32 ->
  ring_inv (mk_rstate (r <| p_head := u32 (p + 1) |>) b
    (set_pc f t (PWrite v p)) c (h ++ [v]) o).
Proof.
  intros [H1 H2 H3 H4 H5 H6 H7 H8 H9 HO H10] Hf Hp Hlen. cbn in *.
  rewrite length_app in Hlen. cbn in Hlen.
  pose proof (H8 t) as Ht. rewrite Hf in Ht. destruct Ht as (Hpr & Hcc & Hroom).
  specialize (Hroom ltac:(done)).
  rewrite uwrap_small by lia.
  assert (h !! Z.to_nat p = None) as Hnone by (apply lookup_ge_None_2; lia).
  assert (forall i v', h !! i = Some v' -> (h ++ [v]) !! i = Some v') as Hext
    by (intros i v' E; by apply lookup_app_l_Some).
  destruct (producers_set r b h (r <| p_head := p + 1 |>) b (h ++ [v]) f t (PWrite v p))
    as [P1 P2]; try done.
  - intros u q Hne Hu [= ->]. pose proof (H8 u) as Hok.
    destruct (f u); cbn in Hu; try done; injection Hu as ->; cbn in Hok; lia.
  - intros u Hne Hok. destruct (f u) as [| |? q|? q c'|? q|? q|? q|? []]; cbn in *; try done.
    + lia.
    + lia.
    + destruct Hok as [? ?]. split; [lia|by apply Hext].
    + destruct Hok as (? & ? & ?). split; [lia|]. split; [by apply Hext|done].
    + destruct Hok as (? & ? & ? & ?). split; [done|]. split; [lia|]. split; [by apply Hext|done].
    + apply elem_of_app. by left.
  - cbn. split; [lia|]. rewrite lookup_app_r by lia.
    replace (Z.to_nat p - length h)%nat with 0%nat by lia. done.
  - split; cbn; try done; try lia.
    + rewrite length_app. cbn. lia.
    + rewrite take_app_le by lia. done.
    + intros i Hi. rewrite lookup_app_l by lia. by apply H7.
    + intros i Hi. destruct (decide (i = p)) as [->|Hne]; [exists t; by rewrite set_pc_eq|].
      destruct (HO i) as [u Hu]; [lia|]. exists u. rewrite set_pc_ne; [done|].
      intros ->. by rewrite Hf in Hu.
    + destruct c as [|c|c|c x|]; cbn in *; try done. destruct H10 as (? & ? & ?). auto.
Qed.

Lemma write_inv r b f c h o t v p b' :
  ring_inv (mk_rstate r b f c h o) -> f t = PWrite v p ->
  buffer_set b (slot r p) v = Some b' ->
  ring_inv (mk_rstate r b' (set_pc f t (PWait v p)) c h o).
Proof.
  intros [H1 H2 H3 H4 H5 H6 H7 H8 H9 HO H10] Hf Hset. cbn in *.
  unfold buffer_set in Hset. case_bool_decide as Hin; [|done]. injection Hset as <-.
  pose proof (H8 t) as Ht. rewrite Hf in Ht. destruct Ht as (Hpr & Hh).
  assert (forall i, c_head r <= i < p_head r -> i <> p ->
    <[slot r p := v]> b !! slot r i = b !! slot r i) as Hkeep.
  { intros i Hi Hne. apply list_lookup_insert_ne. intros E.
    apply (slot_inj k Hk) in E; [lia|done|lia]. }
  assert (<[slot r p := v]> b !! slot r p = Some v) as Hhit by (by apply list_lookup_insert_eq).
  destruct (producers_set r b h r (<[slot r p := v]> b) h f t (PWait v p)) as [P1 P2]; try done.
  - intros u q Hne Hu Hq. apply Hne, (H9 u t q Hu). by rewrite Hf.
  - intros u Hne Hok. destruct (f u) eqn:Eu; cbn in *; try done.
    + destruct Hok as (? & ? & ?). split_and!; auto; [lia|lia|]. rewrite Hkeep; [done|lia|].
      intros ->. apply Hne, (H9 u t p); by rewrite ?Eu, ?Hf.
    + destruct Hok as (? & ? & ? & ?). split_and!; auto. rewrite Hkeep; [done|lia|].
      intros ->. apply Hne, (H9 u t p); by rewrite ?Eu, ?Hf.
  - split; cbn; try done.
    + by rewrite length_insert.
    + intros i Hi. rewrite Hkeep by lia. by apply H7.
    + intros i Hi. destruct (HO i Hi) as [u Hu]. exists u. rewrite owner_same; [done|by rewrite Hf].
Qed.

Lemma publish_inv r b f c h o t v p :
  ring_inv (mk_rstate r b f c h o) -> f t = PPublish v p ->
  Z.of_nat (length h) < 2 ^ 32 ->
  ring_inv (mk_rstate (r <| p_tail := u32 (p + 1) |>) b (set_pc f t (PDone v true)) c h o).
Proof.
  intros [H1 H2 H3 H4 H5 H6 H7 H8 H9 HO H10] Hf Hlen. cbn in *.
  pose proof (H8 t) as Ht. rewrite Hf in Ht. destruct Ht as (Hp & Hlt & Hh & Hb).
  rewrite uwrap_small by lia.
  destruct (producers_set r b h (r <| p_tail := p + 1 |>) b h f t (PDone v true))
    as [P1 P2]; try done.
  - intros u Hne Hok.
    assert (forall q, ticket (f u) = Some q -> q <> p) as Hother.
    { intros q Hq ->. apply Hne, (H9 u t p Hq). by rewrite Hf. }
    destruct (f u); cbn in *; try done.
    + specialize (Hother _ eq_refl). destruct Hok. split; [lia|done].
    + specialize (Hother _ eq_refl). destruct Hok as (? & ? & ?). split_and!; auto; lia.
    + specialize (Hother _ eq_refl). destruct Hok as (? & ? & ?). lia.
  - cbn. by apply list_elem_of_lookup_2 in Hh.
  - split; cbn; try done; try lia.
    + intros i Hi. destruct (decide (i = p)) as [->|Hne]; [by rewrite Hh|].
      apply H7. lia.
    + intros i Hi. destruct (HO i) as [u Hu]; [lia|]. exists u. rewrite set_pc_ne; [done|].
      intros ->. rewrite Hf in Hu. injection Hu as ->. lia.
    + destruct c; cbn in *; try done; [destruct H10; split; [done|lia]|].
      destruct H10 as (? & ? & ?). split; [done|]. split; [lia|done].
Qed.

Lemma store_inv r b f h o c v :
  ring_inv (mk_rstate r b f (CStore c v) h o) -> Z.of_nat (length h) < 2 ^ 32 ->
  ring_inv (mk_rstate (r <| c_head := u32 (c + 1) |>) b f (CDone (Some v)) h (o ++ [v])).
Proof.
  intros [H1 H2 H3 H4 H5 H6 H7 H8 H9 HO (Hc & Hlt & Hh)] Hlen. cbn in *.
  rewrite uwrap_small by lia. split; cbn; try done; try lia.
  - rewrite H6, Hc. replace (Z.to_nat (c_head r + 1)) with (S (Z.to_nat (c_head r))) by lia.
    symmetry. apply take_S_r. by rewrite <- Hc.
  - intros i Hi. apply H7. lia.
  - intros t. pose proof (H8 t) as Hok. destruct (f t); cbn in *; try done.
    destruct Hok as (? & ? & ?). split; [done|]. split; [lia|done].
Qed.

Lemma full_room r p c :
  shape k r -> is_full r p c = false -> c <= p -> p <= c + 2 ^ k - 1 -> p + 1 - c <= 2 ^ k - 1.
Proof.
  intros Hs Hf H1 H2. rewrite (is_full_spec k Hk) in Hf by (done || lia). apply Z.eqb_neq in Hf. lia.
Qed.

Lemma producer_step_inv t s s' :
  ring_inv s -> producer_step t s s' -> Z.of_nat (length (hist s')) < 2 ^ 32 -> ring_inv s'.
Proof.
  intros Hinv Hstep Hlen.
  destruct Hstep as [r b f c h o v Hf|r b f c h o v Hf|r b f c h o v p Hf Hfull
    |r b f c h o v p Hf Hfull|r b f c h o v p cc Hf Hp|r b f c h o v p cc Hf Hp
    |r b f c h o v p b' Hf Hset|r b f c h o v p Hf Hp|r b f c h o v p Hf Hp
    |r b f c h o v p Hf|r b f c h o v res Hf]; cbn in Hlen;
  pose proof (ri_producers _ Hinv t) as Ht; cbn in Ht; rewrite Hf in Ht;
  pose proof (ri_order _ Hinv) as Ho; pose proof (ri_room _ Hinv) as Hroom; cbn in Ho, Hroom.
  - apply local_inv; [done|done|by rewrite Hf].
  - apply local_inv; [done|cbn; lia|by rewrite Hf].
  - apply local_inv; [done|done|by rewrite Hf].
  - apply local_inv; [done| |by rewrite Hf]. cbn in Ht |- *. split; [done|]. split; [lia|]. intros ->.
    apply (full_room r); [apply (ri_shape _ Hinv)|done|lia|lia].
  - by apply (cas_inv r b f c h o t v p cc).
  - apply local_inv; [done|cbn; lia|by rewrite Hf].
  - by apply (write_inv r b f c h o t v p).
  - done.
  - apply local_inv; [done| |by rewrite Hf]. cbn in Ht |- *. destruct Ht as (? & ? & ?).
    split; [done|]. split; [lia|done].
  - by apply publish_inv.
  - apply local_inv; [done|done|by rewrite Hf].
Qed.

Lemma consumer_step_inv s s' :
  ring_inv s -> consumer_step s s' -> Z.of_nat (length (hist s')) < 2 ^ 32 -> ring_inv s'.
Proof.
  intros Hinv Hstep Hlen. pose proof (ri_order _ Hinv) as Ho. pose proof (ri_consumer _ Hinv) as Hc.
  destruct Hstep as [r b f h o|r b f h o c E|r b f h o c E|r b f h o c v E|r b f h o c v|r b f h o res];
    cbn in *; try (destruct Hinv; by split).
  - destruct Hinv. split; try done. cbn. split; [done|lia].
  - destruct Hc as [Hc Hlt]. pose proof (ri_live _ Hinv c ltac:(cbn; lia)) as Hl. cbn in Hl.
    destruct Hinv. split; try done. cbn. split; [done|]. split; [done|]. congruence.
  - by apply store_inv.
Qed.

Lemma step_hist s s' : ring_step s s' -> (length (hist s) <= length (hist s'))%nat.
Proof.
  intros [t Hs|Hs]; destruct Hs; cbn; try lia. rewrite length_app. lia.
Qed.

Lemma reachable_inv s :
  reachable (ring_start (2 ^ k)) ring_step s -> Z.of_nat (length (hist s)) < 2 ^ 32 -> ring_inv s.
Proof.
  induction 1 as [s Hs|s s' Hr IH Hstep]; intros Hlen; [by apply start_inv|].
  pose proof (step_hist s s' Hstep). specialize (IH ltac:(lia)).
  destruct Hstep as [t Hs|Hs]; [by eapply producer_step_inv|by eapply consumer_step_inv].
Qed.
End Invariant.

(** ** Theorems *)

(** For one caller at a time the ring is a bounded queue: with a number of
    slots that is a power of two, and whatever the values of the 32-bit
    counters, an enqueue appends to the queue and returns true unless it holds
    all slots but one, when it returns false and changes nothing; a dequeue
    takes the oldest value, and finds the ring empty exactly when the queue is;
    ck_ring_size is the length of the queue. *)
Theorem ring_is_bounded_queue {V} k (r : ck_ring) (b q : list V) (v : V) :
  0 <= k <= 31 -> holds k r b q ->
  (exists r' b', ck_ring_enqueue_mpsc r b v = Some (Z.of_nat (length q) <? 2 ^ k - 1, r', b') /\
   holds k r' b' (if Z.of_nat (length q) <? 2 ^ k - 1 then q ++ [v] else q)) /\
  match q with
  | [] => ck_ring_dequeue_mpsc r b = Some (None, r)
  | x :: q' => exists r', ck_ring_dequeue_mpsc r b = Some (Some x, r') /\ holds k r' b q'
  end /\
  ck_ring_size r = Z.of_nat (length q).
Proof.
  intros Hk Hh. split; [by apply enqueue_spec|]. split; [by apply dequeue_spec|].
  by eapply size_spec.
Qed.

(** A ring of four slots whose counters are about to wrap around. *)
Definition wrap_ring : ck_ring := mk_ck_ring (2 ^ 32 - 2) 0 0 4 3.

Lemma wrap_ring_holds : holds 2 wrap_ring [7; 8; 5; 6] [5; 6].
Proof.
  split; [by split|by vm_compute|cbn; lia|by vm_compute|by vm_compute|by vm_compute|].
  intros i Hi. cbn in Hi. destruct i as [|[|i]]; [vm_compute; done..|lia].
Qed.

Lemma ring_is_bounded_queue_witness :
  (exists r' b', ck_ring_enqueue_mpsc wrap_ring [7; 8; 5; 6] 9 = Some (true, r', b') /\
   holds 2 r' b' [5; 6; 9]) /\
  exists r', ck_ring_dequeue_mpsc wrap_ring [7; 8; 5; 6] = Some (Some 5, r') /\
    holds 2 r' [7; 8; 5; 6] [6].
Proof.
  assert (0 <= 2 <= 31) as Hk by lia.
  destruct (ring_is_bounded_queue 2 wrap_ring [7; 8; 5; 6] [5; 6] 9 Hk wrap_ring_holds)
    as (H1 & H2 & _).
  split; [exact H1|exact H2].
Defined.

(** C13: The concurrent ring is a FIFO as long as fewer than 2^32 values have
    been enqueued in all, so that its 32-bit counters have not wrapped around.
    In every interleaving of any number of producers with the one consumer up
    to there: the values dequeued are, in order, the first ones of the values
    whose slot was reserved; an enqueue that has returned true is among the
    reserved ones; and every value published and not dequeued yet is in its
    slot, untouched by the producers that write concurrently, so it will be
    the result of its dequeue. The wrap-around is covered for one caller at a
    time only (ring_is_bounded_queue). *)
Theorem ring_concurrent_fifo {V} k (s : rstate V) :
  0 <= k <= 31 -> reachable (ring_start (2 ^ k)) ring_step s ->
  Z.of_nat (length (hist s)) < 2 ^ 32 ->
  out s = take (length (out s)) (hist s) /\
  Z.of_nat (length (out s)) = c_head (ring s) /\
  (forall t v, producers s t = PDone v true -> v ∈ hist s) /\
  (forall i, c_head (ring s) <= i < p_tail (ring s) ->
   buffer s !! slot (ring s) i = hist s !! Z.to_nat i) /\
  (forall c v, consumer s = CStore c v -> hist s !! length (out s) = Some v).
Proof.
  intros Hk Hr Hlen. pose proof (reachable_inv k Hk s Hr Hlen) as Hinv.
  pose proof (ri_order _ _ Hinv) as Ho. pose proof (ri_hist _ _ Hinv) as Hh.
  assert (length (out s) = Z.to_nat (c_head (ring s))) as Hl.
  { rewrite (ri_out _ _ Hinv), length_take. lia. }
  split; [rewrite Hl; apply (ri_out _ _ Hinv)|]. split; [lia|]. split; [|split].
  - intros t v E. pose proof (ri_producers _ _ Hinv t) as Ht. by rewrite E in Ht.
  - apply (ri_live _ _ Hinv).
  - intros c v E. pose proof (ri_consumer _ _ Hinv) as Hc. rewrite E in Hc.
    destruct Hc as (-> & _ & Hv). by rewrite Hl.
Qed.

(** No thread of the ring reads or writes outside of the buffer, and no
    producer waits in vain: a producer that reserved a slot can write it, the
    consumer can read the slot it has found full, and while reserved slots are
    not published, the producer that reserved the first of them has only steps
    of its own left until it publishes it. *)
Theorem ring_accesses_and_progress {V} k (s : rstate V) :
  0 <= k <= 31 -> reachable (ring_start (2 ^ k)) ring_step s ->
  Z.of_nat (length (hist s)) < 2 ^ 32 ->
  (forall t v p, producers s t = PWrite v p ->
   exists b, buffer_set (buffer s) (slot (ring s) p) v = Some b) /\
  (forall c, consumer s = CRead c -> exists v, buffer s !! slot (ring s) c = Some v) /\
  (p_tail (ring s) < p_head (ring s) -> exists t v,
   producers s t = PWrite v (p_tail (ring s)) \/ producers s t = PWait v (p_tail (ring s)) \/
   producers s t = PPublish v (p_tail (ring s))).
Proof.
  intros Hk Hr Hlen. pose proof (reachable_inv k Hk s Hr Hlen) as Hinv.
  pose proof (ri_buffer _ _ Hinv) as Hb.
  assert (forall x, (slot (ring s) x < length (buffer s))%nat) as Hslot.
  { intros x. pose proof (slot_range k Hk (ring s) x (ri_shape _ _ Hinv)). lia. }
  split; [|split].
  - intros t v p _. unfold buffer_set. rewrite bool_decide_eq_true_2 by done. by eexists.
  - intros c _. by apply lookup_lt_is_Some_2.
  - intros Hlt. destruct (ri_owned _ _ Hinv (p_tail (ring s))) as [t Ht]; [lia|].
    exists t. destruct (producers s t); cbn in Ht; try done; injection Ht as ->; eauto.
Qed.

(** ** An execution for the witnesses, and the spurious failure

    Two producers of a ring of eight slots.  Producer 0 is stopped after its
    first load; producer 1 enqueues 11, and the consumer takes it. *)

Abbreviation rreach := (reachable (ring_start (V := Z) (2 ^ 3)) ring_step).

Definition start8 : rstate Z :=
  mk_rstate (ck_ring_init 8) (replicate 8 0) (fun _ => PIdle) CIdle [] [].

Definition taken_state : rstate Z :=
  mk_rstate (mk_ck_ring 1 1 1 8 7) (11 :: replicate 7 0)
    (set_pc (set_pc (set_pc (set_pc (set_pc (set_pc (set_pc (set_pc (set_pc (fun _ => PIdle)
       0 (PLoadHead 10)) 0 (PLoadCons 10 0)) 1 (PLoadHead 11)) 1 (PLoadCons 11 0))
       1 (PCas 11 0 0)) 1 (PWrite 11 0)) 1 (PWait 11 0)) 1 (PPublish 11 0)) 1 (PDone 11 true))
    (CDone (Some 11)) [11] [11].

Lemma taken_reachable : rreach taken_state.
Proof.
  unfold taken_state.
  eapply reach_step; [|apply rs_consumer; apply (cs_store (mk_ck_ring 0 1 1 8 7) _ _ [11] [] 0 11)].
  eapply reach_step; [|apply rs_consumer; by apply cs_read].
  eapply reach_step; [|apply rs_consumer; by apply cs_not_empty].
  eapply reach_step; [|apply rs_consumer; apply cs_call].
  eapply reach_step; [|apply (rs_producer _ _ 1);
    by apply (ps_publish 1 (mk_ck_ring 0 0 1 8 7) _ _ _ _ _ 11 0)].
  eapply reach_step; [|apply (rs_producer _ _ 1); by eapply ps_wait].
  eapply reach_step; [|apply (rs_producer _ _ 1);
    by apply (ps_write 1 _ (replicate 8 0) _ _ _ _ 11 0)].
  eapply reach_step; [|apply (rs_producer _ _ 1);
    by apply (ps_cas_ok 1 (ck_ring_init 8) _ _ _ [] _ 11 0 0)].
  eapply reach_step; [|apply (rs_producer _ _ 1);
    by apply (ps_not_full 1 (ck_ring_init 8) _ _ _ _ _ 11 0)].
  eapply reach_step; [|apply (rs_producer _ _ 1); by apply (ps_load_head 1 (ck_ring_init 8))].
  eapply reach_step; [|apply (rs_producer _ _ 1); by apply ps_call].
  eapply reach_step; [|apply (rs_producer _ _ 0); by apply (ps_load_head 0 (ck_ring_init 8))].
  eapply reach_step; [|apply (rs_producer _ _ 0); by apply ps_call].
  apply reach_init. by split_and!.
Qed.

Lemma ring_concurrent_fifo_witness :
  rreach taken_state /\ out taken_state = [11] /\
  out taken_state = take (length (out taken_state)) (hist taken_state).
Proof.
  assert (0 <= 3 <= 31) as Hk by lia.
  assert (Z.of_nat (length (hist taken_state)) < 2 ^ 32) as Hl by (vm_compute; reflexivity).
  destruct (ring_concurrent_fifo 3 taken_state Hk taken_reachable Hl) as (H & _).
  split; [exact taken_reachable|]. split; [reflexivity|exact H].
Defined.

Lemma ring_accesses_and_progress_witness :
  rreach taken_state /\
  forall c, consumer taken_state = CRead c ->
  exists v, buffer taken_state !! slot (ring taken_state) c = Some v.
Proof.
  assert (0 <= 3 <= 31) as Hk by lia.
  assert (Z.of_nat (length (hist taken_state)) < 2 ^ 32) as Hl by (vm_compute; reflexivity).
  destruct (ring_accesses_and_progress 3 taken_state Hk taken_reachable Hl) as (_ & H & _).
  split; [exact taken_reachable|exact H].
Defined.

(** An enqueue can fail although the ring is empty: a producer that is stopped
    between its loads of the two counters, while another value passes through
    the ring, compares its old producer counter with the new consumer counter,
    takes the ring for full and returns false. *)
Theorem ring_spurious_full :
  exists (s : rstate Z) t v, rreach s /\
    producers s t = PDone v false /\
    c_head (ring s) = p_head (ring s) /\ p_tail (ring s) = p_head (ring s) /\
    ck_ring_size (ring s) = 0 /\ size (ring s) = 8.
Proof.
  exists (mk_rstate (ring taken_state) (buffer taken_state)
    (set_pc (producers taken_state) 0 (PDone 10 false))
    (consumer taken_state) (hist taken_state) (out taken_state)), 0%nat, 10.
  split; [|by split_and!].
  eapply reach_step; [apply taken_reachable|]. apply (rs_producer _ _ 0).
  by apply (ps_full 0 (ring taken_state) _ _ _ _ _ 10 0).
Qed.
