(* ===== verification/Executor.v ===== *)
(** * The message loop (binding/native/src/binding_executor.c, binding_common.h)

    Dart threads send messages through the ring to a fiber of Tarantool's
    transaction thread, which executes them and posts them back.  A message is
    a record that stands for the C object its pointer refers to; [m_id] is the
    pointer.  The box is an interface ([Box]): the transaction calls, the
    functions that messages carry and the diagnostics area.

    The functions of the loop are programs on [exec].  A system is the loop
    thread and the sending threads; a step of a thread contains one operation
    on the ring, which [Ring] shows to be a FIFO.  Using the buffer before it
    is allocated or after it is freed is [Abort]. *)

From Stdlib Require Import String.
From stdpp Require Import strings.
From S2P Require Import Prelude Double Ring.

Open Scope Z_scope.

(** ** Data *)

Inductive tarantool_message_type :=
| TARANTOOL_MESSAGE_CALL
| TARANTOOL_MESSAGE_BATCH
| TARANTOOL_MESSAGE_STOP
| TARANTOOL_MESSAGE_BEGIN
| TARANTOOL_MESSAGE_COMMIT
| TARANTOOL_MESSAGE_ROLLBACK
| tarantool_message_type_other (code : Z).

Inductive tarantool_error_type :=
| TARANTOOL_ERROR_LIMIT
| TARANTOOL_ERROR_INTERNAL.

(** The parts of the server the loop calls.  [F], [Inp] and [Out] are the functions
    that messages carry, their arguments and their results. *)
Class Box (B F Inp Out : Type) := {
  in_txn : B -> bool;
  box_txn_begin : B -> Z * B;
  box_txn_commit : B -> Z * B;
  box_txn_rollback : B -> Z * B;
  run_function : F -> Inp -> B -> Out * B;
  diag_last_error : B -> option string;
  diag_clear : B -> B;
}.

(** Documented behaviour the theorems on shutdown rely on: outside of a
    transaction, a commit or a rollback does nothing, and a function that a
    message carries does not leave a transaction open. *)
Class BoxLaws (B F Inp Out : Type) `{Box B F Inp Out} := {
  commit_idle : forall b, in_txn b = false -> in_txn (box_txn_commit b).2 = false;
  rollback_idle : forall b, in_txn b = false -> in_txn (box_txn_rollback b).2 = false;
  run_function_idle : forall f i b, in_txn b = false -> in_txn (run_function f i b).2 = false;
  diag_clear_txn : forall b, in_txn (diag_clear b) = in_txn b;
}.

Section Executor.
Context {B F Inp Out : Type} `{!Box B F Inp Out}.

Record batch_element := mk_batch_element {
  be_function : F;
  be_input : Inp;
  be_output : option Out;
  be_error : option string;
  be_error_type : option tarantool_error_type;
}.
#[export] Instance batch_element_rebuild : Rebuild batch_element := fun e =>
  mk_batch_element (be_function e) (be_input e) (be_output e) (be_error e) (be_error_type e).

Record message := mk_message {
  m_id : Z;
  m_type : tarantool_message_type;
  m_function : F;
  m_input : Inp;
  m_output : option Out;
  m_port : Z;
  m_batch : list batch_element;
  m_error : option string;
  m_error_type : option tarantool_error_type;
  m_owner : Z;
}.
#[export] Instance message_rebuild : Rebuild message := fun m =>
  mk_message (m_id m) (m_type m) (m_function m) (m_input m) (m_output m) (m_port m)
    (m_batch m) (m_error m) (m_error_type m) (m_owner m).

(** An executed message: who sent it, what it asked for, and whether a
    transaction was open when its turn came. *)
Record event := mk_event {
  e_owner : Z;
  e_type : tarantool_message_type;
  e_open : bool;
}.

Record configuration := mk_configuration {
  cf_max_sleep_seconds : double;
  cf_regular_sleep_seconds : double;
  cf_max_empty_cycles : Z;
  cf_empty_cycles_multiplier : Z;
  cf_initial_empty_cycles : Z;
  cf_ring_size : Z;
  cf_ring_retry_max_count : Z;
}.

(** The static variables of the file, the thread-local ones of the loop thread,
    the locals of tarantool_message_loop_start, and what the loop does to the
    outside: messages posted to Dart, messages executed,
    sleeps, and messages freed or ignored without an answer, most recent
    first. *)
Record exec := mk_exec {
  x_ring : ck_ring;
  x_buffer : option (list message);
  x_active : bool;
  x_owner : Z;
  x_backoff : Z;
  x_retry_max : Z;
  x_empty_cycles : Z;
  x_empty_limit : Z;
  x_box : B;
  x_posted : list message;
  x_trace : list event;
  x_slept : list double;
  x_dropped : list message;
}.
#[export] Instance exec_rebuild : Rebuild exec := fun x =>
  mk_exec (x_ring x) (x_buffer x) (x_active x) (x_owner x) (x_backoff x) (x_retry_max x)
    (x_empty_cycles x) (x_empty_limit x) (x_box x) (x_posted x) (x_trace x) (x_slept x)
    (x_dropped x).

Abbreviation xprog := (prog exec).

(** ** Backoff (ck_backoff.h) *)

Definition CK_BACKOFF_CEILING : Z := Z.shiftl 1 20 - 1.
Definition CK_BACKOFF_INITIALIZER : Z := Z.shiftl 1 9.
Definition ck_backoff_eb (c : Z) : Z :=
  u32 (Z.shiftl c (if c <? CK_BACKOFF_CEILING then 1 else 0)).

(** ** The ring of the loop *)

Definition ring_enqueue (m : message) : xprog bool := fun x =>
  match x_buffer x with
  | None => Abort
  | Some b =>
      match ck_ring_enqueue_mpsc (x_ring x) b m with
      | Some (ok, r, b) => Done (ok, x <| x_ring := r |> <| x_buffer := Some b |>)
      | None => Abort
      end
  end.

Definition ring_dequeue : xprog (option message) := fun x =>
  match x_buffer x with
  | None => Abort
  | Some b =>
      match ck_ring_dequeue_mpsc (x_ring x) b with
      | Some (m, r) => Done (m, x <| x_ring := r |>)
      | None => Abort
      end
  end.

(** ** Handlers *)

Definition dart_post_pointer (m : message) : xprog unit :=
  modify (fun x => x <| x_posted ::= cons m |>).

Definition executed (m : message) : xprog unit :=
  modify (fun x => x <| x_trace ::= cons (mk_event (m_owner m) (m_type m) (in_txn (x_box x))) |>).

Definition dropped (m : message) : xprog unit :=
  modify (fun x => x <| x_dropped ::= cons m |>).

Definition tarantool_message_handle_call (m : message) : xprog message :=
  b ← gets x_box;
  let '(o, b) := run_function (m_function m) (m_input m) b in
  let m := m <| m_output := Some o |> in
  match diag_last_error b with
  | Some e =>
      modify (fun x => x <| x_box := diag_clear b |>);;
      mret (m <| m_error := Some e |> <| m_error_type := Some TARANTOOL_ERROR_INTERNAL |>)
  | None => modify (fun x => x <| x_box := b |>);; mret m
  end.

Definition handle_batch_element (e : batch_element) : xprog batch_element :=
  b ← gets x_box;
  let '(o, b) := run_function (be_function e) (be_input e) b in
  let e := e <| be_output := Some o |> in
  match diag_last_error b with
  | Some err =>
      modify (fun x => x <| x_box := diag_clear b |>);;
      mret (e <| be_error := Some err |> <| be_error_type := Some TARANTOOL_ERROR_INTERNAL |>)
  | None => modify (fun x => x <| x_box := b |>);; mret e
  end.

Fixpoint handle_batch (es : list batch_element) : xprog (list batch_element) :=
  match es with
  | [] => mret []
  | e :: es => e ← handle_batch_element e; es ← handle_batch es; mret (e :: es)
  end.

Definition tarantool_message_handle_batch (m : message) : xprog message :=
  es ← handle_batch (m_batch m);
  mret (m <| m_batch := es |>).

Definition tarantool_begin : xprog Z := fun x =>
  let '(rc, b) := box_txn_begin (x_box x) in Done (rc, x <| x_box := b |>).
Definition tarantool_commit : xprog Z := fun x =>
  let '(rc, b) := box_txn_commit (x_box x) in Done (rc, x <| x_box := b |>).
Definition tarantool_rollback : xprog Z := fun x =>
  let '(rc, b) := box_txn_rollback (x_box x) in Done (rc, x <| x_box := b |>).

(** The switch of tarantool_message_handle. *)
Definition tarantool_message_execute (m : message) : xprog unit :=
  match m_type m with
  | TARANTOOL_MESSAGE_CALL =>
      executed m;; m ← tarantool_message_handle_call m; dart_post_pointer m
  | TARANTOOL_MESSAGE_BATCH =>
      executed m;; m ← tarantool_message_handle_batch m; dart_post_pointer m
  | TARANTOOL_MESSAGE_BEGIN =>
      executed m;;
      modify (fun x => x <| x_owner := m_owner m |>);;
      _ ← tarantool_begin; dart_post_pointer m
  | TARANTOOL_MESSAGE_ROLLBACK => executed m;; _ ← tarantool_rollback; dart_post_pointer m
  | TARANTOOL_MESSAGE_COMMIT => executed m;; _ ← tarantool_commit; dart_post_pointer m
  | _ => dropped m
  end.

(** A message of somebody else during a transaction. *)
Definition is_foreign (m : message) (x : exec) : bool :=
  in_txn (x_box x) && negb (m_owner m =? x_owner x).

Definition MESSAGE_SEND_ERROR : string :=
  "Failed to resend message into the ring during transaction".

(** One turn of the loop that sends a foreign message back to the ring: the new
    count of failures, or [None] when the loop is left. *)
Definition resend_failed (m : message) (count : Z) : xprog (option Z) :=
  modify (fun x => x <| x_backoff ::= ck_backoff_eb |>);;
  max ← gets x_retry_max;
  if max <=? count + 1 then
    modify (fun x => x <| x_backoff := CK_BACKOFF_INITIALIZER |>);;
    dart_post_pointer (m <| m_error := Some MESSAGE_SEND_ERROR |>
                         <| m_error_type := Some TARANTOOL_ERROR_LIMIT |>);;
    mret None
  else mret (Some (count + 1)).

Definition resend_attempt (m : message) (count : Z) : xprog (option Z) :=
  ok ← ring_enqueue m;
  if ok : bool then
    modify (fun x => x <| x_backoff := CK_BACKOFF_INITIALIZER |>);; mret None
  else resend_failed m count.

(** The loop, alone on the ring. *)
Fixpoint resend (fuel : nat) (m : message) (count : Z) : xprog bool :=
  match fuel with
  | O => mret false
  | S fuel =>
      next ← resend_attempt m count;
      match next with
      | None => mret true
      | Some count => resend fuel m count
      end
  end.

(** [false]: the loop has not ended. *)
Definition tarantool_message_handle (fuel : nat) (m : message) : xprog bool :=
  foreign ← gets (is_foreign m);
  if foreign : bool then resend fuel m 0
  else tarantool_message_execute m;; mret true.

(** ** The loop *)

(** [junk] is what malloc returns; [None] is a failed allocation. *)
Definition tarantool_message_loop_initialize (cf : configuration) (junk : option (list message))
    : xprog unit :=
  match junk with
  | None => skip
  | Some b =>
      modify (fun x => x <| x_buffer := Some b |>
        <| x_ring := ck_ring_init (u32 (cf_ring_size cf)) |>
        <| x_retry_max := i32 (cf_ring_retry_max_count cf) |>
        <| x_active := true |>)
  end.

(** Where the loop thread is: at the head of the loop, with a message in
    tarantool_message_handle, in the loop that sends it back, and the same in
    the loop that empties the ring after a stop. *)
Inductive loop_pc :=
| L_top
| L_handle (m : message)
| L_resend (m : message) (count : Z)
| L_drain
| L_drain_handle (m : message)
| L_drain_resend (m : message) (count : Z)
| L_exited.

Definition is_stop (m : message) : bool :=
  match m_type m with TARANTOOL_MESSAGE_STOP => true | _ => false end.

(** A turn that found the ring empty. *)
Definition loop_idle (cf : configuration) : xprog unit :=
  x ← gets (fun x => x);
  if in_txn (x_box x) then skip
  else
    modify (fun x => x <| x_empty_cycles ::= fun n => i32 (n + 1) |>);;
    x ← gets (fun x => x);
    if cf_max_empty_cycles cf <=? x_empty_cycles x then
      modify (fun x => x <| x_slept ::= cons (cf_max_sleep_seconds cf) |>)
    else if x_empty_limit x <=? x_empty_cycles x then
      modify (fun x => x <| x_empty_limit ::= fun n => i32 (n * cf_empty_cycles_multiplier cf) |>
                         <| x_slept ::= cons (cf_regular_sleep_seconds cf) |>)
    else skip.

(** The loop that sends a message back, and where the thread goes after a turn
    of it. *)
Definition resending (pc : loop_pc) : option (message * Z) :=
  match pc with
  | L_resend m count | L_drain_resend m count => Some (m, count)
  | _ => None
  end.
Definition resume (pc : loop_pc) (next : option Z) : loop_pc :=
  match pc, next with
  | L_resend _ _, None => L_top
  | L_resend m _, Some count => L_resend m count
  | L_drain_resend _ _, None => L_drain
  | L_drain_resend m _, Some count => L_drain_resend m count
  | _, _ => pc
  end.

Definition loop_step (cf : configuration) (pc : loop_pc) : xprog loop_pc :=
  match pc with
  | L_top =>
      active ← gets x_active;
      if negb active then mret L_exited
      else
        o ← ring_dequeue;
        match o with
        | Some m =>
            modify (fun x => x <| x_empty_cycles := 0 |>
                               <| x_empty_limit := cf_initial_empty_cycles cf |>);;
            if negb (is_stop m) then mret (L_handle m)
            else
              modify (fun x => x <| x_active := false |>);;
              dropped m;; mret L_drain
        | None => loop_idle cf;; mret L_top
        end
  | L_handle m =>
      foreign ← gets (is_foreign m);
      if foreign : bool then mret (L_resend m 0)
      else tarantool_message_execute m;; mret L_top
  | L_resend m count =>
      next ← resend_attempt m count; mret (resume pc next)
  | L_drain =>
      o ← ring_dequeue;
      match o with
      | Some m => mret (L_drain_handle m)
      | None => modify (fun x => x <| x_buffer := None |>);; mret L_exited
      end
  | L_drain_handle m =>
      foreign ← gets (is_foreign m);
      if foreign : bool then mret (L_drain_resend m 0)
      else tarantool_message_execute m;; mret L_drain
  | L_drain_resend m count =>
      next ← resend_attempt m count; mret (resume pc next)
  | L_exited => mret L_exited
  end.

(** The locals of the loop at its start. *)
Definition loop_locals (cf : configuration) (x : exec) : exec :=
  x <| x_empty_cycles := 0 |> <| x_empty_limit := cf_initial_empty_cycles cf |>.

(** tarantool_message_loop_start alone, for a number of steps. *)
Fixpoint loop_run (cf : configuration) (fuel : nat) (pc : loop_pc) : xprog loop_pc :=
  match fuel with
  | O => mret pc
  | S fuel => pc ← loop_step cf pc; loop_run cf fuel pc
  end.

(** ** Senders *)

Inductive sender_pc :=
| S_idle
| S_try (m : message) (count backoff : Z)
| S_done (m : message) (result : bool).

(** tarantool_send_message up to its first attempt. *)
Definition send_begin (m : message) : xprog sender_pc :=
  active ← gets x_active;
  mret (if active : bool then S_try m 0 CK_BACKOFF_INITIALIZER else S_done m false).

(** One turn of its loop. *)
Definition send_failed (m : message) (count backoff : Z) : xprog sender_pc :=
  max ← gets x_retry_max;
  if max <=? count + 1 then mret (S_done m false)
  else mret (S_try m (count + 1) (ck_backoff_eb backoff)).

Definition send_attempt (m : message) (count backoff : Z) : xprog sender_pc :=
  ok ← ring_enqueue m;
  if ok : bool then mret (S_done m true) else send_failed m count backoff.

(** tarantool_message_loop_stop; [m] is the message it allocates. *)
Definition tarantool_message_loop_stop (m : message) : xprog bool :=
  ring_enqueue (m <| m_type := TARANTOOL_MESSAGE_STOP |>).

Definition tarantool_message_loop_active (x : exec) : bool := x_active x.

(** ** The system

    [y_sent] is the history of the messages the ring has taken from senders and
    from tarantool_message_loop_stop.  An enqueue that competes with other
    threads can find the ring full although it is not (see [Ring]): the steps
    [ys_resend_full], [ys_attempt_full] and [ys_stop_full] are such failures. *)

Record system := mk_system {
  y_exec : exec;
  y_loop : loop_pc;
  y_senders : nat -> sender_pc;
  y_sent : list message;
}.

Definition set_sender (f : nat -> sender_pc) (t : nat) (pc : sender_pc) : nat -> sender_pc :=
  fun u => if Nat.eqb u t then pc else f u.

Definition accepted (pc : sender_pc) : list message :=
  match pc with S_done m true => [m] | _ => [] end.

Inductive system_step (cf : configuration) : system -> system -> Prop :=
| ys_loop x pc f sent x' pc' :
    loop_step cf pc x = Done (pc', x') ->
    system_step cf (mk_system x pc f sent) (mk_system x' pc' f sent)
| ys_send x pc f sent t m x' s :
    f t = S_idle -> send_begin m x = Done (s, x') ->
    system_step cf (mk_system x pc f sent) (mk_system x' pc (set_sender f t s) sent)
| ys_attempt x pc f sent t m count backoff x' s :
    f t = S_try m count backoff -> send_attempt m count backoff x = Done (s, x') ->
    system_step cf (mk_system x pc f sent)
      (mk_system x' pc (set_sender f t s) (accepted s ++ sent))
| ys_sent x pc f sent t m res :
    f t = S_done m res ->
    system_step cf (mk_system x pc f sent) (mk_system x pc (set_sender f t S_idle) sent)
| ys_stop x pc f sent m ok x' :
    tarantool_message_loop_stop m x = Done (ok, x') ->
    system_step cf (mk_system x pc f sent)
      (mk_system x' pc f
         (if ok then (m <| m_type := TARANTOOL_MESSAGE_STOP |>) :: sent else sent))
| ys_resend_full x pc f sent m count x' next pc' :
    resending pc = Some (m, count) -> x_buffer x <> None ->
    resend_failed m count x = Done (next, x') -> pc' = resume pc next ->
    system_step cf (mk_system x pc f sent) (mk_system x' pc' f sent)
| ys_attempt_full x pc f sent t m count backoff x' s :
    f t = S_try m count backoff -> x_buffer x <> None ->
    send_failed m count backoff x = Done (s, x') ->
    system_step cf (mk_system x pc f sent) (mk_system x' pc (set_sender f t s) sent)
| ys_stop_full x pc f sent :
    x_buffer x <> None ->
    system_step cf (mk_system x pc f sent) (mk_system x pc f sent).

(** A loop that has just been initialised, with a ring of 2^k slots and no
    transaction. *)
Definition system_init (cf : configuration) (k : Z) (y : system) : Prop :=
  exists x0 junk, 0 <= k <= 31 /\ cf_ring_size cf = 2 ^ k /\
    Z.of_nat (length junk) = 2 ^ k /\ in_txn (x_box x0) = false /\
    x_posted x0 = [] /\ x_trace x0 = [] /\ x_dropped x0 = [] /\
    (exists x1, tarantool_message_loop_initialize cf (Some junk) x0 = Done (tt, x1) /\
     y_exec y = loop_locals cf x1) /\
    y_loop y = L_top /\ (forall t, y_senders y t = S_idle) /\ y_sent y = [].
End Executor.

(** ** Owner ids (binding_common.c)

    The increment is atomic, the read that follows is another access. *)

Definition ck_pr_inc_uint (current_owner_id : Z) : Z := u32 (current_owner_id + 1).

Definition tarantool_generate_owner_id (current_owner_id : Z) : Z * Z :=
  let current_owner_id := ck_pr_inc_uint current_owner_id in
  (current_owner_id, current_owner_id).

Fixpoint generate_ids (n : nat) (current_owner_id : Z) : list Z :=
  match n with
  | O => []
  | S n =>
      let '(id, current_owner_id) := tarantool_generate_owner_id current_owner_id in
      id :: generate_ids n current_owner_id
  end.

Inductive owner_pc := O_called | O_incremented | O_returned (id : Z).

Definition owner_step (pc : owner_pc) (current_owner_id : Z) : owner_pc * Z :=
  match pc with
  | O_called => (O_incremented, ck_pr_inc_uint current_owner_id)
  | O_incremented => (O_returned current_owner_id, current_owner_id)
  | O_returned id => (O_returned id, current_owner_id)
  end.

(** Two threads, scheduled by a list of thread numbers. *)
Fixpoint owner_run (sched : list bool) (pc1 pc2 : owner_pc) (current_owner_id : Z)
    : owner_pc * owner_pc :=
  match sched with
  | [] => (pc1, pc2)
  | false :: sched =>
      let '(pc1, current_owner_id) := owner_step pc1 current_owner_id in
      owner_run sched pc1 pc2 current_owner_id
  | true :: sched =>
      let '(pc2, current_owner_id) := owner_step pc2 current_owner_id in
      owner_run sched pc1 pc2 current_owner_id
  end.
