(* ===== verification/ExecutorSafety.v ===== *)
(** * Correctness of the message loop

    The invariant of the system of [Executor] and its consequences: isolation
    of transactions, conservation of messages, memory safety of the loop,
    shutdown; and the executions in which the code does not do what it means
    to. *)

From Stdlib Require Import String.
From stdpp Require Import strings.
From S2P Require Import Prelude Double Ring Executor.

Open Scope Z_scope.

(** ** What executing a message does *)

Abbreviation ids := (map m_id).

Section Proofs.
Context {B F Inp Out : Type} `{!Box B F Inp Out}.
Abbreviation message := (@message F Inp Out).
Abbreviation exec := (@exec B F Inp Out).
Abbreviation system := (@system B F Inp Out).
Implicit Types (m : message) (x : exec) (y : system).

(** The parts of the state that only the ring operations and the loop touch. *)
Definition same_ring x x' : Prop :=
  x_ring x' = x_ring x /\ x_buffer x' = x_buffer x /\
  x_active x' = x_active x /\ x_retry_max x' = x_retry_max x.

(** The message is answered, or dropped. *)
Definition disposed m x x' : Prop :=
  (exists m', m_id m' = m_id m /\ x_posted x' = m' :: x_posted x /\ x_dropped x' = x_dropped x) \/
  (x_posted x' = x_posted x /\ x_dropped x' = m :: x_dropped x).

(** It is one new event, after which the owner is set; or nothing ran. *)
Definition traced m x x' : Prop :=
  (x_trace x' = mk_event (m_owner m) (m_type m) (in_txn (x_box x)) :: x_trace x /\
   x_owner x' = match m_type m with TARANTOOL_MESSAGE_BEGIN => m_owner m | _ => x_owner x end) \/
  (x_trace x' = x_trace x /\ x_owner x' = x_owner x /\ x_box x' = x_box x).

Lemma handle_batch_spec es x :
  wp (handle_batch es) (fun es' x' => length es' = length es /\
    exists b, x' = x <| x_box := b |>) x.
Proof.
  revert x. induction es as [|e es IH]; intros x; cbn.
  { apply wp_ret. split; [done|]. exists (x_box x). by destruct x. }
  apply wp_bind. unfold handle_batch_element. apply wp_bind, wp_gets.
  destruct (run_function _ _ _) as [o b]. destruct (diag_last_error b);
    apply wp_bind, wp_modify, wp_ret, wp_bind;
    (eapply wp_mono; [apply IH|]); intros es' x' [Hl [b' ->]];
    apply wp_ret; (split; [cbn; by rewrite Hl|]); by exists b'.
Qed.

Ltac finish_answer Et :=
  cbn; rewrite ?Et; split; [done|]; split;
  [left; eexists; split; [|by split]; reflexivity|by left].

Lemma execute_spec m x :
  wp (tarantool_message_execute m)
    (fun _ x' => same_ring x x' /\ disposed m x x' /\ traced m x x') x.
Proof.
  unfold tarantool_message_execute, same_ring, disposed, traced.
  destruct (m_type m) eqn:Et.
  3,7: apply wp_modify; cbn; split_and!; auto 10.
  - apply wp_bind, wp_modify, wp_bind, wp_bind, wp_gets.
    destruct (run_function _ _ _) as [o b].
    destruct (diag_last_error b); apply wp_bind, wp_modify, wp_ret, wp_modify;
      by finish_answer Et.
  - apply wp_bind, wp_modify, wp_bind, wp_bind. eapply wp_mono; [apply handle_batch_spec|].
    intros es x' [_ [b ->]]. apply wp_ret, wp_modify.
    by finish_answer Et.
  - apply wp_bind, wp_modify, wp_bind, wp_modify, wp_bind. unfold tarantool_begin, wp at 1.
    destruct (box_txn_begin _) as [rc b]. apply wp_modify.
    by finish_answer Et.
  - apply wp_bind, wp_modify, wp_bind. unfold tarantool_commit, wp at 1.
    destruct (box_txn_commit _) as [rc b]. apply wp_modify.
    by finish_answer Et.
  - apply wp_bind, wp_modify, wp_bind. unfold tarantool_rollback, wp at 1.
    destruct (box_txn_rollback _) as [rc b]. apply wp_modify.
    by finish_answer Et.
Qed.

(** ** The invariant of the system *)

(** The ring is allocated and holds the queue [q]. *)
Definition ring_holds k x (q : list message) : Prop :=
  exists b, x_buffer x = Some b /\ holds k (x_ring x) b q.

(** The message the loop has taken out of the ring and not disposed of. *)
Definition in_hand (pc : @loop_pc F Inp Out) : list message :=
  match pc with
  | L_handle m | L_resend m _ | L_drain_handle m | L_drain_resend m _ => [m]
  | _ => []
  end.

Definition running (pc : @loop_pc F Inp Out) : bool :=
  match pc with L_top | L_handle _ | L_resend _ _ => true | _ => false end.

(** Every message the ring has taken is in the ring, in the hands of the loop,
    answered, or dropped; exactly once. *)
Definition conserved (sent q : list message) pc x : Prop :=
  ids sent ≡ₚ ids q ++ ids (in_hand pc) ++ ids (x_posted x) ++ ids (x_dropped x).

(** Between the message that opened a transaction and the end of it, only
    messages of one owner run; it is the sender of BEGIN when a BEGIN opened
    it. *)
Definition one_owner (w : Z) (post : list event) (e : event) : Prop :=
  Forall (fun o => e_owner o = w) post /\
  (e_type e = TARANTOOL_MESSAGE_BEGIN -> w = e_owner e).

Definition isolated (x : exec) : Prop :=
  forall post e pre, x_trace x = post ++ e :: pre -> e_open e = false ->
    Forall (fun o => e_open o = true) post ->
    (exists w, one_owner w post e) /\ (in_txn (x_box x) = true -> one_owner (x_owner x) post e).

Record loop_inv k (sent : list message) (pc : @loop_pc F Inp Out) x : Prop := {
  li_queue : exists q, conserved sent q pc x /\
    (ring_holds k x q \/ x_buffer x = None /\ q = [] /\ pc = L_exited);
  li_exited : pc = L_exited -> x_buffer x = None;
  li_active : x_active x = running pc;
  li_isolated : isolated x;
}.

Section Invariant.
Context (k : Z) (Hk : 0 <= k <= 31).

Lemma wp_enqueue m x q (Q : bool -> exec -> Prop) :
  ring_holds k x q ->
  (forall r b ok, ok = (Z.of_nat (length q) <? 2 ^ k - 1) ->
     holds k r b (if ok then q ++ [m] else q) ->
     Q ok (x <| x_ring := r |> <| x_buffer := Some b |>)) ->
  wp (ring_enqueue m) Q x.
Proof.
  intros (b & Hb & Hh) HQ. unfold wp, ring_enqueue. rewrite Hb.
  destruct (enqueue_spec k Hk _ _ _ m Hh) as (r' & b' & -> & Hh'). by apply HQ.
Qed.

Lemma wp_dequeue x q (Q : option message -> exec -> Prop) :
  ring_holds k x q ->
  match q with
  | [] => Q None x
  | m :: q => forall r, ring_holds k (x <| x_ring := r |>) q -> Q (Some m) (x <| x_ring := r |>)
  end ->
  wp ring_dequeue Q x.
Proof.
  intros (b & Hb & Hh) HQ. unfold wp, ring_dequeue. rewrite Hb.
  pose proof (dequeue_spec k Hk _ _ _ Hh) as Hd. destruct q as [|m q].
  - rewrite Hd. by destruct x.
  - destruct Hd as (r & -> & Hh'). apply HQ. by exists b.
Qed.

Lemma isolated_same x x' :
  isolated x -> x_trace x' = x_trace x -> x_owner x' = x_owner x -> x_box x' = x_box x ->
  isolated x'.
Proof. intros Hi Ht Ho Hb. unfold isolated. by rewrite Ht, Ho, Hb. Qed.

Lemma isolated_traced m x x' :
  is_foreign m x = false -> isolated x -> traced m x x' -> isolated x'.
Proof.
  intros Hf Hi [[Ht Ho]|(Ht & Ho & Hb)]; [|by eapply isolated_same].
  intros post e pre. rewrite Ht. destruct post as [|o post]; cbn; intros [= <- E] He Hp.
  { split; [exists (m_owner m); by split|]. intros _. split; [done|]. cbn. intros Em.
    by rewrite Ho, Em. }
  apply Forall_cons in Hp as [Hopen Hp]. cbn in Hopen.
  assert (m_owner m = x_owner x) as Em.
  { unfold is_foreign in Hf. rewrite Hopen in Hf. cbn in Hf. by boolp. }
  assert (x_owner x' = x_owner x) as Eo by (rewrite Ho; by destruct (m_type m)).
  destruct (Hi post e pre E He Hp) as [_ Hw]. destruct (Hw Hopen) as [Hall Hb].
  assert (one_owner (x_owner x) (mk_event (m_owner m) (m_type m) (in_txn (x_box x)) :: post) e)
    by (split; [by constructor|done]).
  rewrite Eo. by eauto.
Qed.

(** A step that only moves the message in hand keeps the invariant. *)
Lemma disposed_conserved sent q m pc pc' x x' :
  conserved sent q pc x -> in_hand pc = [m] -> in_hand pc' = [] -> disposed m x x' ->
  conserved sent q pc' x'.
Proof.
  unfold conserved. intros -> -> -> [(m' & Em & -> & ->)|[-> ->]]; cbn; rewrite ?Em; solve_Permutation.
Qed.

Lemma ring_holds_same x x' q : same_ring x x' -> ring_holds k x q -> ring_holds k x' q.
Proof. intros (Hr & Hb & _) (b & E & Hh). exists b. by rewrite Hr, Hb. Qed.

(** Taking the next message, at the head of the loop or in the final one. *)
Lemma execute_inv sent m pc pc' x :
  loop_inv k sent pc x -> pc <> L_exited -> in_hand pc = [m] -> in_hand pc' = [] ->
  running pc' = running pc -> pc' <> L_exited -> is_foreign m x = false ->
  wp (tarantool_message_execute m) (fun _ x' => loop_inv k sent pc' x') x.
Proof.
  intros [(q & Hc & Hq) He Ha Hi] Hpc Hh Hh' Hr Hpc' Hf.
  eapply wp_mono; [apply execute_spec|]. cbn. intros _ x' (Hs & Hd & Ht).
  destruct Hq as [Hq|(_ & _ & Hq)]; [|done]. split.
  - exists q. split; [by eapply disposed_conserved|]. left. by eapply ring_holds_same.
  - done.
  - destruct Hs as (_ & _ & -> & _). by rewrite Ha, Hr.
  - by eapply isolated_traced.
Qed.

Lemma resend_failed_inv sent m count pc pc' x :
  loop_inv k sent pc x -> pc <> L_exited -> in_hand pc = [m] -> in_hand pc' = [] ->
  running pc' = running pc -> pc' <> L_exited ->
  wp (resend_failed m count)
    (fun o x' => match o with None => loop_inv k sent pc' x' | Some _ => loop_inv k sent pc x' end) x.
Proof.
  intros [(q & Hc & Hq) He Ha Hi] Hpc Hh Hh' Hr Hpc'.
  destruct Hq as [Hq|(_ & _ & Hq)]; [|done].
  assert (forall x' : exec, x_trace x' = x_trace x -> x_owner x' = x_owner x ->
    x_box x' = x_box x -> isolated x') by (intros x'; by apply isolated_same).
  apply wp_bind, wp_modify, wp_bind, wp_gets. destruct (_ <=? _).
  - apply wp_bind, wp_modify, wp_bind, wp_modify, wp_ret.
    split; auto; [|done|cbn; by rewrite Ha, Hr]. exists q. split; [|by left].
    eapply disposed_conserved; [exact Hc|done|done|]. left. eexists. split; [|by split]. done.
  - apply wp_ret. split; auto. exists q. split; [done|]. by left.
Qed.

Lemma resend_inv sent m count pc pc' x :
  loop_inv k sent pc x -> pc <> L_exited -> in_hand pc = [m] -> in_hand pc' = [] ->
  running pc' = running pc -> pc' <> L_exited ->
  wp (resend_attempt m count)
    (fun o x' => match o with None => loop_inv k sent pc' x' | Some _ => loop_inv k sent pc x' end) x.
Proof.
  intros [(q & Hc & Hq) He Ha Hi] Hpc Hh Hh' Hr Hpc'.
  destruct Hq as [Hq|(_ & _ & Hq)]; [|done].
  apply wp_bind. apply (wp_enqueue _ _ q); [done|]. intros r b ok Hok Hb.
  assert (isolated (x <| x_ring := r |> <| x_buffer := Some b |>)) by by eapply isolated_same.
  destruct ok.
  { apply wp_bind, wp_modify, wp_ret. split; try done; [|cbn; by rewrite Ha, Hr].
    exists (q ++ [m]). split; [|left; by exists b]. unfold conserved in *. cbn.
    rewrite Hc, Hh, Hh', map_app. cbn. solve_Permutation. }
  apply resend_failed_inv; try done. split; try done. exists q. split; [done|]. left. by exists b.
Qed.

Lemma idle_same cf x :
  wp (loop_idle cf) (fun _ x' => same_ring x x' /\ x_posted x' = x_posted x /\
    x_dropped x' = x_dropped x /\ x_trace x' = x_trace x /\ x_owner x' = x_owner x /\
    x_box x' = x_box x) x.
Proof.
  unfold loop_idle. apply wp_bind, wp_gets. destruct (in_txn _); [done|].
  apply wp_bind, wp_modify, wp_bind, wp_gets. casep; [done|]. by casep.
Qed.

Lemma top_inv cf sent x :
  loop_inv k sent L_top x -> wp (loop_step cf L_top) (loop_inv k sent) x.
Proof.
  intros [(q & Hc & Hq) He Ha Hi]. destruct Hq as [Hq|(_ & _ & Hq)]; [|done].
  cbn. apply wp_bind, wp_gets. rewrite Ha. cbn [negb running].
  apply wp_bind, (wp_dequeue _ q); [done|]. destruct q as [|m q].
  { apply wp_bind. eapply wp_mono; [apply idle_same|].
    cbn. intros _ x' (Hs & Hp & Hd & Ht & Ho & Hb). apply wp_ret. split.
    - exists []. split; [|left; by eapply ring_holds_same].
      unfold conserved in *. by rewrite Hp, Hd.
    - done.
    - by destruct Hs as (_ & _ & -> & _).
    - by eapply isolated_same. }
  intros r Hr. apply wp_bind, wp_modify. destruct (is_stop m); cbn [negb].
  - apply wp_bind, wp_modify, wp_bind, wp_modify, wp_ret. split; try done.
    exists q. split; [|by left]. unfold conserved in *. cbn in *. rewrite Hc. solve_Permutation.
  - apply wp_ret. split; try done. exists q. split; [|by left].
    unfold conserved in *. cbn in *. rewrite Hc. solve_Permutation.
Qed.

Lemma drain_inv cf sent x :
  loop_inv k sent L_drain x -> wp (loop_step cf L_drain) (loop_inv k sent) x.
Proof.
  intros [(q & Hc & Hq) He Ha Hi]. destruct Hq as [Hq|(_ & _ & Hq)]; [|done].
  cbn. apply wp_bind, (wp_dequeue _ q); [done|]. destruct q as [|m q].
  - apply wp_bind, wp_modify, wp_ret. split; try done. exists []. split; [done|]. by right.
  - intros r Hr. apply wp_ret. split; try done. exists q. split; [|by left].
    unfold conserved in *. cbn in *. rewrite Hc. solve_Permutation.
Qed.

(** The message in hand is kept when only the program counter moves. *)
Lemma moved_inv sent pc pc' x :
  loop_inv k sent pc x -> pc <> L_exited -> in_hand pc' = in_hand pc ->
  running pc' = running pc -> pc' <> L_exited -> loop_inv k sent pc' x.
Proof.
  intros [(q & Hc & [Hq|(_ & _ & Hq)]) He Ha Hi] Hpc Hh Hr Hpc'; [|done].
  split; try done; [|by rewrite Hr]. exists q. split; [|by left].
  unfold conserved in *. by rewrite Hh.
Qed.

Lemma handle_inv cf sent m pc' x :
  let pc := if running pc' then L_handle m else L_drain_handle m in
  loop_inv k sent pc x -> pc' = L_top \/ pc' = L_drain ->
  wp (loop_step cf pc) (loop_inv k sent) x.
Proof.
  intros pc Hi [->| ->]; cbn in *; apply wp_bind, wp_gets; destruct (is_foreign m x) eqn:Ef.
  1,3: apply wp_ret; by eapply moved_inv.
  - apply wp_bind. eapply wp_mono; [by apply (execute_inv sent m _ L_top x Hi)|done].
  - apply wp_bind. eapply wp_mono; [by apply (execute_inv sent m _ L_drain x Hi)|done].
Qed.

Lemma resend_step_inv cf sent m count pc' x :
  let pc := if running pc' then L_resend m count else L_drain_resend m count in
  loop_inv k sent pc x -> pc' = L_top \/ pc' = L_drain ->
  wp (loop_step cf pc) (loop_inv k sent) x.
Proof.
  intros pc Hi [->| ->]; cbn in *; apply wp_bind.
  - eapply wp_mono; [by apply (resend_inv sent m count _ L_top x Hi)|].
    intros [c|] x' Hx'; apply wp_ret; [by eapply moved_inv|done].
  - eapply wp_mono; [by apply (resend_inv sent m count _ L_drain x Hi)|].
    intros [c|] x' Hx'; apply wp_ret; [by eapply moved_inv|done].
Qed.

Lemma loop_step_inv cf sent pc x :
  loop_inv k sent pc x -> wp (loop_step cf pc) (loop_inv k sent) x.
Proof.
  intros Hi. destruct pc; [by apply top_inv| | |by apply drain_inv| | |by apply wp_ret].
  - apply (handle_inv cf sent m L_top); [done|by left].
  - apply (resend_step_inv cf sent m count L_top); [done|by left].
  - apply (handle_inv cf sent m L_drain); [done|by right].
  - apply (resend_step_inv cf sent m count L_drain); [done|by right].
Qed.

Lemma resend_full_inv sent m count pc x :
  loop_inv k sent pc x -> resending pc = Some (m, count) ->
  wp (resend_failed m count) (fun next x' => loop_inv k sent (resume pc next) x') x.
Proof.
  intros Hi Hpc. destruct pc; try done; injection Hpc as -> ->.
  - eapply wp_mono; [by apply (resend_failed_inv sent m count _ L_top x Hi)|].
    intros [c|] x' Hx'; [by eapply moved_inv|done].
  - eapply wp_mono; [by apply (resend_failed_inv sent m count _ L_drain x Hi)|].
    intros [c|] x' Hx'; [by eapply moved_inv|done].
Qed.

(** An enqueue by another thread. *)
Lemma outside_enqueue sent m pc x ok x' :
  loop_inv k sent pc x -> ring_enqueue m x = Done (ok, x') ->
  loop_inv k (if ok then m :: sent else sent) pc x' /\ x_retry_max x' = x_retry_max x.
Proof.
  intros [(q & Hc & Hq) He Ha Hi] E. destruct Hq as [Hq|(Hb & _)];
    [|unfold ring_enqueue in E; by rewrite Hb in E].
  eapply (wp_Done _ _ _ _ _ (wp_enqueue m x q (fun ok x' =>
    loop_inv k (if ok then m :: sent else sent) pc x' /\ x_retry_max x' = x_retry_max x) Hq ltac:(
    idtac)) E).
  Unshelve. cbn. intros r b ok' _ Hb. split; [|done]. split; try done.
  - exists (if ok' then q ++ [m] else q). split; [|left; by exists b].
    unfold conserved in *. destruct ok'; [|done]. cbn. rewrite Hc, map_app. cbn. solve_Permutation.
  - intros Ep. specialize (He Ep). destruct Hq as (? & E' & _). congruence.
Qed.

Lemma send_failed_same m count backoff x s (x' : exec) :
  send_failed m count backoff x = Done (s, x') -> x' = x /\ accepted s = [].
Proof.
  unfold send_failed, mbind, prog_bind, gets. destruct (_ <=? _); intros E; by injection E as <- <-.
Qed.

Definition system_inv y : Prop := loop_inv k (y_sent y) (y_loop y) (y_exec y).

Lemma system_step_inv cf y y' : system_inv y -> system_step cf y y' -> system_inv y'.
Proof.
  unfold system_inv. intros Hi Hs. destruct Hs as
    [x pc f sent x' pc' E|x pc f sent t m x' s _ E|x pc f sent t m c bo x' s _ E| |
     x pc f sent m ok x' E|x pc f sent m c x' next pc' Hpc _ E ->|x pc f sent t m c bo x' s _ _ E|];
    cbn in *.
  - exact (wp_Done _ _ _ _ _ (loop_step_inv cf sent pc x Hi) E).
  - unfold send_begin in E. cbn in E. by injection E as <- <-.
  - unfold send_attempt, mbind, prog_bind in E.
    destruct (ring_enqueue m x) as [[ok x1]|] eqn:E1; [|done].
    destruct (outside_enqueue _ _ _ _ _ _ Hi E1) as [Hi' _]. destruct ok.
    + by injection E as <- <-.
    + by destruct (send_failed_same _ _ _ _ _ _ E) as [-> ->].
  - done.
  - by apply (outside_enqueue _ _ _ _ _ _ Hi) in E as [? _].
  - exact (wp_Done _ _ _ _ _ (resend_full_inv sent m c pc x Hi Hpc) E).
  - by destruct (send_failed_same _ _ _ _ _ _ E) as [-> _].
  - done.
Qed.

Lemma system_init_inv cf y : system_init cf k y -> system_inv y.
Proof.
  intros (x0 & junk & _ & Hsz & Hj & Ht & Hp & Htr & Hd & (x1 & E & Hy) & Hl & _ & Hs).
  cbn in E. injection E as <-. unfold system_inv. rewrite Hy, Hl, Hs. split; try done.
  - exists []. split.
    + unfold conserved. cbn. by rewrite Hp, Hd.
    + left. exists junk. split; [done|]. cbn. rewrite Hsz, uwrap_small.
      * by apply init_holds.
      * pose proof (pow_range k Hk). lia.
  - intros post e pre. cbn. rewrite Htr. by destruct post.
Qed.
End Invariant.

Lemma system_reachable_inv cf k y :
  0 <= k <= 31 -> reachable (system_init cf k) (system_step cf) y -> system_inv k y.
Proof.
  intros Hk. apply reachable_invariant.
  - intros s. by apply system_init_inv.
  - intros s s'. by apply system_step_inv.
Qed.
End Proofs.

(** ** Theorems *)

Section Theorems.
Context {B F Inp Out : Type} `{!Box B F Inp Out}.
Abbreviation message := (@message F Inp Out).
Abbreviation exec := (@exec B F Inp Out).
Abbreviation system := (@system B F Inp Out).
Implicit Types (m : message) (x : exec) (y : system).

(** C4: In every execution of the loop with any number of sending threads and
    stop calls, the transactions are isolated: in the history of executed
    messages, all messages that ran inside a transaction have one owner, the
    sender of the BEGIN that opened it; and while a transaction is open that
    owner is [transaction_owner]. *)
Theorem executor_isolation cf k y :
  0 <= k <= 31 -> reachable (system_init cf k) (system_step cf) y -> isolated (y_exec y).
Proof. intros Hk Hr. apply (li_isolated _ _ _ _ (system_reachable_inv cf k y Hk Hr)). Qed.

(** C19: No message is lost or answered twice: at any moment the messages that
    the ring has accepted are, as a multiset of pointers, those in the ring,
    the one the loop has in hand, those posted back to Dart and those dropped
    (a stop, or a type the switch does not know).  The ring holds a queue while
    the buffer is allocated, and is empty when the buffer is freed. *)
Theorem executor_conserves_messages cf k y :
  0 <= k <= 31 -> reachable (system_init cf k) (system_step cf) y ->
  exists q, ids (y_sent y) ≡ₚ ids q ++ ids (in_hand (y_loop y)) ++
      ids (x_posted (y_exec y)) ++ ids (x_dropped (y_exec y)) /\
    match x_buffer (y_exec y) with
    | Some b => holds k (x_ring (y_exec y)) b q
    | None => q = [] /\ y_loop y = L_exited
    end.
Proof.
  intros Hk Hr. destruct (system_reachable_inv cf k y Hk Hr) as [(q & Hc & Hq) _ _ _].
  exists q. split; [exact Hc|]. destruct Hq as [(b & -> & Hh)|(-> & -> & ->)]; done.
Qed.

(** C30: The loop thread never touches memory that is not allocated: each of
    its steps returns. One attempt to send, run without interruption by
    another producer while the loop has not left its function, returns too:
    the message is accepted if the ring is not full; if it is full, the sender
    gives up when this was the last of its attempts and goes on to the next
    attempt otherwise. An attempt that competes with other producers can find
    the ring full although it is not (ring_spurious_full); this is a step of
    the system of its own. *)
Theorem executor_memory_safe cf k y :
  0 <= k <= 31 -> reachable (system_init cf k) (system_step cf) y ->
  (exists pc' x', loop_step cf (y_loop y) (y_exec y) = Done (pc', x')) /\
  (y_loop y <> L_exited -> forall m count backoff, exists b q x',
     x_buffer (y_exec y) = Some b /\ holds k (x_ring (y_exec y)) b q /\
     send_attempt m count backoff (y_exec y) =
       Done (if Z.of_nat (length q) <? 2 ^ k - 1 then S_done m true
             else if x_retry_max (y_exec y) <=? count + 1 then S_done m false
             else S_try m (count + 1) (ck_backoff_eb backoff), x')).
Proof.
  intros Hk Hr. pose proof (system_reachable_inv cf k y Hk Hr) as Hi. split.
  - pose proof (loop_step_inv k Hk cf _ _ _ Hi) as Hw. apply wp_total in Hw as (pc' & x' & E & _).
    by exists pc', x'.
  - intros Hl m count backoff. destruct Hi as [(q & _ & [Hq|(_ & _ & ?)]) _ _ _]; [|done].
    destruct Hq as (b & Hb & Hh). destruct (enqueue_spec k Hk _ _ _ m Hh) as (r' & b' & E & _).
    exists b, q. unfold send_attempt, mbind, prog_bind, ring_enqueue. rewrite Hb, E.
    destruct (_ <? _); [by eexists|]. unfold send_failed, mbind, prog_bind, gets.
    cbn [x_retry_max update]. destruct (_ <=? _); by eexists.
Qed.

(** ** Emptying the ring after a stop *)

Definition is_begin (m : message) : bool :=
  match m_type m with TARANTOOL_MESSAGE_BEGIN => true | _ => false end.

Section Drain.
Context `{!BoxLaws B F Inp Out} (k : Z) (Hk : 0 <= k <= 31).

Lemma handle_batch_idle (es : list (@batch_element F Inp Out)) x :
  in_txn (x_box x) = false ->
  wp (handle_batch es) (fun _ x' => in_txn (x_box x') = false) x.
Proof.
  revert x. induction es as [|e es IH]; intros x Hx; cbn; [by apply wp_ret|].
  apply wp_bind. unfold handle_batch_element. apply wp_bind, wp_gets.
  pose proof (run_function_idle (be_function e) (be_input e) (x_box x) Hx) as Hr.
  destruct (run_function _ _ _) as [o b]. cbn in Hr. destruct (diag_last_error b);
    apply wp_bind, wp_modify, wp_ret, wp_bind; (eapply wp_mono; [apply IH|]);
    cbn; rewrite ?diag_clear_txn; try done; intros; by apply wp_ret.
Qed.

Lemma execute_idle m x :
  in_txn (x_box x) = false -> is_begin m = false ->
  wp (tarantool_message_execute m) (fun _ x' => in_txn (x_box x') = false) x.
Proof.
  intros Hx Hm. unfold tarantool_message_execute, is_begin in *. destruct (m_type m); try done.
  - apply wp_bind, wp_modify, wp_bind, wp_bind, wp_gets.
    pose proof (run_function_idle (m_function m) (m_input m) (x_box x) Hx) as Hr.
    cbn [x_box update]. destruct (run_function _ _ _) as [o b]. cbn in Hr.
    destruct (diag_last_error b); apply wp_bind, wp_modify, wp_ret, wp_modify; cbn;
      by rewrite ?diag_clear_txn.
  - apply wp_bind, wp_modify, wp_bind, wp_bind. eapply wp_mono; [by apply handle_batch_idle|].
    intros es x' Hx'. by apply wp_ret, wp_modify.
  - apply wp_bind, wp_modify, wp_bind. unfold tarantool_commit, wp at 1.
    pose proof (commit_idle (x_box x) Hx) as Hr. cbn [x_box update].
    destruct (box_txn_commit _) as [rc b]. by apply wp_modify.
  - apply wp_bind, wp_modify, wp_bind. unfold tarantool_rollback, wp at 1.
    pose proof (rollback_idle (x_box x) Hx) as Hr. cbn [x_box update].
    destruct (box_txn_rollback _) as [rc b]. by apply wp_modify.
Qed.

Lemma loop_run_step cf n pc x pc' (x' : exec) :
  loop_step cf pc x = Done (pc', x') -> loop_run cf (S n) pc x = loop_run cf n pc' x'.
Proof. intros E. exact (bind_Done _ _ _ _ _ E). Qed.

Lemma drain_turn cf m q x :
  ring_holds k x (m :: q) -> in_txn (x_box x) = false -> is_begin m = false ->
  exists x', (forall n, loop_run cf (S (S n)) L_drain x = loop_run cf n L_drain x') /\
    ring_holds k x' q /\ in_txn (x_box x') = false /\
    ids (x_posted x') ++ ids (x_dropped x') ≡ₚ m_id m :: ids (x_posted x) ++ ids (x_dropped x).
Proof.
  intros Hq Hx Hm.
  destruct (proj1 (wp_total _ _ _) (wp_dequeue k Hk x (m :: q)
    (fun o x' => o = Some m /\ exists r, x' = x <| x_ring := r |> /\ ring_holds k x' q) Hq
    ltac:(intros r Hr; split; [done|by exists r]))) as (o & x1 & E1 & -> & r & -> & Hr).
  set (x1 := x <| x_ring := r |>) in *.
  destruct (proj1 (wp_total _ _ _) (wp_and _ _ _ _ (execute_spec m x1) (execute_idle m x1 Hx Hm)))
    as ([] & x2 & E2 & (Hs & Hd & _) & Hx2).
  exists x2. split; [|split; [by eapply ring_holds_same|split; [done|]]].
  - intros n. rewrite (loop_run_step cf _ _ _ (L_drain_handle m) x1).
    + apply loop_run_step. cbn [loop_step]. rewrite (bind_Done _ _ x1 _ x1 eq_refl).
      unfold is_foreign. replace (in_txn (x_box x1)) with false by done. cbn [andb].
      by rewrite (bind_Done _ _ _ _ _ E2).
    + cbn [loop_step]. by rewrite (bind_Done _ _ _ _ _ E1).
  - destruct Hd as [(m' & Em & -> & ->)|[-> ->]]; cbn; rewrite ?Em; solve_Permutation.
Qed.

Lemma drain_all cf q x :
  ring_holds k x q -> in_txn (x_box x) = false -> Forall (fun m => is_begin m = false) q ->
  exists x', loop_run cf (S (2 * length q)) L_drain x = Done (L_exited, x') /\
    x_buffer x' = None /\
    ids (x_posted x') ++ ids (x_dropped x') ≡ₚ ids q ++ ids (x_posted x) ++ ids (x_dropped x).
Proof.
  revert x. induction q as [|m q IH]; intros x Hq Hx Hb.
  - destruct Hq as (b & Eb & Hh). exists (x <| x_buffer := None |>).
    cbn. unfold mbind, prog_bind, ring_dequeue. rewrite Eb, (dequeue_spec k Hk _ _ _ Hh).
    cbn. destruct x; cbn. by repeat split.
  - apply Forall_cons in Hb as [Hm Hb].
    destruct (drain_turn cf m q x Hq Hx Hm) as (x1 & Hrun & Hq1 & Hx1 & Hp1).
    destruct (IH x1 Hq1 Hx1 Hb) as (x' & E & Hbuf & Hp). exists x'.
    replace (S (2 * length (m :: q)))%nat with (S (S (S (2 * length q))))%nat by (cbn; lia).
    rewrite Hrun. split; [done|]. split; [done|]. rewrite Hp, Hp1. cbn. solve_Permutation.
Qed.
End Drain.

(** C25: A stop outside of a transaction completes under four conditions: no
    transaction is open when the loop begins to empty the ring, no BEGIN waits
    in the ring, no other thread adds to it from then on, and the functions of
    the messages leave no transaction open ([BoxLaws]). Then the loop ends
    after two steps per message, frees the buffer, and every waiting message
    has been answered or dropped. A transaction that is open, or opened by a
    waiting BEGIN, can keep the loop from ending (executor_drain_livelock). *)
Theorem executor_drain_completes `{!BoxLaws B F Inp Out} cf k x (q : list message) :
  0 <= k <= 31 -> ring_holds k x q -> in_txn (x_box x) = false ->
  Forall (fun m => is_begin m = false) q ->
  exists x', loop_run cf (S (2 * length q)) L_drain x = Done (L_exited, x') /\
    x_buffer x' = None /\
    ids (x_posted x') ++ ids (x_dropped x') ≡ₚ ids q ++ ids (x_posted x) ++ ids (x_dropped x).
Proof. intros Hk Hq Hx Hb. exact (drain_all k Hk cf q x Hq Hx Hb). Qed.

(** ** A stop inside a transaction *)

(** The loop is emptying a ring in which only messages of other owners wait,
    with a transaction open. *)
Definition stuck k (pc : @loop_pc F Inp Out) (x0 x : exec) : Prop :=
  in_txn (x_box x) = true /\ x_trace x = x_trace x0 /\ x_posted x = x_posted x0 /\
  exists q, ring_holds k x q /\
    Forall (fun m => m_owner m <> x_owner x) (in_hand pc ++ q) /\
    match pc with
    | L_drain => q <> []
    | L_drain_handle _ | L_drain_resend _ _ => Z.of_nat (length q) < 2 ^ k - 1
    | _ => False
    end.

Lemma stuck_step cf k x0 pc x :
  0 <= k <= 31 -> stuck k pc x0 x -> wp (loop_step cf pc) (fun pc' => stuck k pc' x0) x.
Proof.
  intros Hk (Hx & Ht & Hp & q & Hq & Hf & Hpc). destruct pc; try done; cbn [loop_step in_hand] in *.
  - apply wp_bind, (wp_dequeue k Hk x q); [done|]. destruct q as [|m q]; [done|].
    intros r Hr. apply wp_ret. split_and!; try done. exists q. split_and!; try done.
    destruct Hq as (b & _ & Hh). pose proof (h_room _ _ _ _ Hh). cbn in *. lia.
  - apply Forall_cons in Hf as [Hm Hf].
    apply wp_bind, wp_gets. unfold is_foreign. rewrite Hx. replace (_ =? _) with false by lia.
    apply wp_ret. split_and!; try done. exists q. split_and!; try done. by constructor.
  - apply Forall_cons in Hf as [Hm Hf].
    apply wp_bind, wp_bind, (wp_enqueue k Hk m x q); [done|]. intros r b ok -> Hb.
    replace (_ <? _) with true in * by lia.
    apply wp_bind, wp_modify, wp_ret, wp_ret. split_and!; try done. exists (q ++ [m]).
    split_and!; [by exists b| |by destruct q]. cbn. apply Forall_app. split; [done|by constructor].
Qed.

(** A stop inside a transaction with only messages of other owners in the
    ring never completes: however long the loop runs it does not leave the
    function that empties the ring, executes nothing and answers nothing. *)
Theorem executor_drain_livelock cf k x (q : list message) n :
  0 <= k <= 31 -> ring_holds k x q -> q <> [] -> in_txn (x_box x) = true ->
  Forall (fun m => m_owner m <> x_owner x) q ->
  exists pc x', loop_run cf n L_drain x = Done (pc, x') /\ pc <> L_exited /\
    x_trace x' = x_trace x /\ x_posted x' = x_posted x /\ in_txn (x_box x') = true.
Proof.
  intros Hk Hq Hne Hx Hf. assert (stuck k L_drain x x) as Hs
    by (split_and!; [done..|by exists q]).
  revert Hs. generalize (@L_drain F Inp Out) as pc. generalize x at 2 3 as x1.
  induction n as [|n IH]; intros x1 pc Hs.
  - exists pc, x1. destruct Hs as (Hx1 & Ht & Hp & q1 & _ & _ & Hpc).
    split; [done|]. split; [by destruct pc|]. done.
  - pose proof (stuck_step cf k x pc x1 Hk Hs) as Hw.
    apply wp_total in Hw as (pc' & x' & E & Hs'). cbn. unfold mbind, prog_bind. rewrite E.
    by apply IH.
Qed.
(** ** Errors of transaction messages *)

(** The box call of a transaction message. *)
Definition txn_call (ty : tarantool_message_type) (b : B) : option B :=
  match ty with
  | TARANTOOL_MESSAGE_BEGIN => Some (box_txn_begin b).2
  | TARANTOOL_MESSAGE_COMMIT => Some (box_txn_commit b).2
  | TARANTOOL_MESSAGE_ROLLBACK => Some (box_txn_rollback b).2
  | _ => None
  end.

(** A BEGIN, COMMIT or ROLLBACK that fails is answered without an error, and
    its error is reported by the next call instead: the diagnostics area is
    not read by the transaction branches of the switch, so a function that
    succeeds afterwards is answered with the error of the transaction
    message. *)
Theorem executor_stale_error m1 m2 x b1 e :
  txn_call (m_type m1) (x_box x) = Some b1 -> diag_last_error b1 = Some e ->
  m_type m2 = TARANTOOL_MESSAGE_CALL ->
  diag_last_error (run_function (m_function m2) (m_input m2) b1).2 = diag_last_error b1 ->
  wp (tarantool_message_execute m1;; tarantool_message_execute m2) (fun _ x' => exists m2',
    x_posted x' = m2' :: m1 :: x_posted x /\
    m_output m2' = Some (run_function (m_function m2) (m_input m2) b1).1 /\
    m_error m2' = Some e /\ m_error_type m2' = Some TARANTOOL_ERROR_INTERNAL /\
    diag_last_error (x_box x') = diag_last_error (diag_clear
      (run_function (m_function m2) (m_input m2) b1).2)) x.
Proof.
  intros Hb He Hm2 Hr. apply wp_bind.
  apply (wp_mono _ (fun _ x1 => x_posted x1 = m1 :: x_posted x /\ x_box x1 = b1)).
  - unfold tarantool_message_execute. destruct (m_type m1); try done; injection Hb as <-.
    + apply wp_bind, wp_modify, wp_bind, wp_modify, wp_bind. unfold tarantool_begin, wp at 1.
      cbn [x_box update]. destruct (box_txn_begin _). by apply wp_modify.
    + apply wp_bind, wp_modify, wp_bind. unfold tarantool_commit, wp at 1.
      cbn [x_box update]. destruct (box_txn_commit _). by apply wp_modify.
    + apply wp_bind, wp_modify, wp_bind. unfold tarantool_rollback, wp at 1.
      cbn [x_box update]. destruct (box_txn_rollback _). by apply wp_modify.
  - intros [] x1 [Hp Hb1]. unfold tarantool_message_execute. rewrite Hm2.
    apply wp_bind, wp_modify, wp_bind, wp_bind, wp_gets. cbn [x_box update]. rewrite Hb1.
    destruct (run_function _ _ _) as [o b2]. cbn in Hr |- *. rewrite Hr, He.
    apply wp_bind, wp_modify, wp_ret. cbn. rewrite Hp.
    eexists. split; [reflexivity|]. done.
Qed.

(** A stop request is lost when the ring is full:
    tarantool_message_loop_stop makes a single attempt and ignores its result,
    so the call returns with the ring unchanged and no message that could ever
    stop the loop. *)
Theorem executor_stop_lost k m x (b q : list message) :
  0 <= k <= 31 -> x_buffer x = Some b -> holds k (x_ring x) b q ->
  Z.of_nat (length q) = 2 ^ k - 1 ->
  exists x', tarantool_message_loop_stop m x = Done (false, x') /\ ring_holds k x' q /\
    x_active x' = x_active x.
Proof.
  intros Hk Hb Hh Hl. unfold tarantool_message_loop_stop.
  destruct (proj1 (wp_total _ _ _) (wp_enqueue k Hk (m <| m_type := TARANTOOL_MESSAGE_STOP |>) x q
    (fun ok x' => ok = false /\ ring_holds k x' q /\ x_active x' = x_active x)
    ltac:(by exists b) ltac:(
      intros r b' ok -> Hh'; rewrite Hl, Z.ltb_irrefl in *; split; [done|]; split; [by exists b'|done])))
    as (ok & x' & E & -> & Hq & Ha).
  by exists x'.
Qed.
End Theorems.

(** Owner ids that are requested one after the other are distinct, up to
    the width of the counter. *)
Theorem owner_ids_distinct n c :
  Z.of_nat n <= 2 ^ 32 -> NoDup (generate_ids n c).
Proof.
  intros Hn.
  assert (forall j i c', generate_ids j c' !! i = if decide (i < j)%nat then Some (u32 (c' + Z.of_nat i + 1)) else None) as Hid.
  { clear. intros j. induction j as [|j IH]; intros i c'; [done|]. cbn. destruct i as [|i].
    - cbn. f_equal. unfold ck_pr_inc_uint. f_equal. lia.
    - cbn. rewrite IH. unfold ck_pr_inc_uint, uwrap. repeat case_decide; try lia; try done.
      f_equal. rewrite <- Z.add_assoc, Zplus_mod_idemp_l. f_equal. lia. }
  apply NoDup_alt. intros i j v Hi Hj. rewrite Hid in Hi, Hj. repeat case_decide; try done.
  assert (u32 (c + Z.of_nat i + 1) = u32 (c + Z.of_nat j + 1)) as E by congruence.
  unfold uwrap in E. assert ((Z.of_nat i - Z.of_nat j) mod 2 ^ 32 = 0) as E0.
  { replace (Z.of_nat i - Z.of_nat j) with ((c + Z.of_nat i + 1) - (c + Z.of_nat j + 1)) by lia.
    by rewrite Zminus_mod, E, Z.sub_diag. }
  apply Z.mod_divide in E0 as [z E0]; lia.
Qed.

(** Two threads that ask for an owner id at the same time can get the same
    one: both increments happen before both reads.  The loop then takes their
    messages for messages of one owner. *)
Theorem owner_ids_race :
  owner_run [false; true; false; true] O_called O_called UINT32_MAX = (O_returned 1, O_returned 1).
Proof. reflexivity. Qed.

(** ** Concrete executions

    A scheduler that runs a list of choices, each of them a step of the
    system. *)

Section Schedule.
Context {B F Inp Out : Type} `{!Box B F Inp Out}.

Inductive choice :=
| Ch_loop
| Ch_send (t : nat) (m : @message F Inp Out)
| Ch_attempt (t : nat)
| Ch_return (t : nat)
| Ch_stop (m : @message F Inp Out).

Definition choose (cf : configuration) (c : choice) (y : @system B F Inp Out) : option system :=
  let '(mk_system x pc f sent) := y in
  match c with
  | Ch_loop =>
      match loop_step cf pc x with
      | Done (pc', x') => Some (mk_system x' pc' f sent)
      | Abort => None
      end
  | Ch_send t m =>
      match f t, send_begin m x with
      | S_idle, Done (s, x') => Some (mk_system x' pc (set_sender f t s) sent)
      | _, _ => None
      end
  | Ch_attempt t =>
      match f t with
      | S_try m count backoff =>
          match send_attempt m count backoff x with
          | Done (s, x') => Some (mk_system x' pc (set_sender f t s) (accepted s ++ sent))
          | Abort => None
          end
      | _ => None
      end
  | Ch_return t =>
      match f t with
      | S_done _ _ => Some (mk_system x pc (set_sender f t S_idle) sent)
      | _ => None
      end
  | Ch_stop m =>
      match tarantool_message_loop_stop m x with
      | Done (ok, x') =>
          Some (mk_system x' pc f
            (if ok then (m <| m_type := TARANTOOL_MESSAGE_STOP |>) :: sent else sent))
      | Abort => None
      end
  end.

Fixpoint choose_all (cf : configuration) (cs : list choice) (y : system) : option system :=
  match cs with
  | [] => Some y
  | c :: cs => y ← choose cf c y; choose_all cf cs y
  end.

Lemma choose_sound cf c y y' : choose cf c y = Some y' -> system_step cf y y'.
Proof.
  destruct y as [x pc f sent]. intros E. destruct c as [|t m|t|t|m]; cbn in E.
  - destruct (loop_step cf pc x) as [[pc' x']|] eqn:E1; simplify_eq. by constructor.
  - destruct (f t) eqn:Ef; try done. destruct (send_begin m x) as [[s x']|] eqn:E1; simplify_eq.
    by eapply ys_send.
  - destruct (f t) eqn:Ef; try done. destruct (send_attempt _ _ _ _) as [[s x']|] eqn:E1; simplify_eq.
    by eapply ys_attempt.
  - destruct (f t) eqn:Ef; simplify_eq. by eapply ys_sent.
  - destruct (tarantool_message_loop_stop m x) as [[ok x']|] eqn:E1; simplify_eq. by constructor.
Qed.

Lemma choose_all_reachable cf k cs y y' :
  reachable (system_init cf k) (system_step cf) y -> choose_all cf cs y = Some y' ->
  reachable (system_init cf k) (system_step cf) y'.
Proof.
  revert y. induction cs as [|c cs IH]; cbn; intros y Hr E; [by simplify_eq|].
  apply bind_Some in E as (y1 & E1 & E). eapply IH; [|done].
  eapply reach_step; [done|by apply choose_sound in E1].
Qed.
End Schedule.

(** A box with a transaction flag and a diagnostics area; a message carries a
    function that fails or returns its argument. *)
Module SmallBox.
Record box := mk_box { open : bool; diag : option string }.

Definition begin (b : box) : Z * box :=
  if open b
  then (-1, mk_box true (Some "Operation is not permitted when there is an active transaction"))
  else (0, mk_box true (diag b)).
Definition finish (b : box) : Z * box := (0, mk_box false (diag b)).
Definition run (f : bool) (i : Z) (b : box) : Z * box :=
  if f then (i, b) else (0, mk_box (open b) (Some "Failed")).

#[export] Instance small_box : Box box bool Z Z :=
  Build_Box box bool Z Z open begin finish finish run diag (fun b => mk_box (open b) None).

#[export] Instance small_box_laws : BoxLaws box bool Z Z.
Proof. split; try done. intros [] i b Hb; done. Qed.

Definition msg (id : Z) (ty : tarantool_message_type) (owner : Z) : @message bool Z Z :=
  mk_message id ty true id None 0 [] None None owner.

(** A ring of four slots. *)
Definition cf4 : configuration := mk_configuration d_tenth d_tenth 100 2 10 4 3.

Definition start_exec : @exec box bool Z Z :=
  mk_exec (ck_ring_init 4) (Some (replicate 4 (msg 0 TARANTOOL_MESSAGE_CALL 0))) true UINT32_MAX
    CK_BACKOFF_INITIALIZER 3 0 10 (mk_box false None) [] [] [] [].

Definition start : @system box bool Z Z := mk_system start_exec L_top (fun _ => S_idle) [].

Lemma start_reachable : reachable (system_init cf4 2) (system_step cf4) start.
Proof.
  apply reach_init. exists start_exec, (replicate 4 (msg 0 TARANTOOL_MESSAGE_CALL 0)).
  split; [lia|]. do 6 (split; [reflexivity|]). split.
  - exists start_exec. split; vm_compute; reflexivity.
  - done.
Qed.

Definition after (cs : list choice) : @system box bool Z Z := default start (choose_all cf4 cs start).

Lemma after_reachable cs :
  is_Some (choose_all cf4 cs start) -> reachable (system_init cf4 2) (system_step cf4) (after cs).
Proof.
  intros [y E]. unfold after. rewrite E. cbn.
  exact (choose_all_reachable cf4 2 cs start y start_reachable E).
Qed.

Definition send_one (t : nat) (m : @message bool Z Z) : list choice :=
  [Ch_send t m; Ch_attempt t; Ch_return t].

(** Owner 7 begins a transaction; owner 8 sends a call, owner 7 the commit,
    owner 8 another call. *)
Definition two_owners : list choice :=
  send_one 0 (msg 1 TARANTOOL_MESSAGE_BEGIN 7) ++ [Ch_loop; Ch_loop] ++
  send_one 1 (msg 2 TARANTOOL_MESSAGE_CALL 8) ++
  send_one 0 (msg 3 TARANTOOL_MESSAGE_COMMIT 7) ++
  send_one 1 (msg 4 TARANTOOL_MESSAGE_CALL 8) ++
  replicate 9 Ch_loop.

(** A sender is past the test of [active] when the loop stops. *)
Definition late_sender : list choice :=
  [Ch_send 0 (msg 1 TARANTOOL_MESSAGE_CALL 7); Ch_stop (msg 2 TARANTOOL_MESSAGE_CALL 0);
   Ch_loop; Ch_loop].
End SmallBox.
Import SmallBox.

(** C37: A sender that has seen [active] can use the buffer after the loop has
    freed it: there is an execution in which a thread in
    tarantool_send_message is past the test when the loop thread takes a stop,
    empties the ring and frees the buffer; the attempt that follows works on
    freed memory. *)
Theorem executor_send_after_free :
  exists y m count backoff, reachable (system_init cf4 2) (system_step cf4) y /\
    y_senders y 0%nat = S_try m count backoff /\
    send_attempt m count backoff (y_exec y) = Abort.
Proof.
  exists (after late_sender), (msg 1 TARANTOOL_MESSAGE_CALL 7), 0, CK_BACKOFF_INITIALIZER.
  split; [apply after_reachable; vm_compute; by eexists|].
  split; vm_compute; reflexivity.
Qed.

(** The loop does not keep the order of the messages of one sender: while
    another owner's transaction is open, a message is sent back to the end of
    the ring, behind later messages of the same sender.  In this execution the
    calls 2 and 4 of owner 8 are accepted in this order and executed in the
    other. *)
Theorem executor_reorders_sender :
  exists y, reachable (system_init cf4 2) (system_step cf4) y /\
    map (fun m => (m_id m, m_owner m)) (y_sent y) = [(4, 8); (3, 7); (2, 8); (1, 7)] /\
    map (fun m => (m_id m, m_owner m)) (x_posted (y_exec y)) = [(2, 8); (4, 8); (3, 7); (1, 7)].
Proof.
  exists (after two_owners). split; [apply after_reachable; vm_compute; by eexists|].
  split; vm_compute; reflexivity.
Qed.

Lemma two_owners_reachable :
  reachable (system_init cf4 2) (system_step cf4) (after two_owners).
Proof. apply after_reachable. vm_compute. by eexists. Qed.

Lemma executor_isolation_witness : isolated (y_exec (after two_owners)).
Proof. exact (executor_isolation cf4 2 (after two_owners) ltac:(lia) two_owners_reachable). Defined.

Lemma executor_conserves_messages_witness :
  exists q, ids (y_sent (after two_owners)) ≡ₚ ids q ++ ids (in_hand (y_loop (after two_owners))) ++
      ids (x_posted (y_exec (after two_owners))) ++ ids (x_dropped (y_exec (after two_owners))) /\
    match x_buffer (y_exec (after two_owners)) with
    | Some b => holds 2 (x_ring (y_exec (after two_owners))) b q
    | None => q = [] /\ y_loop (after two_owners) = L_exited
    end.
Proof.
  exact (executor_conserves_messages cf4 2 (after two_owners) ltac:(lia) two_owners_reachable).
Defined.

Lemma executor_memory_safe_witness :
  exists pc' x', loop_step cf4 (y_loop (after two_owners)) (y_exec (after two_owners)) = Done (pc', x').
Proof.
  exact (proj1 (executor_memory_safe cf4 2 (after two_owners) ltac:(lia) two_owners_reachable)).
Defined.

(** A call of owner 8 waits in the ring, with or without a transaction of
    owner 7. *)
Definition waiting_exec (in_transaction : bool) : @exec box bool Z Z :=
  mk_exec (mk_ck_ring 0 1 1 4 3) (Some (replicate 4 (msg 5 TARANTOOL_MESSAGE_CALL 8))) false 7
    CK_BACKOFF_INITIALIZER 3 0 10 (mk_box in_transaction None) [] [] [] [].

Lemma waiting_holds t : ring_holds 2 (waiting_exec t) [msg 5 TARANTOOL_MESSAGE_CALL 8].
Proof.
  eexists. split; [reflexivity|]. split; try done; try (cbn; lia).
  intros i Hi. cbn in Hi. by replace i with 0%nat by lia.
Qed.

Lemma executor_drain_completes_witness :
  exists x', loop_run cf4 3 L_drain (waiting_exec false) = Done (L_exited, x') /\
    x_buffer x' = None /\ ids (x_posted x') ++ ids (x_dropped x') ≡ₚ [5].
Proof.
  exact (executor_drain_completes cf4 2 (waiting_exec false) [msg 5 TARANTOOL_MESSAGE_CALL 8]
    ltac:(lia) (waiting_holds false) eq_refl ltac:(by repeat constructor)).
Defined.

Lemma executor_drain_livelock_witness :
  exists pc x', loop_run cf4 1000 L_drain (waiting_exec true) = Done (pc, x') /\ pc <> L_exited /\
    x_trace x' = [] /\ x_posted x' = [] /\ in_txn (x_box x') = true.
Proof.
  exact (executor_drain_livelock cf4 2 (waiting_exec true) [msg 5 TARANTOOL_MESSAGE_CALL 8] 1000
    ltac:(lia) (waiting_holds true) ltac:(done) eq_refl ltac:(by repeat constructor)).
Defined.

Lemma executor_stale_error_witness :
  wp (tarantool_message_execute (msg 1 TARANTOOL_MESSAGE_BEGIN 7);;
      tarantool_message_execute (msg 2 TARANTOOL_MESSAGE_CALL 7)) (fun _ x' => exists m2',
    x_posted x' = [m2'; msg 1 TARANTOOL_MESSAGE_BEGIN 7] /\ m_output m2' = Some 2 /\
    m_error m2' = Some "Operation is not permitted when there is an active transaction"%string /\
    m_error_type m2' = Some TARANTOOL_ERROR_INTERNAL /\ diag_last_error (x_box x') = None)
  (waiting_exec true).
Proof.
  exact (executor_stale_error (msg 1 TARANTOOL_MESSAGE_BEGIN 7) (msg 2 TARANTOOL_MESSAGE_CALL 7)
    (waiting_exec true) _ _ eq_refl eq_refl eq_refl eq_refl).
Defined.

Definition full_exec : @exec box bool Z Z :=
  mk_exec (mk_ck_ring 0 3 3 4 3) (Some (replicate 4 (msg 5 TARANTOOL_MESSAGE_CALL 8))) true 7
    CK_BACKOFF_INITIALIZER 3 0 10 (mk_box false None) [] [] [] [].

Lemma full_holds :
  holds 2 (x_ring full_exec) (replicate 4 (msg 5 TARANTOOL_MESSAGE_CALL 8))
    (replicate 3 (msg 5 TARANTOOL_MESSAGE_CALL 8)).
Proof.
  split; try done; try (cbn; lia).
  intros i Hi. cbn in Hi. destruct i as [|[|[|i]]]; [done..|lia].
Qed.

Lemma executor_stop_lost_witness :
  exists x', tarantool_message_loop_stop (msg 9 TARANTOOL_MESSAGE_CALL 0) full_exec = Done (false, x') /\
    ring_holds 2 x' (replicate 3 (msg 5 TARANTOOL_MESSAGE_CALL 8)) /\
    x_active x' = x_active full_exec.
Proof.
  exact (executor_stop_lost 2 (msg 9 TARANTOOL_MESSAGE_CALL 0) full_exec _ _
    ltac:(lia) eq_refl full_holds eq_refl).
Defined.

Lemma owner_ids_distinct_witness : NoDup (generate_ids 5 UINT32_MAX).
Proof. exact (owner_ids_distinct 5 UINT32_MAX ltac:(lia)). Defined.
