(* ===== verification/TxnLimbo.v ===== *)
(** * The limbo of synchronous transactions (src/box/txn_limbo.{c,h})

    Transactions on synchronous spaces, and asynchronous ones that follow them,
    wait in a queue until a quorum of replicas has acknowledged them.  [limbo]
    is struct txn_limbo with the settings it reads; an entry of the queue is a
    record that contains the fields of its transaction the limbo uses, [e_id]
    is its address.  Entries that leave the queue are kept in [l_out] with
    their fate, the requests handed to the journal in [l_wal].

    A function that writes to the journal yields in the middle.  It is split
    there: the first half ends with the request in [l_wal], the second half is
    what the fiber does when the write has succeeded.  A failed write is
    panic(): the process ends.  [Abort] is a failed assertion. *)

From S2P Require Import Prelude Bits Vclock.

Open Scope Z_scope.

(** ** Data *)

Definition REPLICA_ID_NIL : Z := 0.

Definition TXN_SIGNATURE_UNKNOWN : Z := -1.
Definition TXN_SIGNATURE_QUORUM_TIMEOUT : Z := -102.
Definition TXN_SIGNATURE_SYNC_ROLLBACK : Z := -103.

Inductive txn_status :=
| TXN_INPROGRESS
| TXN_PREPARED
| TXN_CONFLICTED
| TXN_IN_READ_VIEW
| TXN_COMMITTED
| TXN_ABORTED.
#[export] Instance txn_status_eq_dec : EqDecision txn_status.
Proof. solve_decision. Defined.

(** The fields of struct txn that the limbo reads and writes: three of the
    flags, the status and the signature. *)
Record txn := mk_txn {
  t_wait_sync : bool;
  t_wait_ack : bool;
  t_is_done : bool;
  t_status : txn_status;
  t_signature : Z;
}.
#[export] Instance txn_rebuild : Rebuild txn := fun t =>
  mk_txn (t_wait_sync t) (t_wait_ack t) (t_is_done t) (t_status t) (t_signature t).

Record txn_limbo_entry := mk_entry {
  e_id : Z;
  e_txn : txn;
  e_lsn : Z;
  e_ack_count : Z;
  e_is_commit : bool;
  e_is_rollback : bool;
}.
#[export] Instance entry_rebuild : Rebuild txn_limbo_entry := fun e =>
  mk_entry (e_id e) (e_txn e) (e_lsn e) (e_ack_count e) (e_is_commit e) (e_is_rollback e).

Inductive synchro_type := IPROTO_CONFIRM | IPROTO_ROLLBACK | IPROTO_PROMOTE | IPROTO_DEMOTE.
#[export] Instance synchro_type_eq_dec : EqDecision synchro_type.
Proof. solve_decision. Defined.

Record synchro_request := mk_request {
  q_type : synchro_type;
  q_replica_id : Z;
  q_origin_id : Z;
  q_lsn : Z;
  q_term : Z;
}.

Inductive limbo_error :=
| ER_SYNC_ROLLBACK
| ER_SYNC_QUEUE_UNCLAIMED
| ER_SYNC_QUEUE_FOREIGN (owner : Z)
| ER_UNCOMMITTED_FOREIGN_SYNC_TXNS (owner : Z)
| ER_OUT_OF_MEMORY.

(** How an entry has left the queue: committed, rolled back, or turned into a
    plain transaction that does not wait any more. *)
Inductive fate := F_commit | F_rollback | F_plain.
#[export] Instance fate_eq_dec : EqDecision fate.
Proof. solve_decision. Defined.

Record limbo := mk_limbo {
  l_queue : list txn_limbo_entry;
  l_len : Z;
  l_owner_id : Z;
  l_vclock : vclock;
  l_promote_term_map : vclock;
  l_promote_greatest_term : Z;
  l_confirmed_lsn : Z;
  l_rollback_count : Z;
  l_is_in_rollback : bool;
  l_instance_id : Z;
  l_quorum : Z;                            (* replication_synchro_quorum *)
  l_out : list (fate * txn_limbo_entry);   (* most recent first *)
  l_wal : list synchro_request;            (* most recent first *)
}.
#[export] Instance limbo_rebuild : Rebuild limbo := fun l =>
  mk_limbo (l_queue l) (l_len l) (l_owner_id l) (l_vclock l) (l_promote_term_map l)
    (l_promote_greatest_term l) (l_confirmed_lsn l) (l_rollback_count l) (l_is_in_rollback l)
    (l_instance_id l) (l_quorum l) (l_out l) (l_wal l).

Abbreviation lprog := (prog limbo).

(** An operation on a clock, whose assertions abort. *)
Definition lift {A} (o : option A) : lprog A := fun l =>
  match o with Some a => Done (a, l) | None => Abort end.

(** ** Transactions (src/box/txn.c) *)

Definition txn_complete_success (t : txn) : lprog txn :=
  assert (fun _ => negb (t_is_done t));;
  assert (fun _ => negb (t_wait_sync t));;
  assert (fun _ => 0 <=? t_signature t);;
  mret (t <| t_status := TXN_COMMITTED |> <| t_is_done := true |>).

Definition txn_complete_fail (t : txn) : lprog txn :=
  assert (fun _ => negb (t_is_done t));;
  assert (fun _ => t_signature t <? 0);;
  assert (fun _ => negb (t_signature t =? TXN_SIGNATURE_UNKNOWN));;
  mret (t <| t_status := TXN_ABORTED |> <| t_is_done := true |>).

(** ** The queue *)

Definition txn_limbo_create (v : vclock) (instance_id quorum : Z) : limbo :=
  mk_limbo [] 0 REPLICA_ID_NIL (vclock_create v) (vclock_create v) 0 0 0 false instance_id quorum
    [] [].

Definition txn_limbo_is_empty (l : limbo) : bool :=
  match l_queue l with [] => true | _ => false end.

Definition txn_limbo_is_ro (l : limbo) : bool :=
  negb (l_owner_id l =? REPLICA_ID_NIL) && negb (l_owner_id l =? l_instance_id l).

Definition txn_limbo_entry_is_complete (e : txn_limbo_entry) : bool :=
  e_is_commit e || e_is_rollback e.

Definition is_sync (e : txn_limbo_entry) : bool := t_wait_ack (e_txn e).

(** rlist_foreach_entry_reverse with a search. *)
Definition txn_limbo_last_synchro_entry (l : limbo) : option txn_limbo_entry :=
  List.find is_sync (rev (l_queue l)).

(** [oom]: the allocation of the entry fails. *)
Definition txn_limbo_append (id entry_id : Z) (t : txn) (oom : bool)
    : lprog (limbo_error + unit) :=
  assert (fun _ => t_wait_sync t);;
  assert (fun _ => t_signature t =? TXN_SIGNATURE_UNKNOWN);;
  assert (fun _ => bool_decide (t_status t = TXN_PREPARED));;
  l ← gets (fun l => l);
  if l_is_in_rollback l then mret (inl ER_SYNC_ROLLBACK)
  else
    let id := if id =? 0 then l_instance_id l else id in
    if l_owner_id l =? REPLICA_ID_NIL then mret (inl ER_SYNC_QUEUE_UNCLAIMED)
    else if negb (l_owner_id l =? id) then
      mret (inl (if txn_limbo_is_empty l then ER_SYNC_QUEUE_FOREIGN (l_owner_id l)
                 else ER_UNCOMMITTED_FOREIGN_SYNC_TXNS (l_owner_id l)))
    else if oom : bool then mret (inl ER_OUT_OF_MEMORY)
    else
      modify (fun l => l <| l_queue ::= fun q => q ++ [mk_entry entry_id t (-1) 0 false false] |>
                         <| l_len ::= Z.succ |>);;
      mret (inr tt).

(** The entry leaves the queue at its head. *)
Definition txn_limbo_remove (e : txn_limbo_entry) : lprog unit :=
  assert (fun l => match l_queue l with e0 :: _ => e_id e0 =? e_id e | [] => false end);;
  modify (fun l => l <| l_queue ::= tail |> <| l_len ::= Z.pred |>).

(** It leaves the queue at its end. *)
Definition txn_limbo_pop (e : txn_limbo_entry) : lprog unit :=
  assert (fun l => match last (l_queue l) with Some e0 => e_id e0 =? e_id e | None => false end);;
  assert (fun _ => e_is_rollback e);;
  modify (fun l => l <| l_queue ::= fun q => removelast q |> <| l_len ::= Z.pred |>
                     <| l_rollback_count ::= Z.succ |>).

(** The entry with its new flag. *)
Definition txn_limbo_abort (e : txn_limbo_entry) : lprog txn_limbo_entry :=
  let e := e <| e_is_rollback := true |> in
  txn_limbo_pop e;; mret e.

Definition leave (f : fate) (e : txn_limbo_entry) : lprog unit :=
  modify (fun l => l <| l_out ::= cons (f, e) |>).

(** The entry with a given address, and an update of it. *)
Definition the_entry (entry_id : Z) : lprog txn_limbo_entry := fun l =>
  match List.find (fun e => e_id e =? entry_id) (l_queue l) with
  | Some e => Done (e, l)
  | None => Abort
  end.
Definition update_entry (entry_id : Z) (f : txn_limbo_entry -> txn_limbo_entry) : lprog unit :=
  modify (fun l => l <| l_queue ::= fmap (fun e => if e_id e =? entry_id then f e else e) |>).

(** ** LSNs *)

Definition txn_limbo_assign_remote_lsn (entry_id lsn : Z) : lprog unit :=
  e ← the_entry entry_id;
  assert (fun l => negb (l_owner_id l =? REPLICA_ID_NIL));;
  assert (fun l => negb (l_owner_id l =? l_instance_id l));;
  assert (fun _ => e_lsn e =? -1);;
  assert (fun _ => 0 <? lsn);;
  assert (fun _ => is_sync e);;
  update_entry entry_id (fun e => e <| e_lsn := lsn |>).

Definition txn_limbo_assign_local_lsn (entry_id lsn : Z) : lprog unit :=
  e ← the_entry entry_id;
  assert (fun l => negb (l_owner_id l =? REPLICA_ID_NIL));;
  assert (fun l => l_owner_id l =? l_instance_id l);;
  assert (fun _ => e_lsn e =? -1);;
  assert (fun _ => 0 <? lsn);;
  assert (fun _ => is_sync e);;
  update_entry entry_id (fun e => e <| e_lsn := lsn |>);;
  v ← gets l_vclock;
  cs ← lift (vclock_foreach v);
  let ack_count :=
    foldl (fun n c => i32 (n + (if lsn <=? c_lsn c then 1 else 0))) 0 cs in
  assert (fun _ => e_ack_count e <=? ack_count);;
  update_entry entry_id (fun e => e <| e_ack_count := ack_count |>).

Definition txn_limbo_assign_lsn (entry_id lsn : Z) : lprog unit :=
  l ← gets (fun l => l);
  if l_owner_id l =? l_instance_id l then txn_limbo_assign_local_lsn entry_id lsn
  else txn_limbo_assign_remote_lsn entry_id lsn.

(** ** Requests *)

Definition iproto_type_is_promote_request (ty : synchro_type) : bool :=
  match ty with IPROTO_PROMOTE | IPROTO_DEMOTE => true | _ => false end.

Definition txn_limbo_checkpoint (l : limbo) : synchro_request :=
  mk_request IPROTO_PROMOTE (l_owner_id l) 0 (l_confirmed_lsn l) (l_promote_greatest_term l).

Definition txn_limbo_write_synchro (ty : synchro_type) (lsn term : Z) : lprog unit :=
  assert (fun _ => 0 <=? lsn);;
  modify (fun l => l <| l_wal ::= cons (mk_request ty (l_owner_id l) 0 lsn term) |>).

(** txn_limbo_write_confirm up to the yield. *)
Definition txn_limbo_write_confirm (lsn : Z) : lprog unit :=
  assert (fun l => l_confirmed_lsn l <? lsn);;
  assert (fun l => negb (l_is_in_rollback l));;
  modify (fun l => l <| l_confirmed_lsn := lsn |>);;
  txn_limbo_write_synchro IPROTO_CONFIRM lsn 0.

(** The body of the loop of txn_limbo_read_confirm for an entry that is
    confirmed, and for an asynchronous one that is not written yet. *)
Definition confirm_one (e : txn_limbo_entry) : lprog unit :=
  let e := e <| e_is_commit := true |> in
  txn_limbo_remove e;;
  let t := (e_txn e) <| t_wait_sync := false |> <| t_wait_ack := false |> in
  assert (fun _ => 0 <=? t_signature t);;
  t ← txn_complete_success t;
  leave F_commit (e <| e_txn := t |>).

Definition detach_one (e : txn_limbo_entry) : lprog unit :=
  assert (fun _ => bool_decide (t_status (e_txn e) = TXN_PREPARED));;
  txn_limbo_remove e;;
  leave F_plain (e <| e_txn ::= fun t => t <| t_wait_sync := false |> |>).

Fixpoint confirm_loop (es : list txn_limbo_entry) (lsn : Z) : lprog unit :=
  match es with
  | [] => skip
  | e :: es =>
      if is_sync e then
        if lsn <? e_lsn e then skip
        else if e_lsn e =? -1 then skip
        else confirm_one e;; confirm_loop es lsn
      else if t_signature (e_txn e) =? TXN_SIGNATURE_UNKNOWN then
        detach_one e;; confirm_loop es lsn
      else confirm_one e;; confirm_loop es lsn
  end.

Definition txn_limbo_read_confirm (lsn : Z) : lprog unit :=
  assert (fun l => negb (l_owner_id l =? REPLICA_ID_NIL) || txn_limbo_is_empty l);;
  es ← gets l_queue;
  confirm_loop es lsn.

(** txn_limbo_write_rollback up to the yield and after it. *)
Definition txn_limbo_write_rollback_begin (lsn : Z) : lprog unit :=
  assert (fun l => l_confirmed_lsn l <? lsn);;
  assert (fun l => negb (l_is_in_rollback l));;
  modify (fun l => l <| l_is_in_rollback := true |>);;
  txn_limbo_write_synchro IPROTO_ROLLBACK lsn 0.
Definition txn_limbo_write_rollback_end : lprog unit :=
  modify (fun l => l <| l_is_in_rollback := false |>).

(** The last entry, in the order of the iteration from the end of the queue,
    that has to be rolled back. *)
Fixpoint last_rollback (res : list txn_limbo_entry) (lsn : Z) (found : option Z) : option Z :=
  match res with
  | [] => found
  | e :: res =>
      if negb (is_sync e) then last_rollback res lsn found
      else if e_lsn e <? lsn then found
      else last_rollback res lsn (Some (e_id e))
  end.

Definition rollback_one (e : txn_limbo_entry) : lprog unit :=
  e ← txn_limbo_abort e;
  let t := (e_txn e) <| t_wait_sync := false |> <| t_wait_ack := false |> in
  assert (fun _ => 0 <=? t_signature t);;
  t ← txn_complete_fail (t <| t_signature := TXN_SIGNATURE_SYNC_ROLLBACK |>);
  leave F_rollback (e <| e_txn := t |>).

Fixpoint rollback_loop (one : txn_limbo_entry -> lprog unit) (res : list txn_limbo_entry)
    (stop : Z) : lprog unit :=
  match res with
  | [] => skip
  | e :: res => one e;; if e_id e =? stop then skip else rollback_loop one res stop
  end.

Definition txn_limbo_read_rollback (lsn : Z) : lprog unit :=
  assert (fun l => negb (l_owner_id l =? REPLICA_ID_NIL) || txn_limbo_is_empty l);;
  q ← gets l_queue;
  match last_rollback (rev q) lsn None with
  | None => skip
  | Some stop => rollback_loop rollback_one (rev q) stop
  end.

(** txn_limbo_write_promote and txn_limbo_write_demote up to the yield, and
    after it. *)
Definition txn_limbo_write_promote_begin (ty : synchro_type) (lsn term : Z) : lprog unit :=
  modify (fun l => l <| l_confirmed_lsn := lsn |> <| l_is_in_rollback := true |>);;
  assert (fun l => match txn_limbo_last_synchro_entry l with
                   | None => true
                   | Some e => e_lsn e <=? lsn
                   end);;
  txn_limbo_write_synchro ty lsn term.
Definition txn_limbo_write_promote_end : lprog unit :=
  modify (fun l => l <| l_is_in_rollback := false |>).

Definition txn_limbo_read_promote (replica_id lsn : Z) : lprog unit :=
  txn_limbo_read_confirm lsn;;
  txn_limbo_read_rollback (lsn + 1);;
  assert txn_limbo_is_empty;;
  modify (fun l => l <| l_owner_id := replica_id |> <| l_confirmed_lsn := 0 |>).

Definition txn_limbo_read_demote (lsn : Z) : lprog unit :=
  txn_limbo_read_promote REPLICA_ID_NIL lsn.

Definition txn_limbo_replica_term (l : limbo) (replica_id : Z) : option Z :=
  vclock_get (l_promote_term_map l) replica_id.

Definition txn_limbo_is_replica_outdated (l : limbo) (replica_id : Z) : option bool :=
  t ← txn_limbo_replica_term l replica_id; Some (t <? l_promote_greatest_term l).

(** The switch of txn_limbo_process. *)
Definition txn_limbo_execute (req : synchro_request) (lsn : Z) : lprog unit :=
  match q_type req with
  | IPROTO_CONFIRM => txn_limbo_read_confirm lsn
  | IPROTO_ROLLBACK => txn_limbo_read_rollback lsn
  | IPROTO_PROMOTE => txn_limbo_read_promote (q_origin_id req) lsn
  | IPROTO_DEMOTE => txn_limbo_read_demote lsn
  end.

(** Whether the request passes the filter of terms; it can change the map. *)
Definition txn_limbo_filter_term (req : synchro_request) : lprog bool :=
  l ← gets (fun l => l);
  seen ← lift (txn_limbo_replica_term l (q_origin_id req));
  if u64 seen <? q_term req then
    '(_, w) ← lift (vclock_follow (l_promote_term_map l) (q_origin_id req) (i64 (q_term req)));
    modify (fun l => l <| l_promote_term_map := w |>
      <| l_promote_greatest_term ::= Z.max (q_term req) |>);;
    mret true
  else
    mret (negb (iproto_type_is_promote_request (q_type req) && (1 <? l_promote_greatest_term l))).

Definition txn_limbo_process (req : synchro_request) : lprog unit :=
  pass ← txn_limbo_filter_term req;
  if negb pass then skip
  else
    owner ← gets l_owner_id;
    if q_replica_id req =? REPLICA_ID_NIL then
      assert (fun _ => (q_lsn req =? 0) && iproto_type_is_promote_request (q_type req));;
      txn_limbo_execute req (q_lsn req)
    else if negb (q_replica_id req =? owner) then
      if negb (iproto_type_is_promote_request (q_type req)) then skip
      else txn_limbo_execute req 0
    else txn_limbo_execute req (q_lsn req).

(** ** Acknowledgements *)

(** The loop of txn_limbo_ack over the queue: the queue with its counters, and
    the LSN to confirm (-1 for none). *)
Fixpoint ack_loop (es : list txn_limbo_entry) (prev_lsn lsn quorum confirm_lsn : Z)
    : option (list txn_limbo_entry * Z) :=
  match es with
  | [] => Some ([], confirm_lsn)
  | e :: es =>
      guard_assert (e_ack_count e <=? VCLOCK_MAX);;
      if lsn <? e_lsn e then Some (e :: es, confirm_lsn)
      else if negb (is_sync e) then
        guard_assert (e_lsn e =? -1);;
        '(es, c) ← ack_loop es prev_lsn lsn quorum confirm_lsn; Some (e :: es, c)
      else if e_lsn e <=? prev_lsn then
        '(es, c) ← ack_loop es prev_lsn lsn quorum confirm_lsn; Some (e :: es, c)
      else
        let e := e <| e_ack_count ::= fun n => i32 (n + 1) |> in
        '(es, c) ← ack_loop es prev_lsn lsn quorum
                     (if e_ack_count e <? quorum then confirm_lsn else e_lsn e);
        Some (e :: es, c)
  end.

(** txn_limbo_ack up to the yield: the LSN whose confirmation is being
    written; txn_limbo_read_confirm of it follows. *)
Definition txn_limbo_ack (replica_id lsn : Z) : lprog (option Z) :=
  l ← gets (fun l => l);
  if txn_limbo_is_empty l then mret None
  else if l_is_in_rollback l then mret None
  else
    assert (fun l => negb (l_owner_id l =? REPLICA_ID_NIL));;
    prev_lsn ← lift (vclock_get (l_vclock l) replica_id);
    if lsn =? prev_lsn then mret None
    else
      '(_, w) ← lift (vclock_follow (l_vclock l) replica_id lsn);
      modify (fun l => l <| l_vclock := w |>);;
      '(q, confirm_lsn) ← lift (ack_loop (l_queue l) prev_lsn lsn (l_quorum l) (-1));
      modify (fun l => l <| l_queue := q |>);;
      if (confirm_lsn =? -1) || (confirm_lsn <=? l_confirmed_lsn l) then mret None
      else txn_limbo_write_confirm confirm_lsn;; mret (Some confirm_lsn).

Fixpoint quorum_loop (es : list txn_limbo_entry) (quorum confirm_lsn : Z) : option Z :=
  match es with
  | [] => Some confirm_lsn
  | e :: es =>
      guard_assert (e_ack_count e <=? VCLOCK_MAX);;
      if negb (is_sync e) then guard_assert (e_lsn e =? -1);; quorum_loop es quorum confirm_lsn
      else if e_ack_count e <? quorum then quorum_loop es quorum confirm_lsn
      else guard_assert (0 <? e_lsn e);; quorum_loop es quorum (e_lsn e)
  end.

(** The same for txn_limbo_on_parameters_change. *)
Definition txn_limbo_on_parameters_change : lprog (option Z) :=
  l ← gets (fun l => l);
  if txn_limbo_is_empty l then mret None
  else
    confirm_lsn ← lift (quorum_loop (l_queue l) (l_quorum l) (-1));
    if (l_confirmed_lsn l <? confirm_lsn) && negb (l_is_in_rollback l) then
      txn_limbo_write_confirm confirm_lsn;; mret (Some confirm_lsn)
    else mret None.

(** ** Waiting

    Where a fiber in txn_limbo_wait_complete is: in fiber_cond_wait_timeout,
    in the loop at the label wait, in the journal write of a rollback, or done
    with a result. *)
Inductive wait_pc := W_cond | W_wait | W_rollback | W_done (rc : Z).

Definition find_out (entry_id : Z) (l : limbo) : option (fate * txn_limbo_entry) :=
  List.find (fun x => e_id x.2 =? entry_id) (l_out l).

(** The label complete, for an entry that is out of the queue. *)
Definition wait_complete_done (e : txn_limbo_entry) : lprog wait_pc :=
  assert (fun _ => txn_limbo_entry_is_complete e);;
  assert (fun _ => t_is_done (e_txn e));;
  mret (W_done (if e_is_rollback e then -1 else 0)).

(** The entry is looked at: in the queue or after it has left it. *)
Definition wait_complete_check (pc : wait_pc) (entry_id : Z) : lprog wait_pc :=
  o ← gets (find_out entry_id);
  match o with
  | Some (_, e) => if txn_limbo_entry_is_complete e then wait_complete_done e else mret pc
  | None => mret pc
  end.

(** fiber_cond_wait_timeout has returned an error and the entry is not
    complete. *)
Definition wait_complete_timeout (entry_id : Z) : lprog wait_pc :=
  l ← gets (fun l => l);
  assert (fun l => negb (txn_limbo_is_empty l));;
  match l_queue l with
  | [] => abort
  | e :: _ =>
      if negb (e_id e =? entry_id) then mret W_wait
      else
        assert (fun _ => 0 <? e_lsn e);;
        if e_lsn e <=? l_confirmed_lsn l then mret W_wait
        else txn_limbo_write_rollback_begin (e_lsn e);; mret W_rollback
  end.

Definition timeout_one (e : txn_limbo_entry) : lprog unit :=
  let e := e <| e_txn ::= fun t => t <| t_signature := TXN_SIGNATURE_QUORUM_TIMEOUT |> |> in
  e ← txn_limbo_abort e;
  t ← txn_complete_fail ((e_txn e) <| t_wait_sync := false |> <| t_wait_ack := false |>);
  leave F_rollback (e <| e_txn := t |>).

(** The rollback is written. *)
Definition wait_complete_rollback (entry_id : Z) : lprog wait_pc :=
  txn_limbo_write_rollback_end;;
  q ← gets l_queue;
  rollback_loop timeout_one (rev q) entry_id;;
  mret (W_done (-1)).

(** ** The journal (txn_on_journal_write in src/box/txn.c) *)

Definition txn_written (entry_id res : Z) : lprog unit :=
  e ← the_entry entry_id;
  assert (fun _ => t_signature (e_txn e) =? TXN_SIGNATURE_UNKNOWN);;
  update_entry entry_id (fun e => e <| e_txn ::= fun t => t <| t_signature := res |> |>).

(** A failed write: the transaction is completed by the callback, and its
    entry aborted by the fiber that the callback wakes up; here in one step. *)
Definition txn_write_failed (entry_id res : Z) : lprog unit :=
  e ← the_entry entry_id;
  assert (fun _ => t_signature (e_txn e) =? TXN_SIGNATURE_UNKNOWN);;
  t ← txn_complete_fail ((e_txn e) <| t_signature := res |>);
  e ← txn_limbo_abort (e <| e_txn := t |>);
  leave F_rollback e.
