(* ===== verification/LimboQueue.v ===== *)
(** * The queue of the limbo

    What the loops of txn_limbo.c do with the queue: the entries a CONFIRM
    takes out, those a ROLLBACK takes out, and the acknowledgements that
    txn_limbo_ack counts. *)

From S2P Require Import Prelude Bits Vclock TxnLimbo.

Open Scope Z_scope.

Implicit Types (e : txn_limbo_entry) (q es : list txn_limbo_entry) (l : limbo).

(** ** The queue *)

(** An entry that waits: it is not complete, and has an LSN only if it is
    synchronous. *)
Record entry_ok e : Prop := {
  eo_wait : t_wait_sync (e_txn e) = true;
  eo_open : t_is_done (e_txn e) = false;
  eo_status : t_status (e_txn e) = TXN_PREPARED;
  eo_commit : e_is_commit e = false;
  eo_rollback : e_is_rollback e = false;
  eo_lsn : e_lsn e = -1 \/ 0 < e_lsn e;
  eo_async : is_sync e = false -> e_lsn e = -1;
  eo_signature : t_signature (e_txn e) = TXN_SIGNATURE_UNKNOWN \/ 0 <= t_signature (e_txn e);
  eo_count : 0 <= e_ack_count e <= VCLOCK_MAX;
}.

(** The order of the LSNs in the queue: growing, and -1 at the end. *)
Definition lsn_order (x y : Z) : Prop := y = -1 \/ 0 < x < y.

Definition sync_lsns q : list Z := e_lsn <$> filter (fun e => is_sync e = true) q.

Definition starts_sync q : Prop := match q with [] => True | e :: _ => is_sync e = true end.

Record queue_ok q : Prop := {
  qo_entries : Forall entry_ok q;
  qo_order : StronglySorted lsn_order (sync_lsns q);
  qo_first : starts_sync q;
}.

(** ** Confirmation *)

(** The entries that a confirmation of [lsn] leaves in the queue start here. *)
Definition stays (lsn : Z) e : bool :=
  is_sync e && ((lsn <? e_lsn e) || (e_lsn e =? -1)).

Fixpoint confirmed (lsn : Z) q : list txn_limbo_entry :=
  match q with
  | [] => []
  | e :: q => if stays lsn e then [] else e :: confirmed lsn q
  end.
Fixpoint unconfirmed (lsn : Z) q : list txn_limbo_entry :=
  match q with
  | [] => []
  | e :: q' => if stays lsn e then q else unconfirmed lsn q'
  end.

Lemma confirmed_app lsn q : confirmed lsn q ++ unconfirmed lsn q = q.
Proof. induction q as [|e q IH]; cbn; [done|]. destruct (stays lsn e); [done|]. cbn. by rewrite IH. Qed.

(** What becomes of a confirmed entry. *)
Definition settle e : fate * txn_limbo_entry :=
  if negb (is_sync e) && (t_signature (e_txn e) =? TXN_SIGNATURE_UNKNOWN)
  then (F_plain, e <| e_txn ::= fun t => t <| t_wait_sync := false |> |>)
  else (F_commit, e <| e_is_commit := true |>
    <| e_txn := (e_txn e) <| t_wait_sync := false |> <| t_wait_ack := false |>
                  <| t_status := TXN_COMMITTED |> <| t_is_done := true |> |>).

Definition take_out (outs : list (fate * txn_limbo_entry)) q l : limbo :=
  l <| l_queue := q |> <| l_len ::= fun n => n - Z.of_nat (length outs) |>
    <| l_out ::= app (rev outs) |>.

Lemma take_out_nil l : take_out [] (l_queue l) l = l.
Proof. unfold take_out. destruct l; cbn. f_equal. lia. Qed.

Lemma take_out_cons x xs q q1 l :
  take_out xs q (take_out [x] q1 l) = take_out (x :: xs) q l.
Proof. unfold take_out. destruct l; cbn. f_equal; [lia|]. by rewrite <- app_assoc. Qed.

Lemma confirm_one_spec e q l (Q : unit -> limbo -> Prop) :
  l_queue l = e :: q -> entry_ok e -> 0 <= t_signature (e_txn e) ->
  Q tt (take_out [settle e] q l) -> wp (confirm_one e) Q l.
Proof.
  intros Hq He Hs HQ. unfold confirm_one, txn_limbo_remove.
  apply wp_bind, wp_bind, wp_assert. rewrite Hq. split; [apply Z.eqb_refl|].
  apply wp_modify. apply wp_bind, wp_assert. split; [cbn; by apply Z.leb_le|].
  unfold txn_complete_success.
  apply wp_bind. apply wp_bind, wp_assert. split; [cbn; by rewrite (eo_open e He)|].
  apply wp_bind, wp_assert. split; [done|].
  apply wp_bind, wp_assert. split; [cbn; by apply Z.leb_le|].
  apply wp_ret. unfold leave. apply wp_modify.
  unfold take_out, settle in HQ. replace (_ =? TXN_SIGNATURE_UNKNOWN) with false in HQ
    by (unfold TXN_SIGNATURE_UNKNOWN; lia).
  rewrite andb_false_r in HQ. destruct l, e as [i t n c ? ?], t; cbn in *. subst. cbn. exact HQ.
Qed.

Lemma detach_one_spec e q l (Q : unit -> limbo -> Prop) :
  l_queue l = e :: q -> entry_ok e -> is_sync e = false ->
  t_signature (e_txn e) = TXN_SIGNATURE_UNKNOWN ->
  Q tt (take_out [settle e] q l) -> wp (detach_one e) Q l.
Proof.
  intros Hq He Ha Hs HQ. unfold detach_one, txn_limbo_remove.
  apply wp_bind, wp_assert. split; [by rewrite (eo_status e He)|].
  apply wp_bind, wp_bind, wp_assert. rewrite Hq. split; [apply Z.eqb_refl|].
  apply wp_modify. unfold leave. apply wp_modify.
  unfold take_out, settle in HQ. rewrite Ha, Hs in HQ. destruct l; cbn in *. subst. exact HQ.
Qed.

(** txn_limbo_read_confirm: entries leave the queue from its head, in order, up
    to the first synchronous one that is not covered. *)
Lemma confirm_loop_spec lsn q l :
  l_queue l = q -> Forall entry_ok q ->
  Forall (fun e => is_sync e = true -> 0 <= t_signature (e_txn e)) (confirmed lsn q) ->
  wp (confirm_loop q lsn)
    (fun _ l' => l' = take_out (settle <$> confirmed lsn q) (unconfirmed lsn q) l) l.
Proof.
  revert l. induction q as [|e q IH]; intros l Hq Hok Hs; cbn.
  { apply wp_ret. by rewrite <- Hq, take_out_nil. }
  unfold stays in *. cbn in Hs. unfold stays in Hs.
  apply Forall_cons in Hok as [He Hok].
  assert (forall l', l' = take_out [settle e] q l ->
    Forall (fun e => is_sync e = true -> 0 <= t_signature (e_txn e)) (confirmed lsn q) ->
    wp (confirm_loop q lsn) (fun _ l'' => l'' =
      take_out (settle <$> e :: confirmed lsn q) (unconfirmed lsn q) l) l') as Hnext.
  { intros l' -> Hs'. eapply wp_mono; [by apply IH|]. cbn. intros _ l'' ->.
    by rewrite take_out_cons. }
  destruct (is_sync e) eqn:Esy; cbn [andb orb] in *.
  - destruct (lsn <? e_lsn e); [apply wp_ret; cbn; by rewrite <- Hq, take_out_nil|].
    destruct (e_lsn e =? -1); [apply wp_ret; cbn; by rewrite <- Hq, take_out_nil|]. cbn [orb] in *.
    apply Forall_cons in Hs as [Hse Hs].
    apply wp_bind. eapply confirm_one_spec; [done|done|by apply Hse|]. by apply Hnext.
  - apply Forall_cons in Hs as [_ Hs]. destruct (Z.eqb_spec (t_signature (e_txn e)) TXN_SIGNATURE_UNKNOWN).
    + apply wp_bind. eapply detach_one_spec; [done..|]. by apply Hnext.
    + apply wp_bind. eapply confirm_one_spec; [done|done| |by apply Hnext].
      destruct (eo_signature e He); [done|lia].
Qed.

(** ** Rollback *)

(** A rollback from [lsn] on keeps the queue up to the first synchronous entry
    that is not older. *)
Definition rolls (lsn : Z) e : bool := is_sync e && (lsn <=? e_lsn e).

Fixpoint kept (lsn : Z) q : list txn_limbo_entry :=
  match q with
  | [] => []
  | e :: q => if rolls lsn e then [] else e :: kept lsn q
  end.
Fixpoint rolled (lsn : Z) q : list txn_limbo_entry :=
  match q with
  | [] => []
  | e :: q' => if rolls lsn e then q else rolled lsn q'
  end.

Lemma kept_app lsn q : kept lsn q ++ rolled lsn q = q.
Proof. induction q as [|e q IH]; cbn; [done|]. destruct (rolls lsn e); [done|]. cbn. by rewrite IH. Qed.

Lemma rolled_suffix (P : txn_limbo_entry -> Prop) lsn q : Forall P q -> Forall P (rolled lsn q).
Proof. intros H. rewrite <- (kept_app lsn q) in H. by apply Forall_app in H as [_ H]. Qed.

(** The iteration from the end stops at an older synchronous entry. *)
Definition older (lsn : Z) e : bool := is_sync e && (e_lsn e <? lsn).

Lemma last_rollback_app lsn res e found :
  last_rollback (res ++ [e]) lsn found =
  if existsb (older lsn) res || older lsn e || negb (is_sync e) then last_rollback res lsn found
  else Some (e_id e).
Proof.
  revert found. induction res as [|e0 res IH]; intros found; cbn; unfold older at 1.
  - destruct (is_sync e), (e_lsn e <? lsn); done.
  - destruct (is_sync e0), (e_lsn e0 <? lsn); cbn; try apply IH. done.
Qed.

Lemma sync_lsns_cons e q :
  sync_lsns (e :: q) = if is_sync e then e_lsn e :: sync_lsns q else sync_lsns q.
Proof. unfold sync_lsns. cbn. destruct (is_sync e) eqn:E; case_decide; try done; congruence. Qed.

(** The synchronous entries that have their LSN. *)
Definition assigned e : Prop := is_sync e = true -> 0 < e_lsn e.

Lemma last_rollback_spec lsn q :
  StronglySorted lsn_order (sync_lsns q) -> Forall assigned q ->
  last_rollback (rev q) lsn None = head (e_id <$> rolled lsn q).
Proof.
  induction q as [|e q IH]; [done|]. intros Hs Ha. apply Forall_cons in Ha as [Hae Ha].
  rewrite sync_lsns_cons in Hs. cbn [rev rolled]. rewrite last_rollback_app.
  unfold rolls, older at 2. destruct (is_sync e) eqn:Esy; cbn [andb negb].
  2: { rewrite !orb_true_r. by apply IH. }
  apply StronglySorted_inv in Hs as [Hs Hall]. rewrite orb_false_r.
  destruct (Z.ltb_spec (e_lsn e) lsn).
  { rewrite orb_true_r. replace (lsn <=? e_lsn e) with false by lia. by apply IH. }
  replace (lsn <=? e_lsn e) with true by lia. rewrite orb_false_r.
  replace (existsb _ _) with false; [done|]. symmetry. apply not_true_iff_false.
  intros Hex. apply existsb_exists in Hex as (x & Hx & Hold). apply in_rev in Hx.
  apply andb_true_iff in Hold as [Hxs Hxl].
  assert (lsn_order (e_lsn e) (e_lsn x)) as Ho.
  { eapply (proj1 (Forall_forall _ _) Hall). unfold sync_lsns. apply list_elem_of_fmap_2.
    apply list_elem_of_filter. split; [done|by apply list_elem_of_In]. }
  pose proof (proj1 (List.Forall_forall _ _) Ha x Hx Hxs). unfold lsn_order in Ho. lia.
Qed.

(** A rolled back entry, with the signature that tells why. *)
Definition fail_entry (signature : Z) e : txn_limbo_entry :=
  e <| e_is_rollback := true |>
    <| e_txn := (e_txn e) <| t_wait_sync := false |> <| t_wait_ack := false |>
                  <| t_signature := signature |> <| t_status := TXN_ABORTED |>
                  <| t_is_done := true |> |>.

Definition roll_out (signature : Z) (gone : list txn_limbo_entry) q l : limbo :=
  (take_out ((fun e => (F_rollback, fail_entry signature e)) <$> gone) q l)
    <| l_rollback_count ::= Z.add (Z.of_nat (length gone)) |>.

Lemma roll_out_nil sg l : roll_out sg [] (l_queue l) l = l.
Proof. unfold roll_out, take_out. destruct l; cbn. f_equal; lia. Qed.

Lemma roll_out_cons sg e gone q q1 l :
  roll_out sg gone q (roll_out sg [e] q1 l) = roll_out sg (e :: gone) q l.
Proof.
  unfold roll_out, take_out. destruct l; cbn. rewrite <- app_assoc. f_equal; lia.
Qed.

Lemma roll_out_one sg e q l :
  roll_out sg [e] q l = l <| l_queue := q |> <| l_len ::= Z.pred |>
    <| l_rollback_count ::= Z.succ |> <| l_out ::= cons (F_rollback, fail_entry sg e) |>.
Proof. unfold roll_out, take_out. destruct l; cbn. f_equal; lia. Qed.

(** What one turn of either loop does with the last entry. *)
Definition rolls_back (sg : Z) (P : txn_limbo_entry -> Prop) (one : txn_limbo_entry -> lprog unit) :=
  forall e q l (Q : unit -> limbo -> Prop), l_queue l = q ++ [e] -> entry_ok e -> P e ->
    Q tt (roll_out sg [e] q l) -> wp (one e) Q l.

Lemma pop_spec e q l (Q : unit -> limbo -> Prop) :
  last (l_queue l) = Some e -> removelast (l_queue l) = q ->
  Q tt (l <| l_queue := q |> <| l_len ::= Z.pred |> <| l_rollback_count ::= Z.succ |>) ->
  forall e', e_id e' = e_id e -> e_is_rollback e' = true -> wp (txn_limbo_pop e') Q l.
Proof.
  intros Hl Hr HQ e' Hid Hrb. unfold txn_limbo_pop. apply wp_bind, wp_assert.
  split; [rewrite Hl, Hid; apply Z.eqb_refl|]. apply wp_bind, wp_assert. split; [done|].
  apply wp_modify. by rewrite <- Hr in HQ.
Qed.

Lemma abort_last_spec e e' q l (Q : txn_limbo_entry -> limbo -> Prop) :
  l_queue l = q ++ [e] -> e_id e' = e_id e ->
  Q (e' <| e_is_rollback := true |>)
    (l <| l_queue := q |> <| l_len ::= Z.pred |> <| l_rollback_count ::= Z.succ |>) ->
  wp (txn_limbo_abort e') Q l.
Proof.
  intros Hq Hid HQ. unfold txn_limbo_abort. apply wp_bind.
  apply (pop_spec e q); [by rewrite Hq, last_snoc|by rewrite Hq, removelast_last| |done|done].
  by apply wp_ret.
Qed.

Lemma rollback_one_spec :
  rolls_back TXN_SIGNATURE_SYNC_ROLLBACK (fun e => 0 <= t_signature (e_txn e)) rollback_one.
Proof.
  intros e q l Q Hq He Hs HQ. unfold rollback_one. apply wp_bind.
  apply (abort_last_spec e e q); [done|done|].
  apply wp_bind, wp_assert. split; [cbn; by apply Z.leb_le|].
  unfold txn_complete_fail. apply wp_bind.
  apply wp_bind, wp_assert. split; [cbn; by rewrite (eo_open e He)|].
  apply wp_bind, wp_assert. split; [done|]. apply wp_bind, wp_assert. split; [done|].
  apply wp_ret. apply wp_modify. rewrite roll_out_one in HQ. exact HQ.
Qed.

Lemma timeout_one_spec :
  rolls_back TXN_SIGNATURE_QUORUM_TIMEOUT (fun _ => True) timeout_one.
Proof.
  intros e q l Q Hq He _ HQ. unfold timeout_one. apply wp_bind.
  apply (abort_last_spec e _ q); [done|done|].
  unfold txn_complete_fail. apply wp_bind.
  apply wp_bind, wp_assert. split; [cbn; by rewrite (eo_open e He)|].
  apply wp_bind, wp_assert. split; [done|]. apply wp_bind, wp_assert. split; [done|].
  apply wp_ret. apply wp_modify. rewrite roll_out_one in HQ. exact HQ.
Qed.

(** The loop takes entries off the end of the queue, the last one first, until
    [stop] is gone; everything when [stop] is not in the queue. *)
Lemma rollback_loop_spec sg P one keep gone stop l :
  rolls_back sg P one -> l_queue l = keep ++ gone ->
  NoDup (e_id <$> gone) ->
  match gone with [] => keep = [] | e :: _ => e_id e = stop end ->
  Forall entry_ok gone -> Forall P gone ->
  wp (rollback_loop one (rev (keep ++ gone)) stop)
    (fun _ l' => l' = roll_out sg (rev gone) keep l) l.
Proof.
  intros Hone. revert l. induction gone as [|e gone IH] using rev_ind; intros l Hq Hnd Hst Hok HP.
  { subst keep. apply wp_ret. pose proof (roll_out_nil sg l) as E. by rewrite Hq in E. }
  apply Forall_app in Hok as [Hok He]. apply Forall_app in HP as [HP HPe].
  rewrite Forall_singleton in He, HPe. rewrite app_assoc in Hq |- *.
  rewrite !rev_app_distr with (y := [e]). cbn [rev app rollback_loop].
  apply wp_bind. apply (Hone e (keep ++ gone)); [done|done|done|].
  rewrite fmap_app in Hnd. apply NoDup_app in Hnd as (Hnd & Hne & _).
  destruct gone as [|e1 gone].
  - cbn in Hst. rewrite Hst, Z.eqb_refl. apply wp_ret. by rewrite app_nil_r.
  - cbn in Hst. replace (e_id e =? stop) with false.
    + eapply wp_mono; [apply IH; done|]. cbn. intros _ l' ->. by rewrite roll_out_cons.
    + symmetry. apply Z.eqb_neq. intros E. apply (Hne (e_id e1)); [by left|].
      cbn. apply list_elem_of_singleton. congruence.
Qed.

Lemma read_rollback_spec lsn l :
  queue_ok (l_queue l) -> NoDup (e_id <$> l_queue l) ->
  (l_owner_id l = REPLICA_ID_NIL -> l_queue l = []) ->
  Forall assigned (l_queue l) ->
  Forall (fun e => 0 <= t_signature (e_txn e)) (rolled lsn (l_queue l)) ->
  wp (txn_limbo_read_rollback lsn) (fun _ l' => l' =
    roll_out TXN_SIGNATURE_SYNC_ROLLBACK (rev (rolled lsn (l_queue l))) (kept lsn (l_queue l)) l) l.
Proof.
  intros Hq Hnd Hown Ha Hs. unfold txn_limbo_read_rollback. apply wp_bind, wp_assert. split.
  { destruct (Z.eqb_spec (l_owner_id l) REPLICA_ID_NIL) as [E|]; [|done].
    unfold txn_limbo_is_empty. by rewrite Hown. }
  apply wp_bind, wp_gets. rewrite last_rollback_spec by (apply Hq || done).
  pose proof (kept_app lsn (l_queue l)) as Hka. destruct (rolled lsn (l_queue l)) as [|e gone] eqn:Er.
  { cbn. apply wp_ret. rewrite app_nil_r in Hka. by rewrite Hka, roll_out_nil. }
  cbn [fmap list_fmap head]. rewrite <- Hka at 1.
  apply (rollback_loop_spec _ (fun e => 0 <= t_signature (e_txn e)));
    [apply rollback_one_spec|done| |done| |done].
  - rewrite <- Hka, fmap_app in Hnd. by apply NoDup_app in Hnd as (_ & _ & Hnd).
  - pose proof (qo_entries _ Hq) as Hok. rewrite <- Hka in Hok. by apply Forall_app in Hok as [_ Hok].
Qed.

Lemma read_confirm_spec lsn l :
  queue_ok (l_queue l) -> (l_owner_id l = REPLICA_ID_NIL -> l_queue l = []) ->
  Forall (fun e => is_sync e = true -> 0 <= t_signature (e_txn e)) (confirmed lsn (l_queue l)) ->
  wp (txn_limbo_read_confirm lsn) (fun _ l' => l' =
    take_out (settle <$> confirmed lsn (l_queue l)) (unconfirmed lsn (l_queue l)) l) l.
Proof.
  intros Hq Hown Hs. unfold txn_limbo_read_confirm. apply wp_bind, wp_assert. split.
  { destruct (Z.eqb_spec (l_owner_id l) REPLICA_ID_NIL) as [E|]; [|done].
    unfold txn_limbo_is_empty. by rewrite Hown. }
  apply wp_bind, wp_gets. apply confirm_loop_spec; [done|apply Hq|done].
Qed.

(** ** Acknowledgements *)

(** How many instances have acknowledged [lsn]. *)
Definition acks (v : vclock) (lsn : Z) : Z :=
  total_over (fun id => Z.b2z (lsn <=? comp v id)) ids_all.

Lemma total_over_filter (f : Z -> bool) g (ids : list Z) :
  (forall id, In id ids -> f id = false -> g id = 0) ->
  total_over g (List.filter f ids) = total_over g ids.
Proof.
  induction ids as [|x ids IH]; intros H; cbn; [done|].
  assert (total_over g (List.filter f ids) = total_over g ids) as E
    by (apply IH; intros; apply H; [by right|done]).
  unfold total_over in *. destruct (f x) eqn:Ef; cbn; rewrite E; [done|].
  by rewrite (H x); [| left|].
Qed.

Lemma total_over_bounds g ids :
  (forall id, 0 <= g id <= 1) -> 0 <= total_over g ids <= Z.of_nat (length ids).
Proof.
  intros H. induction ids as [|x ids IH]; cbn; [lia|]. specialize (H x).
  unfold total_over in *. lia.
Qed.

Lemma acks_bounds v lsn : 0 <= acks v lsn <= VCLOCK_MAX.
Proof.
  unfold acks. change VCLOCK_MAX with (Z.of_nat (length ids_all)).
  apply total_over_bounds. intros id. destruct (_ <=? _); cbn; lia.
Qed.

Lemma total_over_mono f g ids :
  (forall id, In id ids -> f id <= g id) -> total_over f ids <= total_over g ids.
Proof.
  induction ids as [|x ids IH]; intros H; cbn; [lia|].
  specialize (IH ltac:(intros; apply H; by right)). specialize (H x ltac:(by left)).
  unfold total_over in *. lia.
Qed.

(** An older LSN has at least as many acknowledgements, and they only grow. *)
Lemma acks_mono v w x y :
  x <= y -> (forall id, 0 <= id < 32 -> comp v id <= comp w id) -> acks v y <= acks w x.
Proof.
  intros Hxy Hvw. apply total_over_mono. intros id Hid%ids_all_In. specialize (Hvw id Hid).
  destruct (Z.leb_spec y (comp v id)), (Z.leb_spec x (comp w id)); cbn; lia.
Qed.

Lemma acks_follow v w r lsn x :
  0 <= r < 32 -> comp v r <= lsn -> (forall id, 0 <= id < 32 -> comp w id = upd v r lsn id) ->
  acks w x = acks v x + Z.b2z ((comp v r <? x) && (x <=? lsn)).
Proof.
  intros Hr Hl Hw. unfold acks.
  rewrite (total_over_update (fun id => Z.b2z (x <=? comp v id)) _ ids_all r);
    [|apply NoDup_seqZ|by apply ids_all_In|].
  - rewrite Hw by done. unfold upd. rewrite Z.eqb_refl.
    destruct (Z.leb_spec x lsn), (Z.leb_spec x (comp v r)), (Z.ltb_spec (comp v r) x); cbn; lia.
  - intros id Hid%ids_all_In Hne. rewrite Hw by done. unfold upd. by replace (id =? r) with false by lia.
Qed.

Lemma foldl_count (g : Z -> Z) lsn ids s :
  0 <= s -> s + Z.of_nat (length ids) < 2 ^ 31 ->
  foldl (fun n c => i32 (n + (if lsn <=? c_lsn c then 1 else 0))) s
    ((fun id => mk_vclock_c id (g id)) <$> ids) =
  s + total_over (fun id => Z.b2z (lsn <=? g id)) ids.
Proof.
  revert s. induction ids as [|x ids IH]; intros s Hs Hl; cbn [fmap list_fmap foldl]; [cbn; lia|].
  cbn [length] in Hl. cbn [c_lsn]. rewrite i32_small by (destruct (_ <=? _); lia).
  rewrite IH by (destruct (_ <=? _); lia). cbn. unfold total_over.
  destruct (lsn <=? g x); cbn; lia.
Qed.

Lemma positions_filter f a n : positions f a n = List.filter f (seqZ a n).
Proof. with_strategy transparent [positions] unfold positions. reflexivity. Qed.

Lemma positions_bound f a n : (length (positions f a n) <= Z.to_nat n)%nat.
Proof.
  rewrite positions_filter, List.filter_length_le, length_seqZ. done.
Qed.

Lemma acks_positions v lsn :
  0 < lsn -> total_over (fun id => Z.b2z (lsn <=? comp v id)) (positions (Z.testbit (vc_map v)) 0 32) =
  acks v lsn.
Proof.
  intros Hlsn. unfold acks, ids_all. rewrite positions_filter. apply total_over_filter.
  intros id _ Hb. rewrite comp_absent by done. by replace (lsn <=? 0) with false by lia.
Qed.

(** The count of txn_limbo_assign_local_lsn. *)
Lemma count_acks v lsn :
  vclock_ok v -> 0 < lsn ->
  exists cs, vclock_foreach v = Some cs /\
    foldl (fun n c => i32 (n + (if lsn <=? c_lsn c then 1 else 0))) 0 cs = acks v lsn.
Proof.
  intros Hok Hlsn. rewrite vclock_foreach_spec by done. eexists. split; [reflexivity|].
  pose proof (positions_bound (Z.testbit (vc_map v)) 0 32) as Hlen.
  rewrite <- acks_positions by done.
  revert Hlen. generalize (positions (Z.testbit (vc_map v)) 0 32). intros ids Hlen.
  rewrite foldl_count; lia.
Qed.

(** The counters as the clock has them. *)
Definition recount (v : vclock) e : txn_limbo_entry :=
  if is_sync e && (0 <? e_lsn e) then e <| e_ack_count := acks v (e_lsn e) |> else e.

Definition counted (v : vclock) e : Prop :=
  is_sync e = true -> 0 < e_lsn e -> e_ack_count e = acks v (e_lsn e).

Lemma recount_counted v e : counted v e -> recount v e = e.
Proof.
  unfold recount, counted. destruct (is_sync e); [|done]. destruct (Z.ltb_spec 0 (e_lsn e)); [|done].
  intros Hc. cbn. rewrite <- Hc by done. by destruct e.
Qed.

Lemma counted_recount v e : counted v (recount v e).
Proof.
  unfold recount, counted. destruct (is_sync e && (0 <? e_lsn e)) eqn:E; [done|].
  intros Hs Hp. rewrite Hs in E. cbn in E. lia.
Qed.

(** An entry that the new acknowledgement covers and that has its quorum. *)
Definition acked (v : vclock) (prev_lsn lsn quorum x : Z) : Prop :=
  prev_lsn < x <= lsn /\ quorum <= acks v x.

Lemma guard_assert_true {A} c (k : option A) : c = true -> (guard_assert c;; k) = k.
Proof. by intros ->. Qed.

Section AckLoop.
Context (v w : vclock) (r lsn quorum : Z).
Hypothesis Hr : 0 <= r < 32.
Hypothesis Hl : 0 <= comp v r < lsn.
Hypothesis Hw : forall id, 0 <= id < 32 -> comp w id = upd v r lsn id.

Lemma acks_new x : acks w x = acks v x + Z.b2z ((comp v r <? x) && (x <=? lsn)).
Proof. apply acks_follow; [done|lia|done]. Qed.

(** Entries outside of the acknowledged interval keep their counters. *)
Lemma recount_outside e :
  counted v e -> (is_sync e = true -> e_lsn e <= comp v r \/ lsn < e_lsn e) -> recount w e = e.
Proof.
  intros Hc Ho. apply recount_counted. intros Hs Hp. rewrite Hc by done. rewrite acks_new.
  destruct (Ho Hs); destruct (Z.ltb_spec (comp v r) (e_lsn e)), (Z.leb_spec (e_lsn e) lsn); cbn; lia.
Qed.

Lemma recount_all_outside q :
  Forall (counted v) q ->
  (forall x, x ∈ sync_lsns q -> x <= comp v r \/ lsn < x) -> recount w <$> q = q.
Proof.
  induction q as [|e q IH]; intros Hc Ho; [done|]. apply Forall_cons in Hc as [He Hc].
  rewrite sync_lsns_cons in Ho. cbn. f_equal.
  - apply recount_outside; [done|]. intros Es. apply Ho. rewrite Es. by left.
  - apply IH; [done|]. intros x Hx. apply Ho. destruct (is_sync e); [by right|done].
Qed.

(** An acknowledgement that moves component [r] of the clock to [lsn] makes the
    counters agree with the new clock, and picks the greatest LSN it gives a
    quorum to. *)
Lemma ack_loop_spec q c :
  Forall entry_ok q -> StronglySorted lsn_order (sync_lsns q) -> Forall (counted v) q ->
  exists c', ack_loop q (comp v r) lsn quorum c = Some (recount w <$> q, c') /\
    (c' = c \/ (c' ∈ sync_lsns q /\ acked w (comp v r) lsn quorum c')) /\
    (forall x, x ∈ sync_lsns q -> acked w (comp v r) lsn quorum x -> x <= c').
Proof.
  revert c. induction q as [|e q IH]; intros c Hok Hs Hc.
  { exists c. split; [done|]. split; [by left|]. intros x Hx. by apply elem_of_nil in Hx. }
  apply Forall_cons in Hok as [He Hok]. pose proof Hc as Hc0. apply Forall_cons in Hc as [Hce Hc].
  pose proof Hs as Hs0. rewrite sync_lsns_cons in Hs |- *. cbn [ack_loop].
  rewrite guard_assert_true by (destruct He; lia). destruct (is_sync e) eqn:Esy; cbn [negb].
  2: { rewrite (eo_async e He Esy). replace (lsn <? -1) with false by lia.
    destruct (IH c Hok Hs Hc) as (c' & E & H1 & H2). rewrite guard_assert_true, E, obind_Some by done.
    exists c'. split; [|done]. do 2 f_equal. cbn. by rewrite recount_outside by (done || congruence). }
  apply StronglySorted_inv in Hs as [Hs Hall].
  assert (forall x, x ∈ sync_lsns q -> x = -1 \/ e_lsn e < x) as Hlater.
  { intros x Hx. pose proof (proj1 (Forall_forall _ _) Hall x Hx) as Ho. unfold lsn_order in Ho. lia. }
  destruct (Z.ltb_spec lsn (e_lsn e)).
  { exists c. rewrite recount_all_outside; [|done|].
    - split; [done|]. split; [by left|]. unfold acked. intros x [->|Hx]%elem_of_cons Hx2; [lia|].
      specialize (Hlater x Hx). lia.
    - intros x Hx. rewrite sync_lsns_cons, Esy in Hx.
      apply elem_of_cons in Hx as [->|Hx]; [lia|]. specialize (Hlater x Hx). lia. }
  destruct (Z.leb_spec (e_lsn e) (comp v r)).
  { destruct (IH c Hok Hs Hc) as (c' & E & H1 & H2). rewrite E, obind_Some.
    exists c'. split; [do 2 f_equal; cbn; by rewrite recount_outside by (done || lia)|]. split.
    - destruct H1 as [->|[H1 ?]]; [by left|]. right. split; [by right|done].
    - intros x [->|Hx]%elem_of_cons Hx2; [unfold acked in Hx2; lia|by apply H2]. }
  assert (i32 (e_ack_count e + 1) = acks w (e_lsn e)) as Ecount.
  { rewrite i32_small by (destruct He; unfold VCLOCK_MAX in *; lia).
    rewrite acks_new, Hce by (done || lia).
    by replace (comp v r <? e_lsn e) with true by lia; replace (e_lsn e <=? lsn) with true by lia. }
  cbn [e_ack_count e_lsn update]. rewrite Ecount.
  set (c1 := if acks w (e_lsn e) <? quorum then c else e_lsn e).
  destruct (IH c1 Hok Hs Hc) as (c' & E & H1 & H2). rewrite E, obind_Some. exists c'. split.
  { rewrite fmap_cons. unfold recount at 2. rewrite Esy. by replace (0 <? e_lsn e) with true by lia. }
  split.
  - destruct H1 as [->|[H1 ?]]; [|right; split; [by right|done]].
    unfold c1. destruct (Z.ltb_spec (acks w (e_lsn e)) quorum); [by left|]. right.
    split; [by left|]. unfold acked. lia.
  - intros x [->|Hx]%elem_of_cons Hx2; [|by apply H2]. unfold acked in Hx2.
    assert (c1 = e_lsn e) as E1 by (unfold c1; by replace (_ <? quorum) with false by lia).
    destruct H1 as [->|[H1 H3]]; [lia|]. specialize (Hlater c' H1). unfold acked in H3. lia.
Qed.
End AckLoop.

(** The loop of txn_limbo_on_parameters_change: the greatest LSN with a
    quorum. *)
Lemma quorum_loop_spec v quorum q c :
  0 < quorum -> Forall entry_ok q -> StronglySorted lsn_order (sync_lsns q) ->
  Forall (fun e => is_sync e = true -> e_lsn e = -1 -> e_ack_count e = 0) q ->
  Forall (counted v) q ->
  exists c', quorum_loop q quorum c = Some c' /\
    (c' = c \/ (c' ∈ sync_lsns q /\ 0 < c' /\ quorum <= acks v c')) /\
    (forall x, x ∈ sync_lsns q -> 0 < x -> quorum <= acks v x -> x <= c').
Proof.
  intros Hqu. revert c. induction q as [|e q IH]; intros c Hok Hs Hz Hc.
  { exists c. split; [done|]. split; [by left|]. intros x Hx. by apply elem_of_nil in Hx. }
  apply Forall_cons in Hok as [He Hok]. apply Forall_cons in Hc as [Hce Hc].
  apply Forall_cons in Hz as [Hze Hz]. rewrite sync_lsns_cons in Hs |- *. cbn [quorum_loop].
  rewrite guard_assert_true by (destruct He; lia). destruct (is_sync e) eqn:Esy; cbn [negb].
  2: { rewrite (eo_async e He Esy). rewrite guard_assert_true by done. by apply IH. }
  apply StronglySorted_inv in Hs as [Hs Hall].
  destruct (Z.ltb_spec (e_ack_count e) quorum).
  { destruct (IH c Hok Hs Hz Hc) as (c' & E & H1 & H2). exists c'. split; [done|]. split.
    - destruct H1 as [->|[H1 ?]]; [by left|]. right. split; [by right|done].
    - intros x [->|Hx]%elem_of_cons; [|by apply H2]. intros Hp Hx2. rewrite <- Hce in Hx2 by done. lia. }
  assert (0 < e_lsn e) as Hp.
  { destruct (eo_lsn e He); [|done]. rewrite Hze in *; try done; lia. }
  rewrite guard_assert_true by lia.
  destruct (IH (e_lsn e) Hok Hs Hz Hc) as (c' & E & H1 & H2). exists c'. split; [done|]. split.
  - destruct H1 as [->|[H1 ?]]; right; [|split; [by right|done]].
    split; [by left|]. rewrite <- Hce by done. lia.
  - intros x [->|Hx]%elem_of_cons; [|by apply H2]. intros _ _.
    destruct H1 as [->|[H1 H3]]; [lia|].
    pose proof (proj1 (Forall_forall _ _) Hall c' H1) as Ho. unfold lsn_order in Ho. lia.
Qed.

