(* ===== verification/LimboSafety.v ===== *)
(** * The invariant of the limbo

    The invariant of struct txn_limbo under every interleaving of its
    operations, and its preservation by each of them. *)

From S2P Require Import Prelude Bits Vclock TxnLimbo LimboQueue.

Open Scope Z_scope.

Implicit Types (e : txn_limbo_entry) (q es : list txn_limbo_entry) (l : limbo).

(** ** The invariant

    [pending]: what the fibers that wait for the journal will do.  A
    confirmation is stale when the queue it was for has been emptied by a
    PROMOTE in the meantime; a promote is ending when it is written and about
    to be processed. *)

Inductive pending :=
| P_confirm (lsn : Z)
| P_stale (lsn : Z)
| P_rollback (entry_id : Z)
| P_promote (req : synchro_request)
| P_ending (req : synchro_request).
Implicit Types ps : list pending.

Definition blocks (p : pending) : bool :=
  match p with P_rollback _ | P_promote _ => true | _ => false end.

(** The pending write that will take an entry with this LSN out of the queue. *)
Definition covers (x : Z) (p : pending) : Prop :=
  match p with
  | P_confirm lsn => x <= lsn
  | P_promote req | P_ending req => x <= q_lsn req
  | _ => False
  end.

Definition out_ids l : list Z := (fun x => e_id x.2) <$> l_out l.

Record limbo_inv l ps : Prop := {
  iv_instance : 0 < l_instance_id l < 32;
  iv_queue : queue_ok (l_queue l);
  iv_len : l_len l = Z.of_nat (length (l_queue l));
  iv_ids : NoDup ((e_id <$> l_queue l) ++ out_ids l);
  iv_vclock : vclock_wf (l_vclock l);
  iv_terms : vclock_wf (l_promote_term_map l);
  iv_greatest : 0 <= l_promote_greatest_term l <= INT64_MAX /\
    (forall id, 0 <= id < 32 -> comp (l_promote_term_map l) id <= l_promote_greatest_term l) /\
    (0 < l_promote_greatest_term l -> exists id, 0 <= id < 32 /\
       comp (l_promote_term_map l) id = l_promote_greatest_term l);
  iv_confirmed : 0 <= l_confirmed_lsn l;
  iv_unclaimed : l_owner_id l = REPLICA_ID_NIL -> l_queue l = [];
  iv_written : l_owner_id l = l_instance_id l ->
    Forall (fun e => is_sync e = true -> 0 < e_lsn e -> 0 <= t_signature (e_txn e)) (l_queue l);
  iv_counted : l_owner_id l = l_instance_id l -> Forall (counted (l_vclock l)) (l_queue l);
  iv_uncounted : Forall (fun e => e_lsn e = -1 \/ l_owner_id l <> l_instance_id l ->
    e_ack_count e = 0) (l_queue l);
  iv_in_rollback : l_is_in_rollback l = existsb blocks ps;
  iv_one_block : (length (List.filter blocks ps) <= 1)%nat;
  iv_covered : forall x, x ∈ sync_lsns (l_queue l) -> 0 < x <= l_confirmed_lsn l ->
    exists p, p ∈ ps /\ covers x p;
  iv_confirms : forall lsn, P_confirm lsn ∈ ps ->
    l_owner_id l = l_instance_id l /\ lsn <= l_confirmed_lsn l;
  iv_stale : forall lsn, P_stale lsn ∈ ps -> l_queue l = [];
  iv_rollbacks : forall id, P_rollback id ∈ ps -> l_queue l = [] \/
    (exists e q, l_queue l = e :: q /\ e_id e = id /\ l_confirmed_lsn l < e_lsn e /\
      l_owner_id l = l_instance_id l);
  iv_promotes : forall req, P_promote req ∈ ps ->
    iproto_type_is_promote_request (q_type req) = true /\ q_origin_id req = l_instance_id l /\
    0 <= q_lsn req /\ (q_replica_id req = REPLICA_ID_NIL -> q_lsn req = 0) /\
    0 <= q_term req <= INT64_MAX;
}.

(** ** Operations *)

Inductive limbo_op :=
| O_append (origin entry_id : Z) (sync oom : bool)
| O_written (entry_id res : Z)
| O_write_failed (entry_id res : Z)
| O_assign (entry_id lsn : Z)
| O_ack (replica_id lsn : Z)
| O_params (quorum : Z)
| O_confirm_end (n : nat)
| O_timeout (entry_id : Z)
| O_rollback_end (n : nat)
| O_promote_begin (ty : synchro_type) (lsn term : Z)
| O_promote_end (n : nat)
| O_process (req : synchro_request).

(** A new transaction at its commit: txn_journal_entry_new sets the flags. *)
Definition new_txn (sync : bool) : txn := mk_txn true sync false TXN_PREPARED TXN_SIGNATURE_UNKNOWN.

Definition stale ps : list pending :=
  (fun p => match p with P_confirm lsn => P_stale lsn | _ => p end) <$> ps.

Definition after_process ps : lprog (list pending) :=
  empty ← gets txn_limbo_is_empty; mret (if empty : bool then stale ps else ps).

Definition after_ack (o : option Z) ps : list pending :=
  match o with Some lsn => P_confirm lsn :: ps | None => ps end.

Definition run_op (op : limbo_op) ps : lprog (list pending) :=
  match op with
  | O_append origin entry_id sync oom =>
      _ ← txn_limbo_append origin entry_id (new_txn sync) oom; mret ps
  | O_written entry_id res => txn_written entry_id res;; mret ps
  | O_write_failed entry_id res => txn_write_failed entry_id res;; mret ps
  | O_assign entry_id lsn => txn_limbo_assign_lsn entry_id lsn;; mret ps
  | O_ack replica_id lsn => o ← txn_limbo_ack replica_id lsn; mret (after_ack o ps)
  | O_params quorum =>
      modify (fun l => l <| l_quorum := quorum |>);;
      o ← txn_limbo_on_parameters_change; mret (after_ack o ps)
  | O_confirm_end n =>
      match ps !! n with
      | Some (P_confirm lsn) | Some (P_stale lsn) => txn_limbo_read_confirm lsn;; mret (delete n ps)
      | _ => abort
      end
  | O_timeout entry_id =>
      pc ← wait_complete_timeout entry_id;
      mret (match pc with W_rollback => P_rollback entry_id :: ps | _ => ps end)
  | O_rollback_end n =>
      match ps !! n with
      | Some (P_rollback entry_id) => _ ← wait_complete_rollback entry_id; mret (delete n ps)
      | _ => abort
      end
  | O_promote_begin ty lsn term =>
      l ← gets (fun l => l);
      txn_limbo_write_promote_begin ty lsn term;;
      mret (P_promote (mk_request ty (l_owner_id l) (l_instance_id l) lsn term) :: ps)
  | O_promote_end n =>
      match ps !! n with
      | Some (P_promote req) =>
          txn_limbo_write_promote_end;; txn_limbo_process req;; assert txn_limbo_is_empty;;
          after_process (delete n ps)
      | _ => abort
      end
  | O_process req => txn_limbo_process req;; after_process ps
  end.

(** Nothing in the queue waits for the journal. *)
Definition settled l : Prop :=
  Forall assigned (l_queue l) /\ Forall (fun e => 0 <= t_signature (e_txn e)) (l_queue l).

(** The operations whose interleavings are studied.  Part of the conditions
    hold by the code around the limbo: the journal writes in the order of the
    queue and gives growing LSNs, the fibers of the writes resume in that
    order, only the owner counts acknowledgements, an asynchronous transaction
    only joins a queue that is not empty, box_promote and box_demote do not
    run twice at the same time.

    The others are not checked by anything and restrict the executions:
    - a PROMOTE, DEMOTE or ROLLBACK is processed when nothing of the queue is
      on its way to the journal ([settled]), a CONFIRM when what it confirms
      is written; limbo_promote_in_flight_aborts (LimboTheorems.v) shows that
      the process aborts otherwise;
    - the acknowledgements of an instance do not decrease;
      limbo_anonymous_ack shows the abort when two anonymous replicas share a
      component;
    - no transaction is appended while the write of a confirmation is pending
      whose entries a request has settled in the meantime (P_stale): the
      confirmation would be applied to the new entries;
    - an own PROMOTE ends with a term its instance has not seen. *)
Definition op_pre (op : limbo_op) l ps : Prop :=
  match op with
  | O_append origin entry_id sync oom =>
      entry_id ∉ (e_id <$> l_queue l) ++ out_ids l /\ (sync = false -> l_queue l <> []) /\
      (forall lsn, P_stale lsn ∉ ps)
  | O_written entry_id res =>
      0 <= res /\ exists e, e ∈ l_queue l /\ e_id e = entry_id /\
        t_signature (e_txn e) = TXN_SIGNATURE_UNKNOWN
  | O_write_failed entry_id res =>
      res < -1 /\ exists q e, l_queue l = q ++ [e] /\ e_id e = entry_id /\
        t_signature (e_txn e) = TXN_SIGNATURE_UNKNOWN
  | O_assign entry_id lsn =>
      exists q1 e q2, l_queue l = q1 ++ e :: q2 /\ e_id e = entry_id /\ is_sync e = true /\
        e_lsn e = -1 /\ Forall assigned q1 /\ (forall x, x ∈ sync_lsns q1 -> x < lsn) /\
        l_confirmed_lsn l < lsn <= INT64_MAX /\ 0 < lsn /\
        (l_owner_id l = l_instance_id l -> 0 <= t_signature (e_txn e))
  | O_ack replica_id lsn =>
      0 <= replica_id < 32 /\ comp (l_vclock l) replica_id <= lsn <= INT64_MAX /\
      l_owner_id l = l_instance_id l
  | O_params quorum => 0 < quorum
  | O_confirm_end n => exists lsn, ps !! n = Some (P_confirm lsn) \/ ps !! n = Some (P_stale lsn)
  | O_timeout entry_id =>
      l_owner_id l = l_instance_id l /\ P_rollback entry_id ∉ ps /\
      (forall req, P_promote req ∉ ps) /\
      exists e, e ∈ l_queue l /\ e_id e = entry_id /\ assigned e
  | O_rollback_end n => exists entry_id, ps !! n = Some (P_rollback entry_id)
  | O_promote_begin ty lsn term =>
      iproto_type_is_promote_request ty = true /\ existsb blocks ps = false /\
      0 <= term <= INT64_MAX /\ l_confirmed_lsn l <= lsn /\
      (forall x, x ∈ sync_lsns (l_queue l) -> x <= lsn) /\
      (l_owner_id l = REPLICA_ID_NIL -> lsn = 0)
  | O_promote_end n =>
      exists req, ps !! n = Some (P_promote req) /\ settled l /\
        comp (l_promote_term_map l) (l_instance_id l) < q_term req
  | O_process req =>
      0 <= q_origin_id req < 32 /\ 0 <= q_lsn req /\ 0 <= q_term req <= INT64_MAX /\
      (q_replica_id req = REPLICA_ID_NIL ->
         q_lsn req = 0 /\ iproto_type_is_promote_request (q_type req) = true) /\
      (if bool_decide (q_type req = IPROTO_CONFIRM)
       then Forall (fun e => is_sync e = true -> 0 <= t_signature (e_txn e))
              (confirmed (q_lsn req) (l_queue l))
       else settled l) /\
      (iproto_type_is_promote_request (q_type req) = false -> l_owner_id l <> l_instance_id l)
  end.

(** ** Preservation *)

Lemma sync_lsns_app q1 q2 : sync_lsns (q1 ++ q2) = sync_lsns q1 ++ sync_lsns q2.
Proof. unfold sync_lsns. by rewrite filter_app, fmap_app. Qed.

Lemma sync_lsns_elem x q : x ∈ sync_lsns q <-> exists e, e ∈ q /\ is_sync e = true /\ e_lsn e = x.
Proof.
  unfold sync_lsns. rewrite list_elem_of_fmap. setoid_rewrite list_elem_of_filter. naive_solver.
Qed.

Lemma StronglySorted_app_l {A} (R : A -> A -> Prop) (l1 l2 : list A) :
  StronglySorted R (l1 ++ l2) -> StronglySorted R l1.
Proof.
  induction l1 as [|x l1 IH]; intros H; [constructor|]. cbn in H.
  apply StronglySorted_inv in H as [H Hx]. apply Forall_app in Hx as [Hx _]. constructor; auto.
Qed.
Lemma StronglySorted_app_r {A} (R : A -> A -> Prop) (l1 l2 : list A) :
  StronglySorted R (l1 ++ l2) -> StronglySorted R l2.
Proof.
  induction l1 as [|x l1 IH]; intros H; [done|]. cbn in H. apply StronglySorted_inv in H as [H _]. auto.
Qed.
Lemma StronglySorted_app_order {A} (R : A -> A -> Prop) (l1 l2 : list A) x y :
  StronglySorted R (l1 ++ l2) -> x ∈ l1 -> y ∈ l2 -> R x y.
Proof.
  induction l1 as [|z l1 IH]; intros H Hx Hy; [by apply elem_of_nil in Hx|]. cbn in H.
  apply StronglySorted_inv in H as [H Hz]. apply elem_of_cons in Hx as [->|Hx]; [|by apply IH].
  apply (proj1 (Forall_forall _ _) Hz). apply elem_of_app. by right.
Qed.

Lemma queue_ok_prefix q1 q2 : queue_ok (q1 ++ q2) -> queue_ok q1.
Proof.
  intros [He Ho Hf]. apply Forall_app in He as [He _]. rewrite sync_lsns_app in Ho. split; [done| |].
  - by eapply StronglySorted_app_l.
  - by destruct q1.
Qed.

Lemma queue_ok_suffix q1 q2 : queue_ok (q1 ++ q2) -> starts_sync q2 -> queue_ok q2.
Proof.
  intros [He Ho _] Hf. apply Forall_app in He as [_ He]. rewrite sync_lsns_app in Ho. split; [done| |done].
  by eapply StronglySorted_app_r.
Qed.

Lemma unconfirmed_starts lsn q : starts_sync (unconfirmed lsn q).
Proof.
  induction q as [|e q IH]; cbn; [done|]. destruct (stays lsn e) eqn:E; [|done].
  unfold stays in E. cbn. by apply andb_true_iff in E as [E _].
Qed.

(** After a confirmation no synchronous entry with a covered LSN is left. *)
Lemma unconfirmed_lsns lsn q x :
  StronglySorted lsn_order (sync_lsns q) -> Forall entry_ok q ->
  x ∈ sync_lsns (unconfirmed lsn q) -> x = -1 \/ lsn < x.
Proof.
  induction q as [|e q IH]; cbn [unconfirmed]; intros Hs Hok Hx; [by apply elem_of_nil in Hx|].
  rewrite sync_lsns_cons in Hs. apply Forall_cons in Hok as [He Hok].
  destruct (stays lsn e) eqn:E.
  - unfold stays in E. apply andb_true_iff in E as [Esy E]. rewrite sync_lsns_cons, Esy in *.
    apply StronglySorted_inv in Hs as [_ Hall].
    destruct (eo_lsn e He); apply elem_of_cons in Hx as [->|Hx]; [lia| |lia|];
      pose proof (proj1 (Forall_forall _ _) Hall x Hx) as Ho; unfold lsn_order in Ho; lia.
  - apply IH; [|done|done]. destruct (is_sync e); [by apply StronglySorted_inv in Hs as [? _]|done].
Qed.

Lemma settle_id e : e_id (settle e).2 = e_id e.
Proof. unfold settle. by destruct (_ && _). Qed.

(** Entries move from the queue to the outside. *)
Lemma moved_ids q gone keep outs l l' :
  NoDup ((e_id <$> q) ++ out_ids l) -> q ≡ₚ keep ++ gone ->
  (fun x : fate * txn_limbo_entry => e_id x.2) <$> outs ≡ₚ e_id <$> gone ->
  l_out l' = outs ++ l_out l ->
  NoDup ((e_id <$> keep) ++ out_ids l').
Proof.
  intros Hnd Hq Ho Hl'. unfold out_ids. rewrite Hl', fmap_app, Ho. rewrite Hq, fmap_app in Hnd.
  by rewrite <- app_assoc in Hnd.
Qed.

(** What an operation that only takes entries out of the queue has to show. *)
Lemma sub_inv l ps l' ps' :
  limbo_inv l ps ->
  l_instance_id l' = l_instance_id l -> l_owner_id l' = l_owner_id l ->
  l_vclock l' = l_vclock l -> l_promote_term_map l' = l_promote_term_map l ->
  l_promote_greatest_term l' = l_promote_greatest_term l ->
  l_confirmed_lsn l' = l_confirmed_lsn l ->
  queue_ok (l_queue l') -> l_len l' = Z.of_nat (length (l_queue l')) ->
  NoDup ((e_id <$> l_queue l') ++ out_ids l') ->
  (forall e, e ∈ l_queue l' -> e ∈ l_queue l) ->
  l_is_in_rollback l' = existsb blocks ps' -> (length (List.filter blocks ps') <= 1)%nat ->
  (forall p, p ∈ ps' -> p ∈ ps) ->
  (forall x, x ∈ sync_lsns (l_queue l') -> 0 < x <= l_confirmed_lsn l ->
    exists p, p ∈ ps' /\ covers x p) ->
  (forall id, P_rollback id ∈ ps' -> l_queue l' = [] \/
    (exists e q, l_queue l' = e :: q /\ e_id e = id /\ l_confirmed_lsn l < e_lsn e /\
      l_owner_id l = l_instance_id l)) ->
  limbo_inv l' ps'.
Proof.
  intros Hi E1 E2 E3 E4 E5 E6 Hq Hlen Hids Hsub Hrb Hone Hps Hcov Hroll.
  assert (forall P, Forall P (l_queue l) -> Forall P (l_queue l')) as Hall.
  { intros P H. apply Forall_forall. intros e He. by apply (proj1 (Forall_forall _ _) H), Hsub. }
  assert (l_queue l = [] -> l_queue l' = []) as Hnil.
  { intros E. destruct (l_queue l') as [|e q'] eqn:Eq; [done|].
    specialize (Hsub e (list_elem_of_here _ _)). rewrite E in Hsub. by apply elem_of_nil in Hsub. }
  destruct Hi. split; rewrite ?E1, ?E2, ?E3, ?E4, ?E5, ?E6; try done; eauto.
Qed.

Lemma delete_elem {A} (ps : list A) n p : p ∈ delete n ps -> p ∈ ps.
Proof. revert n. induction ps as [|x ps IH]; intros [|n]; cbn; set_solver. Qed.

Lemma delete_split {A} (xs : list A) n x :
  xs !! n = Some x -> exists xs1 xs2, xs = xs1 ++ x :: xs2 /\ delete n xs = xs1 ++ xs2.
Proof.
  intros H. exists (take n xs), (drop (S n) xs). split; [by rewrite take_drop_middle|].
  apply delete_take_drop.
Qed.

(** What a confirmation takes out is written, if everything with an LSN is. *)
Lemma confirmed_written lsn q :
  Forall (fun e => is_sync e = true -> 0 < e_lsn e -> 0 <= t_signature (e_txn e)) q ->
  Forall entry_ok q ->
  Forall (fun e => is_sync e = true -> 0 <= t_signature (e_txn e)) (confirmed lsn q).
Proof.
  induction q as [|e q IH]; cbn; [by constructor|]. unfold stays.
  intros [Hw1 Hw]%Forall_cons [He Hok]%Forall_cons.
  destruct (is_sync e) eqn:Esy; cbn; [|constructor; [congruence|auto]].
  destruct ((lsn <? e_lsn e) || (e_lsn e =? -1)) eqn:E; [by constructor|].
  constructor; [|auto]. intros _. apply Hw1; [done|]. destruct (eo_lsn e He); lia.
Qed.

Lemma pending_written l ps n lsn :
  limbo_inv l ps -> ps !! n = Some (P_confirm lsn) \/ ps !! n = Some (P_stale lsn) ->
  Forall (fun e => is_sync e = true -> 0 <= t_signature (e_txn e)) (confirmed lsn (l_queue l)).
Proof.
  intros Hi [Hn|Hn]; apply list_elem_of_lookup_2 in Hn.
  - destruct (iv_confirms l ps Hi lsn Hn) as [Hown _].
    apply confirmed_written; [by apply (iv_written l ps Hi)|apply (iv_queue l ps Hi)].
  - rewrite (iv_stale l ps Hi lsn Hn). constructor.
Qed.

Lemma confirm_end_inv l ps n lsn :
  limbo_inv l ps -> ps !! n = Some (P_confirm lsn) \/ ps !! n = Some (P_stale lsn) ->
  wp (txn_limbo_read_confirm lsn) (fun _ l' => limbo_inv l' (delete n ps)) l.
Proof.
  intros Hi Hn. assert (forall p, p ∈ delete n ps -> p ∈ ps) as Hsub by (intros p; apply delete_elem).
  assert (exists ps1 ps2 p, ps = ps1 ++ p :: ps2 /\ delete n ps = ps1 ++ ps2 /\ blocks p = false /\
    (p = P_confirm lsn \/ p = P_stale lsn)) as (ps1 & ps2 & p & Eps & Edel & Hbp & Hp).
  { destruct Hn as [Hn|Hn]; apply delete_split in Hn as (ps1 & ps2 & E1 & E2); exists ps1, ps2; eauto 10. }
  pose proof (pending_written l ps n lsn Hi Hn) as Hs.
  eapply wp_mono; [apply read_confirm_spec; [apply Hi|apply Hi|done]|]. cbn. intros _ l' ->.
  pose proof (confirmed_app lsn (l_queue l)) as Ea. pose proof (iv_queue l ps Hi) as Hq.
  eapply sub_inv; try done; cbn [l_queue l_len l_out take_out update].
  - apply (queue_ok_suffix (confirmed lsn (l_queue l))); [by rewrite Ea|apply unconfirmed_starts].
  - rewrite (iv_len l ps Hi), length_fmap. rewrite <- Ea at 1. rewrite length_app. lia.
  - eapply moved_ids; [apply Hi| |  |reflexivity].
    + rewrite <- Ea at 1. apply Permutation_app_comm.
    + rewrite <- Permutation_rev, <- list_fmap_compose.
      erewrite list_fmap_ext; [reflexivity|]. intros. apply settle_id.
  - intros e He. rewrite <- Ea. apply elem_of_app. by right.
  - cbn. rewrite (iv_in_rollback l ps Hi), Edel, Eps, !existsb_app. cbn. by rewrite Hbp.
  - pose proof (iv_one_block l ps Hi) as H1. rewrite Edel; rewrite Eps in H1; rewrite !List.filter_app in *.
    cbn in H1. by rewrite Hbp in H1.
  - intros x Hx Hc. apply unconfirmed_lsns in Hx as Hx'; [|apply Hq|apply Hq].
    assert (x ∈ sync_lsns (l_queue l)) as Hxq
      by (rewrite <- Ea, sync_lsns_app; apply elem_of_app; by right).
    destruct (iv_covered l ps Hi x Hxq Hc) as (p' & Hp' & Hcov). exists p'. split; [|done].
    rewrite Eps in Hp'. rewrite Edel. apply elem_of_app in Hp' as [Hp'|Hp']; [apply elem_of_app; by left|].
    apply elem_of_cons in Hp' as [->|Hp']; [|apply elem_of_app; by right].
    destruct Hp as [->| ->]; cbn in Hcov; [lia|done].
  - intros id Hid. destruct (iv_rollbacks l ps Hi id (Hsub _ Hid)) as [E|(e & q & E & Eid & Hlt & Hown)].
    + left. by rewrite E.
    + right. exists e, q. split; [|done]. rewrite E. cbn. unfold stays.
      assert (is_sync e = true) as Esy by (pose proof (qo_first _ Hq) as H1; by rewrite E in H1).
      rewrite Esy. destruct Hn as [Hn|Hn].
      * destruct (iv_confirms l ps Hi lsn) as [_ Hle]; [by eapply list_elem_of_lookup_2|].
        by replace (lsn <? e_lsn e) with true by lia.
      * rewrite (iv_stale l ps Hi lsn) in E; [done|by eapply list_elem_of_lookup_2].
Qed.

Lemma fmap_fail_ids sg (gone : list txn_limbo_entry) :
  (fun x : fate * txn_limbo_entry => e_id x.2) <$> ((fun e => (F_rollback, fail_entry sg e)) <$> gone) =
  e_id <$> gone.
Proof. rewrite <- list_fmap_compose. by apply list_fmap_ext. Qed.

Lemma roll_out_ids sg keep gone l l' :
  NoDup ((e_id <$> l_queue l) ++ out_ids l) -> l_queue l = keep ++ gone ->
  l' = roll_out sg (rev gone) keep l ->
  NoDup ((e_id <$> keep) ++ out_ids l').
Proof.
  intros Hnd Hq ->. eapply moved_ids; [exact Hnd|by rewrite Hq| |reflexivity].
  rewrite <- Permutation_rev, fmap_fail_ids. by rewrite <- Permutation_rev.
Qed.

Lemma filter_nil_existsb {A} (f : A -> bool) (xs : list A) :
  length (List.filter f xs) = 0%nat -> existsb f xs = false.
Proof. induction xs as [|x xs IH]; cbn; [done|]. by destruct (f x). Qed.

(** When the one write that blocks the limbo is over, none is left. *)
Lemma last_block ps n p :
  ps !! n = Some p -> blocks p = true -> (length (List.filter blocks ps) <= 1)%nat ->
  existsb blocks (delete n ps) = false /\ length (List.filter blocks (delete n ps)) = 0%nat.
Proof.
  intros Hn Hb H1. destruct (delete_split _ _ _ Hn) as (ps1 & ps2 & E1 & E2). rewrite E2. rewrite E1 in H1.
  assert (length (List.filter blocks (ps1 ++ ps2)) = 0%nat) as H0.
  { rewrite List.filter_app, length_app in H1 |- *. cbn in H1. rewrite Hb in H1. cbn in H1. lia. }
  split; [by apply filter_nil_existsb|done].
Qed.

Lemma rollback_end_inv l ps n id :
  limbo_inv l ps -> ps !! n = Some (P_rollback id) ->
  wp (wait_complete_rollback id) (fun _ l' => limbo_inv l' (delete n ps)) l.
Proof.
  intros Hi Hn. pose proof (list_elem_of_lookup_2 _ _ _ Hn) as Hin.
  assert (match l_queue l with [] => True | e :: _ => e_id e = id end) as Hhead.
  { destruct (iv_rollbacks l ps Hi id Hin) as [->|(e & q & -> & E & _)]; done. }
  unfold wait_complete_rollback. apply wp_bind, wp_modify, wp_bind, wp_gets, wp_bind.
  set (l1 := l <| l_is_in_rollback := false |>). change (l_queue l1) with (l_queue l).
  eapply wp_mono; [apply (rollback_loop_spec TXN_SIGNATURE_QUORUM_TIMEOUT (fun _ => True) timeout_one [] (l_queue l) id l1)|].
  - apply timeout_one_spec.
  - done.
  - pose proof (iv_ids l ps Hi) as H. by apply NoDup_app in H as [H _].
  - by destruct (l_queue l).
  - apply (iv_queue l ps Hi).
  - by apply Forall_true.
  - cbn. intros _ l' ->. apply wp_ret.
    destruct (last_block ps n _ Hn eq_refl (iv_one_block l ps Hi)) as [Hb Hf].
    eapply sub_inv; try done; cbn [l_queue l_len roll_out take_out update l1].
    + split; [constructor|constructor|done].
    + rewrite length_fmap, length_rev. cbn. rewrite (iv_len l ps Hi). lia.
    + eapply (roll_out_ids _ [] (l_queue l) l1); [apply Hi|done|reflexivity].
    + intros e He. by apply elem_of_nil in He.
    + rewrite Hf. cbn. lia.
    + intros p. apply delete_elem.
    + intros x Hx. by apply elem_of_nil in Hx.
    + by left.
Qed.

(** ** PROMOTE, DEMOTE, CONFIRM and ROLLBACK *)

Lemma promote_keeps_nothing lsn q :
  Forall assigned q -> kept (lsn + 1) (unconfirmed lsn q) = [].
Proof.
  induction q as [|e q IH]; cbn; [done|]. intros [Ha Hq]%Forall_cons.
  destruct (stays lsn e) eqn:E; [|auto]. cbn. unfold stays in E. apply andb_true_iff in E as [Esy E].
  specialize (Ha Esy). unfold rolls. rewrite Esy.
  by replace (lsn + 1 <=? e_lsn e) with true by lia.
Qed.

Lemma unconfirmed_sub (P : txn_limbo_entry -> Prop) lsn q : Forall P q -> Forall P (unconfirmed lsn q).
Proof. intros H. rewrite <- (confirmed_app lsn q) in H. by apply Forall_app in H as [_ H]. Qed.

Definition promoted (replica_id lsn : Z) l : limbo :=
  (roll_out TXN_SIGNATURE_SYNC_ROLLBACK (rev (unconfirmed lsn (l_queue l))) []
    (take_out (settle <$> confirmed lsn (l_queue l)) (unconfirmed lsn (l_queue l)) l))
  <| l_owner_id := replica_id |> <| l_confirmed_lsn := 0 |>.

Lemma confirmed_sub (P : txn_limbo_entry -> Prop) lsn q : Forall P q -> Forall P (confirmed lsn q).
Proof. intros H. rewrite <- (confirmed_app lsn q) in H. by apply Forall_app in H as [H _]. Qed.

Lemma rolled_all lsn q : kept lsn q = [] -> rolled lsn q = q.
Proof. intros E. pose proof (kept_app lsn q) as H. by rewrite E in H. Qed.

(** A PROMOTE that finds nothing on its way to the journal commits what is
    covered, rolls back the rest, and hands the empty limbo over. *)
Lemma read_promote_spec replica_id lsn l :
  queue_ok (l_queue l) -> NoDup (e_id <$> l_queue l) ->
  (l_owner_id l = REPLICA_ID_NIL -> l_queue l = []) -> settled l ->
  wp (txn_limbo_read_promote replica_id lsn) (fun _ l' => l' = promoted replica_id lsn l) l.
Proof.
  intros Hq Hnd Hown [Ha Hs]. unfold txn_limbo_read_promote. apply wp_bind.
  eapply wp_mono; [apply read_confirm_spec; [done|done|]|].
  { apply confirmed_sub. by eapply Forall_impl; [exact Hs|]. }
  cbn. intros _ l1 ->. apply wp_bind.
  set (l1 := take_out _ _ l). pose proof (confirmed_app lsn (l_queue l)) as Ea.
  assert (l_queue l1 = unconfirmed lsn (l_queue l)) as Eq1 by done.
  pose proof (promote_keeps_nothing lsn (l_queue l) Ha) as Hk.
  eapply wp_mono; [apply (read_rollback_spec (lsn + 1) l1); rewrite Eq1|].
  - apply (queue_ok_suffix (confirmed lsn (l_queue l))); [by rewrite Ea|apply unconfirmed_starts].
  - rewrite <- Ea, fmap_app in Hnd. by apply NoDup_app in Hnd as (_ & _ & Hnd).
  - intros E. change (l_owner_id l1) with (l_owner_id l) in E. by rewrite Hown.
  - by apply unconfirmed_sub.
  - rewrite (rolled_all _ _ Hk). by apply unconfirmed_sub.
  - intros [] l2 ->. rewrite Eq1, Hk, (rolled_all _ _ Hk).
    apply wp_bind, wp_assert. split; [done|]. apply wp_modify. done.
Qed.

(** The map of terms. *)
Lemma filter_term_inv req l ps :
  limbo_inv l ps -> 0 <= q_origin_id req < 32 -> 0 <= q_term req <= INT64_MAX ->
  wp (txn_limbo_filter_term req) (fun pass l' =>
    limbo_inv l' ps /\
    (exists w g, l' = l <| l_promote_term_map := w |> <| l_promote_greatest_term := g |>) /\
    (comp (l_promote_term_map l) (q_origin_id req) < q_term req -> pass = true)) l.
Proof.
  intros Hi Ho Ht. unfold txn_limbo_filter_term. apply wp_bind, wp_gets, wp_bind.
  pose proof (iv_terms l ps Hi) as Hw. pose proof (ok_comp _ (proj1 Hw) _ Ho) as Hc.
  unfold txn_limbo_replica_term, lift, wp at 1. rewrite vclock_get_spec by (apply Hw || done).
  rewrite uwrap_small by (unfold INT64_MAX in Hc; lia).
  destruct (Z.ltb_spec (comp (l_promote_term_map l) (q_origin_id req)) (q_term req)).
  - rewrite i64_small by lia. apply wp_bind. unfold wp at 1.
    destruct (vclock_follow_spec _ (q_origin_id req) (q_term req) Hw Ho ltac:(lia)) as (w & -> & Hw' & Hcw).
    apply wp_bind, wp_modify, wp_ret. split; [|split; [by eexists _, _|done]].
    destruct Hi. split; try done. cbn. destruct iv_greatest0 as (Hg & Hall & Hex).
    split; [lia|]. split.
    + intros id Hid. rewrite Hcw by done. unfold upd. specialize (Hall id Hid).
      destruct (id =? q_origin_id req); lia.
    + intros Hp. destruct (Z.max_spec (q_term req) (l_promote_greatest_term l)) as [[Hlt E]|[Hle E]];
        rewrite E in *.
      * destruct (Hex ltac:(lia)) as (id & Hid & Eid). exists id. split; [done|].
        rewrite Hcw by done. unfold upd. destruct (Z.eqb_spec id (q_origin_id req)) as [->|]; [lia|done].
      * exists (q_origin_id req). split; [done|]. rewrite Hcw by done. unfold upd. by rewrite Z.eqb_refl.
  - apply wp_ret. split; [done|]. split; [|intros; lia].
    exists (l_promote_term_map l), (l_promote_greatest_term l). by destruct l.
Qed.

Lemma stale_blocks ps :
  existsb blocks (stale ps) = existsb blocks ps /\
  length (List.filter blocks (stale ps)) = length (List.filter blocks ps).
Proof. unfold stale. induction ps as [|[] ps [IH1 IH2]]; cbn; rewrite ?IH1, ?IH2; done. Qed.

Lemma stale_elem ps p :
  p ∈ stale ps -> (exists lsn, p = P_stale lsn) \/ (p ∈ ps /\ forall lsn, p <> P_confirm lsn).
Proof.
  unfold stale. rewrite list_elem_of_fmap. intros (p' & -> & Hp'). destruct p'; eauto.
Qed.

(** The invariant of an empty limbo asks for little. *)
Lemma empty_inv l ps l' ps' :
  limbo_inv l ps -> l_instance_id l' = l_instance_id l -> l_vclock l' = l_vclock l ->
  l_promote_term_map l' = l_promote_term_map l ->
  l_promote_greatest_term l' = l_promote_greatest_term l ->
  l_queue l' = [] -> l_len l' = 0 -> NoDup (out_ids l') -> 0 <= l_confirmed_lsn l' ->
  l_is_in_rollback l' = existsb blocks ps' -> (length (List.filter blocks ps') <= 1)%nat ->
  (forall lsn, P_confirm lsn ∉ ps') -> (forall req, P_promote req ∈ ps' -> P_promote req ∈ ps) ->
  limbo_inv l' ps'.
Proof.
  intros Hi E1 E2 E3 E4 Hq Hl Hids Hc Hb H1 Hnc Hpr. destruct Hi.
  split; rewrite ?E1, ?E2, ?E3, ?E4, ?Hq; try done; auto.
  - split; [constructor|constructor|done].
  - intros x Hx. by apply elem_of_nil in Hx.
  - intros lsn Hin. by apply Hnc in Hin.
Qed.

Lemma stale_no_confirm ps lsn : P_confirm lsn ∉ stale ps.
Proof. intros [(? & ?)|(_ & H)]%stale_elem; [done|]. by apply (H lsn). Qed.

Lemma stale_promote ps req : P_promote req ∈ stale ps -> P_promote req ∈ ps.
Proof. intros [(? & ?)|(H & _)]%stale_elem; done. Qed.

Lemma stale_inv l ps : limbo_inv l ps -> l_queue l = [] -> limbo_inv l (stale ps).
Proof.
  intros Hi Hq. destruct (stale_blocks ps) as [Eb Ef]. eapply empty_inv; try done.
  - rewrite (iv_len l ps Hi). by rewrite Hq.
  - pose proof (iv_ids l ps Hi) as H. by rewrite Hq in H.
  - apply Hi.
  - rewrite Eb. apply Hi.
  - rewrite Ef. apply Hi.
  - intros lsn. apply stale_no_confirm.
  - intros req. apply stale_promote.
Qed.

(** The limbo is handed over. *)
Lemma promoted_inv replica_id lsn l ps :
  limbo_inv l ps -> limbo_inv (promoted replica_id lsn l) (stale ps).
Proof.
  intros Hi. destruct (stale_blocks ps) as [Eb Ef].
  pose proof (confirmed_app lsn (l_queue l)) as Ea.
  set (l1 := take_out (settle <$> confirmed lsn (l_queue l)) (unconfirmed lsn (l_queue l)) l).
  assert (NoDup ((e_id <$> l_queue l1) ++ out_ids l1)) as Hnd.
  { eapply moved_ids; [apply Hi| | |reflexivity].
    - rewrite <- Ea at 1. apply Permutation_app_comm.
    - rewrite <- Permutation_rev, <- list_fmap_compose.
      erewrite list_fmap_ext; [reflexivity|]. intros. apply settle_id. }
  eapply empty_inv; try done.
  - cbn. rewrite !length_fmap, length_rev, (iv_len l ps Hi).
    rewrite <- Ea at 1. rewrite length_app. lia.
  - exact (roll_out_ids TXN_SIGNATURE_SYNC_ROLLBACK [] (l_queue l1) l1 _ Hnd eq_refl eq_refl).
  - cbn. rewrite Eb. apply Hi.
  - rewrite Ef. apply Hi.
  - intros lsn'. apply stale_no_confirm.
  - intros req. apply stale_promote.
Qed.

Lemma after_process_inv l ps :
  limbo_inv l ps -> wp (after_process ps) (fun ps' l' => limbo_inv l' ps') l.
Proof.
  intros Hi. unfold after_process. apply wp_bind, wp_gets, wp_ret.
  unfold txn_limbo_is_empty. destruct (l_queue l) eqn:Eq; [by apply stale_inv|done].
Qed.

Lemma sub_prefix q1 q2 e : e ∈ q1 -> e ∈ q1 ++ q2.
Proof. intros. apply elem_of_app. by left. Qed.

Lemma read_confirm_remote lsn l ps :
  limbo_inv l ps -> l_owner_id l <> l_instance_id l ->
  Forall (fun e => is_sync e = true -> 0 <= t_signature (e_txn e)) (confirmed lsn (l_queue l)) ->
  wp (txn_limbo_read_confirm lsn) (fun _ l' => limbo_inv l' ps) l.
Proof.
  intros Hi Hown Hs.
  eapply wp_mono; [apply read_confirm_spec; [apply Hi|apply Hi|done]|]. intros [] l' ->.
  pose proof (confirmed_app lsn (l_queue l)) as Ea. pose proof (iv_queue l ps Hi) as Hq.
  eapply sub_inv; try done; cbn [l_queue l_len l_out take_out update].
  - apply (queue_ok_suffix (confirmed lsn (l_queue l))); [by rewrite Ea|apply unconfirmed_starts].
  - rewrite (iv_len l ps Hi), length_fmap. rewrite <- Ea at 1. rewrite length_app. lia.
  - eapply moved_ids; [apply Hi| |  |reflexivity].
    + rewrite <- Ea at 1. apply Permutation_app_comm.
    + rewrite <- Permutation_rev, <- list_fmap_compose.
      erewrite list_fmap_ext; [reflexivity|]. intros. apply settle_id.
  - intros e He. rewrite <- Ea. apply elem_of_app. by right.
  - apply Hi.
  - apply Hi.
  - intros x Hx Hc. apply (iv_covered l ps Hi x); [|done].
    rewrite <- Ea, sync_lsns_app. apply elem_of_app. by right.
  - intros id Hid. left. destruct (iv_rollbacks l ps Hi id Hid) as [->|(e & q & _ & _ & _ & E)]; done.
Qed.

Lemma read_rollback_remote lsn l ps :
  limbo_inv l ps -> l_owner_id l <> l_instance_id l -> settled l ->
  wp (txn_limbo_read_rollback lsn) (fun _ l' => limbo_inv l' ps) l.
Proof.
  intros Hi Hown [Ha Hs]. pose proof (iv_ids l ps Hi) as Hnd. apply NoDup_app in Hnd as [Hnd _].
  pose proof (kept_app lsn (l_queue l)) as Ea. pose proof (iv_queue l ps Hi) as Hq.
  eapply wp_mono; [apply read_rollback_spec; [done|done|apply Hi|done|by apply rolled_suffix]|].
  intros [] l' ->. eapply sub_inv; try done; cbn [l_queue l_len roll_out take_out update].
  - apply (queue_ok_prefix _ (rolled lsn (l_queue l))). by rewrite Ea.
  - rewrite (iv_len l ps Hi), length_fmap, length_rev. rewrite <- Ea at 1. rewrite length_app. lia.
  - eapply roll_out_ids; [apply Hi|by rewrite Ea|reflexivity].
  - intros e He. rewrite <- Ea. by apply sub_prefix.
  - apply Hi.
  - apply Hi.
  - intros x Hx Hc. apply (iv_covered l ps Hi x); [|done].
    rewrite <- Ea, sync_lsns_app. apply elem_of_app. by left.
  - intros id Hid. left. destruct (iv_rollbacks l ps Hi id Hid) as [->|(e & q & _ & _ & _ & E)]; done.
Qed.

Lemma read_promote_inv replica_id lsn l ps :
  limbo_inv l ps -> settled l ->
  wp (txn_limbo_read_promote replica_id lsn) (fun _ l' => l_queue l' = [] /\ limbo_inv l' (stale ps)) l.
Proof.
  intros Hi Hs. pose proof (iv_ids l ps Hi) as Hnd. apply NoDup_app in Hnd as [Hnd _].
  eapply wp_mono; [apply read_promote_spec; [apply Hi|done|apply Hi|done]|].
  intros [] l' ->. split; [done|]. by apply promoted_inv.
Qed.

(** A request that is executed: the pending writes become stale if the limbo
    is handed over. *)
Definition executed_inv req ps l : Prop :=
  (limbo_inv l ps \/ (l_queue l = [] /\ limbo_inv l (stale ps))) /\
  (iproto_type_is_promote_request (q_type req) = true -> l_queue l = []).

Lemma limbo_execute_inv req lsn l ps :
  limbo_inv l ps ->
  (if bool_decide (q_type req = IPROTO_CONFIRM)
   then Forall (fun e => is_sync e = true -> 0 <= t_signature (e_txn e)) (confirmed lsn (l_queue l))
   else settled l) ->
  (iproto_type_is_promote_request (q_type req) = false -> l_owner_id l <> l_instance_id l) ->
  wp (txn_limbo_execute req lsn) (fun _ => executed_inv req ps) l.
Proof.
  intros Hi Hpre Hown. unfold txn_limbo_execute, executed_inv.
  destruct (q_type req); case_bool_decide; try done.
  - eapply wp_mono; [eapply read_confirm_remote; [exact Hi|by apply Hown|done]|].
    intros [] l' Hl'. split; [by left|done].
  - eapply wp_mono; [eapply read_rollback_remote; [exact Hi|by apply Hown|done]|].
    intros [] l' Hl'. split; [by left|done].
  - eapply wp_mono; [eapply read_promote_inv; [exact Hi|done]|].
    intros [] l' [Hq Hl']. split; [by right|done].
  - eapply wp_mono; [eapply read_promote_inv; [exact Hi|done]|].
    intros [] l' [Hq Hl']. split; [by right|done].
Qed.

Definition request_ok req l : Prop :=
  0 <= q_origin_id req < 32 /\ 0 <= q_lsn req /\ 0 <= q_term req <= INT64_MAX /\
  (q_replica_id req = REPLICA_ID_NIL ->
     q_lsn req = 0 /\ iproto_type_is_promote_request (q_type req) = true) /\
  (if bool_decide (q_type req = IPROTO_CONFIRM)
   then Forall (fun e => is_sync e = true -> 0 <= t_signature (e_txn e))
          (confirmed (q_lsn req) (l_queue l))
   else settled l) /\
  (iproto_type_is_promote_request (q_type req) = false -> l_owner_id l <> l_instance_id l).

Lemma process_inv req l ps :
  limbo_inv l ps -> request_ok req l ->
  wp (txn_limbo_process req) (fun _ l' =>
    (limbo_inv l' ps \/ (l_queue l' = [] /\ limbo_inv l' (stale ps))) /\
    (iproto_type_is_promote_request (q_type req) = true ->
     comp (l_promote_term_map l) (q_origin_id req) < q_term req -> l_queue l' = [])) l.
Proof.
  intros Hi (Ho & Hl & Ht & Hnil & Hpre & Hown). unfold txn_limbo_process. apply wp_bind.
  eapply wp_mono; [by apply filter_term_inv|]. intros pass l1 (Hi1 & (w & g & E) & Hpass).
  assert (l_queue l1 = l_queue l /\ l_owner_id l1 = l_owner_id l /\ l_instance_id l1 = l_instance_id l)
    as (Eq & Eo & En) by (by subst l1).
  assert (forall lsn, (q_type req = IPROTO_CONFIRM -> lsn = q_lsn req) ->
    wp (txn_limbo_execute req lsn) (fun _ => executed_inv req ps) l1) as Hex.
  { intros lsn Hlsn. apply limbo_execute_inv; [done| |by rewrite Eo, En]. unfold settled. rewrite Eq.
    case_bool_decide; [|done]. by rewrite Hlsn. }
  assert (forall l', executed_inv req ps l' ->
    (limbo_inv l' ps \/ (l_queue l' = [] /\ limbo_inv l' (stale ps))) /\
    (iproto_type_is_promote_request (q_type req) = true ->
     comp (l_promote_term_map l) (q_origin_id req) < q_term req -> l_queue l' = [])) as Hpost
    by (unfold executed_inv; intros l' []; auto).
  destruct pass; cbn [negb].
  2: { apply wp_ret. split; [by left|]. intros _ Hlt. by specialize (Hpass Hlt). }
  apply wp_bind, wp_gets. destruct (Z.eqb_spec (q_replica_id req) REPLICA_ID_NIL) as [En0|].
  - destruct (Hnil En0) as [E0 Hpr]. apply wp_bind, wp_assert. split; [by rewrite E0, Hpr|].
    eapply wp_mono; [by apply Hex|auto].
  - destruct (q_replica_id req =? l_owner_id l1); cbn [negb]; [eapply wp_mono; [by apply Hex|auto]|].
    destruct (negb (iproto_type_is_promote_request (q_type req))) eqn:Epr.
    + apply negb_true_iff in Epr. apply wp_ret. split; [by left|]. by rewrite Epr.
    + eapply wp_mono; [apply Hex|auto]. intros Ety. by rewrite Ety in Epr.
Qed.

(** The write of a promote is over, its processing follows. *)
Lemma ending_inv l ps n req :
  limbo_inv l ps -> ps !! n = Some (P_promote req) ->
  limbo_inv (l <| l_is_in_rollback := false |>) (P_ending req :: delete n ps).
Proof.
  intros Hi Hn. destruct (last_block ps n _ Hn eq_refl (iv_one_block l ps Hi)) as [Hb Hf].
  destruct (delete_split _ _ _ Hn) as (ps1 & ps2 & Eps & Edel).
  assert (forall p, p ∈ P_ending req :: delete n ps -> p <> P_ending req -> p ∈ ps) as Hsub.
  { intros p [->|Hp]%elem_of_cons; [done|]. intros _. by eapply delete_elem. }
  destruct Hi. split; try done; cbn [l_queue l_confirmed_lsn l_owner_id l_instance_id update].
  - cbn. by rewrite Hf; lia.
  - intros x Hx Hc. destruct (iv_covered0 x Hx Hc) as (p & Hp & Hcov).
    rewrite Eps in Hp. apply elem_of_app in Hp as [Hp|[->|Hp]%elem_of_cons].
    + exists p. rewrite Edel. split; [|done]. apply elem_of_cons. right. apply elem_of_app. by left.
    + exists (P_ending req). split; [by left|done].
    + exists p. rewrite Edel. split; [|done]. apply elem_of_cons. right. apply elem_of_app. by right.
  - intros lsn Hp. by apply iv_confirms0, Hsub.
  - intros lsn Hp. by eapply iv_stale0, Hsub.
  - intros id Hp. by apply iv_rollbacks0, Hsub.
  - intros req' Hp. by apply iv_promotes0, Hsub.
Qed.

Lemma promote_end_inv l ps n req :
  limbo_inv l ps -> ps !! n = Some (P_promote req) -> settled l ->
  comp (l_promote_term_map l) (l_instance_id l) < q_term req ->
  wp (txn_limbo_write_promote_end;; txn_limbo_process req;; assert txn_limbo_is_empty;;
      after_process (delete n ps)) (fun ps' l' => limbo_inv l' ps') l.
Proof.
  intros Hi Hn Hs Hterm. destruct (iv_promotes l ps Hi req) as (Hty & Hor & Hl & Hnil & Ht);
    [by eapply list_elem_of_lookup_2|].
  pose proof (iv_instance l ps Hi) as Hinst.
  unfold txn_limbo_write_promote_end. apply wp_bind, wp_modify, wp_bind.
  eapply wp_mono; [apply process_inv; [by eapply ending_inv|]|].
  { unfold request_ok. rewrite Hor, Hty, bool_decide_eq_false_2 by (intros E; by rewrite E in Hty).
    split_and!; auto; lia. }
  intros [] l' [Hinv Hemp]. rewrite Hor in Hemp. specialize (Hemp Hty Hterm).
  apply wp_bind, wp_assert. split; [unfold txn_limbo_is_empty; by rewrite Hemp|].
  assert (limbo_inv l' (stale (P_ending req :: delete n ps))) as Hi'
    by (destruct Hinv as [?|[_ ?]]; [by apply stale_inv|done]).
  unfold after_process. apply wp_bind, wp_gets, wp_ret. unfold txn_limbo_is_empty. rewrite Hemp.
  eapply sub_inv; try done; try apply Hi'.
  - intros p Hp. by right.
  - intros x Hx. rewrite Hemp in Hx. by apply elem_of_nil in Hx.
  - by left.
Qed.

(** ** The other operations *)

Lemma no_block ps : existsb blocks ps = false -> forall p, p ∈ ps -> blocks p = false.
Proof.
  intros H p Hp%list_elem_of_In. destruct (blocks p) eqn:E; [|done].
  assert (existsb blocks ps = true) by (apply existsb_exists; eauto). congruence.
Qed.

Lemma sorted_unassigned (xs : list Z) :
  StronglySorted lsn_order xs -> StronglySorted lsn_order (xs ++ [-1]).
Proof.
  induction 1 as [|x xs Hs IH Hx]; cbn; [repeat constructor|]. constructor; [done|].
  apply Forall_app. split; [done|]. constructor; [by left|constructor].
Qed.

Lemma append_inv l ps origin id sync oom :
  limbo_inv l ps -> op_pre (O_append origin id sync oom) l ps ->
  wp (run_op (O_append origin id sync oom) ps) (fun ps' l' => limbo_inv l' ps') l.
Proof.
  intros Hi (Hfresh & Hasync & Hstale). cbn [run_op]. apply wp_bind. unfold txn_limbo_append.
  do 3 (apply wp_bind, wp_assert; split; [done|]). apply wp_bind, wp_gets.
  destruct (l_is_in_rollback l) eqn:Erb; [by apply wp_ret, wp_ret|].
  destruct (Z.eqb_spec (l_owner_id l) REPLICA_ID_NIL) as [|Hown]; [by apply wp_ret, wp_ret|].
  destruct (negb _); [by apply wp_ret, wp_ret|]. destruct oom; [by apply wp_ret, wp_ret|].
  apply wp_bind, wp_modify, wp_ret, wp_ret.
  set (e := mk_entry id (new_txn sync) (-1) 0 false false).
  rewrite (iv_in_rollback l ps Hi) in Erb. pose proof (no_block ps Erb) as Hnb.
  assert (forall x, x ∈ sync_lsns (l_queue l ++ [e]) -> x ∈ sync_lsns (l_queue l) \/ x = -1) as Hlsns.
  { intros x. rewrite sync_lsns_app, elem_of_app, sync_lsns_cons. intros [?|Hx]; [by left|].
    right. cbn in Hx. destruct sync; [by apply list_elem_of_singleton in Hx|by apply elem_of_nil in Hx]. }
  destruct Hi. split; try done; cbn [l_queue l_len l_owner_id l_instance_id l_vclock update].
  - destruct iv_queue0 as [He Ho Hf]. split.
    + apply Forall_app. split; [done|]. constructor; [|constructor].
      split; cbn; auto; unfold VCLOCK_MAX; lia.
    + rewrite sync_lsns_app, sync_lsns_cons. cbn. destruct sync; [by apply sorted_unassigned|].
      by rewrite app_nil_r.
    + destruct (l_queue l); [|done]. cbn. destruct sync; [done|]. by destruct (Hasync eq_refl).
  - rewrite length_app. cbn. lia.
  - rewrite fmap_app. cbn. rewrite <- app_assoc. cbn.
    rewrite <- Permutation_middle. by constructor.
  - intros E. apply Forall_app. split; [by apply iv_written0|]. constructor; [|constructor]. cbn. lia.
  - intros E. apply Forall_app. split; [by apply iv_counted0|]. constructor; [|constructor].
    unfold counted. cbn. lia.
  - apply Forall_app. split; [done|]. by repeat constructor.
  - intros x Hx Hc. apply Hlsns in Hx as [Hx| ->]; [by apply iv_covered0|cbn in Hc; lia].
  - intros lsn Hin. by apply Hstale in Hin.
  - intros id' Hin. by apply Hnb in Hin.
Qed.

Lemma find_entry q e :
  NoDup (e_id <$> q) -> e ∈ q -> List.find (fun e0 => e_id e0 =? e_id e) q = Some e.
Proof.
  induction q as [|e0 q IH]; intros Hnd He; [by apply elem_of_nil in He|]. cbn.
  apply NoDup_cons in Hnd as [Hn Hnd]. apply elem_of_cons in He as [->|He]; [by rewrite Z.eqb_refl|].
  destruct (Z.eqb_spec (e_id e0) (e_id e)) as [E|]; [|by apply IH].
  destruct Hn. rewrite E. by apply list_elem_of_fmap_2.
Qed.

Lemma wp_the_entry e l ps (Q : txn_limbo_entry -> limbo -> Prop) :
  limbo_inv l ps -> e ∈ l_queue l -> Q e l -> wp (the_entry (e_id e)) Q l.
Proof.
  intros Hi He HQ. unfold wp, the_entry. rewrite find_entry; [done| |done].
  pose proof (iv_ids l ps Hi) as H. by apply NoDup_app in H as [H _].
Qed.

Definition update_at (id : Z) (f : txn_limbo_entry -> txn_limbo_entry) e : txn_limbo_entry :=
  if e_id e =? id then f e else e.

(** An update of an entry that keeps what the queue is ordered by. *)
Record mild (g : txn_limbo_entry -> txn_limbo_entry) e : Prop := {
  ml_id : e_id (g e) = e_id e;
  ml_sync : is_sync (g e) = is_sync e;
  ml_lsn : e_lsn (g e) = e_lsn e;
}.

Lemma mild_lsns g q : Forall (mild g) q -> sync_lsns (g <$> q) = sync_lsns q.
Proof.
  induction 1 as [|e q [_ Hs Hl] _ IH]; [done|]. cbn [fmap list_fmap].
  rewrite !sync_lsns_cons, Hs, Hl. destruct (is_sync e); [by f_equal|done].
Qed.

Lemma mild_ids g q : Forall (mild g) q -> e_id <$> (g <$> q) = e_id <$> q.
Proof. induction 1 as [|e q [Hi _ _] _ IH]; [done|]. rewrite !fmap_cons. by rewrite Hi, IH. Qed.

Lemma mild_queue g q :
  Forall (mild g) q -> Forall (fun e => entry_ok e -> entry_ok (g e)) q -> queue_ok q ->
  queue_ok (g <$> q).
Proof.
  intros Hm Hg [He Ho Hf]. split.
  - apply Forall_fmap. apply Forall_forall. intros e Hin.
    apply (proj1 (Forall_forall _ _) Hg e Hin), (proj1 (Forall_forall _ _) He e Hin).
  - by rewrite mild_lsns.
  - destruct q as [|e q]; [done|]. cbn in *. apply Forall_cons in Hm as [[_ Hs _] _]. congruence.
Qed.

Lemma mild_inv l ps g w :
  limbo_inv l ps -> vclock_wf w -> (forall e, mild g e) ->
  Forall (fun e => entry_ok e -> entry_ok (g e)) (l_queue l) ->
  (forall e, 0 <= t_signature (e_txn e) -> 0 <= t_signature (e_txn (g e))) ->
  (l_owner_id l = l_instance_id l -> Forall (counted w) (g <$> l_queue l)) ->
  Forall (fun e => e_lsn e = -1 \/ l_owner_id l <> l_instance_id l -> e_ack_count e = 0) (g <$> l_queue l) ->
  limbo_inv (l <| l_vclock := w |> <| l_queue := g <$> l_queue l |>) ps.
Proof.
  intros Hi Hw Hm Hok Hs Hc Hu.
  assert (Forall (mild g) (l_queue l)) as Hmq by (apply Forall_forall; auto).
  destruct Hi. split; try done; cbn [l_queue l_len l_owner_id l_instance_id l_vclock update].
  - by apply mild_queue.
  - by rewrite length_fmap.
  - by rewrite mild_ids.
  - intros E. by rewrite iv_unclaimed0.
  - intros E. apply Forall_fmap. eapply Forall_impl; [by apply iv_written0|]. cbn.
    intros e0 H Hsy Hl. rewrite (ml_sync _ _ (Hm e0)) in Hsy. rewrite (ml_lsn _ _ (Hm e0)) in Hl. auto.
  - by rewrite mild_lsns.
  - intros lsn Hin. by rewrite (iv_stale0 lsn Hin).
  - intros id Hin. destruct (iv_rollbacks0 id Hin) as [->|(e0 & q & -> & Eid & Hlt & Ho)]; [by left|].
    right. exists (g e0), (g <$> q). rewrite (ml_id _ _ (Hm e0)), (ml_lsn _ _ (Hm e0)). done.
Qed.

Lemma written_inv l ps id res :
  limbo_inv l ps -> op_pre (O_written id res) l ps ->
  wp (run_op (O_written id res) ps) (fun ps' l' => limbo_inv l' ps') l.
Proof.
  intros Hi (Hres & e & He & <- & Hsig). cbn [run_op]. apply wp_bind. unfold txn_written.
  apply wp_bind. apply (wp_the_entry e l ps); [done|done|].
  apply wp_bind, wp_assert. split; [by rewrite Hsig|]. apply wp_modify, wp_ret.
  set (g := update_at (e_id e) (fun e => e <| e_txn ::= fun t => t <| t_signature := res |> |>)).
  assert (forall e, e_ack_count (g e) = e_ack_count e /\ is_sync (g e) = is_sync e /\
    e_lsn (g e) = e_lsn e /\ e_id (g e) = e_id e) as Hg
    by (intros e0; unfold g, update_at; by destruct (e_id e0 =? e_id e)).
  replace (update _ _ _) with (l <| l_vclock := l_vclock l |> <| l_queue := g <$> l_queue l |>)
    by (by destruct l).
  apply mild_inv; [done|apply Hi| | | | |].
  - intros e0. destruct (Hg e0) as (_ & ? & ? & ?). by split.
  - apply Forall_forall. intros e0 _ H. unfold g, update_at.
    destruct (e_id e0 =? e_id e); [|done]. destruct H. split; auto.
  - intros e0 H. unfold g, update_at. by destruct (e_id e0 =? e_id e).
  - intros E. apply Forall_fmap. eapply Forall_impl; [by apply (iv_counted l ps Hi)|]. cbn.
    intros e0 H. destruct (Hg e0) as (Ha & Hs & Hl & _). unfold counted in *. by rewrite Ha, Hs, Hl.
  - apply Forall_fmap. eapply Forall_impl; [apply (iv_uncounted l ps Hi)|]. cbn.
    intros e0 H. destruct (Hg e0) as (Ha & _ & Hl & _). by rewrite Ha, Hl.
Qed.

Lemma write_failed_inv l ps id res :
  limbo_inv l ps -> op_pre (O_write_failed id res) l ps ->
  wp (run_op (O_write_failed id res) ps) (fun ps' l' => limbo_inv l' ps') l.
Proof.
  intros Hi (Hres & q & e & Hq & <- & Hsig). cbn [run_op]. apply wp_bind. unfold txn_write_failed.
  assert (e ∈ l_queue l) as Hin by (rewrite Hq; apply elem_of_app; right; by left).
  pose proof (proj1 (Forall_forall _ _) (qo_entries _ (iv_queue l ps Hi)) e Hin) as He.
  apply wp_bind. apply (wp_the_entry e l ps); [done|done|].
  apply wp_bind, wp_assert. split; [by rewrite Hsig|]. unfold txn_complete_fail. apply wp_bind.
  apply wp_bind, wp_assert. split; [cbn; by rewrite (eo_open e He)|].
  apply wp_bind, wp_assert. split; [cbn; lia|].
  apply wp_bind, wp_assert. split; [cbn; unfold TXN_SIGNATURE_UNKNOWN; lia|]. apply wp_ret, wp_bind.
  apply (abort_last_spec e _ q); [done|done|]. apply wp_modify, wp_ret.
  pose proof (iv_queue l ps Hi) as Hqo. rewrite Hq in Hqo.
  eapply sub_inv; try done; cbn [l_queue l_len l_out update].
  - by eapply queue_ok_prefix.
  - rewrite (iv_len l ps Hi), Hq, length_app. cbn. lia.
  - eapply (moved_ids (l_queue l) [e] q [_] l); [apply Hi|by rewrite Hq| |reflexivity]. done.
  - intros e0 H. rewrite Hq. apply elem_of_app. by left.
  - apply Hi.
  - apply Hi.
  - intros x Hx Hc. apply (iv_covered l ps Hi x); [|done]. rewrite Hq, sync_lsns_app.
    apply elem_of_app. by left.
  - intros id Hid. destruct (iv_rollbacks l ps Hi id Hid) as [E|(e0 & q0 & E & Eid & Hlt & Ho)].
    { rewrite Hq in E. by destruct q. }
    right. destruct q as [|e1 q]; cbn in Hq; [|rewrite Hq in E; injection E as <- <-; eauto 10].
    rewrite Hq in E. injection E as <- <-. exfalso.
    pose proof (iv_written l ps Hi Ho) as Hw. rewrite Hq in Hw. apply Forall_cons in Hw as [Hw _].
    pose proof (iv_confirmed l ps Hi). unfold TXN_SIGNATURE_UNKNOWN in Hsig.
    rewrite Hsig in Hw. specialize (Hw (qo_first _ Hqo) ltac:(lia)). lia.
Qed.

(** ** An entry gets its LSN *)

Lemma update_at_split f q1 e q2 :
  NoDup (e_id <$> q1 ++ e :: q2) -> update_at (e_id e) f <$> (q1 ++ e :: q2) = q1 ++ f e :: q2.
Proof.
  intros Hnd. assert (forall q, e_id e ∉ e_id <$> q -> update_at (e_id e) f <$> q = q) as Hout.
  { induction q as [|e0 q IH]; [done|]. cbn. intros [Hne Hq]%not_elem_of_cons.
    rewrite IH by done. unfold update_at. by replace (e_id e0 =? e_id e) with false by lia. }
  rewrite fmap_app, fmap_cons in Hnd. apply NoDup_app in Hnd as (_ & Hd & Hnd).
  apply NoDup_cons in Hnd as [Hn2 _]. rewrite fmap_app, fmap_cons, !Hout; [|done|].
  - unfold update_at. by rewrite Z.eqb_refl.
  - intros Hin. apply (Hd _ Hin). by left.
Qed.

(** LSNs after the entry whose LSN is -1. *)
Lemma sorted_assign (xs ys : list Z) lsn :
  StronglySorted lsn_order (xs ++ -1 :: ys) -> 0 < lsn ->
  (forall x, x ∈ xs -> 0 < x < lsn) -> StronglySorted lsn_order (xs ++ lsn :: ys).
Proof.
  intros Hs Hl Hx. induction xs as [|x xs IH]; cbn in *.
  - apply StronglySorted_inv in Hs as [Hs Hall]. constructor; [done|].
    eapply Forall_impl; [exact Hall|]. unfold lsn_order. cbn. lia.
  - apply StronglySorted_inv in Hs as [Hs Hall]. constructor.
    + apply IH; [done|]. intros y Hy. apply Hx. by right.
    + apply Forall_app in Hall as [Ha Hb]. apply Forall_cons in Hb as [_ Hb].
      apply Forall_app. split; [done|]. constructor; [|done]. right. apply Hx. by left.
Qed.

Lemma assigned_inv l ps q1 e q2 lsn count :
  limbo_inv l ps -> op_pre (O_assign (e_id e) lsn) l ps -> l_queue l = q1 ++ e :: q2 ->
  is_sync e = true -> e_lsn e = -1 -> Forall assigned q1 -> (forall x, x ∈ sync_lsns q1 -> x < lsn) ->
  l_confirmed_lsn l < lsn <= INT64_MAX -> 0 < lsn ->
  (l_owner_id l = l_instance_id l -> 0 <= t_signature (e_txn e) /\ count = acks (l_vclock l) lsn) ->
  (l_owner_id l <> l_instance_id l -> count = 0) -> 0 <= count <= VCLOCK_MAX ->
  limbo_inv (l <| l_queue := q1 ++ (e <| e_lsn := lsn |> <| e_ack_count := count |>) :: q2 |>) ps.
Proof.
  intros Hi _ Hq Hsy Hm1 Ha Hlt Hc Hpos Hloc Hrem Hcount.
  set (e' := e <| e_lsn := lsn |> <| e_ack_count := count |>).
  assert (sync_lsns (q1 ++ e' :: q2) = sync_lsns q1 ++ lsn :: sync_lsns q2) as El'.
  { rewrite sync_lsns_app, sync_lsns_cons. by change (is_sync e') with (is_sync e); rewrite Hsy. }
  assert (sync_lsns (l_queue l) = sync_lsns q1 ++ -1 :: sync_lsns q2) as El.
  { by rewrite Hq, sync_lsns_app, sync_lsns_cons, Hsy, Hm1. }
  assert (forall P, Forall P (l_queue l) -> (P e -> P e') -> Forall P (q1 ++ e' :: q2)) as Hall.
  { intros P HP He. rewrite Hq in HP. apply Forall_app in HP as [H1 H2].
    apply Forall_cons in H2 as [H2 H3]. apply Forall_app. split; [done|]. constructor; auto. }
  destruct Hi. split; try done; cbn [l_queue l_len l_owner_id l_instance_id l_vclock l_confirmed_lsn update].
  - destruct iv_queue0 as [He Ho Hf]. split.
    + apply Hall; [done|]. intros []. split; auto. intros E. unfold is_sync in *. cbn in E. congruence.
    + rewrite El'. rewrite El in Ho. apply sorted_assign; [done|done|]. intros x Hx. split; [|auto].
      apply sync_lsns_elem in Hx as (e0 & H0 & H1 & <-). by apply (proj1 (Forall_forall _ _) Ha e0 H0).
    + rewrite Hq in Hf. by destruct q1.
  - rewrite iv_len0, Hq, !length_app. done.
  - by rewrite Hq, fmap_app in iv_ids0; rewrite fmap_app.
  - intros E. rewrite iv_unclaimed0 in Hq by done. by destruct q1.
  - intros E. apply Hall; [by apply iv_written0|]. intros _ _ _. by apply Hloc.
  - intros E. apply Hall; [by apply iv_counted0|]. intros _ _ _. by apply Hloc.
  - apply Hall; [done|]. cbn. intros _ [?|?]; [lia|auto].
  - intros x. rewrite El'. intros Hx Hxc. apply iv_covered0; [|done]. rewrite El.
    apply elem_of_app in Hx as [Hx|[->|Hx]%elem_of_cons]; [|lia|];
      apply elem_of_app; [by left|right; by right].
  - intros x Hin. rewrite (iv_stale0 x Hin) in Hq. by destruct q1.
  - intros id Hin. destruct (iv_rollbacks0 id Hin) as [E|(e0 & q & E & Eid & Hl & Ho)].
    { rewrite E in Hq. by destruct q1. }
    right. rewrite E in Hq. destruct q1 as [|e1 q1]; injection Hq as -> ->; [lia|].
    exists e1, (q1 ++ e' :: q2). done.
Qed.

Lemma queue_eq l ps q q' :
  limbo_inv (l <| l_queue := q |>) ps -> q' = q -> limbo_inv (l <| l_queue := q' |>) ps.
Proof. by intros H ->. Qed.

Lemma assign_inv l ps id lsn :
  limbo_inv l ps -> op_pre (O_assign id lsn) l ps ->
  wp (run_op (O_assign id lsn) ps) (fun ps' l' => limbo_inv l' ps') l.
Proof.
  intros Hi Hpre. pose proof Hpre as (q1 & e & q2 & Hq & <- & Hsy & Hm1 & Ha & Hlt & Hc & Hpos & Hloc).
  assert (e ∈ l_queue l) as Hin by (rewrite Hq; apply elem_of_app; right; by left).
  pose proof (proj1 (Forall_forall _ _) (qo_entries _ (iv_queue l ps Hi)) e Hin) as He.
  assert (l_owner_id l <> REPLICA_ID_NIL) as Hown.
  { intros E. rewrite (iv_unclaimed l ps Hi E) in Hin. by apply elem_of_nil in Hin. }
  pose proof (iv_ids l ps Hi) as Hnd. apply NoDup_app in Hnd as [Hnd _]. rewrite Hq in Hnd.
  pose proof (proj1 (Forall_forall _ _) (iv_uncounted l ps Hi) e Hin (or_introl Hm1)) as Hz.
  cbn [run_op]. apply wp_bind. unfold txn_limbo_assign_lsn. apply wp_bind, wp_gets.
  destruct (Z.eqb_spec (l_owner_id l) (l_instance_id l)) as [El|El].
  - unfold txn_limbo_assign_local_lsn. apply wp_bind, (wp_the_entry e l ps); [done|done|].
    apply wp_bind, wp_assert. split; [by apply negb_true_iff, Z.eqb_neq|].
    apply wp_bind, wp_assert. split; [by apply Z.eqb_eq|].
    apply wp_bind, wp_assert. split; [by rewrite Hm1|].
    apply wp_bind, wp_assert. split; [lia|]. apply wp_bind, wp_assert. split; [done|].
    apply wp_bind, wp_modify, wp_bind, wp_gets, wp_bind.
    destruct (count_acks (l_vclock l) lsn) as (cs & Ecs & Ecount); [apply (iv_vclock l ps Hi)|done|].
    pose proof (acks_bounds (l_vclock l) lsn) as Hb.
    unfold lift, wp at 1. cbn [l_vclock update]. rewrite Ecs. rewrite Ecount.
    apply wp_bind, wp_assert. split; [rewrite Hz; lia|]. apply wp_modify, wp_ret.
    pose proof (assigned_inv l ps q1 e q2 lsn (acks (l_vclock l) lsn) Hi Hpre Hq Hsy Hm1 Ha Hlt Hc
      Hpos ltac:(auto) ltac:(done) Hb) as Hres.
    apply (queue_eq _ _ _ _ Hres). rewrite Hq.
    transitivity (update_at (e_id e) (fun e => e <| e_ack_count := acks (l_vclock l) lsn |>) <$>
      (update_at (e_id e) (fun e => e <| e_lsn := lsn |>) <$> (q1 ++ e :: q2))); [done|].
    assert (NoDup (e_id <$> q1 ++ (e <| e_lsn := lsn |>) :: q2)) as Hnd' by by rewrite fmap_app in Hnd |- *.
    rewrite update_at_split by done. exact (update_at_split
      (fun e => e <| e_ack_count := acks (l_vclock l) lsn |>) q1 (e <| e_lsn := lsn |>) q2 Hnd').
  - unfold txn_limbo_assign_remote_lsn. apply wp_bind, (wp_the_entry e l ps); [done|done|].
    apply wp_bind, wp_assert. split; [by apply negb_true_iff, Z.eqb_neq|].
    apply wp_bind, wp_assert. split; [by apply negb_true_iff, Z.eqb_neq|].
    apply wp_bind, wp_assert. split; [by rewrite Hm1|].
    apply wp_bind, wp_assert. split; [lia|]. apply wp_bind, wp_assert. split; [done|].
    apply wp_modify, wp_ret.
    pose proof (assigned_inv l ps q1 e q2 lsn 0 Hi Hpre Hq Hsy Hm1 Ha Hlt Hc
      Hpos ltac:(done) ltac:(done) ltac:(unfold VCLOCK_MAX; lia)) as Hres.
    apply (queue_eq _ _ _ _ Hres). rewrite Hq.
    transitivity (update_at (e_id e) (fun e => e <| e_lsn := lsn |>) <$> (q1 ++ e :: q2)); [done|].
    rewrite update_at_split by done. do 2 f_equal. destruct e; cbn in *. by subst.
Qed.

(** ** Acknowledgements and parameters *)

(** A confirmation is sent to the journal. *)
Lemma write_confirm_inv l ps lsn :
  limbo_inv l ps -> l_owner_id l = l_instance_id l -> l_is_in_rollback l = false ->
  l_confirmed_lsn l < lsn ->
  wp (txn_limbo_write_confirm lsn) (fun _ l' => limbo_inv l' (P_confirm lsn :: ps) /\
    l' = l <| l_confirmed_lsn := lsn |> <| l_wal ::= cons (mk_request IPROTO_CONFIRM (l_owner_id l) 0 lsn 0) |>) l.
Proof.
  intros Hi Hown Hrb Hlt. pose proof (iv_confirmed l ps Hi) as Hc.
  unfold txn_limbo_write_confirm. apply wp_bind, wp_assert. split; [lia|].
  apply wp_bind, wp_assert. split; [by rewrite Hrb|]. apply wp_bind, wp_modify.
  unfold txn_limbo_write_synchro. apply wp_bind, wp_assert. split; [lia|]. apply wp_modify.
  split; [|done]. rewrite (iv_in_rollback l ps Hi) in Hrb. pose proof (no_block ps Hrb) as Hnb.
  assert (forall p, p ∈ P_confirm lsn :: ps -> p = P_confirm lsn \/ p ∈ ps) as Hsub
    by (intros p; apply elem_of_cons).
  destruct Hi. split; try done; cbn [l_queue l_confirmed_lsn l_owner_id l_instance_id update].
  - cbn. lia.
  - intros x Hx Hxc. exists (P_confirm lsn). split; [by left|]. cbn. lia.
  - intros x [[= ->]|Hx]%Hsub; [split; [done|lia]|]. destruct (iv_confirms0 x Hx). split; [done|lia].
  - intros x [|Hx]%Hsub; [done|]. by apply (iv_stale0 x).
  - intros id [|Hid]%Hsub; [done|]. by apply Hnb in Hid.
  - intros req [|Hr]%Hsub; [done|]. by apply iv_promotes0.
Qed.

Lemma recount_mild w e : mild (recount w) e.
Proof. split; unfold recount; by destruct (is_sync e && (0 <? e_lsn e)). Qed.

Lemma recount_inv l ps w :
  limbo_inv l ps -> l_owner_id l = l_instance_id l -> vclock_wf w ->
  limbo_inv (l <| l_vclock := w |> <| l_queue := recount w <$> l_queue l |>) ps.
Proof.
  intros Hi Hown Hw. apply mild_inv; [done|done|apply recount_mild| | | |].
  - apply Forall_forall. intros e _ []. unfold recount. destruct (is_sync e && (0 <? e_lsn e)); split; auto.
    cbn. apply acks_bounds.
  - intros e. unfold recount. by destruct (is_sync e && (0 <? e_lsn e)).
  - intros _. apply Forall_fmap, Forall_forall. intros e _. cbn. apply counted_recount.
  - apply Forall_fmap. eapply Forall_impl; [apply (iv_uncounted l ps Hi)|]. cbn. intros e H.
    rewrite (ml_lsn _ _ (recount_mild w e)). intros [E|]; [|done]. unfold recount.
    rewrite E, andb_false_r. auto.
Qed.

(** What an acknowledgement does: nothing, or it counts, and possibly starts to
    confirm the greatest LSN it gives a quorum to. *)
Definition ack_result (replica_id lsn : Z) l (o : option Z) l' : Prop :=
  (o = None /\ l' = l /\
   (l_queue l = [] \/ l_is_in_rollback l = true \/ lsn = comp (l_vclock l) replica_id)) \/
  exists w, vclock_wf w /\
    (forall id, 0 <= id < 32 -> comp w id = upd (l_vclock l) replica_id lsn id) /\
    (forall x, x ∈ sync_lsns (l_queue l) ->
       acked w (comp (l_vclock l) replica_id) lsn (l_quorum l) x -> x <= l_confirmed_lsn l') /\
    let l1 := l <| l_vclock := w |> <| l_queue := recount w <$> l_queue l |> in
    match o with
    | None => l' = l1
    | Some c =>
        l' = l1 <| l_confirmed_lsn := c |>
                <| l_wal ::= cons (mk_request IPROTO_CONFIRM (l_owner_id l) 0 c 0) |> /\
        l_confirmed_lsn l < c /\ c ∈ sync_lsns (l_queue l) /\
        acked w (comp (l_vclock l) replica_id) lsn (l_quorum l) c
    end.

Lemma ack_spec l ps replica_id lsn :
  limbo_inv l ps -> op_pre (O_ack replica_id lsn) l ps ->
  wp (txn_limbo_ack replica_id lsn) (fun o l' =>
    limbo_inv l' (after_ack o ps) /\ ack_result replica_id lsn l o l') l.
Proof.
  intros Hi (Hr & Hlsn & Hown). unfold txn_limbo_ack. apply wp_bind, wp_gets.
  destruct (txn_limbo_is_empty l) eqn:Eq.
  { apply wp_ret. split; [done|]. left. unfold txn_limbo_is_empty in Eq. destruct (l_queue l); [auto|done]. }
  destruct (l_is_in_rollback l) eqn:Erb; [apply wp_ret; split; [done|left; auto]|].
  pose proof (iv_instance l ps Hi) as Hinst. pose proof (iv_vclock l ps Hi) as Hv.
  pose proof (ok_comp _ (proj1 Hv) _ Hr) as Hcomp.
  apply wp_bind, wp_assert. split; [apply negb_true_iff, Z.eqb_neq; unfold REPLICA_ID_NIL; lia|].
  apply wp_bind. unfold lift at 1, wp at 1. rewrite vclock_get_spec by (apply Hv || done).
  destruct (Z.eqb_spec lsn (comp (l_vclock l) replica_id)); [apply wp_ret; split; [done|left; auto]|].
  destruct (vclock_follow_spec (l_vclock l) replica_id lsn Hv Hr ltac:(lia)) as (w & Ew & Hw & Hcw).
  apply wp_bind. unfold lift at 1, wp at 1. rewrite Ew. apply wp_bind, wp_modify.
  destruct (ack_loop_spec (l_vclock l) w replica_id lsn (l_quorum l) Hr ltac:(lia) Hcw (l_queue l) (-1))
    as (c & Ec & Hc1 & Hc2); [apply (iv_queue l ps Hi)..|by apply (iv_counted l ps Hi)|].
  apply wp_bind. unfold lift at 1, wp at 1. rewrite Ec. apply wp_bind, wp_modify.
  pose proof (recount_inv l ps w Hi Hown Hw) as Hi1.
  destruct ((c =? -1) || (c <=? l_confirmed_lsn l)) eqn:Ecmp.
  { apply wp_ret. split; [exact Hi1|]. right. exists w. split; [done|]. split; [done|]. split; [|done].
    intros x Hx Hxa. specialize (Hc2 x Hx Hxa). destruct Hxa as [Hxa _]. cbn. lia. }
  apply orb_false_iff in Ecmp as [E1 E2]. apply wp_bind.
  eapply wp_mono; [apply (write_confirm_inv _ ps c Hi1 Hown Erb); cbn; lia|].
  intros [] l' [Hi' ->]. apply wp_ret. split; [done|]. right. exists w. split; [done|]. split; [done|].
  split; [exact Hc2|]. split; [done|]. split; [lia|]. destruct Hc1 as [->|Hc1]; [lia|done].
Qed.

Lemma quorum_loop_zero quorum q c :
  0 < quorum -> Forall entry_ok q -> Forall (fun e => e_ack_count e = 0) q -> quorum_loop q quorum c = Some c.
Proof.
  intros Hqu Hok Hz. induction q as [|e q IH]; [done|]. apply Forall_cons in Hok as [He Hok].
  apply Forall_cons in Hz as [Hze Hz]. cbn. rewrite Hze. rewrite guard_assert_true by done.
  destruct (is_sync e) eqn:Es; cbn [negb].
  - replace (0 <? quorum) with true by lia. by apply IH.
  - rewrite (eo_async e He Es), guard_assert_true by done. by apply IH.
Qed.

Lemma params_spec l ps quorum :
  limbo_inv l ps -> 0 < quorum ->
  wp (run_op (O_params quorum) ps) (fun ps' l' => limbo_inv l' ps' /\
    forall lsn, P_confirm lsn ∈ ps' -> P_confirm lsn ∈ ps \/ quorum <= acks (l_vclock l') lsn) l.
Proof.
  intros Hi Hqu. cbn [run_op]. apply wp_bind, wp_modify, wp_bind.
  set (l1 := l <| l_quorum := quorum |>). assert (limbo_inv l1 ps) as Hi1 by (by destruct Hi; split).
  unfold txn_limbo_on_parameters_change. apply wp_bind, wp_gets.
  assert (limbo_inv l1 (after_ack None ps) /\
    forall lsn, P_confirm lsn ∈ ps -> P_confirm lsn ∈ ps \/ quorum <= acks (l_vclock l1) lsn) as Hnone by auto.
  destruct (txn_limbo_is_empty l1); [by apply wp_ret, wp_ret|].
  destruct (decide (l_owner_id l1 = l_instance_id l1)) as [Hown|Hown].
  2: { apply wp_bind. unfold lift, wp at 1. rewrite quorum_loop_zero; [|done|apply (iv_queue l1 ps Hi1)|].
    - pose proof (iv_confirmed l1 ps Hi1). replace (_ <? -1) with false by lia. by apply wp_ret, wp_ret.
    - eapply Forall_impl; [apply (iv_uncounted l1 ps Hi1)|]. cbn. intros e H. apply H. by right. }
  destruct (quorum_loop_spec (l_vclock l1) quorum (l_queue l1) (-1) Hqu) as (c & Ec & Hc1 & _).
  { apply (iv_queue l1 ps Hi1). }
  { apply (iv_queue l1 ps Hi1). }
  { eapply Forall_impl; [apply (iv_uncounted l1 ps Hi1)|]. cbn. intros e H _ E. apply H. by left. }
  { by apply (iv_counted l1 ps Hi1). }
  apply wp_bind. unfold lift, wp at 1. change (l_quorum l1) with quorum. rewrite Ec.
  destruct ((l_confirmed_lsn l1 <? c) && negb (l_is_in_rollback l1)) eqn:E; [|by apply wp_ret, wp_ret].
  apply andb_true_iff in E as [E1 E2]. apply negb_true_iff in E2. apply wp_bind.
  eapply wp_mono; [apply (write_confirm_inv l1 ps c Hi1 Hown E2); lia|].
  intros [] l' [Hi' ->]. apply wp_ret, wp_ret. split; [done|]. cbn.
  intros lsn [[= ->]|Hin]%elem_of_cons; [|by left]. right.
  pose proof (iv_confirmed l1 ps Hi1). destruct Hc1 as [->|(_ & _ & ?)]; [lia|done].
Qed.

(** ** Timeouts and promotions *)

(** A write that blocks the limbo is sent to the journal. *)
Lemma block_inv l ps p confirmed_lsn wal :
  limbo_inv l ps -> existsb blocks ps = false -> blocks p = true ->
  l_confirmed_lsn l <= confirmed_lsn ->
  (forall x, x ∈ sync_lsns (l_queue l) -> 0 < x <= confirmed_lsn ->
    covers x p \/ 0 < x <= l_confirmed_lsn l) ->
  (forall id, p = P_rollback id -> l_queue l = [] \/
    (exists e q, l_queue l = e :: q /\ e_id e = id /\ confirmed_lsn < e_lsn e /\
      l_owner_id l = l_instance_id l)) ->
  (forall req, p = P_promote req ->
    iproto_type_is_promote_request (q_type req) = true /\ q_origin_id req = l_instance_id l /\
    0 <= q_lsn req /\ (q_replica_id req = REPLICA_ID_NIL -> q_lsn req = 0) /\
    0 <= q_term req <= INT64_MAX) ->
  limbo_inv (l <| l_confirmed_lsn := confirmed_lsn |> <| l_is_in_rollback := true |>
               <| l_wal := wal |>) (p :: ps).
Proof.
  intros Hi Hnb Hb Hle Hcov Hroll Hprom. pose proof (no_block ps Hnb) as Hno.
  assert (forall p', p' ∈ p :: ps -> p' = p \/ p' ∈ ps) as Hsub by (intros p'; apply elem_of_cons).
  assert (length (List.filter blocks ps) = 0%nat) as H0.
  { clear -Hno. induction ps as [|p' ps IH]; [done|]. cbn.
    rewrite (Hno p') by (by left). apply IH. intros p'' Hp. apply Hno. by right. }
  destruct Hi. split; try done;
    cbn [l_queue l_confirmed_lsn l_is_in_rollback l_owner_id l_instance_id update].
  - lia.
  - cbn. by rewrite Hb.
  - cbn. rewrite Hb. cbn. lia.
  - intros x Hx Hxc. destruct (Hcov x Hx Hxc) as [?|Hold]; [exists p; split; [by left|done]|].
    destruct (iv_covered0 x Hx Hold) as (p' & Hp' & ?). exists p'. split; [by right|done].
  - intros lsn [<-|Hin]%Hsub; [done|]. destruct (iv_confirms0 lsn Hin). split; [done|lia].
  - intros lsn [<-|Hin]%Hsub; [done|]. by apply (iv_stale0 lsn).
  - intros id [<-|Hin]%Hsub; [by apply Hroll|]. by apply Hno in Hin.
  - intros req [<-|Hin]%Hsub; [by apply Hprom|]. by apply iv_promotes0.
Qed.

Lemma timeout_inv l ps id :
  limbo_inv l ps -> op_pre (O_timeout id) l ps ->
  wp (run_op (O_timeout id) ps) (fun ps' l' => limbo_inv l' ps') l.
Proof.
  intros Hi (Hown & Hnr & Hnp & e & Hin & <- & Ha). cbn [run_op]. apply wp_bind.
  unfold wait_complete_timeout. apply wp_bind, wp_gets. apply wp_bind, wp_assert.
  destruct (l_queue l) as [|e0 q] eqn:Eq; [by apply elem_of_nil in Hin|].
  split; [unfold txn_limbo_is_empty; by rewrite Eq|].
  destruct (Z.eqb_spec (e_id e0) (e_id e)) as [Eid|]; cbn [negb]; [|by apply wp_ret, wp_ret].
  assert (e = e0) as ->.
  { pose proof (iv_ids l ps Hi) as Hnd. apply NoDup_app in Hnd as [Hnd _].
    pose proof (find_entry (l_queue l) e Hnd ltac:(by rewrite Eq)) as H1. rewrite Eq in H1. cbn in H1.
    rewrite Eid, Z.eqb_refl in H1. by injection H1 as ->. }
  pose proof (qo_first _ (iv_queue l ps Hi)) as Hf. rewrite Eq in Hf. specialize (Ha Hf).
  apply wp_bind, wp_assert. split; [lia|].
  destruct (Z.leb_spec (e_lsn e0) (l_confirmed_lsn l)); [by apply wp_ret, wp_ret|].
  assert (existsb blocks ps = false) as Hnb.
  { apply not_true_iff_false. intros (p & Hp%list_elem_of_In & Hb)%existsb_exists.
    destruct p as [| |id|req|]; try done; [|by apply (Hnp req)].
    destruct (iv_rollbacks l ps Hi id Hp) as [E|(e1 & q1 & E & <- & _)]; rewrite Eq in E; [done|].
    injection E as <- <-. done. }
  unfold txn_limbo_write_rollback_begin. apply wp_bind.
  apply wp_bind, wp_assert. split; [lia|].
  apply wp_bind, wp_assert. split; [by rewrite (iv_in_rollback l ps Hi), Hnb|].
  apply wp_bind, wp_modify. unfold txn_limbo_write_synchro. apply wp_bind, wp_assert. split; [lia|].
  apply wp_modify, wp_ret, wp_ret.
  eapply (block_inv l ps (P_rollback (e_id e0)) (l_confirmed_lsn l)); [done|done|done|lia| | |done].
  - by right.
  - intros id' [= <-]. right. exists e0, q. split; [done|]. split; [done|]. split; [lia|done].
Qed.

Lemma last_synchro_elem l e :
  txn_limbo_last_synchro_entry l = Some e -> e_lsn e ∈ sync_lsns (l_queue l).
Proof.
  unfold txn_limbo_last_synchro_entry. intros [Hin Hs]%find_some.
  apply sync_lsns_elem. exists e. split; [|done]. by apply list_elem_of_In, in_rev.
Qed.

Lemma promote_begin_inv l ps ty lsn term :
  limbo_inv l ps -> op_pre (O_promote_begin ty lsn term) l ps ->
  wp (run_op (O_promote_begin ty lsn term) ps) (fun ps' l' => limbo_inv l' ps') l.
Proof.
  intros Hi (Hty & Hnb & Ht & Hc & Hall & Hnil). pose proof (iv_confirmed l ps Hi).
  cbn [run_op]. apply wp_bind, wp_gets, wp_bind. unfold txn_limbo_write_promote_begin.
  apply wp_bind, wp_modify. apply wp_bind, wp_assert. split.
  { destruct (txn_limbo_last_synchro_entry _) as [e|] eqn:E; [|done].
    apply last_synchro_elem in E. apply Z.leb_le, Hall, E. }
  unfold txn_limbo_write_synchro. apply wp_bind, wp_assert. split; [lia|]. apply wp_modify, wp_ret.
  eapply (block_inv l ps (P_promote _) lsn); [done|done|done|done| |done|].
  - intros x Hx _. left. cbn. by apply Hall.
  - intros req [= <-]. cbn. split_and!; auto; lia.
Qed.

(** Every operation keeps the invariant and does not fail an assertion. *)
Lemma limbo_op_correct op l ps :
  limbo_inv l ps -> op_pre op l ps -> wp (run_op op ps) (fun ps' l' => limbo_inv l' ps') l.
Proof.
  intros Hi Hpre. destruct op.
  - by apply append_inv.
  - by apply written_inv.
  - by apply write_failed_inv.
  - by apply assign_inv.
  - cbn [run_op]. apply wp_bind. eapply wp_mono; [by apply ack_spec|]. by intros o l' [? _].
  - eapply wp_mono; [by apply params_spec|]. by intros ps' l' [? _].
  - destruct Hpre as (lsn & Hn). cbn [run_op].
    destruct Hn as [Hn|Hn]; rewrite Hn; apply wp_bind;
      (eapply wp_mono; [apply (confirm_end_inv l ps n lsn Hi); auto|]); intros [] l' Hl'; by apply wp_ret.
  - by apply timeout_inv.
  - destruct Hpre as (id & Hn). cbn [run_op]. rewrite Hn. apply wp_bind.
    eapply wp_mono; [by apply rollback_end_inv|]. intros pc l' Hl'. by apply wp_ret.
  - by apply promote_begin_inv.
  - destruct Hpre as (req & Hn & Hs & Hterm). cbn [run_op]. rewrite Hn. by apply promote_end_inv.
  - cbn [run_op]. apply wp_bind. eapply wp_mono; [by apply process_inv|].
    intros [] l' [[Hl'|[Hq Hl']] _]; [by apply after_process_inv|].
    unfold after_process. apply wp_bind, wp_gets, wp_ret. unfold txn_limbo_is_empty. by rewrite Hq.
Qed.
