(* ===== verification/LimboTheorems.v ===== *)
(** * Correctness of the limbo of synchronous transactions

    The limbo as a transition system whose steps are the operations of
    txn_limbo.c in any order that their preconditions ([op_pre] of LimboSafety.v)
    admit, and what holds in its reachable states. *)

From S2P Require Import Prelude Bits Vclock TxnLimbo LimboQueue LimboSafety.

Open Scope Z_scope.

Implicit Types (e : txn_limbo_entry) (q es : list txn_limbo_entry) (l : limbo)
  (ps : list pending).

(** ** The system *)

Record lsystem := mk_lsystem { s_limbo : limbo; s_pending : list pending }.

(** A step is an operation that can happen, of those that [P] allows. *)
Definition op_step (P : limbo_op -> Prop) (s s' : lsystem) : Prop :=
  exists op, P op /\ op_pre op (s_limbo s) (s_pending s) /\
    run_op op (s_pending s) (s_limbo s) = Done (s_pending s', s_limbo s').

Definition limbo_step : lsystem -> lsystem -> Prop := op_step (fun _ => True).

Definition limbo_init (s : lsystem) : Prop :=
  exists v instance_id quorum, length (vc_lsn v) = 32%nat /\ 0 < instance_id < 32 /\
    s = mk_lsystem (txn_limbo_create v instance_id quorum) [].

Lemma empty_inv_intro v i k :
  0 < i < 32 -> vclock_wf (vclock_create v) -> (forall id, comp (vclock_create v) id = 0) ->
  limbo_inv (txn_limbo_create v i k) [].
Proof.
  intros Hi Hw Hc. unfold txn_limbo_create.
  split; cbn; try done; try (by intros; set_solver); try lia; try (by constructor).
  - by split; constructor.
  - split; [done|]. split; [|lia]. intros id _. by rewrite Hc.
Qed.

Lemma limbo_init_inv s : limbo_init s -> limbo_inv (s_limbo s) (s_pending s).
Proof.
  intros (v & i & k & Hv & Hi & ->). destruct (vclock_create_spec v Hv) as [Hw Hc].
  by apply empty_inv_intro.
Qed.

Lemma limbo_reachable_inv s :
  reachable limbo_init limbo_step s -> limbo_inv (s_limbo s) (s_pending s).
Proof.
  apply (reachable_invariant _ _ (fun s => limbo_inv (s_limbo s) (s_pending s)) limbo_init_inv).
  intros s0 s' Hi (op & _ & Hpre & E). exact (wp_Done _ _ _ _ _ (limbo_op_correct op _ _ Hi Hpre) E).
Qed.

(** ** Quorums

    An operation other than an acknowledgement and the end of a confirmation
    leaves the clock of the acknowledgements and commits nothing. *)

Definition quiet (k : Z) l l' : Prop :=
  l_vclock l' = l_vclock l /\ (k <= l_quorum l -> k <= l_quorum l') /\
  forall e, (F_commit, e) ∈ l_out l' -> (F_commit, e) ∈ l_out l.

#[local] Instance quiet_preorder k : PreOrder (quiet k).
Proof.
  split; [by intros l|]. intros l1 l2 l3 (E1 & H1 & O1) (E2 & H2 & O2).
  split; [congruence|]. split; auto.
Qed.

#[local] Hint Extern 1 (PreOrder _) => apply _ : keeps.

Section Quiet.
Context (k : Z).
Abbreviation qk := (keeps (quiet k)).

Lemma quiet_lift {A} (o : option A) : qk (lift o).
Proof. intros l a l'. unfold lift. destruct o; [|done]. intros [= _ <-]. reflexivity. Qed.
Lemma quiet_the_entry id : qk (the_entry id).
Proof. intros l a l'. unfold the_entry. destruct (List.find _ _); [|done]. intros [= _ <-]. reflexivity. Qed.
Lemma quiet_update_entry id f : qk (update_entry id f).
Proof. by apply keeps_modify. Qed.
Lemma quiet_queue (f : limbo -> limbo) :
  (forall l, l_vclock (f l) = l_vclock l) -> (forall l, l_quorum (f l) = l_quorum l) ->
  (forall l, l_out (f l) = l_out l) -> qk (modify f).
Proof. intros H1 H2 H3. apply keeps_modify. intros l. split; [done|]. by rewrite H2, H3. Qed.
Lemma quiet_leave e : qk (leave F_rollback e).
Proof.
  apply keeps_modify. intros l. split; [done|]. split; [done|]. cbn.
  intros e' [|]%elem_of_cons; done.
Qed.
#[local] Hint Resolve quiet_lift quiet_the_entry quiet_update_entry quiet_leave : keeps.
#[local] Hint Extern 3 (keeps _ (modify _)) => apply quiet_queue; done : keeps.

Lemma quiet_rollback_loop one res stop :
  (forall e, qk (one e)) -> qk (rollback_loop one res stop).
Proof. intros H. induction res; cbn; auto 10 with keeps. Qed.

Lemma quiet_append origin id t oom : qk (txn_limbo_append origin id t oom).
Proof. unfold txn_limbo_append. auto 30 with keeps. Qed.
Lemma quiet_abort e : qk (txn_limbo_abort e).
Proof. unfold txn_limbo_abort, txn_limbo_pop. auto 30 with keeps. Qed.
Lemma quiet_complete_fail t : qk (txn_complete_fail t).
Proof. unfold txn_complete_fail. auto 30 with keeps. Qed.
#[local] Hint Resolve quiet_abort quiet_complete_fail : keeps.
Lemma quiet_timeout_one e : qk (timeout_one e).
Proof. unfold timeout_one. auto 30 with keeps. Qed.
Lemma quiet_written id res : qk (txn_written id res).
Proof. unfold txn_written. auto 30 with keeps. Qed.
Lemma quiet_write_failed id res : qk (txn_write_failed id res).
Proof. unfold txn_write_failed. auto 30 with keeps. Qed.
Lemma quiet_assign id lsn : qk (txn_limbo_assign_lsn id lsn).
Proof.
  unfold txn_limbo_assign_lsn, txn_limbo_assign_local_lsn, txn_limbo_assign_remote_lsn.
  auto 40 with keeps.
Qed.
Lemma quiet_timeout id : qk (wait_complete_timeout id).
Proof.
  unfold wait_complete_timeout, txn_limbo_write_rollback_begin, txn_limbo_write_synchro.
  apply keeps_bind; [apply _|auto with keeps|]. intros l. apply keeps_bind; [apply _|auto with keeps|].
  intros _. destruct (l_queue l); auto 30 with keeps.
Qed.
Lemma quiet_rollback id : qk (wait_complete_rollback id).
Proof.
  unfold wait_complete_rollback, txn_limbo_write_rollback_end.
  auto 30 using quiet_rollback_loop, quiet_timeout_one with keeps.
Qed.
Lemma quiet_write_confirm lsn : qk (txn_limbo_write_confirm lsn).
Proof. unfold txn_limbo_write_confirm, txn_limbo_write_synchro. auto 30 with keeps. Qed.
Lemma quiet_parameters : qk txn_limbo_on_parameters_change.
Proof. unfold txn_limbo_on_parameters_change. auto 30 using quiet_write_confirm with keeps. Qed.
End Quiet.

(** Requests that come from outside (PROMOTE, DEMOTE, and CONFIRM and ROLLBACK
    on a replica) settle entries too: on them only the clock of the
    acknowledgements and the quorum are followed. *)
Definition still l l' : Prop := l_vclock l' = l_vclock l /\ l_quorum l' = l_quorum l.

#[local] Instance still_preorder : PreOrder still.
Proof. split; [by intros l|]. intros l1 l2 l3 [E1 Q1] [E2 Q2]. split; congruence. Qed.

Section Still.
Abbreviation sk := (keeps still).

Lemma still_lift {A} (o : option A) : sk (lift o).
Proof. intros l a l'. unfold lift. destruct o; [|done]. intros [= _ <-]. reflexivity. Qed.
#[local] Hint Resolve still_lift : keeps.
#[local] Hint Extern 3 (keeps _ (modify _)) => apply keeps_modify; done : keeps.

Lemma still_leave f e : sk (leave f e).
Proof. unfold leave. auto with keeps. Qed.
#[local] Hint Resolve still_leave : keeps.
Lemma still_confirm_one e : sk (confirm_one e).
Proof. unfold confirm_one, txn_limbo_remove, txn_complete_success. auto 30 with keeps. Qed.
Lemma still_detach_one e : sk (detach_one e).
Proof. unfold detach_one, txn_limbo_remove. auto 30 with keeps. Qed.
#[local] Hint Resolve still_confirm_one still_detach_one : keeps.
Lemma still_confirm_loop es lsn : sk (confirm_loop es lsn).
Proof. induction es; cbn; auto 20 with keeps. Qed.
Lemma still_rollback_one e : sk (rollback_one e).
Proof. unfold rollback_one, txn_limbo_abort, txn_limbo_pop, txn_complete_fail. auto 30 with keeps. Qed.
#[local] Hint Resolve still_confirm_loop still_rollback_one : keeps.
Lemma still_rollback_loop es stop : sk (rollback_loop rollback_one es stop).
Proof. induction es; cbn; auto 20 with keeps. Qed.
#[local] Hint Resolve still_rollback_loop : keeps.
Lemma still_read_confirm lsn : sk (txn_limbo_read_confirm lsn).
Proof. unfold txn_limbo_read_confirm. auto 20 with keeps. Qed.
Lemma still_read_rollback lsn : sk (txn_limbo_read_rollback lsn).
Proof.
  unfold txn_limbo_read_rollback. apply keeps_bind; [apply _|auto with keeps|]. intros _.
  apply keeps_bind; [apply _|auto with keeps|]. intros q. destruct (last_rollback _ _ _); auto with keeps.
Qed.
#[local] Hint Resolve still_read_confirm still_read_rollback : keeps.
Lemma still_execute req lsn : sk (txn_limbo_execute req lsn).
Proof.
  unfold txn_limbo_execute, txn_limbo_read_demote, txn_limbo_read_promote.
  destruct (q_type req); auto 20 with keeps.
Qed.
#[local] Hint Resolve still_execute : keeps.
Lemma still_filter req : sk (txn_limbo_filter_term req).
Proof.
  unfold txn_limbo_filter_term. apply keeps_bind; [apply _|auto with keeps|]. intros l.
  apply keeps_bind; [apply _|auto with keeps|]. intros seen. apply keeps_if; [|auto with keeps].
  apply keeps_bind; [apply _|auto with keeps|]. intros [? w]. auto 10 with keeps.
Qed.
#[local] Hint Resolve still_filter : keeps.
Lemma still_process req : sk (txn_limbo_process req).
Proof. unfold txn_limbo_process. auto 20 with keeps. Qed.
#[local] Hint Resolve still_process : keeps.
Lemma still_promote_end req : sk (txn_limbo_write_promote_end;; txn_limbo_process req;; assert txn_limbo_is_empty).
Proof. unfold txn_limbo_write_promote_end. auto 20 with keeps. Qed.
End Still.

(** The quorum is never set below [k]. *)
Definition quorum_op (k : Z) (op : limbo_op) : Prop :=
  match op with O_params quorum => k <= quorum | _ => True end.

(** The operations in which entries are settled by a request and not by the
    acknowledgements this instance has counted. *)
Definition by_request (op : limbo_op) : bool :=
  match op with O_promote_end _ | O_process _ => true | _ => false end.

Definition quorum_start (k : Z) (s : lsystem) : Prop :=
  limbo_init s /\ k <= l_quorum (s_limbo s).

(** A confirmation is only written for what [k] instances have acknowledged. *)
Record quorum_inv (k : Z) l ps : Prop := {
  qi_quorum : k <= l_quorum l;
  qi_pending : forall lsn, P_confirm lsn ∈ ps -> k <= acks (l_vclock l) lsn;
}.

(** What an operation commits is acknowledged. *)
Definition commits_acked (k : Z) l l' : Prop :=
  forall e, (F_commit, e) ∈ l_out l' -> (F_commit, e) ∉ l_out l -> 0 < e_lsn e ->
    k <= acks (l_vclock l') (e_lsn e).

Lemma quiet_quorum k l ps l' ps' :
  quorum_inv k l ps -> quiet k l l' -> (forall lsn, P_confirm lsn ∈ ps' -> P_confirm lsn ∈ ps) ->
  quorum_inv k l' ps' /\ commits_acked k l l'.
Proof.
  intros [H1 H2] (E & Hq & Ho) Hp. split; [split; [auto|rewrite E; auto]|].
  intros e He Hn. by apply Ho in He.
Qed.

Lemma still_quorum k l ps l' ps' :
  quorum_inv k l ps -> still l l' -> (forall lsn, P_confirm lsn ∈ ps' -> P_confirm lsn ∈ ps) ->
  quorum_inv k l' ps'.
Proof. intros [H1 H2] (E & Hq) Hp. split; [by rewrite Hq|rewrite E; auto]. Qed.

Lemma run_keeps {A} k (m : lprog A) (f : A -> list pending) l ps' l' :
  keeps (quiet k) m -> (a ← m; mret (f a)) l = Done (ps', l') ->
  quiet k l l' /\ exists a, ps' = f a.
Proof.
  intros Hm. unfold mbind, prog_bind. destruct (m l) as [[a l1]|] eqn:E; [|done].
  intros [= <- <-]. split; [by eapply Hm|eauto].
Qed.

Lemma settled_lsn lsn q x :
  Forall entry_ok q -> x ∈ settle <$> confirmed lsn q -> x.1 = F_commit -> 0 < e_lsn x.2 ->
  e_lsn x.2 <= lsn.
Proof.
  intros Hok Hx. apply list_elem_of_fmap in Hx as (e & -> & He).
  induction q as [|e0 q IH]; cbn in He; [by apply elem_of_nil in He|].
  apply Forall_cons in Hok as [H0 Hok].
  destruct (stays lsn e0) eqn:Es; [by apply elem_of_nil in He|].
  apply elem_of_cons in He as [->|He]; [|auto]. intros _.
  assert (e_lsn (settle e0).2 = e_lsn e0) as -> by (unfold settle; by destruct (negb _ && _)).
  unfold stays in Es. destruct (is_sync e0) eqn:Esy; cbn in Es; [lia|].
  rewrite (eo_async e0 H0 Esy). lia.
Qed.

Lemma confirm_quorum k l ps n lsn ps' l' :
  limbo_inv l ps -> quorum_inv k l ps ->
  ps !! n = Some (P_confirm lsn) \/ ps !! n = Some (P_stale lsn) ->
  (txn_limbo_read_confirm lsn;; mret (delete n ps)) l = Done (ps', l') -> quorum_inv k l' ps' /\ commits_acked k l l'.
Proof.
  intros Hi Hq Hn E.
  pose proof (pending_written l ps n lsn Hi Hn) as Hs.
  pose proof (read_confirm_spec lsn l (iv_queue l ps Hi) (iv_unclaimed l ps Hi) Hs) as Hw.
  apply wp_total in Hw as ([] & l1 & E1 & ->). erewrite bind_Done in E by exact E1.
  injection E as <- <-. destruct Hq as [H1 H2]. split.
  - split; cbn; [done|]. intros c Hc. apply H2. by eapply delete_elem.
  - intros e He Hnew Hp. cbn in He |- *. apply elem_of_app in He as [He|He]; [|done].
    rewrite <- Permutation_rev in He.
    destruct Hn as [Hn|Hn].
    + etransitivity; [apply (H2 lsn); by eapply list_elem_of_lookup_2|].
      apply acks_mono; [|done]. by apply (settled_lsn lsn (l_queue l) (F_commit, e)) in He; [|apply Hi|..].
    + rewrite (iv_stale l ps Hi lsn) in He by (by eapply list_elem_of_lookup_2). by apply elem_of_nil in He.
Qed.

Lemma ack_quorum k l ps replica_id lsn ps' l' :
  limbo_inv l ps -> quorum_inv k l ps -> op_pre (O_ack replica_id lsn) l ps ->
  run_op (O_ack replica_id lsn) ps l = Done (ps', l') ->
  quorum_inv k l' ps' /\ commits_acked k l l'.
Proof.
  intros Hi Hq Hpre E. pose proof (ack_spec l ps replica_id lsn Hi Hpre) as Hw.
  apply wp_total in Hw as (o & l1 & E1 & _ & Hr). cbn in E. erewrite bind_Done in E by exact E1.
  injection E as <- <-. destruct Hpre as (Hid & Hlsn & _).
  destruct Hr as [(-> & -> & _)|(w & Hww & Hc & _ & Hr)]; [by split; [|intros e He Hn]|].
  assert (forall x, acks (l_vclock l) x <= acks w x) as Hm.
  { intros x. apply acks_mono; [lia|]. intros id Hid'. rewrite Hc by done. unfold upd.
    destruct (Z.eqb_spec id replica_id); subst; lia. }
  destruct Hq as [H1 H2]. destruct o as [c|]; cbn in Hr |- *.
  - destruct Hr as (-> & _ & _ & _ & Hcq). split; [|by intros e He Hn]. split; cbn; [done|].
    intros x [[= ->]|Hx]%elem_of_cons; [lia|]. etransitivity; [by apply H2|apply Hm].
  - subst l1. split; [|by intros e He Hn]. split; cbn; [done|].
    intros x Hx. etransitivity; [by apply H2|apply Hm].
Qed.

Lemma params_quorum k l ps quorum ps' l' :
  limbo_inv l ps -> quorum_inv k l ps -> 0 < quorum -> k <= quorum ->
  run_op (O_params quorum) ps l = Done (ps', l') -> quorum_inv k l' ps' /\ commits_acked k l l'.
Proof.
  intros Hi Hq Hpos Hk E. pose proof (wp_Done _ _ _ _ _ (params_spec l ps quorum Hi Hpos) E) as [_ Hp].
  cbn in E. erewrite bind_Done in E by reflexivity.
  apply (run_keeps k _ _ _ _ _ (quiet_parameters k)) in E as [(Ev & Hqu & Ho) _]. cbn in *.
  destruct Hq as [H1 H2]. split; [split; [auto|]|].
  - intros x Hx. destruct (Hp x Hx) as [Hx'|Hx']; [rewrite Ev; auto|lia].
  - intros e He Hn. by apply Ho in He.
Qed.

Lemma quiet_promote_begin k ty lsn term : keeps (quiet k) (txn_limbo_write_promote_begin ty lsn term).
Proof.
  unfold txn_limbo_write_promote_begin, txn_limbo_write_synchro.
  assert (forall f : limbo -> limbo, (forall l, l_vclock (f l) = l_vclock l) ->
    (forall l, l_quorum (f l) = l_quorum l) -> (forall l, l_out (f l) = l_out l) ->
    keeps (quiet k) (modify f)) as H by apply quiet_queue.
  apply keeps_bind; [apply _|by apply H|]. intros _. apply keeps_bind; [apply _|auto with keeps|].
  intros _. apply keeps_bind; [apply _|auto with keeps|]. intros _. by apply H.
Qed.

Lemma after_process_run ps l ps' l' :
  after_process ps l = Done (ps', l') ->
  l' = l /\ forall lsn, P_confirm lsn ∈ ps' -> P_confirm lsn ∈ ps.
Proof.
  unfold after_process, mbind, prog_bind, gets. cbn. destruct (txn_limbo_is_empty l); intros [= <- <-];
    (split; [done|]); [|done]. intros lsn Hx. by apply stale_no_confirm in Hx.
Qed.

(** An operation by which a request is processed. *)
Lemma request_quorum k op l ps ps' l' :
  quorum_inv k l ps -> by_request op = true -> op_pre op l ps ->
  run_op op ps l = Done (ps', l') -> quorum_inv k l' ps'.
Proof.
  intros Hq Hb Hpre E. destruct op; try done.
  - destruct Hpre as (req & Hn & _). cbn in E. rewrite Hn in E.
    assert (exists l1, (txn_limbo_write_promote_end;; txn_limbo_process req;; assert txn_limbo_is_empty) l
      = Done (tt, l1) /\ after_process (delete n ps) l1 = Done (ps', l')) as (l1 & E1 & E2).
    { unfold mbind, prog_bind in *. cbn in *. destruct (txn_limbo_process req _) as [[[] l1]|]; [|done].
      unfold assert in *. destruct (txn_limbo_is_empty l1); [|done]. by exists l1. }
    apply after_process_run in E2 as [-> Hp]. eapply still_quorum; [done|by eapply still_promote_end|].
    intros lsn Hx. eapply delete_elem. by apply Hp.
  - cbn in E. unfold mbind, prog_bind in E.
    destruct (txn_limbo_process req l) as [[[] l1]|] eqn:E1; [|done].
    apply after_process_run in E as [-> Hp]. by eapply still_quorum; [|eapply still_process|].
Qed.

Lemma own_step_quorum k op l ps ps' l' :
  limbo_inv l ps -> quorum_inv k l ps -> quorum_op k op -> by_request op = false -> op_pre op l ps ->
  run_op op ps l = Done (ps', l') -> quorum_inv k l' ps' /\ commits_acked k l l'.
Proof.
  intros Hi Hq Hop Hb Hpre E. destruct op; try done.
  - apply (run_keeps k _ _ _ _ _ (quiet_append k _ _ _ _)) in E as [E [_ ->]].
    by eapply quiet_quorum.
  - apply (run_keeps k _ _ _ _ _ (quiet_written k _ _)) in E as [E [_ ->]]. by eapply quiet_quorum.
  - apply (run_keeps k _ _ _ _ _ (quiet_write_failed k _ _)) in E as [E [_ ->]]. by eapply quiet_quorum.
  - apply (run_keeps k _ _ _ _ _ (quiet_assign k _ _)) in E as [E [_ ->]]. by eapply quiet_quorum.
  - by eapply ack_quorum.
  - by eapply params_quorum.
  - destruct Hpre as [lsn Hn]. eapply (confirm_quorum k l ps n lsn); try done.
    cbn in E. by destruct Hn as [Hn|Hn]; rewrite Hn in E.
  - apply (run_keeps k _ _ _ _ _ (quiet_timeout k _)) in E as [E [pc ->]].
    eapply quiet_quorum; try done. intros x Hx. destruct pc; try done.
    by apply elem_of_cons in Hx as [|].
  - destruct Hpre as [id Hn]. cbn in E. rewrite Hn in E.
    apply (run_keeps k _ _ _ _ _ (quiet_rollback k _)) in E as [E [pc ->]].
    eapply quiet_quorum; try done. intros x Hx. by eapply delete_elem.
  - cbn in E. apply (run_keeps k _ (fun _ => _) _ _ _ (quiet_promote_begin k _ _ _)) in E as [E [_ ->]].
    eapply quiet_quorum; try done. intros x Hx. by apply elem_of_cons in Hx as [|].
Qed.

Lemma quorum_reachable k s :
  reachable (quorum_start k) (op_step (quorum_op k)) s ->
  limbo_inv (s_limbo s) (s_pending s) /\ quorum_inv k (s_limbo s) (s_pending s).
Proof.
  revert s. apply reachable_invariant.
  - intros s [Hs Hk]. split; [by apply limbo_init_inv|]. destruct Hs as (v & i & q & _ & _ & ->).
    split; [done|]. cbn. by intros lsn ?%not_elem_of_nil.
  - intros [l ps] [l' ps'] [Hi Hq] (op & Hop & Hpre & E). cbn in *. split.
    + exact (wp_Done _ _ _ _ _ (limbo_op_correct op _ _ Hi Hpre) E).
    + destruct (by_request op) eqn:Eb; [by eapply request_quorum|].
      by eapply (own_step_quorum k op l ps).
Qed.

(** C3: no synchronous transaction is committed by its acknowledgements that
    fewer than a quorum of instances has acknowledged.  In every execution of
    the limbo, requests from outside included, when a step other than the
    processing of a request (PROMOTE, DEMOTE, and CONFIRM or ROLLBACK on a
    replica, which settle entries by the decision of another instance or of
    an election) takes an entry with an LSN out of the queue as committed,
    at least [k] components of the clock of acknowledgements have reached its
    LSN, where [k] is a lower bound of all the settings of
    replication_synchro_quorum.  A component is an instance, or all anonymous
    replicas together, which the code counts as one more instance. *)
Theorem limbo_commit_has_quorum k s op s' e :
  reachable (quorum_start k) (op_step (quorum_op k)) s ->
  op_pre op (s_limbo s) (s_pending s) -> quorum_op k op -> by_request op = false ->
  run_op op (s_pending s) (s_limbo s) = Done (s_pending s', s_limbo s') ->
  (F_commit, e) ∈ l_out (s_limbo s') -> (F_commit, e) ∉ l_out (s_limbo s) -> 0 < e_lsn e ->
  k <= acks (l_vclock (s_limbo s')) (e_lsn e).
Proof.
  intros Hr Hpre Hop Hb E. destruct (quorum_reachable k s Hr) as [Hi Hq].
  apply (own_step_quorum k op _ _ _ _ Hi Hq Hop Hb Hpre E).
Qed.

(** ** Claims *)


(** C23: an acknowledgement counts, and confirms all it can.  After
    txn_limbo_ack the counter of every waiting entry is the number of clock
    components that have reached its LSN, computed from scratch, although the
    code only adds one to some of them; and every entry that the
    acknowledgement brings to the quorum is covered by l_confirmed_lsn, except
    while a rollback is being written. *)
Theorem limbo_ack_counts s replica_id lsn :
  reachable limbo_init limbo_step s -> op_pre (O_ack replica_id lsn) (s_limbo s) (s_pending s) ->
  l_is_in_rollback (s_limbo s) = false ->
  wp (txn_limbo_ack replica_id lsn) (fun _ l' =>
    forall e, e ∈ l_queue l' -> is_sync e = true -> 0 < e_lsn e ->
      e_ack_count e = acks (l_vclock l') (e_lsn e) /\
      (comp (l_vclock (s_limbo s)) replica_id < e_lsn e <= lsn ->
       l_quorum l' <= e_ack_count e -> e_lsn e <= l_confirmed_lsn l')) (s_limbo s).
Proof.
  intros Hr Hpre Hrb. destruct s as [l ps]. cbn in *. apply limbo_reachable_inv in Hr as Hi. cbn in Hi.
  eapply wp_mono; [by apply (ack_spec l ps)|]. cbn. intros o l' [Hi' Hres] e He Hsy Hp.
  destruct Hpre as (_ & _ & Hown).
  assert (l_owner_id l' = l_instance_id l' /\ l_quorum l' = l_quorum l) as [Hown' Equ].
  { destruct Hres as [(_ & -> & _)|(w & _ & _ & _ & Hres)]; [done|].
    by destruct o; cbn in Hres; [destruct Hres as [-> _]|subst l']. }
  pose proof (proj1 (Forall_forall _ _) (iv_counted _ _ Hi' Hown') e He Hsy Hp) as Ec.
  split; [done|]. rewrite Equ, Ec. intros Hrange Hq.
  destruct Hres as [(_ & -> & [E|[E|E]])|(w & _ & _ & Hmax & Hres)].
  - rewrite E in He. by apply elem_of_nil in He.
  - by rewrite E in Hrb.
  - lia.
  - assert (l_vclock l' = w /\ l_queue l' = recount w <$> l_queue l) as [Ev Eq]
      by (by destruct o; cbn in Hres; [destruct Hres as [-> _]|subst l']).
    apply Hmax; [|by rewrite Ev in Hq].
    rewrite Eq in He. apply list_elem_of_fmap in He as (e0 & -> & He0).
    apply sync_lsns_elem. exists e0. split; [done|]. revert Hsy. unfold recount.
    by destruct (is_sync e0 && _).
Qed.

Lemma filter_term_newer req l ps :
  limbo_inv l ps -> 0 <= q_origin_id req < 32 -> q_term req <= INT64_MAX ->
  comp (l_promote_term_map l) (q_origin_id req) < q_term req ->
  wp (txn_limbo_filter_term req) (fun pass l' => pass = true /\ exists w,
    (forall id, 0 <= id < 32 -> comp w id = upd (l_promote_term_map l) (q_origin_id req) (q_term req) id) /\
    l' = l <| l_promote_term_map := w |> <| l_promote_greatest_term ::= Z.max (q_term req) |>) l.
Proof.
  intros Hi Ho Ht Hlt. unfold txn_limbo_filter_term. apply wp_bind, wp_gets, wp_bind.
  pose proof (iv_terms l ps Hi) as Hw. pose proof (ok_comp _ (proj1 Hw) _ Ho) as Hc.
  unfold txn_limbo_replica_term, lift, wp at 1. rewrite vclock_get_spec by (apply Hw || done).
  rewrite uwrap_small by (unfold INT64_MAX in Hc; lia).
  replace (comp _ _ <? _) with true by lia. rewrite i64_small by lia. apply wp_bind. unfold wp at 1.
  destruct (vclock_follow_spec _ (q_origin_id req) (q_term req) Hw Ho ltac:(lia)) as (w & -> & _ & Hcw).
  apply wp_bind, wp_modify, wp_ret. eauto.
Qed.

(** What a PROMOTE or DEMOTE leaves behind: the entries up to [lsn] committed,
    the others rolled back from the last to the first. *)
Definition decided (lsn : Z) l : list (fate * txn_limbo_entry) :=
  rev ((fun e => (F_rollback, fail_entry TXN_SIGNATURE_SYNC_ROLLBACK e)) <$>
         rev (unconfirmed lsn (l_queue l))) ++
  rev (settle <$> confirmed lsn (l_queue l)) ++ l_out l.

(** C17: a PROMOTE or DEMOTE with a new term of its origin decides the whole
    queue.  It is assumed that the queue is settled: every entry is written
    and every synchronous one has its LSN (otherwise the process can abort,
    C38); and that the request is well formed: origin and term in range, LSN 0
    when it names no owner.  When the request is for the queue of the present
    owner, the entries up to its LSN are committed in order and the others
    rolled back in reverse order; when it is for the queue of another owner
    its LSN is ignored and 0 taken instead, so that every synchronous entry is
    rolled back.  The queue is empty then, it belongs to the origin of the
    PROMOTE (to nobody after a DEMOTE), and the term is recorded. *)
Theorem limbo_promote_decides s req :
  reachable limbo_init limbo_step s -> request_ok req (s_limbo s) ->
  iproto_type_is_promote_request (q_type req) = true ->
  comp (l_promote_term_map (s_limbo s)) (q_origin_id req) < q_term req ->
  wp (txn_limbo_process req) (fun _ l' =>
    let lsn := if q_replica_id req =? l_owner_id (s_limbo s) then q_lsn req else 0 in
    l_queue l' = [] /\ l_out l' = decided lsn (s_limbo s) /\ l_confirmed_lsn l' = 0 /\
    l_owner_id l' =
      (if bool_decide (q_type req = IPROTO_DEMOTE) then REPLICA_ID_NIL else q_origin_id req) /\
    comp (l_promote_term_map l') (q_origin_id req) = q_term req /\
    l_promote_greatest_term l' = Z.max (q_term req) (l_promote_greatest_term (s_limbo s)))
    (s_limbo s).
Proof.
  intros Hr (Ho & Hl & Ht & Hnil & Hpre & _) Hty Hlt. destruct s as [l ps]. cbn in *.
  apply limbo_reachable_inv in Hr as Hi. cbn in Hi. unfold txn_limbo_process. apply wp_bind.
  eapply wp_mono; [apply (filter_term_newer req l ps Hi Ho); lia|].
  intros pass l1 (-> & w & Hw & ->). cbn [negb]. apply wp_bind, wp_gets.
  set (l1 := l <| l_promote_term_map := w |> <| l_promote_greatest_term ::= _ |>).
  assert (settled l) as Hs by (by case_bool_decide as Ec; [rewrite Ec in Hty|]).
  assert (forall lsn, wp (txn_limbo_execute req lsn) (fun _ l' => l' = promoted
    (if bool_decide (q_type req = IPROTO_DEMOTE) then REPLICA_ID_NIL else q_origin_id req) lsn l1) l1) as Hex.
  { assert (NoDup (e_id <$> l_queue l1)) as Hnd
      by (pose proof (iv_ids l ps Hi) as H; by apply NoDup_app in H as [H _]).
    intros lsn. unfold txn_limbo_execute. destruct (q_type req); try done; case_bool_decide; try done;
      (apply read_promote_spec; [apply (iv_queue l ps Hi)|done|apply (iv_unclaimed l ps Hi)|done]). }
  assert (comp w (q_origin_id req) = q_term req) as Ew
    by (rewrite Hw by done; unfold upd; by rewrite Z.eqb_refl).
  change (l_owner_id l1) with (l_owner_id l).
  destruct (Z.eqb_spec (q_replica_id req) REPLICA_ID_NIL) as [En|].
  - destruct (Hnil En) as [E0 _]. rewrite E0, Hty. cbn. apply wp_bind, wp_assert. split; [done|].
    eapply wp_mono; [apply Hex|]. intros _ l' ->. by destruct (_ =? _).
  - destruct (Z.eqb_spec (q_replica_id req) (l_owner_id l)); cbn [negb].
    + eapply wp_mono; [apply Hex|]. by intros _ l' ->.
    + rewrite Hty. cbn [negb]. eapply wp_mono; [apply Hex|]. by intros _ l' ->.
Qed.

(** txn_limbo_checkpoint and memtx_engine_recover_synchro, which takes the
    origin from the owner because rows of a checkpoint have no replica id. *)
Definition recovered_request l : synchro_request :=
  let req := txn_limbo_checkpoint l in
  mk_request (q_type req) (q_replica_id req) (q_replica_id req) (q_lsn req) (q_term req).

(** A checkpoint of a claimed limbo and its recovery give back the owner
    and the greatest term.  The limbo made at the start of the process, after
    txn_limbo_process of the recovered request, has the owner, and it refuses
    the terms of the owner the old one has seen. *)
Theorem limbo_checkpoint_roundtrip s v instance_id quorum :
  reachable limbo_init limbo_step s -> 0 < l_owner_id (s_limbo s) < 32 ->
  length (vc_lsn v) = 32%nat ->
  wp (txn_limbo_process (recovered_request (s_limbo s))) (fun _ l' =>
    l_owner_id l' = l_owner_id (s_limbo s) /\
    l_promote_greatest_term l' = l_promote_greatest_term (s_limbo s) /\
    comp (l_promote_term_map l') (l_owner_id (s_limbo s)) =
      l_promote_greatest_term (s_limbo s) /\
    l_queue l' = [] /\ l_out l' = []) (txn_limbo_create v instance_id quorum).
Proof.
  intros Hr Ho Hv. destruct s as [l ps]. cbn in *. apply limbo_reachable_inv in Hr as Hi. cbn in Hi.
  destruct (vclock_create_spec v Hv) as [Hw Hc]. destruct (iv_greatest l ps Hi) as [Hg _].
  set (l0 := txn_limbo_create v instance_id quorum).
  assert (wp (txn_limbo_filter_term (recovered_request l)) (fun pass l1 => pass = true /\
    exists w, l1 = l0 <| l_promote_term_map := w |>
                      <| l_promote_greatest_term := l_promote_greatest_term l |> /\
      comp w (l_owner_id l) = l_promote_greatest_term l) l0) as Hf.
  { unfold txn_limbo_filter_term. apply wp_bind, wp_gets, wp_bind. cbn [q_origin_id recovered_request].
    unfold txn_limbo_replica_term, lift, wp at 1. cbn [l0 txn_limbo_create l_promote_term_map q_replica_id txn_limbo_checkpoint].
    rewrite vclock_get_spec by (apply Hw || lia). rewrite Hc. cbn [q_term recovered_request txn_limbo_checkpoint].
    change (u64 0) with 0. destruct (Z.ltb_spec 0 (l_promote_greatest_term l)).
    - rewrite i64_small by lia. apply wp_bind. unfold wp at 1.
      destruct (vclock_follow_spec _ (l_owner_id l) (l_promote_greatest_term l) Hw ltac:(lia)
        ltac:(rewrite Hc; lia)) as (w & -> & _ & Hcw).
      apply wp_bind, wp_modify, wp_ret. split; [done|]. exists w. cbn. rewrite Z.max_l by lia.
      split; [done|]. rewrite Hcw by lia. unfold upd. by rewrite Z.eqb_refl.
    - apply wp_ret. split; [done|]. exists (vclock_create v). rewrite Hc.
      replace (l_promote_greatest_term l) with 0 by lia. done. }
  unfold txn_limbo_process. apply wp_bind. eapply wp_mono; [exact Hf|].
  intros pass l1 (-> & w & -> & Ew). cbn [negb]. apply wp_bind, wp_gets. cbn.
  destruct (Z.eqb_spec (l_owner_id l) REPLICA_ID_NIL) as [E|]; [unfold REPLICA_ID_NIL in E; lia|].
  cbn. by split.
Qed.

(** ** Runs *)

Fixpoint run_ops (ops : list limbo_op) (s : lsystem) : option lsystem :=
  match ops with
  | [] => Some s
  | op :: ops =>
      match run_op op (s_pending s) (s_limbo s) with
      | Done (ps, l) => run_ops ops (mk_lsystem l ps)
      | Abort => None
      end
  end.

(** Every operation of the list can happen when its turn comes. *)
Fixpoint ops_pre (ops : list limbo_op) (s : lsystem) : Prop :=
  match ops with
  | [] => True
  | op :: ops => op_pre op (s_limbo s) (s_pending s) /\
      match run_op op (s_pending s) (s_limbo s) with
      | Done (ps, l) => ops_pre ops (mk_lsystem l ps)
      | Abort => False
      end
  end.

Lemma run_ops_steps P ops s s' :
  ops_pre ops s -> Forall P ops -> run_ops ops s = Some s' -> steps (op_step P) s s'.
Proof.
  revert s. induction ops as [|op ops IH]; intros s Hp HP E; cbn in *; [injection E as <-; constructor|].
  destruct Hp as [Hpre Hp]. apply Forall_cons in HP as [HP HPs].
  destruct (run_op op (s_pending s) (s_limbo s)) as [[ps l]|] eqn:Er; [|done].
  eapply steps_cons; [|by apply IH]. by exists op.
Qed.

Lemma ops_pre_app ops ops' s : ops_pre (ops ++ ops') s -> ops_pre ops s.
Proof.
  revert s. induction ops as [|op ops IH]; intros s H; cbn in *; [done|]. destruct H as [? H].
  split; [done|]. destruct (run_op _ _ _) as [[ps l]|]; [by apply IH|done].
Qed.

(** Instance 1 of a cluster with a quorum of 2, and how it becomes the owner. *)
Definition demo_init : lsystem :=
  mk_lsystem (txn_limbo_create (mk_vclock 0 0 (repeat 0 32)) 1 2) [].
Definition claim_ops : list limbo_op := [O_process (mk_request IPROTO_PROMOTE 0 1 0 5)].
Definition commit_ops (id lsn : Z) : list limbo_op :=
  [O_append 0 id true false; O_written id lsn; O_assign id lsn].

Definition state_after (ops : list limbo_op) : lsystem :=
  match run_ops ops demo_init with Some s => s | None => demo_init end.

Lemma demo_init_ok : limbo_init demo_init.
Proof. eexists _, 1, 2. split; [|split; [|reflexivity]]; [done|lia]. Qed.

(** One operation of a concrete run: its state is computed. *)
Ltac run_step :=
  match goal with
  | |- ops_pre (?op :: ?ops) ?s =>
      let s' := eval vm_compute in s in
      change (ops_pre (op :: ops) s'); split;
      [|let r := eval vm_compute in (run_op op (s_pending s') (s_limbo s')) in
        change (match r with
                | Done (ps, l) => ops_pre ops (mk_lsystem l ps)
                | Abort => False
                end)]
  end; cbv beta iota.

(** The operation can happen: by computation. *)
Ltac op_ok :=
  cbn [op_pre s_limbo s_pending l_queue out_ids];
  repeat match goal with
  | |- _ /\ _ => split
  | |- exists q1 e q2, ?q = _ /\ _ => exists (removelast q); eexists _, []; split; [reflexivity|]
  | |- exists e, e ∈ ?q /\ e_id e = ?id /\ _ =>
      match eval vm_compute in (List.find (fun e => e_id e =? id) q) with Some ?e => exists e end;
      split; [by repeat (apply list_elem_of_here || apply list_elem_of_further)|split; [reflexivity|]]
  | |- exists lsn, _ = Some (P_confirm lsn) \/ _ => eexists; left; reflexivity
  | |- exists id, _ = Some (P_rollback id) => eexists; reflexivity
  | |- forall _, _ => intros ?
  | H : _ ∈ [] |- _ => by apply elem_of_nil in H
  | H : _ ∈ sync_lsns _ |- _ => vm_compute in H; set_unfold in H
  | H : _ \/ _ |- _ => destruct H; subst
  | H : False |- _ => destruct H
  | |- Forall _ _ => repeat constructor
  | |- assigned _ => intros _
  | |- _ ∉ [] => apply not_elem_of_nil
  | |- _ ∉ _ => apply (bool_decide_eq_true_1 _); by vm_compute
  | |- _ <> _ => done
  end; try (by vm_compute); try (by vm_compute; intros; discriminate).
Ltac run_all := repeat (run_step; [by op_ok|]); exact I.

(** Two transactions, the first one acknowledged by the owner. *)
Definition demo_ops : list limbo_op :=
  claim_ops ++ commit_ops 10 7 ++ commit_ops 11 8 ++ [O_ack 1 7].
Definition demo_confirm : list limbo_op := [O_ack 2 7; O_confirm_end 0].
Lemma demo_pre : ops_pre (demo_ops ++ demo_confirm) demo_init.
Proof. unfold demo_ops, demo_confirm, claim_ops, commit_ops. cbn [app]. run_all. Qed.

Lemma demo_reachable ops s :
  ops_pre ops demo_init -> run_ops ops demo_init = Some s -> reachable limbo_init limbo_step s.
Proof.
  intros Hp E. eapply steps_reachable; [apply reach_init, demo_init_ok|].
  eapply run_ops_steps; [done|by apply Forall_true|done].
Qed.
Lemma demo_state ops ops' :
  ops ++ ops' = demo_ops ++ demo_confirm -> run_ops ops demo_init = Some (state_after ops) ->
  reachable limbo_init limbo_step (state_after ops).
Proof.
  intros E Hr. eapply demo_reachable; [|exact Hr]. apply (ops_pre_app _ ops'). rewrite E. apply demo_pre.
Qed.

Lemma demo_ack_pre :
  op_pre (O_ack 2 7) (s_limbo (state_after demo_ops)) (s_pending (state_after demo_ops)).
Proof. split; [lia|]. vm_compute. by split. Qed.


(** The second acknowledgement of the first transaction confirms it. *)
Lemma limbo_ack_counts_witness :
  wp (txn_limbo_ack 2 7) (fun _ l' => l_confirmed_lsn l' = 7 /\
    Forall (fun e => e_ack_count e = acks (l_vclock l') (e_lsn e)) (l_queue l'))
    (s_limbo (state_after demo_ops)).
Proof.
  assert (reachable limbo_init limbo_step (state_after demo_ops)) as Hr
    by (by apply (demo_state demo_ops demo_confirm); [|vm_compute]).
  assert (wp (txn_limbo_ack 2 7) (fun _ l' => (l_confirmed_lsn l' =? 7) &&
    forallb (fun e => is_sync e && (0 <? e_lsn e)) (l_queue l') = true)
    (s_limbo (state_after demo_ops))) as Hrun by (by vm_compute).
  eapply wp_mono; [eapply wp_and; [|exact Hrun];
    apply (limbo_ack_counts (state_after demo_ops) 2 7 Hr demo_ack_pre); reflexivity|].
  cbn. intros _ l' [H [E Hs]%andb_true_iff]. split; [lia|]. apply Forall_forall. intros e He.
  apply list_elem_of_In in He as Hin. rewrite forallb_forall in Hs. specialize (Hs e Hin).
  apply andb_true_iff in Hs as [Hs Hp]. apply H; [done..|lia].
Defined.

(** The first transaction is committed with two acknowledgements. *)
Lemma limbo_commit_has_quorum_witness :
  exists e, (F_commit, e) ∈ l_out (s_limbo (state_after (demo_ops ++ demo_confirm))) /\
    e_lsn e = 7 /\ 2 <= acks (l_vclock (s_limbo (state_after (demo_ops ++ demo_confirm)))) 7.
Proof.
  set (s := state_after (demo_ops ++ [O_ack 2 7])).
  assert (reachable (quorum_start 2) (op_step (quorum_op 2)) s) as Hr.
  { eapply (steps_reachable _ _ demo_init).
    - apply reach_init. split; [apply demo_init_ok|by vm_compute].
    - eapply (run_ops_steps _ (demo_ops ++ [O_ack 2 7])).
      + apply (ops_pre_app _ [O_confirm_end 0]), demo_pre.
      + repeat constructor.
      + by vm_compute. }
  assert (op_pre (O_confirm_end 0) (s_limbo s) (s_pending s)) as Hpre by (exists 7; left; by vm_compute).
  pose proof (limbo_commit_has_quorum 2 s (O_confirm_end 0) (state_after (demo_ops ++ demo_confirm))
    (mk_entry 10 (mk_txn false false true TXN_COMMITTED 7) 7 2 true false) Hr Hpre I eq_refl) as H.
  eexists. split; [|split; [|apply H]].
  - vm_compute. left.
  - done.
  - by vm_compute.
  - vm_compute. left.
  - vm_compute. apply not_elem_of_nil.
  - done.
Defined.

Lemma demo_request_ok :
  request_ok (mk_request IPROTO_PROMOTE 1 2 7 6) (s_limbo (state_after demo_ops)).
Proof. vm_compute. repeat split; repeat constructor; done. Qed.

Lemma limbo_promote_decides_witness :
  wp (txn_limbo_process (mk_request IPROTO_PROMOTE 1 2 7 6)) (fun _ l' =>
    l_owner_id l' = 2 /\ (fun x => (x.1, e_id x.2)) <$> l_out l' = [(F_rollback, 11); (F_commit, 10)])
    (s_limbo (state_after demo_ops)).
Proof.
  assert (reachable limbo_init limbo_step (state_after demo_ops)) as Hr
    by (by apply (demo_state demo_ops demo_confirm); [|vm_compute]).
  eapply wp_mono; [apply (limbo_promote_decides (state_after demo_ops)
    (mk_request IPROTO_PROMOTE 1 2 7 6) Hr demo_request_ok); reflexivity|].
  intros _ l' (_ & Eo & _ & Ew & _). split; [rewrite Ew; by vm_compute|]. rewrite Eo. by vm_compute.
Defined.

Lemma limbo_checkpoint_roundtrip_witness :
  wp (txn_limbo_process (recovered_request (s_limbo (state_after demo_ops)))) (fun _ l' =>
    l_owner_id l' = 1 /\ l_promote_greatest_term l' = 5)
    (txn_limbo_create (mk_vclock 0 0 (repeat 0 32)) 3 2).
Proof.
  assert (reachable limbo_init limbo_step (state_after demo_ops)) as Hr
    by (by apply (demo_state demo_ops demo_confirm); [|vm_compute]).
  eapply wp_mono; [apply (limbo_checkpoint_roundtrip (state_after demo_ops)
    (mk_vclock 0 0 (repeat 0 32)) 3 2 Hr); [by vm_compute|done]|].
  intros _ l' (Eo & Eg & _). split; [rewrite Eo; by vm_compute|]. rewrite Eg. by vm_compute.
Defined.

(** ** What the operations do not guard against *)

(** C38: a PROMOTE that is processed while a transaction of the owner has been
    written but its fiber has not yet given the LSN to the entry aborts the
    process: txn_limbo_read_rollback stops at the entry because its LSN is -1,
    and the assertion that the queue is empty fails. *)
Theorem limbo_promote_in_flight_aborts :
  exists s req, reachable limbo_init limbo_step s /\ q_type req = IPROTO_PROMOTE /\
    l_promote_greatest_term (s_limbo s) < q_term req /\ q_replica_id req = l_owner_id (s_limbo s) /\
    Forall (fun e => 0 <= t_signature (e_txn e)) (l_queue (s_limbo s)) /\
    txn_limbo_process req (s_limbo s) = Abort.
Proof.
  exists (state_after (claim_ops ++ [O_append 0 10 true false; O_written 10 7])),
    (mk_request IPROTO_PROMOTE 1 2 0 6).
  split; [apply (demo_state _ (O_assign 10 7 :: commit_ops 11 8 ++ O_ack 1 7 :: demo_confirm)); by vm_compute|].
  vm_compute. repeat split. repeat constructor; done.
Qed.

(** A PROMOTE of an older term takes the queue over.  The filter compares
    the term with the last one of the same origin only, so a request whose
    term is below the greatest one seen passes when its origin had an even
    older term: the queue gets an owner that lost it to a newer term. *)
Theorem limbo_outdated_promote_accepted :
  exists s req l', reachable limbo_init limbo_step s /\ q_type req = IPROTO_PROMOTE /\
    q_term req < l_promote_greatest_term (s_limbo s) /\ q_origin_id req <> l_owner_id (s_limbo s) /\
    txn_limbo_process req (s_limbo s) = Done (tt, l') /\ l_owner_id l' = q_origin_id req.
Proof.
  eexists (state_after claim_ops), (mk_request IPROTO_PROMOTE 1 2 0 3), _.
  split; [apply (demo_state _ (commit_ops 10 7 ++ commit_ops 11 8 ++ O_ack 1 7 :: demo_confirm)); by vm_compute|].
  vm_compute. repeat split. done.
Qed.

(** C40: a transaction whose wait has timed out can be left waiting without a
    timeout.  Its entry was not the first one when the timeout came, so its
    fiber went to the loop at the label wait; then the confirmation of the
    earlier entry ended.  The entry is now the first one, it is not complete,
    no journal write is pending that would complete it, and its fiber does not
    look at the time again. *)
Theorem limbo_timed_out_waiter_stuck :
  exists s s' e, reachable limbo_init limbo_step s /\
    wait_complete_timeout (e_id e) (s_limbo s) = Done (W_wait, s_limbo s) /\
    steps limbo_step s s' /\ l_queue (s_limbo s') = [e] /\ s_pending s' = [] /\
    l_is_in_rollback (s_limbo s') = false /\
    wait_complete_check W_wait (e_id e) (s_limbo s') = Done (W_wait, s_limbo s').
Proof.
  exists (state_after (demo_ops ++ [O_ack 2 7])), (state_after (demo_ops ++ demo_confirm)),
    (mk_entry 11 (mk_txn true true false TXN_PREPARED 8) 8 0 false false).
  split; [apply (demo_state _ [O_confirm_end 0]); by vm_compute|]. split; [by vm_compute|]. split.
  - apply (run_ops_steps _ [O_confirm_end 0]); [|by constructor|by vm_compute].
    split; [|by vm_compute]. exists 7. left. by vm_compute.
  - by vm_compute.
Qed.

(** Anonymous replicas count.  Their acknowledgements come with replica id
    0, which the limbo takes for one more instance: together with the owner it
    makes a quorum of 2.  Two anonymous replicas share the component, and an
    acknowledgement of the slower one fails the assertion of vclock_follow. *)
Theorem limbo_anonymous_ack :
  exists s l, reachable limbo_init limbo_step s /\ l_quorum (s_limbo s) = 2 /\
    txn_limbo_ack REPLICA_ID_NIL 8 (s_limbo s) = Done (Some 7, l) /\
    txn_limbo_ack REPLICA_ID_NIL 7 l = Abort.
Proof.
  eexists (state_after demo_ops), _.
  split; [apply (demo_state _ demo_confirm); by vm_compute|]. split; [by vm_compute|].
  split; [vm_compute; reflexivity|]. by vm_compute.
Qed.
