(* ===== verification/Port.v ===== *)
(** * Ports and the memory they use (src/box/port.c)

    A C port collects the results of a request: references to tuples and
    copies of MessagePack.  Its entries live in a memory pool, except the first
    one, which is a part of the port; small copies live in the same pool, large
    ones on the heap.  [mem] has the live blocks, the references held on tuples
    and the outcomes of the next allocations.  Freeing a block that is not
    live, or dropping a reference that is not held, is [Abort].

    The output buffer is struct obuf of the library small, which is not a part
    of the sources: it is the interface [Obuf]. *)

From stdpp Require Import gmap gmultiset.
From S2P Require Import Prelude.

Open Scope Z_scope.

(** ** Memory *)

Inductive block_kind := Pool | Heap.
#[export] Instance block_kind_eq_dec : EqDecision block_kind.
Proof. solve_decision. Defined.
#[export] Instance block_kind_countable : Countable block_kind.
Proof.
  refine (inj_countable' (fun k => match k with Pool => true | Heap => false end)
    (fun b : bool => if b then Pool else Heap) _). by intros [].
Defined.

Definition block : Type := block_kind * Z.

Record mem := mk_mem {
  m_next : Z;              (** no block is live at this address or above it *)
  m_live : gset block;
  m_refs : gmultiset Z;    (** references held on tuples, by tuple *)
  m_oom : list bool;       (** whether the next allocations fail; later ones do not *)
}.
#[export] Instance mem_rebuild : Rebuild mem :=
  fun m => mk_mem (m_next m) (m_live m) (m_refs m) (m_oom m).

Abbreviation mprog := (prog mem).

(** malloc or mempool_alloc. *)
Definition alloc (k : block_kind) : mprog (option Z) := fun m =>
  match m_oom m with
  | true :: oom => Done (None, m <| m_oom := oom |>)
  | _ => Done (Some (m_next m), m <| m_live ::= fun live => {[ (k, m_next m) ]} ∪ live |>
                                  <| m_next ::= Z.succ |> <| m_oom ::= tail |>)
  end.

(** free or mempool_free. *)
Definition free (k : block_kind) (a : Z) : mprog unit :=
  assert (fun m => bool_decide ((k, a) ∈ m_live m));;
  modify (fun m => m <| m_live ::= fun live => live ∖ {[ (k, a) ]} |>).

Definition tuple_ref (t : Z) : mprog unit :=
  modify (fun m => m <| m_refs ::= fun refs => {[+ t +]} ⊎ refs |>).
Definition tuple_unref (t : Z) : mprog unit :=
  assert (fun m => bool_decide (t ∈ m_refs m));;
  modify (fun m => m <| m_refs ::= fun refs => refs ∖ {[+ t +]} |>).

(** ** Ports *)

(** sizeof(struct port_c_entry): two pointers and a uint32_t. *)
Definition PORT_ENTRY_SIZE : Z := 24.

(** The union: a tuple when mp_size is 0, otherwise a copy of MessagePack. *)
Inductive port_content :=
| C_tuple (t : Z)
| C_mp (a : Z) (data : list Z).

(** [pe_addr] is [None] for port_c.first_entry. *)
Record port_c_entry := mk_port_entry { pe_addr : option Z; pe_content : port_content }.

Record port_c := mk_port { pt_entries : list port_c_entry; pt_size : Z }.
#[export] Instance port_c_rebuild : Rebuild port_c := fun p => mk_port (pt_entries p) (pt_size p).

Definition port_c_create : port_c := mk_port [] 0.

Definition mp_kind (data : list Z) : block_kind :=
  if Z.of_nat (length data) <=? PORT_ENTRY_SIZE then Pool else Heap.

Definition port_c_destroy_entry (pe : port_c_entry) : mprog unit :=
  match pe_content pe with
  | C_tuple t => tuple_unref t
  | C_mp a data => free (mp_kind data) a
  end.

(** The first entry is not freed: it has no address of its own. *)
Fixpoint destroy_entries (es : list port_c_entry) : mprog unit :=
  match es with
  | [] => skip
  | pe :: es =>
      port_c_destroy_entry pe;;
      match pe_addr pe with Some a => free Pool a | None => skip end;;
      destroy_entries es
  end.
Definition port_c_destroy (p : port_c) : mprog unit := destroy_entries (pt_entries p).

(** The address of the new entry, or [None] when there is no memory. *)
Definition port_c_new_entry (p : port_c) : mprog (option (option Z)) :=
  if pt_size p =? 0 then mret (Some None)
  else a ← alloc Pool; mret (match a with Some a => Some (Some a) | None => None end).

(** The entry linked at the end of the port. *)
Definition port_link (p : port_c) (a : option Z) (c : port_content) : port_c :=
  p <| pt_entries ::= fun es => es ++ [mk_port_entry a c] |> <| pt_size ::= fun n => i32 (n + 1) |>.

Definition port_c_add_tuple (p : port_c) (t : Z) : mprog (Z * port_c) :=
  e ← port_c_new_entry p;
  match e with
  | None => mret (-1, p)
  | Some a => tuple_ref t;; mret (0, port_link p a (C_tuple t))
  end.

Definition port_c_add_mp (p : port_c) (data : list Z) : mprog (Z * port_c) :=
  assert (fun _ => 0 <? Z.of_nat (length data));;
  dst ← alloc (mp_kind data);
  match dst with
  | None => mret (-1, p)
  | Some dst =>
      e ← port_c_new_entry p;
      match e with
      | Some a => mret (0, port_link p a (C_mp dst data))
      | None => free (mp_kind data) dst;; mret (-1, p)
      end
  end.

(** ** Output buffers

    obuf_alloc together with the bytes that are then written to the area it
    returns; obuf_dup with the number of bytes it has copied; the vectors in
    use. *)
Class Obuf (O : Type) := {
  obuf_alloc : list Z -> O -> option O;
  obuf_dup : list Z -> O -> Z * O;
  obuf_iov : O -> list (list Z);
  obuf_size : O -> Z;
  obuf_reset : O -> O;
}.

(** What the callers rely on. *)
Class ObufLaws (O : Type) `{Obuf O} := {
  obuf_alloc_app : forall d o o', obuf_alloc d o = Some o' ->
    concat (obuf_iov o') = concat (obuf_iov o) ++ d;
  obuf_dup_app : forall d o o', obuf_dup d o = (Z.of_nat (length d), o') ->
    concat (obuf_iov o') = concat (obuf_iov o) ++ d;
  obuf_size_iov : forall o, obuf_size o = Z.of_nat (length (concat (obuf_iov o)));
  obuf_reset_empty : forall o, concat (obuf_iov (obuf_reset o)) = [];
}.

Section Dump.
Context {O : Type} `{Obuf O}.
(** The MessagePack of a tuple, and mp_encode_array of the library msgpuck. *)
Context (tuple_data : Z -> list Z) (mp_encode_array : Z -> list Z).


(** The loop of port_c_dump_msgpack_16; the buffer keeps what was copied
    before an error. *)
Fixpoint dump_entries (es : list port_c_entry) (o : O) : bool * O :=
  match es with
  | [] => (true, o)
  | pe :: es =>
      let data := match pe_content pe with C_tuple t => tuple_data t | C_mp _ data => data end in
      let '(n, o) := obuf_dup data o in
      if n =? Z.of_nat (length data) then dump_entries es o else (false, o)
  end.

Definition port_c_dump_msgpack_16 (p : port_c) (o : O) : Z * O :=
  let '(ok, o) := dump_entries (pt_entries p) o in
  (if ok : bool then pt_size p else -1, o).

Definition port_c_dump_msgpack (p : port_c) (o : O) : Z * O :=
  match obuf_alloc (mp_encode_array (pt_size p)) o with
  | None => (-1, o)
  | Some o =>
      let '(n, o) := port_c_dump_msgpack_16 p o in
      if n <? 0 then (-1, o) else (1, o)
  end.
End Dump.

(** ** What a port owns *)

Implicit Types (m : mem) (p : port_c) (pe : port_c_entry) (es : list port_c_entry)
  (bs : list block) (ts : list Z).

Definition entry_blocks pe : list block :=
  match pe_content pe with C_tuple _ => [] | C_mp a data => [(mp_kind data, a)] end ++
  match pe_addr pe with Some a => [(Pool, a)] | None => [] end.
Definition entry_refs pe : list Z :=
  match pe_content pe with C_tuple t => [t] | C_mp _ _ => [] end.
Definition blocks_of es : list block := concat (entry_blocks <$> es).
Definition refs_of es : list Z := concat (entry_refs <$> es).

Definition mem_ok m : Prop := forall b, b ∈ m_live m -> b.2 < m_next m.

(** [m] is the memory [m0] with the blocks [bs] and the references [ts]. *)
Record owns m0 bs ts m : Prop := {
  ow_ok : mem_ok m;
  ow_nodup : NoDup bs;
  ow_new : forall b, b ∈ bs -> b ∉ m_live m0;
  ow_live : m_live m = list_to_set bs ∪ m_live m0;
  ow_refs : m_refs m = list_to_set_disj ts ⊎ m_refs m0;
}.

Lemma refs_nil (M : gmultiset Z) : list_to_set_disj [] ⊎ M = M.
Proof. multiset_solver. Qed.

Lemma refs_drop (M N : gmultiset Z) (l : list Z) t :
  M = list_to_set_disj (t :: l) ⊎ N -> t ∈ M /\ M ∖ {[+ t +]} = list_to_set_disj l ⊎ N.
Proof.
  intros ->. cbn [list_to_set_disj]. split; [multiset_solver|]. apply gmultiset_eq. intros x.
  rewrite multiplicity_difference, !multiplicity_disj_union. lia.
Qed.

Lemma live_drop (X N : gset block) b bs :
  X = list_to_set (b :: bs) ∪ N -> b ∉ bs -> b ∉ N -> b ∈ X /\ X ∖ {[b]} = list_to_set bs ∪ N.
Proof. intros -> H1 H2. rewrite list_to_set_cons. split; [set_solver|]. set_solver. Qed.

Lemma owns_nil m : mem_ok m -> owns m [] [] m.
Proof.
  intros Hm. split; [done|apply NoDup_nil_2|set_solver|set_solver|by rewrite refs_nil].
Qed.

Lemma owns_nothing m0 m : owns m0 [] [] m -> m_live m = m_live m0 /\ m_refs m = m_refs m0.
Proof. intros [_ _ _ Hl Hr]. split; [set_solver|]. by rewrite Hr, refs_nil. Qed.

Lemma owns_perm m0 bs bs' ts ts' m :
  owns m0 bs ts m -> bs ≡ₚ bs' -> ts ≡ₚ ts' -> owns m0 bs' ts' m.
Proof.
  intros [Hok Hnd Hnew Hl Hr] Hb Ht. split; [done|by rewrite <- Hb|..].
  - intros b. rewrite <- Hb. apply Hnew.
  - rewrite Hl. f_equal. by apply list_to_set_perm_L.
  - rewrite Hr. f_equal. by apply list_to_set_disj_perm.
Qed.

Lemma owns_free m0 k a bs ts m :
  owns m0 ((k, a) :: bs) ts m -> wp (free k a) (fun _ => owns m0 bs ts) m.
Proof.
  intros [Hok Hnd Hnew Hl Hr]. apply NoDup_cons in Hnd as [Hni Hnd].
  destruct (live_drop _ _ _ _ Hl Hni) as [Hin Hl']; [apply Hnew; by left|].
  unfold free. apply wp_bind, wp_assert. split; [by apply bool_decide_eq_true|]. apply wp_modify.
  split; cbn; [|done| |done|done].
  - intros b Hb. apply Hok. by apply elem_of_difference in Hb as [Hb _].
  - intros b Hb. apply Hnew. by right.
Qed.

Lemma owns_unref m0 t bs ts m :
  owns m0 bs (t :: ts) m -> wp (tuple_unref t) (fun _ => owns m0 bs ts) m.
Proof.
  intros [Hok Hnd Hnew Hl Hr]. apply refs_drop in Hr as [Hin Hr].
  unfold tuple_unref. apply wp_bind, wp_assert. split; [by apply bool_decide_eq_true|].
  by apply wp_modify.
Qed.

Lemma owns_ref m0 t bs ts m :
  owns m0 bs ts m -> wp (tuple_ref t) (fun _ => owns m0 bs (t :: ts)) m.
Proof.
  intros [Hok Hnd Hnew Hl Hr]. apply wp_modify. split; [done..|].
  change ({[+ t +]} ⊎ m_refs m = {[+ t +]} ⊎ list_to_set_disj ts ⊎ m_refs m0). rewrite Hr.
  apply gmultiset_eq. intros x. rewrite !multiplicity_disj_union. lia.
Qed.

(** An allocation, whether it fails or not. *)
Lemma owns_alloc m0 k bs ts m :
  owns m0 bs ts m ->
  wp (alloc k) (fun o => match o with
    | None => owns m0 bs ts
    | Some a => owns m0 ((k, a) :: bs) ts
    end) m.
Proof.
  intros [Hok Hnd Hnew Hl Hr].
  assert ((k, m_next m) ∉ m_live m) as Hni by (intros Hin; specialize (Hok _ Hin); cbn in Hok; lia).
  assert (owns m0 ((k, m_next m) :: bs) ts
    (m <| m_live ::= fun live => {[ (k, m_next m) ]} ∪ live |> <| m_next ::= Z.succ |>
       <| m_oom ::= tail |>)).
  { rewrite Hl in Hni. split; cbn [m_live m_next m_refs update].
    - intros b [->%elem_of_singleton|Hb]%elem_of_union; [cbn; lia|]. specialize (Hok b Hb). cbn. lia.
    - apply NoDup_cons. split; [set_solver|done].
    - intros b [->|Hb]%elem_of_cons; [set_solver|auto].
    - cbn. rewrite Hl. set_solver.
    - done. }
  unfold wp, alloc. by destruct (m_oom m) as [|[] oom].
Qed.

(** The entries of a port next to other blocks and references. *)
Definition holds m0 es bs ts m : Prop := owns m0 (blocks_of es ++ bs) (refs_of es ++ ts) m.

Lemma blocks_of_snoc es pe : blocks_of (es ++ [pe]) = blocks_of es ++ entry_blocks pe.
Proof. unfold blocks_of. rewrite fmap_app, concat_app. cbn. by rewrite app_nil_r. Qed.
Lemma refs_of_snoc es pe : refs_of (es ++ [pe]) = refs_of es ++ entry_refs pe.
Proof. unfold refs_of. rewrite fmap_app, concat_app. cbn. by rewrite app_nil_r. Qed.

Lemma destroy_spec m0 es bs ts m :
  holds m0 es bs ts m -> wp (destroy_entries es) (fun _ => owns m0 bs ts) m.
Proof.
  unfold holds. revert m. induction es as [|[addr c] es IH]; intros m Hh; [by apply wp_ret|].
  cbn [destroy_entries pe_addr]. apply wp_bind.
  assert (wp (port_c_destroy_entry (mk_port_entry addr c)) (fun _ => owns m0
    (match addr with Some a => [(Pool, a)] | None => [] end ++ blocks_of es ++ bs)
    (refs_of es ++ ts)) m) as Hd.
  { unfold port_c_destroy_entry. destruct c as [t|a data]; cbn [pe_content].
    - apply owns_unref. eapply owns_perm; [exact Hh| |done].
      unfold blocks_of, entry_blocks. cbn. by rewrite <- app_assoc.
    - apply owns_free. eapply owns_perm; [exact Hh| |done].
      unfold blocks_of, entry_blocks. cbn. by rewrite <- app_assoc. }
  eapply wp_mono; [exact Hd|]. intros [] m1 H1. apply wp_bind. destruct addr as [a|]; cbn [app] in H1.
  - eapply wp_mono; [by apply owns_free|]. intros [] m2 H2. by apply IH.
  - apply wp_ret. by apply IH.
Qed.

(** The block of a new entry. *)
Definition addr_blocks (a : option Z) : list block :=
  match a with Some a => [(Pool, a)] | None => [] end.

Lemma new_entry_spec p m0 bs ts m :
  owns m0 bs ts m ->
  wp (port_c_new_entry p) (fun o => match o with
    | None => owns m0 bs ts
    | Some a => owns m0 (addr_blocks a ++ bs) ts
    end) m.
Proof.
  intros Hm. unfold port_c_new_entry. destruct (pt_size p =? 0); [by apply wp_ret|].
  apply wp_bind. eapply wp_mono; [by apply owns_alloc|]. intros [a|] m' H; by apply wp_ret.
Qed.

Lemma holds_link p a x m0 bs ts m :
  owns m0 (entry_blocks (mk_port_entry a x) ++ blocks_of (pt_entries p) ++ bs)
    (entry_refs (mk_port_entry a x) ++ refs_of (pt_entries p) ++ ts) m ->
  holds m0 (pt_entries (port_link p a x)) bs ts m.
Proof.
  intros H. unfold holds, port_link. cbn [pt_entries update]. rewrite blocks_of_snoc, refs_of_snoc.
  eapply owns_perm; [exact H|solve_Permutation..].
Qed.

(** What an addition does to the port: it fails and the port is as before, or
    the entry is at its end. *)
Definition added p (c : port_content -> Prop) (r : Z * port_c) : Prop :=
  r = (-1, p) \/ exists a x, c x /\ r = (0, port_link p a x).

Lemma add_tuple_spec p t m0 bs ts m :
  holds m0 (pt_entries p) bs ts m ->
  wp (port_c_add_tuple p t) (fun r m' => holds m0 (pt_entries r.2) bs ts m' /\
    added p (eq (C_tuple t)) r) m.
Proof.
  intros Hh. unfold port_c_add_tuple, added. apply wp_bind.
  eapply wp_mono; [by apply new_entry_spec|]. intros [a|] m1 H1.
  - apply wp_bind. eapply wp_mono; [by apply (owns_ref m0 t)|]. intros [] m2 H2. apply wp_ret.
    split; [by apply holds_link|by eauto 10].
  - apply wp_ret. eauto.
Qed.

Lemma add_mp_spec p data m0 bs ts m :
  holds m0 (pt_entries p) bs ts m -> data <> [] ->
  wp (port_c_add_mp p data) (fun r m' => holds m0 (pt_entries r.2) bs ts m' /\
    added p (fun x => exists a, x = C_mp a data) r) m.
Proof.
  intros Hh Hd. unfold port_c_add_mp, added. apply wp_bind, wp_assert.
  split; [apply Z.ltb_lt; destruct data; [done|rewrite length_cons; lia]|]. apply wp_bind.
  eapply wp_mono; [by apply owns_alloc|]. intros [dst|] m1 H1; [|apply wp_ret; eauto].
  apply wp_bind. eapply wp_mono; [by apply new_entry_spec|]. intros [a|] m2 H2.
  - apply wp_ret. split; [apply holds_link|by eauto 10].
    eapply owns_perm; [exact H2|unfold entry_blocks; cbn [pe_content pe_addr]|done].
    unfold addr_blocks. solve_Permutation.
  - apply wp_bind. eapply wp_mono; [by apply owns_free|]. intros [] m3 H3. apply wp_ret. eauto.
Qed.

(** ** Properties *)

(** A sequence of additions; what fails to be added is left out. *)
Inductive port_add := A_tuple (t : Z) | A_mp (data : list Z).

Fixpoint add_all (adds : list port_add) p : mprog port_c :=
  match adds with
  | [] => mret p
  | A_tuple t :: adds => r ← port_c_add_tuple p t; add_all adds r.2
  | A_mp data :: adds => r ← port_c_add_mp p data; add_all adds r.2
  end.

Definition add_ok (a : port_add) : Prop := match a with A_mp data => data <> [] | A_tuple _ => True end.

Lemma add_all_spec adds p m0 m :
  holds m0 (pt_entries p) [] [] m -> Forall add_ok adds ->
  wp (add_all adds p) (fun p' m' => holds m0 (pt_entries p') [] [] m') m.
Proof.
  intros Hh Ha. revert p m Hh. induction adds as [|[t|data] adds IH]; intros p m Hh; cbn.
  - by apply wp_ret.
  - apply Forall_cons in Ha as [_ Ha]. apply wp_bind. eapply wp_mono; [by apply add_tuple_spec|].
    intros r m' [Hr _]. by apply IH.
  - apply Forall_cons in Ha as [Hd Ha]. apply wp_bind. eapply wp_mono; [by apply add_mp_spec|].
    intros r m' [Hr _]. by apply IH.
Qed.

(** a port gives back all it took.  Whatever tuples and MessagePack are
    added to a port, and whichever of the allocations fail on the way,
    destroying it frees every block exactly once, from the allocator it came
    from, and drops every reference it has taken: the live blocks and the
    references are those from before the port was created. *)
Theorem port_c_balanced adds m :
  mem_ok m -> Forall add_ok adds ->
  wp (p ← add_all adds port_c_create; port_c_destroy p)
     (fun _ m' => m_live m' = m_live m /\ m_refs m' = m_refs m) m.
Proof.
  intros Hm Ha. apply wp_bind. eapply wp_mono; [apply add_all_spec; [by apply owns_nil|done]|].
  intros p m1 Hp. eapply wp_mono; [apply (destroy_spec m _ [] []), Hp|]. intros [] m2. apply owns_nothing.
Qed.

(** The second allocation and the fifth one fail. *)
Lemma port_c_balanced_witness :
  let m := mk_mem 1 ∅ ∅ [false; true; false; false; true] in
  wp (p ← add_all [A_tuple 7; A_mp [1; 2]; A_mp [3; 4]; A_tuple 7; A_tuple 8] port_c_create;
      port_c_destroy p) (fun _ m' => m_live m' = m_live m /\ m_refs m' = m_refs m) m.
Proof.
  apply port_c_balanced; [intros b Hb; by apply elem_of_empty in Hb|].
  apply Forall_forall. intros [|d] Hd; [done|]. intros ->. set_solver.
Defined.

(** ** Dumping *)

Section DumpSpec.
Context {O : Type} `{ObufLaws O}.
Context (tuple_data : Z -> list Z) (mp_encode_array : Z -> list Z).

Definition content_data (c : port_content) : list Z :=
  match c with C_tuple t => tuple_data t | C_mp _ data => data end.
Definition port_data es : list Z := concat ((fun pe => content_data (pe_content pe)) <$> es).

Lemma dump_entries_app es (o o' : O) :
  dump_entries tuple_data es o = (true, o') ->
  concat (obuf_iov o') = concat (obuf_iov o) ++ port_data es.
Proof.
  unfold port_data. revert o. induction es as [|pe es IH]; intros o E; cbn in *.
  { injection E as <-. by rewrite app_nil_r. }
  change (match pe_content pe with C_tuple t => tuple_data t | C_mp _ data => data end)
    with (content_data (pe_content pe)) in E.
  destruct (obuf_dup _ o) as [n o1] eqn:Ed. destruct (Z.eqb_spec n (Z.of_nat (length (content_data (pe_content pe))))); [|done].
  subst n. apply IH in E. rewrite E, (obuf_dup_app _ _ _ Ed). by rewrite <- app_assoc.
Qed.

(** The answer of a port is the header of an array and the data of its entries
    in their order. *)
Lemma port_dump_spec p (o o' : O) n :
  0 <= pt_size p -> port_c_dump_msgpack tuple_data mp_encode_array p o = (n, o') -> 0 <= n ->
  n = 1 /\ concat (obuf_iov o') =
    concat (obuf_iov o) ++ mp_encode_array (pt_size p) ++ port_data (pt_entries p).
Proof.
  intros Hp E Hn. unfold port_c_dump_msgpack, port_c_dump_msgpack_16 in E.
  destruct (obuf_alloc _ o) as [o1|] eqn:Ea; [|injection E as <- <-; lia].
  destruct (dump_entries tuple_data (pt_entries p) o1) as [[] o2] eqn:Ed.
  - replace (pt_size p <? 0) with false in E by lia. injection E as <- <-. split; [done|].
    rewrite (dump_entries_app _ _ _ Ed), (obuf_alloc_app _ _ _ Ea). by rewrite <- app_assoc.
  - injection E as <- <-. lia.
Qed.
End DumpSpec.
