(* ===== verification/BindingBox.v ===== *)
(** * Requests of the binding to the box (binding/native/src/binding_box.c)

    Every function of binding_box.c that a message can run: it calls the box
    and copies the result to memory that the Dart side owns and frees with
    tarantool_tuple_free.  Results that are a list of tuples go through a port
    and an output buffer, both of which are used again by the next request.

    The box is the interface [BoxApi]: the calls of box.h and index.h that the
    binding makes, with the state of the database, and its iterators.  The loop
    of box_select over an iterator is a definition here.  Tuples and iterators
    are named by their addresses; data are lists of bytes. *)

From S2P Require Import Prelude Port.

Open Scope Z_scope.

Abbreviation data := (list Z).

(** ** The box *)

(** box_lua_call and box_lua_eval: when they fail the output port is not
    created or already destroyed; otherwise port_get_msgpack gives its content
    or NULL. *)
Inductive lua_result := Lua_failed | Lua_done (msgpack : option data).

Class BoxApi (B : Type) := {
  tuple_data : Z -> data;
  box_replace : Z -> data -> B -> Z * option Z * B;
  box_insert : Z -> data -> B -> Z * option Z * B;
  box_delete : Z -> Z -> data -> B -> Z * option Z * B;
  box_update : Z -> Z -> data -> data -> Z -> B -> Z * option Z * B;
  box_upsert : Z -> Z -> data -> data -> Z -> B -> Z * option Z * B;
  box_index_get : Z -> Z -> data -> B -> Z * option Z * B;
  box_index_min : Z -> Z -> data -> B -> Z * option Z * B;
  box_index_max : Z -> Z -> data -> B -> Z * option Z * B;
  box_index_count : Z -> Z -> Z -> data -> B -> Z * B;
  box_index_len : Z -> Z -> B -> Z * B;
  box_truncate : Z -> B -> Z * B;
  box_space_id_by_name : data -> B -> Z;
  box_index_id_by_name : Z -> data -> B -> Z;
  box_index_iterator : Z -> Z -> Z -> data -> B -> Z * B;
  (** box_select up to index_create_iterator: no iterator on an error. *)
  select_iterator : Z -> Z -> Z -> data -> B -> option Z * B;
  iterator_next : Z -> B -> Z * option Z * B;
  iterator_delete : Z -> B -> B;
  (** txn_commit_ro_stmt or txn_rollback_stmt. *)
  end_ro_stmt : bool -> B -> B;
  box_lua_eval : data -> data -> B -> lua_result * B;
  box_lua_call : data -> data -> B -> lua_result * B;
  box_is_ro : B -> bool;
  box_txn : B -> bool;
}.

Definition BOX_ID_NIL : Z := 2147483647.
Definition TARANTOOL_PRIMARY_INDEX_ID : Z := 0.
Definition TARANTOOL_INDEX_BASE_C : Z := 0.

(** ** Requests (binding_box.h) *)

Record tarantool_space_id_request := { sid_name : data }.
Record tarantool_space_request := { sr_space_id : Z; sr_tuple : data }.
Record tarantool_space_count_request := { sc_space_id : Z; sc_iterator_type : Z; sc_key : data }.
Record tarantool_space_select_request := {
  ss_space_id : Z; ss_key : data; ss_offset : Z; ss_limit : Z; ss_iterator_type : Z }.
Record tarantool_space_update_request := { su_space_id : Z; su_key : data; su_operations : data }.
Record tarantool_space_upsert_request := { sp_space_id : Z; sp_tuple : data; sp_operations : data }.
Record tarantool_space_iterator_request := { si_space_id : Z; si_type : Z; si_key : data }.
Record tarantool_iterator_next_request := { in_iterator : Z; in_count : Z }.
Record tarantool_index_request := { ir_space_id : Z; ir_index_id : Z; ir_tuple : data }.
Record tarantool_index_count_request := {
  ic_space_id : Z; ic_index_id : Z; ic_key : data; ic_iterator_type : Z }.
Record tarantool_index_id_request := { iid_space_id : Z; iid_name : data }.
Record tarantool_index_update_request := {
  iu_space_id : Z; iu_index_id : Z; iu_key : data; iu_operations : data }.
Record tarantool_call_request := { ca_function : data; ca_input : data }.
Record tarantool_evaluate_request := { ev_expression : data; ev_input : data }.
Record tarantool_index_iterator_request := {
  ii_space_id : Z; ii_index_id : Z; ii_type : Z; ii_key : data }.
Record tarantool_index_select_request := {
  is_space_id : Z; is_index_id : Z; is_key : data; is_offset : Z; is_limit : Z;
  is_iterator_type : Z }.
Record tarantool_index_id := { ix_space_id : Z; ix_index_id : Z }.

(** A tuple that the Dart side owns: the addresses of the structure and of its
    data, the data, and the size. *)
Record tarantool_tuple := mk_tuple { tu_addr : Z; tu_data_addr : Z; tu_data : data; tu_size : Z }.

(** ** The functions *)

Section BindingBox.
Context {B O : Type} `{BoxApi B} `{Obuf O}.
(** mp_encode_array of the library msgpuck. *)
Context (mp_encode_array : Z -> list Z).

(** The database, the static output_buffer and the memory. *)
Record binding := mk_binding { g_box : B; g_out : O; g_mem : mem }.
#[export] Instance binding_rebuild : Rebuild binding :=
  fun g => mk_binding (g_box g) (g_out g) (g_mem g).
Abbreviation gprog := (prog binding).

Definition on_box {A} (f : B -> A * B) : gprog A := fun g =>
  let '(a, b) := f (g_box g) in Done (a, g <| g_box := b |>).
Definition on_out {A} (f : O -> A * O) : gprog A := fun g =>
  let '(a, o) := f (g_out g) in Done (a, g <| g_out := o |>).
Definition on_mem {A} (c : mprog A) : gprog A := fun g =>
  match c (g_mem g) with
  | Done (a, m) => Done (a, g <| g_mem := m |>)
  | Abort => Abort
  end.

Definition tarantool_tuple_new (a : Z) (d : data) (size : Z) : gprog (option tarantool_tuple) :=
  s ← on_mem (alloc Heap);
  mret (match s with Some s => Some (mk_tuple s a d size) | None => None end).

(** malloc, whose result the callers do not test: the copy that follows goes
    to a null pointer when it has failed. *)
Definition malloc_for_copy : gprog Z :=
  a ← on_mem (alloc Heap); match a with Some a => mret a | None => abort end.

Definition tarantool_tuple_from_box (source : option Z) : gprog (option tarantool_tuple) :=
  match source with
  | None => mret None
  | Some t =>
      a ← malloc_for_copy;
      tarantool_tuple_new a (tuple_data t) (Z.of_nat (length (tuple_data t)))
  end.

(** memcpy of the vectors one after the other; [position] is an int. *)
Fixpoint gather (iov : list data) (position : Z) (buffer : data) : gprog data :=
  match iov with
  | [] => mret buffer
  | d :: iov =>
      let len := Z.of_nat (length d) in
      assert (fun _ => (0 <=? position) && (position + len <=? Z.of_nat (length buffer)));;
      gather iov (i32 (position + len))
        (take (Z.to_nat position) buffer ++ d ++ drop (Z.to_nat (position + len)) buffer)
  end.

Definition tarantool_tuple_from_port (source : port_c) : gprog (option tarantool_tuple) :=
  count ← on_out (port_c_dump_msgpack tuple_data mp_encode_array source);
  on_mem (port_c_destroy source);;
  if count <? 0 then on_out (fun o => (tt, obuf_reset o));; mret None
  else
    o ← gets g_out;
    let result_size := obuf_size o in
    a ← malloc_for_copy;
    d ← gather (obuf_iov o) 0 (repeat 0 (Z.to_nat result_size));
    on_out (fun o => (tt, obuf_reset o));;
    tarantool_tuple_new a d result_size.

Definition lua_answer (r : lua_result) : gprog (option tarantool_tuple) :=
  match r with
  | Lua_done (Some result) =>
      a ← malloc_for_copy; tarantool_tuple_new a result (Z.of_nat (length result))
  | _ => abort
  end.

Definition tarantool_evaluate (request : tarantool_evaluate_request)
    : gprog (option tarantool_tuple) :=
  r ← on_box (box_lua_eval (ev_expression request) (ev_input request)); lua_answer r.
Definition tarantool_call (request : tarantool_call_request) : gprog (option tarantool_tuple) :=
  r ← on_box (box_lua_call (ca_function request) (ca_input request)); lua_answer r.

Definition tarantool_is_read_only : gprog Z := gets (fun g => if box_is_ro (g_box g) then 1 else 0).
Definition tarantool_in_transaction : gprog Z := gets (fun g => if box_txn (g_box g) then 1 else 0).

(** The common end of the requests for one tuple. *)
Definition box_answer (call : B -> Z * option Z * B) : gprog (option tarantool_tuple) :=
  '(rc, result) ← on_box call;
  if rc <? 0 then mret None else tarantool_tuple_from_box result.

(** A ssize_t returned as uint64_t. *)
Definition tarantool_space_count (request : tarantool_space_count_request) : gprog Z :=
  n ← on_box (box_index_count (sc_space_id request) TARANTOOL_PRIMARY_INDEX_ID
                (sc_iterator_type request) (sc_key request));
  mret (u64 n).
Definition tarantool_space_length (id : Z) : gprog Z :=
  n ← on_box (box_index_len id TARANTOOL_PRIMARY_INDEX_ID); mret (u64 n).
Definition tarantool_space_iterator (request : tarantool_space_iterator_request) : gprog Z :=
  on_box (box_index_iterator (si_space_id request) TARANTOOL_PRIMARY_INDEX_ID (si_type request)
            (si_key request)).

Definition tarantool_space_put (request : tarantool_space_request) :=
  box_answer (box_replace (sr_space_id request) (sr_tuple request)).
Definition tarantool_space_insert (request : tarantool_space_request) :=
  box_answer (box_insert (sr_space_id request) (sr_tuple request)).
Definition tarantool_space_update (request : tarantool_space_update_request) :=
  box_answer (box_update (su_space_id request) TARANTOOL_PRIMARY_INDEX_ID (su_key request)
                (su_operations request) TARANTOOL_INDEX_BASE_C).
Definition tarantool_space_upsert (request : tarantool_space_upsert_request) :=
  box_answer (box_upsert (sp_space_id request) TARANTOOL_PRIMARY_INDEX_ID (sp_tuple request)
                (sp_operations request) TARANTOOL_INDEX_BASE_C).
Definition tarantool_space_get (request : tarantool_space_request) :=
  box_answer (box_index_get (sr_space_id request) TARANTOOL_PRIMARY_INDEX_ID (sr_tuple request)).
Definition tarantool_space_min (request : tarantool_space_request) :=
  box_answer (box_index_min (sr_space_id request) TARANTOOL_PRIMARY_INDEX_ID (sr_tuple request)).
Definition tarantool_space_max (request : tarantool_space_request) :=
  box_answer (box_index_max (sr_space_id request) TARANTOOL_PRIMARY_INDEX_ID (sr_tuple request)).
Definition tarantool_space_delete (request : tarantool_space_request) :=
  box_answer (box_delete (sr_space_id request) TARANTOOL_PRIMARY_INDEX_ID (sr_tuple request)).
Definition tarantool_space_truncate (id : Z) : gprog unit := _ ← on_box (box_truncate id); skip.
Definition tarantool_space_id_by_name (request : tarantool_space_id_request) : gprog Z :=
  gets (fun g => box_space_id_by_name (sid_name request) (g_box g)).
Definition tarantool_has_space (request : tarantool_space_id_request) : gprog Z :=
  id ← tarantool_space_id_by_name request; mret (if negb (id =? BOX_ID_NIL) then 1 else 0).

(** ** box_select (src/box/box.cc)

    The loop over the iterator.  Every turn takes one off [offset] or adds one
    to [found], so the sum of the offset and the limit bounds their number. *)
Fixpoint select_loop (fuel : nat) (it found offset limit : Z) (p : port_c) : gprog (Z * port_c) :=
  if found <? limit then
    match fuel with
    | 0%nat => abort
    | S fuel =>
        '(rc, tuple) ← on_box (iterator_next it);
        match tuple with
        | Some t =>
            if negb (rc =? 0) then mret (rc, p)
            else if 0 <? offset then select_loop fuel it found (offset - 1) limit p
            else
              '(rc, p) ← on_mem (port_c_add_tuple p t);
              if negb (rc =? 0) then mret (rc, p)
              else select_loop fuel it (u32 (found + 1)) offset limit p
        | None => mret (rc, p)
        end
    end
  else mret (0, p).

Definition box_select (space_id index_id iterator offset limit : Z) (key : data)
    : gprog (Z * port_c) :=
  o ← on_box (select_iterator space_id index_id iterator key);
  match o with
  | None => mret (-1, port_c_create)
  | Some it =>
      '(rc, p) ← select_loop (Z.to_nat (offset + limit)) it 0 offset limit port_c_create;
      on_box (fun b => (tt, iterator_delete it b));;
      if negb (rc =? 0) then
        on_mem (port_c_destroy p);; on_box (fun b => (tt, end_ro_stmt false b));; mret (-1, p)
      else on_box (fun b => (tt, end_ro_stmt true b));; mret (0, p)
  end.

Definition select_answer (call : gprog (Z * port_c)) : gprog (option tarantool_tuple) :=
  '(rc, port) ← call;
  if rc <? 0 then mret None else tarantool_tuple_from_port port.

Definition tarantool_space_select (request : tarantool_space_select_request) :=
  select_answer (box_select (ss_space_id request) TARANTOOL_PRIMARY_INDEX_ID
    (ss_iterator_type request) (ss_offset request) (ss_limit request) (ss_key request)).

(** ** Indexes *)

Definition tarantool_index_iterator (request : tarantool_index_iterator_request) : gprog Z :=
  on_box (box_index_iterator (ii_space_id request) (ii_index_id request) (ii_type request)
            (ii_key request)).
Definition tarantool_index_count (request : tarantool_index_count_request) : gprog Z :=
  n ← on_box (box_index_count (ic_space_id request) (ic_index_id request)
                (ic_iterator_type request) (ic_key request));
  mret (u64 n).
Definition tarantool_index_length (id : tarantool_index_id) : gprog Z :=
  n ← on_box (box_index_len (ix_space_id id) (ix_index_id id)); mret (u64 n).
Definition tarantool_index_id_by_name (request : tarantool_index_id_request) : gprog Z :=
  gets (fun g => box_index_id_by_name (iid_space_id request) (iid_name request) (g_box g)).
Definition tarantool_has_index (request : tarantool_index_id_request) : gprog Z :=
  id ← tarantool_index_id_by_name request; mret (if negb (id =? BOX_ID_NIL) then 1 else 0).
Definition tarantool_index_get (request : tarantool_index_request) :=
  box_answer (box_index_get (ir_space_id request) (ir_index_id request) (ir_tuple request)).
Definition tarantool_index_min (request : tarantool_index_request) :=
  box_answer (box_index_min (ir_space_id request) (ir_index_id request) (ir_tuple request)).
Definition tarantool_index_max (request : tarantool_index_request) :=
  box_answer (box_index_max (ir_space_id request) (ir_index_id request) (ir_tuple request)).
Definition tarantool_index_select (request : tarantool_index_select_request) :=
  select_answer (box_select (is_space_id request) (is_index_id request)
    (is_iterator_type request) (is_offset request) (is_limit request) (is_key request)).
Definition tarantool_index_update (request : tarantool_index_update_request) :=
  box_answer (box_update (iu_space_id request) (iu_index_id request) (iu_key request)
                (iu_operations request) TARANTOOL_INDEX_BASE_C).

(** ** Iterators *)

(** src/box/index.cc. *)
Definition box_iterator_next (it : Z) (b : B) : Z * option Z * B :=
  let '(rc, tuple, b) := iterator_next it b in (if negb (rc =? 0) then -1 else 0, tuple, b).

(** The loop of tarantool_iterator_next: [None] when it returns NULL.  The
    comparison of [found] with the int count is unsigned. *)
Fixpoint next_loop (fuel : nat) (it found count : Z) (p : port_c) : gprog (option port_c) :=
  if found <? u32 count then
    match fuel with
    | 0%nat => abort
    | S fuel =>
        '(rc, tuple) ← on_box (box_iterator_next it);
        match (if rc <? 0 then None else tuple) with
        | None => on_mem (port_c_destroy p);; mret None
        | Some t =>
            '(rc, p) ← on_mem (port_c_add_tuple p t);
            if negb (rc =? 0) then on_mem (port_c_destroy p);; mret None
            else next_loop fuel it (u32 (found + 1)) count p
        end
    end
  else mret (Some p).

Definition tarantool_iterator_next (request : tarantool_iterator_next_request)
    : gprog (option tarantool_tuple) :=
  o ← next_loop (Z.to_nat (u32 (in_count request))) (in_iterator request) 0 (in_count request)
        port_c_create;
  match o with None => mret None | Some port => tarantool_tuple_from_port port end.

Definition tarantool_iterator_destroy (iterator : Z) : gprog unit :=
  on_box (fun b => (tt, iterator_delete iterator b)).

Definition tarantool_tuple_free (tuple : tarantool_tuple) : gprog unit :=
  on_mem (free Heap (tu_data_addr tuple));; on_mem (free Heap (tu_addr tuple)).
End BindingBox.
