(* ===== verification/BindingSafety.v ===== *)
(** * Correctness of the requests of the binding

    What a request leaves in memory and in the output buffer, and what the
    requests for several tuples answer. *)

From S2P Require Import Prelude Port BindingBox.

Open Scope Z_scope.

Section Resources.
Context {B O : Type} `{BoxApi B} `{ObufLaws O}.
Context (mp_encode_array : Z -> list Z).
Abbreviation binding := (@binding B O).
Abbreviation gprog := (prog binding).
Implicit Types (g : binding) (p : port_c) (t : tarantool_tuple).

(** ** Lifting *)

Lemma wlp_on_mem {A} (c : mprog A) (Q : A -> binding -> Prop) g :
  wlp c (fun a m => Q a (g <| g_mem := m |>)) (g_mem g) -> wlp (on_mem c) Q g.
Proof. unfold wlp, on_mem. by destruct (c (g_mem g)) as [[a m]|]. Qed.

Lemma wlp_on_box {A} (f : B -> A * B) (Q : A -> binding -> Prop) g :
  (forall a b, f (g_box g) = (a, b) -> Q a (g <| g_box := b |>)) -> wlp (on_box f) Q g.
Proof. intros HQ. unfold wlp, on_box. destruct (f (g_box g)) as [a b] eqn:E. by apply HQ. Qed.

Lemma wlp_on_out {A} (f : O -> A * O) (Q : A -> binding -> Prop) g :
  (forall a o, f (g_out g) = (a, o) -> Q a (g <| g_out := o |>)) -> wlp (on_out f) Q g.
Proof. intros HQ. unfold wlp, on_out. destruct (f (g_out g)) as [a o] eqn:E. by apply HQ. Qed.

(** ** The state during a request *)

Definition out_empty g : Prop := concat (obuf_iov (g_out g)) = [].

(** The output buffer is empty, and the memory is [m0] with a port and other
    blocks. *)
Definition working m0 es bs g : Prop := out_empty g /\ holds m0 es bs [] (g_mem g).

Lemma working_box m0 es bs g b : working m0 es bs g -> working m0 es bs (g <| g_box := b |>).
Proof. done. Qed.

Lemma working_new g : mem_ok (g_mem g) -> out_empty g -> working (g_mem g) [] [] g.
Proof. intros Hm Ho. split; [done|]. by apply owns_nil. Qed.

Lemma working_mem {A} (c : mprog A) m0 es bs g es' bs' :
  working m0 es bs g ->
  (forall m, holds m0 es bs [] m -> wp c (fun a => holds m0 (es' a) (bs' a) []) m) ->
  wlp (on_mem c) (fun a => working m0 (es' a) (bs' a)) g.
Proof.
  intros [Ho Hm] Hc. apply wlp_on_mem, wp_wlp. eapply wp_mono; [by apply Hc|]. by split.
Qed.

Lemma malloc_for_copy_spec m0 es bs g :
  working m0 es bs g ->
  wlp malloc_for_copy (fun a => working m0 es ((Heap, a) :: bs)) g.
Proof.
  intros Hg. unfold malloc_for_copy. apply wlp_bind, wlp_on_mem, wp_wlp.
  eapply wp_mono; [apply owns_alloc, Hg|]. intros [a|] m Hm; [|apply wlp_abort].
  apply wlp_ret. split; [apply Hg|]. eapply owns_perm; [exact Hm| |done]. solve_Permutation.
Qed.

(** What a request leaves behind: an empty output buffer, and the memory with
    the two blocks of the answer; without an answer at most one block. *)
Definition tuple_blocks t : list block := [(Heap, tu_addr t); (Heap, tu_data_addr t)].
Definition answered m0 (r : option tarantool_tuple) g : Prop :=
  match r with
  | Some t => working m0 [] (tuple_blocks t) g /\ tu_size t = Z.of_nat (length (tu_data t))
  | None => exists bs, (length bs <= 1)%nat /\ working m0 [] bs g
  end.

Lemma tuple_new_spec m0 a d n g :
  working m0 [] [(Heap, a)] g -> n = Z.of_nat (length d) ->
  wlp (tarantool_tuple_new a d n) (answered m0) g.
Proof.
  intros Hg Hn. unfold tarantool_tuple_new. apply wlp_bind, wlp_on_mem, wp_wlp.
  eapply wp_mono; [apply owns_alloc, Hg|]. intros [s|] m Hm; apply wlp_ret.
  - split; [|done]. split; [apply Hg|done].
  - exists [(Heap, a)]. split; [done|]. split; [apply Hg|done].
Qed.

Lemma answered_none m0 g : working m0 [] [] g -> answered m0 None g.
Proof. intros Hg. exists []. split; [cbn; lia|done]. Qed.

Lemma tuple_from_box_spec m0 source g :
  working m0 [] [] g -> wlp (tarantool_tuple_from_box source) (answered m0) g.
Proof.
  intros Hg. destruct source as [t|]; [|by apply wlp_ret, answered_none].
  apply wlp_bind. eapply wlp_mono; [by apply malloc_for_copy_spec|].
  intros a g' Hg'. by apply tuple_new_spec.
Qed.

Lemma gather_length iov position buffer g :
  wlp (gather iov position buffer) (fun d g' => g' = g /\ length d = length buffer) g.
Proof.
  revert position buffer. induction iov as [|d iov IH]; intros position buffer; cbn [gather].
  { by apply wlp_ret. }
  apply wlp_bind, wlp_assert. intros [Hp Hl]%andb_true_iff.
  eapply wlp_mono; [apply IH|]. intros d' g' [-> ->]. split; [done|].
  rewrite !length_app, length_take, length_drop. lia.
Qed.

Lemma working_reset m0 bs g :
  holds m0 [] bs [] (g_mem g) ->
  wlp (on_out (fun o => (tt, obuf_reset o))) (fun _ => working m0 [] bs) g.
Proof. intros Hm. apply wlp_on_out. intros [] o [= <-]. split; [apply obuf_reset_empty|done]. Qed.

Lemma tuple_from_port_spec m0 p g :
  holds m0 (pt_entries p) [] [] (g_mem g) ->
  wlp (tarantool_tuple_from_port mp_encode_array p) (answered m0) g.
Proof.
  intros Hm. unfold tarantool_tuple_from_port. apply wlp_bind, wlp_on_out. intros count o Hd.
  apply wlp_bind, wlp_on_mem, wp_wlp. eapply wp_mono; [by apply (destroy_spec m0)|]. cbn.
  intros [] m1 Hm1. destruct (count <? 0).
  { apply wlp_bind. eapply wlp_mono; [by apply (working_reset m0 [])|]. intros [] g' Hg'.
    by apply wlp_ret, answered_none. }
  apply wlp_bind, wlp_gets. cbn [g_out g_mem update]. apply wlp_bind. unfold malloc_for_copy.
  apply wlp_bind, wlp_on_mem, wp_wlp. eapply wp_mono; [apply owns_alloc, Hm1|].
  intros [a|] m2 Hm2; [|apply wlp_abort]. apply wlp_ret, wlp_bind.
  eapply wlp_mono; [apply gather_length|]. intros d g' [-> Hl]. apply wlp_bind.
  eapply wlp_mono; [by apply (working_reset m0 [(Heap, a)])|]. intros [] g' Hg'.
  apply tuple_new_spec; [done|]. rewrite Hl, repeat_length, obuf_size_iov. lia.
Qed.

(** ** The requests *)

Lemma box_answer_spec m0 (call : B -> Z * option Z * B) g :
  working m0 [] [] g -> wlp (box_answer call) (answered m0) g.
Proof.
  intros Hg. unfold box_answer. apply wlp_bind, wlp_on_box. intros [rc result] b _.
  destruct (rc <? 0); [by apply wlp_ret, answered_none|by apply tuple_from_box_spec].
Qed.

Lemma lua_answer_spec m0 r g : working m0 [] [] g -> wlp (lua_answer r) (answered m0) g.
Proof.
  intros Hg. destruct r as [|[result|]]; try apply wlp_abort.
  apply wlp_bind. eapply wlp_mono; [by apply malloc_for_copy_spec|]. intros a g' Hg'.
  by apply tuple_new_spec.
Qed.

Lemma select_loop_spec m0 fuel it found offset limit p g :
  working m0 (pt_entries p) [] g ->
  wlp (select_loop fuel it found offset limit p) (fun r => working m0 (pt_entries r.2) []) g.
Proof.
  revert found offset p g. induction fuel as [|fuel IH]; intros found offset p g Hg; cbn [select_loop];
    (destruct (found <? limit); [|by apply wlp_ret]); [apply wlp_abort|].
  apply wlp_bind, wlp_on_box. intros [rc [t|]] b _; [|by apply wlp_ret].
  destruct (negb (rc =? 0)); [by apply wlp_ret|]. destruct (0 <? offset); [by apply IH|].
  apply wlp_bind. eapply wlp_mono.
  { eapply (working_mem _ m0 _ _ _ (fun r => pt_entries r.2) (fun _ => [])); [done|].
    intros m Hm. eapply wp_mono; [by apply add_tuple_spec|]. by intros r m' [Hr _]. }
  intros [rc' p'] g' Hg'. destruct (negb (rc' =? 0)); [by apply wlp_ret|by apply IH].
Qed.

Lemma working_destroy m0 p g :
  working m0 (pt_entries p) [] g ->
  wlp (on_mem (port_c_destroy p)) (fun _ => working m0 [] []) g.
Proof.
  intros Hg. eapply (working_mem _ m0 _ _ _ (fun _ => []) (fun _ => [])); [done|].
  intros m Hm. by apply (destroy_spec m0 (pt_entries p) [] []).
Qed.

Lemma select_answer_spec m0 space_id index_id iterator offset limit key g :
  working m0 [] [] g ->
  wlp (select_answer mp_encode_array (box_select space_id index_id iterator offset limit key))
    (answered m0) g.
Proof.
  intros Hg. unfold select_answer, box_select. apply wlp_bind, wlp_bind, wlp_on_box. intros [it|] b _.
  2: { apply wlp_ret. by apply (proj2 (wlp_ret None (answered m0) _)), answered_none. }
  apply wlp_bind. eapply wlp_mono; [by apply (select_loop_spec m0)|]. intros [rc p] g1 Hg1.
  apply wlp_bind, wlp_on_box. intros [] b1 _. destruct (negb (rc =? 0)).
  - apply wlp_bind. eapply wlp_mono; [by apply (working_destroy m0 p)|]. intros [] g2 Hg2.
    apply wlp_bind, wlp_on_box. intros [] b2 _. apply wlp_ret.
    by apply (proj2 (wlp_ret None (answered m0) _)), answered_none.
  - apply wlp_bind, wlp_on_box. intros [] b2 _. apply wlp_ret.
    apply (tuple_from_port_spec m0 p). apply Hg1.
Qed.

Lemma next_loop_spec m0 fuel it found count p g :
  working m0 (pt_entries p) [] g ->
  wlp (next_loop fuel it found count p) (fun o g' => match o with
    | Some p' => working m0 (pt_entries p') [] g'
    | None => working m0 [] [] g'
    end) g.
Proof.
  revert found p g. induction fuel as [|fuel IH]; intros found p g Hg; cbn [next_loop];
    (destruct (found <? u32 count); [|by apply wlp_ret]); [apply wlp_abort|].
  apply wlp_bind, wlp_on_box. intros [rc tuple] b _. destruct (if rc <? 0 then None else tuple) as [t|].
  2: { apply wlp_bind. eapply wlp_mono; [by apply (working_destroy m0 p)|]. intros [] g' Hg'. by apply wlp_ret. }
  apply wlp_bind. eapply wlp_mono.
  { eapply (working_mem _ m0 _ _ _ (fun r => pt_entries r.2) (fun _ => [])); [done|].
    intros m Hm. eapply wp_mono; [by apply add_tuple_spec|]. by intros r m' [Hr _]. }
  intros [rc' p'] g' Hg'. destruct (negb (rc' =? 0)); [|by apply IH].
  apply wlp_bind. eapply wlp_mono; [by apply (working_destroy m0 p')|]. intros [] g2 Hg2. by apply wlp_ret.
Qed.

Lemma iterator_next_spec m0 request g :
  working m0 [] [] g -> wlp (tarantool_iterator_next mp_encode_array request) (answered m0) g.
Proof.
  intros Hg. unfold tarantool_iterator_next. apply wlp_bind.
  eapply wlp_mono; [by apply (next_loop_spec m0)|]. intros [p|] g' Hg'.
  - apply tuple_from_port_spec, Hg'.
  - by apply wlp_ret, answered_none.
Qed.

(** The requests that are answered with a tuple. *)
Inductive request :=
| R_evaluate (r : tarantool_evaluate_request)
| R_call (r : tarantool_call_request)
| R_put (r : tarantool_space_request)
| R_insert (r : tarantool_space_request)
| R_update (r : tarantool_space_update_request)
| R_upsert (r : tarantool_space_upsert_request)
| R_get (r : tarantool_space_request)
| R_min (r : tarantool_space_request)
| R_max (r : tarantool_space_request)
| R_delete (r : tarantool_space_request)
| R_select (r : tarantool_space_select_request)
| R_index_get (r : tarantool_index_request)
| R_index_min (r : tarantool_index_request)
| R_index_max (r : tarantool_index_request)
| R_index_select (r : tarantool_index_select_request)
| R_index_update (r : tarantool_index_update_request)
| R_next (r : tarantool_iterator_next_request).

Definition run_request (rq : request) : gprog (option tarantool_tuple) :=
  match rq with
  | R_evaluate r => tarantool_evaluate r
  | R_call r => tarantool_call r
  | R_put r => tarantool_space_put r
  | R_insert r => tarantool_space_insert r
  | R_update r => tarantool_space_update r
  | R_upsert r => tarantool_space_upsert r
  | R_get r => tarantool_space_get r
  | R_min r => tarantool_space_min r
  | R_max r => tarantool_space_max r
  | R_delete r => tarantool_space_delete r
  | R_select r => tarantool_space_select mp_encode_array r
  | R_index_get r => tarantool_index_get r
  | R_index_min r => tarantool_index_min r
  | R_index_max r => tarantool_index_max r
  | R_index_select r => tarantool_index_select mp_encode_array r
  | R_index_update r => tarantool_index_update r
  | R_next r => tarantool_iterator_next mp_encode_array r
  end.

Lemma run_request_spec m0 rq g : working m0 [] [] g -> wlp (run_request rq) (answered m0) g.
Proof.
  intros Hg. destruct rq; cbn [run_request];
    try (by apply box_answer_spec); try (by apply select_answer_spec); try (by apply iterator_next_spec).
  all: apply wlp_bind, wlp_on_box; intros x b _; by apply lua_answer_spec.
Qed.

Lemma wp_on_mem {A} (c : mprog A) (Q : A -> binding -> Prop) g :
  wp c (fun a m => Q a (g <| g_mem := m |>)) (g_mem g) -> wp (on_mem c) Q g.
Proof. unfold wp, on_mem. by destruct (c (g_mem g)) as [[a m]|]. Qed.

Lemma tuple_free_spec m0 t g :
  holds m0 [] (tuple_blocks t) [] (g_mem g) ->
  wp (tarantool_tuple_free t) (fun _ g' => g_out g' = g_out g /\ owns m0 [] [] (g_mem g')) g.
Proof.
  intros Hh. unfold tarantool_tuple_free. apply wp_bind, wp_on_mem.
  eapply wp_mono; [apply (owns_free m0 Heap (tu_data_addr t) [(Heap, tu_addr t)] [])|].
  { eapply owns_perm; [exact Hh| |done]. unfold tuple_blocks. cbn. solve_Permutation. }
  intros [] m1 Hm1. apply wp_on_mem. eapply wp_mono; [by apply owns_free|]. by intros [] m2 Hm2.
Qed.

(** C27: what a request leaves behind. Whatever the box does and whichever
    allocations fail, a request that does not crash leaves the output buffer
    empty, all its ports destroyed and the references it took dropped. When it
    returns a tuple, the memory is as it was plus exactly the two new blocks
    of the tuple, whose size field is the length of its data, and
    tarantool_tuple_free of the answer gives them back. When it returns NULL,
    the memory is as it was except that at most one block can be lost
    (tarantool_tuple_new does not free the data when it fails,
    binding_box.c:51). *)
Theorem binding_request_balanced rq g :
  mem_ok (g_mem g) -> out_empty g ->
  wlp (run_request rq) (fun r g' => out_empty g' /\ m_refs (g_mem g') = m_refs (g_mem g) /\
    match r with
    | None => exists bs, (length bs <= 1)%nat /\ m_live (g_mem g') = list_to_set bs ∪ m_live (g_mem g)
    | Some t => tu_size t = Z.of_nat (length (tu_data t)) /\
        m_live (g_mem g') = list_to_set (tuple_blocks t) ∪ m_live (g_mem g) /\
        wp (tarantool_tuple_free t) (fun _ g2 =>
          out_empty g2 /\ m_live (g_mem g2) = m_live (g_mem g) /\ m_refs (g_mem g2) = m_refs (g_mem g)) g'
    end) g.
Proof.
  intros Hm Ho. eapply wlp_mono; [by apply run_request_spec, working_new|].
  intros [t|] g' Hr; cbn in Hr.
  - destruct Hr as [[Ho' Hh] Hs]. pose proof (ow_refs _ _ _ _ Hh) as Hrf. rewrite refs_nil in Hrf.
    split; [done|]. split; [done|]. split; [done|]. split; [apply (ow_live _ _ _ _ Hh)|].
    eapply wp_mono; [by apply tuple_free_spec|]. intros [] g2 [E Hf].
    split; [by unfold out_empty; rewrite E|]. by apply owns_nothing.
  - destruct Hr as (bs & Hl & Ho' & Hh). pose proof (ow_refs _ _ _ _ Hh) as Hrf. rewrite refs_nil in Hrf.
    split; [done|]. split; [done|]. exists bs. split; [done|]. apply (ow_live _ _ _ _ Hh).
Qed.
End Resources.

(** ** A small store

    One index with one iterator over a list of tuples, tuples of one byte, and
    an output buffer whose vectors are the pieces that were copied. *)

Module SmallStore.

Definition box : Type := list Z.

#[global] Instance small_box : BoxApi box := {
  tuple_data := fun t => [t];
  box_replace := fun _ d b => (0, head d, b);
  box_insert := fun _ d b => (0, head d, d ++ b);
  box_delete := fun _ _ _ b => (0, head b, tail b);
  box_update := fun _ _ _ _ _ b => (-1, None, b);
  box_upsert := fun _ _ _ _ _ b => (0, None, b);
  box_index_get := fun _ _ _ b => (0, None, b);
  box_index_min := fun _ _ _ b => (0, head b, b);
  box_index_max := fun _ _ _ b => (0, last b, b);
  box_index_count := fun _ _ _ _ b => (Z.of_nat (length b), b);
  box_index_len := fun _ _ b => (Z.of_nat (length b), b);
  box_truncate := fun _ _ => (0, []);
  box_space_id_by_name := fun _ _ => BOX_ID_NIL;
  box_index_id_by_name := fun _ _ _ => BOX_ID_NIL;
  box_index_iterator := fun _ _ _ _ b => (1, b);
  select_iterator := fun _ _ _ _ b => (Some 1, b);
  iterator_next := fun _ b => (0, head b, tail b);
  iterator_delete := fun _ b => b;
  end_ro_stmt := fun _ b => b;
  box_lua_eval := fun _ _ b => (Lua_failed, b);
  box_lua_call := fun _ d b => (Lua_done (Some d), b);
  box_is_ro := fun _ => false;
  box_txn := fun _ => false;
}.

Definition out : Type := list (list Z).

#[global] Instance small_obuf : Obuf out := {
  obuf_alloc := fun d o => Some (o ++ [d]);
  obuf_dup := fun d o => (Z.of_nat (length d), o ++ [d]);
  obuf_iov := fun o => o;
  obuf_size := fun o => Z.of_nat (length (concat o));
  obuf_reset := fun _ => [];
}.
#[global] Instance small_obuf_laws : ObufLaws out.
Proof.
  split; cbn; try done.
  - intros d o o' [= <-]. rewrite concat_app. cbn. by rewrite app_nil_r.
  - intros d o o' [= <-]. rewrite concat_app. cbn. by rewrite app_nil_r.
Qed.

(** A MessagePack fixarray. *)
Definition fixarray (n : Z) : list Z := [144 + n].

(** The box with five tuples. *)
Definition start (oom : list bool) : @binding box out :=
  mk_binding [1; 2; 3; 4; 5] [] (mk_mem 1 ∅ ∅ oom).
Lemma start_mem oom : mem_ok (g_mem (start oom)).
Proof. intros b Hb. by apply elem_of_empty in Hb. Qed.
Lemma start_out oom : out_empty (start oom).
Proof. reflexivity. Qed.
End SmallStore.

(** A select of which the third entry finds no memory is answered NULL. *)
Lemma binding_request_balanced_witness :
  let g := SmallStore.start [false; true] in
  let rq := R_select {| ss_space_id := 1; ss_key := []; ss_offset := 0; ss_limit := 9;
                        ss_iterator_type := 0 |} in
  exists g', run_request SmallStore.fixarray rq g = Done (None, g') /\ out_empty g' /\
    m_refs (g_mem g') = m_refs (g_mem g).
Proof.
  intros g rq. assert (exists g', run_request SmallStore.fixarray rq g = Done (None, g')) as [g' E]
    by (eexists; vm_compute; reflexivity).
  exists g'. split; [exact E|].
  destruct (wlp_Done _ _ _ _ _ (binding_request_balanced SmallStore.fixarray rq g
    (SmallStore.start_mem _) (SmallStore.start_out _)) E) as (Ho & Hr & _). by split.
Defined.
