(* ===== verification/BindingAnswers.v ===== *)
(** * What the requests for several tuples answer

    The answers of select and of iterator requests when memory does not run
    out, against the sequence of tuples the iterator of the box goes through. *)

From S2P Require Import Prelude Port BindingBox BindingSafety.

Open Scope Z_scope.

(** The tuples an iterator has still to return. *)
Class IterLaws (B : Type) `{BoxApi B} := {
  iter_rest : Z -> B -> list Z;
  iter_next : forall it b, exists b', iterator_next it b = (0, head (iter_rest it b), b') /\
    iter_rest it b' = tail (iter_rest it b);
}.

(** An output buffer that does not run out of memory. *)
Class ObufTotal (O : Type) `{Obuf O} := {
  obuf_alloc_total : forall d o, exists o', obuf_alloc d o = Some o';
  obuf_dup_total : forall d o, (obuf_dup d o).1 = Z.of_nat (length d);
}.

Section Answers.
Context {B O : Type} `{IterLaws B} `{!Obuf O, !ObufLaws O, !ObufTotal O}.
Context (mp_encode_array : Z -> list Z).
Abbreviation binding := (@binding B O).
Implicit Types (g : binding) (p : port_c) (t : tarantool_tuple) (ts dn : list Z) (m : mem).

Lemma wp_on_box {A} (f : B -> A * B) (Q : A -> binding -> Prop) g a b :
  f (g_box g) = (a, b) -> Q a (g <| g_box := b |>) -> wp (on_box f) Q g.
Proof. intros E HQ. unfold wp, on_box. by rewrite E. Qed.
Lemma wp_on_out {A} (f : O -> A * O) (Q : A -> binding -> Prop) g a o :
  f (g_out g) = (a, o) -> Q a (g <| g_out := o |>) -> wp (on_out f) Q g.
Proof. intros E HQ. unfold wp, on_out. by rewrite E. Qed.

(** ** Memory that does not run out *)

Definition plenty g : Prop := m_oom (g_mem g) = [].

Lemma alloc_plenty k m :
  m_oom m = [] -> wp (alloc k) (fun o m' => m_oom m' = [] /\ exists a, o = Some a) m.
Proof. intros E. unfold wp, alloc. rewrite E. cbn. rewrite E. eauto. Qed.

Lemma add_tuple_plenty p (x : Z) m :
  m_oom m = [] -> wp (port_c_add_tuple p x) (fun r m' => m_oom m' = [] /\
    exists a, r = (0, port_link p a (C_tuple x))) m.
Proof.
  intros E. unfold port_c_add_tuple, port_c_new_entry. destruct (pt_size p =? 0).
  - apply wp_bind, wp_ret, wp_bind, wp_modify, wp_ret. eauto.
  - apply wp_bind, wp_bind. eapply wp_mono; [by apply alloc_plenty|].
    intros ? m' [E' [a ->]]. apply wp_ret, wp_bind, wp_modify, wp_ret. eauto.
Qed.

Lemma destroy_plenty es : keeps (fun m m' => m_oom m' = m_oom m) (destroy_entries es).
Proof.
  assert (PreOrder (fun m m' : mem => m_oom m' = m_oom m)) as Hpre by (split; congruence).
  assert (forall k a, keeps (fun m m' => m_oom m' = m_oom m) (free k a)) as Hf
    by (intros k a; apply keeps_bind; [done|by apply keeps_assert|intros; by apply keeps_modify]).
  induction es as [|[addr [x|a d]] es IH]; cbn; [by apply keeps_skip|..];
    (apply keeps_bind; [done| |intros []; apply keeps_bind; [done|destruct addr; auto using keeps_skip|auto]]).
  - apply keeps_bind; [done|by apply keeps_assert|intros; by apply keeps_modify].
  - apply Hf.
Qed.

(** The port has the tuples [ts] in this order. *)
Definition contains p ts : Prop :=
  pe_content <$> pt_entries p = C_tuple <$> ts /\ pt_size p = Z.of_nat (length ts).

Lemma contains_link p ts a (x : Z) :
  contains p ts -> Z.of_nat (length ts) + 1 < 2 ^ 31 -> contains (port_link p a (C_tuple x)) (ts ++ [x]).
Proof.
  intros [Hc Hs] Hl. split; cbn.
  - by rewrite !fmap_app, Hc.
  - rewrite length_app, Hs. cbn. rewrite swrap_small by lia. lia.
Qed.

Lemma contains_data p ts : contains p ts -> port_data tuple_data (pt_entries p) = concat (tuple_data <$> ts).
Proof.
  intros [Hc _]. unfold port_data.
  change (fun pe => content_data tuple_data (pe_content pe))
    with (content_data tuple_data ∘ pe_content).
  by rewrite list_fmap_compose, Hc, <- list_fmap_compose.
Qed.

(** One turn of a loop that adds the tuple to the port. *)
Lemma add_step m0 p ts (x : Z) g :
  working m0 (pt_entries p) [] g -> plenty g -> contains p ts -> Z.of_nat (length ts) + 1 < 2 ^ 31 ->
  wp (on_mem (port_c_add_tuple p x)) (fun r g' => r.1 = 0 /\ contains r.2 (ts ++ [x]) /\
    working m0 (pt_entries r.2) [] g' /\ plenty g' /\ g_box g' = g_box g) g.
Proof.
  intros [Ho Hh] Hp Hc Hl. apply wp_on_mem.
  eapply wp_mono; [apply wp_and; [by apply add_tuple_spec|by apply add_tuple_plenty]|].
  intros r m' [[Hh' _] [Hp' [a ->]]]. cbn. split; [done|]. split; [by apply contains_link|].
  split; [by split|done].
Qed.

(** ** The loops *)

Lemma select_loop_answers m0 fuel it offset limit p dn g :
  working m0 (pt_entries p) [] g -> plenty g -> contains p dn ->
  0 <= offset -> Z.of_nat (length dn) <= limit < 2 ^ 31 ->
  offset + (limit - Z.of_nat (length dn)) <= Z.of_nat fuel ->
  wp (select_loop fuel it (Z.of_nat (length dn)) offset limit p) (fun r g' => r.1 = 0 /\
    working m0 (pt_entries r.2) [] g' /\ plenty g' /\
    contains r.2 (dn ++ take (Z.to_nat limit - length dn) (drop (Z.to_nat offset) (iter_rest it (g_box g))))) g.
Proof.
  revert offset p dn g. induction fuel as [|fuel IH]; intros offset p dn g Hg Hp Hc Ho Hl Hf;
    cbn [select_loop]; (destruct (Z.ltb_spec (Z.of_nat (length dn)) limit);
    [|apply wp_ret; replace (Z.to_nat limit - length dn)%nat with 0%nat by lia; cbn; by rewrite app_nil_r]).
  { lia. }
  destruct (iter_next it (g_box g)) as (b & Eb & Erest). apply wp_bind.
  eapply wp_on_box; [exact Eb|]. cbn. destruct (iter_rest it (g_box g)) as [|x ts]; cbn.
  { apply wp_ret. rewrite drop_nil, take_nil, app_nil_r. done. }
  cbn in Erest. destruct (Z.ltb_spec 0 offset).
  - eapply wp_mono; [apply IH; try done; lia|]. cbn. rewrite Erest.
    replace (Z.to_nat offset) with (S (Z.to_nat (offset - 1))) by lia. done.
  - replace offset with 0 by lia. cbn [drop Z.to_nat].
    apply wp_bind. eapply wp_mono; [apply (add_step m0 p dn); try done; lia|].
    intros [rc p'] g' (Erc & Hc' & Hg' & Hp' & Ebox). cbn in Erc, Hc', Hg'. subst rc. cbn.
    assert (u32 (Z.of_nat (length dn) + 1) = Z.of_nat (length (dn ++ [x]))) as Eu.
    { rewrite length_app, uwrap_small by lia. cbn. lia. }
    rewrite Eu. eapply wp_mono; [apply (IH 0 p' (dn ++ [x])); try done; rewrite ?length_app; cbn; lia|].
    cbn. intros r g2 (E1 & E2 & E3 & E4). rewrite Ebox in E4. cbn in E4. rewrite Erest in E4.
    split; [done|]. split; [done|]. split; [done|].
    rewrite <- app_assoc in E4. rewrite length_app in E4. cbn in E4. cbn [drop].
    replace (Z.to_nat limit - length dn)%nat with (S (Z.to_nat limit - (length dn + 1))) by lia.
    done.
Qed.

(** The vectors of the buffer one after the other. *)
Lemma gather_concat iov (front rest : data) g :
  length rest = length (concat iov) -> Z.of_nat (length front + length rest) < 2 ^ 31 ->
  wp (gather iov (Z.of_nat (length front)) (front ++ rest))
     (fun d g' => g' = g /\ d = front ++ concat iov) g.
Proof.
  revert front rest. induction iov as [|d iov IH]; intros front rest Hl Hb; cbn [gather].
  { apply wp_ret. destruct rest; [done|done]. }
  cbn in Hl. rewrite length_app in Hl. apply wp_bind, wp_assert. split.
  { rewrite length_app. apply andb_true_iff. split; apply Z.leb_le; lia. }
  rewrite Nat2Z.id, take_app_length, i32_small by lia.
  replace (Z.to_nat (Z.of_nat (length front) + Z.of_nat (length d))) with (length front + length d)%nat by lia.
  rewrite drop_app_add', app_assoc by done.
  replace (Z.of_nat (length front) + Z.of_nat (length d)) with (Z.of_nat (length (front ++ d)))
    by (rewrite length_app; lia).
  eapply wp_mono; [apply IH|].
  - rewrite length_drop. lia.
  - rewrite length_app, length_drop. lia.
  - intros d' g' [-> ->]. split; [done|]. cbn. by rewrite <- app_assoc.
Qed.

Lemma dump_total es (o : O) : exists o', dump_entries tuple_data es o = (true, o').
Proof.
  revert o. induction es as [|pe es IH]; intros o; cbn; [eauto|].
  set (d := match pe_content pe with C_tuple x => tuple_data x | C_mp _ d => d end).
  pose proof (obuf_dup_total d o) as Ed. destruct (obuf_dup d o) as [n o1]. cbn in Ed. subst n.
  rewrite Z.eqb_refl. apply IH.
Qed.

(** The answer to a request whose results are the tuples [ts]. *)
Definition answer ts : data := mp_encode_array (Z.of_nat (length ts)) ++ concat (tuple_data <$> ts).

Lemma tuple_from_port_answers m0 p ts g :
  working m0 (pt_entries p) [] g -> plenty g -> contains p ts ->
  Z.of_nat (length (answer ts)) < 2 ^ 31 ->
  wp (tarantool_tuple_from_port mp_encode_array p) (fun r g' =>
    exists t, r = Some t /\ tu_data t = answer ts /\ answered m0 r g') g.
Proof.
  intros [Ho Hh] Hp Hc Hl. pose proof (tuple_from_port_spec mp_encode_array m0 p g Hh) as Hw.
  destruct Hc as [Hcc Hcs].
  assert (wp (tarantool_tuple_from_port mp_encode_array p) (fun r _ =>
    exists t, r = Some t /\ tu_data t = answer ts) g) as Ht.
  2: { unfold wp, wlp in *. destruct (tarantool_tuple_from_port mp_encode_array p g) as [[r g']|]; [|done].
       destruct Ht as (t & -> & Et). eauto. }
  clear Hw. unfold tarantool_tuple_from_port. apply wp_bind.
  destruct (port_c_dump_msgpack tuple_data mp_encode_array p (g_out g)) as [n o] eqn:Ed.
  assert (0 <= n) as Hn.
  { unfold port_c_dump_msgpack, port_c_dump_msgpack_16 in Ed.
    destruct (obuf_alloc_total (mp_encode_array (pt_size p)) (g_out g)) as (o1 & E1). rewrite E1 in Ed.
    destruct (dump_total (pt_entries p) o1) as (o2 & E2). rewrite E2 in Ed.
    replace (pt_size p <? 0) with false in Ed by lia. injection Ed as <- <-. lia. }
  destruct (port_dump_spec _ _ p _ _ _ ltac:(lia) Ed Hn) as [-> Eo].
  rewrite Ho, (contains_data p ts) in Eo by done. cbn [app] in Eo. rewrite Hcs in Eo. fold (answer ts) in Eo.
  eapply wp_on_out; [exact Ed|]. apply wp_bind, wp_on_mem.
  destruct (proj1 (wp_total _ _ _) (destroy_spec m0 (pt_entries p) [] [] _ Hh)) as ([] & m1 & E1 & _).
  unfold wp at 1. unfold port_c_destroy. cbn [g_mem update]. rewrite E1.
  apply destroy_plenty in E1. rewrite Hp in E1. cbn [Z.ltb Z.compare].
  apply wp_bind, wp_gets. cbn [g_out update]. apply wp_bind. unfold malloc_for_copy.
  apply wp_bind, wp_on_mem. eapply wp_mono; [by apply alloc_plenty|]. intros o' m2 [E2 [a ->]].
  apply wp_ret, wp_bind. rewrite obuf_size_iov, Eo, Nat2Z.id.
  eapply wp_mono; [apply (gather_concat _ [] (repeat 0 (length (answer ts))))|].
  - by rewrite repeat_length, Eo.
  - rewrite repeat_length. cbn. lia.
  - cbn [app]. intros d g' [-> ->]. apply wp_bind. eapply wp_on_out; [done|].
    unfold tarantool_tuple_new. apply wp_bind, wp_on_mem. eapply wp_mono; [by apply alloc_plenty|].
    intros ? m3 [_ [s ->]]. apply wp_ret. eexists. split; [done|]. cbn. by rewrite Eo.
Qed.

Lemma box_select_answers m0 space_id index_id iterator offset limit key it b g :
  working m0 [] [] g -> plenty g -> 0 <= offset -> 0 <= limit < 2 ^ 31 ->
  select_iterator space_id index_id iterator key (g_box g) = (Some it, b) ->
  wp (box_select space_id index_id iterator offset limit key) (fun r g' => r.1 = 0 /\
    working m0 (pt_entries r.2) [] g' /\ plenty g' /\
    contains r.2 (take (Z.to_nat limit) (drop (Z.to_nat offset) (iter_rest it b)))) g.
Proof.
  intros Hg Hp Ho Hl Eit. unfold box_select. apply wp_bind. eapply wp_on_box; [exact Eit|].
  apply wp_bind. eapply wp_mono.
  { apply (select_loop_answers m0 _ it offset limit port_c_create []); try done; cbn; lia. }
  rewrite Nat.sub_0_r. cbn [g_box update app]. intros [rc p] g1 (Erc & Hg1 & Hp1 & Hc1).
  cbn in Erc, Hg1, Hc1. subst rc. apply wp_bind. eapply wp_on_box; [done|]. cbn [negb Z.eqb].
  apply wp_bind. eapply wp_on_box; [done|]. by apply wp_ret.
Qed.

(** C32: select answers with the tuples it is asked for, under these
    conditions: the box has made an iterator for the request, the iterator
    does not fail ([IterLaws]), neither memory nor the output buffer runs out,
    the limit is below 2^31 and the answer is shorter than 2 GiB (the vectors
    of the output buffer are put together at an int position, and beyond that
    the code writes before the buffer, binding_box.c:68). Then a select on an
    index is answered with a MessagePack array of the tuples of the iterator
    without the first [offset] and at most [limit] of them, in order; the
    answer is the bytes of this request alone and nothing is left in the
    output buffer. *)
Theorem binding_select_answers request it b g :
  mem_ok (g_mem g) -> out_empty g -> plenty g ->
  0 <= is_offset request -> 0 <= is_limit request < 2 ^ 31 ->
  select_iterator (is_space_id request) (is_index_id request) (is_iterator_type request)
    (is_key request) (g_box g) = (Some it, b) ->
  let ts := take (Z.to_nat (is_limit request)) (drop (Z.to_nat (is_offset request)) (iter_rest it b)) in
  Z.of_nat (length (answer ts)) < 2 ^ 31 ->
  wp (tarantool_index_select mp_encode_array request) (fun r g' =>
    exists t, r = Some t /\ tu_data t = answer ts /\ answered (g_mem g) r g') g.
Proof.
  intros Hm Ho Hp Hof Hl Eit ts Hb. unfold tarantool_index_select, select_answer. apply wp_bind.
  eapply wp_mono; [by apply (box_select_answers (g_mem g)); [apply working_new|..]|].
  intros [rc p] g' (Erc & Hg' & Hp' & Hc). cbn in Erc, Hc. subst rc. cbn [Z.ltb Z.compare].
  by apply tuple_from_port_answers.
Qed.

Lemma next_loop_answers m0 fuel it count p dn g :
  working m0 (pt_entries p) [] g -> plenty g -> contains p dn ->
  Z.of_nat (length dn) <= count < 2 ^ 31 -> count - Z.of_nat (length dn) <= Z.of_nat fuel ->
  wp (next_loop fuel it (Z.of_nat (length dn)) count p) (fun o g' =>
    let n := (Z.to_nat count - length dn)%nat in
    plenty g' /\ iter_rest it (g_box g') = drop n (iter_rest it (g_box g)) /\
    if decide (n <= length (iter_rest it (g_box g)))%nat
    then exists p', o = Some p' /\ working m0 (pt_entries p') [] g' /\
      contains p' (dn ++ take n (iter_rest it (g_box g)))
    else o = None /\ working m0 [] [] g') g.
Proof.
  revert p dn g. induction fuel as [|fuel IH]; intros p dn g Hg Hp Hc Hl Hf;
    cbn [next_loop]; rewrite uwrap_small by lia;
    (destruct (Z.ltb_spec (Z.of_nat (length dn)) count);
    [|apply wp_ret; replace (Z.to_nat count - length dn)%nat with 0%nat by lia; cbn;
      split; [done|]; split; [done|]; rewrite decide_True by lia; rewrite app_nil_r; eauto]).
  { lia. }
  destruct (iter_next it (g_box g)) as (b & Eb & Erest). apply wp_bind.
  eapply wp_on_box; [unfold box_iterator_next; by rewrite Eb|].
  assert (exists k, (Z.to_nat count - length dn)%nat = S k) as [k Ek]
    by (exists (Z.to_nat count - length dn - 1)%nat; lia).
  rewrite Ek.
  cbn [negb Z.eqb Z.ltb Z.compare]. destruct (iter_rest it (g_box g)) as [|x ts] eqn:Er; cbn [head tail] in *.
  { apply wp_bind. pose proof (destroy_spec m0 (pt_entries p) [] [] (g_mem g) (proj2 Hg)) as Hd.
    apply wp_on_mem. apply wp_total in Hd as ([] & m1 & E1 & Hm1). unfold wp at 1.
    unfold port_c_destroy. cbn [g_mem update]. rewrite E1. apply wp_ret.
    apply destroy_plenty in E1. split; [unfold plenty in *; cbn; congruence|].
    split; [exact Erest|]. rewrite decide_False by (cbn; lia).
    split; [done|]. split; [apply Hg|done]. }
  apply wp_bind. eapply wp_mono; [apply (add_step m0 p dn); try done; lia|].
  intros [rc p'] g' (Erc & Hc' & Hg' & Hp' & Ebox). cbn in Erc, Hc', Hg'. subst rc. cbn [negb Z.eqb].
  assert (u32 (Z.of_nat (length dn) + 1) = Z.of_nat (length (dn ++ [x]))) as Eu.
  { rewrite length_app, uwrap_small by lia. cbn. lia. }
  rewrite Eu. eapply wp_mono; [apply (IH p' (dn ++ [x])); try done; rewrite ?length_app; cbn; lia|].
  rewrite Ebox. cbn [g_box update]. rewrite Erest. intros o g2.
  replace (Z.to_nat count - length (dn ++ [x]))%nat with k by (rewrite length_app; cbn; lia).
  cbn [length take drop]. intros (Hpl & Hre & Hca). split; [done|]. split; [done|].
  destruct (decide (k <= length ts)%nat).
  - rewrite decide_True by lia. by rewrite <- app_assoc in Hca.
  - by rewrite decide_False by lia.
Qed.

(** Tarantool_iterator_next gives all it is asked for or nothing.  With at
    least [count] tuples left it answers with the next [count] of them.  With
    fewer it answers NULL, although the iterator has gone through the rest:
    the last tuples of an iteration are lost unless their number is a multiple
    of [count]. *)
Theorem binding_iterator_next_all_or_nothing it count g :
  mem_ok (g_mem g) -> out_empty g -> plenty g -> 0 <= count < 2 ^ 31 ->
  let rest := iter_rest it (g_box g) in
  let ts := take (Z.to_nat count) rest in
  Z.of_nat (length (answer ts)) < 2 ^ 31 ->
  wp (tarantool_iterator_next mp_encode_array
        {| in_iterator := it; in_count := count |}) (fun r g' =>
    if decide (count <= Z.of_nat (length rest))
    then exists t, r = Some t /\ tu_data t = answer ts /\ answered (g_mem g) r g'
    else r = None /\ iter_rest it (g_box g') = []) g.
Proof.
  intros Hm Ho Hp Hc rest ts Hb. unfold tarantool_iterator_next. apply wp_bind.
  cbn [in_iterator in_count].
  eapply wp_mono.
  { apply (next_loop_answers (g_mem g) _ it count port_c_create []); [by apply working_new|done|done|cbn; lia|].
    rewrite uwrap_small by lia. cbn. lia. }
  intros o g'. rewrite Nat.sub_0_r. cbn [app length]. fold rest. intros (Hp' & Er & Hcase).
  destruct (decide (Z.to_nat count <= length rest)%nat).
  - destruct (decide (count <= Z.of_nat (length rest))); [|lia]. destruct Hcase as (p & -> & Hg' & Hcp).
    by apply tuple_from_port_answers.
  - destruct (decide (count <= Z.of_nat (length rest))); [lia|]. destruct Hcase as [-> _]. apply wp_ret. split; [done|].
    rewrite Er. apply drop_ge. lia.
Qed.
End Answers.

#[export] Instance small_iter : IterLaws SmallStore.box.
Proof. refine {| iter_rest := fun _ b => b |}. intros it b. by exists (tail b). Defined.
#[export] Instance small_total : ObufTotal SmallStore.out.
Proof. split; [by eexists|done]. Qed.

Lemma binding_select_answers_witness :
  wp (tarantool_index_select SmallStore.fixarray
        {| is_space_id := 1; is_index_id := 0; is_key := []; is_offset := 1; is_limit := 3;
           is_iterator_type := 0 |})
    (fun r _ => exists t, r = Some t /\ tu_data t = [147; 2; 3; 4]) (SmallStore.start []).
Proof.
  eapply wp_mono; [apply (binding_select_answers SmallStore.fixarray
    {| is_space_id := 1; is_index_id := 0; is_key := []; is_offset := 1; is_limit := 3;
       is_iterator_type := 0 |} 1 [1; 2; 3; 4; 5] (SmallStore.start []) (SmallStore.start_mem []));
    cbn; done || lia|].
  intros r g' (t & -> & Et & _). by exists t.
Defined.

(** Five tuples are left: a request for three is answered, one for six is not. *)
Lemma binding_iterator_next_all_or_nothing_witness :
  wp (tarantool_iterator_next SmallStore.fixarray {| in_iterator := 1; in_count := 3 |})
    (fun r _ => exists t, r = Some t /\ tu_data t = [147; 1; 2; 3]) (SmallStore.start []) /\
  wp (tarantool_iterator_next SmallStore.fixarray {| in_iterator := 1; in_count := 6 |})
    (fun r g' => r = None /\ g_box g' = []) (SmallStore.start []).
Proof.
  split.
  - eapply wp_mono; [apply (binding_iterator_next_all_or_nothing SmallStore.fixarray 1 3
      (SmallStore.start []) (SmallStore.start_mem [])); cbn; done || lia|].
    cbn. intros r g' (t & -> & Et & _). by exists t.
  - eapply wp_mono; [apply (binding_iterator_next_all_or_nothing SmallStore.fixarray 1 6
      (SmallStore.start []) (SmallStore.start_mem [])); cbn; done || lia|].
    cbn. by intros r g' [-> Er].
Defined.
