(* ===== verification/Heap.v ===== *)
(** * The intrusive binary heap (src/lib/salad/heap.h)

    The header is a template: HEAP_LESS compares two values, and every value
    has a node with its position in the heap.  A node and its value are named
    by one address.  [heap] is the C structure with the array it points to
    and, in [h_pos], the field pos of the nodes; a node that is missing there
    has the position of a stray node.  Positions are uint32_t.  An access
    outside of the array is [Abort].

    Loops that are not bounded by a counter have fuel; sift_up needs no more
    turns than the position it starts at, and sift_down no more than there are
    positions after it. *)

From stdpp Require Import gmap.
From S2P Require Import Prelude.

Open Scope Z_scope.

Definition HEAP_INITIAL_CAPACITY : Z := 8.
Definition HEAP_NODE_STRAY_POS : Z := 2 ^ 32 - 1.

Record heap := mk_heap {
  h_size : Z;
  h_capacity : Z;
  h_harr : list Z;
  h_pos : gmap Z Z;
}.
#[export] Instance heap_rebuild : Rebuild heap := fun h =>
  mk_heap (h_size h) (h_capacity h) (h_harr h) (h_pos h).
Abbreviation hprog := (prog heap).

(** ** Nodes and the array *)

Definition node_pos (h : heap) (n : Z) : Z := default HEAP_NODE_STRAY_POS (h_pos h !! n).

Definition heap_node_create (n : Z) : hprog unit :=
  modify (fun h => h <| h_pos ::= insert n HEAP_NODE_STRAY_POS |>).
Definition heap_node_is_stray (n : Z) (h : heap) : bool := node_pos h n =? HEAP_NODE_STRAY_POS.

Definition harr_get (i : Z) : hprog Z := fun h =>
  match (if 0 <=? i then h_harr h !! Z.to_nat i else None) with
  | Some n => Done (n, h)
  | None => Abort
  end.
Definition harr_set (i n : Z) : hprog unit :=
  assert (fun h => (0 <=? i) && (i <? Z.of_nat (length (h_harr h))));;
  modify (fun h => h <| h_harr ::= <[ Z.to_nat i := n ]> |>).

Definition update_link (pos : Z) : hprog unit :=
  n ← harr_get pos; modify (fun h => h <| h_pos ::= insert n pos |>).

(** ** Operations *)

Section Heap.
Context (less : Z -> Z -> bool).

Definition create (pos : gmap Z Z) : heap := mk_heap 0 0 [] pos.

Fixpoint sift_up_loop (fuel : nat) (node curr_pos parent : Z) : hprog unit :=
  if 0 <? curr_pos then
    p ← harr_get parent;
    if less node p then
      match fuel with
      | 0%nat => abort
      | S fuel =>
          node ← harr_get curr_pos;
          p ← harr_get parent;
          harr_set curr_pos p;;
          update_link curr_pos;;
          harr_set parent node;;
          update_link parent;;
          sift_up_loop fuel node parent (u32 (parent - 1) `div` 2)
      end
    else skip
  else skip.
Definition sift_up (node : Z) : hprog unit :=
  curr_pos ← gets (fun h => node_pos h node);
  sift_up_loop (Z.to_nat curr_pos) node curr_pos (u32 (curr_pos - 1) `div` 2).

Fixpoint sift_down_loop (fuel : nat) (curr_pos : Z) : hprog unit :=
  let left := u32 (2 * curr_pos + 1) in
  let right := u32 (2 * curr_pos + 2) in
  size ← gets h_size;
  min_child ← (if right <? size then
                 r ← harr_get right; l ← harr_get left;
                 mret (if less r l then right else left)
               else mret left);
  stop ← (if size <=? left then mret true
          else c ← harr_get curr_pos; m ← harr_get min_child; mret (less c m));
  if stop : bool then skip
  else
    match fuel with
    | 0%nat => abort
    | S fuel =>
        node ← harr_get curr_pos;
        m ← harr_get min_child;
        harr_set curr_pos m;;
        harr_set min_child node;;
        update_link curr_pos;;
        update_link min_child;;
        sift_down_loop fuel min_child
    end.
Definition sift_down (node : Z) : hprog unit :=
  curr_pos ← gets (fun h => node_pos h node);
  size ← gets h_size;
  sift_down_loop (Z.to_nat (size - curr_pos)) curr_pos.

Definition update_node (node : Z) : hprog unit := sift_down node;; sift_up node.

(** [oom]: realloc fails.  What realloc adds to the array is not initialised. *)
Definition reserve (oom : bool) : hprog Z :=
  h ← gets (fun h => h);
  if h_size h <? h_capacity h then mret 0
  else
    let capacity := if h_capacity h =? 0 then HEAP_INITIAL_CAPACITY else u32 (h_capacity h * 2) in
    if oom : bool then mret (-1)
    else
      modify (fun h => h <| h_harr := take (Z.to_nat capacity)
                              (h_harr h ++ replicate (Z.to_nat capacity) 0) |>
                         <| h_capacity := capacity |>);;
      mret 0.

Definition heap_insert (value : Z) (oom : bool) : hprog Z :=
  rc ← reserve oom;
  if negb (rc =? 0) then mret (-1)
  else
    size ← gets h_size;
    harr_set size value;;
    modify (fun h => h <| h_size := u32 (size + 1) |>);;
    update_link size;;
    sift_up value;;
    mret 0.

Definition heap_top : hprog (option Z) :=
  size ← gets h_size;
  if size =? 0 then mret None else n ← harr_get 0; mret (Some n).

Definition heap_delete (value : Z) : hprog unit :=
  size ← gets h_size;
  if size =? 0 then skip
  else
    assert (fun h => negb (heap_node_is_stray value h));;
    let size := u32 (size - 1) in
    modify (fun h => h <| h_size := size |>);;
    curr_pos ← gets (fun h => node_pos h value);
    heap_node_create value;;
    if curr_pos =? size then skip
    else
      n ← harr_get size;
      harr_set curr_pos n;;
      update_link curr_pos;;
      n ← harr_get curr_pos;
      update_node n.

Definition heap_pop : hprog (option Z) :=
  size ← gets h_size;
  if size =? 0 then mret None
  else res ← harr_get 0; heap_delete res;; mret (Some res).

Definition heap_update (value : Z) : hprog unit := update_node value.

(** The loop of update_all from a position down to 0. *)
Fixpoint update_all_loop (curr_pos : nat) : hprog unit :=
  n ← harr_get (Z.of_nat curr_pos);
  sift_down n;;
  match curr_pos with 0%nat => skip | S curr_pos => update_all_loop curr_pos end.
Definition update_all : hprog unit :=
  size ← gets h_size;
  if size <=? 1 then skip else update_all_loop (Z.to_nat ((size - 2) `div` 2)).

(** The iterator: its position before and after. *)
Definition heap_iterator_next (curr_pos : Z) : hprog (option Z * Z) :=
  size ← gets h_size;
  if curr_pos =? size then mret (None, curr_pos)
  else n ← harr_get curr_pos; mret (Some n, u32 (curr_pos + 1)).

Fixpoint check_loop (fuel : nat) (curr_pos : Z) : hprog Z :=
  size ← gets h_size;
  if u32 (2 * curr_pos + 1) <? size then
    let left := u32 (2 * curr_pos + 1) in
    let right := u32 (2 * curr_pos + 2) in
    min_child ← (if right <? size then
                   r ← harr_get right; l ← harr_get left;
                   mret (if less r l then right else left)
                 else mret left);
    m ← harr_get min_child;
    c ← harr_get curr_pos;
    if less m c then mret (-1)
    else match fuel with 0%nat => abort | S fuel => check_loop fuel (u32 (curr_pos + 1)) end
  else mret 0.
Definition heap_check : hprog Z :=
  size ← gets h_size; check_loop (Z.to_nat size) 0.
End Heap.
