(* ===== verification/HeapSafety.v ===== *)
(** * Correctness of the intrusive heap

    The structure of the heap (back links and array), the order of the heap
    through sift_up and sift_down, and what the operations do to the set of
    nodes in the heap. *)

From stdpp Require Import gmap.
From S2P Require Import Prelude Heap.

Open Scope Z_scope.

#[local] Ltac Zify.zify_post_hook ::= Z.to_euclidean_division_equations.

Implicit Types (h : heap) (i j k p q n x : Z).

(** ** Structure *)

Definition at_pos h i : Z := default 0 (h_harr h !! Z.to_nat i).

Definition member h x : Prop := exists i, 0 <= i < h_size h /\ at_pos h i = x.

(** The array is as long as the capacity says, the nodes in it know their
    positions, and a node that knows a position is there. *)
Record heap_wf h : Prop := {
  hw_capacity : h_capacity h = Z.of_nat (length (h_harr h));
  hw_size : 0 <= h_size h <= h_capacity h;
  hw_small : h_size h < 2 ^ 31;
  hw_links : forall i, 0 <= i < h_size h -> h_pos h !! at_pos h i = Some i;
  hw_back : forall n i, h_pos h !! n = Some i -> i <> HEAP_NODE_STRAY_POS ->
    0 <= i < h_size h /\ at_pos h i = n;
}.

(** The same nodes, perhaps at other positions; nodes outside are untouched. *)
Record same_nodes h h' : Prop := {
  sn_size : h_size h' = h_size h;
  sn_capacity : h_capacity h' = h_capacity h;
  sn_member : forall x, member h' x <-> member h x;
  sn_other : forall n, ~ member h n -> h_pos h' !! n = h_pos h !! n;
}.
#[local] Instance same_nodes_preorder : PreOrder same_nodes.
Proof.
  split; [by split|]. intros h1 h2 h3 [A1 B1 C1 D1] [A2 B2 C2 D2].
  split; [congruence|congruence|intros x; by rewrite C2, C1|].
  intros n Hn. rewrite D2, D1; [done|done|by rewrite C1].
Qed.

Lemma wp_harr_get i h (Q : Z -> heap -> Prop) :
  0 <= i < Z.of_nat (length (h_harr h)) -> Q (at_pos h i) h -> wp (harr_get i) Q h.
Proof.
  intros Hi HQ. unfold wp, harr_get. replace (0 <=? i) with true by lia.
  unfold at_pos in HQ. destruct (h_harr h !! Z.to_nat i) eqn:E; [done|].
  apply lookup_ge_None in E. lia.
Qed.
Lemma wp_harr_set i n h (Q : unit -> heap -> Prop) :
  0 <= i < Z.of_nat (length (h_harr h)) ->
  Q tt (h <| h_harr ::= <[ Z.to_nat i := n ]> |>) -> wp (harr_set i n) Q h.
Proof.
  intros Hi HQ. unfold harr_set. apply wp_bind, wp_assert. split; [lia|]. by apply wp_modify.
Qed.
Lemma wp_update_link i h (Q : unit -> heap -> Prop) :
  0 <= i < Z.of_nat (length (h_harr h)) ->
  Q tt (h <| h_pos ::= insert (at_pos h i) i |>) -> wp (update_link i) Q h.
Proof.
  intros Hi HQ. unfold update_link. apply wp_bind, wp_harr_get; [done|]. by apply wp_modify.
Qed.

Lemma at_pos_set h i n j :
  0 <= i < Z.of_nat (length (h_harr h)) -> 0 <= j ->
  at_pos (h <| h_harr ::= <[ Z.to_nat i := n ]> |>) j = if j =? i then n else at_pos h j.
Proof.
  intros Hi Hj. unfold at_pos. cbn. destruct (Z.eqb_spec j i) as [->|Hne].
  - rewrite list_lookup_insert_eq by lia. done.
  - by rewrite list_lookup_insert_ne by lia.
Qed.

Lemma member_pos h n :
  heap_wf h -> member h n <-> exists i, h_pos h !! n = Some i /\ i <> HEAP_NODE_STRAY_POS.
Proof.
  intros Hw. split.
  - intros (i & Hi & <-). exists i. split; [by apply hw_links|].
    pose proof (hw_small h Hw). unfold HEAP_NODE_STRAY_POS. lia.
  - intros (i & E & Hne). exists i. by apply (hw_back h Hw).
Qed.
Lemma member_dec h n : heap_wf h -> member h n \/ ~ member h n.
Proof.
  intros Hw. rewrite member_pos by done. destruct (h_pos h !! n) as [i|]; [|right; naive_solver].
  destruct (Z.eq_dec i HEAP_NODE_STRAY_POS); [right|left]; naive_solver.
Qed.

(** Two positions exchanged, with the links. *)
Definition exchanged i j h : heap :=
  h <| h_harr := <[ Z.to_nat j := at_pos h i ]> (<[ Z.to_nat i := at_pos h j ]> (h_harr h)) |>
    <| h_pos := <[ at_pos h i := j ]> (<[ at_pos h j := i ]> (h_pos h)) |>.

Definition swap i j k : Z := if k =? i then j else if k =? j then i else k.

Lemma exchanged_at i j h k :
  0 <= i < Z.of_nat (length (h_harr h)) -> 0 <= j < Z.of_nat (length (h_harr h)) -> 0 <= k ->
  at_pos (exchanged i j h) k = at_pos h (swap i j k).
Proof.
  intros Hi Hj Hk. unfold exchanged, swap.
  transitivity (at_pos ((h <| h_harr ::= <[ Z.to_nat i := at_pos h j ]> |>)
                          <| h_harr ::= <[ Z.to_nat j := at_pos h i ]> |>) k); [done|].
  rewrite !at_pos_set; cbn; rewrite ?length_insert; try lia.
  destruct (Z.eqb_spec k j), (Z.eqb_spec k i); subst; congruence.
Qed.

Lemma swap_swap i j k : swap i j (swap i j k) = k.
Proof.
  unfold swap. destruct (Z.eqb_spec k i); [|destruct (Z.eqb_spec k j)];
    repeat match goal with |- context [?a =? ?b] => destruct (Z.eqb_spec a b) end; lia.
Qed.

Section Exchange.
Context h i j (Hw : heap_wf h) (Hi : 0 <= i < h_size h) (Hj : 0 <= j < h_size h).

Lemma exchange_range : 0 <= i < Z.of_nat (length (h_harr h)) /\ 0 <= j < Z.of_nat (length (h_harr h)).
Proof. destruct Hw. lia. Qed.
Lemma swap_range k : 0 <= k < h_size h -> 0 <= swap i j k < h_size h.
Proof. unfold swap. destruct (k =? i), (k =? j); lia. Qed.

Lemma exchange_at k : 0 <= k -> at_pos (exchanged i j h) k = at_pos h (swap i j k).
Proof. intros. apply exchanged_at; [apply exchange_range..|done]. Qed.

Lemma at_pos_inj k k' :
  0 <= k < h_size h -> 0 <= k' < h_size h -> at_pos h k = at_pos h k' -> k = k'.
Proof.
  intros Hk Hk' E. pose proof (hw_links h Hw k Hk) as E1. rewrite E, (hw_links h Hw k' Hk') in E1. congruence.
Qed.

Lemma exchange_pos k :
  0 <= k < h_size h -> h_pos (exchanged i j h) !! at_pos h (swap i j k) = Some k.
Proof.
  intros Hk. unfold exchanged, swap. cbn. destruct (Z.eqb_spec k i) as [->|Hki]; [|destruct (Z.eqb_spec k j) as [->|Hkj]].
  - destruct (decide (at_pos h i = at_pos h j)) as [E|Hne].
    + rewrite E, lookup_insert_eq. f_equal. symmetry. by apply at_pos_inj.
    + rewrite lookup_insert_ne, lookup_insert_eq by done. done.
  - by rewrite lookup_insert_eq.
  - assert (at_pos h i <> at_pos h k /\ at_pos h j <> at_pos h k) as [E1 E2]
      by (split; intros E; apply at_pos_inj in E; lia).
    rewrite !lookup_insert_ne by done. by apply hw_links.
Qed.

Lemma exchange_wf : heap_wf (exchanged i j h) /\ same_nodes h (exchanged i j h).
Proof.
  assert (forall x, member (exchanged i j h) x <-> member h x) as Hmem.
  { intros x. split; intros (k & Hk & E).
    - exists (swap i j k). split; [by apply swap_range|]. rewrite <- E. symmetry. apply exchange_at. lia.
    - exists (swap i j k). split; [by apply swap_range|].
      rewrite exchange_at by (apply swap_range in Hk; lia). by rewrite swap_swap. }
  assert (forall n, ~ member h n -> h_pos (exchanged i j h) !! n = h_pos h !! n) as Hother.
  { intros n Hn. unfold exchanged. cbn. rewrite !lookup_insert_ne; [done|..];
      intros E; apply Hn; eexists; (split; [|exact E]); done. }
  split; [|by split].
  pose proof Hw as [Hc Hs Hsm Hl Hb]. split; try done.
  - cbn. by rewrite !length_insert.
  - intros k Hk. rewrite exchange_at by lia. by apply exchange_pos.
  - intros n k E Hk. destruct (member_dec h n Hw) as [(k' & Hk' & En)|Hn].
    + pose proof (exchange_pos (swap i j k') (swap_range k' Hk')) as E'.
      rewrite swap_swap, En, E in E'. injection E' as ->. split; [by apply swap_range|].
      rewrite exchange_at by (apply swap_range in Hk'; lia). by rewrite swap_swap.
    + exfalso. rewrite Hother in E by done. apply Hn. exists k. by apply Hb.
Qed.
End Exchange.

(** ** Order *)

(** HEAP_LESS is a strict weak order. *)
Class StrictWeak (less : Z -> Z -> bool) : Prop := {
  less_asym : forall x y, less x y = true -> less y x = false;
  less_weak : forall x y z, less y x = false -> less z y = false -> less z x = false;
}.

Definition parent i : Z := (i - 1) `div` 2.

Section Order.
Context (less : Z -> Z -> bool) `{!StrictWeak less}.

Definition le x y : Prop := less y x = false.
Lemma le_trans x y z : le x y -> le y z -> le x z.
Proof. apply less_weak. Qed.
Lemma less_le x y : less x y = true -> le x y.
Proof. apply less_asym. Qed.
Lemma le_refl x : le x x.
Proof. unfold le. destruct (less x x) eqn:E; [|done]. by rewrite (less_asym _ _ E) in E. Qed.

(** The node at [i] is not below its parent. *)
Definition edge h i : Prop := le (at_pos h (parent i)) (at_pos h i).

(** The order of the heap, among the nodes whose parent is not before [k]. *)
Definition ordered_from k h : Prop := forall i, 0 < i < h_size h -> k <= parent i -> edge h i.
Abbreviation ordered := (ordered_from 0).

(** The children of [p] are not below the parent of [p]. *)
Definition bridged k h p : Prop := 0 < p -> k <= parent p ->
  forall c, 0 < c < h_size h -> parent c = p -> le (at_pos h (parent p)) (at_pos h c).

(** The order holds except around [p], or except above it. *)
Definition hole k h p : Prop :=
  (forall i, 0 < i < h_size h -> k <= parent i -> i <> p -> parent i <> p -> edge h i) /\ bridged k h p.
Definition up_ok k h p : Prop :=
  (forall i, 0 < i < h_size h -> k <= parent i -> i <> p -> edge h i) /\ bridged k h p.

Lemma up_ok_ordered k h p :
  up_ok k h p -> (0 < p -> k <= parent p -> edge h p) -> ordered_from k h.
Proof.
  intros [H _] He i Hi Hk. destruct (Z.eq_dec i p) as [->|]; [by apply He; [lia|]|by apply H].
Qed.

(** A node exchanged with its parent that it is below. *)
Lemma exchange_up h q :
  heap_wf h -> up_ok 0 h q -> 0 < q < h_size h -> less (at_pos h q) (at_pos h (parent q)) = true ->
  up_ok 0 (exchanged q (parent q) h) (parent q).
Proof.
  intros Hw [He Hb] Hq Hless. unfold parent in *. set (p := (q - 1) `div` 2) in *.
  assert (0 <= p < q) as Hp by (subst p; lia).
  assert (forall k, 0 <= k -> at_pos (exchanged q p h) k = at_pos h (swap q p k)) as Ha
    by (intros; apply exchange_at; try done; lia).
  assert (swap q p q = p /\ swap q p p = q /\ forall k, k <> q -> k <> p -> swap q p k = k) as (S1 & S2 & S3).
  { unfold swap. rewrite !Z.eqb_refl. split; [done|]. split; [destruct (Z.eqb_spec p q); lia|].
    intros k ? ?. destruct (Z.eqb_spec k q), (Z.eqb_spec k p); lia. }
  split.
  - intros i Hi _ Hip. unfold edge, parent. cbn [h_size exchanged update] in Hi.
    rewrite !Ha by lia. destruct (Z.eq_dec i q) as [->|Hiq].
    { fold p. rewrite S1, S2. by apply less_le. }
    rewrite (S3 i) by done. destruct (Z.eq_dec ((i - 1) `div` 2) p) as [E|E].
    { rewrite E, S2. eapply le_trans; [by apply less_le|].
      specialize (He i Hi ltac:(unfold parent; lia) Hiq). unfold edge, parent in He. by rewrite E in He. }
    destruct (Z.eq_dec ((i - 1) `div` 2) q) as [E'|E'].
    { rewrite E', S1. apply (Hb ltac:(lia) ltac:(unfold parent; lia) i Hi E'). }
    rewrite S3 by done. apply (He i Hi ltac:(unfold parent; lia) Hiq).
  - intros Hp0 _ c Hc Ec. unfold parent in *. cbn [h_size exchanged update] in Hc.
    rewrite !Ha by lia. rewrite (S3 ((p - 1) `div` 2)) by lia.
    assert (le (at_pos h ((p - 1) `div` 2)) (at_pos h p)) as Hpp
      by (apply (He p ltac:(lia) ltac:(unfold parent; lia)); lia).
    destruct (Z.eq_dec c q) as [->|Hcq]; [by rewrite S1|]. rewrite (S3 c) by lia.
    eapply le_trans; [exact Hpp|]. specialize (He c Hc ltac:(unfold parent; lia) Hcq).
    unfold edge, parent in He. by rewrite Ec in He.
Qed.

(** A hole moved to the least child, which is not above the node. *)
Lemma exchange_down k h p c :
  heap_wf h -> hole k h p -> 0 <= p -> 0 < c < h_size h -> parent c = p -> k <= p ->
  less (at_pos h p) (at_pos h c) = false ->
  (forall d, 0 < d < h_size h -> parent d = p -> le (at_pos h c) (at_pos h d)) ->
  hole k (exchanged p c h) c /\ edge (exchanged p c h) c.
Proof.
  intros Hw [He Hb] Hp Hc Ec Hk Hless Hmin. unfold parent in *.
  assert (0 <= p < c) as Hpc by lia.
  assert (forall k, 0 <= k -> at_pos (exchanged p c h) k = at_pos h (swap p c k)) as Ha
    by (intros; apply exchange_at; try done; lia).
  assert (swap p c p = c /\ swap p c c = p /\ forall k, k <> p -> k <> c -> swap p c k = k) as (S1 & S2 & S3).
  { unfold swap. rewrite !Z.eqb_refl. split; [done|]. split; [destruct (Z.eqb_spec c p); lia|].
    intros j ? ?. destruct (Z.eqb_spec j p), (Z.eqb_spec j c); lia. }
  split; [split|].
  - intros i Hi Hki Hic Hpi. unfold edge, parent in *. cbn [h_size exchanged update] in Hi.
    rewrite !Ha by lia. destruct (Z.eq_dec i p) as [->|Hip].
    { rewrite S1, S3 by lia. apply (Hb ltac:(lia) Hki c Hc Ec). }
    rewrite (S3 i) by done. destruct (Z.eq_dec ((i - 1) `div` 2) p) as [E|E].
    { rewrite E, S1. by apply Hmin. }
    rewrite S3 by done. by apply He.
  - intros _ _ d Hd Ed. unfold parent in *. cbn [h_size exchanged update] in Hd. rewrite Ec, !Ha by lia.
    rewrite S1, S3 by lia. assert (edge h d) as Hed by (apply He; unfold parent; lia).
    unfold edge, parent in Hed. by rewrite Ed in Hed.
  - unfold edge, parent. rewrite Ec, !Ha, S1, S2 by lia. exact Hless.
Qed.

(** The assignments of the two loops exchange the nodes. *)
Lemma wp_exchange_up {A} (k : unit -> hprog A) i j h (Q : A -> heap -> Prop) :
  0 <= i < Z.of_nat (length (h_harr h)) -> 0 <= j < Z.of_nat (length (h_harr h)) ->
  wp (k tt) Q (exchanged i j h) ->
  wp (harr_set i (at_pos h j);; update_link i;; harr_set j (at_pos h i);; u ← update_link j; k u) Q h.
Proof.
  intros Hi Hj Hk.
  apply wp_bind, wp_harr_set; [lia|]. apply wp_bind, wp_update_link; [cbn; rewrite length_insert; lia|].
  rewrite at_pos_set, Z.eqb_refl by lia.
  apply wp_bind, wp_harr_set; [cbn; rewrite length_insert; lia|].
  apply wp_bind, wp_update_link; [cbn; rewrite !length_insert; lia|].
  rewrite at_pos_set, Z.eqb_refl by (cbn; rewrite ?length_insert; lia). exact Hk.
Qed.
Lemma wp_exchange_down {A} (k : unit -> hprog A) i j h (Q : A -> heap -> Prop) :
  0 <= i < Z.of_nat (length (h_harr h)) -> 0 <= j < Z.of_nat (length (h_harr h)) -> i <> j ->
  wp (k tt) Q (exchanged i j h) ->
  wp (harr_set i (at_pos h j);; harr_set j (at_pos h i);; update_link i;; u ← update_link j; k u) Q h.
Proof.
  intros Hi Hj Hne Hk.
  apply wp_bind, wp_harr_set; [lia|]. apply wp_bind, wp_harr_set; [cbn; rewrite length_insert; lia|].
  apply wp_bind, wp_update_link; [cbn; rewrite !length_insert; lia|].
  rewrite !at_pos_set, Z.eqb_refl by (cbn; rewrite ?length_insert; lia).
  destruct (Z.eqb_spec i j) as [|_]; [lia|].
  apply wp_bind, wp_update_link; [cbn; rewrite !length_insert; lia|].
  match goal with |- context [at_pos ?x j] => change (at_pos x j) with
    (at_pos (h <| h_harr ::= <[Z.to_nat i:=at_pos h j]> |> <| h_harr ::= <[Z.to_nat j:=at_pos h i]> |>) j) end.
  rewrite at_pos_set, Z.eqb_refl by (cbn; rewrite ?length_insert; lia). exact Hk.
Qed.

Lemma sift_up_loop_spec fuel h q :
  heap_wf h -> up_ok 0 h q -> 0 <= q < h_size h -> q <= Z.of_nat fuel ->
  wp (sift_up_loop less fuel (at_pos h q) q (u32 (q - 1) `div` 2))
     (fun _ h' => heap_wf h' /\ same_nodes h h' /\ ordered h') h.
Proof.
  revert h q. induction fuel as [|fuel IH]; intros h q Hw Hu Hq Hf; cbn [sift_up_loop];
    (destruct (Z.ltb_spec 0 q);
     [|apply wp_ret; split; [done|]; split; [reflexivity|]; apply (up_ok_ordered 0 h q Hu); lia]).
  { lia. }
  pose proof (hw_small h Hw) as Hsm. pose proof (hw_size h Hw) as Hsz. pose proof (hw_capacity h Hw) as Hcap.
  rewrite uwrap_small by lia. change ((q - 1) `div` 2) with (parent q).
  assert (0 <= parent q < q) as Hp by (unfold parent; lia).
  apply wp_bind, wp_harr_get; [lia|]. destruct (less (at_pos h q) (at_pos h (parent q))) eqn:Hless.
  2: { apply wp_ret. split; [done|]. split; [reflexivity|]. by apply (up_ok_ordered 0 h q Hu). }
  destruct (exchange_wf h q (parent q) Hw ltac:(lia) ltac:(lia)) as [Hw' Hs'].
  pose proof (exchange_up h q Hw Hu ltac:(lia) Hless) as Hu'.
  apply wp_bind, wp_harr_get; [lia|]. apply wp_bind, wp_harr_get; [lia|].
  apply wp_exchange_up; [lia..|].
  assert (at_pos h q = at_pos (exchanged q (parent q) h) (parent q)) as Ea.
  { rewrite exchange_at by (try done; lia). unfold swap. rewrite Z.eqb_refl.
    destruct (Z.eqb_spec (parent q) q); [lia|done]. }
  rewrite Ea. eapply wp_mono; [apply IH; try done; cbn; lia|].
  intros _ h2 (Hw2 & Hs2 & Ho2). split; [done|]. split; [by etransitivity|done].
Qed.

Lemma sift_down_loop_spec k fuel h p :
  heap_wf h -> hole k h p -> 0 <= p < h_size h -> k <= p -> h_size h - p <= Z.of_nat fuel ->
  wp (sift_down_loop less fuel p) (fun _ h' => heap_wf h' /\ same_nodes h h' /\
    exists q, 0 <= q < h_size h /\ at_pos h' q = at_pos h p /\ up_ok k h' q /\
      (edge h p \/ q <> p -> edge h' q)) h.
Proof.
  revert h p. induction fuel as [|fuel IH]; intros h p Hw Hh Hp Hk Hf; [lia|]. cbn [sift_down_loop].
  pose proof (hw_small h Hw) as Hsm. pose proof (hw_size h Hw) as Hsz. pose proof (hw_capacity h Hw) as Hcap.
  rewrite !uwrap_small by lia. apply wp_bind, wp_gets, wp_bind.
  set (left := 2 * p + 1). set (right := 2 * p + 2).
  assert (forall d, 0 < d -> parent d = p <-> d = left \/ d = right) as Hchild
    by (intros d Hd; unfold parent, left, right; lia).
  assert (wp (if right <? h_size h then r ← harr_get right; l ← harr_get left;
                mret (if less r l then right else left) else mret left)
    (fun c h' => h' = h /\ (c = left \/ c = right) /\ (left < h_size h -> c < h_size h /\
       forall d, 0 < d < h_size h -> parent d = p -> le (at_pos h c) (at_pos h d))) h) as Hmin.
  { destruct (Z.ltb_spec right (h_size h)).
    - apply wp_bind, wp_harr_get; [lia|]. apply wp_bind, wp_harr_get; [lia|]. apply wp_ret.
      destruct (less (at_pos h right) (at_pos h left)) eqn:E; (split; [done|]); (split; [auto|]);
        intros Hl; (split; [lia|]); intros d Hd [->| ->]%Hchild; try lia;
        try apply le_refl; [by apply less_le|done].
    - apply wp_ret. split; [done|]. split; [auto|]. intros Hl. split; [lia|].
      intros d Hd [->| ->]%Hchild; [apply le_refl|lia|lia]. }
  eapply wp_mono; [exact Hmin|]. intros c h0 (-> & Hc & Hcmin). apply wp_bind.
  destruct (Z.leb_spec (h_size h) left) as [Hleaf|Hleft].
  { apply wp_ret. cbn. apply wp_ret. split; [done|]. split; [reflexivity|]. exists p.
    split; [done|]. split; [done|]. split; [|by intros [|]]. split; [|apply Hh].
    intros i Hi Hki Hip. apply Hh; try done. rewrite Hchild by lia. lia. }
  destruct (Hcmin Hleft) as [Hcs Hcle]. clear Hcmin Hmin.
  assert (0 < c < h_size h /\ parent c = p) as [Hc' Ec] by (rewrite Hchild; lia).
  apply wp_bind, wp_harr_get; [lia|]. apply wp_bind, wp_harr_get; [lia|]. apply wp_ret.
  destruct (less (at_pos h p) (at_pos h c)) eqn:Hless.
  { apply wp_ret. split; [done|]. split; [reflexivity|]. exists p. split; [done|]. split; [done|].
    split; [|by intros [|]]. split; [|apply Hh]. intros i Hi Hki Hip.
    destruct (Z.eq_dec (parent i) p) as [E|E]; [|by apply Hh].
    unfold edge. rewrite E. eapply le_trans; [by apply less_le|]. by apply Hcle. }
  assert (p < c) as Hpc by (unfold parent in Ec; lia).
  destruct (exchange_wf h p c Hw ltac:(lia) ltac:(lia)) as [Hw' Hs'].
  destruct (exchange_down k h p c Hw Hh ltac:(lia) Hc' Ec Hk Hless Hcle) as [Hh' He'].
  apply wp_bind, wp_harr_get; [lia|]. apply wp_bind, wp_harr_get; [lia|].
  apply wp_exchange_down; [lia..|].
  eapply wp_mono; [apply IH; try done; cbn; lia|].
  intros _ h2 (Hw2 & Hs2 & q & Hq & Ea & Hu & Hedge). split; [done|]. split; [by etransitivity|].
  exists q. split; [done|]. split.
  - rewrite Ea, exchange_at by (try done; lia). unfold swap. rewrite Z.eqb_refl.
    destruct (Z.eqb_spec c p); [lia|done].
  - split; [done|]. intros _. apply Hedge. by left.
Qed.

(** ** Operations *)

Lemma node_pos_at h q : heap_wf h -> 0 <= q < h_size h -> node_pos h (at_pos h q) = q.
Proof. intros Hw Hq. unfold node_pos. by rewrite (hw_links h Hw). Qed.

Lemma sift_up_spec h q :
  heap_wf h -> up_ok 0 h q -> 0 <= q < h_size h ->
  wp (sift_up less (at_pos h q)) (fun _ h' => heap_wf h' /\ same_nodes h h' /\ ordered h') h.
Proof.
  intros Hw Hu Hq. unfold sift_up. apply wp_bind, wp_gets. rewrite node_pos_at by done.
  apply sift_up_loop_spec; try done. lia.
Qed.

Lemma sift_down_spec k h p :
  heap_wf h -> hole k h p -> 0 <= p < h_size h -> k <= p ->
  wp (sift_down less (at_pos h p)) (fun _ h' => heap_wf h' /\ same_nodes h h' /\
    exists q, 0 <= q < h_size h /\ at_pos h' q = at_pos h p /\ up_ok k h' q /\
      (edge h p \/ q <> p -> edge h' q)) h.
Proof.
  intros Hw Hh Hp Hk. unfold sift_down. apply wp_bind, wp_gets. rewrite node_pos_at by done.
  apply wp_bind, wp_gets, sift_down_loop_spec; try done. lia.
Qed.

(** The heap is in order except around one node. *)
Lemma update_node_spec h p :
  heap_wf h -> hole 0 h p -> 0 <= p < h_size h ->
  wp (update_node less (at_pos h p)) (fun _ h' => heap_wf h' /\ same_nodes h h' /\ ordered h') h.
Proof.
  intros Hw Hh Hp. unfold update_node. apply wp_bind.
  eapply wp_mono; [apply (sift_down_spec 0 h p); try done; lia|].
  intros _ h1 (Hw1 & Hs1 & q & Hq & Ea & Hu & _). rewrite <- Ea.
  eapply wp_mono; [apply sift_up_spec; try done; by rewrite (sn_size _ _ Hs1)|].
  intros _ h2 (Hw2 & Hs2 & Ho). split; [done|]. split; [by etransitivity|done].
Qed.

Lemma update_turn_spec h k :
  heap_wf h -> 0 <= k < h_size h -> ordered_from (k + 1) h ->
  wp (sift_down less (at_pos h k)) (fun _ h' => heap_wf h' /\ same_nodes h h' /\ ordered_from k h') h.
Proof.
  intros Hw Hk Ho. assert (hole k h k) as Hh
    by (split; [intros i Hi Hki Hik Hpi; apply Ho; [done|lia]|intros Hk0 Hkp; unfold parent in Hkp; lia]).
  eapply wp_mono; [apply (sift_down_spec k h k); try done; lia|].
  intros _ h1 (Hw1 & Hs1 & q & Hq & _ & Hu & Hedge). split; [done|]. split; [done|].
  apply (up_ok_ordered k h1 q Hu). intros Hq0 Hkq. apply Hedge. right. unfold parent in Hkq. lia.
Qed.

Lemma update_all_loop_spec h (j : nat) :
  heap_wf h -> Z.of_nat j < h_size h -> ordered_from (Z.of_nat j + 1) h ->
  wp (update_all_loop less j) (fun _ h' => heap_wf h' /\ same_nodes h h' /\ ordered h') h.
Proof.
  revert h. induction j as [|j IH]; intros h Hw Hj Ho; cbn [update_all_loop];
    (apply wp_bind, wp_harr_get; [destruct Hw; lia|]); apply wp_bind;
    (eapply wp_mono; [apply update_turn_spec; try done; lia|]); intros _ h1 (Hw1 & Hs1 & Ho1).
  - by apply wp_ret.
  - replace (Z.of_nat (S j)) with (Z.of_nat j + 1) in Ho1 by lia.
    eapply wp_mono; [apply IH; [done|rewrite (sn_size _ _ Hs1); lia|done]|].
    intros _ h2 (Hw2 & Hs2 & Ho2). split; [done|]. split; [by etransitivity|done].
Qed.

Lemma update_all_spec h :
  heap_wf h ->
  wp (update_all less) (fun _ h' => heap_wf h' /\ same_nodes h h' /\ ordered h') h.
Proof.
  intros Hw. unfold update_all. apply wp_bind, wp_gets. destruct (Z.leb_spec (h_size h) 1).
  - apply wp_ret. split; [done|]. split; [reflexivity|]. intros i Hi. lia.
  - apply update_all_loop_spec; [done|lia|]. intros i Hi Hki. unfold parent in Hki. lia.
Qed.

(** The first node is a least one. *)
Lemma ordered_top h i : ordered h -> 0 <= i < h_size h -> le (at_pos h 0) (at_pos h i).
Proof.
  intros Ho Hi. assert (0 <= i) as Hn by lia. revert Hi. pattern i.
  apply Zlt_0_ind; [|done]. clear i Hn. intros i IH Hi0 Hi.
  destruct (Z.eq_dec i 0) as [->|]; [apply le_refl|].
  eapply le_trans; [apply (IH (parent i)); unfold parent; lia|]. apply Ho; [lia|unfold parent; lia].
Qed.

(** The heap with its order. *)
Definition heap_ok h : Prop := heap_wf h /\ ordered h.

Lemma reserve_spec oom h :
  heap_wf h ->
  wp (reserve oom) (fun rc h' => (rc = -1 /\ h' = h /\ oom = true) \/
    (rc = 0 /\ heap_wf h' /\ h_size h' = h_size h /\ h_size h < h_capacity h' /\ h_pos h' = h_pos h /\
     forall i, 0 <= i < h_size h -> at_pos h' i = at_pos h i)) h.
Proof.
  intros Hw. pose proof Hw as [Hc Hs Hsm Hl Hb]. unfold reserve. apply wp_bind, wp_gets.
  destruct (Z.ltb_spec (h_size h) (h_capacity h)); [apply wp_ret; right; by auto|].
  set (cap := if h_capacity h =? 0 then HEAP_INITIAL_CAPACITY else u32 (h_capacity h * 2)).
  assert (h_size h < cap) as Hcap.
  { subst cap. unfold HEAP_INITIAL_CAPACITY. destruct (Z.eqb_spec (h_capacity h) 0); [lia|].
    rewrite uwrap_small by lia. lia. }
  destruct oom; [apply wp_ret; auto|]. apply wp_bind, wp_modify, wp_ret. right.
  set (h' := _ <| h_capacity := cap |>).
  assert (forall i, 0 <= i < h_size h -> at_pos h' i = at_pos h i) as Ha.
  { intros i Hi. unfold at_pos, h'. cbn. rewrite lookup_take_lt, lookup_app_l by lia. done. }
  split; [done|]. split; [|by split]. split; try done.
  - cbn. rewrite length_take, length_app, length_replicate. lia.
  - cbn. lia.
  - intros i Hi. cbn in Hi. rewrite Ha by done. by apply Hl.
  - intros n i E Hne. destruct (Hb n i E Hne) as [Hi <-]. split; [done|]. by rewrite Ha.
Qed.

(** The state after the new node is put at the end. *)
Lemma append_wf h x :
  heap_wf h -> h_size h < h_capacity h -> h_size h + 1 < 2 ^ 31 -> ~ member h x ->
  let h' := h <| h_harr ::= <[ Z.to_nat (h_size h) := x ]> |> <| h_size := h_size h + 1 |>
              <| h_pos ::= insert x (h_size h) |> in
  heap_wf h' /\ at_pos h' (h_size h) = x /\ (forall i, 0 <= i < h_size h -> at_pos h' i = at_pos h i).
Proof.
  intros Hw Hc Hsz Hx h'. pose proof Hw as [Hcap Hs Hsm Hl Hb].
  assert (forall i, 0 <= i -> at_pos h' i = if i =? h_size h then x else at_pos h i) as Ha
    by (intros i Hi; apply (at_pos_set h (h_size h) x i); lia).
  assert (forall i, 0 <= i < h_size h -> at_pos h' i = at_pos h i) as Hold
    by (intros i Hi; rewrite Ha by lia; destruct (Z.eqb_spec i (h_size h)); [lia|done]).
  assert (at_pos h' (h_size h) = x) as Hnew by (rewrite Ha by lia; by rewrite Z.eqb_refl).
  split; [|by split]. split; cbn.
  - by rewrite length_insert.
  - lia.
  - lia.
  - intros i Hi. destruct (Z.eq_dec i (h_size h)) as [->|Hne].
    + rewrite Hnew. by rewrite lookup_insert_eq.
    + rewrite Hold by lia. rewrite lookup_insert_ne; [apply Hl; lia|].
      intros ->. apply Hx. exists i. split; [lia|done].
  - intros n i. destruct (Z.eq_dec n x) as [->|Hne].
    + rewrite lookup_insert_eq. intros [= <-] _. split; [lia|done].
    + rewrite lookup_insert_ne by done. intros E Hi. destruct (Hb n i E Hi) as [Hr <-].
      split; [lia|]. by apply Hold.
Qed.

Lemma heap_insert_spec oom x h :
  heap_ok h -> ~ member h x -> h_size h + 1 < 2 ^ 31 ->
  wp (heap_insert less x oom) (fun rc h' => (rc = -1 /\ h' = h /\ oom = true) \/
    (rc = 0 /\ heap_ok h' /\ h_size h' = h_size h + 1 /\
     forall y, member h' y <-> y = x \/ member h y)) h.
Proof.
  intros [Hw Ho] Hx Hsz. unfold heap_insert. apply wp_bind.
  eapply wp_mono; [by apply reserve_spec|].
  intros rc h1 [(-> & -> & Hoom)|(-> & Hw1 & Es1 & Hc1 & Ep1 & Ha1)]; cbn [negb Z.eqb]; [apply wp_ret; auto|].
  assert (forall y, member h1 y <-> member h y) as Hm1.
  { intros y. unfold member. rewrite Es1. split; intros (i & Hi & <-); exists i; (split; [done|]);
      [symmetry|]; by apply Ha1. }
  pose proof (hw_capacity h1 Hw1) as Hcap. pose proof (hw_size h1 Hw1) as Hs1.
  apply wp_bind, wp_gets. apply wp_bind, wp_harr_set; [lia|]. apply wp_bind, wp_modify.
  apply wp_bind, wp_update_link; [cbn; rewrite length_insert; lia|].
  rewrite uwrap_small by lia.
  destruct (append_wf h1 x Hw1 ltac:(lia) ltac:(lia) ltac:(by rewrite Hm1)) as (Hw2 & En & Hold).
  match goal with |- context [at_pos ?s (h_size h1)] =>
    replace (at_pos s (h_size h1)) with x by (symmetry; exact En) end.
  set (h2 := _ <| h_pos ::= _ |>) in *. apply wp_bind. rewrite <- En.
  assert (h_size h2 = h_size h1 + 1) as Es2 by done.
  eapply wp_mono; [apply sift_up_spec; [done| |lia]|].
  - split.
    + intros i Hi _ Hne. unfold edge. rewrite !Hold by (unfold parent; lia).
      rewrite !Ha1 by (unfold parent; lia). apply Ho; unfold parent; lia.
    + intros _ _ c Hc Ec. unfold parent in Ec. lia.
  - intros _ h3 (Hw3 & Hs3 & Ho3). apply wp_ret. right. split; [done|]. split; [done|].
    split; [rewrite (sn_size _ _ Hs3); lia|]. intros y. rewrite (sn_member _ _ Hs3), <- Hm1.
    unfold member. rewrite Es2. split.
    + intros (i & Hi & <-). destruct (Z.eq_dec i (h_size h1)) as [->|]; [by left|].
      right. exists i. split; [lia|]. symmetry. apply Hold. lia.
    + intros [->|(i & Hi & <-)]; [exists (h_size h1); split; [lia|done]|].
      exists i. split; [lia|]. by apply Hold.
Qed.

(** The node at [p] taken out, the last one in its place. *)
Definition removed p h : heap :=
  h <| h_size := h_size h - 1 |>
    <| h_pos ::= insert (at_pos h p) HEAP_NODE_STRAY_POS |>
    <| h_harr ::= <[ Z.to_nat p := at_pos h (h_size h - 1) ]> |>
    <| h_pos ::= insert (at_pos h (h_size h - 1)) p |>.

Lemma removed_wf h p :
  heap_wf h -> 0 <= p < h_size h - 1 ->
  heap_wf (removed p h) /\ (forall y, member (removed p h) y <-> member h y /\ y <> at_pos h p) /\
  h_pos (removed p h) !! at_pos h p = Some HEAP_NODE_STRAY_POS /\
  (forall i, 0 <= i -> at_pos (removed p h) i = if i =? p then at_pos h (h_size h - 1) else at_pos h i).
Proof.
  intros Hw Hp. pose proof Hw as [Hcap Hs Hsm Hl Hb]. set (e := h_size h - 1).
  assert (at_pos h e <> at_pos h p) as Hne by (intros E; apply (at_pos_inj h Hw) in E; lia).
  assert (forall i, 0 <= i -> at_pos (removed p h) i = if i =? p then at_pos h e else at_pos h i) as Ha
    by (intros i Hi; apply (at_pos_set h p (at_pos h e) i); lia).
  assert (h_pos (removed p h) !! at_pos h p = Some HEAP_NODE_STRAY_POS) as Hst
    by (unfold removed; cbn; rewrite lookup_insert_ne by done; by rewrite lookup_insert_eq).
  assert (forall i, 0 <= i < e -> i <> p -> at_pos h i <> at_pos h p /\ at_pos h i <> at_pos h e) as Hd
    by (intros i Hi Hip; split; intros E; apply (at_pos_inj h Hw) in E; lia).
  split; [|split; [|by split]].
  - split; cbn; [by rewrite length_insert|lia|lia|..].
    + intros i Hi. rewrite Ha by lia. destruct (Z.eqb_spec i p) as [->|Hip]; [by rewrite lookup_insert_eq|].
      destruct (Hd i ltac:(lia) Hip). rewrite !lookup_insert_ne by done. apply Hl. lia.
    + intros n i. destruct (Z.eq_dec n (at_pos h e)) as [->|Hn1].
      { rewrite lookup_insert_eq. intros [= <-] _. split; [lia|]. rewrite Ha by lia. by rewrite Z.eqb_refl. }
      rewrite lookup_insert_ne by done. destruct (Z.eq_dec n (at_pos h p)) as [->|Hn2].
      { rewrite lookup_insert_eq. intros [= <-] Hf. done. }
      rewrite lookup_insert_ne by done. intros E Hi. destruct (Hb n i E Hi) as [Hr En].
      assert (i <> e /\ i <> p) by (split; intros Ei; subst i; congruence).
      split; [lia|]. rewrite Ha by lia. destruct (Z.eqb_spec i p); [lia|done].
  - intros y. unfold member. cbn. split.
    + intros (i & Hi & E). rewrite Ha in E by lia. destruct (Z.eqb_spec i p) as [->|Hip]; subst y.
      * split; [exists e; split; [lia|done]|done].
      * split; [exists i; split; [lia|done]|]. apply (Hd i ltac:(lia) Hip).
    + intros [(i & Hi & <-) Hy]. destruct (Z.eq_dec i e) as [->|Hie].
      * exists p. split; [lia|]. rewrite Ha by lia. by rewrite Z.eqb_refl.
      * exists i. split; [lia|]. rewrite Ha by lia. by destruct (Z.eqb_spec i p) as [->|].
Qed.

(** The last node taken out. *)
Definition dropped h : heap :=
  h <| h_size := h_size h - 1 |>
    <| h_pos ::= insert (at_pos h (h_size h - 1)) HEAP_NODE_STRAY_POS |>.

Lemma dropped_wf h :
  heap_wf h -> 0 < h_size h ->
  heap_wf (dropped h) /\ (forall y, member (dropped h) y <-> member h y /\ y <> at_pos h (h_size h - 1)).
Proof.
  intros Hw Hp. pose proof Hw as [Hcap Hs Hsm Hl Hb]. set (e := h_size h - 1).
  assert (forall i, 0 <= i < e -> at_pos h i <> at_pos h e) as Hd
    by (intros i Hi E; apply (at_pos_inj h Hw) in E; lia).
  split.
  - split; cbn; [done|lia|lia|..].
    + intros i Hi. change (at_pos (dropped h) i) with (at_pos h i). rewrite lookup_insert_ne.
      * apply Hl. lia.
      * apply not_eq_sym, Hd. lia.
    + intros n i. destruct (Z.eq_dec n (at_pos h e)) as [->|Hn1].
      { rewrite lookup_insert_eq. intros [= <-] Hf. done. }
      rewrite lookup_insert_ne by done. intros E Hi. destruct (Hb n i E Hi) as [Hr En].
      assert (i <> e) by (intros Ei; subst i; congruence). split; [lia|done].
  - intros y. unfold member. cbn. split.
    + intros (i & Hi & <-). split; [exists i; split; [lia|done]|]. apply Hd. lia.
    + intros [(i & Hi & <-) Hy]. exists i. split; [|done].
      assert (i <> e) by (intros Ei; subst i; congruence). lia.
Qed.

Lemma heap_delete_spec x h :
  heap_ok h -> member h x ->
  wp (heap_delete less x) (fun _ h' => heap_ok h' /\ h_size h' = h_size h - 1 /\
    h_pos h' !! x = Some HEAP_NODE_STRAY_POS /\
    forall y, member h' y <-> member h y /\ y <> x) h.
Proof.
  intros [Hw Ho] (p & Hp & <-). unfold heap_delete. apply wp_bind, wp_gets.
  pose proof Hw as [Hcap Hs Hsm Hl Hb]. destruct (Z.eqb_spec (h_size h) 0); [lia|].
  apply wp_bind, wp_assert. split.
  { unfold heap_node_is_stray. rewrite node_pos_at by done. apply negb_true_iff, Z.eqb_neq.
    unfold HEAP_NODE_STRAY_POS. lia. }
  rewrite uwrap_small by lia. apply wp_bind, wp_modify, wp_bind, wp_gets.
  change (node_pos (h <| h_size := h_size h - 1 |>) (at_pos h p)) with (node_pos h (at_pos h p)).
  rewrite node_pos_at by done. apply wp_bind, wp_modify.
  destruct (Z.eqb_spec p (h_size h - 1)) as [->|Hne].
  { apply wp_ret. destruct (dropped_wf h Hw ltac:(lia)) as [Hw' Hm']. split; [split; [done|]|].
    - intros i Hi Hk. cbn in Hi. apply Ho; [lia|done].
    - split; [done|]. split; [cbn; by rewrite lookup_insert_eq|done]. }
  apply wp_bind, wp_harr_get; [cbn; lia|]. apply wp_bind, wp_harr_set; [cbn; lia|].
  apply wp_bind, wp_update_link; [cbn; rewrite length_insert; lia|].
  rewrite at_pos_set, Z.eqb_refl by (cbn; lia).
  destruct (removed_wf h p Hw ltac:(lia)) as (Hw' & Hm' & Hst & Ha).
  match goal with |- wp _ _ ?s => change s with (removed p h) end.
  apply wp_bind, wp_harr_get; [cbn; rewrite length_insert; lia|].
  eapply wp_mono; [apply update_node_spec; [done| |cbn; lia]|].
  - split.
    + intros i Hi _ Hip Hpi. cbn in Hi. unfold edge. rewrite !Ha by (unfold parent; lia).
      destruct (Z.eqb_spec i p), (Z.eqb_spec (parent i) p); try done. apply Ho; [lia|unfold parent; lia].
    + intros Hp0 _ c Hc Ec. cbn in Hc. rewrite !Ha by (unfold parent in *; lia).
      destruct (Z.eqb_spec (parent p) p); [unfold parent in *; lia|].
      destruct (Z.eqb_spec c p); [unfold parent in *; lia|].
      apply (le_trans _ (at_pos h p)); [apply Ho; unfold parent; lia|].
      assert (edge h c) as Hec by (apply Ho; unfold parent in *; lia). unfold edge in Hec. by rewrite Ec in Hec.
  - intros _ h' (Hw2 & Hs2 & Ho2). split; [done|]. split; [apply (sn_size _ _ Hs2)|]. split.
    + rewrite (sn_other _ _ Hs2); [done|]. rewrite Hm'. naive_solver.
    + intros y. by rewrite (sn_member _ _ Hs2), Hm'.
Qed.

Lemma heap_pop_spec h :
  heap_ok h ->
  wp (heap_pop less) (fun r h' =>
    match r with
    | None => h_size h = 0 /\ h' = h
    | Some x => heap_ok h' /\ h_size h' = h_size h - 1 /\ member h x /\
        h_pos h' !! x = Some HEAP_NODE_STRAY_POS /\
        (forall y, member h y -> le x y) /\ (forall y, member h' y <-> member h y /\ y <> x)
    end) h.
Proof.
  intros [Hw Ho]. unfold heap_pop. apply wp_bind, wp_gets. pose proof Hw as [Hcap Hs Hsm Hl Hb].
  destruct (Z.eqb_spec (h_size h) 0); [by apply wp_ret|].
  apply wp_bind, wp_harr_get; [lia|]. assert (member h (at_pos h 0)) as Hm by (exists 0; split; [lia|done]).
  apply wp_bind. eapply wp_mono; [by apply heap_delete_spec|]. intros _ h' (Hok & Hsz & Hst & Hmem).
  apply wp_ret. split; [done|]. split; [done|]. split; [done|]. split; [done|]. split; [|done].
  intros y (i & Hi & <-). by apply ordered_top.
Qed.

(** ** The check *)

Lemma check_loop_spec fuel h p :
  heap_wf h -> 0 <= p -> h_size h <= p + Z.of_nat fuel -> 2 * p <= h_size h ->
  (forall i, 0 < i < h_size h -> parent i < p -> edge h i) ->
  wp (check_loop less fuel p) (fun rc h' => h' = h /\
    ((rc = 0 /\ ordered h) \/ (rc = -1 /\ ~ ordered h))) h.
Proof.
  revert p. induction fuel as [|fuel IH]; intros p Hw Hp Hf Hp2 He; cbn [check_loop];
    pose proof (hw_small h Hw) as Hsm; pose proof (hw_size h Hw) as Hsz;
    pose proof (hw_capacity h Hw) as Hcap; rewrite !uwrap_small by lia;
    apply wp_bind, wp_gets; set (lc := 2 * p + 1); set (rcd := 2 * p + 2);
    (destruct (Z.ltb_spec lc (h_size h));
     [|apply wp_ret; split; [done|]; left; split; [done|]; intros i Hi _; apply He; [done|unfold parent, lc in *; lia]]).
  { lia. }
  assert (forall d, 0 < d -> parent d = p <-> d = lc \/ d = rcd) as Hchild
    by (intros d Hd; unfold parent, lc, rcd; lia).
  apply wp_bind.
  assert (wp (if rcd <? h_size h then r ← harr_get rcd; l ← harr_get lc;
                mret (if less r l then rcd else lc) else mret lc)
    (fun c h' => h' = h /\ 0 < c < h_size h /\ parent c = p /\
       forall d, 0 < d < h_size h -> parent d = p -> le (at_pos h c) (at_pos h d)) h) as Hmin.
  { destruct (Z.ltb_spec rcd (h_size h)).
    - apply wp_bind, wp_harr_get; [lia|]. apply wp_bind, wp_harr_get; [lia|]. apply wp_ret.
      destruct (less (at_pos h rcd) (at_pos h lc)) eqn:E; (split; [done|]); (split; [lia|]);
        (split; [apply Hchild; lia|]); intros d Hd [->| ->]%Hchild; try lia;
        try apply le_refl; [by apply less_le|done].
    - apply wp_ret. split; [done|]. split; [lia|]. split; [apply Hchild; lia|].
      intros d Hd [->| ->]%Hchild; [apply le_refl|lia|lia]. }
  eapply wp_mono; [exact Hmin|]. intros c h0 (-> & Hc & Ec & Hcmin).
  apply wp_bind, wp_harr_get; [lia|]. apply wp_bind, wp_harr_get; [lia|].
  destruct (less (at_pos h c) (at_pos h p)) eqn:Hless.
  - apply wp_ret. split; [done|]. right. split; [done|]. intros Ho.
    specialize (Ho c Hc ltac:(lia)). unfold edge, le in Ho. rewrite Ec in Ho. congruence.
  - apply IH; [done|lia|lia|lia|]. intros i Hi Hpi.
    destruct (Z.eq_dec (parent i) p) as [E|]; [|apply He; lia].
    unfold edge. rewrite E. eapply le_trans; [exact Hless|]. by apply Hcmin.
Qed.

(** ** Properties *)

(** C31: every operation keeps the heap a heap.  From a heap in order, with back
    links that agree with the array: insert adds exactly the new node or fails
    without a change, delete takes exactly the given node out and marks it as
    stray, and update_all puts a heap without any order in order with the same
    nodes.  No operation accesses the array out of its bounds. *)
Theorem heap_ops_keep_heap h :
  heap_wf h ->
  (forall x oom, ordered h -> ~ member h x -> h_size h + 1 < 2 ^ 31 ->
     wp (heap_insert less x oom) (fun rc h' => (rc = -1 /\ h' = h /\ oom = true) \/
       (rc = 0 /\ heap_ok h' /\ forall y, member h' y <-> y = x \/ member h y)) h) /\
  (forall x, ordered h -> member h x ->
     wp (heap_delete less x) (fun _ h' => heap_ok h' /\ heap_node_is_stray x h' = true /\
       forall y, member h' y <-> member h y /\ y <> x) h) /\
  wp (update_all less) (fun _ h' => heap_ok h' /\ forall y, member h' y <-> member h y) h.
Proof.
  intros Hw. split; [|split].
  - intros x oom Ho Hx Hs. eapply wp_mono; [by apply heap_insert_spec|].
    intros rc h' [|(? & ? & _ & ?)]; [by left|by right].
  - intros x Ho Hx. eapply wp_mono; [by apply heap_delete_spec|].
    intros _ h' (Hok & _ & Hst & Hm). split; [done|]. split; [|done].
    unfold heap_node_is_stray, node_pos. rewrite Hst. apply Z.eqb_refl.
  - eapply wp_mono; [by apply update_all_spec|]. intros _ h' (Hw' & Hs & Ho). split; [done|]. apply Hs.
Qed.

(** the check of the heap is exact: it returns 0 if every node is not below
    its parent and -1 otherwise, and changes nothing. *)
Theorem heap_check_exact h :
  heap_wf h ->
  wp (heap_check less) (fun rc h' => h' = h /\
    ((rc = 0 /\ ordered h) \/ (rc = -1 /\ ~ ordered h))) h.
Proof.
  intros Hw. unfold heap_check. apply wp_bind, wp_gets. pose proof (hw_size h Hw).
  apply check_loop_spec; [done|lia|lia|lia|]. intros i Hi Hp. unfold parent in Hp. lia.
Qed.

Fixpoint insert_all (xs : list Z) : hprog unit :=
  match xs with
  | [] => skip
  | x :: xs => rc ← heap_insert less x false; assert (fun _ => rc =? 0);; insert_all xs
  end.
Fixpoint pop_all (n : nat) : hprog (list Z) :=
  match n with
  | 0%nat => mret []
  | S n =>
      o ← heap_pop less;
      match o with None => abort | Some x => xs ← pop_all n; mret (x :: xs) end
  end.

Lemma insert_all_spec xs h :
  heap_ok h -> NoDup xs -> (forall x, x ∈ xs -> ~ member h x) ->
  h_size h + Z.of_nat (length xs) < 2 ^ 31 ->
  wp (insert_all xs) (fun _ h' => heap_ok h' /\ h_size h' = h_size h + Z.of_nat (length xs) /\
    forall y, member h' y <-> y ∈ xs \/ member h y) h.
Proof.
  revert h. induction xs as [|x xs IH]; intros h Hok Hnd Hx Hs; cbn [insert_all].
  { apply wp_ret. split; [done|]. split; [cbn; lia|]. intros y. rewrite elem_of_nil. tauto. }
  rewrite length_cons in *. apply NoDup_cons in Hnd as [Hni Hnd]. apply wp_bind.
  eapply wp_mono; [apply heap_insert_spec; [done|apply Hx; by left|lia]|].
  intros rc h1 [(_ & _ & Hf)|(-> & Hok1 & Hs1 & Hm1)]; [done|].
  apply wp_bind, wp_assert. split; [done|].
  eapply wp_mono; [apply IH; [done|done| |lia]|].
  - intros y Hy. rewrite Hm1. intros [->|Hm]; [done|]. by apply (Hx y); [right|].
  - intros _ h2 (Hok2 & Hs2 & Hm2). split; [done|]. split; [lia|]. intros y.
    rewrite Hm2, Hm1, elem_of_cons. tauto.
Qed.

Lemma pop_all_spec (n : nat) h :
  heap_ok h -> h_size h = Z.of_nat n ->
  wp (pop_all n) (fun ys h' => h_size h' = 0 /\ NoDup ys /\ StronglySorted le ys /\
    forall y, y ∈ ys <-> member h y) h.
Proof.
  revert h. induction n as [|n IH]; intros h Hok Hs; cbn [pop_all].
  { apply wp_ret. split; [lia|]. split; [apply NoDup_nil_2|]. split; [constructor|].
    intros y. rewrite elem_of_nil. split; [done|]. intros (i & Hi & _). lia. }
  apply wp_bind. eapply wp_mono; [by apply heap_pop_spec|]. intros [x|] h1; [|lia].
  intros (Hok1 & Hs1 & Hx & _ & Hle & Hm). apply wp_bind.
  eapply wp_mono; [apply IH; [done|lia]|]. intros ys h2 (Hs2 & Hnd & Hso & Hy). apply wp_ret.
  assert (x ∉ ys) as Hni by (rewrite Hy, Hm; by intros [_ []]).
  split; [done|]. split; [by apply NoDup_cons|]. split.
  - constructor; [done|]. apply Forall_forall. intros y Hin. apply Hle, Hm, Hy, Hin.
  - intros y. rewrite elem_of_cons, Hy, Hm. destruct (Z.eq_dec y x) as [->|]; tauto.
Qed.

Lemma create_ok pos :
  (forall n i, pos !! n = Some i -> i = HEAP_NODE_STRAY_POS) -> heap_ok (create pos).
Proof.
  intros Hpos. split; [split; cbn; try done; try lia|intros i Hi; cbn in Hi; lia].
  intros n i E Hi. by apply Hpos in E.
Qed.

(** The heap sorts.  Whatever distinct stray nodes are inserted into a new
    heap, popping them all gives the same nodes, each once, and none after a
    node that it is less than. *)
Theorem heap_sorts xs pos :
  (forall n i, pos !! n = Some i -> i = HEAP_NODE_STRAY_POS) ->
  NoDup xs -> Z.of_nat (length xs) < 2 ^ 31 ->
  wp (insert_all xs;; pop_all (length xs)) (fun ys h' =>
    ys ≡ₚ xs /\ StronglySorted le ys /\ h_size h' = 0) (create pos).
Proof.
  intros Hpos Hnd Hl. apply wp_bind.
  assert (forall x, ~ member (create pos) x) as Hempty by (intros x (i & Hi & _); cbn in Hi; lia).
  eapply wp_mono; [apply insert_all_spec; [by apply create_ok|done|by intros|done]|].
  intros _ h (Hok & Hs & Hm). eapply wp_mono; [by apply pop_all_spec|].
  intros ys h' (Hs' & Hnd' & Hso & Hy). split; [|by split].
  apply NoDup_Permutation; [done|done|]. intros y. rewrite Hy, Hm. specialize (Hempty y). tauto.
Qed.
End Order.

(** The order of a heap is that of its members. *)
Lemma heap_ok_ext less less' h :
  (forall y z, member h y -> member h z -> less y z = less' y z) -> heap_ok less h -> heap_ok less' h.
Proof.
  intros H [Hw Ho]. split; [done|]. intros i Hi Hp. unfold edge, le. rewrite <- H; [by apply Ho|..].
  - exists i. split; [lia|done].
  - exists (parent i). split; [unfold parent; lia|done].
Qed.

(** A node that becomes the least of all may stay at the top. *)
Lemma heap_ok_top less less' h x :
  heap_ok less h -> at_pos h 0 = x -> (forall y, less' y x = false) ->
  (forall y z, y <> x -> z <> x -> less' y z = less y z) -> heap_ok less' h.
Proof.
  intros [Hw Ho] Ex Hx Hsame. split; [done|]. intros i Hi Hp. unfold edge, le.
  destruct (Z.eq_dec (parent i) 0) as [E|Hne]; [rewrite E, Ex; apply Hx|].
  assert (forall j, 0 < j < h_size h -> at_pos h j <> x) as Hj.
  { intros j Hj E. rewrite <- Ex in E. apply (at_pos_inj h Hw) in E; lia. }
  rewrite Hsame; [by apply Ho|apply Hj; lia|apply Hj; unfold parent in *; lia].
Qed.

Lemma member_stray h x : heap_wf h -> heap_node_is_stray x h = true <-> ~ member h x.
Proof.
  intros Hw. rewrite member_pos by done. unfold heap_node_is_stray, node_pos. rewrite Z.eqb_eq.
  destruct (h_pos h !! x) as [i|] eqn:E; cbn; [|naive_solver].
  split; [naive_solver|]. intros Hn. destruct (Z.eq_dec i HEAP_NODE_STRAY_POS); [done|]. exfalso. eauto.
Qed.
Lemma heap_top_spec less `{!StrictWeak less} h :
  heap_ok less h ->
  wp heap_top (fun top h' => h' = h /\
    match top with
    | None => h_size h = 0
    | Some x => at_pos h 0 = x /\ member h x /\ forall y, member h y -> less y x = false
    end) h.
Proof.
  intros [Hw Ho]. unfold heap_top. apply wp_bind, wp_gets. destruct (Z.eqb_spec (h_size h) 0); [done|].
  pose proof Hw as [Hc Hs _ _ _]. apply wp_bind, wp_harr_get; [lia|]. apply wp_ret. split; [done|].
  split; [done|]. split; [exists 0; split; [lia|done]|].
  intros y (i & Hi & <-). by apply (ordered_top less).
Qed.

(** The value of one node has changed in any way: [less] compares the new
    values and [old] the values before; they agree on all other nodes. *)
Lemma heap_update_spec less old `{!StrictWeak less, !StrictWeak old} h x :
  heap_ok old h -> member h x -> (forall y z, y <> x -> z <> x -> less y z = old y z) ->
  wp (heap_update less x) (fun _ h' => heap_ok less h' /\ same_nodes h h') h.
Proof.
  intros [Hw Ho] (p & Hp & <-) Hsame. unfold heap_update.
  assert (forall i, 0 <= i < h_size h -> i <> p -> at_pos h i <> at_pos h p) as Hd
    by (intros i Hi Hip E; apply (at_pos_inj h Hw) in E; lia).
  eapply wp_mono; [apply update_node_spec; [done|done| |done]|].
  - split.
    + intros i Hi _ Hip Hpi. unfold edge, le. rewrite Hsame.
      * apply Ho; unfold parent; lia.
      * apply Hd; [lia|done].
      * apply Hd; [unfold parent; lia|done].
    + intros Hp0 _ c Hc Ec. unfold le. rewrite Hsame.
      * apply (le_trans old _ (at_pos h p)); [apply Ho; unfold parent; lia|].
        assert (edge old h c) as He by (apply Ho; unfold parent in *; lia).
        unfold edge in He. by rewrite Ec in He.
      * apply Hd; unfold parent in Ec; lia.
      * apply Hd; unfold parent; lia.
  - by intros _ h' (Hw' & Hs & Ho').
Qed.

(** update restores the order after the value of one node has changed in
    any way.  [less] compares the new values and [old] the values before; they
    agree on all other nodes. *)
Theorem heap_update_restores less old `{!StrictWeak less, !StrictWeak old} h x :
  heap_ok old h -> member h x -> (forall y z, y <> x -> z <> x -> less y z = old y z) ->
  wp (heap_update less x) (fun _ h' => heap_ok less h' /\ forall y, member h' y <-> member h y) h.
Proof.
  intros Hok Hx Hsame. eapply wp_mono; [by eapply heap_update_spec|].
  intros _ h' [Hok' Hs]. split; [done|]. apply Hs.
Qed.

(** ** A heap of numbers *)

Definition by_value (value : Z -> Z) (x y : Z) : bool := value x <? value y.
#[export] Instance by_value_weak value : StrictWeak (by_value value).
Proof. split; unfold by_value; intros; lia. Qed.
Abbreviation by_id := (by_value (fun x => x)).

Lemma small_heap : exists h, insert_all by_id [5; 3; 8; 1] (create ∅) = Done (tt, h) /\
  heap_ok by_id h /\ h_size h = 4 /\ forall y, member h y <-> y ∈ [5; 3; 8; 1].
Proof.
  assert (heap_ok by_id (create ∅)) as Hok by (by apply create_ok).
  pose proof (insert_all_spec by_id [5; 3; 8; 1] (create ∅) Hok) as H.
  destruct (proj1 (wp_total _ _ _) (H ltac:(by apply (bool_decide_unpack _); vm_compute)
    ltac:(intros x _ (i & Hi & _); cbn in Hi; lia) ltac:(cbn; lia))) as ([] & h & E & Hh & Hs & Hm).
  exists h. split; [exact E|]. split; [exact Hh|]. split; [exact Hs|].
  intros y. rewrite Hm. split; [|by left]. intros [|(i & Hi & _)]; [done|]. cbn in Hi. lia.
Qed.

Lemma small_elems : 3 ∈ [5; 3; 8; 1] /\ 8 ∈ [5; 3; 8; 1].
Proof. split; apply (bool_decide_unpack _); by vm_compute. Qed.

Lemma heap_ops_keep_heap_witness :
  exists h, insert_all by_id [5; 3; 8; 1] (create ∅) = Done (tt, h) /\
    wp (heap_delete by_id 3) (fun _ h' => heap_ok by_id h' /\ ~ member h' 3 /\ member h' 8) h.
Proof.
  destruct small_heap as (h & E & [Hw Ho] & Hs & Hm). exists h. split; [exact E|].
  destruct (heap_ops_keep_heap by_id h Hw) as (_ & Hdel & _).
  eapply wp_mono; [apply (Hdel 3 Ho), Hm, small_elems|].
  intros _ h' (Hok & _ & Hmem). split; [exact Hok|]. rewrite !Hmem.
  split; [by intros [_ []]|]. split; [apply Hm, small_elems|lia].
Defined.

Lemma heap_check_exact_witness :
  exists h, insert_all by_id [5; 3; 8; 1] (create ∅) = Done (tt, h) /\
    heap_check by_id h = Done (0, h).
Proof.
  destruct small_heap as (h & E & [Hw Ho] & Hs & Hm). exists h. split; [exact E|].
  destruct (proj1 (wp_total _ _ _) (heap_check_exact by_id h Hw)) as (rc & h' & Ec & -> & [[-> _]|[_ Hno]]);
    [exact Ec|destruct (Hno Ho)].
Defined.

Lemma heap_sorts_witness :
  wp (insert_all by_id [5; 3; 8; 1];; pop_all by_id 4) (fun ys _ =>
    ys ≡ₚ [5; 3; 8; 1] /\ StronglySorted (le by_id) ys) (create ∅).
Proof.
  eapply wp_mono; [apply (heap_sorts by_id [5; 3; 8; 1] ∅); [done| |cbn; lia]|].
  - by apply (bool_decide_unpack _); vm_compute.
  - intros ys h' (Hp & Hs & _). by split.
Defined.

(** Node 3 gets the value 9. *)
Lemma heap_update_restores_witness :
  let less := by_value (fun x => if x =? 3 then 9 else x) in
  exists h, insert_all by_id [5; 3; 8; 1] (create ∅) = Done (tt, h) /\
    wp (heap_update less 3) (fun _ h' => heap_ok less h' /\ member h' 3) h.
Proof.
  intros less. destruct small_heap as (h & E & Hok & Hs & Hm). exists h. split; [exact E|].
  eapply wp_mono; [apply (heap_update_restores less by_id h 3 Hok)|].
  - apply Hm, small_elems.
  - intros y z Hy Hz. clear -Hy Hz. unfold less, by_value.
    destruct (Z.eqb_spec y 3), (Z.eqb_spec z 3); [lia..|reflexivity].
  - intros _ h' [Hok' Hmem]. split; [exact Hok'|]. apply Hmem, Hm, small_elems.
Defined.
