(* ===== verification/VyStmt.v ===== *)
(** * Statements of vinyl (src/box/vy_stmt.h, vy_upsert.c, vy_history.c)

    A statement is what a request has left in an LSM tree: a tuple or a key
    with a type, an LSN and flags, and for an UPSERT the groups of update
    operations.  Tuples, key definitions and update operations are the
    interface [Tuples]: how two tuples compare by their key, which columns the
    key has, what a group of operations makes of a tuple and which columns it
    may have changed, and whether a tuple fits the format of the space.

    [s_addr] tells apart the statements that were read from a source: the code
    compares pointers to find out whether it has returned one of them.  A
    statement made by the code itself has no such address.  Reference counts
    are not modelled, only whether a statement has one ([s_refable]).

    Memory may run out at any allocation: the state of the programs is the
    list of the outcomes of the next allocations, [true] for a failure; once
    the list is used up all of them succeed. *)

From stdpp Require Import list.
From S2P Require Import Prelude.

Open Scope Z_scope.

Inductive iproto_type := IPROTO_INSERT | IPROTO_REPLACE | IPROTO_UPSERT | IPROTO_DELETE.
#[export] Instance iproto_type_eq_dec : EqDecision iproto_type.
Proof. solve_decision. Defined.

Definition VY_STMT_DEFERRED_DELETE : Z := 1.
Definition VY_STMT_SKIP_READ : Z := 2.
Definition VY_STMT_UPDATE : Z := 4.

(** [xrow_upsert_execute] is [None] for a ClientError, else the new tuple and
    the mask of the columns that may have changed. *)
Class Tuples (T O : Type) := {
  tuple_compare : T -> T -> Z;
  key_column_mask : Z;
  xrow_upsert_execute : O -> T -> option (T * Z);
  tuple_validate_raw : T -> bool;
}.

(** The keys of tuples are in a total order, and a change outside of the columns
    of the key leaves the key as it was (src/box/column_mask.h).  This is about
    tuples, which have all the parts of the key; what is searched for may have
    fewer of them and is the interface [SearchKeys] below. *)
Class TuplesLaws (T O : Type) `{Tuples T O} : Prop := {
  compare_refl : forall a, tuple_compare a a = 0;
  compare_flip : forall a b, tuple_compare b a < 0 <-> 0 < tuple_compare a b;
  compare_trans : forall a b c,
    tuple_compare a b <= 0 -> tuple_compare b c <= 0 -> tuple_compare a c <= 0;
  execute_mask : forall ops t t' mask, xrow_upsert_execute ops t = Some (t', mask) ->
    Z.land key_column_mask mask = 0 -> tuple_compare t t' = 0;
}.

(** What readers search for: a tuple or a key, which may have only the first
    parts.  Comparisons are vy_entry_compare of a statement with what is
    searched for and the other way round; only the parts that both have are
    compared, so that many tuples can be equal to a key. *)
Class SearchKeys (T K : Type) := {
  tuple_compare_with_key : T -> K -> Z;
  key_compare_with_tuple : K -> T -> Z;
  tuple_key : T -> K;   (** a tuple is searched for *)
}.

(** A key cuts the order of the tuples in three parts: those below it, those
    equal to it and those above it. *)
Class SearchKeysLaws (T O K : Type) `{Tuples T O} `{SearchKeys T K} : Prop := {
  key_flip_lt : forall t k, key_compare_with_tuple k t < 0 <-> 0 < tuple_compare_with_key t k;
  key_flip_gt : forall t k, 0 < key_compare_with_tuple k t <-> tuple_compare_with_key t k < 0;
  key_le : forall a b k, tuple_compare a b <= 0 -> tuple_compare_with_key b k <= 0 -> tuple_compare_with_key a k <= 0;
  key_lt : forall a b k, tuple_compare a b <= 0 -> tuple_compare_with_key b k < 0 -> tuple_compare_with_key a k < 0;
  key_of_tuple : forall a b, tuple_compare_with_key a (tuple_key b) = tuple_compare a b;
}.

(** When only tuples are searched for. *)
#[export] Instance search_tuples T O `{Tuples T O} : SearchKeys T T := {
  tuple_compare_with_key := tuple_compare;
  key_compare_with_tuple := tuple_compare;
  tuple_key t := t;
}.
#[export] Instance search_tuples_laws T O `{TuplesLaws T O} : SearchKeysLaws T O T.
Proof.
  split; cbn; [intros t k; apply compare_flip|intros t k; pose proof (compare_flip k t); lia|apply compare_trans| |done].
  - intros a b k Hab Hbk. destruct (Z.lt_ge_cases (tuple_compare a k) 0) as [|Hge]; [done|].
    assert (tuple_compare k a <= 0) by (pose proof (compare_flip k a); pose proof (compare_flip a k); lia).
    assert (tuple_compare k b <= 0) by (by eapply compare_trans). pose proof (compare_flip k b). lia.
Qed.

Record vy_stmt (T O : Type) := mk_stmt {
  s_addr : option Z;
  s_type : iproto_type;
  s_lsn : Z;
  s_flags : Z;
  s_refable : bool;
  s_tuple : T;
  s_ops : list O;
  s_n_upserts : Z;   (** of an UPSERT in memory *)
}.
Arguments mk_stmt {T O}.
Arguments s_addr {T O}. Arguments s_type {T O}. Arguments s_lsn {T O}. Arguments s_flags {T O}.
Arguments s_refable {T O}. Arguments s_tuple {T O}. Arguments s_ops {T O}. Arguments s_n_upserts {T O}.
#[export] Instance vy_stmt_rebuild T O : Rebuild (vy_stmt T O) := fun s =>
  mk_stmt (s_addr s) (s_type s) (s_lsn s) (s_flags s) (s_refable s) (s_tuple s) (s_ops s) (s_n_upserts s).

(** ** Allocations *)

Abbreviation oprog := (prog (list bool)).

Definition fails : oprog bool := fun oom =>
  match oom with
  | [] => Done (false, [])
  | b :: oom => Done (b, oom)
  end.

Section Stmt.
Context {T O : Type} `{!Tuples T O}.
Abbreviation stmt := (vy_stmt T O).

Definition has_type (t : iproto_type) (s : stmt) : bool := bool_decide (s_type s = t).
Definition has_flag (f : Z) (s : stmt) : bool := negb (Z.land (s_flags s) f =? 0).

(** vy_entry_is_equal, when one of the two was read from a source. *)
Definition vy_entry_is_equal (a b : stmt) : bool :=
  match s_addr a, s_addr b with
  | Some x, Some y => x =? y
  | _, _ => false
  end.

Definition vy_stmt_dup (s : stmt) : oprog (option stmt) :=
  oom ← fails;
  mret (if oom : bool then None else Some (s <| s_addr := None |> <| s_refable := true |>)).

Definition vy_stmt_new_replace (t : T) : oprog (option stmt) :=
  oom ← fails;
  mret (if oom : bool then None else Some (mk_stmt None IPROTO_REPLACE 0 0 true t [] 0)).

Definition vy_stmt_new_upsert (t : T) (ops : list O) : oprog (option stmt) :=
  oom ← fails;
  mret (if oom : bool then None else Some (mk_stmt None IPROTO_UPSERT 0 0 true t ops 0)).

(** ** Upserts *)

Definition key_update_can_be_skipped (key_mask update_mask : Z) : bool :=
  Z.land key_mask update_mask =? 0.

(** The statement made for the comparison is not checked for NULL. *)
Definition vy_apply_result_does_cross_pk (old result : T) (col_mask : Z) : oprog bool :=
  if key_update_can_be_skipped key_column_mask col_mask then mret false
  else
    tuple ← vy_stmt_new_replace result;
    match tuple with
    | None => abort
    | Some tuple => mret (negb (tuple_compare old (s_tuple tuple) =? 0))
    end.

(** The loop over the groups of operations.  [None] when out of memory, which
    is not told apart from a ClientError if errors are suppressed. *)
Fixpoint apply_groups (base : T) (suppress_error : bool) (groups : list O) (result : T)
    : oprog (option T) :=
  match groups with
  | [] => mret (Some result)
  | ops :: groups =>
      oom ← fails;
      if oom : bool then
        if suppress_error then apply_groups base suppress_error groups result else mret None
      else
        match xrow_upsert_execute ops result with
        | None => apply_groups base suppress_error groups result
        | Some (exec_res, column_mask) =>
            crosses ← vy_apply_result_does_cross_pk base exec_res column_mask;
            if crosses : bool then apply_groups base suppress_error groups result
            else if negb (tuple_validate_raw exec_res) then
              apply_groups base suppress_error groups result
            else apply_groups base suppress_error groups exec_res
        end
  end.

Definition is_void (s : option stmt) : bool :=
  match s with None => true | Some s => has_type IPROTO_DELETE s end.

(** An UPSERT that folds into an insert skips its first group; without one the
    count of groups wraps around and the loop runs out of the statement. *)
Definition vy_apply_upsert_on_terminal_stmt (upsert : stmt) (s : option stmt) (suppress_error : bool)
    : oprog (option stmt) :=
  assert (fun _ => has_type IPROTO_UPSERT upsert);;
  assert (fun _ => match s with None => true | Some s => negb (has_type IPROTO_UPSERT s) end);;
  assert (fun _ => negb (is_void s && match s_ops upsert with [] => true | _ => false end));;
  let base := match s with
              | Some s => if has_type IPROTO_DELETE s then s_tuple upsert else s_tuple s
              | None => s_tuple upsert
              end in
  let groups := if is_void s then tail (s_ops upsert) else s_ops upsert in
  result ← apply_groups base suppress_error groups base;
  match result with
  | None => mret None
  | Some result =>
      r ← vy_stmt_new_replace result;
      mret (match r with
            | None => None
            | Some r => Some (r <| s_lsn := s_lsn upsert |>)
            end)
  end.

Definition vy_apply_upsert (new_stmt : stmt) (old_stmt : option stmt) (suppress_error : bool)
    : oprog (option stmt) :=
  assert (fun _ => has_type IPROTO_UPSERT new_stmt);;
  match old_stmt with
  | Some old =>
      if has_type IPROTO_UPSERT old then
        oom ← fails;
        if oom : bool then mret None
        else
          r ← vy_stmt_new_upsert (s_tuple old) (s_ops old ++ s_ops new_stmt);
          mret (match r with
                | None => None
                | Some r => Some (r <| s_lsn := s_lsn new_stmt |>)
                end)
      else vy_apply_upsert_on_terminal_stmt new_stmt old_stmt suppress_error
  | None => vy_apply_upsert_on_terminal_stmt new_stmt old_stmt suppress_error
  end.

(** ** Histories

    The statements of a key, newest first, as a reader has found them. *)

Definition vy_history_is_terminal (history : list stmt) : bool :=
  match last history with
  | None => false
  | Some s => negb (has_type IPROTO_UPSERT s)
  end.

(** The loop over the rest of the history, from the oldest statement. *)
Fixpoint apply_upserts (ss : list stmt) (curr : option stmt) (applied : Z)
    : oprog (Z * Z * option stmt) :=
  match ss with
  | [] => mret (0, applied, curr)
  | s :: ss =>
      r ← vy_apply_upsert s curr true;
      match r with
      | None => mret (-1, applied + 1, None)
      | Some r => apply_upserts ss (Some r) (applied + 1)
      end
  end.

(** The return code, the number of upserts applied and the result. *)
Definition vy_history_apply (history : list stmt) (keep_delete : bool) : oprog (Z * Z * option stmt) :=
  match rev history with
  | [] => mret (0, 0, None)
  | node :: rest =>
      if vy_history_is_terminal history then
        if negb keep_delete && has_type IPROTO_DELETE node then apply_upserts rest None 0
        else if negb (s_refable node) then
          copy ← vy_stmt_dup node;
          match copy with
          | None => mret (-1, 0, None)
          | Some copy => apply_upserts rest (Some copy) 0
          end
        else apply_upserts rest (Some node) 0
      else apply_upserts (node :: rest) None 0
  end.
End Stmt.
