(* ===== verification/VyWriteIterator.v ===== *)
(** * The write iterator of vinyl (src/box/vy_write_iterator.c)

    Merges in-memory trees (dump) or sorted runs (compaction) into a new run,
    keeping only what the open read views and the newest view can see.  The
    state [wi] is struct vy_write_iterator: the sources, each with its current
    statement and the statements it has not returned yet, the heap of the
    sources (the model of salad/heap.h), the read views with the histories and
    results of the current key, and the deferred DELETE.  [wi_processed] are
    the calls of the deferred DELETE handler, oldest first: the overwritten
    statement and the one that overwrote it.

    A source is a list of statements: errors of reading a run from disk are
    not modelled.  Failures of memory are ([wi_oom]), and those of the handler.
    The virtual source of the end of a key has the address [END_OF_KEY], which
    no other source has.

    The loops over the statements of a key and over keys have as fuel the
    number of statements that are left; the loops over read views the number
    of read views. *)

From stdpp Require Import list gmap.
From S2P Require Import Prelude Heap VyStmt.

Open Scope Z_scope.

Record vy_write_src (T O : Type) := mk_src {
  src_entry : option (vy_stmt T O);
  src_is_end_of_key : bool;
  src_stream : list (vy_stmt T O);   (** what next() will return *)
}.
Arguments mk_src {T O}. Arguments src_entry {T O}.
Arguments src_is_end_of_key {T O}. Arguments src_stream {T O}.
#[export] Instance vy_write_src_rebuild T O : Rebuild (vy_write_src T O) := fun s =>
  mk_src (src_entry s) (src_is_end_of_key s) (src_stream s).

(** [rv_history] has the oldest version first. *)
Record vy_read_view_stmt (T O : Type) := mk_rv {
  rv_vlsn : Z;
  rv_entry : option (vy_stmt T O);
  rv_history : list (vy_stmt T O);
}.
Arguments mk_rv {T O}. Arguments rv_vlsn {T O}. Arguments rv_entry {T O}. Arguments rv_history {T O}.
#[export] Instance vy_read_view_stmt_rebuild T O : Rebuild (vy_read_view_stmt T O) := fun r =>
  mk_rv (rv_vlsn r) (rv_entry r) (rv_history r).

Record vy_write_iterator (T O : Type) := mk_wi {
  wi_srcs : gmap Z (vy_write_src T O);
  wi_src_list : list Z;
  wi_src_heap : heap;
  wi_is_last_level : bool;
  wi_is_primary : bool;
  wi_handler : bool;
  wi_deferred_delete : option (vy_stmt T O);
  wi_rv_used_count : Z;
  wi_stmt_i : Z;
  wi_last : option (vy_stmt T O);
  wi_read_views : list (vy_read_view_stmt T O);
  wi_processed : list (vy_stmt T O * vy_stmt T O);
  wi_oom : list bool;
}.
Arguments mk_wi {T O}. Arguments wi_srcs {T O}. Arguments wi_src_list {T O}.
Arguments wi_src_heap {T O}. Arguments wi_is_last_level {T O}. Arguments wi_is_primary {T O}.
Arguments wi_handler {T O}. Arguments wi_deferred_delete {T O}. Arguments wi_rv_used_count {T O}.
Arguments wi_stmt_i {T O}. Arguments wi_last {T O}. Arguments wi_read_views {T O}.
Arguments wi_processed {T O}. Arguments wi_oom {T O}.
#[export] Instance vy_write_iterator_rebuild T O : Rebuild (vy_write_iterator T O) := fun w =>
  mk_wi (wi_srcs w) (wi_src_list w) (wi_src_heap w) (wi_is_last_level w) (wi_is_primary w)
    (wi_handler w) (wi_deferred_delete w) (wi_rv_used_count w) (wi_stmt_i w) (wi_last w)
    (wi_read_views w) (wi_processed w) (wi_oom w).

Definition END_OF_KEY : Z := 0.

Section WriteIterator.
Context {T O : Type} `{!Tuples T O}.
Abbreviation stmt := (vy_stmt T O).
Abbreviation wi := (vy_write_iterator T O).
Abbreviation wprog := (prog wi).

(** ** Parts of the state *)

Definition on_oom {A} (m : oprog A) : wprog A := fun w =>
  match m (wi_oom w) with
  | Done (a, oom) => Done (a, w <| wi_oom := oom |>)
  | Abort => Abort
  end.

Definition on_heap {A} (m : hprog A) : wprog A := fun w =>
  match m (wi_src_heap w) with
  | Done (a, h) => Done (a, w <| wi_src_heap := h |>)
  | Abort => Abort
  end.

Definition get_src (src : Z) : wprog (vy_write_src T O) := fun w =>
  match wi_srcs w !! src with
  | Some s => Done (s, w)
  | None => Abort
  end.
Definition set_src (src : Z) (s : vy_write_src T O) : wprog unit :=
  modify (fun w => w <| wi_srcs ::= <[ src := s ]> |>).

(** src->entry.stmt, which must not be NULL. *)
Definition src_stmt (src : Z) : wprog stmt :=
  s ← get_src src; match src_entry s with Some e => mret e | None => abort end.

Definition get_rv (i : Z) : wprog (vy_read_view_stmt T O) := fun w =>
  match (if 0 <=? i then wi_read_views w !! Z.to_nat i else None) with
  | Some rv => Done (rv, w)
  | None => Abort
  end.
Definition set_rv (i : Z) (rv : vy_read_view_stmt T O) : wprog unit :=
  modify (fun w => w <| wi_read_views ::= <[ Z.to_nat i := rv ]> |>).

Definition rv_count (w : wi) : Z := Z.of_nat (length (wi_read_views w)).

(** ** The heap of sources *)

Definition heap_lsn (s : vy_write_src T O) (e : stmt) : Z :=
  if src_is_end_of_key s then 0 else s_lsn e.
Definition delete_rank (e : stmt) : Z := if has_type IPROTO_DELETE e then 1 else 0.

Definition entry_less (s1 : vy_write_src T O) (e1 : stmt) (s2 : vy_write_src T O) (e2 : stmt) : bool :=
  let cmp := tuple_compare (s_tuple e1) (s_tuple e2) in
  if negb (cmp =? 0) then cmp <? 0
  else if negb (heap_lsn s1 e1 =? heap_lsn s2 e2) then heap_lsn s2 e2 <? heap_lsn s1 e1
  else delete_rank e1 <? delete_rank e2.

(** A source in the heap has a statement; for the others the order is
    completed by putting them first. *)
Definition heap_less (srcs : gmap Z (vy_write_src T O)) (src1 src2 : Z) : bool :=
  match (s ← srcs !! src1; e ← src_entry s; Some (s, e)),
        (s ← srcs !! src2; e ← src_entry s; Some (s, e)) with
  | Some (s1, e1), Some (s2, e2) => entry_less s1 e1 s2 e2
  | None, Some _ => true
  | _, None => false
  end.

Definition vy_source_heap_insert (src : Z) : wprog Z :=
  oom ← on_oom fails;
  srcs ← gets wi_srcs;
  on_heap (heap_insert (heap_less srcs) src oom).
Definition vy_source_heap_delete (src : Z) : wprog unit :=
  srcs ← gets wi_srcs; on_heap (heap_delete (heap_less srcs) src).
Definition vy_source_heap_update (src : Z) : wprog unit :=
  srcs ← gets wi_srcs; on_heap (heap_update (heap_less srcs) src).
Definition vy_source_heap_top : wprog (option Z) := on_heap heap_top.

(** ** Creation and sources *)

(** The read views are given oldest first. *)
Definition vy_write_iterator_new (is_primary is_last_level : bool) (read_views : list Z)
    (handler : bool) (oom : list bool) : wi :=
  mk_wi ∅ [] (create ∅) is_last_level is_primary handler None 0 (-1) None
    (mk_rv INT64_MAX None [] :: map (fun vlsn => mk_rv vlsn None []) (rev read_views)) [] oom.

(** vy_write_iterator_new_mem and vy_write_iterator_new_slice: [src] is the
    address of the new source. *)
Definition vy_write_iterator_new_src (src : Z) (stream : list stmt) : wprog Z :=
  oom ← on_oom fails;
  if oom : bool then mret (-1)
  else
    set_src src (mk_src None false stream);;
    on_heap (heap_node_create src);;
    modify (fun w => w <| wi_src_list ::= cons src |>);;
    mret 0.

(** iface->next *)
Definition stream_next (src : Z) : wprog unit :=
  s ← get_src src;
  set_src src (match src_stream s with
               | [] => s <| src_entry := None |>
               | e :: rest => s <| src_entry := Some e |> <| src_stream := rest |>
               end).

Definition vy_write_iterator_add_src (src : Z) : wprog Z :=
  stream_next src;;
  s ← get_src src;
  match src_entry s with
  | None => mret 0
  | Some _ => vy_source_heap_insert src
  end.

Definition vy_write_iterator_remove_src (src : Z) : wprog unit :=
  stray ← gets (fun w => heap_node_is_stray src (wi_src_heap w));
  if stray : bool then skip else vy_source_heap_delete src.

Fixpoint remove_srcs (srcs : list Z) : wprog unit :=
  match srcs with
  | [] => skip
  | src :: srcs => vy_write_iterator_remove_src src;; remove_srcs srcs
  end.

Fixpoint add_srcs (srcs : list Z) : wprog Z :=
  match srcs with
  | [] => mret 0
  | src :: srcs =>
      rc ← vy_write_iterator_add_src src;
      if negb (rc =? 0) then mret rc else add_srcs srcs
  end.
Definition vy_write_iterator_start : wprog Z :=
  srcs ← gets wi_src_list;
  rc ← add_srcs srcs;
  if negb (rc =? 0) then remove_srcs srcs;; mret (-1) else mret 0.

(** The results are dropped; a history must not be left. *)
Fixpoint destroy_read_views (rvs : list (vy_read_view_stmt T O)) : option (list (vy_read_view_stmt T O)) :=
  match rvs with
  | [] => Some []
  | rv :: rvs =>
      match rv_history rv with
      | [] => rvs ← destroy_read_views rvs; Some (rv <| rv_entry := None |> :: rvs)
      | _ => None
      end
  end.
Definition vy_write_iterator_stop : wprog unit :=
  rvs ← gets wi_read_views;
  match destroy_read_views rvs with
  | None => abort
  | Some rvs =>
      modify (fun w => w <| wi_read_views := rvs |>);;
      srcs ← gets wi_src_list;
      remove_srcs srcs;;
      modify (fun w => w <| wi_last := None |> <| wi_deferred_delete := None |>
                         <| wi_handler := false |>)
  end.

(** ** Building the history of a key *)

Definition vy_write_iterator_merge_step : wprog unit :=
  top ← vy_source_heap_top;
  match top with
  | None => abort
  | Some src =>
      stream_next src;;
      s ← get_src src;
      match src_entry s with
      | Some _ => vy_source_heap_update src
      | None => vy_write_iterator_remove_src src
      end
  end.

Definition vy_write_iterator_get_vlsn (rv_i : Z) : wprog Z :=
  n ← gets rv_count;
  if n <=? rv_i then mret (-1) else rv ← get_rv rv_i; mret (rv_vlsn rv).

(** vy_write_history_new *)
Definition vy_write_history_new (entry : stmt) (next : list stmt) : wprog (option (list stmt)) :=
  oom ← on_oom fails;
  if oom : bool then mret None
  else
    assert (fun _ => match next with [] => true | n :: _ => s_lsn entry <? s_lsn n end);;
    mret (Some (entry :: next)).

Definition vy_write_iterator_push_rv (entry : stmt) (current_rv_i : Z) : wprog Z :=
  assert (fun w => current_rv_i <? rv_count w);;
  rv ← get_rv current_rv_i;
  assert (fun _ => s_lsn entry <=? rv_vlsn rv);;
  h ← vy_write_history_new entry (rv_history rv);
  match h with
  | None => mret (-1)
  | Some h => set_rv current_rv_i (rv <| rv_history := h |>);; mret 0
  end.

Definition vy_write_iterator_deferred_delete (s : stmt) : wprog Z :=
  if has_type IPROTO_UPSERT s then
    assert (fun _ => negb (has_flag VY_STMT_DEFERRED_DELETE s));; mret 0
  else
    dd ← gets wi_deferred_delete;
    rc ← (match dd with
          | None => mret 0
          | Some d =>
              handler ← gets wi_handler;
              rc ← (if handler && negb (has_type IPROTO_DELETE s) then
                      failed ← on_oom fails;
                      if failed : bool then mret (-1)
                      else modify (fun w => w <| wi_processed ::= fun l => l ++ [(s, d)] |>);; mret 0
                    else mret 0);
              if negb (rc =? 0) then mret (-1)
              else modify (fun w => w <| wi_deferred_delete := None |>);; mret 0
          end);
    if negb (rc =? 0) then mret (-1)
    else if has_flag VY_STMT_DEFERRED_DELETE s then
      assert (fun _ => has_type IPROTO_DELETE s || has_type IPROTO_REPLACE s);;
      modify (fun w => w <| wi_deferred_delete := Some s |>);; mret 0
    else mret 0.

(** The variables of the loop: current_rv_i, current_rv_lsn, merge_until_lsn. *)
Definition cursor : Type := Z * Z * Z.

Definition next_view (c : cursor) : wprog cursor :=
  let '(rv_i, _, until) := c in
  lsn ← vy_write_iterator_get_vlsn (rv_i + 1 + 1);
  mret (rv_i + 1, until, lsn).

(** Skip the read views that see the same version of the key. *)
Fixpoint skip_views (fuel : nat) (lsn : Z) (c : cursor) : wprog cursor :=
  if lsn <=? snd c then
    match fuel with
    | 0%nat => abort
    | S fuel => c ← next_view c; skip_views fuel lsn c
    end
  else mret c.

(** One statement of the key: the return code, whether it was saved, and the
    new variables. *)
Definition take_stmt (s : stmt) (c : cursor) : wprog (Z * bool * cursor) :=
  if snd (fst c) <? s_lsn s then mret (0, false, c)
  else
    n ← gets rv_count;
    c ← skip_views (S (Z.to_nat n)) (s_lsn s) c;
    last ← gets wi_is_last_level;
    if has_type IPROTO_DELETE s && last && (snd c <? 0) then
      mret (0, false, (fst (fst c), -1, snd c))
    else
      rc ← vy_write_iterator_push_rv s (fst (fst c));
      if negb (rc =? 0) then mret (rc, false, c)
      else if has_type IPROTO_UPSERT s then mret (0, true, c)
      else c ← next_view c; mret (0, true, c).

(** The return code, the number of statements saved, and whether the oldest
    statement of the key is an INSERT. *)
Fixpoint history_loop (fuel : nat) (src : Z) (c : cursor) (count : Z) : wprog (Z * Z * bool) :=
  match fuel with
  | 0%nat => abort
  | S fuel =>
      s ← src_stmt src;
      primary ← gets wi_is_primary;
      let first := has_type IPROTO_INSERT s || (negb primary && has_flag VY_STMT_UPDATE s) in
      rc ← (if primary : bool then vy_write_iterator_deferred_delete s else mret 0);
      if negb (rc =? 0) then mret (rc, count, first)
      else
        '(rc, saved, c) ← take_stmt s c;
        if negb (rc =? 0) then mret (rc, count, first)
        else
          let count := if saved : bool then count + 1 else count in
          vy_write_iterator_merge_step;;
          top ← vy_source_heap_top;
          match top with
          | None => abort
          | Some src =>
              _ ← src_stmt src;
              s ← get_src src;
              if src_is_end_of_key s then mret (0, count, first)
              else history_loop fuel src c count
          end
  end.

(** The statements that the sources still have. *)
Definition src_size (s : vy_write_src T O) : nat :=
  (match src_entry s with None => 0 | Some _ => 1 end + length (src_stream s))%nat.
Definition left_count (w : wi) : nat :=
  list_sum ((fun p => src_size (snd p)) <$> map_to_list (wi_srcs w)).

(** end_of_key_src is a variable of the function. *)
Definition drop_end_of_key : wprog unit := modify (fun w => w <| wi_srcs ::= delete END_OF_KEY |>).

Definition vy_write_iterator_build_history : wprog (Z * Z * bool) :=
  assert (fun w => wi_stmt_i w =? -1);;
  assert (fun w => match wi_deferred_delete w with None => true | _ => false end);;
  top ← vy_source_heap_top;
  match top with
  | None => mret (0, 0, false)
  | Some src =>
      e ← src_stmt src;
      set_src END_OF_KEY (mk_src (Some e) true []);;
      rc ← vy_source_heap_insert END_OF_KEY;
      if negb (rc =? 0) then drop_end_of_key;; mret (rc, 0, false)
      else
        cur ← vy_write_iterator_get_vlsn 0;
        until ← vy_write_iterator_get_vlsn 1;
        fuel ← gets left_count;
        r ← history_loop fuel src (0, cur, until) 0;
        modify (fun w => if (fst (fst r) =? 0) && wi_is_last_level w
                         then w <| wi_deferred_delete := None |> else w);;
        vy_source_heap_delete END_OF_KEY;;
        drop_end_of_key;;
        mret r
  end.

(** ** Merging the history of each read view into one statement *)

Fixpoint squash_upserts (hs : list stmt) (result : stmt) : wprog (option stmt) :=
  match hs with
  | [] => mret (Some result)
  | h :: hs =>
      assert (fun _ => has_type IPROTO_UPSERT h);;
      applied ← on_oom (vy_apply_upsert h (Some result) false);
      match applied with
      | None => mret None
      | Some applied => squash_upserts hs applied
      end
  end.

(** The UPSERT that starts a history, applied to an older version if one is
    known. *)
Definition apply_first (prev : option stmt) (h : stmt) : wprog (option stmt) :=
  last ← gets wi_is_last_level;
  let prev_terminal := match prev with Some p => negb (has_type IPROTO_UPSERT p) | None => false end in
  if has_type IPROTO_UPSERT h && (last || prev_terminal) then
    assert (fun _ => negb last || match prev with None => true | Some _ => prev_terminal end);;
    on_oom (vy_apply_upsert h prev false)
  else mret (Some h).

(** The flag is kept only on the statement that waits for its old version. *)
Definition clear_deferred (e : stmt) : wprog (option stmt) :=
  dd ← gets wi_deferred_delete;
  let same := match dd with Some d => vy_entry_is_equal e d | None => false end in
  if has_flag VY_STMT_DEFERRED_DELETE e && negb same then
    e' ← (if negb (s_refable e) then on_oom (vy_stmt_dup e) else mret (Some e));
    mret (match e' with
          | None => None
          | Some e' => Some (e' <| s_flags := Z.ldiff (s_flags e) VY_STMT_DEFERRED_DELETE |>)
          end)
  else mret (Some e).

(** The first statement of the key in the output.  The copy is changed before
    it is checked for NULL. *)
Definition convert_first (is_first_insert : bool) (e : stmt) : wprog (option stmt) :=
  if is_first_insert && has_type IPROTO_DELETE e then mret None
  else if (is_first_insert && has_type IPROTO_REPLACE e) ||
          (negb is_first_insert && has_type IPROTO_INSERT e) then
    copy ← on_oom (vy_stmt_dup e);
    match copy with
    | None => abort
    | Some copy =>
        mret (Some (copy <| s_type := if is_first_insert then IPROTO_INSERT else IPROTO_REPLACE |>
                         <| s_lsn := s_lsn e |>))
    end
  else mret (Some e).

Definition vy_read_view_merge (prev : option stmt) (i : Z) (is_first_insert : bool) : wprog Z :=
  rv ← get_rv i;
  assert (fun _ => match rv_entry rv with None => true | Some _ => false end);;
  match rv_history rv with
  | [] => abort
  | h :: hs =>
      if match prev with Some p => has_type IPROTO_DELETE p | None => false end
         && has_type IPROTO_DELETE h
      then set_rv i (rv <| rv_history := [] |>);; mret 0
      else
        first ← apply_first prev h;
        match first with
        | None => mret (-1)
        | Some first =>
            result ← squash_upserts hs first;
            match result with
            | None => mret (-1)
            | Some result =>
                e ← clear_deferred result;
                set_rv i (rv <| rv_history := [] |> <| rv_entry := e |>);;
                match e, prev with
                | None, _ => mret (-1)
                | Some _, Some _ => mret 0
                | Some e, None =>
                    e ← convert_first is_first_insert e;
                    set_rv i (rv <| rv_history := [] |> <| rv_entry := e |>);; mret 0
                end
            end
        end
  end.

Definition vy_write_iterator_history_destroy : wprog unit :=
  modify (fun w => w <| wi_read_views ::= map (fun rv => rv <| rv_history := [] |>) |>).

(** The oldest read view with a history, from [i] down to 0. *)
Fixpoint first_used (i : nat) : wprog Z :=
  match i with
  | 0%nat => mret 0
  | S i' => rv ← get_rv (Z.of_nat i);
            match rv_history rv with [] => first_used i' | _ => mret (Z.of_nat i) end
  end.

(** From the read view [i] to the newest one: the return code and count. *)
Fixpoint merge_views (i : nat) (prev : option stmt) (is_first_insert : bool) (count : Z) : wprog (Z * Z) :=
  let continue := fun prev count => match i with
                  | 0%nat => mret (0, count)
                  | S i' => merge_views i' prev is_first_insert count
                  end in
  rv ← get_rv (Z.of_nat i);
  match rv_history rv with
  | [] => continue prev count
  | _ =>
      rc ← vy_read_view_merge prev (Z.of_nat i) is_first_insert;
      if negb (rc =? 0) then mret (-1, count)
      else
        rv ← get_rv (Z.of_nat i);
        assert (fun _ => match rv_history rv with [] => true | _ => false end);;
        match rv_entry rv with
        | None => continue prev count
        | Some e =>
            modify (fun w => w <| wi_rv_used_count ::= fun n => n + 1 |>);;
            continue (Some e) (count + 1)
        end
  end.

Definition vy_write_iterator_build_read_views : wprog (Z * Z) :=
  modify (fun w => w <| wi_rv_used_count := 0 |>);;
  '(rc, raw_count, is_first_insert) ← vy_write_iterator_build_history;
  if negb (rc =? 0) then vy_write_iterator_history_destroy;; mret (-1, 0)
  else if raw_count =? 0 then mret (0, 0)
  else
    n ← gets rv_count;
    i ← first_used (Z.to_nat (n - 1));
    rv ← get_rv i;
    assert (fun _ => match rv_history rv with [] => false | _ => true end);;
    r ← merge_views (Z.to_nat i) None is_first_insert 0;
    vy_write_iterator_history_destroy;;
    mret r.

(** ** Returning the statements *)

Fixpoint find_stmt (fuel : nat) : wprog stmt :=
  match fuel with
  | 0%nat => abort
  | S fuel =>
      assert (fun w => wi_stmt_i w + 1 <? rv_count w);;
      modify (fun w => w <| wi_stmt_i ::= fun i => i + 1 |>);;
      i ← gets wi_stmt_i;
      rv ← get_rv i;
      assert (fun _ => match rv_history rv with [] => true | _ => false end);;
      match rv_entry rv with
      | None => find_stmt fuel
      | Some e => set_rv i (rv <| rv_entry := None |>);; mret e
      end
  end.

Definition vy_write_iterator_pop_read_view_stmt : wprog (option stmt) :=
  used ← gets wi_rv_used_count;
  if used =? 0 then mret None
  else
    n ← gets rv_count;
    e ← find_stmt (Z.to_nat n);
    assert (fun w => 0 <? wi_rv_used_count w);;
    modify (fun w => w <| wi_rv_used_count ::= fun n => n - 1 |> <| wi_last := Some e |>);;
    mret (Some e).

Fixpoint next_key_loop (fuel : nat) : wprog Z :=
  match fuel with
  | 0%nat => abort
  | S fuel =>
      '(rc, count) ← vy_write_iterator_build_read_views;
      if negb (rc =? 0) then mret (-1)
      else
        size ← gets (fun w => h_size (wi_src_heap w));
        if negb (count =? 0) || (size =? 0) then mret 0 else next_key_loop fuel
  end.

(** The deferred DELETE that has not been returned through a read view. *)
Definition pop_deferred : wprog (option stmt) :=
  dd ← gets wi_deferred_delete;
  match dd with
  | None => mret None
  | Some d =>
      last ← gets wi_last;
      modify (fun w => w <| wi_deferred_delete := None |>);;
      if match last with Some l => vy_entry_is_equal d l | None => false end then mret None
      else modify (fun w => w <| wi_last := Some d |>);; mret (Some d)
  end.

(** The return code and the statement. *)
Definition vy_write_iterator_next : wprog (Z * option stmt) :=
  ret ← vy_write_iterator_pop_read_view_stmt;
  match ret with
  | Some e => mret (0, Some e)
  | None =>
      dd ← pop_deferred;
      match dd with
      | Some d => mret (0, Some d)
      | None =>
          modify (fun w => w <| wi_stmt_i := -1 |>);;
          fuel ← gets left_count;
          rc ← next_key_loop (S fuel);
          if negb (rc =? 0) then mret (-1, None)
          else ret ← vy_write_iterator_pop_read_view_stmt; mret (0, ret)
      end
  end.

(** The loop of vy_task_write_run: the run writer is the list of what it has
    been given, and does not fail. *)
Fixpoint write_run_loop (fuel : nat) : wprog (Z * list stmt) :=
  match fuel with
  | 0%nat => abort
  | S fuel =>
      '(rc, entry) ← vy_write_iterator_next;
      if negb (rc =? 0) then mret (rc, [])
      else
        match entry with
        | None => mret (0, [])
        | Some e => '(rc, out) ← write_run_loop fuel; mret (rc, e :: out)
        end
  end.
Definition vy_task_write_run : wprog (option (list stmt)) :=
  rc ← vy_write_iterator_start;
  if negb (rc =? 0) then mret None
  else
    n ← gets left_count;
    '(rc, out) ← write_run_loop (S (2 * n));
    vy_write_iterator_stop;;
    mret (if rc =? 0 then Some out else None).

(** The loops of vy_task_dump_new and vy_task_compaction_new over the
    memories or slices; the sources get the addresses [src], [src] + 1, ... *)
Fixpoint new_srcs (src : Z) (streams : list (list stmt)) : wprog Z :=
  match streams with
  | [] => mret 0
  | stream :: streams =>
      rc ← vy_write_iterator_new_src src stream;
      if negb (rc =? 0) then mret rc else new_srcs (src + 1) streams
  end.
Definition write_task (streams : list (list stmt)) : wprog (option (list stmt)) :=
  rc ← new_srcs (END_OF_KEY + 1) streams;
  if negb (rc =? 0) then mret None else vy_task_write_run.
End WriteIterator.
