(* ===== verification/VyVisible.v ===== *)
(** * What a reader sees of a key

    The reference semantics of statements: a key has a tuple or none, REPLACE
    and INSERT set it, DELETE removes it and UPSERT applies its operations.
    What is visible at a read view is the effect of the statements up to its
    LSN on what older levels hold.  The functions of vy_upsert.c and
    vy_history.c compute it. *)

From stdpp Require Import list.
From S2P Require Import Prelude VyStmt.

Open Scope Z_scope.

(** ** Failures of memory *)

(** [F] holds if an allocation fails. *)
Definition quiet (F : Prop) (oom : list bool) : Prop := true ∈ oom -> F.

Lemma wpx_fails F Q oom :
  quiet F oom ->
  (forall b oom', quiet F oom' -> (b = true -> F) -> Q b oom') ->
  wpx F fails Q oom.
Proof.
  intros Hq HQ. destruct oom as [|b oom]; cbn; apply HQ; try done.
  - intros H. apply Hq. by right.
  - intros ->. apply Hq. by left.
Qed.

Lemma wp_fails (Q : bool -> list bool -> Prop) oom :
  true ∉ oom -> (forall oom', true ∉ oom' -> Q false oom') -> wp fails Q oom.
Proof.
  intros Hq HQ. destruct oom as [|b oom]; [by apply HQ|]. apply not_elem_of_cons in Hq as [Hb Hq].
  destruct b; [done|]. by apply HQ.
Qed.

Section Visible.
Context {T O : Type} `{!Tuples T O, !TuplesLaws T O}.
Abbreviation stmt := (vy_stmt T O).
Implicit Types (s p h : stmt) (t base : T) (b : option T).

(** ** Keys *)

Definition same_key (t t' : T) : Prop := tuple_compare t t' = 0.

#[export] Instance same_key_equiv : Equivalence same_key.
Proof.
  unfold same_key. split.
  - intros t. apply compare_refl.
  - intros a c E. pose proof (compare_flip a c). pose proof (compare_flip c a). lia.
  - intros a c d E1 E2. pose proof (compare_flip a c). pose proof (compare_flip c d).
    pose proof (compare_flip c a). pose proof (compare_flip d c).
    pose proof (compare_flip a d). pose proof (compare_flip d a).
    assert (tuple_compare a d <= 0) by (apply (compare_trans _ c); lia).
    assert (tuple_compare d a <= 0) by (apply (compare_trans _ c); lia). lia.
Qed.

#[export] Instance same_key_dec t t' : Decision (same_key t t').
Proof. unfold same_key. apply _. Defined.

Lemma compare_lt_trans (a c d : T) :
  tuple_compare a c < 0 -> tuple_compare c d <= 0 -> tuple_compare a d < 0.
Proof.
  intros H1 H2. pose proof (compare_flip d a). pose proof (compare_flip c a).
  destruct (Z.lt_ge_cases (tuple_compare a d) 0) as [|Hge]; [done|]. exfalso.
  assert (tuple_compare d a <= 0) by (pose proof (compare_flip a d); lia).
  assert (tuple_compare c a <= 0) by (apply (compare_trans _ d); lia).
  pose proof (compare_flip a c). lia.
Qed.
Lemma compare_le_lt_trans (a c d : T) :
  tuple_compare a c <= 0 -> tuple_compare c d < 0 -> tuple_compare a d < 0.
Proof.
  intros H1 H2. destruct (Z.lt_ge_cases (tuple_compare a d) 0) as [|Hge]; [done|]. exfalso.
  assert (tuple_compare d a <= 0) by (pose proof (compare_flip d a); lia).
  assert (tuple_compare d c <= 0) by (by apply (compare_trans _ a)).
  pose proof (compare_flip d c). lia.
Qed.

(** ** Operations of an UPSERT *)

Definition exec_group (base : T) (t : T) (ops : O) : T :=
  match xrow_upsert_execute ops t with
  | None => t
  | Some (t', mask) =>
      if negb (key_update_can_be_skipped key_column_mask mask) && negb (tuple_compare base t' =? 0)
      then t
      else if tuple_validate_raw t' then t' else t
  end.
Definition apply_ops (base : T) (groups : list O) (t : T) : T := foldl (exec_group base) t groups.
#[local] Arguments apply_ops : simpl never.

Lemma apply_groups_spec F base groups t oom :
  quiet F oom ->
  wpx F (apply_groups base false groups t)
    (fun r oom' => quiet F oom' /\ (r = Some (apply_ops base groups t) \/ (r = None /\ F))) oom.
Proof.
  revert t oom. induction groups as [|ops groups IH]; intros t oom Hq; cbn [apply_groups].
  { apply wpx_ret. split; [done|by left]. }
  apply wpx_bind, wpx_fails; [done|]. intros [] oom' Hq' HF; [by apply wpx_ret; eauto|].
  unfold apply_ops. cbn [foldl]. unfold exec_group at 2.
  destruct (xrow_upsert_execute ops t) as [[t' mask]|]; [|by apply IH].
  apply wpx_bind. unfold vy_apply_result_does_cross_pk, vy_stmt_new_replace.
  destruct (key_update_can_be_skipped _ _); cbn [negb andb].
  - apply wpx_ret. by destruct (tuple_validate_raw t'); apply IH.
  - apply wpx_bind, wpx_bind, wpx_fails; [done|]. intros [] oom2 Hq2 HF2; apply wpx_ret; [by apply HF2|].
    apply wpx_ret. cbn. destruct (_ =? 0); cbn [negb]; [|by apply IH].
    by destruct (tuple_validate_raw t'); apply IH.
Qed.

(** The same if no allocation fails, with errors suppressed or not. *)
Lemma apply_groups_fine base suppress groups t oom :
  true ∉ oom -> wp (apply_groups base suppress groups t) (fun r oom' => true ∉ oom' /\ r = Some (apply_ops base groups t)) oom.
Proof.
  revert t oom. induction groups as [|ops groups IH]; intros t oom Ho; cbn [apply_groups]; [by apply wp_ret|].
  apply wp_bind, wp_fails; [done|]. intros oom' Ho'. unfold apply_ops. cbn [foldl]. unfold exec_group at 2.
  destruct (xrow_upsert_execute ops t) as [[t' mask]|]; [|by apply IH].
  apply wp_bind. unfold vy_apply_result_does_cross_pk, vy_stmt_new_replace.
  destruct (key_update_can_be_skipped _ _); cbn [negb andb].
  - apply wp_ret. by destruct (tuple_validate_raw t'); apply IH.
  - apply wp_bind, wp_bind, wp_fails; [done|]. intros oom2 Ho2; apply wp_ret. apply wp_ret. cbn.
    destruct (_ =? 0); cbn [negb]; [|by apply IH]. by destruct (tuple_validate_raw t'); apply IH.
Qed.

(** The key survives the operations. *)
Lemma exec_group_key base t ops : same_key base t -> same_key base (exec_group base t ops).
Proof.
  intros Hk. unfold exec_group. destruct (xrow_upsert_execute ops t) as [[t' mask]|] eqn:E; [|done].
  unfold key_update_can_be_skipped. destruct (Z.eqb_spec (Z.land key_column_mask mask) 0) as [Hm|Hm].
  - cbn. destruct (tuple_validate_raw t'); [|done]. etransitivity; [done|].
    by apply (execute_mask ops t t' mask).
  - cbn. destruct (Z.eqb_spec (tuple_compare base t') 0); cbn; [|done].
    by destruct (tuple_validate_raw t').
Qed.
Lemma apply_ops_key base groups t : same_key base t -> same_key base (apply_ops base groups t).
Proof.
  revert t. induction groups as [|ops groups IH]; intros t Hk; [done|].
  apply IH. by apply exec_group_key.
Qed.
Lemma apply_ops_base base base' groups t :
  same_key base base' -> apply_ops base groups t = apply_ops base' groups t.
Proof.
  intros Hk. revert t. induction groups as [|ops groups IH]; intros t; [done|].
  unfold apply_ops. cbn [foldl]. fold (apply_ops base groups (exec_group base t ops)).
  rewrite IH. unfold apply_ops. f_equal. unfold exec_group.
  destruct (xrow_upsert_execute ops t) as [[t' mask]|]; [|done].
  assert ((tuple_compare base t' =? 0) = (tuple_compare base' t' =? 0)) as ->; [|done].
  apply eq_true_iff_eq. rewrite !Z.eqb_eq. fold (same_key base t') (same_key base' t'). by rewrite Hk.
Qed.
Lemma apply_ops_app base g1 g2 t : apply_ops base (g1 ++ g2) t = apply_ops base g2 (apply_ops base g1 t).
Proof. apply foldl_app. Qed.

(** ** Statements *)

Definition apply_stmt (b : option T) (s : stmt) : option T :=
  match s_type s with
  | IPROTO_INSERT | IPROTO_REPLACE => Some (s_tuple s)
  | IPROTO_DELETE => None
  | IPROTO_UPSERT =>
      Some (match b with
            | None => apply_ops (s_tuple s) (tail (s_ops s)) (s_tuple s)
            | Some t => apply_ops t (s_ops s) t
            end)
  end.

(** The effect of statements, newest first, on a key. *)
Definition state_of (b : option T) (ss : list stmt) : option T := foldr (fun s b => apply_stmt b s) b ss.

Definition visible (b : option T) (vlsn : Z) (ss : list stmt) : option T :=
  state_of b (filter (fun s => s_lsn s <= vlsn) ss).

Definition terminal (s : stmt) : Prop := s_type s <> IPROTO_UPSERT.
Definition upsert_ok (s : stmt) : Prop := s_type s = IPROTO_UPSERT -> s_ops s <> [].

#[export] Instance terminal_dec s : Decision (terminal s).
Proof. unfold terminal. apply _. Defined.

Lemma has_typeP ty s : has_type ty s = true <-> s_type s = ty.
Proof. apply bool_decide_eq_true. Qed.
Lemma has_type_falseP ty s : has_type ty s = false <-> s_type s <> ty.
Proof. apply bool_decide_eq_false. Qed.
Lemma has_type_eq ty s : s_type s = ty -> has_type ty s = true.
Proof. apply has_typeP. Qed.
Lemma has_type_ne ty s : s_type s <> ty -> has_type ty s = false.
Proof. apply has_type_falseP. Qed.

Lemma apply_terminal s b b' : terminal s -> apply_stmt b s = apply_stmt b' s.
Proof. unfold apply_stmt, terminal. by destruct (s_type s). Qed.
Lemma state_of_cons b s ss : state_of b (s :: ss) = apply_stmt (state_of b ss) s.
Proof. done. Qed.
Lemma state_of_app b ss ss' : state_of b (ss ++ ss') = state_of (state_of b ss') ss.
Proof. apply foldr_app. Qed.

(** The same from the oldest statement on. *)
Lemma state_of_rev b ss : foldl apply_stmt b (rev ss) = state_of b ss.
Proof. induction ss as [|s ss IH]; [done|]. cbn [rev]. rewrite foldl_app, IH. done. Qed.

(** The statement vy_apply_upsert makes when there is memory. *)
Definition upsert_result (new : stmt) (old : option stmt) : stmt :=
  match old with
  | Some p =>
      if has_type IPROTO_UPSERT p
      then mk_stmt None IPROTO_UPSERT (s_lsn new) 0 true (s_tuple p) (s_ops p ++ s_ops new) 0
      else mk_stmt None IPROTO_REPLACE (s_lsn new) 0 true
             (if has_type IPROTO_DELETE p then apply_ops (s_tuple new) (tail (s_ops new)) (s_tuple new)
              else apply_ops (s_tuple p) (s_ops new) (s_tuple p)) [] 0
  | None => mk_stmt None IPROTO_REPLACE (s_lsn new) 0 true
              (apply_ops (s_tuple new) (tail (s_ops new)) (s_tuple new)) [] 0
  end.

Definition no_ops (s : stmt) : bool := match s_ops s with [] => true | _ => false end.
Lemma no_ops_false s : upsert_ok s -> s_type s = IPROTO_UPSERT -> no_ops s = false.
Proof. intros H1 H2. specialize (H1 H2). unfold no_ops. by destruct (s_ops s). Qed.

Lemma apply_on_terminal_spec F new (old : option stmt) oom :
  s_type new = IPROTO_UPSERT -> upsert_ok new -> (forall p, old = Some p -> terminal p) -> quiet F oom ->
  wpx F (vy_apply_upsert_on_terminal_stmt new old false)
    (fun r oom' => quiet F oom' /\ (r = Some (upsert_result new old) \/ (r = None /\ F))) oom.
Proof.
  intros Ht Hok Hold Hq. unfold vy_apply_upsert_on_terminal_stmt.
  apply wpx_bind, wpx_assert; [by apply has_type_eq|].
  assert (match old with None => true | Some s => negb (has_type IPROTO_UPSERT s) end = true) as Hn.
  { destruct old as [p|]; [|done]. by rewrite has_type_ne by (apply Hold; done). }
  apply wpx_bind, wpx_assert; [done|].
  apply wpx_bind, wpx_assert.
  { apply no_ops_false in Hok; [|done]. unfold no_ops in Hok. rewrite Hok. by rewrite andb_false_r. }
  cbn zeta. apply wpx_bind. eapply wpx_mono; [by apply apply_groups_spec|].
  intros r oom' (Hq' & [->|[-> HF]]); [|by apply wpx_ret; eauto].
  apply wpx_bind. unfold vy_stmt_new_replace. apply wpx_bind, wpx_fails; [done|].
  intros [] oom2 Hq2 HF2; apply wpx_ret, wpx_ret; split; try done; [by right; eauto|]. left.
  unfold upsert_result. destruct old as [p|]; [|done]. apply negb_true_iff in Hn. rewrite Hn.
  cbn. by destruct (has_type IPROTO_DELETE p).
Qed.

Lemma vy_apply_upsert_spec F new (old : option stmt) oom :
  s_type new = IPROTO_UPSERT -> upsert_ok new -> quiet F oom ->
  wpx F (vy_apply_upsert new old false)
    (fun r oom' => quiet F oom' /\ (r = Some (upsert_result new old) \/ (r = None /\ F))) oom.
Proof.
  intros Ht Hok Hq. unfold vy_apply_upsert. apply wpx_bind, wpx_assert; [by apply has_type_eq|].
  destruct old as [p|]; [|by apply apply_on_terminal_spec].
  destruct (has_type IPROTO_UPSERT p) eqn:E.
  - apply wpx_bind, wpx_fails; [done|]. intros [] oom' Hq' HF; [by apply wpx_ret; eauto|].
    apply wpx_bind. unfold vy_stmt_new_upsert. apply wpx_bind, wpx_fails; [done|].
    intros [] oom2 Hq2 HF2; apply wpx_ret, wpx_ret; split; try done; [by right; eauto|]. left.
    unfold upsert_result. by rewrite E.
  - apply apply_on_terminal_spec; try done. intros p' [= <-]. by apply has_type_falseP.
Qed.

(** Applying an UPSERT to an older statement is the effect of both. *)
Lemma upsert_result_some b new p :
  s_type new = IPROTO_UPSERT -> upsert_ok p ->
  apply_stmt b (upsert_result new (Some p)) = apply_stmt (apply_stmt b p) new.
Proof.
  intros Ht Hok. unfold upsert_result. destruct (has_type IPROTO_UPSERT p) eqn:E.
  - apply has_typeP in E. specialize (Hok E). unfold apply_stmt. rewrite Ht, E. cbn.
    destruct b as [t|].
    + rewrite apply_ops_app. f_equal. apply apply_ops_base. by apply apply_ops_key.
    + destruct (s_ops p) as [|g gs]; [done|]. cbn. rewrite apply_ops_app. f_equal.
      apply apply_ops_base. by apply apply_ops_key.
  - apply has_type_falseP in E. unfold apply_stmt. rewrite Ht. cbn.
    destruct (has_type IPROTO_DELETE p) eqn:E2.
    + apply has_typeP in E2. by rewrite E2.
    + apply has_type_falseP in E2. by destruct (s_type p).
Qed.
Lemma upsert_result_none new :
  s_type new = IPROTO_UPSERT ->
  apply_stmt None (upsert_result new None) = apply_stmt None new.
Proof. intros Ht. unfold apply_stmt. by rewrite Ht. Qed.

Lemma upsert_result_lsn new old : s_lsn (upsert_result new old) = s_lsn new.
Proof. destruct old as [p|]; [|done]. cbn. by destruct (has_type IPROTO_UPSERT p). Qed.
Lemma upsert_result_ok new old :
  upsert_ok new -> s_type new = IPROTO_UPSERT -> upsert_ok (upsert_result new old).
Proof.
  intros Hn Ht. specialize (Hn Ht). unfold upsert_ok, upsert_result.
  destruct old as [p|]; [|done]. destruct (has_type IPROTO_UPSERT p); [|done]. cbn.
  intros _ E. apply app_eq_nil in E. tauto.
Qed.
Lemma upsert_result_key new (old : option stmt) :
  (forall p, old = Some p -> same_key (s_tuple p) (s_tuple new)) ->
  same_key (s_tuple new) (s_tuple (upsert_result new old)).
Proof.
  intros Hk. destruct old as [p|]; cbn; [|by apply apply_ops_key].
  specialize (Hk p eq_refl). destruct (has_type IPROTO_UPSERT p); cbn; [by symmetry|].
  destruct (has_type IPROTO_DELETE p); [by apply apply_ops_key|].
  etransitivity; [symmetry; exact Hk|]. by apply apply_ops_key.
Qed.
Lemma upsert_result_terminal new (old : option stmt) :
  (forall p, old = Some p -> terminal p) -> s_type (upsert_result new old) = IPROTO_REPLACE.
Proof.
  intros H. destruct old as [p|]; [|done]. cbn. by rewrite has_type_ne by (apply H; done).
Qed.
End Visible.

#[global] Arguments apply_ops : simpl never.
#[global] Arguments apply_stmt : simpl never.
#[global] Arguments state_of : simpl never.
