(* ===== verification/VyViews.v ===== *)
(** * One key in the write iterator, without effects

    What the iterator makes of the statements of one key, newest first, as a
    function: the history of every read view, the statement each history is
    merged into, and the deferred DELETE.  The theorem of this file is that
    every read view sees the same in the result as in the statements. *)

From stdpp Require Import list.
From S2P Require Import Prelude VyStmt VyVisible.

Open Scope Z_scope.

Lemma StronglySorted_weaken {A} (R R' : A -> A -> Prop) (l : list A) :
  (forall x y, R x y -> R' x y) -> StronglySorted R l -> StronglySorted R' l.
Proof. intros H. induction 1; constructor; [done|]. eapply Forall_impl; eauto. Qed.

Section Views.
Context {T O : Type} `{!Tuples T O, !TuplesLaws T O}.
Abbreviation stmt := (vy_stmt T O).
Implicit Types (s p h d e : stmt) (ks ss hs out : list stmt) (b : option T).

(** ** Histories *)

(** Statements up to the first that does not depend on older ones; [del]: a
    DELETE there is of no use. *)
Fixpoint upto_terminal (del : bool) (ss : list stmt) : list stmt :=
  match ss with
  | [] => []
  | s :: ss =>
      if has_type IPROTO_UPSERT s then s :: upto_terminal del ss
      else if del && has_type IPROTO_DELETE s then [] else [s]
  end.

Definition view_stmts (lo hi : Z) (ks : list stmt) : list stmt := filter (fun s => lo < s_lsn s <= hi) ks.
Definition view_history (last : bool) (lo hi : Z) (ks : list stmt) : list stmt :=
  rev (upto_terminal (last && (lo <? 0)) (view_stmts lo hi ks)).

(** The read views are newest first; below the oldest one there is nothing. *)
Definition next_vlsn (vs : list Z) : Z := default (-1) (head vs).
Fixpoint histories (last : bool) (vs : list Z) (ks : list stmt) : list (list stmt) :=
  match vs with
  | [] => []
  | v :: vs => view_history last (next_vlsn vs) v ks :: histories last vs ks
  end.

Definition lsn_sorted : list stmt -> Prop := StronglySorted (fun s s' => s_lsn s' <= s_lsn s).
Definition views_sorted (vs : list Z) : Prop := StronglySorted (fun v v' => v' <= v) vs /\ Forall (fun v => 0 <= v) vs.

Lemma views_sorted_cons v vs : views_sorted (v :: vs) -> views_sorted vs /\ -1 <= next_vlsn vs <= v /\ 0 <= v.
Proof.
  intros [Hs Hp]. inversion Hs as [|?? Hs' Hv]; subst. inversion Hp as [|?? Hv0 Hp']; subst. split; [done|].
  split; [|done]. destruct vs as [|v' vs]; cbn; [lia|]. inversion Hv; inversion Hp'; subst. lia.
Qed.
Lemma next_vlsn_le v vs : views_sorted vs -> v ∈ vs -> v <= next_vlsn vs.
Proof.
  intros [Hs _] Hin. destruct vs as [|v' vs]; [by apply elem_of_nil in Hin|]. cbn.
  inversion Hs as [|?? _ Hf]; subst. apply elem_of_cons in Hin as [->|Hin]; [lia|].
  rewrite Forall_forall in Hf. by apply Hf.
Qed.

Lemma filter_none (P : stmt -> Prop) `{!forall s, Decision (P s)} ss :
  Forall (fun s => ~ P s) ss -> filter P ss = [].
Proof. induction 1; [done|]. by rewrite filter_cons_False. Qed.
Lemma filter_all (P : stmt -> Prop) `{!forall s, Decision (P s)} ss :
  Forall P ss -> filter P ss = ss.
Proof. induction 1; [done|]. rewrite filter_cons_True by done. by f_equal. Qed.

(** What a view sees: its own range of statements on top of the next view's. *)
Lemma view_split lo hi ks :
  lsn_sorted ks -> lo <= hi ->
  filter (fun s => s_lsn s <= hi) ks = view_stmts lo hi ks ++ filter (fun s => s_lsn s <= lo) ks.
Proof.
  intros Hs Hlo. unfold view_stmts. induction Hs as [|s ks Hs IH Hf]; [done|].
  destruct (Z.le_gt_cases (s_lsn s) lo) as [Hle|Hgt].
  - assert (Forall (fun s' => s_lsn s' <= lo) (s :: ks)) as Ha.
    { constructor; [done|]. eapply Forall_impl; [exact Hf|]. cbn. lia. }
    rewrite (filter_all (fun s => s_lsn s <= lo)) by done.
    rewrite (filter_all (fun s => s_lsn s <= hi)) by (eapply Forall_impl; [exact Ha|]; cbn; lia).
    rewrite filter_none; [done|]. eapply Forall_impl; [exact Ha|]; cbn; lia.
  - rewrite (filter_cons_False (fun s => s_lsn s <= lo)) by lia.
    destruct (Z.le_gt_cases (s_lsn s) hi).
    + rewrite !filter_cons_True by lia. cbn. by f_equal.
    + rewrite !filter_cons_False by lia. done.
Qed.

Lemma upto_terminal_state del b ss :
  (del = true -> b = None) -> state_of b (upto_terminal del ss) = state_of b ss.
Proof.
  intros Hdel. induction ss as [|s ss IH]; [done|]. cbn.
  destruct (has_type IPROTO_UPSERT s) eqn:E; [by rewrite !state_of_cons, IH|].
  apply has_type_falseP in E. destruct (del && has_type IPROTO_DELETE s) eqn:E2.
  - boolp. apply has_typeP in H0. rewrite state_of_cons. rewrite (Hdel H). unfold apply_stmt. by rewrite H0.
  - rewrite !state_of_cons. by apply apply_terminal.
Qed.

(** Statements that were merged into one are UPSERTs on top of the oldest. *)
Lemma upto_terminal_rev del ss h hs :
  rev (upto_terminal del ss) = h :: hs -> Forall (fun s => s_type s = IPROTO_UPSERT) hs.
Proof.
  revert h hs. induction ss as [|s ss IH]; cbn; [done|]. intros h hs E.
  destruct (has_type IPROTO_UPSERT s) eqn:Et; [|destruct (del && _); cbn in E; by simplify_eq].
  cbn in E. destruct (rev (upto_terminal del ss)) as [|h' hs'] eqn:Er; cbn in E; simplify_eq; [done|].
  apply Forall_app. split; [by eapply IH|]. constructor; [|done]. by apply has_typeP.
Qed.
Lemma upto_terminal_prefix del ss : exists rest, ss = upto_terminal del ss ++ rest.
Proof.
  induction ss as [|s ss [rest IH]]; cbn; [by exists []|].
  destruct (has_type IPROTO_UPSERT s); [exists rest; cbn; by f_equal|].
  destruct (del && _); [by exists (s :: ss)|by exists ss].
Qed.

Lemma view_history_state last lo hi ks b :
  lsn_sorted ks -> Forall (fun s => 0 <= s_lsn s) ks -> lo <= hi -> (last = true -> b = None) ->
  visible b hi ks = foldl apply_stmt (visible b lo ks) (view_history last lo hi ks).
Proof.
  intros Hs Hp Hlo Hb. unfold visible at 1. rewrite (view_split lo) by done. rewrite state_of_app.
  fold (visible b lo ks). unfold view_history. rewrite state_of_rev.
  symmetry. apply upto_terminal_state. intros Hd. boolp. unfold visible.
  rewrite filter_none; [by apply Hb|]. eapply Forall_impl; [exact Hp|]. cbn. lia.
Qed.

(** ** Merging a history *)

Definition pure_first (last : bool) (prev : option stmt) (h : stmt) : stmt :=
  if has_type IPROTO_UPSERT h && (last || match prev with Some p => negb (has_type IPROTO_UPSERT p) | None => false end)
  then upsert_result h prev else h.
Definition pure_squash (hs : list stmt) (r : stmt) : stmt := foldl (fun r h => upsert_result h (Some r)) r hs.
Definition pure_clear (dd : option stmt) (e : stmt) : stmt :=
  if has_flag VY_STMT_DEFERRED_DELETE e
     && negb (match dd with Some d => vy_entry_is_equal e d | None => false end)
  then (if s_refable e then e else e <| s_addr := None |> <| s_refable := true |>)
         <| s_flags := Z.ldiff (s_flags e) VY_STMT_DEFERRED_DELETE |>
  else e.
Definition pure_convert (first : bool) (e : stmt) : option stmt :=
  if first && has_type IPROTO_DELETE e then None
  else if (first && has_type IPROTO_REPLACE e) || (negb first && has_type IPROTO_INSERT e)
  then Some (e <| s_addr := None |> <| s_refable := true |>
               <| s_type := if first then IPROTO_INSERT else IPROTO_REPLACE |>)
  else Some e.
Definition both_deletes (prev : option stmt) (h : stmt) : bool :=
  match prev with Some p => has_type IPROTO_DELETE p | None => false end && has_type IPROTO_DELETE h.
Definition pure_merge (last first : bool) (dd prev : option stmt) (hist : list stmt) : option stmt :=
  match hist with
  | [] => None
  | h :: hs =>
      if both_deletes prev h then None
      else
        let e := pure_clear dd (pure_squash hs (pure_first last prev h)) in
        match prev with Some _ => Some e | None => pure_convert first e end
  end.

(** The results of the read views, newest view first. *)
Fixpoint merge_all (last first : bool) (dd : option stmt) (hists : list (list stmt)) : list (option stmt) :=
  match hists with
  | [] => []
  | hist :: hists =>
      let es := merge_all last first dd hists in
      pure_merge last first dd (head (omap id es)) hist :: es
  end.

Definition key_views (last first : bool) (dd : option stmt) (vs : list Z) (ks : list stmt) : list stmt :=
  omap id (merge_all last first dd (histories last vs ks)).

Lemma key_views_cons last first dd v vs ks :
  key_views last first dd (v :: vs) ks =
  match pure_merge last first dd (head (key_views last first dd vs ks))
          (view_history last (next_vlsn vs) v ks) with
  | Some e => e :: key_views last first dd vs ks
  | None => key_views last first dd vs ks
  end.
Proof. unfold key_views. cbn. by destruct (pure_merge _ _ _ _ _). Qed.

Lemma pure_squash_state b hs r :
  Forall (fun s => s_type s = IPROTO_UPSERT) hs -> Forall upsert_ok hs -> upsert_ok r ->
  apply_stmt b (pure_squash hs r) = foldl apply_stmt (apply_stmt b r) hs /\ upsert_ok (pure_squash hs r).
Proof.
  intros Ht Hok. revert r. induction Ht as [|h hs Hh Ht IH]; intros r Hr; [done|].
  inversion Hok; subst. cbn. rewrite <- upsert_result_some by done. apply IH; [done|].
  by apply upsert_result_ok.
Qed.
Lemma pure_clear_fields dd e :
  let e' := pure_clear dd e in
  s_type e' = s_type e /\ s_lsn e' = s_lsn e /\ s_tuple e' = s_tuple e /\ s_ops e' = s_ops e.
Proof. unfold pure_clear. destruct (_ && _); [|done]. by destruct (s_refable e). Qed.
Lemma pure_convert_fields first e e' :
  pure_convert first e = Some e' ->
  s_lsn e' = s_lsn e /\ s_tuple e' = s_tuple e /\ s_ops e' = s_ops e /\
  (terminal e' <-> terminal e) /\ (forall b, apply_stmt b e' = apply_stmt b e).
Proof.
  unfold pure_convert. destruct (first && has_type IPROTO_DELETE e) eqn:E1; [done|].
  destruct (_ || _) eqn:E2; intros [= <-]; [|done]. cbn. split_and!; try done.
  - unfold terminal. cbn. apply orb_true_iff in E2 as [E2|E2]; boolp; apply has_typeP in H0;
      rewrite H0; destruct first; done.
  - intros b. unfold apply_stmt. cbn. apply orb_true_iff in E2 as [E2|E2]; boolp; apply has_typeP in H0;
      rewrite H0; destruct first; done.
Qed.

Lemma apply_same_fields e e' b :
  s_type e' = s_type e -> s_tuple e' = s_tuple e -> s_ops e' = s_ops e -> apply_stmt b e' = apply_stmt b e.
Proof. unfold apply_stmt. by intros -> -> ->. Qed.

Section Merge.
Context (last first : bool) (dd : option stmt) (b : option T).
Context (Hlast : last = true -> b = None) (Hfirst : first = true -> b = None).

(** The newest older result tells what is visible below, unless it is an
    UPSERT itself. *)
Definition below (prev : option stmt) (b' : option T) : Prop :=
  match prev with
  | None => b' = b
  | Some p => upsert_ok p /\ (last = true -> terminal p) /\ (terminal p -> b' = apply_stmt None p)
  end.

Lemma pure_first_spec prev h b' :
  below prev b' -> upsert_ok h ->
  apply_stmt b' (pure_first last prev h) = apply_stmt b' h /\ upsert_ok (pure_first last prev h) /\
  s_lsn (pure_first last prev h) = s_lsn h /\ (last = true -> terminal (pure_first last prev h)).
Proof.
  intros Hbelow Hh. unfold pure_first. destruct (has_type IPROTO_UPSERT h) eqn:Eh; cbn [andb].
  2: { split_and!; try done. intros _. by apply has_type_falseP. }
  apply has_typeP in Eh. destruct prev as [p|]; cbn in Hbelow.
  - destruct Hbelow as (Hp & Hl & Hb'). destruct (has_type IPROTO_UPSERT p) eqn:Ep; cbn [negb].
    + destruct last; cbn [orb].
      { apply has_typeP in Ep. exfalso. by apply (Hl eq_refl). }
      split_and!; done.
    + apply has_type_falseP in Ep. rewrite orb_true_r. split_and!.
      * rewrite upsert_result_some by done. f_equal. rewrite (Hb' Ep). by apply apply_terminal.
      * by apply upsert_result_ok.
      * apply upsert_result_lsn.
      * intros _. unfold terminal. by rewrite upsert_result_terminal by (by intros ? [= <-]).
  - subst b'. rewrite orb_false_r. destruct last; [|by split_and!].
    rewrite Hlast by done. split_and!; [by apply upsert_result_none|by apply upsert_result_ok|done|done].
Qed.

Definition newest (h : stmt) (hs : list stmt) : Z := s_lsn (default h (list.last hs)).

Lemma newest_cons r r' h hs : newest r (h :: hs) = newest r' (h :: hs).
Proof. unfold newest. destruct (list.last (h :: hs)) eqn:E; [done|]. by apply last_None in E. Qed.

Lemma pure_squash_fields hs r :
  s_lsn (pure_squash hs r) = newest r hs /\ (terminal r -> terminal (pure_squash hs r)).
Proof.
  revert r. induction hs as [|h hs IH]; intros r; [done|].
  change (pure_squash (h :: hs) r) with (pure_squash hs (upsert_result h (Some r))).
  destruct (IH (upsert_result h (Some r))) as [E1 E2]. split.
  - rewrite E1. destruct hs as [|h2 hs]; [exact (upsert_result_lsn h (Some r))|].
    rewrite (newest_cons _ r). done.
  - intros Hr. apply E2. unfold terminal. by rewrite upsert_result_terminal by (by intros ? [= <-]).
Qed.

Lemma pure_merge_spec prev b' h hs :
  below prev b' -> Forall (fun s => s_type s = IPROTO_UPSERT) hs -> Forall upsert_ok (h :: hs) ->
  (both_deletes prev h = true -> hs = []) ->
  match pure_merge last first dd prev (h :: hs) with
  | Some e => apply_stmt b' e = foldl apply_stmt b' (h :: hs) /\ upsert_ok e /\
              s_lsn e = newest h hs /\ (last = true -> terminal e)
  | None => b' = foldl apply_stmt b' (h :: hs)
  end.
Proof.
  intros Hbelow Ht Hok Hdel. inversion Hok as [|?? Hh Hhs]; subst. cbn [pure_merge].
  destruct (both_deletes prev h) eqn:Ed.
  { rewrite Hdel by done. unfold both_deletes in Ed. boolp. apply has_typeP in H0. cbn.
    destruct prev as [p|]; [|done]. apply has_typeP in H. destruct Hbelow as (_ & _ & ->).
    - unfold apply_stmt. by rewrite H, H0.
    - unfold terminal. by rewrite H. }
  destruct (pure_first_spec prev h b' Hbelow Hh) as (E1 & Hok1 & Hl1 & Hf1).
  destruct (pure_squash_state b' hs (pure_first last prev h) Ht Hhs Hok1) as [E2 Hok2].
  destruct (pure_squash_fields hs (pure_first last prev h)) as [Hl2 Hf2].
  set (r := pure_squash hs (pure_first last prev h)) in *.
  destruct (pure_clear_fields dd r) as (Ct & Cl & Cu & Co).
  assert (apply_stmt b' (pure_clear dd r) = foldl apply_stmt b' (h :: hs)) as E3.
  { rewrite (apply_same_fields r) by done. rewrite E2, E1. done. }
  assert (newest (pure_first last prev h) hs = newest h hs) as E4.
  { destruct hs; [done|apply newest_cons]. }
  assert (upsert_ok (pure_clear dd r)) as Hok3 by (unfold upsert_ok in *; by rewrite Ct, Co).
  assert (last = true -> terminal (pure_clear dd r)) as Hf3.
  { intros L. unfold terminal. rewrite Ct. by apply Hf2, Hf1. }
  destruct prev as [p|]; [split_and!; try done; congruence|].
  destruct (pure_convert first (pure_clear dd r)) as [e|] eqn:Ec.
  - destruct (pure_convert_fields _ _ _ Ec) as (Fl & Fu & Fo & Ff & Fa). split_and!.
    + by rewrite Fa.
    + unfold upsert_ok. rewrite Fo. intros He. apply Hok3. unfold terminal in Ff.
      destruct (decide (s_type (pure_clear dd r) = IPROTO_UPSERT)); [done|]. tauto.
    + congruence.
    + intros L. by apply Ff, Hf3.
  - unfold pure_convert in Ec. destruct (first && _) eqn:E5; [|by destruct (_ || _)]. boolp.
    apply has_typeP in H0. rewrite <- E3. unfold apply_stmt. rewrite H0. cbn in Hbelow.
    by rewrite Hbelow, Hfirst.
Qed.

(** ** All read views of a key *)

(** No UPSERT lies directly on a DELETE. *)
Definition calm (ks : list stmt) : Prop := forall ks1 u d ks2,
  ks = ks1 ++ u :: d :: ks2 -> s_type u = IPROTO_UPSERT -> s_type d = IPROTO_DELETE -> False.

Lemma sorted_split hi ks :
  lsn_sorted ks -> ks = filter (fun s => hi < s_lsn s) ks ++ filter (fun s => s_lsn s <= hi) ks.
Proof.
  intros Hs. induction Hs as [|s ks Hs IH Hf]; [done|].
  destruct (Z.le_gt_cases (s_lsn s) hi) as [Hle|Hgt].
  - assert (Forall (fun s' => s_lsn s' <= hi) (s :: ks)) as Ha.
    { constructor; [done|]. eapply Forall_impl; [exact Hf|]. cbn. lia. }
    rewrite (filter_all (fun s => s_lsn s <= hi)) by done.
    rewrite filter_none; [done|]. eapply Forall_impl; [exact Ha|]. cbn. lia.
  - rewrite filter_cons_True, (filter_cons_False (fun s => s_lsn s <= hi)) by lia.
    cbn. by f_equal.
Qed.

Lemma view_history_range lst lo hi ks :
  Forall (fun s => lo < s_lsn s <= hi /\ s ∈ ks) (view_history lst lo hi ks).
Proof.
  unfold view_history. apply Forall_rev.
  destruct (upto_terminal_prefix (lst && (lo <? 0)) (view_stmts lo hi ks)) as [rest E].
  assert (Forall (fun s => lo < s_lsn s <= hi /\ s ∈ ks) (view_stmts lo hi ks)) as Ha.
  { apply Forall_forall. intros s Hin. unfold view_stmts in Hin. by apply list_elem_of_filter in Hin. }
  rewrite E in Ha. by apply Forall_app in Ha as [? _].
Qed.
Lemma newest_in (P : Z -> Prop) h hs : Forall (fun s => P (s_lsn s)) (h :: hs) -> P (newest h hs).
Proof.
  intros Hf. rewrite Forall_forall in Hf. unfold newest.
  destruct (list.last hs) as [l|] eqn:E; cbn; apply Hf; [|by left].
  right. apply last_Some_elem_of in E. done.
Qed.

Lemma calm_history lo hi ks h hs :
  calm ks -> lsn_sorted ks -> lo <= hi -> view_history last lo hi ks = h :: hs ->
  s_type h = IPROTO_DELETE -> hs = [].
Proof.
  intros Hc Hs Hlo E Hd. destruct hs as [|u hs]; [done|]. exfalso.
  pose proof (upto_terminal_rev _ _ _ _ E) as Hu. inversion Hu as [|?? Hu' _]; subst.
  unfold view_history in E. destruct (upto_terminal_prefix (last && (lo <? 0)) (view_stmts lo hi ks)) as [rest Er].
  assert (upto_terminal (last && (lo <? 0)) (view_stmts lo hi ks) = rev hs ++ [u; h]) as E2.
  { rewrite <- (rev_involutive (upto_terminal _ _)), E. cbn. by rewrite <- app_assoc. }
  pose proof (sorted_split hi ks Hs) as Ek. rewrite (view_split lo hi) in Ek by done.
  rewrite Er, E2 in Ek.
  apply (Hc (filter (fun s => hi < s_lsn s) ks ++ rev hs) u h (rest ++ filter (fun s => s_lsn s <= lo) ks)); try done.
  rewrite Ek at 1. by rewrite <- !app_assoc.
Qed.

Context (ks : list stmt).
Context (Hsort : lsn_sorted ks) (Hpos : Forall (fun s => 0 <= s_lsn s) ks) (Hok : Forall upsert_ok ks).
Abbreviation views vs := (key_views last first dd vs ks).

Lemma history_ok lo hi h hs :
  view_history last lo hi ks = h :: hs ->
  Forall (fun s => s_type s = IPROTO_UPSERT) hs /\ Forall upsert_ok (h :: hs) /\ lo < newest h hs <= hi.
Proof.
  intros E. pose proof (view_history_range last lo hi ks) as Hr. rewrite E in Hr. split; [|split].
  - by eapply upto_terminal_rev.
  - eapply Forall_impl; [exact Hr|]. intros s [_ Hin]. rewrite Forall_forall in Hok. by apply Hok.
  - apply (newest_in (fun z => lo < z <= hi)). eapply Forall_impl; [exact Hr|]. by intros s [? _].
Qed.

(** What is below a list of results, newest first. *)
Lemma below_cons e out :
  upsert_ok e -> (last = true -> terminal e) -> below (head (e :: out)) (state_of b (e :: out)).
Proof.
  intros H1 H2. cbn. split_and!; [done|done|]. intros Ht. rewrite state_of_cons. by apply apply_terminal.
Qed.

Lemma key_views_inv vs :
  views_sorted vs -> ((length vs <= 1)%nat \/ calm ks) ->
  state_of b (views vs) = visible b (next_vlsn vs) ks /\
  below (head (views vs)) (state_of b (views vs)) /\
  Forall (fun s => s_lsn s <= next_vlsn vs) (views vs).
Proof.
  induction vs as [|v vs IH]; intros Hv Hg.
  { cbn. split_and!; [|done|done]. unfold visible. rewrite filter_none; [done|].
    eapply Forall_impl; [exact Hpos|]. cbn. lia. }
  apply views_sorted_cons in Hv as (Hv & Hlo & _).
  destruct IH as (IH1 & IH2 & IH3); [done|destruct Hg; [left; cbn in *; lia|by right]|].
  rewrite key_views_cons. change (next_vlsn (v :: vs)) with v.
  rewrite (view_history_state last (next_vlsn vs) v ks b) by (done || lia). rewrite <- IH1.
  destruct (view_history last (next_vlsn vs) v ks) as [|h hs] eqn:Eh.
  { split_and!; [done|done|]. eapply Forall_impl; [exact IH3|]. cbn. lia. }
  destruct (history_ok _ _ _ _ Eh) as (Hu & Hoks & Hn).
  pose proof (pure_merge_spec _ _ h hs IH2 Hu Hoks) as Hm.
  destruct (pure_merge last first dd _ (h :: hs)) as [e|]; rewrite ?state_of_cons.
  - destruct Hm as (E1 & E2 & E3 & E4).
    { intros Hd. unfold both_deletes in Hd. boolp. apply has_typeP in H0.
      destruct Hg as [Hg|Hg]; [|eapply calm_history; eauto; lia].
      destruct vs; [done|cbn in Hg; lia]. }
    split_and!; [done|by apply below_cons|].
    constructor; [lia|]. eapply Forall_impl; [exact IH3|]. cbn. lia.
  - split_and!; [|done|eapply Forall_impl; [exact IH3|]; cbn; lia].
    apply Hm. intros Hd. unfold both_deletes in Hd. boolp. apply has_typeP in H0.
    destruct Hg as [Hg|Hg]; [|eapply calm_history; eauto; lia].
    destruct vs; [done|cbn in Hg; lia].
Qed.

(** A result lies in the range of its view. *)
Lemma pure_merge_lsn prev lo hi e :
  pure_merge last first dd prev (view_history last lo hi ks) = Some e -> lo < s_lsn e <= hi.
Proof.
  destruct (view_history last lo hi ks) as [|h hs] eqn:Eh; [done|].
  destruct (history_ok _ _ _ _ Eh) as (_ & _ & Hn). cbn [pure_merge]. destruct (both_deletes prev h); [done|].
  set (f := pure_first last prev h). destruct (pure_squash_fields hs f) as [El _].
  assert (s_lsn f = s_lsn h) as Ef.
  { unfold f, pure_first. destruct (_ && _); [apply upsert_result_lsn|done]. }
  assert (newest f hs = newest h hs) as En by (destruct hs; [done|apply newest_cons]).
  destruct (pure_clear_fields dd (pure_squash hs f)) as (_ & Cl & _).
  destruct prev; [intros [= <-]; lia|]. intros Ec. apply pure_convert_fields in Ec as (Fl & _). lia.
Qed.

Lemma key_views_sorted vs :
  views_sorted vs -> StronglySorted (fun s s' => s_lsn s' < s_lsn s) (views vs) /\
    Forall (fun s => s_lsn s <= next_vlsn vs) (views vs).
Proof.
  induction vs as [|v vs IH]; intros Hv; [by split; constructor|].
  apply views_sorted_cons in Hv as (Hv & Hlo & _). destruct (IH Hv) as [IH1 IH2].
  rewrite key_views_cons. change (next_vlsn (v :: vs)) with v.
  destruct (pure_merge _ _ _ _ _) as [e|] eqn:Em.
  - apply pure_merge_lsn in Em. split; constructor; try done; try lia;
      (eapply Forall_impl; [exact IH2|]; cbn; lia).
  - split; [done|]. eapply Forall_impl; [exact IH2|]. cbn. lia.
Qed.

Lemma key_views_visible vs v :
  views_sorted vs -> ((length vs <= 1)%nat \/ calm ks) -> v ∈ vs ->
  visible b v (views vs) = visible b v ks.
Proof.
  induction vs as [|v' vs IH]; intros Hv Hg Hin; [by apply elem_of_nil in Hin|].
  apply elem_of_cons in Hin as [->|Hin].
  - destruct (key_views_inv (v' :: vs) Hv Hg) as (E & _ & Hf). unfold visible at 1.
    by rewrite filter_all.
  - apply views_sorted_cons in Hv as (Hv & Hlo & _). pose proof (next_vlsn_le v vs Hv Hin).
    rewrite key_views_cons. destruct (pure_merge _ _ _ _ _) as [e|] eqn:Em.
    + apply pure_merge_lsn in Em. unfold visible at 1. rewrite filter_cons_False by lia.
      apply IH; [done| |done]. destruct Hg; [left; cbn in *; lia|by right].
    + apply IH; [done| |done]. destruct Hg; [left; cbn in *; lia|by right].
Qed.
End Merge.
End Views.
