(* ===== verification/VyDeferred.v ===== *)
(** * The output of the write iterator for one key

    The deferred DELETE of a key, what is returned for the key after the
    results of its read views, and where the statements of the output come
    from. *)

From stdpp Require Import list sorting.
From S2P Require Import Prelude VyStmt VyVisible VyViews.

Open Scope Z_scope.

Section Deferred.
Context {T O : Type} `{!Tuples T O, !TuplesLaws T O}.
Abbreviation stmt := (vy_stmt T O).
Implicit Types (s p h d e : stmt) (ks ss hs out : list stmt) (b : option T).

Definition flagged s : Prop := has_flag VY_STMT_DEFERRED_DELETE s = true.

(** ** Deferred DELETEs *)

(** The statement that waits for the tuple it has overwritten, and the calls
    of the handler. *)
Definition deferred_step (handler : bool) (st : option stmt * list (stmt * stmt)) (s : stmt)
    : option stmt * list (stmt * stmt) :=
  if has_type IPROTO_UPSERT s then st
  else
    (if has_flag VY_STMT_DEFERRED_DELETE s then Some s else None,
     match fst st with
     | Some d => if handler && negb (has_type IPROTO_DELETE s) then snd st ++ [(s, d)] else snd st
     | None => snd st
     end).
Definition deferred (handler : bool) (log : list (stmt * stmt)) (ks : list stmt) :=
  foldl (deferred_step handler) (None, log) ks.

Lemma deferred_pending handler log ks d :
  fst (deferred handler log ks) = Some d ->
  exists ks1 ks2, ks = ks1 ++ d :: ks2 /\ Forall (fun s => s_type s = IPROTO_UPSERT) ks2 /\
    flagged d /\ terminal d.
Proof.
  unfold deferred. induction ks as [|s ks IH] using rev_ind; [done|].
  rewrite foldl_app. cbn. unfold deferred_step at 1.
  destruct (has_type IPROTO_UPSERT s) eqn:E.
  - intros H. destruct (IH H) as (ks1 & ks2 & -> & Hu & Hd). exists ks1, (ks2 ++ [s]).
    split; [by rewrite <- app_assoc|]. split; [|done]. apply Forall_app. split; [done|].
    constructor; [by apply has_typeP|done].
  - cbn. destruct (has_flag _ s) eqn:Ef; [|done]. intros [= <-]. exists ks, [].
    split_and!; try done. by apply has_type_falseP.
Qed.

(** ** The output of a key *)

Definition first_insert (primary : bool) (ks : list stmt) : bool :=
  match list.last ks with
  | None => false
  | Some s => has_type IPROTO_INSERT s || (negb primary && has_flag VY_STMT_UPDATE s)
  end.
Definition key_dd (primary lst : bool) (ks : list stmt) : option stmt :=
  if primary && negb lst then fst (deferred false [] ks) else None.
Definition key_results (primary lst : bool) (vs : list Z) (ks : list stmt) : list stmt :=
  key_views lst (first_insert primary ks) (key_dd primary lst ks) vs ks.

(** The deferred DELETE follows unless it was the last result. *)
Definition returned (d : stmt) (out : list stmt) : bool :=
  match list.last out with Some l => vy_entry_is_equal d l | None => false end.
Definition key_output (primary lst : bool) (vs : list Z) (ks : list stmt) : list stmt :=
  key_results primary lst vs ks ++
  match key_dd primary lst ks with
  | Some d => if returned d (key_results primary lst vs ks) then [] else [d]
  | None => []
  end.

(** Statements of one key, newest first.  Two statements may have one LSN only
    in a secondary index, where a deferred DELETE has the LSN of the statement
    that has overwritten the tuple. *)
Definition newer (primary : bool) (s s' : stmt) : Prop :=
  s_lsn s' < s_lsn s \/ (s_lsn s' = s_lsn s /\ primary = false /\ terminal s).

(** What the statements of one key have to be like.  [ki_deferred] is a
    restriction of the executions, which vy_write_iterator.c does not check: when
    everything older than a statement with the flag of a deferred DELETE is an
    UPSERT, there is nothing older.  UPSERTs between such a statement and an older
    one that is not an UPSERT are admitted.  Without the restriction the output
    can be out of order: deferred_delete_out_of_order in VyTheorems.v. *)
Record key_input (primary : bool) (ks : list stmt) : Prop := {
  ki_sorted : StronglySorted (newer primary) ks;
  ki_pos : Forall (fun s => 0 <= s_lsn s <= INT64_MAX) ks;
  ki_ok : Forall upsert_ok ks;
  ki_flag : Forall (fun s => flagged s -> s_type s = IPROTO_DELETE \/ s_type s = IPROTO_REPLACE) ks;
  ki_deferred : forall ks1 d ks2, ks = ks1 ++ d :: ks2 -> flagged d ->
    Forall (fun s => s_type s = IPROTO_UPSERT) ks2 -> ks2 = [];
}.

Section Key.
Context (primary lst : bool) (vs : list Z) (ks : list stmt) (Hin : key_input primary ks).
Abbreviation first := (first_insert primary ks).
Abbreviation dd := (key_dd primary lst ks).
Abbreviation results := (key_results primary lst vs ks).

Lemma ki_lsn_sorted : lsn_sorted ks.
Proof.
  eapply StronglySorted_weaken; [|apply Hin]. intros s s'. unfold newer. lia.
Qed.
Lemma ki_nonneg : Forall (fun s => 0 <= s_lsn s) ks.
Proof. eapply Forall_impl; [apply Hin|]. cbn. lia. Qed.

(** A pending deferred DELETE is the oldest statement of the key. *)
Lemma dd_oldest d :
  dd = Some d -> (exists ks1, ks = ks1 ++ [d]) /\ flagged d /\ terminal d /\
    primary = true /\ lst = false /\ first = false.
Proof.
  unfold key_dd. destruct primary eqn:Ep, lst; cbn; try done. intros E.
  destruct (deferred_pending _ _ _ _ E) as (ks1 & ks2 & Ek & Hu & Hf & Ht).
  pose proof (ki_deferred _ _ Hin ks1 d ks2 Ek Hf Hu) as ->.
  split_and!; eauto. unfold first_insert. rewrite Ek, last_snoc. rewrite orb_false_r.
  apply has_type_ne. pose proof (ki_flag _ _ Hin) as Hk. rewrite Forall_forall in Hk.
  destruct (Hk d) as [->| ->]; [rewrite Ek; set_solver|done|done|done].
Qed.

Lemma results_visible b v :
  views_sorted vs -> ((length vs <= 1)%nat \/ calm ks) -> (lst = true -> b = None) -> (first = true -> b = None) ->
  v ∈ vs -> visible b v results = visible b v ks.
Proof.
  intros Hvs Hg Hl Hf Hv. apply key_views_visible; auto using ki_lsn_sorted, ki_nonneg. apply Hin.
Qed.

Lemma visible_app b v ss ss' : visible b v (ss ++ ss') = visible (visible b v ss') v ss.
Proof. unfold visible. by rewrite filter_app, state_of_app. Qed.

(** Below a terminal statement nothing matters. *)
Lemma visible_oldest b b' v ks1 d :
  terminal d -> s_lsn d <= v -> visible b v (ks1 ++ [d]) = visible b' v (ks1 ++ [d]).
Proof.
  intros Ht Hd. rewrite !visible_app. f_equal. unfold visible.
  rewrite !filter_cons_True by done. by apply apply_terminal.
Qed.

(** Every read view sees the same in the output of the key. *)
Lemma output_visible b v :
  views_sorted vs -> ((length vs <= 1)%nat \/ calm ks) -> (lst = true -> b = None) -> (first = true -> b = None) ->
  v ∈ vs -> visible b v (key_output primary lst vs ks) = visible b v ks.
Proof.
  intros Hvs Hg Hl Hf Hv. unfold key_output. destruct dd as [d|] eqn:Ed.
  2: { rewrite app_nil_r. by apply results_visible. }
  destruct (returned d results); [rewrite app_nil_r; by apply results_visible|].
  destruct (dd_oldest d Ed) as ([ks1 Ek] & _ & Ht & Ep & El & Ef).
  rewrite visible_app. destruct (Z.le_gt_cases (s_lsn d) v) as [Hd|Hd].
  - rewrite results_visible; [|done|done|congruence|rewrite Ef; congruence|done].
    rewrite Ek. by apply visible_oldest.
  - assert (visible b v [d] = b) as ->.
    { unfold visible. by rewrite filter_cons_False by lia. }
    by apply results_visible.
Qed.

(** ** Where the output comes from *)

Lemma pure_squash_cases hs r :
  (hs = [] /\ pure_squash hs r = r) \/
  (exists l, list.last hs = Some l /\ (Forall (fun s => s_type s = IPROTO_UPSERT) hs -> s_type l = IPROTO_UPSERT) /\
   s_lsn (pure_squash hs r) = s_lsn l /\ s_flags (pure_squash hs r) = 0).
Proof.
  destruct hs as [|l hs _] using rev_ind; [by left|right].
  exists l. rewrite last_snoc. split_and!; [done| | |].
  - intros Hf. apply Forall_app in Hf as [_ Hf]. by inversion Hf.
  - unfold pure_squash. rewrite foldl_app. cbn [foldl]. apply upsert_result_lsn.
  - unfold pure_squash. rewrite foldl_app. cbn [foldl]. unfold upsert_result.
    by destruct (has_type IPROTO_UPSERT _).
Qed.

(** The flag of a deferred DELETE survives only on a statement of the input. *)
Lemma pure_clear_flagged f e :
  flagged (pure_clear f e) ->
  pure_clear f e = e /\ exists d, f = Some d /\ vy_entry_is_equal e d = true.
Proof.
  unfold pure_clear. destruct (has_flag VY_STMT_DEFERRED_DELETE e) eqn:Ef; cbn [andb].
  2: { unfold flagged. by rewrite Ef. }
  destruct (match f with Some d => vy_entry_is_equal e d | None => false end) eqn:E; cbn [negb].
  - intros _. split; [done|]. destruct f; [eauto|done].
  - intros Hf. exfalso. unfold flagged, has_flag in Hf.
    assert (Z.land (Z.ldiff (s_flags e) 1) 1 = 0) as E3.
    { apply Z.bits_inj'. intros n Hn. rewrite Z.land_spec, Z.ldiff_spec, Z.bits_0.
      destruct (Z.testbit 1 n); by rewrite andb_false_r. }
    unfold VY_STMT_DEFERRED_DELETE in Hf. destruct (s_refable e); cbn in Hf; by rewrite E3 in Hf.
Qed.

Definition skipped (e : stmt) : Prop := has_flag VY_STMT_SKIP_READ e = true.
Lemma pure_clear_skipped f e : skipped (pure_clear f e) -> skipped e.
Proof.
  unfold pure_clear, skipped, has_flag. destruct (_ && _); [|done].
  assert (Z.land (Z.ldiff (s_flags e) 1) 2 = Z.land (s_flags e) 2) as E.
  { apply Z.bits_inj'. intros n Hn. rewrite !Z.land_spec, Z.ldiff_spec. destruct (Z.eq_dec n 1) as [->|].
    - by rewrite andb_true_r.
    - assert (Z.testbit 2 n = false) as ->; [|by rewrite !andb_false_r].
      change 2 with (2 ^ 1). by rewrite Z.pow2_bits_false by lia. }
  unfold VY_STMT_DEFERRED_DELETE, VY_STMT_SKIP_READ in *. destruct (s_refable e); cbn; by rewrite E.
Qed.

Record origin (e : stmt) : Prop := {
  or_lsn : exists n, n ∈ ks /\ s_lsn e = s_lsn n /\ (s_type e = IPROTO_UPSERT -> s_type n = IPROTO_UPSERT);
  or_flag : flagged e -> e ∈ ks;
  or_ok : upsert_ok e;
  or_skip : skipped e -> exists n, n ∈ ks /\ skipped n;
}.

Lemma stmt_origin s : s ∈ ks -> origin s.
Proof.
  intros Hs. split; [by exists s|done| |by exists s]. pose proof (ki_ok _ _ Hin) as Hk. rewrite Forall_forall in Hk.
  by apply Hk.
Qed.

Lemma squash_origin prev lo hi h hs :
  view_history lst lo hi ks = h :: hs ->
  origin (pure_squash hs (pure_first lst prev h)).
Proof.
  intros Eh. destruct (history_ok lst ks (ki_ok _ _ Hin) _ _ _ _ Eh) as (Hu & Hoks & _).
  pose proof (view_history_range lst lo hi ks) as Hr. rewrite Eh in Hr. rewrite Forall_forall in Hr.
  inversion Hoks as [|?? Hh Hhs]; subst.
  assert (upsert_ok (pure_first lst prev h)) as Hf.
  { unfold pure_first. destruct (has_type IPROTO_UPSERT h) eqn:E; [|done]. apply has_typeP in E.
    destruct (_ && _); [by apply upsert_result_ok|done]. }
  pose proof (pure_squash_state None hs (pure_first lst prev h) Hu Hhs Hf) as [_ Hok].
  destruct (pure_squash_cases hs (pure_first lst prev h)) as [[-> E]|(l & El & Ht & E1 & E2)].
  - rewrite E in *. unfold pure_first in *.
    destruct (has_type IPROTO_UPSERT h) eqn:Eu; cbn [andb] in *; [|apply stmt_origin, Hr; by left].
    apply has_typeP in Eu. destruct (lst || _); [|apply stmt_origin, Hr; by left].
    assert (s_flags (upsert_result h prev) = 0) as E0.
    { unfold upsert_result. destruct prev as [p|]; [|done]. by destruct (has_type IPROTO_UPSERT p). }
    split; [| |done|].
    + exists h. split; [apply Hr; by left|]. split; [apply upsert_result_lsn|done].
    + unfold flagged, has_flag. by rewrite E0.
    + unfold skipped, has_flag. by rewrite E0.
  - split; [| |done|unfold skipped, has_flag; by rewrite E2].
    + exists l. apply last_Some_elem_of in El. split; [apply Hr; by right|]. split; [done|].
      intros _. by apply Ht.
    + unfold flagged, has_flag. by rewrite E2.
Qed.

Lemma clear_origin f e : origin e -> origin (pure_clear f e).
Proof.
  intros [Hl Hf Ho Hk]. destruct (pure_clear_fields f e) as (Ct & Cl & Cu & Co). split.
  - by rewrite Cl, Ct.
  - intros H. destruct (pure_clear_flagged _ _ H) as [E _]. rewrite E in *. by apply Hf.
  - unfold upsert_ok in *. by rewrite Ct, Co.
  - intros H. apply Hk. by eapply pure_clear_skipped.
Qed.

(** The result of a view. *)
Lemma convert_origin e e' :
  origin e -> (flagged e -> first = false) -> pure_convert first e = Some e' -> origin e'.
Proof.
  intros Ho Hd Ec. destruct (pure_convert_fields _ _ _ Ec) as (Fl & Fu & Fo & Ff & Fa).
  unfold pure_convert in Ec. destruct (first && has_type IPROTO_DELETE e); [done|].
  destruct (_ || _) eqn:E; [|by simplify_eq].
  destruct Ho as [Hl Hf Hk Hsk]. assert (~ flagged e) as Hn.
  { intros Hfl. specialize (Hd Hfl). rewrite Hd in E. cbn in E. apply has_typeP in E.
    pose proof (ki_flag _ _ Hin) as Hk2. rewrite Forall_forall in Hk2.
    destruct (Hk2 e (Hf Hfl) Hfl); congruence. }
  split.
  - destruct Hl as (n & Hn1 & Hn2 & Hn3). exists n. rewrite Fl. split_and!; [done|done|].
    intros Ht. apply Hn3. destruct (decide (s_type e = IPROTO_UPSERT)) as [|Hu]; [done|]. by apply Ff in Hu.
  - intros Hfl. exfalso. apply Hn. by injection Ec as <-.
  - unfold upsert_ok in *. rewrite Fo. intros Ht. apply Hk.
    destruct (decide (s_type e = IPROTO_UPSERT)) as [|Hu]; [done|]. by apply Ff in Hu.
  - intros H. apply Hsk. by injection Ec as <-.
Qed.

Lemma merge_origin prev lo hi e :
  pure_merge lst first dd prev (view_history lst lo hi ks) = Some e -> origin e.
Proof.
  destruct (view_history lst lo hi ks) as [|h hs] eqn:Eh; [done|]. cbn [pure_merge].
  destruct (both_deletes prev h); [done|].
  pose proof (clear_origin dd _ (squash_origin prev _ _ _ _ Eh)) as Ho.
  destruct prev; [by intros [= <-]|]. apply convert_origin; [done|].
  intros Hf. apply pure_clear_flagged in Hf as (_ & d & Ed & _). by apply dd_oldest in Ed as (_ & _ & _ & _ & _ & ?).
Qed.

Lemma results_origin : Forall origin results.
Proof.
  unfold key_results. induction vs as [|v vs' IH]; [constructor|].
  rewrite key_views_cons.
  destruct (pure_merge _ _ _ _ _) as [e|] eqn:Em; [|by apply IH].
  constructor; [by eapply merge_origin|by apply IH].
Qed.
Lemma output_origin : Forall origin (key_output primary lst vs ks).
Proof.
  unfold key_output. apply Forall_app. split; [apply results_origin|].
  destruct dd as [d|] eqn:Ed; [|constructor]. destruct (returned d results); [constructor|].
  constructor; [|constructor]. apply stmt_origin. apply dd_oldest in Ed as ([ks1 ->] & _). set_solver.
Qed.

(** ** Order of the output *)

Lemma views_none vs' :
  views_sorted vs' -> Forall (fun s => next_vlsn vs' < s_lsn s) ks -> key_views lst first dd vs' ks = [].
Proof.
  intros Hv Hf. induction vs' as [|v vs' IH]; [done|]. apply views_sorted_cons in Hv as (Hv & Hlo & _).
  rewrite key_views_cons. change (next_vlsn (v :: vs')) with v in Hf.
  assert (view_history lst (next_vlsn vs') v ks = []) as ->.
  { unfold view_history, view_stmts. rewrite filter_none; [done|]. eapply Forall_impl; [exact Hf|]. cbn. lia. }
  cbn. apply IH; [done|]. eapply Forall_impl; [exact Hf|]. cbn. lia.
Qed.

Lemma strict_inj (l : list stmt) s s' :
  StronglySorted (fun s s' => s_lsn s' < s_lsn s) l -> s ∈ l -> s' ∈ l -> s_lsn s = s_lsn s' -> s = s'.
Proof.
  induction 1 as [|x l Hs IH Hf]; [by rewrite elem_of_nil|]. rewrite Forall_forall in Hf.
  rewrite !elem_of_cons. intros [->|H1] [->|H2] E; try done; try (apply Hf in H1 || apply Hf in H2; lia).
  by apply IH.
Qed.
Lemma strict_sublist (l l' : list stmt) (R : stmt -> stmt -> Prop) :
  sublist l l' -> StronglySorted R l' -> StronglySorted R l.
Proof.
  induction 1; intros Hs; [constructor|..]; inversion Hs; subst; auto.
  constructor; [by auto|]. rewrite Forall_forall in *. intros y Hy. by eauto using elem_of_sublist.
Qed.
Lemma sublist_filter (P : stmt -> Prop) `{!forall s, Decision (P s)} l : sublist (filter P l) l.
Proof.
  induction l as [|x l IH]; [done|]. destruct (decide (P x)).
  - rewrite filter_cons_True by done. by constructor.
  - rewrite filter_cons_False by done. by constructor.
Qed.

Lemma history_sorted lo hi :
  primary = true -> StronglySorted (fun s s' => s_lsn s' < s_lsn s) (rev (view_history lst lo hi ks)).
Proof.
  intros Hp. unfold view_history. rewrite rev_involutive.
  apply (strict_sublist _ ks).
  - transitivity (view_stmts lo hi ks); [|apply sublist_filter].
    destruct (upto_terminal_prefix (lst && (lo <? 0)) (view_stmts lo hi ks)) as [rest E].
    rewrite E at 2. apply sublist_inserts_r. done.
  - eapply StronglySorted_weaken; [|apply Hin]. intros s s' [?|(_ & E & _)]; [done|congruence].
Qed.

Lemma oldest_le ks1 d s : ks = ks1 ++ [d] -> s ∈ ks -> s_lsn d <= s_lsn s.
Proof.
  intros Ek Hs. pose proof ki_lsn_sorted as Hk. rewrite Ek in Hk, Hs. unfold lsn_sorted in Hk.
  apply elem_of_app in Hs as [Hs|Hs]; [|set_solver].
  eapply StronglySorted_app_1_elem_of in Hk; [exact Hk|done|set_solver].
Qed.

(** In a history whose newest statement is the oldest of the key. *)
Lemma oldest_alone lo hi ks1 d h hs :
  primary = true -> ks = ks1 ++ [d] -> view_history lst lo hi ks = h :: hs -> newest h hs = s_lsn d ->
  h = d /\ hs = [].
Proof.
  intros Hp Ek Eh En. pose proof (history_sorted lo hi Hp) as Hs.
  pose proof (view_history_range lst lo hi ks) as Hr. rewrite Eh in Hr, Hs. rewrite Forall_forall in Hr.
  assert (forall s, s ∈ ks -> s_lsn s = s_lsn d -> s = d) as Hinj.
  { intros s Hs1 Hs2. eapply (strict_inj ks); [|done|rewrite Ek; set_solver|done].
    eapply StronglySorted_weaken; [|apply Hin]. intros ? ? [?|(_ & E & _)]; [done|congruence]. }
  destruct hs as [|l hs _] using rev_ind.
  { split; [|done]. apply Hinj; [apply Hr; by left|done]. }
  exfalso. unfold newest in En. rewrite last_snoc in En. cbn in En, Hs. rewrite rev_app_distr in Hs. cbn in Hs.
  apply StronglySorted_inv in Hs as [_ Hf]. rewrite Forall_forall in Hf. specialize (Hf h).
  assert (s_lsn d <= s_lsn h) by (eapply oldest_le; [done|apply Hr; by left]).
  assert (s_lsn h < s_lsn l) by (apply Hf; set_solver). lia.
Qed.

Lemma results_last d :
  views_sorted vs -> dd = Some d -> s_addr d <> None -> s_lsn d <= next_vlsn vs ->
  exists e, list.last results = Some e /\ (e = d \/ s_lsn d < s_lsn e).
Proof.
  intros Hv Ed Ha Hd. destruct (dd_oldest d Ed) as ([ks1 Ek] & Hfl & Ht & Hp & Hl & Hf).
  unfold key_results. induction vs as [|v vs' IH].
  { exfalso. pose proof ki_nonneg as H0. rewrite Ek in H0. apply Forall_app in H0 as [_ H0].
    apply Forall_inv in H0. cbn in Hd, H0. lia. }
  apply views_sorted_cons in Hv as (Hv & Hlo & _). change (next_vlsn (v :: vs')) with v in Hd.
  rewrite key_views_cons. destruct (Z.le_gt_cases (s_lsn d) (next_vlsn vs')) as [Hle|Hgt].
  { destruct (IH Hv Hle) as (e & El & He). exists e. split; [|done].
    destruct (pure_merge _ _ _ _ _) as [e'|]; [|done]. rewrite last_cons, El. done. }
  rewrite (views_none vs') by (try done; apply Forall_forall; intros s Hs;
    pose proof (oldest_le ks1 d s Ek Hs); lia).
  assert (d ∈ view_stmts (next_vlsn vs') v ks) as Hdin.
  { unfold view_stmts. apply list_elem_of_filter. split; [lia|]. rewrite Ek. set_solver. }
  destruct (view_history lst (next_vlsn vs') v ks) as [|h hs] eqn:Eh.
  { exfalso. unfold view_history in Eh. rewrite Hl in Eh. cbn [andb] in Eh.
    destruct (view_stmts (next_vlsn vs') v ks) as [|x l]; [by apply elem_of_nil in Hdin|].
    cbn in Eh. destruct (has_type IPROTO_UPSERT x); cbn in Eh; [by apply app_eq_nil in Eh as [_ ?]|done]. }
  destruct (pure_merge lst first dd (head []) (h :: hs)) as [e|] eqn:Em.
  2: { cbn in Em. rewrite Hf in Em. unfold pure_convert in Em. cbn in Em. by destruct (has_type _ _). }
  exists e. split; [done|].
  assert (s_lsn e = newest h hs) as El.
  { cbn in Em. apply pure_convert_fields in Em as (Fl & _).
    destruct (pure_clear_fields dd (pure_squash hs (pure_first lst None h))) as (_ & Cl & _).
    destruct (pure_squash_fields hs (pure_first lst None h)) as [Sl _]. rewrite Fl, Cl, Sl.
    destruct hs; [|apply newest_cons]. cbn. unfold pure_first. rewrite Hl. cbn. by rewrite andb_false_r. }
  pose proof (view_history_range lst (next_vlsn vs') v ks) as Hr. rewrite Eh in Hr.
  assert (s_lsn d <= newest h hs) as Hge.
  { apply (newest_in (fun z => s_lsn d <= z)). eapply Forall_impl; [exact Hr|]. intros s [_ Hs].
    by eapply oldest_le. }
  destruct (Z.eq_dec (newest h hs) (s_lsn d)) as [En|]; [left|right; lia].
  destruct (oldest_alone _ _ ks1 d h hs Hp Ek Eh En) as [-> ->].
  cbn in Em. unfold pure_first in Em. rewrite has_type_ne in Em by done. cbn in Em.
  unfold pure_clear in Em. rewrite Ed in Em. unfold vy_entry_is_equal in Em.
  destruct (s_addr d) as [a|]; [|done]. rewrite Z.eqb_refl, andb_false_r in Em.
  unfold pure_convert in Em. rewrite Hf in Em. cbn in Em. rewrite has_type_ne in Em; [by simplify_eq|].
  pose proof (ki_flag _ _ Hin) as Hk. rewrite Forall_forall in Hk.
  destruct (Hk d) as [->| ->]; [rewrite Ek; set_solver|done|done|done].
Qed.

Lemma output_sorted :
  views_sorted vs -> next_vlsn vs = INT64_MAX -> Forall (fun s => s_addr s <> None) ks ->
  StronglySorted (fun s s' => s_lsn s' < s_lsn s) (key_output primary lst vs ks).
Proof.
  intros Hv Hmax Ha. unfold key_output.
  destruct (key_views_sorted lst first dd ks (ki_ok _ _ Hin) vs Hv) as [Hs _]. fold results in Hs.
  destruct dd as [d|] eqn:Ed; [|by rewrite app_nil_r].
  destruct (dd_oldest d Ed) as ([ks1 Ek] & _).
  assert (d ∈ ks) as Hdk by (rewrite Ek; set_solver). rewrite Forall_forall in Ha.
  pose proof (ki_pos _ _ Hin) as Hp. rewrite Forall_forall in Hp. specialize (Hp d Hdk).
  destruct (results_last d Hv Ed (Ha d Hdk) ltac:(lia)) as (e & El & He).
  destruct (returned d results) eqn:Er; [by rewrite app_nil_r|].
  destruct He as [->|He].
  { exfalso. unfold returned in Er. rewrite El in Er. unfold vy_entry_is_equal in Er.
    specialize (Ha d Hdk). destruct (s_addr d); [|done]. by rewrite Z.eqb_refl in Er. }
  apply StronglySorted_app_2; [|done|repeat constructor].
  intros x y Hx Hy. apply list_elem_of_singleton in Hy as ->.
  apply last_Some in El as [l El]. rewrite El in Hs, Hx. apply elem_of_app in Hx as [Hx|Hx]; [|set_solver].
  pose proof (StronglySorted_app_1_elem_of _ _ _ x e Hs Hx ltac:(set_solver)) as Hxe. cbn in Hxe. lia.
Qed.
End Key.
End Deferred.
