(* ===== verification/VyMerge.v ===== *)
(** * The merge of the sources of the write iterator

    The heap of sources returns the statements of all sources in order: by
    key, and the statements of a key newest first; the virtual source comes
    after the last statement of its key. *)

From stdpp Require Import list sorting gmap.
From S2P Require Import Prelude Heap HeapSafety VyStmt VyVisible VyWriteIterator.

Open Scope Z_scope.

Section Merge.
Context {T O : Type} `{!Tuples T O, !TuplesLaws T O}.
Abbreviation stmt := (vy_stmt T O).
Abbreviation src := (vy_write_src T O).
Abbreviation wi := (vy_write_iterator T O).
Implicit Types (e k : stmt) (ms : list stmt) (w : wi) (F : Prop).

(** ** The order *)

Lemma entry_less_asym (s1 : src) e1 (s2 : src) e2 :
  entry_less s1 e1 s2 e2 = true -> entry_less s2 e2 s1 e1 = false.
Proof.
  unfold entry_less. pose proof (compare_flip (s_tuple e1) (s_tuple e2)).
  pose proof (compare_flip (s_tuple e2) (s_tuple e1)).
  repeat match goal with |- context [?a =? ?b] => destruct (Z.eqb_spec a b) end; cbn; lia.
Qed.
Lemma entry_less_weak (s1 : src) e1 (s2 : src) e2 (s3 : src) e3 :
  entry_less s2 e2 s1 e1 = false -> entry_less s3 e3 s2 e2 = false -> entry_less s3 e3 s1 e1 = false.
Proof.
  unfold entry_less.
  pose proof (compare_flip (s_tuple e1) (s_tuple e2)). pose proof (compare_flip (s_tuple e2) (s_tuple e1)).
  pose proof (compare_flip (s_tuple e2) (s_tuple e3)). pose proof (compare_flip (s_tuple e3) (s_tuple e2)).
  pose proof (compare_flip (s_tuple e1) (s_tuple e3)). pose proof (compare_flip (s_tuple e3) (s_tuple e1)).
  pose proof (compare_trans (s_tuple e1) (s_tuple e2) (s_tuple e3)).
  pose proof (compare_trans (s_tuple e3) (s_tuple e1) (s_tuple e2)).
  pose proof (compare_trans (s_tuple e2) (s_tuple e3) (s_tuple e1)).
  repeat match goal with |- context [?a =? ?b] => destruct (Z.eqb_spec a b) end; cbn; lia.
Qed.

#[export] Instance heap_less_strict (srcs : gmap Z src) : StrictWeak (heap_less srcs).
Proof.
  split.
  - intros x y. unfold heap_less. destruct (s ← srcs !! x; e ← src_entry s; Some (s, e)) as [[s1 e1]|],
      (s ← srcs !! y; e ← src_entry s; Some (s, e)) as [[s2 e2]|]; try done. apply entry_less_asym.
  - intros x y z. unfold heap_less. destruct (s ← srcs !! x; e ← src_entry s; Some (s, e)) as [[s1 e1]|],
      (s ← srcs !! y; e ← src_entry s; Some (s, e)) as [[s2 e2]|],
      (s ← srcs !! z; e ← src_entry s; Some (s, e)) as [[s3 e3]|]; try done. apply entry_less_weak.
Qed.

(** Between statements of real sources. *)
Definition before (s s' : stmt) : Prop :=
  tuple_compare (s_tuple s) (s_tuple s') < 0 \/
  (same_key (s_tuple s) (s_tuple s') /\
   (s_lsn s' < s_lsn s \/ (s_lsn s' = s_lsn s /\ delete_rank s < delete_rank s'))).

Lemma entry_less_before (s1 : src) e1 (s2 : src) e2 :
  src_is_end_of_key s1 = false -> src_is_end_of_key s2 = false ->
  entry_less s1 e1 s2 e2 = true <-> before e1 e2.
Proof.
  intros H1 H2. unfold entry_less, before, heap_lsn, same_key. rewrite H1, H2.
  repeat match goal with |- context [?a =? ?b] => destruct (Z.eqb_spec a b) end; cbn; lia.
Qed.
Lemma before_trans e1 e2 e3 : before e1 e2 -> before e2 e3 -> before e1 e3.
Proof.
  unfold before, same_key. intros H1 H2.
  pose proof (compare_lt_trans (s_tuple e1) (s_tuple e2) (s_tuple e3)).
  pose proof (compare_le_lt_trans (s_tuple e1) (s_tuple e2) (s_tuple e3)).
  pose proof (transitivity (R := same_key) (x := s_tuple e1) (y := s_tuple e2) (z := s_tuple e3)) as Ht.
  unfold same_key in Ht. lia.
Qed.
Lemma before_irrefl e : ~ before e e.
Proof. unfold before. pose proof (compare_refl (s_tuple e)). lia. Qed.

(** ** The state of the sources *)

Definition src_all (s : src) : list stmt :=
  match src_entry s with None => [] | Some e => e :: src_stream s end.
Definition pending (srcs : gmap Z src) : list stmt := map_to_list srcs ≫= fun p => src_all (snd p).

Lemma pending_insert srcs x s : srcs !! x = None -> pending (<[x := s]> srcs) ≡ₚ src_all s ++ pending srcs.
Proof. intros Hx. unfold pending. by rewrite map_to_list_insert. Qed.
Lemma pending_delete srcs x s : srcs !! x = Some s -> pending srcs ≡ₚ src_all s ++ pending (delete x srcs).
Proof.
  intros Hx. rewrite <- (insert_delete_id srcs x s Hx) at 1. apply pending_insert, lookup_delete_eq.
Qed.
Lemma elem_of_pending srcs e : e ∈ pending srcs <-> exists x s, srcs !! x = Some s /\ e ∈ src_all s.
Proof.
  unfold pending. rewrite list_elem_of_bind. split.
  - intros ([x s] & He & Hl). apply elem_of_map_to_list in Hl. eauto.
  - intros (x & s & Hx & He). exists (x, s). by rewrite elem_of_map_to_list.
Qed.

(** A source that has been started. *)
Record src_ok (s : src) : Prop := {
  so_real : src_is_end_of_key s = false;
  so_end : src_entry s = None -> src_stream s = [];
  so_sorted : StronglySorted before (src_all s);
}.

Definition end_src k : src := mk_src (Some k) true [].

(** The sources have exactly the statements [ms] left; [o] is the key of the
    virtual source, if it is in the heap. *)
Record feeds (o : option stmt) (srcs : gmap Z src) (h : heap) ms : Prop := {
  fd_heap : heap_ok (heap_less srcs) h;
  fd_small : h_size h + (if o then 0 else 1) < 2 ^ 31;
  fd_member : forall x, member h x <-> exists s e, srcs !! x = Some s /\ src_entry s = Some e;
  fd_end : srcs !! END_OF_KEY = end_src <$> o;
  fd_srcs : forall x s, srcs !! x = Some s -> x <> END_OF_KEY -> src_ok s;
  fd_perm : ms ≡ₚ pending (delete END_OF_KEY srcs);
  fd_sorted : StronglySorted before ms;
  fd_pos : Forall (fun s => 0 < s_lsn s) ms;
}.
Abbreviation feeding o w ms := (feeds o (wi_srcs w) (wi_src_heap w) ms).

Lemma feeds_real o srcs h ms x s :
  feeds o srcs h ms -> srcs !! x = Some s -> x <> END_OF_KEY -> forall e, e ∈ src_all s -> e ∈ ms.
Proof.
  intros Hf Hx Hne e He. rewrite (fd_perm _ _ _ _ Hf). apply elem_of_pending. exists x, s.
  split; [|done]. by rewrite lookup_delete_ne.
Qed.

Lemma heap_less_lookup (srcs : gmap Z src) x y s1 e1 s2 e2 :
  srcs !! x = Some s1 -> src_entry s1 = Some e1 -> srcs !! y = Some s2 -> src_entry s2 = Some e2 ->
  heap_less srcs x y = entry_less s1 e1 s2 e2.
Proof. intros E1 E2 E3 E4. unfold heap_less. rewrite E1, E3. cbn. rewrite E2, E4. done. Qed.

Lemma heap_less_none (srcs : gmap Z src) x y sr :
  srcs !! x = Some sr -> src_entry sr = None -> heap_less srcs y x = false.
Proof.
  intros E1 E2. unfold heap_less. rewrite E1. cbn. rewrite E2. cbn.
  by destruct (srcs !! y ≫= _) as [[]|].
Qed.

(** The least statement is the current one of the source at the top. *)
Lemma feeds_top o srcs h s ms :
  feeds o srcs h (s :: ms) -> (forall k, o = Some k -> tuple_compare (s_tuple s) (s_tuple k) <= 0) ->
  wp heap_top (fun top h' => h' = h /\ exists x sr, top = Some x /\ at_pos h 0 = x /\ x <> END_OF_KEY /\
    srcs !! x = Some sr /\ src_entry sr = Some s) h.
Proof.
  intros Hf Ho. eapply wp_mono; [apply (heap_top_spec (heap_less srcs)), Hf|]. intros top h' [-> Ht].
  split; [done|].
  assert (exists y sy, y <> END_OF_KEY /\ srcs !! y = Some sy /\ s ∈ src_all sy) as (y & sy & Hy & Ey & Hs).
  { assert (s ∈ pending (delete END_OF_KEY srcs)) as H by (rewrite <- (fd_perm _ _ _ _ Hf); by left).
    apply elem_of_pending in H as (y & sy & Ey & Hs). apply lookup_delete_Some in Ey as [? ?]. eauto. }
  pose proof (fd_srcs _ _ _ _ Hf y sy Ey Hy) as [Hry _ Hsy].
  assert (exists ey, src_entry sy = Some ey /\ (ey = s \/ before ey s)) as (ey & Eey & Hey).
  { unfold src_all in *. destruct (src_entry sy) as [ey|]; [|by apply elem_of_nil in Hs]. exists ey.
    split; [done|]. apply elem_of_cons in Hs as [->|Hs]; [by left|right].
    apply StronglySorted_inv in Hsy as [_ Hsy]. rewrite Forall_forall in Hsy. by apply Hsy. }
  assert (member h y) as Hmy by (apply (fd_member _ _ _ _ Hf); eauto).
  destruct top as [x|]; [|destruct Hmy as (i & Hi & _); lia].
  destruct Ht as (Hx0 & Hx & Hmin). specialize (Hmin y Hmy).
  apply (fd_member _ _ _ _ Hf) in Hx as (sx & ex & Ex & Eex).
  rewrite (heap_less_lookup _ _ _ _ _ _ _ Ey Eey Ex Eex) in Hmin.
  assert (s_lsn s > 0) as Hpos.
  { pose proof (fd_pos _ _ _ _ Hf) as Hp. apply Forall_inv in Hp. lia. }
  assert (x <> END_OF_KEY) as Hne.
  { intros ->. rewrite (fd_end _ _ _ _ Hf) in Ex. destruct o as [k|]; [|done]. injection Ex as <-.
    injection Eex as <-. specialize (Ho k eq_refl). revert Hmin. unfold entry_less, heap_lsn. cbn. rewrite Hry.
    assert (tuple_compare (s_tuple ey) (s_tuple k) < 0 \/
            (tuple_compare (s_tuple ey) (s_tuple k) = 0 /\ 0 < s_lsn ey)) as Hk.
    { destruct Hey as [->|[Hlt|[Hk Hl]]].
      - pose proof (compare_flip (s_tuple s) (s_tuple k)). lia.
      - left. by eapply compare_lt_trans.
      - destruct (Z.eq_dec (tuple_compare (s_tuple s) (s_tuple k)) 0) as [E0|E0].
        + right. split; [|lia]. change (same_key (s_tuple ey) (s_tuple k)). etransitivity; [exact Hk|done].
        + left. eapply compare_le_lt_trans; [|]; [|instantiate (1 := s_tuple s); lia]. unfold same_key in Hk. lia. }
    destruct (Z.eqb_spec (tuple_compare (s_tuple ey) (s_tuple k)) 0); cbn; [|lia].
    destruct (Z.eqb_spec (s_lsn ey) 0); cbn; lia. }
  pose proof (fd_srcs _ _ _ _ Hf x sx Ex Hne) as [Hrx _ _].
  assert (ex ∈ s :: ms) as Hin.
  { eapply feeds_real; [done|exact Ex|done|]. unfold src_all. rewrite Eex. by left. }
  exists x, sx. split_and!; try done. apply elem_of_cons in Hin as [->|Hin]; [done|]. exfalso.
  pose proof (fd_sorted _ _ _ _ Hf) as Hs2. apply StronglySorted_inv in Hs2 as [_ Hs2].
  rewrite Forall_forall in Hs2. specialize (Hs2 ex Hin).
  assert (before ey ex) as Hb by (destruct Hey as [->|Hey]; [done|by eapply before_trans]).
  apply (entry_less_before sy ey sx ex) in Hb; [|done|done]. congruence.
Qed.

(** After the last statement of its key comes the virtual source. *)
Lemma feeds_top_end k srcs h ms :
  feeds (Some k) srcs h ms -> Forall (fun s => tuple_compare (s_tuple k) (s_tuple s) < 0) ms ->
  wp heap_top (fun top h' => h' = h /\ top = Some END_OF_KEY) h.
Proof.
  intros Hf Hk. eapply wp_mono; [apply (heap_top_spec (heap_less srcs)), Hf|]. intros top h' [-> Ht].
  split; [done|].
  assert (srcs !! END_OF_KEY = Some (end_src k)) as Ee by apply (fd_end _ _ _ _ Hf).
  assert (member h END_OF_KEY) as Hm by (apply (fd_member _ _ _ _ Hf); unfold end_src in Ee; eauto).
  destruct top as [x|]; [|destruct Hm as (i & Hi & _); lia].
  destruct Ht as (_ & Hx & Hmin). specialize (Hmin _ Hm).
  destruct (Z.eq_dec x END_OF_KEY) as [->|Hne]; [done|]. exfalso.
  apply (fd_member _ _ _ _ Hf) in Hx as (sx & ex & Ex & Eex).
  rewrite (heap_less_lookup _ _ _ _ k _ _ Ee eq_refl Ex Eex) in Hmin.
  assert (ex ∈ ms) as Hin.
  { eapply feeds_real; [done|exact Ex|done|]. unfold src_all. rewrite Eex. by left. }
  rewrite Forall_forall in Hk. specialize (Hk ex Hin). unfold entry_less in Hmin.
  destruct (Z.eqb_spec (tuple_compare (s_tuple k) (s_tuple ex)) 0); cbn in Hmin; lia.
Qed.

Lemma feeds_top_nil srcs h :
  feeds None srcs h [] -> wp heap_top (fun top h' => h' = h /\ top = None) h /\ h_size h = 0.
Proof.
  intros Hf. assert (h_size h = 0) as Hz.
  { pose proof (fd_heap _ _ _ _ Hf) as [[Hc Hs _ _ _] _].
    destruct (Z.eq_dec (h_size h) 0) as [|Hn]; [done|]. exfalso.
    assert (member h (at_pos h 0)) as Hm by (exists 0; split; [lia|done]).
    apply (fd_member _ _ _ _ Hf) in Hm as (s & e & Es & Ee).
    destruct (Z.eq_dec (at_pos h 0) END_OF_KEY) as [E|Hne].
    - rewrite E, (fd_end _ _ _ _ Hf) in Es. done.
    - assert (e ∈ []) as Hin; [|by apply elem_of_nil in Hin].
      eapply feeds_real; [done|exact Es|done|]. unfold src_all. rewrite Ee. by left. }
  split; [|done]. unfold heap_top. apply wp_bind, wp_gets. by rewrite Hz.
Qed.

(** ** Programs on parts of the state *)

Lemma wpx_on_heap F {A} (m : hprog A) (Q : A -> wi -> Prop) w :
  wp m (fun a h => Q a (w <| wi_src_heap := h |>)) (wi_src_heap w) -> wpx F (on_heap m) Q w.
Proof. unfold wp, wpx, on_heap. by destruct (m (wi_src_heap w)) as [[a h]|]. Qed.
Lemma wpx_on_oom F {A} (m : oprog A) (Q : A -> wi -> Prop) w :
  wpx F m (fun a oom => Q a (w <| wi_oom := oom |>)) (wi_oom w) -> wpx F (on_oom m) Q w.
Proof. unfold wpx, on_oom. by destruct (m (wi_oom w)) as [[a h]|]. Qed.
Lemma wpx_get_src F x s (Q : src -> wi -> Prop) w :
  wi_srcs w !! x = Some s -> Q s w -> wpx F (get_src x) Q w.
Proof. unfold wpx, get_src. by intros ->. Qed.
Lemma wpx_src_stmt F x s e (Q : stmt -> wi -> Prop) w :
  wi_srcs w !! x = Some s -> src_entry s = Some e -> Q e w -> wpx F (src_stmt x) Q w.
Proof.
  intros Ex Ee HQ. unfold src_stmt. apply wpx_bind. eapply wpx_get_src; [done|]. rewrite Ee. done.
Qed.

(** Only the sources and the heap have changed. *)
Definition moved w w' : Prop := exists srcs h, w' = w <| wi_srcs := srcs |> <| wi_src_heap := h |>.
#[export] Instance moved_preorder : PreOrder moved.
Proof.
  split.
  - intros w. exists (wi_srcs w), (wi_src_heap w). by destruct w.
  - intros w1 w2 w3 (srcs & h & ->) (srcs' & h' & ->). by exists srcs', h'.
Qed.

(** ** Steps of the merge *)

Lemma feeds_update o srcs h h' s ms x sr sr' :
  feeds o srcs h (s :: ms) -> x <> END_OF_KEY -> srcs !! x = Some sr -> src_entry sr = Some s ->
  src_is_end_of_key sr' = false -> (src_entry sr' = None -> src_stream sr' = []) ->
  src_all sr' = src_stream sr -> heap_ok (heap_less (<[x := sr']> srcs)) h' -> h_size h' <= h_size h ->
  (forall y, member h' y <-> member h y /\ (y = x -> src_entry sr' <> None)) ->
  feeds o (<[x := sr']> srcs) h' ms.
Proof.
  intros Hf Hne Ex Es Hreal Hend Hall Hok Hsz Hmem. pose proof Hf as [_ Hsm Hm He Hs Hp Hss Hpos].
  pose proof (Hs x sr Ex Hne) as [_ _ Hsr].
  assert (src_all sr = s :: src_stream sr) as Ea by (unfold src_all; by rewrite Es).
  split.
  - done.
  - lia.
  - intros y. rewrite Hmem, Hm. destruct (Z.eq_dec y x) as [->|Hyx].
    + rewrite lookup_insert_eq. split.
      * intros [_ Hn]. specialize (Hn eq_refl). destruct (src_entry sr') eqn:E; [|done]. eauto.
      * intros (? & e & [= <-] & E). split; [eauto|congruence].
    + rewrite lookup_insert_ne by done. naive_solver.
  - by rewrite lookup_insert_ne.
  - intros y sy. destruct (Z.eq_dec y x) as [->|Hyx].
    + rewrite lookup_insert_eq. intros [= <-] _. split; [done|done|]. rewrite Hall.
      rewrite Ea in Hsr. by apply StronglySorted_inv in Hsr as [? _].
    + rewrite lookup_insert_ne by done. apply Hs.
  - rewrite delete_insert_ne by done.
    assert (delete END_OF_KEY srcs !! x = Some sr) as Ex' by by rewrite lookup_delete_ne.
    rewrite (pending_delete _ _ _ Ex'), Ea in Hp. cbn in Hp. apply Permutation_cons_inv in Hp. rewrite Hp.
    rewrite (pending_delete (<[x := sr']> (delete END_OF_KEY srcs)) x sr') by apply lookup_insert_eq.
    by rewrite delete_insert_eq, Hall.
  - by apply StronglySorted_inv in Hss as [? _].
  - by apply Forall_inv_tail in Hpos.
Qed.

Lemma merge_step_spec F o w s ms :
  feeding o w (s :: ms) -> (forall k, o = Some k -> tuple_compare (s_tuple s) (s_tuple k) <= 0) ->
  wpx F vy_write_iterator_merge_step (fun _ w' => moved w w' /\ feeding o w' ms) w.
Proof.
  intros Hf Ho. unfold vy_write_iterator_merge_step, vy_source_heap_top.
  apply wpx_bind, wpx_on_heap. eapply wp_mono; [by eapply feeds_top|].
  intros top h' (-> & x & sr & -> & Hx0 & Hne & Ex & Es). apply wpx_bind. unfold stream_next.
  apply wpx_bind. eapply wpx_get_src; [done|]. unfold set_src. apply wpx_modify.
  set (sr' := match src_stream sr with [] => _ | _ => _ end).
  pose proof (fd_srcs _ _ _ _ Hf x sr Ex Hne) as [Hreal _ _].
  assert (src_is_end_of_key sr' = false /\ (src_entry sr' = None -> src_stream sr' = []) /\
          src_all sr' = src_stream sr) as (Hr & Hn & Ha) by
    (unfold sr', src_all; destruct (src_stream sr) eqn:E0; cbn; by rewrite ?E0, ?Hreal).
  clearbody sr'. set (srcs' := <[x := sr']> (wi_srcs w)).
  assert (forall y z, y <> x -> z <> x -> heap_less srcs' y z = heap_less (wi_srcs w) y z) as Hsame.
  { intros y z Hy Hz. unfold heap_less, srcs'. by rewrite !lookup_insert_ne. }
  assert (member (wi_src_heap w) x) as Hm by (apply (fd_member _ _ _ _ Hf); eauto).
  apply wpx_bind. eapply wpx_get_src; [apply lookup_insert_eq|].
  destruct (src_entry sr') as [e'|] eqn:E'.
  - unfold vy_source_heap_update. apply wpx_bind, wpx_gets, wpx_on_heap.
    eapply wp_mono; [apply (heap_update_spec (heap_less srcs') (heap_less (wi_srcs w))); [apply Hf|done|done]|].
    intros _ h' [Hok Hsn]. split; [by exists srcs', h'|]. cbn.
    eapply (feeds_update o _ (wi_src_heap w)); try done.
    + congruence.
    + rewrite (sn_size _ _ Hsn). done.
    + intros y. rewrite (sn_member _ _ Hsn), E'. naive_solver.
  - unfold vy_write_iterator_remove_src. apply wpx_bind, wpx_gets. cbn.
    assert (heap_node_is_stray x (wi_src_heap w) = false) as ->.
    { apply not_true_iff_false. rewrite member_stray by apply Hf. tauto. }
    unfold vy_source_heap_delete. apply wpx_bind, wpx_gets, wpx_on_heap. cbn.
    assert (heap_ok (heap_less srcs') (wi_src_heap w)) as Hok.
    { eapply (heap_ok_top (heap_less (wi_srcs w))); [apply Hf|exact Hx0| |done].
      intros y. eapply heap_less_none; [apply lookup_insert_eq|done]. }
    eapply wp_mono; [apply (heap_delete_spec (heap_less srcs')); [exact Hok|exact Hm]|].
    intros _ h' (Hok' & Hsz & _ & Hmem).
    split; [by exists srcs', h'|]. cbn. eapply (feeds_update o _ (wi_src_heap w)); try done.
    + intros _. by apply Hn.
    + lia.
    + intros y. rewrite Hmem, E'. destruct (Z.eq_dec y x) as [->|]; naive_solver.
Qed.

(** ** The virtual source *)

Lemma insert_end_spec F w s ms (Q : Z -> wi -> Prop) :
  feeding None w (s :: ms) -> quiet F (wi_oom w) ->
  (forall rc w', rc <> 0 -> F -> Q rc w') ->
  (forall h oom, quiet F oom -> feeds (Some s) (<[END_OF_KEY := end_src s]> (wi_srcs w)) h (s :: ms) ->
     Q 0 (w <| wi_srcs := <[END_OF_KEY := end_src s]> (wi_srcs w) |> <| wi_oom := oom |> <| wi_src_heap := h |>)) ->
  wpx F (set_src END_OF_KEY (end_src s);; vy_source_heap_insert END_OF_KEY) Q w.
Proof.
  intros Hf Hq HF HQ. apply wpx_bind. unfold set_src. apply wpx_modify.
  set (srcs' := <[END_OF_KEY := end_src s]> (wi_srcs w)).
  unfold vy_source_heap_insert. apply wpx_bind, wpx_on_oom, wpx_fails; [done|].
  intros b oom Hq' Hb. apply wpx_bind, wpx_gets, wpx_on_heap. cbn.
  pose proof Hf as [Hok Hsm Hm He Hs Hp Hss Hpos]. cbn in He.
  assert (~ member (wi_src_heap w) END_OF_KEY) as Hn.
  { rewrite Hm. intros (? & ? & E & _). by rewrite He in E. }
  assert (heap_ok (heap_less srcs') (wi_src_heap w)) as Hok'.
  { eapply heap_ok_ext; [|exact Hok]. intros y z Hy Hz. unfold heap_less, srcs'.
    rewrite !lookup_insert_ne; [done|intros <-; by apply Hn..]. }
  eapply wp_mono; [apply (heap_insert_spec (heap_less srcs')); [exact Hok'|exact Hn|exact Hsm]|].
  intros rc h' [(-> & _ & ->)|(-> & Hok2 & Hsz & Hmem)]; [apply HF; [done|by apply Hb]|].
  apply (HQ h' oom Hq'). fold srcs'. split.
  - done.
  - rewrite Hsz. cbn in *. lia.
  - intros x. rewrite Hmem. destruct (Z.eq_dec x END_OF_KEY) as [->|Hx].
    + unfold srcs'. rewrite lookup_insert_eq. split; [|by left]. intros _. by eexists _, s.
    + unfold srcs'. rewrite lookup_insert_ne, Hm by done. naive_solver.
  - apply lookup_insert_eq.
  - intros x sx Ex Hx. unfold srcs' in Ex. rewrite lookup_insert_ne in Ex by done. by eapply Hs.
  - unfold srcs'. rewrite delete_insert_eq. done.
  - done.
  - done.
Qed.

Lemma delete_end_spec F w k ms (Q : unit -> wi -> Prop) :
  feeding (Some k) w ms -> (forall w', moved w w' -> feeding None w' ms -> Q tt w') ->
  wpx F (vy_source_heap_delete END_OF_KEY;; drop_end_of_key) Q w.
Proof.
  intros Hf HQ. pose proof Hf as [Hok Hsm Hm He Hs Hp Hss Hpos].
  unfold vy_source_heap_delete. apply wpx_bind, wpx_bind, wpx_gets, wpx_on_heap.
  assert (member (wi_src_heap w) END_OF_KEY) as Hme by (apply Hm; rewrite He; by eexists _, k).
  eapply wp_mono; [apply (heap_delete_spec (heap_less (wi_srcs w))); [exact Hok|exact Hme]|].
  intros _ h' (Hok' & Hsz & _ & Hmem). unfold drop_end_of_key. apply wpx_modify. apply HQ; [by eexists _, _|].
  cbn. split; cbn.
  - eapply heap_ok_ext; [|exact Hok']. intros y z [_ Hy]%Hmem [_ Hz]%Hmem. unfold heap_less.
    by rewrite !lookup_delete_ne.
  - lia.
  - intros x. rewrite Hmem, Hm. destruct (Z.eq_dec x END_OF_KEY) as [->|Hx].
    + rewrite lookup_delete_eq. naive_solver.
    + rewrite lookup_delete_ne by done. naive_solver.
  - apply lookup_delete_eq.
  - intros x sx Ex Hx. apply lookup_delete_Some in Ex as [_ Ex]. by eapply Hs.
  - by rewrite delete_delete_eq.
  - done.
  - done.
Qed.

(** ** The number of statements left *)

Lemma list_sum_cons n l : list_sum (n :: l) = (n + list_sum l)%nat.
Proof. done. Qed.

Lemma left_count_pending w o ms :
  feeding o w ms -> left_count w = (length ms + if o then 1 else 0)%nat.
Proof.
  intros Hf.
  assert (forall srcs : gmap Z src, (forall x s, srcs !! x = Some s -> src_ok s) ->
    list_sum ((fun p => src_size (snd p)) <$> map_to_list srcs) = length (pending srcs)) as Hlen.
  { intros srcs. induction srcs as [|x s srcs Hx IH] using map_ind; intros Hs; [done|].
    rewrite (map_to_list_insert _ _ _ Hx), (pending_insert _ _ _ Hx), length_app, fmap_cons.
    rewrite list_sum_cons, IH.
    - f_equal. cbn [snd]. specialize (Hs x s (lookup_insert_eq _ _ _)). unfold src_size, src_all.
      destruct (src_entry s) eqn:E; cbn; [lia|]. by rewrite (so_end _ Hs E).
    - intros y sy Ey. apply (Hs y). rewrite lookup_insert_ne; [done|]. intros ->. congruence. }
  pose proof Hf as [_ _ _ He Hs Hp _ _]. rewrite Hp. rewrite <- Hlen.
  2: { intros x s Ex. apply lookup_delete_Some in Ex as [? Ex]. by eapply Hs. }
  unfold left_count. destruct o as [k|].
  - cbn in He. rewrite <- (insert_delete_id _ _ _ He) at 1.
    rewrite map_to_list_insert, fmap_cons, list_sum_cons by apply lookup_delete_eq.
    change (src_size (snd (END_OF_KEY, end_src k))) with 1%nat. lia.
  - rewrite (delete_id _ _ He). lia.
Qed.
End Merge.
