(* ===== verification/VyBuild.v ===== *)
(** * Building the history of a key

    The loop over the statements of a key computes the histories of
    [VyViews.histories] and the deferred DELETE of [VyDeferred.deferred]. *)

From stdpp Require Import list sorting gmap.
From S2P Require Import Prelude Heap HeapSafety VyStmt VyVisible VyViews VyDeferred VyWriteIterator VyMerge.

Open Scope Z_scope.

Section Build.
Context {T O : Type} `{!Tuples T O, !TuplesLaws T O}.
Abbreviation stmt := (vy_stmt T O).
Abbreviation wi := (vy_write_iterator T O).
Implicit Types (s e k d : stmt) (ks ps ms : list stmt) (w : wi) (F : Prop) (vs : list Z).

(** ** Histories as statements are added *)

Definition vlsn_at vs (i : nat) : Z := default (-1) (vs !! i).

Lemma histories_lookup lst vs ks i v :
  vs !! i = Some v -> histories lst vs ks !! i = Some (view_history lst (vlsn_at vs (S i)) v ks).
Proof.
  revert i. induction vs as [|v' vs IH]; intros [|i] E; try done.
  - injection E as ->. cbn [histories lookup list_lookup]. do 2 f_equal.
    unfold next_vlsn, vlsn_at. by rewrite head_lookup.
  - by apply IH.
Qed.
Lemma histories_length lst vs ks : length (histories lst vs ks) = length vs.
Proof. induction vs as [|v vs IH]; [done|]. cbn. by rewrite IH. Qed.

Lemma vlsn_at_some vs i : 0 <= vlsn_at vs i -> vs !! i = Some (vlsn_at vs i).
Proof. unfold vlsn_at. destruct (vs !! i); cbn; [done|lia]. Qed.
Lemma vlsn_at_range vs i : views_sorted vs -> -1 <= vlsn_at vs i.
Proof.
  intros [_ Hp]. unfold vlsn_at. destruct (vs !! i) as [v|] eqn:E; cbn; [|lia].
  rewrite Forall_forall in Hp. apply list_elem_of_lookup_2 in E. apply Hp in E. cbn in E. lia.
Qed.
Lemma vlsn_at_mono vs i j : views_sorted vs -> (i <= j)%nat -> vlsn_at vs j <= vlsn_at vs i.
Proof.
  intros Hv Hij. destruct (Nat.eq_dec i j) as [->|Hne]; [done|].
  pose proof (vlsn_at_range vs i Hv). unfold vlsn_at in *. destruct (vs !! j) as [v|] eqn:E; cbn; [|done].
  destruct (lookup_lt_is_Some_2 vs i) as [v' E'].
  { apply lookup_lt_Some in E. lia. }
  rewrite E'. cbn. destruct Hv as [Hs _].
  rewrite <- (take_drop j vs) in Hs. eapply StronglySorted_app_1_elem_of in Hs; [exact Hs|..].
  - apply list_elem_of_lookup. exists i. rewrite lookup_take_lt by lia. done.
  - apply list_elem_of_lookup. exists 0%nat. by rewrite lookup_drop, Nat.add_0_r.
Qed.

Definition has_terminal (ss : list stmt) : Prop := Exists terminal ss.

Lemma upto_terminal_done del ss ss' : has_terminal ss -> upto_terminal del (ss ++ ss') = upto_terminal del ss.
Proof.
  induction 1 as [s ss Ht|s ss Hs IH]; cbn; [by rewrite has_type_ne by done|].
  destruct (has_type IPROTO_UPSERT s); [by rewrite IH|done].
Qed.
Lemma upto_terminal_open del ss ss' :
  ~ has_terminal ss -> upto_terminal del (ss ++ ss') = ss ++ upto_terminal del ss'.
Proof.
  induction ss as [|s ss IH]; intros Hn; [done|]. cbn.
  destruct (has_type IPROTO_UPSERT s) eqn:E; [by rewrite IH by (intros H; apply Hn; by right)|].
  exfalso. apply Hn. left. by apply has_type_falseP.
Qed.

Lemma view_stmts_snoc lo hi ps s :
  view_stmts lo hi (ps ++ [s]) = view_stmts lo hi ps ++ if decide (lo < s_lsn s <= hi) then [s] else [].
Proof.
  unfold view_stmts. by rewrite filter_app.
Qed.
Lemma view_history_out lst lo hi ps s :
  ~ (lo < s_lsn s <= hi) -> view_history lst lo hi (ps ++ [s]) = view_history lst lo hi ps.
Proof.
  intros H. unfold view_history. rewrite view_stmts_snoc. destruct (decide _); [done|]. by rewrite app_nil_r.
Qed.
Lemma view_history_done lst lo hi ps s :
  has_terminal (view_stmts lo hi ps) -> view_history lst lo hi (ps ++ [s]) = view_history lst lo hi ps.
Proof.
  intros H. unfold view_history. rewrite view_stmts_snoc, upto_terminal_done by done. done.
Qed.
Lemma view_history_push lst lo hi ps s :
  lo < s_lsn s <= hi -> ~ has_terminal (view_stmts lo hi ps) ->
  view_history lst lo hi (ps ++ [s]) =
  (if lst && (lo <? 0) && has_type IPROTO_DELETE s then [] else [s]) ++ view_history lst lo hi ps.
Proof.
  intros Hr Hn. unfold view_history. rewrite view_stmts_snoc. destruct (decide _); [|done].
  rewrite upto_terminal_open by done. rewrite rev_app_distr.
  rewrite <- (app_nil_r (view_stmts lo hi ps)) at 2. rewrite upto_terminal_open by done.
  cbn [upto_terminal]. rewrite app_nil_r. f_equal.
  destruct (has_type IPROTO_UPSERT s) eqn:E.
  - rewrite has_type_ne; [by rewrite andb_false_r|]. apply has_typeP in E. congruence.
  - by destruct (_ && _).
Qed.
Lemma view_stmts_above lo hi ps : Forall (fun s => hi < s_lsn s) ps -> view_stmts lo hi ps = [].
Proof. intros H. apply filter_none. eapply Forall_impl; [exact H|]. cbn. lia. Qed.

(** The read views of the iterator with no results. *)
Definition empty_views vs (hs : list (list stmt)) : list (vy_read_view_stmt T O) :=
  zip_with (fun v h => mk_rv v None h) vs hs.

Lemma empty_views_lookup vs hs i v h :
  vs !! i = Some v -> hs !! i = Some h -> empty_views vs hs !! i = Some (mk_rv v None h).
Proof. intros E1 E2. unfold empty_views. by rewrite lookup_zip_with, E1, E2. Qed.
Lemma empty_views_length vs hs : length hs = length vs -> length (empty_views vs hs) = length vs.
Proof. intros E. unfold empty_views. rewrite length_zip_with. lia. Qed.
Lemma empty_views_insert vs hs i v h :
  vs !! i = Some v -> <[i := mk_rv v None h]> (empty_views vs hs) = empty_views vs (<[i := h]> hs).
Proof.
  intros E. apply list_eq. intros j. unfold empty_views. destruct (Nat.eq_dec i j) as [->|Hne].
  - destruct (hs !! j) as [h'|] eqn:Eh.
    + rewrite list_lookup_insert_eq; [|rewrite length_zip_with; apply lookup_lt_Some in E, Eh; lia].
      rewrite lookup_zip_with, E. cbn. rewrite list_lookup_insert_eq by (by apply lookup_lt_Some in Eh). done.
    + pose proof Eh as Hl. apply lookup_ge_None in Hl. rewrite !list_insert_ge; [done|done|].
      rewrite length_zip_with. lia.
  - rewrite list_lookup_insert_ne by done. rewrite !lookup_zip_with. by rewrite list_lookup_insert_ne.
Qed.

(** ** The variables of the loop *)

(** The loop has seen [ps] and works on the view number [i]: older views have
    nothing yet, newer ones get nothing more. *)
Record cursor_at (vs : list Z) (ps : list stmt) (c : cursor) (i : nat) : Prop := {
  ca_cur : snd (fst c) = vlsn_at vs i;
  ca_until : snd c = vlsn_at vs (S i);
  ca_index : fst (fst c) = Z.of_nat i \/ snd (fst c) = -1;
  ca_above : Forall (fun s => vlsn_at vs (S i) < s_lsn s) ps;
  ca_open : ~ has_terminal (view_stmts (vlsn_at vs (S i)) (vlsn_at vs i) ps);
  ca_closed : forall j, (j < i)%nat ->
    has_terminal (view_stmts (vlsn_at vs (S j)) (vlsn_at vs j) ps) \/
    Exists (fun s => s_lsn s <= vlsn_at vs (S j)) ps;
}.

Section Views.
Context (lst : bool) (vs : list Z) (Hvs : views_sorted vs).

Lemma hists_same ps s :
  (forall i, view_history lst (vlsn_at vs (S i)) (vlsn_at vs i) (ps ++ [s]) =
             view_history lst (vlsn_at vs (S i)) (vlsn_at vs i) ps) ->
  histories lst vs (ps ++ [s]) = histories lst vs ps.
Proof.
  intros H. apply list_eq. intros i. destruct (vs !! i) as [v|] eqn:E.
  - rewrite !(histories_lookup _ _ _ _ _ E). f_equal. specialize (H i). unfold vlsn_at at 2 4 in H.
    by rewrite E in H.
  - apply lookup_ge_None in E. rewrite !lookup_ge_None_2 by (rewrite histories_length; done). done.
Qed.

(** A statement newer than the current view goes nowhere. *)
Lemma skip_stmt ps s c i :
  cursor_at vs ps c i -> vlsn_at vs i < s_lsn s -> Forall (fun p => s_lsn s <= s_lsn p) ps ->
  histories lst vs (ps ++ [s]) = histories lst vs ps /\ cursor_at vs (ps ++ [s]) c i.
Proof.
  intros Hc Hs Hold. pose proof Hc as [C1 C2 C3 C4 C5 C6]. split.
  - apply hists_same. intros j. destruct (decide (vlsn_at vs (S j) < s_lsn s <= vlsn_at vs j)) as [Hr|Hr].
    2: by apply view_history_out.
    apply view_history_done. destruct (Nat.lt_ge_cases j i) as [Hj|Hj].
    + destruct (C6 j Hj) as [|Hex]; [done|]. exfalso. apply Exists_exists in Hex as (p & Hp & Hl).
      rewrite Forall_forall in Hold. specialize (Hold p Hp). cbn in Hold. lia.
    + pose proof (vlsn_at_mono vs i j Hvs Hj). lia.
  - split; try done.
    + apply Forall_app. split; [done|]. constructor; [|done].
      pose proof (vlsn_at_mono vs i (S i) Hvs ltac:(lia)). lia.
    + rewrite view_stmts_snoc. destruct (decide _); [lia|]. by rewrite app_nil_r.
    + intros j Hj. destruct (C6 j Hj) as [Ht|Hex]; [left|right].
      * rewrite view_stmts_snoc. apply Exists_app. by left.
      * apply Exists_app. by left.
Qed.

(** A statement in the range of a view from [i] on. *)
Lemma range_open ps c i i' :
  cursor_at vs ps c i -> (i <= i')%nat ->
  ~ has_terminal (view_stmts (vlsn_at vs (S i')) (vlsn_at vs i') ps).
Proof.
  intros Hc Hi. destruct (Nat.eq_dec i i') as [<-|]; [apply Hc|].
  rewrite view_stmts_above; [intros Hx; by inversion Hx|].
  eapply Forall_impl; [apply Hc|]. cbn. intros p Hp.
  pose proof (vlsn_at_mono vs (S i) i' Hvs ltac:(lia)). lia.
Qed.

Lemma push_stmt ps s c i i' h :
  cursor_at vs ps c i -> (i <= i')%nat -> vlsn_at vs (S i') < s_lsn s <= vlsn_at vs i' ->
  histories lst vs ps !! i' = Some h ->
  histories lst vs (ps ++ [s]) =
    <[i' := (if lst && (vlsn_at vs (S i') <? 0) && has_type IPROTO_DELETE s then [] else [s]) ++ h]>
      (histories lst vs ps).
Proof.
  intros Hc Hi Hr Hh. apply list_eq. intros j. destruct (vs !! j) as [v|] eqn:E.
  - assert (vlsn_at vs j = v) as Ev by (unfold vlsn_at; by rewrite E).
    rewrite (histories_lookup _ _ _ _ _ E), <- Ev. destruct (Nat.eq_dec j i') as [->|Hne].
    + rewrite list_lookup_insert_eq by (by apply lookup_lt_Some in Hh). f_equal.
      rewrite (histories_lookup _ _ _ _ _ E), <- Ev in Hh. injection Hh as <-.
      apply view_history_push; [done|]. by eapply range_open.
    + rewrite list_lookup_insert_ne by done. rewrite (histories_lookup _ _ _ _ _ E), <- Ev. f_equal.
      apply view_history_out. intros Hr'. destruct (Nat.lt_ge_cases j i') as [Hj|Hj].
      * pose proof (vlsn_at_mono vs (S j) i' Hvs ltac:(lia)). lia.
      * pose proof (vlsn_at_mono vs (S i') j Hvs ltac:(lia)). lia.
  - apply lookup_ge_None in E. rewrite !lookup_ge_None_2; [done|..];
      rewrite ?length_insert, histories_length; done.
Qed.

(** The variables after a statement was saved or dropped. *)
Lemma cursor_snoc ps s c i i' :
  cursor_at vs ps c i -> (i <= i')%nat -> vlsn_at vs (S i') < s_lsn s <= vlsn_at vs i' ->
  forall c', (s_type s = IPROTO_UPSERT -> c' = (Z.of_nat i', vlsn_at vs i', vlsn_at vs (S i'))) ->
  (terminal s -> snd (fst c') = vlsn_at vs (S i') /\ snd c' = vlsn_at vs (S (S i')) /\
     (fst (fst c') = Z.of_nat (S i') \/ snd (fst c') = -1)) ->
  exists i2, cursor_at vs (ps ++ [s]) c' i2.
Proof.
  intros Hc Hi Hr c' Hu Ht. pose proof Hc as [_ _ _ C4 C5 C6].
  assert (forall j, (j < i')%nat -> has_terminal (view_stmts (vlsn_at vs (S j)) (vlsn_at vs j) (ps ++ [s])) \/
            Exists (fun s => s_lsn s <= vlsn_at vs (S j)) (ps ++ [s])) as Hcl.
  { intros j Hj. destruct (Nat.lt_ge_cases j i) as [Hji|Hji].
    - destruct (C6 j Hji) as [H|H]; [left|right]; [rewrite view_stmts_snoc|]; apply Exists_app; by left.
    - right. apply Exists_app. right. left. pose proof (vlsn_at_mono vs (S j) i' Hvs ltac:(lia)). lia. }
  assert (forall j, (i' <= j)%nat -> Forall (fun s => vlsn_at vs (S j) < s_lsn s) (ps ++ [s])) as Hab.
  { intros j Hj. apply Forall_app. split; [eapply Forall_impl; [exact C4|]; cbn; intros p Hp|constructor; [|done]].
    - pose proof (vlsn_at_mono vs (S i) (S j) Hvs ltac:(lia)). lia.
    - pose proof (vlsn_at_mono vs (S i') (S j) Hvs ltac:(lia)). lia. }
  destruct (decide (s_type s = IPROTO_UPSERT)) as [E|E].
  - exists i'. rewrite (Hu E). split; cbn; [done|done|by left|by apply Hab| |done].
    rewrite view_stmts_snoc. destruct (decide _); [|lia]. intros H. apply Exists_app in H as [H|H].
    + by eapply range_open.
    + apply Exists_cons in H as [H|H]; [done|]. by apply Exists_nil in H.
  - exists (S i'). destruct (Ht E) as (T1 & T2 & T3). split; try done.
    + apply Hab. lia.
    + rewrite view_stmts_above; [intros Hx; by inversion Hx|]. by apply Hab.
    + intros j Hj. destruct (Nat.eq_dec j i') as [->|]; [|apply Hcl; lia]. left.
      rewrite view_stmts_snoc. destruct (decide _); [|lia]. apply Exists_app. right. by left.
Qed.

(** ** The loop *)

Definition total (hs : list (list stmt)) : Z := Z.of_nat (list_sum (length <$> hs)).

Lemma total_insert hs i h s : hs !! i = Some h -> total (<[i := s :: h]> hs) = total hs + 1.
Proof.
  unfold total. revert i. induction hs as [|x hs IH]; intros [|i] E; try done.
  - injection E as ->. change (<[0%nat := s :: h]> (h :: hs)) with ((s :: h) :: hs).
    rewrite !fmap_cons, !list_sum_cons. cbn [length]. lia.
  - change (<[S i := s :: h]> (x :: hs)) with (x :: <[i := s :: h]> hs).
    rewrite !fmap_cons, !list_sum_cons. specialize (IH i E). lia.
Qed.

Lemma wpx_get_vlsn F w i (Q : Z -> wi -> Prop) hs :
  wi_read_views w = empty_views vs hs -> length hs = length vs -> 0 <= i ->
  Q (vlsn_at vs (Z.to_nat i)) w -> wpx F (vy_write_iterator_get_vlsn i) Q w.
Proof.
  intros Hw Hl Hi HQ. unfold vy_write_iterator_get_vlsn. apply wpx_bind, wpx_gets.
  unfold rv_count. rewrite Hw, empty_views_length by done. unfold vlsn_at in HQ.
  destruct (Z.leb_spec (Z.of_nat (length vs)) i) as [Hge|Hlt].
  - rewrite lookup_ge_None_2 in HQ by lia. done.
  - destruct (lookup_lt_is_Some_2 vs (Z.to_nat i)) as [v Ev]; [lia|].
    destruct (lookup_lt_is_Some_2 hs (Z.to_nat i)) as [h Eh]; [lia|].
    apply wpx_bind. unfold wpx, get_rv. rewrite Hw. replace (0 <=? i) with true by lia.
    rewrite (empty_views_lookup _ _ _ _ _ Ev Eh). rewrite Ev in HQ. done.
Qed.

(** Skipping views ends at the view the statement belongs to. *)
Lemma skip_views_spec F fuel w lsn i hs (Q : cursor -> wi -> Prop) :
  wi_read_views w = empty_views vs hs -> length hs = length vs -> 0 <= lsn <= vlsn_at vs i ->
  (length vs <= i + fuel)%nat ->
  (forall i', (i <= i')%nat -> vlsn_at vs (S i') < lsn <= vlsn_at vs i' ->
     Q (Z.of_nat i', vlsn_at vs i', vlsn_at vs (S i')) w) ->
  wpx F (skip_views fuel lsn (Z.of_nat i, vlsn_at vs i, vlsn_at vs (S i))) Q w.
Proof.
  intros Hw Hl Hlsn. revert i Hlsn. induction fuel as [|fuel IH]; intros i Hlsn Hf HQ; cbn [skip_views snd].
  - destruct (Z.leb_spec lsn (vlsn_at vs (S i))) as [Hle|Hgt]; [|apply wpx_ret, HQ; lia].
    exfalso. pose proof (vlsn_at_some vs (S i) ltac:(lia)) as E. apply lookup_lt_Some in E. lia.
  - destruct (Z.leb_spec lsn (vlsn_at vs (S i))) as [Hle|Hgt]; [|apply wpx_ret, HQ; lia].
    unfold next_view. apply wpx_bind, wpx_bind. eapply wpx_get_vlsn; [done|done|lia|]. apply wpx_ret.
    replace (Z.to_nat (Z.of_nat i + 1 + 1)) with (S (S i)) by lia.
    replace (Z.of_nat i + 1) with (Z.of_nat (S i)) by lia.
    apply IH; [lia|lia|]. intros i' Hi' Hr. apply HQ; [lia|done].
Qed.

Context (primary : bool).

Lemma push_rv_spec F w s i ps (Q : Z -> wi -> Prop) :
  wi_read_views w = empty_views vs (histories lst vs ps) -> quiet F (wi_oom w) ->
  vlsn_at vs (S i) < s_lsn s <= vlsn_at vs i -> 0 <= s_lsn s ->
  ~ has_terminal (view_stmts (vlsn_at vs (S i)) (vlsn_at vs i) ps) ->
  Forall (fun p => newer primary p s) ps ->
  (forall rc w', rc <> 0 -> F -> Q rc w') ->
  (forall oom h, quiet F oom -> histories lst vs ps !! i = Some h ->
    Q 0 (w <| wi_read_views := empty_views vs (<[i := s :: h]> (histories lst vs ps)) |> <| wi_oom := oom |>)) ->
  wpx F (vy_write_iterator_push_rv s (Z.of_nat i)) Q w.
Proof.
  intros Hw Hq Hr Hpos Hopen Hnew HF HQ. unfold vy_write_iterator_push_rv.
  pose proof (vlsn_at_some vs i ltac:(lia)) as Ev. pose proof (lookup_lt_Some _ _ _ Ev) as Hi.
  pose proof (histories_lookup lst vs ps i _ Ev) as Eh.
  apply wpx_bind, wpx_assert.
  { unfold rv_count. rewrite Hw, empty_views_length by apply histories_length. lia. }
  apply wpx_bind. unfold wpx at 1, get_rv. rewrite Hw. replace (0 <=? Z.of_nat i) with true by lia.
  rewrite Nat2Z.id, (empty_views_lookup _ _ _ _ _ Ev Eh).
  apply wpx_bind, wpx_assert; [cbn; lia|]. apply wpx_bind. unfold vy_write_history_new.
  apply wpx_bind, wpx_on_oom, wpx_fails; [done|]. intros [] oom Hq' Hoom.
  { apply wpx_ret, wpx_ret. apply HF; [done|by apply Hoom]. }
  apply wpx_bind, wpx_assert.
  - cbn [rv_history]. destruct (view_history _ _ _ _) as [|p hs] eqn:E; [done|].
    pose proof (view_history_range lst (vlsn_at vs (S i)) (vlsn_at vs i) ps) as Hrange. rewrite E in Hrange.
    apply Forall_inv in Hrange as [Hpr Hp]. rewrite Forall_forall in Hnew. apply Z.ltb_lt.
    destruct (Hnew p Hp) as [?|(_ & _ & Ht)]; [done|]. exfalso. apply Hopen, Exists_exists. exists p.
    split; [|done]. unfold view_stmts. by apply list_elem_of_filter.
  - apply wpx_ret, wpx_bind. unfold set_rv. apply wpx_modify, wpx_ret.
    specialize (HQ oom _ Hq' Eh). rewrite Nat2Z.id.
    rewrite <- (empty_views_insert vs _ i _ _ Ev), <- Hw in HQ. exact HQ.
Qed.

Lemma take_stmt_spec F w s c i ps (Q : Z * bool * cursor -> wi -> Prop) :
  wi_read_views w = empty_views vs (histories lst vs ps) -> wi_is_last_level w = lst ->
  quiet F (wi_oom w) -> cursor_at vs ps c i -> 0 < s_lsn s -> Forall (fun p => newer primary p s) ps ->
  (forall r w', fst (fst r) <> 0 -> F -> Q r w') ->
  (forall saved c' i' oom, quiet F oom -> cursor_at vs (ps ++ [s]) c' i' ->
    total (histories lst vs (ps ++ [s])) = total (histories lst vs ps) + (if saved : bool then 1 else 0) ->
    Q (0, saved, c') (w <| wi_read_views := empty_views vs (histories lst vs (ps ++ [s])) |> <| wi_oom := oom |>)) ->
  wpx F (take_stmt s c) Q w.
Proof.
  intros Hw Hlst Hq Hc Hpos Hnew HF HQ. unfold take_stmt. pose proof Hc as [C1 C2 C3 _ _ _].
  assert (Forall (fun p => s_lsn s <= s_lsn p) ps) as Hle.
  { eapply Forall_impl; [exact Hnew|]. unfold newer. cbn. lia. }
  rewrite C1. destruct (Z.ltb_spec (vlsn_at vs i) (s_lsn s)) as [Hskip|Htake].
  { apply wpx_ret. destruct (skip_stmt ps s c i Hc Hskip Hle) as [E Hc'].
    specialize (HQ false c i (wi_oom w) Hq Hc'). rewrite E in HQ. rewrite <- Hw in HQ.
    replace (w <| wi_read_views := wi_read_views w |> <| wi_oom := wi_oom w |>) with w in HQ by (by destruct w).
    apply HQ. lia. }
  assert (c = (Z.of_nat i, vlsn_at vs i, vlsn_at vs (S i))) as ->.
  { destruct c as [[x y] z]. cbn in *. subst. destruct C3 as [->|?]; [done|lia]. }
  apply wpx_bind, wpx_gets, wpx_bind.
  unfold rv_count. rewrite Hw, empty_views_length by apply histories_length. rewrite Nat2Z.id.
  eapply skip_views_spec; [done|apply histories_length|lia|lia|].
  intros i' Hi' Hr. apply wpx_bind, wpx_gets. rewrite Hlst. cbn [fst snd].
  pose proof (range_open ps _ i i' Hc Hi') as Hopen.
  pose proof (vlsn_at_some vs i' ltac:(lia)) as Ev.
  pose proof (histories_lookup lst vs ps i' _ Ev) as Eh.
  pose proof (push_stmt ps s _ i i' _ Hc Hi' Hr Eh) as Epush.
  destruct (has_type IPROTO_DELETE s && lst && (vlsn_at vs (S i') <? 0)) eqn:Eopt.
  - boolp. apply wpx_ret. replace (lst && (vlsn_at vs (S i') <? 0) && has_type IPROTO_DELETE s) with true in Epush
      by (symmetry; rewrite !andb_true_iff, Z.ltb_lt; done).
    rewrite app_nil_l, list_insert_id in Epush by done.
    assert (vlsn_at vs (S i') = -1) as Em by (pose proof (vlsn_at_range vs (S i') Hvs); lia).
    destruct (cursor_snoc ps s _ i i' Hc Hi' Hr (Z.of_nat i', -1, vlsn_at vs (S i'))) as [i2 Hc2].
    { intros E. apply has_typeP in H. congruence. }
    { intros _. cbn. split; [done|]. split; [|by right].
      pose proof (vlsn_at_range vs (S (S i')) Hvs). pose proof (vlsn_at_mono vs (S i') (S (S i')) Hvs ltac:(lia)). lia. }
    specialize (HQ false _ i2 (wi_oom w) Hq Hc2). rewrite Epush in HQ. rewrite <- Hw in HQ.
    replace (w <| wi_read_views := wi_read_views w |> <| wi_oom := wi_oom w |>) with w in HQ by (by destruct w).
    apply HQ. lia.
  - replace (lst && (vlsn_at vs (S i') <? 0) && has_type IPROTO_DELETE s) with false in Epush
      by (rewrite <- Eopt; by rewrite (andb_comm (lst && _)), andb_assoc).
    apply wpx_bind. eapply push_rv_spec; [done|done|done|lia|done|done| |].
    { intros rc w' Hrc HFF. replace (negb (rc =? 0)) with true by (destruct (Z.eqb_spec rc 0); done).
      apply wpx_ret. by apply HF. }
    intros oom h Hq' Eh'. rewrite Eh in Eh'. injection Eh' as <-. cbn [negb Z.eqb app] in *.
    assert (total (histories lst vs (ps ++ [s])) = total (histories lst vs ps) + 1) as Et.
    { rewrite Epush. by apply total_insert. }
    rewrite <- Epush. destruct (has_type IPROTO_UPSERT s) eqn:Eu.
    + apply has_typeP in Eu. apply wpx_ret.
      destruct (cursor_snoc ps s _ i i' Hc Hi' Hr (Z.of_nat i', vlsn_at vs i', vlsn_at vs (S i'))) as [i2 Hc2];
        [done|done|]. by apply (HQ true _ i2 oom).
    + apply has_type_falseP in Eu. apply wpx_bind. unfold next_view.
      apply wpx_bind. eapply wpx_get_vlsn; [done|apply histories_length|lia|].
      apply wpx_ret, wpx_ret. replace (Z.to_nat (Z.of_nat i' + 1 + 1)) with (S (S i')) by lia.
      destruct (cursor_snoc ps s _ i i' Hc Hi' Hr (Z.of_nat i' + 1, vlsn_at vs (S i'), vlsn_at vs (S (S i')))) as [i2 Hc2];
        [done|intros _; cbn; split_and!; [done|done|left; lia]|]. by apply (HQ true _ i2 oom).
Qed.
End Views.
End Build.
