(* ===== verification/VyLoop.v ===== *)
(** * The history of a key, from the sources

    The loop of vy_write_iterator_build_history takes exactly the statements
    of the first key from the sources. *)

From stdpp Require Import list sorting gmap.
From S2P Require Import Prelude Heap HeapSafety VyStmt VyVisible VyViews VyDeferred VyWriteIterator VyMerge VyBuild.

Open Scope Z_scope.

Section Loop.
Context {T O : Type} `{!Tuples T O, !TuplesLaws T O}.
Abbreviation stmt := (vy_stmt T O).
Abbreviation wi := (vy_write_iterator T O).
Implicit Types (s e k d : stmt) (ks ps ms : list stmt) (w : wi) (F : Prop).
Context (primary lst handler : bool) (vs : list Z) (Hvs : views_sorted vs).
Abbreviation log := (list (stmt * stmt)).

(** ** Deferred DELETEs *)

Definition key_deferred (l : log) ps : option stmt * log :=
  if primary then deferred handler l ps else (None, l).

Lemma deferred_snoc l ps s : deferred handler l (ps ++ [s]) = deferred_step handler (deferred handler l ps) s.
Proof. unfold deferred. by rewrite foldl_app. Qed.
Lemma deferred_fst l ps : fst (deferred handler l ps) = fst (deferred false [] ps).
Proof.
  induction ps as [|s ps IH] using rev_ind; [done|]. unfold deferred in *. rewrite !foldl_app. cbn.
  unfold deferred_step at 1 3. by destruct (has_type IPROTO_UPSERT s).
Qed.
Lemma key_dd_deferred l ks :
  key_dd primary lst ks = if lst then None else fst (key_deferred l ks).
Proof.
  unfold key_dd, key_deferred. destruct primary, lst; try done. by rewrite deferred_fst.
Qed.

Lemma deferred_delete_spec F w s (st : option stmt * log) (Q : Z -> wi -> Prop) :
  quiet F (wi_oom w) -> wi_handler w = handler -> wi_deferred_delete w = fst st -> wi_processed w = snd st ->
  (flagged s -> s_type s = IPROTO_DELETE \/ s_type s = IPROTO_REPLACE) ->
  (forall rc w', rc <> 0 -> F -> Q rc w') ->
  (forall oom, quiet F oom -> Q 0 (w <| wi_deferred_delete := fst (deferred_step handler st s) |>
     <| wi_processed := snd (deferred_step handler st s) |> <| wi_oom := oom |>)) ->
  wpx F (vy_write_iterator_deferred_delete s) Q w.
Proof.
  intros Hq Hh Hd Hp Hfl HF HQ. unfold vy_write_iterator_deferred_delete, deferred_step in *.
  destruct (has_type IPROTO_UPSERT s) eqn:Eu.
  { apply has_typeP in Eu. apply wpx_bind, wpx_assert.
    - apply negb_true_iff, not_true_iff_false. intros H. destruct (Hfl H); congruence.
    - apply wpx_ret. specialize (HQ (wi_oom w) Hq). rewrite <- Hd, <- Hp in HQ. by destruct w. }
  assert (forall w', wi_handler w' = handler -> quiet F (wi_oom w') -> wi_deferred_delete w' = None ->
    (forall oom, quiet F oom ->
      Q 0 (w' <| wi_deferred_delete := if has_flag VY_STMT_DEFERRED_DELETE s then Some s else None |> <| wi_oom := oom |>)) ->
    wpx F (if has_flag VY_STMT_DEFERRED_DELETE s then
      assert (fun _ => has_type IPROTO_DELETE s || has_type IPROTO_REPLACE s);;
      modify (fun w => w <| wi_deferred_delete := Some s |>);; mret 0
    else mret 0) Q w') as Hrest.
  { intros w' _ Hq' Hd' HQ'. destruct (has_flag VY_STMT_DEFERRED_DELETE s) eqn:Ef.
    - apply wpx_bind, wpx_assert.
      { apply orb_true_iff. destruct (Hfl Ef) as [E|E]; [left|right]; by apply has_typeP. }
      apply wpx_bind, wpx_modify, wpx_ret. specialize (HQ' (wi_oom w') Hq'). by destruct w'.
    - apply wpx_ret. specialize (HQ' (wi_oom w') Hq'). rewrite <- Hd' in HQ'. by destruct w'. }
  apply wpx_bind, wpx_gets, wpx_bind. rewrite Hd. destruct (fst st) as [d|].
  2: { apply wpx_ret. cbn [negb Z.eqb]. apply Hrest; [done|done|done|]. intros oom Hoom.
       specialize (HQ oom Hoom). cbn in HQ. rewrite <- Hp in HQ. by destruct w. }
  apply wpx_bind, wpx_gets, wpx_bind. rewrite Hh.
  destruct (handler && negb (has_type IPROTO_DELETE s)) eqn:Eh.
  - apply wpx_bind, wpx_on_oom, wpx_fails; [done|]. intros [] oom Hq' Hoom.
    { apply wpx_ret. cbn [negb Z.eqb]. apply wpx_ret. cbn [negb Z.eqb]. apply wpx_ret. apply HF; [done|by apply Hoom]. }
    apply wpx_bind, wpx_modify, wpx_ret. cbn [negb Z.eqb]. apply wpx_bind, wpx_modify, wpx_ret. cbn [negb Z.eqb].
    apply Hrest; [done|done|done|]. intros oom' Hoom'. specialize (HQ oom' Hoom'). cbn in HQ. rewrite <- Hp in HQ.
    by destruct w.
  - apply wpx_ret. cbn [negb Z.eqb]. apply wpx_bind, wpx_modify, wpx_ret. cbn [negb Z.eqb].
    apply Hrest; [done|done|done|]. intros oom Hoom. specialize (HQ oom Hoom). cbn in HQ. rewrite <- Hp in HQ.
    by destruct w.
Qed.

(** ** The loop *)

Definition env w := (wi_rv_used_count w, wi_stmt_i w, wi_last w, wi_src_list w).

Record loop_at (l : log) w ps : Prop := {
  la_views : wi_read_views w = empty_views vs (histories lst vs ps);
  la_last : wi_is_last_level w = lst;
  la_primary : wi_is_primary w = primary;
  la_handler : wi_handler w = handler;
  la_dd : wi_deferred_delete w = fst (key_deferred l ps);
  la_log : wi_processed w = snd (key_deferred l ps);
}.

Definition is_insert s : bool := has_type IPROTO_INSERT s || (negb primary && has_flag VY_STMT_UPDATE s).

Lemma loop_deferred_spec F (l : log) w s ps (Q : Z -> wi -> Prop) :
  loop_at l w ps -> quiet F (wi_oom w) ->
  (flagged s -> s_type s = IPROTO_DELETE \/ s_type s = IPROTO_REPLACE) ->
  (forall rc w', rc <> 0 -> F -> Q rc w') ->
  (forall oom, quiet F oom -> Q 0 (w <| wi_deferred_delete := fst (key_deferred l (ps ++ [s])) |>
     <| wi_processed := snd (key_deferred l (ps ++ [s])) |> <| wi_oom := oom |>)) ->
  wpx F (if primary then vy_write_iterator_deferred_delete s else mret 0) Q w.
Proof.
  intros Hl Hq Hfl HF HQ. pose proof Hl as [_ _ _ Hh Hd Hp]. unfold key_deferred in *. destruct primary.
  - rewrite deferred_snoc in HQ. by eapply deferred_delete_spec.
  - apply wpx_ret. specialize (HQ (wi_oom w) Hq). rewrite <- Hd, <- Hp in HQ. by destruct w.
Qed.

Lemma sorted_snoc ps s rest :
  StronglySorted (newer primary) (ps ++ s :: rest) -> Forall (fun p => newer primary p s) ps.
Proof.
  intros Hs. apply Forall_forall. intros p Hp.
  eapply StronglySorted_app_1_elem_of in Hs; [exact Hs|done|by left].
Qed.

Lemma same_key_le k s : same_key (s_tuple k) (s_tuple s) -> tuple_compare (s_tuple s) (s_tuple k) <= 0.
Proof. intros H. apply Z.eq_le_incl. change (same_key (s_tuple s) (s_tuple k)). by symmetry. Qed.

Lemma history_loop_spec F (l : log) k ms rest : forall fuel w src c i count s ps sr,
  feeds (Some k) (wi_srcs w) (wi_src_heap w) (s :: rest ++ ms) ->
  wi_srcs w !! src = Some sr -> src_entry sr = Some s ->
  Forall (fun s => same_key (s_tuple k) (s_tuple s)) (s :: rest) ->
  Forall (fun s => tuple_compare (s_tuple k) (s_tuple s) < 0) ms ->
  key_input primary (ps ++ s :: rest) ->
  loop_at l w ps -> quiet F (wi_oom w) -> cursor_at vs ps c i -> count = total (histories lst vs ps) ->
  (length rest < fuel)%nat ->
  wpx F (history_loop fuel src c count) (fun r w' =>
    (fst (fst r) <> 0 /\ F) \/
    (r = (0, total (histories lst vs (ps ++ s :: rest)), first_insert primary (ps ++ s :: rest)) /\
     feeds (Some k) (wi_srcs w') (wi_src_heap w') ms /\ loop_at l w' (ps ++ s :: rest) /\
     quiet F (wi_oom w') /\ env w' = env w)) w.
Proof.
  induction rest as [|s' rest IH]; intros fuel w src c i count s ps sr Hf Ex Es Hsame Hms Hin Hl Hq Hc -> Hfuel;
    (destruct fuel as [|fuel]; [lia|]); cbn [history_loop].
  all: pose proof (Forall_inv Hsame) as Hks.
  all: assert (0 < s_lsn s) as Hpos by (pose proof (fd_pos _ _ _ _ Hf) as Hp; by apply Forall_inv in Hp).
  all: pose proof (sorted_snoc _ _ _ (ki_sorted _ _ Hin)) as Hnew.
  all: assert (flagged s -> s_type s = IPROTO_DELETE \/ s_type s = IPROTO_REPLACE) as Hfl
    by (pose proof (ki_flag _ _ Hin) as Hk; rewrite Forall_forall in Hk; apply Hk; set_solver).
  all: apply wpx_bind; eapply wpx_src_stmt; [done|done|]; apply wpx_bind, wpx_gets; rewrite (la_primary _ _ _ Hl).
  all: apply wpx_bind; eapply loop_deferred_spec; [done|done|done| |].
  1, 3: intros rc w' Hrc HF; replace (negb (rc =? 0)) with true by (destruct (Z.eqb_spec rc 0); done);
        apply wpx_ret; by left.
  all: intros oom1 Hq1; cbn [negb Z.eqb]; apply wpx_bind.
  all: eapply (take_stmt_spec lst vs Hvs primary F); [apply Hl|apply Hl|done|done|done|done| |].
  1, 3: intros [[rc saved] c'] w' Hrc HF; cbn in Hrc;
        replace (negb (rc =? 0)) with true by (destruct (Z.eqb_spec rc 0); done); apply wpx_ret; by left.
  all: intros saved c' i' oom2 Hq2 Hc' Htot; cbn [negb Z.eqb]; apply wpx_bind.
  all: eapply wpx_mono; [eapply (merge_step_spec F (Some k)); [exact Hf|]|].
  1, 3: intros ? [= <-]; by apply same_key_le.
  all: intros _ w2 [(srcs & h & ->) Hf2]; cbn in Hf2; apply wpx_bind; unfold vy_source_heap_top; apply wpx_on_heap; cbn.
  all: assert (total (histories lst vs ps) + (if saved then 1 else 0) =
         (if saved then total (histories lst vs ps) + 1 else total (histories lst vs ps))) as Ecount
    by (destruct saved; lia).
  - eapply wp_mono; [by eapply feeds_top_end|]. intros top h' [-> ->].
    pose proof (fd_end _ _ _ _ Hf2) as Ee. cbn in Ee.
    apply wpx_bind. eapply wpx_src_stmt; [exact Ee|done|].
    apply wpx_bind. eapply wpx_get_src; [exact Ee|]. cbn [src_is_end_of_key end_src]. apply wpx_ret. right.
    split_and!.
    + f_equal; [f_equal; lia|]. unfold first_insert. by rewrite last_snoc.
    + exact Hf2.
    + destruct Hl. by split.
    + done.
    + done.
  - eapply wp_mono; [eapply feeds_top; [exact Hf2|]|].
    { intros ? [= <-]. pose proof (Forall_inv (Forall_inv_tail Hsame)) as Hk2. by apply same_key_le. }
    intros top h' (-> & x & sx & -> & _ & Hne & Ex' & Es').
    apply wpx_bind. eapply wpx_src_stmt; [exact Ex'|done|].
    apply wpx_bind. eapply wpx_get_src; [exact Ex'|].
    rewrite (so_real _ (fd_srcs _ _ _ _ Hf2 x sx Ex' Hne)).
    replace (ps ++ s :: s' :: rest) with ((ps ++ [s]) ++ s' :: rest) in * by (by rewrite <- app_assoc).
    eapply wpx_mono; [|intros r w' H; exact H].
    eapply (IH fuel (mk_wi _ _ _ _ _ _ _ _ _ _ _ _ _) x c' i' _ s' (ps ++ [s]) sx); try done.
    + by apply Forall_inv_tail in Hsame.
    + destruct Hl. by split.
    + lia.
    + cbn in Hfuel. lia.
Qed.

(** ** The history of the first key *)

(** The state between two keys. *)
Record between (l : log) w : Prop := {
  bt_views : wi_read_views w = empty_views vs (map (fun _ => []) vs);
  bt_last : wi_is_last_level w = lst;
  bt_primary : wi_is_primary w = primary;
  bt_handler : wi_handler w = handler;
  bt_dd : wi_deferred_delete w = None;
  bt_log : wi_processed w = l;
}.

Lemma histories_nil : histories lst vs ([] : list stmt) = map (fun _ => []) vs.
Proof. clear Hvs. induction vs as [|v vs' IH]; [done|]. cbn. by rewrite IH. Qed.
Lemma total_nil : total (histories lst vs ([] : list stmt)) = 0.
Proof. rewrite histories_nil. unfold total. clear Hvs. induction vs as [|v vs' IH]; done. Qed.

Lemma cursor_start : vs <> [] -> cursor_at vs ([] : list stmt) (0, vlsn_at vs 0, vlsn_at vs 1) 0.
Proof.
  intros Hne. split; cbn; [done|done|by left|done| |lia]. intros H. by inversion H.
Qed.

Lemma build_history_spec F (l : log) w s rest ms :
  vs <> [] ->
  feeds None (wi_srcs w) (wi_src_heap w) (s :: rest ++ ms) ->
  Forall (fun s' => same_key (s_tuple s) (s_tuple s')) rest ->
  Forall (fun s' => tuple_compare (s_tuple s) (s_tuple s') < 0) ms ->
  key_input primary (s :: rest) -> between l w -> quiet F (wi_oom w) -> wi_stmt_i w = -1 ->
  wpx F vy_write_iterator_build_history (fun r w' =>
    (fst (fst r) <> 0 /\ F) \/
    (r = (0, total (histories lst vs (s :: rest)), first_insert primary (s :: rest)) /\
     feeds None (wi_srcs w') (wi_src_heap w') ms /\
     wi_read_views w' = empty_views vs (histories lst vs (s :: rest)) /\
     wi_is_last_level w' = lst /\ wi_is_primary w' = primary /\ wi_handler w' = handler /\
     wi_deferred_delete w' = key_dd primary lst (s :: rest) /\
     wi_processed w' = snd (key_deferred l (s :: rest)) /\
     quiet F (wi_oom w') /\ env w' = env w)) w.
Proof.
  intros Hne Hf Hsame Hms Hin Hb Hq Hi. pose proof Hb as [B1 B2 B3 B4 B5 B6].
  unfold vy_write_iterator_build_history.
  apply wpx_bind, wpx_assert; [by rewrite Hi|]. apply wpx_bind, wpx_assert; [by rewrite B5|].
  apply wpx_bind. unfold vy_source_heap_top. apply wpx_on_heap.
  eapply wp_mono; [by eapply feeds_top|]. intros top h' (-> & x & sr & -> & _ & Hx & Ex & Es).
  replace (w <| wi_src_heap := wi_src_heap w |>) with w by (by destruct w).
  apply wpx_bind. eapply wpx_src_stmt; [done|done|].
  apply wpx_seq. eapply insert_end_spec; [done|done| |].
  { intros rc w' Hrc HF. replace (negb (rc =? 0)) with true by (destruct (Z.eqb_spec rc 0); done).
    apply wpx_bind, wpx_modify, wpx_ret. by left. }
  intros h1 oom1 Hq1 Hf1. cbn [negb Z.eqb].
  set (w1 := w <| wi_srcs := <[END_OF_KEY := end_src s]> (wi_srcs w) |> <| wi_oom := oom1 |> <| wi_src_heap := h1 |>) in *.
  assert (loop_at l w1 []) as Hl.
  { split; try done; cbn; rewrite ?histories_nil; unfold key_deferred; destruct primary; done. }
  apply wpx_bind. eapply wpx_get_vlsn; [apply Hl|apply histories_length|lia|].
  apply wpx_bind. eapply wpx_get_vlsn; [apply Hl|apply histories_length|lia|].
  apply wpx_bind, wpx_gets, wpx_bind.
  rewrite (left_count_pending w1 (Some s) (s :: rest ++ ms)) by done.
  eapply wpx_mono; [eapply (history_loop_spec F l s ms rest _ w1 x _ 0 0 s [] sr)|].
  { exact Hf1. }
  { cbn. by rewrite lookup_insert_ne. }
  { done. }
  { by constructor. }
  { done. }
  { done. }
  { done. }
  { done. }
  { by apply cursor_start. }
  { by rewrite total_nil. }
  { cbn. rewrite length_app. lia. }
  intros r w2 [[Hrc HF]|(-> & Hf2 & Hl2 & Hq2 & Hen)].
  { apply wpx_bind, wpx_modify. unfold wpx.
    match goal with |- match ?m with _ => _ end => destruct m as [[r' w3]|] eqn:Em; [|done] end.
    left. split; [|done]. revert Em. unfold mbind, prog_bind.
    destruct (vy_source_heap_delete END_OF_KEY _) as [[]|]; [|done]. cbn. intros [= <- _]. done. }
  apply wpx_bind, wpx_modify. cbn [fst Z.eqb andb]. rewrite (la_last _ _ _ Hl2).
  set (w3 := if lst then w2 <| wi_deferred_delete := None |> else w2).
  assert (feeds (Some s) (wi_srcs w3) (wi_src_heap w3) ms) as Hf3 by (unfold w3; by destruct lst).
  apply wpx_seq. eapply delete_end_spec; [exact Hf3|].
  intros w4 (srcs4 & h4 & ->) Hf4. apply wpx_ret. right. pose proof Hl2 as [L1 L2 L3 L4 L5 L6].
  assert (wi_deferred_delete w3 = key_dd primary lst (s :: rest)) as Hdd3
    by (rewrite (key_dd_deferred l); unfold w3; by destruct lst).
  split_and!; try done; cbn; unfold w3; by destruct lst.
Qed.

Lemma build_history_end F w :
  feeds None (wi_srcs w) (wi_src_heap w) [] -> wi_stmt_i w = -1 -> wi_deferred_delete w = None ->
  wpx F vy_write_iterator_build_history (fun r w' => r = (0, 0, false) /\ w' = w) w.
Proof.
  intros Hf Hi Hd. unfold vy_write_iterator_build_history.
  apply wpx_bind, wpx_assert; [by rewrite Hi|]. apply wpx_bind, wpx_assert; [by rewrite Hd|].
  apply wpx_bind. unfold vy_source_heap_top. apply wpx_on_heap.
  eapply wp_mono; [by apply (feeds_top_nil _ _ Hf)|]. intros top h' [-> ->]. apply wpx_ret.
  split; [done|]. by destruct w.
Qed.
End Loop.
