(* ===== verification/VyResults.v ===== *)
(** * The results of a key and the output of the iterator

    The read views of a key are merged into the statements of
    [VyDeferred.key_output], which the iterator returns one by one, key after
    key. *)

From stdpp Require Import list sorting gmap.
From S2P Require Import Prelude Heap HeapSafety VyStmt VyVisible VyViews VyDeferred VyWriteIterator VyMerge.
From S2P Require Import VyBuild VyLoop.

Open Scope Z_scope.

Section Results.
Context {T O : Type} `{!Tuples T O, !TuplesLaws T O}.
Abbreviation stmt := (vy_stmt T O).
Abbreviation wi := (vy_write_iterator T O).
Implicit Types (s e k d h : stmt) (ks ps ms hs : list stmt) (w : wi) (F : Prop).

(** ** Merging one view *)

Lemma wpx_get_rv F w (i : nat) rv (Q : vy_read_view_stmt T O -> wi -> Prop) :
  wi_read_views w !! i = Some rv -> Q rv w -> wpx F (get_rv (Z.of_nat i)) Q w.
Proof.
  intros E HQ. unfold wpx, get_rv. destruct (Z.leb_spec 0 (Z.of_nat i)); [|lia].
  by rewrite Nat2Z.id, E.
Qed.

Lemma squash_upserts_spec F hs : forall w r (Q : option stmt -> wi -> Prop),
  Forall (fun s => s_type s = IPROTO_UPSERT) hs -> Forall upsert_ok hs -> quiet F (wi_oom w) ->
  (forall w', F -> Q None w') ->
  (forall oom, quiet F oom -> Q (Some (pure_squash hs r)) (w <| wi_oom := oom |>)) ->
  wpx F (squash_upserts hs r) Q w.
Proof.
  induction hs as [|h hs IH]; intros w r Q Ht Hok Hq HF HQ; cbn [squash_upserts].
  { apply wpx_ret. specialize (HQ (wi_oom w) Hq). by destruct w. }
  inversion Ht as [|?? Hh Hhs]; subst. inversion Hok as [|?? Oh Ohs]; subst.
  apply wpx_bind, wpx_assert; [by apply has_type_eq|].
  apply wpx_bind, wpx_on_oom. eapply wpx_mono; [by apply vy_apply_upsert_spec|].
  intros r' oom (Hq' & [->|[-> HFF]]); [|apply wpx_ret; by apply HF].
  apply IH; [done|done|done|done|]. intros oom' Hq2. by apply HQ.
Qed.

Lemma apply_first_spec F w lst (prev : option stmt) h (Q : option stmt -> wi -> Prop) :
  wi_is_last_level w = lst -> upsert_ok h -> quiet F (wi_oom w) ->
  (forall p, prev = Some p -> lst = true -> terminal p) ->
  (forall w', F -> Q None w') ->
  (forall oom, quiet F oom -> Q (Some (pure_first lst prev h)) (w <| wi_oom := oom |>)) ->
  wpx F (apply_first prev h) Q w.
Proof.
  intros Hl Hh Hq Hp HF HQ. unfold apply_first. apply wpx_bind, wpx_gets. rewrite Hl.
  unfold pure_first in HQ. cbn zeta. destruct (has_type IPROTO_UPSERT h) eqn:Eh; cbn [andb] in *.
  2: { apply wpx_ret. specialize (HQ (wi_oom w) Hq). by destruct w. }
  apply has_typeP in Eh.
  destruct (lst || _) eqn:El; [|apply wpx_ret; specialize (HQ (wi_oom w) Hq); by destruct w].
  apply wpx_bind, wpx_assert.
  { destruct lst; [|done]. destruct prev as [p|]; [|done]. cbn.
    by rewrite has_type_ne by (by apply Hp). }
  apply wpx_on_oom. eapply wpx_mono; [by apply vy_apply_upsert_spec|].
  intros r oom (Hq' & [->|[-> HFF]]); [by apply HQ|by apply HF].
Qed.

Lemma clear_deferred_spec F w dd e (Q : option stmt -> wi -> Prop) :
  wi_deferred_delete w = dd -> quiet F (wi_oom w) ->
  (forall w', F -> Q None w') ->
  (forall oom, quiet F oom -> Q (Some (pure_clear dd e)) (w <| wi_oom := oom |>)) ->
  wpx F (clear_deferred e) Q w.
Proof.
  intros Hd Hq HF HQ. unfold clear_deferred. apply wpx_bind, wpx_gets. rewrite Hd. unfold pure_clear in HQ.
  cbn zeta. destruct (has_flag VY_STMT_DEFERRED_DELETE e && _) eqn:E.
  2: { apply wpx_ret. specialize (HQ (wi_oom w) Hq). by destruct w. }
  apply wpx_bind. destruct (s_refable e) eqn:Er; cbn [negb].
  - apply wpx_ret, wpx_ret. specialize (HQ (wi_oom w) Hq). by destruct w.
  - unfold vy_stmt_dup. apply wpx_on_oom, wpx_bind, wpx_fails; [done|].
    intros [] oom Hq' Hoom; apply wpx_ret, wpx_ret; [by apply HF, Hoom|by apply HQ].
Qed.

Lemma convert_first_spec F w first e (Q : option stmt -> wi -> Prop) :
  quiet F (wi_oom w) ->
  (forall oom, quiet F oom -> Q (pure_convert first e) (w <| wi_oom := oom |>)) ->
  wpx F (convert_first first e) Q w.
Proof.
  intros Hq HQ. unfold convert_first, pure_convert in *.
  destruct (first && has_type IPROTO_DELETE e).
  { apply wpx_ret. specialize (HQ (wi_oom w) Hq). by destruct w. }
  destruct (_ || _).
  2: { apply wpx_ret. specialize (HQ (wi_oom w) Hq). by destruct w. }
  apply wpx_bind. unfold vy_stmt_dup. apply wpx_on_oom, wpx_bind, wpx_fails; [done|].
  intros [] oom Hq' Hoom; apply wpx_ret; [by apply Hoom|]. apply wpx_ret.
  specialize (HQ oom Hq'). by destruct e.
Qed.

Lemma read_view_merge_spec F w (i : nat) v h hs (prev : option stmt) first lst dd (Q : Z -> wi -> Prop) :
  wi_read_views w !! i = Some (mk_rv v None (h :: hs)) ->
  wi_is_last_level w = lst -> wi_deferred_delete w = dd -> quiet F (wi_oom w) ->
  Forall (fun s => s_type s = IPROTO_UPSERT) hs -> Forall upsert_ok (h :: hs) ->
  (forall p, prev = Some p -> lst = true -> terminal p) ->
  (forall rc w', rc <> 0 -> F -> Q rc w') ->
  (forall oom, quiet F oom ->
    Q 0 (w <| wi_read_views ::= <[i := mk_rv v (pure_merge lst first dd prev (h :: hs)) []]> |>
           <| wi_oom := oom |>)) ->
  wpx F (vy_read_view_merge prev (Z.of_nat i) first) Q w.
Proof.
  intros Hrv Hl Hd Hq Ht Hok Hp HF HQ. unfold vy_read_view_merge.
  apply wpx_bind. eapply wpx_get_rv; [done|]. apply wpx_bind, wpx_assert; [done|]. cbn [rv_history].
  inversion Hok as [|?? Hh Hhs]; subst. cbn [pure_merge] in HQ. unfold both_deletes in HQ.
  destruct (_ && has_type IPROTO_DELETE h) eqn:Ed.
  { unfold set_rv. apply wpx_bind, wpx_modify, wpx_ret. specialize (HQ (wi_oom w) Hq).
    rewrite Nat2Z.id. by destruct w. }
  apply wpx_bind. eapply apply_first_spec; [done|done|done|done| |].
  { intros w' HFF. apply wpx_ret. by apply HF. }
  intros oom1 Hq1. apply wpx_bind. eapply squash_upserts_spec; [done|done|done| |].
  { intros w' HFF. apply wpx_ret. by apply HF. }
  intros oom2 Hq2. apply wpx_bind. eapply clear_deferred_spec; [done|done| |].
  { intros w' HFF. apply wpx_bind. unfold set_rv. apply wpx_modify, wpx_ret. by apply HF. }
  intros oom3 Hq3. cbn [wi_deferred_delete update]. apply wpx_bind. unfold set_rv. apply wpx_modify.
  rewrite Nat2Z.id. destruct prev as [p|].
  - apply wpx_ret. by apply HQ.
  - apply wpx_bind. eapply convert_first_spec; [done|]. intros oom4 Hq4.
    apply wpx_bind, wpx_modify, wpx_ret. specialize (HQ oom4 Hq4). cbn.
    rewrite list_insert_insert_eq. exact HQ.
Qed.

(** ** All views of a key *)

Definition done_views (vs : list Z) (es : list (option stmt)) : list (vy_read_view_stmt T O) :=
  zip_with (fun (v : Z) (e : option stmt) => mk_rv v e []) vs es.

Lemma histories_drop lst vs ks i : histories lst (drop i vs) ks = drop i (histories lst vs ks).
Proof. revert i. induction vs as [|v vs IH]; intros [|i]; try done. apply IH. Qed.
Lemma merge_all_length lst first dd hists : length (merge_all lst first dd hists) = length hists.
Proof. induction hists as [|h hists IH]; [done|]. cbn. by rewrite IH. Qed.

Lemma merge_all_empty lst first dd hists :
  Forall (fun hist : list stmt => hist = []) hists -> omap id (merge_all lst first dd hists) = [].
Proof. induction 1 as [|h hists -> _ IH]; [done|]. cbn. done. Qed.

Lemma key_views_terminal first dd vs ks :
  Forall terminal (key_views true first dd vs ks).
Proof.
  induction vs as [|v vs IH]; [constructor|]. rewrite key_views_cons.
  set (prev := head (key_views true first dd vs ks)).
  assert (forall p, prev = Some p -> terminal p) as Hp.
  { intros p E. rewrite Forall_forall in IH. apply IH. unfold prev in E.
    destruct (key_views true first dd vs ks); [done|]. injection E as <-. by left. }
  destruct (pure_merge true first dd prev _) as [e|] eqn:Em; [|done]. constructor; [|done].
  destruct (view_history true (next_vlsn vs) v ks) as [|h hs]; [done|]. cbn in Em.
  destruct (both_deletes prev h); [done|].
  assert (terminal (pure_first true prev h)) as Hf.
  { unfold pure_first. destruct (has_type IPROTO_UPSERT h) eqn:E; cbn; [|by apply has_type_falseP].
    unfold terminal. by rewrite upsert_result_terminal. }
  destruct (pure_squash_fields hs (pure_first true prev h)) as [_ Hs]. specialize (Hs Hf).
  destruct (pure_clear_fields dd (pure_squash hs (pure_first true prev h))) as (Ct & _).
  unfold terminal in *. destruct prev; [injection Em as <-; by rewrite Ct|].
  apply pure_convert_fields in Em as (_ & _ & _ & Ff & _). unfold terminal in Ff. by rewrite Ff, Ct.
Qed.

Section Key.
Context (primary lst handler : bool) (vs : list Z) (Hvs : views_sorted vs).
Context (ks : list stmt) (Hin : key_input primary ks).
Abbreviation first := (first_insert primary ks).
Abbreviation dd := (key_dd primary lst ks).
Abbreviation hists := (histories lst vs ks).
Abbreviation results := (key_results primary lst vs ks).

(** The views from [i] on have been merged. *)
Definition merged_from (i : nat) : list (vy_read_view_stmt T O) :=
  empty_views (take i vs) (take i hists) ++ done_views (drop i vs) (merge_all lst first dd (drop i hists)).
Definition prev_at (i : nat) : option stmt := head (omap id (merge_all lst first dd (drop i hists))).

Lemma take_views_length i : (i <= length vs)%nat -> length (empty_views (take i vs) (take i hists)) = i.
Proof. intros Hi. unfold empty_views. rewrite length_zip_with, !length_take, histories_length. lia. Qed.

Lemma merged_step i v (h : list stmt) :
  vs !! i = Some v -> hists !! i = Some h ->
  merged_from (S i) !! i = Some (mk_rv v None h) /\
  <[i := mk_rv v (pure_merge lst first dd (prev_at (S i)) h) []]> (merged_from (S i)) = merged_from i /\
  omap id (merge_all lst first dd (drop i hists)) =
    match pure_merge lst first dd (prev_at (S i)) h with
    | Some e => e :: omap id (merge_all lst first dd (drop (S i) hists))
    | None => omap id (merge_all lst first dd (drop (S i) hists))
    end.
Proof.
  intros Ev Eh. pose proof (lookup_lt_Some _ _ _ Ev) as Hi.
  assert (empty_views (take (S i) vs) (take (S i) hists) =
          empty_views (take i vs) (take i hists) ++ [mk_rv v None h]) as Et.
  { unfold empty_views. rewrite (take_S_r _ _ _ Ev), (take_S_r _ _ _ Eh).
    rewrite zip_with_app; [done|]. rewrite !length_take, histories_length. lia. }
  pose proof (take_views_length i ltac:(lia)) as Hl.
  split_and!.
  - unfold merged_from. rewrite Et, <- app_assoc. apply list_lookup_middle. done.
  - unfold merged_from at 1. rewrite Et, <- app_assoc. cbn [app].
    rewrite insert_app_r_alt, Hl, Nat.sub_diag by lia. unfold merged_from. f_equal.
    rewrite (drop_S _ _ _ Ev), (drop_S _ _ _ Eh). done.
  - rewrite (drop_S _ _ _ Eh). cbn [merge_all omap list_omap]. fold (prev_at (S i)).
    by destruct (pure_merge _ _ _ _ _).
Qed.

Lemma prev_terminal i p : prev_at i = Some p -> lst = true -> terminal p.
Proof.
  intros E El. unfold prev_at in E. rewrite <- histories_drop in E. fold (key_views lst first dd (drop i vs) ks) in E.
  rewrite El in E. pose proof (key_views_terminal first dd (drop i vs) ks) as Hf. rewrite El in Hf. rewrite Forall_forall in Hf. apply Hf.
  destruct (key_views _ _ _ _ _); [done|]. injection E as <-. by left.
Qed.

Lemma hist_conditions i v h hs :
  vs !! i = Some v -> hists !! i = Some (h :: hs) ->
  Forall (fun s => s_type s = IPROTO_UPSERT) hs /\ Forall upsert_ok (h :: hs).
Proof.
  intros Ev Eh. rewrite (histories_lookup _ _ _ _ _ Ev) in Eh. injection Eh as Eh.
  by destruct (history_ok lst ks (ki_ok _ _ Hin) _ _ _ _ Eh) as (? & ? & _).
Qed.

(** The iterator before the views below [i] are merged, and at the end. *)
Record merging (F : Prop) (i : nat) (w : wi) (prev : option stmt) (count : Z) : Prop := {
  mg_views : wi_read_views w = merged_from i;
  mg_last : wi_is_last_level w = lst;
  mg_dd : wi_deferred_delete w = dd;
  mg_oom : quiet F (wi_oom w);
  mg_prev : prev = prev_at i;
  mg_count : count = Z.of_nat (length (omap id (merge_all lst first dd (drop i hists))));
  mg_used : wi_rv_used_count w = count;
}.
Definition merged (F : Prop) (w w' : wi) : Prop := exists oom, quiet F oom /\
  w' = w <| wi_read_views := done_views vs (merge_all lst first dd hists) |>
         <| wi_rv_used_count := Z.of_nat (length results) |> <| wi_oom := oom |>.
Definition merge_post (F : Prop) (w : wi) (r : Z * Z) (w' : wi) : Prop :=
  (fst r <> 0 /\ F) \/ (r = (0, Z.of_nat (length results)) /\ merged F w w').

(** Only the views, their count and the failures change. *)
Definition touched (w w' : wi) : Prop :=
  w' = w <| wi_read_views := wi_read_views w' |> <| wi_rv_used_count := wi_rv_used_count w' |>
         <| wi_oom := wi_oom w' |>.
Lemma touched_refl w : touched w w.
Proof. by destruct w. Qed.
Lemma merged_trans F w w1 w2 : touched w w1 -> merged F w1 w2 -> merged F w w2.
Proof. intros E (oom' & Hq & ->). exists oom'. split; [done|]. rewrite E. done. Qed.

Definition merge_rest (i : nat) (prev : option stmt) (count : Z) : prog wi (Z * Z) :=
  match i with 0%nat => mret (0, count) | S i' => merge_views i' prev first count end.
Lemma merge_views_eq i (prev : option stmt) count :
  merge_views i prev first count =
  (rv ← get_rv (Z.of_nat i);
   match rv_history rv with
   | [] => merge_rest i prev count
   | _ =>
       rc ← vy_read_view_merge prev (Z.of_nat i) first;
       if negb (rc =? 0) then mret (-1, count)
       else
         rv ← get_rv (Z.of_nat i);
         assert (fun _ => match rv_history rv with [] => true | _ => false end);;
         match rv_entry rv with
         | None => merge_rest i prev count
         | Some e =>
             modify (fun w => w <| wi_rv_used_count ::= fun n => n + 1 |>);;
             merge_rest i (Some e) (count + 1)
         end
   end).
Proof. by destruct i. Qed.

Lemma merge_views_spec F i : forall w prev count,
  (i < length vs)%nat -> merging F (S i) w prev count ->
  wpx F (merge_views i prev first count) (merge_post F w) w.
Proof.
  induction i as [i IHi] using lt_wf_ind. intros w prev count Hi M.
  assert (forall w' prev' count', merging F i w' prev' count' ->
    touched w w' -> wpx F (merge_rest i prev' count') (merge_post F w) w') as Hcont.
  { intros w' prev' count' M' E. destruct i as [|i].
    - apply wpx_ret. right. destruct M' as [V' _ _ Q' _ C' U']. change (drop 0 hists) with hists in C'.
      change (omap id (merge_all lst first dd hists)) with results in C'. split; [by rewrite C'|].
      exists (wi_oom w'). split; [done|]. change (merged_from 0) with (done_views vs (merge_all lst first dd hists)) in V'.
      rewrite <- V', <- C', <- U'. exact E.
    - eapply wpx_mono; [apply (IHi i ltac:(lia) w' prev' count'); [lia|done]|].
      intros r w'' [?|[? ?]]; [by left|right]. split; [done|]. by eapply merged_trans. }
  destruct M as [Mv Ml Md Mq Mp Mc Mu].
  destruct (lookup_lt_is_Some_2 vs _ Hi) as [v Ev].
  destruct (lookup_lt_is_Some_2 hists i) as [h Eh]; [by rewrite histories_length|].
  destruct (merged_step _ v h Ev Eh) as (M1 & M2 & M3).
  assert (prev_at i = match pure_merge lst first dd prev h with Some e => Some e | None => prev end) as Ep.
  { subst prev. unfold prev_at at 1. rewrite M3. by destruct (pure_merge _ _ _ _ h). }
  rewrite <- Mp in M2, M3. rewrite merge_views_eq. apply wpx_bind.
  eapply wpx_get_rv; [rewrite Mv; exact M1|]. cbn [rv_history]. destruct h as [|h hs].
  { apply Hcont; [|apply touched_refl].
    cbn [pure_merge] in *. rewrite list_insert_id in M2 by done. constructor; try done; congruence. }
  destruct (hist_conditions _ _ _ _ Ev Eh) as [Hu Hok].
  remember (pure_merge lst first dd prev (h :: hs)) as pm eqn:Em.
  apply wpx_bind. eapply read_view_merge_spec; [rewrite Mv; exact M1|done|done|done|done|done| | |].
  { intros p E. apply (prev_terminal (S i)). congruence. }
  { intros rc w' Hrc HF. cbv beta. destruct (Z.eqb_spec rc 0); [done|]. cbn [negb]. apply wpx_ret. by left. }
  intros oom Hq. rewrite <- Em. cbn [Z.eqb negb]. apply wpx_bind. eapply wpx_get_rv.
  { cbn. rewrite Mv. apply list_lookup_insert_eq. by eapply lookup_lt_Some. }
  apply wpx_bind, wpx_assert; [done|]. cbn [rv_entry]. destruct pm as [e|].
  - apply wpx_bind, wpx_modify, Hcont.
    + constructor; cbn; rewrite ?Mv, ?M3; try done; cbn; lia.
    + by destruct w.
  - apply Hcont; [|by destruct w].
    constructor; cbn; rewrite ?Mv, ?M3; done.
Qed.

Lemma done_empty vs' hists' :
  length vs' = length hists' -> Forall (fun hist : list stmt => hist = []) hists' ->
  done_views vs' (merge_all lst first dd hists') = empty_views vs' hists'.
Proof.
  intros Hl Hf. revert vs' Hl. induction Hf as [|hist hists' -> _ IH]; intros [|v vs'] Hl; try done.
  unfold done_views, empty_views. cbn. f_equal. apply IH. by injection Hl.
Qed.
Lemma merged_empty i :
  (i <= length vs)%nat -> Forall (fun hist : list stmt => hist = []) (drop i hists) ->
  merged_from i = empty_views vs hists.
Proof.
  intros Hi Hf. unfold merged_from. rewrite done_empty; [|by rewrite !length_drop, histories_length|done].
  unfold empty_views. rewrite <- zip_with_app by (rewrite !length_take, histories_length; lia).
  by rewrite !take_drop.
Qed.

Lemma first_used_spec F i : forall w,
  (i < length vs)%nat -> wi_read_views w = empty_views vs hists ->
  Forall (fun hist : list stmt => hist = []) (drop (S i) hists) ->
  wpx F (first_used i) (fun r w' => w' = w /\ exists i', r = Z.of_nat i' /\ (i' < length vs)%nat /\
    Forall (fun hist : list stmt => hist = []) (drop (S i') hists) /\ (i' = 0%nat \/ hists !! i' <> Some [])) w.
Proof.
  induction i as [|i IH]; intros w Hi Hw Hf; cbn [first_used].
  { apply wpx_ret. split; [done|]. exists 0%nat. auto. }
  destruct (lookup_lt_is_Some_2 vs _ Hi) as [v Ev].
  destruct (lookup_lt_is_Some_2 hists (S i)) as [h Eh]; [by rewrite histories_length|].
  apply wpx_bind. eapply wpx_get_rv.
  { rewrite Hw. unfold empty_views. rewrite lookup_zip_with, Ev, Eh. done. }
  cbn [rv_history]. destruct h as [|h hs].
  - apply IH; [lia|done|]. rewrite (drop_S _ _ _ Eh). by constructor.
  - apply wpx_ret. split; [done|]. exists (S i). split_and!; [done|done|done|right]. rewrite Eh. done.
Qed.

Lemma total_empty (hs : list (list stmt)) : Forall (fun hist => hist = []) hs -> total hs = 0.
Proof. unfold total. induction 1 as [|h hs -> _ IH]; [done|]. cbn in *. done. Qed.
Lemma total_zero (hs : list (list stmt)) : total hs = 0 -> Forall (fun hist => hist = []) hs.
Proof.
  unfold total. induction hs as [|h hs IH]; intros E; [done|]. rewrite fmap_cons, list_sum_cons in E.
  destruct h; [|cbn in E; lia]. constructor; [done|]. apply IH. cbn in E. lia.
Qed.
Lemma destroyed vs' (es : list (option stmt)) :
  map (fun rv : vy_read_view_stmt T O => rv <| rv_history := [] |>) (done_views vs' es) = done_views vs' es.
Proof. revert es. induction vs' as [|v vs' IH]; intros [|e es]; try done. cbn. f_equal. apply IH. Qed.
Lemma hists_views_length : length (empty_views vs hists) = length vs.
Proof. unfold empty_views. rewrite length_zip_with, histories_length. lia. Qed.

(** The views of a key after its history has been read. *)
Lemma merge_history_spec F w (Q : Z * Z -> wi -> Prop) :
  vs <> [] -> wi_read_views w = empty_views vs hists -> total hists <> 0 ->
  wi_is_last_level w = lst -> wi_deferred_delete w = dd -> quiet F (wi_oom w) -> wi_rv_used_count w = 0 ->
  (forall r w', fst r <> 0 -> F -> Q r w') ->
  (forall w', merged F w w' -> Q (0, Z.of_nat (length results)) w') ->
  wpx F (n ← gets rv_count;
         i ← first_used (Z.to_nat (n - 1));
         rv ← get_rv i;
         assert (fun _ => match rv_history rv with [] => false | _ => true end);;
         r ← merge_views (Z.to_nat i) None first 0;
         vy_write_iterator_history_destroy;;
         mret r) Q w.
Proof.
  intros Hne Hw Ht Hl Hd Hq Hu HF HQ. assert (0 < length vs)%nat by (destruct vs; [done|cbn; lia]).
  apply wpx_bind, wpx_gets. unfold rv_count. rewrite Hw, hists_views_length. apply wpx_bind.
  eapply wpx_mono; [apply (first_used_spec F _ w); [lia|done|]|].
  { rewrite drop_ge; [done|]. rewrite histories_length. lia. }
  intros r w' (-> & i & -> & Hi & He & Hz). rewrite Nat2Z.id.
  destruct (lookup_lt_is_Some_2 vs _ Hi) as [v Ev].
  destruct (lookup_lt_is_Some_2 hists i) as [h Eh]; [by rewrite histories_length|].
  apply wpx_bind. eapply wpx_get_rv.
  { rewrite Hw. unfold empty_views. rewrite lookup_zip_with, Ev, Eh. done. }
  apply wpx_bind, wpx_assert.
  { destruct h; [|done]. exfalso. destruct Hz as [->|Hz]; [|done]. apply Ht, total_empty.
    rewrite <- (take_drop 1 hists). apply Forall_app. split; [|done]. rewrite (take_S_r _ _ _ Eh). by constructor. }
  apply wpx_bind. eapply wpx_mono; [apply merge_views_spec; [done|]|].
  { constructor; try done; [by rewrite merged_empty by (done || lia)| |]; unfold prev_at; by rewrite merge_all_empty. }
  intros r w' [[Hr HFF]|[-> Hm]]; apply wpx_bind; unfold vy_write_iterator_history_destroy;
    apply wpx_modify, wpx_ret; [by apply HF|]. apply HQ. destruct Hm as (oom & Hq' & ->). exists oom.
  split; [done|]. unfold update at 1. cbn. by rewrite destroyed.
Qed.
End Key.
End Results.
