(* ===== verification/VyOutput.v ===== *)
(** * The output of the write iterator

    Key after key the iterator builds the results of
    [VyDeferred.key_output] and returns them one by one: a run of
    vy_task_write_run writes exactly the outputs of the keys of its sources,
    in order. *)

From stdpp Require Import list sorting gmap.
From S2P Require Import Prelude Heap HeapSafety VyStmt VyVisible VyViews VyDeferred VyWriteIterator VyMerge.
From S2P Require Import VyBuild VyLoop VyResults.

Open Scope Z_scope.

Section Output.
Context {T O : Type} `{!Tuples T O, !TuplesLaws T O}.
Abbreviation stmt := (vy_stmt T O).
Abbreviation wi := (vy_write_iterator T O).
Abbreviation log := (list (stmt * stmt)).
Implicit Types (s e k d : stmt) (ks ms out : list stmt) (w : wi) (F : Prop).

(** ** The keys of a sorted list of statements *)

Definition group_cons (s : stmt) (gs : list (list stmt)) : list (list stmt) :=
  match gs with
  | (s' :: g) :: gs => if decide (same_key (s_tuple s) (s_tuple s')) then (s :: s' :: g) :: gs
                       else [s] :: (s' :: g) :: gs
  | _ => [s] :: gs
  end.
Definition groups (ms : list stmt) : list (list stmt) := foldr group_cons [] ms.

(** What the loop over the keys of [ms] makes of a group. *)
Record first_group (s : stmt) (rest ms : list stmt) : Prop := {
  fg_same : Forall (fun s' => same_key (s_tuple s) (s_tuple s')) rest;
  fg_above : Forall (fun s' => tuple_compare (s_tuple s) (s_tuple s') < 0) ms;
}.

Lemma groups_split s ms :
  StronglySorted before (s :: ms) ->
  exists rest ms', s :: ms = s :: rest ++ ms' /\ groups (s :: ms) = (s :: rest) :: groups ms' /\
    first_group s rest ms' /\ StronglySorted before ms'.
Proof.
  revert s. induction ms as [|s' ms IH]; intros s Hs.
  { exists [], []. split_and!; try done. constructor. }
  apply StronglySorted_inv in Hs as [Hs Hb].
  destruct (IH s' Hs) as (rest & ms' & E & Eg & [Fs Fa] & Hs'). apply Forall_inv in Hb as Hb1.
  change (groups (s :: s' :: ms)) with (group_cons s (groups (s' :: ms))). rewrite Eg. cbn.
  destruct (decide (same_key (s_tuple s) (s_tuple s'))) as [Hk|Hk].
  - exists (s' :: rest), ms'. split_and!; [by rewrite E|done| |done]. split.
    + constructor; [done|]. eapply Forall_impl; [exact Fs|]. intros x Hx. by transitivity (s_tuple s').
    + eapply Forall_impl; [exact Fa|]. intros x Hx. cbn in *.
      eapply (compare_le_lt_trans _ (s_tuple s')); [|done]. unfold same_key in Hk. lia.
  - exists [], (s' :: ms). split_and!; [done|by rewrite Eg|split; [done|]|done].
    destruct Hb1 as [Hlt|[? _]]; [|done]. constructor; [done|].
    apply StronglySorted_inv in Hs as [_ Hs]. eapply Forall_impl; [exact Hs|]. intros x Hx.
    eapply compare_lt_trans; [exact Hlt|]. destruct Hx as [Hx|[Hx _]]; unfold same_key in *; lia.
Qed.
Lemma groups_concat ms : concat (groups ms) = ms.
Proof.
  induction ms as [|s ms IH]; [done|]. change (groups (s :: ms)) with (group_cons s (groups ms)).
  rewrite <- IH at 2. destruct (groups ms) as [|[|s' g] gs]; try done. cbn. by destruct (decide _).
Qed.
Lemma groups_nonempty ms : Forall (fun g => g <> []) (groups ms).
Proof.
  induction ms as [|s ms IH]; [constructor|]. change (groups (s :: ms)) with (group_cons s (groups ms)).
  unfold group_cons. destruct (groups ms) as [|[|s' g'] gs].
  - by constructor.
  - by constructor.
  - apply Forall_inv_tail in IH. destruct (decide _); repeat (constructor; [done|]); done.
Qed.

(** ** Building the results of the next key *)

Section Keys.
Context (primary lst handler : bool) (vs : list Z) (Hvs : views_sorted vs) (Hne : vs <> []).
Context (F : Prop) (srcs : list Z).
Abbreviation between := (between primary lst handler vs).
Abbreviation results := (key_results primary lst vs).
Abbreviation output := (key_output primary lst vs).
Abbreviation merged_entries ks :=
  (merge_all lst (first_insert primary ks) (key_dd primary lst ks) (histories lst vs ks)).

(** What does not change while a run is written. *)
Record fixed w : Prop := {
  fx_last : wi_is_last_level w = lst;
  fx_primary : wi_is_primary w = primary;
  fx_handler : wi_handler w = handler;
  fx_srcs : wi_src_list w = srcs;
  fx_oom : quiet F (wi_oom w);
}.

(** The results [out] of the current key have not been returned yet. *)
Record holds w (out : list stmt) : Prop := {
  hd_entries : exists es (j : nat), wi_read_views w = done_views vs es /\ length es = length vs /\
    wi_stmt_i w = Z.of_nat j - 1 /\ omap id (take j es) = [] /\ omap id (drop j es) = out;
  hd_used : wi_rv_used_count w = Z.of_nat (length out);
}.

Lemma build_read_views_spec l w s rest ms :
  feeds None (wi_srcs w) (wi_src_heap w) (s :: rest ++ ms) -> first_group s rest ms ->
  key_input primary (s :: rest) -> between l w -> fixed w -> wi_stmt_i w = -1 ->
  wpx F vy_write_iterator_build_read_views (fun r w' =>
    (fst r <> 0 /\ F) \/
    (r = (0, Z.of_nat (length (results (s :: rest)))) /\
     feeds None (wi_srcs w') (wi_src_heap w') ms /\ holds w' (results (s :: rest)) /\ fixed w' /\
     wi_deferred_delete w' = key_dd primary lst (s :: rest) /\
     wi_processed w' = snd (key_deferred primary handler l (s :: rest)) /\ wi_stmt_i w' = -1)) w.
Proof.
  intros Hf [Fs Fa] Hin Hb Hx Hi. set (ks := s :: rest) in *. unfold vy_write_iterator_build_read_views.
  apply wpx_bind, wpx_modify, wpx_bind.
  eapply wpx_mono; [eapply (build_history_spec primary lst handler vs Hvs F l _ s rest ms); try done|].
  { by destruct Hb. }
  { apply Hx. }
  fold ks. intros r w1 [[Hr HF]|(-> & Hf1 & V1 & L1 & P1 & H1 & D1 & G1 & Q1 & E1)].
  { destruct r as [[rc n] fi]. cbn in Hr. destruct (Z.eqb_spec rc 0); [done|]. cbn [negb].
    apply wpx_bind. unfold vy_write_iterator_history_destroy. apply wpx_modify, wpx_ret. by left. }
  cbn [Z.eqb negb]. injection E1 as U1 I1 A1 S1. cbn in U1, I1, S1.
  assert (forall views n oom, views = done_views vs (merged_entries ks) -> n = Z.of_nat (length (results ks)) ->
    quiet F oom ->
    let w' := w1 <| wi_read_views := views |> <| wi_rv_used_count := n |> <| wi_oom := oom |> in
    feeds None (wi_srcs w') (wi_src_heap w') ms /\ holds w' (results ks) /\ fixed w' /\
    wi_deferred_delete w' = key_dd primary lst ks /\
    wi_processed w' = snd (key_deferred primary handler l ks) /\ wi_stmt_i w' = -1) as Hfin.
  { intros views n oom -> -> Hq. cbn. split_and!; try done; [| |congruence].
    - split; [|done]. exists (merged_entries ks), 0%nat. cbn. rewrite merge_all_length, histories_length.
      split_and!; try done. lia.
    - destruct Hx. split; cbn; (done || congruence). }
  destruct (Z.eqb_spec (total (histories lst vs ks)) 0) as [Ez|Ez].
  - apply wpx_ret. right. apply total_zero in Ez.
    assert (results ks = []) as Er by (by apply merge_all_empty).
    split; [by rewrite Er|]. specialize (Hfin (wi_read_views w1) (wi_rv_used_count w1) (wi_oom w1)).
    cbn in Hfin. destruct w1. cbn in *. apply Hfin; [|by rewrite Er|done].
    rewrite V1. symmetry. apply done_empty; [by rewrite histories_length|done].
  - eapply (merge_history_spec primary lst vs Hvs ks Hin); try done; [by left|].
    intros w' (oom & Hq & ->). right. split; [done|]. by apply Hfin.
Qed.

(** ** Returning the results *)

Lemma omap_drop_cons (es : list (option stmt)) j e out :
  omap id (drop j es) = e :: out -> exists x, es !! j = Some x /\ drop j es = x :: drop (S j) es.
Proof.
  intros E. destruct (drop j es) as [|x l] eqn:Ed; [done|].
  assert (es !! j = Some x) as Ex.
  { pose proof (lookup_drop es j 0) as H. rewrite Ed, Nat.add_0_r in H. by symmetry. }
  exists x. split; [done|]. by rewrite <- Ed, (drop_S _ _ _ Ex).
Qed.

Lemma done_lookup es j v (x : option stmt) :
  vs !! j = Some v -> es !! j = Some x -> done_views vs es !! j = Some (mk_rv v x []).
Proof. intros Ev Ex. unfold done_views. by rewrite lookup_zip_with, Ev, Ex. Qed.
Lemma done_insert es j v (x : option stmt) :
  vs !! j = Some v -> length es = length vs ->
  <[j := mk_rv v x []]> (done_views vs es) = done_views vs (<[j := x]> es).
Proof.
  intros Ev Hl. apply list_eq. intros i. unfold done_views. rewrite lookup_zip_with.
  destruct (decide (i = j)) as [->|Hij].
  - rewrite Ev. pose proof (lookup_lt_Some _ _ _ Ev). rewrite !list_lookup_insert_eq; [done|lia|].
    rewrite length_zip_with. lia.
  - rewrite !list_lookup_insert_ne by done. by rewrite lookup_zip_with.
Qed.

Lemma find_stmt_spec fuel : forall w es (j : nat) e out (Q : stmt -> wi -> Prop),
  wi_read_views w = done_views vs es -> length es = length vs -> wi_stmt_i w = Z.of_nat j - 1 ->
  omap id (take j es) = [] -> omap id (drop j es) = e :: out -> (length vs - j <= fuel)%nat ->
  (forall es' (j' : nat), length es' = length vs -> omap id (take j' es') = [] -> omap id (drop j' es') = out ->
     Q e (w <| wi_stmt_i := Z.of_nat j' - 1 |> <| wi_read_views := done_views vs es' |>)) ->
  wpx F (find_stmt fuel) Q w.
Proof.
  induction fuel as [|fuel IH]; intros w es j e out Q Hw Hl Hi Ht Hd Hfuel HQ.
  all: destruct (omap_drop_cons _ _ _ _ Hd) as (x & Ex & Edrop); pose proof (lookup_lt_Some _ _ _ Ex) as Hj.
  { exfalso. lia. }
  destruct (lookup_lt_is_Some_2 vs j ltac:(lia)) as [v Ev]. cbn [find_stmt].
  apply wpx_bind, wpx_assert.
  { unfold rv_count. rewrite Hw, Hi. unfold done_views. rewrite length_zip_with.  apply Z.ltb_lt. lia. }
  apply wpx_bind, wpx_modify, wpx_bind, wpx_gets.
  replace (wi_stmt_i (w <| wi_stmt_i ::= fun i => i + 1 |>)) with (Z.of_nat j) by (cbn; lia).
  apply wpx_bind. eapply wpx_get_rv; [cbn; rewrite Hw; by apply done_lookup|].
  apply wpx_bind, wpx_assert; [done|]. cbn [rv_entry]. rewrite Edrop in Hd.
  assert (forall y, omap id (take (S j) (<[j := y]> es)) = match y with Some e => [e] | None => [] end) as Ht'.
  { intros y. rewrite (take_S_r _ _ y) by (apply list_lookup_insert_eq; lia).
    rewrite take_insert_ge, omap_app, Ht by lia. by destruct y. }
  destruct x as [e'|].
  - injection Hd as -> Hd. apply wpx_bind. unfold set_rv. apply wpx_modify, wpx_ret.
    specialize (HQ (<[j := None]> es) (S j)). rewrite length_insert in HQ.
    rewrite drop_insert_lt in HQ by lia. specialize (HQ Hl (Ht' None) Hd). cbn. rewrite Hw, Nat2Z.id, done_insert by done.
    replace (Z.of_nat (S j) - 1) with (wi_stmt_i w + 1) in HQ by lia. exact HQ.
  - specialize (Ht' None). rewrite list_insert_id in Ht' by done.
    apply (IH _ es (S j) e out); try done; cbn; lia.
Qed.

Lemma pop_view_spec w out :
  holds w out ->
  wpx F vy_write_iterator_pop_read_view_stmt (fun r w' =>
    match out with
    | [] => r = None /\ w' = w
    | e :: out => r = Some e /\ holds w' out /\ wi_last w' = Some e /\
        exists used i views, w' = w <| wi_rv_used_count := used |> <| wi_stmt_i := i |> <| wi_last := Some e |>
          <| wi_read_views := views |>
    end) w.
Proof.
  intros [(es & j & Hw & Hl & Hi & Ht & Hd) Hu]. unfold vy_write_iterator_pop_read_view_stmt.
  apply wpx_bind, wpx_gets. rewrite Hu. destruct out as [|e out]; [by apply wpx_ret|].
  destruct (Z.eqb_spec (Z.of_nat (length (e :: out))) 0) as [E0|_]; [cbn in E0; lia|].
  apply wpx_bind, wpx_gets, wpx_bind. eapply find_stmt_spec; try done.
  { unfold rv_count. rewrite Hw. unfold done_views. rewrite length_zip_with. lia. }
  intros es' j' Hl' Ht' Hd'. apply wpx_bind, wpx_assert.
  { cbn. rewrite Hu. apply Z.ltb_lt. cbn. lia. }
  apply wpx_bind, wpx_modify, wpx_ret. split_and!; [done| |done|].
  - split; cbn; [by exists es', j'|]. rewrite Hu. cbn. lia.
  - by eexists _, _, _.
Qed.

(** ** The stream of the statements that are left *)

Context (Hmax : next_vlsn vs = INT64_MAX).

Record good (ks : list stmt) : Prop := {
  gd_input : key_input primary ks;
  gd_addr : Forall (fun s => s_addr s <> None) ks;
}.
Definition outputs (ms : list stmt) : list stmt := groups ms ≫= output.
Definition logs (l : log) (ms : list stmt) : log :=
  foldl (fun l ks => snd (key_deferred primary handler l ks)) l (groups ms).
Definition rest_of_key (res out : list stmt) (dd : option stmt) : list stmt :=
  out ++ match dd with Some d => if returned d res then [] else [d] | None => [] end.

(** [res] are the results of the current key, [out] those left of them. *)
Record key_left w (res out : list stmt) (dd : option stmt) : Prop := {
  kl_holds : holds w out;
  kl_dd : wi_deferred_delete w = dd;
  kl_res : exists pre, res = pre ++ out /\ (pre <> [] -> wi_last w = list.last pre);
  kl_some : dd <> None -> res <> [];
}.
Record source_left w ms (lf : log) : Prop := {
  sl_feeds : feeds None (wi_srcs w) (wi_src_heap w) ms;
  sl_good : Forall good (groups ms);
  sl_log : logs (wi_processed w) ms = lf;
  sl_fixed : fixed w;
}.
Definition stream_left w (rem : list stmt) (lf : log) : Prop := exists res out dd ms,
  key_left w res out dd /\ source_left w ms lf /\ rem = rest_of_key res out dd ++ outputs ms.

Lemma holds_between l w :
  holds w [] -> fixed w -> wi_deferred_delete w = None -> wi_processed w = l -> between l w.
Proof.
  intros [(es & j & Hw & Hl & _ & Ht & Hd) _] Hx Hdd Hlog. split; try done; try apply Hx.
  assert (omap id es = []) as He by (by rewrite <- (take_drop j es), omap_app, Ht, Hd).
  rewrite Hw. clear - Hl He. revert vs Hl. induction es as [|[e|] es IH]; intros [|v vs'] Hl; try done.
  cbn. f_equal. apply IH; [done|]. by injection Hl.
Qed.

Lemma good_results ks d : good ks -> key_dd primary lst ks = Some d -> results ks <> [].
Proof.
  intros [Hin Ha] Ed. destruct (dd_oldest primary lst ks Hin d Ed) as ([ks1 Ek] & _).
  pose proof (ki_pos _ _ Hin) as Hp. rewrite Ek in Hp, Ha.
  apply Forall_app in Hp as [_ Hp]. apply Forall_inv in Hp. apply Forall_app in Ha as [_ Ha]. apply Forall_inv in Ha.
  destruct (results_last primary lst vs ks Hin d Hvs Ed Ha) as (e & El & _); [lia|].
  intros E. by rewrite E in El.
Qed.

Lemma source_left_next w s ms lf :
  source_left w (s :: ms) lf ->
  exists rest ms', feeds None (wi_srcs w) (wi_src_heap w) (s :: rest ++ ms') /\ first_group s rest ms' /\
    good (s :: rest) /\ Forall good (groups ms') /\ (length ms' <= length ms)%nat /\
    logs (snd (key_deferred primary handler (wi_processed w) (s :: rest))) ms' = lf /\
    outputs (s :: ms) = output (s :: rest) ++ outputs ms'.
Proof.
  intros [Hf Hg Hl _]. destruct (groups_split s ms (fd_sorted _ _ _ _ Hf)) as (rest & ms' & E & Eg & Hfg & _).
  unfold logs, outputs in *. rewrite Eg in Hg, Hl |- *. exists rest, ms'. rewrite <- E.
  pose proof (Forall_inv Hg). apply Forall_inv_tail in Hg. split_and!; try done.
  injection E as ->. rewrite length_app. lia.
Qed.

Lemma feeds_size srcs' h ms : feeds None srcs' h ms -> h_size h = 0 -> ms = [].
Proof.
  intros Hf Hz. destruct ms as [|s ms]; [done|]. exfalso.
  assert (wp heap_top (fun top h' => h' = h /\ exists x sr, top = Some x /\ at_pos h 0 = x /\ x <> END_OF_KEY /\
    srcs' !! x = Some sr /\ src_entry sr = Some s) h) as Ht by (by eapply feeds_top).
  revert Ht. unfold wp, heap_top, gets, mbind, prog_bind. rewrite Hz. cbn. by intros (_ & ? & ? & ? & _).
Qed.

(** The results of the next key that has any. *)
Lemma next_key_loop_spec fuel : forall w ms lf,
  source_left w ms lf -> holds w [] -> wi_deferred_delete w = None -> wi_stmt_i w = -1 -> (length ms < fuel)%nat ->
  wpx F (next_key_loop fuel) (fun rc w' => (rc <> 0 /\ F) \/
    (rc = 0 /\ exists out dd ms', key_left w' out out dd /\ source_left w' ms' lf /\
      outputs ms = rest_of_key out out dd ++ outputs ms' /\ (out = [] -> dd = None /\ ms' = []))) w.
Proof.
  induction fuel as [|fuel IH]; intros w ms lf Hs Hh Hd Hi Hfuel; [lia|]. cbn [next_key_loop].
  pose proof Hs as [Hf Hg Hl Hx]. pose proof (holds_between _ _ Hh Hx Hd eq_refl) as Hb.
  apply wpx_bind. destruct ms as [|s ms].
  { unfold vy_write_iterator_build_read_views. apply wpx_bind, wpx_modify, wpx_bind.
    assert (w <| wi_rv_used_count := 0 |> = w) as -> by (destruct Hh as [_ Hu]; destruct w; cbn in *; by subst).
    eapply wpx_mono; [by apply build_history_end|]. intros r w' [-> ->]. cbn [Z.eqb negb]. apply wpx_ret.
    cbn [Z.eqb negb orb]. apply wpx_bind, wpx_gets. destruct (feeds_top_nil _ _ Hf) as [_ ->].
    apply wpx_ret. right. split; [done|]. exists [], None, []. split_and!; try done.
    split; try done. exists []. done. }
  destruct (source_left_next _ _ _ _ Hs) as (rest & ms' & Hf' & Hfg & Hgd & Hg' & Hlen & Hlog & Hout).
  eapply wpx_mono; [eapply build_read_views_spec; try done; apply Hgd|].
  intros r w' [[Hr HF]|(-> & Hf1 & Hh1 & Hx1 & Hd1 & Hl1 & Hi1)].
  { destruct r as [rc n]. cbn in Hr. destruct (Z.eqb_spec rc 0); [done|]. cbn [negb]. apply wpx_ret. by left. }
  cbn [Z.eqb negb]. apply wpx_bind, wpx_gets.
  assert (source_left w' ms' lf) as Hs1 by (split; try done; by rewrite Hl1).
  assert (key_left w' (results (s :: rest)) (results (s :: rest)) (key_dd primary lst (s :: rest))) as Hk1.
  { split; [done|done|by exists []|]. destruct (key_dd primary lst (s :: rest)) as [d|] eqn:Ed; [|done].
    intros _. by eapply good_results. }
  destruct (Z.eqb_spec (Z.of_nat (length (results (s :: rest)))) 0) as [Ez|Ez]; cbn [negb orb].
  2: { apply wpx_ret. right. split; [done|]. exists (results (s :: rest)), (key_dd primary lst (s :: rest)), ms'.
       split_and!; try done. intros E. by rewrite E in Ez. }
  assert (results (s :: rest) = []) as Er by (by apply length_zero_iff_nil; lia).
  assert (key_dd primary lst (s :: rest) = None) as Edd.
  { destruct Hk1 as [_ _ _ Hk]. destruct (key_dd primary lst (s :: rest)); [|done]. by destruct Hk. }
  assert (outputs (s :: ms) = outputs ms') as Eout by (rewrite Hout; unfold key_output; by rewrite Edd, Er).
  rewrite Er in Hh1. rewrite Edd in Hd1. rewrite Er, Edd in Hk1.
  destruct (Z.eqb_spec (h_size (wi_src_heap w')) 0) as [E0|_].
  - apply wpx_ret. right. split; [done|]. pose proof (feeds_size _ _ _ Hf1 E0) as ->.
    exists [], None, []. split_and!; try done.
  - rewrite Eout. apply IH; try done. cbn in Hfuel. lia.
Qed.

(** The deferred DELETE of the current key. *)
Lemma pop_deferred_spec w res dd ms lf (Q : option stmt -> wi -> Prop) :
  key_left w res [] dd -> source_left w ms lf ->
  (forall d w', rest_of_key res [] dd = [d] -> key_left w' [] [] None -> source_left w' ms lf -> Q (Some d) w') ->
  (forall w', rest_of_key res [] dd = [] -> key_left w' [] [] None -> source_left w' ms lf -> Q None w') ->
  wpx F pop_deferred Q w.
Proof.
  intros [Hh Hd (pre & Ep & Hl) Hsm] [Hf Hg Hlog Hx] HS HN. rewrite app_nil_r in Ep. subst pre.
  unfold pop_deferred, rest_of_key in *. apply wpx_bind, wpx_gets. rewrite Hd.
  destruct dd as [d|].
  2: { apply wpx_ret, HN; [done| |done]. split; try done. by exists []. }
  specialize (Hl (Hsm ltac:(done))). cbn [app] in *. unfold returned in *.
  apply wpx_bind, wpx_gets, wpx_bind, wpx_modify. rewrite Hl.
  assert (forall w', w' = w <| wi_deferred_delete := None |> \/
    w' = w <| wi_deferred_delete := None |> <| wi_last := Some d |> ->
    key_left w' [] [] None /\ source_left w' ms lf) as Hw.
  { intros w' [->| ->]; (split; [split; [by destruct Hh|done|by exists []|done]|split; try done; by destruct Hx]). }
  destruct (match list.last res with Some l => vy_entry_is_equal d l | None => false end).
  - apply wpx_ret. by apply HN; try apply Hw; try left.
  - apply wpx_bind, wpx_modify, wpx_ret. by apply HS; try apply Hw; try right.
Qed.

Lemma holds_reset w : holds w [] -> holds (w <| wi_stmt_i := -1 |>) [].
Proof.
  intros [(es & j & Hw & Hl & _ & Ht & Hd) Hu]. split; [|done]. exists es, 0%nat. split_and!; try done.
  change (omap id es = []). by rewrite <- (take_drop j es), omap_app, Ht, Hd.
Qed.

(** One statement of the stream. *)
Lemma next_spec w rem lf :
  stream_left w rem lf ->
  wpx F vy_write_iterator_next (fun r w' => (fst r <> 0 /\ F) \/
    match rem with
    | [] => r = (0, None) /\ holds w' [] /\ source_left w' [] lf
    | e :: rem => r = (0, Some e) /\ stream_left w' rem lf
    end) w.
Proof.
  intros (res & out & dd & ms & Hk & Hs & ->). unfold vy_write_iterator_next. apply wpx_bind.
  eapply wpx_mono; [apply pop_view_spec, Hk|]. intros r w' Hr. destruct out as [|e out].
  2: { destruct Hr as (-> & Hh & Hl & used & i & views & ->). apply wpx_ret. right. cbn. split; [done|].
       exists res, out, dd, ms. split_and!; [|by destruct Hs as [? ? ? []]|done].
       destruct Hk as [_ Hd (pre & Ep & Hpre) Hsm]. split; try done. exists (pre ++ [e]).
       rewrite <- app_assoc. split; [done|]. intros _. by rewrite last_snoc. }
  destruct Hr as [-> ->]. apply wpx_bind. eapply pop_deferred_spec; [done|done| |].
  { intros d w' -> Hk' Hs'. apply wpx_ret. right. cbn. split; [done|]. by exists [], [], None, ms. }
  intros w' -> Hk' Hs'. apply wpx_bind, wpx_modify, wpx_bind, wpx_gets. set (w1 := w' <| wi_stmt_i := -1 |>).
  assert (source_left w1 ms lf) as Hs1 by (by destruct Hs' as [? ? ? []]).
  rewrite (left_count_pending w1 None ms) by apply Hs1.
  apply wpx_bind. eapply wpx_mono.
  { apply (next_key_loop_spec _ w1 ms lf); [done|by apply holds_reset, Hk'|apply Hk'|done|lia]. }
  intros rc w2 [[Hrc HF]|(-> & out & dd' & ms' & Hk2 & Hs2 & -> & Hend)].
  { destruct (Z.eqb_spec rc 0); [done|]. cbn [negb]. apply wpx_ret. by left. }
  cbn [Z.eqb negb]. apply wpx_bind. eapply wpx_mono; [apply pop_view_spec, Hk2|]. intros r w3 Hr. apply wpx_ret. right.
  destruct out as [|e out].
  - destruct Hr as [-> ->]. destruct (Hend eq_refl) as [-> ->]. cbn. split_and!; [done|apply Hk2|done].
  - destruct Hr as (-> & Hh & Hl & used & i & views & ->). cbn. split; [done|].
    exists (e :: out), out, dd', ms'. split_and!; [|by destruct Hs2 as [? ? ? []]|done].
    destruct Hk2 as [_ Hd2 _ Hsm]. split; try done. by exists [e].
Qed.

(** ** The whole run *)

Lemma write_run_loop_spec fuel : forall w rem lf,
  stream_left w rem lf -> (length rem < fuel)%nat ->
  wpx F (write_run_loop fuel) (fun r w' => (fst r <> 0 /\ F) \/ (r = (0, rem) /\ holds w' [] /\ source_left w' [] lf)) w.
Proof.
  induction fuel as [|fuel IH]; intros w rem lf Hs Hfuel; [lia|]. cbn [write_run_loop].
  apply wpx_bind. eapply wpx_mono; [by apply next_spec|]. intros [rc r] w' [[Hr HF]|Hr].
  { cbn in Hr. destruct (Z.eqb_spec rc 0); [done|]. cbn [negb]. apply wpx_ret. by left. }
  destruct rem as [|e rem]; destruct Hr as [[= -> ->] Hs']; cbn [Z.eqb negb]; [apply wpx_ret; by right|].
  apply wpx_bind. eapply wpx_mono; [apply (IH _ _ _ Hs'); cbn in Hfuel; lia|].
  intros [rc r] w2 [[Hr HF]|[[= -> ->] Hs2]]; apply wpx_ret; [by left|by right].
Qed.
End Keys.
End Output.
