(* ===== verification/VyRun.v ===== *)
(** * A run from beginning to end

    The sources are created, started, merged and removed again: what
    vy_task_write_run writes is a function of the statements in the sources
    and of the read views. *)

From stdpp Require Import list sorting gmap.
From S2P Require Import Prelude Heap HeapSafety VyStmt VyVisible VyViews VyDeferred VyWriteIterator VyMerge.
From S2P Require Import VyBuild VyLoop VyResults VyOutput.

Open Scope Z_scope.

Section Run.
Context {T O : Type} `{!Tuples T O, !TuplesLaws T O}.
Abbreviation stmt := (vy_stmt T O).
Abbreviation src := (vy_write_src T O).
Abbreviation wi := (vy_write_iterator T O).
Abbreviation log := (list (stmt * stmt)).
Implicit Types (s e k d : stmt) (ks ms out : list stmt) (w : wi) (F : Prop).

(** ** Sources that have not been started *)

Definition src_rest (sr : src) : list stmt := option_list (src_entry sr) ++ src_stream sr.
Definition all_left (srcs : gmap Z src) : list stmt := map_to_list srcs ≫= fun p => src_rest (snd p).

Lemma all_left_insert srcs x sr : srcs !! x = None -> all_left (<[x := sr]> srcs) ≡ₚ src_rest sr ++ all_left srcs.
Proof. intros Hx. unfold all_left. by rewrite map_to_list_insert. Qed.
Lemma all_left_same srcs x sr sr' :
  srcs !! x = Some sr -> src_rest sr' = src_rest sr -> all_left (<[x := sr']> srcs) ≡ₚ all_left srcs.
Proof.
  intros Hx E. rewrite <- (insert_delete_id srcs x sr Hx) at 2. rewrite <- (insert_delete_eq srcs).
  rewrite !all_left_insert by apply lookup_delete_eq. by rewrite E.
Qed.
Lemma all_left_pending srcs :
  (forall x sr, srcs !! x = Some sr -> src_ok sr) -> all_left srcs = pending srcs.
Proof.
  intros H. unfold all_left, pending. apply Forall_bind_ext, Forall_forall. intros [x sr] Hin.
  apply elem_of_map_to_list in Hin. pose proof (so_end _ (H x sr Hin)) as He. cbn.
  unfold src_rest, src_all. destruct (src_entry sr); [done|]. by rewrite He.
Qed.

(** [todo]: the sources that are not started. *)
Record ready w (todo : list Z) ms : Prop := {
  rd_heap : heap_ok (heap_less (wi_srcs w)) (wi_src_heap w);
  rd_size : h_size (wi_src_heap w) + Z.of_nat (length todo) + 1 < 2 ^ 31;
  rd_member : forall x, member (wi_src_heap w) x <-> exists sr e, wi_srcs w !! x = Some sr /\ src_entry sr = Some e;
  rd_end : wi_srcs w !! END_OF_KEY = None;
  rd_done : forall x sr, wi_srcs w !! x = Some sr -> x ∉ todo -> src_ok sr;
  rd_todo : forall x, x ∈ todo -> exists stream,
    wi_srcs w !! x = Some (mk_src None false stream) /\ StronglySorted before stream;
  rd_nodup : NoDup todo;
  rd_perm : ms ≡ₚ all_left (wi_srcs w);
}.

Lemma heap_ok_create less h x :
  heap_ok less h -> ~ member h x -> heap_ok less (h <| h_pos ::= insert x HEAP_NODE_STRAY_POS |>).
Proof.
  intros [[Hc Hs Hsm Hl Hb] Ho] Hx. split; [split; cbn; try done|done].
  - intros i Hi. assert (at_pos h i <> x) as Hne by (intros <-; apply Hx; by exists i).
    change (<[x := HEAP_NODE_STRAY_POS]> (h_pos h) !! at_pos h i = Some i).
    rewrite lookup_insert_ne by done. by apply Hl.
  - intros n i. destruct (Z.eq_dec n x) as [->|Hne].
    + rewrite lookup_insert_eq. intros [= <-] Hi. done.
    + rewrite lookup_insert_ne by done. apply Hb.
Qed.

(** The order of the heap when a source outside of it changes. *)
Lemma heap_ok_outside srcs h x sr :
  heap_ok (heap_less srcs) h -> ~ member h x -> heap_ok (heap_less (<[x := sr]> srcs)) h.
Proof.
  intros Hok Hx. eapply heap_ok_ext; [|exact Hok]. intros y z Hy Hz. unfold heap_less.
  rewrite !lookup_insert_ne; [done|intros <-; by apply Hx..].
Qed.

(** ** Creating the sources *)

Lemma new_src_spec F w todo ms x stream (Q : Z -> wi -> Prop) :
  ready w todo ms -> quiet F (wi_oom w) -> wi_srcs w !! x = None -> x <> END_OF_KEY -> x ∉ todo ->
  h_size (wi_src_heap w) + Z.of_nat (length todo) + 2 < 2 ^ 31 -> StronglySorted before stream ->
  (forall rc w', rc <> 0 -> F -> Q rc w') ->
  (forall h oom, quiet F oom -> h_size h = h_size (wi_src_heap w) ->
    let w' := w <| wi_srcs := <[x := mk_src None false stream]> (wi_srcs w) |> <| wi_src_heap := h |>
                <| wi_src_list := x :: wi_src_list w |> <| wi_oom := oom |> in
    ready w' (x :: todo) (ms ++ stream) -> Q 0 w') ->
  wpx F (vy_write_iterator_new_src x stream) Q w.
Proof.
  intros Hr Hq Hx Hxe Hxt Hsz Hst HF HQ. pose proof Hr as [Hok Hs Hm He Hd Ht Hn Hp].
  assert (~ member (wi_src_heap w) x) as Hnm.
  { rewrite Hm. intros (? & ? & E & _). by rewrite Hx in E. }
  unfold vy_write_iterator_new_src. apply wpx_bind, wpx_on_oom, wpx_fails; [done|].
  intros [] oom Hq' Hoom; [apply wpx_ret; apply HF; [done|by apply Hoom]|].
  apply wpx_bind. unfold set_src. apply wpx_modify, wpx_bind. unfold heap_node_create.
  apply wpx_on_heap, wp_modify, wpx_bind, wpx_modify, wpx_ret.
  apply (HQ ((wi_src_heap w) <| h_pos ::= insert x HEAP_NODE_STRAY_POS |>) oom); [done|done|].
  split; cbn.
  - by apply heap_ok_create; [apply heap_ok_outside|].
  - change (h_size (wi_src_heap w) + Z.of_nat (S (length todo)) + 1 < 2 ^ 31). lia.
  - intros y. change (member (wi_src_heap w) y <-> exists sr e,
      <[x := mk_src None false stream]> (wi_srcs w) !! y = Some sr /\ src_entry sr = Some e). rewrite Hm.
    destruct (Z.eq_dec y x) as [->|Hy].
    + rewrite lookup_insert_eq, Hx. naive_solver.
    + by rewrite lookup_insert_ne.
  - by rewrite lookup_insert_ne.
  - intros y sr. rewrite not_elem_of_cons. intros E [Hy Hyt]. rewrite lookup_insert_ne in E by done. by eapply Hd.
  - intros y Hy. apply elem_of_cons in Hy as [->|Hy].
    + exists stream. by rewrite lookup_insert_eq.
    + destruct (Ht y Hy) as (st & E & ?). exists st. rewrite lookup_insert_ne by (by intros ->). done.
  - by constructor.
  - rewrite all_left_insert, Hp by done. cbn. by rewrite Permutation_app_comm.
Qed.

(** Only the sources, the heap and the failures have changed. *)
Definition sourced F w w' : Prop := quiet F (wi_oom w') /\ exists srcs h l oom,
  w' = w <| wi_srcs := srcs |> <| wi_src_heap := h |> <| wi_src_list := l |> <| wi_oom := oom |>.
Lemma sourced_trans F w1 w2 w3 : sourced F w1 w2 -> sourced F w2 w3 -> sourced F w1 w3.
Proof. intros (_ & ? & ? & ? & ? & ->) (Hq & ? & ? & ? & ? & ->). split; [done|]. by eexists _, _, _, _. Qed.
Lemma sourced_refl F w : quiet F (wi_oom w) -> sourced F w w.
Proof.
  intros Hq. split; [done|]. exists (wi_srcs w), (wi_src_heap w), (wi_src_list w), (wi_oom w). by destruct w.
Qed.

Lemma new_srcs_spec F streams : forall i w ms,
  ready w (wi_src_list w) ms -> quiet F (wi_oom w) -> (forall x sr, wi_srcs w !! x = Some sr -> x < i) ->
  END_OF_KEY < i -> Forall (StronglySorted before) streams -> h_size (wi_src_heap w) = 0 ->
  Z.of_nat (length (wi_src_list w)) + Z.of_nat (length streams) + 1 < 2 ^ 31 ->
  wpx F (new_srcs i streams) (fun rc w' => (rc <> 0 /\ F) \/
    (rc = 0 /\ ready w' (wi_src_list w') (ms ++ concat streams) /\ sourced F w w')) w.
Proof.
  induction streams as [|stream streams IH]; intros i w ms Hr Hq Hi Hi0 Hst Hz Hsz; cbn [new_srcs concat].
  { apply wpx_ret. right. rewrite app_nil_r. split_and!; [done|done|by apply sourced_refl]. }
  apply wpx_bind. cbn [length] in Hsz. eapply new_src_spec; [exact Hr|done| |lia| |lia|by apply Forall_inv in Hst| |].
  - destruct (wi_srcs w !! i) as [sr|] eqn:E; [|done]. apply Hi in E. lia.
  - intros Hin. destruct (rd_todo _ _ _ Hr i Hin) as (? & E & _). apply Hi in E. lia.
  - intros rc w' Hrc HF. cbv beta. destruct (Z.eqb_spec rc 0); [done|]. cbn [negb]. apply wpx_ret. by left.
  - intros h oom Hq' Eh w' Hr'. cbn [Z.eqb negb]. rewrite app_assoc.
    eapply wpx_mono; [apply IH; try done|].
    + intros x sr. cbn. destruct (Z.eq_dec x i) as [->|Hx]; [lia|]. rewrite lookup_insert_ne by done.
      intros E. apply Hi in E. lia.
    + lia.
    + by apply Forall_inv_tail in Hst.
    + cbn. lia.
    + cbn [wi_src_list w' length update]. cbn. lia.
    + intros rc w2 [?|(-> & Hr2 & Hs2)]; [by left|right]. split_and!; [done|done|].
      eapply sourced_trans; [|exact Hs2]. split; [done|]. by eexists _, _, _, _.
Qed.

(** ** Starting the sources *)

(** The source [x] has its first statement, if it has any, and is in the heap
    then. *)
Lemma ready_start F w x todo ms stream sr' h oom :
  ready w (x :: todo) ms -> wi_srcs w !! x = Some (mk_src None false stream) ->
  src_ok sr' -> src_rest sr' = stream -> quiet F oom ->
  heap_ok (heap_less (<[x := sr']> (wi_srcs w))) h -> h_size h <= h_size (wi_src_heap w) + 1 ->
  (forall y, member h y <-> (y = x /\ src_entry sr' <> None) \/ member (wi_src_heap w) y) ->
  let w' := w <| wi_srcs ::= <[x := sr']> |> <| wi_oom := oom |> <| wi_src_heap := h |> in
  ready w' todo ms /\ sourced F w w' /\ wi_src_list w' = wi_src_list w.
Proof.
  intros [Hok Hs Hm He Hd Ht Hn Hp] Ex Hsr Erest Hq Hh Hsz Hmem w'. apply NoDup_cons in Hn as [Hx Hn].
  assert (x <> END_OF_KEY) as Hxe by (intros ->; congruence).
  split_and!; [|split; [done|]|done].
  2: { exists (<[x := sr']> (wi_srcs w)), h, (wi_src_list w), oom. by destruct w. }
  split; cbn; try done.
  - cbn [length] in Hs. lia.
  - intros y. rewrite Hmem, Hm. destruct (Z.eq_dec y x) as [->|Hy].
    + rewrite lookup_insert_eq, Ex. destruct (src_entry sr') eqn:E'; naive_solver.
    + rewrite lookup_insert_ne by done. naive_solver.
  - by rewrite lookup_insert_ne.
  - intros y sr. destruct (Z.eq_dec y x) as [->|Hy].
    + rewrite lookup_insert_eq. by intros [= <-] _.
    + rewrite lookup_insert_ne by done. intros E Hyt. apply (Hd y sr E). by apply not_elem_of_cons.
  - intros y Hy. destruct (Ht y) as (st & E & ?); [by right|]. exists st.
    rewrite lookup_insert_ne by (by intros ->). done.
  - by erewrite all_left_same.
Qed.

Lemma add_src_spec F w x todo ms :
  ready w (x :: todo) ms -> quiet F (wi_oom w) ->
  wpx F (vy_write_iterator_add_src x) (fun rc w' => (rc <> 0 /\ F) \/
    (rc = 0 /\ ready w' todo ms /\ sourced F w w' /\ wi_src_list w' = wi_src_list w)) w.
Proof.
  intros Hr Hq. pose proof Hr as [Hok Hs Hm _ _ Ht _ _].
  destruct (Ht x) as (stream & Ex & Hst); [by left|].
  assert (~ member (wi_src_heap w) x) as Hnm.
  { rewrite Hm. intros (? & ? & E & E'). rewrite Ex in E. by simplify_eq. }
  unfold vy_write_iterator_add_src. apply wpx_bind. unfold stream_next. apply wpx_bind.
  eapply wpx_get_src; [done|]. unfold set_src. apply wpx_modify. cbn [src_stream].
  set (sr' := match stream with [] => _ | _ => _ end).
  assert (src_ok sr' /\ src_rest sr' = stream) as [Hsr Erest].
  { unfold sr'. destruct stream as [|e st]; (split; [split; try done|done]). }
  assert (heap_ok (heap_less (<[x := sr']> (wi_srcs w))) (wi_src_heap w)) as Hok' by (by apply heap_ok_outside).
  apply wpx_bind. eapply wpx_get_src; [apply lookup_insert_eq|].
  destruct (src_entry sr') as [e|] eqn:E'.
  - unfold vy_source_heap_insert. apply wpx_bind, wpx_on_oom, wpx_fails; [done|]. intros b oom Hq' Hoom.
    apply wpx_bind, wpx_gets, wpx_on_heap. cbn [length] in Hs.
    eapply wp_mono; [apply (heap_insert_spec (heap_less (<[x := sr']> (wi_srcs w)))); [exact Hok'|exact Hnm|cbn; lia]|].
    intros rc h' [(-> & _ & ->)|(-> & Hok2 & Hsz & Hmem)]; [left; split; [done|by apply Hoom]|right].
    split; [done|]. eapply (ready_start F w x todo ms stream sr' h' oom); try done; [cbn in *; lia|].
    intros y. rewrite Hmem, E'. cbn. naive_solver.
  - apply wpx_ret. right. split; [done|].
    pose proof (ready_start F w x todo ms stream sr' (wi_src_heap w) (wi_oom w)) as H.
    cbn in H. destruct w. apply H; try done; [cbn; lia|]. rewrite E'. naive_solver.
Qed.

Lemma add_srcs_spec F todo : forall w ms,
  ready w todo ms -> quiet F (wi_oom w) ->
  wpx F (add_srcs todo) (fun rc w' => (rc <> 0 /\ F) \/
    (rc = 0 /\ ready w' [] ms /\ sourced F w w' /\ wi_src_list w' = wi_src_list w)) w.
Proof.
  induction todo as [|x todo IH]; intros w ms Hr Hq; cbn [add_srcs].
  { apply wpx_ret. right. split_and!; [done|done|by apply sourced_refl|done]. }
  apply wpx_bind. eapply wpx_mono; [by apply add_src_spec|].
  intros rc w1 [[Hrc HF]|(-> & Hr1 & Hs1 & El)].
  { destruct (Z.eqb_spec rc 0); [done|]. cbn [negb]. apply wpx_ret. by left. }
  cbn [Z.eqb negb]. eapply wpx_mono; [apply IH; [done|apply Hs1]|].
  intros rc w2 [?|(-> & Hr2 & Hs2 & El2)]; [by left|right].
  split_and!; [done|done|by eapply sourced_trans|congruence].
Qed.

(** The sources have been started. *)
Lemma ready_feeds w ms ms' :
  ready w [] ms' -> ms ≡ₚ ms' -> StronglySorted before ms -> Forall (fun s => 0 < s_lsn s) ms ->
  feeds None (wi_srcs w) (wi_src_heap w) ms.
Proof.
  intros [Hok Hs Hm He Hd _ _ Hp] Hms Hsort Hpos. split; try done.
  - cbn in *. lia.
  - intros x sr E _. apply (Hd x sr E), not_elem_of_nil.
  - rewrite Hms, Hp, delete_id by done. rewrite all_left_pending; [done|].
    intros x sr E. apply (Hd x sr E), not_elem_of_nil.
Qed.

(** Whatever a program does after a failure. *)
Lemma wpx_failed {A B} F (m : prog wi A) (f : A -> B) (Q : B -> wi -> Prop) w :
  F -> (forall a w', Q (f a) w') -> wpx F (a ← m; mret (f a)) Q w.
Proof. intros HF HQ. unfold wpx, mbind, prog_bind. destruct (m w) as [[a w']|]; [apply HQ|done]. Qed.

Lemma start_spec F w ms :
  ready w (wi_src_list w) ms -> quiet F (wi_oom w) ->
  wpx F vy_write_iterator_start (fun rc w' => (rc <> 0 /\ F) \/
    (rc = 0 /\ ready w' [] ms /\ sourced F w w' /\ wi_src_list w' = wi_src_list w)) w.
Proof.
  intros Hr Hq. unfold vy_write_iterator_start. apply wpx_bind, wpx_gets, wpx_bind.
  eapply wpx_mono; [by apply add_srcs_spec|]. intros rc w1 [[Hrc HF]|(-> & H)].
  - destruct (Z.eqb_spec rc 0); [done|]. cbn [negb].
    apply (wpx_failed F (remove_srcs (wi_src_list w)) (fun _ => -1)); [done|]. intros. by left.
  - apply wpx_ret. by right.
Qed.

(** ** Removing the sources *)

Lemma remove_srcs_spec F srcs : forall w,
  heap_ok (heap_less (wi_srcs w)) (wi_src_heap w) ->
  wpx F (remove_srcs srcs) (fun _ w' => exists h, w' = w <| wi_src_heap := h |> /\ heap_ok (heap_less (wi_srcs w)) h /\
    forall x, member h x <-> member (wi_src_heap w) x /\ x ∉ srcs) w.
Proof.
  induction srcs as [|x srcs IH]; intros w Hok; cbn [remove_srcs].
  { apply wpx_ret. exists (wi_src_heap w). split_and!; [by destruct w|done|]. intros x. split; [|tauto].
    intros ?. split; [done|apply not_elem_of_nil]. }
  apply wpx_bind. unfold vy_write_iterator_remove_src. apply wpx_bind, wpx_gets.
  pose proof (member_stray (wi_src_heap w) x ltac:(apply Hok)) as Hst.
  destruct (heap_node_is_stray x (wi_src_heap w)).
  - apply wpx_ret. eapply wpx_mono; [by apply IH|]. intros _ w' (h & -> & Hok' & Hm). exists h.
    split_and!; [done|done|]. intros y. rewrite Hm, not_elem_of_cons. naive_solver.
  - unfold vy_source_heap_delete. apply wpx_bind, wpx_gets, wpx_on_heap.
    assert (member (wi_src_heap w) x) as Hx.
    { destruct (member_dec (wi_src_heap w) x ltac:(apply Hok)) as [?|Hn]; [done|]. by apply Hst in Hn. }
    eapply wp_mono; [apply (heap_delete_spec (heap_less (wi_srcs w))); [exact Hok|exact Hx]|].
    intros _ h' (Hok' & _ & _ & Hmem). eapply wpx_mono; [by apply IH|].
    intros _ w' (h & -> & Hok2 & Hm). exists h. split_and!; [done|done|].
    intros y. rewrite Hm. cbn. rewrite Hmem, not_elem_of_cons. tauto.
Qed.

Lemma destroy_done vs (es : list (option stmt)) : exists rvs, destroy_read_views (done_views vs es) = Some rvs.
Proof.
  revert es. induction vs as [|v vs IH]; intros [|e es]; try (by exists []).
  destruct (IH es) as [rvs E]. unfold done_views in *. cbn. rewrite E. cbn. by eexists.
Qed.
Lemma stop_spec F w vs (es : list (option stmt)) :
  wi_read_views w = done_views vs es -> heap_ok (heap_less (wi_srcs w)) (wi_src_heap w) ->
  wpx F vy_write_iterator_stop (fun _ w' => wi_processed w' = wi_processed w /\ wi_oom w' = wi_oom w /\
    heap_ok (heap_less (wi_srcs w')) (wi_src_heap w') /\
    forall x, member (wi_src_heap w') x <-> member (wi_src_heap w) x /\ x ∉ wi_src_list w) w.
Proof.
  intros Hw Hok. unfold vy_write_iterator_stop. apply wpx_bind, wpx_gets. rewrite Hw.
  destruct (destroy_done vs es) as [rvs ->]. apply wpx_bind, wpx_modify, wpx_bind, wpx_gets, wpx_bind.
  eapply wpx_mono; [by apply remove_srcs_spec|]. intros _ w' (h & -> & Hok' & Hm). by apply wpx_modify.
Qed.

(** ** The run *)

Section Task.
Context (primary lst handler : bool) (views : list Z).
Abbreviation vs := (INT64_MAX :: rev views).
Context (Hvs : views_sorted vs).
Abbreviation good := (good primary).
Abbreviation outputs := (outputs primary lst vs).
Abbreviation logs := (logs primary handler).

(** The statements of one key leave at most as many. *)
Lemma output_length ks : good ks -> (length (key_output primary lst vs ks) <= length ks)%nat.
Proof.
  intros [Hin Ha]. pose proof (output_sorted primary lst vs ks Hin Hvs eq_refl Ha) as Hs.
  pose proof (output_origin primary lst vs ks Hin) as Ho.
  set (out := key_output primary lst vs ks) in *.
  assert (NoDup (s_lsn <$> out)) as Hnd.
  { clear - Hs. induction Hs as [|e out Hs IH Hf]; [constructor|]. cbn. constructor; [|done].
    intros Hin. apply list_elem_of_fmap in Hin as (x & E & Hx). rewrite Forall_forall in Hf. specialize (Hf x Hx). lia. }
  rewrite <- (length_fmap s_lsn out), <- (length_fmap s_lsn ks). apply submseteq_length, NoDup_submseteq; [done|].
  intros n Hn. apply list_elem_of_fmap in Hn as (e & -> & He). rewrite Forall_forall in Ho.
  destruct (or_lsn _ _ (Ho e He)) as (x & Hx & E & _). apply list_elem_of_fmap. by exists x.
Qed.
Lemma outputs_length ms : Forall good (groups ms) -> (length (outputs ms) <= length ms)%nat.
Proof.
  intros Hg. unfold outputs. rewrite <- (groups_concat ms) at 2.
  induction Hg as [|ks gs Hk Hg IH]; [done|]. rewrite bind_cons. cbn [concat]. rewrite !length_app.
  pose proof (output_length ks Hk). lia.
Qed.

(** The statements of the sources: [ms] in the order of the merge. *)
Record task_input (streams : list (list stmt)) ms : Prop := {
  ti_perm : ms ≡ₚ concat streams;
  ti_sorted : StronglySorted before ms;
  ti_streams : Forall (StronglySorted before) streams;
  ti_pos : Forall (fun s => 0 < s_lsn s) ms;
  ti_good : Forall good (groups ms);
  ti_small : Z.of_nat (length streams) + 1 < 2 ^ 31;
}.

Lemma new_ready oom : ready (vy_write_iterator_new primary lst views handler oom : wi) [] [].
Proof.
  split; cbn; try done.
  - by apply create_ok.
  - intros x. split; [intros (i & Hi & _); cbn in Hi; lia|intros (? & ? & E & _)]. by rewrite lookup_empty in E.
  - intros x Hx. by apply elem_of_nil in Hx.
  - by apply NoDup_nil.
Qed.

Lemma new_stream F w w0 ms :
  ready w [] ms -> w0 = (vy_write_iterator_new primary lst views handler (wi_oom w0) : wi) -> sourced F w0 w ->
  forall ms', ms' ≡ₚ ms -> StronglySorted before ms' -> Forall (fun s => 0 < s_lsn s) ms' -> Forall good (groups ms') ->
  stream_left primary lst handler vs F (wi_src_list w) w (outputs ms') (logs [] ms').
Proof.
  intros Hr E (Hq & srcs & h & l & oom & Ew) ms' Hp Hs Hpos Hg. exists [], [], None, ms'.
  rewrite E in Ew. split_and!; [|split; [by eapply ready_feeds|done|by rewrite Ew|by rewrite Ew in *]|done].
  split; [|by rewrite Ew|by exists []|done]. split; [|by rewrite Ew].
  exists (map (fun _ => None) vs), 0%nat. rewrite Ew. split_and!; [|by rewrite length_map|done|done|].
  - cbn. f_equal. clear. induction (rev views) as [|v l IH]; [done|]. cbn. f_equal. done.
  - clear. cbn. induction (rev views); done.
Qed.

Lemma write_run_spec F w w0 ms ms' :
  ready w (wi_src_list w) ms -> w0 = (vy_write_iterator_new primary lst views handler (wi_oom w0) : wi) ->
  sourced F w0 w -> ms' ≡ₚ ms -> StronglySorted before ms' -> Forall (fun s => 0 < s_lsn s) ms' ->
  Forall good (groups ms') ->
  wpx F vy_task_write_run (fun r w' => (r = None /\ F) \/
    (r = Some (outputs ms') /\ quiet F (wi_oom w') /\ wi_processed w' = logs [] ms' /\ h_size (wi_src_heap w') = 0)) w.
Proof.
  intros Hr E0 Hs0 Hp Hs Hpos Hg. unfold vy_task_write_run. apply wpx_bind.
  eapply wpx_mono; [apply start_spec; [done|apply Hs0]|]. intros rc w1 [[Hrc HF]|(-> & Hr1 & Hs1 & El)].
  { destruct (Z.eqb_spec rc 0); [done|]. cbn [negb]. apply wpx_ret. by left. }
  cbn [Z.eqb negb]. apply wpx_bind, wpx_gets, wpx_bind.
  pose proof (ready_feeds w1 ms' ms Hr1 Hp Hs Hpos) as Hf1. rewrite (left_count_pending w1 None ms') by done.
  pose proof (new_stream F w1 w0 ms Hr1 E0 (sourced_trans _ _ _ _ Hs0 Hs1) ms' Hp Hs Hpos Hg) as Hst.
  eapply wpx_mono.
  { eapply (write_run_loop_spec primary lst handler vs Hvs); [done|done|exact Hst|].
    pose proof (outputs_length ms' Hg). lia. }
  intros [rc out] w2 [[Hrc HF]|([= -> ->] & Hh & Hsl)].
  { destruct (Z.eqb_spec rc 0); [done|].
    apply (wpx_failed F vy_write_iterator_stop (fun _ => None)); [done|]. intros. by left. }
  destruct Hh as [(es & j & Hv & _) _]. destruct Hsl as [Hf2 _ Hlog Hq2]. apply wpx_bind.
  eapply wpx_mono; [eapply stop_spec; [exact Hv|apply Hf2]|]. intros _ w3 (Hlog3 & Hq3 & Hok3 & Hm3).
  apply wpx_ret. right. split_and!; [done|rewrite Hq3; apply Hq2|by rewrite Hlog3|].
  pose proof (fd_heap _ _ _ _ Hf2) as Hok2. destruct (feeds_top_nil _ _ Hf2) as [_ Hz].
  destruct (Z.eq_dec (h_size (wi_src_heap w3)) 0) as [|Hne]; [done|]. exfalso.
  destruct Hok3 as [[_ Hsz _ _ _] _]. destruct (Hm3 (at_pos (wi_src_heap w3) 0)) as [Hm _].
  destruct Hm as [(i & Hi & _) _]; [exists 0; split; [lia|done]|lia].
Qed.

(** The task from the creation of the iterator on. *)
Lemma write_task_spec streams ms oom :
  task_input streams ms ->
  wpx (true ∈ oom) (write_task streams) (fun r w' => (r = None /\ true ∈ oom) \/
    (r = Some (outputs ms) /\ wi_processed w' = logs [] ms /\ h_size (wi_src_heap w') = 0))
    (vy_write_iterator_new primary lst views handler oom).
Proof.
  intros [Hp Hs Hst Hpos Hg Hsm]. set (w0 := vy_write_iterator_new primary lst views handler oom).
  unfold write_task. apply wpx_bind.
  assert (quiet (true ∈ oom) (wi_oom w0)) as Hq by (intros H; exact H).
  eapply wpx_mono.
  { apply (new_srcs_spec _ streams (END_OF_KEY + 1) w0 []); [apply new_ready|done| |done|done|done|].
    { intros x sr E. cbn in E. by rewrite lookup_empty in E. }
    cbn. lia. }
  intros rc w1 [[Hrc HF]|(-> & Hr1 & Hs1)].
  { destruct (Z.eqb_spec rc 0); [done|]. cbn [negb]. apply wpx_ret. by left. }
  cbn [Z.eqb negb]. eapply wpx_mono; [by apply (write_run_spec _ w1 w0 (concat streams) ms)|]. intros r w' [[? ?]|(? & _ & ? & ?)]; [by left|by right].
Qed.
End Task.
End Run.
