(* ===== verification/VyCompaction.v ===== *)
(** * What a dump or compaction preserves

    The statements of [VyRun.write_task_spec], read back by key: every read
    view that is open sees the same value of every key before and after. *)

From stdpp Require Import list sorting gmap.
From S2P Require Import Prelude Heap VyStmt VyVisible VyViews VyDeferred VyWriteIterator VyMerge.
From S2P Require Import VyLoop VyOutput VyRun.

Open Scope Z_scope.

Section Compaction.
Context {T O : Type} `{!Tuples T O, !TuplesLaws T O}.
Abbreviation stmt := (vy_stmt T O).
Implicit Types (s e h d : stmt) (ks ms hs out : list stmt) (t : T) (b : option T).

(** ** The key of the output *)

Definition at_key t (s : stmt) : Prop := same_key t (s_tuple s).
#[export] Instance at_key_dec t s : Decision (at_key t s).
Proof. unfold at_key. apply _. Defined.

Lemma upsert_result_at t h (old : option stmt) :
  at_key t h -> (forall p, old = Some p -> at_key t p) -> at_key t (upsert_result h old).
Proof.
  intros Hh Hp. unfold at_key in *. etransitivity; [exact Hh|]. apply upsert_result_key.
  intros p E. etransitivity; [symmetry; by apply Hp|exact Hh].
Qed.
Lemma squash_at t hs h : at_key t h -> Forall (at_key t) hs -> at_key t (pure_squash hs h).
Proof.
  intros Hh Hs. revert h Hh. induction Hs as [|h' hs H1 Hs IH]; intros h Hh; [done|].
  apply IH. apply upsert_result_at; [done|]. by intros p [= <-].
Qed.
Lemma merge_at t lst first dd (prev : option stmt) hist e :
  Forall (at_key t) hist -> (forall p, prev = Some p -> at_key t p) ->
  pure_merge lst first dd prev hist = Some e -> at_key t e.
Proof.
  intros Hh Hp. destruct hist as [|h hs]; [done|]. inversion Hh as [|?? H1 H2]; subst. cbn [pure_merge].
  destruct (both_deletes prev h); [done|].
  assert (at_key t (pure_squash hs (pure_first lst prev h))) as Hs.
  { apply squash_at; [|done]. unfold pure_first. destruct (_ && _); [by apply upsert_result_at|done]. }
  destruct (pure_clear_fields dd (pure_squash hs (pure_first lst prev h))) as (_ & _ & Cu & _).
  unfold at_key in *. destruct prev; [intros [= <-]; by rewrite Cu|].
  intros Ec. apply pure_convert_fields in Ec as (_ & Fu & _). by rewrite Fu, Cu.
Qed.
Lemma key_views_at t lst first dd vs ks :
  Forall (at_key t) ks -> Forall (at_key t) (key_views lst first dd vs ks).
Proof.
  intros Hk. induction vs as [|v vs IH]; [constructor|]. rewrite key_views_cons.
  destruct (pure_merge _ _ _ _ _) as [e|] eqn:Em; [|done]. constructor; [|done].
  eapply merge_at; [| |exact Em].
  - eapply Forall_impl; [apply view_history_range|]. intros s [_ Hs]. rewrite Forall_forall in Hk. by apply Hk.
  - intros p E. rewrite Forall_forall in IH. apply IH. destruct (key_views _ _ _ vs ks); [done|].
    injection E as <-. by left.
Qed.
Lemma output_at t primary lst vs ks :
  key_input primary ks -> Forall (at_key t) ks -> Forall (at_key t) (key_output primary lst vs ks).
Proof.
  intros Hin Hk. unfold key_output. apply Forall_app. split; [by apply key_views_at|].
  destruct (key_dd primary lst ks) as [d|] eqn:Ed; [|constructor]. destruct (returned _ _); [constructor|].
  constructor; [|constructor]. apply dd_oldest in Ed as ([ks1 ->] & _); [|done].
  apply Forall_app in Hk as [_ Hk]. by apply Forall_inv in Hk.
Qed.

(** ** The oldest statement of the output *)

Lemma key_views_last_insert lst dd vs ks e :
  list.last (key_views lst false dd vs ks) = Some e -> s_type e <> IPROTO_INSERT.
Proof.
  induction vs as [|v vs IH]; [done|]. rewrite key_views_cons.
  destruct (pure_merge _ _ _ _ _) as [e'|] eqn:Em; [|done].
  destruct (key_views lst false dd vs ks) as [|x l] eqn:E; [|by rewrite last_cons_cons].
  intros [= <-]. destruct (view_history lst (next_vlsn vs) v ks) as [|h hs]; [done|]. cbn in Em.
  unfold pure_convert in Em. cbn in Em. destruct (has_type IPROTO_INSERT _) eqn:Ei; injection Em as <-; [done|].
  by apply has_type_falseP.
Qed.

(** An INSERT says that there was nothing before it; the oldest statement of
    the output is an INSERT only if that of the input says so. *)
Lemma output_last_insert primary lst vs ks e :
  key_input primary ks -> list.last (key_output primary lst vs ks) = Some e -> s_type e = IPROTO_INSERT ->
  first_insert primary ks = true.
Proof.
  intros Hin El Ht. apply not_false_iff_true. intros Ef. unfold key_output in El.
  destruct (key_dd primary lst ks) as [d|] eqn:Ed; [destruct (returned d _)|]; rewrite ?app_nil_r in El.
  - unfold key_results in El. rewrite Ef in El. by apply key_views_last_insert in El.
  - rewrite last_snoc in El. injection El as <-. destruct (dd_oldest _ _ _ Hin d Ed) as ([ks1 Ek] & Hf & _).
    pose proof (ki_flag _ _ Hin) as Hk. rewrite Forall_forall in Hk.
    destruct (Hk d); [rewrite Ek; set_solver|done|congruence|congruence].
  - unfold key_results in El. rewrite Ef in El. by apply key_views_last_insert in El.
Qed.

(** ** Reading a sorted list of statements by key *)

Definition of_key t (ss : list stmt) : list stmt := filter (at_key t) ss.

Lemma of_key_app t ss ss' : of_key t (ss ++ ss') = of_key t ss ++ of_key t ss'.
Proof. apply filter_app. Qed.
Lemma of_key_all t ss : Forall (at_key t) ss -> of_key t ss = ss.
Proof. apply filter_all. Qed.
Lemma of_key_none t ss : Forall (fun s => ~ at_key t s) ss -> of_key t ss = [].
Proof. apply filter_none. Qed.

Lemma first_group_key t s rest ms :
  first_group s rest ms ->
  (at_key t s /\ of_key t (s :: rest ++ ms) = s :: rest /\ of_key t ms = []) \/
  (~ at_key t s /\ of_key t (s :: rest ++ ms) = of_key t ms).
Proof.
  intros [Fs Fa]. rewrite app_comm_cons, of_key_app.
  destruct (decide (at_key t s)) as [Hk|Hk]; [left|right]; unfold at_key in *.
  - assert (of_key t ms = []) as ->.
    { apply of_key_none. eapply Forall_impl; [exact Fa|]. intros x Hx E. unfold at_key in E. cbn in Hx.
      assert (same_key (s_tuple s) (s_tuple x)) as E' by (etransitivity; [symmetry; exact Hk|exact E]).
      unfold same_key in E'. lia. }
    split_and!; [done| |done]. rewrite app_nil_r. apply of_key_all. constructor; [done|].
    eapply Forall_impl; [exact Fs|]. intros x Hx. unfold at_key. by transitivity (s_tuple s).
  - split; [done|]. rewrite of_key_none; [done|]. constructor; [done|].
    eapply Forall_impl; [exact Fs|]. intros x Hx E. apply Hk. etransitivity; [exact E|]. by symmetry.
Qed.

Section Outputs.
Context (primary lst handler : bool) (vs : list Z) (Hvs : views_sorted vs) (Hmax : next_vlsn vs = INT64_MAX).
Abbreviation good := (good primary).
Abbreviation output := (key_output primary lst vs).
Abbreviation outputs := (outputs primary lst vs).

Lemma groups_ind (P : list stmt -> Prop) :
  P [] ->
  (forall s rest ms, first_group s rest ms -> good (s :: rest) -> StronglySorted before ms -> Forall good (groups ms) ->
     groups (s :: rest ++ ms) = (s :: rest) :: groups ms -> P ms -> P (s :: rest ++ ms)) ->
  forall ms, StronglySorted before ms -> Forall good (groups ms) -> P ms.
Proof.
  intros H0 HS ms. remember (length ms) as n eqn:En. revert ms En.
  induction n as [n IH] using lt_wf_ind. intros ms -> Hs Hg. destruct ms as [|s ms]; [done|].
  destruct (groups_split s ms Hs) as (rest & ms' & E & Eg & Hfg & Hs'). rewrite Eg in Hg. rewrite E in *.
  pose proof (Forall_inv Hg). apply Forall_inv_tail in Hg. apply HS; try done.
  apply (IH (length ms')); try done. injection E as ->. cbn. rewrite length_app. lia.
Qed.
Lemma outputs_cons s rest ms :
  groups (s :: rest ++ ms) = (s :: rest) :: groups ms -> outputs (s :: rest ++ ms) = output (s :: rest) ++ outputs ms.
Proof. unfold VyOutput.outputs. by intros ->. Qed.

Lemma key_views_nil first dd vs' : key_views lst first dd vs' ([] : list stmt) = [].
Proof. induction vs' as [|v vs' IH]; [done|]. by rewrite key_views_cons, IH. Qed.
Lemma output_nil : output [] = [].
Proof. unfold key_output, key_results, key_dd. rewrite key_views_nil. by destruct (primary && _). Qed.

Lemma outputs_of_key t ms :
  StronglySorted before ms -> Forall good (groups ms) -> of_key t (outputs ms) = output (of_key t ms).
Proof.
  revert ms. apply groups_ind; [cbn; by rewrite output_nil|]. intros s rest ms Hfg [Hin _] _ _ Eg IH.
  rewrite (outputs_cons _ _ _ Eg), of_key_app, IH.
  assert (Forall (at_key (s_tuple s)) (output (s :: rest))) as Ho.
  { apply output_at; [done|]. constructor; [|apply Hfg]. unfold at_key. reflexivity. }
  destruct (first_group_key t s rest ms Hfg) as [(Hk & -> & ->)|(Hk & ->)].
  - rewrite output_nil, app_nil_r. apply of_key_all. eapply Forall_impl; [exact Ho|].
    intros x Hx. unfold at_key in *. by transitivity (s_tuple s).
  - rewrite of_key_none; [done|]. eapply Forall_impl; [exact Ho|]. intros x Hx E. apply Hk.
    unfold at_key in *. etransitivity; [exact E|]. by symmetry.
Qed.

Lemma of_key_good t ms :
  StronglySorted before ms -> Forall good (groups ms) -> of_key t ms = [] \/ good (of_key t ms).
Proof.
  revert ms. apply groups_ind; [by left|]. intros s rest ms Hfg Hg _ _ _ IH.
  destruct (first_group_key t s rest ms Hfg) as [(_ & -> & _)|(_ & ->)]; [by right|done].
Qed.

Lemma outputs_key ms e :
  StronglySorted before ms -> Forall good (groups ms) -> e ∈ outputs ms ->
  exists s, s ∈ ms /\ same_key (s_tuple e) (s_tuple s).
Proof.
  intros Hs Hg He. assert (e ∈ of_key (s_tuple e) (outputs ms)) as Hk.
  { apply list_elem_of_filter. split; [|done]. unfold at_key. reflexivity. }
  rewrite outputs_of_key in Hk by done. destruct (of_key (s_tuple e) ms) as [|s ks] eqn:E.
  { rewrite output_nil in Hk. by apply elem_of_nil in Hk. }
  assert (s ∈ of_key (s_tuple e) ms) as Hin by (rewrite E; by left). apply list_elem_of_filter in Hin. naive_solver.
Qed.

(** The output is sorted again. *)
Definition strictly (s s' : stmt) : Prop :=
  tuple_compare (s_tuple s) (s_tuple s') < 0 \/ (same_key (s_tuple s) (s_tuple s') /\ s_lsn s' < s_lsn s).

Lemma outputs_strict ms :
  StronglySorted before ms -> Forall good (groups ms) -> StronglySorted strictly (outputs ms).
Proof.
  revert ms. apply groups_ind; [constructor|]. intros s rest ms Hfg [Hin Ha] Hs Hg Eg IH.
  rewrite (outputs_cons _ _ _ Eg). 
  assert (Forall (at_key (s_tuple s)) (output (s :: rest))) as Ho.
  { apply output_at; [done|]. constructor; [|apply Hfg]. unfold at_key. reflexivity. }
  apply StronglySorted_app_2; [| |done].
  - intros x y Hx Hy. left. rewrite Forall_forall in Ho. specialize (Ho x Hx). unfold at_key, same_key in Ho.
    destruct (outputs_key ms y Hs Hg Hy) as (z & Hz & Hyz). unfold same_key in Hyz.
    pose proof (fg_above _ _ _ Hfg) as Fa. rewrite Forall_forall in Fa. specialize (Fa z Hz). cbn in Fa.
    pose proof (compare_flip (s_tuple s) (s_tuple x)). pose proof (compare_flip (s_tuple x) (s_tuple s)).
    pose proof (compare_flip (s_tuple y) (s_tuple z)). pose proof (compare_flip (s_tuple z) (s_tuple y)).
    apply (compare_le_lt_trans _ (s_tuple s)); [lia|]. apply (compare_lt_trans _ (s_tuple z)); lia.
  - pose proof (output_sorted primary lst vs _ Hin Hvs Hmax Ha) as Hl.
    clear - TuplesLaws0 Ho Hl. induction Hl as [|e out Hl IH Hf]; [constructor|]. inversion Ho as [|?? H1 H2]; subst.
    constructor; [by apply IH|]. rewrite Forall_forall in *. intros x Hx. right.
    split; [|by apply Hf]. specialize (H2 x Hx). unfold at_key in *.
    transitivity (s_tuple s); [by symmetry|done].
Qed.
Lemma outputs_sorted ms :
  StronglySorted before ms -> Forall good (groups ms) -> StronglySorted before (outputs ms).
Proof.
  intros Hs Hg. eapply StronglySorted_weaken; [|by apply outputs_strict]. intros x y [?|[? ?]]; [by left|right].
  split; [done|by left].
Qed.

(** ** Visibility *)

(** The same for statements of one key, on any tuple [b] below. *)
Lemma output_sees b v ks :
  good ks -> ((length vs <= 1)%nat \/ calm ks) -> v ∈ vs -> (lst = true -> b = None) ->
  (first_insert primary ks = true -> b = None \/ Forall (fun s => v < s_lsn s) ks) ->
  visible b v (output ks) = visible b v ks.
Proof.
  intros [Hin _] Hg Hv Hl Hf. destruct (decide (Forall (fun s => v < s_lsn s) ks)) as [Hn|Hn].
  - unfold visible. rewrite !filter_none; [done| |].
    + eapply Forall_impl; [exact Hn|]. cbn. lia.
    + apply Forall_forall. intros e He. pose proof (output_origin primary lst vs ks Hin) as Ho.
      rewrite Forall_forall in Ho. destruct (or_lsn _ _ (Ho e He)) as (n & Hn' & -> & _).
      rewrite Forall_forall in Hn. specialize (Hn n Hn'). lia.
  - apply output_visible; [done|done|done|done| |done]. intros E. by destruct (Hf E).
Qed.
Lemma outputs_see t b v ms :
  StronglySorted before ms -> Forall good (groups ms) -> ((length vs <= 1)%nat \/ calm (of_key t ms)) ->
  v ∈ vs -> (lst = true -> b = None) ->
  (first_insert primary (of_key t ms) = true -> b = None \/ Forall (fun s => v < s_lsn s) (of_key t ms)) ->
  visible b v (of_key t (outputs ms)) = visible b v (of_key t ms).
Proof.
  intros Hs Hg Hc Hv Hl Hf. rewrite outputs_of_key by done.
  destruct (of_key_good t ms Hs Hg) as [E|Hgd]; [by rewrite E, output_nil|]. by apply output_sees.
Qed.
End Outputs.
End Compaction.
