(* ===== verification/VyTheorems.v ===== *)
(** * Theorems on dump and compaction *)

From stdpp Require Import list sorting gmap.
From S2P Require Import Prelude Heap VyStmt VyVisible VyViews VyDeferred VyWriteIterator VyMerge.
From S2P Require Import VyLoop VyOutput VyRun VyCompaction.

Open Scope Z_scope.

Section Theorems.
Context {T O : Type} `{!Tuples T O, !TuplesLaws T O}.
Abbreviation stmt := (vy_stmt T O).
Implicit Types (s e h d : stmt) (ks ms hs out : list stmt) (t : T) (b : option T).

(** Statements with different LSNs, without the flag of a deferred DELETE or
    with an oldest statement that is not an UPSERT. *)
Lemma plain_input primary ks :
  StronglySorted (fun s s' => s_lsn s' < s_lsn s) ks -> Forall (fun s => 0 <= s_lsn s <= INT64_MAX) ks ->
  Forall upsert_ok ks -> Forall (fun s => flagged s -> s_type s = IPROTO_DELETE \/ s_type s = IPROTO_REPLACE) ks ->
  Forall (fun s => ~ flagged s) ks \/ (forall s, list.last ks = Some s -> terminal s) -> key_input primary ks.
Proof.
  intros Hs Hp Ho Hf Hd. split; try done.
  - eapply StronglySorted_weaken; [|exact Hs]. intros s s' H. by left.
  - intros ks1 d ks2 -> Hfl Hu. destruct Hd as [Hd|Hd].
    + apply Forall_app in Hd as [_ Hd]. by apply Forall_inv in Hd.
    + destruct ks2 as [|u ks2 _] using rev_ind; [done|]. exfalso.
      apply Forall_app in Hu as [_ Hu]. apply Forall_inv in Hu. apply (Hd u); [|done].
      change (d :: ks2 ++ [u]) with ((d :: ks2) ++ [u]). by rewrite app_assoc, last_snoc.
Qed.

(** The same as a test. *)
Fixpoint ssorted (f : stmt -> stmt -> bool) (ks : list stmt) : bool :=
  match ks with [] => true | s :: ks => forallb (f s) ks && ssorted f ks end.
Definition strict : list stmt -> bool := ssorted (fun s s' => s_lsn s' <? s_lsn s).
Definition merged_order : list stmt -> bool := ssorted (fun s s' =>
  let c := tuple_compare (s_tuple s) (s_tuple s') in
  (c <? 0) || ((c =? 0) && ((s_lsn s' <? s_lsn s) || ((s_lsn s' =? s_lsn s) && (delete_rank s <? delete_rank s'))))).
Definition fit (s : stmt) : bool :=
  (0 <=? s_lsn s) && (s_lsn s <=? INT64_MAX) && bool_decide (s_addr s <> None) &&
  (negb (has_type IPROTO_UPSERT s) || negb (no_ops s)) &&
  (negb (has_flag VY_STMT_DEFERRED_DELETE s) || has_type IPROTO_DELETE s || has_type IPROTO_REPLACE s).
Definition plain (ks : list stmt) : bool :=
  strict ks && forallb fit ks &&
  (forallb (fun s => negb (has_flag VY_STMT_DEFERRED_DELETE s)) ks ||
   match list.last ks with Some s => negb (has_type IPROTO_UPSERT s) | None => true end).

Lemma forallb_Forall (P : stmt -> Prop) (f : stmt -> bool) ks :
  (forall s, f s = true -> P s) -> forallb f ks = true -> Forall P ks.
Proof.
  intros H Hf. apply Forall_forall. intros s Hs. apply H. rewrite forallb_forall in Hf. by apply Hf, list_elem_of_In.
Qed.
Lemma ssorted_sorted (R : stmt -> stmt -> Prop) f ks :
  (forall s s', f s s' = true -> R s s') -> ssorted f ks = true -> StronglySorted R ks.
Proof.
  intros HR. induction ks as [|s ks IH]; intros H; [constructor|]. cbn in H. apply andb_true_iff in H as [H1 H2].
  constructor; [by apply IH|]. eapply forallb_Forall; [|exact H1]. intros s'. apply HR.
Qed.
Lemma strict_sorted ks : strict ks = true -> StronglySorted (fun s s' => s_lsn s' < s_lsn s) ks.
Proof. apply ssorted_sorted. intros s s'. apply Z.ltb_lt. Qed.
Lemma merged_order_sorted ks : merged_order ks = true -> StronglySorted before ks.
Proof. apply ssorted_sorted. intros s s' H. unfold before, same_key. cbn zeta in H. lia. Qed.
Lemma fit_spec s :
  fit s = true -> 0 <= s_lsn s <= INT64_MAX /\ s_addr s <> None /\ upsert_ok s /\
    (flagged s -> s_type s = IPROTO_DELETE \/ s_type s = IPROTO_REPLACE).
Proof.
  unfold fit. rewrite !andb_true_iff, bool_decide_eq_true. intros [[[[H1 H2] H3] H4] H5]. split_and!; try lia; try done.
  - intros Ht. rewrite has_type_eq in H4 by done. unfold no_ops in H4. by destruct (s_ops s).
  - intros Hf. rewrite Hf in H5. cbn in H5. rewrite orb_true_iff, !has_typeP in H5. done.
Qed.
Lemma plain_good primary ks : plain ks = true -> good primary ks.
Proof.
  intros H. apply andb_true_iff in H as [H Hd]. apply andb_true_iff in H as [Hs Hf].
  apply (forallb_Forall _ _ _ fit_spec) in Hf.
  split; [apply plain_input; [by apply strict_sorted| | | |]|]; try (eapply Forall_impl; [exact Hf|]; cbv beta; tauto).
  apply orb_true_iff in Hd as [Hd|Hd]; [left|right].
  - eapply forallb_Forall; [|exact Hd]. intros s E H. apply negb_true_iff in E. unfold flagged in H. by rewrite H in E.
  - intros s E. rewrite E in Hd. apply negb_true_iff in Hd. by apply has_type_falseP.
Qed.

(** ** Calls of the deferred DELETE handler *)

(** [d] has overwritten the tuple of [s], which was not a DELETE. *)
Definition overwritten ks (s d : stmt) : Prop := exists ks1 us ks2,
  ks = ks1 ++ d :: us ++ s :: ks2 /\ Forall (fun u => s_type u = IPROTO_UPSERT) us /\
  flagged d /\ terminal d /\ terminal s /\ s_type s <> IPROTO_DELETE.

Lemma overwritten_snoc ks x s d :
  overwritten (ks ++ [x]) s d <->
  overwritten ks s d \/
  (s = x /\ terminal s /\ s_type s <> IPROTO_DELETE /\ exists ks1 us, ks = ks1 ++ d :: us /\
   Forall (fun u => s_type u = IPROTO_UPSERT) us /\ flagged d /\ terminal d).
Proof.
  split.
  - intros (ks1 & us & ks2 & E & Hu & Hd & Htd & Hts & Hn).
    destruct ks2 as [|k ks2 _] using rev_ind.
    + rewrite app_comm_cons, app_assoc in E. apply app_inj_tail in E as [-> ->]. right. split_and!; try done. eauto 10.
    + replace (ks1 ++ d :: us ++ s :: ks2 ++ [k]) with ((ks1 ++ d :: us ++ s :: ks2) ++ [k]) in E
        by (by rewrite <- !app_assoc; cbn; rewrite <- app_assoc).
      apply app_inj_tail in E as [-> ->]. left. exists ks1, us, ks2. done.
  - intros [(ks1 & us & ks2 & -> & H)|(-> & Hts & Hn & ks1 & us & -> & H)].
    + exists ks1, us, (ks2 ++ [x]). split; [|done]. by rewrite <- !app_assoc; cbn; rewrite <- app_assoc.
    + exists ks1, us, []. rewrite <- app_assoc. cbn. naive_solver.
Qed.

(** The statement that waits for its tuple. *)
Lemma deferred_fst_spec handler l ks d :
  fst (deferred handler l ks) = Some d <->
  exists ks1 us, ks = ks1 ++ d :: us /\ Forall (fun u => s_type u = IPROTO_UPSERT) us /\ flagged d /\ terminal d.
Proof.
  split; [intros E; apply deferred_pending in E; naive_solver|].
  intros (ks1 & us & -> & Hu & Hd & Ht). unfold deferred. rewrite foldl_app. cbn [foldl].
  assert (forall l', fst l' = Some d -> fst (foldl (deferred_step handler) l' us) = Some d) as Hus.
  { clear - Hu. induction Hu as [|u us E Hu IH]; intros l' H; [done|]. cbn. apply IH.
    unfold deferred_step. by rewrite has_type_eq. }
  apply Hus. unfold deferred_step. rewrite has_type_ne by done. cbn. by rewrite Hd.
Qed.

Lemma deferred_log l ks s d :
  (s, d) ∈ snd (deferred true l ks) <-> (s, d) ∈ l \/ overwritten ks s d.
Proof.
  induction ks as [|x ks IH] using rev_ind.
  { cbn. split; [by left|]. intros [?|(ks1 & us & ks2 & E & _)]; [done|]. by destruct ks1. }
  rewrite overwritten_snoc. unfold deferred in *. rewrite foldl_app. cbn. unfold deferred_step at 1.
  pose proof (deferred_fst_spec true l ks d) as Hd. unfold deferred in Hd.
  destruct (has_type IPROTO_UPSERT x) eqn:Eu.
  { rewrite IH. apply has_typeP in Eu. split; [tauto|]. intros [?|[?|(-> & Ht & _)]]; auto. done. }
  apply has_type_falseP in Eu. cbn.
  destruct (fst (foldl (deferred_step true) (None, l) ks)) as [d'|] eqn:Ed.
  - destruct (has_type IPROTO_DELETE x) eqn:Edel; cbn.
    + rewrite IH. apply has_typeP in Edel. split; [tauto|]. intros [?|[?|(-> & _ & Hn & _)]]; auto. done.
    + rewrite elem_of_app, list_elem_of_singleton, IH. apply has_type_falseP in Edel.
      split; [|intros [?|[?|(-> & _ & _ & H)]]; auto; apply Hd in H; right; congruence].
      intros [?|[= -> ->]]; [tauto|]. right. right. split_and!; try done. by apply Hd.
  - rewrite IH. split; [tauto|]. intros [?|[?|(-> & _ & _ & H)]]; auto. apply Hd in H. done.
Qed.

Lemma logs_spec primary l ms s d :
  (s, d) ∈ logs primary true l ms <->
  (s, d) ∈ l \/ (primary = true /\ exists ks, ks ∈ groups ms /\ overwritten ks s d).
Proof.
  unfold logs. revert l. induction (groups ms) as [|ks gs IH]; intros l; cbn.
  { split; [tauto|]. intros [?|(_ & ? & H & _)]; [done|]. by apply elem_of_nil in H. }
  rewrite IH. unfold key_deferred. destruct primary; cbn.
  - rewrite deferred_log. setoid_rewrite elem_of_cons. naive_solver.
  - naive_solver.
Qed.

(** ** The groups are the keys *)

Lemma groups_keys primary ms (P : list stmt -> Prop) :
  StronglySorted before ms -> Forall (good primary) (groups ms) ->
  (exists ks, ks ∈ groups ms /\ P ks) <-> (exists t, of_key t ms <> [] /\ P (of_key t ms)).
Proof.
  revert ms. apply groups_ind.
  { split; [intros (? & H & _); by apply elem_of_nil in H|intros (t & H & _); done]. }
  intros s rest ms Hfg _ _ _ -> IH. setoid_rewrite elem_of_cons.
  assert (at_key (s_tuple s) s) as Hs by (unfold at_key; reflexivity). split.
  - intros (ks & [->|Hin] & HP).
    + exists (s_tuple s). destruct (first_group_key (s_tuple s) s rest ms Hfg) as [(_ & -> & _)|[? _]]; done.
    + destruct IH as [IH _]. destruct (IH (ex_intro _ ks (conj Hin HP))) as (t & Hne & Ht). exists t.
      destruct (first_group_key t s rest ms Hfg) as [(_ & _ & E)|(_ & ->)]; [by rewrite E in Hne|done].
  - intros (t & Hne & Ht). destruct (first_group_key t s rest ms Hfg) as [(_ & E & _)|(_ & E)]; rewrite E in *.
    + exists (s :: rest). auto.
    + destruct IH as [_ IH]. destruct (IH (ex_intro _ t (conj Hne Ht))) as (ks & ? & ?). eauto.
Qed.

Lemma overwritten_nil s d : ~ overwritten [] s d.
Proof. intros (ks1 & us & ks2 & E & _). by destruct ks1. Qed.

Lemma key_views_length lst first dd vs ks : (length (key_views lst first dd vs ks) <= length vs)%nat.
Proof.
  induction vs as [|v vs IH]; [done|]. rewrite key_views_cons.
  destruct (pure_merge _ _ _ _ _); cbn; lia.
Qed.

Section Task.
Context (primary lst handler : bool) (views : list Z) (streams : list (list stmt)) (ms : list stmt) (oom : list bool).
Context (Hvs : views_sorted (INT64_MAX :: rev views)) (Hin : task_input primary streams ms).
Abbreviation task := (write_task streams (vy_write_iterator_new primary lst views handler oom)).

Lemma task_done (P : list stmt -> vy_write_iterator T O -> Prop) :
  (forall w, wi_processed w = logs primary handler [] ms -> h_size (wi_src_heap w) = 0 ->
     P (outputs primary lst (INT64_MAX :: rev views) ms) w) ->
  match task with
  | Done (Some out, w) => P out w
  | _ => true ∈ oom
  end.
Proof.
  intros HP. pose proof (write_task_spec primary lst handler views Hvs streams ms oom Hin) as H.
  unfold wpx in H. destruct task as [[[out|] w]|]; [|naive_solver|done].
  destruct H as [[? _]|([= ->] & ? & ?)]; [done|]. by apply HP.
Qed.

End Task.

(** C5: dump and compaction preserve what readers see, when no read view is
    open or no UPSERT of the sources lies directly on a DELETE of its key.  The
    condition is not checked by anything and cannot be dropped: C34 is a
    compaction that loses an UPSERT without it.  Further, below a statement
    with the flag of a deferred DELETE there are not only UPSERTs
    ([ki_deferred] of VyDeferred.v).  Then the task either returns a run in
    which every open read view and the newest state see the same value of every
    key as in the sources, on top of any older statements that the task may
    rely on (nothing below the last level, nothing below an INSERT), or it fails
    because an allocation or the handler has failed. *)
Theorem compaction_preserves_reads primary lst handler views streams ms oom :
  views_sorted (INT64_MAX :: rev views) -> task_input primary streams ms ->
  (views = [] \/ forall t, calm (of_key t ms)) ->
  match write_task streams (vy_write_iterator_new primary lst views handler oom) with
  | Done (Some out, _) => forall t b v, v ∈ INT64_MAX :: rev views -> (lst = true -> b = None) ->
      (first_insert primary (of_key t ms) = true -> b = None) ->
      visible b v (of_key t out) = visible b v (of_key t ms)
  | _ => true ∈ oom
  end.
Proof.
  intros Hvs Hin Hc. apply (task_done _ _ _ _ _ _ _ Hvs Hin (fun out _ => forall t b v, v ∈ INT64_MAX :: rev views -> (lst = true -> b = None) ->
      (first_insert primary (of_key t ms) = true -> b = None) -> visible b v (of_key t out) = visible b v (of_key t ms))).
  intros w _ _ t b v Hv Hl Hf. destruct Hin as [_ Hs _ _ Hg _]. apply outputs_see; try done; [|naive_solver].
  destruct Hc as [->|Hc]; [by left|by right].
Qed.

(** the shape of a run.  It is sorted by key and, for a key, newest first,
    and it has at most one statement per read view, one for the newest state
    and one deferred DELETE for a key, and no more than the sources had. *)
Theorem compaction_run_shape primary lst handler views streams ms oom :
  views_sorted (INT64_MAX :: rev views) -> task_input primary streams ms ->
  match write_task streams (vy_write_iterator_new primary lst views handler oom) with
  | Done (Some out, w) => StronglySorted before out /\ h_size (wi_src_heap w) = 0 /\
      forall t, (length (of_key t out) <= length (of_key t ms))%nat /\
                (length (of_key t out) <= length views + 2)%nat
  | _ => true ∈ oom
  end.
Proof.
  intros Hvs Hin. apply (task_done _ _ _ _ _ _ _ Hvs Hin (fun out w => StronglySorted before out /\ h_size (wi_src_heap w) = 0 /\
      forall t, (length (of_key t out) <= length (of_key t ms))%nat /\ (length (of_key t out) <= length views + 2)%nat)).
  intros w _ Hz. destruct Hin as [_ Hs _ _ Hg _]. split_and!; [by apply outputs_sorted|done|].
  intros t. rewrite outputs_of_key by done. destruct (of_key_good primary t ms Hs Hg) as [->|Hk].
  { rewrite output_nil. cbn. lia. }
  split; [by apply output_length|]. unfold key_output. rewrite length_app. unfold key_results.
  pose proof (key_views_length lst (first_insert primary (of_key t ms)) (key_dd primary lst (of_key t ms))
    (INT64_MAX :: rev views) (of_key t ms)) as Hl. cbn [length] in Hl. rewrite length_rev in Hl.
  destruct (key_dd _ _ _); [destruct (returned _ _)|]; cbn [length]; lia.
Qed.

(** C28: deferred DELETEs.  A compaction of a primary index that succeeds has
    called the handler for exactly those tuples that a statement of the same
    key has overwritten without deleting them from the secondary indexes: [d]
    has the flag, and [s], which is not a DELETE, is the next older statement
    that is not an UPSERT; any number of UPSERTs may lie between them.  The
    sources are restricted by [task_input]: sorted, positive LSNs, the flag on
    DELETEs and REPLACEs only, and below a statement with the flag not only
    UPSERTs ([ki_deferred] of VyDeferred.v). *)
Theorem deferred_deletes_exact lst views streams ms oom :
  views_sorted (INT64_MAX :: rev views) -> task_input true streams ms ->
  match write_task streams (vy_write_iterator_new true lst views true oom) with
  | Done (Some _, w) => forall s d, (s, d) ∈ wi_processed w <-> exists t, overwritten (of_key t ms) s d
  | _ => true ∈ oom
  end.
Proof.
  intros Hvs Hin. apply (task_done _ _ _ _ _ _ _ Hvs Hin
    (fun _ w => forall s d, (s, d) ∈ wi_processed w <-> exists t, overwritten (of_key t ms) s d)).
  intros w -> _ s d. rewrite logs_spec. destruct Hin as [_ Hs _ _ Hg _].
  pose proof (groups_keys true ms (fun ks => overwritten ks s d) Hs Hg) as Hk. split.
  - intros [H|[_ H]]; [by apply elem_of_nil in H|]. apply Hk in H as (t & _ & H). eauto.
  - intros (t & H). right. split; [done|]. apply Hk. exists t. split; [|done].
    intros E. rewrite E in H. by apply overwritten_nil in H.
Qed.

(** ** Reading a history *)

Lemma apply_upsert_fine new (old : option stmt) suppress oom :
  s_type new = IPROTO_UPSERT -> upsert_ok new -> true ∉ oom ->
  wp (vy_apply_upsert new old suppress) (fun r oom' => true ∉ oom' /\ r = Some (upsert_result new old)) oom.
Proof.
  intros Ht Hok Ho. pose proof (no_ops_false new Hok Ht) as Hops. unfold no_ops in Hops.
  assert (forall o : option stmt, (forall p, o = Some p -> terminal p) ->
    wp (vy_apply_upsert_on_terminal_stmt new o suppress) (fun r oom' => true ∉ oom' /\ r = Some (upsert_result new o)) oom) as Hterm.
  { intros o Hterm. assert (match o with None => true | Some s => negb (has_type IPROTO_UPSERT s) end = true) as Hn.
    { destruct o as [p|]; [|done]. by rewrite has_type_ne by (apply Hterm; done). }
    unfold vy_apply_upsert_on_terminal_stmt. apply wp_bind, wp_assert. split; [by apply has_type_eq|]. apply wp_bind, wp_assert. split; [done|].
    apply wp_bind, wp_assert. split; [by rewrite Hops, andb_false_r|]. cbv zeta. apply wp_bind. eapply wp_mono; [by apply apply_groups_fine|].
    intros r o1 [Ho1 ->]. apply wp_bind. unfold vy_stmt_new_replace. apply wp_bind, wp_fails; [done|]. intros o2 Ho2. apply wp_ret, wp_ret. split; [done|].
    unfold upsert_result. destruct o as [p|]; [|done]. apply negb_true_iff in Hn. rewrite Hn. cbn. by destruct (has_type IPROTO_DELETE p). }
  unfold vy_apply_upsert. apply wp_bind, wp_assert. split; [by apply has_type_eq|].
  destruct old as [p|]; [|by apply Hterm]. destruct (has_type IPROTO_UPSERT p) eqn:E.
  - apply wp_bind, wp_fails; [done|]. intros o1 Ho1. apply wp_bind. unfold vy_stmt_new_upsert. apply wp_bind, wp_fails; [done|]. intros o2 Ho2.
    apply wp_ret, wp_ret. split; [done|]. unfold upsert_result. by rewrite E.
  - apply Hterm. intros p' [= <-]. by apply has_type_falseP.
Qed.

Definition value (r : option stmt) : option T := r ≫= apply_stmt None.

Lemma value_upsert h (curr : option stmt) :
  s_type h = IPROTO_UPSERT -> (forall p, curr = Some p -> terminal p) ->
  value (Some (upsert_result h curr)) = apply_stmt (value curr) h.
Proof.
  intros Hh Hc. cbn. destruct curr as [p|]; [|by apply upsert_result_none].
  rewrite upsert_result_some; [done|done|]. intros E. by destruct (Hc p eq_refl).
Qed.

Lemma apply_upserts_fine hs : forall (curr : option stmt) n oom,
  Forall (fun s => s_type s = IPROTO_UPSERT) hs -> Forall upsert_ok hs -> (forall p, curr = Some p -> terminal p) -> true ∉ oom ->
  wp (apply_upserts hs curr n) (fun '(rc, n', r) oom' => true ∉ oom' /\ rc = 0 /\ n' = n + Z.of_nat (length hs) /\
    value r = foldl apply_stmt (value curr) hs /\
    (forall p, r = Some p -> s_type p = IPROTO_DELETE -> hs = [] /\ r = curr)) oom.
Proof.
  induction hs as [|h hs IH]; intros curr n oom Ht Hok Hc Ho; cbn [apply_upserts].
  { apply wp_ret. split_and!; [done|done|cbn; lia|done|done]. }
  inversion Ht as [|?? Hh Hhs]; subst. inversion Hok as [|?? Oh Ohs]; subst.
  apply wp_bind. eapply wp_mono; [by apply apply_upsert_fine|]. intros r o1 [Ho1 ->].
  eapply wp_mono; [apply (IH (Some (upsert_result h curr)) (n + 1)); try done|].
  { intros p [= <-]. unfold terminal. by rewrite upsert_result_terminal. }
  intros [[rc n'] r] o2 (Ho2 & -> & -> & Hv & Hd). split_and!; [done|done|cbn [length]; lia| |].
  - rewrite Hv. cbn [foldl]. f_equal. by apply value_upsert.
  - intros p Ep Etp. destruct (Hd p Ep Etp) as [_ Er]. rewrite Ep in Er. injection Er as ->.
    by rewrite upsert_result_terminal in Etp.
Qed.

Lemma apply_on_base us (curr : option stmt) (keep_delete : bool) oom :
  Forall (fun s => s_type s = IPROTO_UPSERT) us -> Forall upsert_ok us -> (forall p, curr = Some p -> terminal p) ->
  (forall p, curr = Some p -> s_type p = IPROTO_DELETE -> keep_delete = true) -> true ∉ oom ->
  wp (apply_upserts (rev us) curr 0) (fun '(rc, n, r) oom' => true ∉ oom' /\ rc = 0 /\ n = Z.of_nat (length us) /\
    value r = state_of (value curr) us /\
    (forall p, r = Some p -> s_type p = IPROTO_DELETE -> keep_delete = true)) oom.
Proof.
  intros Hu Hok Hc Hd Ho. apply Forall_rev in Hu, Hok. eapply wp_mono; [by apply apply_upserts_fine|].
  intros [[rc n] r] o1 (Ho1 & -> & -> & Hr & Hdel). rewrite length_rev. split_and!; [done|done|done|by rewrite Hr, state_of_rev|].
  intros p Ep Et. destruct (Hdel p Ep Et) as [_ Er]. apply (Hd p); congruence.
Qed.

Lemma history_apply_spec history keep_delete oom :
  upto_terminal false history = history -> Forall upsert_ok history -> true ∉ oom ->
  wp (vy_history_apply history keep_delete) (fun '(rc, n, r) oom' => true ∉ oom' /\ rc = 0 /\ value r = state_of None history /\
    n = Z.of_nat (length (filter (fun s => s_type s = IPROTO_UPSERT) history)) /\
    (forall p, r = Some p -> s_type p = IPROTO_DELETE -> keep_delete = true)) oom.
Proof.
  intros Hup Hok Ho. destruct history as [|h us _] using rev_ind; [by apply wp_ret|].
  pose proof (upto_terminal_rev false (us ++ [h]) h (rev us)) as Hu. rewrite Hup, rev_app_distr in Hu.
  specialize (Hu eq_refl). apply Forall_rev in Hu. rewrite rev_involutive in Hu.
  unfold vy_history_apply, vy_history_is_terminal. rewrite rev_app_distr, last_snoc. cbn [rev app].
  destruct (has_type IPROTO_UPSERT h) eqn:Eh; cbn [negb].
  { apply has_typeP in Eh. assert (Forall (fun s => s_type s = IPROTO_UPSERT) (us ++ [h])) as Ha by (by apply Forall_app_2; [|constructor]).
    change (h :: rev us) with (rev [h] ++ rev us). rewrite <- rev_app_distr.
    eapply wp_mono; [by apply (apply_on_base (us ++ [h]) None keep_delete)|]. intros [[rc n] r] o1 (? & -> & -> & Hv & Hd).
    split_and!; [done|done|done| |done]. by rewrite filter_all. }
  apply has_type_falseP in Eh. apply Forall_app in Hok as [Hok _].
  assert (forall (curr : option stmt) o, (forall p, curr = Some p -> terminal p) -> value curr = apply_stmt None h ->
    (forall p, curr = Some p -> s_type p = IPROTO_DELETE -> keep_delete = true) -> true ∉ o ->
    wp (apply_upserts (rev us) curr 0) (fun '(rc, n, r) oom' => true ∉ oom' /\ rc = 0 /\ value r = state_of None (us ++ [h]) /\
      n = Z.of_nat (length (filter (fun s => s_type s = IPROTO_UPSERT) (us ++ [h]))) /\
      (forall p, r = Some p -> s_type p = IPROTO_DELETE -> keep_delete = true)) o) as Hcurr.
  { intros curr o Hc Hv Hd Ho'. eapply wp_mono; [by apply (apply_on_base us curr keep_delete)|]. intros [[rc n] r] o1 (? & -> & -> & Hr & Hdel).
    split_and!; [done|done|by rewrite Hr, Hv, state_of_app| |done]. by rewrite filter_app, filter_all, filter_cons_False, app_nil_r. }
  destruct (negb keep_delete && has_type IPROTO_DELETE h) eqn:Ek.
  { apply Hcurr; [done| |done|done]. boolp. apply has_typeP in H0. unfold apply_stmt. by rewrite H0. }
  assert (s_type h = IPROTO_DELETE -> keep_delete = true) as Hkd.
  { intros E. rewrite has_type_eq, andb_true_r in Ek by done. by destruct keep_delete. }
  destruct (s_refable h); cbn [negb]; [apply Hcurr; try done; intros p [= <-]; done|].
  apply wp_bind. unfold vy_stmt_dup. apply wp_bind, wp_fails; [done|]. intros o1 Ho1. apply wp_ret. apply Hcurr; try done; intros p [= <-]; done.
Qed.

(** Reading a key.  The history a reader has collected, up to the first
    statement that is not an UPSERT, is applied to the value that the
    statements have from the oldest to the newest; every UPSERT is counted,
    and a DELETE is returned only to a reader that asks for it. *)
Theorem history_apply_reference history keep_delete oom :
  upto_terminal false history = history -> Forall upsert_ok history -> true ∉ oom ->
  wp (vy_history_apply history keep_delete) (fun '(rc, n, r) _ => rc = 0 /\ value r = state_of None history /\
    n = Z.of_nat (length (filter (fun s => s_type s = IPROTO_UPSERT) history)) /\
    (forall p, r = Some p -> s_type p = IPROTO_DELETE -> keep_delete = true)) oom.
Proof. intros Hu Hok Ho. eapply wp_mono; [by apply history_apply_spec|]. by intros [[rc n] r] o (_ & H). Qed.
End Theorems.

(** ** A concrete instance: tuples of a key and a counter *)

Module Counters.
#[export] Instance counters : Tuples (Z * Z) Z := {
  tuple_compare a b := fst a - fst b;
  key_column_mask := 1;
  xrow_upsert_execute o t := Some ((fst t, snd t + o), 2);
  tuple_validate_raw _ := true;
}.
#[export] Instance counters_laws : TuplesLaws (Z * Z) Z.
Proof. split; cbn; intros; try lia. by simplify_eq; cbn; lia. Qed.

Definition st (a : Z) (ty : iproto_type) (lsn flags k v : Z) (ops : list Z) : vy_stmt (Z * Z) Z :=
  mk_stmt (Some a) ty lsn flags true (k, v) ops 0.

Definition newer_run : list (vy_stmt (Z * Z) Z) :=
  [st 1 IPROTO_UPSERT 8 0 1 100 [7]; st 2 IPROTO_REPLACE 7 0 1 20 []; st 3 IPROTO_REPLACE 9 0 2 5 []].
Definition older_run : list (vy_stmt (Z * Z) Z) :=
  [st 4 IPROTO_UPSERT 3 0 1 77 [1]; st 5 IPROTO_REPLACE 4 1 3 40 [];
   st 7 IPROTO_UPSERT 3 0 3 50 [2]; st 6 IPROTO_REPLACE 2 0 3 41 []].
Definition both_runs : list (vy_stmt (Z * Z) Z) :=
  [st 1 IPROTO_UPSERT 8 0 1 100 [7]; st 2 IPROTO_REPLACE 7 0 1 20 []; st 4 IPROTO_UPSERT 3 0 1 77 [1];
   st 3 IPROTO_REPLACE 9 0 2 5 []; st 5 IPROTO_REPLACE 4 1 3 40 []; st 7 IPROTO_UPSERT 3 0 3 50 [2];
   st 6 IPROTO_REPLACE 2 0 3 41 []].

Lemma views_ok : views_sorted (INT64_MAX :: rev [5]).
Proof. split; repeat constructor; done. Qed.

Lemma runs_good : Forall (good true) (groups both_runs).
Proof.
  assert (forallb plain (groups both_runs) = true) as H by (by vm_compute).
  apply Forall_forall. intros ks Hks. apply plain_good. rewrite forallb_forall in H. by apply H, list_elem_of_In.
Qed.
Lemma runs_input : task_input true [newer_run; older_run] both_runs.
Proof.
  split.
  - apply (Permutation_app_head [st 1 IPROTO_UPSERT 8 0 1 100 [7]; st 2 IPROTO_REPLACE 7 0 1 20 []]).
    apply perm_swap.
  - apply merged_order_sorted. by vm_compute.
  - repeat constructor; apply merged_order_sorted; by vm_compute.
  - eapply (forallb_Forall _ (fun s => 0 <? s_lsn s)); [intros s; apply Z.ltb_lt|by vm_compute].
  - apply runs_good.
  - cbn. lia.
Qed.
Lemma runs_calm t : calm (of_key t both_runs).
Proof.
  intros ks1 u d ks2 E _ Hd. assert (d ∈ of_key t both_runs) as Hin by (rewrite E; set_solver).
  apply list_elem_of_filter in Hin as [_ Hin]. apply list_elem_of_In in Hin.
  assert (forallb (fun s => negb (has_type IPROTO_DELETE s)) both_runs = true) as H by (by vm_compute).
  rewrite forallb_forall in H. specialize (H d Hin). by rewrite has_type_eq in H.
Qed.

Lemma compaction_preserves_reads_witness :
  match write_task [newer_run; older_run] (vy_write_iterator_new true false [5] true []) with
  | Done (Some out, _) => visible (Some (1, 50)) 5 (of_key (1, 0) out) = Some (1, 51) /\
      visible (Some (1, 50)) INT64_MAX (of_key (1, 0) out) = Some (1, 27)
  | _ => False
  end.
Proof.
  pose proof (compaction_preserves_reads true false true [5] [newer_run; older_run] both_runs []
    views_ok runs_input (or_intror runs_calm)) as H.
  destruct (write_task _ _) as [[[out|] w]|] eqn:E; [|vm_compute in E; discriminate E..].
  assert (first_insert true (of_key (1, 0) both_runs) = false) as Hf by (vm_compute; reflexivity).
  split; rewrite H; [vm_compute; reflexivity|right; left|discriminate|rewrite Hf; discriminate|
                     vm_compute; reflexivity|left|discriminate|rewrite Hf; discriminate].
Defined.

Lemma compaction_run_shape_witness :
  match write_task [newer_run; older_run] (vy_write_iterator_new true true [5] true []) with
  | Done (Some out, _) => StronglySorted before out /\ Z.of_nat (length (of_key (1, 0) out)) <= 3
  | _ => False
  end.
Proof.
  pose proof (compaction_run_shape true true true [5] [newer_run; older_run] both_runs [] views_ok runs_input) as H.
  destruct (write_task _ _) as [[[out|] w]|] eqn:E; [|vm_compute in E; discriminate E..].
  destruct H as (Hs & _ & H). split; [exact Hs|]. destruct (H (1, 0)) as [_ Hl]. cbn in Hl. lia.
Defined.

Lemma deferred_deletes_exact_witness :
  match write_task [newer_run; older_run] (vy_write_iterator_new true false [5] true []) with
  | Done (Some _, w) => (st 6 IPROTO_REPLACE 2 0 3 41 [], st 5 IPROTO_REPLACE 4 1 3 40 []) ∈ wi_processed w
  | _ => False
  end.
Proof.
  pose proof (deferred_deletes_exact false [5] [newer_run; older_run] both_runs [] views_ok runs_input) as H.
  destruct (write_task _ _) as [[[out|] w]|] eqn:E; [|vm_compute in E; discriminate E..].
  apply H. exists (3, 0). exists [], [st 7 IPROTO_UPSERT 3 0 3 50 [2]], [].
  split; [vm_compute; reflexivity|]. split; [constructor; [reflexivity|constructor]|].
  split; [vm_compute; reflexivity|]. split; [discriminate|]. split; discriminate.
Defined.

Lemma history_apply_reference_witness :
  wp (vy_history_apply [st 1 IPROTO_UPSERT 8 0 1 100 [7]; st 2 IPROTO_REPLACE 7 0 1 20 []] false)
    (fun '(rc, n, r) _ => rc = 0 /\ n = 1 /\ value r = Some (1, 27)) [].
Proof.
  eapply wp_mono; [apply (history_apply_reference [st 1 IPROTO_UPSERT 8 0 1 100 [7]; st 2 IPROTO_REPLACE 7 0 1 20 []] false [])|].
  - vm_compute. reflexivity.
  - constructor; [discriminate|]. constructor; [discriminate|constructor].
  - apply not_elem_of_nil.
  - intros [[rc n] r] o (H1 & H2 & H3 & _). split; [exact H1|]. split; [exact H3|]. rewrite H2. vm_compute. reflexivity.
Defined.

(** C34: a compaction may lose an UPSERT.  With a read view open at LSN 5, a
    DELETE at 3 that the view sees, and a DELETE at 7 with an UPSERT at 8 on
    top of it, the statements newer than the view are all dropped: the DELETE
    is redundant, the UPSERT is not.  Readers see the key before the
    compaction, and do not see it afterwards. *)
Theorem compaction_loses_upsert :
  let newer := [st 1 IPROTO_UPSERT 8 0 1 100 [7]; st 2 IPROTO_DELETE 7 0 1 0 []] in
  let older := [st 3 IPROTO_DELETE 3 0 1 0 []] in
  exists w, write_task [newer; older] (vy_write_iterator_new true false [5] true []) =
    Done (Some [st 3 IPROTO_DELETE 3 0 1 0 []], w) /\
  task_input true [newer; older] (newer ++ older) /\
  visible None INT64_MAX (of_key (1, 0) (newer ++ older)) = Some (1, 100) /\
  visible None INT64_MAX (of_key (1, 0) [st 3 IPROTO_DELETE 3 0 1 0 []]) = None.
Proof.
  eexists. split; [vm_compute; reflexivity|]. split_and!; [|vm_compute; reflexivity..].
  split; [done|apply merged_order_sorted; by vm_compute| | | |cbn; lia].
  - repeat constructor; apply merged_order_sorted; by vm_compute.
  - eapply (forallb_Forall _ (fun s => 0 <? s_lsn s)); [intros s; apply Z.ltb_lt|by vm_compute].
  - constructor; [|constructor]. apply plain_good. by vm_compute.
Qed.

(** The deferred DELETE of a key can come out of order.  A REPLACE at 10 with
    the flag, an UPSERT at 5 below it and a read view at 7: after the result of
    the view, the REPLACE is returned for a second time, because only the last
    result is compared with it. *)
Theorem deferred_delete_out_of_order :
  let r := st 1 IPROTO_REPLACE 10 1 1 20 [] in
  let u := st 2 IPROTO_UPSERT 5 0 1 100 [7] in
  exists w, write_task [[r; u]] (vy_write_iterator_new true false [7] false []) = Done (Some [r; u; r], w).
Proof. eexists. vm_compute. reflexivity. Qed.

(** A reader does not notice that it has run out of memory.  If the
    allocation for the operations of an UPSERT fails while a history is
    applied, the operations are skipped as if they were wrong: the reader gets
    the old value and no error. *)
Theorem read_hides_out_of_memory :
  let history := [st 1 IPROTO_UPSERT 8 0 1 100 [7]; st 2 IPROTO_REPLACE 7 0 1 20 []] in
  (exists r, vy_history_apply history false [true] = Done (0, 1, Some r, []) /\ s_tuple r = (1, 20)) /\
  (exists r, vy_history_apply history false [] = Done (0, 1, Some r, []) /\ s_tuple r = (1, 27)).
Proof. split; eexists; (split; [vm_compute; reflexivity|reflexivity]). Qed.
End Counters.
