(* ===== verification/VyMem.v ===== *)
(** * The memory level of an LSM tree

    src/box/vy_mem.c: an in-memory tree of statements, ordered by key and, for
    one key, newest first, and the iterator that reads the history of one key
    after the other.  The BPS+ tree is the list of its elements in order, a
    position in it an index or none.  What the iterator searches for may be a
    partial key ([SearchKeys]). *)

From stdpp Require Import list.
From S2P Require Import Prelude VyStmt.

Open Scope Z_scope.

Inductive iterator_type := ITER_EQ | ITER_GE | ITER_GT | ITER_LE | ITER_LT.
#[export] Instance iterator_type_eq_dec : EqDecision iterator_type.
Proof. solve_decision. Defined.
Definition iterator_direction (ty : iterator_type) : Z :=
  match ty with ITER_LE | ITER_LT => -1 | _ => 1 end.

Record vy_mem (T O : Type) := mk_mem {
  mem_tree : list (vy_stmt T O);
  mem_rows : Z;
  mem_version : Z;
  mem_generation : Z;
  mem_dump_lsn : Z;
}.
Arguments mk_mem {T O}. Arguments mem_tree {T O}. Arguments mem_rows {T O}. Arguments mem_version {T O}.
Arguments mem_generation {T O}. Arguments mem_dump_lsn {T O}.
#[export] Instance vy_mem_rebuild T O : Rebuild (vy_mem T O) := fun m =>
  mk_mem (mem_tree m) (mem_rows m) (mem_version m) (mem_generation m) (mem_dump_lsn m).

(** The iterator; [mi_history] is the history it fills, [mi_oom] the
    allocations to come. *)
Record mem_iterator (T O : Type) := mk_mi {
  mi_search_started : bool;
  mi_version : Z;
  mi_curr_pos : option nat;
  mi_curr : option (vy_stmt T O);
  mi_history : list (vy_stmt T O);
  mi_oom : list bool;
}.
Arguments mk_mi {T O}. Arguments mi_search_started {T O}. Arguments mi_version {T O}.
Arguments mi_curr_pos {T O}. Arguments mi_curr {T O}. Arguments mi_history {T O}. Arguments mi_oom {T O}.
#[export] Instance mem_iterator_rebuild T O : Rebuild (mem_iterator T O) := fun i =>
  mk_mi (mi_search_started i) (mi_version i) (mi_curr_pos i) (mi_curr i) (mi_history i) (mi_oom i).

Section Mem.
Context {T O : Type} `{!Tuples T O}.
Abbreviation stmt := (vy_stmt T O).

(** ** The tree *)

Definition vy_mem_tree_cmp (a b : stmt) : Z :=
  let res := tuple_compare (s_tuple a) (s_tuple b) in
  if negb (res =? 0) then res
  else if s_lsn b <? s_lsn a then -1 else if s_lsn a <? s_lsn b then 1 else 0.

End Mem.

(** ** Positions in the tree *)

Section Bounds.
Context {T O K : Type} `{!SearchKeys T K}.
Abbreviation stmt := (vy_stmt T O).

Definition vy_mem_tree_cmp_key (e : stmt) (key : K) (lsn : Z) : Z :=
  let res := tuple_compare_with_key (s_tuple e) key in
  if res =? 0 then
    if lsn =? INT64_MAX - 1 then 0
    else if lsn <? s_lsn e then -1 else if s_lsn e <? lsn then 1 else 0
  else res.

(** The first element that satisfies [p]. *)
Fixpoint bound (p : stmt -> bool) (tree : list stmt) : option nat :=
  match tree with
  | [] => None
  | e :: tree => if p e then Some 0%nat else S <$> bound p tree
  end.
Definition lower_bound (tree : list stmt) (key : K) (lsn : Z) : option nat :=
  bound (fun e => 0 <=? vy_mem_tree_cmp_key e key lsn) tree.
Definition upper_bound (tree : list stmt) (key : K) (lsn : Z) : option nat :=
  bound (fun e => 0 <? vy_mem_tree_cmp_key e key lsn) tree.
Definition is_exact (tree : list stmt) (pos : option nat) (key : K) (lsn : Z) : bool :=
  match (i ← pos; tree !! i) with
  | Some e => vy_mem_tree_cmp_key e key lsn =? 0
  | None => false
  end.
End Bounds.

Section Writing.
Context {T O : Type} `{!Tuples T O}.
Abbreviation stmt := (vy_stmt T O).
Abbreviation mem := (vy_mem T O).

Definition tree_first (tree : list stmt) : option nat :=
  match tree with [] => None | _ => Some 0%nat end.
Definition tree_last (tree : list stmt) : option nat :=
  match length tree with 0%nat => None | S n => Some n end.
Definition tree_next (tree : list stmt) (pos : option nat) : option nat :=
  match pos with
  | None => tree_first tree
  | Some i => if (S i <? length tree)%nat then Some (S i) else None
  end.
Definition tree_prev (tree : list stmt) (pos : option nat) : option nat :=
  match pos with
  | None => tree_last tree
  | Some 0%nat => None
  | Some (S i) => Some i
  end.

(** The element that was replaced, and the new tree. *)
Fixpoint tree_insert (e : stmt) (tree : list stmt) : option stmt * list stmt :=
  match tree with
  | [] => (None, [e])
  | x :: tree =>
      let c := vy_mem_tree_cmp e x in
      if c <? 0 then (None, e :: x :: tree)
      else if c =? 0 then (Some x, e :: tree)
      else let '(r, tree) := tree_insert e tree in (r, x :: tree)
  end.

(** ** Writing *)

Definition vy_mem_new (generation : Z) : mem := mk_mem [] 0 0 generation (-1).

Definition VY_UPSERT_THRESHOLD : Z := 128.
Definition VY_UPSERT_INF : Z := VY_UPSERT_THRESHOLD + 1.

(** The return code and the memory.  A statement that replaces another one
    needs no memory. *)
Definition vy_mem_insert (m : mem) (entry : stmt) (oom : bool) : Z * mem :=
  let '(replaced, tree) := tree_insert entry (mem_tree m) in
  let fresh := match replaced with None => true | Some _ => false end in
  if oom && fresh then (-1, m)
  else (0, m <| mem_tree := tree |>
             <| mem_rows ::= fun n => if fresh then n + 1 else n |>
             <| mem_version ::= fun v => u32 (v + 1) |>).

(** The statement after the new one in the tree. *)
Definition older_stmt (m : mem) (entry : stmt) : option stmt :=
  i ← bound (fun e => vy_mem_tree_cmp entry e <? 0) (mem_tree m); mem_tree m !! i.

(** The counter of a new UPSERT; none if the assertion fails. *)
Definition count_upserts (m : mem) (entry : stmt) : option Z :=
  match older_stmt m entry with
  | None => Some (s_n_upserts entry)
  | Some older =>
      if negb (has_type IPROTO_UPSERT older) || negb (tuple_compare (s_tuple entry) (s_tuple older) =? 0)
      then Some (s_n_upserts entry)
      else if s_n_upserts older <=? VY_UPSERT_THRESHOLD then Some (s_n_upserts older + 1)
      else if s_n_upserts older =? VY_UPSERT_INF then Some (s_n_upserts older)
      else None
  end.

(** The same with the statement, whose counter has been set; no result if an
    assertion fails. *)
Definition vy_mem_insert_upsert (m : mem) (entry : stmt) (oom : bool) : option (Z * stmt * mem) :=
  if negb (has_type IPROTO_UPSERT entry) then None
  else
    n ← count_upserts m entry;
    let '(rc, m) := vy_mem_insert m (entry <| s_n_upserts := n |>) oom in
    Some (rc, entry <| s_n_upserts := n |>, m).

Definition vy_mem_commit_stmt (m : mem) (entry : stmt) : mem :=
  m <| mem_dump_lsn ::= Z.max (s_lsn entry) |> <| mem_version ::= fun v => u32 (v + 1) |>.

Definition vy_mem_rollback_stmt (m : mem) (entry : stmt) : mem :=
  m <| mem_tree ::= filter (fun e => vy_mem_tree_cmp entry e <> 0) |>
    <| mem_rows ::= fun n => n - 1 |> <| mem_version ::= fun v => u32 (v + 1) |>.

(** The next older statement of the key. *)
Definition vy_mem_older_lsn (m : mem) (entry : stmt) : option stmt :=
  i ← lower_bound (mem_tree m) (s_tuple entry) (s_lsn entry - 1);
  result ← mem_tree m !! i;
  if negb (tuple_compare (s_tuple result) (s_tuple entry) =? 0) then None else Some result.

End Writing.

(** ** The iterator *)

Section Iterator.
Context {T O K : Type} `{!Tuples T O, !SearchKeys T K}.
Abbreviation stmt := (vy_stmt T O).
Abbreviation mem := (vy_mem T O).
Abbreviation itr := (mem_iterator T O).
Abbreviation iprog := (prog itr).
Context (m : mem) (iterator_type : iterator_type) (key : option K) (vlsn : Z).
Abbreviation tree := (mem_tree m).

Definition vy_mem_iterator_open (oom : list bool) : itr := mk_mi false 0 None None [] oom.

(** *vy_mem_tree_iterator_get_elem of a valid position *)
Definition get_elem (pos : option nat) : iprog stmt := fun i =>
  match (p ← pos; tree !! p) with
  | Some e => Done (e, i)
  | None => Abort
  end.

(** itr->curr, which is not NULL here. *)
Definition get_curr : iprog stmt := fun i =>
  match mi_curr i with Some e => Done (e, i) | None => Abort end.

(** The iterator stands at the element it has in [curr]. *)
Definition at_curr (i : itr) : bool :=
  match mi_curr i, (p ← mi_curr_pos i; tree !! p) with
  | Some c, Some e => vy_entry_is_equal c e
  | _, _ => false
  end.

Definition key_mismatch (e : stmt) : bool :=
  match key with None => false | Some k => negb (key_compare_with_tuple k (s_tuple e) =? 0) end.

Definition vy_mem_iterator_step : iprog Z :=
  modify (fun i => i <| mi_curr_pos ::= if iterator_direction iterator_type <? 0 then tree_prev tree else tree_next tree |>);;
  pos ← gets mi_curr_pos;
  match pos with
  | None => mret 1
  | Some _ => e ← get_elem pos; modify (fun i => i <| mi_curr := Some e |>);; mret 0
  end.

Definition hidden (e : stmt) : bool := (vlsn <? s_lsn e) || has_flag VY_STMT_SKIP_READ e.

(** Skip to the first statement visible in the read view. *)
Fixpoint skip_hidden (fuel : nat) : iprog Z :=
  curr ← get_curr;
  if hidden curr then
    match fuel with
    | 0%nat => abort
    | S fuel =>
        rc ← vy_mem_iterator_step;
        if negb (rc =? 0) then modify (fun i => i <| mi_curr := None |>);; mret 1
        else
          curr ← get_curr;
          if bool_decide (iterator_type = ITER_EQ) && key_mismatch curr
          then modify (fun i => i <| mi_curr := None |>);; mret 1
          else skip_hidden fuel
    end
  else mret 0.

Fixpoint skip_read_loop (fuel : nat) : iprog unit :=
  curr ← get_curr;
  if has_flag VY_STMT_SKIP_READ curr then
    match fuel with
    | 0%nat => abort
    | S fuel =>
        modify (fun i => i <| mi_curr_pos ::= tree_next tree |>);;
        pos ← gets mi_curr_pos;
        e ← get_elem pos;
        modify (fun i => i <| mi_curr := Some e |>);;
        skip_read_loop fuel
    end
  else skip.

Definition vy_mem_iterator_find_lsn : iprog Z :=
  assert at_curr;;
  rc ← skip_hidden (length tree);
  if negb (rc =? 0) then mret 1
  else if 0 <? iterator_direction iterator_type then mret 0
  else
    pos ← gets mi_curr_pos;
    curr ← get_curr;
    match tree_prev tree pos with
    | None => mret 0
    | Some p =>
        prev ← get_elem (Some p);
        if (vlsn <? s_lsn prev) || negb (tuple_compare (s_tuple curr) (s_tuple prev) =? 0) then mret 0
        else
          modify (fun i => i <| mi_curr_pos := lower_bound tree (s_tuple curr) vlsn |>);;
          pos ← gets mi_curr_pos;
          e ← get_elem pos;
          modify (fun i => i <| mi_curr := Some e |>);;
          skip_read_loop (length tree);;
          mret 0
    end.

(** [last]: the key to follow, if any. *)
Definition vy_mem_iterator_seek (last : option K) : iprog Z :=
  modify (fun i => i <| mi_search_started := true |> <| mi_version := mem_version m |> <| mi_curr := None |>);;
  let from := match last with Some _ => last | None => key end in
  let ty := match last with
            | Some _ => if 0 <? iterator_direction iterator_type then ITER_GT else ITER_LT
            | None => iterator_type
            end in
  modify (fun i => i <| mi_curr_pos :=
    match from, ty with
    | Some k, (ITER_LE | ITER_GT) => upper_bound tree k (INT64_MAX - 1)
    | Some k, _ => lower_bound tree k (INT64_MAX - 1)
    | None, ITER_LE => None
    | None, _ => tree_first tree
    end |>);;
  assert (fun _ => match from, ty with None, (ITER_LE | ITER_GE) => true | None, _ => false | Some _, _ => true end);;
  exact ← gets (fun i => match from with
                         | Some k => is_exact tree (mi_curr_pos i) k (INT64_MAX - 1)
                         | None => false
                         end);
  modify (fun i => i <| mi_curr_pos ::= if iterator_direction ty <? 0 then tree_prev tree else id |>);;
  pos ← gets mi_curr_pos;
  match pos with
  | None => mret 1
  | Some _ =>
      curr ← get_elem pos;
      modify (fun i => i <| mi_curr := Some curr |>);;
      if bool_decide (iterator_type = ITER_EQ) &&
         match last with None => negb exact | Some _ => key_mismatch curr end
      then modify (fun i => i <| mi_curr := None |>);; mret 1
      else vy_mem_iterator_find_lsn
  end.

Definition vy_mem_iterator_next_key : iprog Z :=
  started ← gets mi_search_started;
  if negb started then vy_mem_iterator_seek None
  else
    curr ← gets mi_curr;
    match curr with
    | None => mret 1
    | Some prev =>
        assert (fun i => mem_version m =? mi_version i);;
        assert at_curr;;
        rc ← vy_mem_iterator_step;
        if negb (rc =? 0) then modify (fun i => i <| mi_curr := None |>);; mret 1
        else
          curr ← get_curr;
          if tuple_compare (s_tuple prev) (s_tuple curr) =? 0 then vy_mem_iterator_seek (Some (tuple_key (s_tuple curr)))
          else if bool_decide (iterator_type = ITER_EQ) && key_mismatch curr
          then modify (fun i => i <| mi_curr := None |>);; mret 1
          else vy_mem_iterator_find_lsn
    end.

(** The next statement of the key, from the position [pos] on. *)
Fixpoint next_lsn_loop (fuel : nat) (pos : option nat) : iprog Z :=
  match fuel with
  | 0%nat => abort
  | S fuel =>
      match tree_next tree pos with
      | None => mret 1
      | Some p =>
          next ← get_elem (Some p);
          curr ← get_curr;
          if negb (tuple_compare (s_tuple curr) (s_tuple next) =? 0) then mret 1
          else
            modify (fun i => i <| mi_curr_pos := Some p |> <| mi_curr := Some next |>);;
            if has_flag VY_STMT_SKIP_READ next then next_lsn_loop fuel (Some p) else mret 0
      end
  end.
Definition vy_mem_iterator_next_lsn : iprog Z :=
  assert mi_search_started;;
  curr ← gets mi_curr;
  match curr with
  | None => mret 1
  | Some _ =>
      assert (fun i => mem_version m =? mi_version i);;
      assert at_curr;;
      pos ← gets mi_curr_pos;
      next_lsn_loop (S (length tree)) pos
  end.

(** vy_history_append_stmt *)
Definition vy_history_append_stmt (e : stmt) : iprog Z := fun i =>
  match fails (mi_oom i) with
  | Done (true, oom) => Done (-1, i <| mi_oom := oom |>)
  | Done (false, oom) => Done (0, i <| mi_oom := oom |> <| mi_history ::= fun h => h ++ [e] |>)
  | Abort => Abort
  end.

Fixpoint get_history_loop (fuel : nat) : iprog Z :=
  match fuel with
  | 0%nat => abort
  | S fuel =>
      curr ← get_curr;
      rc ← vy_history_append_stmt curr;
      if negb (rc =? 0) then mret (-1)
      else
        terminal ← gets (fun i => vy_history_is_terminal (mi_history i));
        if terminal : bool then mret 0
        else
          rc ← vy_mem_iterator_next_lsn;
          if rc =? 0 then get_history_loop fuel else mret 0
  end.
Definition vy_mem_iterator_get_history : iprog Z := get_history_loop (S (length tree)).

Definition vy_history_cleanup : iprog unit := modify (fun i => i <| mi_history := [] |>).

Definition vy_mem_iterator_next : iprog Z :=
  vy_history_cleanup;;
  rc ← vy_mem_iterator_next_key;
  if rc =? 0 then vy_mem_iterator_get_history else mret 0.

Definition vy_mem_iterator_skip (last : option K) : iprog Z :=
  assert (fun i => negb (mi_search_started i) || (mi_version i =? mem_version m));;
  i ← gets id;
  if mi_search_started i &&
     match mi_curr i, last with
     | Some c, Some l => 0 <? iterator_direction iterator_type * tuple_compare_with_key (s_tuple c) l
     | _, _ => true
     end
  then mret 0
  else
    vy_history_cleanup;;
    rc ← vy_mem_iterator_seek last;
    if rc =? 0 then vy_mem_iterator_get_history else mret 0.

Definition vy_mem_iterator_restore (last : option K) : iprog Z :=
  i ← gets id;
  if negb (mi_search_started i) || (mi_version i =? mem_version m) then mret 0
  else
    vy_mem_iterator_seek last;;
    vy_history_cleanup;;
    curr ← gets mi_curr;
    rc ← (match curr with Some _ => vy_mem_iterator_get_history | None => mret 0 end);
    mret (if negb (rc =? 0) then -1 else 1).
End Iterator.
