(* ===== verification/VyMemSafety.v ===== *)
(** * The iterator over a memory level

    Repeated calls of vy_mem_iterator_next give, key after key in the order of
    the iterator, the part of the history that the read view sees, down to the
    first statement that is not an UPSERT. *)

From stdpp Require Import list sorting.
From S2P Require Import Prelude VyStmt VyVisible VyViews VyMem.

Open Scope Z_scope.

Section MemSafety.
Context {T O K : Type} `{!Tuples T O, !TuplesLaws T O, !SearchKeys T K, !SearchKeysLaws T O K}.
Abbreviation stmt := (vy_stmt T O).
Abbreviation mem := (vy_mem T O).
Abbreviation itr := (mem_iterator T O).
Implicit Types (e x y : stmt) (l g : list stmt) (gs : list (list stmt)) (F : Prop).

(** ** The tree as the groups of its keys *)

Record key_group g : Prop := {
  kg_ne : g <> [];
  kg_same : forall x y, x ∈ g -> y ∈ g -> same_key (s_tuple x) (s_tuple y);
  kg_sorted : StronglySorted (fun x y => s_lsn y < s_lsn x) g;
}.
Definition group_lt g g' : Prop := forall x y, x ∈ g -> y ∈ g' -> tuple_compare (s_tuple x) (s_tuple y) < 0.
Record grouped gs : Prop := {
  gr_group : Forall key_group gs;
  gr_order : StronglySorted group_lt gs;
}.

(** The order of the tree. *)
Definition tree_sorted (tree : list stmt) : Prop := StronglySorted (fun x y => vy_mem_tree_cmp x y < 0) tree.

(** ** Positions *)

(** The iterator stands at [e] between [l1] and [l2]. *)
Record stands (tree : list stmt) (i : itr) l1 e l2 : Prop := {
  sd_tree : tree = l1 ++ e :: l2;
  sd_pos : mi_curr_pos i = Some (length l1);
  sd_curr : mi_curr i = Some e;
}.

Lemma tree_next_at l1 e l2 :
  tree_next (l1 ++ e :: l2) (Some (length l1)) = match l2 with [] => None | _ => Some (length (l1 ++ [e])) end.
Proof.
  unfold tree_next. rewrite !length_app. cbn [length].
  destruct l2 as [|x l2]; cbn [length]; case_match eqn:E; rewrite ?Nat.ltb_lt, ?Nat.ltb_ge in E; try lia; [done|].
  f_equal. lia.
Qed.
Lemma tree_prev_at l1 x e l2 :
  tree_prev ((l1 ++ [x]) ++ e :: l2) (Some (length (l1 ++ [x]))) = Some (length l1).
Proof. rewrite length_app. cbn. by rewrite Nat.add_comm. Qed.
Lemma tree_prev_none l : tree_prev l None = match l with [] => None | _ => Some (length l - 1)%nat end.
Proof. destruct l; cbn; [done|]. f_equal. lia. Qed.

Lemma lookup_at l1 e l2 : (l1 ++ e :: l2) !! length l1 = Some e.
Proof. by apply list_lookup_middle. Qed.

Lemma bound_spec (p : stmt -> bool) l1 l2 :
  Forall (fun x => p x = false) l1 -> match l2 with [] => True | x :: _ => p x = true end ->
  bound p (l1 ++ l2) = match l2 with [] => None | _ => Some (length l1) end.
Proof.
  intros H1 H2. induction H1 as [|x l1 Hx H1 IH]; cbn.
  - destruct l2 as [|y l2]; [done|]. cbn. by rewrite H2.
  - rewrite Hx, IH. by destruct l2.
Qed.

Section Iterator.
Context (m : mem) (ty : iterator_type) (key : option K) (vlsn : Z).
Context (Haddr : Forall (fun e => s_addr e <> None) (mem_tree m)).
Abbreviation tree := (mem_tree m).
Abbreviation hid := (hidden vlsn).

Lemma wpx_get_curr F i e (Q : stmt -> itr -> Prop) : mi_curr i = Some e -> Q e i -> wpx F get_curr Q i.
Proof. unfold wpx, get_curr. by intros ->. Qed.
Lemma wpx_get_elem F i p e (Q : stmt -> itr -> Prop) : tree !! p = Some e -> Q e i -> wpx F (get_elem m (Some p)) Q i.
Proof. unfold wpx, get_elem. cbn. by intros ->. Qed.

Lemma at_curr_ok i l1 e l2 : stands tree i l1 e l2 -> at_curr m i = true.
Proof.
  intros [Ht Hp Hc]. unfold at_curr. rewrite Hp, Hc. cbn. rewrite Ht, lookup_at. unfold vy_entry_is_equal.
  rewrite Ht in Haddr. apply Forall_app in Haddr as [_ Ha]. apply Forall_inv in Ha. destruct (s_addr e); [|done].
  apply Z.eqb_refl.
Qed.

(** Nothing but the position has changed. *)
Definition kept (i i' : itr) : Prop :=
  mi_search_started i' = mi_search_started i /\ mi_version i' = mi_version i /\
  mi_history i' = mi_history i /\ mi_oom i' = mi_oom i.

Lemma step_forward F i l1 e l2 (Q : Z -> itr -> Prop) :
  0 < iterator_direction ty -> stands tree i l1 e l2 ->
  (l2 = [] -> forall i', kept i i' -> Q 1 i') ->
  (forall x l2' i', l2 = x :: l2' -> kept i i' -> stands tree i' (l1 ++ [e]) x l2' -> Q 0 i') ->
  wpx F (vy_mem_iterator_step m ty) Q i.
Proof.
  intros Hd [Ht Hp Hc] H1 H2. unfold vy_mem_iterator_step. apply wpx_bind, wpx_modify, wpx_bind, wpx_gets. cbn.
  destruct (Z.ltb_spec (iterator_direction ty) 0); [lia|]. rewrite Hp, Ht, tree_next_at.
  destruct l2 as [|x l2]; [apply wpx_ret; by apply H1|]. apply wpx_bind. eapply (wpx_get_elem F _ _ x).
  { rewrite Ht. replace (l1 ++ e :: x :: l2) with ((l1 ++ [e]) ++ x :: l2) by (by rewrite <- app_assoc). apply lookup_at. }
  apply wpx_bind, wpx_modify, wpx_ret. eapply H2; [done|done|]. split; [|done|done]. by rewrite <- app_assoc.
Qed.
Lemma step_backward F i l1 e l2 (Q : Z -> itr -> Prop) :
  iterator_direction ty < 0 -> stands tree i l1 e l2 ->
  (l1 = [] -> forall i', kept i i' -> Q 1 i') ->
  (forall x l1' i', l1 = l1' ++ [x] -> kept i i' -> stands tree i' l1' x (e :: l2) -> Q 0 i') ->
  wpx F (vy_mem_iterator_step m ty) Q i.
Proof.
  intros Hd [Ht Hp Hc] H1 H2. unfold vy_mem_iterator_step. apply wpx_bind, wpx_modify, wpx_bind, wpx_gets. cbn.
  destruct (Z.ltb_spec (iterator_direction ty) 0); [|lia]. rewrite Hp, Ht.
  destruct l1 as [|x l1 _] using rev_ind; [apply wpx_ret; by apply H1|]. rewrite tree_prev_at.
  apply wpx_bind. eapply (wpx_get_elem F _ _ x).
  { rewrite Ht, <- app_assoc. apply lookup_at. }
  apply wpx_bind, wpx_modify, wpx_ret. eapply H2; [done|done|]. split; [|done|done]. by rewrite Ht, <- app_assoc.
Qed.

(** ** Skipping statements the read view does not see *)

Definition stops (e : stmt) : bool := bool_decide (ty = ITER_EQ) && key_mismatch key e.

Definition stands_list (i : itr) l1 l : Prop := match l with [] => False | e :: l2 => stands tree i l1 e l2 end.

Lemma kept_refl i : kept i i.
Proof. done. Qed.
Lemma kept_trans i1 i2 i3 : kept i1 i2 -> kept i2 i3 -> kept i1 i3.
Proof. unfold kept. intros (?&?&?&?) (?&?&?&?). split_and!; congruence. Qed.

Lemma skip_forward_found F hs : forall fuel i l1 x l3 (Q : Z -> itr -> Prop),
  0 < iterator_direction ty -> stands_list i l1 (hs ++ x :: l3) -> (length hs <= fuel)%nat ->
  Forall (fun h => hid h = true) hs -> hid x = false -> Forall (fun y => stops y = false) (tail (hs ++ [x])) ->
  (forall i', kept i i' -> stands tree i' (l1 ++ hs) x l3 -> Q 0 i') ->
  wpx F (skip_hidden m ty key vlsn fuel) Q i.
Proof.
  induction hs as [|h hs IH]; intros fuel i l1 x l3 Q Hd Hs Hfuel Hh Hx Hst HQ.
  - cbn in Hs. assert (wpx F (if hid x then abort else mret 0) Q i) as H.
    { rewrite Hx. apply wpx_ret, HQ; [done|]. by rewrite app_nil_r. }
    destruct fuel; cbn [skip_hidden]; apply wpx_bind; (eapply wpx_get_curr; [apply Hs|]); rewrite Hx in *; done.
  - cbn in Hs. destruct fuel as [|fuel]; [cbn in Hfuel; lia|]. cbn [skip_hidden]. apply wpx_bind.
    eapply wpx_get_curr; [apply Hs|]. rewrite (Forall_inv Hh). apply Forall_inv_tail in Hh.
    apply wpx_bind. eapply step_forward; [done|exact Hs|intros E; by destruct hs|].
    intros y l2' i' El Hk Hs'. cbn [Z.eqb negb]. apply wpx_bind. eapply wpx_get_curr; [apply Hs'|].
    cbn [tail app] in Hst. fold (stops y).
    assert (stops y = false) as -> by (destruct hs; cbn in El; injection El as <- ?; by apply Forall_inv in Hst).
    eapply (IH fuel i' (l1 ++ [h]) x l3); try done.
    + by rewrite El.
    + cbn in Hfuel. lia.
    + destruct hs; cbn in *; [constructor|]. by apply Forall_inv_tail in Hst.
    + intros i2 Hk2 Hs2. apply HQ; [by eapply kept_trans|]. by rewrite <- app_assoc in Hs2.
Qed.

Lemma skip_forward_none F hs : forall fuel i l1 l3 (Q : Z -> itr -> Prop),
  0 < iterator_direction ty -> hs <> [] -> stands_list i l1 (hs ++ l3) -> (length hs <= fuel)%nat ->
  Forall (fun h => hid h = true) hs -> Forall (fun y => stops y = false) (tail hs) ->
  match l3 with [] => True | y :: _ => stops y = true end ->
  (forall i', kept i i' -> mi_curr i' = None -> Q 1 i') ->
  wpx F (skip_hidden m ty key vlsn fuel) Q i.
Proof.
  induction hs as [|h hs IH]; intros fuel i l1 l3 Q Hd Hne Hs Hfuel Hh Hst Hl3 HQ; [done|].
  cbn in Hs. destruct fuel as [|fuel]; [cbn in Hfuel; lia|]. cbn [skip_hidden]. apply wpx_bind.
  eapply wpx_get_curr; [apply Hs|]. rewrite (Forall_inv Hh). apply Forall_inv_tail in Hh.
  apply wpx_bind. eapply step_forward; [done|exact Hs| |].
  { intros E i' Hk. cbn [Z.eqb negb]. apply wpx_bind, wpx_modify, wpx_ret. by apply HQ. }
  intros y l2' i' El Hk Hs'. cbn [Z.eqb negb]. apply wpx_bind. eapply wpx_get_curr; [apply Hs'|]. fold (stops y).
  destruct hs as [|h2 hs].
  - cbn in El. rewrite El in Hl3. rewrite Hl3. apply wpx_bind, wpx_modify, wpx_ret. by apply HQ.
  - injection El as <- <-. cbn [tail] in Hst. rewrite (Forall_inv Hst). eapply (IH fuel i' (l1 ++ [h])); try done.
    + exact Hs'.
    + cbn [length] in *. lia.
    + by apply Forall_inv_tail in Hst.
    + intros i2 Hk2 Hc2. apply HQ; [by eapply kept_trans|done].
Qed.

Lemma skip_backward_found F hs : forall fuel i l1 x l3 (Q : Z -> itr -> Prop),
  iterator_direction ty < 0 -> (match hs with [] => stands tree i l1 x l3 | h :: hs' => stands tree i (l1 ++ x :: rev hs') h l3 end) ->
  (length hs <= fuel)%nat -> Forall (fun h => hid h = true) hs -> hid x = false ->
  (forall i', kept i i' -> stands tree i' l1 x (rev hs ++ l3) -> Q 0 i') ->
  wpx F (skip_hidden m ty key vlsn fuel) Q i.
Proof.
  assert (forall y, iterator_direction ty < 0 -> stops y = false) as Hns.
  { intros y. unfold stops. by destruct ty. }
  induction hs as [|h hs IH]; intros fuel i l1 x l3 Q Hd Hs Hfuel Hh Hx HQ.
  - destruct fuel; cbn [skip_hidden]; apply wpx_bind; (eapply wpx_get_curr; [apply Hs|]); rewrite Hx;
      apply wpx_ret, HQ; done.
  - destruct fuel as [|fuel]; [cbn in Hfuel; lia|]. cbn [skip_hidden]. apply wpx_bind.
    eapply wpx_get_curr; [apply Hs|]. rewrite (Forall_inv Hh). apply Forall_inv_tail in Hh.
    apply wpx_bind. eapply step_backward; [done|exact Hs|intros E; by apply app_eq_nil in E as [_ ?]|].
    intros y l1' i' El Hk Hs'. cbn [Z.eqb negb]. apply wpx_bind. eapply wpx_get_curr; [apply Hs'|].
    fold (stops y). rewrite Hns by done.
    eapply (IH fuel i' l1 x (h :: l3)); try done.
    + destruct hs as [|h2 hs]; cbn [rev] in El.
      * apply app_inj_tail in El as [-> ->]. done.
      * rewrite app_comm_cons, app_assoc in El. apply app_inj_tail in El as [<- <-]. done.
    + cbn in Hfuel. lia.
    + intros i2 Hk2 Hs2. apply HQ; [by eapply kept_trans|]. cbn [rev]. by rewrite <- app_assoc.
Qed.

Lemma skip_backward_none F hs : forall fuel i l3 h (Q : Z -> itr -> Prop),
  iterator_direction ty < 0 -> stands tree i (rev hs) h l3 ->
  (length hs < fuel)%nat -> Forall (fun h => hid h = true) (h :: hs) ->
  (forall i', kept i i' -> mi_curr i' = None -> Q 1 i') ->
  wpx F (skip_hidden m ty key vlsn fuel) Q i.
Proof.
  assert (forall y, iterator_direction ty < 0 -> stops y = false) as Hns.
  { intros y. unfold stops. by destruct ty. }
  induction hs as [|h2 hs IH]; intros fuel i l3 h Q Hd Hs Hfuel Hh HQ.
  all: destruct fuel as [|fuel]; [lia|]; cbn [skip_hidden]; apply wpx_bind; (eapply wpx_get_curr; [apply Hs|]);
    rewrite (Forall_inv Hh); apply Forall_inv_tail in Hh; apply wpx_bind; (eapply step_backward; [done|exact Hs| |]).
  - intros _ i' Hk. cbn [Z.eqb negb]. apply wpx_bind, wpx_modify, wpx_ret. by apply HQ.
  - intros x l1' i' El. by destruct l1'.
  - intros E. cbn in E. by apply app_eq_nil in E as [_ ?].
  - intros x l1' i' El Hk Hs'. cbn [rev] in El. apply app_inj_tail in El as [<- <-].
    cbn [Z.eqb negb]. apply wpx_bind. eapply wpx_get_curr; [apply Hs'|]. fold (stops h2). rewrite Hns by done.
    eapply (IH fuel i' _ h2); try done; [cbn [length] in *; lia|]. intros i2 Hk2 Hc2. apply HQ; [by eapply kept_trans|done].
Qed.

(** ** The first statement of the next key that the read view sees *)

Definition seen g : list stmt := filter (fun x => hid x = false) g.

Lemma seen_first g :
  (Forall (fun x => hid x = true) g /\ seen g = []) \/
  exists h1 x h2, g = h1 ++ x :: h2 /\ Forall (fun h => hid h = true) h1 /\ hid x = false.
Proof.
  induction g as [|x g IH]; [left; done|]. destruct (hid x) eqn:Ex; [|right; by exists [], x, g].
  destruct IH as [[IH1 IH2]|(h1 & y & h2 & -> & Hh & Hy)].
  - left. split; [by constructor|]. unfold seen in *. by rewrite filter_cons_False by congruence.
  - right. exists (x :: h1), y, h2. split_and!; [done|by constructor|done].
Qed.
Lemma seen_last g :
  (Forall (fun x => hid x = true) g /\ seen g = []) \/
  exists h1 x h2, g = h1 ++ x :: h2 /\ Forall (fun h => hid h = true) h2 /\ hid x = false.
Proof.
  induction g as [|x g IH] using rev_ind; [left; done|]. destruct (hid x) eqn:Ex; [|right; by exists g, x, []].
  destruct IH as [[IH1 IH2]|(h1 & y & h2 & -> & Hh & Hy)].
  - left. split; [by apply Forall_app_2; [|constructor]|]. unfold seen in *.
    by rewrite filter_app, IH2, filter_cons_False by congruence.
  - right. exists h1, y, (h2 ++ [x]). split_and!; [by rewrite <- app_assoc| |done].
    by apply Forall_app_2; [|constructor].
Qed.

(** The groups to come, up to the first with something to see. *)
Fixpoint next_seen (todo : list (list stmt)) : option (list stmt * list (list stmt)) :=
  match todo with
  | [] => None
  | g :: todo => match seen g with [] => next_seen todo | _ => Some (g, todo) end
  end.

Lemma next_seen_split todo :
  match next_seen todo with
  | Some (g, rest) => exists past, todo = past ++ g :: rest /\ Forall (fun g => seen g = []) past /\ seen g <> []
  | None => Forall (fun g => seen g = []) todo
  end.
Proof.
  induction todo as [|g todo IH]; [constructor|]. cbn. destruct (seen g) as [|x l] eqn:E.
  - destruct (next_seen todo) as [[g' rest]|]; [|by constructor].
    destruct IH as (past & -> & Hp & Hg). exists (g :: past). split_and!; [done|by constructor|done].
  - exists []. split_and!; [done|done|congruence].
Qed.

Lemma hidden_group g : seen g = [] -> Forall (fun x => hid x = true) g.
Proof.
  intros E. destruct (seen_first g) as [[H _]|(h1 & x & h2 & -> & _ & Hx)]; [done|]. exfalso.
  assert (x ∈ seen (h1 ++ x :: h2)) as Hin.
  { apply list_elem_of_filter. split; [done|]. apply elem_of_app. right. by left. }
  rewrite E in Hin. by apply elem_of_nil in Hin.
Qed.
Lemma hidden_groups gs : Forall (fun g => seen g = []) gs -> Forall (fun x => hid x = true) (concat gs).
Proof. induction 1 as [|g gs Hg Hgs IH]; [constructor|]. cbn. apply Forall_app_2; [by apply hidden_group|done]. Qed.

(** The iterator stands at the first statement of the group [g] that the read
    view sees. *)
Definition landed (i : itr) gs1 g gs2 : Prop := exists h1 x h2,
  g = h1 ++ x :: h2 /\ Forall (fun h => hid h = true) h1 /\ hid x = false /\
  stands tree i (concat gs1 ++ h1) x (h2 ++ concat gs2).

Context (gs : list (list stmt)) (Htree : tree = concat gs) (Hgs : grouped gs).

(** Keys in which an EQ iterator stops, and no other. *)
Definition stopping (g : list stmt) : bool := match g with x :: _ => stops x | [] => false end.

(** Equal tuples compare with a key in the same way. *)
Lemma key_flip_zero (t : T) (k : K) : key_compare_with_tuple k t = 0 <-> tuple_compare_with_key t k = 0.
Proof. pose proof (key_flip_lt t k). pose proof (key_flip_gt t k). lia. Qed.
Lemma same_key_compare (k : K) (a b : T) :
  same_key a b -> tuple_compare_with_key a k = 0 <-> tuple_compare_with_key b k = 0.
Proof.
  intros H. assert (tuple_compare b a = 0) as H' by (symmetry in H; exact H). unfold same_key in H.
  pose proof (key_le a b k). pose proof (key_le b a k). pose proof (key_lt a b k). pose proof (key_lt b a k). lia.
Qed.
Lemma stopping_all g : key_group g -> Forall (fun x => stops x = stopping g) g.
Proof.
  intros [_ Hs _]. apply Forall_forall. intros x Hx. destruct g as [|y g]; [by apply elem_of_nil in Hx|]. cbn.
  unfold stops. f_equal. unfold key_mismatch. destruct key as [k|]; [|done]. f_equal.
  apply eq_true_iff_eq. rewrite !Z.eqb_eq, !key_flip_zero. apply same_key_compare, Hs; [done|by left].
Qed.

Lemma stops_concat todo :
  Forall key_group todo -> Forall (fun g => stopping g = false) todo -> Forall (fun x => stops x = false) (concat todo).
Proof.
  intros Hk Hst. induction Hst as [|g todo H1 H2 IH]; [constructor|]. inversion Hk as [|?? K1 K2]; subst.
  cbn. apply Forall_app_2; [|by apply IH]. rewrite <- H1. by apply stopping_all.
Qed.

Lemma tree_length l1 l : tree = l1 ++ l -> (length l <= length tree)%nat.
Proof. intros ->. rewrite length_app. lia. Qed.

(** Forward, from the first statement of a group. *)
Lemma find_forward F i gs1 todo rest (Q : Z -> itr -> Prop) :
  0 < iterator_direction ty -> gs = gs1 ++ todo ++ rest -> todo <> [] ->
  Forall (fun g => stopping g = false) todo -> match rest with [] => True | g :: _ => stopping g = true end ->
  stands_list i (concat gs1) (concat (todo ++ rest)) ->
  (next_seen todo = None -> forall i', kept i i' -> mi_curr i' = None -> Q 1 i') ->
  (forall past g later, next_seen todo = Some (g, later) -> todo = past ++ g :: later -> forall i', kept i i' ->
     landed i' (gs1 ++ past) g (later ++ rest) -> Q 0 i') ->
  wpx F (vy_mem_iterator_find_lsn m ty key vlsn) Q i.
Proof.
  intros Hd Eg Hne Hst Hrest Hs HN HS.
  assert (Forall key_group gs) as Hk by apply Hgs. rewrite Eg in Hk.
  apply Forall_app in Hk as [_ Hk]. apply Forall_app in Hk as [Hk Hkr].
  pose proof (stops_concat todo Hk Hst) as Hst'. rewrite concat_app in Hs.
  assert (length (concat todo ++ concat rest) <= length tree)%nat as Hlen.
  { apply (tree_length (concat gs1)). by rewrite Htree, Eg, !concat_app. }
  unfold vy_mem_iterator_find_lsn. apply wpx_bind, wpx_assert.
  { destruct (concat todo ++ concat rest) as [|x l]; [done|]. by eapply at_curr_ok. }
  apply wpx_bind. pose proof (next_seen_split todo) as Hn. destruct (next_seen todo) as [[g later]|] eqn:En.
  - destruct Hn as (past & Ep & Hp & Hg). destruct (seen_first g) as [[_ ?]|(h1 & x & h2 & E & Hh1 & Hx)]; [done|].
    assert (concat todo = (concat past ++ h1) ++ x :: h2 ++ concat later) as Ec.
    { rewrite Ep, concat_app. cbn. by rewrite E, <- !app_assoc. }
    eapply (skip_forward_found F (concat past ++ h1) _ i (concat gs1) x (h2 ++ concat later ++ concat rest)); try done.
    + rewrite Ec, <- app_assoc in Hs. cbn [app] in Hs. by rewrite <- (app_assoc h2) in Hs.
    + rewrite Ec, !length_app in Hlen. cbn [length] in Hlen. rewrite length_app. lia.
    + apply Forall_app_2; [by apply hidden_groups|done].
    + rewrite Ec, cons_middle, app_assoc in Hst'. apply Forall_app in Hst' as [Hst' _].
      destruct (concat past ++ h1); [constructor|]. by apply Forall_inv_tail in Hst'.
    + intros i' Hk' Hs'. cbn [Z.eqb negb]. destruct (Z.ltb_spec 0 (iterator_direction ty)); [|lia].
      apply wpx_ret. eapply (HS past); [done|done|done|]. exists h1, x, h2. split_and!; try done.
      by rewrite !concat_app, <- app_assoc.
  - eapply (skip_forward_none F (concat todo) _ i (concat gs1) (concat rest)); try done.
    + intros E. destruct todo as [|g todo]; [done|]. inversion Hk as [|?? [Hgn _ _] _]; subst. cbn in E.
      by apply app_eq_nil in E as [? _].
    + rewrite length_app in Hlen. lia.
    + by apply hidden_groups.
    + destruct (concat todo); [constructor|]. by apply Forall_inv_tail in Hst'.
    + destruct rest as [|g rest]; [done|]. cbn. inversion Hkr as [|?? Kg _]; subst. pose proof (kg_ne _ Kg).
      destruct g; [done|]. done.
    + intros i' Hk' Hc. cbn [Z.eqb negb]. apply wpx_ret. by apply HN.
Qed.

(** ** Backward: from the oldest visible statement of a key to the newest *)

Context (Hvlsn : vlsn <> INT64_MAX - 1).

Lemma split_lsn g : key_group g -> exists a b,
  g = a ++ b /\ Forall (fun x => vlsn < s_lsn x) a /\ Forall (fun x => s_lsn x <= vlsn) b.
Proof.
  intros [_ _ Hs]. induction Hs as [|x g Hs IH Hf]; [by exists [], []|].
  destruct (Z.le_gt_cases (s_lsn x) vlsn) as [Hx|Hx].
  - exists [], (x :: g). split_and!; [done|constructor|]. constructor; [done|].
    eapply Forall_impl; [exact Hf|]. cbn. lia.
  - destruct IH as (a & b & -> & Ha & Hb). exists (x :: a), b. split_and!; [done| |done]. by constructor; [lia|].
Qed.
Lemma hidden_lsn x : vlsn < s_lsn x -> hid x = true.
Proof. intros H. unfold hidden. destruct (Z.ltb_spec vlsn (s_lsn x)); [done|lia]. Qed.
Lemma hidden_flag x : has_flag VY_STMT_SKIP_READ x = true -> hid x = true.
Proof. intros H. unfold hidden. by rewrite H, orb_true_r. Qed.
Lemma seen_stmt x : hid x = false <-> s_lsn x <= vlsn /\ has_flag VY_STMT_SKIP_READ x = false.
Proof. unfold hidden. rewrite orb_false_iff. rewrite Z.ltb_ge. done. Qed.

Lemma groups_below gs1 g gs2 x y :
  gs = gs1 ++ g :: gs2 -> x ∈ concat gs1 -> y ∈ g -> tuple_compare (s_tuple x) (s_tuple y) < 0.
Proof.
  intros E Hx Hy. pose proof (gr_order _ Hgs) as Ho. rewrite E in Ho.
  apply list_elem_of_In, in_concat in Hx as (g' & Hg' & Hx). apply list_elem_of_In in Hg', Hx.
  apply (StronglySorted_app_1_elem_of _ _ _ g' g Ho Hg'); [by left|done|done].
Qed.
Lemma groups_above gs1 g gs2 x y :
  gs = gs1 ++ g :: gs2 -> x ∈ g -> y ∈ concat gs2 -> tuple_compare (s_tuple x) (s_tuple y) < 0.
Proof.
  intros E Hx Hy. pose proof (gr_order _ Hgs) as Ho. rewrite E in Ho.
  apply StronglySorted_app_1_r in Ho. apply StronglySorted_inv in Ho as [_ Ho]. rewrite Forall_forall in Ho.
  apply list_elem_of_In, in_concat in Hy as (g' & Hg' & Hy). apply list_elem_of_In in Hg', Hy.
  by apply (Ho g' Hg').
Qed.
Lemma group_in gs1 g gs2 : gs = gs1 ++ g :: gs2 -> key_group g.
Proof. intros E. pose proof (gr_group _ Hgs) as Hk. rewrite E in Hk. apply Forall_app in Hk as [_ Hk]. by apply Forall_inv in Hk. Qed.

(** The first statement of the key that is not newer than the read view. *)
Lemma lower_bound_lsn gs1 g gs2 a b x :
  gs = gs1 ++ g :: gs2 -> g = a ++ b -> b <> [] -> Forall (fun x => vlsn < s_lsn x) a ->
  Forall (fun x => s_lsn x <= vlsn) b -> x ∈ g ->
  lower_bound tree (s_tuple x) vlsn = Some (length (concat gs1 ++ a)).
Proof.
  intros E Eg Hb Ha Hb' Hx. pose proof (group_in _ _ _ E) as [_ Hsame _].
  assert (tree = (concat gs1 ++ a) ++ b ++ concat gs2) as Et.
  { rewrite Htree, E, concat_app. cbn. by rewrite Eg, <- !app_assoc. }
  unfold lower_bound. rewrite Et, bound_spec.
  - destruct b; [done|]. done.
  - apply Forall_app_2; apply Forall_forall; intros y Hy; unfold vy_mem_tree_cmp_key; cbn [tuple_compare_with_key search_tuples].
    + pose proof (groups_below _ _ _ y x E Hy Hx). destruct (Z.eqb_spec (tuple_compare (s_tuple y) (s_tuple x)) 0); lia.
    + rewrite Forall_forall in Ha. specialize (Ha y Hy).
      assert (tuple_compare (s_tuple y) (s_tuple x) = 0) as -> by (apply Hsame; [rewrite Eg; set_solver|done]).
      cbn. destruct (Z.eqb_spec vlsn (INT64_MAX - 1)); [done|]. destruct (Z.ltb_spec vlsn (s_lsn y)); [done|lia].
  - destruct b as [|y b]; [done|]. cbn. pose proof (Forall_inv Hb') as Hy. unfold vy_mem_tree_cmp_key; cbn [tuple_compare_with_key search_tuples].
    assert (tuple_compare (s_tuple y) (s_tuple x) = 0) as -> by (apply Hsame; [rewrite Eg; set_solver|done]).
    cbn. destruct (Z.eqb_spec vlsn (INT64_MAX - 1)); [done|]. cbn in Hy.
    destruct (Z.ltb_spec vlsn (s_lsn y)); [lia|]. by destruct (s_lsn y <? vlsn).
Qed.

Lemma skip_read_spec F sk : forall fuel i l1 y l2 (Q : unit -> itr -> Prop),
  stands_list i l1 (sk ++ y :: l2) -> (length sk <= fuel)%nat ->
  Forall (fun x => has_flag VY_STMT_SKIP_READ x = true) sk -> has_flag VY_STMT_SKIP_READ y = false ->
  (forall i', kept i i' -> stands tree i' (l1 ++ sk) y l2 -> Q tt i') ->
  wpx F (skip_read_loop m fuel) Q i.
Proof.
  induction sk as [|x sk IH]; intros fuel i l1 y l2 Q Hs Hfuel Hsk Hy HQ.
  - destruct fuel; cbn [skip_read_loop]; apply wpx_bind; (eapply wpx_get_curr; [apply Hs|]); rewrite Hy;
      apply wpx_ret, HQ; try done; by rewrite app_nil_r.
  - cbn in Hs. destruct fuel as [|fuel]; [cbn in Hfuel; lia|]. cbn [skip_read_loop]. apply wpx_bind.
    eapply wpx_get_curr; [apply Hs|]. rewrite (Forall_inv Hsk). apply Forall_inv_tail in Hsk.
    apply wpx_bind, wpx_modify, wpx_bind, wpx_gets. pose proof Hs as [Ht Hp Hc]. cbn [mi_curr_pos update].
    destruct (sk ++ y :: l2) as [|z l] eqn:Ez; [by destruct sk|].
    assert (tree_next tree (Some (length l1)) = Some (length (l1 ++ [x]))) as En by (by rewrite Ht, tree_next_at).
    cbn. rewrite Hp, En. apply wpx_bind. eapply (wpx_get_elem F _ _ z).
    { rewrite Ht. replace (l1 ++ x :: z :: l) with ((l1 ++ [x]) ++ z :: l) by (by rewrite <- app_assoc). apply lookup_at. }
    apply wpx_bind, wpx_modify. eapply (IH fuel _ (l1 ++ [x]) y l2); try done.
    + rewrite Ez. split; [by rewrite <- app_assoc|done|done].
    + cbn in Hfuel. lia.
    + intros i' Hk Hs'. apply HQ; [done|]. by rewrite <- app_assoc in Hs'.
Qed.

Lemma flags_split b x :
  x ∈ b -> has_flag VY_STMT_SKIP_READ x = false -> exists sk y b', b = sk ++ y :: b' /\
    Forall (fun x => has_flag VY_STMT_SKIP_READ x = true) sk /\ has_flag VY_STMT_SKIP_READ y = false.
Proof.
  induction b as [|z b IH]; intros Hx Hf; [by apply elem_of_nil in Hx|].
  destruct (has_flag VY_STMT_SKIP_READ z) eqn:Ez; [|by exists [], z, b].
  apply elem_of_cons in Hx as [->|Hx]; [congruence|]. destruct (IH Hx Hf) as (sk & y & b' & -> & Hsk & Hy).
  exists (z :: sk), y, b'. split_and!; [done|by constructor|done].
Qed.

(** The part of vy_mem_iterator_find_lsn that follows the loop. *)
Lemma newest_backward F i gs1 g gs2 h1 x h2 (Q : Z -> itr -> Prop) :
  gs = gs1 ++ g :: gs2 -> g = h1 ++ x :: h2 -> hid x = false ->
  stands tree i (concat gs1 ++ h1) x (h2 ++ concat gs2) ->
  (forall i', kept i i' -> landed i' gs1 g gs2 -> Q 0 i') ->
  wpx F (pos ← gets mi_curr_pos;
         curr ← get_curr;
         match tree_prev tree pos with
         | None => mret 0
         | Some p =>
             prev ← get_elem m (Some p);
             if (vlsn <? s_lsn prev) || negb (tuple_compare (s_tuple curr) (s_tuple prev) =? 0) then mret 0
             else
               modify (fun i => i <| mi_curr_pos := lower_bound tree (s_tuple curr) vlsn |>);;
               pos ← gets mi_curr_pos;
               e ← get_elem m pos;
               modify (fun i => i <| mi_curr := Some e |>);;
               skip_read_loop m (length tree);;
               mret 0
         end) Q i.
Proof.
  intros E Eg Hx Hs HQ. pose proof Hs as [Ht Hp Hc]. pose proof (group_in _ _ _ E) as Hk.
  apply wpx_bind, wpx_gets, wpx_bind. eapply wpx_get_curr; [done|]. rewrite Hp.
  assert (forall i', kept i i' -> Forall (fun h => hid h = true) h1 -> mi_curr_pos i' = mi_curr_pos i -> mi_curr i' = mi_curr i -> Q 0 i') as Hstay.
  { intros i' Hk' Hh Hp' Hc'. apply HQ; [done|]. exists h1, x, h2. split_and!; try done. split; congruence. }
  remember (concat gs1 ++ h1) as l eqn:El. destruct l as [|p l _] using rev_ind.
  { symmetry in El. apply app_eq_nil in El as [_ ->]. apply wpx_ret. by apply Hstay. }
  rewrite Ht at 1. rewrite tree_prev_at. apply wpx_bind. eapply (wpx_get_elem F _ _ p).
  { rewrite Ht, <- app_assoc. apply lookup_at. }
  destruct (_ || _) eqn:Eb.
  - apply wpx_ret, Hstay; try done. destruct h1 as [|q h1 _] using rev_ind; [constructor|].
    rewrite app_assoc in El. apply app_inj_tail in El as [_ ->].
    destruct Hk as [_ Hsame Hsort]. rewrite Eg in Hsort, Hsame.
    assert (tuple_compare (s_tuple x) (s_tuple q) = 0) as Ek by (apply Hsame; set_solver).
    rewrite Ek, orb_false_r in Eb. apply Z.ltb_lt in Eb.
    apply Forall_forall. intros y Hy. apply hidden_lsn. apply elem_of_app in Hy as [Hy|Hy]; [|set_solver].
    rewrite <- app_assoc in Hsort.
    pose proof (StronglySorted_app_1_elem_of _ _ _ y q Hsort Hy ltac:(set_solver)) as Hlt. cbn in Hlt. lia.
  - apply orb_false_iff in Eb as [Eb1 Eb2]. apply Z.ltb_ge in Eb1.
    destruct (split_lsn g Hk) as (a & b & Eab & Ha & Hb). apply seen_stmt in Hx as [Hxl Hxf].
    assert (x ∈ b) as Hxb.
    { assert (x ∈ g) as Hxg by (rewrite Eg; set_solver). rewrite Eab in Hxg. apply elem_of_app in Hxg as [Hxg|]; [|done].
      rewrite Forall_forall in Ha. specialize (Ha x Hxg). lia. }
    destruct (flags_split b x Hxb Hxf) as (sk & y & b' & Ebs & Hsk & Hy).
    apply wpx_bind, wpx_modify, wpx_bind, wpx_gets. cbn [mi_curr_pos update].
    assert (lower_bound tree (s_tuple x) vlsn = Some (length (concat gs1 ++ a))) as Elb.
    { eapply lower_bound_lsn; try done; [intros ->; by apply elem_of_nil in Hxb|rewrite Eg; set_solver]. }
    assert (tree = (concat gs1 ++ a) ++ (sk ++ y :: b') ++ concat gs2) as Et.
    { rewrite Htree, E, concat_app. cbn. by rewrite Eab, Ebs, <- !app_assoc. }
    cbn. rewrite Elb. destruct ((sk ++ y :: b') ++ concat gs2) as [|z l'] eqn:Ez; [by destruct sk|].
    apply wpx_bind. eapply (wpx_get_elem F _ _ z); [rewrite Et; apply lookup_at|].
    apply wpx_bind, wpx_modify, wpx_bind.
    eapply (skip_read_spec F sk _ _ (concat gs1 ++ a) y (b' ++ concat gs2)); try done.
    + rewrite <- app_assoc in Ez. cbn in Ez. rewrite Ez. done.
    + rewrite Et, length_app, <- Ez, !length_app. lia.
    + intros i' Hk' Hs'. apply wpx_ret, HQ; [done|]. exists (a ++ sk), y, b'.
      rewrite Eab, Ebs. split_and!; [by rewrite <- app_assoc| | |by rewrite app_assoc].
      * apply Forall_app_2; (eapply Forall_impl; [eassumption|]); [apply hidden_lsn|apply hidden_flag].
      * apply seen_stmt. split; [|done]. rewrite Ebs in Hb. rewrite Forall_forall in Hb. apply Hb. set_solver.
Qed.

(** The iterator stands at the last statement of [l]. *)
Definition stands_last (i : itr) l l2 : Prop := exists l1 e, l = l1 ++ [e] /\ stands tree i l1 e l2.

Lemma stands_last_at i l1 e hs l2 :
  stands_last i (l1 ++ e :: rev hs) l2 ->
  match hs with [] => stands tree i l1 e l2 | h :: hs' => stands tree i (l1 ++ e :: rev hs') h l2 end.
Proof.
  intros (l & x & E & Hs). destruct hs as [|h hs]; cbn [rev] in E.
  - apply app_inj_tail in E as [-> ->]. done.
  - rewrite app_comm_cons, app_assoc in E. apply app_inj_tail in E as [<- <-]. done.
Qed.

(** Backward, from the last statement of a group. *)
Lemma find_backward F i todo gs2 (Q : Z -> itr -> Prop) :
  iterator_direction ty < 0 -> gs = rev todo ++ gs2 -> stands_last i (concat (rev todo)) (concat gs2) ->
  (next_seen todo = None -> forall i', kept i i' -> mi_curr i' = None -> Q 1 i') ->
  (forall past g later, next_seen todo = Some (g, later) -> todo = past ++ g :: later -> forall i', kept i i' ->
     landed i' (rev later) g (rev past ++ gs2) -> Q 0 i') ->
  wpx F (vy_mem_iterator_find_lsn m ty key vlsn) Q i.
Proof.
  intros Hd Eg Hs HN HS. unfold vy_mem_iterator_find_lsn. apply wpx_bind, wpx_assert.
  { destruct Hs as (l1 & e & _ & Hs). by eapply at_curr_ok. }
  assert (tree = concat (rev todo) ++ concat gs2) as Et by (by rewrite Htree, Eg, concat_app).
  apply wpx_bind. pose proof (next_seen_split todo) as Hn. destruct (next_seen todo) as [[g later]|] eqn:En.
  - destruct Hn as (past & Ep & Hp & Hg). destruct (seen_last g) as [[_ ?]|(h1 & x & h2 & E & Hh2 & Hx)]; [done|].
    assert (concat (rev todo) = (concat (rev later) ++ h1) ++ x :: h2 ++ concat (rev past)) as Ec.
    { rewrite Ep, rev_app_distr, concat_app. cbn [rev]. rewrite concat_app. cbn. by rewrite E, app_nil_r, <- !app_assoc. }
    rewrite Ec in Hs. rewrite <- (rev_involutive (h2 ++ concat (rev past))) in Hs. apply stands_last_at in Hs.
    eapply (skip_backward_found F (rev (h2 ++ concat (rev past)))); [done|exact Hs| | |done|].
    + rewrite Et, Ec, length_rev, !length_app. cbn. rewrite !length_app. lia.
    + apply Forall_rev, Forall_app_2; [done|]. apply hidden_groups. by apply Forall_rev.
    + intros i' Hk Hs'. cbn [Z.eqb negb]. destruct (Z.ltb_spec 0 (iterator_direction ty)); [lia|].
      rewrite rev_involutive, <- app_assoc in Hs'.
      eapply (newest_backward F i' (rev later) g (rev past ++ gs2) h1 x h2); [|done|done|by rewrite concat_app|].
      * rewrite Eg, Ep, rev_app_distr. cbn. by rewrite <- !app_assoc.
      * intros i2 Hk2 Hl. eapply HS; [done|done|by eapply kept_trans|done].
  - destruct Hs as (l1 & e & El & Hs).
    assert (Forall (fun x => hid x = true) (concat (rev todo))) as Hh by (apply hidden_groups; by apply Forall_rev).
    rewrite El in Hh. apply Forall_app in Hh as [Hh1 Hhe].
    eapply (skip_backward_none F (rev l1) _ i (concat gs2) e); [done|by rewrite rev_involutive| | |].
    + rewrite Et, El, length_rev, !length_app. cbn. lia.
    + constructor; [by apply Forall_inv in Hhe|by apply Forall_rev].
    + intros i' Hk Hc. cbn [Z.eqb negb]. apply wpx_ret. by apply HN.
Qed.

(** ** The history of the key *)

(** The iterator stands somewhere in the group [g]. *)
Definition inside (i : itr) gs1 g gs2 : Prop := exists h1 x h2, g = h1 ++ x :: h2 /\
  stands tree i (concat gs1 ++ h1) x (h2 ++ concat gs2).

Definition noskip l : list stmt := filter (fun x => has_flag VY_STMT_SKIP_READ x = false) l.

Lemma next_lsn_step F gs1 g gs2 h1 x y h2 fuel i (Q : Z -> itr -> Prop) :
  gs = gs1 ++ g :: gs2 -> g = h1 ++ x :: y :: h2 -> stands tree i (concat gs1 ++ h1) x ((y :: h2) ++ concat gs2) ->
  (forall i', kept i i' -> stands tree i' (concat gs1 ++ (h1 ++ [x])) y (h2 ++ concat gs2) ->
     wpx F (if has_flag VY_STMT_SKIP_READ y then next_lsn_loop m fuel (mi_curr_pos i') else mret 0) Q i') ->
  wpx F (next_lsn_loop m (S fuel) (mi_curr_pos i)) Q i.
Proof.
  intros E Eg Hs HQ. pose proof (group_in _ _ _ E) as [_ Hsame _]. cbn [next_lsn_loop]. pose proof Hs as [Ht Hp Hc].
  rewrite Hp. rewrite Ht at 1. cbn [app]. rewrite tree_next_at. apply wpx_bind. eapply (wpx_get_elem F _ _ y).
  { rewrite Ht. cbn [app]. replace ((concat gs1 ++ h1) ++ x :: y :: h2 ++ concat gs2)
      with (((concat gs1 ++ h1) ++ [x]) ++ y :: h2 ++ concat gs2) by (by rewrite <- app_assoc). apply lookup_at. }
  apply wpx_bind. eapply wpx_get_curr; [done|].
  assert (tuple_compare (s_tuple x) (s_tuple y) = 0) as -> by (apply Hsame; rewrite Eg; set_solver).
  cbn [Z.eqb negb]. apply wpx_bind, wpx_modify.
  match goal with |- wpx F _ Q ?i' => change (Some (length ((concat gs1 ++ h1) ++ [x]))) with (mi_curr_pos i') end.
  apply HQ; [done|]. split; cbn; [|by rewrite app_assoc|done]. rewrite Ht. cbn [app]. by rewrite <- !app_assoc.
Qed.

Lemma next_lsn_found F gs1 g gs2 : gs = gs1 ++ g :: gs2 -> forall sk fuel i h1 x y h2 (Q : Z -> itr -> Prop),
  g = h1 ++ x :: sk ++ y :: h2 -> stands tree i (concat gs1 ++ h1) x ((sk ++ y :: h2) ++ concat gs2) ->
  (length sk < fuel)%nat ->
  Forall (fun x => has_flag VY_STMT_SKIP_READ x = true) sk -> has_flag VY_STMT_SKIP_READ y = false ->
  (forall i', kept i i' -> stands tree i' (concat gs1 ++ h1 ++ x :: sk) y (h2 ++ concat gs2) -> Q 0 i') ->
  wpx F (next_lsn_loop m fuel (mi_curr_pos i)) Q i.
Proof.
  intros E. induction sk as [|z sk IH]; intros fuel i h1 x y h2 Q Eg Hs Hfuel Hsk Hy HQ;
    (destruct fuel as [|fuel]; [cbn in Hfuel; lia|]); (eapply next_lsn_step; [done|exact Eg|exact Hs|]); intros i' Hk Hs'.
  - rewrite Hy. apply wpx_ret. by apply HQ.
  - rewrite (Forall_inv Hsk). apply Forall_inv_tail in Hsk. eapply (IH fuel i' (h1 ++ [x]) z y h2); try done.
    + by rewrite Eg, <- app_assoc.
    + cbn in Hfuel. lia.
    + intros i2 Hk2 Hs2. apply HQ; [by eapply kept_trans|]. by rewrite <- app_assoc in Hs2.
Qed.

Lemma next_lsn_end F gs1 g gs2 : gs = gs1 ++ g :: gs2 -> forall sk fuel i h1 x (Q : Z -> itr -> Prop),
  g = h1 ++ x :: sk -> stands tree i (concat gs1 ++ h1) x (sk ++ concat gs2) -> (length sk < fuel)%nat ->
  Forall (fun x => has_flag VY_STMT_SKIP_READ x = true) sk ->
  (forall i', kept i i' -> inside i' gs1 g gs2 -> Q 1 i') ->
  wpx F (next_lsn_loop m fuel (mi_curr_pos i)) Q i.
Proof.
  intros E. induction sk as [|z sk IH]; intros fuel i h1 x Q Eg Hs Hfuel Hsk HQ;
    (destruct fuel as [|fuel]; [cbn in Hfuel; lia|]).
  - cbn [next_lsn_loop]. pose proof Hs as [Ht Hp Hc]. rewrite Hp. rewrite Ht at 1. cbn [app]. rewrite tree_next_at.
    assert (inside i gs1 g gs2) as Hi by (by exists h1, x, []).
    destruct (concat gs2) as [|y l] eqn:E2; [apply wpx_ret; by apply HQ|].
    apply wpx_bind. eapply (wpx_get_elem F _ _ y).
    { rewrite Ht. cbn [app]. replace ((concat gs1 ++ h1) ++ x :: y :: l)
        with (((concat gs1 ++ h1) ++ [x]) ++ y :: l) by (by rewrite <- app_assoc). apply lookup_at. }
    apply wpx_bind. eapply wpx_get_curr; [done|].
    assert (tuple_compare (s_tuple x) (s_tuple y) < 0) as Hlt.
    { eapply groups_above; [done|rewrite Eg; set_solver|rewrite E2; by left]. }
    destruct (Z.eqb_spec (tuple_compare (s_tuple x) (s_tuple y)) 0); [lia|]. cbn [negb]. apply wpx_ret. by apply HQ.
  - eapply next_lsn_step; [done|exact Eg|exact Hs|]. intros i' Hk Hs'.
    rewrite (Forall_inv Hsk). apply Forall_inv_tail in Hsk. eapply (IH fuel i' (h1 ++ [x]) z); try done.
    + by rewrite Eg, <- app_assoc.
    + cbn in Hfuel. lia.
    + intros i2 Hk2 Hs2. apply HQ; [by eapply kept_trans|done].
Qed.

Lemma noskip_cases l :
  (Forall (fun x => has_flag VY_STMT_SKIP_READ x = true) l /\ noskip l = []) \/
  exists sk y l', l = sk ++ y :: l' /\ Forall (fun x => has_flag VY_STMT_SKIP_READ x = true) sk /\
    has_flag VY_STMT_SKIP_READ y = false /\ noskip l = y :: noskip l'.
Proof.
  unfold noskip. induction l as [|x l IH]; [by left|]. destruct (has_flag VY_STMT_SKIP_READ x) eqn:Ex.
  - rewrite filter_cons_False by congruence. destruct IH as [[H1 H2]|(sk & y & l' & -> & Hsk & Hy & E)].
    + left. split; [by constructor|done].
    + right. exists (x :: sk), y, l'. split_and!; [done|by constructor|done|done].
  - right. exists [], x, l. split_and!; try done. by rewrite filter_cons_True.
Qed.

Record running F (i : itr) : Prop := {
  rn_started : mi_search_started i = true;
  rn_version : mi_version i = mem_version m;
  rn_oom : quiet F (mi_oom i);
}.
Lemma running_kept F i i' : kept i i' -> running F i -> running F i'.
Proof. intros (E1 & E2 & E3 & E4) [R1 R2 R3]. split; [congruence|congruence|by rewrite E4]. Qed.

Lemma next_lsn_spec F gs1 g gs2 h1 x h2 i (Q : Z -> itr -> Prop) :
  gs = gs1 ++ g :: gs2 -> g = h1 ++ x :: h2 -> stands tree i (concat gs1 ++ h1) x (h2 ++ concat gs2) -> running F i ->
  (noskip h2 = [] -> forall i', kept i i' -> inside i' gs1 g gs2 -> Q 1 i') ->
  (forall h1' y h2', g = h1' ++ y :: h2' -> (length h2' < length h2)%nat -> noskip h2 = y :: noskip h2' ->
     forall i', kept i i' -> stands tree i' (concat gs1 ++ h1') y (h2' ++ concat gs2) -> Q 0 i') ->
  wpx F (vy_mem_iterator_next_lsn m) Q i.
Proof.
  intros E Eg Hs [R1 R2 R3] H1 H2. unfold vy_mem_iterator_next_lsn. apply wpx_bind, wpx_assert; [done|].
  apply wpx_bind, wpx_gets. rewrite (sd_curr _ _ _ _ _ Hs).
  apply wpx_bind, wpx_assert; [rewrite R2; apply Z.eqb_refl|].
  apply wpx_bind, wpx_assert; [by eapply at_curr_ok|]. apply wpx_bind, wpx_gets.
  assert (length h2 <= length tree)%nat as Hlen.
  { rewrite (sd_tree _ _ _ _ _ Hs), length_app. cbn [length]. rewrite (length_app h2). lia. }
  destruct (noskip_cases h2) as [[Hsk En]|(sk & y & h2' & E2 & Hsk & Hy & En)].
  - eapply next_lsn_end; [done|exact Eg|done|lia|done|]. intros i' Hk Hi. by apply H1.
  - subst h2. rewrite length_app in Hlen. cbn in Hlen.
    eapply next_lsn_found; [done|exact Eg|done|lia|done|done|]. intros i' Hk Hs'.
    eapply (H2 (h1 ++ x :: sk) y h2'); try done; [by rewrite <- app_assoc|]. rewrite length_app. cbn. lia.
Qed.

Lemma upto_terminal_cons x l :
  upto_terminal false (x :: l) = if has_type IPROTO_UPSERT x then x :: upto_terminal false l else [x].
Proof. done. Qed.

Lemma append_spec F i x (Q : Z -> itr -> Prop) :
  quiet F (mi_oom i) -> (F -> forall i', Q (-1) i') ->
  (forall oom, quiet F oom -> Q 0 (i <| mi_oom := oom |> <| mi_history ::= fun h => h ++ [x] |>)) ->
  wpx F (vy_history_append_stmt x) Q i.
Proof.
  intros Hq HF HQ. assert (wpx F fails (fun b oom => quiet F oom /\ (b = true -> F)) (mi_oom i)) as Hoom
    by (by apply wpx_fails).
  unfold wpx, vy_history_append_stmt in *. destruct (fails (mi_oom i)) as [[[] oom]|]; [| |done];
    destruct Hoom as [Hq' Hb]; [by apply HF, Hb|by apply HQ].
Qed.

Lemma get_history_spec F gs1 g gs2 : gs = gs1 ++ g :: gs2 -> forall fuel i h1 x h2 hist,
  g = h1 ++ x :: h2 -> stands tree i (concat gs1 ++ h1) x (h2 ++ concat gs2) -> (length h2 < fuel)%nat ->
  running F i -> mi_history i = hist ->
  wpx F (get_history_loop m fuel) (fun rc i' => (rc = -1 /\ F) \/
    (rc = 0 /\ mi_history i' = hist ++ upto_terminal false (x :: noskip h2) /\ inside i' gs1 g gs2 /\ running F i')) i.
Proof.
  intros E. induction fuel as [|fuel IH]; intros i h1 x h2 hist Eg Hs Hfuel Hr Eh; [lia|]. cbn [get_history_loop].
  apply wpx_bind. eapply wpx_get_curr; [apply Hs|]. apply wpx_bind.
  destruct Hr as [R1 R2 R3]. apply append_spec; [done|intros HF i'; apply wpx_ret; by left|].
  intros oom Hq. cbn [Z.eqb negb].
  set (i1 := i <| mi_oom := oom |> <| mi_history ::= fun h => h ++ [x] |>).
  assert (stands tree i1 (concat gs1 ++ h1) x (h2 ++ concat gs2)) as Hs1 by (by destruct Hs).
  assert (running F i1) as Hr1 by done. assert (mi_history i1 = hist ++ [x]) as Eh1 by (cbn; by rewrite Eh).
  apply wpx_bind, wpx_gets. unfold vy_history_is_terminal. rewrite Eh1, last_snoc, upto_terminal_cons.
  destruct (has_type IPROTO_UPSERT x) eqn:Ex; cbn [negb].
  2: { apply wpx_ret. right. split_and!; [done|done| |done]. by exists h1, x, h2. }
  apply wpx_bind. eapply (next_lsn_spec F gs1 g gs2 h1 x h2 i1); try done.
  - intros En i' Hk Hi. apply wpx_ret. right. rewrite En. split_and!; [done| |done|by eapply running_kept].
    destruct Hk as (_ & _ & -> & _). done.
  - intros h1' y h2' Eg' Hl En i' Hk Hs'. cbn [Z.eqb]. rewrite En.
    eapply wpx_mono; [eapply (IH i' h1' y h2' (hist ++ [x])); try done; [lia|by eapply running_kept|]|].
    + destruct Hk as (_ & _ & -> & _). done.
    + intros rc i2 [?|(-> & -> & ?)]; [by left|right]. split; [done|]. rewrite <- app_assoc. done.
Qed.

(** What a reader gets for a key. *)
Definition history_of g : list stmt := upto_terminal false (seen g).

Lemma landed_history F i gs1 g gs2 :
  gs = gs1 ++ g :: gs2 -> landed i gs1 g gs2 -> running F i -> mi_history i = [] ->
  wpx F (vy_mem_iterator_get_history m) (fun rc i' => (rc = -1 /\ F) \/
    (rc = 0 /\ mi_history i' = history_of g /\ inside i' gs1 g gs2 /\ running F i')) i.
Proof.
  intros E (h1 & x & h2 & Eg & Hh1 & Hx & Hs) Hr Eh.
  assert (history_of g = upto_terminal false (x :: noskip h2)) as ->.
  { unfold history_of, seen, noskip. f_equal. rewrite Eg, filter_app, filter_none, filter_cons_True by
      (done || (eapply Forall_impl; [exact Hh1|]; cbn; congruence)). cbn. f_equal.
    pose proof (kg_sorted _ (group_in _ _ _ E)) as Hsort. rewrite Eg in Hsort. apply StronglySorted_app_1_r in Hsort.
    apply StronglySorted_inv in Hsort as [_ Hf]. apply seen_stmt in Hx as [Hxl _].
    clear - Hf Hxl. induction Hf as [|y h2 Hy Hf IH]; [done|]. rewrite !filter_cons, IH.
    assert (hid y = has_flag VY_STMT_SKIP_READ y) as ->; [|done].
    unfold hidden. destruct (Z.ltb_spec vlsn (s_lsn y)); [lia|done]. }
  apply (get_history_spec F gs1 g gs2 E _ i h1 x h2 []); try done.
  rewrite (sd_tree _ _ _ _ _ Hs), length_app. cbn [length]. rewrite (length_app h2). lia.
Qed.

(** ** Seeking *)

(** The position between [gsA] and [gsB]. *)
Definition gap (gsA gsB : list (list stmt)) : option nat :=
  match gsB with [] => None | _ => Some (length (concat gsA)) end.

Lemma concat_nil gsB : Forall key_group gsB -> concat gsB = [] -> gsB = [].
Proof.
  intros Hk E. destruct gsB as [|g gsB]; [done|]. inversion Hk as [|?? [Hg _ _] _]; subst. cbn in E.
  by apply app_eq_nil in E as [? _].
Qed.
Lemma part_nil gsA gsB : gs = gsA ++ gsB -> (concat gsA = [] -> gsA = []) /\ (concat gsB = [] -> gsB = []).
Proof.
  intros E. pose proof (gr_group _ Hgs) as Hk. rewrite E in Hk. apply Forall_app in Hk as [HA HB].
  split; by apply concat_nil.
Qed.
Lemma bound_gap (p : stmt -> bool) gsA gsB :
  gs = gsA ++ gsB -> Forall (fun x => p x = false) (concat gsA) ->
  Forall (fun x => p x = true) (concat gsB) -> bound p tree = gap gsA gsB.
Proof.
  intros E HA HB. rewrite Htree, E, concat_app, bound_spec; [|done|].
  - unfold gap. destruct gsB as [|g gsB]; [done|]. destruct (concat (g :: gsB)) eqn:Ec; [|done].
    by apply (part_nil _ _ E) in Ec.
  - destruct (concat gsB); [done|]. by apply Forall_inv in HB.
Qed.
Lemma cmp_key_any x k : vy_mem_tree_cmp_key x k (INT64_MAX - 1) = tuple_compare_with_key (s_tuple x) k.
Proof. unfold vy_mem_tree_cmp_key. rewrite Z.eqb_refl. destruct (Z.eqb_spec (tuple_compare_with_key (s_tuple x) k) 0); lia. Qed.

(** The first element behind the gap. *)
Lemma stands_gap gsA gsB i :
  gs = gsA ++ gsB -> gsB <> [] -> mi_curr_pos i = gap gsA gsB ->
  exists x l, concat gsB = x :: l /\ tree !! length (concat gsA) = Some x /\
    stands_list (i <| mi_curr := Some x |>) (concat gsA) (concat gsB).
Proof.
  intros E Hne Hp. assert (tree = concat gsA ++ concat gsB) as Et by (by rewrite Htree, E, concat_app).
  destruct (concat gsB) as [|x l] eqn:Ec.
  - by apply (part_nil _ _ E) in Ec.
  - exists x, l. rewrite Et. split_and!; [done|apply lookup_at|]. split; [done| |done]. cbn. rewrite Hp.
    unfold gap. by destruct gsB.
Qed.
(** The last element before it. *)
Lemma stands_before gsA gsB i :
  gs = gsA ++ gsB -> gsA <> [] -> exists x p, tree_prev tree (gap gsA gsB) = Some p /\ tree !! p = Some x /\
    (mi_curr_pos i = Some p -> stands_last (i <| mi_curr := Some x |>) (concat gsA) (concat gsB)).
Proof.
  intros E Hne. assert (tree = concat gsA ++ concat gsB) as Et by (by rewrite Htree, E, concat_app).
  remember (concat gsA) as l eqn:El. destruct l as [|x l _] using rev_ind.
  { symmetry in El. by apply (part_nil _ _ E) in El. }
  exists x, (length l). rewrite Et. split_and!.
  - unfold gap. destruct gsB as [|g gsB].
    + cbn [concat]. rewrite app_nil_r, tree_prev_none. destruct (l ++ [x]) eqn:E2; [by destruct l|].
      rewrite <- E2, length_app. cbn. f_equal. lia.
    + rewrite <- El. destruct (concat (g :: gsB)) as [|y l2] eqn:E2; [|apply tree_prev_at].
      by apply (part_nil _ _ E) in E2.
  - rewrite <- app_assoc. apply lookup_at.
  - intros Hp. exists l, x. split; [done|]. split; [by rewrite Et, <- app_assoc|done|done].
Qed.

(** ** The keys that are left *)

(** An EQ iterator stops at the first other key. *)
Fixpoint live (gs : list (list stmt)) : list (list stmt) :=
  match gs with [] => [] | g :: gs => if stopping g then [] else g :: live gs end.

Lemma live_split gs' : exists rest, gs' = live gs' ++ rest /\ Forall (fun g => stopping g = false) (live gs') /\
  match rest with [] => True | g :: _ => stopping g = true end.
Proof.
  induction gs' as [|g gs' (rest & E & Hl & Hr)]; [by exists []|]. cbn. destruct (stopping g) eqn:Es.
  - exists (g :: gs'). done.
  - exists rest. split_and!; [cbn; by f_equal|by constructor|done].
Qed.
Lemma live_app a b :
  Forall (fun g => stopping g = false) a -> match b with [] => True | g :: _ => stopping g = true end -> live (a ++ b) = a.
Proof.
  intros Ha Hb. induction Ha as [|g a Hg Ha IH]; cbn; [|by rewrite Hg, IH].
  destruct b as [|g b]; [done|]. cbn. by rewrite Hb.
Qed.

Definition remaining gs1 gs2 : list (list stmt) :=
  if 0 <? iterator_direction ty then live gs2 else rev gs1.

(** The iterator has found the next of the keys [todo] that has anything to
    see, or that there is none. *)
Definition outcome (i : itr) (todo : list (list stmt)) (rc : Z) (i' : itr) : Prop :=
  kept i i' /\
  match next_seen todo with
  | None => rc = 1 /\ mi_curr i' = None
  | Some (g, later) => rc = 0 /\ exists gs1 gs2, gs = gs1 ++ g :: gs2 /\ landed i' gs1 g gs2 /\ later = remaining gs1 gs2
  end.

Lemma find_forward_outcome F i gsA gsB :
  0 < iterator_direction ty -> gs = gsA ++ gsB -> gsB <> [] -> stopping (hd [] gsB) = false ->
  stands_list i (concat gsA) (concat gsB) ->
  wpx F (vy_mem_iterator_find_lsn m ty key vlsn) (outcome i (live gsB)) i.
Proof.
  intros Hd E Hne Hst Hs. destruct (live_split gsB) as (rest & El & Hl & Hr).
  assert (live gsB <> []) as Hln by (destruct gsB; [done|]; cbn in Hst |- *; by rewrite Hst).
  eapply (find_forward F i gsA (live gsB) rest); try done.
  - by rewrite <- El.
  - by rewrite <- El.
  - intros En i' Hk Hc. split; [done|]. by rewrite En.
  - intros past g later En Ep i' Hk Hla. split; [done|]. rewrite En. split; [done|].
    exists (gsA ++ past), (later ++ rest). split_and!; [|done|].
    + rewrite E, El, Ep. by rewrite <- !app_assoc.
    + unfold remaining. destruct (Z.ltb_spec 0 (iterator_direction ty)); [|lia]. symmetry. apply live_app; [|done].
      rewrite Ep in Hl. apply Forall_app in Hl as [_ Hl]. by apply Forall_inv_tail in Hl.
Qed.
Lemma find_backward_outcome F i gsA gsB :
  iterator_direction ty < 0 -> gs = gsA ++ gsB -> stands_last i (concat gsA) (concat gsB) ->
  wpx F (vy_mem_iterator_find_lsn m ty key vlsn) (outcome i (rev gsA)) i.
Proof.
  intros Hd E Hs. eapply (find_backward F i (rev gsA) gsB); rewrite ?rev_involutive; try done.
  - intros En i' Hk Hc. split; [done|]. by rewrite En.
  - intros past g later En Ep i' Hk Hla. split; [done|]. rewrite En. split; [done|].
    exists (rev later), (rev past ++ gsB). split_and!; [|done|].
    + rewrite E, <- (rev_involutive gsA), Ep, rev_app_distr. cbn. by rewrite <- !app_assoc.
    + unfold remaining. destruct (Z.ltb_spec 0 (iterator_direction ty)); [lia|]. by rewrite rev_involutive.
Qed.

(** The end of vy_mem_iterator_seek. *)
Definition seek_tail (cond : stmt -> bool) : prog itr Z :=
  pos ← gets mi_curr_pos;
  match pos with
  | None => mret 1
  | Some _ =>
      curr ← get_elem m pos;
      modify (fun i => i <| mi_curr := Some curr |>);;
      if bool_decide (ty = ITER_EQ) && cond curr
      then modify (fun i => i <| mi_curr := None |>);; mret 1
      else vy_mem_iterator_find_lsn m ty key vlsn
  end.

Lemma seek_tail_forward F i gsA gsB cond :
  0 < iterator_direction ty -> gs = gsA ++ gsB -> mi_curr_pos i = gap gsA gsB -> mi_curr i = None ->
  (forall x l, concat gsB = x :: l -> bool_decide (ty = ITER_EQ) && cond x = stops x) ->
  wpx F (seek_tail cond) (outcome i (live gsB)) i.
Proof.
  intros Hd E Hp Hc Hcond. unfold seek_tail. apply wpx_bind, wpx_gets. rewrite Hp.
  destruct gsB as [|g gsB]; [apply wpx_ret; by split|]. cbn [gap].
  destruct (stands_gap gsA (g :: gsB) i E) as (x & l & Ec & El & Hs); [done|done|].
  apply wpx_bind. eapply wpx_get_elem; [done|]. apply wpx_bind, wpx_modify. rewrite (Hcond x l Ec).
  pose proof (group_in _ _ _ E) as Hk. assert (stopping g = stops x) as Es.
  { pose proof (kg_ne _ Hk). destruct g; [done|]. cbn in Ec. by injection Ec as -> _. }
  destruct (stops x) eqn:Ex.
  - apply wpx_bind, wpx_modify, wpx_ret. split; [done|]. cbn. by rewrite Es.
  - eapply wpx_mono; [apply (find_forward_outcome F _ gsA (g :: gsB)); try done|]. by intros rc i' [? ?].
Qed.
Lemma seek_tail_backward F i gsA gsB cond :
  iterator_direction ty < 0 -> gs = gsA ++ gsB -> mi_curr_pos i = tree_prev tree (gap gsA gsB) -> mi_curr i = None ->
  wpx F (seek_tail cond) (outcome i (rev gsA)) i.
Proof.
  intros Hd E Hp Hc. unfold seek_tail. apply wpx_bind, wpx_gets.
  destruct gsA as [|g gsA].
  { rewrite Hp. assert (tree_prev tree (gap [] gsB) = None) as ->; [|apply wpx_ret; by split].
    unfold gap. destruct gsB; [|done]. rewrite tree_prev_none, Htree, E. done. }
  destruct (stands_before (g :: gsA) gsB i E) as (x & p & E1 & E2 & E3); [done|]. rewrite E1 in Hp. rewrite Hp.
  apply wpx_bind. eapply wpx_get_elem; [done|]. apply wpx_bind, wpx_modify.
  assert (bool_decide (ty = ITER_EQ) = false) as ->.
  { apply bool_decide_eq_false. intros ->. cbn in Hd. lia. }
  cbn [andb]. eapply wpx_mono; [apply (find_backward_outcome F _ (g :: gsA) gsB); try done; by apply E3|]. by intros rc i' [? ?].
Qed.

Definition restarted (i : itr) : itr := i <| mi_search_started := true |> <| mi_version := mem_version m |>.

Lemma outcome_ext i1 i2 todo rc i' : kept i2 i1 -> outcome i1 todo rc i' -> outcome i2 todo rc i'.
Proof. intros Hk [Hk' H]. split; [by eapply kept_trans|done]. Qed.

Definition below_key (k : K) (x : stmt) : Prop := tuple_compare_with_key (s_tuple x) k < 0.
Definition not_above (k : K) (x : stmt) : Prop := tuple_compare_with_key (s_tuple x) k <= 0.

Lemma lower_bound_gap k gsA gsB :
  gs = gsA ++ gsB -> Forall (below_key k) (concat gsA) -> Forall (fun x => ~ below_key k x) (concat gsB) ->
  lower_bound tree k (INT64_MAX - 1) = gap gsA gsB.
Proof.
  intros E HA HB. unfold below_key in *. apply bound_gap; [done| |]; (eapply Forall_impl; [eassumption|]);
    intros x Hx; cbn beta in *; rewrite cmp_key_any; lia.
Qed.
Lemma upper_bound_gap k gsA gsB :
  gs = gsA ++ gsB -> Forall (not_above k) (concat gsA) -> Forall (fun x => ~ not_above k x) (concat gsB) ->
  upper_bound tree k (INT64_MAX - 1) = gap gsA gsB.
Proof.
  intros E HA HB. unfold not_above in *. apply bound_gap; [done| |]; (eapply Forall_impl; [eassumption|]);
    intros x Hx; cbn beta in *; rewrite cmp_key_any; lia.
Qed.

(** The groups on both sides of a key of the tree. *)
Lemma around gs1 g gs2 y :
  gs = gs1 ++ g :: gs2 -> y ∈ g ->
  let k := tuple_key (s_tuple y) in
  Forall (below_key k) (concat gs1) /\ Forall (fun x => ~ below_key k x /\ not_above k x) g /\
  Forall (fun x => ~ not_above k x) (concat gs2).
Proof.
  intros E Hy k. unfold below_key, not_above, k.
  split_and!; apply Forall_forall; intros x Hx; rewrite ?key_of_tuple.
  - by eapply groups_below.
  - assert (tuple_compare (s_tuple x) (s_tuple y) = 0) by (by apply (kg_same _ (group_in _ _ _ E))). lia.
  - pose proof (groups_above _ _ _ _ _ E Hy Hx). pose proof (compare_flip (s_tuple x) (s_tuple y)). lia.
Qed.

Lemma seek_after F i gs1 g gs2 y :
  gs = gs1 ++ g :: gs2 -> y ∈ g ->
  wpx F (vy_mem_iterator_seek m ty key vlsn (Some (tuple_key (s_tuple y)))) (outcome (restarted i) (remaining gs1 gs2)) i.
Proof.
  intros E Hy. destruct (around _ _ _ _ E Hy) as (H1 & Hg & H2).
  unfold vy_mem_iterator_seek. apply wpx_bind, wpx_modify, wpx_bind, wpx_modify. unfold remaining.
  destruct (Z.ltb_spec 0 (iterator_direction ty)) as [Hd|Hd].
  - apply wpx_bind, wpx_assert; [done|]. apply wpx_bind, wpx_gets, wpx_bind, wpx_modify. cbn [iterator_direction Z.ltb].
    eapply wpx_mono; [apply (seek_tail_forward F _ (gs1 ++ [g]) gs2 (key_mismatch key)); try done|].
    + by rewrite <- app_assoc.
    + cbn. apply upper_bound_gap; [by rewrite <- app_assoc| |done]. rewrite concat_app. cbn. rewrite app_nil_r.
      apply Forall_app_2; (eapply Forall_impl; [eassumption|]); unfold below_key, not_above; cbn; lia.
    + intros rc i'. by apply outcome_ext.
  - apply wpx_bind, wpx_assert; [done|]. apply wpx_bind, wpx_gets, wpx_bind, wpx_modify. cbn [iterator_direction Z.ltb].
    eapply wpx_mono; [apply (seek_tail_backward F _ gs1 (g :: gs2) (key_mismatch key)); try done|].
    + destruct ty; cbn in *; lia.
    + transitivity (tree_prev tree (lower_bound tree (tuple_key (s_tuple y)) (INT64_MAX - 1))); [done|]. f_equal.
      apply lower_bound_gap; [done|done|]. cbn. apply Forall_app_2; (eapply Forall_impl; [eassumption|]);
        unfold below_key, not_above; cbn; lia.
    + intros rc i'. by apply outcome_ext.
Qed.

(** The place an iterator starts from. *)
Definition starts gsA gsB : Prop := gs = gsA ++ gsB /\
  match ty, key with
  | (ITER_GE | ITER_EQ | ITER_LT), Some k =>
      Forall (below_key k) (concat gsA) /\ Forall (fun x => ~ below_key k x) (concat gsB)
  | (ITER_GT | ITER_LE), Some k =>
      Forall (not_above k) (concat gsA) /\ Forall (fun x => ~ not_above k x) (concat gsB)
  | ITER_GE, None => gsA = []
  | ITER_LE, None => gsB = []
  | _, None => False
  end.
Definition all_keys gsA gsB : list (list stmt) := if 0 <? iterator_direction ty then live gsB else rev gsA.

Lemma seek_first F i gsA gsB :
  starts gsA gsB ->
  wpx F (vy_mem_iterator_seek m ty key vlsn None) (outcome (restarted i) (all_keys gsA gsB)) i.
Proof.
  intros [E Hst]. unfold vy_mem_iterator_seek, all_keys. apply wpx_bind, wpx_modify, wpx_bind, wpx_modify.
  apply wpx_bind, wpx_assert; [by destruct ty, key|]. apply wpx_bind, wpx_gets, wpx_bind, wpx_modify.
  set (exact := match key with Some k => _ | None => false end).
  destruct (Z.ltb_spec 0 (iterator_direction ty)) as [Hd|Hd].
  - eapply wpx_mono; [apply (seek_tail_forward F _ gsA gsB (fun _ => negb exact)); try done|].
    + destruct (Z.ltb_spec (iterator_direction ty) 0); [lia|]. cbn.
      destruct ty, key as [k|]; cbn in Hd, Hst; try lia; try done; try (destruct Hst; by apply lower_bound_gap || by apply upper_bound_gap).
      subst gsA. cbn in E. rewrite Htree, E. unfold gap, tree_first. destruct gsB as [|g gsB]; [done|].
      destruct (concat (g :: gsB)) eqn:Ec; [|done]. by apply (part_nil [] (g :: gsB)) in Ec.
    + intros x l Ec. unfold stops. destruct (bool_decide (ty = ITER_EQ)) eqn:Eq; [|done]. cbn.
      apply bool_decide_eq_true in Eq. rewrite Eq in Hst. unfold exact, key_mismatch.
      destruct key as [k|]; [|done]. rewrite Eq. cbn. destruct Hst as [HA HB]. rewrite (lower_bound_gap k gsA gsB) by done.
      unfold gap. destruct gsB as [|g gsB]; [done|]. unfold is_exact. cbn. rewrite Htree, E, concat_app.
      rewrite Ec, lookup_at, cmp_key_any. f_equal. apply eq_true_iff_eq. rewrite !Z.eqb_eq.
      symmetry. apply key_flip_zero.
    + intros rc i'. by apply outcome_ext.
  - eapply wpx_mono; [apply (seek_tail_backward F _ gsA gsB (fun _ => negb exact)); try done|].
    + destruct ty; cbn in *; lia.
    + destruct ty, key as [k|]; cbn in Hd, Hst; try lia; try done.
      * transitivity (tree_prev tree (upper_bound tree k (INT64_MAX - 1))); [done|]. f_equal. destruct Hst. by apply upper_bound_gap.
      * by subst gsB.
      * transitivity (tree_prev tree (lower_bound tree k (INT64_MAX - 1))); [done|]. f_equal. destruct Hst. by apply lower_bound_gap.
    + intros rc i'. by apply outcome_ext.
Qed.

(** ** The next key *)

(** The iterator has found the next key, or the end. *)
Definition found F (i : itr) (todo : list (list stmt)) (rc : Z) (i' : itr) : Prop :=
  running F i' /\ mi_history i' = mi_history i /\
  match next_seen todo with
  | None => rc = 1 /\ mi_curr i' = None
  | Some (g, later) => rc = 0 /\ exists gs1 gs2, gs = gs1 ++ g :: gs2 /\ landed i' gs1 g gs2 /\ later = remaining gs1 gs2
  end.
Lemma outcome_found F i i1 todo rc i' :
  running F i1 -> mi_history i1 = mi_history i -> outcome i1 todo rc i' -> found F i todo rc i'.
Proof.
  intros Hr Eh [Hk H]. split; [by eapply running_kept|]. split; [|done]. destruct Hk as (_ & _ & -> & _). done.
Qed.

(** After the step to the statement [y] of a key: the end of
    vy_mem_iterator_next_key. *)
Abbreviation after_step x := (
  curr ← get_curr;
  if tuple_compare (s_tuple x) (s_tuple curr) =? 0 then vy_mem_iterator_seek m ty key vlsn (Some (tuple_key (s_tuple curr)))
  else if bool_decide (ty = ITER_EQ) && key_mismatch key curr
  then modify (fun i => i <| mi_curr := None |>);; mret 1
  else vy_mem_iterator_find_lsn m ty key vlsn).

Lemma after_step_same F i gs1 g gs2 x y :
  gs = gs1 ++ g :: gs2 -> x ∈ g -> y ∈ g -> mi_curr i = Some y -> running F i ->
  wpx F (after_step x) (found F i (remaining gs1 gs2)) i.
Proof.
  intros E Hx Hy Hc Hr. apply wpx_bind. eapply wpx_get_curr; [done|].
  assert (tuple_compare (s_tuple x) (s_tuple y) = 0) as -> by (by apply (kg_same _ (group_in _ _ _ E))).
  cbn [Z.eqb]. eapply wpx_mono; [by apply (seek_after F i gs1 g gs2 y)|]. intros rc i'.
  apply outcome_found; [|done]. destruct Hr. by split.
Qed.

Lemma after_step_forward F i gs1 g gs2 x y l :
  0 < iterator_direction ty -> gs = gs1 ++ g :: gs2 -> x ∈ g -> concat gs2 = y :: l ->
  stands tree i (concat gs1 ++ g) y l -> running F i ->
  wpx F (after_step x) (found F i (remaining gs1 gs2)) i.
Proof.
  intros Hd E Hx Ey Hs Hr. apply wpx_bind. eapply wpx_get_curr; [apply Hs|].
  assert (tuple_compare (s_tuple x) (s_tuple y) < 0) as Hlt by (eapply groups_above; [done|done|rewrite Ey; by left]).
  destruct (Z.eqb_spec (tuple_compare (s_tuple x) (s_tuple y)) 0); [lia|]. fold (stops y).
  destruct gs2 as [|g2 gs2]; [done|].
  assert (gs = (gs1 ++ [g]) ++ g2 :: gs2) as E2 by (by rewrite <- app_assoc).
  assert (stopping g2 = stops y) as Es.
  { pose proof (kg_ne _ (group_in _ _ _ E2)). destruct g2; [done|]. cbn in Ey. by injection Ey as -> _. }
  unfold remaining. destruct (Z.ltb_spec 0 (iterator_direction ty)); [|lia]. destruct (stops y) eqn:Ex.
  - apply wpx_bind, wpx_modify, wpx_ret. split_and!; [by destruct Hr|done|]. cbn. by rewrite Es.
  - eapply wpx_mono; [apply (find_forward_outcome F i (gs1 ++ [g]) (g2 :: gs2)); try done|].
    + rewrite Ey, concat_app. cbn. by rewrite app_nil_r.
    + intros rc i'. by apply outcome_found.
Qed.
Lemma after_step_backward F i gs1 g gs2 x y l :
  iterator_direction ty < 0 -> gs = gs1 ++ g :: gs2 -> x ∈ g -> concat gs1 = l ++ [y] ->
  stands tree i l y (g ++ concat gs2) -> running F i ->
  wpx F (after_step x) (found F i (remaining gs1 gs2)) i.
Proof.
  intros Hd E Hx Ey Hs Hr. apply wpx_bind. eapply wpx_get_curr; [apply Hs|].
  assert (tuple_compare (s_tuple y) (s_tuple x) < 0) as Hlt by (eapply groups_below; [done|rewrite Ey; set_solver|done]).
  pose proof (compare_flip (s_tuple x) (s_tuple y)).
  destruct (Z.eqb_spec (tuple_compare (s_tuple x) (s_tuple y)) 0); [lia|].
  assert (bool_decide (ty = ITER_EQ) = false) as ->.
  { apply bool_decide_eq_false. intros ->. cbn in Hd. lia. }
  cbn [andb]. unfold remaining. destruct (Z.ltb_spec 0 (iterator_direction ty)); [lia|].
  eapply wpx_mono; [apply (find_backward_outcome F i gs1 (g :: gs2)); try done; by exists l, y|].
  intros rc i'. by apply outcome_found.
Qed.

(** The iterator between two calls, with the keys [todo] to come. *)
Inductive iterating F (i : itr) : list (list stmt) -> Prop :=
  | it_new gsA gsB : mi_search_started i = false -> quiet F (mi_oom i) -> starts gsA gsB ->
      iterating F i (all_keys gsA gsB)
  | it_inside gs1 g gs2 : running F i -> gs = gs1 ++ g :: gs2 -> inside i gs1 g gs2 -> iterating F i (remaining gs1 gs2)
  | it_end : running F i -> mi_curr i = None -> iterating F i [].

Lemma next_key_inside F i gs1 g gs2 :
  running F i -> gs = gs1 ++ g :: gs2 -> inside i gs1 g gs2 ->
  wpx F (vy_mem_iterator_next_key m ty key vlsn) (found F i (remaining gs1 gs2)) i.
Proof.
  intros Hr E (h1 & x & h2 & Eg & Hs). unfold vy_mem_iterator_next_key. apply wpx_bind, wpx_gets.
  rewrite (rn_started _ _ Hr). cbn [negb]. apply wpx_bind, wpx_gets. rewrite (sd_curr _ _ _ _ _ Hs).
  apply wpx_bind, wpx_assert; [rewrite (rn_version _ _ Hr); apply Z.eqb_refl|].
  apply wpx_bind, wpx_assert; [by eapply at_curr_ok|]. apply wpx_bind.
  assert (x ∈ g) as Hx by (rewrite Eg; set_solver).
  assert (forall i' rest, kept i i' -> remaining gs1 gs2 = rest -> rest = [] ->
    wpx F (modify (fun i => i <| mi_curr := None |>);; mret 1) (found F i rest) i') as Hend.
  { intros i' rest Hk _ ->. apply wpx_bind, wpx_modify, wpx_ret. apply (running_kept F) in Hk as Hr'; [|done].
    split_and!; [by destruct Hr'| |done]. by destruct Hk as (_ & _ & ? & _). }
  assert (forall i' todo, kept i i' -> wpx F (after_step x) (found F i' todo) i' -> wpx F (after_step x) (found F i todo) i') as Hkeep.
  { intros i' todo (_ & _ & Eh & _) H. eapply wpx_mono; [exact H|]. intros rc i2 (H1 & H2 & H3). split_and!; [done|congruence|done]. }
  destruct (Z.lt_trichotomy 0 (iterator_direction ty)) as [Hd|[Hd|Hd]]; [|by destruct ty|].
  - eapply step_forward; [done|exact Hs| |].
    + intros El i' Hk. cbn [Z.eqb negb]. eapply Hend; [done|done|]. apply app_eq_nil in El as [_ El].
      unfold remaining. destruct (Z.ltb_spec 0 (iterator_direction ty)); [|lia].
      apply (part_nil (gs1 ++ [g]) gs2) in El; [by rewrite El|by rewrite <- app_assoc].
    + intros y l i' El Hk Hs'. cbn [Z.eqb negb]. apply Hkeep; [done|]. apply (running_kept F) in Hk as Hr'; [|done].
      destruct h2 as [|z h2]; cbn in El.
      * apply (after_step_forward F i' gs1 g gs2 x y l); try done. by rewrite Eg, app_assoc.
      * injection El as -> _. apply (after_step_same F i' gs1 g gs2 x y); try done; [|apply Hs']. rewrite Eg; set_solver.
  - eapply step_backward; [lia|exact Hs| |].
    + intros El i' Hk. cbn [Z.eqb negb]. eapply Hend; [done|done|]. apply app_eq_nil in El as [El _].
      unfold remaining. destruct (Z.ltb_spec 0 (iterator_direction ty)); [lia|].
      apply (part_nil gs1 (g :: gs2)) in El; [by rewrite El|done].
    + intros y l i' El Hk Hs'. cbn [Z.eqb negb]. apply Hkeep; [done|]. apply (running_kept F) in Hk as Hr'; [|done].
      destruct h1 as [|z h1 _] using rev_ind.
      * rewrite app_nil_r in El. apply (after_step_backward F i' gs1 g gs2 x y l); try done. by rewrite Eg.
      * rewrite app_assoc in El. apply app_inj_tail in El as [_ ->].
        apply (after_step_same F i' gs1 g gs2 x y); try done; [|apply Hs']. rewrite Eg; set_solver.
Qed.

Lemma next_key_spec F i todo :
  iterating F i todo -> wpx F (vy_mem_iterator_next_key m ty key vlsn) (found F i todo) i.
Proof.
  intros [gsA gsB Hn Hq Hst|gs1 g gs2 Hr E Hi|Hr Hc]; [|by apply next_key_inside with g|].
  - unfold vy_mem_iterator_next_key. apply wpx_bind, wpx_gets. rewrite Hn. cbn [negb].
    eapply wpx_mono; [by apply seek_first|]. intros rc i'. by apply outcome_found.
  - unfold vy_mem_iterator_next_key. apply wpx_bind, wpx_gets. rewrite (rn_started _ _ Hr). cbn [negb].
    apply wpx_bind, wpx_gets. rewrite Hc. by apply wpx_ret.
Qed.

(** ** One call of vy_mem_iterator_next *)

Lemma iterating_cleanup F i todo : iterating F i todo -> iterating F (i <| mi_history := [] |>) todo.
Proof.
  intros [gsA gsB Hn Hq Hst|gs1 g gs2 [] E (h1 & x & h2 & Eg & [])|[] Hc].
  - by apply it_new.
  - eapply it_inside; [done|exact E|]. by exists h1, x, h2.
  - by apply it_end.
Qed.

Lemma mem_next_spec F i todo :
  iterating F i todo ->
  wpx F (vy_mem_iterator_next m ty key vlsn) (fun rc i' => (rc = -1 /\ F) \/
    (rc = 0 /\ match next_seen todo with
               | None => mi_history i' = [] /\ iterating F i' []
               | Some (g, later) => mi_history i' = history_of g /\ iterating F i' later
               end)) i.
Proof.
  intros Hi. unfold vy_mem_iterator_next. apply wpx_bind. unfold vy_history_cleanup. apply wpx_modify, wpx_bind.
  eapply wpx_mono; [by apply next_key_spec, iterating_cleanup|]. intros rc i1 (Hr & Eh & H).
  destruct (next_seen todo) as [[g later]|].
  - destruct H as (-> & gs1 & gs2 & E & Hl & ->). cbn [Z.eqb].
    eapply wpx_mono; [by eapply landed_history|]. intros rc i2 [?|(-> & Eh2 & Hi2 & Hr2)]; [by left|right].
    split_and!; [done|done|]. by eapply it_inside.
  - destruct H as [-> Hc]. cbn [Z.eqb]. apply wpx_ret. right. split_and!; [done|done|]. by apply it_end.
Qed.
End Iterator.
End MemSafety.
