(* ===== verification/VyMemTheorems.v ===== *)
(** * Theorems on the memory level *)

From stdpp Require Import list sorting.
From S2P Require Import Prelude VyStmt VyVisible VyViews VyMerge VyOutput VyCompaction VyMem VyMemSafety VyTheorems.

Open Scope Z_scope.

Section MemTheorems.
Context {T O K : Type} `{!Tuples T O, !TuplesLaws T O, !SearchKeys T K, !SearchKeysLaws T O K}.
Abbreviation stmt := (vy_stmt T O).
Abbreviation mem := (vy_mem T O).
Abbreviation itr := (mem_iterator T O).
Implicit Types (e x y : stmt) (l g : list stmt) (gs : list (list stmt)) (F : Prop).

(** ** The groups of a sorted tree *)

Lemma tree_cmp_before x y :
  vy_mem_tree_cmp x y < 0 <-> tuple_compare (s_tuple x) (s_tuple y) < 0 \/
    (same_key (s_tuple x) (s_tuple y) /\ s_lsn y < s_lsn x).
Proof.
  unfold vy_mem_tree_cmp, same_key. destruct (Z.eqb_spec (tuple_compare (s_tuple x) (s_tuple y)) 0) as [->|]; cbn; [|lia].
  destruct (Z.ltb_spec (s_lsn y) (s_lsn x)); [lia|]. destruct (Z.ltb_spec (s_lsn x) (s_lsn y)); lia.
Qed.
Lemma tree_sorted_before tree : tree_sorted tree -> StronglySorted before tree.
Proof.
  apply StronglySorted_weaken. intros x y H. apply tree_cmp_before in H as [H|[H1 H2]]; [by left|right]. split; [done|by left].
Qed.

Lemma first_group_same s rest ms x y :
  first_group s rest ms -> x ∈ s :: rest -> y ∈ s :: rest -> same_key (s_tuple x) (s_tuple y).
Proof.
  intros [Fs _]. assert (forall z, z ∈ s :: rest -> same_key (s_tuple s) (s_tuple z)) as H.
  { intros z Hz. apply elem_of_cons in Hz as [->|Hz]; [reflexivity|]. rewrite Forall_forall in Fs. by apply Fs. }
  intros Hx Hy. etransitivity; [symmetry; by apply H|by apply H].
Qed.
Lemma same_key_sorted l :
  tree_sorted l -> (forall x y, x ∈ l -> y ∈ l -> same_key (s_tuple x) (s_tuple y)) ->
  StronglySorted (fun x y => s_lsn y < s_lsn x) l.
Proof.
  intros Hs Hk. induction Hs as [|x l Hs IH Hf]; [constructor|]. constructor.
  - apply IH. intros a b Ha Hb. apply Hk; by right.
  - rewrite Forall_forall in *. intros y Hy. specialize (Hf y Hy). apply tree_cmp_before in Hf as [Hf|[_ ?]]; [|done].
    assert (same_key (s_tuple x) (s_tuple y)) as E by (apply Hk; [by left|by right]). unfold same_key in E. lia.
Qed.
Lemma first_group_sorted s rest ms :
  tree_sorted (s :: rest ++ ms) -> first_group s rest ms -> key_group (s :: rest) /\ tree_sorted ms.
Proof.
  intros Hs Hfg. unfold tree_sorted in Hs. rewrite app_comm_cons in Hs. split; [|by apply StronglySorted_app_1_r in Hs].
  assert (forall x y, x ∈ s :: rest -> y ∈ s :: rest -> same_key (s_tuple x) (s_tuple y)) as Hk
    by (intros x y; by apply first_group_same with ms).
  split; [done|done|]. apply same_key_sorted; [by apply StronglySorted_app_1_l in Hs|done].
Qed.

Lemma groups_elem gs ms y g : concat gs = ms -> g ∈ gs -> y ∈ g -> y ∈ ms.
Proof. intros <- Hg Hy. apply list_elem_of_In, in_concat. exists g. by rewrite <- !list_elem_of_In. Qed.

Lemma groups_grouped tree : tree_sorted tree -> grouped (groups tree).
Proof.
  remember (length tree) as n eqn:En. revert tree En. induction n as [n IH] using lt_wf_ind. intros tree -> Hs.
  destruct tree as [|s tree]; [split; constructor|].
  destruct (groups_split s tree (tree_sorted_before _ Hs)) as (rest & ms & E & Eg & Hfg & _). rewrite E in Hs.
  destruct (first_group_sorted _ _ _ Hs Hfg) as [Hk Hms].
  destruct (IH (length ms)) with (tree := ms) as [H1 H2]; try done.
  { injection E as ->. cbn. rewrite length_app. lia. }
  rewrite Eg. split; constructor; try done. apply Forall_forall. intros g Hg x y Hx Hy.
  pose proof (groups_elem _ _ y g (groups_concat ms) Hg Hy) as Hy'.
  pose proof (kg_same _ Hk x s Hx ltac:(by left)) as Hxs. unfold same_key in Hxs.
  pose proof (fg_above _ _ _ Hfg) as Fa. rewrite Forall_forall in Fa. specialize (Fa y Hy').
  eapply (compare_le_lt_trans _ (s_tuple s)); [lia|done].
Qed.

(** ** The keys of an iterator *)

Definition in_range (ty : iterator_type) (key : option K) (x : stmt) : bool :=
  match key with
  | None => true
  | Some k =>
      let c := tuple_compare_with_key (s_tuple x) k in
      match ty with
      | ITER_EQ => c =? 0 | ITER_GE => 0 <=? c | ITER_GT => 0 <? c | ITER_LE => c <=? 0 | ITER_LT => c <? 0
      end
  end.
Definition first_of g (P : stmt -> bool) : bool := match g with x :: _ => P x | [] => false end.

(** The histories of the keys, in the order of the iterator. *)
Definition scan (ty : iterator_type) (key : option K) (vlsn : Z) (tree : list stmt) : list (list stmt) :=
  let gs := filter (fun g => first_of g (in_range ty key) = true) (groups tree) in
  filter (fun h => h <> []) (map (history_of vlsn) (if 0 <? iterator_direction ty then gs else rev gs)).

(** A key splits the groups. *)
Lemma split_groups (P : stmt -> Prop) `{!forall x, Decision (P x)} gs :
  grouped gs -> (forall x y, tuple_compare (s_tuple x) (s_tuple y) <= 0 -> P y -> P x) ->
  exists gsA gsB, gs = gsA ++ gsB /\ Forall P (concat gsA) /\ Forall (fun x => ~ P x) (concat gsB).
Proof.
  intros [Hk Ho] HP. induction Ho as [|g gs Ho IH Hf]; [by exists [], []|].
  inversion Hk as [|?? [Hn Hs _] Hk']; subst. destruct g as [|x g]; [done|].
  assert (forall z, z ∈ x :: g -> tuple_compare (s_tuple z) (s_tuple x) = 0 /\ tuple_compare (s_tuple x) (s_tuple z) = 0) as Hz.
  { intros z Hin. split; apply Hs; by (left + done). }
  destruct (decide (P x)) as [Hx|Hx].
  - destruct IH as (gsA & gsB & -> & HA & HB); [done|]. exists ((x :: g) :: gsA), gsB. split_and!; [done| |done].
    apply Forall_app_2; [|done]. apply Forall_forall. intros z Hin. apply (HP z x); [|done]. destruct (Hz z Hin). lia.
  - exists [], ((x :: g) :: gs). split_and!; [done|constructor|]. apply Forall_forall. intros z Hin Hpz. apply Hx.
    change (concat ((x :: g) :: gs)) with ((x :: g) ++ concat gs) in Hin. apply elem_of_app in Hin as [Hin|Hin].
    + apply (HP x z); [|done]. destruct (Hz z Hin). lia.
    + apply list_elem_of_In, in_concat in Hin as (g' & Hg' & Hin). apply list_elem_of_In in Hg', Hin.
      rewrite Forall_forall in Hf. specialize (Hf g' Hg' x z). apply (HP x z); [|done].
      pose proof (Hf ltac:(by left) Hin). lia.
Qed.

Lemma below_key_closed k x y : tuple_compare (s_tuple x) (s_tuple y) <= 0 -> below_key k y -> below_key k x.
Proof. unfold below_key. intros H1 H2. by eapply key_lt. Qed.
Lemma not_above_closed k x y : tuple_compare (s_tuple x) (s_tuple y) <= 0 -> not_above k y -> not_above k x.
Proof. unfold not_above. intros H1 H2. by eapply key_le. Qed.
#[local] Instance below_key_dec k x : Decision (below_key k x).
Proof. unfold below_key. apply _. Defined.
#[local] Instance not_above_dec k x : Decision (not_above k x).
Proof. unfold not_above. apply _. Defined.

Lemma filter_groups (P : list stmt -> Prop) `{!forall g, Decision (P g)} gsA gsB :
  Forall P gsA -> Forall (fun g => ~ P g) gsB -> filter P (gsA ++ gsB) = gsA.
Proof.
  intros HA HB. rewrite filter_app. assert (filter P gsB = []) as ->.
  { clear HA. induction HB as [|g gsB H1 H2 IH]; [done|]. by rewrite filter_cons_False. }
  rewrite app_nil_r. clear HB. induction HA as [|g gsA H1 H2 IH]; [done|]. rewrite filter_cons_True by done. by f_equal.
Qed.

Lemma filter_groups_r (P : list stmt -> Prop) `{!forall g, Decision (P g)} gsA gsB :
  Forall (fun g => ~ P g) gsA -> Forall P gsB -> filter P (gsA ++ gsB) = gsB.
Proof.
  intros HA HB. rewrite filter_app. rewrite <- (app_nil_l gsA), <- (app_nil_r gsB) at 1.
  by rewrite !filter_groups by (done || constructor).
Qed.

Lemma groups_Forall (P : stmt -> Prop) (f : list stmt -> Prop) gs :
  Forall key_group gs -> Forall P (concat gs) -> (forall x g, key_group (x :: g) -> P x -> f (x :: g)) -> Forall f gs.
Proof.
  intros Hk HP Hf. induction Hk as [|g gs Hg Hk IH]; [constructor|]. cbn in HP. apply Forall_app in HP as [HP1 HP2].
  constructor; [|by apply IH]. destruct g as [|x g]; [by destruct Hg|]. apply Hf; [done|]. by apply Forall_inv in HP1.
Qed.

Lemma live_all ty key gs : ty <> ITER_EQ -> live ty key gs = gs.
Proof.
  intros Hty. induction gs as [|g gs IH]; [done|]. cbn. unfold stopping, stops. rewrite bool_decide_eq_false_2 by done.
  destruct g; cbn; by rewrite IH.
Qed.
Lemma live_eq k gs :
  grouped gs -> Forall (fun x => ~ below_key k x) (concat gs) ->
  live ITER_EQ (Some k) gs = filter (fun g => first_of g (in_range ITER_EQ (Some k)) = true) gs.
Proof.
  intros [Hk Ho] Hb. induction Ho as [|g gs Ho IH Hf]; [done|]. inversion Hk as [|?? Hg Hk']; subst.
  destruct g as [|x g]; [by destruct Hg|]. cbn in Hb. apply Forall_cons in Hb as [Hx Hb].
  apply Forall_app in Hb as [_ Hb]. unfold below_key in Hx. cbn [live]. unfold stopping, stops, key_mismatch.
  rewrite bool_decide_eq_true_2 by done. cbn [andb].
  assert ((key_compare_with_tuple k (s_tuple x) =? 0) = (tuple_compare_with_key (s_tuple x) k =? 0)) as ->.
  { apply eq_true_iff_eq. rewrite !Z.eqb_eq. apply key_flip_zero. }
  destruct (tuple_compare_with_key (s_tuple x) k =? 0) eqn:Ec; cbn [negb].
  - rewrite filter_cons_True by (cbn; done). f_equal. by apply IH.
  - rewrite filter_cons_False by (cbn; congruence).
    rewrite <- (app_nil_l gs). symmetry. apply filter_groups; [constructor|]. apply Forall_forall. intros g' Hg'.
    rewrite Forall_forall in Hk', Hf. specialize (Hk' g' Hg'). destruct g' as [|y g']; [by destruct Hk'|].
    pose proof (Hf _ Hg' x y ltac:(by left) ltac:(by left)) as Hxy. cbn. rewrite Z.eqb_eq.
    pose proof (key_le (s_tuple x) (s_tuple y) k). lia.
Qed.

#[local] Ltac in_range := intros x g _ Hx; cbv beta in Hx; unfold first_of, in_range; cbv zeta; lia.

Lemma start_exists ty key gs :
  grouped gs -> (key = None -> ty = ITER_GE \/ ty = ITER_LE) ->
  exists gsA gsB, starts ty key gs gsA gsB /\
    all_keys ty key gsA gsB =
      (let r := filter (fun g => first_of g (in_range ty key) = true) gs in if 0 <? iterator_direction ty then r else rev r).
Proof.
  intros Hg Hkey. pose proof (gr_group _ Hg) as Hk. unfold all_keys. destruct key as [k|].
  2: { assert (forall ty, filter (fun g => first_of g (in_range ty None) = true) gs = gs) as Ef.
       { intros ty'. rewrite <- (app_nil_r gs) at 1. apply filter_groups; [|constructor].
         eapply Forall_impl; [exact Hk|]. intros [|x g] [? _ _]; done. }
       destruct (Hkey eq_refl) as [-> | ->]; rewrite Ef; cbn.
       - exists [], gs. by rewrite live_all.
       - exists gs, []. split; [|done]. split; [by rewrite app_nil_r|done]. }
  destruct (split_groups (below_key k) gs Hg (below_key_closed k)) as (A1 & B1 & E1 & HA1 & HB1).
  destruct (split_groups (not_above k) gs Hg (not_above_closed k)) as (A2 & B2 & E2 & HA2 & HB2).
  assert (Forall key_group A1 /\ Forall key_group B1) as [KA1 KB1] by (rewrite E1 in Hk; by apply Forall_app in Hk).
  assert (Forall key_group A2 /\ Forall key_group B2) as [KA2 KB2] by (rewrite E2 in Hk; by apply Forall_app in Hk).
  unfold below_key, not_above in *. destruct ty; cbn [iterator_direction Z.ltb].
  - exists A1, B1. split; [by split|]. rewrite live_eq; [|split; [done|]|done].
    + cbn zeta. rewrite E1, filter_app. assert (filter (fun g => first_of g (in_range ITER_EQ (Some k)) = true) A1 = []) as ->; [|done].
      rewrite <- (app_nil_l A1). apply filter_groups; [constructor|]. eapply groups_Forall; [done|exact HA1|].
      in_range.
    + pose proof (gr_order _ Hg) as Ho. rewrite E1 in Ho. by apply StronglySorted_app_1_r in Ho.
  - exists A1, B1. split; [by split|]. rewrite live_all by done. cbn zeta. rewrite E1. symmetry. apply filter_groups_r.
    + eapply groups_Forall; [done|exact HA1|]. in_range.
    + eapply groups_Forall; [done|exact HB1|]. in_range.
  - exists A2, B2. split; [by split|]. rewrite live_all by done. cbn zeta. rewrite E2. symmetry. apply filter_groups_r.
    + eapply groups_Forall; [done|exact HA2|]. in_range.
    + eapply groups_Forall; [done|exact HB2|]. in_range.
  - exists A2, B2. split; [by split|]. cbn zeta. f_equal. rewrite E2. symmetry. apply filter_groups.
    + eapply groups_Forall; [done|exact HA2|]. in_range.
    + eapply groups_Forall; [done|exact HB2|]. in_range.
  - exists A1, B1. split; [by split|]. cbn zeta. f_equal. rewrite E1. symmetry. apply filter_groups.
    + eapply groups_Forall; [done|exact HA1|]. in_range.
    + eapply groups_Forall; [done|exact HB1|]. in_range.
Qed.

(** ** Reading all keys *)

Section Read.
Context (m : mem) (ty : iterator_type) (key : option K) (vlsn : Z).

(** The histories of [n] calls. *)
Fixpoint mem_nexts (n : nat) : prog itr (list (list stmt)) :=
  match n with
  | 0%nat => mret []
  | S n =>
      rc ← vy_mem_iterator_next m ty key vlsn;
      if negb (rc =? 0) then abort
      else h ← gets mi_history; hs ← mem_nexts n; mret (h :: hs)
  end.

Definition histories_of gs : list (list stmt) := filter (fun h => h <> []) (map (history_of vlsn) gs).

Lemma history_of_nil g : history_of vlsn g = [] <-> seen vlsn g = [].
Proof.
  unfold history_of. split; [|by intros ->]. destruct (seen vlsn g) as [|x l]; [done|]. cbn.
  by destruct (has_type IPROTO_UPSERT x).
Qed.
Lemma histories_of_next todo :
  histories_of todo = match next_seen vlsn todo with
                      | None => []
                      | Some (g, later) => history_of vlsn g :: histories_of later
                      end.
Proof.
  unfold histories_of. induction todo as [|g todo IH]; [done|]. cbn [map next_seen].
  destruct (seen vlsn g) as [|x l] eqn:Es.
  - apply history_of_nil in Es. rewrite filter_cons_False by (rewrite Es; tauto). done.
  - rewrite filter_cons_True; [done|]. intros E. apply history_of_nil in E. congruence.
Qed.

Context (Hsorted : tree_sorted (mem_tree m)) (Haddr : Forall (fun e => s_addr e <> None) (mem_tree m)).
Context (Hvlsn : vlsn <> INT64_MAX - 1).

Lemma mem_nexts_spec n : forall i todo,
  iterating m ty key (groups (mem_tree m)) False i todo ->
  wp (mem_nexts n) (fun hs _ => hs = take n (histories_of todo ++ replicate n [])) i.
Proof.
  induction n as [|n IH]; intros i todo Hi; cbn [mem_nexts]; [by apply wp_ret|].
  apply wp_bind. eapply wp_mono.
  { eapply (wpx_wp False); [tauto|].
    apply (mem_next_spec m ty key vlsn Haddr (groups (mem_tree m)) (eq_sym (groups_concat _)) (groups_grouped _ Hsorted)
      Hvlsn False i todo Hi). }
  intros rc i' [[_ []]|[-> H]]. cbn [Z.eqb negb]. apply wp_bind, wp_gets, wp_bind. rewrite histories_of_next.
  assert (forall l : list (list stmt), take n (l ++ replicate (S n) []) = take n (l ++ replicate n ([] : list stmt))) as Et.
  { intros l. rewrite replicate_S_end, app_assoc, take_app_le; [done|]. rewrite length_app, length_replicate. lia. }
  destruct (next_seen vlsn todo) as [[g later]|]; destruct H as [Eh Hi']; rewrite Eh;
    (eapply wp_mono; [by apply IH|]); intros hs i2 ->; apply wp_ret; cbn [app take replicate]; f_equal.
  by rewrite <- Et.
Qed.

(** C20: the iterator over a memory level is complete and ordered.  Whatever
    the type of the iterator and its key, full, partial or none, [n] calls of
    vy_mem_iterator_next return the histories, as seen by the read view and
    down to the first statement that is not an UPSERT, of the next keys of the
    tree that match, in the direction of the iterator, and then nothing.  The
    tree is sorted and does not change between the calls, no allocation fails,
    without a key the type is GE or LE, and the read view is not at
    INT64_MAX - 1, the LSN that stands for any LSN in the search. *)
Theorem mem_iterator_scans n :
  (key = None -> ty = ITER_GE \/ ty = ITER_LE) ->
  wp (mem_nexts n) (fun hs _ => hs = take n (scan ty key vlsn (mem_tree m) ++ replicate n []))
    (vy_mem_iterator_open []).
Proof.
  intros Hkey. destruct (start_exists ty key _ (groups_grouped _ Hsorted) Hkey) as (gsA & gsB & Hst & Ek).
  eapply wp_mono; [apply mem_nexts_spec, (it_new _ _ _ _ _ _ gsA gsB); [done|intros H; by apply elem_of_nil in H|done]|].
  intros hs _ ->. by rewrite Ek.
Qed.
End Read.

End MemTheorems.

Section MemTuples.
Context {T O : Type} `{!Tuples T O, !TuplesLaws T O}.
Abbreviation stmt := (vy_stmt T O).
Abbreviation mem := (vy_mem T O).
Abbreviation itr := (mem_iterator T O).
Implicit Types (e x y : stmt) (l g : list stmt) (gs : list (list stmt)) (F : Prop).

(** ** Looking up one key *)

Lemma groups_of_key (k : T) tree :
  tree_sorted tree ->
  filter (fun g => first_of g (in_range ITER_EQ (Some k)) = true) (groups tree) =
  match of_key k tree with [] => [] | g => [g] end.
Proof.
  remember (length tree) as n eqn:En. revert tree En. induction n as [n IH] using lt_wf_ind. intros tree -> Hs.
  destruct tree as [|s tree]; [done|].
  destruct (groups_split s tree (tree_sorted_before _ Hs)) as (rest & ms & E & Eg & Hfg & _). rewrite E in Hs.
  destruct (first_group_sorted _ _ _ Hs Hfg) as [_ Hms]. rewrite Eg.
  assert (filter (fun g => first_of g (in_range ITER_EQ (Some k)) = true) (groups ms) =
          match of_key k ms with [] => [] | g => [g] end) as IHm.
  { apply (IH (length ms)); [|done|done]. injection E as ->. cbn. rewrite length_app. lia. }
  assert (first_of (s :: rest) (in_range ITER_EQ (Some k)) = true <-> at_key k s) as Hf.
  { cbn. rewrite Z.eqb_eq. unfold at_key. change (same_key (s_tuple s) k <-> same_key k (s_tuple s)). split; by intros ?; symmetry. }
  rewrite E. destruct (first_group_key k s rest ms Hfg) as [(Hk & -> & E0)|(Hk & ->)].
  - rewrite filter_cons_True by (by apply Hf). by rewrite IHm, E0.
  - rewrite filter_cons_False by (by rewrite Hf). done.
Qed.

Lemma mem_lookup_spec F (m : mem) (k : T) vlsn oom :
  tree_sorted (mem_tree m) -> Forall (fun e => s_addr e <> None) (mem_tree m) -> vlsn <> INT64_MAX - 1 -> quiet F oom ->
  wpx F (vy_mem_iterator_next m ITER_EQ (Some k) vlsn) (fun rc i => (rc = -1 /\ F) \/
    (rc = 0 /\ mi_history i = history_of vlsn (of_key k (mem_tree m)) /\ quiet F (mi_oom i)))
    (vy_mem_iterator_open oom).
Proof.
  intros Hs Ha Hv Hq. destruct (start_exists ITER_EQ (Some k) _ (groups_grouped _ Hs)) as (gsA & gsB & Hst & Ek); [done|].
  assert (forall i todo, iterating m ITER_EQ (Some k) (groups (mem_tree m)) F i todo -> quiet F (mi_oom i)) as Hquiet.
  { intros i todo [? ? ? ?|? ? ? []|[]]; done. }
  eapply wpx_mono.
  { apply (mem_next_spec m ITER_EQ (Some k) vlsn Ha (groups (mem_tree m)) (eq_sym (groups_concat _)) (groups_grouped _ Hs)
      Hv F _ (all_keys ITER_EQ (Some k) gsA gsB)). by apply it_new. }
  intros rc i [?|[-> H]]; [by left|right]. split; [done|]. rewrite Ek in H. cbv zeta in H. change (0 <? iterator_direction ITER_EQ) with true in H. cbv iota in H.
  rewrite groups_of_key in H by done. destruct (of_key k (mem_tree m)) as [|x g]; [cbn in H; naive_solver|].
  cbn [next_seen] in H. revert H. destruct (seen vlsn (x :: g)) eqn:Es; intros [-> Hi]; (split; [|by eapply Hquiet]); [|done].
  unfold history_of. by rewrite Es.
Qed.

(** ** Writing *)

Lemma tree_cmp_flip x y : vy_mem_tree_cmp x y < 0 <-> 0 < vy_mem_tree_cmp y x.
Proof.
  unfold vy_mem_tree_cmp. pose proof (compare_flip (s_tuple y) (s_tuple x)). pose proof (compare_flip (s_tuple x) (s_tuple y)).
  destruct (Z.eqb_spec (tuple_compare (s_tuple x) (s_tuple y)) 0), (Z.eqb_spec (tuple_compare (s_tuple y) (s_tuple x)) 0); cbn; try lia.
  destruct (Z.ltb_spec (s_lsn y) (s_lsn x)), (Z.ltb_spec (s_lsn x) (s_lsn y)); lia.
Qed.
Lemma tree_cmp_trans x y z : vy_mem_tree_cmp x y < 0 -> vy_mem_tree_cmp y z < 0 -> vy_mem_tree_cmp x z < 0.
Proof.
  rewrite !tree_cmp_before. unfold same_key.
  pose proof (compare_lt_trans (s_tuple x) (s_tuple y) (s_tuple z)).
  pose proof (compare_le_lt_trans (s_tuple x) (s_tuple y) (s_tuple z)).
  pose proof (transitivity (R := same_key) (x := s_tuple x) (y := s_tuple y) (z := s_tuple z)) as Ht. unfold same_key in Ht. lia.
Qed.
Lemma tree_cmp_zero x y z : vy_mem_tree_cmp x y = 0 -> vy_mem_tree_cmp y z < 0 -> vy_mem_tree_cmp x z < 0.
Proof.
  rewrite !tree_cmp_before. unfold vy_mem_tree_cmp, same_key.
  destruct (Z.eqb_spec (tuple_compare (s_tuple x) (s_tuple y)) 0) as [E|]; cbn; [|lia].
  destruct (Z.ltb_spec (s_lsn y) (s_lsn x)); [lia|]. destruct (Z.ltb_spec (s_lsn x) (s_lsn y)); [lia|]. intros _.
  pose proof (compare_le_lt_trans (s_tuple x) (s_tuple y) (s_tuple z)).
  pose proof (transitivity (R := same_key) (x := s_tuple x) (y := s_tuple y) (z := s_tuple z)) as Ht. unfold same_key in Ht. lia.
Qed.

Lemma tree_insert_spec e tree :
  tree_sorted tree ->
  tree_sorted (snd (tree_insert e tree)) /\
  (forall x, x ∈ snd (tree_insert e tree) <-> x = e \/ (x ∈ tree /\ vy_mem_tree_cmp e x <> 0)) /\
  (forall y, fst (tree_insert e tree) = Some y -> y ∈ tree /\ vy_mem_tree_cmp e y = 0).
Proof.
  intros Hs. induction Hs as [|x tree Hs IH Hf]; cbn.
  { split_and!; [repeat constructor|set_solver|done]. }
  destruct (Z.ltb_spec (vy_mem_tree_cmp e x) 0) as [Hlt|Hge].
  - assert (forall y, y ∈ tree -> vy_mem_tree_cmp e y < 0) as He.
    { intros y Hy. rewrite Forall_forall in Hf. eapply tree_cmp_trans; [exact Hlt|by apply Hf]. }
    split_and!; cbn; [| |done].
    + constructor; [by constructor|]. constructor; [done|]. rewrite Forall_forall. apply He.
    + intros y. rewrite !elem_of_cons. split; [|tauto]. intros [?|[->|Hy]]; [by left|right..]; (split; [tauto|]); [lia|].
      specialize (He y Hy). lia.
  - destruct (Z.eqb_spec (vy_mem_tree_cmp e x) 0) as [E|Hne].
    + assert (forall y, y ∈ tree -> vy_mem_tree_cmp e y < 0) as He.
      { intros y Hy. rewrite Forall_forall in Hf. eapply tree_cmp_zero; [exact E|by apply Hf]. }
      split_and!; cbn.
      * constructor; [done|]. rewrite Forall_forall. apply He.
      * intros y. rewrite !elem_of_cons. split; [|intros [?|[[->|?] ?]]; [by left|done|by right]].
        intros [?|Hy]; [by left|right]. specialize (He y Hy). split; [by right|lia].
      * intros y [= <-]. split; [by left|done].
    + destruct IH as (I1 & I2 & I3). destruct (tree_insert e tree) as [r tree'] eqn:Ei. cbn in *. split_and!.
      * constructor; [done|]. apply Forall_forall. intros y Hy. apply I2 in Hy as [->|[Hy _]].
        -- apply tree_cmp_flip. lia.
        -- rewrite Forall_forall in Hf. by apply Hf.
      * intros y. rewrite !elem_of_cons, I2. split; [|tauto]. intros [->|[?|[? ?]]]; [right|by left|tauto]. split; [by left|lia].
      * intros y Ey. destruct (I3 y Ey). split; [by right|done].
Qed.
End MemTuples.

(** ** Keys of two parts *)

Module Parts.
(** Tuples of two key parts and a value; a key has the first part, and the
    second one or not. *)
Definition part_tuple : Type := Z * Z * Z.
Definition part_key : Type := Z * option Z.
#[export] Instance parts : Tuples part_tuple Z := {
  tuple_compare a b := if fst (fst a) =? fst (fst b) then snd (fst a) - snd (fst b) else fst (fst a) - fst (fst b);
  key_column_mask := 3;
  xrow_upsert_execute o t := Some ((fst t, snd t + o), 4);
  tuple_validate_raw _ := true;
}.
#[export] Instance parts_laws : TuplesLaws part_tuple Z.
Proof.
  split; cbn.
  - intros a. rewrite Z.eqb_refl. lia.
  - intros a b. destruct (Z.eqb_spec (fst (fst a)) (fst (fst b))), (Z.eqb_spec (fst (fst b)) (fst (fst a))); lia.
  - intros a b c. destruct (Z.eqb_spec (fst (fst a)) (fst (fst b))), (Z.eqb_spec (fst (fst b)) (fst (fst c))),
      (Z.eqb_spec (fst (fst a)) (fst (fst c))); lia.
  - intros o t t' mask [= <- <-] _. cbn. rewrite Z.eqb_refl. lia.
Qed.
#[export] Instance part_keys : SearchKeys part_tuple part_key := {
  tuple_compare_with_key t k :=
    if fst (fst t) =? fst k then match snd k with Some p => snd (fst t) - p | None => 0 end else fst (fst t) - fst k;
  key_compare_with_tuple k t :=
    if fst k =? fst (fst t) then match snd k with Some p => p - snd (fst t) | None => 0 end else fst k - fst (fst t);
  tuple_key t := (fst (fst t), Some (snd (fst t)));
}.
#[export] Instance part_keys_laws : SearchKeysLaws part_tuple Z part_key.
Proof.
  split; cbn.
  - intros t k. destruct (Z.eqb_spec (fst k) (fst (fst t))), (Z.eqb_spec (fst (fst t)) (fst k)), (snd k); lia.
  - intros t k. destruct (Z.eqb_spec (fst k) (fst (fst t))), (Z.eqb_spec (fst (fst t)) (fst k)), (snd k); lia.
  - intros a b k. destruct (Z.eqb_spec (fst (fst a)) (fst (fst b))), (Z.eqb_spec (fst (fst b)) (fst k)),
      (Z.eqb_spec (fst (fst a)) (fst k)), (snd k); lia.
  - intros a b k. destruct (Z.eqb_spec (fst (fst a)) (fst (fst b))), (Z.eqb_spec (fst (fst b)) (fst k)),
      (Z.eqb_spec (fst (fst a)) (fst k)), (snd k); lia.
  - done.
Qed.

Definition ps (a : Z) (ty : iproto_type) (lsn p1 p2 v : Z) (ops : list Z) : vy_stmt part_tuple Z :=
  mk_stmt (Some a) ty lsn 0 true (p1, p2, v) ops 0.
Definition parts_mem : vy_mem part_tuple Z :=
  mk_mem [ps 1 IPROTO_REPLACE 9 0 5 100 []; ps 2 IPROTO_UPSERT 8 1 2 20 [7]; ps 3 IPROTO_REPLACE 7 1 2 30 [];
          ps 4 IPROTO_REPLACE 6 1 4 40 []; ps 5 IPROTO_REPLACE 2 1 4 41 []; ps 6 IPROTO_REPLACE 3 2 1 50 []] 6 6 0 9.

Lemma parts_sorted : tree_sorted (mem_tree parts_mem).
Proof. repeat constructor; vm_compute; reflexivity. Qed.
Lemma parts_addr : Forall (fun e => s_addr e <> None) (mem_tree parts_mem).
Proof. repeat (constructor; [discriminate|]). constructor. Qed.

(** A partial key, which two keys match. *)
Definition part_one : part_key := (1, None).
Lemma mem_iterator_scans_witness :
  wp (mem_nexts parts_mem ITER_EQ (Some part_one) 8 3) (fun hs _ => hs =
    [[ps 2 IPROTO_UPSERT 8 1 2 20 [7]; ps 3 IPROTO_REPLACE 7 1 2 30 []]; [ps 4 IPROTO_REPLACE 6 1 4 40 []]; []])
    (vy_mem_iterator_open []).
Proof.
  assert (8 <> INT64_MAX - 1) as Hv by (vm_compute; discriminate).
  assert (Some part_one = None -> ITER_EQ = ITER_GE \/ ITER_EQ = ITER_LE) as Hk by discriminate.
  pose proof (mem_iterator_scans parts_mem ITER_EQ (Some part_one) 8 parts_sorted parts_addr Hv 3 Hk) as H.
  eapply wp_mono; [exact H|]. intros hs i ->. vm_compute. reflexivity.
Defined.
End Parts.
