(* ===== verification/VyLevels.v ===== *)
(** * Levels of an LSM tree

    The statements of an LSM tree are spread over levels: the memories and the
    runs, newest first.  What makes a list of levels right, and that it stays
    right, and reads the same, when the write iterator replaces some adjacent
    levels by the run it makes of them. *)

From stdpp Require Import list sorting.
From S2P Require Import Prelude VyStmt VyVisible VyViews VyDeferred VyMerge VyOutput VyRun VyCompaction.
From S2P Require Import VyMem VyMemSafety VyMemTheorems.

Open Scope Z_scope.

(** What is known of an execution.  Spaces with one index may have UPSERTs,
    spaces with several may have deferred DELETEs, and no space is taken to have
    both.  [wl_tame]: no task of dump or compaction that knows of a read view
    has an UPSERT directly on a DELETE ([tame] of VyLsmSafety.v).  Nothing in
    the code sees to that: what is shown without it are the theorems for
    [wl_tame = false]. *)
Record workload := mk_workload { wl_upserts : bool; wl_tame : bool }.

Section Levels.
Context {T O : Type} `{!Tuples T O, !TuplesLaws T O}.
Abbreviation stmt := (vy_stmt T O).
Abbreviation level := (list stmt).
Implicit Types (x y e : stmt) (l ms out : level) (ls A B : list level) (t : T) (b : option T).

Context (wl : workload).

(** ** Well-formed levels *)

Definition newest_first l : Prop :=
  StronglySorted (fun x y => same_key (s_tuple x) (s_tuple y) -> s_lsn y < s_lsn x) l.

Record stmt_ok (lsn : Z) x : Prop := {
  st_lsn : 0 < s_lsn x <= lsn;
  st_ops : upsert_ok x;
  st_flag : flagged x -> (s_type x = IPROTO_DELETE \/ s_type x = IPROTO_REPLACE) /\ wl_upserts wl = false;
  st_upsert : s_type x = IPROTO_UPSERT -> wl_upserts wl = true;
  st_skip : ~ skipped x;
}.

(** An INSERT at the bottom of a level promises that there is nothing below. *)
Record levels_ok (lsn : Z) ls : Prop := {
  lv_sorted : Forall tree_sorted ls;
  lv_stmts : Forall (stmt_ok lsn) (concat ls);
  lv_order : newest_first (concat ls);
  lv_insert : wl_tame wl = true -> forall A l B t x, ls = A ++ l :: B -> list.last (of_key t l) = Some x -> s_type x = IPROTO_INSERT ->
    visible None INT64_MAX (of_key t (concat B)) = None;
}.

(** What a read view sees of a key. *)
Definition read ls t (v : Z) : option T := visible None v (of_key t (concat ls)).

(** ** Lists sorted by LSN *)

Lemma tree_newest_first l : tree_sorted l -> newest_first l.
Proof.
  apply StronglySorted_weaken. intros x y H E. apply tree_cmp_before in H as [H|[_ ?]]; [|done]. unfold same_key in E. lia.
Qed.

Lemma newest_first_app l l' :
  newest_first (l ++ l') <-> newest_first l /\ newest_first l' /\
    forall x y, x ∈ l -> y ∈ l' -> same_key (s_tuple x) (s_tuple y) -> s_lsn y < s_lsn x.
Proof.
  unfold newest_first. split.
  - intros H. split_and!; [by eapply StronglySorted_app_1_l|by eapply StronglySorted_app_1_r|].
    intros x y Hx Hy. exact (StronglySorted_app_1_elem_of _ l l' x y H Hx Hy).
  - intros (H1 & H2 & H3). by apply StronglySorted_app_2.
Qed.

Lemma of_key_elem t x l : x ∈ of_key t l <-> at_key t x /\ x ∈ l.
Proof. unfold of_key. by rewrite list_elem_of_filter. Qed.
Lemma at_key_same t x y : at_key t x -> at_key t y -> same_key (s_tuple x) (s_tuple y).
Proof. unfold at_key. intros H1 H2. etransitivity; [symmetry; exact H1|exact H2]. Qed.

Lemma newest_first_key t l : newest_first l -> StronglySorted (fun x y => s_lsn y < s_lsn x) (of_key t l).
Proof.
  intros H. induction H as [|x l H IH Hf]; [constructor|]. unfold of_key. destruct (decide (at_key t x)) as [Hx|Hx].
  - rewrite filter_cons_True by done. constructor; [done|]. rewrite Forall_forall in *. intros y Hy.
    apply of_key_elem in Hy as [Hk Hy]. apply Hf; [done|]. by apply (at_key_same t).
  - by rewrite filter_cons_False.
Qed.

Lemma lsn_sorted_unique l l' :
  StronglySorted (fun x y => s_lsn y < s_lsn x) l -> StronglySorted (fun x y => s_lsn y < s_lsn x) l' ->
  l ≡ₚ l' -> l = l'.
Proof.
  intros H1. revert l'. induction H1 as [|x l H1 IH Hf]; intros l' H2 Hp.
  { by apply Permutation_nil in Hp. }
  destruct H2 as [|y l' H2 Hf2]; [by apply Permutation_sym, Permutation_nil_cons in Hp|].
  rewrite Forall_forall in *. assert (x = y) as ->.
  { assert (x ∈ y :: l') as Hx by (rewrite <- Hp; by left). assert (y ∈ x :: l) as Hy by (rewrite Hp; by left).
    apply elem_of_cons in Hx as [?|Hx]; [done|]. apply elem_of_cons in Hy as [?|Hy]; [done|].
    specialize (Hf y Hy). specialize (Hf2 x Hx). lia. }
  f_equal. apply IH; [done|]. by apply Permutation_cons_inv in Hp.
Qed.

Lemma of_key_perm t l l' : l ≡ₚ l' -> newest_first l -> newest_first l' -> of_key t l = of_key t l'.
Proof.
  intros Hp H1 H2. apply lsn_sorted_unique; [by apply newest_first_key..|]. unfold of_key. by rewrite Hp.
Qed.

(** ** Merging levels *)

Lemma tree_insert_perm e l : Forall (fun x => vy_mem_tree_cmp e x <> 0) l -> snd (tree_insert e l) ≡ₚ e :: l.
Proof.
  intros Hf. induction Hf as [|x l Hx Hf IH]; cbn; [done|]. destruct (_ <? 0); [done|].
  destruct (Z.eqb_spec (vy_mem_tree_cmp e x) 0); [done|]. destruct (tree_insert e l) as [r l']. cbn in *.
  rewrite IH. apply perm_swap.
Qed.

Lemma cmp_zero x y : vy_mem_tree_cmp x y = 0 -> same_key (s_tuple x) (s_tuple y) /\ s_lsn x = s_lsn y.
Proof.
  unfold vy_mem_tree_cmp, same_key. destruct (Z.eqb_spec (tuple_compare (s_tuple x) (s_tuple y)) 0); cbn; [|done].
  destruct (Z.ltb_spec (s_lsn y) (s_lsn x)); [done|]. destruct (Z.ltb_spec (s_lsn x) (s_lsn y)); [done|]. lia.
Qed.

Definition merged l : level := foldr (fun e tree => snd (tree_insert e tree)) [] l.

Lemma merged_spec l : newest_first l -> tree_sorted (merged l) /\ merged l ≡ₚ l.
Proof.
  intros H. induction H as [|x l H IH Hf]; [by split; [constructor|]|]. destruct IH as [IH1 IH2]. cbn. split.
  { by apply tree_insert_spec. }
  rewrite tree_insert_perm; [by rewrite IH2|]. rewrite Forall_forall in *. intros y Hy E. apply cmp_zero in E as [Ek El].
  specialize (Hf y). rewrite <- IH2 in Hf. specialize (Hf Hy Ek). lia.
Qed.

Lemma merged_of_key t l : newest_first l -> of_key t (merged l) = of_key t l.
Proof. intros H. destruct (merged_spec l H) as [Hs Hp]. apply of_key_perm; [done| |done]. by apply tree_newest_first. Qed.

Lemma group_of_key l g : tree_sorted l -> g ∈ groups l -> exists t, g = of_key t l.
Proof.
  intros Hs Hg. destruct g as [|x g].
  { pose proof (groups_grouped l Hs) as [Hk _]. rewrite Forall_forall in Hk. by destruct (Hk _ Hg). }
  exists (s_tuple x). pose proof (groups_of_key (s_tuple x) l Hs) as E.
  assert (x :: g ∈ filter (fun g => first_of g (in_range ITER_EQ (Some (s_tuple x))) = true) (groups l)) as Hin.
  { apply list_elem_of_filter. split; [|done]. cbn. apply Z.eqb_eq. apply compare_refl. }
  rewrite E in Hin. destruct (of_key (s_tuple x) l) as [|y l']; [by apply elem_of_nil in Hin|].
  by apply list_elem_of_singleton in Hin.
Qed.

(** ** The input of a task *)

Lemma key_group_input lsn t l :
  Forall (stmt_ok lsn) l -> newest_first l -> lsn <= INT64_MAX -> key_input true (of_key t l).
Proof.
  intros Hok Hn Hmax. assert (Forall (stmt_ok lsn) (of_key t l)) as Hk.
  { rewrite Forall_forall in *. intros x Hx. apply of_key_elem in Hx as [_ Hx]. by apply Hok. }
  split.
  - eapply StronglySorted_weaken; [|by apply newest_first_key]. intros x y H. by left.
  - eapply Forall_impl; [exact Hk|]. intros x Hx. pose proof (st_lsn _ _ Hx). lia.
  - eapply Forall_impl; [exact Hk|]. intros x Hx. apply Hx.
  - eapply Forall_impl; [exact Hk|]. intros x Hx Hf. by apply (st_flag _ _ Hx).
  - intros ks1 d ks2 E Hf Hu. rewrite E in Hk. apply Forall_app in Hk as [_ Hk]. apply Forall_cons in Hk as [Hd Hk].
    destruct (st_flag _ _ Hd Hf) as [_ Hnu]. destruct ks2 as [|x ks2]; [done|].
    apply Forall_inv in Hk as Hx, Hu as Et. apply (st_upsert _ _ Hx) in Et. congruence.
Qed.

Lemma merged_input lsn ls :
  Forall tree_sorted ls -> Forall (stmt_ok lsn) (concat ls) -> newest_first (concat ls) -> lsn <= INT64_MAX ->
  Forall (fun x => s_addr x <> None) (concat ls) -> Z.of_nat (length ls) + 1 < 2 ^ 31 ->
  task_input true ls (merged (concat ls)).
Proof.
  intros Hs Hok Hn Hmax Ha Hsm. destruct (merged_spec _ Hn) as [Hm Hp]. split; [done| | | | |done].
  - by apply tree_sorted_before.
  - eapply Forall_impl; [exact Hs|]. intros l. apply tree_sorted_before.
  - rewrite Hp. eapply Forall_impl; [exact Hok|]. intros x Hx. pose proof (st_lsn _ _ Hx). lia.
  - apply Forall_forall. intros g Hg. destruct (group_of_key _ _ Hm Hg) as [t ->]. rewrite merged_of_key by done. split.
    + by eapply key_group_input.
    + rewrite Forall_forall in *. intros x Hx. apply of_key_elem in Hx as [_ Hx]. by apply Ha.
Qed.

(** ** Replacing levels by a run *)

Lemma last_of_key t ls x :
  list.last (of_key t (concat ls)) = Some x ->
  exists ls1 l ls2, ls = ls1 ++ l :: ls2 /\ list.last (of_key t l) = Some x /\ of_key t (concat ls2) = [].
Proof.
  induction ls as [|l ls IH]; [done|]. cbn [concat]. rewrite of_key_app.
  destruct (of_key t (concat ls)) as [|y l'] eqn:E.
  - rewrite app_nil_r. intros H. by exists [], l, ls.
  - rewrite last_app_cons. intros H. destruct (IH H) as (ls1 & l2 & ls2 & -> & H1 & H2). by exists (l :: ls1), l2, ls2.
Qed.

Lemma visible_all b v l : Forall (fun x => s_lsn x <= v) l -> visible b v l = state_of b l.
Proof. intros H. unfold visible. by rewrite filter_all. Qed.
Lemma visible_max lsn b v l :
  Forall (stmt_ok lsn) l -> Forall (fun x => s_lsn x <= v) l -> lsn <= INT64_MAX -> visible b v l = visible b INT64_MAX l.
Proof.
  intros Hok Hv Hmax. rewrite !visible_all; [done| |done]. eapply Forall_impl; [exact Hok|]. intros x Hx.
  pose proof (st_lsn _ _ Hx). lia.
Qed.
Lemma of_key_Forall (P : stmt -> Prop) t l : Forall P l -> Forall P (of_key t l).
Proof. rewrite !Forall_forall. intros H x Hx. apply of_key_elem in Hx as [_ Hx]. by apply H. Qed.

Lemma split_middle {X} (A' B' A0 B0 : list X) (l o : X) :
  A' ++ l :: B' = A0 ++ o :: B0 ->
  (exists A2 : list X, A0 = A' ++ l :: A2 /\ B' = A2 ++ o :: B0) \/ (A' = A0 /\ l = o /\ B' = B0) \/
  (exists B1 : list X, B0 = B1 ++ l :: B' /\ A' = A0 ++ o :: B1).
Proof.
  revert A0. induction A' as [|a A' IH]; intros [|a0 A0]; cbn; intros E; simplify_eq.
  - by right; left.
  - left. by exists A0.
  - right; right. by exists A'.
  - destruct (IH A0) as [(A2 & -> & ->)|[(-> & -> & ->)|(B1 & -> & ->)]]; [done| | |].
    + left. by exists A2.
    + by right; left.
    + right; right. by exists B1.
Qed.

Section Replace.
Context (lsn : Z) (A S B : list level) (lst : bool) (views : list Z).
Context (Hok : levels_ok lsn (A ++ S ++ B)) (Hlsn : lsn <= INT64_MAX).
Context (Hviews : views_sorted (INT64_MAX :: rev views)) (Hin : task_input true S (merged (concat S))).
Context (Hlast : lst = true -> concat B = []).
Context (Htame : wl_tame wl = true -> wl_upserts wl = false \/ views = [] \/ forall t, calm (of_key t (concat S))).
Abbreviation vs := (INT64_MAX :: rev views).
Abbreviation out := (outputs true lst vs (merged (concat S))).

Lemma S_stmts : Forall (stmt_ok lsn) (concat S) /\ Forall (stmt_ok lsn) (concat B) /\ Forall (stmt_ok lsn) (concat A).
Proof. pose proof (lv_stmts _ _ Hok) as H. rewrite !concat_app, !Forall_app in H. tauto. Qed.
Lemma S_order : newest_first (concat S) /\ newest_first (concat B) /\ newest_first (concat A) /\
  (forall x y, x ∈ concat S -> y ∈ concat B -> same_key (s_tuple x) (s_tuple y) -> s_lsn y < s_lsn x) /\
  (forall x y, x ∈ concat A -> y ∈ concat S ++ concat B -> same_key (s_tuple x) (s_tuple y) -> s_lsn y < s_lsn x).
Proof.
  pose proof (lv_order _ _ Hok) as H. rewrite !concat_app in H. apply newest_first_app in H as (H1 & H2 & H3).
  apply newest_first_app in H2 as (H4 & H5 & H6). done.
Qed.

(** A run whose oldest statement is an INSERT has nothing below. *)
Lemma first_insert_below (Hw : wl_tame wl = true) t :
  first_insert true (of_key t (concat S)) = true -> visible None INT64_MAX (of_key t (concat B)) = None.
Proof.
  unfold first_insert. destruct (list.last (of_key t (concat S))) as [x|] eqn:E; [|done]. intros Hx.
  rewrite orb_false_r in Hx. apply has_typeP in Hx. apply last_of_key in E as (S1 & l & S2 & E & El & E2).
  pose proof (lv_insert _ _ Hok Hw (A ++ S1) l (S2 ++ B) t x) as H. rewrite concat_app, of_key_app, E2 in H.
  apply H; [|done|done]. rewrite E, <- !app_assoc. done.
Qed.
Lemma below_at (Hw : wl_tame wl = true) t v :
  first_insert true (of_key t (concat S)) = true -> ~ Forall (fun x => v < s_lsn x) (of_key t (concat S)) ->
  visible None v (of_key t (concat B)) = None.
Proof.
  intros Hf Hn. transitivity (visible None INT64_MAX (of_key t (concat B))); [|by apply first_insert_below].
  destruct S_stmts as (_ & HB & _).
  apply (visible_max lsn); [by apply of_key_Forall| |done].
  apply not_Forall_Exists in Hn; [|apply _]. apply Exists_exists in Hn as (x & Hx & Hv). cbn in Hv.
  apply of_key_elem in Hx as [Hkx Hx]. apply Forall_forall. intros y Hy. apply of_key_elem in Hy as [Hky Hy].
  destruct S_order as (_ & _ & _ & H & _). specialize (H x y Hx Hy (at_key_same t x y Hkx Hky)). cbv beta. lia.
Qed.

Lemma S_good : StronglySorted before (merged (concat S)) /\ Forall (good true) (groups (merged (concat S))).
Proof. by destruct Hin. Qed.
Lemma S_calm (Hw : wl_tame wl = true) t : (length vs <= 1)%nat \/ calm (of_key t (merged (concat S))).
Proof.
  rewrite merged_of_key by apply S_order. destruct (Htame Hw) as [Hu|[->|Hc]]; [|by left|by right].
  right. intros ks1 u d ks2 E Eu _. assert (u ∈ of_key t (concat S)) as Hx by (rewrite E; set_solver).
  apply of_key_elem in Hx as [_ Hx]. destruct S_stmts as (H & _ & _). rewrite Forall_forall in H.
  apply (st_upsert _ _ (H u Hx)) in Eu. congruence.
Qed.
Lemma out_of_key t : of_key t out = key_output true lst vs (of_key t (concat S)).
Proof.
  destruct S_good as [H1 H2]. rewrite (outputs_of_key true lst vs t (merged (concat S)) H1 H2).
  by rewrite merged_of_key by apply S_order.
Qed.
Lemma S_key_input t : key_input true (of_key t (concat S)).
Proof. eapply key_group_input; [apply S_stmts|apply S_order|done]. Qed.

(** Where a statement of the run comes from. *)
Lemma out_origin x : x ∈ out -> exists y, y ∈ concat S /\ same_key (s_tuple x) (s_tuple y) /\ s_lsn x = s_lsn y.
Proof.
  intros Hx. assert (x ∈ of_key (s_tuple x) out) as Hk by (apply of_key_elem; split; [apply compare_refl|done]).
  rewrite out_of_key in Hk. pose proof (output_origin true lst vs _ (S_key_input (s_tuple x))) as Ho.
  rewrite Forall_forall in Ho. destruct (or_lsn _ _ (Ho x Hk)) as (n & Hn & El & _).
  apply of_key_elem in Hn as [Hnk Hn]. by exists n.
Qed.
Lemma out_stmts : Forall (stmt_ok lsn) out.
Proof.
  apply Forall_forall. intros x Hx.
  assert (x ∈ of_key (s_tuple x) out) as Hk by (apply of_key_elem; split; [apply compare_refl|done]).
  rewrite out_of_key in Hk. pose proof (output_origin true lst vs _ (S_key_input (s_tuple x))) as Ho.
  rewrite Forall_forall in Ho. specialize (Ho x Hk) as [(n & Hn & El & Et) Hf Hu Hs].
  destruct S_stmts as (H & _ & _). rewrite Forall_forall in H.
  assert (forall y, y ∈ of_key (s_tuple x) (concat S) -> stmt_ok lsn y) as H'.
  { intros y Hy. apply of_key_elem in Hy as [_ Hy]. by apply H. }
  split; [rewrite El; by apply H'|done| | |].
  - intros Hfl. by apply H'; [apply Hf|].
  - intros E. apply (st_upsert _ _ (H' n Hn)), Et, E.
  - intros Hsk. destruct (Hs Hsk) as (m & Hm & Hms). by apply (st_skip _ _ (H' m Hm)).
Qed.
Lemma out_sorted : tree_sorted out.
Proof.
  destruct S_good as [H1 H2]. eapply StronglySorted_weaken; [|exact (outputs_strict true lst vs Hviews eq_refl _ H1 H2)].
  intros x y H. by apply tree_cmp_before.
Qed.

(** Readers do not notice the replacement: neither those whose read view was
    known to the task, nor those that see all of its input. *)
Lemma out_reads (Hw : wl_tame wl = true) t v :
  v ∈ vs \/ Forall (fun x => s_lsn x <= v) (concat S) ->
  visible (visible None v (of_key t (concat B))) v (of_key t out) =
  visible (visible None v (of_key t (concat B))) v (of_key t (concat S)).
Proof.
  intros Hv. destruct S_good as [H1 H2]. set (b := visible None v (of_key t (concat B))).
  assert (lst = true -> b = None) as Hl by (intros L; unfold b; by rewrite (Hlast L)).
  assert (of_key t (merged (concat S)) = of_key t (concat S)) as Em by apply merged_of_key, S_order.
  assert (first_insert true (of_key t (concat S)) = true ->
    b = None \/ Forall (fun x => v < s_lsn x) (of_key t (concat S))) as Hf.
  { intros E. destruct (decide (Forall (fun x => v < s_lsn x) (of_key t (concat S)))); [by right|left]. by apply below_at. }
  destruct Hv as [Hv|Hv].
  - rewrite <- Em. apply outputs_see; try done; [by apply S_calm|]. by rewrite Em.
  - destruct S_stmts as (HS & _ & _). rewrite (visible_max lsn b v (of_key t (concat S))); [|by apply of_key_Forall..|done].
    rewrite (visible_max lsn b v (of_key t out)); [| | |done].
    + rewrite <- Em. apply outputs_see; try done; [by apply S_calm|by left|]. rewrite Em. intros E.
      destruct (Hf E) as [?|Hn]; [by left|left]. destruct (of_key t (concat S)) as [|x l] eqn:E2; [done|].
      apply Forall_inv in Hn. assert (x ∈ concat S) as Hx.
      { assert (x ∈ of_key t (concat S)) as Hx by (rewrite E2; by left). by apply of_key_elem in Hx as [_ ?]. }
      rewrite Forall_forall in Hv. specialize (Hv x Hx). lia.
    + by apply of_key_Forall, out_stmts.
    + apply of_key_Forall, Forall_forall. intros x Hx. destruct (out_origin x Hx) as (y & Hy & _ & ->).
      rewrite Forall_forall in Hv. by apply Hv.
Qed.

Lemma replaced_read (Hw : wl_tame wl = true) t v :
  v ∈ vs \/ Forall (fun x => s_lsn x <= v) (concat S) -> read (A ++ out :: B) t v = read (A ++ S ++ B) t v.
Proof.
  intros Hv. unfold read. rewrite !concat_app, !of_key_app, !visible_app. f_equal.
  cbn [concat]. rewrite of_key_app, visible_app. by apply out_reads.
Qed.

Lemma replaced_ok : levels_ok lsn (A ++ out :: B).
Proof.
  destruct S_stmts as (_ & HB & HA). destruct S_order as (_ & OB & OA & OSB & OAS). split.
  - pose proof (lv_sorted _ _ Hok) as H. rewrite !Forall_app in H. rewrite Forall_app, Forall_cons.
    split_and!; [tauto|apply out_sorted|tauto].
  - rewrite concat_app. cbn [concat]. rewrite !Forall_app. split_and!; [done|apply out_stmts|done].
  - rewrite concat_app. cbn [concat]. rewrite !newest_first_app. split_and!; try done.
    + apply tree_newest_first, out_sorted.
    + intros x y Hx Hy Hk. destruct (out_origin x Hx) as (z & Hz & Ez & ->). apply (OSB z y Hz Hy).
      etransitivity; [symmetry; exact Ez|exact Hk].
    + intros x y Hx Hy Hk. apply elem_of_app in Hy as [Hy|Hy]; [|apply OAS; set_solver].
      destruct (out_origin y Hy) as (z & Hz & Ez & ->). apply OAS; [done|set_solver|by etransitivity].
  - intros Hw A' l B' t x E El Ex. symmetry in E. apply split_middle in E as [(A2 & E1 & ->)|[(-> & -> & ->)|(B1 & E1 & ->)]].
    + change (read (A2 ++ out :: B) t INT64_MAX = None).
      pose proof (lv_insert _ _ Hok Hw A' l (A2 ++ S ++ B) t x) as H. rewrite E1, <- app_assoc in H. specialize (H eq_refl El Ex).
      rewrite <- H. unfold read. rewrite !concat_app, !of_key_app, !visible_app. f_equal. cbn [concat].
      rewrite of_key_app, visible_app. apply out_reads; [done|]. left. by left.
    + apply first_insert_below; [done|]. rewrite out_of_key in El. by eapply output_last_insert; [apply S_key_input| |].
    + apply (lv_insert _ _ Hok Hw (A ++ S ++ B1) l B' t x); [|done|done]. by rewrite E1, <- !app_assoc.
Qed.
End Replace.

(** ** Other changes of the levels *)

Lemma levels_drop_nil lsn A B : levels_ok lsn (A ++ [] :: B) -> levels_ok lsn (A ++ B).
Proof.
  intros [H1 H2 H3 H4]. rewrite concat_app in H2, H3. cbn in H2, H3. rewrite <- concat_app in H2, H3. split; [|done|done|].
  - rewrite Forall_app, Forall_cons in H1. rewrite Forall_app. tauto.
  - intros Hw. specialize (H4 Hw). intros A' l B' t x E El Ex.
    apply app_eq_app in E as (k & [[-> E]|[-> E]]).
    + destruct k as [|l' k]; cbn in E; [subst B|injection E as <- ->].
      * by apply (H4 (A' ++ [[]]) l B' t x); [rewrite app_nil_r, <- app_assoc|..].
      * specialize (H4 A' l (k ++ [] :: B) t x). rewrite concat_app in *. cbn in H4. apply H4; [|done..].
        by rewrite <- app_assoc.
    + apply (H4 (A ++ [] :: k) l B' t x); [|done..]. by rewrite E, <- app_assoc.
Qed.
Lemma levels_add_nil lsn A B : levels_ok lsn (A ++ B) -> levels_ok lsn (A ++ [] :: B).
Proof.
  intros [H1 H2 H3 H4]. assert (concat (A ++ [] :: B) = concat (A ++ B)) as Ec by (by rewrite !concat_app).
  split; [|by rewrite Ec..|].
  - rewrite Forall_app in *. rewrite Forall_cons. split_and!; [tauto|constructor|tauto].
  - intros Hw. specialize (H4 Hw). intros A' l B' t x E El Ex. symmetry in E. apply split_middle in E as [(A2 & -> & ->)|[(-> & -> & ->)|(B1 & -> & ->)]]; [|done|].
    + specialize (H4 A' l (A2 ++ B) t x). rewrite concat_app in *. cbn. apply H4; [by rewrite <- app_assoc|done..].
    + apply (H4 (A ++ B1) l B' t x); [by rewrite <- app_assoc|done..].
Qed.
Lemma levels_lsn lsn lsn' ls : levels_ok lsn ls -> lsn <= lsn' -> levels_ok lsn' ls.
Proof.
  intros [H1 H2 H3 H4] Hle. split; try done. eapply Forall_impl; [exact H2|]. intros x [? ? ? ? ?]. split; try done. lia.
Qed.
Lemma read_nil A B t v : read (A ++ [] :: B) t v = read (A ++ B) t v.
Proof. unfold read. by rewrite !concat_app. Qed.

(** Copies of statements: only the address and flags that do not matter are
    different. *)
Record alike x y : Prop := {
  al_type : s_type x = s_type y; al_lsn : s_lsn x = s_lsn y; al_tuple : s_tuple x = s_tuple y; al_ops : s_ops x = s_ops y;
  al_flag : flagged x <-> flagged y; al_skip : skipped x <-> skipped y;
}.

Lemma alike_of_key t l l' : Forall2 alike l l' -> Forall2 alike (of_key t l) (of_key t l').
Proof.
  intros H. induction H as [|x y l l' Hx H IH]; [constructor|]. unfold of_key. destruct (decide (at_key t x)) as [Hk|Hk].
  - rewrite !filter_cons_True; [by constructor| |done]. unfold at_key in *. by rewrite <- (al_tuple _ _ Hx).
  - rewrite !filter_cons_False; [done| |done]. unfold at_key in *. by rewrite <- (al_tuple _ _ Hx).
Qed.
Lemma alike_visible b v l l' : Forall2 alike l l' -> visible b v l = visible b v l'.
Proof.
  intros H. induction H as [|x y l l' Hx H IH]; [done|]. unfold visible in *. destruct (decide (s_lsn x <= v)) as [Hv|Hv].
  - rewrite !filter_cons_True; [|by rewrite <- (al_lsn _ _ Hx)|done]. rewrite !state_of_cons, IH. unfold apply_stmt.
    by rewrite (al_type _ _ Hx), (al_tuple _ _ Hx), (al_ops _ _ Hx).
  - by rewrite !filter_cons_False by (by rewrite <- ?(al_lsn _ _ Hx)).
Qed.
Lemma alike_sorted (R : stmt -> stmt -> Prop) l l' :
  (forall x x' y y', alike x x' -> alike y y' -> R x y -> R x' y') -> Forall2 alike l l' -> StronglySorted R l -> StronglySorted R l'.
Proof.
  intros HR H. induction H as [|x x' l l' Hx H IH]; [done|]. intros Hs. apply StronglySorted_inv in Hs as [Hs Hf].
  constructor; [by apply IH|]. clear IH Hs. induction H as [|y y' l l' Hy H IH]; [constructor|].
  apply Forall_cons in Hf as [Hf1 Hf2]. constructor; [by eapply HR|by apply IH].
Qed.
Lemma alike_stmts lsn l l' : Forall2 alike l l' -> Forall (stmt_ok lsn) l -> Forall (stmt_ok lsn) l'.
Proof.
  intros H. induction H as [|x y l l' [E1 E2 E3 E4 E5 E6] H IH]; [done|]. rewrite !Forall_cons. intros [[P1 P2 P3 P4 P5] Hf].
  split; [|by apply IH]. unfold upsert_ok in *. rewrite E1, ?E2, ?E4, ?E5 in *. split; try done. by rewrite <- E6.
Qed.
Lemma alike_concat ls ls' : Forall2 (Forall2 alike) ls ls' -> Forall2 alike (concat ls) (concat ls').
Proof. intros H. induction H; [constructor|]. by apply Forall2_app. Qed.
Lemma alike_read ls ls' t v : Forall2 (Forall2 alike) ls ls' -> read ls t v = read ls' t v.
Proof. intros H. unfold read. by apply alike_visible, alike_of_key, alike_concat. Qed.

Lemma alike_levels lsn ls ls' : Forall2 (Forall2 alike) ls ls' -> levels_ok lsn ls -> levels_ok lsn ls'.
Proof.
  intros H [H1 H2 H3 H4]. pose proof (alike_concat _ _ H) as Hc. split.
  - clear - H H1. induction H as [|l l' ls ls' Hl H IH]; [constructor|]. rewrite Forall_cons in *. split; [|tauto].
    eapply alike_sorted; [|exact Hl|apply H1]. intros x x' y y' Hx Hy. unfold vy_mem_tree_cmp.
    by rewrite (al_tuple _ _ Hx), (al_tuple _ _ Hy), (al_lsn _ _ Hx), (al_lsn _ _ Hy).
  - by eapply alike_stmts.
  - eapply alike_sorted; [|exact Hc|exact H3]. intros x x' y y' Hx Hy.
    by rewrite (al_tuple _ _ Hx), (al_tuple _ _ Hy), (al_lsn _ _ Hx), (al_lsn _ _ Hy).
  - intros Hw. specialize (H4 Hw). intros A' l' B' t x' -> El Ex. apply Forall2_app_inv_r in H as (A & r & HA & Hr & ->).
    apply Forall2_cons_inv_r in Hr as (l & B & Hl & HB & ->).
    rewrite <- (alike_visible None INT64_MAX (of_key t (concat B))) by (by apply alike_of_key, alike_concat).
    pose proof (alike_of_key t _ _ Hl) as Hk. remember (of_key t l') as k' eqn:Ek'.
    destruct k' as [|y' k' _] using rev_ind; [done|]. rewrite last_snoc in El. injection El as ->.
    apply Forall2_app_inv_r in Hk as (k & r & _ & Hr & Ek). apply Forall2_cons_inv_r in Hr as (x & r' & Hx & Hr & ->).
    apply Forall2_nil_inv_r in Hr as ->. eapply (H4 A l B t x); [done|by rewrite Ek, last_snoc|by rewrite (al_type _ _ Hx)].
Qed.
End Levels.
