(* ===== verification/VyInsert.v ===== *)
(** * Writing a statement to the newest level

    What inserting the newest statement of its key into the active memory does
    to the levels, what vy_mem_older_lsn finds, and that an UPSERT may be
    replaced by its result when there is nothing below the memory. *)

From stdpp Require Import list sorting.
From S2P Require Import Prelude VyStmt VyVisible VyViews VyDeferred VyCompaction.
From S2P Require Import VyMem VyMemSafety VyMemTheorems VyLevels.

Open Scope Z_scope.

Section Insert.
Context {T O : Type} `{!Tuples T O, !TuplesLaws T O}.
Abbreviation stmt := (vy_stmt T O).
Abbreviation level := (list stmt).
Implicit Types (x y e r : stmt) (l : level) (ls : list level) (t : T).

(** ** The tree *)

Lemma cmp_newer e x : s_lsn x < s_lsn e -> vy_mem_tree_cmp e x <> 0.
Proof. intros H E. apply cmp_zero in E as [_ E]. lia. Qed.

(** [e] is newer than the statements of its key. *)
Definition key_newest e l : Prop := Forall (fun x => same_key (s_tuple e) (s_tuple x) -> s_lsn x < s_lsn e) l.
Lemma key_newest_all e l : Forall (fun x => s_lsn x < s_lsn e) l -> key_newest e l.
Proof. intros H. eapply Forall_impl; [exact H|]. by intros x Hx _. Qed.
Lemma cmp_newest e x : (same_key (s_tuple e) (s_tuple x) -> s_lsn x < s_lsn e) -> vy_mem_tree_cmp e x <> 0.
Proof. intros H E. apply cmp_zero in E as [Ek E]. specialize (H Ek). lia. Qed.

Lemma insert_newest e l :
  tree_sorted l -> key_newest e l ->
  tree_sorted (snd (tree_insert e l)) /\ snd (tree_insert e l) ≡ₚ e :: l /\ fst (tree_insert e l) = None /\
  (forall t, of_key t (snd (tree_insert e l)) = of_key t [e] ++ of_key t l).
Proof.
  intros Hs Hf. destruct (tree_insert_spec e l Hs) as (H1 & _ & H3).
  assert (snd (tree_insert e l) ≡ₚ e :: l) as Hp.
  { apply tree_insert_perm. eapply Forall_impl; [exact Hf|]. intros x. apply cmp_newest. }
  split_and!; [done|done| |].
  - destruct (fst (tree_insert e l)) as [y|]; [|done]. destruct (H3 y eq_refl) as [Hy E]. unfold key_newest in Hf. rewrite Forall_forall in Hf.
    by destruct (cmp_newest e y (Hf y Hy)).
  - intros t. rewrite <- of_key_app. apply of_key_perm; [done|by apply tree_newest_first|].
    constructor; [by apply tree_newest_first|]. eapply Forall_impl; [exact Hf|]. done.
Qed.

(** Inserting two statements at the same place. *)
Lemma cmp_same_place e r x : vy_mem_tree_cmp r e = 0 ->
  (vy_mem_tree_cmp e x < 0 <-> vy_mem_tree_cmp r x < 0) /\ (vy_mem_tree_cmp e x = 0 <-> vy_mem_tree_cmp r x = 0).
Proof.
  intros E. apply cmp_zero in E as [Ek El]. rewrite !tree_cmp_before. unfold vy_mem_tree_cmp, same_key in *. rewrite El.
  pose proof (compare_flip (s_tuple r) (s_tuple e)). pose proof (compare_flip (s_tuple e) (s_tuple r)).
  pose proof (compare_le_lt_trans (s_tuple r) (s_tuple e) (s_tuple x)).
  pose proof (compare_le_lt_trans (s_tuple e) (s_tuple r) (s_tuple x)).
  pose proof (transitivity (R := same_key) (x := s_tuple r) (y := s_tuple e) (z := s_tuple x)) as T1.
  pose proof (transitivity (R := same_key) (x := s_tuple e) (y := s_tuple r) (z := s_tuple x)) as T2. unfold same_key in *.
  destruct (Z.eqb_spec (tuple_compare (s_tuple e) (s_tuple x)) 0), (Z.eqb_spec (tuple_compare (s_tuple r) (s_tuple x)) 0); cbn; try lia.
Qed.
Lemma insert_twice e r l :
  vy_mem_tree_cmp r e = 0 ->
  snd (tree_insert r (snd (tree_insert e l))) = snd (tree_insert r l) /\ fst (tree_insert r (snd (tree_insert e l))) = Some e \/
  exists y, fst (tree_insert e l) = Some y.
Proof.
  intros E. induction l as [|x l IH]; cbn.
  { left. destruct (Z.ltb_spec (vy_mem_tree_cmp r e) 0); [lia|]. by rewrite E. }
  destruct (cmp_same_place e r x E) as [H1 H2]. destruct (Z.ltb_spec (vy_mem_tree_cmp e x) 0) as [Hlt|Hge].
  - left. cbn. destruct (Z.ltb_spec (vy_mem_tree_cmp r e) 0); [lia|]. rewrite E. cbn.
    destruct (Z.ltb_spec (vy_mem_tree_cmp r x) 0); [done|lia].
  - destruct (Z.eqb_spec (vy_mem_tree_cmp e x) 0) as [Ez|Hne]; [right; by eexists|].
    destruct (tree_insert e l) as [ye le] eqn:Ee. cbn in *.
    destruct (Z.ltb_spec (vy_mem_tree_cmp r x) 0); [lia|]. destruct (Z.eqb_spec (vy_mem_tree_cmp r x) 0); [lia|].
    destruct (tree_insert r le) as [y1 l1], (tree_insert r l) as [y2 l2]. cbn in *.
    destruct IH as [[-> ->]|IH]; [by left|by right].
Qed.

(** ** What the code finds below a new statement *)

Lemma bound_cons p x l : bound p (x :: l) = (if p x then Some 0%nat else S <$> bound p l).
Proof. done. Qed.

Lemma bound_lookup_cons p x l :
  (i ← bound p (x :: l); (x :: l) !! i) = if p x then Some x else (i ← bound p l; l !! i).
Proof. rewrite bound_cons. destruct (p x); [done|]. by destruct (bound p l). Qed.

(** The first statement of the key, or one of a greater key. *)
Definition next_is t l (r : option stmt) : Prop :=
  match of_key t l with
  | x :: _ => r = Some x
  | [] => forall y, r = Some y -> tuple_compare t (s_tuple y) < 0
  end.

Lemma bound_next t l p :
  tree_sorted l -> (forall x, x ∈ l -> p x = (tuple_compare t (s_tuple x) <=? 0)) -> next_is t l (i ← bound p l; l !! i).
Proof.
  intros Hs. induction Hs as [|x l Hs IH Hf]; intros Hp; [by intros y|]. rewrite bound_lookup_cons. rewrite (Hp x) by (by left).
  unfold next_is. destruct (Z.leb_spec (tuple_compare t (s_tuple x)) 0) as [Hle|Hgt].
  - destruct (decide (at_key t x)) as [Hk|Hk]; [unfold of_key; by rewrite filter_cons_True|].
    unfold of_key. rewrite filter_cons_False by done. assert (tuple_compare t (s_tuple x) < 0) as Hlt.
    { unfold at_key, same_key in Hk. lia. }
    assert (filter (at_key t) l = []) as ->; [|by intros y [= <-]].
    apply filter_none. rewrite Forall_forall in *. intros y Hy Hk'. specialize (Hf y Hy). apply tree_cmp_before in Hf.
    assert (tuple_compare t (s_tuple y) < 0); [|unfold at_key, same_key in Hk'; lia].
    apply (compare_lt_trans _ (s_tuple x)); [done|]. unfold same_key in Hf. lia.
  - unfold of_key. rewrite filter_cons_False by (unfold at_key, same_key; lia).
    apply IH. intros y Hy. apply Hp. by right.
Qed.

(** vy_mem_insert_upsert looks at the next statement of the tree. *)
Lemma older_stmt_spec m e :
  tree_sorted (mem_tree m) -> key_newest e (mem_tree m) ->
  next_is (s_tuple e) (mem_tree m) (older_stmt m e).
Proof.
  intros Hs Hf. unfold older_stmt. apply bound_next; [done|]. intros x Hx. unfold key_newest in Hf. rewrite Forall_forall in Hf. specialize (Hf x Hx).
  apply eq_true_iff_eq. rewrite Z.ltb_lt, Z.leb_le, tree_cmp_before. unfold same_key in *. lia.
Qed.

(** The search for an older statement of the key passes the new one. *)
Lemma older_key_test e x :
  s_lsn x < s_lsn e -> s_lsn e <= INT64_MAX - 1 ->
  (0 <=? vy_mem_tree_cmp_key x (s_tuple e) (s_lsn e - 1)) = (tuple_compare (s_tuple e) (s_tuple x) <=? 0).
Proof.
  intros Hx Hlsn. apply eq_true_iff_eq. rewrite !Z.leb_le. unfold vy_mem_tree_cmp_key; cbn [tuple_compare_with_key search_tuples].
  pose proof (compare_flip (s_tuple e) (s_tuple x)). pose proof (compare_flip (s_tuple x) (s_tuple e)).
  destruct (Z.eqb_spec (tuple_compare (s_tuple x) (s_tuple e)) 0) as [E0|]; [|lia].
  destruct (Z.eqb_spec (s_lsn e - 1) (INT64_MAX - 1)); [lia|].
  destruct (Z.ltb_spec (s_lsn e - 1) (s_lsn x)); [lia|]. destruct (Z.ltb_spec (s_lsn x) (s_lsn e - 1)); lia.
Qed.
Lemma older_self_test e :
  s_lsn e <= INT64_MAX - 1 -> (0 <=? vy_mem_tree_cmp_key e (s_tuple e) (s_lsn e - 1)) = false.
Proof.
  intros Hlsn. unfold vy_mem_tree_cmp_key; cbn [tuple_compare_with_key search_tuples]. rewrite compare_refl. cbn.
  destruct (Z.eqb_spec (s_lsn e - 1) (INT64_MAX - 1)); [lia|]. by destruct (Z.ltb_spec (s_lsn e - 1) (s_lsn e)); [|lia].
Qed.
Lemma older_bound e l :
  Forall (fun x => s_lsn x < s_lsn e) l -> s_lsn e <= INT64_MAX - 1 ->
  let p := fun x => 0 <=? vy_mem_tree_cmp_key x (s_tuple e) (s_lsn e - 1) in
  (i ← bound p (snd (tree_insert e l)); snd (tree_insert e l) !! i) =
  (i ← bound (fun x => tuple_compare (s_tuple e) (s_tuple x) <=? 0) l; l !! i).
Proof.
  intros Hf Hlsn p. assert (p e = false) as He by (by apply older_self_test).
  induction Hf as [|x l Hx Hf IH]; [cbn [tree_insert snd]; rewrite bound_lookup_cons; by rewrite He|].
  assert (p x = (tuple_compare (s_tuple e) (s_tuple x) <=? 0)) as Hc by (by apply older_key_test).
  cbn [tree_insert]. destruct (Z.ltb_spec (vy_mem_tree_cmp e x) 0) as [Hlt|Hge].
  - cbn [snd]. rewrite bound_lookup_cons, He, !bound_lookup_cons, Hc.
    destruct (Z.leb_spec (tuple_compare (s_tuple e) (s_tuple x)) 0); [done|]. apply tree_cmp_before in Hlt.
    unfold same_key in Hlt. lia.
  - destruct (Z.eqb_spec (vy_mem_tree_cmp e x) 0) as [E0|_]; [by destruct (cmp_newer e x Hx)|].
    destruct (tree_insert e l) as [y l'] eqn:Ei. cbn [snd] in *. rewrite !bound_lookup_cons, Hc. by rewrite IH.
Qed.

(** vy_mem_older_lsn skips the statement itself. *)
Lemma older_lsn_spec m e l :
  tree_sorted l -> Forall (fun x => s_lsn x < s_lsn e) l -> mem_tree m = snd (tree_insert e l) -> s_lsn e <= INT64_MAX - 1 ->
  vy_mem_older_lsn m e = head (of_key (s_tuple e) l).
Proof.
  intros Hs Hf E Hlsn. pose proof (older_bound e l Hf Hlsn) as Eb. cbv zeta in Eb.
  assert (vy_mem_older_lsn m e = (result ← (i ← bound (fun x => tuple_compare (s_tuple e) (s_tuple x) <=? 0) l; l !! i);
    if negb (tuple_compare (s_tuple result) (s_tuple e) =? 0) then None else Some result)) as ->.
  { unfold vy_mem_older_lsn, lower_bound. rewrite E, <- Eb. by destruct (bound _ _). }
  pose proof (bound_next (s_tuple e) l (fun x => tuple_compare (s_tuple e) (s_tuple x) <=? 0) Hs (fun _ _ => eq_refl)) as Hn.
  unfold next_is in Hn. destruct (of_key (s_tuple e) l) as [|x k] eqn:Ek.
  - destruct (i ← bound _ l; l !! i) as [y|]; [|done]. cbn. specialize (Hn y eq_refl).
    destruct (Z.eqb_spec (tuple_compare (s_tuple y) (s_tuple e)) 0) as [E0|]; [|done].
    pose proof (symmetry (R := same_key) (x := s_tuple y) (y := s_tuple e) E0) as E1. unfold same_key in E1. lia.
  - rewrite Hn. cbn. assert (x ∈ of_key (s_tuple e) l) as Hx by (rewrite Ek; by left). apply of_key_elem in Hx as [Hx _].
    unfold at_key in Hx. symmetry in Hx. unfold same_key in Hx. by rewrite Hx.
Qed.

(** ** The levels *)

Lemma of_key_one t x : of_key t [x] = if decide (at_key t x) then [x] else [].
Proof. done. Qed.
Lemma visible_one b v x : visible b v [x] = if decide (s_lsn x <= v) then apply_stmt b x else b.
Proof. unfold visible. rewrite filter_cons. by destruct (decide (s_lsn x <= v)). Qed.

Section Write.
Context (wl : workload) (lsn : Z) (l : level) (rest : list level) (e : stmt).
Context (Hok : levels_ok wl lsn (l :: rest)) (Hlsn : lsn < s_lsn e) (He : stmt_ok wl (s_lsn e) e).

Lemma older_all : Forall (fun x => s_lsn x < s_lsn e) (concat (l :: rest)).
Proof.
  eapply Forall_impl; [exact (lv_stmts _ _ _ Hok)|]. intros x Hx. pose proof (st_lsn _ _ _ Hx). lia.
Qed.
Lemma older_mem : Forall (fun x => s_lsn x < s_lsn e) l.
Proof. pose proof older_all as H. cbn in H. by apply Forall_app in H as [H _]. Qed.
Lemma sorted_mem : tree_sorted l.
Proof. pose proof (lv_sorted _ _ _ Hok) as H. by apply Forall_inv in H. Qed.

Abbreviation tree := (snd (tree_insert e l)).

Lemma written_of_key t : of_key t (concat (tree :: rest)) = of_key t [e] ++ of_key t (concat (l :: rest)).
Proof.
  destruct (insert_newest e l sorted_mem (key_newest_all e l older_mem)) as (_ & _ & _ & H). cbn [concat]. rewrite !of_key_app, H.
  by rewrite <- app_assoc.
Qed.
Lemma written_read t v : read (tree :: rest) t v = visible (read (l :: rest) t v) v (of_key t [e]).
Proof. unfold read. by rewrite written_of_key, visible_app. Qed.

Lemma written_ok :
  (s_type e = IPROTO_INSERT -> read (l :: rest) (s_tuple e) INT64_MAX = None) -> levels_ok wl (s_lsn e) (tree :: rest).
Proof.
  intros Hins. destruct (insert_newest e l sorted_mem (key_newest_all e l older_mem)) as (Hs & Hp & _ & Hk).
  assert (concat (tree :: rest) ≡ₚ e :: concat (l :: rest)) as Hpc by (cbn; by rewrite Hp). split.
  - pose proof (lv_sorted _ _ _ Hok) as H. apply Forall_cons in H as [_ H]. by constructor.
  - rewrite Hpc. constructor; [done|]. eapply Forall_impl; [exact (lv_stmts _ _ _ Hok)|].
    intros x [? ? ? ? ?]. split; try done. lia.
  - cbn [concat]. pose proof (lv_order _ _ _ Hok) as H. cbn in H. apply newest_first_app in H as (_ & H2 & H3).
    apply newest_first_app. split_and!; [by apply tree_newest_first|done|]. intros x y Hx Hy Exy. rewrite Hp in Hx.
    apply elem_of_cons in Hx as [->|Hx]; [|by apply H3]. pose proof older_all as Ho. rewrite Forall_forall in Ho.
    apply Ho. cbn. set_solver.
  - intros Hw A l' B t x E El Ex. destruct A as [|a A]; cbn in E; simplify_eq.
    + rewrite Hk in El. destruct (of_key t l) as [|y k] eqn:Ek.
      * rewrite app_nil_r in El. apply last_Some_elem_of in El. apply of_key_elem in El as [Hx El].
        apply list_elem_of_singleton in El as ->. specialize (Hins Ex). unfold read in Hins. cbn [concat] in Hins.
        rewrite of_key_app in Hins. unfold at_key in Hx.
        assert (forall k, of_key (s_tuple e) k = of_key t k) as Et.
        { intros k. unfold of_key. apply list_filter_iff. intros y. unfold at_key. by rewrite Hx. }
        by rewrite !Et, Ek in Hins.
      * rewrite last_app_cons, <- Ek in El. by apply (lv_insert _ _ _ Hok Hw [] l B t x).
    + by apply (lv_insert _ _ _ Hok Hw (l :: A) l' B t x).
Qed.

(** ** An UPSERT as a REPLACE *)

Section Squash.
Context (r : stmt) (Hr : vy_mem_tree_cmp r e = 0) (Hrt : s_type r = IPROTO_REPLACE) (Hrok : stmt_ok wl (s_lsn e) r).
Context (Het : s_type e = IPROTO_UPSERT) (Hbelow : concat rest = []).
Context (Htuple : s_tuple r = s_tuple (upsert_result e (head (of_key (s_tuple e) l)))).
Context (Hterm : forall p, head (of_key (s_tuple e) l) = Some p -> terminal p).
Abbreviation tree2 := (snd (tree_insert r tree)).

Lemma squashed_tree : tree2 = snd (tree_insert r l) /\ fst (tree_insert r tree) = Some e.
Proof.
  destruct (insert_newest e l sorted_mem (key_newest_all e l older_mem)) as (_ & _ & Hn & _).
  destruct (insert_twice e r l Hr) as [?|[y E]]; [done|congruence].
Qed.
Lemma squashed_lsn : s_lsn r = s_lsn e.
Proof. by apply cmp_zero in Hr as [_ ?]. Qed.
Lemma squashed_ok : levels_ok wl (s_lsn e) (tree2 :: rest).
Proof.
  destruct squashed_tree as [-> _]. pose proof older_mem as Ho. rewrite <- squashed_lsn in Ho.
  destruct (insert_newest r l sorted_mem (key_newest_all r l Ho)) as (Hs & Hp & _ & Hk).
  pose proof Hok as [H1 H2 H3 H4]. cbn [concat] in *. rewrite Hbelow, app_nil_r in *. split.
  - apply Forall_cons in H1 as [_ H1]. by constructor.
  - cbn [concat]. rewrite Hbelow, app_nil_r, Hp. constructor; [done|]. eapply Forall_impl; [exact H2|].
    intros x [? ? ? ? ?]. split; try done. lia.
  - cbn [concat]. rewrite Hbelow, app_nil_r. by apply tree_newest_first.
  - intros _ A l' B t x E El Ex. assert (concat B = []) as ->; [|done]. destruct A as [|a A]; cbn in E; simplify_eq; [done|].
    rewrite concat_app in Hbelow. apply app_eq_nil in Hbelow as [_ Hb]. by apply app_eq_nil in Hb as [_ ?].
Qed.

(** The result is the value of the UPSERT. *)
Lemma squashed_read t v : read (tree2 :: rest) t v = read (tree :: rest) t v.
Proof.
  rewrite written_read. unfold read. cbn [concat]. rewrite Hbelow, !app_nil_r. destruct squashed_tree as [-> _].
  pose proof older_mem as Ho. rewrite <- squashed_lsn in Ho. destruct (insert_newest r l sorted_mem (key_newest_all r l Ho)) as (_ & _ & _ & ->).
  rewrite visible_app. apply cmp_zero in Hr as [Hk Hl]. rewrite !of_key_one.
  assert (at_key t r <-> at_key t e) as Hrk by (unfold at_key; by rewrite Hk). destruct (decide (at_key t e)) as [He1|He1].
  2: { by rewrite decide_False by tauto. }
  rewrite decide_True by tauto. rewrite !visible_one, Hl. destruct (decide (s_lsn e <= v)) as [Hv|Hv]; [|done].
  rewrite visible_all. 2: { apply of_key_Forall. eapply Forall_impl; [exact older_mem|]. cbn. lia. }
  assert (of_key (s_tuple e) l = of_key t l) as Et.
  { unfold of_key. apply list_filter_iff. intros y. unfold at_key in *. by rewrite He1. }
  rewrite Et in *. assert (forall b, apply_stmt b r = Some (s_tuple r)) as Er by (intros b; unfold apply_stmt; by rewrite Hrt).
  rewrite Er, Htuple. destruct (of_key t l) as [|p k] eqn:Ek; cbn [head].
  - unfold apply_stmt. rewrite Het. done.
  - rewrite state_of_cons, <- upsert_result_some; [|done|].
    + unfold apply_stmt at 1. rewrite upsert_result_terminal; [done|]. intros p' [= <-]. by apply Hterm.
    + assert (p ∈ of_key t l) as Hp by (rewrite Ek; by left). apply of_key_elem in Hp as [_ Hp].
      pose proof (lv_stmts _ _ _ Hok) as Hs. rewrite Forall_forall in Hs. apply (Hs p). cbn. set_solver.
Qed.
End Squash.
End Write.
End Insert.
