(* ===== verification/VyLsm.v ===== *)
(** * The LSM tree of a primary index

    src/box/vy_lsm.c, the tasks of src/box/vy_scheduler.c and the read views of
    src/box/vy_tx.c: statements are written to the active memory, which is
    sealed when a dump starts; a dump writes the sealed memories to a run, a
    compaction replaces the newest runs by one.  Both are done by a worker
    while writes and reads go on.

    The state is the LSM tree with what it uses of the scheduler and of the
    transaction manager.  There is one range, so the slices are the runs,
    newest first.  A transaction has one statement and is prepared and
    committed in one step; [v_wal] is what it writes to the journal.  The
    callback that squashes UPSERTs in the background is not installed.

    [v_next] is the address of the next statement to be allocated, [v_oom] are
    the outcomes of the next allocations, log writes and calls of the deferred
    DELETE handler. *)

From stdpp Require Import list.
From S2P Require Import Prelude Heap VyStmt VyWriteIterator VyMem.

Open Scope Z_scope.

(** LSNs of committed statements are below this. *)
Definition MAX_LSN : Z := INT64_MAX / 2.

(** The iterator of the task, what it was made from, and for a compaction the
    number of its slices and of the older ones. *)
Record vy_task (T O : Type) := mk_task {
  tk_wi : vy_write_iterator T O;
  tk_streams : list (list (vy_stmt T O));
  tk_views : list Z;
  tk_last : bool;
  tk_count : nat;
  tk_older : nat;
}.
Arguments mk_task {T O}. Arguments tk_wi {T O}. Arguments tk_streams {T O}. Arguments tk_views {T O}.
Arguments tk_last {T O}. Arguments tk_count {T O}. Arguments tk_older {T O}.

Record vinyl (T O : Type) := mk_vinyl {
  (** struct vy_lsm *)
  v_mem : vy_mem T O;
  v_sealed : list (vy_mem T O);
  v_slices : list (list (vy_stmt T O));
  v_rows : Z;                  (** stat.memory.count.rows *)
  v_mem_list_version : Z;      (** the code has it modulo 2^32 *)
  v_is_dumping : bool;
  (** struct vy_scheduler *)
  v_generation : Z;
  v_dump_generation : Z;
  v_dump : option (vy_task T O);
  v_compaction : option (vy_task T O);
  (** struct vy_tx_manager: the read views with their reference counts *)
  v_read_views : list (Z * Z);
  v_lsn : Z;
  v_wal : list (vy_stmt T O);
  v_next : Z;
  v_oom : list bool;
}.
Arguments mk_vinyl {T O}. Arguments v_mem {T O}. Arguments v_sealed {T O}. Arguments v_slices {T O}.
Arguments v_rows {T O}. Arguments v_mem_list_version {T O}. Arguments v_is_dumping {T O}.
Arguments v_generation {T O}. Arguments v_dump_generation {T O}. Arguments v_dump {T O}.
Arguments v_compaction {T O}. Arguments v_read_views {T O}. Arguments v_lsn {T O}. Arguments v_wal {T O}.
Arguments v_next {T O}. Arguments v_oom {T O}.
#[export] Instance vinyl_rebuild T O : Rebuild (vinyl T O) := fun v =>
  mk_vinyl (v_mem v) (v_sealed v) (v_slices v) (v_rows v) (v_mem_list_version v) (v_is_dumping v)
    (v_generation v) (v_dump_generation v) (v_dump v) (v_compaction v) (v_read_views v) (v_lsn v)
    (v_wal v) (v_next v) (v_oom v).

Section Lsm.
Context {T O : Type} `{!Tuples T O}.
Abbreviation stmt := (vy_stmt T O).
Abbreviation mem := (vy_mem T O).
Abbreviation vprog := (prog (vinyl T O)).

Definition vinyl_new : vinyl T O :=
  mk_vinyl (vy_mem_new 0) [] [] 0 0 false 0 0 None None [] 0 [] 0 [].

Definition on_alloc {A} (m : oprog A) : vprog A := fun v =>
  match m (v_oom v) with
  | Done (a, oom) => Done (a, v <| v_oom := oom |>)
  | Abort => Abort
  end.

(** ** Writing *)

(** The new statement lives in the memory level and has no reference count. *)
Definition vy_stmt_dup_lsregion (s : stmt) : vprog (option stmt) :=
  oom ← on_alloc fails;
  if oom : bool then mret None
  else
    a ← gets v_next;
    modify (fun v => v <| v_next := a + 1 |>);;
    mret (Some (s <| s_addr := Some a |> <| s_refable := false |> <| s_n_upserts := 0 |>)).

(** vy_mem_insert or vy_mem_insert_upsert on the active memory: the return
    code and the statement. *)
Definition mem_insert (s : stmt) (oom : bool) : vprog (Z * stmt) := fun v =>
  if has_type IPROTO_UPSERT s then
    match vy_mem_insert_upsert (v_mem v) s oom with
    | Some (rc, s, m) => Done (rc, s, v <| v_mem := m |>)
    | None => Abort
    end
  else let '(rc, m) := vy_mem_insert (v_mem v) s oom in Done (rc, s, v <| v_mem := m |>).

Definition vy_lsm_set (entry : stmt) (region_stmt : option stmt) : vprog (Z * option stmt) :=
  assert (fun _ => s_refable entry);;
  region_stmt ← (match region_stmt with Some r => mret (Some r) | None => vy_stmt_dup_lsregion entry end);
  match region_stmt with
  | None => mret (-1, None)
  | Some r =>
      oom ← on_alloc fails;
      '(rc, r) ← mem_insert r oom;
      mret (rc, Some r)
  end.

Definition mem_commit (s : stmt) : vprog unit := modify (fun v => v <| v_mem ::= fun m => vy_mem_commit_stmt m s |>).

Definition run_count (v : vinyl T O) : Z := Z.of_nat (length (v_slices v)).

(** An UPSERT with nothing else in the LSM tree but older statements of the
    same memory becomes a REPLACE. *)
Definition squash_upsert (entry : stmt) : vprog unit :=
  older ← gets (fun v => vy_mem_older_lsn (v_mem v) entry);
  assert (fun _ => match older with None => true | Some o => negb (has_type IPROTO_UPSERT o) end);;
  upserted ← on_alloc (vy_apply_upsert entry older false);
  match upserted with
  | None => skip
  | Some u =>
      if negb (s_lsn u =? s_lsn entry) then
        assert (fun _ => match older with None => true | Some o => s_lsn u =? s_lsn o end)
      else
        assert (fun _ => match older with None => true | Some o => negb (s_lsn u =? s_lsn o) end);;
        assert (fun _ => has_type IPROTO_REPLACE u);;
        region_stmt ← vy_stmt_dup_lsregion u;
        match region_stmt with
        | None => skip
        | Some r =>
            '(rc, r') ← vy_lsm_set u (Some r);
            assert (fun _ => rc =? 0);;
            mem_commit r
        end
  end.

Definition vy_lsm_commit_upsert (entry : stmt) : vprog unit :=
  assert (fun _ => has_type IPROTO_UPSERT entry);;
  let n := s_n_upserts entry in
  if n =? VY_UPSERT_INF then skip
  else if n =? VY_UPSERT_THRESHOLD then
    assert (fun v => match vy_mem_older_lsn (v_mem v) entry with
                     | Some o => has_type IPROTO_UPSERT o && (s_n_upserts o =? VY_UPSERT_THRESHOLD - 1)
                     | None => false
                     end)
  else
    v ← gets id;
    if (n =? 0) && (v_rows v =? mem_rows (v_mem v)) && (run_count v =? 0) then squash_upsert entry else skip.

Definition vy_lsm_commit_stmt (entry : stmt) : vprog unit :=
  mem_commit entry;;
  modify (fun v => v <| v_rows ::= fun n => n + 1 |>);;
  if has_type IPROTO_UPSERT entry then vy_lsm_commit_upsert entry else skip.

(** A transaction of one statement: it is written to the memory, to the
    journal and committed; the return code of vy_lsm_set. *)
Definition write_stmt (s : stmt) : vprog Z :=
  '(rc, r) ← vy_lsm_set s None;
  match r with
  | None => mret (-1)
  | Some r =>
      if negb (rc =? 0) then mret (-1)
      else
        modify (fun v => v <| v_lsn := s_lsn s |> <| v_wal ::= cons s |>);;
        vy_lsm_commit_stmt r;;
        mret 0
  end.

(** ** Memories *)

Definition vy_lsm_generation (v : vinyl T O) : Z :=
  match list.last (v_sealed v) with
  | None => mem_generation (v_mem v)
  | Some m => mem_generation m
  end.

Definition vy_lsm_rotate_mem : vprog Z :=
  oom ← on_alloc fails;
  if oom : bool then mret (-1)
  else
    modify (fun v => v <| v_sealed ::= cons (v_mem v) |> <| v_mem := vy_mem_new (v_generation v) |>
                       <| v_mem_list_version ::= fun n => n + 1 |>);;
    mret 0.

Definition vy_lsm_delete_mem (m : mem) : vprog unit :=
  modify (fun v => v <| v_rows ::= fun n => n - mem_rows m |> <| v_mem_list_version ::= fun n => n + 1 |>).

(** The loops over the sealed memories that delete some of them: those that
    are left. *)
Fixpoint delete_mems (p : mem -> bool) (sealed : list mem) : vprog (list mem) :=
  match sealed with
  | [] => mret []
  | m :: sealed =>
      if p m then vy_lsm_delete_mem m;; delete_mems p sealed
      else left ← delete_mems p sealed; mret (m :: left)
  end.
Definition delete_sealed (p : mem -> bool) : vprog unit :=
  sealed ← gets v_sealed;
  left ← delete_mems p sealed;
  modify (fun v => v <| v_sealed := left |>).

(** ** Runs *)

(** What is left of a statement on the disk of a primary index, and what is
    read back. *)
Definition vy_stmt_persistent_flags (s : stmt) : Z := Z.ldiff (s_flags s) VY_STMT_UPDATE.
Definition persist (s : stmt) : stmt :=
  mk_stmt None (s_type s) (s_lsn s) (vy_stmt_persistent_flags s) true (s_tuple s) (s_ops s) 0.

Fixpoint load (a : Z) (run : list stmt) : list stmt :=
  match run with
  | [] => []
  | s :: run => s <| s_addr := Some a |> :: load (a + 1) run
  end.
Fixpoint load_all (a : Z) (runs : list (list stmt)) : list (list stmt) :=
  match runs with
  | [] => []
  | run :: runs => load a run :: load_all (a + Z.of_nat (length run)) runs
  end.

(** ** Tasks *)

Definition on_wi {A} (w : vy_write_iterator T O) (m : prog (vy_write_iterator T O) A)
    : vprog (A * vy_write_iterator T O) := fun v =>
  match m (w <| wi_oom := v_oom v |>) with
  | Done (a, w) => Done (a, w, v <| v_oom := wi_oom w |>)
  | Abort => Abort
  end.

(** The task, its run and its write iterator.  If a source cannot be added,
    the code uses the iterator of the task, which is not set yet. *)
Definition task_new (streams : list (list stmt)) (last handler : bool) (count older : nat)
    : vprog (option (vy_task T O)) :=
  no_task ← on_alloc fails;
  if no_task : bool then mret None
  else
    no_run ← on_alloc fails;
    if no_run : bool then mret None
    else
      no_wi ← on_alloc fails;
      if no_wi : bool then mret None
      else
        views ← gets (fun v => map fst (v_read_views v));
        '(rc, w) ← on_wi (vy_write_iterator_new true last views handler []) (new_srcs (END_OF_KEY + 1) streams);
        if negb (rc =? 0) then abort
        else mret (Some (mk_task w streams views last count older)).

Definition vy_scheduler_dump_in_progress (v : vinyl T O) : bool := v_dump_generation v <? v_generation v.
(** No checkpoint is in progress. *)
Definition vy_scheduler_trigger_dump : vprog unit :=
  modify (fun v => if vy_scheduler_dump_in_progress v then v else v <| v_generation ::= fun g => g + 1 |>).
(** What vy_scheduler_dump does before it waits for the dump. *)
Definition vy_scheduler_dump : vprog unit := modify (fun v => v <| v_generation ::= fun g => g + 1 |>).

(** There is no other LSM tree, and no other dump task. *)
Definition vy_scheduler_complete_dump : vprog unit :=
  assert (fun v => v_dump_generation v <? v_generation v);;
  modify (fun v => if vy_lsm_generation v =? v_dump_generation v then v
                   else v <| v_dump_generation := vy_lsm_generation v |>).

Definition is_empty (m : mem) : bool := match mem_tree m with [] => true | _ => false end.
Definition dumped (g : Z) (m : mem) : bool := mem_generation m <=? g.

Definition vy_task_dump_new : vprog Z :=
  assert (fun v => negb (v_is_dumping v));;
  assert (fun v => vy_lsm_generation v =? v_dump_generation v);;
  assert (fun v => v_dump_generation v <? v_generation v);;
  g ← gets v_dump_generation;
  active ← gets (fun v => mem_generation (v_mem v));
  rc ← (if active =? g then vy_lsm_rotate_mem else mret 0);
  if negb (rc =? 0) then mret (-1)
  else
    delete_sealed (fun m => dumped g m && is_empty m);;
    mems ← gets (fun v => filter (fun m => dumped g m = true) (v_sealed v));
    if fold_right (fun m => Z.max (mem_dump_lsn m)) (-1) mems <? 0 then
      vy_scheduler_complete_dump;; mret 0
    else
      last ← gets (fun v => run_count v =? 0);
      task ← task_new (map mem_tree mems) last false 0 0;
      match task with
      | None => mret (-1)
      | Some task =>
          modify (fun v => v <| v_dump := Some task |> <| v_is_dumping := true |>);;
          mret 0
      end.

Definition vy_task_dump_abort : vprog unit :=
  assert v_is_dumping;;
  modify (fun v => v <| v_is_dumping := false |> <| v_dump := None |>).

(** A run that is empty is discarded.  The metadata log may fail. *)
Definition vy_task_dump_complete (run : list stmt) : vprog Z :=
  assert v_is_dumping;;
  failed ← on_alloc fails;
  if failed : bool then mret (-1)
  else
    modify (fun v => v <| v_slices ::= fun l => match run with [] => l | _ => map persist run :: l end |>);;
    g ← gets v_dump_generation;
    delete_sealed (dumped g);;
    modify (fun v => v <| v_is_dumping := false |> <| v_dump := None |>);;
    vy_scheduler_complete_dump;;
    mret 0.

(** The worker, and then the completion or abortion of the task. *)
Definition vy_task_execute (task : vy_task T O) (complete : list stmt -> vprog Z) (fail : vprog unit) : vprog Z :=
  '(run, _) ← on_wi (tk_wi task) vy_task_write_run;
  match run with
  | None => fail;; mret (-1)
  | Some run =>
      rc ← complete run;
      if negb (rc =? 0) then fail;; mret (-1) else mret 0
  end.

Definition vy_task_dump_run : vprog Z :=
  task ← gets v_dump;
  match task with
  | None => abort
  | Some task => vy_task_execute task vy_task_dump_complete vy_task_dump_abort
  end.

(** [n] is the compaction priority of the range. *)
Definition vy_task_compaction_new (n : nat) : vprog Z :=
  assert (fun _ => (1 <? n)%nat);;
  slices ← gets v_slices;
  a ← gets v_next;
  let streams := load_all a (take n slices) in
  modify (fun v => v <| v_next := a + Z.of_nat (length (concat streams)) |>);;
  task ← task_new streams (n =? length slices)%nat true n (length slices - n);
  match task with
  | None => mret (-1)
  | Some task =>
      assert (fun _ => (n <=? length slices)%nat);;
      modify (fun v => v <| v_compaction := Some task |>);;
      mret 0
  end.

Definition vy_task_compaction_abort : vprog unit := modify (fun v => v <| v_compaction := None |>).

(** The slices of the task are replaced where they are now. *)
Definition vy_task_compaction_complete (task : vy_task T O) (run : list stmt) : vprog Z :=
  failed ← on_alloc fails;
  if failed : bool then mret (-1)
  else
    modify (fun v =>
      let newer := (length (v_slices v) - tk_count task - tk_older task)%nat in
      v <| v_slices ::= fun l => take newer l ++ match run with [] => [] | _ => [map persist run] end ++
                                 drop (newer + tk_count task) l |>
        <| v_compaction := None |>);;
    mret 0.

Definition vy_task_compaction_run : vprog Z :=
  task ← gets v_compaction;
  match task with
  | None => abort
  | Some task => vy_task_execute task (vy_task_compaction_complete task) vy_task_compaction_abort
  end.

(** ** Read views *)

Definition vy_tx_manager_read_view : vprog (option Z) :=
  rvs ← gets v_read_views;
  lsn ← gets v_lsn;
  match list.last rvs with
  | Some (vlsn, refs) =>
      if vlsn =? lsn then
        modify (fun v => v <| v_read_views := removelast rvs ++ [(vlsn, refs + 1)] |>);; mret (Some vlsn)
      else
        oom ← on_alloc fails;
        if oom : bool then mret None
        else modify (fun v => v <| v_read_views := rvs ++ [(lsn, 1)] |>);; mret (Some lsn)
  | None =>
      oom ← on_alloc fails;
      if oom : bool then mret None
      else modify (fun v => v <| v_read_views := rvs ++ [(lsn, 1)] |>);; mret (Some lsn)
  end.

(** [i] is the position of the read view in the list. *)
Definition vy_tx_manager_destroy_read_view (i : nat) : vprog unit :=
  rvs ← gets v_read_views;
  match rvs !! i with
  | None => abort
  | Some (vlsn, refs) =>
      assert (fun _ => negb (refs =? 0));;
      modify (fun v => v <| v_read_views := if refs - 1 =? 0 then delete i rvs else <[i := (vlsn, refs - 1)]> rvs |>)
  end.
End Lsm.
