(* ===== verification/VyLsmSafety.v ===== *)
(** * The invariant of the LSM tree

    In every reachable state the levels are right, every open read view and
    every reader of the newest state see of a key what the journal says, and a
    running task was made from levels that are still there. *)

From stdpp Require Import list sorting.
From S2P Require Import Prelude Heap VyStmt VyVisible VyViews VyDeferred VyWriteIterator VyMerge VyOutput VyRun VyCompaction.
From S2P Require Import VyMem VyMemSafety VyMemTheorems VyLevels VyInsert VyLsm.

Open Scope Z_scope.

Section Safety.
Context {T O : Type} `{!Tuples T O, !TuplesLaws T O}.
Abbreviation stmt := (vy_stmt T O).
Abbreviation mem := (vy_mem T O).
Abbreviation wi := (vy_write_iterator T O).
Abbreviation level := (list stmt).
Implicit Types (x y e r : stmt) (l : level) (ls S B : list level) (t : T) (v : vinyl T O) (m : mem) (tk : vy_task T O) (F : Prop).
Context (wl : workload).

Definition levels v : list level := mem_tree (v_mem v) :: map mem_tree (v_sealed v) ++ v_slices v.
Definition mems v : list mem := v_mem v :: v_sealed v.
Definition views v : list Z := map fst (v_read_views v).

(** The read views for which a value may still be asked. *)
Definition open_at v (vlsn : Z) : Prop := vlsn ∈ views v \/ v_lsn v <= vlsn.

Record mem_ok m : Prop := {
  mo_rows : mem_rows m = Z.of_nat (length (mem_tree m));
  mo_stmts : Forall (fun x => s_addr x <> None /\ 0 <= s_n_upserts x <= VY_UPSERT_INF) (mem_tree m);
}.

(** ** Tasks *)

(** The task has copies of the levels [S] as its sources, above the levels
    [B]. *)
Record task_ok (open : Z -> Prop) S B (handler : bool) tk : Prop := {
  to_ready : ready (tk_wi tk) (wi_src_list (tk_wi tk)) (concat (tk_streams tk));
  to_wi : sourced True (vy_write_iterator_new true (tk_last tk) (tk_views tk) handler []) (tk_wi tk);
  to_alike : Forall2 (Forall2 alike) S (tk_streams tk);
  to_addr : Forall (fun x => s_addr x <> None) (concat (tk_streams tk));
  to_small : Z.of_nat (length (tk_streams tk)) + 1 < 2 ^ 31;
  to_bottom : tk_last tk = true -> B = [];
  to_sorted : views_sorted (INT64_MAX :: rev (tk_views tk));
  to_open : forall vlsn, open vlsn -> vlsn ∈ tk_views tk \/ Forall (fun x => s_lsn x <= vlsn) (concat (tk_streams tk));
}.

Definition dump_ok v : Prop :=
  match v_dump v with
  | None => v_is_dumping v = false
  | Some tk => v_is_dumping v = true /\ v_dump_generation v < v_generation v /\
      exists new old, v_sealed v = new ++ old /\
        Forall (fun m => v_dump_generation v < mem_generation m) (v_mem v :: new) /\
        Forall (fun m => mem_generation m <= v_dump_generation v) old /\
        task_ok (open_at v) (map mem_tree old) (v_slices v) false tk
  end.
Definition compaction_ok v : Prop :=
  match v_compaction v with
  | None => True
  | Some tk => exists new S old, v_slices v = new ++ S ++ old /\ length S = tk_count tk /\ length old = tk_older tk /\
      S <> [] /\ task_ok (open_at v) S old true tk
  end.

Record inv v : Prop := {
  i_levels : levels_ok wl (v_lsn v) (levels v);
  i_reads : wl_tame wl = true -> forall t vlsn, open_at v vlsn -> read (levels v) t vlsn = visible None vlsn (of_key t (v_wal v));
  i_lsn : 0 <= v_lsn v < MAX_LSN;
  i_views : StronglySorted Z.le (views v) /\ Forall (fun n => 0 <= n <= v_lsn v) (views v);
  i_refs : Forall (fun p => 0 < snd p) (v_read_views v);
  i_mems : Forall mem_ok (mems v);
  i_rows : v_rows v = foldr (fun m => Z.add (mem_rows m)) 0 (mems v);
  i_gens : StronglySorted (fun m m' => mem_generation m' <= mem_generation m) (mems v);
  i_gen : mem_generation (v_mem v) <= v_generation v;
  i_dump : dump_ok v;
  i_compaction : compaction_ok v;
}.

(** What a compaction or dump may rely on: without UPSERTs everything is fine,
    and so it is without read views. *)
Definition tame tk : Prop :=
  wl_tame wl = true -> wl_upserts wl = false \/ tk_views tk = [] \/ forall t, calm (of_key t (concat (tk_streams tk))).

Lemma max_lsn : MAX_LSN <= INT64_MAX.
Proof. by vm_compute. Qed.

(** Allocations do not matter. *)
Lemma inv_oom v oom : inv v -> inv (v <| v_oom := oom |>).
Proof. by intros []. Qed.
Lemma inv_next v a : inv v -> inv (v <| v_next := a |>).
Proof. by intros []. Qed.

Lemma wpx_on_alloc {A} F (m : oprog A) (Q : A -> vinyl T O -> Prop) v :
  wpx F m (fun a oom => Q a (v <| v_oom := oom |>)) (v_oom v) -> wpx F (on_alloc m) Q v.
Proof. unfold wpx, on_alloc. by destruct (m (v_oom v)) as [[a oom]|]. Qed.
Lemma wpx_alloc_fails F (Q : bool -> vinyl T O -> Prop) v :
  quiet F (v_oom v) -> (forall b oom, quiet F oom -> (b = true -> F) -> Q b (v <| v_oom := oom |>)) ->
  wpx F (on_alloc fails) Q v.
Proof. intros Hq HQ. apply wpx_on_alloc, wpx_fails; [done|]. intros b oom Hq' Hb. by apply HQ. Qed.

Lemma task_ok_open (open open' : Z -> Prop) S B handler tk :
  (forall n, open' n -> open n) -> task_ok open S B handler tk -> task_ok open' S B handler tk.
Proof. intros H [? ? ? ? ? ? ? Ho]. split; try done. intros n Hn. by apply Ho, H. Qed.

(** A change that concerns neither the levels nor the tasks. *)
Lemma inv_quiet v v' :
  inv v -> levels v' = levels v -> v_wal v' = v_wal v -> v_lsn v' = v_lsn v -> v_read_views v' = v_read_views v ->
  Forall mem_ok (mems v') -> v_rows v' = foldr (fun m => Z.add (mem_rows m)) 0 (mems v') ->
  StronglySorted (fun m m' => mem_generation m' <= mem_generation m) (mems v') ->
  mem_generation (v_mem v') <= v_generation v' -> dump_ok v' -> compaction_ok v' -> inv v'.
Proof.
  intros [H1 H2 H3 H4 H5 _ _ _ _ _ _] El Ew Es Ev ? ? ? ? ? ?. unfold open_at, views in *.
  split; unfold open_at, views; rewrite ?El, ?Ew, ?Es, ?Ev; done.
Qed.

(** ** Writing *)

Record writable v e : Prop := {
  wr_refable : s_refable e = true;
  wr_lsn : v_lsn v < s_lsn e < MAX_LSN;
  wr_ok : stmt_ok wl (s_lsn e) e;
  wr_insert : s_type e = IPROTO_INSERT -> read (levels v) (s_tuple e) (v_lsn v) = None;
}.

Abbreviation below v := (map mem_tree (v_sealed v) ++ v_slices v).

(** Only the active memory, the LSN, the journal and the number of rows have
    changed. *)
Record written v v' : Prop := {
  wn_sealed : v_sealed v' = v_sealed v;
  wn_slices : v_slices v' = v_slices v;
  wn_dumping : v_is_dumping v' = v_is_dumping v;
  wn_gen : v_generation v' = v_generation v;
  wn_dump_gen : v_dump_generation v' = v_dump_generation v;
  wn_dump : v_dump v' = v_dump v;
  wn_compaction : v_compaction v' = v_compaction v;
  wn_views : v_read_views v' = v_read_views v;
  wn_mem_gen : mem_generation (v_mem v') = mem_generation (v_mem v);
  wn_lsn : v_lsn v <= v_lsn v' < MAX_LSN;
  wn_rows : v_rows v' - v_rows v = mem_rows (v_mem v') - mem_rows (v_mem v);
}.

Lemma written_open v v' vlsn : written v v' -> open_at v' vlsn -> open_at v vlsn.
Proof.
  intros Hw. unfold open_at, views. rewrite (wn_views _ _ Hw). pose proof (wn_lsn _ _ Hw). intros [?|?]; [by left|right; lia].
Qed.

Lemma inv_written v v' :
  inv v -> written v v' -> mem_ok (v_mem v') -> levels_ok wl (v_lsn v') (mem_tree (v_mem v') :: below v) ->
  (wl_tame wl = true -> forall t vlsn, open_at v' vlsn ->
     read (mem_tree (v_mem v') :: below v) t vlsn = visible None vlsn (of_key t (v_wal v'))) -> inv v'.
Proof.
  intros [H1 H2 H3 H4 H5 H6 H7 H8 H9 H10 H11] Hw Hm Hl Hr. pose proof (written_open v v') as Ho.
  destruct Hw as [W1 W2 W3 W4 W5 W6 W7 W8 W9 W10 W11] eqn:Ew. clear Ew.
  assert (forall n, open_at v' n -> open_at v n) as Ho' by (intros n; by apply Ho). clear Ho.
  assert (levels v' = mem_tree (v_mem v') :: below v) as El by (unfold levels; by rewrite W1, W2).
  unfold mems in *. apply Forall_cons in H6 as [_ H6]. cbn in H7. split.
  - by rewrite El.
  - by rewrite El.
  - lia.
  - unfold views in *. rewrite W8. split; [apply H4|]. eapply Forall_impl; [apply H4|]. cbn. lia.
  - by rewrite W8.
  - unfold mems. rewrite W1. by constructor.
  - unfold mems. rewrite W1. cbn. lia.
  - unfold mems. rewrite W1. apply StronglySorted_inv in H8 as [H8 Hf]. constructor; [done|]. by rewrite W9.
  - by rewrite W9, W4.
  - unfold dump_ok in *. rewrite W6, W3, W4, W5. destruct (v_dump v) as [tk|]; [|done].
    destruct H10 as (D1 & D2 & new & old & D3 & D4 & D5 & D6). split_and!; [done|done|]. exists new, old. rewrite W1, W2.
    split_and!; [done| |done|by eapply task_ok_open].
    apply Forall_cons in D4 as [D4 D4']. constructor; [by rewrite W9|done].
  - unfold compaction_ok in *. rewrite W7, W2. destruct (v_compaction v) as [tk|]; [|done].
    destruct H11 as (new & S & old & C1 & C2 & C3 & C4 & C5). exists new, S, old. split_and!; try done. by eapply task_ok_open.
Qed.

(** The copy of the statement in the memory. *)
Record copy_of e e1 : Prop := {
  co_alike : alike e e1;
  co_addr : s_addr e1 <> None;
  co_count : 0 <= s_n_upserts e1 <= VY_UPSERT_INF;
}.

Lemma alike_sym x y : alike x y -> alike y x.
Proof. intros [? ? ? ? ? ?]. by split. Qed.
Lemma alike_ok lsn x y : alike x y -> stmt_ok wl lsn x -> stmt_ok wl lsn y.
Proof.
  intros Ha Hx. pose proof (alike_stmts wl lsn [x] [y]) as H. rewrite !Forall_singleton in H. apply H; [|done].
  by constructor.
Qed.
Lemma alike_apply b x y : alike x y -> apply_stmt b x = apply_stmt b y.
Proof. intros Ha. unfold apply_stmt. by rewrite (al_type _ _ Ha), (al_tuple _ _ Ha), (al_ops _ _ Ha). Qed.

(** The state after a statement has been inserted, written to the journal and
    committed. *)
Record inserted v e e1 v' : Prop := {
  in_written : written v v';
  in_copy : copy_of e e1;
  in_tree : mem_tree (v_mem v') = snd (tree_insert e1 (mem_tree (v_mem v)));
  in_rows : mem_rows (v_mem v') = mem_rows (v_mem v) + 1;
  in_lsn : v_lsn v' = s_lsn e;
  in_wal : v_wal v' = e :: v_wal v;
}.

Section Inserted.
Context (v v' : vinyl T O) (e e1 : stmt) (Hinv : inv v) (Hwr : writable v e) (Hin : inserted v e e1 v').
Abbreviation tree := (mem_tree (v_mem v)).

Lemma in_ok1 : stmt_ok wl (s_lsn e1) e1.
Proof. pose proof (co_alike _ _ (in_copy _ _ _ _ Hin)) as Ha. rewrite <- (al_lsn _ _ Ha). eapply alike_ok; [exact Ha|apply Hwr]. Qed.
Lemma in_levels_lsn : v_lsn v < s_lsn e1.
Proof. pose proof (co_alike _ _ (in_copy _ _ _ _ Hin)) as Ha. rewrite <- (al_lsn _ _ Ha). apply Hwr. Qed.
Lemma in_levels : levels_ok wl (v_lsn v') (mem_tree (v_mem v') :: below v).
Proof.
  pose proof (co_alike _ _ (in_copy _ _ _ _ Hin)) as Ha. rewrite (in_tree _ _ _ _ Hin), (in_lsn _ _ _ _ Hin), (al_lsn _ _ Ha).
  apply (written_ok wl (v_lsn v)); [apply Hinv|apply in_levels_lsn|apply in_ok1|]. intros Et.
  rewrite <- (al_type _ _ Ha) in Et. pose proof (wr_insert _ _ Hwr Et) as Hr. rewrite (al_tuple _ _ Ha) in Hr.
  rewrite <- Hr. symmetry. unfold read. apply (visible_max wl (v_lsn v)).
  - apply of_key_Forall, Hinv.
  - apply of_key_Forall. eapply Forall_impl; [apply (lv_stmts _ _ _ (i_levels _ Hinv))|]. intros x Hx. apply Hx.
  - pose proof (i_lsn _ Hinv). pose proof max_lsn. lia.
Qed.
Lemma in_reads (Hw : wl_tame wl = true) t vlsn :
  open_at v' vlsn -> read (mem_tree (v_mem v') :: below v) t vlsn = visible None vlsn (of_key t (v_wal v')).
Proof.
  intros Ho. pose proof (co_alike _ _ (in_copy _ _ _ _ Hin)) as Ha. rewrite (in_tree _ _ _ _ Hin), (in_wal _ _ _ _ Hin).
  rewrite (written_read wl (v_lsn v)); [|apply Hinv|apply in_levels_lsn].
  change (tree :: below v) with (levels v). rewrite (i_reads _ Hinv Hw t vlsn) by (by eapply written_open; [apply Hin|]).
  change (e :: v_wal v) with ([e] ++ v_wal v). rewrite of_key_app, visible_app.
  symmetry. apply alike_visible, alike_of_key. by constructor.
Qed.
Lemma in_mem_ok : mem_ok (v_mem v').
Proof.
  pose proof (i_mems _ Hinv) as Hm. unfold mems in Hm. apply Forall_cons in Hm as [[M1 M2] _].
  assert (mem_tree (v_mem v') ≡ₚ e1 :: tree) as Hp.
  { rewrite (in_tree _ _ _ _ Hin). apply insert_newest; [|].
    - by eapply sorted_mem, Hinv.
    - eapply key_newest_all, older_mem; [apply Hinv|apply in_levels_lsn]. }
  split.
  - rewrite (in_rows _ _ _ _ Hin), M1, Hp. cbn. lia.
  - rewrite Hp. constructor; [|done]. split; apply Hin.
Qed.
Lemma inv_inserted : inv v'.
Proof. eapply inv_written; [exact Hinv|apply Hin|apply in_mem_ok|apply in_levels|apply in_reads]. Qed.
End Inserted.

(** ** The counter of UPSERTs *)

Lemma count_upserts_spec m e :
  tree_sorted (mem_tree m) -> key_newest e (mem_tree m) -> mem_ok m -> s_n_upserts e = 0 ->
  exists n, count_upserts m e = Some n /\ 0 <= n <= VY_UPSERT_INF /\
    (n = 0 -> forall p, head (of_key (s_tuple e) (mem_tree m)) = Some p -> terminal p) /\
    (n = VY_UPSERT_THRESHOLD -> exists o, head (of_key (s_tuple e) (mem_tree m)) = Some o /\
       s_type o = IPROTO_UPSERT /\ s_n_upserts o = VY_UPSERT_THRESHOLD - 1).
Proof.
  intros Hs Hf Hm He. pose proof (older_stmt_spec m e Hs Hf) as Hn. unfold next_is in Hn. unfold count_upserts.
  rewrite He. destruct (of_key (s_tuple e) (mem_tree m)) as [|x k] eqn:Ek; cbn [head].
  - exists 0. assert (0 <= 0 <= VY_UPSERT_INF) by (by vm_compute).
    destruct (older_stmt m e) as [y|]; [|done]. specialize (Hn y eq_refl).
    destruct (Z.eqb_spec (tuple_compare (s_tuple e) (s_tuple y)) 0); [lia|]. rewrite orb_true_r. done.
  - rewrite Hn. assert (x ∈ of_key (s_tuple e) (mem_tree m)) as Hx by (rewrite Ek; by left).
    apply of_key_elem in Hx as [Hk Hx]. unfold at_key, same_key in Hk. rewrite Hk. cbn [Z.eqb negb].
    pose proof (mo_stmts _ Hm) as Hb. rewrite Forall_forall in Hb. destruct (Hb x Hx) as [_ Hc]. unfold VY_UPSERT_INF, VY_UPSERT_THRESHOLD in *.
    destruct (has_type IPROTO_UPSERT x) eqn:Et; cbn [negb orb].
    + apply has_typeP in Et. destruct (Z.leb_spec (s_n_upserts x) 128) as [Hle|Hgt].
      * exists (s_n_upserts x + 1). split_and!; [done|lia|lia|lia|]. intros E. exists x. split_and!; [done|done|lia].
      * destruct (Z.eqb_spec (s_n_upserts x) (128 + 1)); [|lia]. exists (s_n_upserts x). split_and!; [done|lia|lia|lia|lia].
    + apply has_type_falseP in Et. exists 0. split_and!; [done|lia|lia| |done]. by intros _ p [= <-].
Qed.

(** ** An UPSERT that becomes a REPLACE *)

Record squashed v r v' : Prop := {
  sq_written : written v v';
  sq_addr : s_addr r <> None;
  sq_count : s_n_upserts r = 0;
  sq_tree : mem_tree (v_mem v') = snd (tree_insert r (mem_tree (v_mem v)));
  sq_rows : mem_rows (v_mem v') = mem_rows (v_mem v);
  sq_lsn : v_lsn v' = v_lsn v;
  sq_wal : v_wal v' = v_wal v;
}.

Lemma foldr_rows_zero (ms : list mem) : Forall mem_ok ms -> foldr (fun m => Z.add (mem_rows m)) 0 ms = 0 -> concat (map mem_tree ms) = [].
Proof.
  assert (forall ms, Forall mem_ok ms -> 0 <= foldr (fun m => Z.add (mem_rows m)) 0 ms) as Hp.
  { intros ms' H. induction H as [|m ms' [Hm _] H IH]; cbn; lia. }
  intros H. induction H as [|m ms [Hm Hm'] H IH]; [done|]. cbn. specialize (Hp ms H). intros E.
  rewrite IH by lia. destruct (mem_tree m); [done|]. cbn in Hm. lia.
Qed.

Section Squash.
Context (v v1 v2 : vinyl T O) (e e1 r : stmt) (Hinv : inv v) (Hwr : writable v e) (Hin : inserted v e e1 v1).
Context (Het : s_type e1 = IPROTO_UPSERT) (Hbelow : concat (below v) = []).
Abbreviation old := (head (of_key (s_tuple e1) (mem_tree (v_mem v)))).
Context (Hterm : forall p, old = Some p -> terminal p) (Hr : alike (upsert_result e1 old) r) (Hsq : squashed v1 r v2).

Lemma old_at p : old = Some p -> p ∈ mem_tree (v_mem v) /\ same_key (s_tuple p) (s_tuple e1).
Proof.
  intros E. assert (p ∈ of_key (s_tuple e1) (mem_tree (v_mem v))) as Hp by (by apply head_Some_elem_of).
  apply of_key_elem in Hp as [Hk Hp]. split; [done|]. by symmetry.
Qed.
Lemma squash_same_place : vy_mem_tree_cmp r e1 = 0.
Proof.
  unfold vy_mem_tree_cmp. rewrite <- (al_tuple _ _ Hr), <- (al_lsn _ _ Hr), upsert_result_lsn.
  assert (same_key (s_tuple (upsert_result e1 old)) (s_tuple e1)) as E.
  { symmetry. apply upsert_result_key. intros p Ep. by apply old_at. }
  unfold same_key in E. rewrite E. cbn. by rewrite Z.ltb_irrefl.
Qed.
Lemma squash_type : s_type r = IPROTO_REPLACE.
Proof. rewrite <- (al_type _ _ Hr). by apply upsert_result_terminal. Qed.
Lemma squash_stmt_ok : stmt_ok wl (s_lsn e1) r.
Proof.
  pose proof (in_ok1 v v1 e e1 Hwr Hin) as H1. eapply alike_ok; [exact Hr|]. pose proof (upsert_result_terminal e1 old Hterm) as Et.
  assert (s_flags (upsert_result e1 old) = 0) as Ef.
  { unfold upsert_result. destruct old as [p|]; [|done]. by destruct (has_type IPROTO_UPSERT p). }
  split.
  - rewrite upsert_result_lsn. apply H1.
  - apply upsert_result_ok; [apply H1|done].
  - unfold flagged, has_flag. by rewrite Ef.
  - by rewrite Et.
  - unfold skipped, has_flag. by rewrite Ef.
Qed.
Lemma inv_squashed : inv v2.
Proof.
  pose proof (in_levels_lsn v v1 e e1 Hwr Hin) as Hl. pose proof (in_ok1 v v1 e e1 Hwr Hin) as Ho1.
  pose proof (co_alike _ _ (in_copy _ _ _ _ Hin)) as Ha.
  assert (s_lsn e1 = v_lsn v2) as El by (rewrite (sq_lsn _ _ _ Hsq), (in_lsn _ _ _ _ Hin); by rewrite (al_lsn _ _ Ha)).
  pose proof (inv_inserted v v1 e e1 Hinv Hwr Hin) as Hinv1.
  assert (below v1 = below v) as Eb by (by rewrite (wn_sealed _ _ (in_written _ _ _ _ Hin)), (wn_slices _ _ (in_written _ _ _ _ Hin))).
  pose proof (squashed_tree wl (v_lsn v) _ _ e1 (i_levels _ Hinv) Hl r squash_same_place) as [Et Es].
  rewrite <- (in_tree _ _ _ _ Hin) in Et, Es.
  eapply inv_written; [exact Hinv1|apply Hsq| | |].
  - pose proof (i_mems _ Hinv1) as Hm. unfold mems in Hm. apply Forall_cons in Hm as [[M1 M2] _].
    assert (mem_tree (v_mem v2) ≡ₚ r :: mem_tree (v_mem v)) as Hp.
    { rewrite (sq_tree _ _ _ Hsq), Et. apply insert_newest; [by eapply sorted_mem, Hinv|].
      apply key_newest_all. destruct (cmp_zero _ _ squash_same_place) as [_ E]. rewrite E. eapply older_mem; [apply Hinv|done]. }
    pose proof (i_mems _ Hinv) as Hm. unfold mems in Hm. apply Forall_cons in Hm as [[N1 N2] _]. split.
    + rewrite (sq_rows _ _ _ Hsq), (in_rows _ _ _ _ Hin), N1, Hp. cbn. lia.
    + rewrite Hp. constructor; [|done]. split; [apply Hsq|]. by rewrite (sq_count _ _ _ Hsq).
  - rewrite Eb, <- El, (sq_tree _ _ _ Hsq), (in_tree _ _ _ _ Hin).
    eapply squashed_ok; [apply Hinv|done|apply squash_same_place|apply squash_stmt_ok|done].
  - intros Hw t vlsn Hop. rewrite Eb, (sq_tree _ _ _ Hsq), (sq_wal _ _ _ Hsq), (in_tree _ _ _ _ Hin).
    rewrite (squashed_read wl (v_lsn v)); try done.
    + rewrite <- (in_tree _ _ _ _ Hin). apply (in_reads v v1 e e1); try done. by eapply written_open; [apply Hsq|].
    + apply Hinv.
    + apply squash_same_place.
    + apply squash_type.
    + apply squash_stmt_ok.
    + by rewrite <- (al_tuple _ _ Hr).
Qed.
End Squash.
End Safety.
