(* ===== verification/VyLsmSteps.v ===== *)
(** * The operations of the LSM tree preserve its invariant *)

From stdpp Require Import list sorting.
From S2P Require Import Prelude Heap VyStmt VyVisible VyViews VyDeferred VyWriteIterator VyMerge VyOutput VyRun VyCompaction.
From S2P Require Import VyMem VyMemSafety VyMemTheorems VyLevels VyInsert VyLsm VyLsmSafety.

Open Scope Z_scope.

Section Steps.
Context {T O : Type} `{!Tuples T O, !TuplesLaws T O}.
Abbreviation stmt := (vy_stmt T O).
Abbreviation mem := (vy_mem T O).
Abbreviation wi := (vy_write_iterator T O).
Abbreviation level := (list stmt).
Implicit Types (x y e r : stmt) (l : level) (ls S B : list level) (t : T) (v : vinyl T O) (m : mem) (tk : vy_task T O) (F : Prop).
Context (wl : workload).
Abbreviation inv := (inv wl).
Abbreviation writable := (writable wl).

(** ** Writing *)

(** What an insertion makes of the memory. *)
Record grown m x m' : Prop := {
  gw_tree : mem_tree m' = snd (tree_insert x (mem_tree m));
  gw_rows : mem_rows m' = mem_rows m + 1;
  gw_gen : mem_generation m' = mem_generation m;
}.
Lemma insert_grown m x oom :
  tree_sorted (mem_tree m) -> key_newest x (mem_tree m) ->
  (oom = true /\ vy_mem_insert m x oom = (-1, m)) \/
  (oom = false /\ exists m', vy_mem_insert m x oom = (0, m') /\ grown m x m').
Proof.
  intros Hs Hf. destruct (insert_newest x _ Hs Hf) as (_ & _ & E & _). unfold vy_mem_insert.
  destruct (tree_insert x (mem_tree m)) as [r tree] eqn:Ei. cbn in E. subst r. destruct oom; [by left|right].
  split; [done|]. eexists. split; [reflexivity|]. split; cbn; [|done|done]. by rewrite Ei.
Qed.

(** The counter that vy_mem_insert_upsert has set. *)
Definition counted m x x1 : Prop :=
  (s_type x <> IPROTO_UPSERT /\ x1 = x) \/
  (s_type x = IPROTO_UPSERT /\ exists n, x1 = x <| s_n_upserts := n |> /\ 0 <= n <= VY_UPSERT_INF /\
    (n = 0 -> forall p, head (of_key (s_tuple x) (mem_tree m)) = Some p -> terminal p) /\
    (n = VY_UPSERT_THRESHOLD -> exists o, head (of_key (s_tuple x) (mem_tree m)) = Some o /\
       s_type o = IPROTO_UPSERT /\ s_n_upserts o = VY_UPSERT_THRESHOLD - 1)).

Lemma mem_insert_spec v x oom (Q : Z * stmt -> vinyl T O -> Prop) :
  tree_sorted (mem_tree (v_mem v)) -> key_newest x (mem_tree (v_mem v)) -> mem_ok (v_mem v) -> s_n_upserts x = 0 ->
  (oom = true -> forall x1, Q (-1, x1) v) ->
  (forall x1 m, counted (v_mem v) x x1 -> grown (v_mem v) x1 m -> Q (0, x1) (v <| v_mem := m |>)) ->
  wp (mem_insert x oom) Q v.
Proof.
  intros Hs Hf Hm Hn HQ1 HQ2. assert (v <| v_mem := v_mem v |> = v) as Ev by (by destruct v).
  unfold wp, mem_insert. destruct (has_type IPROTO_UPSERT x) eqn:Et.
  - unfold vy_mem_insert_upsert. rewrite Et. cbn [negb].
    destruct (count_upserts_spec (v_mem v) x Hs Hf Hm Hn) as (n & -> & Hn1 & Hn2 & Hn3). unfold mbind, option_bind.
    set (x1 := x <| s_n_upserts := n |>).
    destruct (insert_grown (v_mem v) x1 oom Hs Hf) as [[-> ->]|(-> & m' & -> & Hg)].
    + rewrite Ev. by apply HQ1.
    + apply HQ2; [|done]. right. apply has_typeP in Et. split; [done|]. by exists n.
  - apply has_type_falseP in Et. destruct (insert_grown (v_mem v) x oom Hs Hf) as [[-> ->]|(-> & m' & -> & Hg)].
    + rewrite Ev. by apply HQ1.
    + apply HQ2; [|done]. by left.
Qed.

Lemma dup_lsregion_spec F v x (Q : option stmt -> vinyl T O -> Prop) :
  quiet F (v_oom v) ->
  (F -> forall oom, quiet F oom -> Q None (v <| v_oom := oom |>)) ->
  (forall a oom, quiet F oom -> Q (Some (x <| s_addr := Some a |> <| s_refable := false |> <| s_n_upserts := 0 |>))
     (v <| v_oom := oom |> <| v_next := a + 1 |>)) ->
  wpx F (vy_stmt_dup_lsregion x) Q v.
Proof.
  intros Hq H1 H2. unfold vy_stmt_dup_lsregion. apply wpx_bind, wpx_alloc_fails; [done|]. intros [] oom Hq' HF.
  - apply wpx_ret. by apply H1; [apply HF|].
  - apply wpx_bind, wpx_gets, wpx_bind, wpx_modify, wpx_ret. by apply H2.
Qed.

Lemma counted_copy m e x x1 :
  alike e x -> s_addr x <> None -> s_n_upserts x = 0 -> counted m x x1 -> copy_of e x1.
Proof.
  intros Ha Hx Hn [[_ ->]|(_ & n & -> & Hc & _)].
  - split; [done|done|]. rewrite Hn. by vm_compute.
  - split; [|done|done]. destruct Ha. by split.
Qed.
Lemma counted_fields m x x1 :
  counted m x x1 -> s_type x1 = s_type x /\ s_lsn x1 = s_lsn x /\ s_tuple x1 = s_tuple x /\ s_addr x1 = s_addr x.
Proof. by intros [[_ ->]|(_ & n & -> & _)]. Qed.

(** ** Committing an UPSERT *)

Section Commit.
Context (F : Prop) (v v2 : vinyl T O) (e e1 : stmt) (Hinv : inv v) (Hwr : writable v e) (Hin : inserted v e e1 v2).
Context (Het : s_type e1 = IPROTO_UPSERT).
Abbreviation old := (head (of_key (s_tuple e1) (mem_tree (v_mem v)))).

Lemma commit_older (w : vinyl T O) : v_mem w = v_mem v2 -> vy_mem_older_lsn (v_mem w) e1 = old.
Proof.
  intros ->. apply older_lsn_spec.
  - by eapply sorted_mem, Hinv.
  - eapply older_mem; [apply Hinv|]. by eapply in_levels_lsn.
  - apply Hin.
  - pose proof (wr_lsn _ _ _ Hwr). pose proof (al_lsn _ _ (co_alike _ _ (in_copy _ _ _ _ Hin))) as E.
    assert (MAX_LSN <= INT64_MAX - 1) by (by vm_compute). lia.
Qed.
Lemma old_lsn p : old = Some p -> s_lsn p < s_lsn e1.
Proof.
  intros E. apply old_at in E as [Hp _]. pose proof (older_mem wl (v_lsn v) _ _ e1 (i_levels _ _ Hinv)) as H.
  rewrite Forall_forall in H. apply H; [|done]. by eapply in_levels_lsn.
Qed.

(** Replacing the statement in the tree needs no memory. *)
Lemma replace_insert r w oom :
  v_mem w = v_mem v2 -> vy_mem_tree_cmp r e1 = 0 -> s_type r = IPROTO_REPLACE ->
  exists m, mem_insert r oom w = Done (0, r, w <| v_mem := m |>) /\
    mem_tree m = snd (tree_insert r (mem_tree (v_mem v2))) /\ mem_rows m = mem_rows (v_mem v2) /\
    mem_generation m = mem_generation (v_mem v2).
Proof.
  intros Ew Hc Ht. pose proof (squashed_tree wl (v_lsn v) _ _ e1 (i_levels _ _ Hinv)) as H.
  specialize (H ltac:(by eapply in_levels_lsn) r Hc) as [_ H]. rewrite <- (in_tree _ _ _ _ Hin) in H.
  unfold mem_insert. rewrite has_type_ne by congruence. unfold vy_mem_insert. rewrite Ew.
  destruct (tree_insert r (mem_tree (v_mem v2))) as [y tree] eqn:Ei. cbn in H. subst y. rewrite andb_false_r.
  eexists. split; [reflexivity|]. done.
Qed.

Lemma squash_spec :
  quiet F (v_oom v2) -> concat (map mem_tree (v_sealed v) ++ v_slices v) = [] ->
  (forall p, old = Some p -> terminal p) ->
  wpx F (squash_upsert e1) (fun _ w => inv w /\ v_wal w = v_wal v2) v2.
Proof.
  intros Hq Hb Hterm. pose proof (inv_inserted wl v v2 e e1 Hinv Hwr Hin) as Hinv2.
  unfold squash_upsert. apply wpx_bind, wpx_gets. rewrite (commit_older v2 eq_refl). apply wpx_bind, wpx_assert.
  { destruct old as [o|] eqn:Eo; [|done]. by rewrite has_type_ne by (by apply Hterm). }
  pose proof (in_ok1 wl v v2 e e1 Hwr Hin) as Hok1.
  apply wpx_bind, wpx_on_alloc. eapply wpx_mono; [by apply vy_apply_upsert_spec, Hq; [|apply Hok1]|].
  intros u oom (Hq' & [->|[-> HF]]); [|apply wpx_ret; split; [by apply inv_oom|done]].
  rewrite upsert_result_lsn, Z.eqb_refl. cbn [negb]. apply wpx_bind, wpx_assert.
  { destruct old as [o|] eqn:Eo; [|done]. destruct (Z.eqb_spec (s_lsn e1) (s_lsn o)); [|done]. pose proof (old_lsn o Eo). lia. }
  pose proof (upsert_result_terminal e1 old Hterm) as Ht. apply wpx_bind, wpx_assert; [by apply has_type_eq|].
  apply wpx_bind, dup_lsregion_spec; [done| |].
  { intros HF oom' Hq2. apply wpx_ret. split; [by do 2 apply inv_oom|done]. }
  intros a oom' Hq2. set (r := (upsert_result e1 old) <| s_addr := Some a |> <| s_refable := false |> <| s_n_upserts := 0 |>).
  assert (alike (upsert_result e1 old) r) as Ha by done.
  assert (s_refable (upsert_result e1 old) = true) as Hrf.
  { unfold upsert_result. destruct old as [p|]; [|done]. by destruct (has_type IPROTO_UPSERT p). }
  pose proof (squash_same_place v e1 r Ha) as Hc.
  apply wpx_bind. unfold vy_lsm_set. apply wpx_bind, wpx_assert; [done|]. apply wpx_bind, wpx_ret.
  apply wpx_bind, wpx_alloc_fails; [done|]. intros b oom2 Hq3 _. apply wpx_bind.
  unfold wpx at 1. edestruct (replace_insert r) as (m & -> & Em1 & Em2 & Em3); [|exact Hc|done|]; [done|].
  apply wpx_ret, wpx_bind, wpx_assert; [done|]. apply wpx_modify. split; [|done].
  eapply (inv_squashed wl v v2 _ e e1 r); try done. split; [split|..]; cbn; try done; [|lia].
  pose proof (i_lsn _ _ Hinv2). lia.
Qed.

Lemma commit_upsert_spec :
  quiet F (v_oom v2) -> counted (v_mem v) (e1 <| s_n_upserts := 0 |>) e1 ->
  wpx F (vy_lsm_commit_upsert e1) (fun _ w => inv w /\ v_wal w = v_wal v2) v2.
Proof.
  intros Hq Hc. pose proof (inv_inserted wl v v2 e e1 Hinv Hwr Hin) as Hinv2.
  destruct Hc as [[Hc _]|(_ & n & En & Hn & H0 & Ht)]; [done|].
  assert (s_n_upserts e1 = n) as En' by (by rewrite En). change (s_tuple (e1 <| s_n_upserts := 0 |>)) with (s_tuple e1) in *.
  unfold vy_lsm_commit_upsert. apply wpx_bind, wpx_assert; [by apply has_type_eq|]. cbv zeta. rewrite En'. clear En.
  destruct (Z.eqb_spec n VY_UPSERT_INF) as [_|_]; [by apply wpx_ret|].
  destruct (Z.eqb_spec n VY_UPSERT_THRESHOLD) as [E|_].
  { apply wpx_assert; [|done]. rewrite (commit_older v2 eq_refl). destruct (Ht E) as (o & -> & Eo & En).
    rewrite has_type_eq by done. cbn [andb]. by apply Z.eqb_eq. }
  apply wpx_bind, wpx_gets. destruct (_ && _) eqn:Ec; [|by apply wpx_ret].
  apply andb_prop in Ec as [Ec Er]. apply andb_prop in Ec as [En Em]. apply Z.eqb_eq in En, Em, Er.
  apply squash_spec; [done| |by apply H0]. pose proof (in_written _ _ _ _ Hin) as Hw.
  unfold id, run_count in *. rewrite (wn_slices _ _ Hw) in Er.
  assert (v_slices v = []) as Es by (destruct (v_slices v); [done|cbn in Er; lia]). rewrite Es, app_nil_r.
  apply foldr_rows_zero.
  - pose proof (i_mems _ _ Hinv) as Hm. unfold mems in Hm. by apply Forall_cons in Hm as [_ ?].
  - pose proof (i_rows _ _ Hinv2) as Hr. unfold mems in Hr. cbn in Hr. rewrite (wn_sealed _ _ Hw) in Hr. lia.
Qed.
End Commit.

Lemma write_spec F v e :
  inv v -> writable v e -> quiet F (v_oom v) ->
  wpx F (write_stmt e) (fun rc w => inv w /\
    ((rc = 0 /\ v_wal w = e :: v_wal v) \/ (rc = -1 /\ F /\ v_wal w = v_wal v))) v.
Proof.
  intros Hinv Hwr Hq. pose proof (i_levels _ _ Hinv) as Hl. pose proof (sorted_mem wl (v_lsn v) _ _ Hl) as Hs.
  unfold write_stmt, vy_lsm_set. apply wpx_bind, wpx_bind, wpx_assert; [apply Hwr|]. apply wpx_bind, dup_lsregion_spec; [done| |].
  { intros HF oom Hq'. do 2 apply wpx_ret. split; [by apply inv_oom|by right]. }
  intros a oom Hq'. set (x := e <| s_addr := Some a |> <| s_refable := false |> <| s_n_upserts := 0 |>).
  apply wpx_bind, wpx_alloc_fails; [done|]. intros b oom2 Hq2 Hb. apply wpx_bind.
  assert (Forall (fun y => s_lsn y < s_lsn x) (mem_tree (v_mem v))) as Hf.
  { eapply older_mem; [exact Hl|]. apply Hwr. }
  pose proof (i_mems _ _ Hinv) as Hm. unfold mems in Hm. apply Forall_cons in Hm as [Hm _].
  apply wp_wpx, mem_insert_spec; [done|by apply key_newest_all|done|done| |].
  { intros HF%Hb x1. apply wpx_ret. apply wpx_ret. split; [by apply inv_oom, inv_next, inv_oom|by right]. }
  intros x1 m Hc Hg. do 1 apply wpx_ret. cbn [Z.eqb negb]. apply wpx_bind, wpx_modify, wpx_bind.
  unfold vy_lsm_commit_stmt. apply wpx_bind, wpx_modify, wpx_bind, wpx_modify.
  destruct (counted_fields _ _ _ Hc) as (Ct & Cl & Cu & Ca).
  set (v2 := update v_rows _ _). assert (inserted v e x1 v2) as Hin.
  { split; [split| |..]; cbn; try done; try (destruct Hg; done).
    - pose proof (wr_lsn _ _ _ Hwr). lia.
    - destruct Hg as [_ Hr _]. cbn in Hr. lia.
    - by apply (counted_copy (v_mem v) e x x1). }
  assert (v_wal v2 = e :: v_wal v) as Ew by done. assert (quiet F (v_oom v2)) as Hq3 by done. clearbody v2.
  eapply wpx_mono with (Q := fun _ w => inv w /\ v_wal w = v_wal v2).
  - destruct (has_type IPROTO_UPSERT x1) eqn:Et; [|apply wpx_ret; split; [by eapply inv_inserted|done]].
    apply has_typeP in Et. apply (commit_upsert_spec F v v2 e x1); try done.
    destruct Hc as [[Hc _]|(Hc & n & -> & Hn)]; [congruence|]. right. by split; [|exists n].
  - intros _ w [Hw E]. apply wpx_ret. split; [done|]. left. by rewrite E.
Qed.

(** ** Memories and read views *)

Lemma rotate_spec F v :
  inv v -> quiet F (v_oom v) ->
  wpx F vy_lsm_rotate_mem (fun rc w => (rc = -1 /\ F /\ exists oom, w = v <| v_oom := oom |>) \/
    (rc = 0 /\ inv w /\ quiet F (v_oom w) /\ exists oom n, w = v <| v_oom := oom |> <| v_sealed := v_mem v :: v_sealed v |>
       <| v_mem := vy_mem_new (v_generation v) |> <| v_mem_list_version := n |>)) v.
Proof.
  intros Hinv Hq. unfold vy_lsm_rotate_mem. apply wpx_bind, wpx_alloc_fails; [done|]. intros [] oom Hq' HF.
  { apply wpx_ret. left. split_and!; [done|by apply HF|by exists oom]. }
  apply wpx_bind, wpx_modify, wpx_ret. right. split; [done|]. split; [|split; [done|by eexists _, _]].
  destruct Hinv as [H1 H2 H3 H4 H5 H6 H7 H8 H9 H10 H11]. split; try done.
  - change (levels_ok wl (v_lsn v) ([] ++ [] :: levels v)). by apply levels_add_nil.
  - constructor; [by split; [|constructor]|done].
  - constructor; [done|]. apply StronglySorted_inv in H8 as [_ H8]. constructor; cbn; [done|].
    eapply Forall_impl; [exact H8|]. cbn. lia.
  - unfold dump_ok in *. cbn. destruct (v_dump v) as [tk|]; [|done].
    destruct H10 as (D1 & D2 & new & old & D3 & D4 & D5 & D6). split_and!; [done|done|]. exists (v_mem v :: new), old.
    rewrite D3. split_and!; [done|by constructor|done|done].
Qed.

Lemma dump_spec F v : inv v -> wpx F vy_scheduler_dump (fun _ w => inv w /\ v_wal w = v_wal v) v.
Proof.
  intros Hinv. apply wpx_modify. split; [|done]. destruct Hinv as [H1 H2 H3 H4 H5 H6 H7 H8 H9 H10 H11]. split; try done.
  - cbn. lia.
  - unfold dump_ok in *. cbn. destruct (v_dump v) as [tk|]; [|done].
    destruct H10 as (D1 & D2 & D3). split_and!; [done|lia|done].
Qed.
Lemma trigger_spec F v : inv v -> wpx F vy_scheduler_trigger_dump (fun _ w => inv w /\ v_wal w = v_wal v) v.
Proof. intros Hinv. apply wpx_modify. destruct (vy_scheduler_dump_in_progress v); [done|]. by apply (dump_spec F v). Qed.

(** Opening and closing read views leaves fewer of them to ask for. *)
Lemma inv_views v rvs :
  inv v -> StronglySorted Z.le (map fst rvs) -> Forall (fun p => 0 < snd p) rvs ->
  (forall n, n ∈ map fst rvs -> n ∈ views v \/ n = v_lsn v) -> inv (v <| v_read_views := rvs |>).
Proof.
  intros [H1 H2 H3 H4 H5 H6 H7 H8 H9 H10 H11] Hs Hr Hv.
  assert (forall n, open_at (v <| v_read_views := rvs |>) n -> open_at v n) as Ho.
  { intros n [Hn|Hn]; [|by right]. destruct (Hv n Hn) as [?| ->]; [by left|]. right. lia. }
  split; try done.
  - intros Hw t vlsn Hop. by apply H2, Ho.
  - split; [done|]. apply Forall_forall. intros n Hn. cbn. destruct (Hv n Hn) as [Hn'| ->]; [|lia].
    destruct H4 as [_ H4]. rewrite Forall_forall in H4. by apply H4.
  - unfold dump_ok in *. cbn. destruct (v_dump v) as [tk|]; [|done].
    destruct H10 as (D1 & D2 & new & old & D3 & D4 & D5 & D6). split_and!; [done|done|]. exists new, old.
    split_and!; try done. by eapply task_ok_open.
  - unfold compaction_ok in *. cbn. destruct (v_compaction v) as [tk|]; [|done].
    destruct H11 as (new & S & old & C1 & C2 & C3 & C4 & C5). exists new, S, old. split_and!; try done. by eapply task_ok_open.
Qed.

Lemma inv_new_view v : inv v -> inv (v <| v_read_views := v_read_views v ++ [(v_lsn v, 1)] |>).
Proof.
  intros Hinv. pose proof (i_views _ _ Hinv) as [Hs Hv]. apply inv_views; [done| | |].
  - rewrite map_app. apply StronglySorted_app_2; [|done|by repeat constructor]. intros a b Ha Hb.
    apply list_elem_of_singleton in Hb as ->. rewrite Forall_forall in Hv. by apply Hv.
  - apply Forall_app. split; [apply Hinv|by repeat constructor].
  - intros n Hn. rewrite map_app in Hn. apply elem_of_app in Hn as [?|Hn]; [by left|right]. by apply list_elem_of_singleton in Hn.
Qed.

Lemma read_view_spec F v :
  inv v -> quiet F (v_oom v) ->
  wpx F vy_tx_manager_read_view (fun rv w => inv w /\ v_wal w = v_wal v /\ (rv = None /\ F \/ rv = Some (v_lsn v) /\ v_lsn v ∈ views w)) v.
Proof.
  intros Hinv Hq. unfold vy_tx_manager_read_view. apply wpx_bind, wpx_gets, wpx_bind, wpx_gets.
  assert (wpx F (oom ← on_alloc fails; if oom : bool then mret None
    else modify (fun w => w <| v_read_views := v_read_views v ++ [(v_lsn v, 1)] |>);; mret (Some (v_lsn v)))
    (fun rv w => inv w /\ v_wal w = v_wal v /\ (rv = None /\ F \/ rv = Some (v_lsn v) /\ v_lsn v ∈ views w)) v) as Hnew.
  { apply wpx_bind, wpx_alloc_fails; [done|]. intros [] oom Hq' HF; [apply wpx_ret|apply wpx_bind, wpx_modify, wpx_ret].
    - split; [by apply inv_oom|]. split; [done|left]. split; [done|by apply HF].
    - split; [exact (inv_new_view _ (inv_oom _ v oom Hinv))|]. split; [done|right]. split; [done|]. unfold views. cbn. rewrite map_app. set_solver. }
  remember (v_read_views v) as rvs eqn:Er. destruct rvs as [|[vlsn refs] rvs _] using rev_ind; [done|].
  rewrite last_snoc. destruct (Z.eqb_spec vlsn (v_lsn v)) as [->|_]; [|done].
  apply wpx_bind, wpx_modify, wpx_ret. rewrite removelast_last.
  assert (map fst (rvs ++ [(v_lsn v, refs + 1)]) = views v) as Em by (unfold views; rewrite <- Er, !map_app; done).
  split; [|split; [done|right; split; [done|unfold views; cbn; rewrite map_app; set_solver]]].
  apply inv_views; [done|rewrite Em; apply Hinv| |intros n Hn; left; by rewrite Em in Hn].
  pose proof (i_refs _ _ Hinv) as Hr. rewrite <- Er in Hr. apply Forall_app in Hr as [Hr1 Hr2]. apply Forall_app.
  split; [done|]. rewrite Forall_singleton in Hr2 |- *. cbn in *. lia.
Qed.

Lemma StronglySorted_delete {A} (R : A -> A -> Prop) i (l : list A) : StronglySorted R l -> StronglySorted R (delete i l).
Proof.
  intros H. revert i. induction H as [|x l H IH Hf]; intros [|i]; cbn; try done; try by constructor.
  constructor; [apply IH|]. by apply Forall_delete.
Qed.
Lemma destroy_view_spec F v i :
  inv v -> (i < length (v_read_views v))%nat -> wpx F (vy_tx_manager_destroy_read_view i) (fun _ w => inv w /\ v_wal w = v_wal v) v.
Proof.
  intros Hinv Hi. unfold vy_tx_manager_destroy_read_view. apply wpx_bind, wpx_gets.
  destruct (lookup_lt_is_Some_2 _ _ Hi) as [[vlsn refs] E]. rewrite E. pose proof (i_refs _ _ Hinv) as Hr.
  assert (0 < refs) as Hp by (rewrite Forall_lookup in Hr; exact (Hr i _ E)).
  apply wpx_bind, wpx_assert; [by destruct (Z.eqb_spec refs 0); [lia|]|]. apply wpx_modify. split; [|done]. apply inv_views; [done|..].
  - pose proof (i_views _ _ Hinv) as [Hs _]. unfold views in Hs. destruct (_ =? 0).
    + rewrite list_fmap_delete. by apply StronglySorted_delete.
    + rewrite list_fmap_insert, list_insert_id; [done|]. by rewrite list_lookup_fmap, E.
  - destruct (Z.eqb_spec (refs - 1) 0); [by apply Forall_delete|]. apply Forall_insert; [done|]. cbn. lia.
  - intros n Hn. left. unfold views. destruct (_ =? 0).
    + apply list_elem_of_fmap in Hn as (q & -> & Hq). apply list_elem_of_fmap. exists q. split; [done|].
      by eapply elem_of_submseteq, submseteq_delete.
    + rewrite list_fmap_insert, list_insert_id in Hn; [done|]. by rewrite list_lookup_fmap, E.
Qed.
End Steps.
