(* ===== verification/VyLsmTasks.v ===== *)
(** * The tasks of the LSM tree preserve its invariant *)

From stdpp Require Import list sorting.
From S2P Require Import Prelude Heap VyStmt VyVisible VyViews VyDeferred VyWriteIterator VyMerge VyOutput VyRun VyCompaction.
From S2P Require Import VyMem VyMemSafety VyMemTheorems VyLevels VyInsert VyLsm VyLsmSafety VyLsmSteps.

Open Scope Z_scope.

Section Tasks.
Context {T O : Type} `{!Tuples T O, !TuplesLaws T O}.
Abbreviation stmt := (vy_stmt T O).
Abbreviation mem := (vy_mem T O).
Abbreviation wi := (vy_write_iterator T O).
Abbreviation level := (list stmt).
Implicit Types (x y e r : stmt) (l : level) (ls S B : list level) (t : T) (v : vinyl T O) (m : mem) (tk : vy_task T O) (F : Prop).
Context (wl : workload).
Abbreviation inv := (inv wl).
Abbreviation rows := (foldr (fun m => Z.add (mem_rows m)) 0).

(** ** Deleting memories *)

Definition left_of (p : mem -> bool) (ms : list mem) : list mem := filter (fun m => p m = false) ms.
Definition gone_of (p : mem -> bool) (ms : list mem) : list mem := filter (fun m => p m = true) ms.

Lemma delete_mems_spec F p ms : forall v (Q : list mem -> vinyl T O -> Prop),
  Q (left_of p ms) (v <| v_rows := v_rows v - rows (gone_of p ms) |>
    <| v_mem_list_version := v_mem_list_version v + Z.of_nat (length (gone_of p ms)) |>) ->
  wpx F (delete_mems p ms) Q v.
Proof.
  induction ms as [|m ms IH]; intros v Q HQ; cbn [delete_mems].
  { apply wpx_ret. cbn in HQ. rewrite Z.sub_0_r, Z.add_0_r in HQ. by destruct v. }
  unfold left_of, gone_of in *. destruct (p m) eqn:Ep.
  - rewrite filter_cons_False in HQ by congruence. rewrite filter_cons_True in HQ by done.
    apply wpx_bind, wpx_modify, IH. cbn [foldr length] in HQ.
    by rewrite Z.sub_add_distr, Nat2Z.inj_succ, <- Z.add_1_l, Z.add_assoc in HQ.
  - rewrite filter_cons_True in HQ by done. rewrite filter_cons_False in HQ by congruence.
    apply wpx_bind, IH, wpx_ret. done.
Qed.

Lemma delete_sealed_spec F p v (Q : unit -> vinyl T O -> Prop) :
  Q tt (v <| v_sealed := left_of p (v_sealed v) |> <| v_rows := v_rows v - rows (gone_of p (v_sealed v)) |>
    <| v_mem_list_version := v_mem_list_version v + Z.of_nat (length (gone_of p (v_sealed v))) |>) ->
  wpx F (delete_sealed p) Q v.
Proof. intros HQ. unfold delete_sealed. apply wpx_bind, wpx_gets, wpx_bind, delete_mems_spec, wpx_modify. done. Qed.

Lemma rows_split p ms : rows ms - rows (gone_of p ms) = rows (left_of p ms).
Proof.
  unfold gone_of, left_of. induction ms as [|m ms IH]; [done|]. destruct (p m) eqn:Ep.
  - rewrite filter_cons_True by done. rewrite (filter_cons_False (fun m => p m = false)) by congruence. cbn. lia.
  - rewrite filter_cons_False by congruence. rewrite (filter_cons_True (fun m => p m = false)) by done. cbn. lia.
Qed.

Lemma StronglySorted_filter {A} (R : A -> A -> Prop) (P : A -> Prop) `{!forall a, Decision (P a)} (l : list A) :
  StronglySorted R l -> StronglySorted R (filter P l).
Proof.
  intros Hs. induction Hs as [|a l Hs IH Hf]; [constructor|]. rewrite filter_cons. destruct (decide (P a)); [|done].
  constructor; [done|]. rewrite Forall_forall in *. intros b Hb. apply list_elem_of_filter in Hb as [_ Hb]. by apply Hf.
Qed.

(** ** The result of a task *)

Lemma load_alike l : forall a, Forall2 alike l (load a l) /\ Forall (fun x => s_addr x <> None) (load a l).
Proof.
  induction l as [|x l IH]; intros a; [by repeat constructor|]. cbn [load]. destruct (IH (a + 1)). by repeat constructor.
Qed.
Lemma load_all_alike ls : forall a,
  Forall2 (Forall2 alike) ls (load_all a ls) /\ Forall (fun x => s_addr x <> None) (concat (load_all a ls)).
Proof.
  induction ls as [|l ls IH]; intros a; [by repeat constructor|]. cbn [load_all concat].
  destruct (load_alike l a), (IH (a + Z.of_nat (length l))). split; [by constructor|by apply Forall_app].
Qed.

Lemma persist_flag x f : Z.land f VY_STMT_UPDATE = 0 -> has_flag f (persist x) = has_flag f x.
Proof.
  intros Hf. unfold has_flag. cbn. unfold vy_stmt_persistent_flags. f_equal. f_equal. apply Z.bits_inj'. intros n Hn.
  rewrite !Z.land_spec, Z.ldiff_spec. apply (f_equal (fun z => Z.testbit z n)) in Hf.
  rewrite Z.land_spec, Z.bits_0 in Hf. destruct (Z.testbit f n), (Z.testbit VY_STMT_UPDATE n), (Z.testbit (s_flags x) n); done.
Qed.
Lemma persist_alike l : Forall2 alike l (map persist l).
Proof.
  induction l as [|x l IH]; [constructor|]. constructor; [|done]. split; try done.
  - unfold flagged. by rewrite persist_flag.
  - unfold skipped. by rewrite persist_flag.
Qed.

(** A run on top of older ones; an empty one is discarded. *)
Definition put (run : level) ls : list level := match run with [] => ls | _ => map persist run :: ls end.

Lemma alike_refl x : alike x x.
Proof. by split. Qed.
Lemma alike_levels_refl ls : Forall2 (Forall2 alike) ls ls.
Proof. induction ls as [|l ls IH]; constructor; [|done]. induction l; by repeat constructor. Qed.
Lemma put_levels lsn A run B : levels_ok wl lsn (A ++ run :: B) -> levels_ok wl lsn (A ++ put run B).
Proof.
  intros H. destruct run as [|x run]; [by apply levels_drop_nil|]. cbn [put]. eapply alike_levels; [|exact H].
  apply Forall2_app; [apply alike_levels_refl|]. constructor; [apply persist_alike|apply alike_levels_refl].
Qed.
Lemma put_read A run B t n : read (A ++ put run B) t n = read (A ++ run :: B) t n.
Proof.
  destruct run as [|x run]; [by rewrite read_nil|]. cbn [put]. symmetry. apply alike_read.
  apply Forall2_app; [apply alike_levels_refl|]. constructor; [apply persist_alike|apply alike_levels_refl].
Qed.

Definition run_of tk : level :=
  outputs true (tk_last tk) (INT64_MAX :: rev (tk_views tk)) (merged (concat (tk_streams tk))).

Lemma ready_oom (w : wi) todo ms oom : ready w todo ms -> ready (w <| wi_oom := oom |>) todo ms.
Proof. by intros []. Qed.

Section Result.
Context (open : Z -> Prop) (lsn : Z) (A S B : list level) (handler : bool) (tk : vy_task T O).
Context (Htk : task_ok open S B handler tk) (Hok : levels_ok wl lsn (A ++ S ++ B)) (Hlsn : lsn <= INT64_MAX).

Lemma task_levels : Forall2 (Forall2 alike) (A ++ S ++ B) (A ++ tk_streams tk ++ B).
Proof. repeat apply Forall2_app; try apply alike_levels_refl. apply Htk. Qed.
Lemma task_levels_ok : levels_ok wl lsn (A ++ tk_streams tk ++ B).
Proof. eapply alike_levels; [apply task_levels|done]. Qed.
Lemma task_is_input : task_input true (tk_streams tk) (merged (concat (tk_streams tk))).
Proof.
  destruct task_levels_ok as [H1 H2 H3 _]. rewrite !concat_app in H2, H3. rewrite !Forall_app in H1. rewrite !Forall_app in H2.
  apply newest_first_app in H3 as (_ & H3 & _). apply newest_first_app in H3 as (H3 & _ & _).
  eapply merged_input; [apply H1|apply H2|done|done|apply Htk|apply Htk].
Qed.

(** The statements of the task are the ones its run is made of. *)
Lemma task_run_spec F (Q : option level * wi -> vinyl T O -> Prop) v :
  quiet F (v_oom v) -> (F -> forall w oom, Q (None, w) (v <| v_oom := oom |>)) ->
  (forall w oom, quiet F oom -> Q (Some (run_of tk), w) (v <| v_oom := oom |>)) ->
  wpx F (on_wi (tk_wi tk) vy_task_write_run) Q v.
Proof.
  intros Hq H1 H2. set (w0 := vy_write_iterator_new true (tk_last tk) (tk_views tk) handler (v_oom v) : wi).
  pose proof (to_wi _ _ _ _ _ Htk) as (_ & srcs & h & l & oom & Ew). destruct task_is_input as [I1 I2 _ I4 I5 _].
  assert (wpx F vy_task_write_run (fun res w' => (res = None /\ F) \/ (res = Some (run_of tk) /\ quiet F (wi_oom w')))
    ((tk_wi tk) <| wi_oom := v_oom v |>)) as H.
  { eapply wpx_mono; [eapply (write_run_spec true (tk_last tk) handler (tk_views tk) ltac:(apply Htk) F _ w0)|].
    - eapply ready_oom, Htk.
    - done.
    - split; [done|]. exists srcs, h, l, (v_oom v). by rewrite Ew.
    - exact I1.
    - done.
    - done.
    - done.
    - intros res w' [?|(-> & ? & _)]; [by left|by right]. }
  unfold wpx, on_wi in *. destruct (vy_task_write_run _) as [[res w']|]; [|done].
  destruct H as [[-> HF]|[-> Hq']]; [by apply H1|by apply H2].
Qed.

Context (Htame : tame wl tk).
Lemma task_bottom : tk_last tk = true -> concat B = [].
Proof. intros E. by rewrite (to_bottom _ _ _ _ _ Htk E). Qed.
Lemma task_result_ok : levels_ok wl lsn (A ++ put (run_of tk) B).
Proof. apply put_levels. eapply replaced_ok; [exact task_levels_ok|done|apply Htk|apply task_is_input|apply task_bottom|done]. Qed.
Lemma task_result_read (Hw : wl_tame wl = true) t n : open n -> read (A ++ put (run_of tk) B) t n = read (A ++ S ++ B) t n.
Proof.
  intros Hn. rewrite put_read, (alike_read _ _ t n task_levels).
  eapply replaced_read; [exact task_levels_ok|done|apply Htk|apply task_is_input|apply task_bottom|done|done|].
  destruct (to_open _ _ _ _ _ Htk n Hn) as [H|H]; [left|by right]. right. by rewrite <- Permutation_rev.
Qed.
End Result.

(** ** Starting a task *)

Lemma wpx_on_wi {A} F (w : wi) (m : prog wi A) (Q : A * wi -> vinyl T O -> Prop) v :
  wpx F m (fun a w' => Q (a, w') (v <| v_oom := wi_oom w' |>)) (w <| wi_oom := v_oom v |>) -> wpx F (on_wi w m) Q v.
Proof. unfold wpx, on_wi. by destruct (m _) as [[a w']|]. Qed.

Lemma views_input v : inv v -> views_sorted (INT64_MAX :: rev (views v)).
Proof.
  intros Hinv. pose proof (i_views _ _ Hinv) as [Hs Hb]. pose proof (i_lsn _ _ Hinv). pose proof max_lsn.
  assert (Forall (fun n => 0 <= n <= INT64_MAX) (rev (views v))) as Hr.
  { rewrite <- Permutation_rev. eapply Forall_impl; [exact Hb|]. cbn. lia. }
  split; [constructor|constructor; [by vm_compute|]]; [|eapply Forall_impl; [exact Hr|]; cbn; lia..].
  clear - Hs. induction Hs as [|n l Hs IH Hf]; [constructor|]. cbn. apply StronglySorted_app_2; [|done|by repeat constructor].
  intros a b Ha Hb. apply list_elem_of_singleton in Hb as ->. rewrite <- Permutation_rev in Ha.
  rewrite Forall_forall in Hf. by apply Hf.
Qed.

Lemma task_new_spec F v A S B streams lst handler count older (Q : option (vy_task T O) -> vinyl T O -> Prop) :
  inv v -> levels v = A ++ S ++ B -> quiet F (v_oom v) -> Forall2 (Forall2 alike) S streams ->
  Forall (fun x => s_addr x <> None) (concat streams) -> Z.of_nat (length streams) + 1 < 2 ^ 31 ->
  (lst = true -> B = []) ->
  (F -> forall oom, Q None (v <| v_oom := oom |>)) ->
  (forall oom w, quiet F oom -> task_ok (open_at v) S B handler (mk_task w streams (views v) lst count older) ->
     Q (Some (mk_task w streams (views v) lst count older)) (v <| v_oom := oom |>)) ->
  wpx F (task_new streams lst handler count older) Q v.
Proof.
  intros Hinv El Hq Ha Haddr Hsm Hlst HQ1 HQ2. unfold task_new.
  apply wpx_bind, wpx_alloc_fails; [done|]. intros [] oom1 Hq1 HF1; [apply wpx_ret, HQ1; by apply HF1|].
  apply wpx_bind, wpx_alloc_fails; [done|]. intros [] oom2 Hq2 HF2; [apply wpx_ret, (HQ1 (HF2 eq_refl))|].
  apply wpx_bind, wpx_alloc_fails; [done|]. intros [] oom3 Hq3 HF3; [apply wpx_ret, (HQ1 (HF3 eq_refl))|].
  apply wpx_bind, wpx_gets, wpx_bind, wpx_on_wi.
  pose proof (i_levels _ _ Hinv) as Hok. rewrite El in Hok.
  assert (levels_ok wl (v_lsn v) (A ++ streams ++ B)) as Hok'.
  { eapply alike_levels; [|exact Hok]. repeat apply Forall2_app; try apply alike_levels_refl. done. }
  destruct Hok' as [L1 L2 _ _]. rewrite !Forall_app in L1. rewrite !concat_app, !Forall_app in L2.
  eapply wpx_mono.
  { apply (new_srcs_spec F streams _ _ []); [apply ready_oom, new_ready|done| |done| |done|cbn; lia].
    - intros n sr E. cbn in E. by rewrite fin_maps.lookup_empty in E.
    - eapply Forall_impl; [apply L1|]. intros l. apply tree_sorted_before. }
  intros rc w [[Hrc HF]|(-> & Hr & Hs)]; cbv beta.
  { destruct (Z.eqb_spec rc 0); [done|]. exact HF. }
  apply wpx_ret, HQ2; [apply Hs|]. split; cbn; try done.
  - destruct Hs as (_ & srcs & h & l & oom & ->). split; [done|]. by exists srcs, h, l, oom.
  - by apply views_input.
  - intros n [Hn|Hn]; [by left|right]. eapply Forall_impl; [apply L2|]. intros x Hx. pose proof (st_lsn _ _ _ Hx). lia.
Qed.

(** ** Dump *)

Lemma drop_empty lsn (p : mem -> bool) A (ms : list mem) B :
  (forall m, m ∈ ms -> p m = true -> mem_tree m = []) -> levels_ok wl lsn (A ++ map mem_tree ms ++ B) ->
  levels_ok wl lsn (A ++ map mem_tree (left_of p ms) ++ B) /\
  forall t n, read (A ++ map mem_tree (left_of p ms) ++ B) t n = read (A ++ map mem_tree ms ++ B) t n.
Proof.
  revert A. unfold left_of. induction ms as [|m ms IH]; intros A Hp Hok; [done|].
  assert (forall m, m ∈ ms -> p m = true -> mem_tree m = []) as Hp' by (intros m' Hm; apply Hp; by right).
  destruct (p m) eqn:Ep.
  - rewrite filter_cons_False by congruence. cbn in *. rewrite (Hp m) in * by (by left || done).
    apply levels_drop_nil in Hok. destruct (IH A Hp' Hok) as [H1 H2]. split; [done|]. intros t n. by rewrite H2, read_nil.
  - rewrite filter_cons_True by done. cbn in *. rewrite (cons_middle _ A) in *. rewrite app_assoc in *.
    destruct (IH (A ++ [mem_tree m]) Hp') as [H1 H2]; [by rewrite <- !app_assoc in *|]. rewrite <- !app_assoc in H1.
    split; [by rewrite <- app_assoc|]. intros t n. specialize (H2 t n). by rewrite <- !app_assoc in *.
Qed.

Lemma inv_drop v p n :
  inv v -> v_dump v = None -> (forall m, m ∈ v_sealed v -> p m = true -> mem_tree m = []) ->
  inv (v <| v_sealed := left_of p (v_sealed v) |> <| v_rows := v_rows v - rows (gone_of p (v_sealed v)) |>
    <| v_mem_list_version := n |>).
Proof.
  intros [H1 H2 H3 H4 H5 H6 H7 H8 H9 H10 H11] Hd Hp.
  destruct (drop_empty (v_lsn v) p [mem_tree (v_mem v)] (v_sealed v) (v_slices v) Hp H1) as [D1 D2]. split; try done.
  - intros Hw t vlsn Ho. etransitivity; [apply D2|]. by apply H2.
  - unfold mems in *. apply Forall_cons in H6 as [M1 M2]. constructor; [done|]. unfold left_of. cbn.
    rewrite Forall_forall in *. intros m Hm. apply list_elem_of_filter in Hm as [_ Hm]. by apply M2.
  - unfold mems in *. cbn in *. rewrite H7, <- (rows_split p (v_sealed v)). lia.
  - change (StronglySorted (fun m m' => mem_generation m' <= mem_generation m) (v_mem v :: left_of p (v_sealed v))).
    apply StronglySorted_inv in H8 as [S1 S2]. constructor; [by apply StronglySorted_filter|]. unfold left_of.
    rewrite Forall_forall in *. intros m Hm. apply list_elem_of_filter in Hm as [_ Hm]. by apply S2.
  - unfold dump_ok in *. cbn. by rewrite Hd in *.
Qed.

Lemma complete_dump_spec F v (Q : unit -> vinyl T O -> Prop) :
  inv v -> v_dump v = None -> v_dump_generation v < v_generation v ->
  (forall w, inv w -> v_wal w = v_wal v -> Q tt w) -> wpx F vy_scheduler_complete_dump Q v.
Proof.
  intros Hinv Hd Hg HQ. unfold vy_scheduler_complete_dump. apply wpx_bind, wpx_assert; [by apply Z.ltb_lt|].
  apply wpx_modify. destruct (_ =? _); [by apply HQ|]. apply HQ; [|done].
  destruct Hinv as [H1 H2 H3 H4 H5 H6 H7 H8 H9 H10 H11]. split; try done. unfold dump_ok in *. cbn. by rewrite Hd in *.
Qed.

(** The memories to be dumped are the oldest ones. *)
Lemma dumped_split g (ms : list mem) :
  StronglySorted (fun m m' => mem_generation m' <= mem_generation m) ms ->
  ms = left_of (dumped g) ms ++ gone_of (dumped g) ms /\
  Forall (fun m => g < mem_generation m) (left_of (dumped g) ms) /\
  Forall (fun m => mem_generation m <= g) (gone_of (dumped g) ms).
Proof.
  unfold left_of, gone_of. intros Hs. split; [|split].
  - induction Hs as [|m ms Hs IH Hf]; [done|]. destruct (dumped g m) eqn:Ed.
    + rewrite filter_cons_False by congruence. rewrite filter_cons_True by done.
      assert (filter (fun m => dumped g m = false) ms = []) as E.
      { apply elem_of_nil_inv. intros m' Hm. apply list_elem_of_filter in Hm as [H1 H2]. rewrite Forall_forall in Hf.
        specialize (Hf m' H2). unfold dumped in *. cbv beta in Hf. lia. }
      rewrite E, app_nil_l in IH |- *. by rewrite <- IH.
    + rewrite filter_cons_True by done. rewrite filter_cons_False by congruence. cbn. by rewrite <- IH.
  - apply Forall_forall. intros m Hm. apply list_elem_of_filter in Hm as [Hm _]. unfold dumped in Hm. lia.
  - apply Forall_forall. intros m Hm. apply list_elem_of_filter in Hm as [Hm _]. unfold dumped in Hm. lia.
Qed.

Record can_dump v : Prop := {
  cd_idle : v_is_dumping v = false;
  cd_oldest : vy_lsm_generation v = v_dump_generation v;
  cd_started : v_dump_generation v < v_generation v;
  cd_small : Z.of_nat (length (v_sealed v)) + 2 < 2 ^ 31;
}.
Definition finished F v (rc : Z) w : Prop := inv w /\ v_wal w = v_wal v /\ (rc = 0 \/ rc = -1 /\ F).

Lemma idle_dump v : inv v -> v_is_dumping v = false -> v_dump v = None.
Proof. intros Hinv Hd. pose proof (i_dump _ _ Hinv) as H. unfold dump_ok in H. destruct (v_dump v); [|done]. destruct H. congruence. Qed.
Lemma oldest_generation v : inv v -> vy_lsm_generation v <= mem_generation (v_mem v).
Proof.
  intros Hinv. unfold vy_lsm_generation. destruct (list.last (v_sealed v)) as [m|] eqn:E; [|done].
  pose proof (i_gens _ _ Hinv) as H. unfold mems in H. apply StronglySorted_inv in H as [_ H].
  rewrite Forall_forall in H. by apply H, last_Some_elem_of.
Qed.

(** The active memory is sealed if it is to be dumped. *)
Lemma dump_rotate_spec F v :
  inv v -> can_dump v -> quiet F (v_oom v) ->
  wpx F (if mem_generation (v_mem v) =? v_dump_generation v then vy_lsm_rotate_mem else mret 0) (fun rc w =>
    inv w /\ v_wal w = v_wal v /\ (rc = -1 /\ F \/
      rc = 0 /\ quiet F (v_oom w) /\ v_dump w = None /\ v_is_dumping w = false /\ v_dump_generation w = v_dump_generation v /\
      v_dump_generation w < v_generation w /\ v_dump_generation w < mem_generation (v_mem w) /\
      Z.of_nat (length (v_sealed w)) + 1 < 2 ^ 31)) v.
Proof.
  intros Hinv [C1 C2 C3 C4] Hq. pose proof (idle_dump v Hinv C1) as Hd. pose proof (oldest_generation v Hinv) as Hg.
  destruct (Z.eqb_spec (mem_generation (v_mem v)) (v_dump_generation v)) as [E|E].
  - eapply wpx_mono; [by apply rotate_spec|]. intros rc w [(-> & HF & oom & ->)|(-> & Hw & Hq' & oom & n & ->)].
    + split; [by apply inv_oom|]. split; [done|by left].
    + split; [done|]. split; [done|right]. cbn in *. split_and!; try done. lia.
  - apply wpx_ret. split; [done|]. split; [done|right]. split_and!; try done; lia.
Qed.

Lemma dump_new_spec F v : inv v -> can_dump v -> quiet F (v_oom v) -> wpx F vy_task_dump_new (finished F v) v.
Proof.
  intros Hinv Hc Hq. unfold vy_task_dump_new. destruct Hc as [C1 C2 C3 C4] eqn:Ec.
  apply wpx_bind, wpx_assert; [by rewrite C1|]. apply wpx_bind, wpx_assert; [by apply Z.eqb_eq|].
  apply wpx_bind, wpx_assert; [by apply Z.ltb_lt|]. apply wpx_bind, wpx_gets, wpx_bind, wpx_gets, wpx_bind.
  eapply wpx_mono; [by apply dump_rotate_spec|]. clear Ec.
  intros rc w (Hw & Ew & [[-> HF]|(-> & Hq' & Hd & Hi & Eg & G1 & G2 & Hsm)]); [apply wpx_ret; split_and!; auto|].
  cbn [Z.eqb negb]. rewrite <- Eg. set (g := v_dump_generation w) in *. set (p := fun m : mem => dumped g m && is_empty m).
  apply wpx_bind, delete_sealed_spec.
  assert (forall m, m ∈ v_sealed w -> p m = true -> mem_tree m = []) as Hp.
  { intros m _ H. unfold p in H. apply andb_true_iff in H as [_ H]. unfold is_empty in H. by destruct (mem_tree m). }
  pose proof (inv_drop w p (v_mem_list_version w + Z.of_nat (length (gone_of p (v_sealed w)))) Hw Hd Hp) as Hw1.
  assert (length (left_of p (v_sealed w)) <= length (v_sealed w))%nat as Hlen by apply length_filter.
  set (w1 := w <| v_sealed := left_of p (v_sealed w) |> <| v_rows := _ |> <| v_mem_list_version := _ |>) in *.
  assert (v_sealed w1 = left_of p (v_sealed w)) as Es by done. rewrite <- Es in Hlen. clear Es.
  assert (v_wal w1 = v_wal v /\ v_dump w1 = None /\ v_is_dumping w1 = false /\ v_dump_generation w1 = g /\
    v_generation w1 = v_generation w /\ v_mem w1 = v_mem w /\ v_oom w1 = v_oom w) as (F1 & F2 & F3 & F4 & F5 & F6 & F7) by done.
  clearbody w1. apply wpx_bind, wpx_gets. change (filter (fun m => dumped g m = true) (v_sealed w1)) with (gone_of (dumped g) (v_sealed w1)).
  destruct (_ <? 0).
  { apply wpx_bind, complete_dump_spec; [done|done|lia|]. intros w2 Hw2 E2. apply wpx_ret. split_and!; [done|congruence|by left]. }
  apply wpx_bind, wpx_gets, wpx_bind.
  pose proof (i_gens _ _ Hw1) as Hs. unfold mems in Hs. apply StronglySorted_inv in Hs as [Hs _].
  destruct (dumped_split g _ Hs) as (Es & Hn & Ho).
  eapply (task_new_spec F w1 (mem_tree (v_mem w1) :: map mem_tree (left_of (dumped g) (v_sealed w1)))
    (map mem_tree (gone_of (dumped g) (v_sealed w1))) (v_slices w1)).
  - done.
  - unfold levels. rewrite Es at 1. by rewrite map_app, <- app_assoc.
  - by rewrite F7.
  - apply alike_levels_refl.
  - pose proof (i_mems _ _ Hw1) as Hm. unfold mems in Hm. apply Forall_cons in Hm as [_ Hm]. rewrite Es in Hm.
    apply Forall_app in Hm as [_ Hm]. apply Forall_concat, Forall_map. eapply Forall_impl; [exact Hm|]. intros m [_ M].
    eapply Forall_impl; [exact M|]. by intros x [? _].
  - rewrite length_map. assert (length (gone_of (dumped g) (v_sealed w1)) <= length (v_sealed w1))%nat by apply length_filter. lia.
  - intros E. apply Z.eqb_eq in E. unfold run_count in E. destruct (v_slices w1); [done|]. cbn in E. lia.
  - intros HF oom. apply wpx_ret. split_and!; [by apply inv_oom|done|by right].
  - intros oom x Hq2 Htk. apply wpx_bind, wpx_modify, wpx_ret. split_and!; [|done|by left].
    destruct Hw1 as [H1 H2 H3 H4 H5 H6 H7 H8 H9 H10 H11]. split; try done.
    cbn. split; [done|]. rewrite F4, F5. split; [done|]. eexists _, _. split; [exact Es|]. split_and!; try done.
    constructor; [|done]. by rewrite F6.
Qed.

(** A task that fails leaves the tree as it was. *)
Lemma inv_dump_aborted v : inv v -> inv (v <| v_is_dumping := false |> <| v_dump := None |>).
Proof. by intros [H1 H2 H3 H4 H5 H6 H7 H8 H9 H10 H11]. Qed.
Lemma inv_compaction_aborted v : inv v -> inv (v <| v_compaction := None |>).
Proof. by intros [H1 H2 H3 H4 H5 H6 H7 H8 H9 H10 H11]. Qed.

Lemma dump_abort_spec F v (Q : Z -> vinyl T O -> Prop) :
  inv v -> v_is_dumping v = true -> (forall w, inv w -> v_wal w = v_wal v -> Q (-1) w) ->
  wpx F (vy_task_dump_abort;; mret (-1)) Q v.
Proof.
  intros Hinv Hd HQ. unfold vy_task_dump_abort. apply wpx_bind, wpx_bind, wpx_assert; [done|].
  apply wpx_modify, wpx_ret, HQ; [by apply inv_dump_aborted|done].
Qed.

Lemma dumped_parts g (new old : list mem) :
  Forall (fun m => g < mem_generation m) new -> Forall (fun m => mem_generation m <= g) old ->
  left_of (dumped g) (new ++ old) = new /\ gone_of (dumped g) (new ++ old) = old.
Proof.
  unfold left_of, gone_of, dumped. intros Hn Ho. induction Hn as [|m new Hm Hn [IH1 IH2]].
  - induction Ho as [|m old Hm Ho [IH1 IH2]]; [done|]. rewrite app_nil_l in *.
    rewrite filter_cons_False by lia. rewrite filter_cons_True by lia. by rewrite IH1, IH2.
  - rewrite <- app_comm_cons, filter_cons_True by lia. rewrite filter_cons_False by lia. by rewrite IH1, IH2.
Qed.

(** The run takes the place of the memories it was made from. *)
Lemma inv_dumped v tk n :
  inv v -> v_dump v = Some tk -> tame wl tk ->
  inv (v <| v_slices := put (run_of tk) (v_slices v) |>
    <| v_sealed := left_of (dumped (v_dump_generation v)) (v_sealed v) |>
    <| v_rows := v_rows v - rows (gone_of (dumped (v_dump_generation v)) (v_sealed v)) |>
    <| v_mem_list_version := n |> <| v_is_dumping := false |> <| v_dump := None |>).
Proof.
  intros [H1 H2 H3 H4 H5 H6 H7 H8 H9 H10 H11] Hd Htame. pose proof max_lsn. rename H10 into Hdo.
  unfold dump_ok in Hdo. rewrite Hd in Hdo. destruct Hdo as (D1 & D2 & new & old & D3 & D4 & D5 & D6).
  apply Forall_cons in D4 as [D4 D4']. destruct (dumped_parts _ _ _ D4' D5) as [El Eo]. rewrite <- D3 in El, Eo.
  assert (levels v = (mem_tree (v_mem v) :: map mem_tree new) ++ map mem_tree old ++ v_slices v) as Elv.
  { unfold levels. by rewrite D3, map_app, <- app_assoc. }
  assert (v_lsn v <= INT64_MAX) as Hmax by lia. unfold mems in *. rewrite D3 in H6, H7, H8. rewrite Elv in H1, H2. rewrite El, Eo. split; try done.
  - exact (task_result_ok _ _ _ _ _ _ _ D6 H1 Hmax Htame).
  - intros Hw t vlsn Hop. etransitivity; [exact (task_result_read _ _ _ _ _ _ _ D6 H1 Hmax Htame Hw t vlsn Hop)|exact (H2 Hw t vlsn Hop)].
  - rewrite Forall_cons, Forall_app in H6. unfold mems. cbn. constructor; apply H6.
  - unfold mems. cbn in *. rewrite H7, foldr_app. clear. induction new as [|m new IH]; cbn in *; lia.
  - unfold mems. cbn. apply (StronglySorted_app_1_l _ (v_mem v :: new) old). done.
  - unfold compaction_ok in *. cbn. destruct (v_compaction v) as [tk'|]; [|done].
    destruct H11 as (n1 & S & o & C1 & C2). unfold put. destruct (run_of tk) as [|x run]; [by exists n1, S, o|].
    exists (map persist (x :: run) :: n1), S, o. by rewrite C1.
Qed.

Lemma dump_complete_spec F v tk (Q : Z -> vinyl T O -> Prop) :
  inv v -> v_dump v = Some tk -> tame wl tk -> quiet F (v_oom v) ->
  (F -> forall oom, Q (-1) (v <| v_oom := oom |>)) -> (forall w, inv w -> v_wal w = v_wal v -> Q 0 w) ->
  wpx F (vy_task_dump_complete (run_of tk)) Q v.
Proof.
  intros Hinv Hd Htame Hq HQ1 HQ2. pose proof (i_dump _ _ Hinv) as Hdo. unfold dump_ok in Hdo. rewrite Hd in Hdo.
  destruct Hdo as (D1 & D2 & _). unfold vy_task_dump_complete. apply wpx_bind, wpx_assert; [done|].
  apply wpx_bind, wpx_alloc_fails; [done|]. intros [] oom Hq' HF; [apply wpx_ret, HQ1; by apply HF|].
  apply wpx_bind, wpx_modify, wpx_bind, wpx_gets, wpx_bind, delete_sealed_spec, wpx_bind, wpx_modify, wpx_bind.
  apply complete_dump_spec; [|done|done|].
  - exact (inv_dumped _ tk _ (inv_oom _ v oom Hinv) Hd Htame).
  - intros w Hw Ew. apply wpx_ret, HQ2; [done|]. by rewrite Ew.
Qed.

Lemma dump_run_spec F v tk :
  inv v -> v_dump v = Some tk -> tame wl tk -> quiet F (v_oom v) -> wpx F vy_task_dump_run (finished F v) v.
Proof.
  intros Hinv Hd Htame Hq. pose proof (i_dump _ _ Hinv) as Hdo. unfold dump_ok in Hdo. rewrite Hd in Hdo.
  destruct Hdo as (D1 & _ & new & old & D3 & _ & _ & D6). pose proof (i_lsn _ _ Hinv). pose proof max_lsn.
  assert (levels_ok wl (v_lsn v) ((mem_tree (v_mem v) :: map mem_tree new) ++ map mem_tree old ++ v_slices v)) as Hok.
  { pose proof (i_levels _ _ Hinv) as H1. unfold levels in H1. by rewrite D3, map_app, <- app_assoc in H1. }
  assert (F -> forall oom, wpx F (vy_task_dump_abort;; mret (-1)) (finished F v) (v <| v_oom := oom |>)) as Hfail.
  { intros HF oom. apply dump_abort_spec; [by apply inv_oom|done|]. intros w Hw Ew. split_and!; [done|done|by right]. }
  unfold vy_task_dump_run. apply wpx_bind, wpx_gets. rewrite Hd. unfold vy_task_execute. apply wpx_bind.
  eapply task_run_spec; [exact D6|exact Hok|lia|done| |].
  - intros HF w oom. by apply Hfail.
  - intros w oom Hq'. apply wpx_bind, (dump_complete_spec F _ tk); try done; [by apply inv_oom|].
    intros w' Hw Ew. apply wpx_ret. split_and!; [done|done|by left].
Qed.

(** ** Compaction *)

Record can_compact v (n : nat) : Prop := {
  cc_idle : v_compaction v = None;
  cc_count : (1 < n <= length (v_slices v))%nat;
  cc_small : Z.of_nat n + 1 < 2 ^ 31;
}.

Lemma load_all_length ls : forall a, length (load_all a ls) = length ls.
Proof. induction ls as [|l ls IH]; intros a; [done|]. cbn. by rewrite IH. Qed.

Lemma compaction_new_spec F v n :
  inv v -> can_compact v n -> quiet F (v_oom v) -> wpx F (vy_task_compaction_new n) (finished F v) v.
Proof.
  intros Hinv [C1 C2 C3] Hq. unfold vy_task_compaction_new. apply wpx_bind, wpx_assert; [apply Nat.ltb_lt; lia|].
  apply wpx_bind, wpx_gets, wpx_bind, wpx_gets, wpx_bind, wpx_modify, wpx_bind.
  set (streams := load_all _ _). destruct (load_all_alike (take n (v_slices v)) (v_next v)) as [Ha Hd]. fold streams in Ha, Hd.
  set (a := v_next v + _). clearbody a. pose proof (inv_next _ v a Hinv) as Hinv1. set (v1 := v <| v_next := a |>) in *.
  assert (v_slices v1 = v_slices v /\ v_wal v1 = v_wal v /\ v_oom v1 = v_oom v) as (E1 & E2 & E3) by done. clearbody v1.
  assert (length (take n (v_slices v)) = n) as Etk by (apply length_take_le; lia).
  eapply (task_new_spec F v1 (mem_tree (v_mem v1) :: map mem_tree (v_sealed v1)) (take n (v_slices v)) (drop n (v_slices v))).
  - done.
  - unfold levels. by rewrite take_drop, E1.
  - by rewrite E3.
  - done.
  - done.
  - unfold streams. rewrite load_all_length, Etk. done.
  - intros E. apply Nat.eqb_eq in E. by rewrite E, drop_all.
  - intros HF oom. apply wpx_ret. split_and!; [by apply inv_oom|done|by right].
  - intros oom w Hq' Htk. apply wpx_bind, wpx_assert; [by apply Nat.leb_le; lia|].
    apply wpx_bind, wpx_modify, wpx_ret. split_and!; [|done|by left].
    destruct Hinv1 as [H1 H2 H3 H4 H5 H6 H7 H8 H9 H10 H11]. split; try done.
    exists [], (take n (v_slices v)), (drop n (v_slices v)). cbn. split_and!; [by rewrite take_drop|done| |by intros E; rewrite E in Etk; cbn in Etk; lia|done].
    by rewrite length_drop.
Qed.

(** The run takes the place of the slices it was made from. *)
Lemma inv_compacted v tk :
  inv v -> v_compaction v = Some tk -> tame wl tk ->
  let newer := (length (v_slices v) - tk_count tk - tk_older tk)%nat in
  inv (v <| v_slices := take newer (v_slices v) ++ match run_of tk with [] => [] | _ => [map persist (run_of tk)] end ++
                        drop (newer + tk_count tk) (v_slices v) |> <| v_compaction := None |>).
Proof.
  intros [H1 H2 H3 H4 H5 H6 H7 H8 H9 H10 H11] Hc Htame. pose proof max_lsn. assert (v_lsn v <= INT64_MAX) as Hmax by lia.
  unfold compaction_ok in H11. rewrite Hc in H11. destruct H11 as (new & S & old & C1 & C2 & C3 & C4 & C5). cbv zeta.
  assert (length (v_slices v) - tk_count tk - tk_older tk = length new)%nat as En by (rewrite C1, !length_app; lia).
  rewrite En, C1, take_app_length, (app_assoc new S), drop_app_length' by (rewrite length_app; lia).
  assert (match run_of tk with [] => [] | _ => [map persist (run_of tk)] end ++ old = put (run_of tk) old) as Ep by (by destruct (run_of tk)).
  rewrite Ep. assert (levels v = (mem_tree (v_mem v) :: map mem_tree (v_sealed v) ++ new) ++ S ++ old) as Elv.
  { unfold levels. rewrite C1. cbn. by rewrite <- app_assoc. }
  rewrite Elv in H1, H2. split; try done.
  - unfold levels. cbn -[put]. rewrite app_assoc. exact (task_result_ok _ _ _ _ _ _ _ C5 H1 Hmax Htame).
  - intros Hw t vlsn Hop. unfold levels. cbn -[put read]. rewrite app_assoc.
    etransitivity; [exact (task_result_read _ _ _ _ _ _ _ C5 H1 Hmax Htame Hw t vlsn Hop)|exact (H2 Hw t vlsn Hop)].
  - unfold dump_ok in *. cbn -[put]. destruct (v_dump v) as [tk'|]; [|done].
    destruct H10 as (D1 & D2 & n & o & D3 & D4 & D5 & [T1 T2 T3 T4 T5 T6 T7 T8]). split_and!; [done|done|]. exists n, o.
    split_and!; [done|done|done|]. split; try done. intros E. apply T6 in E. rewrite C1 in E. by destruct new, S.
Qed.

Lemma compaction_run_spec F v tk :
  inv v -> v_compaction v = Some tk -> tame wl tk -> quiet F (v_oom v) -> wpx F vy_task_compaction_run (finished F v) v.
Proof.
  intros Hinv Hc Htame Hq. pose proof (i_compaction _ _ Hinv) as Hco. unfold compaction_ok in Hco. rewrite Hc in Hco.
  destruct Hco as (new & S & old & C1 & _ & _ & _ & C5). pose proof (i_lsn _ _ Hinv). pose proof max_lsn.
  assert (levels_ok wl (v_lsn v) ((mem_tree (v_mem v) :: map mem_tree (v_sealed v) ++ new) ++ S ++ old)) as Hok.
  { pose proof (i_levels _ _ Hinv) as H1. unfold levels in H1. rewrite C1 in H1. cbn. by rewrite <- app_assoc. }
  assert (F -> forall oom, wpx F (vy_task_compaction_abort;; mret (-1)) (finished F v) (v <| v_oom := oom |>)) as Hfail.
  { intros HF oom. apply wpx_bind, wpx_modify, wpx_ret. split_and!; [by apply inv_compaction_aborted, inv_oom|done|by right]. }
  unfold vy_task_compaction_run. apply wpx_bind, wpx_gets. rewrite Hc. unfold vy_task_execute. apply wpx_bind.
  eapply task_run_spec; [exact C5|exact Hok|lia|done| |].
  - intros HF w oom. by apply Hfail.
  - intros w oom Hq'. unfold vy_task_compaction_complete. apply wpx_bind, wpx_bind, wpx_alloc_fails; [done|].
    intros [] oom' Hq2 HF; [apply wpx_ret, (Hfail (HF eq_refl) oom')|]. apply wpx_bind, wpx_modify, wpx_ret, wpx_ret.
    split_and!; [|done|by left]. exact (inv_compacted _ tk (inv_oom _ v oom' Hinv) Hc Htame).
Qed.

Lemma inv_new : inv vinyl_new.
Proof.
  split; try done; try by repeat constructor.
  - split; try by repeat constructor. intros _ A l B t x E Hx. destruct A as [|? [|? ?]]; try done. by injection E as <- <-.
Qed.
End Tasks.
