(* ===== verification/VyLsmTheorems.v ===== *)
(** * Theorems on the LSM tree

    The steps of the LSM tree in any order, from an empty tree: the writes,
    dumps and compactions that run meanwhile, and read views that come and
    go. *)

From stdpp Require Import list sorting relations.
From S2P Require Import Prelude Heap VyStmt VyVisible VyViews VyWriteIterator VyMerge VyOutput VyCompaction VyTheorems VyMem VyMemTheorems VyLevels VyLsm VyLsmSafety VyLsmSteps VyLsmTasks.

Open Scope Z_scope.

Section LsmTheorems.
Context {T O : Type} `{!Tuples T O, !TuplesLaws T O}.
Abbreviation stmt := (vy_stmt T O).
Implicit Types (v w : vinyl T O) (e : stmt) (t : T) (F : Prop).

Inductive operation :=
  | Write (e : stmt)
  | TriggerDump
  | ForceDump
  | DumpNew
  | DumpRun
  | CompactionNew (n : nat)
  | CompactionRun
  | OpenReadView
  | CloseReadView (i : nat).

(** When an operation can be started.  The caller of a write sees to its LSN
    and to the duplicates of an INSERT; the scheduler starts one dump and one
    compaction at a time; the worker runs a task that there is.  [tame] says
    nothing unless the workload is one with [wl_tame], and is then an assumption
    on the execution that vy_scheduler.c does not check. *)
Definition allowed (wl : workload) v (op : operation) : Prop :=
  match op with
  | Write e => writable wl v e
  | TriggerDump | ForceDump | OpenReadView => True
  | DumpNew => can_dump v
  | DumpRun => exists tk, v_dump v = Some tk /\ tame wl tk
  | CompactionNew n => can_compact v n
  | CompactionRun => exists tk, v_compaction v = Some tk /\ tame wl tk
  | CloseReadView i => (i < length (v_read_views v))%nat
  end.

(** The return code. *)
Definition perform (op : operation) : prog (vinyl T O) Z :=
  match op with
  | Write e => write_stmt e
  | TriggerDump => vy_scheduler_trigger_dump;; mret 0
  | ForceDump => vy_scheduler_dump;; mret 0
  | DumpNew => vy_task_dump_new
  | DumpRun => vy_task_dump_run
  | CompactionNew n => vy_task_compaction_new n
  | CompactionRun => vy_task_compaction_run
  | OpenReadView => rv ← vy_tx_manager_read_view; mret (match rv with Some _ => 0 | None => -1 end)
  | CloseReadView i => vy_tx_manager_destroy_read_view i;; mret 0
  end.

(** What the journal gets. *)
Definition logged (op : operation) : list stmt := match op with Write e => [e] | _ => [] end.

Lemma perform_spec wl F v op : inv wl v -> allowed wl v op -> quiet F (v_oom v) ->
  wpx F (perform op) (fun rc w => inv wl w /\
    (rc = 0 /\ v_wal w = logged op ++ v_wal v \/ rc = -1 /\ F /\ v_wal w = v_wal v)) v.
Proof.
  intros Hinv Ha Hq.
  assert (forall m : prog (vinyl T O) Z, wpx F m (finished wl F v) v -> wpx F m (fun rc w => inv wl w /\
    (rc = 0 /\ v_wal w = [] ++ v_wal v \/ rc = -1 /\ F /\ v_wal w = v_wal v)) v) as Hfin.
  { intros m H. eapply wpx_mono; [exact H|]. intros rc w (Hw & Ew & Hrc). split; [done|]. destruct Hrc as [->|[-> HF]]; [left|right]; by split_and!. }
  destruct op as [e| | | | |n| | |i]; cbn [perform logged].
  - eapply wpx_mono; [by apply (write_spec wl F v e)|]. intros rc w (Hw & [[-> E]|(-> & HF & E)]); (split; [done|]); [left|right]; by split_and!.
  - apply wpx_bind. eapply wpx_mono; [by apply (trigger_spec wl F v)|]. intros _ w [Hw Ew]. apply wpx_ret. split; [done|by left].
  - apply wpx_bind. eapply wpx_mono; [by apply (dump_spec wl F v)|]. intros _ w [Hw Ew]. apply wpx_ret. split; [done|by left].
  - by apply Hfin, dump_new_spec.
  - destruct Ha as (tk & Ed & Ht). by eapply Hfin, dump_run_spec.
  - by apply Hfin, compaction_new_spec.
  - destruct Ha as (tk & Ed & Ht). by eapply Hfin, compaction_run_spec.
  - apply wpx_bind. eapply wpx_mono; [by apply (read_view_spec wl F v)|]. intros rv w (Hw & Ew & Hrv). apply wpx_ret. split; [done|].
    destruct Hrv as [[-> HF]|[-> _]]; [right|left]; by split_and!.
  - apply wpx_bind. eapply wpx_mono; [by apply (destroy_view_spec wl F v i)|]. intros _ w [Hw Ew]. apply wpx_ret. split; [done|by left].
Qed.

(** ** Runs of the system *)

Inductive step (wl : workload) v : vinyl T O -> Prop :=
  | step_perform op rc w : allowed wl v op -> perform op v = Done (rc, w) -> step wl v w
  | step_environment oom : step wl v (v <| v_oom := oom |>).

Definition reachable (wl : workload) : vinyl T O -> Prop := rtc (step wl) vinyl_new.

Lemma step_inv wl v w : step wl v w -> inv wl v -> inv wl w.
Proof.
  intros [op rc w' Ha E|oom] Hinv; [|by apply inv_oom].
  pose proof (perform_spec wl True v op Hinv Ha ltac:(done)) as H. unfold wpx in H. rewrite E in H. apply H.
Qed.
Lemma lsm_reachable_inv wl v : reachable wl v -> inv wl v.
Proof.
  intros Hr. pose proof (inv_new wl) as Hi. induction Hr as [v|v w u Hs Hr IH]; [done|]. by eapply IH, step_inv.
Qed.

(** C6: the LSM tree is a refinement of its journal, in the executions in which
    no dump or compaction that knows of a read view has an UPSERT directly on a
    DELETE of the same key among its statements.  Nothing in the code checks
    this, and the theorem is false without it: C34 is a compaction that loses
    an UPSERT.  Further, no space has both UPSERTs and deferred DELETEs.  In
    every state that such an execution of writes, dumps, compactions and read
    views reaches, in any order, with any allocation or log write failing, a
    read view that is open, or any later one, reads every key as the statements
    of the journal give it. *)
Theorem lsm_reads_journal upserts v t vlsn :
  let wl := mk_workload upserts true in
  reachable wl v -> (vlsn ∈ views v \/ v_lsn v <= vlsn) ->
  read (levels v) t vlsn = visible None vlsn (of_key t (v_wal v)).
Proof. intros wl Hr Ho. by apply (i_reads wl v (lsm_reachable_inv _ _ Hr)). Qed.

(** C14: in every state that writes, dumps, compactions and read views reach, in
    any order, with any allocation or log write failing before, an operation
    that can be started returns success if nothing fails from now on, no
    assertion of the code is false, and the journal gets what the operation
    writes and nothing else.  Nothing is assumed of the statements of a task
    (the workload is one without [wl_tame]), except that no space has both
    UPSERTs and deferred DELETEs. *)
Theorem lsm_operations_succeed upserts v op :
  let wl := mk_workload upserts false in
  reachable wl v -> allowed wl v op -> true ∉ v_oom v ->
  exists w, perform op v = Done (0, w) /\ v_wal w = logged op ++ v_wal v.
Proof.
  intros wl Hr Ha Ho. pose proof (perform_spec wl False v op (lsm_reachable_inv _ _ Hr) Ha ltac:(done)) as H. unfold wpx in H.
  destruct (perform op v) as [[rc w]|]; [|done]. destruct H as (_ & [[-> E]|(_ & [] & _)]). by exists w.
Qed.
End LsmTheorems.

(** ** A tree of counters *)

Module CounterTree.
Import Counters.
Abbreviation tree := (vinyl (Z * Z) Z).

Definition done_op (op : operation) (v : tree) : tree := match perform op v with Done (_, w) => w | Abort => v end.

(** A REPLACE and an UPSERT are written, a read view is opened between them,
    and the memory is dumped. *)
Definition first_write : vy_stmt (Z * Z) Z := mk_stmt None IPROTO_REPLACE 1 0 true (1, 10) [] 0.
Definition second_write : vy_stmt (Z * Z) Z := mk_stmt None IPROTO_UPSERT 2 0 true (1, 0) [5] 0.
Definition tree1 : tree := Eval vm_compute in done_op (Write first_write) vinyl_new.
Definition tree2 : tree := Eval vm_compute in done_op OpenReadView tree1.
Definition tree3 : tree := Eval vm_compute in done_op (Write second_write) tree2.
Definition tree4 : tree := Eval vm_compute in done_op TriggerDump tree3.
Definition tree5 : tree := Eval vm_compute in done_op DumpNew tree4.
Definition tree6 : tree := Eval vm_compute in done_op DumpRun tree5.

Lemma tree5_tame b tk : v_dump tree5 = Some tk -> tame (mk_workload true b) tk.
Proof.
  intros [= <-] _. right. right. intros t ks1 u d ks2 E _ Hd.
  assert (d ∈ of_key t (concat (match v_dump tree5 with Some tk => tk_streams tk | None => [] end))) as Hin by (cbn [tree5 v_dump]; rewrite E; set_solver).
  apply list_elem_of_filter in Hin as [_ Hin]. cbn in Hin. rewrite !elem_of_cons, elem_of_nil in Hin. destruct Hin as [-> | [-> | []]]; discriminate Hd.
Qed.

Lemma tree_reachable b : reachable (mk_workload true b) tree6.
Proof.
  assert (0 < MAX_LSN) as Hmax by (vm_compute; reflexivity). assert (2 < MAX_LSN) as Hmax2 by (vm_compute; reflexivity).
  apply (rtc_l _ _ tree1). { apply (step_perform _ _ (Write first_write) 0); [|reflexivity]. split; [done|cbn; lia| |done]. split; cbn; try done; lia. }
  apply (rtc_l _ _ tree2). { by apply (step_perform _ _ OpenReadView 0). }
  apply (rtc_l _ _ tree3). { apply (step_perform _ _ (Write second_write) 0); [|reflexivity]. split; [done|cbn; lia| |done]. split; cbn; try done; lia. }
  apply (rtc_l _ _ tree4). { by apply (step_perform _ _ TriggerDump 0). }
  apply (rtc_l _ _ tree5). { apply (step_perform _ _ DumpNew 0); [|reflexivity]. by split. }
  apply rtc_once. apply (step_perform _ _ DumpRun 0); [|reflexivity].
  destruct (v_dump tree5) as [tk|] eqn:E; [|discriminate E]. exists tk. split; [done|]. by apply tree5_tame.
Qed.

Lemma lsm_reads_journal_witness : read (levels tree6) (1, 0) 1 = Some (1, 10) /\ read (levels tree6) (1, 0) 2 = Some (1, 15).
Proof.
  split.
  - rewrite (lsm_reads_journal true tree6 (1, 0) 1 (tree_reachable true)); [vm_compute; reflexivity|]. left. vm_compute. left.
  - rewrite (lsm_reads_journal true tree6 (1, 0) 2 (tree_reachable true)); [vm_compute; reflexivity|]. right. vm_compute. discriminate.
Defined.

Lemma lsm_operations_succeed_witness :
  exists w, perform (CloseReadView 0) tree6 = Done (0, w) /\ v_wal w = [second_write; first_write].
Proof.
  apply (lsm_operations_succeed true tree6 (CloseReadView 0) (tree_reachable false)).
  - vm_compute. reflexivity.
  - intros H. by apply elem_of_nil in H.
Defined.
End CounterTree.
