(* ===== verification/VyRunReader.v ===== *)
(** * Runs, slices and the readers of runs

    src/box/vy_run.c: a run is a file of pages of statements, with an index of
    the pages.  A slice is the part of a run that belongs to a range.  Runs are
    read by key, with an iterator that keeps the last two pages it has read,
    and from one end of a slice to the other with a stream, for compaction.

    The rows of a page are the statements they decode to.  Every allocation,
    every decoding of a row and every read of the disk may fail: the outcomes
    of the next ones are part of the state of the reader. *)

From stdpp Require Import list.
From S2P Require Import Prelude VyStmt VyMem.

Open Scope Z_scope.

(** struct vy_page_info, with the rows of the page in the file. *)
Record vy_page (T O : Type) := mk_page {
  pg_min_key : T;
  pg_row_count : Z;
  pg_rows : list (vy_stmt T O);
}.
Arguments mk_page {T O}. Arguments pg_min_key {T O}. Arguments pg_row_count {T O}. Arguments pg_rows {T O}.

(** The bloom filter tells for a key, which may be partial, whether the run may
    have it. *)
Record vy_run (T O K : Type) := mk_run {
  run_pages : list (vy_page T O);
  run_bloom : option (K -> bool);
}.
Arguments mk_run {T O K}. Arguments run_pages {T O K}. Arguments run_bloom {T O K}.

Record vy_slice (T O K : Type) := mk_slice {
  sl_run : vy_run T O K;
  sl_begin : option T;
  sl_end : option T;
  sl_first_page_no : Z;
  sl_last_page_no : Z;
}.
Arguments mk_slice {T O K}. Arguments sl_run {T O K}. Arguments sl_begin {T O K}. Arguments sl_end {T O K}.
Arguments sl_first_page_no {T O K}. Arguments sl_last_page_no {T O K}.

(** struct vy_run_iterator_pos *)
Record run_pos := mk_pos { page_no : Z; pos_in_page : Z }.

(** The iterator; a page in memory has its number.  [ri_history] is the
    history it fills. *)
Record run_iterator (T O : Type) := mk_ri {
  ri_curr_pos : run_pos;
  ri_curr : option (vy_stmt T O);
  ri_curr_page : option (Z * vy_page T O);
  ri_prev_page : option (Z * vy_page T O);
  ri_search_started : bool;
  ri_history : list (vy_stmt T O);
  ri_oom : list bool;
}.
Arguments mk_ri {T O}. Arguments ri_curr_pos {T O}. Arguments ri_curr {T O}. Arguments ri_curr_page {T O}.
Arguments ri_prev_page {T O}. Arguments ri_search_started {T O}. Arguments ri_history {T O}. Arguments ri_oom {T O}.
#[export] Instance run_iterator_rebuild T O : Rebuild (run_iterator T O) := fun i =>
  mk_ri (ri_curr_pos i) (ri_curr i) (ri_curr_page i) (ri_prev_page i) (ri_search_started i) (ri_history i) (ri_oom i).

(** struct vy_slice_stream *)
Record slice_stream (T O : Type) := mk_ss {
  ss_page_no : Z;
  ss_pos_in_page : Z;
  ss_page : option (vy_page T O);
  ss_entry : option (vy_stmt T O);
  ss_oom : list bool;
}.
Arguments mk_ss {T O}. Arguments ss_page_no {T O}. Arguments ss_pos_in_page {T O}. Arguments ss_page {T O}.
Arguments ss_entry {T O}. Arguments ss_oom {T O}.
#[export] Instance slice_stream_rebuild T O : Rebuild (slice_stream T O) := fun s =>
  mk_ss (ss_page_no s) (ss_pos_in_page s) (ss_page s) (ss_entry s) (ss_oom s).

(** ** The page index *)

Section PageIndex.
Context {T O B K : Type} `{!SearchKeys T K}.
Abbreviation page := (vy_page T O).
Abbreviation run := (vy_run T O B).

Definition page_count (r : run) : Z := Z.of_nat (length (run_pages r)).
(** None if the assertion fails. *)
Definition vy_run_page_info (r : run) (pos : Z) : option page :=
  if (0 <=? pos) && (pos <? page_count r) then run_pages r !! Z.to_nat pos else None.

(** The binary search; the range and whether a page with the key was met. *)
Fixpoint find_page_loop (fuel : nat) (r : run) (key : K) (is_lower_bound : bool) (lo hi : Z) (equal_key : bool)
    : option (Z * Z * bool) :=
  match fuel with
  | 0%nat => None
  | S fuel =>
      let mid := lo + Z.quot (hi - lo) 2 in
      info ← vy_run_page_info r mid;
      let cmp := key_compare_with_tuple key (pg_min_key info) in
      let right := if is_lower_bound then cmp <=? 0 else cmp <? 0 in
      let lo := if right then lo else mid in
      let hi := if right then mid else hi in
      let equal_key := equal_key || (cmp =? 0) in
      if 1 <? hi - lo then find_page_loop fuel r key is_lower_bound lo hi equal_key
      else Some (lo, hi, equal_key)
  end.

(** The page, and whether there is one that starts with the key. *)
Definition vy_page_index_find_page (r : run) (key : K) (itype : iterator_type) : option (Z * bool) :=
  let itype := match itype with ITER_EQ => ITER_GE | _ => itype end in
  let dir := iterator_direction itype in
  let is_lower_bound := match itype with ITER_LT | ITER_GE => true | _ => false end in
  if negb (0 <? page_count r) then None
  else
    '(lo, hi, equal_key) ← find_page_loop (S (length (run_pages r))) r key is_lower_bound (-1) (page_count r) false;
    let lo := if lo <? 0 then page_count r else lo in
    let found := if 0 <? dir then hi else lo in
    Some (if (0 <? found) && (0 <? dir) then found - 1 else found, equal_key).

End PageIndex.

(** ** Slices

    The bounds of a slice are the keys of tuples. *)

Section Slices.
Context {T O K : Type} `{!Tuples T O}.
Abbreviation run := (vy_run T O K).
Abbreviation slice := (vy_slice T O K).

Definition vy_slice_new (r : run) (begin end_ : option T) : option slice :=
  let s := mk_slice r begin end_ in
  if page_count r =? 0 then Some (s 0 0)
  else
    first ← (match begin with
             | None => Some 0
             | Some k =>
                 '(p, _) ← vy_page_index_find_page r k ITER_GE;
                 if p <? page_count r then Some p else None
             end);
    last ← (match end_ with
            | None => Some (page_count r - 1)
            | Some k => fst <$> vy_page_index_find_page r k ITER_LT
            end);
    if match end_ with Some _ => last =? page_count r | None => false end then Some (s 0 0)
    else if first <=? last then Some (s first last) else None.

(** The result is none if there is no intersection. *)
Definition vy_slice_cut (s : slice) (begin end_ : option T) : option (option slice) :=
  if match begin, sl_end s with Some b, Some e => 0 <=? tuple_compare b e | _, _ => false end then Some None
  else if match end_, sl_begin s with Some e, Some b => tuple_compare e b <=? 0 | _, _ => false end then Some None
  else
    let begin := match sl_begin s, begin with
                 | Some sb, Some b => if tuple_compare b sb <? 0 then Some sb else Some b
                 | Some sb, None => Some sb
                 | None, b => b
                 end in
    let end_ := match sl_end s, end_ with
                | Some se, Some e => if 0 <? tuple_compare e se then Some se else Some e
                | Some se, None => Some se
                | None, e => e
                end in
    Some <$> vy_slice_new (sl_run s) begin end_.

End Slices.

(** ** Pages *)

Section Pages.
Context {T O K : Type} `{!SearchKeys T K}.
Abbreviation stmt := (vy_stmt T O).
Abbreviation page := (vy_page T O).

(** No statement if the row cannot be decoded. *)
Definition vy_page_stmt (p : page) (stmt_no : Z) : oprog (option stmt) :=
  assert (fun _ => (0 <=? stmt_no) && (stmt_no <? pg_row_count p));;
  failed ← fails;
  if failed : bool then mret None
  else
    match pg_rows p !! Z.to_nat stmt_no with
    | Some e => mret (Some e)
    | None => abort
    end.

(** The binary search; a row that cannot be decoded ends it. *)
Fixpoint find_key_loop (fuel : nat) (p : page) (key : K) (zero_cmp beg end_ : Z) (equal_key : bool)
    : oprog (Z * bool) :=
  if beg =? end_ then mret (end_, equal_key)
  else
    match fuel with
    | 0%nat => abort
    | S fuel =>
        let mid := beg + (end_ - beg) / 2 in
        fnd_key ← vy_page_stmt p mid;
        match fnd_key with
        | None => mret (end_, equal_key)
        | Some fnd_key =>
            let cmp := tuple_compare_with_key (s_tuple fnd_key) key in
            let cmp := if cmp =? 0 then zero_cmp else cmp in
            let equal_key := equal_key || (cmp =? 0) in
            if cmp <? 0 then find_key_loop fuel p key zero_cmp (mid + 1) end_ equal_key
            else find_key_loop fuel p key zero_cmp beg mid equal_key
        end
    end.
Definition vy_page_find_key (p : page) (key : K) (ty : iterator_type) : oprog (Z * bool) :=
  let zero_cmp := match ty with ITER_GT | ITER_LE => -1 | _ => 0 end in
  find_key_loop (Z.to_nat (pg_row_count p)) p key zero_cmp 0 (pg_row_count p) false.

(** The allocations of vy_page_new. *)
Definition vy_page_new : oprog bool :=
  no_page ← fails;
  if no_page : bool then mret true
  else
    no_index ← fails;
    if no_index : bool then mret true else fails.

End Pages.

(** ** The iterator *)

Section Iterator.
Context {T O K : Type} `{!Tuples T O, !SearchKeys T K}.
Abbreviation stmt := (vy_stmt T O).
Abbreviation page := (vy_page T O).
Abbreviation slice := (vy_slice T O K).
Abbreviation itr := (run_iterator T O).
Abbreviation rprog := (prog itr).
Context (sl : slice) (iterator_type : iterator_type) (key : option K) (vlsn : Z).
Abbreviation r := (sl_run sl).

Definition backward (ty : VyMem.iterator_type) : bool := match ty with ITER_LE | ITER_LT => true | _ => false end.

(** vy_entry_compare of a key that may be empty *)
Definition compare_key (k : option K) (t : T) : Z := match k with Some k => key_compare_with_tuple k t | None => 0 end.

Definition on_ri {A} (m : oprog A) : rprog A := fun i =>
  match m (ri_oom i) with
  | Done (a, oom) => Done (a, i <| ri_oom := oom |>)
  | Abort => Abort
  end.
Definition get_info (no : Z) : rprog page := fun i =>
  match vy_run_page_info r no with Some p => Done (p, i) | None => Abort end.
(** itr->curr, which is not NULL here. *)
Definition get_ri_curr : rprog stmt := fun i =>
  match ri_curr i with Some e => Done (e, i) | None => Abort end.

(** The position in the page, if a key is given. *)
Definition find_in (p : page) (k : option K) (ty : VyMem.iterator_type) : rprog (Z * bool) :=
  match k with
  | Some k => on_ri (vy_page_find_key p k ty)
  | None => mret (0, false)
  end.

(** One of the two pages that are kept, which becomes the current one. *)
Definition cached_page (no : Z) : rprog (option page) :=
  i ← gets id;
  let prev :=
    match ri_prev_page i with
    | Some (n, p) =>
        if n =? no then
          modify (fun i => i <| ri_curr_page := Some (n, p) |> <| ri_prev_page := ri_curr_page i |>);; mret (Some p)
        else mret None
    | None => mret None
    end in
  match ri_curr_page i with
  | Some (n, p) => if n =? no then mret (Some p) else prev
  | None => prev
  end.

(** A page is read; the last failure is a fiber that has been cancelled. *)
Definition read_page (no : Z) (k : option K) (ty : VyMem.iterator_type) : rprog (option (page * Z * bool)) :=
  p ← get_info no;
  no_page ← on_ri vy_page_new;
  if no_page : bool then mret None
  else
    no_task ← on_ri fails;
    if no_task : bool then mret None
    else
      not_read ← on_ri fails;
      if not_read : bool then mret None
      else
        '(pos, equal_found) ← find_in p k ty;
        cancelled ← on_ri fails;
        if cancelled : bool then mret None
        else
          modify (fun i => i <| ri_prev_page := ri_curr_page i |> <| ri_curr_page := Some (no, p) |>);;
          mret (Some (p, pos, equal_found)).

(** The page, the position in it and whether the key was found, or none on
    failure. *)
Definition vy_run_iterator_load_page (no : Z) (k : option K) (ty : VyMem.iterator_type)
    : rprog (option (page * Z * bool)) :=
  cached ← cached_page no;
  match cached with
  | Some p => '(pos, equal_found) ← find_in p k ty; mret (Some (p, pos, equal_found))
  | None => read_page no k ty
  end.

Definition vy_run_iterator_read (pos : run_pos) : rprog (option stmt) :=
  loaded ← vy_run_iterator_load_page (page_no pos) None ITER_GE;
  match loaded with
  | None => mret None
  | Some (p, _, _) => on_ri (vy_page_stmt p (pos_in_page pos))
  end.

(** The return code, the position and whether the key was found. *)
Definition vy_run_iterator_search (ty : VyMem.iterator_type) (k : K) : rprog (Z * run_pos * bool) :=
  match vy_page_index_find_page r k ty with
  | None => abort
  | Some (no, equal_key) =>
      if no =? page_count r then mret (1, mk_pos no 0, equal_key)
      else
        loaded ← vy_run_iterator_load_page no (Some k) ty;
        match loaded with
        | None => mret (-1, mk_pos no 0, equal_key)
        | Some (p, pos, equal_in_page) =>
            if pos =? pg_row_count p then mret (0, mk_pos (no + 1) 0, equal_key)
            else mret (0, mk_pos no pos, equal_in_page)
        end
  end.

(** The return code and the new position, from the current one. *)
Definition vy_run_iterator_next_pos (ty : VyMem.iterator_type) : rprog (Z * run_pos) :=
  pos ← gets ri_curr_pos;
  if backward ty then
    assert (fun _ => page_no pos <=? page_count r);;
    if 0 <? pos_in_page pos then mret (0, mk_pos (page_no pos) (pos_in_page pos - 1))
    else if page_no pos =? 0 then mret (1, pos)
    else
      info ← get_info (page_no pos - 1);
      assert (fun _ => 0 <? pg_row_count info);;
      mret (0, mk_pos (page_no pos - 1) (pg_row_count info - 1))
  else
    info ← get_info (page_no pos);
    assert (fun _ => 0 <? pg_row_count info);;
    if pos_in_page pos + 1 <? pg_row_count info then mret (0, mk_pos (page_no pos) (pos_in_page pos + 1))
    else mret (if page_no pos + 1 =? page_count r then 1 else 0, mk_pos (page_no pos + 1) 0).

Definition vy_run_iterator_stop : rprog unit :=
  modify (fun i => i <| ri_curr := None |>
                     <| ri_prev_page := match ri_curr_page i with Some _ => None | None => ri_prev_page i end |>
                     <| ri_curr_page := None |>).

(** The iteration is over. *)
Definition stopped : rprog (Z * option stmt) := vy_run_iterator_stop;; mret (0, None).

(** Is the statement not of the key of the iterator? *)
Definition mismatch (e : stmt) : bool :=
  match key with Some k => negb (tuple_compare_with_key (s_tuple e) k =? 0) | None => false end.

Definition run_hidden (e : stmt) : bool := (vlsn <? s_lsn e) || has_flag VY_STMT_SKIP_READ e.

(** The first loop of vy_run_iterator_find_lsn: -1 is a failure, 1 the end. *)
Fixpoint skip_invisible (fuel : nat) : rprog Z :=
  curr ← get_ri_curr;
  if run_hidden curr then
    match fuel with
    | 0%nat => abort
    | S fuel =>
        '(rc, pos) ← vy_run_iterator_next_pos iterator_type;
        modify (fun i => i <| ri_curr_pos := pos |>);;
        if negb (rc =? 0) then mret 1
        else
          modify (fun i => i <| ri_curr := None |>);;
          next ← vy_run_iterator_read pos;
          match next with
          | None => mret (-1)
          | Some e =>
              modify (fun i => i <| ri_curr := Some e |>);;
              if bool_decide (iterator_type = ITER_EQ) && mismatch e then mret 1
              else skip_invisible fuel
          end
    end
  else mret 0.

(** The second one, on the way back to the newest statement of the key. *)
Fixpoint find_newest (fuel : nat) : rprog Z :=
  match fuel with
  | 0%nat => abort
  | S fuel =>
      '(rc, test_pos) ← vy_run_iterator_next_pos iterator_type;
      if negb (rc =? 0) then mret 0
      else
        test ← vy_run_iterator_read test_pos;
        match test with
        | None => mret (-1)
        | Some test =>
            curr ← get_ri_curr;
            if run_hidden test || negb (tuple_compare (s_tuple curr) (s_tuple test) =? 0) then mret 0
            else
              modify (fun i => i <| ri_curr := Some test |> <| ri_curr_pos := test_pos |>);;
              find_newest fuel
        end
  end.

Definition row_total : nat := length (concat (map pg_rows (run_pages r))).

Definition outside (e : stmt) : bool :=
  if backward iterator_type then
    match sl_begin sl with Some b => tuple_compare (s_tuple e) b <? 0 | None => false end
  else
    match sl_end sl with Some e' => 0 <=? tuple_compare (s_tuple e) e' | None => false end.

(** The return code and the statement. *)
Definition vy_run_iterator_find_lsn : rprog (Z * option stmt) :=
  assert ri_search_started;;
  assert (fun i => match ri_curr i with Some _ => true | None => false end);;
  assert (fun i => page_no (ri_curr_pos i) <? page_count r);;
  rc ← skip_invisible row_total;
  if rc =? 1 then stopped
  else if negb (rc =? 0) then mret (-1, None)
  else
    rc ← (if backward iterator_type then find_newest (S row_total) else mret 0);
    if negb (rc =? 0) then mret (-1, None)
    else
      curr ← get_ri_curr;
      if outside curr then stopped else mret (0, Some curr).

Definition vy_run_iterator_do_seek (ty : VyMem.iterator_type) (k : option K) : rprog Z :=
  '(rc, equal_found) ←
    (match k with
     | Some k =>
         '(rc, pos, equal_found) ← vy_run_iterator_search ty k;
         modify (fun i => i <| ri_curr_pos := pos |>);;
         mret (rc, equal_found)
     | None =>
         (if bool_decide (ty = ITER_LE) then modify (fun i => i <| ri_curr_pos := mk_pos (page_count r) 0 |>)
          else
            assert (fun _ => bool_decide (ty = ITER_GE));;
            modify (fun i => i <| ri_curr_pos := mk_pos 0 0 |>));;
         mret (0, false)
     end);
  if negb (rc =? 0) then mret rc
  else if bool_decide (ty = ITER_EQ) && negb equal_found then mret 1
  else
    no ← gets (fun i => page_no (ri_curr_pos i));
    if match ty with ITER_GE | ITER_GT => no =? page_count r | _ => false end then mret 1
    else if backward ty then
      '(rc, pos) ← vy_run_iterator_next_pos ty;
      modify (fun i => i <| ri_curr_pos := pos |>);;
      mret rc
    else mret 0.

(** Where to start, with the slice and the key to follow in mind: the type, the
    key and whether the key of the iterator is to be compared.  None if there
    is nothing to be found. *)
Definition seek_from (last : option K) : option (VyMem.iterator_type * option K * bool) :=
  let '(ty, k, check_eq) :=
    match last with
    | Some _ => (if 0 <? iterator_direction iterator_type then ITER_GT else ITER_LT, last, bool_decide (iterator_type = ITER_EQ))
    | None => (iterator_type, key, false)
    end in
  match (match sl_begin sl with
         | Some b =>
             if backward ty then Some (ty, k, check_eq)
             else
               let cmp := compare_key k b in
               if (cmp <? 0) && bool_decide (ty = ITER_EQ) then None
               else if (cmp <? 0) || ((cmp =? 0) && negb (bool_decide (ty = ITER_GT)))
               then Some (ITER_GE, Some (tuple_key b), check_eq || bool_decide (ty = ITER_EQ))
               else Some (ty, k, check_eq)
         | None => Some (ty, k, check_eq)
         end) with
  | None => None
  | Some (ty, k, check_eq) =>
      match sl_end sl with
      | Some e =>
          if backward ty then
            let cmp := compare_key k e in
            if (0 <? cmp) || ((cmp =? 0) && negb (bool_decide (ty = ITER_LT))) then Some (ITER_LT, Some (tuple_key e), check_eq)
            else Some (ty, k, check_eq)
          else Some (ty, k, check_eq)
      | None => Some (ty, k, check_eq)
      end
  end.

Definition vy_run_iterator_seek (last : option K) : rprog (Z * option stmt) :=
  assert ri_search_started;;
  curr ← gets ri_curr;
  if match curr, run_bloom r, key with
     | None, Some maybe_has, Some k => bool_decide (iterator_type = ITER_EQ) && negb (maybe_has k)
     | _, _, _ => false
     end
  then stopped
  else
    match seek_from last with
    | None => stopped
    | Some (ty, k, check_eq) =>
        rc ← vy_run_iterator_do_seek ty k;
        if rc <? 0 then mret (-1, None)
        else if 0 <? rc then stopped
        else
          modify (fun i => i <| ri_curr := None |>);;
          pos ← gets ri_curr_pos;
          next ← vy_run_iterator_read pos;
          match next with
          | None => mret (-1, None)
          | Some e =>
              modify (fun i => i <| ri_curr := Some e |>);;
              if check_eq && mismatch e then stopped
              else vy_run_iterator_find_lsn
          end
    end.

Definition vy_run_iterator_open (oom : list bool) : itr := mk_ri (mk_pos (page_count r) 0) None None None false [] oom.

(** The loop of vy_run_iterator_next_key; none at the end. *)
Fixpoint next_key_loop (fuel : nat) : rprog (Z * option stmt) :=
  match fuel with
  | 0%nat => abort
  | S fuel =>
      '(rc, pos) ← vy_run_iterator_next_pos iterator_type;
      modify (fun i => i <| ri_curr_pos := pos |>);;
      if negb (rc =? 0) then mret (0, None)
      else
        next ← vy_run_iterator_read pos;
        match next with
        | None => mret (-1, None)
        | Some next =>
            curr ← get_ri_curr;
            if tuple_compare (s_tuple curr) (s_tuple next) =? 0 then next_key_loop fuel else mret (0, Some next)
        end
  end.

Definition vy_run_iterator_next_key : rprog (Z * option stmt) :=
  started ← gets ri_search_started;
  if negb started then
    modify (fun i => i <| ri_search_started := true |>);;
    vy_run_iterator_seek None
  else
    curr ← gets ri_curr;
    match curr with
    | None => mret (0, None)
    | Some _ =>
        assert (fun i => page_no (ri_curr_pos i) <? page_count r);;
        '(rc, next) ← next_key_loop (S row_total);
        if negb (rc =? 0) then mret (-1, None)
        else
          match next with
          | None => stopped
          | Some next =>
              modify (fun i => i <| ri_curr := Some next |>);;
              if bool_decide (iterator_type = ITER_EQ) && mismatch next then stopped
              else vy_run_iterator_find_lsn
          end
    end.

Fixpoint run_next_lsn_loop (fuel : nat) : rprog (Z * option stmt) :=
  match fuel with
  | 0%nat => abort
  | S fuel =>
      '(rc, next_pos) ← vy_run_iterator_next_pos ITER_GE;
      if negb (rc =? 0) then stopped
      else
        next ← vy_run_iterator_read next_pos;
        match next with
        | None => mret (-1, None)
        | Some next =>
            curr ← get_ri_curr;
            if negb (tuple_compare (s_tuple curr) (s_tuple next) =? 0) then mret (0, None)
            else
              modify (fun i => i <| ri_curr := Some next |> <| ri_curr_pos := next_pos |>);;
              if has_flag VY_STMT_SKIP_READ next then run_next_lsn_loop fuel else mret (0, Some next)
        end
  end.
Definition vy_run_iterator_next_lsn : rprog (Z * option stmt) :=
  assert ri_search_started;;
  assert (fun i => match ri_curr i with Some _ => true | None => false end);;
  assert (fun i => page_no (ri_curr_pos i) <? page_count r);;
  run_next_lsn_loop (S row_total).

Definition run_history_append (e : stmt) : rprog Z :=
  oom ← on_ri fails;
  if oom : bool then mret (-1) else modify (fun i => i <| ri_history ::= fun h => h ++ [e] |>);; mret 0.

(** The loop over the older statements, from [entry] on. *)
Fixpoint run_history_loop (fuel : nat) (entry : option stmt) : rprog Z :=
  match entry with
  | None => mret 0
  | Some e =>
      match fuel with
      | 0%nat => abort
      | S fuel =>
          rc ← run_history_append e;
          if negb (rc =? 0) then mret (-1)
          else
            terminal ← gets (fun i => vy_history_is_terminal (ri_history i));
            if terminal : bool then mret 0
            else
              '(rc, entry) ← vy_run_iterator_next_lsn;
              if negb (rc =? 0) then mret (-1) else run_history_loop fuel entry
      end
  end.

Definition run_history_cleanup : rprog unit := modify (fun i => i <| ri_history := [] |>).

Definition vy_run_iterator_next : rprog Z :=
  run_history_cleanup;;
  '(rc, entry) ← vy_run_iterator_next_key;
  if negb (rc =? 0) then mret (-1) else run_history_loop row_total entry.

Definition vy_run_iterator_skip (last : option K) : rprog Z :=
  i ← gets id;
  if ri_search_started i &&
     match ri_curr i, last with
     | Some c, Some l => 0 <? iterator_direction iterator_type * tuple_compare_with_key (s_tuple c) l
     | _, _ => true
     end
  then mret 0
  else
    run_history_cleanup;;
    modify (fun i => i <| ri_search_started := true |>);;
    '(rc, entry) ← vy_run_iterator_seek last;
    if negb (rc =? 0) then mret (-1) else run_history_loop row_total entry.
End Iterator.

(** ** The stream of a slice *)

Section Stream.
Context {T O K : Type} `{!Tuples T O}.
Abbreviation stmt := (vy_stmt T O).
Abbreviation page := (vy_page T O).
Context (sl : vy_slice T O K).
Abbreviation r := (sl_run sl).
Abbreviation sprog := (prog (slice_stream T O)).

Definition vy_slice_stream_open (oom : list bool) : slice_stream T O := mk_ss (sl_first_page_no sl) 0 None None oom.

Definition on_ss {A} (m : oprog A) : sprog A := fun s =>
  match m (ss_oom s) with
  | Done (a, oom) => Done (a, s <| ss_oom := oom |>)
  | Abort => Abort
  end.
Definition get_ss_info (no : Z) : sprog page := fun s =>
  match vy_run_page_info r no with Some p => Done (p, s) | None => Abort end.
(** stream->page, which is not NULL here. *)
Definition get_ss_page : sprog page := fun s =>
  match ss_page s with Some p => Done (p, s) | None => Abort end.

(** The first failure is that of the decompression context. *)
Definition vy_slice_stream_read_page : sprog Z :=
  assert (fun s => match ss_page s with None => true | Some _ => false end);;
  no_zdctx ← on_ss fails;
  if no_zdctx : bool then mret (-1)
  else
    no ← gets ss_page_no;
    info ← get_ss_info no;
    no_page ← on_ss vy_page_new;
    if no_page : bool then mret (-1)
    else
      not_read ← on_ss fails;
      if not_read : bool then mret (-1)
      else modify (fun s => s <| ss_page := Some info |>);; mret 0.

(** The next page is to be read. *)
Definition turn_page : sprog unit :=
  modify (fun s => s <| ss_page := None |> <| ss_page_no ::= fun n => n + 1 |> <| ss_pos_in_page := 0 |>).

Definition vy_slice_stream_search : sprog Z :=
  assert (fun s => match ss_page s with None => true | Some _ => false end);;
  match sl_begin sl with
  | None =>
      assert (fun s => ss_page_no s =? 0);;
      assert (fun s => ss_pos_in_page s =? 0);;
      mret 0
  | Some begin =>
      rc ← vy_slice_stream_read_page;
      if negb (rc =? 0) then mret (-1)
      else
        p ← get_ss_page;
        '(pos, _) ← on_ss (vy_page_find_key p begin ITER_GE);
        modify (fun s => s <| ss_pos_in_page := pos |>);;
        (if pos =? pg_row_count p then turn_page else skip);;
        mret 0
  end.

(** The return code and the statement. *)
Definition vy_slice_stream_next : sprog (Z * option stmt) :=
  no ← gets ss_page_no;
  if sl_last_page_no sl <? no then mret (0, None)
  else
    loaded ← gets ss_page;
    rc ← (match loaded with None => vy_slice_stream_read_page | Some _ => mret 0 end);
    if negb (rc =? 0) then mret (-1, None)
    else
      p ← get_ss_page;
      pos ← gets ss_pos_in_page;
      entry ← on_ss (vy_page_stmt p pos);
      match entry with
      | None => mret (-1, None)
      | Some e =>
          if match sl_end sl with
             | Some end_ => (sl_last_page_no sl <=? no) && (0 <=? tuple_compare (s_tuple e) end_)
             | None => false
             end
          then mret (0, None)
          else
            modify (fun s => s <| ss_entry := Some e |> <| ss_pos_in_page := pos + 1 |>);;
            info ← get_ss_info no;
            (if pg_row_count info <=? pos + 1 then turn_page else skip);;
            mret (0, Some e)
      end.

Definition vy_slice_stream_stop : sprog unit := modify (fun s => s <| ss_page := None |> <| ss_entry := None |>).
End Stream.
