(* ===== verification/VyPages.v ===== *)
(** * Positions in a run

    The rows of a run in their order, the position of the [n]th of them, and
    the steps from one position to the next. *)

From stdpp Require Import list sorting.
From S2P Require Import Prelude VyStmt VyVisible VyViews VyMem VyMemSafety VyMemTheorems VyRunReader.

Open Scope Z_scope.

Section Pages.
Context {T O K : Type} `{!Tuples T O, !TuplesLaws T O, !SearchKeys T K, !SearchKeysLaws T O K}.
Abbreviation stmt := (vy_stmt T O).
Abbreviation page := (vy_page T O).
Abbreviation itr := (run_iterator T O).
Implicit Types (e x y : stmt) (l : list stmt) (p : page) (a b ps : list page) (i : itr) (k : K).

Record page_ok p : Prop := {
  pk_count : pg_row_count p = Z.of_nat (length (pg_rows p));
  pk_min : exists x l, pg_rows p = x :: l /\ pg_min_key p = s_tuple x;
}.

Definition rows_of ps : list stmt := concat (map pg_rows ps).
Definition rows (r : vy_run T O K) : list stmt := rows_of (run_pages r).

Record run_ok (r : vy_run T O K) : Prop := {
  rk_pages : Forall page_ok (run_pages r);
  rk_some : run_pages r <> [];
  rk_sorted : tree_sorted (rows r);
  rk_bloom : forall f x k, run_bloom r = Some f -> x ∈ rows r -> tuple_compare_with_key (s_tuple x) k = 0 -> f k = true;
}.

Lemma rows_of_app a b : rows_of (a ++ b) = rows_of a ++ rows_of b.
Proof. unfold rows_of. by rewrite map_app, concat_app. Qed.
Lemma rows_of_cons p ps : rows_of (p :: ps) = pg_rows p ++ rows_of ps.
Proof. done. Qed.

(** ** The position of a row *)

Fixpoint pos_in ps (n : nat) : run_pos :=
  match ps with
  | [] => mk_pos 0 0
  | p :: ps =>
      if (n <? length (pg_rows p))%nat then mk_pos 0 (Z.of_nat n)
      else let q := pos_in ps (n - length (pg_rows p)) in mk_pos (1 + page_no q) (pos_in_page q)
  end.

Lemma pos_in_app a ps n : pos_in (a ++ ps) (length (rows_of a) + n) =
  mk_pos (Z.of_nat (length a) + page_no (pos_in ps n)) (pos_in_page (pos_in ps n)).
Proof.
  induction a as [|p a IH]; [cbn; by destruct (pos_in ps n)|]. cbn [app pos_in].
  rewrite rows_of_cons, length_app. destruct (Nat.ltb_spec (length (pg_rows p) + length (rows_of a) + n) (length (pg_rows p))) as [?|_]; [lia|].
  replace (length (pg_rows p) + length (rows_of a) + n - length (pg_rows p))%nat with (length (rows_of a) + n)%nat by lia.
  rewrite IH. cbn [page_no pos_in_page length]. f_equal. lia.
Qed.
Lemma pos_in_page_at a p b n :
  (n < length (pg_rows p))%nat -> pos_in (a ++ p :: b) (length (rows_of a) + n) = mk_pos (Z.of_nat (length a)) (Z.of_nat n).
Proof.
  intros Hn. rewrite pos_in_app. cbn [pos_in]. destruct (Nat.ltb_spec n (length (pg_rows p))); [|lia]. cbn. f_equal. lia.
Qed.
Lemma pos_in_end ps : pos_in ps (length (rows_of ps)) = mk_pos (Z.of_nat (length ps)) 0.
Proof.
  pose proof (pos_in_app ps [] 0) as H. rewrite app_nil_r, Nat.add_0_r in H. rewrite H. cbn. f_equal. lia.
Qed.

(** Every row is in a page. *)
Lemma row_page ps n x :
  rows_of ps !! n = Some x -> exists a p b m, ps = a ++ p :: b /\ n = (length (rows_of a) + m)%nat /\ pg_rows p !! m = Some x.
Proof.
  revert n. induction ps as [|p ps IH]; intros n; [done|]. rewrite rows_of_cons. intros H.
  apply lookup_app_Some in H as [H|[Hle H]].
  - by exists [], p, ps, n.
  - apply IH in H as (a & q & b & m & -> & En & Hm). exists (p :: a), q, b, m. split_and!; [done| |done].
    rewrite rows_of_cons, length_app. lia.
Qed.

Section Run.
Context (sl : vy_slice T O K) (Hok : run_ok (sl_run sl)).
Abbreviation r := (sl_run sl).
Abbreviation all := (rows (sl_run sl)).
Definition pos_of (n : nat) : run_pos := pos_in (run_pages r) n.

Lemma page_of_split a p b : run_pages r = a ++ p :: b ->
  vy_run_page_info r (Z.of_nat (length a)) = Some p /\ page_ok p /\ (0 < length (pg_rows p))%nat.
Proof.
  intros E. unfold vy_run_page_info, page_count. rewrite E, length_app. cbn [length].
  destruct (Z.leb_spec 0 (Z.of_nat (length a))); [|lia].
  destruct (Z.ltb_spec (Z.of_nat (length a)) (Z.of_nat (length a + S (length b)))); [|lia]. cbn [andb].
  rewrite Nat2Z.id, list_lookup_middle by done.
  assert (page_ok p) as Hp. { pose proof (rk_pages _ Hok) as Hf. rewrite E in Hf. apply Forall_app in Hf as [_ Hf]. by apply Forall_inv in Hf. }
  split_and!; [done|done|]. destruct (pk_min _ Hp) as (x & l & -> & _). cbn. lia.
Qed.

(** The position after the last row of a page. *)
Lemma pos_of_page_end a p b : run_pages r = a ++ p :: b ->
  pos_of (length (rows_of a) + length (pg_rows p)) = mk_pos (Z.of_nat (length a) + 1) 0.
Proof.
  intros E. unfold pos_of. replace (length (rows_of a) + length (pg_rows p))%nat with (length (rows_of (a ++ [p])) + 0)%nat.
  - rewrite E, cons_middle, app_assoc, pos_in_app, length_app. cbn [length].
    destruct b as [|q b]; cbn [pos_in page_no pos_in_page]; [f_equal; lia|].
    destruct (page_of_split (a ++ [p]) q b) as (_ & _ & Hq); [by rewrite <- app_assoc|].
    destruct (Nat.ltb_spec 0 (length (pg_rows q))); [|lia]. cbn. f_equal; lia.
  - rewrite rows_of_app, rows_of_cons, !length_app. cbn. lia.
Qed.

Lemma pos_of_end : pos_of (length all) = mk_pos (page_count r) 0.
Proof. apply pos_in_end. Qed.

Lemma pos_of_row n x : all !! n = Some x -> exists p m,
  vy_run_page_info r (page_no (pos_of n)) = Some p /\ pos_in_page (pos_of n) = Z.of_nat m /\ pg_rows p !! m = Some x /\
  page_ok p /\ page_no (pos_of n) < page_count r.
Proof.
  intros H. apply row_page in H as (a & p & b & m & E & -> & Hm). exists p, m.
  assert (m < length (pg_rows p))%nat as Hlt by (by eapply lookup_lt_Some).
  unfold pos_of. rewrite E, pos_in_page_at by done. cbn [page_no pos_in_page].
  destruct (page_of_split a p b E) as (E2 & Hp & _). split_and!; try done. unfold page_count. rewrite E, length_app. cbn. lia.
Qed.

(** ** Steps *)

Lemma wp_get_info no p (Q : page -> itr -> Prop) i : vy_run_page_info r no = Some p -> Q p i -> wp (get_info sl no) Q i.
Proof. intros E H. unfold wp, get_info. by rewrite E. Qed.

Lemma next_pos_forward ty n x i (Q : Z * run_pos -> itr -> Prop) :
  backward ty = false -> ri_curr_pos i = pos_of n -> all !! n = Some x ->
  Q (if (S n =? length all)%nat then 1 else 0, pos_of (S n)) i -> wp (vy_run_iterator_next_pos sl ty) Q i.
Proof.
  intros Hb Hp Hx HQ. unfold vy_run_iterator_next_pos. apply wp_bind, wp_gets. rewrite Hb, Hp.
  apply row_page in Hx as (a & p & b & m & E & -> & Hm). assert (m < length (pg_rows p))%nat as Hlt by (by eapply lookup_lt_Some).
  destruct (page_of_split a p b E) as (E2 & Hpk & Hpos). pose proof (pk_count _ Hpk) as Ec.
  assert (pos_of (length (rows_of a) + m) = mk_pos (Z.of_nat (length a)) (Z.of_nat m)) as Ep by (unfold pos_of; rewrite E; by apply pos_in_page_at).
  rewrite Ep. cbn [page_no pos_in_page]. apply wp_bind. eapply wp_get_info; [done|].
  apply wp_bind, wp_assert; split; [apply Z.ltb_lt; lia|].
  assert (length all = length (rows_of a) + length (pg_rows p) + length (rows_of b))%nat as El.
  { unfold rows. rewrite E, rows_of_app, rows_of_cons, !length_app. lia. }
  destruct (Z.ltb_spec (Z.of_nat m + 1) (pg_row_count p)) as [Hlt2|Hge].
  - apply wp_ret. destruct (Nat.eqb_spec (S (length (rows_of a) + m)) (length all)) as [?|_]; [lia|].
    assert (pos_of (S (length (rows_of a) + m)) = mk_pos (Z.of_nat (length a)) (Z.of_nat (S m))) as Ep'.
    { unfold pos_of. rewrite <- Nat.add_succ_r, E. apply pos_in_page_at. lia. }
    rewrite Ep', Nat2Z.inj_succ, <- Z.add_1_r in HQ. done.
  - assert (S m = length (pg_rows p)) as Em by lia.
    pose proof (pos_of_page_end a p b E) as Ep'. rewrite <- Em, Nat.add_succ_r in Ep'.
    rewrite Ep' in HQ. apply wp_ret.
    assert ((Z.of_nat (length a) + 1 =? page_count r) = (S (length (rows_of a) + m) =? length all)%nat) as ->; [|done].
    unfold page_count. rewrite E, length_app. cbn [length]. destruct b as [|q b].
    + change (length (rows_of [])) with 0%nat in El. cbn [length]. destruct (Z.eqb_spec (Z.of_nat (length a) + 1) (Z.of_nat (length a + 1))), (Nat.eqb_spec (S (length (rows_of a) + m)) (length all)); lia || done.
    + destruct (page_of_split (a ++ [p]) q b) as (_ & _ & Hq); [by rewrite <- app_assoc|].
      rewrite rows_of_cons, length_app in El. cbn [length].
      destruct (Z.eqb_spec (Z.of_nat (length a) + 1) (Z.of_nat (length a + S (S (length b))))), (Nat.eqb_spec (S (length (rows_of a) + m)) (length all)); lia || done.
Qed.

Lemma next_pos_backward ty n i (Q : Z * run_pos -> itr -> Prop) :
  backward ty = true -> ri_curr_pos i = pos_of n -> (n <= length all)%nat ->
  match n with 0%nat => Q (1, pos_of 0) i | S n => Q (0, pos_of n) i end -> wp (vy_run_iterator_next_pos sl ty) Q i.
Proof.
  intros Hb Hp Hn HQ. unfold vy_run_iterator_next_pos. apply wp_bind, wp_gets. rewrite Hb, Hp.
  assert (page_no (pos_of n) <= page_count r) as Hc.
  { destruct (Nat.eq_dec n (length all)) as [->|Hne]; [rewrite pos_of_end; cbn; lia|].
    destruct (lookup_lt_is_Some_2 all n) as [x Hx]; [lia|]. destruct (pos_of_row n x Hx) as (? & ? & _ & _ & _ & _ & ?). lia. }
  apply wp_bind, wp_assert. split; [by apply Z.leb_le|]. destruct n as [|n].
  - destruct (lookup_lt_is_Some_2 (run_pages r) 0) as [p Ep].
    { pose proof (rk_some _ Hok). destruct (run_pages r); [done|]. cbn. lia. }
    destruct (run_pages r) as [|q b] eqn:E; [done|]. destruct (page_of_split [] q b E) as (_ & _ & Hq).
    assert (pos_of 0 = mk_pos 0 0) as E0. { unfold pos_of. rewrite E. cbn [pos_in]. destruct (Nat.ltb_spec 0 (length (pg_rows q))); [done|lia]. }
    rewrite E0 in *. cbn. by apply wp_ret.
  - destruct (lookup_lt_is_Some_2 all n) as [x Hx]; [lia|]. pose proof Hx as Hx0.
    apply row_page in Hx as (a & p & b & m & E & -> & Hm). assert (m < length (pg_rows p))%nat as Hlt by (by eapply lookup_lt_Some).
    destruct (page_of_split a p b E) as (E2 & Hpk & Hpos). pose proof (pk_count _ Hpk) as Ec.
    assert (pos_of (length (rows_of a) + m) = mk_pos (Z.of_nat (length a)) (Z.of_nat m)) as Ep by (unfold pos_of; rewrite E; by apply pos_in_page_at).
    rewrite Ep in HQ. destruct (Nat.eq_dec (S m) (length (pg_rows p))) as [Em|Em].
    + pose proof (pos_of_page_end a p b E) as Ep'. rewrite <- Em, Nat.add_succ_r in Ep'.
      rewrite Ep'. cbn [page_no pos_in_page Z.ltb Z.compare]. destruct (Z.eqb_spec (Z.of_nat (length a) + 1) 0); [lia|].
      rewrite Z.add_simpl_r. apply wp_bind. eapply wp_get_info; [done|]. apply wp_bind, wp_assert. split; [apply Z.ltb_lt; lia|].
      apply wp_ret. replace (pg_row_count p - 1) with (Z.of_nat m) by lia. done.
    + assert (pos_of (S (length (rows_of a) + m)) = mk_pos (Z.of_nat (length a)) (Z.of_nat (S m))) as ->.
      { unfold pos_of. rewrite <- Nat.add_succ_r, E. apply pos_in_page_at. lia. }
      cbn [page_no pos_in_page]. destruct (Z.ltb_spec 0 (Z.of_nat (S m))); [|lia]. apply wp_ret.
      replace (Z.of_nat (S m) - 1) with (Z.of_nat m) by lia. done.
Qed.

(** ** Reading *)

Record sane i : Prop := {
  sn_curr : forall n p, ri_curr_page i = Some (n, p) -> vy_run_page_info r n = Some p;
  sn_prev : forall n p, ri_prev_page i = Some (n, p) -> vy_run_page_info r n = Some p;
  sn_oom : true ∉ ri_oom i;
}.
(** Only the pages and the allocations to come have changed. *)
Definition reread i i' : Prop :=
  ri_curr_pos i' = ri_curr_pos i /\ ri_curr i' = ri_curr i /\ ri_search_started i' = ri_search_started i /\
  ri_history i' = ri_history i.

Lemma reread_refl i : reread i i.
Proof. done. Qed.
Lemma reread_trans i1 i2 i3 : reread i1 i2 -> reread i2 i3 -> reread i1 i3.
Proof. intros (? & ? & ? & ?) (? & ? & ? & ?). unfold reread. split_and!; congruence. Qed.

Lemma wp_on_ri {A} (m : oprog A) (Q : A -> itr -> Prop) i :
  wp m (fun c oom => Q c (i <| ri_oom := oom |>)) (ri_oom i) -> wp (on_ri m) Q i.
Proof. unfold wp, on_ri. by destruct (m (ri_oom i)) as [[c oom]|]. Qed.

Lemma page_stmt_spec p m x (Q : option stmt -> list bool -> Prop) oom :
  page_ok p -> pg_rows p !! m = Some x -> true ∉ oom -> (forall oom', true ∉ oom' -> Q (Some x) oom') ->
  wp (vy_page_stmt p (Z.of_nat m)) Q oom.
Proof.
  intros Hp Hm Hq HQ. assert (m < length (pg_rows p))%nat by (by eapply lookup_lt_Some). pose proof (pk_count _ Hp).
  unfold vy_page_stmt. apply wp_bind, wp_assert. split; [lia|]. apply wp_bind, wp_fails; [done|]. intros oom' Hq'.
  rewrite Nat2Z.id, Hm. by apply wp_ret, HQ.
Qed.

Lemma cached_page_spec no p i :
  sane i -> vy_run_page_info r no = Some p ->
  wp (cached_page no) (fun c i' => sane i' /\ reread i i' /\ (c = None \/ c = Some p)) i.
Proof.
  intros Hs Ep. pose proof (sn_curr _ Hs) as S1. pose proof (sn_prev _ Hs) as S2. pose proof (sn_oom _ Hs) as S3. unfold cached_page. apply wp_bind, wp_gets. cbv zeta. unfold id.
  assert (wp (match ri_prev_page i with
    | Some (n, p) => if n =? no then modify (fun i => i <| ri_curr_page := Some (n, p) |> <| ri_prev_page := ri_curr_page i |>);; mret (Some p) else mret None
    | None => mret None end) (fun c i' => sane i' /\ reread i i' /\ (c = None \/ c = Some p)) i) as Hprev.
  { destruct (ri_prev_page i) as [[n q]|] eqn:E2; [|apply wp_ret; split; [exact Hs|split; [done|by left]]].
    destruct (Z.eqb_spec n no) as [->|_]; [|apply wp_ret; split; [exact Hs|split; [done|by left]]].
    pose proof (S2 _ _ eq_refl) as Eq. rewrite Ep in Eq. injection Eq as <-. apply wp_bind, wp_modify, wp_ret.
    split; [|split; [done|by right]]. split; [|intros n q; apply S1|exact S3]. intros n q [= <- <-]. done. }
  destruct (ri_curr_page i) as [[n q]|] eqn:E1; [|exact Hprev]. destruct (Z.eqb_spec n no) as [->|_]; [|exact Hprev].
  pose proof (S1 _ _ eq_refl) as Eq. rewrite Ep in Eq. injection Eq as <-. apply wp_ret. split; [exact Hs|split; [done|by right]].
Qed.

(** A page is loaded, and searched if there is a key. *)
Lemma load_page_spec no p ok ty i (P : Z * bool -> Prop) (Q : option (page * Z * bool) -> itr -> Prop) :
  sane i -> vy_run_page_info r no = Some p ->
  (forall oom, true ∉ oom ->
     wp (match ok with Some k => vy_page_find_key p k ty | None => mret (0, false) end) (fun f oom' => true ∉ oom' /\ P f) oom) ->
  (forall f i', sane i' -> reread i i' -> P f -> Q (Some (p, fst f, snd f)) i') ->
  wp (vy_run_iterator_load_page sl no ok ty) Q i.
Proof.
  intros Hs Ep Hf HQ.
  assert (forall i', sane i' -> reread i i' -> wp (find_in p ok ty) (fun f i2 => sane i2 /\ reread i i2 /\ P f) i') as Hin.
  { intros i' [T1 T2 T3] Hr. specialize (Hf (ri_oom i') T3). unfold find_in. destruct ok as [k|].
    - apply wp_on_ri. eapply wp_mono; [exact Hf|]. intros f oom [Ho HP]. split; [by split|by split].
    - apply wp_ret in Hf as [_ HP]. by apply wp_ret. }
  unfold vy_run_iterator_load_page. apply wp_bind. eapply wp_mono; [by apply (cached_page_spec no p)|].
  intros c i1 (Hs1 & Hr1 & [-> | ->]).
  - unfold read_page. apply wp_bind. eapply wp_get_info; [done|]. apply wp_bind, wp_on_ri. unfold vy_page_new. destruct Hs1 as [T1 T2 T3].
    apply wp_bind, wp_fails; [done|]. intros o1 Q1. apply wp_bind, wp_fails; [done|]. intros o2 Q2. apply wp_fails; [done|]. intros o3 Q3.
    apply wp_bind, wp_on_ri, wp_fails; [done|]. intros o4 Q4. apply wp_bind, wp_on_ri, wp_fails; [done|]. intros o5 Q5.
    apply wp_bind. eapply wp_mono; [apply Hin; [by split|done]|]. intros [pos eq] i2 ([U1 U2 U3] & H3 & H4).
    apply wp_bind, wp_on_ri, wp_fails; [done|]. intros o6 Q6. apply wp_bind, wp_modify, wp_ret. apply (HQ (pos, eq)); [|done|done].
    split; [|exact U1|exact Q6]. intros n q [= <- <-]. done.
  - apply wp_bind. eapply wp_mono; [by apply Hin|]. intros [pos eq] i2 (H2 & H3 & H4). apply wp_ret. by apply (HQ (pos, eq)).
Qed.

Lemma read_spec n x i (Q : option stmt -> itr -> Prop) :
  sane i -> all !! n = Some x -> (forall i', sane i' -> reread i i' -> Q (Some x) i') -> wp (vy_run_iterator_read sl (pos_of n)) Q i.
Proof.
  intros Hs Hx HQ. destruct (pos_of_row n x Hx) as (p & m & Ei & Em & Hm & Hp & _). unfold vy_run_iterator_read. apply wp_bind.
  apply (load_page_spec _ p None ITER_GE i (fun _ => True)); [done|done|by intros oom Ho; apply wp_ret|].
  intros [pos eq] i' [T1 T2 T3] Hr _. rewrite Em. apply wp_on_ri. apply (page_stmt_spec p m x); [done|done|done|].
  intros oom Ho. apply HQ; [by split|done].
Qed.
End Run.
End Pages.
