(* ===== verification/VyRunSearch.v ===== *)
(** * Binary search in a run

    vy_page_find_key, vy_page_index_find_page and vy_run_iterator_search find
    the first row that is not before the key. *)

From stdpp Require Import list sorting.
From S2P Require Import Prelude VyStmt VyVisible VyViews VyMem VyMemSafety VyMemTheorems VyRunReader VyPages.

Open Scope Z_scope.

Section Search.
Context {T O K : Type} `{!Tuples T O, !TuplesLaws T O, !SearchKeys T K, !SearchKeysLaws T O K}.
Abbreviation stmt := (vy_stmt T O).
Abbreviation page := (vy_page T O).
Abbreviation itr := (run_iterator T O).
Implicit Types (e x y : stmt) (l L R : list stmt) (p : page) (a b ps : list page) (i : itr) (k : K) (t : T) (upper : bool).

(** Lower and upper bounds. *)
Definition key_before upper k t : Prop := if upper then tuple_compare_with_key t k <= 0 else tuple_compare_with_key t k < 0.
Definition splits upper k L R : Prop :=
  Forall (fun x => key_before upper k (s_tuple x)) L /\ Forall (fun x => ~ key_before upper k (s_tuple x)) R.
Definition is_upper (ty : iterator_type) : bool := match ty with ITER_GT | ITER_LE => true | _ => false end.
Definition keys_sorted l : Prop := StronglySorted (fun x y => tuple_compare (s_tuple x) (s_tuple y) <= 0) l.

Lemma key_before_le upper k t t' : tuple_compare t t' <= 0 -> key_before upper k t' -> key_before upper k t.
Proof.
  unfold key_before. intros H H'. destruct upper.
  - by eapply key_le.
  - by eapply key_lt.
Qed.
Lemma tree_keys_sorted l : tree_sorted l -> keys_sorted l.
Proof.
  apply StronglySorted_weaken. intros x y H. apply tree_cmp_before in H as [H|[H _]]; [lia|]. unfold same_key in H. lia.
Qed.
Lemma keys_sorted_lookup l m n x y :
  keys_sorted l -> l !! m = Some x -> l !! n = Some y -> (m < n)%nat -> tuple_compare (s_tuple x) (s_tuple y) <= 0.
Proof.
  intros Hs. revert m n. induction Hs as [|z l Hs IH Hf]; intros m n Hm Hn Hlt; [done|].
  destruct n as [|n]; [lia|]. destruct m as [|m]; [|apply (IH m n); [done|done|lia]]. cbn in *. injection Hm as ->.
  rewrite Forall_forall in Hf. eapply Hf, list_elem_of_lookup_2, Hn.
Qed.

(** A sorted list is split by every key. *)
Lemma split_exists upper k l : keys_sorted l -> exists L R, l = L ++ R /\ splits upper k L R.
Proof.
  intros Hs. induction Hs as [|x l Hs IH Hf]; [by exists [], []|]. destruct IH as (L & R & -> & HL & HR).
  assert (Decision (key_before upper k (s_tuple x))) as [Hx|Hx] by (unfold key_before; destruct upper; apply _).
  - exists (x :: L), R. split; [done|]. by split; [constructor|].
  - exists [], (x :: L ++ R). split; [done|]. split; [constructor|]. constructor; [done|].
    eapply Forall_impl; [exact Hf|]. intros y Hy H. by apply Hx, (key_before_le _ _ _ _ Hy).
Qed.

Lemma splits_at upper k L R n x :
  splits upper k L R -> (L ++ R) !! n = Some x -> key_before upper k (s_tuple x) <-> (n < length L)%nat.
Proof.
  intros [HL HR] Hn. apply lookup_app_Some in Hn as [Hn|[Hle Hn]].
  - apply lookup_lt_Some in Hn as Hlt. split; [done|]. intros _. rewrite Forall_lookup in HL. by eapply HL.
  - split; [|lia]. intros H. rewrite Forall_lookup in HR. by apply (HR _ _ Hn) in H.
Qed.

Lemma compare_zero (t t' : T) : tuple_compare t t' = 0 <-> tuple_compare t' t = 0.
Proof. pose proof (compare_flip t t'). pose proof (compare_flip t' t). lia. Qed.

(** ** In a page *)

Definition meets k l (n : nat) : Prop := exists x, l !! n = Some x /\ tuple_compare_with_key (s_tuple x) k = 0.

Lemma find_key_loop_spec p k ty L R : page_ok p -> pg_rows p = L ++ R -> keys_sorted (L ++ R) -> splits (is_upper ty) k L R ->
  forall fuel (beg end_ : nat) equal oom,
  (beg <= length L <= end_)%nat -> (end_ <= length (L ++ R))%nat -> (end_ - beg <= fuel)%nat -> true ∉ oom ->
  (is_upper ty = false -> equal = true <-> meets k (L ++ R) end_) ->
  wp (find_key_loop fuel p k (match ty with ITER_GT | ITER_LE => -1 | _ => 0 end) (Z.of_nat beg) (Z.of_nat end_) equal)
    (fun f oom' => true ∉ oom' /\ fst f = Z.of_nat (length L) /\
       (is_upper ty = false -> snd f = true <-> meets k (L ++ R) (length L))) oom.
Proof.
  intros Hp El Hs Hsp. induction fuel as [|fuel IH]; intros beg end_ equal oom Hb He Hf Hq Heq; cbn [find_key_loop].
  all: destruct (Z.eqb_spec (Z.of_nat beg) (Z.of_nat end_)) as [E|E].
  1, 3: assert (end_ = length L) as -> by lia; apply wp_ret; by split_and!.
  { lia. }
  set (mid := (beg + (end_ - beg) / 2)%nat).
  assert (Z.of_nat beg + (Z.of_nat end_ - Z.of_nat beg) / 2 = Z.of_nat mid) as ->.
  { unfold mid. rewrite Nat2Z.inj_add, Nat2Z.inj_div, Nat2Z.inj_sub by lia. done. }
  assert (beg <= mid < end_)%nat as Hm.
  { unfold mid. pose proof (Nat.div_lt (end_ - beg) 2 ltac:(lia) ltac:(lia)). lia. }
  destruct (lookup_lt_is_Some_2 (L ++ R) mid) as [x Hx]; [lia|]. apply wp_bind, (page_stmt_spec p mid x); [done|by rewrite El|done|].
  intros oom' Hq'. pose proof (splits_at _ _ _ _ _ _ Hsp Hx) as Hmid.
  set (zero_cmp := match ty with ITER_GT | ITER_LE => -1 | _ => 0 end).
  set (cmp := if tuple_compare_with_key (s_tuple x) k =? 0 then zero_cmp else tuple_compare_with_key (s_tuple x) k).
  assert (cmp < 0 <-> key_before (is_upper ty) k (s_tuple x)) as Hcmp.
  { unfold cmp, zero_cmp, key_before. destruct (Z.eqb_spec (tuple_compare_with_key (s_tuple x) k) 0) as [->|]; destruct ty; cbn; lia. }
  assert (is_upper ty = false -> cmp = tuple_compare_with_key (s_tuple x) k) as Hlow.
  { intros Hu. unfold cmp, zero_cmp. destruct (Z.eqb_spec (tuple_compare_with_key (s_tuple x) k) 0) as [->|]; [|done]. by destruct ty. }
  cbv zeta. fold cmp. clearbody cmp. destruct (Z.ltb_spec cmp 0) as [Hlt|Hge].
  - assert (mid < length L)%nat as Hin by (by apply Hmid, Hcmp). replace (Z.of_nat mid + 1) with (Z.of_nat (S mid)) by lia. apply IH; [lia|done|lia|done|].
    intros Hu. destruct (Z.eqb_spec cmp 0); [lia|]. rewrite orb_false_r. by apply Heq.
  - assert (~ (mid < length L)%nat) as Hout by (rewrite <- Hmid, <- Hcmp; lia). apply IH; [lia|lia|lia|done|].
    intros Hu. rewrite orb_true_iff, Z.eqb_eq, Heq, (Hlow Hu) by done. split; [|intros (y & Hy & Ey); right; congruence].
    intros [(y & Hy & Ey)|Ex]; [|by exists x]. exists x. split; [done|].
    pose proof (keys_sorted_lookup _ _ _ _ _ Hs Hx Hy ltac:(lia)) as Hle. rewrite (Hlow Hu) in Hge.
    apply Z.le_antisymm; [|done]. eapply key_le; [exact Hle|]. lia.
Qed.

Lemma find_key_spec p k ty L R oom :
  page_ok p -> pg_rows p = L ++ R -> keys_sorted (L ++ R) -> splits (is_upper ty) k L R -> true ∉ oom ->
  wp (vy_page_find_key p k ty) (fun f oom' => true ∉ oom' /\ fst f = Z.of_nat (length L) /\
       (is_upper ty = false -> snd f = true <-> meets k (L ++ R) (length L))) oom.
Proof.
  intros Hp El Hs Hsp Hq. pose proof (pk_count _ Hp) as Ec. rewrite El in Ec. unfold vy_page_find_key. rewrite Ec, Nat2Z.id.
  apply (find_key_loop_spec p k ty L R Hp El Hs Hsp _ 0 (length (L ++ R))); rewrite ?length_app; try lia; [done|].
  intros _. split; [done|]. intros (x & Hx & _). apply lookup_lt_Some in Hx. rewrite length_app in Hx. lia.
Qed.

(** ** In the index of pages *)

Definition meets_page k ps (n : nat) : Prop := exists q, ps !! n = Some q /\ key_compare_with_tuple k (pg_min_key q) = 0.

Lemma right_before upper k t :
  (if negb upper then key_compare_with_tuple k t <=? 0 else key_compare_with_tuple k t <? 0) = true <-> ~ key_before upper k t.
Proof.
  pose proof (key_flip_lt t k). pose proof (key_flip_gt t k). unfold key_before. destruct upper; cbn; lia.
Qed.

Section Index.
Context (r : vy_run T O K) (k : K) (upper : bool) (A B : list page) (Er : run_pages r = A ++ B).
Context (HA : Forall (fun p => key_before upper k (pg_min_key p)) A) (HB : Forall (fun p => ~ key_before upper k (pg_min_key p)) B).
Context (Hmins : forall m n p q, (A ++ B) !! m = Some p -> (A ++ B) !! n = Some q -> (m < n)%nat ->
  tuple_compare (pg_min_key p) (pg_min_key q) <= 0).

Lemma pages_at n p : (A ++ B) !! n = Some p -> key_before upper k (pg_min_key p) <-> (n < length A)%nat.
Proof.
  intros Hn. apply lookup_app_Some in Hn as [Hn|[Hle Hn]].
  - apply lookup_lt_Some in Hn as Hlt. split; [done|]. intros _. rewrite Forall_lookup in HA. by eapply HA.
  - split; [|lia]. intros H. rewrite Forall_lookup in HB. by apply (HB _ _ Hn) in H.
Qed.

Lemma find_page_loop_spec fuel : forall (lo hi : Z) equal,
  -1 <= lo -> lo + 1 <= Z.of_nat (length A) <= hi -> hi <= Z.of_nat (length (A ++ B)) -> lo + 2 <= hi -> hi - lo <= Z.of_nat fuel ->
  (upper = false -> equal = true <-> meets_page k (A ++ B) (Z.to_nat hi)) ->
  exists equal', find_page_loop fuel r k (negb upper) lo hi equal = Some (Z.of_nat (length A) - 1, Z.of_nat (length A), equal') /\
    (upper = false -> equal' = true <-> meets_page k (A ++ B) (length A)).
Proof.
  induction fuel as [|fuel IH]; intros lo hi equal H1 H2 H3 H4 H5 Heq; [lia|]. cbn [find_page_loop].
  set (mid := lo + Z.quot (hi - lo) 2).
  assert (lo < mid < hi) as Hm.
  { unfold mid. rewrite Z.quot_div_nonneg by lia. pose proof (Z.div_lt (hi - lo) 2). pose proof (Z.div_le_lower_bound (hi - lo) 2 1). lia. }
  destruct (lookup_lt_is_Some_2 (A ++ B) (Z.to_nat mid)) as [p Hp]; [lia|].
  assert (vy_run_page_info r mid = Some p) as ->.
  { unfold vy_run_page_info, page_count. rewrite Er. destruct (Z.leb_spec 0 mid); [|lia].
    by destruct (Z.ltb_spec mid (Z.of_nat (length (A ++ B)))); [|lia]. }
  unfold mbind at 1, option_bind at 1. pose proof (pages_at _ _ Hp) as Hat. pose proof (right_before upper k (pg_min_key p)) as Hr.
  set (cmp := key_compare_with_tuple k (pg_min_key p)) in *.
  set (right := if negb upper then cmp <=? 0 else cmp <? 0) in *. cbv zeta.
  assert (exists lo' hi', (if right then lo else mid) = lo' /\ (if right then mid else hi) = hi' /\ -1 <= lo' /\
    lo' + 1 <= Z.of_nat (length A) <= hi' /\ hi' <= Z.of_nat (length (A ++ B)) /\ lo' < hi' /\ hi' - lo' < hi - lo /\
    (upper = false -> equal || (cmp =? 0) = true <-> meets_page k (A ++ B) (Z.to_nat hi'))) as (lo' & hi' & -> & -> & L1 & L2 & L3 & L4 & L5 & L6).
  { destruct right eqn:Eright.
    - assert (~ (Z.to_nat mid < length A)%nat) as Hout by (rewrite <- Hat; by apply Hr).
      exists lo, mid. split_and!; try done; try lia. intros Hu. rewrite orb_true_iff, Z.eqb_eq, (Heq Hu). split.
      + intros [(q & Hq & Eq)|E0]; [|by exists p]. exists p. split; [done|].
        pose proof (Hmins _ _ _ _ Hp Hq ltac:(lia)) as Hle. unfold right in Eright. rewrite Hu in Eright. cbn in Eright.
        apply Z.leb_le in Eright. apply Z.le_antisymm; [done|]. destruct (Z.lt_ge_cases cmp 0) as [Hlt|]; [|done]. exfalso.
        apply key_flip_zero in Eq. pose proof (key_flip_lt (pg_min_key p) k).
        pose proof (key_le (pg_min_key p) (pg_min_key q) k). unfold cmp in *. lia.
      + intros (q & Hq & Eq). right. unfold cmp. congruence.
    - assert (Z.to_nat mid < length A)%nat as Hin.
      { apply Hat. destruct upper; unfold key_before, right, cmp in *; cbn in *; pose proof (key_flip_lt (pg_min_key p) k); pose proof (key_flip_gt (pg_min_key p) k); lia. }
      exists mid, hi. split_and!; try done; try lia. intros Hu. rewrite <- (Heq Hu). unfold right in Eright. rewrite Hu in Eright.
      cbn in Eright. destruct (Z.eqb_spec cmp 0); [lia|]. by rewrite orb_false_r. }
  destruct (Z.ltb_spec 1 (hi' - lo')).
  - apply IH; try lia. exact L6.
  - assert (lo' = Z.of_nat (length A) - 1 /\ hi' = Z.of_nat (length A)) as [-> ->] by lia.
    eexists. split; [done|]. intros Hu. rewrite (L6 Hu), Nat2Z.id. done.
Qed.

(** The page before the first one that does not start before the key. *)
Lemma find_page_spec ty : A ++ B <> [] -> is_upper ty = upper ->
  exists equal, vy_page_index_find_page r k ty =
    Some (if backward ty then (if (length A =? 0)%nat then page_count r else Z.of_nat (length A) - 1)
          else Z.of_nat (length A - 1), equal) /\
    (upper = false -> equal = true <-> meets_page k (A ++ B) (length A)).
Proof.
  intros Hne Hu. assert (0 < length (A ++ B))%nat as Hpos by (destruct (A ++ B); [done|]; cbn; lia).
  assert (page_count r = Z.of_nat (length (A ++ B))) as Ec by (unfold page_count; by rewrite Er).
  destruct (find_page_loop_spec (S (length (A ++ B))) (-1) (Z.of_nat (length (A ++ B))) false) as (equal & E & He); try lia.
  { rewrite length_app. lia. }
  { intros _. rewrite Nat2Z.id. split; [done|]. intros (q & Hq & _). apply lookup_lt_Some in Hq. lia. }
  exists equal. split; [|done]. unfold vy_page_index_find_page. rewrite Ec. destruct (Z.ltb_spec 0 (Z.of_nat (length (A ++ B)))); [|lia].
  cbn [negb]. rewrite Er.
  assert ((match match ty with ITER_EQ => ITER_GE | _ => ty end with ITER_LT | ITER_GE => true | _ => false end) = negb upper) as ->
    by (rewrite <- Hu; by destruct ty).
  rewrite E. unfold mbind, option_bind.
  assert ((0 <? iterator_direction match ty with ITER_EQ => ITER_GE | _ => ty end) = negb (backward ty)) as -> by (by destruct ty).
  do 2 f_equal. destruct (backward ty); cbn [negb].
  - rewrite andb_false_r. destruct (Z.ltb_spec (Z.of_nat (length A) - 1) 0), (Nat.eqb_spec (length A) 0); done || lia.
  - rewrite andb_true_r. destruct (Z.ltb_spec 0 (Z.of_nat (length A))); lia.
Qed.
End Index.

(** ** In a run *)

Lemma splits_unique upper k L R L' R' : L ++ R = L' ++ R' -> splits upper k L R -> splits upper k L' R' -> L = L' /\ R = R'.
Proof.
  intros E H1 H2. assert (length L = length L') as El; [|by apply app_inj_1].
  destruct (Nat.lt_trichotomy (length L) (length L')) as [Hlt|[Heq|Hlt]]; [|done|]; exfalso.
  - destruct (lookup_lt_is_Some_2 (L' ++ R') (length L)) as [x Hx]; [rewrite length_app; lia|].
    apply (splits_at _ _ _ _ _ _ H2 Hx) in Hlt as Hb. rewrite <- E in Hx. apply (splits_at _ _ _ _ _ _ H1 Hx) in Hb. lia.
  - destruct (lookup_lt_is_Some_2 (L ++ R) (length L')) as [x Hx]; [rewrite length_app; lia|].
    apply (splits_at _ _ _ _ _ _ H1 Hx) in Hlt as Hb. rewrite E in Hx. apply (splits_at _ _ _ _ _ _ H2 Hx) in Hb. lia.
Qed.

Lemma rows_of_elem p ps x : p ∈ ps -> x ∈ pg_rows p -> x ∈ rows_of ps.
Proof.
  intros Hp Hx. unfold rows_of. apply list_elem_of_In, in_concat. exists (pg_rows p). split; [|by apply list_elem_of_In].
  by apply in_map, list_elem_of_In.
Qed.
Lemma rows_of_inv ps x : x ∈ rows_of ps -> exists p, p ∈ ps /\ x ∈ pg_rows p.
Proof.
  unfold rows_of. intros Hx. apply list_elem_of_In, in_concat in Hx as (l & Hl & Hx). apply in_map_iff in Hl as (p & <- & Hp).
  exists p. by rewrite !list_elem_of_In.
Qed.

Section Run.
Context (sl : vy_slice T O K) (Hok : run_ok (sl_run sl)).
Abbreviation r := (sl_run sl).
Abbreviation all := (rows (sl_run sl)).

Lemma all_sorted : keys_sorted all.
Proof. apply tree_keys_sorted, Hok. Qed.
Lemma page_first p : p ∈ run_pages r -> exists x l, pg_rows p = x :: l /\ pg_min_key p = s_tuple x.
Proof. intros Hp. pose proof (rk_pages _ Hok) as Hf. rewrite Forall_forall in Hf. apply (pk_min _ (Hf p Hp)). Qed.

(** The rows of earlier pages come first. *)
Lemma pages_order a p b x y :
  run_pages r = a ++ p :: b -> x ∈ pg_rows p -> y ∈ rows_of b -> tuple_compare (s_tuple x) (s_tuple y) <= 0.
Proof.
  intros E Hx Hy. pose proof all_sorted as Hs. unfold rows in Hs. rewrite E, rows_of_app, rows_of_cons in Hs.
  apply StronglySorted_app_1_r in Hs. by apply (StronglySorted_app_1_elem_of _ _ _ x y Hs).
Qed.
Lemma pages_order_l a p b x y :
  run_pages r = a ++ p :: b -> x ∈ rows_of a -> y ∈ pg_rows p -> tuple_compare (s_tuple x) (s_tuple y) <= 0.
Proof.
  intros E Hx Hy. pose proof all_sorted as Hs. unfold rows in Hs. rewrite E, rows_of_app, rows_of_cons in Hs.
  apply (StronglySorted_app_1_elem_of _ _ _ x y Hs); [done|set_solver].
Qed.
Lemma page_sorted a p b : run_pages r = a ++ p :: b -> keys_sorted (pg_rows p).
Proof.
  intros E. pose proof all_sorted as Hs. unfold rows in Hs. rewrite E, rows_of_app, rows_of_cons in Hs.
  by apply StronglySorted_app_1_r, StronglySorted_app_1_l in Hs.
Qed.
Lemma mins_sorted m n p q : run_pages r !! m = Some p -> run_pages r !! n = Some q -> (m < n)%nat ->
  tuple_compare (pg_min_key p) (pg_min_key q) <= 0.
Proof.
  intros Hp Hq Hlt. destruct (page_first p) as (x & l & Ex & ->); [by eapply list_elem_of_lookup_2|].
  destruct (page_first q) as (y & l' & Ey & ->); [by eapply list_elem_of_lookup_2|].
  pose proof (take_drop_middle _ _ _ Hp) as E. symmetry in E. eapply pages_order; [exact E|rewrite Ex; by left|].
  apply (rows_of_elem q); [|rewrite Ey; by left]. eapply (list_elem_of_lookup_2 _ (n - S m)). rewrite lookup_drop.
  by replace (S m + (n - S m))%nat with n by lia.
Qed.

Lemma split_pages upper k : exists A B, run_pages r = A ++ B /\
  Forall (fun p => key_before upper k (pg_min_key p)) A /\ Forall (fun p => ~ key_before upper k (pg_min_key p)) B.
Proof.
  pose proof mins_sorted as Hm. induction (run_pages r) as [|p ps IH]; [by exists [], []|].
  destruct IH as (A & B & E & HA & HB). { intros m n q q' H1 H2 Hlt. apply (Hm (S m) (S n)); [done|done|lia]. }
  assert (Decision (key_before upper k (pg_min_key p))) as [Hx|Hx] by (unfold key_before; destruct upper; apply _).
  - exists (p :: A), B. rewrite E. split_and!; [done|by constructor|done].
  - exists [], (p :: ps). split_and!; [done|constructor|]. constructor; [done|]. apply Forall_forall. intros q Hq Hb. apply Hx.
    apply list_elem_of_lookup_1 in Hq as [n Hn]. eapply key_before_le; [apply (Hm 0%nat (S n) p q); [done|done|lia]|done].
Qed.

Section Key.
Context (k : K) (upper : bool) (A B : list page) (Er : run_pages r = A ++ B).
Context (HA : Forall (fun p => key_before upper k (pg_min_key p)) A) (HB : Forall (fun p => ~ key_before upper k (pg_min_key p)) B).

Lemma later_pages : Forall (fun x => ~ key_before upper k (s_tuple x)) (rows_of B).
Proof.
  apply Forall_forall. intros x Hx Hb. apply rows_of_inv in Hx as (p & Hp & Hx). rewrite Forall_forall in HB. apply (HB p Hp).
  destruct (page_first p) as (y & l & Ey & ->); [rewrite Er; set_solver|]. eapply key_before_le; [|exact Hb].
  apply list_elem_of_split in Hp as (b1 & b2 & ->).
  assert (keys_sorted (pg_rows p)) as Hs by (apply (page_sorted (A ++ b1) p b2); by rewrite Er, <- app_assoc).
  rewrite Ey in Hs, Hx. apply elem_of_cons in Hx as [->|Hx]; [rewrite compare_refl; lia|].
  apply StronglySorted_inv in Hs as [_ Hf]. rewrite Forall_forall in Hf. by apply Hf.
Qed.

Context (L R : list stmt) (El : all = L ++ R) (Hsp : splits upper k L R).

(** The page where the bound is. *)
Lemma last_page a p : A = a ++ [p] -> exists L' R', pg_rows p = L' ++ R' /\ L = rows_of a ++ L' /\ R = R' ++ rows_of B /\
  splits upper k L' R'.
Proof.
  pose proof later_pages as Hlater. intros ->. assert (run_pages r = a ++ p :: B) as E by (by rewrite Er, <- app_assoc).
  destruct (split_exists upper k (pg_rows p) (page_sorted _ _ _ E)) as (L' & R' & Ep & [HL' HR']). exists L', R'.
  assert (splits upper k (rows_of a ++ L') (R' ++ rows_of B)) as Hsp'.
  { split; apply Forall_app; split; [|done|done|exact Hlater].
    apply Forall_app in HA as [_ Hp]. apply Forall_inv in Hp. destruct (page_first p) as (y & l & Ey & Em); [rewrite E; set_solver|].
    rewrite Em in Hp. apply Forall_forall. intros x Hx. eapply key_before_le; [|exact Hp].
    eapply pages_order_l; [exact E|done|rewrite Ey; by left]. }
  destruct (splits_unique upper k L R (rows_of a ++ L') (R' ++ rows_of B)) as [-> ->]; try done.
  rewrite <- El. unfold rows. rewrite E, rows_of_app, rows_of_cons, Ep, <- !app_assoc. done.
Qed.
Lemma no_page : A = [] -> L = [].
Proof.
  pose proof later_pages as Hlater. intros ->. destruct (splits_unique upper k L R [] all) as [-> _]; try done.
  split; [constructor|]. unfold rows. by rewrite Er.
Qed.
End Key.

Lemma lookup_in_page a p b n : run_pages r = a ++ p :: b -> (n < length (pg_rows p))%nat ->
  all !! (length (rows_of a) + n)%nat = pg_rows p !! n.
Proof.
  intros E Hn. unfold rows. rewrite E, rows_of_app, rows_of_cons, lookup_app_r by lia.
  rewrite lookup_app_l by lia. f_equal. lia.
Qed.
Lemma meets_next_page k a p b : run_pages r = a ++ p :: b ->
  meets_page k (run_pages r) (S (length a)) <-> meets k all (length (rows_of a) + length (pg_rows p)).
Proof.
  intros E. unfold meets_page, meets. assert (run_pages r !! S (length a) = head b) as ->.
  { rewrite E, lookup_app_r by lia. replace (S (length a) - length a)%nat with 1%nat by lia. by destruct b. }
  destruct b as [|q b]; cbn [head].
  - split; [by intros (? & ? & _)|]. intros (x & Hx & _). apply lookup_lt_Some in Hx. unfold rows in Hx.
    rewrite E, rows_of_app, length_app in Hx. cbn in Hx. rewrite app_nil_r in Hx. lia.
  - assert (run_pages r = (a ++ [p]) ++ q :: b) as E2 by (by rewrite <- app_assoc).
    destruct (page_of_split sl Hok _ _ _ E2) as (_ & _ & Hq). destruct (page_first q) as (y & l & Ey & Em); [rewrite E; set_solver|].
    pose proof (lookup_in_page _ _ _ 0 E2 Hq) as Hl. rewrite Nat.add_0_r, rows_of_app, rows_of_cons, !length_app in Hl.
    change (length (rows_of [])) with 0%nat in Hl. rewrite Nat.add_0_r, Ey in Hl. cbn in Hl. cbn. split.
    + intros (? & [= <-] & H0). exists y. split; [done|]. rewrite Em in H0. by apply key_flip_zero.
    + intros (x & Hx & H0). exists q. split; [done|]. rewrite Em, key_flip_zero. congruence.
Qed.

Record search_result (ty : iterator_type) k L (res : Z * run_pos * bool) : Prop := {
  sr_rc : fst (fst res) = if backward ty && (length L =? 0)%nat then 1 else 0;
  sr_pos : fst (fst res) = 0 -> snd (fst res) = pos_of sl (length L);
  sr_equal : ty = ITER_EQ -> snd res = true <-> meets k all (length L);
}.

(** The page that is loaded, and the bound in it. *)
Lemma search_in_page ty k a p b L' R' equal i (Q : Z * run_pos * bool -> itr -> Prop) :
  sane sl i -> run_pages r = a ++ p :: b -> pg_rows p = L' ++ R' -> splits (is_upper ty) k L' R' ->
  vy_page_index_find_page r k ty = Some (Z.of_nat (length a), equal) ->
  (backward ty && (length (rows_of a ++ L') =? 0)%nat = false) ->
  (R' = [] -> is_upper ty = false -> equal = true <-> meets_page k (run_pages r) (S (length a))) ->
  (forall res i', sane sl i' -> reread i i' -> search_result ty k (rows_of a ++ L') res -> Q res i') ->
  wp (vy_run_iterator_search sl ty k) Q i.
Proof.
  intros Hs E Ep Hsp Ef Hnb Heq HQ. destruct (page_of_split sl Hok _ _ _ E) as (Ei & Hpk & Hpos). pose proof (pk_count _ Hpk) as Ec.
  unfold vy_run_iterator_search. rewrite Ef.
  destruct (Z.eqb_spec (Z.of_nat (length a)) (page_count r)) as [E0|_].
  { unfold page_count in E0. rewrite E, length_app in E0. cbn in E0. lia. }
  apply wp_bind. assert (keys_sorted (L' ++ R')) as Hks by (rewrite <- Ep; by eapply page_sorted).
  eapply (load_page_spec sl _ p (Some k) ty i); [done|done| |].
  { intros oom Ho. by apply (find_key_spec p k ty L' R'). }
  intros [pos eq] i' Hs' Hr (Epos & Heq2). cbn [fst snd] in *. subst pos. rewrite length_app in Hnb.
  assert (ty = ITER_EQ -> is_upper ty = false) as Hlow by (by intros ->).
  destruct (Z.eqb_spec (Z.of_nat (length L')) (pg_row_count p)) as [E1|E1]; apply wp_ret, HQ; try done.
  - assert (R' = []) as ->. { rewrite Ep, length_app in Ec. destruct R'; [done|]. cbn in Ec. lia. }
    rewrite app_nil_r in Ep. split; cbn [fst snd]; rewrite !length_app, <- Ep, ?Hnb.
    + by rewrite Ep, Hnb.
    + intros _. by rewrite (pos_of_page_end sl Hok a p b E).
    + intros Ht. rewrite (Heq eq_refl (Hlow Ht)). by apply (meets_next_page k a p b).
  - assert (length L' < length (pg_rows p))%nat as Hlt by (rewrite Ep, length_app in *; lia).
    split; cbn [fst snd]; rewrite length_app.
    + by rewrite Hnb.
    + intros _. unfold pos_of. rewrite E. by rewrite pos_in_page_at.
    + intros Ht. rewrite (Heq2 (Hlow Ht)). unfold meets. by rewrite (lookup_in_page a p b) by done; rewrite Ep.
Qed.

Lemma search_spec ty k L R i (Q : Z * run_pos * bool -> itr -> Prop) :
  sane sl i -> all = L ++ R -> splits (is_upper ty) k L R ->
  (forall res i', sane sl i' -> reread i i' -> search_result ty k L res -> Q res i') -> wp (vy_run_iterator_search sl ty k) Q i.
Proof.
  intros Hs El Hsp HQ. destruct (split_pages (is_upper ty) k) as (A & B & Er & HA & HB).
  assert (A ++ B <> []) as Hne by (rewrite <- Er; apply Hok).
  destruct (find_page_spec r k (is_upper ty) A B Er HA HB) with (ty := ty) as (equal & Ef & Heq); try done.
  { rewrite <- Er. apply mins_sorted. }
  destruct A as [|p a _] using rev_ind.
  - pose proof (no_page k (is_upper ty) [] B Er HA HB L R El Hsp eq_refl) as ->. cbn [length app] in *.
    pose proof (later_pages k (is_upper ty) [] B Er HA HB) as Hlater. destruct (backward ty) eqn:Eb; cbn [Nat.eqb Nat.sub] in Ef.
    + unfold vy_run_iterator_search. rewrite Ef, Z.eqb_refl. apply wp_ret, HQ; [done|done|]. split; [by rewrite Eb|done|].
      intros ->. done.
    + destruct B as [|p b]; [done|]. destruct (page_of_split sl Hok [] p b Er) as (_ & _ & Hpos).
      eapply (search_in_page ty k [] p b [] (pg_rows p)); [done|done|done| |exact Ef|by rewrite Eb| |by cbn].
      * split; [constructor|]. rewrite rows_of_cons in Hlater. by apply Forall_app in Hlater as [? _].
      * intros E0. rewrite E0 in Hpos. cbn in Hpos. lia.
  - destruct (last_page k (is_upper ty) (a ++ [p]) B Er HA HB L R El Hsp a p eq_refl) as (L' & R' & Ep & -> & -> & Hsp').
    rewrite length_app in Ef, Heq. cbn [length] in Ef, Heq. rewrite <- Er in Heq.
    assert (run_pages r = a ++ p :: B) as E by (by rewrite Er, <- app_assoc).
    assert (L' <> []) as HL'.
    { intros ->. apply Forall_app in HA as [_ Hp]. apply Forall_inv in Hp. destruct (page_first p) as (y & l & Ey & Em); [rewrite E; set_solver|].
      rewrite Em in Hp. destruct Hsp' as [_ HR']. cbn in Ep. rewrite <- Ep, Ey in HR'. by apply Forall_inv in HR'. }
    eapply (search_in_page ty k a p B L' R' equal); [done|done|done|done| | | |done].
    + rewrite Ef. f_equal. f_equal. destruct (Nat.eqb_spec (length a + 1) 0); [lia|]. destruct (backward ty); lia.
    + rewrite length_app. destruct (Nat.eqb_spec (length (rows_of a) + length L') 0) as [E0|]; [|by rewrite andb_false_r].
      destruct L'; [done|]. cbn in E0. lia.
    + intros _ Hu. rewrite (Heq Hu), Nat.add_1_r. done.
Qed.
End Run.
End Search.
