(* ===== verification/VyRunScan.v ===== *)
(** * The iterator over a run

    Repeated calls of vy_run_iterator_next read the statements of a slice as a
    memory level with the same statements would be read.  A reverse iterator
    needs more than that: no statement that readers skip, and a run that does
    not end with an UPSERT. *)

From stdpp Require Import list sorting.
From S2P Require Import Prelude VyStmt VyVisible VyViews VyMem VyMemSafety VyMemTheorems VyRunReader VyPages VyRunSearch.

Open Scope Z_scope.

Section Scan.
Context {T O K : Type} `{!Tuples T O, !TuplesLaws T O, !SearchKeys T K, !SearchKeysLaws T O K}.
Abbreviation stmt := (vy_stmt T O).
Abbreviation itr := (run_iterator T O).
Implicit Types (e x y : stmt) (l g past path : list stmt) (gs todo out : list (list stmt)) (i : itr) (k : K).

Context (sl : vy_slice T O K) (ty : iterator_type) (key : option K) (vlsn : Z) (Hok : run_ok (sl_run sl)).
Abbreviation r := (sl_run sl).
Abbreviation all := (rows (sl_run sl)).
Abbreviation hid := (hidden vlsn).
Abbreviation back := (backward ty).

(** ** Walking along the rows *)

(** [e] with the rows behind and ahead of it, in the direction of the
    iterator. *)
Definition on_path past e path : Prop := all = if back then rev path ++ e :: past else rev past ++ e :: path.
Definition path_pos past path : run_pos := pos_of sl (if back then length path else length past).
Record walks i past e path : Prop := {
  wk_path : on_path past e path;
  wk_pos : ri_curr_pos i = path_pos past path;
  wk_curr : ri_curr i = Some e;
}.

Lemma on_path_lookup past e path : on_path past e path -> all !! (if back then length path else length past) = Some e.
Proof.
  unfold on_path. intros ->. destruct back; [rewrite <- (length_rev path)|rewrite <- (length_rev past)]; by apply list_lookup_middle.
Qed.
Lemma on_path_next past e y path : on_path past e (y :: path) -> on_path (e :: past) y path.
Proof. unfold on_path. intros ->. destruct back; cbn [rev]; by rewrite <- app_assoc. Qed.

Lemma next_pos_path i past e path (Q : Z * run_pos -> itr -> Prop) :
  on_path past e path -> ri_curr_pos i = path_pos past path ->
  (path = [] -> forall pos, Q (1, pos) i) ->
  (forall y path', path = y :: path' -> Q (0, path_pos (e :: past) path') i) ->
  wp (vy_run_iterator_next_pos sl ty) Q i.
Proof.
  intros Hp Hpos H1 H2. pose proof (on_path_lookup _ _ _ Hp) as Hl. unfold path_pos in *. destruct back eqn:Eb.
  - eapply (next_pos_backward sl Hok); [done|exact Hpos|apply lookup_lt_Some in Hl; lia|]. destruct path as [|y path]; cbn.
    + by apply H1.
    + by apply (H2 y path).
  - eapply (next_pos_forward sl Hok); [done|exact Hpos|exact Hl|].
    assert (length all = S (length past) + length path)%nat as El by (unfold on_path in Hp; rewrite Eb in Hp; rewrite Hp, length_app, length_rev; cbn; lia).
    destruct (Nat.eqb_spec (S (length past)) (length all)) as [E|E].
    + apply H1. destruct path; [done|]. cbn in El. lia.
    + destruct path as [|y path]; [cbn in El; lia|]. by apply (H2 y path).
Qed.
Lemma read_path i past e path (Q : option stmt -> itr -> Prop) :
  sane sl i -> on_path past e path -> (forall i', sane sl i' -> reread i i' -> Q (Some e) i') ->
  wp (vy_run_iterator_read sl (path_pos past path)) Q i.
Proof. intros Hs Hp HQ. eapply (read_spec sl Hok); [done|by apply on_path_lookup|done]. Qed.

(** What stays as it was. *)
Definition frame i i' : Prop := ri_search_started i' = ri_search_started i /\ ri_history i' = ri_history i.
Lemma frame_trans i1 i2 i3 : frame i1 i2 -> frame i2 i3 -> frame i1 i3.
Proof. intros [? ?] [? ?]. split; congruence. Qed.
Lemma reread_frame i i' : reread i i' -> frame i i'.
Proof. by intros (_ & _ & ? & ?). Qed.
Lemma sane_curr i c : sane sl i -> sane sl (i <| ri_curr := c |>).
Proof. by intros []. Qed.
Lemma sane_pos i p : sane sl i -> sane sl (i <| ri_curr_pos := p |>).
Proof. by intros []. Qed.

Lemma wp_get_curr i e (Q : stmt -> itr -> Prop) : ri_curr i = Some e -> Q e i -> wp get_ri_curr Q i.
Proof. intros E H. unfold wp, get_ri_curr. by rewrite E. Qed.

(** Rows at which an EQ iterator stops. *)
Definition eq_stops x : bool := bool_decide (ty = ITER_EQ) && mismatch key x.

(** ** Skipping what the read view does not see *)

Definition skipped_to past e path (rc : Z) i' : Prop :=
  (rc = 0 /\ exists hs x path', e :: path = hs ++ x :: path' /\ Forall (fun h => hid h = true) hs /\ hid x = false /\
     Forall (fun y => eq_stops y = false) (tail (hs ++ [x])) /\ walks i' (rev hs ++ past) x path') \/
  (rc = 1 /\ exists hs rest, e :: path = hs ++ rest /\ hs <> [] /\ Forall (fun h => hid h = true) hs /\
     match rest with [] => True | y :: _ => eq_stops y = true end).

Lemma skip_invisible_spec fuel : forall i past e path,
  sane sl i -> walks i past e path -> (length path < fuel)%nat ->
  wp (skip_invisible sl ty key vlsn fuel) (fun rc i' => sane sl i' /\ frame i i' /\ skipped_to past e path rc i') i.
Proof.
  induction fuel as [|fuel IH]; intros i past e path Hs Hw Hf; [lia|]. cbn [skip_invisible]. apply wp_bind.
  eapply wp_get_curr; [apply Hw|]. change (run_hidden vlsn e) with (hid e). destruct (hid e) eqn:Ee.
  2: { apply wp_ret. split; [done|]. split; [done|]. left. split; [done|]. by exists [], e, path. }
  apply wp_bind. destruct Hw as [Hp Hpos Hc]. eapply next_pos_path; [done|done| |].
  - intros -> pos. apply wp_bind, wp_modify, wp_ret. split; [by apply sane_pos|]. split; [done|]. right. split; [done|].
    exists [e], []. split_and!; [done|done|by repeat constructor|done].
  - intros y path' ->. apply wp_bind, wp_modify, wp_bind, wp_modify, wp_bind. apply on_path_next in Hp as Hp'.
    eapply (read_path _ (e :: past) y path'); [by apply sane_curr, sane_pos|done|]. intros i1 Hs1 (R1 & R2 & R3 & R4).
    apply wp_bind, wp_modify. fold (eq_stops y). destruct (eq_stops y) eqn:Ey.
    + apply wp_ret. split; [by apply sane_curr|]. split; [by split|]. right. split; [done|]. exists [e], (y :: path').
      split_and!; [done|done|by repeat constructor|done].
    + eapply wp_mono; [apply (IH _ (e :: past) y path'); [by apply sane_curr| |cbn in Hf; lia]|].
      * split; [done| |done]. cbn. by rewrite R1.
      * intros rc i2 (Hs2 & Hf2 & Hk). split; [done|]. split; [eapply frame_trans; [|exact Hf2]; by split|].
        destruct Hk as [(-> & hs & x & p & E & Hh & Hx & Hst & Hw)|(-> & hs & rest & E & Hne & Hh & Hr)]; [left|right]; (split; [done|]).
        -- exists (e :: hs), x, p. split_and!; [by rewrite E|by constructor|done| |cbn; by rewrite <- app_assoc].
           cbn [tail app]. assert (exists tl, hs ++ [x] = y :: tl) as [tl Etl].
           { destruct hs as [|h hs]; cbn in E |- *; injection E as <- _; by eexists. }
           rewrite Etl in Hst |- *. by constructor.
        -- exists (e :: hs), rest. split_and!; [by rewrite E|done|by constructor|done].
Qed.

(** From the oldest visible statement of a key to the newest, backward. *)
Lemma find_newest_spec fuel : forall i past e path,
  sane sl i -> walks i past e path -> (length path < fuel)%nat ->
  wp (find_newest sl ty vlsn fuel) (fun rc i' => rc = 0 /\ sane sl i' /\ frame i i' /\ exists vs x rest,
    e :: path = vs ++ x :: rest /\ walks i' (rev vs ++ past) x rest /\
    Forall (fun y => hid y = false /\ same_key (s_tuple e) (s_tuple y)) (tail (vs ++ [x])) /\
    match rest with [] => True | y :: _ => hid y = true \/ tuple_compare (s_tuple x) (s_tuple y) <> 0 end) i.
Proof.
  induction fuel as [|fuel IH]; intros i past e path Hs Hw Hf; [lia|]. cbn [find_newest]. apply wp_bind.
  destruct Hw as [Hp Hpos Hc]. eapply next_pos_path; [done|done| |].
  - intros -> pos. apply wp_ret. split; [done|]. split; [done|]. split; [done|]. exists [], e, []. by split_and!.
  - intros y path' ->. cbn [Z.eqb negb]. apply wp_bind. apply on_path_next in Hp as Hp'.
    eapply (read_path _ (e :: past) y path'); [done|done|]. intros i1 Hs1 (R1 & R2 & R3 & R4).
    apply wp_bind. eapply wp_get_curr; [by rewrite R2|]. change (run_hidden vlsn y) with (hid y).
    destruct (hid y) eqn:Ey; [|destruct (Z.eqb_spec (tuple_compare (s_tuple e) (s_tuple y)) 0) as [E0|E0]]; cbn [orb negb].
    1, 3: apply wp_ret; split; [done|]; split; [done|]; split; [by split|]; exists [], e, (y :: path');
      split; [done|]; split; [split; [done|by rewrite R1|by rewrite R2]|]; split; [constructor|]; by (left + right).
    apply wp_bind, wp_modify. eapply wp_mono; [apply (IH _ (e :: past) y path')|].
    + by apply sane_pos, sane_curr.
    + by split.
    + cbn in Hf. lia.
    + intros rc i2 (-> & Hs2 & Hf2 & vs & x & rest & E & Hw2 & Hv & Hr). split; [done|]. split; [done|].
      split; [eapply frame_trans; [|exact Hf2]; by split|]. exists (e :: vs), x, rest. rewrite E. split; [done|].
      split; [cbn; by rewrite <- app_assoc|]. split; [|done]. cbn [tail app].
      assert (exists tl, vs ++ [x] = y :: tl) as [tl Etl].
      { destruct vs as [|v vs]; cbn in E |- *; injection E as <- _; by eexists. }
      rewrite Etl in Hv |- *. cbn in Hv. constructor; [done|]. eapply Forall_impl; [exact Hv|]. intros z [? Hz]. split; [done|].
      etransitivity; [exact E0|exact Hz].
Qed.

(** The first row of another key. *)
Lemma run_next_key_loop_spec fuel : forall i past e0 e path,
  sane sl i -> on_path past e path -> ri_curr_pos i = path_pos past path -> ri_curr i = Some e0 ->
  same_key (s_tuple e0) (s_tuple e) -> (length path < fuel)%nat ->
  wp (next_key_loop sl ty fuel) (fun res i' => fst res = 0 /\ sane sl i' /\ frame i i' /\ ri_curr i' = Some e0 /\
    exists hs, Forall (fun y => same_key (s_tuple e0) (s_tuple y)) hs /\
    match snd res with
    | None => path = hs
    | Some y => exists path', path = hs ++ y :: path' /\ ~ same_key (s_tuple e0) (s_tuple y) /\
        on_path (rev hs ++ e :: past) y path' /\ ri_curr_pos i' = path_pos (rev hs ++ e :: past) path'
    end) i.
Proof.
  induction fuel as [|fuel IH]; intros i past e0 e path Hs Hp Hpos Hc Hk Hf; [lia|]. cbn [next_key_loop]. apply wp_bind.
  eapply next_pos_path; [done|done| |].
  - intros -> pos. apply wp_bind, wp_modify, wp_ret. split; [done|]. split; [by apply sane_pos|]. split; [done|]. split; [done|].
    by exists [].
  - intros y path' ->. apply wp_bind, wp_modify, wp_bind. apply on_path_next in Hp as Hp'.
    eapply (read_path _ (e :: past) y path'); [by apply sane_pos|done|]. intros i1 Hs1 (R1 & R2 & R3 & R4).
    apply wp_bind. eapply wp_get_curr; [by rewrite R2|]. destruct (Z.eqb_spec (tuple_compare (s_tuple e0) (s_tuple y)) 0) as [E0|E0].
    + eapply wp_mono; [apply (IH _ (e :: past) e0 y path'); try done; [by rewrite R2|cbn in Hf; lia]|].
      intros [rc res] i2 (-> & Hs2 & Hf2 & Hc2 & hs & Hh & H). split; [done|]. split; [done|].
      split; [eapply frame_trans; [|exact Hf2]; by split|]. split; [done|]. exists (y :: hs). split; [by constructor|].
      destruct res as [z|]; cbn [snd] in *; [|by rewrite H]. destruct H as (p & -> & Hn & H1 & H2). exists p. cbn [rev app].
      rewrite <- !app_assoc. done.
    + apply wp_ret. split; [done|]. split; [done|]. split; [by split|]. split; [by rewrite R2|]. exists []. split; [constructor|].
      exists path'. split_and!; [done|done|done|by rewrite R1].
Qed.

(** ** The keys ahead *)

Context (gs : list (list stmt)) (Hgs : grouped gs) (Hall : all = concat gs).

Definition orient g : list stmt := if back then rev g else g.
Definition path_of todo : list stmt := concat (map orient todo).

Lemma path_of_app a b : path_of (a ++ b) = path_of a ++ path_of b.
Proof. unfold path_of. by rewrite map_app, concat_app. Qed.
Lemma path_of_cons g todo : path_of (g :: todo) = orient g ++ path_of todo.
Proof. done. Qed.
Lemma orient_perm g : orient g ≡ₚ g.
Proof. unfold orient. destruct back; [symmetry; apply Permutation_rev|done]. Qed.
Lemma path_of_perm todo : path_of todo ≡ₚ concat todo.
Proof. induction todo as [|g todo IH]; [done|]. rewrite path_of_cons. cbn. by rewrite orient_perm, IH. Qed.

Definition out_of_slice (x : stmt) : bool := outside sl ty x.
Lemma eq_stops_same x y : same_key (s_tuple x) (s_tuple y) -> eq_stops x = eq_stops y.
Proof.
  intros Hk. unfold eq_stops, mismatch. destruct key as [k|]; [|done]. do 2 f_equal. apply eq_true_iff_eq. rewrite !Z.eqb_eq.
  by apply same_key_compare.
Qed.
Lemma same_key_sign (a b c : T) : same_key a b -> (tuple_compare a c < 0 <-> tuple_compare b c < 0) /\ (0 <= tuple_compare a c <-> 0 <= tuple_compare b c).
Proof.
  intros Hk. unfold same_key in Hk. apply compare_zero in Hk as Hk'. pose proof (compare_le_lt_trans a b c).
  pose proof (compare_le_lt_trans b a c). lia.
Qed.
Lemma out_of_slice_same x y : same_key (s_tuple x) (s_tuple y) -> out_of_slice x = out_of_slice y.
Proof.
  intros Hk. unfold out_of_slice, outside. destruct back.
  - destruct (sl_begin sl) as [b|]; [|done]. apply eq_true_iff_eq. rewrite !Z.ltb_lt. by apply same_key_sign.
  - destruct (sl_end sl) as [b|]; [|done]. apply eq_true_iff_eq. rewrite !Z.leb_le. by apply same_key_sign.
Qed.
Lemma group_agrees (f : stmt -> bool) g : (forall x y, same_key (s_tuple x) (s_tuple y) -> f x = f y) -> key_group g ->
  Forall (fun x => f x = first_of g f) g.
Proof.
  intros Hf [_ Hs _]. apply Forall_forall. intros x Hx. destruct g as [|y g]; [by apply elem_of_nil in Hx|]. cbn.
  apply Hf, Hs; [done|by left].
Qed.
Lemma groups_agree (f : stmt -> bool) (b : bool) todo :
  (forall x y, same_key (s_tuple x) (s_tuple y) -> f x = f y) -> Forall key_group todo ->
  Forall (fun g => first_of g f = b) todo -> Forall (fun x => f x = b) (path_of todo).
Proof.
  intros Hf Hk Ht. rewrite path_of_perm. induction Ht as [|g todo Hg Ht IH]; [constructor|].
  inversion Hk as [|?? K1 K2]; subst. cbn. apply Forall_app_2; [|by apply IH]. by apply group_agrees.
Qed.

(** Where the keys to be read end: at the end of the rows, at a key at which an
    EQ iterator stops, or behind the slice. *)
Definition done_with out : Prop :=
  match out with [] => True | g :: _ => first_of g eq_stops = true \/ Forall (fun g => first_of g out_of_slice = true) out end.
Definition to_read todo : Prop :=
  Forall (fun g => first_of g eq_stops = false /\ first_of g out_of_slice = false) todo.

Lemma hidden_path todo : Forall (fun g => seen vlsn g = []) todo -> Forall (fun x => hid x = true) (path_of todo).
Proof. intros Ht. rewrite path_of_perm. by apply hidden_groups. Qed.
Lemma seen_orient g : seen vlsn g <> [] ->
  exists a x b, orient g = a ++ x :: b /\ Forall (fun h => hid h = true) a /\ hid x = false.
Proof.
  intros Hg. unfold orient. destruct back.
  - destruct (seen_last vlsn g) as [[_ ?]|(h1 & x & h2 & -> & Hh & Hx)]; [done|]. exists (rev h2), x, (rev h1).
    rewrite rev_app_distr. cbn. rewrite <- app_assoc. split_and!; [done|by apply Forall_rev|done].
  - destruct (seen_first vlsn g) as [[_ ?]|(h1 & x & h2 & -> & Hh & Hx)]; [done|]. by exists h1, x, h2.
Qed.
Lemma first_visible l1 x l2 l1' x' l2' :
  l1 ++ x :: l2 = l1' ++ x' :: l2' -> Forall (fun h => hid h = true) l1 -> hid x = false ->
  Forall (fun h => hid h = true) l1' -> hid x' = false -> l1 = l1' /\ x = x' /\ l2 = l2'.
Proof.
  intros E H1 Hx. revert l1' E. induction H1 as [|h l1 Hh H1 IH]; intros l1' E H1' Hx'; destruct H1' as [|h' l1' Hh' H1'].
  - by injection E as -> ->.
  - injection E as -> _. congruence.
  - injection E as -> _. congruence.
  - injection E as -> E. destruct (IH l1' E H1' Hx') as (-> & -> & ->). done.
Qed.

(** What is found of the keys [todo]. *)
Definition found_in past todo out (rc : Z) i' : Prop :=
  match next_seen vlsn todo with
  | Some (g, later) => rc = 0 /\ exists prev a x b, todo = prev ++ g :: later /\ orient g = a ++ x :: b /\
      Forall (fun h => hid h = true) a /\ hid x = false /\
      walks i' (rev (path_of prev ++ a) ++ past) x (b ++ path_of (later ++ out))
  | None => rc = 1 \/ rc = 0 /\ exists past x path, walks i' past x path /\ out_of_slice x = true
  end.

Lemma skipped_found past e path todo out rc i' :
  e :: path = path_of (todo ++ out) -> Forall key_group (todo ++ out) -> to_read todo -> done_with out -> eq_stops e = false ->
  skipped_to past e path rc i' -> found_in past todo out rc i'.
Proof.
  intros Ep Hk Ht Hd He Hsk. apply Forall_app in Hk as [Hk Hko].
  assert (Forall (fun x => eq_stops x = false) (path_of todo)) as Hst.
  { apply groups_agree; [apply eq_stops_same|done|]. eapply Forall_impl; [exact Ht|]. by intros g [? _]. }
  rewrite path_of_app in Ep. unfold found_in. pose proof (next_seen_split vlsn todo) as Hn.
  destruct (next_seen vlsn todo) as [[g later]|].
  - destruct Hn as (prev & -> & Hprev & Hg). destruct (seen_orient g Hg) as (a & x & b & Eg & Ha & Hx).
    assert (path_of (prev ++ g :: later) ++ path_of out = (path_of prev ++ a) ++ x :: b ++ path_of (later ++ out)) as Epath.
    { rewrite !path_of_app, path_of_cons, Eg, <- !app_assoc. done. }
    assert (Forall (fun h => hid h = true) (path_of prev ++ a)) as Hh by (apply Forall_app_2; [by apply hidden_path|done]).
    destruct Hsk as [(-> & hs & x' & path' & E & Hhs & Hx' & _ & Hw)|(_ & hs & rest & E & Hne & Hhs & Hr)].
    + split; [done|]. exists prev, a, x, b. split_and!; try done. rewrite E, Epath in Ep.
      destruct (first_visible _ _ _ _ _ _ Ep Hhs Hx' Hh Hx) as (-> & -> & ->). done.
    + exfalso. rewrite E, Epath in Ep. rewrite Forall_forall in Hst.
      assert (forall z, z ∈ (path_of prev ++ a) ++ [x] -> eq_stops z = false) as Hz.
      { intros z Hz. apply Hst. rewrite path_of_app, path_of_cons, Eg. set_solver. }
      apply app_eq_inv in Ep as [(l & E1 & E2)|(l & E1 & E2)].
      * destruct l as [|z l]; [|injection E2 as <- _].
        -- cbn in E2. subst rest. rewrite (Hz x) in Hr by set_solver. done.
        -- rewrite E1, Forall_app, Forall_cons in Hhs. destruct Hhs as (_ & Hx' & _). congruence.
      * subst rest. destruct l as [|z l]; cbn in Hr.
        -- rewrite (Hz x) in Hr by set_solver. done.
        -- rewrite (Hz z) in Hr by (rewrite E1; set_solver). done.
  - pose proof (hidden_path todo Hn) as Hh. destruct Hsk as [(-> & hs & x & path' & E & Hhs & Hx & Hs & Hw)|(-> & _)]; [right|by left].
    split; [done|]. exists (rev hs ++ past), x, path'. split; [done|]. rewrite E in Ep.
    assert (exists l, hs = path_of todo ++ l /\ path_of out = l ++ x :: path') as (l & Ehs & Eo).
    { apply app_eq_inv in Ep as [(l & E1 & E2)|(l & E1 & E2)]; [by exists l|]. destruct l as [|z l]; cbn in E2.
      - exists []. rewrite app_nil_r in *. by rewrite E1.
      - injection E2 as -> _. rewrite E1, Forall_app, Forall_cons in Hh. destruct Hh as (_ & Hz & _). congruence. }
    assert (x ∈ path_of out) as Hin by (rewrite Eo; set_solver).
    destruct out as [|g out]; [by apply elem_of_nil in Hin|]. destruct Hd as [Hstop|Hout].
    + exfalso. assert (exists y, y ∈ hs ++ [x] /\ y ∈ g) as (y & Hy & Hyg).
      { pose proof (Forall_inv Hko) as [Hgne _ _]. destruct (orient g) as [|y g'] eqn:Eg.
        - exfalso. apply Hgne. apply Permutation_nil. rewrite <- Eg. apply orient_perm.
        - exists y. rewrite path_of_cons, Eg in Eo. split; [rewrite Ehs; destruct l; cbn in Eo; injection Eo as -> _; set_solver|].
          rewrite <- (orient_perm g), Eg. by left. }
      assert (eq_stops y = true) as Hy1.
      { pose proof (group_agrees eq_stops g eq_stops_same (Forall_inv Hko)) as Hg. rewrite Forall_forall in Hg. by rewrite (Hg y Hyg). }
      assert (hs ++ [x] = e :: tail (hs ++ [x])) as Ehx.
      { destruct hs as [|h hs]; cbn in E |- *; by injection E as <- _. }
      rewrite Ehx in Hy. apply elem_of_cons in Hy as [->|Hy]; [congruence|]. rewrite Forall_forall in Hs. specialize (Hs y Hy). cbv beta in Hs. congruence.
    + pose proof (groups_agree out_of_slice true (g :: out) out_of_slice_same Hko Hout) as Ho. rewrite Forall_forall in Ho. by apply Ho.
Qed.

(** ** The next key *)

(** The iterator stands at [e] between [l1] and [l2]. *)
Record stands i l1 e l2 : Prop := {
  sd_rows : all = l1 ++ e :: l2;
  sd_at : ri_curr_pos i = pos_of sl (length l1);
  sd_is : ri_curr i = Some e;
}.
Lemma walks_stands i past e path : walks i past e path ->
  stands i (if back then rev path else rev past) e (if back then past else path).
Proof.
  intros [H1 H2 H3]. unfold on_path, path_pos in *. split; [|destruct back; by rewrite length_rev|done]. rewrite H1. by destruct back.
Qed.
Lemma stands_walks i l1 e l2 : stands i l1 e l2 ->
  walks i (if back then l2 else rev l1) e (if back then rev l1 else l2).
Proof.
  intros [H1 H2 H3]. split; [|unfold path_pos; destruct back; by rewrite length_rev|done]. unfold on_path. rewrite H1.
  destruct back; by rewrite rev_involutive.
Qed.

Definition landed i gs1 g gs2 x : Prop := exists h1 h2, g = h1 ++ x :: h2 /\ Forall (fun h => hid h = true) h1 /\ hid x = false /\
  stands i (concat gs1 ++ h1) x (h2 ++ concat gs2).

(** The keys ahead of the iterator and those behind it. *)
Definition sides ahead behind : Prop := gs = if back then rev ahead ++ behind else behind ++ ahead.
Definition past_of behind : list stmt := if back then concat behind else rev (concat behind).

Lemma path_of_forward todo : back = false -> path_of todo = concat todo.
Proof. intros Eb. unfold path_of, orient. rewrite Eb. by rewrite map_id. Qed.
Lemma path_of_backward todo : back = true -> rev (path_of todo) = concat (rev todo).
Proof.
  intros Eb. unfold path_of, orient. rewrite Eb. induction todo as [|g todo IH]; [done|]. cbn.
  rewrite rev_app_distr, rev_involutive, concat_app, IH. cbn. by rewrite app_nil_r.
Qed.
Lemma sides_groups ahead behind : sides ahead behind -> Forall key_group ahead.
Proof.
  unfold sides. intros E. pose proof (gr_group _ Hgs) as Hk. rewrite E in Hk. destruct back; apply Forall_app in Hk as [H1 H2].
  - apply Forall_rev in H1. by rewrite rev_involutive in H1.
  - done.
Qed.

(** The position in the groups. *)
Lemma walks_group i prev g rest behind a x b :
  sides (prev ++ g :: rest) behind -> orient g = a ++ x :: b ->
  walks i (rev (path_of prev ++ a) ++ past_of behind) x (b ++ path_of rest) ->
  exists gs1 gs2, gs = gs1 ++ g :: gs2 /\ (if back then rev gs1 else gs2) = rest /\
    g = (if back then rev b else a) ++ x :: (if back then rev a else b) /\
    stands i (concat gs1 ++ if back then rev b else a) x ((if back then rev a else b) ++ concat gs2).
Proof.
  intros Hs Eg Hw. apply walks_stands in Hw. unfold sides, past_of, orient in *. destruct back eqn:Eb.
  - exists (rev rest), (rev prev ++ behind). split_and!.
    + rewrite Hs, rev_app_distr. cbn. by rewrite <- !app_assoc.
    + by rewrite rev_involutive.
    + apply (f_equal (@rev _)) in Eg. rewrite rev_involutive, rev_app_distr in Eg. cbn in Eg. by rewrite <- app_assoc in Eg.
    + rewrite !rev_app_distr, (path_of_backward _ Eb), (path_of_backward _ Eb), <- app_assoc in Hw. by rewrite concat_app.
  - exists (behind ++ prev), rest. split_and!; [by rewrite Hs, <- app_assoc|done|done|].
    rewrite rev_app_distr, !rev_involutive, (path_of_forward _ Eb), (path_of_forward _ Eb) in Hw. by rewrite concat_app, <- app_assoc.
Qed.

Lemma stopped_spec i (Q : Z * option stmt -> itr -> Prop) :
  sane sl i -> (forall i', sane sl i' -> frame i i' -> ri_curr i' = None -> Q (0, None) i') -> wp stopped Q i.
Proof.
  intros [S1 S2 S3] HQ. unfold stopped, vy_run_iterator_stop. apply wp_bind, wp_modify, wp_ret, HQ; [|done|done].
  split; [done| |done]. cbn. destruct (ri_curr_page i); [done|]. exact S2.
Qed.

(** The next of the keys [todo] with something to see has been found, or that
    there is none. *)
Definition outcome i todo (res : Z * option stmt) i' : Prop := sane sl i' /\ frame i i' /\ fst res = 0 /\
  match next_seen vlsn todo with
  | None => snd res = None /\ ri_curr i' = None
  | Some (g, later) => exists gs1 gs2 x out, gs = gs1 ++ g :: gs2 /\ snd res = Some x /\ landed i' gs1 g gs2 x /\
      (if back then rev gs1 else gs2) = later ++ out /\ to_read later /\ done_with out
  end.

(** A reverse iterator relies on more. *)
Context (Hback : back = true ->
  Forall (fun x => has_flag VY_STMT_SKIP_READ x = false) all /\
  forall x, list.last all = Some x -> s_type x <> IPROTO_UPSERT).

(** Backward, nothing of a key is hidden but what is too new. *)
Lemma newest_of_key gs1 g gs2 l :
  back = true -> gs = gs1 ++ g :: gs2 -> rev g = l -> forall vs x b, l = vs ++ x :: b ->
  match b with [] => True | y :: _ => hid y = true end -> Forall (fun h => hid h = true) b.
Proof.
  intros Eb E <- vs x b Eg Hb. destruct (Hback Eb) as [Hns _].
  assert (key_group g) as Hk. { pose proof (gr_group _ Hgs) as Hk. rewrite E in Hk. apply Forall_app in Hk as [_ Hk]. by apply Forall_inv in Hk. }
  destruct b as [|y b]; [constructor|]. constructor; [done|].
  assert (Forall (fun z => s_lsn y < s_lsn z) b) as Hlt.
  { pose proof (kg_sorted _ Hk) as Hs. apply (f_equal (@rev _)) in Eg. rewrite rev_involutive, rev_app_distr in Eg. cbn in Eg.
    rewrite Eg, <- !app_assoc in Hs. cbn in Hs. apply Forall_forall. intros z Hz.
    apply (StronglySorted_app_1_elem_of _ _ _ z y Hs); [by rewrite <- Permutation_rev|by left]. }
  assert (forall z, z ∈ y :: b -> has_flag VY_STMT_SKIP_READ z = false) as Hn.
  { intros z Hz. rewrite Forall_forall in Hns. apply Hns. rewrite Hall, E, concat_app. apply elem_of_app. right. cbn.
    apply elem_of_app. left. rewrite (Permutation_rev g), Eg. set_solver. }
  assert (vlsn < s_lsn y) as Hy.
  { unfold hidden in Hb. rewrite (Hn y), orb_false_r in Hb by (by left). lia. }
  eapply Forall_impl; [exact Hlt|]. cbn. intros z Hz. unfold hidden. destruct (Z.ltb_spec vlsn (s_lsn z)); [done|lia].
Qed.

Lemma path_length past e path : on_path past e path -> (length path < row_total sl)%nat.
Proof.
  intros Hp. change (row_total sl) with (length all). rewrite Hp. destruct back; rewrite length_app; cbn; rewrite ?length_rev; lia.
Qed.
Lemma walks_page i past e path : walks i past e path -> page_no (ri_curr_pos i) < page_count r.
Proof.
  intros [Hp Hpos _]. rewrite Hpos. apply on_path_lookup in Hp. destruct (pos_of_row sl Hok _ _ Hp) as (? & ? & _ & _ & _ & _ & ?). done.
Qed.

(** Backward, to the newest statement of the key that has been found. *)
Lemma land_backward i prev g rest behind a x b :
  back = true -> sane sl i -> sides (prev ++ g :: rest) behind -> orient g = a ++ x :: b ->
  Forall (fun h => hid h = true) a -> hid x = false -> walks i (rev (path_of prev ++ a) ++ past_of behind) x (b ++ path_of rest) ->
  wp (find_newest sl ty vlsn (S (row_total sl))) (fun rc i' => rc = 0 /\ sane sl i' /\ frame i i' /\ exists gs1 gs2 y,
    gs = gs1 ++ g :: gs2 /\ rev gs1 = rest /\ landed i' gs1 g gs2 y) i.
Proof.
  intros Eb Hs Hsd Eg Ha Hx Hw. destruct (walks_group _ _ _ _ _ _ _ _ Hsd Eg Hw) as (gs1 & gs2 & Egs & Er & Eg2 & Hst).
  rewrite Eb in Er, Eg2, Hst. unfold orient in Eg. rewrite Eb in Eg.
  eapply wp_mono; [eapply find_newest_spec; [done|exact Hw|apply wk_path, path_length in Hw; lia]|].
  intros rc i' (-> & Hs' & Hf & vs & y & rest' & E & Hw' & Hv & Hr). split; [done|]. split; [done|]. split; [done|].
  assert (key_group g) as Hk. { pose proof (gr_group _ Hgs) as Hk. rewrite Egs in Hk. apply Forall_app in Hk as [_ Hk]. by apply Forall_inv in Hk. }
  assert (x ∈ g) as Hxg by (rewrite Eg2; set_solver).
  assert (forall z, z ∈ path_of rest -> tuple_compare (s_tuple x) (s_tuple z) <> 0) as Hother.
  { intros z Hz H0. rewrite path_of_perm, <- Er in Hz.
    assert (z ∈ concat gs1) as Hz'.
    { apply list_elem_of_In, in_concat in Hz as (g' & Hg' & Hz). apply list_elem_of_In, in_concat. exists g'. split; [|done].
      apply in_rev. done. }
    pose proof (gr_order _ Hgs) as Ho. rewrite Egs in Ho. apply list_elem_of_In, in_concat in Hz' as (g' & Hg' & Hz'). apply list_elem_of_In in Hg', Hz'.
    pose proof (StronglySorted_app_1_elem_of _ _ _ g' g Ho Hg' ltac:(by left) z x Hz' Hxg). apply compare_zero in H0. lia. }
  assert (exists b2, x :: b = vs ++ y :: b2 /\ rest' = b2 ++ path_of rest) as (b2 & Eb2 & Erest).
  { change (x :: b ++ path_of rest) with ((x :: b) ++ path_of rest) in E. apply app_eq_inv in E as [(l & E1 & E2)|(l & E1 & E2)].
    - destruct l as [|z l]; cbn in E2; [|injection E2 as <- ->; by exists l].
      exfalso. rewrite app_nil_r in E1. destruct vs as [|v vs]; [done|]. injection E1 as <- ->. cbn in Hv.
      rewrite Forall_app, Forall_singleton in Hv. destruct Hv as (_ & _ & Hsame). apply (Hother y); [rewrite <- E2; by left|exact Hsame].
    - exfalso. destruct vs as [|v vs]; [done|]. injection E1 as <- ->. cbn in Hv. rewrite Forall_app, Forall_singleton in Hv.
      destruct Hv as (_ & _ & Hsame). apply (Hother y); [rewrite E2; set_solver|exact Hsame]. }
  assert (hid y = false /\ same_key (s_tuple x) (s_tuple y)) as [Hy Hxy].
  { destruct vs as [|v vs]; cbn in Eb2; injection Eb2 as <- ->; [split; [done|reflexivity]|]. cbn in Hv.
    rewrite Forall_app, Forall_singleton in Hv. tauto. }
  assert (Forall (fun h => hid h = true) b2) as Hb2.
  { eapply (newest_of_key gs1 g gs2 (rev g) Eb Egs eq_refl (a ++ vs) y b2); [by rewrite Eg, Eb2, <- app_assoc|].
    destruct b2 as [|z b2]; [done|]. rewrite Erest in Hr. destruct Hr as [?|Hne]; [done|]. exfalso. apply Hne.
    apply (kg_same _ Hk); rewrite (Permutation_rev g), Eg, Eb2; set_solver. }
  exists gs1, gs2, y. split; [done|]. split; [done|]. exists (rev b2), (rev vs ++ rev a). split_and!.
  - rewrite <- (rev_involutive g), Eg, Eb2, !rev_app_distr. cbn. by rewrite <- !app_assoc.
  - by apply Forall_rev.
  - done.
  - apply walks_stands in Hw'. rewrite Eb in Hw'. rewrite Erest, rev_app_distr, (path_of_backward _ Eb), <- Er, rev_involutive in Hw'.
    destruct Hst as [_ _ _]. destruct Hw' as [W1 W2 W3]. split; [|done|done].
    rewrite Hall, Egs, concat_app. cbn. rewrite <- (rev_involutive g), Eg, Eb2, !rev_app_distr. cbn. by rewrite <- !app_assoc.
Qed.

Lemma find_lsn_spec i past e path todo out behind :
  sane sl i -> ri_search_started i = true -> walks i past e path -> past = past_of behind -> e :: path = path_of (todo ++ out) ->
  sides (todo ++ out) behind -> to_read todo -> done_with out -> eq_stops e = false ->
  wp (vy_run_iterator_find_lsn sl ty key vlsn) (outcome i todo) i.
Proof.
  intros Hs Hst Hw -> Ep Hsd Ht Hd He.
  assert (let m := if back then find_newest sl ty vlsn (S (row_total sl)) else mret 0 in
    (back = true /\ m = find_newest sl ty vlsn (S (row_total sl))) \/ (back = false /\ m = mret 0)) as Hdir.
  { cbv zeta. destruct back; [by left|by right]. }
  cbv zeta in Hdir. unfold vy_run_iterator_find_lsn. apply wp_bind, wp_assert. split; [done|].
  apply wp_bind, wp_assert. split; [by rewrite (wk_curr _ _ _ _ Hw)|]. apply wp_bind, wp_assert. split; [by apply Z.ltb_lt, (walks_page _ _ _ _ Hw)|].
  apply wp_bind. eapply wp_mono; [eapply skip_invisible_spec; [done|exact Hw|apply (path_length _ _ _ (wk_path _ _ _ _ Hw))]|].
  intros rc i1 (Hs1 & Hf1 & Hsk). pose proof (skipped_found _ _ _ _ _ _ _ Ep (sides_groups _ _ Hsd) Ht Hd He Hsk) as Hfound.
  unfold found_in, outcome in *. destruct (next_seen vlsn todo) as [[g later]|].
  - destruct Hfound as (-> & prev & a & x & b & Etodo & Eg & Ha & Hx & Hw1). cbn [Z.eqb negb]. rewrite Etodo, <- app_assoc in Hsd. cbn in Hsd.
    assert (first_of g out_of_slice = false /\ to_read later) as [Hin Hl].
    { unfold to_read in *. rewrite Etodo, Forall_app, Forall_cons in Ht. tauto. }
    assert (forall i2 gs1 gs2 y, sane sl i2 -> frame i i2 -> gs = gs1 ++ g :: gs2 -> (if back then rev gs1 else gs2) = later ++ out ->
      landed i2 gs1 g gs2 y -> wp (curr ← get_ri_curr; if outside sl ty curr then stopped else mret (0, Some curr))
        (fun res i' => sane sl i' /\ frame i i' /\ fst res = 0 /\ exists gs1 gs2 x out, gs = gs1 ++ g :: gs2 /\ snd res = Some x /\
           landed i' gs1 g gs2 x /\ (if back then rev gs1 else gs2) = later ++ out /\ to_read later /\ done_with out) i2) as Hfin.
    { intros i2 gs1 gs2 y Hs2 Hf2 Egs Er Hland. destruct Hland as (h1 & h2 & Eg2 & Hh1 & Hy & Hst2) eqn:El. apply wp_bind.
      eapply wp_get_curr; [apply Hst2|]. fold (out_of_slice y).
      assert (out_of_slice y = false) as ->.
      { pose proof (gr_group _ Hgs) as Hk. rewrite Egs in Hk. apply Forall_app in Hk as [_ Hk]. apply Forall_inv in Hk.
        pose proof (group_agrees out_of_slice g out_of_slice_same Hk) as Hg. rewrite Forall_forall in Hg. rewrite (Hg y); [done|]. rewrite Eg2. set_solver. }
      apply wp_ret. split; [done|]. split; [done|]. split; [done|]. exists gs1, gs2, y, out. by split_and!. }
    destruct Hdir as [[Eb ->]|[Eb ->]].
    + apply wp_bind. eapply wp_mono; [eapply (land_backward i1 prev g (later ++ out) behind a x b); done|].
      intros rc i2 (-> & Hs2 & Hf2 & gs1 & gs2 & y & Egs & Er & Hland). cbn [Z.eqb negb].
      apply (Hfin i2 gs1 gs2 y); try done; [by eapply frame_trans|by rewrite Eb].
    + apply wp_bind, wp_ret. cbn [Z.eqb negb]. destruct (walks_group _ _ _ _ _ _ _ _ Hsd Eg Hw1) as (gs1 & gs2 & Egs & Er & Eg2 & Hst1).
      apply (Hfin i1 gs1 gs2 x); try done. rewrite Eb in Eg2, Hst1. by exists a, b.
  - destruct Hfound as [->|(-> & past' & x & path' & Hw1 & Hout)].
    + apply stopped_spec; [done|]. intros i2 Hs2 Hf2 Hc. split; [done|]. split; [by eapply frame_trans|]. by split_and!.
    + cbn [Z.eqb negb]. apply wp_bind. destruct Hdir as [[Eb ->]|[Eb ->]].
      * eapply wp_mono; [eapply find_newest_spec; [done|exact Hw1|pose proof (path_length _ _ _ (wk_path _ _ _ _ Hw1)); lia]|].
        intros rc i2 (-> & Hs2 & Hf2 & vs & y & rest & E & Hw2 & Hv & _). cbn [Z.eqb negb]. apply wp_bind.
        eapply wp_get_curr; [apply Hw2|]. fold (out_of_slice y). assert (out_of_slice y = true) as ->.
        { rewrite <- Hout. destruct vs as [|v vs]; cbn in E; injection E as <- ->; [done|]. cbn in Hv.
          rewrite Forall_app, Forall_singleton in Hv. symmetry. apply out_of_slice_same, Hv. }
        apply stopped_spec; [done|]. intros i3 Hs3 Hf3 Hc. split; [done|]. split; [eapply frame_trans; [exact Hf1|by eapply frame_trans]|]. by split_and!.
      * apply wp_ret. cbn [Z.eqb negb]. apply wp_bind. eapply wp_get_curr; [apply Hw1|]. fold (out_of_slice x). rewrite Hout.
        apply stopped_spec; [done|]. intros i3 Hs3 Hf3 Hc. split; [done|]. split; [by eapply frame_trans|]. by split_and!.
Qed.

(** The iterator stands somewhere in the group [g]. *)
Definition inside i gs1 g gs2 : Prop := exists h1 x h2, g = h1 ++ x :: h2 /\
  stands i (concat gs1 ++ h1) x (h2 ++ concat gs2).

Lemma group_key gs1 g gs2 : gs = gs1 ++ g :: gs2 -> key_group g.
Proof. intros E. pose proof (gr_group _ Hgs) as Hk. rewrite E in Hk. apply Forall_app in Hk as [_ Hk]. by apply Forall_inv in Hk. Qed.
(** Another group has another key. *)
Lemma other_key gs1 g gs2 x y :
  gs = gs1 ++ g :: gs2 -> x ∈ g -> y ∈ concat (gs1 ++ gs2) -> ~ same_key (s_tuple x) (s_tuple y).
Proof.
  intros E Hx Hy H0. pose proof (gr_order _ Hgs) as Ho. rewrite E in Ho. apply list_elem_of_In, in_concat in Hy as (g' & Hg' & Hy).
  apply list_elem_of_In in Hg', Hy. apply elem_of_app in Hg' as [Hg'|Hg'].
  - pose proof (StronglySorted_app_1_elem_of _ _ _ g' g Ho Hg' ltac:(by left) y x Hy Hx). apply compare_zero in H0. lia.
  - apply StronglySorted_app_1_r, StronglySorted_inv in Ho as [_ Ho]. rewrite Forall_forall in Ho.
    pose proof (Ho g' Hg' x y Hx Hy). unfold same_key in H0. lia.
Qed.

Lemma same_prefix x (a : list stmt) hs y (p b : list stmt) :
  hs ++ y :: p = a ++ b -> Forall (fun z => same_key (s_tuple x) (s_tuple z)) hs -> ~ same_key (s_tuple x) (s_tuple y) ->
  Forall (fun z => same_key (s_tuple x) (s_tuple z)) a -> Forall (fun z => ~ same_key (s_tuple x) (s_tuple z)) b -> hs = a /\ y :: p = b.
Proof.
  intros E Hh Hy. revert a E. induction Hh as [|h hs Hh Hhs IH]; intros a E Ha Hb; destruct Ha as [|z a Hz Ha].
  - done.
  - injection E as -> _. done.
  - cbn in E. subst b. by apply Forall_inv in Hb.
  - injection E as -> E. destruct (IH a E Ha Hb) as [-> ->]. done.
Qed.

(** The first row ahead is one of the first group. *)
Lemma path_head g todo : key_group g -> exists y p, path_of (g :: todo) = y :: p /\ y ∈ g.
Proof.
  intros Hk. rewrite path_of_cons. destruct (orient g) as [|y l] eqn:Eo.
  - exfalso. apply (kg_ne _ Hk), Permutation_nil. rewrite <- Eo. apply orient_perm.
  - exists y, (l ++ path_of todo). split; [done|]. rewrite <- (orient_perm g), Eo. by left.
Qed.
(** Nothing is to be read if an EQ iterator stops at the first row. *)
Lemma stops_first todo out behind y p :
  sides (todo ++ out) behind -> to_read todo -> y :: p = path_of (todo ++ out) -> eq_stops y = true -> todo = [].
Proof.
  intros Hside Ht Ey Eq. destruct todo as [|g todo]; [done|]. exfalso. apply Forall_inv in Ht as [Hg _].
  pose proof (Forall_inv (sides_groups _ _ Hside)) as Hk. destruct (path_head g (todo ++ out) Hk) as (z & p' & Ez & Hz).
  cbn [app] in Ey. rewrite Ez in Ey. injection Ey as <- _.
  pose proof (group_agrees eq_stops g eq_stops_same Hk) as Hag. rewrite Forall_forall in Hag. rewrite (Hag y Hz) in Eq. congruence.
Qed.

Lemma run_next_key_inside i gs1 g gs2 todo out :
  sane sl i -> ri_search_started i = true -> gs = gs1 ++ g :: gs2 -> inside i gs1 g gs2 ->
  (if back then rev gs1 else gs2) = todo ++ out -> to_read todo -> done_with out ->
  wp (vy_run_iterator_next_key sl ty key vlsn) (outcome i todo) i.
Proof.
  intros Hs Hst Egs (h1 & x & h2 & Eg & Hsd) Er Ht Hd. unfold vy_run_iterator_next_key. apply wp_bind, wp_gets. rewrite Hst. cbn [negb].
  apply wp_bind, wp_gets. rewrite (sd_is _ _ _ _ Hsd). apply stands_walks in Hsd as Hw.
  apply wp_bind, wp_assert. split; [by apply Z.ltb_lt, (walks_page _ _ _ _ Hw)|]. apply wp_bind.
  set (same := if back then rev h1 else h2). set (behind := if back then g :: gs2 else gs1 ++ [g]).
  assert (sides (todo ++ out) behind) as Hside.
  { unfold sides, behind. rewrite <- Er. destruct back; [by rewrite rev_involutive|by rewrite <- app_assoc]. }
  assert ((if back then rev (concat gs1 ++ h1) else h2 ++ concat gs2) = same ++ path_of (todo ++ out)) as Epath.
  { unfold same. rewrite <- Er. assert (back = true \/ back = false) as [Eb|Eb] by (destruct back; auto); rewrite Eb.
    - rewrite rev_app_distr. f_equal. rewrite <- (rev_involutive (path_of _)), path_of_backward, rev_involutive by done. done.
    - by rewrite path_of_forward. }
  assert (Forall (fun z => same_key (s_tuple x) (s_tuple z)) same /\ Forall (fun z => ~ same_key (s_tuple x) (s_tuple z)) (path_of (todo ++ out))) as [Hsame Hother].
  { assert (x ∈ g) as Hx by (rewrite Eg; set_solver). split; apply Forall_forall; intros z Hz.
    - apply (kg_same _ (group_key _ _ _ Egs)); [done|]. rewrite Eg. unfold same in Hz. destruct back; [rewrite <- Permutation_rev in Hz|]; set_solver.
    - apply (other_key gs1 g gs2); [done|done|]. rewrite path_of_perm, <- Er in Hz. rewrite concat_app. apply elem_of_app.
      destruct back; [left|by right]. apply list_elem_of_In, in_concat in Hz as (g' & Hg' & Hz). apply list_elem_of_In, in_concat.
      exists g'. split; [by apply in_rev|done]. }
  rewrite Epath in Hw. destruct Hw as [W1 W2 W3].
  eapply wp_mono; [eapply (run_next_key_loop_spec _ i _ x x); [done|exact W1|exact W2|done|reflexivity|pose proof (path_length _ _ _ W1); lia]|].
  intros [rc res] i1 (Erc & Hs1 & Hf1 & Hc1 & hs & Hh & Hres). cbn [fst snd] in *. subst rc. cbn [Z.eqb negb].
  destruct res as [y|].
  - destruct Hres as (path' & Ep & Hy & Hp & Hpos). destruct (same_prefix x _ _ _ _ _ (eq_sym Ep) Hh Hy Hsame Hother) as [Ehs Ey]. subst hs.
    apply wp_bind, wp_modify. fold (eq_stops y). destruct (eq_stops y) eqn:Eq.
    + apply stopped_spec; [by apply sane_curr|]. intros i2 Hs2 Hf2 Hc2. split; [done|]. split; [by eapply frame_trans|]. split; [done|].
      by rewrite (stops_first _ _ _ _ _ Hside Ht Ey Eq).
    + set (i2 := i1 <| ri_curr := Some y |>). eapply wp_mono.
      { eapply (find_lsn_spec i2 (rev same ++ x :: (if back then h2 ++ concat gs2 else rev (concat gs1 ++ h1))) y path' todo out behind); [by apply sane_curr| |by split| |exact Ey|done|done|done|done].
        - cbn. rewrite (proj1 Hf1). done.
        - unfold past_of, behind, same. destruct back.
          + rewrite rev_involutive. cbn. by rewrite Eg, <- app_assoc.
          + rewrite concat_app. cbn. rewrite app_nil_r, Eg, !rev_app_distr. cbn. by rewrite <- !app_assoc. }
      intros res i3 (Hs3 & Hf3 & H3). split; [done|]. split; [by eapply frame_trans|done].
  - apply stopped_spec; [done|]. intros i2 Hs2 Hf2 Hc2. split; [done|]. split; [by eapply frame_trans|]. split; [done|].
    assert (todo = []) as ->; [|done]. destruct todo as [|g0 todo]; [done|]. exfalso. cbn [app] in Hres.
    destruct (path_head g0 (todo ++ out) (Forall_inv (sides_groups _ _ Hside))) as (z & p & Ez & _). cbn [app] in Hother.
    rewrite Ez in Hother, Hres. apply Forall_inv in Hother. rewrite <- Hres, Forall_app in Hh. destruct Hh as [_ Hh]. by apply Forall_inv in Hh.
Qed.

(** ** The history of a key *)

(** Behind the last row the iterator stops, which is the end if it goes
    forward. *)
Definition in_key i gs1 g gs2 : Prop := inside i gs1 g gs2 \/ (ri_curr i = None /\ gs2 = [] /\ back = false).

Lemma next_lsn_loop_spec gs1 g gs2 : gs = gs1 ++ g :: gs2 -> forall h2 fuel i h1 x,
  g = h1 ++ x :: h2 -> sane sl i -> stands i (concat gs1 ++ h1) x (h2 ++ concat gs2) -> (length h2 < fuel)%nat ->
  (back = true -> s_type x = IPROTO_UPSERT \/ has_flag VY_STMT_SKIP_READ x = true) ->
  wp (run_next_lsn_loop sl fuel) (fun res i' => fst res = 0 /\ sane sl i' /\ frame i i' /\
    match noskip h2 with
    | [] => snd res = None /\ in_key i' gs1 g gs2
    | y :: later => snd res = Some y /\ exists h1' h2', g = h1' ++ y :: h2' /\ later = noskip h2' /\ (length h2' < length h2)%nat /\
        stands i' (concat gs1 ++ h1') y (h2' ++ concat gs2)
    end) i.
Proof.
  intros Egs. induction h2 as [|y h2 IH]; intros fuel i h1 x Eg Hs Hst Hf Hx; (destruct fuel as [|fuel]; [cbn in Hf; lia|]);
    cbn [run_next_lsn_loop]; apply wp_bind; destruct Hst as [S1 S2 S3].
  - eapply (next_pos_forward sl Hok ITER_GE); [done|exact S2|rewrite S1; by apply list_lookup_middle|]. cbn [app] in S1.
    destruct (Nat.eqb_spec (S (length (concat gs1 ++ h1))) (length all)) as [El|El]; cbn [Z.eqb negb].
    + assert (concat gs2 = []) as E2 by (rewrite S1, (length_app (concat gs1 ++ h1)) in El; cbn in El; destruct (concat gs2); [done|cbn in El; lia]).
      assert (back = false) as Eb.
      { assert (back = true \/ back = false) as [Eb|?] by (destruct back; auto); [exfalso|done]. destruct (Hback Eb) as [H1 H2].
        rewrite E2 in S1. destruct (Hx Eb) as [Hu|Hu].
        - apply (H2 x); [by rewrite S1, last_snoc|done].
        - rewrite Forall_forall in H1. rewrite (H1 x) in Hu; [done|]. rewrite S1. set_solver. }
      apply stopped_spec; [done|]. intros i' Hs' Hf' Hc. split; [done|]. split; [done|]. split; [done|]. split; [done|]. right.
      split_and!; [done| |done]. apply (concat_nil gs2); [|done]. pose proof (gr_group _ Hgs) as Hk. rewrite Egs in Hk.
      apply Forall_app in Hk as [_ Hk]. by apply Forall_inv_tail in Hk.
    + destruct (concat gs2) as [|z l] eqn:E2; [rewrite S1, (length_app (concat gs1 ++ h1)) in El; cbn in El; lia|]. apply wp_bind.
      eapply (read_spec sl Hok _ z); [done| |].
      { rewrite S1, cons_middle, app_assoc. replace (S (length (concat gs1 ++ h1))) with (length ((concat gs1 ++ h1) ++ [x])) by (rewrite length_app; cbn; lia).
        by apply list_lookup_middle. }
      intros i1 Hs1 (R1 & R2 & R3 & R4). apply wp_bind. eapply wp_get_curr; [by rewrite R2|].
      destruct (Z.eqb_spec (tuple_compare (s_tuple x) (s_tuple z)) 0) as [E0|E0]; cbn [negb].
      { exfalso. apply (other_key gs1 g gs2 x z Egs); [rewrite Eg; set_solver| |exact E0]. rewrite concat_app, E2. set_solver. }
      apply wp_ret. split; [done|]. split; [done|]. split; [by split|]. split; [done|]. left. exists h1, x, []. split; [done|].
      split; [by rewrite E2|by rewrite R1|by rewrite R2].
  - cbn [app] in S1. eapply (next_pos_forward sl Hok ITER_GE); [done|exact S2|rewrite S1; by apply list_lookup_middle|].
    destruct (Nat.eqb_spec (S (length (concat gs1 ++ h1))) (length all)) as [El|_].
    { rewrite S1, (length_app (concat gs1 ++ h1)) in El. cbn in El. lia. }
    cbn [Z.eqb negb]. apply wp_bind.
    assert (all = (concat gs1 ++ (h1 ++ [x])) ++ y :: h2 ++ concat gs2) as Ey by (rewrite S1, <- !app_assoc; done).
    assert (S (length (concat gs1 ++ h1)) = length (concat gs1 ++ (h1 ++ [x]))) as El by (rewrite app_assoc, (length_app (concat gs1 ++ h1)); cbn; lia).
    rewrite El. eapply (read_spec sl Hok _ y); [done|rewrite Ey; by apply list_lookup_middle|].
    intros i1 Hs1 (R1 & R2 & R3 & R4). apply wp_bind. eapply wp_get_curr; [by rewrite R2|].
    assert (tuple_compare (s_tuple x) (s_tuple y) = 0) as -> by (apply (kg_same _ (group_key _ _ _ Egs)); rewrite Eg; set_solver).
    cbn [Z.eqb negb]. apply wp_bind, wp_modify. set (i2 := i1 <| ri_curr := Some y |> <| ri_curr_pos := _ |>).
    assert (stands i2 (concat gs1 ++ (h1 ++ [x])) y (h2 ++ concat gs2)) as Hst2 by (by split).
    assert (sane sl i2) as Hs2 by (by apply sane_pos, sane_curr). assert (frame i i2) as Hf2 by (by split).
    unfold noskip. destruct (has_flag VY_STMT_SKIP_READ y) eqn:Ey2.
    + rewrite filter_cons_False by congruence. fold (noskip h2).
      eapply wp_mono; [apply (IH fuel i2 (h1 ++ [x]) y); [by rewrite Eg, <- app_assoc|done|done|cbn in Hf; lia|by right]|].
      intros res i3 (E1 & Hs3 & Hf3 & H3). split; [done|]. split; [done|]. split; [by eapply frame_trans|].
      destruct (noskip h2) as [|z later]; [done|]. destruct H3 as (E3 & h1' & h2' & ? & ? & Hl & ?). split; [done|].
      exists h1', h2'. split_and!; try done. cbn. lia.
    + rewrite filter_cons_True by done. apply wp_ret. split; [done|]. split; [done|]. split; [done|]. split; [done|].
      exists (h1 ++ [x]), h2. split_and!; [by rewrite Eg, <- app_assoc|done|cbn; lia|done].
Qed.

Lemma stands_page i l1 x l2 : stands i l1 x l2 -> page_no (ri_curr_pos i) < page_count r.
Proof. intros Hst. apply stands_walks in Hst. by eapply walks_page. Qed.

Lemma run_history_loop_spec gs1 g gs2 : gs = gs1 ++ g :: gs2 -> forall fuel i h1 x h2 hist,
  g = h1 ++ x :: h2 -> sane sl i -> ri_search_started i = true -> stands i (concat gs1 ++ h1) x (h2 ++ concat gs2) ->
  (length h2 < fuel)%nat -> ri_history i = hist ->
  wp (run_history_loop sl fuel (Some x)) (fun rc i' => rc = 0 /\ sane sl i' /\ ri_search_started i' = true /\
    ri_history i' = hist ++ upto_terminal false (x :: noskip h2) /\ in_key i' gs1 g gs2) i.
Proof.
  intros Egs. induction fuel as [|fuel IH]; intros i h1 x h2 hist Eg Hs Hst Hsd Hf Eh; [lia|]. cbn [run_history_loop].
  apply wp_bind. unfold run_history_append. destruct Hs as [N1 N2 N3]. apply wp_bind, wp_on_ri, wp_fails; [done|]. intros oom Ho.
  apply wp_bind, wp_modify, wp_ret. cbn [Z.eqb negb].
  set (i1 := i <| ri_oom := oom |> <| ri_history ::= fun h => h ++ [x] |>).
  assert (stands i1 (concat gs1 ++ h1) x (h2 ++ concat gs2)) as Hsd1 by (by destruct Hsd). assert (sane sl i1) as Hs1 by done.
  apply wp_bind, wp_gets. assert (ri_history i1 = hist ++ [x]) as Eh1 by (cbn; by rewrite Eh).
  unfold vy_history_is_terminal. rewrite Eh1, last_snoc, upto_terminal_cons.
  destruct (has_type IPROTO_UPSERT x) eqn:Ex; cbn [negb].
  2: { apply wp_ret. split_and!; [done|done|done|done|]. left. by exists h1, x, h2. }
  apply wp_bind. unfold vy_run_iterator_next_lsn. apply wp_bind, wp_assert. split; [done|].
  apply wp_bind, wp_assert. split; [by rewrite (sd_is _ _ _ _ Hsd1)|]. apply wp_bind, wp_assert.
  split; [by apply Z.ltb_lt, (stands_page _ _ _ _ Hsd1)|]. apply has_typeP in Ex.
  eapply wp_mono; [apply (next_lsn_loop_spec gs1 g gs2 Egs h2 _ i1 h1 x); [done|done|done| |by left]|].
  { change (row_total sl) with (length all). rewrite (sd_rows _ _ _ _ Hsd1), (length_app (concat gs1 ++ h1)). cbn. rewrite (length_app h2). lia. }
  intros [rc res] i2 (Erc & Hs2 & Hf2 & H2). cbn [fst snd] in *. subst rc. cbn [Z.eqb negb]. destruct Hf2 as [F1 F2].
  change (ri_search_started i1) with (ri_search_started i) in F1. rewrite Hst in F1. rewrite Eh1 in F2. destruct (noskip h2) as [|y later].
  - destruct H2 as [-> Hin]. destruct fuel; cbn [run_history_loop]; apply wp_ret; by split_and!.
  - destruct H2 as (-> & h1' & h2' & Eg' & -> & Hl & Hst2).
    eapply wp_mono; [apply (IH i2 h1' y h2' (hist ++ [x])); [done|done|done|done|lia|done]|].
    intros rc i3 (-> & Hs3 & Hst3 & Eh3 & Hin). split_and!; [done|done|done| |done]. rewrite Eh3, <- app_assoc. done.
Qed.

(** What is found at the newest visible statement is the history of the key. *)
Lemma landed_history_of gs1 g gs2 h1 x h2 :
  gs = gs1 ++ g :: gs2 -> g = h1 ++ x :: h2 -> Forall (fun h => hid h = true) h1 -> hid x = false ->
  history_of vlsn g = upto_terminal false (x :: noskip h2).
Proof.
  intros E Eg Hh1 Hx. unfold history_of, seen, noskip. f_equal.
  rewrite Eg, filter_app, filter_none, filter_cons_True by (done || (eapply Forall_impl; [exact Hh1|]; cbn; congruence)). cbn. f_equal.
  pose proof (kg_sorted _ (group_key _ _ _ E)) as Hsort. rewrite Eg in Hsort. apply StronglySorted_app_1_r in Hsort.
  apply StronglySorted_inv in Hsort as [_ Hf]. apply seen_stmt in Hx as [Hxl _].
  clear - Hf Hxl. induction Hf as [|y h2 Hy Hf IH]; [done|]. rewrite !filter_cons, IH.
  assert (hid y = has_flag VY_STMT_SKIP_READ y) as ->; [|done].
  unfold hidden. destruct (Z.ltb_spec vlsn (s_lsn y)); [lia|done].
Qed.
End Scan.
