(* ===== verification/VyRunSeek.v ===== *)
(** * Seeking in a slice of a run *)

From stdpp Require Import list sorting.
From S2P Require Import Prelude VyStmt VyVisible VyViews VyMem VyMemSafety VyMemTheorems VyRunReader VyPages VyRunSearch VyRunScan.

Open Scope Z_scope.

(** The order of three keys. *)
#[local] Ltac cmp3 a b c :=
  pose proof (compare_trans a b c); pose proof (compare_trans a c b); pose proof (compare_trans b a c);
  pose proof (compare_trans b c a); pose proof (compare_trans c a b); pose proof (compare_trans c b a);
  pose proof (compare_flip a b); pose proof (compare_flip b a); pose proof (compare_flip a c);
  pose proof (compare_flip c a); pose proof (compare_flip b c); pose proof (compare_flip c b).

(** The order of two tuples and a key. *)
#[local] Ltac cmpk a b k :=
  pose proof (key_le a b k); pose proof (key_le b a k); pose proof (key_lt a b k); pose proof (key_lt b a k);
  pose proof (key_flip_lt b k); pose proof (key_flip_gt b k); pose proof (compare_flip a b); pose proof (compare_flip b a).

Lemma filter_rev {A} (P : A -> Prop) `{!forall x, Decision (P x)} (l : list A) : filter P (rev l) = rev (filter P l).
Proof.
  induction l as [|x l IH]; [done|]. cbn [rev]. rewrite filter_app, IH. destruct (decide (P x)) as [Hx|Hx].
  - by rewrite !filter_cons_True.
  - by rewrite !filter_cons_False, app_nil_r by done.
Qed.
Lemma StronglySorted_rev {A} (R : A -> A -> Prop) (l : list A) : StronglySorted R l -> StronglySorted (fun x y => R y x) (rev l).
Proof.
  intros Hs. induction Hs as [|x l Hs IH Hf]; [constructor|]. cbn [rev]. apply StronglySorted_app_2; [|done|by repeat constructor].
  intros y z Hy Hz. apply list_elem_of_singleton in Hz as ->. rewrite <- Permutation_rev in Hy. rewrite Forall_forall in Hf. by apply Hf.
Qed.

Section Seek.
Context {T O K : Type} `{!Tuples T O, !TuplesLaws T O, !SearchKeys T K, !SearchKeysLaws T O K}.
Abbreviation stmt := (vy_stmt T O).
Abbreviation itr := (run_iterator T O).
Implicit Types (e x y : stmt) (l g L R : list stmt) (gs todo out : list (list stmt)) (i : itr) (k q : K).

Context (sl : vy_slice T O K) (ty : iterator_type) (key : option K) (vlsn : Z) (Hok : run_ok (sl_run sl)).
Abbreviation r := (sl_run sl).
Abbreviation all := (rows (sl_run sl)).
Abbreviation back := (backward ty).

(** ** Where a search starts *)

(** The rows that are not too early for an iterator, in its direction. *)
Definition in_reach x : Prop :=
  if back then
    (match key with None => True | Some k => key_before (is_upper ty) k (s_tuple x) end) /\
    (match sl_end sl with None => True | Some e => tuple_compare (s_tuple x) e < 0 end)
  else
    (match key with None => True | Some k => ~ key_before (is_upper ty) k (s_tuple x) end) /\
    (match sl_begin sl with None => True | Some b => 0 <= tuple_compare (s_tuple x) b end).

Record from_here (res : iterator_type * option K * bool) : Prop := {
  fh_dir : backward (fst (fst res)) = back;
  fh_key : match snd (fst res) with
           | Some q => forall x, in_reach x <-> (if back then key_before (is_upper (fst (fst res))) q (s_tuple x)
                                                 else ~ key_before (is_upper (fst (fst res))) q (s_tuple x))
           | None => (forall x, in_reach x) /\ fst (fst res) = if back then ITER_LE else ITER_GE
           end;
  fh_eq : ty = ITER_EQ -> (fst (fst res) = ITER_EQ /\ snd (fst res) = key /\ snd res = false) \/
            (fst (fst res) = ITER_GE /\ snd res = true);
  fh_other : ty <> ITER_EQ -> fst (fst res) <> ITER_EQ /\ snd res = false;
}.

Lemma seek_from_spec : (key = None -> ty = ITER_GE \/ ty = ITER_LE) ->
  match seek_from sl ty key None with
  | Some res => from_here res
  | None => ty = ITER_EQ /\ exists k b, key = Some k /\ sl_begin sl = Some b /\ key_compare_with_tuple k b < 0
  end.
Proof.
  intros Hkey. unfold seek_from. destruct ty eqn:Et; cbn [backward];
    (destruct key as [k|] eqn:Ek; [|destruct (Hkey eq_refl) as [E|E]; try discriminate E]);
    destruct (sl_begin sl) as [b|] eqn:Eb, (sl_end sl) as [e|] eqn:Ee; cbn [compare_key bool_decide decide_rel negb andb orb].
  all: repeat match goal with
    | |- context [?a <? 0] => destruct (Z.ltb_spec a 0); cbn [andb orb negb]
    | |- context [0 <? ?a] => destruct (Z.ltb_spec 0 a); cbn [andb orb negb]
    | |- context [?a =? 0] => destruct (Z.eqb_spec a 0); cbn [andb orb negb]
    end; try (split; [done|]; by eexists _, _).
  all: split; cbn [fst snd]; unfold in_reach; rewrite ?Et, ?Eb, ?Ee, ?Ek; cbn [backward is_upper]; try done; try (by left); try (by right).
  all: try (intros x; unfold key_before; rewrite ?key_of_tuple; try (cmpk (s_tuple x) b k); try (cmpk (s_tuple x) e k); lia).
Qed.

(** ** The first row *)

Context (gs : list (list stmt)) (Hgs : grouped gs) (Hall : all = concat gs).

(** The keys in reach, in the direction of the iterator, and the others. *)
Record reach_split ahead behind : Prop := {
  rs_sides : sides ty gs ahead behind;
  rs_ahead : Forall in_reach (concat ahead);
  rs_behind : Forall (fun x => ~ in_reach x) (concat behind);
}.

(** The rows on the left of the place where the search starts, and on the right. *)
Definition rows_left ahead behind : list stmt := if back then rev (path_of ty ahead) else concat behind.
Definition rows_right ahead behind : list stmt := if back then concat behind else path_of ty ahead.

Lemma rows_split_at ahead behind : sides ty gs ahead behind -> all = rows_left ahead behind ++ rows_right ahead behind.
Proof.
  unfold sides, rows_left, rows_right. rewrite Hall. intros ->.
  assert (back = true \/ back = false) as [Eb|Eb] by (destruct back; auto); rewrite Eb, concat_app.
  - by rewrite path_of_backward.
  - by rewrite path_of_forward.
Qed.
Lemma ahead_nil ahead behind : sides ty gs ahead behind -> path_of ty ahead = [] -> ahead = [].
Proof.
  intros Hs E. destruct ahead as [|g ahead]; [done|]. pose proof (sides_groups ty gs Hgs _ _ Hs) as Hk.
  destruct (path_head ty g ahead (Forall_inv Hk)) as (y & p & E' & _). congruence.
Qed.

Lemma pos_of_start : pos_of sl 0 = mk_pos 0 0.
Proof.
  unfold pos_of. pose proof (rk_some _ Hok) as Hne. pose proof (rk_pages _ Hok) as Hp. destruct (run_pages r) as [|p ps]; [done|].
  apply Forall_inv, pk_min in Hp as (x & l & E & _). cbn. by rewrite E.
Qed.

(** From a place between two rows to the row that is next. *)
Lemma seek_row ty' i ahead behind (Q : Z -> itr -> Prop) :
  sides ty gs ahead behind -> backward ty' = back -> (ty' = ITER_EQ -> path_of ty ahead <> []) ->
  ri_curr_pos i = pos_of sl (length (rows_left ahead behind)) ->
  (forall pos, ahead = [] -> Q 1 (i <| ri_curr_pos := pos |>)) ->
  (forall e path, path_of ty ahead = e :: path -> Q 0 (i <| ri_curr_pos := path_pos sl ty (past_of ty behind) path |>)) ->
  wp (no ← gets (fun i => page_no (ri_curr_pos i));
      if match ty' with ITER_GE | ITER_GT => no =? page_count r | _ => false end then mret 1
      else if backward ty' then
        '(rc, pos) ← vy_run_iterator_next_pos sl ty';
        modify (fun i => i <| ri_curr_pos := pos |>);;
        mret rc
      else mret 0) Q i.
Proof.
  intros Hs Hd Heq Hp HQ1 HQ0. pose proof (rows_split_at _ _ Hs) as El. apply wp_bind, wp_gets. rewrite Hp.
  unfold rows_left, rows_right, path_pos, past_of in *.
  assert (forall pos, ri_curr_pos i = pos -> i <| ri_curr_pos := pos |> = i) as Ei by (intros pos <-; by destruct i).
  assert (back = true \/ back = false) as [Eb|Eb] by (destruct back; auto); rewrite Eb in *.
  - rewrite Hd. assert (match ty' with ITER_GE | ITER_GT => page_no (pos_of sl (length (rev (path_of ty ahead)))) =? page_count r | _ => false end = false) as -> by (by destruct ty').
    apply wp_bind. eapply (next_pos_backward sl Hok ty' (length (rev (path_of ty ahead)))); [done|done|rewrite El, length_app; lia|].
    rewrite length_rev. destruct (path_of ty ahead) as [|e path] eqn:Ep; cbn [length].
    + apply wp_bind, wp_modify, wp_ret, HQ1. by eapply ahead_nil.
    + by apply wp_bind, wp_modify, wp_ret, (HQ0 e path).
  - rewrite Hd. destruct (path_of ty ahead) as [|e path] eqn:Ep.
    + assert (length (concat behind) = length all) as E0 by (by rewrite El, app_nil_r). rewrite E0 in Hp |- *. rewrite pos_of_end in Hp |- *. cbn [page_no].
      assert (match ty' with ITER_GE | ITER_GT => page_count r =? page_count r | _ => false end = true) as ->.
      { destruct ty'; try done; [by destruct (Heq eq_refl)| |]; apply Z.eqb_refl. }
      apply wp_ret. rewrite <- (Ei _ Hp). apply HQ1. by eapply ahead_nil.
    + destruct (pos_of_row sl Hok (length (concat behind)) e) as (_ & _ & _ & _ & _ & _ & Hlt); [rewrite El; by apply list_lookup_middle|].
      assert (match ty' with ITER_GE | ITER_GT => page_no (pos_of sl (length (concat behind))) =? page_count r | _ => false end = false) as ->.
      { destruct ty'; try done; apply Z.eqb_neq; lia. }
      apply wp_ret. rewrite <- (Ei _ Hp), <- (length_rev (concat behind)). by apply (HQ0 e path).
Qed.

(** An EQ iterator finds its key at the first row, or not at all. *)
Lemma not_met k ahead behind :
  sides ty gs ahead behind -> back = false -> Forall (fun x => ~ key_before false k (s_tuple x)) (path_of ty ahead) ->
  ~ meets k all (length (rows_left ahead behind)) -> Forall (fun x => tuple_compare_with_key (s_tuple x) k <> 0) (path_of ty ahead).
Proof.
  intros Hs Eb Hf Hn. pose proof (rows_split_at _ _ Hs) as El. unfold rows_left, rows_right in *. rewrite Eb in *.
  pose proof (tree_keys_sorted _ (rk_sorted _ Hok)) as Hsort. rewrite El in Hsort. apply StronglySorted_app_1_r in Hsort.
  destruct (path_of ty ahead) as [|e path]; [constructor|]. apply Forall_inv in Hf. unfold key_before in Hf.
  assert (0 < tuple_compare_with_key (s_tuple e) k) as Hlt.
  { apply Z.le_neq. split; [lia|]. intros E0. apply Hn. exists e. split; [rewrite El; by apply list_lookup_middle|done]. }
  constructor; [lia|]. apply StronglySorted_inv in Hsort as [_ Hsort]. eapply Forall_impl; [exact Hsort|]. cbn. intros x Hx H0.
  pose proof (key_le (s_tuple e) (s_tuple x) k). lia.
Qed.

Definition seek_done (ty' : iterator_type) (k' : option K) ahead behind i (rc : Z) i' : Prop := sane sl i' /\ frame i i' /\
  ((rc = 1 /\ (ahead = [] \/ exists k, ty' = ITER_EQ /\ k' = Some k /\
                 Forall (fun x => tuple_compare_with_key (s_tuple x) k <> 0) (path_of ty ahead))) \/
   (rc = 0 /\ exists e path, path_of ty ahead = e :: path /\ ri_curr_pos i' = path_pos sl ty (past_of ty behind) path /\
      (ty' = ITER_EQ -> forall k, k' = Some k -> tuple_compare_with_key (s_tuple e) k = 0))).

Lemma do_seek_spec ty' (k' : option K) check ahead behind i :
  sane sl i -> from_here (ty', k', check) -> reach_split ahead behind ->
  wp (vy_run_iterator_do_seek sl ty' k') (seek_done ty' k' ahead behind i) i.
Proof.
  intros Hs [Hd Hk _ _] [Hsd HA HB]. cbn [fst snd] in *. pose proof (rows_split_at _ _ Hsd) as El.
  assert (Forall in_reach (path_of ty ahead)) as HP by (by rewrite path_of_perm).
  unfold vy_run_iterator_do_seek. apply wp_bind. destruct k' as [q|].
  - assert (splits (is_upper ty') q (rows_left ahead behind) (rows_right ahead behind)) as Hsp.
    { unfold splits, rows_left, rows_right. assert (back = true \/ back = false) as [Eb|Eb] by (destruct back; auto); rewrite Eb in *; split.
      - apply Forall_rev. eapply Forall_impl; [exact HP|]. intros x. apply Hk.
      - eapply Forall_impl; [exact HB|]. intros x Hx. by rewrite <- Hk.
      - eapply Forall_impl; [exact HB|]. intros x Hx. cbv beta in Hx. rewrite Hk in Hx. revert Hx. unfold key_before. destruct (is_upper ty'); lia.
      - eapply Forall_impl; [exact HP|]. intros x. apply Hk. }
    apply wp_bind. eapply (search_spec sl Hok ty' q); [done|exact El|exact Hsp|].
    intros [[rc pos] equal] i1 Hs1 (R1 & R2 & R3 & R4) [Hrc Hpos Heq]. cbn [fst snd] in *. apply wp_bind, wp_modify, wp_ret.
    destruct (backward ty' && (length (rows_left ahead behind) =? 0)%nat) eqn:E0.
    { rewrite Hrc. cbn [Z.eqb negb]. apply wp_ret. split; [by apply sane_pos|]. split; [by split|]. left. split; [done|left].
      apply andb_true_iff in E0 as [Eb E0]. apply Nat.eqb_eq in E0. unfold rows_left in E0. rewrite <- Hd, Eb, length_rev in E0.
      eapply ahead_nil; [done|]. by apply length_zero_iff_nil. }
    rewrite Hrc. cbn [Z.eqb negb]. rewrite (Hpos Hrc).
    destruct (bool_decide (ty' = ITER_EQ) && negb equal) eqn:E1.
    { apply andb_true_iff in E1 as [Et E1]. apply bool_decide_eq_true in Et. apply negb_true_iff in E1. apply wp_ret.
      split; [by apply sane_pos|]. split; [by split|]. left. split; [done|right]. exists q. split; [done|]. split; [done|].
      assert (back = false) as Eb by (by rewrite <- Hd, Et). eapply not_met; [done|done| |].
      - unfold rows_right in Hsp. rewrite Eb, Et in Hsp. apply Hsp.
      - rewrite <- Heq, E1 by done. done. }
    assert (ty' = ITER_EQ -> exists e path, path_of ty ahead = e :: path /\ tuple_compare_with_key (s_tuple e) q = 0) as Hfound.
    { intros Et. rewrite Et, bool_decide_eq_true_2 in E1 by done. apply negb_false_iff in E1. apply Heq in E1 as (e & He & H0); [|done].
      rewrite El in He. assert (back = false) as Eb by (by rewrite <- Hd, Et). unfold rows_left, rows_right in He. rewrite Eb in He.
      rewrite lookup_app_r, Nat.sub_diag in He by done. destruct (path_of ty ahead) as [|e' path]; [done|]. injection He as ->. by exists e, path. }
    eapply (seek_row ty' _ ahead behind); [done|done| |done| |].
    + intros Et. destruct (Hfound Et) as (e & path & -> & _). done.
    + intros pos' Ea. split; [by apply sane_pos, sane_pos|]. split; [by split|]. left. split; [done|by left].
    + intros e path Ep. split; [by apply sane_pos, sane_pos|]. split; [by split|]. right. split; [done|]. exists e, path. split; [done|]. split; [done|].
      intros Et k [= <-]. destruct (Hfound Et) as (e' & path' & Ep' & H0). rewrite Ep in Ep'. by injection Ep' as <- _.
  - destruct Hk as [Hreach Et].
    assert (concat behind = []) as Ebeh.
    { destruct (concat behind) as [|x l]; [done|]. apply Forall_inv in HB. by destruct (HB (Hreach x)). }
    assert (forall i1, sane sl i1 -> frame i i1 -> ri_curr_pos i1 = pos_of sl (length (rows_left ahead behind)) ->
      wp (if negb (0 =? 0) then mret 0 else if bool_decide (ty' = ITER_EQ) && negb false then mret 1 else
          no ← gets (fun i => page_no (ri_curr_pos i));
          if match ty' with ITER_GE | ITER_GT => no =? page_count r | _ => false end then mret 1
          else if backward ty' then
            '(rc, pos) ← vy_run_iterator_next_pos sl ty'; modify (fun i => i <| ri_curr_pos := pos |>);; mret rc
          else mret 0) (seek_done ty' None ahead behind i) i1) as Hgo.
    { intros i1 Hs1 Hf1 Hp1. assert (ty' <> ITER_EQ) as Hne by (rewrite Et; by destruct back).
      rewrite bool_decide_eq_false_2 by done. cbn [Z.eqb negb andb].
      eapply (seek_row ty' _ ahead behind); [done|done|done|done| |].
      - intros pos' Ea. split; [by apply sane_pos|]. split; [done|]. left. split; [done|by left].
      - intros e path Ep. split; [by apply sane_pos|]. split; [done|]. right. split; [done|]. by exists e, path. }
    unfold rows_left, rows_right in El, Hgo. assert (back = true \/ back = false) as [Eb|Eb] by (destruct back; auto); rewrite Eb in *.
    + rewrite bool_decide_eq_true_2 by done. apply wp_bind, wp_modify, wp_ret. apply Hgo; [by apply sane_pos|by split|].
      transitivity (pos_of sl (length all)); [symmetry; apply pos_of_end|]. by rewrite El, Ebeh, app_nil_r.
    + rewrite bool_decide_eq_false_2 by (by rewrite Et). apply wp_bind, wp_bind, wp_assert. split; [by rewrite bool_decide_eq_true_2|].
      apply wp_modify, wp_ret. apply Hgo; [by apply sane_pos|by split|]. rewrite Ebeh. symmetry. apply pos_of_start.
Qed.

(** ** The keys to be read *)

Definition in_slice x : bool :=
  match sl_begin sl with Some b => 0 <=? tuple_compare (s_tuple x) b | None => true end &&
  match sl_end sl with Some e => tuple_compare (s_tuple x) e <? 0 | None => true end.
Definition wanted x : bool := in_range ty key x && in_slice x.
Definition to_scan : list (list stmt) :=
  let w := filter (fun g => first_of g wanted = true) gs in if 0 <? iterator_direction ty then w else rev w.

Context (Hkey : key = None -> ty = ITER_GE \/ ty = ITER_LE).

#[local] Instance in_reach_dec x : Decision (in_reach x).
Proof. unfold in_reach, key_before. destruct back, key, (sl_end sl), (sl_begin sl), (is_upper ty); apply _. Defined.

Lemma wanted_spec x : wanted x = true <-> in_reach x /\ out_of_slice sl ty x = false /\ eq_stops ty key x = false.
Proof.
  pose proof Hkey as Hk. unfold wanted, in_slice, in_range, in_reach, out_of_slice, outside, eq_stops, mismatch, key_before.
  destruct ty eqn:Et; cbn [backward is_upper bool_decide decide_rel];
    (destruct key as [k|] eqn:Ek; [|destruct (Hk eq_refl) as [E|E]; try discriminate E]);
    destruct (sl_begin sl) as [b|], (sl_end sl) as [e|];
    try (rewrite bool_decide_eq_true_2 by done); try (rewrite bool_decide_eq_false_2 by done); cbn [andb negb]; lia.
Qed.

(** *** In the direction of the iterator *)

Definition precedes (s t : T) : Prop := if back then tuple_compare t s < 0 else tuple_compare s t < 0.

Lemma reach_closed x y : in_reach x -> precedes (s_tuple x) (s_tuple y) \/ same_key (s_tuple x) (s_tuple y) -> in_reach y.
Proof.
  assert (forall u v w : T, tuple_compare u v <= 0 -> tuple_compare v w < 0 -> tuple_compare u w < 0) as Hlt by apply compare_le_lt_trans.
  unfold in_reach, precedes, same_key. assert (back = true \/ back = false) as [Eb|Eb] by (destruct back; auto); rewrite Eb; intros [H1 H2] H.
  - assert (tuple_compare (s_tuple y) (s_tuple x) <= 0) as Hle by (destruct H as [H|H]; [lia|apply compare_zero in H; lia]).
    split; [destruct key as [k|]; [by eapply key_before_le|done]|destruct (sl_end sl) as [e|]; [by eapply Hlt|done]].
  - assert (tuple_compare (s_tuple x) (s_tuple y) <= 0) as Hle by lia.
    split; [destruct key as [k|]; [|done]; intros Hk; by eapply H1, key_before_le|].
    destruct (sl_begin sl) as [b|]; [|done]. destruct (Z.le_gt_cases 0 (tuple_compare (s_tuple y) b)) as [?|Hgt]; [done|].
    pose proof (Hlt _ _ _ Hle Hgt). lia.
Qed.
Lemma outside_closed x y : out_of_slice sl ty x = true -> precedes (s_tuple x) (s_tuple y) -> out_of_slice sl ty y = true.
Proof.
  unfold out_of_slice, outside, precedes. assert (back = true \/ back = false) as [Eb|Eb] by (destruct back; auto); rewrite Eb.
  - destruct (sl_begin sl) as [b|]; [|done]. cmp3 (s_tuple x) (s_tuple y) b. pose proof (compare_le_lt_trans (s_tuple y) (s_tuple x) b). lia.
  - destruct (sl_end sl) as [e|]; [|done]. cmp3 (s_tuple x) (s_tuple y) e. pose proof (compare_le_lt_trans (s_tuple y) (s_tuple x) e). lia.
Qed.
Lemma stops_closed x y : eq_stops ty key x = true -> in_reach x -> precedes (s_tuple x) (s_tuple y) -> eq_stops ty key y = true.
Proof.
  unfold eq_stops, mismatch, in_reach, precedes, key_before. destruct (decide (ty = ITER_EQ)) as [Et|Et].
  - rewrite Et, bool_decide_eq_true_2 by done. cbn [backward is_upper]. destruct key as [k|]; [|done].
    intros E1 E2 E3. cmpk (s_tuple x) (s_tuple y) k. lia.
  - by rewrite bool_decide_eq_false_2.
Qed.

Lemma reach_split_exists : exists ahead behind, reach_split ahead behind.
Proof.
  assert (back = true \/ back = false) as [Eb|Eb] by (destruct back; auto).
  - destruct (split_groups in_reach gs Hgs) as (A & B & E & HA & HB).
    { intros x y Hle Hy. apply (reach_closed y); [done|]. unfold precedes, same_key. rewrite Eb. pose proof (compare_zero (s_tuple x) (s_tuple y)). lia. }
    exists (rev A), B. split; [unfold sides; by rewrite Eb, rev_involutive| |done].
    rewrite <- (path_of_backward ty A) by done. apply Forall_rev. by rewrite path_of_perm.
  - destruct (split_groups (fun x => ~ in_reach x) gs Hgs) as (A & B & E & HA & HB).
    { intros x y Hle Hy Hx. apply Hy, (reach_closed x); [done|]. unfold precedes, same_key. rewrite Eb. lia. }
    exists B, A. split; [unfold sides; by rewrite Eb| |done]. eapply Forall_impl; [exact HB|]. intros x Hx. destruct (decide (in_reach x)); [done|by destruct Hx].
Qed.

(** The first keys ahead are to be read. *)
Lemma ahead_split ahead :
  StronglySorted (fun g g' => forall x y, x ∈ g -> y ∈ g' -> precedes (s_tuple x) (s_tuple y)) ahead -> Forall key_group ahead ->
  Forall in_reach (concat ahead) -> exists todo out, ahead = todo ++ out /\ to_read sl ty key todo /\ done_with sl ty key out /\
    todo = filter (fun g => first_of g wanted = true) ahead.
Proof.
  intros Ho. induction Ho as [|g ahead Ho IH Hf]; intros Hk Hr; [exists [], []; split_and!; by try constructor|].
  inversion Hk as [|?? Hg Hk']; subst. cbn in Hr. apply Forall_app in Hr as [Hr1 Hr2].
  destruct g as [|x g]; [by destruct (kg_ne _ Hg)|]. apply Forall_inv in Hr1 as Hx.
  destruct (wanted x) eqn:Ew.
  - destruct IH as (todo & out & E & Ht & Hd & Ef); [done|done|]. exists ((x :: g) :: todo), out.
    apply wanted_spec in Ew as Ew'. rewrite filter_cons_True by done. split_and!; [by rewrite E|constructor; [split; tauto|done]|done|by rewrite Ef].
  - exists [], ((x :: g) :: ahead). assert (forall g', g' ∈ ahead -> exists y l, g' = y :: l /\ precedes (s_tuple x) (s_tuple y)) as Hlater.
    { intros g' Hg'. rewrite Forall_forall in Hf, Hk'. specialize (Hf g' Hg' x). destruct g' as [|y l]; [by destruct (kg_ne _ (Hk' _ Hg'))|].
      exists y, l. split; [done|]. apply Hf; by left. }
    rewrite filter_cons_False by (cbn; congruence).
    assert (out_of_slice sl ty x = true \/ eq_stops ty key x = true) as Hstop.
    { destruct (out_of_slice sl ty x) eqn:E1; [by left|]. destruct (eq_stops ty key x) eqn:E2; [by right|].
      assert (wanted x = true) by (by apply wanted_spec). congruence. }
    split_and!; [done|constructor| |].
    + destruct Hstop as [Hout|Heq]; [right|by left]. constructor; [done|]. apply Forall_forall. intros g' Hg'.
      destruct (Hlater g' Hg') as (y & l & -> & Hp). by apply (outside_closed x).
    + symmetry. rewrite <- (app_nil_l ahead). apply filter_groups; [constructor|]. apply Forall_forall. intros g' Hg'.
      destruct (Hlater g' Hg') as (y & l & -> & Hp). cbn. intros Hy. apply wanted_spec in Hy as (_ & E1 & E2).
      destruct Hstop as [Hout|Heq]; [rewrite (outside_closed x y) in E1 by done; done|]. rewrite (stops_closed x y) in E2 by done. done.
Qed.

Lemma reach_split_scan ahead behind : reach_split ahead behind ->
  exists out, ahead = to_scan ++ out /\ to_read sl ty key to_scan /\ done_with sl ty key out.
Proof.
  intros [Hs HA HB]. pose proof (sides_groups ty gs Hgs _ _ Hs) as Hk.
  assert (Forall (fun g => ~ first_of g wanted = true) behind) as Hb.
  { pose proof (gr_group _ Hgs) as Hkg. rewrite Hs in Hkg. assert (Forall key_group behind) as Hkb by (destruct back; apply Forall_app in Hkg; tauto).
    eapply groups_Forall; [done|exact HB|]. intros x g _ Hx. cbn. by intros [? _]%wanted_spec. }
  assert (filter (fun g => first_of g wanted = true) behind = []) as Eb by (rewrite <- (app_nil_l behind); by apply filter_groups).
  assert (StronglySorted (fun g g' => forall x y, x ∈ g -> y ∈ g' -> precedes (s_tuple x) (s_tuple y)) ahead /\
          to_scan = filter (fun g => first_of g wanted = true) ahead) as [Ho Es].
  { pose proof (gr_order _ Hgs) as Ho. unfold to_scan, precedes, sides in *. rewrite Hs in Ho. rewrite Hs.
    assert ((0 <? iterator_direction ty) = negb back) as -> by (by destruct ty).
    assert (back = true \/ back = false) as [E|E] by (destruct back; auto); rewrite E in *; cbn [negb]; cbv zeta; rewrite filter_app, Eb.
    - rewrite app_nil_r. split; [|by rewrite <- filter_rev, rev_involutive]. apply StronglySorted_app_1_l, StronglySorted_rev in Ho.
      rewrite rev_involutive in Ho. eapply StronglySorted_weaken; [|exact Ho]. cbn. intros g g' H x y Hx Hy. by apply H.
    - split; [by apply StronglySorted_app_1_r in Ho|done]. }
  destruct (ahead_split ahead Ho Hk HA) as (todo & out & E & Ht & Hd & Ef). rewrite <- Es in Ef. subst todo. by exists out.
Qed.

(** ** The search *)

Lemma nothing_wanted : (forall x, x ∈ all -> wanted x = false) -> to_scan = [].
Proof.
  intros H. unfold to_scan. assert (filter (fun g => first_of g wanted = true) gs = []) as ->; [|by destruct (0 <? iterator_direction ty)].
  rewrite <- (app_nil_l gs). apply filter_groups; [constructor|]. apply Forall_forall. intros [|x g] Hg; [done|]. cbn. rewrite H; [done|].
  rewrite Hall. eapply (groups_elem gs); [done|exact Hg|by left].
Qed.
Lemma no_key_wanted : ty = ITER_EQ -> (forall k, key = Some k -> Forall (fun x => wanted x = true -> tuple_compare_with_key (s_tuple x) k <> 0) all) ->
  to_scan = [].
Proof.
  intros Et H. apply nothing_wanted. intros x Hx. destruct (wanted x) eqn:Ew; [exfalso|done]. apply wanted_spec in Ew as Ew'.
  destruct Ew' as (_ & _ & E). unfold eq_stops, mismatch in E. rewrite Et, bool_decide_eq_true_2 in E by done.
  destruct key as [k|] eqn:Ek; [|destruct (Hkey eq_refl); congruence]. specialize (H k eq_refl). rewrite Forall_forall in H. apply (H x Hx Ew). cbn in E. lia.
Qed.

Context (Hback : back = true ->
  Forall (fun x => has_flag VY_STMT_SKIP_READ x = false) all /\
  forall x, list.last all = Some x -> s_type x <> IPROTO_UPSERT).

(** From the first row in reach. *)
Lemma seek_read_spec i ahead behind e path check :
  sane sl i -> ri_search_started i = true -> reach_split ahead behind -> path_of ty ahead = e :: path ->
  ri_curr_pos i = path_pos sl ty (past_of ty behind) path ->
  (check = false -> eq_stops ty key e = false) -> (check = true -> ty = ITER_EQ) ->
  wp (modify (fun i => i <| ri_curr := None |>);;
      pos ← gets ri_curr_pos;
      next ← vy_run_iterator_read sl pos;
      match next with
      | None => mret (-1, None)
      | Some e =>
          modify (fun i => i <| ri_curr := Some e |>);;
          if check && mismatch key e then stopped else vy_run_iterator_find_lsn sl ty key vlsn
      end) (outcome sl ty key vlsn gs i to_scan) i.
Proof.
  intros Hs Hst Hr Ep Hpos Hf Ht. destruct (reach_split_scan _ _ Hr) as (out & Ea & Hto & Hdone). pose proof (rs_sides _ _ Hr) as Hsd.
  assert (on_path sl ty (past_of ty behind) e path) as Hon.
  { pose proof (rows_split_at _ _ Hsd) as El. unfold on_path, past_of, rows_left, rows_right in *. rewrite Ep in El.
    destruct back; [|by rewrite rev_involutive]. cbn [rev] in El. by rewrite <- app_assoc in El. }
  apply wp_bind, wp_modify, wp_bind, wp_gets, wp_bind. set (i0 := i <| ri_curr := None |>). change (ri_curr_pos i0) with (ri_curr_pos i). rewrite Hpos. subst i0.
  eapply (read_path sl ty Hok _ (past_of ty behind) e path); [by apply sane_curr|done|]. intros i1 Hs1 (R1 & R2 & R3 & R4).
  apply wp_bind, wp_modify. set (i2 := i1 <| ri_curr := Some e |>). assert (sane sl i2) as Hs2 by (by apply sane_curr).
  assert (frame i i2) as Hf2 by (by split).
  rewrite Ea in Ep, Hsd. destruct (check && mismatch key e) eqn:Ec.
  - apply andb_true_iff in Ec as [Ec Em]. apply (stopped_spec sl); [done|]. intros i3 Hs3 Hf3 Hc3. split; [done|]. split; [by eapply frame_trans|].
    split; [done|]. assert (to_scan = []) as ->; [|done].
    eapply (stops_first sl ty key gs Hgs _ _ _ e path); [exact Hsd|done|done|]. unfold eq_stops. by rewrite bool_decide_eq_true_2, Em by auto.
  - eapply wp_mono.
    { eapply (find_lsn_spec sl ty key vlsn Hok gs Hgs Hall Hback i2 (past_of ty behind) e path to_scan out behind); try done.
      - rewrite <- (proj1 Hf2) in Hst. done.
      - split; [done| |done]. cbn. by rewrite R1.
      - destruct check; [|by apply Hf]. cbn in Ec. unfold eq_stops. by rewrite Ec, andb_false_r. }
    intros res i3 (Hs3 & Hf3 & H3). split; [done|]. split; [by eapply frame_trans|done].
Qed.

Lemma seek_spec i :
  sane sl i -> ri_search_started i = true -> ri_curr i = None ->
  wp (vy_run_iterator_seek sl ty key vlsn None) (outcome sl ty key vlsn gs i to_scan) i.
Proof.
  intros Hs Hst Hc.
  assert (forall i', sane sl i' -> frame i i' -> to_scan = [] -> wp stopped (outcome sl ty key vlsn gs i to_scan) i') as Hstop.
  { intros i' Hs' Hf' ->. apply (stopped_spec sl); [done|]. intros i2 Hs2 Hf2 Hc2. split; [done|]. split; [by eapply frame_trans|done]. }
  unfold vy_run_iterator_seek. apply wp_bind, wp_assert. split; [done|]. apply wp_bind, wp_gets. rewrite Hc.
  match goal with |- wp (if ?b then _ else _) _ _ => destruct b eqn:Ebloom end.
  { apply Hstop; [done|done|]. assert (key = None \/ exists k, key = Some k) as [Ek|[k Ek]] by (destruct key; eauto);
      rewrite Ek in Ebloom; destruct (run_bloom r) as [f|] eqn:Ef; try done. apply andb_true_iff in Ebloom as [Et Hf].
    apply bool_decide_eq_true in Et. apply negb_true_iff in Hf. apply no_key_wanted; [done|]. intros k' Ek'. apply Forall_forall.
    intros x Hx _ H0. assert (k' = k) as -> by congruence. rewrite (rk_bloom _ Hok f x k Ef Hx H0) in Hf. done. }
  pose proof (seek_from_spec Hkey) as Hfrom. destruct (seek_from sl ty key None) as [[[ty' k'] check]|].
  2: { apply Hstop; [done|done|]. destruct Hfrom as (Et & k & b & Ek & Eb & Hlt). apply no_key_wanted; [done|]. intros k' Ek'. apply Forall_forall.
       intros x _ Hw H0. assert (k' = k) as -> by congruence. apply wanted_spec in Hw as (Hw & _). unfold in_reach in Hw. rewrite Et, Eb in Hw. cbn [backward] in Hw.
       destruct Hw as [_ Hw]. cmpk (s_tuple x) b k. lia. }
  destruct reach_split_exists as (ahead & behind & Hr). apply wp_bind. eapply wp_mono; [by eapply do_seek_spec|].
  intros rc i1 (Hs1 & Hf1 & [[-> Hnone]|(-> & e & path & Ep & Hpos & Heq)]); cbn [Z.ltb Z.compare].
  - apply Hstop; [done|done|]. destruct (reach_split_scan _ _ Hr) as (out & Ea & Hto & _). destruct Hnone as [->|(k & Et' & Ek' & Hno)].
    { symmetry in Ea. by apply app_eq_nil in Ea as [? _]. }
    assert (ty = ITER_EQ /\ key = Some k) as [Et Ek].
    { destruct (decide (ty = ITER_EQ)) as [Et|Et]; [|by destruct (fh_other _ Hfrom Et)]. split; [done|].
      destruct (fh_eq _ Hfrom Et) as [(_ & E & _)|[E _]]; cbn [fst snd] in *; congruence. }
    destruct to_scan as [|g todo]; [done|]. exfalso. apply Forall_inv in Hto as [Hg _]. pose proof (sides_groups ty gs Hgs _ _ (rs_sides _ _ Hr)) as Hk.
    rewrite Ea in Hno, Hk. destruct (path_head ty g (todo ++ out) (Forall_inv Hk)) as (y & p & Ey & Hy). cbn [app] in Hno. rewrite Ey in Hno.
    apply Forall_inv in Hno. pose proof (group_agrees _ g (eq_stops_same ty key) (Forall_inv Hk)) as Hag. rewrite Forall_forall in Hag.
    rewrite <- (Hag y Hy) in Hg. unfold eq_stops, mismatch in Hg. rewrite Et, Ek, bool_decide_eq_true_2 in Hg by done. cbn in Hg. lia.
  - eapply wp_mono.
    { eapply (seek_read_spec i1 ahead behind e path check); [done| |done|done|done| |].
      - rewrite (proj1 Hf1). done.
      - intros ->. unfold eq_stops, mismatch. destruct (decide (ty = ITER_EQ)) as [Et|Et]; [|by rewrite bool_decide_eq_false_2].
        destruct (fh_eq _ Hfrom Et) as [(E1 & E2 & _)|[_ ?]]; [|done]. cbn [fst snd] in *. destruct key as [k|]; [|by rewrite andb_false_r].
        rewrite (Heq E1 k E2). by rewrite andb_false_r.
      - intros ->. destruct (decide (ty = ITER_EQ)) as [Et|Et]; [done|]. by destruct (fh_other _ Hfrom Et). }
    intros res i2 (Hs2 & Hf2 & H2). split; [done|]. split; [by eapply frame_trans|done].
Qed.
End Seek.
