(* ===== verification/VyRunTheorems.v ===== *)
(** * Theorems on the readers of runs *)

From stdpp Require Import list sorting.
From S2P Require Import Prelude VyStmt VyVisible VyViews VyOutput VyTheorems VyMem VyMemSafety VyMemTheorems VyRunReader VyPages VyRunSearch VyRunScan VyRunSeek.

Open Scope Z_scope.

Section RunTheorems.
Context {T O K : Type} `{!Tuples T O, !TuplesLaws T O, !SearchKeys T K, !SearchKeysLaws T O K}.
Abbreviation stmt := (vy_stmt T O).
Abbreviation itr := (run_iterator T O).
Implicit Types (e x y : stmt) (l g : list stmt) (gs todo out : list (list stmt)) (i : itr) (k : K) (sl : vy_slice T O K).

Section Iterating.
Context (sl : vy_slice T O K) (ty : iterator_type) (key : option K) (vlsn : Z) (Hok : run_ok (sl_run sl)).
Context (gs : list (list stmt)) (Hgs : grouped gs) (Hall : rows (sl_run sl) = concat gs).
Context (Hkey : key = None -> ty = ITER_GE \/ ty = ITER_LE).
Context (Hback : backward ty = true ->
  Forall (fun x => has_flag VY_STMT_SKIP_READ x = false) (rows (sl_run sl)) /\
  forall x, list.last (rows (sl_run sl)) = Some x -> s_type x <> IPROTO_UPSERT).
Abbreviation back := (backward ty).

(** The iterator between two calls, with the keys [todo] to come. *)
Inductive iterating i : list (list stmt) -> Prop :=
  | it_new : sane sl i -> ri_search_started i = false -> ri_curr i = None -> iterating i (to_scan sl ty key gs)
  | it_inside gs1 g gs2 todo out : sane sl i -> ri_search_started i = true -> gs = gs1 ++ g :: gs2 -> inside sl i gs1 g gs2 ->
      (if back then rev gs1 else gs2) = todo ++ out -> to_read sl ty key todo -> done_with sl ty key out -> iterating i todo
  | it_end : sane sl i -> ri_search_started i = true -> ri_curr i = None -> iterating i [].

Lemma run_next_key_spec i todo : iterating i todo ->
  wp (vy_run_iterator_next_key sl ty key vlsn) (fun res i' => ri_search_started i' = true /\ ri_history i' = ri_history i /\
    exists j, outcome sl ty key vlsn gs j todo res i') i.
Proof.
  intros [Hs Hst Hc|gs1 g gs2 t out Hs Hst E Hin Er Ht Hd|Hs Hst Hc].
  - unfold vy_run_iterator_next_key. apply wp_bind, wp_gets. rewrite Hst. cbn [negb]. apply wp_bind, wp_modify.
    set (i1 := i <| ri_search_started := true |>). assert (sane sl i1) as Hs1 by (by destruct Hs).
    eapply wp_mono; [by apply (seek_spec sl ty key vlsn Hok gs Hgs Hall Hkey Hback i1)|].
    intros res i2 Ho. pose proof Ho as (_ & [F1 F2] & _). split; [by rewrite F1|]. split; [by rewrite F2|]. by exists i1.
  - eapply wp_mono; [by apply (run_next_key_inside sl ty key vlsn Hok gs Hgs Hall Hback i gs1 g gs2 t out)|].
    intros res i2 Ho. pose proof Ho as (_ & [F1 F2] & _). split; [by rewrite F1|]. split; [done|]. by exists i.
  - unfold vy_run_iterator_next_key. apply wp_bind, wp_gets. rewrite Hst. cbn [negb]. apply wp_bind, wp_gets. rewrite Hc. apply wp_ret.
    split; [done|]. split; [done|]. exists i. split; [done|]. by split.
Qed.

Lemma run_next_spec i todo : iterating i todo ->
  wp (vy_run_iterator_next sl ty key vlsn) (fun rc i' => rc = 0 /\
    match next_seen vlsn todo with
    | None => ri_history i' = [] /\ iterating i' []
    | Some (g, later) => ri_history i' = history_of vlsn g /\ iterating i' later
    end) i.
Proof.
  intros Hi. unfold vy_run_iterator_next, run_history_cleanup. apply wp_bind, wp_modify, wp_bind.
  assert (iterating (i <| ri_history := [] |>) todo) as Hi'.
  { destruct Hi as [[] Hst Hc|gs1 g gs2 t out [] Hst E (h1 & x & h2 & Eg & []) Er Ht Hd|[] Hst Hc]; [by apply it_new| |by apply it_end].
    eapply (it_inside _ gs1 g gs2 t out); try done. by exists h1, x, h2. }
  eapply wp_mono; [by apply run_next_key_spec|]. intros [rc entry] i1 (Hst & Eh & j & Hs1 & _ & Erc & Ho). cbn [fst snd] in *. subst rc. cbn [Z.eqb negb].
  destruct (next_seen vlsn todo) as [[g later]|].
  - destruct Ho as (gs1 & gs2 & x & out & E & -> & (h1 & h2 & Eg & Hh1 & Hx & Hsd) & Er & Ht & Hd).
    eapply wp_mono.
    { eapply (run_history_loop_spec sl ty Hok gs Hgs Hall Hback gs1 g gs2 E (row_total sl) i1 h1 x h2 []); try done.
      change (row_total sl) with (length (rows (sl_run sl))). rewrite (sd_rows _ _ _ _ _ Hsd), (length_app (concat gs1 ++ h1)).
      cbn [length]. rewrite (length_app h2). lia. }
    intros rc i2 (-> & Hs2 & Hst2 & Eh2 & Hin). split; [done|].
    rewrite (landed_history_of vlsn gs Hgs gs1 g gs2 h1 x h2 E Eg Hh1 Hx). split; [done|].
    destruct Hin as [Hin|(Hc & E2 & Eb)]; [by eapply (it_inside i2 gs1 g gs2 later out)|].
    rewrite Eb, E2 in Er. symmetry in Er. apply app_eq_nil in Er as [-> _]. by apply it_end.
  - destruct Ho as [-> Hc]. destruct (row_total sl); cbn [run_history_loop]; apply wp_ret; (split; [done|]; split; [done|]; by apply it_end).
Qed.

(** The histories of [n] calls. *)
Fixpoint run_nexts (n : nat) : prog itr (list (list stmt)) :=
  match n with
  | 0%nat => mret []
  | S n =>
      rc ← vy_run_iterator_next sl ty key vlsn;
      if negb (rc =? 0) then abort
      else h ← gets ri_history; hs ← run_nexts n; mret (h :: hs)
  end.

Lemma run_nexts_spec n : forall i todo, iterating i todo ->
  wp (run_nexts n) (fun hs _ => hs = take n (histories_of vlsn todo ++ replicate n [])) i.
Proof.
  induction n as [|n IH]; intros i todo Hi; cbn [run_nexts]; [by apply wp_ret|].
  apply wp_bind. eapply wp_mono; [by apply run_next_spec|]. intros rc i' [-> H]. cbn [Z.eqb negb].
  apply wp_bind, wp_gets, wp_bind. rewrite histories_of_next.
  assert (forall l : list (list stmt), take n (l ++ replicate (S n) []) = take n (l ++ replicate n ([] : list stmt))) as Et.
  { intros l. rewrite replicate_S_end, app_assoc, take_app_le; [done|]. rewrite length_app, length_replicate. lia. }
  destruct (next_seen vlsn todo) as [[g later]|]; destruct H as [Eh Hi']; rewrite Eh;
    (eapply wp_mono; [by apply IH|]); intros hs i2 ->; apply wp_ret; cbn [app take replicate]; f_equal.
  by rewrite <- Et.
Qed.
End Iterating.

(** ** The rows of a slice *)

Definition slice_rows (sl : vy_slice T O K) : list stmt := filter (fun x => in_slice sl x = true) (rows (sl_run sl)).

Lemma in_slice_same sl x y : same_key (s_tuple x) (s_tuple y) -> in_slice sl x = in_slice sl y.
Proof.
  intros Hk. unfold in_slice. f_equal.
  - destruct (sl_begin sl) as [b|]; [|done]. pose proof (proj2 (same_key_sign _ _ b Hk)). lia.
  - destruct (sl_end sl) as [e|]; [|done]. pose proof (proj1 (same_key_sign _ _ e Hk)). lia.
Qed.

Lemma groups_prepend s rest ms :
  Forall (fun x => same_key (s_tuple s) (s_tuple x)) rest -> (forall g, head (groups ms) = Some g -> exists y, head g = Some y /\ ~ same_key (s_tuple s) (s_tuple y)) ->
  groups (s :: rest ++ ms) = (s :: rest) :: groups ms.
Proof.
  intros Hr. revert s Hr. induction rest as [|z rest IH]; intros s Hr Hg.
  - change (groups (s :: [] ++ ms)) with (group_cons s (groups ms)). destruct (groups ms) as [|g gs]; [done|].
    destruct (Hg g eq_refl) as (y & Ey & Hn). destruct g as [|y' g]; [done|]. injection Ey as ->. cbn. by rewrite decide_False.
  - apply Forall_cons in Hr as [Hz Hr]. change (groups (s :: (z :: rest) ++ ms)) with (group_cons s (groups (z :: rest ++ ms))).
    rewrite IH; [cbn; by rewrite decide_True| |].
    + eapply Forall_impl; [exact Hr|]. cbn. intros x Hx. etransitivity; [symmetry; exact Hz|done].
    + intros g Eg. destruct (Hg g Eg) as (y & Ey & Hn). exists y. split; [done|]. intros Hy. apply Hn. by etransitivity.
Qed.
Lemma groups_unique gs : grouped gs -> groups (concat gs) = gs.
Proof.
  intros [Hk Ho]. induction Ho as [|g gs Ho IH Hf]; [done|]. inversion Hk as [|?? [Hne Hs _] Hk']; subst.
  destruct g as [|s rest]; [done|]. change (concat ((s :: rest) :: gs)) with (s :: rest ++ concat gs). 
  rewrite groups_prepend, IH; [done|done|apply Forall_forall; intros x Hx; apply Hs; [by left|by right]|].
  rewrite IH by done. intros g Eg. destruct gs as [|g' gs]; [done|]. injection Eg as ->. apply Forall_inv in Hf. destruct g as [|y g].
  - by apply Forall_inv, kg_ne in Hk'.
  - exists y. split; [done|]. unfold same_key. specialize (Hf s y ltac:(by left) ltac:(by left)). lia.
Qed.
Lemma grouped_filter (P : list stmt -> Prop) `{!forall g, Decision (P g)} gs : grouped gs -> grouped (filter P gs).
Proof.
  intros [Hk Ho]. split.
  - apply Forall_forall. intros g Hg. apply list_elem_of_filter in Hg as [_ Hg]. rewrite Forall_forall in Hk. by apply Hk.
  - clear Hk. induction Ho as [|g gs Ho IH Hf]; [constructor|]. destruct (decide (P g)).
    + rewrite filter_cons_True by done. constructor; [done|]. apply Forall_forall. intros g' Hg'. apply list_elem_of_filter in Hg' as [_ Hg'].
      rewrite Forall_forall in Hf. by apply Hf.
    + by rewrite filter_cons_False.
Qed.
Lemma slice_groups sl : tree_sorted (rows (sl_run sl)) ->
  groups (slice_rows sl) = filter (fun g => first_of g (in_slice sl) = true) (groups (rows (sl_run sl))).
Proof.
  intros Hs. pose proof (groups_grouped _ Hs) as Hg. unfold slice_rows. rewrite <- (groups_concat (rows (sl_run sl))) at 1.
  rewrite <- (groups_unique (filter _ (groups (rows (sl_run sl))))) by (by apply grouped_filter). f_equal.
  pose proof (gr_group _ Hg) as Hk. clear Hg. induction Hk as [|g gs Hk1 Hk IH]; [done|]. cbn [concat]. rewrite filter_app, IH.
  pose proof (group_agrees (in_slice sl) g (in_slice_same sl) Hk1) as Ha. destruct (first_of g (in_slice sl)) eqn:E.
  - rewrite filter_all by done. by rewrite (filter_cons_True _ g).
  - rewrite filter_none by (eapply Forall_impl; [exact Ha|]; cbn; congruence). by rewrite (filter_cons_False _ g) by congruence.
Qed.

Lemma scan_slice sl ty (key : option K) vlsn : tree_sorted (rows (sl_run sl)) ->
  scan ty key vlsn (slice_rows sl) = histories_of vlsn (to_scan sl ty key (groups (rows (sl_run sl)))).
Proof.
  intros Hs. unfold scan, histories_of, to_scan. rewrite slice_groups by done. rewrite list_filter_filter.
  rewrite (list_filter_iff (fun g => first_of g (in_range ty key) = true /\ first_of g (in_slice sl) = true)
    (fun g => first_of g (wanted sl ty key) = true)); [done|]. intros [|x g]; cbn; [tauto|].
  unfold wanted. by rewrite andb_true_iff.
Qed.

(** ** The iterator *)

(** C18: the iterator over a slice of a run is complete and ordered.  If no
    allocation and no read of the disk fails, and every row can be decoded,
    [n] calls of vy_run_iterator_next return the histories, as seen by the read
    view and down to the first statement that is not an UPSERT, of the next keys
    of the slice that match, in the direction of the iterator, and then nothing.
    The key may be full, partial or absent; without a key the type is GE or LE.
    The run is sorted, its index has the first key of every page, and its filter
    has no false negatives.  A reverse iterator does this for runs without
    statements that are not to be read and that do not end with an UPSERT: the
    counterexamples are C35 and reverse_iterator_outdated.  Without the condition
    on failures a key can be missed silently: lookup_hides_out_of_memory. *)
Theorem run_iterator_scans sl ty (key : option K) vlsn n :
  run_ok (sl_run sl) -> (key = None -> ty = ITER_GE \/ ty = ITER_LE) ->
  (backward ty = true -> Forall (fun x => has_flag VY_STMT_SKIP_READ x = false) (rows (sl_run sl)) /\
    forall x, list.last (rows (sl_run sl)) = Some x -> s_type x <> IPROTO_UPSERT) ->
  wp (run_nexts sl ty key vlsn n) (fun hs _ => hs = take n (scan ty key vlsn (slice_rows sl) ++ replicate n []))
    (vy_run_iterator_open sl []).
Proof.
  intros Hok Hkey Hback. pose proof (rk_sorted _ Hok) as Hs. rewrite scan_slice by done.
  eapply (run_nexts_spec sl ty key vlsn Hok _ (groups_grouped _ Hs) (eq_sym (groups_concat _)) Hkey Hback).
  apply it_new; [|done|done]. split; [done|done|]. intros H. by apply elem_of_nil in H.
Qed.
End RunTheorems.

(** ** A run of keys of two parts *)

Module PartRuns.
Import Parts.

(** Two pages; the keys that begin with 1 are in both. *)
Definition part_pages : list (vy_page part_tuple Z) :=
  [mk_page (0, 5, 100) 3 [ps 1 IPROTO_REPLACE 9 0 5 100 []; ps 2 IPROTO_UPSERT 8 1 2 20 [7]; ps 3 IPROTO_REPLACE 7 1 2 30 []];
   mk_page (1, 4, 40) 3 [ps 4 IPROTO_REPLACE 6 1 4 40 []; ps 5 IPROTO_REPLACE 2 1 4 41 []; ps 6 IPROTO_REPLACE 3 2 1 50 []]].
Definition part_run : vy_run part_tuple Z part_key := mk_run part_pages (Some (fun k => fst k <? 4)).
Definition part_slice : vy_slice part_tuple Z part_key := mk_slice part_run (Some (1, 2, 0)) None 0 1.

Lemma part_run_ok : run_ok part_run.
Proof.
  split; [|done| |].
  - repeat (constructor; [split; [done|by eexists _, _]|]). constructor.
  - repeat constructor; vm_compute; reflexivity.
  - intros f x k [= <-] Hx. cbn. assert (Forall (fun x : vy_stmt part_tuple Z => fst (fst (s_tuple x)) < 4) (rows part_run)) as Hf
      by (repeat constructor; cbn; lia).
    rewrite Forall_forall in Hf. specialize (Hf x Hx). cbv beta in Hf.
    destruct (Z.eqb_spec (fst (fst (s_tuple x))) (fst k)); lia.
Qed.

(** Two keys match the partial key, one in each page. *)
Lemma run_iterator_scans_witness :
  wp (run_nexts part_slice ITER_EQ (Some part_one) 8 3) (fun hs _ => hs =
    [[ps 2 IPROTO_UPSERT 8 1 2 20 [7]; ps 3 IPROTO_REPLACE 7 1 2 30 []]; [ps 4 IPROTO_REPLACE 6 1 4 40 []]; []])
    (vy_run_iterator_open part_slice []).
Proof.
  eapply wp_mono; [apply (run_iterator_scans part_slice ITER_EQ (Some part_one) 8 3 part_run_ok)|].
  - discriminate.
  - discriminate.
  - intros hs i ->. vm_compute. reflexivity.
Defined.
End PartRuns.

(** ** A run of counters *)

Module Runs.
Import Counters.
Abbreviation counter := (vy_stmt (Z * Z) Z).

Definition page_of (l : list counter) : vy_page (Z * Z) Z :=
  mk_page (match l with x :: _ => s_tuple x | [] => (0, 0) end) (Z.of_nat (length l)) l.

(** Two pages; the statements of the first key are in both. *)
Definition counters_run : vy_run (Z * Z) Z (Z * Z) :=
  mk_run [page_of [st 1 IPROTO_UPSERT 8 0 1 100 [7]; st 2 IPROTO_REPLACE 7 0 1 20 []];
          page_of [st 3 IPROTO_REPLACE 3 0 1 5 []; st 4 IPROTO_REPLACE 9 0 2 40 []; st 5 IPROTO_REPLACE 2 0 3 41 []]]
         (Some (fun k => fst k <? 4)).
Definition counters_slice : vy_slice (Z * Z) Z (Z * Z) := mk_slice counters_run None (Some (3, 0)) 0 1.

Lemma counters_run_ok : run_ok counters_run.
Proof.
  split; [|done| |].
  - repeat (constructor; [split; [done|by eexists _, _]|]). constructor.
  - repeat constructor; vm_compute; reflexivity.
  - intros f x k [= <-] Hx. unfold same_key. cbn. assert (Forall (fun x => fst (s_tuple x) < 4) (rows counters_run)) as Hf by (repeat constructor; cbn; lia).
    rewrite Forall_forall in Hf. specialize (Hf x Hx). cbv beta in Hf. lia.
Qed.

(** The run has the keys 1 and 2, and the last key has nothing but an UPSERT. *)
Definition upsert_last : vy_slice (Z * Z) Z (Z * Z) :=
  mk_slice (mk_run [page_of [st 1 IPROTO_REPLACE 5 0 1 10 []; st 2 IPROTO_UPSERT 7 0 2 20 [1]]] None) None None 0 0.
(** C35: there is a run over which a reverse iterator loses a key.  The run has
    a REPLACE of key 1 and an UPSERT of key 2; read in reverse, without a key
    and with a read view that sees both, it gives the UPSERT and then nothing,
    although key 1 is in it.  vy_run_iterator_next_lsn, which looks for an older
    statement of key 2, reaches the end of the run and stops the iterator. *)
Theorem reverse_iterator_stops :
  scan ITER_LE None 10 (slice_rows upsert_last) = [[st 2 IPROTO_UPSERT 7 0 2 20 [1]]; [st 1 IPROTO_REPLACE 5 0 1 10 []]] /\
  wp (run_nexts upsert_last ITER_LE None 10 2) (fun hs _ => hs = [[st 2 IPROTO_UPSERT 7 0 2 20 [1]]; []])
    (vy_run_iterator_open upsert_last []).
Proof. split; vm_compute; reflexivity. Qed.

(** A reverse iterator returns an old statement.  On its way to the newest
    statement of a key, vy_run_iterator_find_lsn stops at a DELETE that is not
    to be read, and the REPLACE behind it stays hidden. *)
Definition skip_inside : vy_slice (Z * Z) Z (Z * Z) :=
  mk_slice (mk_run [page_of [st 1 IPROTO_REPLACE 10 0 1 30 []; st 2 IPROTO_DELETE 8 VY_STMT_SKIP_READ 1 20 []; st 3 IPROTO_REPLACE 5 0 1 10 []]] None) None None 0 0.
Theorem reverse_iterator_outdated :
  wp (run_nexts skip_inside ITER_GE None 10 1) (fun hs _ => hs = [[st 1 IPROTO_REPLACE 10 0 1 30 []]]) (vy_run_iterator_open skip_inside []) /\
  wp (run_nexts skip_inside ITER_LE None 10 1) (fun hs _ => hs = [[st 3 IPROTO_REPLACE 5 0 1 10 []]]) (vy_run_iterator_open skip_inside []).
Proof. split; vm_compute; reflexivity. Qed.

(** a failure to decode a row is taken for the end of a search.  The key 2 is
    in the run, and the first row that is compared with it cannot be decoded:
    the lookup reports success and that there is no such key. *)
Theorem lookup_hides_out_of_memory :
  wp (vy_run_iterator_next counters_slice ITER_EQ (Some (2, 0)) 10) (fun rc i => rc = 0 /\ ri_history i = [st 4 IPROTO_REPLACE 9 0 2 40 []])
    (vy_run_iterator_open counters_slice []) /\
  wp (vy_run_iterator_next counters_slice ITER_EQ (Some (2, 0)) 10) (fun rc i => rc = 0 /\ ri_history i = [] /\ ri_oom i = [])
    (vy_run_iterator_open counters_slice [false; false; false; false; false; true]).
Proof. split; vm_compute; split_and!; reflexivity. Qed.
End Runs.
