(* ===== verification/VySlices.v ===== *)
(** * Slices and their streams

    vy_slice_new and vy_slice_cut find the pages of a slice, and the stream of
    a slice reads the rows of the run that are in its bounds. *)

From stdpp Require Import list sorting.
From S2P Require Import Prelude VyStmt VyVisible VyViews VyMem VyMemSafety VyMemTheorems VyRunReader VyPages VyRunSearch VyRunScan VyRunSeek VyRunTheorems.

Open Scope Z_scope.

Lemma filter_agree {A} (P Q : A -> Prop) `{!forall x, Decision (P x), !forall x, Decision (Q x)} (l : list A) :
  Forall (fun x => P x <-> Q x) l -> filter P l = filter Q l.
Proof.
  intros Hf. induction Hf as [|x l Hx Hf IH]; [done|]. rewrite !filter_cons, IH. destruct (decide (P x)), (decide (Q x)); tauto || done.
Qed.

Section Slices.
Context {T O : Type} `{!Tuples T O, !TuplesLaws T O}.
Abbreviation stmt := (vy_stmt T O).
Abbreviation page := (vy_page T O).
Abbreviation run := (vy_run T O T).
Abbreviation stream := (slice_stream T O).
Implicit Types (x y : stmt) (l : list stmt) (p : page) (a b A B : list page) (s : stream) (k : T) (sl : vy_slice T O T).

(** The bounds are in order. *)
Definition bounds_ok (begin end_ : option T) : Prop :=
  match begin, end_ with Some k, Some k' => tuple_compare k k' < 0 | _, _ => True end.

(** The page with the number, the rows before it and the rows behind it. *)
Definition around (r : run) (no : Z) (k : T) : Prop := exists a p b, run_pages r = a ++ p :: b /\ no = Z.of_nat (length a) /\
  Forall (fun x => tuple_compare (s_tuple x) k < 0) (rows_of a) /\ Forall (fun x => ~ tuple_compare (s_tuple x) k < 0) (rows_of b).

Record slice_ok sl : Prop := {
  so_run : run_ok (sl_run sl);
  so_first : match sl_begin sl with Some k => around (sl_run sl) (sl_first_page_no sl) k | None => sl_first_page_no sl = 0 end;
  so_last : match sl_end sl with Some k => around (sl_run sl) (sl_last_page_no sl) k | None => sl_last_page_no sl = page_count (sl_run sl) - 1 end;
}.

Section New.
Context (r : run) (Hok : run_ok r).

(** The lemmas on the pages of a run do not depend on the slice. *)
Definition whole : vy_slice T O T := mk_slice r None None 0 0.

Lemma earlier_rows k a p b : run_pages r = a ++ p :: b -> tuple_compare (pg_min_key p) k < 0 ->
  Forall (fun x => tuple_compare (s_tuple x) k < 0) (rows_of a).
Proof.
  intros E Hp. destruct (page_first whole Hok p) as (y & l & Ey & Em); [cbn; rewrite E; set_solver|]. rewrite Em in Hp.
  apply Forall_forall. intros x Hx. eapply compare_le_lt_trans; [|exact Hp].
  eapply (pages_order_l whole Hok); [exact E|done|rewrite Ey; by left].
Qed.

Lemma find_bound ty k : is_upper ty = false -> exists A B equal, run_pages r = A ++ B /\
  Forall (fun p => tuple_compare (pg_min_key p) k < 0) A /\ Forall (fun p => ~ tuple_compare (pg_min_key p) k < 0) B /\
  Forall (fun x => ~ tuple_compare (s_tuple x) k < 0) (rows_of B) /\
  vy_page_index_find_page r k ty =
    Some (if backward ty then (if (length A =? 0)%nat then page_count r else Z.of_nat (length A) - 1)
          else Z.of_nat (length A - 1), equal).
Proof.
  intros Hu. destruct (split_pages whole Hok false k) as (A & B & Er & HA & HB). cbn in Er.
  destruct (find_page_spec r k false A B Er HA HB) with (ty := ty) as (equal & Ef & _); [| |done|].
  - rewrite <- Er. apply (mins_sorted whole Hok).
  - rewrite <- Er. apply Hok.
  - exists A, B, equal. split_and!; [done|done|done|exact (later_pages whole Hok k false A B Er HA HB)|done].
Qed.

(** The first page of a slice, and the last one. *)
Lemma first_page k A B : run_pages r = A ++ B -> Forall (fun p => tuple_compare (pg_min_key p) k < 0) A ->
  Forall (fun x => ~ tuple_compare (s_tuple x) k < 0) (rows_of B) -> around r (Z.of_nat (length A - 1)) k.
Proof.
  intros Er HA HB. destruct A as [|p a _] using rev_ind.
  - pose proof (rk_some _ Hok) as Hne. rewrite Er in Hne. destruct B as [|p b]; [done|]. exists [], p, b.
    rewrite rows_of_cons in HB. apply Forall_app in HB as [_ HB]. split_and!; [done|done|constructor|done].
  - apply Forall_app in HA as [_ Hp]. apply Forall_inv in Hp. rewrite <- app_assoc in Er. cbn in Er. exists a, p, B.
    split_and!; [done|rewrite length_app; cbn; lia|by eapply earlier_rows|done].
Qed.

Lemma slice_new_spec begin end_ : bounds_ok begin end_ ->
  exists sl, vy_slice_new r begin end_ = Some sl /\ slice_ok sl /\ sl_run sl = r /\ sl_begin sl = begin /\ sl_end sl = end_.
Proof.
  intros Hb. assert (0 < page_count r) as Hc.
  { unfold page_count. pose proof (rk_some _ Hok). destruct (run_pages r); [done|]. cbn. lia. }
  unfold vy_slice_new. destruct (Z.eqb_spec (page_count r) 0) as [?|_]; [lia|].
  assert (exists first, match begin with None => Some 0 | Some k => '(p, _) ← vy_page_index_find_page r k ITER_GE; if p <? page_count r then Some p else None end = Some first /\
    0 <= first < page_count r /\ match begin with Some k => around r first k | None => first = 0 end /\
    (forall k A B, end_ = Some k -> run_pages r = A ++ B -> Forall (fun p => ~ tuple_compare (pg_min_key p) k < 0) B -> first <= Z.of_nat (length A - 1))) as (first & -> & Hr & Hf & Hle).
  { destruct begin as [k|]; [|exists 0; split_and!; [done|lia|done|done|lia]].
    destruct (find_bound ITER_GE k eq_refl) as (A & B & eq & Er & HA & HB & HR & Ef). rewrite Ef. cbn [mbind option_bind backward].
    exists (Z.of_nat (length A - 1)).
    assert (Z.of_nat (length A - 1) < page_count r) as Hlt.
    { unfold page_count in *. rewrite Er, length_app in *. lia. }
    destruct (Z.ltb_spec (Z.of_nat (length A - 1)) (page_count r)); [|lia]. split_and!; [done|lia|done|by apply (first_page k A B)|].
    intros k' A' B' -> Er' HB'. cbn in Hb. destruct (Nat.le_gt_cases (length A) (length A')) as [?|Hgt]; [lia|]. exfalso.
    destruct (lookup_lt_is_Some_2 A (length A')) as [p Hp]; [done|]. rewrite Forall_lookup in HA. pose proof (HA _ _ Hp) as Hp1.
    assert ((A' ++ B') !! length A' = Some p) as Hp2 by (rewrite <- Er', Er; by apply lookup_app_l_Some).
    rewrite lookup_app_r, Nat.sub_diag in Hp2 by done. rewrite Forall_lookup in HB'. apply (HB' _ _ Hp2). cbv beta in Hp1. eapply compare_le_lt_trans; [|exact Hb]. lia. }
  cbn [mbind option_bind]. destruct end_ as [k|].
  2: { cbn [mbind option_bind]. destruct (Z.leb_spec first (page_count r - 1)); [|lia]. eexists. split; [done|]. split; [|done]. by split. }
  destruct (find_bound ITER_LT k eq_refl) as (A & B & eq & Er & HA & HB & HR & Ef). rewrite Ef. cbn [mbind option_bind backward fmap option_fmap option_map fst].
  pose proof (first_page k A B Er HA HR) as Hlast. specialize (Hle k A B eq_refl Er HB).
  destruct (Nat.eqb_spec (length A) 0) as [E0|E0].
  - rewrite Z.eqb_refl. eexists. split; [done|]. split; [|done]. split; cbn; [done| |by rewrite E0 in Hlast].
    destruct begin as [k'|]; [|done]. cbn in Hb. rewrite E0 in Hle. by replace 0 with first by (cbn in Hle; lia).
  - replace (Z.of_nat (length A - 1)) with (Z.of_nat (length A) - 1) in Hlast, Hle by lia.
    destruct (Z.eqb_spec (Z.of_nat (length A) - 1) (page_count r)) as [E1|_].
    { unfold page_count in E1. rewrite Er, length_app in E1. lia. }
    destruct (Z.leb_spec first (Z.of_nat (length A) - 1)); [|lia]. eexists. split; [done|]. split; [|done]. by split.
Qed.
End New.

(** ** Cutting a slice *)

(** The later of two bounds from below, the earlier of two from above. *)
Definition later (b b' : option T) : option T :=
  match b, b' with Some k, Some k' => if tuple_compare k' k <? 0 then Some k else Some k' | Some k, None => Some k | None, b' => b' end.
Definition sooner (e e' : option T) : option T :=
  match e, e' with Some k, Some k' => if 0 <? tuple_compare k' k then Some k else Some k' | Some k, None => Some k | None, e' => e' end.
Definition not_below (b : option T) (t : T) : bool := match b with Some k => 0 <=? tuple_compare t k | None => true end.
Definition not_beyond (e : option T) (t : T) : bool := match e with Some k => tuple_compare t k <? 0 | None => true end.

Lemma later_below (b b' : option T) t : not_below (later b b') t = not_below b t && not_below b' t.
Proof.
  unfold not_below, later. destruct b as [k|], b' as [k'|]; cbn [andb]; rewrite ?andb_true_r; try done.
  pose proof (compare_le_lt_trans t k' k). pose proof (compare_lt_trans t k k'). pose proof (compare_flip k' k). pose proof (compare_flip k k').
  destruct (Z.ltb_spec (tuple_compare k' k) 0); lia.
Qed.
Lemma sooner_beyond (e e' : option T) t : not_beyond (sooner e e') t = not_beyond e t && not_beyond e' t.
Proof.
  unfold not_beyond, sooner. destruct e as [k|], e' as [k'|]; cbn [andb]; rewrite ?andb_true_r; try done.
  pose proof (compare_lt_trans t k' k). pose proof (compare_lt_trans t k k'). pose proof (compare_flip k' k). pose proof (compare_flip k k').
  destruct (Z.ltb_spec 0 (tuple_compare k' k)); lia.
Qed.

Lemma in_slice_bounds sl x : in_slice sl x = not_below (sl_begin sl) (s_tuple x) && not_beyond (sl_end sl) (s_tuple x).
Proof. done. Qed.

(** What is between two bounds. *)
Definition in_bounds (begin end_ : option T) (x : stmt) : bool := not_below begin (s_tuple x) && not_beyond end_ (s_tuple x).
Definition cut_rows begin end_ l : list stmt := filter (fun x => in_bounds begin end_ x = true) l.

Lemma no_rows (b e : option T) x : ~ bounds_ok b e -> in_bounds b e x = false.
Proof.
  unfold bounds_ok, in_bounds, not_below, not_beyond. destruct b as [k|], e as [k'|]; try tauto. intros Hn.
  pose proof (compare_lt_trans (s_tuple x) k' k). pose proof (compare_flip k k'). pose proof (compare_flip k' k). lia.
Qed.
Lemma no_rows_cut sl begin end_ :
  (~ bounds_ok begin (sl_end sl) \/ ~ bounds_ok (sl_begin sl) end_) -> cut_rows begin end_ (slice_rows sl) = [].
Proof.
  intros Hn. unfold cut_rows, slice_rows. rewrite list_filter_filter. apply filter_none, Forall_forall. intros x _ [H1 H2].
  rewrite in_slice_bounds in H2. unfold in_bounds in H1. apply andb_true_iff in H1 as [H1 H1'], H2 as [H2 H2'].
  destruct Hn as [Hn|Hn]; apply (no_rows _ _ x) in Hn; unfold in_bounds in Hn; [rewrite H1, H2' in Hn|rewrite H2, H1' in Hn]; done.
Qed.

(** What is cut from a slice has the rows of the slice that are between the
    bounds; there is no intersection only if it would have none. *)
Lemma slice_cut_spec sl begin end_ : slice_ok sl -> bounds_ok (sl_begin sl) (sl_end sl) -> bounds_ok begin end_ ->
  exists cut, vy_slice_cut sl begin end_ = Some cut /\
    match cut with
    | None => cut_rows begin end_ (slice_rows sl) = []
    | Some sl' => slice_ok sl' /\ bounds_ok (sl_begin sl') (sl_end sl') /\ sl_run sl' = sl_run sl /\
                  slice_rows sl' = cut_rows begin end_ (slice_rows sl)
    end.
Proof.
  intros Hs Hb1 Hb2. unfold vy_slice_cut.
  destruct (match begin, sl_end sl with Some b, Some e => 0 <=? tuple_compare b e | _, _ => false end) eqn:E1.
  { exists None. split; [done|]. apply no_rows_cut. left. destruct begin, (sl_end sl); try done. cbn. lia. }
  destruct (match end_, sl_begin sl with Some e, Some b => tuple_compare e b <=? 0 | _, _ => false end) eqn:E2.
  { exists None. split; [done|]. apply no_rows_cut. right. destruct end_ as [e|], (sl_begin sl) as [b|]; try done. cbn. pose proof (compare_flip e b). pose proof (compare_flip b e). lia. }
  change (match sl_begin sl, begin with Some sb, Some b => if tuple_compare b sb <? 0 then Some sb else Some b | Some sb, None => Some sb | None, b => b end) with (later (sl_begin sl) begin).
  change (match sl_end sl, end_ with Some se, Some e => if 0 <? tuple_compare e se then Some se else Some e | Some se, None => Some se | None, e => e end) with (sooner (sl_end sl) end_).
  assert (bounds_ok (later (sl_begin sl) begin) (sooner (sl_end sl) end_)) as Hb.
  { unfold bounds_ok, later, sooner in *. destruct (sl_begin sl) as [sb|], begin as [b|], (sl_end sl) as [se|], end_ as [e|]; try done;
      try (destruct (tuple_compare b sb <? 0)); try (destruct (0 <? tuple_compare e se)); try done; try lia;
      try (pose proof (compare_flip e sb); pose proof (compare_flip sb e); lia). }
  destruct (slice_new_spec (sl_run sl) (so_run _ Hs) _ _ Hb) as (sl' & E & Hok' & Er & Eb & Ee). rewrite E. exists (Some sl'). split; [done|].
  split; [done|]. split; [by rewrite Eb, Ee|]. split; [done|]. unfold cut_rows, slice_rows. rewrite list_filter_filter, Er. apply list_filter_iff. intros x.
  rewrite !in_slice_bounds, Eb, Ee, later_below, sooner_beyond. unfold in_bounds. rewrite !andb_true_iff. tauto.
Qed.

(** ** The stream *)

Lemma wp_on_ss {C} (m : oprog C) (Q : C -> stream -> Prop) s :
  wp m (fun c oom => Q c (s <| ss_oom := oom |>)) (ss_oom s) -> wp (on_ss m) Q s.
Proof. unfold wp, on_ss. by destruct (m (ss_oom s)) as [[c oom]|]. Qed.

Section Stream.
Context (sl : vy_slice T O T) (Hs : slice_ok sl).
Abbreviation r := (sl_run sl).
Abbreviation all := (rows (sl_run sl)).
Let Hok := so_run sl Hs.

(** The stream stands before the [n]th row. *)
Record stream_at s (n : nat) : Prop := {
  sa_page : ss_page_no s = page_no (pos_of sl n);
  sa_pos : ss_pos_in_page s = pos_in_page (pos_of sl n);
  sa_loaded : forall p, ss_page s = Some p -> vy_run_page_info r (ss_page_no s) = Some p;
  sa_oom : true ∉ ss_oom s;
}.

Lemma wp_get_ss_info no p (Q : page -> stream -> Prop) s : vy_run_page_info r no = Some p -> Q p s -> wp (get_ss_info sl no) Q s.
Proof. intros E HQ. unfold wp, get_ss_info. by rewrite E. Qed.
Lemma wp_get_ss_page p (Q : page -> stream -> Prop) s : ss_page s = Some p -> Q p s -> wp get_ss_page Q s.
Proof. intros E HQ. unfold wp, get_ss_page. by rewrite E. Qed.

Lemma read_page_spec s p (Q : Z -> stream -> Prop) :
  ss_page s = None -> true ∉ ss_oom s -> vy_run_page_info r (ss_page_no s) = Some p ->
  (forall oom, true ∉ oom -> Q 0 (s <| ss_oom := oom |> <| ss_page := Some p |>)) -> wp (vy_slice_stream_read_page sl) Q s.
Proof.
  intros Hp Ho Ei HQ. unfold vy_slice_stream_read_page. apply wp_bind, wp_assert. split; [by rewrite Hp|].
  apply wp_bind, wp_on_ss, wp_fails; [done|]. intros o1 Q1. apply wp_bind, wp_gets, wp_bind. eapply wp_get_ss_info; [exact Ei|].
  apply wp_bind, wp_on_ss. unfold vy_page_new. apply wp_bind, wp_fails; [done|]. intros o2 Q2. apply wp_bind, wp_fails; [done|]. intros o3 Q3.
  apply wp_fails; [done|]. intros o4 Q4. apply wp_bind, wp_on_ss, wp_fails; [done|]. intros o5 Q5. apply wp_bind, wp_modify, wp_ret.
  by apply HQ.
Qed.

(** Which rows the stream returns. *)
Lemma last_page_rows n x : all !! n = Some x ->
  (if sl_last_page_no sl <? page_no (pos_of sl n) then false
   else negb match sl_end sl with Some k => (sl_last_page_no sl <=? page_no (pos_of sl n)) && (0 <=? tuple_compare (s_tuple x) k) | None => false end)
  = not_beyond (sl_end sl) (s_tuple x).
Proof.
  intros Hx. pose proof (so_last _ Hs) as Hl. unfold not_beyond. destruct (sl_end sl) as [k|].
  - destruct Hl as (a & p & b & E & -> & Ha & Hb). apply row_page in Hx as (a' & p' & b' & m & E' & -> & Hm).
    assert (m < length (pg_rows p'))%nat as Hlt by (by eapply lookup_lt_Some). apply list_elem_of_lookup_2 in Hm.
    unfold pos_of. rewrite E', pos_in_page_at by done. cbn [page_no]. rewrite Forall_forall in Ha, Hb.
    assert (forall q, run_pages r !! length a' = Some q -> q = p') as Hq by (rewrite E', list_lookup_middle by done; congruence).
    rewrite E in Hq. destruct (Z.ltb_spec (Z.of_nat (length a)) (Z.of_nat (length a'))) as [Hgt|Hle].
    + assert (p' ∈ b) as Hin.
      { destruct (lookup_lt_is_Some_2 (a ++ p :: b) (length a')) as [q Eq]; [rewrite <- E, E', length_app; cbn; lia|].
        rewrite <- (Hq q Eq). rewrite lookup_app_r in Eq by lia. replace (length a' - length a)%nat with (S (length a' - length a - 1)) in Eq by lia.
        by eapply list_elem_of_lookup_2. }
      specialize (Hb x (rows_of_elem _ _ _ Hin Hm)). cbv beta in Hb. lia.
    + destruct (Z.leb_spec (Z.of_nat (length a)) (Z.of_nat (length a'))); [cbn [andb]; lia|]. cbn.
      assert (p' ∈ a) as Hin.
      { destruct (lookup_lt_is_Some_2 a (length a')) as [q Eq]; [lia|]. rewrite <- (Hq q); [by eapply list_elem_of_lookup_2|].
        by rewrite lookup_app_l by lia. }
      specialize (Ha x (rows_of_elem _ _ _ Hin Hm)). cbv beta in Ha. lia.
  - rewrite Hl. destruct (pos_of_row sl Hok n x Hx) as (_ & _ & _ & _ & _ & _ & Hlt). by destruct (Z.ltb_spec (page_count r - 1) (page_no (pos_of sl n))); [lia|].
Qed.

Definition stream_row (n : nat) : option stmt :=
  x ← all !! n; if not_beyond (sl_end sl) (s_tuple x) then Some x else None.

Lemma last_page_count : sl_last_page_no sl < page_count r.
Proof.
  pose proof (so_last _ Hs) as Hl. destruct (sl_end sl) as [k|]; [|lia]. destruct Hl as (a & p & b & E & -> & _).
  unfold page_count. rewrite E, length_app. cbn. lia.
Qed.

(** The row of the page that is at hand, and the next position. *)
Lemma stream_read_spec s n x (Q : Z * option stmt -> stream -> Prop) :
  stream_at s n -> all !! n = Some x ->
  match sl_end sl with Some k => (sl_last_page_no sl <=? ss_page_no s) && (0 <=? tuple_compare (s_tuple x) k) | None => false end = false ->
  ss_page s = vy_run_page_info r (ss_page_no s) -> (forall s', stream_at s' (S n) -> Q (0, Some x) s') ->
  wp (p ← get_ss_page;
      pos ← gets ss_pos_in_page;
      entry ← on_ss (vy_page_stmt p pos);
      match entry with
      | None => mret (-1, None)
      | Some e =>
          if match sl_end sl with
             | Some end_ => (sl_last_page_no sl <=? ss_page_no s) && (0 <=? tuple_compare (s_tuple e) end_)
             | None => false
             end
          then mret (0, None)
          else
            modify (fun s => s <| ss_entry := Some e |> <| ss_pos_in_page := pos + 1 |>);;
            info ← get_ss_info sl (ss_page_no s);
            (if pg_row_count info <=? pos + 1 then turn_page else skip);;
            mret (0, Some e)
      end) Q s.
Proof.
  intros [P1 P2 P3 P4] Hx He Hp HQ. apply row_page in Hx as (a & p & b & m & E & -> & Hm).
  assert (m < length (pg_rows p))%nat as Hlt by (by eapply lookup_lt_Some). destruct (page_of_split sl Hok a p b E) as (Ei & Hpk & _).
  assert (pos_of sl (length (rows_of a) + m) = mk_pos (Z.of_nat (length a)) (Z.of_nat m)) as Ep by (unfold pos_of; rewrite E; by apply pos_in_page_at).
  rewrite Ep in P1, P2. cbn [page_no pos_in_page] in P1, P2. rewrite P1, Ei in Hp. pose proof (pk_count _ Hpk) as Ec.
  apply wp_bind. eapply wp_get_ss_page; [exact Hp|]. apply wp_bind, wp_gets, wp_bind, wp_on_ss. rewrite P2.
  apply (page_stmt_spec p m x); [done|done|done|]. intros oom Ho. rewrite He. apply wp_bind, wp_modify, wp_bind.
  eapply wp_get_ss_info; [by rewrite P1|]. apply wp_bind. destruct (Z.leb_spec (pg_row_count p) (Z.of_nat m + 1)) as [Hge|Hl].
  - apply wp_modify, wp_ret, HQ. pose proof (pos_of_page_end sl Hok a p b E) as Ep'.
    replace (length (rows_of a) + length (pg_rows p))%nat with (S (length (rows_of a) + m)) in Ep' by lia.
    split; rewrite ?Ep'; cbn; [by rewrite P1|done|done|done].
  - apply wp_ret, wp_ret, HQ. assert (pos_of sl (S (length (rows_of a) + m)) = mk_pos (Z.of_nat (length a)) (Z.of_nat (S m))) as Ep'.
    { unfold pos_of. rewrite <- Nat.add_succ_r, E. apply pos_in_page_at. lia. }
    split; rewrite ?Ep'; cbn [page_no pos_in_page]; [done|cbn; lia|exact P3|done].
Qed.

Lemma stream_next_spec s n (Q : Z * option stmt -> stream -> Prop) :
  stream_at s n -> (n <= length all)%nat ->
  (forall s', (stream_row n <> None -> stream_at s' (S n)) -> Q (0, stream_row n) s') -> wp (vy_slice_stream_next sl) Q s.
Proof.
  intros Hat Hn HQ. unfold vy_slice_stream_next, stream_row in *. apply wp_bind, wp_gets. pose proof Hat as [P1 P2 P3 P4].
  destruct (all !! n) as [x|] eqn:Ex.
  2: { assert (n = length all) as -> by (apply lookup_ge_None in Ex; lia). rewrite P1, pos_of_end. cbn [page_no].
       pose proof last_page_count. destruct (Z.ltb_spec (sl_last_page_no sl) (page_count r)); [|lia]. by apply wp_ret, HQ. }
  cbn [mbind option_bind] in *. pose proof (last_page_rows n x Ex) as Hr. rewrite <- P1 in Hr.
  destruct (sl_last_page_no sl <? ss_page_no s) eqn:El. { rewrite <- Hr in HQ. by apply wp_ret, HQ. }
  destruct (pos_of_row sl Hok n x Ex) as (p & m & Ei & Em & Hm & Hpk & _). rewrite <- P1 in Ei. rewrite <- P2 in Em.
  apply wp_bind, wp_gets, wp_bind.
  assert (forall s1, ss_page_no s1 = ss_page_no s -> ss_page s1 = Some p -> stream_at s1 n ->
    wp (p ← get_ss_page; pos ← gets ss_pos_in_page; entry ← on_ss (vy_page_stmt p pos);
      match entry with
      | None => mret (-1, None)
      | Some e =>
          if match sl_end sl with Some end_ => (sl_last_page_no sl <=? ss_page_no s) && (0 <=? tuple_compare (s_tuple e) end_) | None => false end
          then mret (0, None)
          else modify (fun s => s <| ss_entry := Some e |> <| ss_pos_in_page := pos + 1 |>);; info ← get_ss_info sl (ss_page_no s);
            (if pg_row_count info <=? pos + 1 then turn_page else skip);; mret (0, Some e)
      end) Q s1) as Hgo.
  { intros s1 E1 E2 Hat1. rewrite <- E1. destruct (match sl_end sl with Some k => _ | None => false end) eqn:Ee.
    - rewrite <- Hr in HQ. cbn in HQ. apply wp_bind. eapply wp_get_ss_page; [done|]. apply wp_bind, wp_gets, wp_bind, wp_on_ss.
      rewrite (sa_pos _ _ Hat1), <- P2, Em. apply (page_stmt_spec p m x); [done|done|apply Hat1|]. intros oom Ho. rewrite E1, Ee. by apply wp_ret, HQ.
    - eapply stream_read_spec; [done|exact Ex|by rewrite E1|by rewrite E1, Ei, E2|]. intros s' Hs'. rewrite <- Hr in HQ. apply HQ. by intros _. }
  destruct (ss_page s) as [p'|] eqn:Eps.
  - apply wp_ret. apply (Hgo s); [done| |done]. rewrite (P3 _ eq_refl) in Ei. congruence.
  - eapply (read_page_spec s p); [done|done|done|]. intros oom Ho. cbn [Z.eqb negb]. apply Hgo; [done|done|].
    split; [done|done| |done]. intros q [= <-]. done.
Qed.

(** Everything up to the end of the stream. *)
Fixpoint stream_rows (fuel : nat) : prog stream (list stmt) :=
  match fuel with
  | 0%nat => abort
  | S fuel =>
      '(rc, entry) ← vy_slice_stream_next sl;
      if negb (rc =? 0) then abort
      else
        match entry with
        | None => mret []
        | Some e => l ← stream_rows fuel; mret (e :: l)
        end
  end.

Lemma beyond_later n x : all !! n = Some x -> not_beyond (sl_end sl) (s_tuple x) = false ->
  Forall (fun y => not_beyond (sl_end sl) (s_tuple y) = false) (drop n all).
Proof.
  intros Hx Hb. pose proof (tree_keys_sorted _ (rk_sorted _ Hok)) as Hsort. apply Forall_lookup. intros m y Hy. rewrite lookup_drop in Hy.
  destruct m as [|m]; [rewrite Nat.add_0_r in Hy; congruence|].
  pose proof (keys_sorted_lookup all n (n + S m) x y Hsort Hx Hy ltac:(lia)) as Hle. unfold not_beyond in *. destruct (sl_end sl) as [k|]; [|done].
  pose proof (compare_le_lt_trans (s_tuple x) (s_tuple y) k). lia.
Qed.

Lemma stream_rows_spec fuel : forall s n, stream_at s n -> (n <= length all)%nat -> (length all - n < fuel)%nat ->
  wp (stream_rows fuel) (fun l _ => l = filter (fun x => not_beyond (sl_end sl) (s_tuple x) = true) (drop n all)) s.
Proof.
  induction fuel as [|fuel IH]; intros s n Hat Hn Hf; [lia|]. cbn [stream_rows]. apply wp_bind. eapply stream_next_spec; [done|done|].
  intros s' Hs'. cbn [Z.eqb negb]. unfold stream_row in *. destruct (all !! n) as [x|] eqn:Ex; cbn [mbind option_bind] in *.
  - destruct (not_beyond (sl_end sl) (s_tuple x)) eqn:Eb.
    + apply lookup_lt_Some in Ex as Hlt. apply wp_bind. eapply wp_mono; [apply (IH s' (S n)); [by apply Hs'|lia|lia]|]. intros l s2 ->. apply wp_ret.
      by rewrite (drop_S _ x n Ex), filter_cons_True.
    + apply wp_ret. rewrite filter_none; [done|]. eapply Forall_impl; [by eapply beyond_later|]. cbn. congruence.
  - apply wp_ret. rewrite drop_ge; [done|]. by apply lookup_ge_None.
Qed.

Lemma stream_search_spec oom : true ∉ oom ->
  wp (vy_slice_stream_search sl) (fun rc s => rc = 0 /\ exists L R, all = L ++ R /\ stream_at s (length L) /\
    Forall (fun x => not_below (sl_begin sl) (s_tuple x) = false) L /\ Forall (fun x => not_below (sl_begin sl) (s_tuple x) = true) R)
    (vy_slice_stream_open sl oom).
Proof.
  intros Ho. unfold vy_slice_stream_search. apply wp_bind, wp_assert. split; [done|]. pose proof (so_first _ Hs) as Hf. unfold not_below.
  destruct (sl_begin sl) as [k|].
  2: { apply wp_bind, wp_assert. split; [cbn; by rewrite Hf|]. apply wp_bind, wp_assert. split; [done|]. apply wp_ret. split; [done|].
       exists [], all. split_and!; [done| |constructor|by apply Forall_forall]. cbn [length]. split; rewrite ?(pos_of_start sl Hok); done. }
  destruct Hf as (a & p & b & E & Ef & Ha & Hb). destruct (page_of_split sl Hok a p b E) as (Ei & Hpk & _). pose proof (pk_count _ Hpk) as Ec.
  destruct (split_exists false k (pg_rows p) (page_sorted sl Hok _ _ _ E)) as (L' & R' & Ep & Hsp).
  assert (all = (rows_of a ++ L') ++ R' ++ rows_of b) as El by (unfold rows; rewrite E, rows_of_app, rows_of_cons, Ep, <- !app_assoc; done).
  apply wp_bind. eapply (read_page_spec _ p); [done|done|cbn; by rewrite Ef|]. intros o1 Q1. cbn [Z.eqb negb]. apply wp_bind.
  eapply wp_get_ss_page; [done|]. apply wp_bind, wp_on_ss. eapply wp_mono.
  { apply (find_key_spec p k ITER_GE L' R'); [done|done|rewrite <- Ep; by eapply page_sorted|done|exact Q1]. }
  intros [pos eq] o2 (Q2 & Epos & _). cbn [fst] in Epos. subst pos. apply wp_bind, wp_modify, wp_bind.
  assert (forall s, stream_at s (length (rows_of a ++ L')) -> wp (mret 0 : prog stream Z) (fun rc s => rc = 0 /\ exists L R, all = L ++ R /\ stream_at s (length L) /\
    Forall (fun x => (0 <=? tuple_compare (s_tuple x) k) = false) L /\ Forall (fun x => (0 <=? tuple_compare (s_tuple x) k) = true) R) s) as Hend.
  { intros s Hat. apply wp_ret. split; [done|]. exists (rows_of a ++ L'), (R' ++ rows_of b). split; [done|]. split; [done|]. destruct Hsp as [HL HR].
    unfold key_before in HL, HR. split; apply Forall_app_2; (eapply Forall_impl; [eassumption|]); cbn; lia. }
  rewrite length_app in Hend. destruct (Z.eqb_spec (Z.of_nat (length L')) (pg_row_count p)) as [E1|E1].
  - apply wp_modify, Hend. rewrite Ec in E1. apply Nat2Z.inj in E1. rewrite E1. pose proof (pos_of_page_end sl Hok a p b E) as Ep'.
    split; rewrite ?Ep'; cbn; [by rewrite Ef|done|done|done].
  - apply wp_ret, Hend. assert (length L' < length (pg_rows p))%nat as Hlt by (rewrite Ep, length_app in *; lia).
    assert (pos_of sl (length (rows_of a) + length L') = mk_pos (Z.of_nat (length a)) (Z.of_nat (length L'))) as Ep' by (unfold pos_of; rewrite E; by apply pos_in_page_at).
    split; rewrite ?Ep'; cbn; [done|done| |done]. intros q [= <-]. by rewrite Ef.
Qed.

Definition stream_read : prog stream (list stmt) :=
  rc ← vy_slice_stream_search sl;
  if negb (rc =? 0) then abort else stream_rows (S (row_total sl)).

Lemma stream_read_all : wp stream_read (fun l _ => l = slice_rows sl) (vy_slice_stream_open sl []).
Proof.
  unfold stream_read. apply wp_bind. eapply wp_mono; [apply stream_search_spec; intros H; by apply elem_of_nil in H|].
  intros rc s (-> & L & R & El & Hat & HL & HR). cbn [Z.eqb negb]. change (row_total sl) with (length all).
  eapply wp_mono; [eapply stream_rows_spec; [done|rewrite El, length_app; lia|lia]|]. intros l s' ->. unfold slice_rows. rewrite El at 1. rewrite drop_app_length, El, filter_app.
  rewrite (filter_none _ L); [|eapply Forall_impl; [exact HL|]; intros x Hx; rewrite in_slice_bounds, Hx; done]. cbn [app].
  apply filter_agree. eapply Forall_impl; [exact HR|]. intros x Hx. by rewrite in_slice_bounds, Hx.
Qed.
End Stream.

End Slices.

Module CounterSlices.
Import VyTheorems.Counters Runs.

End CounterSlices.
