(* ===== verification/Bloom.v ===== *)
(** * Bloom filters

    src/lib/salad/bloom.h and bloom.c: a filter is a table of blocks of 512
    bits; a value sets some bits of one block.  src/box/tuple_bloom.c keeps one
    filter for every prefix of the parts of a key, so that partial keys can be
    looked up too.

    The logarithms with which the size of a filter is found are parameters.
    The hashes of the prefixes of a key are given as a list. *)

From stdpp Require Import list.
From S2P Require Import Prelude Bits VyStmt.

Open Scope Z_scope.

Definition BLOOM_CACHE_LINE : Z := 64.
Definition bloom_block_bits : Z := BLOOM_CACHE_LINE * CHAR_BIT.

(** The blocks as bytes. *)
Record bloom := mk_bloom {
  b_table_size : Z;
  b_hash_count : Z;
  b_table : list (list Z);
}.
#[export] Instance bloom_rebuild : Rebuild bloom := fun b => mk_bloom (b_table_size b) (b_hash_count b) (b_table b).

Section Bloom.
(** The type double, ceil(log(x) / log(0.5)) and ceil(x / log(2)). *)
Context {double : Type} (ceil_log : double -> Z) (ceil_bits : Z -> Z).

(** No filter if there is no memory. *)
Definition bloom_create (number_of_values : Z) (false_positive_rate : double) (oom : bool) : option bloom :=
  let hash_count := uwrap 16 (ceil_log false_positive_rate) in
  let bit_count := u64 (ceil_bits (u32 (number_of_values * hash_count))) in
  let block_bits := bloom_block_bits in
  let block_count := u32 (u64 (bit_count + block_bits - 1) / block_bits) in
  if oom then None
  else Some (mk_bloom block_count hash_count (replicate (Z.to_nat block_count) (replicate (Z.to_nat BLOOM_CACHE_LINE) 0))).

(** The loops; [n] of them are to come.  None if a bit is out of the block. *)
Fixpoint bloom_add_loop (n : nat) (i hash hash2 : Z) (bits : list Z) : option (list Z) :=
  match n with
  | 0%nat => Some bits
  | S n =>
      '(_, bits) ← bit_set bits (hash mod bloom_block_bits);
      bloom_add_loop n (i + 1) (u32 (hash + hash2 + i * i)) hash2 bits
  end.
(** None for a division by zero or an access outside of the table. *)
Definition bloom_add (b : bloom) (hash : Z) : option bloom :=
  if b_table_size b =? 0 then None
  else
    let pos := Z.to_nat (hash mod b_table_size b) in
    let hash := hash / b_table_size b in
    let hash2 := hash / bloom_block_bits + 1 in
    bits ← b_table b !! pos;
    bits ← bloom_add_loop (Z.to_nat (b_hash_count b)) 0 hash hash2 bits;
    Some (b <| b_table ::= <[pos := bits]> |>).

Fixpoint bloom_has_loop (n : nat) (i hash hash2 : Z) (bits : list Z) : option bool :=
  match n with
  | 0%nat => Some true
  | S n =>
      set ← bit_test bits (hash mod bloom_block_bits);
      if negb set then Some false else bloom_has_loop n (i + 1) (u32 (hash + hash2 + i * i)) hash2 bits
  end.
Definition bloom_maybe_has (b : bloom) (hash : Z) : option bool :=
  if b_table_size b =? 0 then None
  else
    let pos := Z.to_nat (hash mod b_table_size b) in
    let hash := hash / b_table_size b in
    let hash2 := hash / bloom_block_bits + 1 in
    bits ← b_table b !! pos;
    bloom_has_loop (Z.to_nat (b_hash_count b)) 0 hash hash2 bits.

(** ** Filters of tuples *)

Record tuple_hash_array := mk_hash_array { ha_values : list Z; ha_capacity : Z }.

(** The return code. *)
Definition tuple_hash_array_add (arr : tuple_hash_array) (hash : Z) : oprog (Z * tuple_hash_array) :=
  let count := Z.of_nat (length (ha_values arr)) in
  if match list.last (ha_values arr) with Some last => last =? hash | None => false end then mret (0, arr)
  else if ha_capacity arr <=? count then
    let capacity := Z.max (u32 (ha_capacity arr * 2)) 1024 in
    oom ← fails;
    if oom : bool then mret (-1, arr) else mret (0, mk_hash_array (ha_values arr ++ [hash]) capacity)
  else mret (0, mk_hash_array (ha_values arr ++ [hash]) (ha_capacity arr)).

(** An array for every part of the key. *)
Definition tuple_bloom_builder : Type := list tuple_hash_array.
Definition tuple_bloom_builder_new (part_count : nat) : tuple_bloom_builder := replicate part_count (mk_hash_array [] 0).

(** tuple_bloom_builder_add and tuple_bloom_builder_add_key, with the hashes of
    the prefixes of the key. *)
Fixpoint tuple_bloom_builder_add (builder : tuple_bloom_builder) (hashes : list Z) : oprog (Z * tuple_bloom_builder) :=
  match builder, hashes with
  | arr :: builder, hash :: hashes =>
      '(rc, arr) ← tuple_hash_array_add arr hash;
      if negb (rc =? 0) then mret (-1, arr :: builder)
      else
        '(rc, builder) ← tuple_bloom_builder_add builder hashes;
        mret (rc, arr :: builder)
  | [], [] => mret (0, [])
  | _, _ => abort
  end.

Record tuple_bloom := mk_tuple_bloom { tb_is_legacy : bool; tb_parts : list bloom }.

Fixpoint bloom_add_all (b : bloom) (values : list Z) : option bloom :=
  match values with
  | [] => Some b
  | hash :: values => b ← bloom_add b hash; bloom_add_all b values
  end.

(** The rate that is left for a part, from the rates of the parts before it. *)
Context (part_fpr : double -> list bloom -> Z -> double).

Fixpoint tuple_bloom_parts (fpr : double) (parts : list bloom) (arrs : list tuple_hash_array) : oprog (option (list bloom)) :=
  match arrs with
  | [] => mret (Some parts)
  | arr :: arrs =>
      let count := u32 (Z.of_nat (length (ha_values arr))) in
      oom ← fails;
      match bloom_create count (part_fpr fpr parts count) oom with
      | None => mret None
      | Some b =>
          match bloom_add_all b (ha_values arr) with
          | None => abort
          | Some b => tuple_bloom_parts fpr (parts ++ [b]) arrs
          end
      end
  end.
Definition tuple_bloom_new (builder : tuple_bloom_builder) (fpr : double) : oprog (option tuple_bloom) :=
  oom ← fails;
  if oom : bool then mret None
  else
    parts ← tuple_bloom_parts fpr [] builder;
    mret (mk_tuple_bloom false <$> parts).

(** The hashes of the prefixes, one for every part that is given. *)
Fixpoint parts_maybe_have (parts : list bloom) (hashes : list Z) : option bool :=
  match hashes, parts with
  | [], _ => Some true
  | hash :: hashes, b :: parts =>
      has ← bloom_maybe_has b hash;
      if negb has then Some false else parts_maybe_have parts hashes
  | _ :: _, [] => None
  end.
(** [whole] is the hash of all the parts, in a filter of an older version. *)
Definition tuple_bloom_maybe_has (b : tuple_bloom) (whole : Z) (hashes : list Z) : option bool :=
  if tb_is_legacy b then head (tb_parts b) ≫= fun part => bloom_maybe_has part whole
  else if negb (length (tb_parts b) =? length hashes)%nat then None
  else parts_maybe_have (tb_parts b) hashes.
Definition tuple_bloom_maybe_has_key (b : tuple_bloom) (part_count : nat) (whole : Z) (hashes : list Z) : option bool :=
  if tb_is_legacy b then
    if (length hashes <? part_count)%nat then Some true else head (tb_parts b) ≫= fun part => bloom_maybe_has part whole
  else if negb ((length hashes <=? part_count)%nat && (length (tb_parts b) =? part_count)%nat) then None
  else parts_maybe_have (tb_parts b) hashes.
End Bloom.
