(* ===== verification/BloomTheorems.v ===== *)
(** * Theorems on Bloom filters *)

From stdpp Require Import list.
From S2P Require Import Prelude Bits VyStmt VyVisible VyPages Bloom.

Open Scope Z_scope.

(** ** One filter *)

(** The bits of a value in its block. *)
Fixpoint bit_numbers (n : nat) (i hash hash2 : Z) : list Z :=
  match n with
  | 0%nat => []
  | S n => hash mod bloom_block_bits :: bit_numbers n (i + 1) (u32 (hash + hash2 + i * i)) hash2
  end.

Definition block_ok (bits : list Z) : Prop := length bits = 64%nat /\ bytes_wf bits.
Record bloom_ok (b : bloom) : Prop := {
  bo_size : 0 < b_table_size b;
  bo_table : length (b_table b) = Z.to_nat (b_table_size b);
  bo_blocks : Forall block_ok (b_table b);
}.

Lemma bit_number_range hash : 0 <= hash mod bloom_block_bits < 512.
Proof. apply Z.mod_pos_bound. unfold bloom_block_bits, BLOOM_CACHE_LINE, CHAR_BIT. lia. Qed.

Lemma bit_numbers_range n : forall i hash hash2, Forall (fun k => 0 <= k < 512) (bit_numbers n i hash hash2).
Proof. induction n as [|n IH]; intros; cbn [bit_numbers]; constructor; [apply bit_number_range|apply IH]. Qed.

Lemma bloom_add_loop_spec n : forall i hash hash2 bits, block_ok bits ->
  exists bits', bloom_add_loop n i hash hash2 bits = Some bits' /\ block_ok bits' /\
    forall k, 0 <= k -> membit bits' k = membit bits k || bool_decide (k ∈ bit_numbers n i hash hash2).
Proof.
  induction n as [|n IH]; intros i hash hash2 bits Hb; cbn [bloom_add_loop bit_numbers].
  { exists bits. split_and!; try apply Hb; try done. intros k _. rewrite bool_decide_eq_false_2 by apply not_elem_of_nil. by rewrite orb_false_r. }
  destruct Hb as [Hl Hwf]. pose proof (bit_number_range hash) as Hr.
  destruct (bit_write_spec true bits (hash mod bloom_block_bits) Hwf) as (bits1 & E & Hl1 & Hwf1 & Hk1); [rewrite Hl; lia|].
  unfold bit_write in E. rewrite E. cbn [mbind option_bind].
  destruct (IH (i + 1) (u32 (hash + hash2 + i * i)) hash2 bits1) as (bits' & E' & Hb' & Hk'); [split; congruence|].
  exists bits'. split_and!; [done|exact Hb'|]. intros k Hk. rewrite Hk', Hk1 by done.
  destruct (Z.eqb_spec k (hash mod bloom_block_bits)) as [->|Hne].
  - rewrite (bool_decide_eq_true_2 (_ ∈ _ :: _)) by (by left). by rewrite orb_true_r.
  - f_equal. apply bool_decide_ext. rewrite elem_of_cons. tauto.
Qed.
Lemma bloom_has_loop_spec n : forall i hash hash2 bits, block_ok bits ->
  bloom_has_loop n i hash hash2 bits = Some (forallb (membit bits) (bit_numbers n i hash hash2)).
Proof.
  induction n as [|n IH]; intros i hash hash2 bits Hb; cbn [bloom_has_loop bit_numbers forallb]; [done|].
  pose proof (bit_number_range hash) as Hr. unfold membit at 1. destruct (bit_test bits (hash mod bloom_block_bits)) as [[]|] eqn:E; cbn [mbind option_bind negb default from_option id andb].
  - by apply IH.
  - done.
  - exfalso. rewrite bit_test_lookup in E by lia. destruct (bits !! _) eqn:El; [done|]. apply lookup_ge_None in El. destruct Hb as [Hb _].
    rewrite Hb in El. assert (hash mod bloom_block_bits / 8 < 64) by (apply Z.div_lt_upper_bound; lia). lia.
Qed.

Lemma block_lookup b hash : bloom_ok b -> exists bits, b_table b !! Z.to_nat (hash mod b_table_size b) = Some bits /\ block_ok bits.
Proof.
  intros [H1 H2 H3]. pose proof (Z.mod_pos_bound hash _ H1). destruct (lookup_lt_is_Some_2 (b_table b) (Z.to_nat (hash mod b_table_size b))) as [bits E]; [lia|].
  exists bits. split; [done|]. by eapply Forall_lookup_1.
Qed.

(** The bits that a value has in the block it belongs to. *)
Definition value_bits (b : bloom) (hash : Z) : list Z :=
  bit_numbers (Z.to_nat (b_hash_count b)) 0 (hash / b_table_size b) (hash / b_table_size b / bloom_block_bits + 1).
Lemma maybe_has_spec b hash bits : bloom_ok b -> b_table b !! Z.to_nat (hash mod b_table_size b) = Some bits ->
  bloom_maybe_has b hash = Some (forallb (membit bits) (value_bits b hash)).
Proof.
  intros Hb E. unfold bloom_maybe_has. destruct (Z.eqb_spec (b_table_size b) 0); [destruct Hb; lia|]. rewrite E. cbn [mbind option_bind].
  apply bloom_has_loop_spec. destruct (block_lookup b hash Hb) as (bits' & E' & ?). congruence.
Qed.
Lemma maybe_has_total b hash : bloom_ok b -> exists c, bloom_maybe_has b hash = Some c.
Proof. intros Hb. destruct (block_lookup b hash Hb) as (bits & E & _). eexists. by apply (maybe_has_spec b hash bits). Qed.

Lemma bloom_add_spec b hash : bloom_ok b -> exists b', bloom_add b hash = Some b' /\ bloom_ok b' /\
  bloom_maybe_has b' hash = Some true /\ forall hash', bloom_maybe_has b hash' = Some true -> bloom_maybe_has b' hash' = Some true.
Proof.
  intros Hb. destruct (block_lookup b hash Hb) as (bits & E & Hbl). pose proof Hb as [H1 H2 H3]. unfold bloom_add.
  destruct (Z.eqb_spec (b_table_size b) 0); [lia|]. rewrite E. cbn [mbind option_bind].
  destruct (bloom_add_loop_spec (Z.to_nat (b_hash_count b)) 0 (hash / b_table_size b) (hash / b_table_size b / bloom_block_bits + 1) bits Hbl) as (bits' & E' & Hbl' & Hk).
  rewrite E'. cbn [mbind option_bind]. eexists. split; [done|]. set (pos := Z.to_nat (hash mod b_table_size b)) in *.
  set (b' := b <| b_table ::= <[pos := bits']> |>). assert (pos < length (b_table b))%nat as Hlt by (by eapply lookup_lt_Some).
  assert (bloom_ok b') as Hb' by (split; cbn; [done|by rewrite length_insert|by apply Forall_insert]).
  split; [done|]. fold (value_bits b hash) in Hk. split.
  - rewrite (maybe_has_spec b' hash bits'); [|done|by apply list_lookup_insert_eq]. f_equal. apply forallb_forall. intros k Hin.
    change (value_bits b' hash) with (value_bits b hash) in Hin. apply list_elem_of_In in Hin.
    pose proof (bit_numbers_range (Z.to_nat (b_hash_count b)) 0 (hash / b_table_size b) (hash / b_table_size b / bloom_block_bits + 1)) as Hr.
    rewrite Forall_forall in Hr. specialize (Hr k Hin). rewrite Hk by lia. rewrite bool_decide_eq_true_2 by done. by rewrite orb_true_r.
  - intros hash' Hh. destruct (decide (Z.to_nat (hash' mod b_table_size b) = pos)) as [Ep|Ep].
    + rewrite (maybe_has_spec b hash' bits) in Hh by (done || by rewrite Ep). injection Hh as Hh.
      rewrite (maybe_has_spec b' hash' bits'); [|done|]. 2: { change (b_table_size b') with (b_table_size b). rewrite Ep. by apply list_lookup_insert_eq. }
      f_equal. change (value_bits b' hash') with (value_bits b hash'). rewrite forallb_forall in Hh |- *. intros k Hin.
      pose proof (bit_numbers_range (Z.to_nat (b_hash_count b)) 0 (hash' / b_table_size b) (hash' / b_table_size b / bloom_block_bits + 1)) as Hr.
      rewrite Forall_forall in Hr. apply list_elem_of_In in Hin as Hin'. specialize (Hr k Hin'). rewrite Hk by lia. by rewrite Hh.
    + destruct (block_lookup b hash' Hb) as (bits2 & E2 & _). rewrite (maybe_has_spec b hash' bits2) in Hh by done. rewrite (maybe_has_spec b' hash' bits2); [done|done|].
      cbn. by rewrite list_lookup_insert_ne.
Qed.

Lemma bloom_add_all_spec values : forall b, bloom_ok b -> exists b', bloom_add_all b values = Some b' /\ bloom_ok b' /\
  (forall hash, hash ∈ values -> bloom_maybe_has b' hash = Some true) /\
  (forall hash, bloom_maybe_has b hash = Some true -> bloom_maybe_has b' hash = Some true).
Proof.
  induction values as [|hash values IH]; intros b Hb; cbn [bloom_add_all].
  { exists b. split_and!; try done. intros ? H. by apply elem_of_nil in H. }
  destruct (bloom_add_spec b hash Hb) as (b1 & -> & Hb1 & Hh1 & Hk1). cbn [mbind option_bind].
  destruct (IH b1 Hb1) as (b2 & E & Hb2 & Hh2 & Hk2). exists b2. split_and!; [done|done| |by auto].
  intros h Hin. apply elem_of_cons in Hin as [->|Hin]; auto.
Qed.

(** ** The hashes of the keys *)

(** What an array gets. *)
Record added (arr : tuple_hash_array) (hash : Z) (arr' : tuple_hash_array) : Prop := {
  ad_new : hash ∈ ha_values arr';
  ad_old : forall h, h ∈ ha_values arr -> h ∈ ha_values arr';
  ad_count : (length (ha_values arr') <= S (length (ha_values arr)))%nat;
}.
Lemma hash_array_add_spec arr hash oom : true ∉ oom ->
  wp (tuple_hash_array_add arr hash) (fun res oom' => true ∉ oom' /\ fst res = 0 /\ added arr hash (snd res)) oom.
Proof.
  intros Ho. assert (forall c, added arr hash (mk_hash_array (ha_values arr ++ [hash]) c)) as Hadd.
  { intros c. split; cbn; [set_solver|set_solver|]. rewrite length_app. cbn. lia. }
  unfold tuple_hash_array_add. destruct (match list.last (ha_values arr) with Some last => last =? hash | None => false end) eqn:El.
  - apply wp_ret. split_and!; [done|done|]. destruct (list.last (ha_values arr)) as [l|] eqn:E; [|done]. apply Z.eqb_eq in El as ->.
    split; cbn; [by apply last_Some_elem_of|done|lia].
  - destruct (ha_capacity arr <=? _); [|apply wp_ret; split_and!; [done|done|apply Hadd]]. apply wp_bind, wp_fails; [done|]. intros o Ho'. apply wp_ret. split_and!; [done|done|apply Hadd].
Qed.

Lemma builder_add_spec builder : forall hashes oom, length builder = length hashes -> true ∉ oom ->
  wp (tuple_bloom_builder_add builder hashes) (fun res oom' => true ∉ oom' /\ fst res = 0 /\ length (snd res) = length builder /\
    forall i arr', snd res !! i = Some arr' -> exists arr hash, builder !! i = Some arr /\ hashes !! i = Some hash /\ added arr hash arr') oom.
Proof.
  induction builder as [|arr builder IH]; intros [|hash hashes] oom El Ho; try done; cbn [tuple_bloom_builder_add].
  apply wp_bind. eapply wp_mono; [by apply hash_array_add_spec|]. intros [rc arr'] o1 (Ho1 & Erc & Ha). cbn [fst snd] in *. subst rc. cbn [Z.eqb negb].
  apply wp_bind. eapply wp_mono; [apply (IH hashes); [by injection El|done]|]. intros [rc b'] o2 (Ho2 & Erc & El2 & Hb). cbn [fst snd] in *. apply wp_ret.
  cbn [fst snd]. split_and!; [done|done|cbn; lia|]. intros [|i] arr2 E; [injection E as <-; by exists arr, hash|]. by apply Hb.
Qed.

(** All the tuples of a run. *)
Fixpoint builder_add_all (builder : tuple_bloom_builder) (hss : list (list Z)) : oprog (Z * tuple_bloom_builder) :=
  match hss with
  | [] => mret (0, builder)
  | hashes :: hss =>
      '(rc, builder) ← tuple_bloom_builder_add builder hashes;
      if negb (rc =? 0) then mret (-1, builder) else builder_add_all builder hss
  end.

(** The arrays have the hashes of [hss]. *)
Definition collected (builder : tuple_bloom_builder) (hss : list (list Z)) : Prop := forall i arr, builder !! i = Some arr ->
  (forall hs h, hs ∈ hss -> hs !! i = Some h -> h ∈ ha_values arr) /\ (length (ha_values arr) <= length hss)%nat /\ (hss <> [] -> ha_values arr <> []).

Lemma builder_collects_one builder hs hss oom : length hs = length builder -> collected builder hss -> true ∉ oom ->
  wp (tuple_bloom_builder_add builder hs) (fun res oom' => true ∉ oom' /\ fst res = 0 /\ length (snd res) = length builder /\ collected (snd res) (hss ++ [hs])) oom.
Proof.
  intros Hl Hc Ho. eapply wp_mono; [by apply builder_add_spec|]. intros [rc b1] o1 (Ho1 & Erc & El1 & Hb1). cbn [fst snd] in *.
  split_and!; [done|done|done|]. intros i arr' E. destruct (Hb1 i arr' E) as (arr & h & Ea & Eh & [A1 A2 A3]).
  destruct (Hc i arr Ea) as (C1 & C2 & _). split_and!.
  - intros hs' h' Hin Eh'. apply elem_of_app in Hin as [Hin|Hin]; [by eapply A2, C1|]. apply list_elem_of_singleton in Hin as ->. congruence.
  - rewrite length_app. cbn. lia.
  - intros _ En. rewrite En in A1. by apply elem_of_nil in A1.
Qed.
Lemma builder_collects hss : forall done builder oom, Forall (fun hs => length hs = length builder) hss -> collected builder done -> true ∉ oom ->
  wp (builder_add_all builder hss) (fun res oom' => true ∉ oom' /\ fst res = 0 /\ length (snd res) = length builder /\ collected (snd res) (done ++ hss)) oom.
Proof.
  induction hss as [|hs hss IH]; intros dn builder oom Hf Hc Ho; cbn [builder_add_all].
  { apply wp_ret. by rewrite app_nil_r. }
  apply Forall_cons in Hf as [Hl Hf]. apply wp_bind. eapply wp_mono; [by apply (builder_collects_one builder hs dn)|].
  intros [rc b1] o1 (Ho1 & Erc & El1 & Hb1). cbn [fst snd] in *. subst rc. cbn [Z.eqb negb].
  rewrite cons_middle, app_assoc. rewrite <- El1 in Hf |- *. by apply IH.
Qed.
Lemma builder_new_collected part_count : collected (tuple_bloom_builder_new part_count) [].
Proof.
  intros i arr E. apply lookup_replicate in E as [-> _]. split_and!; [intros hs h Hin; by apply elem_of_nil in Hin|cbn; lia|done].
Qed.

(** ** The filters of a key *)

Section Tuples.
Context {double : Type} (ceil_log : double -> Z) (ceil_bits : Z -> Z) (part_fpr : double -> list bloom -> Z -> double).
(** The number of hash functions for the rates in use, and ceil(x / log(2)). *)
Context (m : Z) (Hm : m < 2 ^ 16) (Hlog : forall fpr, 0 < ceil_log fpr <= m) (Hbits : forall x, 0 < x < 2 ^ 32 -> 0 < ceil_bits x <= 2 * x).

Lemma bloom_create_ok n fpr : 0 < n -> n * m < 2 ^ 32 ->
  exists b, bloom_create ceil_log ceil_bits n fpr false = Some b /\ bloom_ok b.
Proof.
  intros Hn Hnm. eexists. split; [done|]. pose proof (Hlog fpr) as Hl.
  assert (uwrap 16 (ceil_log fpr) = ceil_log fpr) as E1 by (apply Z.mod_small; lia).
  assert (0 < n * ceil_log fpr < 2 ^ 32) as Hx by nia. assert (u32 (n * ceil_log fpr) = n * ceil_log fpr) as E2 by (apply Z.mod_small; lia).
  pose proof (Hbits _ Hx) as Hb. rewrite E1, E2. assert (u64 (ceil_bits (n * ceil_log fpr)) = ceil_bits (n * ceil_log fpr)) as E3 by (apply Z.mod_small; lia).
  rewrite E3. unfold bloom_block_bits, BLOOM_CACHE_LINE, CHAR_BIT. set (y := ceil_bits (n * ceil_log fpr)) in *. change (64 * 8) with 512.
  assert (u64 (y + 512 - 1) = y + 511) as -> by (rewrite <- Z.add_sub_assoc; apply Z.mod_small; lia).
  assert (0 < (y + 511) / 512 < 2 ^ 32) as Hc by (split; [apply Z.div_str_pos; lia|apply Z.div_lt_upper_bound; lia]).
  assert (u32 ((y + 511) / 512) = (y + 511) / 512) as -> by (apply Z.mod_small; lia).
  split; cbn [b_table_size b_table]; [lia|by rewrite length_replicate|]. apply Forall_replicate. split; [by rewrite length_replicate|].
  apply Forall_replicate. lia.
Qed.

Lemma bloom_parts_spec fpr arrs : forall parts oom, true ∉ oom ->
  Forall (fun arr => ha_values arr <> [] /\ Z.of_nat (length (ha_values arr)) * m < 2 ^ 32) arrs ->
  wp (tuple_bloom_parts ceil_log ceil_bits part_fpr fpr parts arrs) (fun res oom' => true ∉ oom' /\ exists bs, res = Some (parts ++ bs) /\ length bs = length arrs /\
    forall i arr, arrs !! i = Some arr -> exists b, bs !! i = Some b /\ forall h, h ∈ ha_values arr -> bloom_maybe_has b h = Some true) oom.
Proof.
  induction arrs as [|arr arrs IH]; intros parts oom Ho Hf; cbn [tuple_bloom_parts].
  { apply wp_ret. split; [done|]. exists []. by rewrite app_nil_r. }
  apply Forall_cons in Hf as [[Hne Hn] Hf]. apply wp_bind, wp_fails; [done|]. intros o1 Ho1.
  assert (0 < Z.of_nat (length (ha_values arr))) as Hpos by (destruct (ha_values arr); [done|cbn; lia]).
  assert (0 < m) as Hm0 by (specialize (Hlog fpr); lia).
  assert (u32 (Z.of_nat (length (ha_values arr))) = Z.of_nat (length (ha_values arr))) as -> by (apply Z.mod_small; nia).
  destruct (bloom_create_ok (Z.of_nat (length (ha_values arr))) (part_fpr fpr parts (Z.of_nat (length (ha_values arr)))) Hpos Hn) as (b & -> & Hb).
  destruct (bloom_add_all_spec (ha_values arr) b Hb) as (b' & -> & _ & Hh & _).
  eapply wp_mono; [by apply IH|]. intros res o2 (Ho2 & bs & -> & El & Hbs). split; [done|]. exists (b' :: bs). rewrite <- app_assoc. split_and!; [done|cbn; lia|].
  intros [|i] arr' E; [injection E as <-; by exists b'|]. by apply Hbs.
Qed.

Lemma parts_have hashes : forall parts, (forall i h, hashes !! i = Some h -> exists b, parts !! i = Some b /\ bloom_maybe_has b h = Some true) ->
  parts_maybe_have parts hashes = Some true.
Proof.
  induction hashes as [|h hashes IH]; intros parts Hp; [by destruct parts|]. destruct (Hp 0%nat h eq_refl) as (b & Eb & Hb).
  destruct parts as [|b' parts]; [done|]. injection Eb as ->. cbn [parts_maybe_have]. rewrite Hb. cbn. apply IH. intros i h' E. apply (Hp (S i) h' E).
Qed.

(** The filter of a run. *)
Definition build_bloom (part_count : nat) (hss : list (list Z)) (fpr : double) : oprog (option tuple_bloom) :=
  '(rc, builder) ← builder_add_all (tuple_bloom_builder_new part_count) hss;
  if negb (rc =? 0) then mret None else tuple_bloom_new ceil_log ceil_bits part_fpr builder fpr.

Lemma bloom_new_spec part_count hss builder fpr oom :
  hss <> [] -> Forall (fun hs => length hs = part_count) hss -> Z.of_nat (length hss) * m < 2 ^ 32 -> length builder = part_count ->
  collected builder hss -> true ∉ oom ->
  wp (tuple_bloom_new ceil_log ceil_bits part_fpr builder fpr) (fun b oom' => true ∉ oom' /\ exists tb, b = Some tb /\ tb_is_legacy tb = false /\ length (tb_parts tb) = part_count /\
    forall hs j, hs ∈ hss -> parts_maybe_have (tb_parts tb) (take j hs) = Some true) oom.
Proof.
  intros Hne Hf Hn El Hc Ho. unfold tuple_bloom_new. apply wp_bind, wp_fails; [done|]. intros o2 Ho2. apply wp_bind. eapply wp_mono.
  { apply bloom_parts_spec; [done|]. apply Forall_lookup. intros i arr E. destruct (Hc i arr E) as (_ & C2 & C3). split; [by apply C3|].
    specialize (Hlog fpr). nia. }
  intros res o3 (Ho3 & bs & -> & Elb & Hbs). apply wp_ret. split; [done|]. eexists. split; [done|]. split; [done|]. split; [cbn; lia|]. intros hs j Hin. cbn [tb_parts app].
  apply parts_have. intros i h E. apply lookup_take_Some in E as [E _]. rewrite Forall_forall in Hf. specialize (Hf hs Hin). cbv beta in Hf.
  destruct (lookup_lt_is_Some_2 builder i) as [arr Ea]; [apply lookup_lt_Some in E; lia|]. destruct (Hbs i arr Ea) as (b & Eb & Hb). exists b.
  split; [done|]. apply Hb. by eapply (Hc i arr Ea).
Qed.
Lemma build_bloom_spec part_count hss fpr oom :
  hss <> [] -> Forall (fun hs => length hs = part_count) hss -> Z.of_nat (length hss) * m < 2 ^ 32 -> true ∉ oom ->
  wp (build_bloom part_count hss fpr) (fun b _ => exists tb, b = Some tb /\ tb_is_legacy tb = false /\ length (tb_parts tb) = part_count /\
    forall hs j, hs ∈ hss -> parts_maybe_have (tb_parts tb) (take j hs) = Some true) oom.
Proof.
  intros Hne Hf Hn Ho. unfold build_bloom. assert (length (tuple_bloom_builder_new part_count) = part_count) as El0 by apply length_replicate.
  apply wp_bind. eapply wp_mono; [apply (builder_collects hss [] (tuple_bloom_builder_new part_count) oom); [by rewrite El0|apply builder_new_collected|done]|].
  intros [rc builder] o1 (Ho1 & Erc & El & Hc). cbn [fst snd app] in *. subst rc. cbn [Z.eqb negb]. rewrite El0 in El.
  eapply wp_mono; [by apply (bloom_new_spec part_count hss)|]. by intros b o2 [_ H].
Qed.
End Tuples.

(** C29: a filter has no false negatives: whatever keys a run has, the filter that is
    built from them says of each of them, and of each of its prefixes, that the
    run may have it.  No access is outside of the table. *)
Theorem tuple_bloom_no_false_negatives {double} (ceil_log : double -> Z) (ceil_bits : Z -> Z) part_fpr m part_count hss fpr :
  m < 2 ^ 16 -> (forall fpr, 0 < ceil_log fpr <= m) -> (forall x, 0 < x < 2 ^ 32 -> 0 < ceil_bits x <= 2 * x) ->
  hss <> [] -> Forall (fun hs => length hs = part_count) hss -> Z.of_nat (length hss) * m < 2 ^ 32 ->
  wp (build_bloom ceil_log ceil_bits part_fpr part_count hss fpr) (fun b _ => exists tb, b = Some tb /\
    forall hs whole, hs ∈ hss -> tuple_bloom_maybe_has tb whole hs = Some true /\
      forall j, tuple_bloom_maybe_has_key tb part_count whole (take j hs) = Some true) [].
Proof.
  intros Hm Hlog Hbits Hne Hf Hn. eapply wp_mono; [eapply (build_bloom_spec ceil_log ceil_bits part_fpr m Hm Hlog Hbits); [done|done|done|]|].
  { intros H. by apply elem_of_nil in H. }
  intros b _ (tb & -> & El & Ep & H). exists tb. split; [done|]. intros hs whole Hin. rewrite Forall_forall in Hf. specialize (Hf hs Hin). cbv beta in Hf. split.
  - unfold tuple_bloom_maybe_has. rewrite El, Ep, Hf, Nat.eqb_refl. cbn [negb]. rewrite <- (take_ge hs part_count) by lia. by apply H.
  - intros j. unfold tuple_bloom_maybe_has_key. rewrite El, Ep, Nat.eqb_refl, length_take.
    destruct (Nat.leb_spec (j `min` length hs) part_count); [|lia]. by apply H.
Qed.

Lemma tuple_bloom_no_false_negatives_witness :
  wp (build_bloom (fun _ : unit => 7) (fun x => 2 * x) (fun _ _ _ => tt) 2 [[12345; 777]; [12345; 4294967295]; [6; 8]] tt)
    (fun b _ => exists tb, b = Some tb /\ tuple_bloom_maybe_has_key tb 2 0 [12345] = Some true) [].
Proof.
  eapply wp_mono; [apply (tuple_bloom_no_false_negatives (fun _ : unit => 7) (fun x => 2 * x) (fun _ _ _ => tt) 7 2 [[12345; 777]; [12345; 4294967295]; [6; 8]] tt)|].
  - lia.
  - intros _. lia.
  - intros x Hx. lia.
  - discriminate.
  - repeat constructor.
  - cbn. lia.
  - intros b _ (tb & -> & H). exists tb. split; [reflexivity|]. apply (H [12345; 777] 0 ltac:(by left)) with (j := 1%nat).
Defined.

(** C39: the number of bits of a filter is found with 32-bit arithmetic.  With 2^28
    values and 16 hash functions the product is 0: the table has no block, and
    the first value that is added is divided by zero. *)
Theorem bloom_create_overflow {double} (ceil_log : double -> Z) (ceil_bits : Z -> Z) fpr :
  ceil_log fpr = 16 -> ceil_bits 0 = 0 ->
  exists b, bloom_create ceil_log ceil_bits (2 ^ 28) fpr false = Some b /\ b_table_size b = 0 /\ forall hash, bloom_add b hash = None.
Proof. intros E1 E2. unfold bloom_create. rewrite E1. change (u32 (2 ^ 28 * uwrap 16 16)) with 0. rewrite E2. by eexists. Qed.

Lemma bloom_create_overflow_witness :
  exists b, bloom_create (fun _ : unit => 16) (fun x => 2 * x) (2 ^ 28) tt false = Some b /\ b_table_size b = 0 /\ forall hash, bloom_add b hash = None.
Proof. apply (bloom_create_overflow (fun _ : unit => 16) (fun x => 2 * x) tt); reflexivity. Defined.
