(* ===== verification/VyRunWriter.v ===== *)
(** * Writing a run

    The run writer of src/box/vy_run.c splits the statements it is given into
    pages, writes the pages to the data file, and the index of the pages with
    the Bloom filter to the index file.

    The size of a row in the file is a parameter, and so are the hashes of the
    parts of a key.  Allocations and writes may fail, as in the reader. *)

From stdpp Require Import list.
From S2P Require Import Prelude VyStmt VyMem VyLsm VyRunReader Bloom.

Open Scope Z_scope.

Definition XLOG_FIXHEADER_SIZE : Z := 19.

Record run_writer (T O : Type) := mk_rw {
  (** struct vy_run_writer: the rows of the page that is being written are
      counted by the row index. *)
  rw_xlog_open : bool;
  rw_bloom : option tuple_bloom_builder;
  rw_rows : list (vy_stmt T O);
  rw_page_min : option T;
  rw_last : option (vy_stmt T O);
  rw_obuf_size : Z;
  rw_page_info_capacity : Z;
  (** struct vy_run *)
  rw_pages : list (vy_page T O);
  rw_min_key : option T;
  rw_max_key : option T;
  rw_min_lsn : Z;
  rw_max_lsn : Z;
  rw_filter : option tuple_bloom;
  rw_oom : list bool;
}.
Arguments mk_rw {T O}. Arguments rw_xlog_open {T O}. Arguments rw_bloom {T O}. Arguments rw_rows {T O}. Arguments rw_page_min {T O}.
Arguments rw_last {T O}. Arguments rw_obuf_size {T O}. Arguments rw_page_info_capacity {T O}. Arguments rw_pages {T O}.
Arguments rw_min_key {T O}. Arguments rw_max_key {T O}. Arguments rw_min_lsn {T O}. Arguments rw_max_lsn {T O}.
Arguments rw_filter {T O}. Arguments rw_oom {T O}.
#[export] Instance run_writer_rebuild T O : Rebuild (run_writer T O) := fun w =>
  mk_rw (rw_xlog_open w) (rw_bloom w) (rw_rows w) (rw_page_min w) (rw_last w) (rw_obuf_size w) (rw_page_info_capacity w)
    (rw_pages w) (rw_min_key w) (rw_max_key w) (rw_min_lsn w) (rw_max_lsn w) (rw_filter w) (rw_oom w).

Section Writer.
Context {T O : Type} `{!Tuples T O}.
Abbreviation stmt := (vy_stmt T O).
Abbreviation wprog := (prog (run_writer T O)).

Context {double : Type} (ceil_log : double -> Z) (ceil_bits : Z -> Z) (part_fpr : double -> list bloom -> Z -> double).
Context (part_count : nat) (part_hashes : T -> list Z) (row_size : stmt -> Z).
(** The options of the writer; no filter is built if the rate is not below 1. *)
Context (page_size : Z) (bloom_fpr : double) (no_bloom : bool).

Definition on_rw {A} (m : oprog A) : wprog A := fun w =>
  match m (rw_oom w) with
  | Done (a, oom) => Done (a, w <| rw_oom := oom |>)
  | Abort => Abort
  end.

(** The return code and the writer. *)
Definition vy_run_writer_create (oom : list bool) : Z * run_writer T O :=
  let w := mk_rw false None [] None None 0 0 [] None None INT64_MAX (-1) None oom in
  if no_bloom then (0, w)
  else if default false (head oom) then (-1, w <| rw_oom := tail oom |>)
  else (0, w <| rw_oom := tail oom |> <| rw_bloom := Some (tuple_bloom_builder_new part_count) |>).

Definition vy_run_writer_create_xlog : wprog Z :=
  assert (fun w => negb (rw_xlog_open w));;
  failed ← on_rw fails;
  if failed : bool then mret (-1) else modify (fun w => w <| rw_xlog_open := true |>);; mret 0.

Definition vy_run_alloc_page_info : wprog Z :=
  oom ← on_rw fails;
  if oom : bool then mret (-1)
  else
    modify (fun w => let capacity := rw_page_info_capacity w in
                     w <| rw_page_info_capacity := if 0 <? capacity then u32 (capacity * 2) else 16 |>);;
    mret 0.

Definition rw_page_count (w : run_writer T O) : Z := Z.of_nat (length (rw_pages w)).

(** The key of the first statement of the page. *)
Definition set_min_key (key : T) : wprog Z :=
  no_key ← on_rw fails;
  if no_key : bool then mret (-1)
  else
    first ← gets (fun w => rw_page_count w =? 0);
    rc ← (if first : bool then
            assert (fun w => match rw_min_key w with None => true | Some _ => false end);;
            oom ← on_rw fails;
            if oom : bool then mret (-1) else modify (fun w => w <| rw_min_key := Some key |>);; mret 0
          else mret 0);
    if negb (rc =? 0) then mret (-1)
    else
      oom ← on_rw fails;
      if oom : bool then mret (-1) else modify (fun w => w <| rw_page_min := Some key |>);; mret 0.
Definition vy_run_writer_start_page (first_entry : stmt) : wprog Z :=
  full ← gets (fun w => rw_page_info_capacity w <=? rw_page_count w);
  rc ← (if full : bool then vy_run_alloc_page_info else mret 0);
  if negb (rc =? 0) then mret (-1) else set_min_key (s_tuple first_entry).

(** xlog_write_row *)
Definition write_row (size : Z) : wprog Z :=
  failed ← on_rw fails;
  if failed : bool then mret (-1)
  else modify (fun w => w <| rw_obuf_size ::= fun n => (if n =? 0 then XLOG_FIXHEADER_SIZE else n) + size |>);; mret 0.

Definition vy_run_dump_stmt (entry : stmt) : wprog Z :=
  not_encoded ← on_rw fails;
  if not_encoded : bool then mret (-1)
  else
    rc ← write_row (row_size entry);
    if negb (rc =? 0) then mret (-1) else modify (fun w => w <| rw_rows ::= fun l => l ++ [persist entry] |>);; mret 0.

(** The rest of vy_run_writer_write_to_page, with the filter done. *)
Definition write_entry (entry : stmt) : wprog Z :=
  modify (fun w => w <| rw_last := Some entry |>);;
  no_offset ← on_rw fails;
  if no_offset : bool then mret (-1)
  else
    rc ← vy_run_dump_stmt entry;
    if negb (rc =? 0) then mret (-1)
    else
      modify (fun w => w <| rw_min_lsn := Z.min (rw_min_lsn w) (s_lsn entry) |>
                         <| rw_max_lsn := Z.max (rw_max_lsn w) (s_lsn entry) |>);;
      mret 0.
Definition vy_run_writer_write_to_page (entry : stmt) : wprog Z :=
  bloom ← gets rw_bloom;
  rc ← (match bloom with
        | None => mret 0
        | Some builder =>
            '(rc, builder) ← on_rw (tuple_bloom_builder_add builder (part_hashes (s_tuple entry)));
            modify (fun w => w <| rw_bloom := Some builder |>);;
            mret rc
        end);
  if negb (rc =? 0) then mret (-1) else write_entry entry.

(** The size of the row of the row index does not matter: the page is written
    to the file, and the buffer is empty again. *)
Definition vy_run_writer_end_page : wprog Z :=
  assert (fun w => negb (match rw_rows w with [] => true | _ => false end));;
  not_encoded ← on_rw fails;
  if not_encoded : bool then mret (-1)
  else
    rc ← write_row 0;
    if negb (rc =? 0) then mret (-1)
    else
      not_flushed ← on_rw fails;
      if not_flushed : bool then mret (-1)
      else
        min ← gets rw_page_min;
        match min with
        | None => abort
        | Some min =>
            modify (fun w => w <| rw_pages ::= fun l => l ++ [mk_page min (Z.of_nat (length (rw_rows w))) (rw_rows w)] |>
                               <| rw_rows := [] |> <| rw_page_min := None |> <| rw_obuf_size := 0 |>);;
            mret 0
        end.

(** The rest of vy_run_writer_append_stmt, with the file open. *)
Definition append_entry (entry : stmt) : wprog Z :=
  rows ← gets rw_rows;
  rc ← (match rows with [] => vy_run_writer_start_page entry | _ => mret 0 end);
  if negb (rc =? 0) then mret (-1)
  else
    rc ← vy_run_writer_write_to_page entry;
    if negb (rc =? 0) then mret (-1)
    else
      size ← gets rw_obuf_size;
      if page_size <=? size then vy_run_writer_end_page else mret 0.
Definition vy_run_writer_append_stmt (entry : stmt) : wprog Z :=
  opened ← gets rw_xlog_open;
  rc ← (if opened : bool then mret 0 else vy_run_writer_create_xlog);
  if negb (rc =? 0) then mret (-1) else append_entry entry.

(** The files are synced and get their names, and the index is written. *)
Definition close_run (last : stmt) : wprog Z :=
  no_key ← on_rw fails;
  if no_key : bool then mret (-1)
  else
    assert (fun w => match rw_max_key w with None => true | Some _ => false end);;
    oom ← on_rw fails;
    if oom : bool then mret (-1)
    else
      modify (fun w => w <| rw_max_key := Some (s_tuple last) |>);;
      not_synced ← on_rw fails;
      if not_synced : bool then mret (-1)
      else
        bloom ← gets rw_bloom;
        rc ← (match bloom with
              | None => mret 0
              | Some builder =>
                  filter ← on_rw (tuple_bloom_new ceil_log ceil_bits part_fpr builder bloom_fpr);
                  modify (fun w => w <| rw_filter := filter |>);;
                  mret (match filter with Some _ => 0 | None => -1 end)
              end);
        if negb (rc =? 0) then mret (-1)
        else
          no_index ← on_rw fails;
          mret (if no_index : bool then -1 else 0).
Definition vy_run_writer_commit : wprog Z :=
  rows ← gets rw_rows;
  rc ← (match rows with [] => mret 0 | _ => vy_run_writer_end_page end);
  if negb (rc =? 0) then mret (-1)
  else
    pages ← gets rw_pages;
    match pages with
    | [] => mret 0
    | _ =>
        last ← gets rw_last;
        match last with
        | None => abort
        | Some last => close_run last
        end
    end.

(** The loop of vy_task_write_run over the statements of the write iterator,
    with the writer. *)
Fixpoint append_all (l : list stmt) : wprog Z :=
  match l with
  | [] => mret 0
  | entry :: l =>
      rc ← vy_run_writer_append_stmt entry;
      if negb (rc =? 0) then mret (-1) else append_all l
  end.
Definition write_run (l : list stmt) : wprog Z :=
  rc ← append_all l;
  if negb (rc =? 0) then mret (-1) else vy_run_writer_commit.

(** The run, as it is read. *)
Definition run_of_writer (w : run_writer T O) : vy_run T O T :=
  mk_run (rw_pages w) ((fun tb k => default false (tuple_bloom_maybe_has tb 0 (part_hashes k))) <$> rw_filter w).
End Writer.
