(* ===== verification/VyRunRoundtrip.v ===== *)
(** * What is written to a run is read from it *)

From stdpp Require Import list sorting.
From S2P Require Import Prelude VyStmt VyVisible VyViews VyTheorems VyMem VyMemSafety VyMemTheorems VyLsm VyRunReader VyPages VyRunSearch VyRunScan.
From S2P Require Import VyOutput VyLsmTasks VyRunSeek VyRunTheorems VySlices Bloom BloomTheorems VyRunWriter.

Open Scope Z_scope.

Section Roundtrip.
Context {T O : Type} `{!Tuples T O, !TuplesLaws T O}.
Abbreviation stmt := (vy_stmt T O).
Abbreviation writer := (run_writer T O).
Implicit Types (e x : stmt) (l : list stmt) (w : writer).

Context {double : Type} (ceil_log : double -> Z) (ceil_bits : Z -> Z) (part_fpr : double -> list bloom -> Z -> double).
Context (part_count : nat) (part_hashes : T -> list Z) (row_size : stmt -> Z).
Context (page_size : Z) (bloom_fpr : double) (no_bloom : bool).
Context (Hparts : forall t, length (part_hashes t) = part_count).

Lemma wp_on_rw {A} (m : oprog A) (Q : A -> writer -> Prop) w :
  wp m (fun c oom => Q c (w <| rw_oom := oom |>)) (rw_oom w) -> wp (on_rw m) Q w.
Proof. unfold wp, on_rw. by destruct (m (rw_oom w)) as [[c oom]|]. Qed.
Lemma wp_rw_fails (Q : bool -> writer -> Prop) w :
  true ∉ rw_oom w -> (forall oom, true ∉ oom -> Q false (w <| rw_oom := oom |>)) -> wp (on_rw fails) Q w.
Proof. intros Ho HQ. apply wp_on_rw, wp_fails; [done|]. intros oom Ho'. by apply HQ. Qed.

Definition lsns l : list Z := map s_lsn l.

(** The writer after the statements [l]; [page] are the rows of the page that
    is not written yet. *)
Record writing w l : Prop := {
  wg_rows : rows_of (rw_pages w) ++ rw_rows w = map persist l;
  wg_pages : Forall page_ok (rw_pages w);
  wg_page : match rw_rows w with [] => True | x :: _ => rw_page_min w = Some (s_tuple x) end;
  wg_min : rw_min_key w = s_tuple <$> head l;
  wg_last : rw_last w = list.last l;
  wg_lsns : rw_min_lsn w = foldr Z.min INT64_MAX (lsns l) /\ rw_max_lsn w = foldr Z.max (-1) (lsns l);
  wg_bloom : match rw_bloom w with
             | Some b => length b = part_count /\ collected b (map (fun e => part_hashes (s_tuple e)) l)
             | None => True
             end;
  wg_done : rw_max_key w = None /\ rw_filter w = None;
  wg_oom : true ∉ rw_oom w;
}.

(** Only what the writer does not tell apart has changed. *)
Lemma writing_oom w l oom : writing w l -> true ∉ oom -> writing (w <| rw_oom := oom |>) l.
Proof. by intros [] ?. Qed.
Lemma writing_obuf w l n : writing w l -> writing (w <| rw_obuf_size ::= n |>) l.
Proof. by intros []. Qed.

Lemma foldr_min_snoc d n ns : foldr Z.min d (ns ++ [n]) = Z.min (foldr Z.min d ns) n.
Proof. induction ns as [|k ns IH]; cbn [app foldr]; [apply Z.min_comm|]. by rewrite IH, Z.min_assoc. Qed.
Lemma foldr_max_snoc d n ns : foldr Z.max d (ns ++ [n]) = Z.max (foldr Z.max d ns) n.
Proof. induction ns as [|k ns IH]; cbn [app foldr]; [apply Z.max_comm|]. by rewrite IH, Z.max_assoc. Qed.

Lemma end_page_spec w l (Q : Z -> writer -> Prop) :
  writing w l -> rw_rows w <> [] -> (forall w', writing w' l -> rw_rows w' = [] -> rw_xlog_open w' = rw_xlog_open w -> Q 0 w') -> wp vy_run_writer_end_page Q w.
Proof.
  intros [H1 H2 H3 H4 H5 H6 H7 H8 H9] Hne HQ. unfold vy_run_writer_end_page. apply wp_bind, wp_assert. split; [by destruct (rw_rows w)|].
  apply wp_bind, wp_rw_fails; [done|]. intros o1 Q1. apply wp_bind, wp_bind, wp_rw_fails; [done|]. intros o2 Q2. apply wp_bind, wp_modify, wp_ret.
  cbn [Z.eqb negb]. apply wp_bind, wp_rw_fails; [done|]. intros o3 Q3. apply wp_bind, wp_gets.
  set (w1 := w <| rw_oom := o1 |> <| rw_oom := o2 |> <| rw_obuf_size ::= _ |> <| rw_oom := o3 |>).
  assert (rw_page_min w1 = rw_page_min w) as -> by done. destruct (rw_rows w) as [|x rows] eqn:Er; [done|]. rewrite H3. apply wp_bind, wp_modify, wp_ret.
  apply HQ; [|done|done]. split; try done.
  - change (rows_of (rw_pages w ++ [mk_page (s_tuple x) (Z.of_nat (length (rw_rows w))) (rw_rows w)]) ++ [] = map persist l).
    rewrite app_nil_r, rows_of_app, rows_of_cons. cbn [pg_rows]. rewrite Er. change (rows_of []) with (@nil stmt). by rewrite app_nil_r.
  - cbn. apply Forall_app_2; [done|]. constructor; [|constructor]. split; cbn; rewrite Er; [done|by eexists _, _].
Qed.

Lemma start_page_spec w l e (Q : Z -> writer -> Prop) :
  writing w l -> rw_rows w = [] ->
  (forall w', rw_page_min w' = Some (s_tuple e) -> writing (w' <| rw_min_key := rw_min_key w |>) l -> rw_rows w' = [] -> rw_min_key w' = s_tuple <$> head (l ++ [e]) ->
     rw_xlog_open w' = rw_xlog_open w -> Q 0 w') ->
  wp (vy_run_writer_start_page e) Q w.
Proof.
  intros Hw Hr HQ. unfold vy_run_writer_start_page. apply wp_bind, wp_gets, wp_bind.
  assert (forall w1, writing w1 l -> rw_rows w1 = [] -> rw_min_key w1 = rw_min_key w -> rw_xlog_open w1 = rw_xlog_open w ->
    wp (set_min_key (s_tuple e)) Q w1) as Hgo.
  { intros w1 Hw1 Hr1 Hm1 Hx1. unfold set_min_key. apply wp_bind, wp_rw_fails; [apply Hw1|]. intros o1 Q1. apply wp_bind, wp_gets, wp_bind.
    pose proof Hw1 as [H1 H2 H3 H4 H5 H6 H7 H8 H9]. rewrite Hr1, app_nil_r in H1. unfold rw_page_count. cbn [rw_pages].
    change (rw_pages (w1 <| rw_oom := o1 |>)) with (rw_pages w1). destruct (rw_pages w1) as [|p ps] eqn:Ep; cbn [length Z.of_nat Z.eqb].
    - assert (l = []) as -> by (destruct l; [done|]; cbn in H1; done). apply wp_bind, wp_assert. split; [cbn; by rewrite H4|].
      apply wp_bind, wp_rw_fails; [done|]. intros o2 Q2. apply wp_bind, wp_modify, wp_ret. cbn [Z.eqb negb].
      apply wp_bind, wp_rw_fails; [done|]. intros o3 Q3. apply wp_bind, wp_modify, wp_ret. apply HQ; [done| |done|done|done].
      split; cbn; rewrite ?Hr1, ?Ep; try done. by etransitivity; [symmetry; exact Hm1|].
    - apply wp_ret. cbn [Z.eqb negb]. apply wp_bind, wp_rw_fails; [done|]. intros o3 Q3. apply wp_bind, wp_modify, wp_ret. apply HQ; [done| |done| |done].
      + split; cbn; rewrite ?Hr1, ?Ep; try done; [by rewrite app_nil_r|by etransitivity; [symmetry; exact Hm1|]].
      + cbn. rewrite H4. destruct l as [|y l]; [|done]. exfalso. rewrite rows_of_cons in H1. apply app_eq_nil in H1 as [H1 _].
        apply Forall_inv, pk_min in H2 as (x & rest & E & _). congruence. }
  destruct (_ <=? _).
  - unfold vy_run_alloc_page_info. apply wp_bind, wp_rw_fails; [apply Hw|]. intros o1 Q1. apply wp_bind, wp_modify, wp_ret. cbn [Z.eqb negb].
    apply Hgo; [by destruct Hw|done|done|done].
  - apply wp_ret. cbn [Z.eqb negb]. by apply Hgo.
Qed.

(** The page for [e] has been started. *)
Record started w l e : Prop := {
  sr_writing : writing (w <| rw_min_key := s_tuple <$> head l |>) l;
  sr_min : rw_min_key w = s_tuple <$> head (l ++ [e]);
  sr_page : rw_page_min w = Some (s_tuple (default e (head (rw_rows w))));
}.

Lemma write_to_page_spec w l e (Q : Z -> writer -> Prop) :
  started w l e -> (forall w', writing w' (l ++ [e]) -> rw_rows w' <> [] -> rw_xlog_open w' = rw_xlog_open w -> Q 0 w') ->
  wp (vy_run_writer_write_to_page part_hashes row_size e) Q w.
Proof.
  intros [[H1 H2 H3 H4 H5 H6 H7 H8 H9] Hm Hp] HQ. cbn in H1, H2, H3, H5, H6, H7, H8, H9. fold (rows_of (rw_pages w)) in H1.
  assert (forall w1, rw_pages w1 = rw_pages w -> rw_rows w1 = rw_rows w -> rw_page_min w1 = rw_page_min w -> rw_min_key w1 = rw_min_key w ->
    rw_min_lsn w1 = rw_min_lsn w -> rw_max_lsn w1 = rw_max_lsn w -> rw_max_key w1 = rw_max_key w -> rw_filter w1 = rw_filter w ->
    rw_xlog_open w1 = rw_xlog_open w -> true ∉ rw_oom w1 ->
    match rw_bloom w1 with Some b => length b = part_count /\ collected b (map (fun e => part_hashes (s_tuple e)) (l ++ [e])) | None => True end ->
    wp (write_entry row_size e) Q w1) as Hgo.
  { intros w1 E1 E2 E3 E4 E5 E6 E7 E8 E9 Ho Hb. unfold write_entry. apply wp_bind, wp_modify, wp_bind, wp_rw_fails; [done|]. intros o1 Q1. unfold vy_run_dump_stmt, write_row.
    apply wp_bind, wp_bind, wp_rw_fails; [done|]. intros o2 Q2. apply wp_bind, wp_bind, wp_rw_fails; [done|]. intros o3 Q3. apply wp_bind, wp_modify, wp_ret.
    cbn [Z.eqb negb]. apply wp_bind, wp_modify, wp_ret. cbn [Z.eqb negb]. apply wp_bind, wp_modify, wp_ret. apply HQ; [|cbn; by destruct (rw_rows w1)|done].
    split; cbn; rewrite ?E1, ?E2, ?E3, ?E4, ?E5, ?E6, ?E7, ?E8; try done.
    - fold (rows_of (rw_pages w)). by rewrite app_assoc, H1, map_app.
    - rewrite Hp. by destruct (rw_rows w).
    - by rewrite last_snoc.
    - unfold lsns. rewrite map_app. cbn [map]. rewrite foldr_min_snoc, foldr_max_snoc. destruct H6 as [-> ->]. done. }
  unfold vy_run_writer_write_to_page. apply wp_bind, wp_gets, wp_bind. destruct (rw_bloom w) as [b|] eqn:Eb.
  - destruct H7 as [Hl Hc]. apply wp_bind, wp_on_rw. eapply wp_mono; [apply (builder_collects_one b _ _ _ (eq_trans (Hparts _) (eq_sym Hl)) Hc H9)|].
    intros [rc b'] o1 (Q1 & Erc & Hl' & Hc'). cbn [fst snd] in *. subst rc. apply wp_bind, wp_modify, wp_ret. cbn [Z.eqb negb].
    apply Hgo; try done. cbn. split; [congruence|]. by rewrite map_app.
  - apply wp_ret. cbn [Z.eqb negb]. apply Hgo; try done. by rewrite Eb.
Qed.

Lemma writer_append_spec w l e (Q : Z -> writer -> Prop) :
  writing w l -> (forall w', writing w' (l ++ [e]) -> Q 0 w') -> wp (vy_run_writer_append_stmt part_hashes row_size page_size e) Q w.
Proof.
  intros Hw HQ. unfold vy_run_writer_append_stmt. apply wp_bind, wp_gets, wp_bind.
  assert (forall w1, writing w1 l -> rw_rows w1 = rw_rows w -> wp (append_entry part_hashes row_size page_size e) Q w1) as Hgo.
  { intros w1 Hw1 Er. assert (forall w2, started w2 l e ->
      wp (rc ← vy_run_writer_write_to_page part_hashes row_size e;
          if negb (rc =? 0) then mret (-1)
          else size ← gets rw_obuf_size; if page_size <=? size then vy_run_writer_end_page else mret 0) Q w2) as Hwr.
    { intros w2 Hs. apply wp_bind. eapply write_to_page_spec; [done|]. intros w3 Hw3 Hne _. cbn [Z.eqb negb]. apply wp_bind, wp_gets.
      destruct (_ <=? _); [|apply wp_ret; by apply HQ]. eapply end_page_spec; [done|done|]. intros w4 Hw4 _ _. by apply HQ. }
    unfold append_entry. apply wp_bind, wp_gets, wp_bind. destruct (rw_rows w1) as [|x rows] eqn:Er1.
    - eapply start_page_spec; [done|done|]. intros w2 Hp Hw2 Hr2 Hm2 _. cbn [Z.eqb negb]. apply Hwr. split; [|done|by rewrite Hr2].
      by rewrite (wg_min _ _ Hw1) in Hw2.
    - apply wp_ret. cbn [Z.eqb negb]. apply Hwr. pose proof Hw1 as [H1 H2 H3 H4 H5 H6 H7 H8 H9]. split.
      + by split.
      + rewrite H4. destruct l as [|y l]; [|done]. exfalso. rewrite Er1 in H1. cbn in H1. by destruct (rows_of (rw_pages w1)).
      + rewrite Er1 in *. done. }
  destruct (rw_xlog_open w) eqn:Ex.
  - apply wp_ret. cbn [Z.eqb negb]. by apply Hgo.
  - unfold vy_run_writer_create_xlog. apply wp_bind, wp_assert. split; [by rewrite Ex|]. apply wp_bind, wp_rw_fails; [apply Hw|]. intros o1 Q1.
    apply wp_bind, wp_modify, wp_ret. cbn [Z.eqb negb]. apply Hgo; [by destruct Hw|done].
Qed.

Lemma append_all_spec l : forall l0 w (Q : Z -> writer -> Prop), writing w l0 -> (forall w', writing w' (l0 ++ l) -> Q 0 w') ->
  wp (append_all part_hashes row_size page_size l) Q w.
Proof.
  induction l as [|e l IH]; intros l0 w Q Hw HQ; cbn [append_all].
  - apply wp_ret, HQ. by rewrite app_nil_r.
  - apply wp_bind. eapply writer_append_spec; [done|]. intros w1 Hw1. cbn [Z.eqb negb]. eapply IH; [done|]. intros w2 Hw2. apply HQ. by rewrite <- app_assoc in Hw2.
Qed.

(** ** The end of the run *)

(** The number of hash functions and the number of bits of a filter; keys that
    compare equal have equal hashes. *)
Context (m : Z) (Hm : m < 2 ^ 16) (Hlog : forall fpr, 0 < ceil_log fpr <= m) (Hbits : forall n : Z, 0 < n < 2 ^ 32 -> 0 < ceil_bits n <= 2 * n).
Context (Hhash : forall t t' : T, same_key t t' -> part_hashes t = part_hashes t').

Lemma persist_sorted l : tree_sorted l -> tree_sorted (map persist l).
Proof.
  intros Hs. induction Hs as [|x l Hs IH Hf]; [constructor|]. cbn [map]. constructor; [done|]. apply Forall_forall. intros y Hy.
  apply list_elem_of_In, in_map_iff in Hy as (z & <- & Hz). apply list_elem_of_In in Hz. rewrite Forall_forall in Hf. exact (Hf z Hz).
Qed.

(** What the reader gets. *)
Record written_run w l : Prop := {
  wu_ok : run_ok (run_of_writer part_hashes w);
  wu_rows : rows (run_of_writer part_hashes w) = map persist l;
  wu_min : rw_min_key w = s_tuple <$> head l;
  wu_max : rw_max_key w = s_tuple <$> list.last l;
  wu_lsns : rw_min_lsn w = foldr Z.min INT64_MAX (lsns l) /\ rw_max_lsn w = foldr Z.max (-1) (lsns l);
}.

Lemma written_run_ok w l filter_ :
  rows_of (rw_pages w) = map persist l -> Forall page_ok (rw_pages w) -> l <> [] -> tree_sorted l -> rw_filter w = filter_ ->
  match filter_ with
  | None => True
  | Some tb => tb_is_legacy tb = false /\ length (tb_parts tb) = part_count /\
      forall hs j, hs ∈ map (fun e => part_hashes (s_tuple e)) l -> parts_maybe_have (tb_parts tb) (take j hs) = Some true
  end -> run_ok (run_of_writer part_hashes w).
Proof.
  intros Er Hp Hne Hs Ef Hb. split; cbn.
  - done.
  - intros E0. rewrite E0 in Er. by destruct l.
  - change (tree_sorted (rows_of (rw_pages w))). rewrite Er. by apply persist_sorted.
  - intros f x k. rewrite Ef. destruct filter_ as [tb|]; [|done]. intros [= <-] Hx Hk. destruct Hb as (B1 & B2 & B3).
    change (x ∈ rows_of (rw_pages w)) in Hx. rewrite Er in Hx. apply list_elem_of_In, in_map_iff in Hx as (e & <- & He). cbn in Hk.
    rewrite <- (Hhash _ _ Hk). unfold tuple_bloom_maybe_has. rewrite B1, B2, Hparts, Nat.eqb_refl. cbn [negb].
    rewrite <- (take_ge (part_hashes (s_tuple e)) part_count) by (by rewrite Hparts). rewrite B3; [done|]. apply list_elem_of_In, in_map_iff. by exists e.
Qed.

Lemma close_run_spec w l last :
  writing w l -> rw_rows w = [] -> list.last l = Some last -> l <> [] -> tree_sorted l -> Z.of_nat (length l) * m < 2 ^ 32 ->
  wp (close_run ceil_log ceil_bits part_fpr bloom_fpr last) (fun rc w' => rc = 0 /\ written_run w' l) w.
Proof.
  intros [H1 H2 H3 H4 H5 H6 H7 [H8 H8'] H9] Hr El Hne Hs Hn. rewrite Hr, app_nil_r in H1. unfold close_run.
  apply wp_bind, wp_rw_fails; [done|]. intros o1 Q1. apply wp_bind, wp_assert. split; [cbn; by rewrite H8|]. apply wp_bind, wp_rw_fails; [done|]. intros o2 Q2.
  apply wp_bind, wp_modify, wp_bind, wp_rw_fails; [done|]. intros o3 Q3. apply wp_bind, wp_gets, wp_bind.
  set (w2 := w <| rw_oom := o1 |> <| rw_oom := o2 |> <| rw_max_key := Some (s_tuple last) |> <| rw_oom := o3 |>).
  assert (rw_bloom w2 = rw_bloom w) as -> by done.
  assert (forall w3, rw_pages w3 = rw_pages w -> run_ok (run_of_writer part_hashes w3) -> rw_min_key w3 = rw_min_key w -> rw_max_key w3 = Some (s_tuple last) ->
    rw_min_lsn w3 = rw_min_lsn w -> rw_max_lsn w3 = rw_max_lsn w -> written_run w3 l) as Hdone.
  { intros w3 E1 Hok E2 E3 E4 E5. split; [done| |by rewrite E2|by rewrite E3, El|by rewrite E4, E5]. unfold rows. cbn [run_of_writer run_pages]. by rewrite E1. }
  destruct (rw_bloom w) as [b|].
  - destruct H7 as [Hl Hc]. apply wp_bind, wp_on_rw. eapply wp_mono.
    { apply (bloom_new_spec ceil_log ceil_bits part_fpr m Hm Hlog Hbits part_count (map (fun e => part_hashes (s_tuple e)) l)); [by destruct l| |by rewrite length_map|done|done|done].
      apply Forall_forall. intros hs Hin. apply list_elem_of_In, in_map_iff in Hin as (e & <- & _). apply Hparts. }
    intros fl o4 (Q4 & tb & -> & T1 & T2 & T3). apply wp_bind, wp_modify, wp_ret. cbn [Z.eqb negb]. apply wp_bind, wp_rw_fails; [done|]. intros o5 Q5. apply wp_ret.
    split; [done|]. apply Hdone; try done. by eapply (written_run_ok _ l (Some tb)).
  - apply wp_ret. cbn [Z.eqb negb]. apply wp_bind, wp_rw_fails; [done|]. intros o5 Q5. apply wp_ret.
    split; [done|]. apply Hdone; try done. by eapply (written_run_ok _ l None).
Qed.

Lemma commit_spec w l : writing w l -> l <> [] -> tree_sorted l -> Z.of_nat (length l) * m < 2 ^ 32 ->
  wp (vy_run_writer_commit ceil_log ceil_bits part_fpr bloom_fpr) (fun rc w' => rc = 0 /\ written_run w' l) w.
Proof.
  intros Hw Hne Hs Hn. unfold vy_run_writer_commit. apply wp_bind, wp_gets, wp_bind.
  destruct (list.last l) as [last|] eqn:El; [|by apply last_None in El].
  assert (forall w1, writing w1 l -> rw_rows w1 = [] -> wp (pages ← gets rw_pages; match pages with
    | [] => mret 0
    | _ => last ← gets rw_last; match last with None => abort | Some last => close_run ceil_log ceil_bits part_fpr bloom_fpr last end
    end) (fun rc w' => rc = 0 /\ written_run w' l) w1) as Hgo.
  { intros w1 Hw1 Hr1. apply wp_bind, wp_gets. pose proof (wg_rows _ _ Hw1) as H1. rewrite Hr1, app_nil_r in H1.
    destruct (rw_pages w1) as [|p ps] eqn:Ep; [by destruct l|]. apply wp_bind, wp_gets. rewrite (wg_last _ _ Hw1), El. by apply close_run_spec. }
  destruct (rw_rows w) as [|x rows] eqn:Er.
  - apply wp_ret. cbn [Z.eqb negb]. by apply Hgo.
  - eapply end_page_spec; [done|by rewrite Er|]. intros w1 Hw1 Hr1 _. cbn [Z.eqb negb]. by apply Hgo.
Qed.

Lemma create_spec : exists w, vy_run_writer_create part_count no_bloom [] = (0, w) /\ writing w [].
Proof.
  unfold vy_run_writer_create. cbn [head default from_option]. destruct no_bloom; eexists; (split; [done|]); split; try done; try by apply not_elem_of_nil.
  cbn. split; [apply length_replicate|apply builder_new_collected].
Qed.

Lemma write_run_ok l : l <> [] -> tree_sorted l -> Z.of_nat (length l) * m < 2 ^ 32 ->
  exists w, vy_run_writer_create part_count no_bloom [] = (0, w) /\
    wp (write_run ceil_log ceil_bits part_fpr part_hashes row_size page_size bloom_fpr l) (fun rc w' => rc = 0 /\ written_run w' l) w.
Proof.
  intros Hne Hs Hn. destruct create_spec as (w & E & Hw). exists w. split; [done|]. unfold write_run. apply wp_bind.
  eapply append_all_spec; [done|]. intros w1 Hw1. cbn [Z.eqb negb app] in *. by apply commit_spec.
Qed.
End Roundtrip.

(** ** The round trip *)

Section ReadBack.
Context {T O : Type} `{!Tuples T O, !TuplesLaws T O}.
Abbreviation stmt := (vy_stmt T O).

(** C21: what is written to a run is read from it, whatever the size of a page and
    with or without a Bloom filter.  The writer succeeds; its index has the
    bounds of the keys and of the LSNs; the stream of the whole run returns the
    statements as they are on disk, and so does every iterator, for the
    statements it looks for. *)
Theorem run_written_is_read {double} (ceil_log : double -> Z) (ceil_bits : Z -> Z) part_fpr m part_count part_hashes row_size page_size bloom_fpr no_bloom
    (l : list stmt) :
  m < 2 ^ 16 -> (forall fpr, 0 < ceil_log fpr <= m) -> (forall n, 0 < n < 2 ^ 32 -> 0 < ceil_bits n <= 2 * n) ->
  (forall t : T, length (part_hashes t) = part_count) -> (forall t t' : T, same_key t t' -> part_hashes t = part_hashes t') ->
  l <> [] -> tree_sorted l -> Z.of_nat (length l) * m < 2 ^ 32 ->
  exists w, vy_run_writer_create part_count no_bloom [] = (0, w) /\
    wp (write_run ceil_log ceil_bits part_fpr part_hashes row_size page_size bloom_fpr l) (fun rc w => rc = 0 /\
      rw_min_key w = s_tuple <$> head l /\ rw_max_key w = s_tuple <$> list.last l /\
      rw_min_lsn w = foldr Z.min INT64_MAX (map s_lsn l) /\ rw_max_lsn w = foldr Z.max (-1) (map s_lsn l) /\
      exists sl, vy_slice_new (run_of_writer part_hashes w) None None = Some sl /\
        wp (stream_read sl) (fun l' _ => l' = map persist l) (vy_slice_stream_open sl []) /\
        forall ty key vlsn n, (key = None -> ty = ITER_GE \/ ty = ITER_LE) ->
          (backward ty = true -> Forall (fun x => has_flag VY_STMT_SKIP_READ x = false) l /\
             forall x, list.last l = Some x -> s_type x <> IPROTO_UPSERT) ->
          wp (run_nexts sl ty key vlsn n) (fun hs _ => hs = take n (scan ty key vlsn (map persist l) ++ replicate n [])) (vy_run_iterator_open sl [])) w.
Proof.
  intros Hm Hlog Hbits Hparts Hhash Hne Hs Hn.
  destruct (write_run_ok ceil_log ceil_bits part_fpr part_count part_hashes row_size page_size bloom_fpr no_bloom Hparts m Hm Hlog Hbits Hhash l Hne Hs Hn) as (w & E & Hw).
  exists w. split; [done|]. eapply wp_mono; [exact Hw|]. intros rc w' (-> & [W1 W2 W3 W4 [W5 W6]]).
  split; [done|]. split; [done|]. split; [done|]. split; [done|]. split; [done|].
  set (r := run_of_writer part_hashes w') in *. destruct (slice_new_spec r W1 None None I) as (sl & Esl & Hsl & Er & Eb & Ee). exists sl. split; [done|].
  assert (slice_rows sl = map persist l) as Erows.
  { unfold slice_rows. rewrite Er, W2. apply filter_all, Forall_forall. intros x _. unfold in_slice. by rewrite Eb, Ee. }
  split; [rewrite <- Erows; by apply stream_read_all|]. intros ty key vlsn n Hkey Hback. rewrite <- Erows.
  pose proof (rk_sorted _ W1) as Hsorted. rewrite <- Er in W1, W2, Hsorted. rewrite scan_slice by done.
  eapply (run_nexts_spec sl ty key vlsn W1 _ (groups_grouped _ Hsorted) (eq_sym (groups_concat _)) Hkey).
  - intros Hb. destruct (Hback Hb) as [B1 B2]. rewrite W2. split.
    + apply Forall_forall. intros x Hx. apply list_elem_of_In, in_map_iff in Hx as (y & <- & Hy). apply list_elem_of_In in Hy. rewrite Forall_forall in B1.
      rewrite VyLsmTasks.persist_flag; [by apply B1|done].
    + intros x. change (map persist l) with (persist <$> l). rewrite fmap_last. destruct (list.last l) as [y|] eqn:El; [|done]. intros [= <-]. by apply (B2 y).
  - apply it_new; [|done|done]. split; [done|done|apply not_elem_of_nil].
Qed.
End ReadBack.

Module CounterRuns.
Import VyTheorems.Counters.

Definition rows_to_write : list (vy_stmt (Z * Z) Z) :=
  [st 1 IPROTO_UPSERT 8 0 1 100 [7]; st 2 IPROTO_REPLACE 7 0 1 20 []; st 3 IPROTO_REPLACE 9 0 2 5 []].

(** Pages of 30 bytes with rows of 10 bytes. *)
Lemma run_written_is_read_witness :
  exists w, vy_run_writer_create 1 false [] = (0, w) /\
    wp (write_run (fun _ : unit => 7) (fun n => 2 * n) (fun _ _ _ => tt) (fun t => [fst t]) (fun _ => 10) 30 tt rows_to_write) (fun rc w => rc = 0 /\
      rw_min_key w = Some (1, 100) /\ rw_max_key w = Some (2, 5) /\ rw_min_lsn w = 7 /\ rw_max_lsn w = 9 /\
      exists sl, vy_slice_new (run_of_writer (fun t => [fst t]) w) None None = Some sl /\
        wp (stream_read sl) (fun l' _ => l' = map persist rows_to_write) (vy_slice_stream_open sl []) /\
        wp (run_nexts sl ITER_EQ (Some (2, 0)) 9 1) (fun hs _ => hs = [[persist (st 3 IPROTO_REPLACE 9 0 2 5 [])]]) (vy_run_iterator_open sl [])) w.
Proof.
  destruct (run_written_is_read (fun _ : unit => 7) (fun n => 2 * n) (fun _ _ _ => tt) 7 1 (fun t : Z * Z => [fst t]) (fun _ => 10) 30 tt false rows_to_write)
    as (w & E & H).
  - lia.
  - intros _. lia.
  - intros n Hn. lia.
  - intros t. reflexivity.
  - intros t t' Ht. unfold same_key in Ht. cbn in Ht. f_equal. lia.
  - discriminate.
  - repeat constructor; vm_compute; reflexivity.
  - vm_compute. reflexivity.
  - exists w. split; [exact E|]. eapply wp_mono; [exact H|]. intros rc w' (H1 & H2 & H3 & H4 & H5 & sl & H6 & H7 & H8).
    split; [exact H1|]. split; [exact H2|]. split; [exact H3|]. split; [exact H4|]. split; [exact H5|]. exists sl. split; [exact H6|]. split; [exact H7|].
    eapply wp_mono; [apply (H8 ITER_EQ (Some (2, 0)) 9 1%nat); discriminate|]. intros hs i ->. vm_compute. reflexivity.
Defined.
End CounterRuns.
