(* ===== verification/VyLookup.v ===== *)
(** * Looking up a key

    src/box/vy_point_lookup.c reads a key from the write set of the
    transaction, the cache, the memory levels and the runs of the range, until
    it has a statement that is not an UPSERT.  The fiber yields while it reads
    runs, and memory may have changed when it goes on: it then starts again, or
    reads the memory levels again.

    The outcomes of the next allocations and reads, and what the LSM tree is
    after the next yields, are part of the state. *)

From stdpp Require Import list.
From S2P Require Import Prelude VyStmt VyMem VyRunReader.

Open Scope Z_scope.

(** What a lookup sees of struct vy_lsm, with the slices of the range of the
    key. *)
Record lsm_view (T O : Type) := mk_lsm {
  ls_mem : vy_mem T O;
  ls_sealed : list (vy_mem T O);
  ls_mem_list_version : Z;
  ls_slices : list (vy_slice T O T);
}.
Arguments mk_lsm {T O}. Arguments ls_mem {T O}. Arguments ls_sealed {T O}. Arguments ls_mem_list_version {T O}. Arguments ls_slices {T O}.

(** [lk_future] has the LSM tree after the next yields, and whether the
    transaction has been aborted by then. *)
Record lookup (T O : Type) := mk_lookup {
  lk_lsm : lsm_view T O;
  lk_future : list (lsm_view T O * bool);
  lk_oom : list bool;
}.
Arguments mk_lookup {T O}. Arguments lk_lsm {T O}. Arguments lk_future {T O}. Arguments lk_oom {T O}.
#[export] Instance lookup_rebuild T O : Rebuild (lookup T O) := fun s => mk_lookup (lk_lsm s) (lk_future s) (lk_oom s).

Section Lookup.
Context {T O : Type} `{!Tuples T O}.
Abbreviation stmt := (vy_stmt T O).
Abbreviation history := (list stmt).
Abbreviation lprog := (prog (lookup T O)).

Context (key : T) (vlsn : Z).

Definition on_lk {A} (m : oprog A) : lprog A := fun s =>
  match m (lk_oom s) with
  | Done (a, oom) => Done (a, s <| lk_oom := oom |>)
  | Abort => Abort
  end.

(** The return code and the history. *)
Definition append (h : history) (e : stmt) : lprog (Z * history) :=
  oom ← on_lk fails;
  mret (if oom : bool then (-1, h) else (0, h ++ [e])).

(** [tx] is the transaction, if there is one, with what it has written to the
    key; [cached] is what the cache has for it. *)
Definition vy_point_lookup_scan_txw (tx : option (option stmt)) (h : history) : lprog (Z * history) :=
  match tx with
  | Some (Some txv) => append h txv
  | _ => mret (0, h)
  end.

Definition vy_point_lookup_scan_cache (cached : option stmt) (h : history) : lprog (Z * history) :=
  match cached with
  | Some e => if vlsn <? s_lsn e then mret (0, h) else append h e
  | None => mret (0, h)
  end.

Definition vy_point_lookup_scan_mem (m : vy_mem T O) (h : history) : lprog (Z * history) := fun s =>
  match vy_mem_iterator_next m ITER_EQ (Some key) vlsn (vy_mem_iterator_open (lk_oom s)) with
  | Done (rc, i) => Done ((rc, h ++ mi_history i), s <| lk_oom := mi_oom i |>)
  | Abort => Abort
  end.

(** The return code of the last memory that is read is lost. *)
Fixpoint scan_sealed (rc : Z) (sealed : list (vy_mem T O)) (h : history) : lprog (Z * history) :=
  match sealed with
  | [] => mret (0, h)
  | m :: sealed =>
      if negb (rc =? 0) || vy_history_is_terminal h then mret (rc, h)
      else
        '(rc, h) ← vy_point_lookup_scan_mem m h;
        scan_sealed rc sealed h
  end.
Definition vy_point_lookup_scan_mems (h : history) : lprog (Z * history) :=
  lsm ← gets lk_lsm;
  '(rc, h) ← vy_point_lookup_scan_mem (ls_mem lsm) h;
  scan_sealed rc (ls_sealed lsm) h.

Definition vy_point_lookup_scan_slice (sl : vy_slice T O T) (h : history) : lprog (Z * history) := fun s =>
  match vy_run_iterator_next sl ITER_EQ (Some key) vlsn (vy_run_iterator_open sl (lk_oom s)) with
  | Done (rc, i) => Done ((rc, h ++ ri_history i), s <| lk_oom := ri_oom i |>)
  | Abort => Abort
  end.

Fixpoint scan_slices (rc : Z) (slices : list (vy_slice T O T)) (h : history) : lprog (Z * history) :=
  match slices with
  | [] => mret (rc, h)
  | sl :: slices =>
      if (rc =? 0) && negb (vy_history_is_terminal h) then
        '(rc, h) ← vy_point_lookup_scan_slice sl h;
        scan_slices rc slices h
      else scan_slices rc slices h
  end.

(** Other fibers run while the slices, which are pinned, are read. *)
Definition yield : lprog bool := fun s =>
  match lk_future s with
  | [] => Done (false, s)
  | (lsm, aborted) :: future => Done (aborted, s <| lk_lsm := lsm |> <| lk_future := future |>)
  end.

(** The return code, the history and whether the transaction was aborted. *)
Definition vy_point_lookup_scan_slices (h : history) : lprog (Z * history * bool) :=
  slices ← gets (fun s => ls_slices (lk_lsm s));
  oom ← on_lk fails;
  if oom : bool then mret (-1, h, false)
  else
    '(rc, h) ← scan_slices 0 slices h;
    aborted ← yield;
    mret (rc, h, aborted).

(** From [restart] on: the return code, and the histories from memory and disk. *)
Fixpoint lookup_levels (fuel : nat) (tx : bool) : lprog (Z * history * history) :=
  match fuel with
  | 0%nat => abort
  | S fuel =>
      '(rc, mem_history) ← vy_point_lookup_scan_mems [];
      if negb (rc =? 0) || vy_history_is_terminal mem_history then mret (rc, mem_history, [])
      else
        before ← gets lk_lsm;
        '(rc, disk_history, aborted) ← vy_point_lookup_scan_slices [];
        if negb (rc =? 0) then mret (rc, mem_history, disk_history)
        else if tx && aborted then mret (-1, mem_history, disk_history)
        else
          after ← gets lk_lsm;
          if negb (ls_mem_list_version before =? ls_mem_list_version after) then lookup_levels fuel tx
          else if negb (mem_version (ls_mem before) =? mem_version (ls_mem after)) then
            '(rc, mem_history) ← vy_point_lookup_scan_mems [];
            if negb (rc =? 0) then mret (rc, mem_history, disk_history)
            else mret (0, mem_history, if vy_history_is_terminal mem_history then [] else disk_history)
          else mret (0, mem_history, disk_history)
  end.

(** What is left after [done]. *)
Definition lookup_done (rc : Z) (h mem_history disk_history : history) : lprog (Z * option stmt) :=
  if negb (rc =? 0) then mret (-1, None)
  else
    '(rc, _, ret) ← on_lk (vy_history_apply (h ++ mem_history ++ disk_history) false);
    mret (if negb (rc =? 0) then -1 else 0, ret).

Definition vy_point_lookup (fuel : nat) (tx : option (option stmt)) (cached : option stmt) : lprog (Z * option stmt) :=
  '(rc, h) ← vy_point_lookup_scan_txw tx [];
  if negb (rc =? 0) || vy_history_is_terminal h then lookup_done rc h [] []
  else
    '(rc, h) ← vy_point_lookup_scan_cache cached h;
    if negb (rc =? 0) || vy_history_is_terminal h then lookup_done rc h [] []
    else
      '(rc, mem_history, disk_history) ← lookup_levels fuel (match tx with Some _ => true | None => false end);
      lookup_done rc h mem_history disk_history.

Definition vy_point_lookup_mem (cached : option stmt) : lprog (Z * option stmt) :=
  '(rc, h) ← vy_point_lookup_scan_cache cached [];
  '(rc, h) ← (if negb (rc =? 0) || vy_history_is_terminal h then mret (rc, h)
              else vy_point_lookup_scan_mems h);
  if negb (rc =? 0) then mret (rc, None)
  else if vy_history_is_terminal h then
    '(rc, _, ret) ← on_lk (vy_history_apply h true);
    mret (rc, ret)
  else mret (0, None).
End Lookup.
