(* ===== verification/VyLookupTheorems.v ===== *)
(** * Theorems on lookups *)

From stdpp Require Import list sorting.
From S2P Require Import Prelude VyStmt VyVisible VyViews VyOutput VyCompaction VyTheorems VyMem VyMemSafety VyMemTheorems.
From S2P Require Import VyRunReader VyPages VyRunScan VyRunSeek VyRunTheorems VyLookup.

Open Scope Z_scope.

Section Lookups.
Context {T O : Type} `{!Tuples T O, !TuplesLaws T O}.
Abbreviation stmt := (vy_stmt T O).
Abbreviation level := (list stmt).
Abbreviation state := (VyLookup.lookup T O).
Implicit Types (x : stmt) (l h : level) (ls : list level) (s : state).

(** The statements of one key in a slice. *)
Lemma slice_rows_sorted (sl : vy_slice T O T) : tree_sorted (rows (sl_run sl)) -> tree_sorted (slice_rows sl).
Proof.
  unfold slice_rows, tree_sorted. generalize (rows (sl_run sl)) as l. intros l Hs. induction Hs as [|x l Hs IH Hf]; [constructor|].
  rewrite filter_cons. destruct (decide _); [|done]. constructor; [done|]. apply Forall_forall. intros y Hy. apply list_elem_of_filter in Hy as [_ Hy].
  rewrite Forall_forall in Hf. by apply Hf.
Qed.
Lemma to_scan_key (sl : vy_slice T O T) k : tree_sorted (rows (sl_run sl)) ->
  to_scan sl ITER_EQ (Some k) (groups (rows (sl_run sl))) = match of_key k (slice_rows sl) with [] => [] | g => [g] end.
Proof.
  intros Hs. rewrite <- groups_of_key by (by apply slice_rows_sorted). rewrite slice_groups, list_filter_filter by done. unfold to_scan. cbn.
  apply list_filter_iff. intros [|x g]; cbn; [tauto|]. unfold wanted. by rewrite andb_true_iff.
Qed.

Context (key : T) (vlsn : Z) (Hvlsn : vlsn <> INT64_MAX - 1).

(** ** Histories of several levels *)

Abbreviation found l := (history_of vlsn (of_key key l)).

(** The statements that are found, level by level. *)
Fixpoint collect ls : list stmt :=
  match ls with
  | [] => []
  | l :: ls => if vy_history_is_terminal (found l) then found l else found l ++ collect ls
  end.

Lemma is_terminal_app h h' : vy_history_is_terminal (h ++ h') = match h' with [] => vy_history_is_terminal h | _ => vy_history_is_terminal h' end.
Proof. unfold vy_history_is_terminal. destruct h' as [|x h' _] using rev_ind; [by rewrite app_nil_r|]. rewrite app_assoc, !last_snoc. by destruct h'. Qed.
Lemma collect_app ls ls' : collect (ls ++ ls') = if vy_history_is_terminal (collect ls) then collect ls else collect ls ++ collect ls'.
Proof.
  induction ls as [|l ls IH]; [done|]. cbn [app collect]. destruct (vy_history_is_terminal (found l)) eqn:E; [by rewrite E|].
  rewrite IH, is_terminal_app. destruct (collect ls) as [|x c]; [rewrite E; by rewrite app_nil_r|].
  destruct (vy_history_is_terminal (x :: c)); [done|]. by rewrite app_assoc.
Qed.

(** All but the last statement are UPSERTs. *)
Lemma upto_terminal_idem del h : upto_terminal del (upto_terminal del h) = upto_terminal del h.
Proof.
  induction h as [|x h IH]; [done|]. cbn. destruct (has_type IPROTO_UPSERT x) eqn:E; cbn; [rewrite E; by rewrite IH|].
  destruct (del && has_type IPROTO_DELETE x) eqn:E2; [done|]. cbn. by rewrite E, E2.
Qed.
Lemma upto_terminal_after h h' : vy_history_is_terminal h = false -> upto_terminal false h = h -> upto_terminal false (h ++ h') = h ++ upto_terminal false h'.
Proof.
  induction h as [|x h IH]; [done|]. cbn [app upto_terminal]. destruct (has_type IPROTO_UPSERT x) eqn:E; intros Ht Hu.
  - injection Hu as Hu. cbn [app]. f_equal. apply IH; [|done]. unfold vy_history_is_terminal in *. destruct h as [|y h]; [done|]. done.
  - cbn in Hu. injection Hu as Hu. subst h. unfold vy_history_is_terminal in Ht. cbn in Ht. by rewrite E in Ht.
Qed.
Lemma collect_upto ls : upto_terminal false (collect ls) = collect ls.
Proof.
  induction ls as [|l ls IH]; [done|]. cbn [collect]. destruct (vy_history_is_terminal (found l)) eqn:E; [apply upto_terminal_idem|].
  rewrite upto_terminal_after; [by rewrite IH|done|apply upto_terminal_idem].
Qed.

Lemma terminal_state b b' h : vy_history_is_terminal h = true -> state_of b h = state_of b' h.
Proof.
  unfold vy_history_is_terminal. destruct h as [|x h _] using rev_ind; [done|]. rewrite last_snoc. intros Ht. rewrite !state_of_app, !state_of_cons.
  f_equal. apply apply_terminal. apply negb_true_iff, has_type_falseP in Ht. done.
Qed.

(** A reader that skips nothing sees what there is. *)
Definition readable l : Prop := Forall (fun x => has_flag VY_STMT_SKIP_READ x = false /\ upsert_ok x) l.
Lemma seen_readable l : readable l -> seen vlsn l = filter (fun x => s_lsn x <= vlsn) l.
Proof.
  intros Hr. unfold seen. induction Hr as [|x l [Hx _] Hr IH]; [done|]. rewrite !filter_cons, IH. unfold hidden. rewrite Hx, orb_false_r.
  destruct (Z.ltb_spec vlsn (s_lsn x)); [rewrite decide_False by done; rewrite decide_False by lia; done|].
  rewrite decide_True by done. rewrite decide_True by lia. done.
Qed.
Lemma readable_key l : readable l -> readable (of_key key l).
Proof. intros Hr. apply Forall_forall. intros x Hx. apply list_elem_of_filter in Hx as [_ Hx]. unfold readable in Hr. rewrite Forall_forall in Hr. by apply Hr. Qed.
Lemma found_state b l : readable l -> state_of b (found l) = visible b vlsn (of_key key l).
Proof. intros Hr. unfold history_of. rewrite upto_terminal_state by done. rewrite seen_readable by (by apply readable_key). done. Qed.
Lemma collect_state b ls : Forall readable ls -> state_of b (collect ls) = visible b vlsn (of_key key (concat ls)).
Proof.
  induction ls as [|l ls IH]; intros Hr; [done|]. apply Forall_cons in Hr as [Hl Hr]. cbn [collect concat]. unfold of_key, visible. rewrite !filter_app, state_of_app.
  fold (of_key key l) (of_key key (concat ls)). fold (visible b vlsn (of_key key (concat ls))).
  set (below := visible b vlsn (of_key key (concat ls))). fold (visible below vlsn (of_key key l)). rewrite <- (found_state below) by done.
  destruct (vy_history_is_terminal (found l)) eqn:E; [by apply terminal_state|]. rewrite state_of_app, IH by done. done.
Qed.
Lemma collect_ok ls : Forall readable ls -> Forall upsert_ok (collect ls).
Proof.
  intros Hr. assert (forall l, readable l -> Forall upsert_ok (found l)) as Hf.
  { intros l Hl. destruct (upto_terminal_prefix false (seen vlsn (of_key key l))) as [rest E]. apply Forall_forall. intros x Hx.
    assert (x ∈ seen vlsn (of_key key l)) as Hin by (rewrite E; apply elem_of_app; by left). apply list_elem_of_filter in Hin as [_ Hin].
    apply list_elem_of_filter in Hin as [_ Hin]. unfold readable in Hl. rewrite Forall_forall in Hl. by apply Hl. }
  induction Hr as [|l ls Hl Hr IH]; [constructor|]. cbn [collect]. destruct (vy_history_is_terminal (found l)); [by apply Hf|].
  apply Forall_app_2; [by apply Hf|done].
Qed.

(** ** Scanning the levels *)

Definition mem_fine (m : vy_mem T O) : Prop := tree_sorted (mem_tree m) /\ Forall (fun e => s_addr e <> None) (mem_tree m).
Definition only_oom s oom : state := s <| lk_oom := oom |>.

Lemma wp_on_lk {A} (m : oprog A) Q s : wp m (fun a oom => Q a (only_oom s oom)) (lk_oom s) -> wp (on_lk m) Q s.
Proof. unfold wp, on_lk. by destruct (m (lk_oom s)) as [[a oom]|]. Qed.

Lemma lookup_append_spec h x s : true ∉ lk_oom s -> wp (append h x) (fun '(rc, h') s' => rc = 0 /\ h' = h ++ [x] /\ exists oom, true ∉ oom /\ s' = only_oom s oom) s.
Proof. intros Ho. unfold append. apply wp_bind, wp_on_lk, wp_fails; [done|]. intros oom Ho'. apply wp_ret. by eauto. Qed.

Lemma scan_mem_spec m h s : mem_fine m -> true ∉ lk_oom s ->
  wp (vy_point_lookup_scan_mem key vlsn m h) (fun '(rc, h') s' => rc = 0 /\ h' = h ++ found (mem_tree m) /\ exists oom, true ∉ oom /\ s' = only_oom s oom) s.
Proof.
  intros [Hs Ha] Ho. pose proof (mem_lookup_spec False m key vlsn (lk_oom s) Hs Ha Hvlsn Ho) as H. unfold wp, vy_point_lookup_scan_mem.
  unfold wpx in H. destruct (vy_mem_iterator_next _ _ _ _ _) as [[rc i]|]; [|done]. destruct H as [[_ []]|(-> & -> & Hq)].
  split; [done|]. split; [done|]. by exists (mi_oom i).
Qed.

Lemma scan_slice_spec sl h s : run_ok (sl_run sl) -> true ∉ lk_oom s ->
  wp (vy_point_lookup_scan_slice key vlsn sl h) (fun '(rc, h') s' => rc = 0 /\ h' = h ++ found (slice_rows sl) /\ exists oom, true ∉ oom /\ s' = only_oom s oom) s.
Proof.
  intros Hok Ho. pose proof (rk_sorted _ Hok) as Hs.
  assert (sane sl (vy_run_iterator_open sl (lk_oom s))) as Hsane by (by split).
  pose proof (run_next_spec sl ITER_EQ (Some key) vlsn Hok _ (groups_grouped _ Hs) (eq_sym (groups_concat _)) ltac:(done) ltac:(done) _ _
    (it_new sl ITER_EQ (Some key) _ _ Hsane eq_refl eq_refl)) as H. unfold wp in H. unfold wp, vy_point_lookup_scan_slice.
  destruct (vy_run_iterator_next _ _ _ _ _) as [[rc i]|]; [|done]. destruct H as [-> H]. split; [done|].
  assert (forall i todo, iterating sl ITER_EQ (Some key) (groups (rows (sl_run sl))) i todo -> true ∉ ri_oom i) as Hq by (intros ?? [H1|????? H1|H1]; apply H1).
  rewrite to_scan_key in H by done. destruct (of_key key (slice_rows sl)) as [|x g] eqn:Ek.
  - destruct H as [-> Hi]. split; [done|]. exists (ri_oom i). split; [by eapply Hq|done].
  - cbn [next_seen] in H. revert H. unfold history_of. destruct (seen vlsn (x :: g)) eqn:Es; intros [-> Hi]; rewrite ?Es; (split; [done|]); exists (ri_oom i); (split; [by eapply Hq|done]).
Qed.

Lemma scan_sealed_spec sealed : forall h s, Forall mem_fine sealed -> true ∉ lk_oom s ->
  wp (scan_sealed key vlsn 0 sealed h) (fun '(rc, h') s' => rc = 0 /\
    h' = (if vy_history_is_terminal h then h else h ++ collect (map mem_tree sealed)) /\ exists oom, true ∉ oom /\ s' = only_oom s oom) s.
Proof.
  induction sealed as [|m sealed IH]; intros h s Hm Ho; cbn [scan_sealed map collect].
  { apply wp_ret. split; [done|]. split; [by destruct (vy_history_is_terminal h); rewrite ?app_nil_r|]. exists (lk_oom s). split; [done|by destruct s]. }
  apply Forall_cons in Hm as [Hm Hms]. cbn [Z.eqb negb orb]. destruct (vy_history_is_terminal h) eqn:Et.
  { apply wp_ret. split; [done|]. split; [done|]. exists (lk_oom s). split; [done|by destruct s]. }
  apply wp_bind. eapply wp_mono; [by apply scan_mem_spec|]. intros [rc h'] s' (-> & -> & oom & Ho' & ->).
  eapply wp_mono; [by apply IH|]. intros [rc h'] s' (-> & -> & oom2 & Ho2 & ->). split; [done|]. split; [|by exists oom2].
  rewrite is_terminal_app. destruct (found (mem_tree m)) as [|x f]; [cbn; by rewrite Et, app_nil_r|].
  destruct (vy_history_is_terminal (x :: f)); [done|]. by rewrite app_assoc.
Qed.

Lemma scan_slices_spec slices : forall h s, Forall (fun sl => run_ok (sl_run sl)) slices -> true ∉ lk_oom s ->
  wp (scan_slices key vlsn 0 slices h) (fun '(rc, h') s' => rc = 0 /\
    h' = (if vy_history_is_terminal h then h else h ++ collect (map slice_rows slices)) /\ exists oom, true ∉ oom /\ s' = only_oom s oom) s.
Proof.
  induction slices as [|m slices IH]; intros h s Hm Ho; cbn [scan_slices map collect].
  { apply wp_ret. split; [done|]. split; [by destruct (vy_history_is_terminal h); rewrite ?app_nil_r|]. exists (lk_oom s). split; [done|by destruct s]. }
  apply Forall_cons in Hm as [Hm Hms]. cbn [Z.eqb andb]. destruct (vy_history_is_terminal h) eqn:Et; cbn [negb].
  { eapply wp_mono; [by apply IH|]. intros [rc h'] s' (-> & -> & H). by rewrite Et. }
  apply wp_bind. eapply wp_mono; [by apply scan_slice_spec|]. intros [rc h'] s' (-> & -> & oom & Ho' & ->).
  eapply wp_mono; [by apply IH|]. intros [rc h'] s' (-> & -> & oom2 & Ho2 & ->). split; [done|]. split; [|by exists oom2].
  rewrite is_terminal_app. destruct (found (slice_rows m)) as [|x f]; [cbn; by rewrite Et, app_nil_r|].
  destruct (vy_history_is_terminal (x :: f)); [done|]. by rewrite app_assoc.
Qed.

(** ** The LSM tree before and after a yield *)

Abbreviation view := (lsm_view T O).
Implicit Types (v w : view).

Definition ls_mems v : list level := map mem_tree (ls_mem v :: ls_sealed v).
Definition ls_disk v : list level := map slice_rows (ls_slices v).
Definition ls_levels v : list level := ls_mems v ++ ls_disk v.

Record view_ok v : Prop := {
  vo_mem : Forall mem_fine (ls_mem v :: ls_sealed v);
  vo_disk : Forall (fun sl => run_ok (sl_run sl)) (ls_slices v);
  vo_read : Forall readable (ls_levels v);
}.

(** What the versions tell of the changes that were made meanwhile. *)
Record retains v w : Prop := {
  re_sealed : ls_mem_list_version v = ls_mem_list_version w -> ls_sealed v = ls_sealed w;
  re_mem : ls_mem_list_version v = ls_mem_list_version w -> mem_version (ls_mem v) = mem_version (ls_mem w) -> mem_tree (ls_mem v) = mem_tree (ls_mem w);
  re_disk : ls_mem_list_version v = ls_mem_list_version w ->
    visible None vlsn (of_key key (concat (ls_disk v))) = visible None vlsn (of_key key (concat (ls_disk w)));
}.
Fixpoint follows v (future : list (view * bool)) : Prop :=
  match future with
  | [] => True
  | (w, _) :: future => view_ok w /\ retains v w /\ follows w future
  end.
Lemma retains_refl v : retains v v.
Proof. done. Qed.

Definition latest v : option T := visible None vlsn (of_key key (concat (ls_levels v))).

Lemma mems_disk_state v d : view_ok v -> state_of None d = visible None vlsn (of_key key (concat (ls_disk v))) ->
  state_of None (collect (ls_mems v) ++ d) = latest v.
Proof.
  intros Hv Hd. pose proof (vo_read v Hv) as Hr. unfold ls_levels in Hr. apply Forall_app in Hr as [Hm _].
  rewrite state_of_app, Hd, collect_state by done. unfold latest, ls_levels, visible, of_key. by rewrite concat_app, !filter_app, state_of_app.
Qed.
Lemma mems_state v : view_ok v -> vy_history_is_terminal (collect (ls_mems v)) = true -> state_of None (collect (ls_mems v)) = latest v.
Proof.
  intros Hv Ht. pose proof (collect_state None (ls_levels v) (vo_read v Hv)) as H. unfold ls_levels in H. rewrite collect_app, Ht in H. exact H.
Qed.

Lemma scan_mems_spec h s : view_ok (lk_lsm s) -> vy_history_is_terminal h = false -> true ∉ lk_oom s ->
  wp (vy_point_lookup_scan_mems key vlsn h) (fun '(rc, h') s' => rc = 0 /\
    h' = h ++ collect (ls_mems (lk_lsm s)) /\ exists oom, true ∉ oom /\ s' = only_oom s oom) s.
Proof.
  intros Hv Ht Ho. pose proof (vo_mem _ Hv) as Hm. apply Forall_cons in Hm as [Hm Hms]. unfold vy_point_lookup_scan_mems. apply wp_bind, wp_gets, wp_bind.
  eapply wp_mono; [by apply scan_mem_spec|]. intros [rc h'] s' (-> & -> & oom & Ho' & ->).
  eapply wp_mono; [by apply scan_sealed_spec|]. intros [rc h'] s' (-> & -> & oom2 & Ho2 & ->). split; [done|]. split; [|by exists oom2].
  unfold ls_mems. cbn [map collect]. rewrite is_terminal_app. destruct (found (mem_tree (ls_mem (lk_lsm s)))) as [|x f].
  - cbn. by rewrite Ht, app_nil_r.
  - destruct (vy_history_is_terminal (x :: f)); [done|]. by rewrite app_assoc.
Qed.

(** ** The lookup *)

(** What a lookup has found: a history with the latest value, or the
    transaction has been aborted meanwhile. *)
Definition has_latest v h : Prop := upto_terminal false h = h /\ Forall upsert_ok h /\ state_of None h = latest v.
Definition looked_up (tx : bool) s (rc : Z) h s' : Prop :=
  true ∉ lk_oom s' /\ (rc = 0 /\ has_latest (lk_lsm s') h \/ rc = -1 /\ tx = true /\ exists v, (v, true) ∈ lk_future s).

Lemma has_latest_mems v : view_ok v -> vy_history_is_terminal (collect (ls_mems v)) = true -> has_latest v (collect (ls_mems v)).
Proof.
  intros Hv Ht. pose proof (vo_read v Hv) as Hr. unfold ls_levels in Hr. apply Forall_app in Hr as [Hm _].
  split_and!; [apply collect_upto|by apply collect_ok|by apply mems_state].
Qed.
Lemma has_latest_disk v w : view_ok v -> view_ok w -> retains v w -> ls_mem_list_version v = ls_mem_list_version w ->
  vy_history_is_terminal (collect (ls_mems w)) = false -> has_latest w (collect (ls_mems w) ++ collect (ls_disk v)).
Proof.
  intros Hv Hw Hk El Ht. pose proof (vo_read v Hv) as Hr. pose proof (vo_read w Hw) as Hr'. unfold ls_levels in Hr, Hr'.
  apply Forall_app in Hr as [_ Hd], Hr' as [Hm _]. split_and!.
  - rewrite upto_terminal_after; [by rewrite collect_upto|done|apply collect_upto].
  - apply Forall_app_2; by apply collect_ok.
  - apply mems_disk_state; [done|]. rewrite collect_state by done. by apply re_disk.
Qed.

Lemma yield_spec s : wp yield (fun aborted s' => lk_oom s' = lk_oom s /\ exists gone, gone ++ lk_future s' = lk_future s /\
  (gone = [] /\ aborted = false /\ lk_lsm s' = lk_lsm s \/ gone = [(lk_lsm s', aborted)])) s.
Proof. unfold wp, yield. destruct (lk_future s) as [|[v a] f] eqn:E; (split; [done|]); [exists []|exists [(v, a)]]; (split; [done|]); [by left|by right]. Qed.

Lemma lookup_levels_spec fuel tx : forall s, (length (lk_future s) < fuel)%nat -> view_ok (lk_lsm s) -> follows (lk_lsm s) (lk_future s) -> true ∉ lk_oom s ->
  wp (lookup_levels key vlsn fuel tx) (fun '(rc, mh, dh) s' => looked_up tx s rc (mh ++ dh) s') s.
Proof.
  induction fuel as [|fuel IH]; intros s Hf Hv Hfo Ho; [lia|]. cbn [lookup_levels].
  apply wp_bind. eapply wp_mono; [by apply scan_mems_spec|]. intros [rc mh] s1 (-> & -> & o1 & Ho1 & ->). cbn [app Z.eqb negb orb].
  destruct (vy_history_is_terminal (collect (ls_mems (lk_lsm s)))) eqn:Et.
  { apply wp_ret. rewrite app_nil_r. split; [done|]. left. split; [done|]. by apply has_latest_mems. }
  apply wp_bind, wp_gets, wp_bind. unfold vy_point_lookup_scan_slices. apply wp_bind, wp_gets, wp_bind, wp_on_lk, wp_fails; [done|]. intros o2 Ho2. cbn iota.
  apply wp_bind. eapply wp_mono; [apply scan_slices_spec; [apply Hv|done]|]. intros [rc dh] s2 (-> & -> & o3 & Ho3 & ->). cbn [vy_history_is_terminal list.last app].
  apply wp_bind. eapply wp_mono; [apply yield_spec|]. intros aborted s3 (Eo & gone & Eg & Hg). apply wp_ret. cbn [Z.eqb negb].
  cbn in Eo, Eg. assert (true ∉ lk_oom s3) as Ho4 by (by rewrite Eo).
  assert (view_ok (lk_lsm s3) /\ retains (lk_lsm s) (lk_lsm s3) /\ follows (lk_lsm s3) (lk_future s3)) as (Hw & Hk & Hfo3).
  { destruct Hg as [(-> & _ & E)|Hg]; [rewrite E; cbn in Eg |- *; rewrite Eg; done|]. rewrite <- Eg, Hg in Hfo. by destruct Hfo as (? & ? & ?). }
  destruct (tx && aborted) eqn:Ea.
  { apply wp_ret. split; [done|]. right. split; [done|]. boolp. subst. split; [done|]. destruct Hg as [(_ & ? & _)|Hg]; [done|].
    exists (lk_lsm s3). rewrite <- Eg, Hg. by left. }
  apply wp_bind, wp_gets. set (before := lk_lsm (only_oom s o1)). change before with (lk_lsm s). clear before.
  destruct (Z.eqb_spec (ls_mem_list_version (lk_lsm s)) (ls_mem_list_version (lk_lsm s3))) as [El|El]; cbn [negb].
  - destruct (Z.eqb_spec (mem_version (ls_mem (lk_lsm s))) (mem_version (ls_mem (lk_lsm s3)))) as [Em|Em]; cbn [negb].
    + apply wp_ret. split; [done|]. left. split; [done|].
      assert (ls_mems (lk_lsm s) = ls_mems (lk_lsm s3)) as E.
      { unfold ls_mems. cbn [map]. by rewrite (re_sealed _ _ Hk El), (re_mem _ _ Hk El Em). }
      rewrite E in Et |- *. by apply has_latest_disk.
    + apply wp_bind. eapply wp_mono; [by apply scan_mems_spec|]. intros [rc mh] s4 (-> & -> & o4 & Ho5 & ->). cbn [app Z.eqb negb]. apply wp_ret.
      split; [done|]. left. split; [done|]. change (lk_lsm (only_oom s3 o4)) with (lk_lsm s3).
      destruct (vy_history_is_terminal (collect (ls_mems (lk_lsm s3)))) eqn:Et3; [rewrite app_nil_r; by apply has_latest_mems|by apply has_latest_disk].
  - destruct Hg as [(-> & _ & E)|Hg]; [by rewrite E in El|]. rewrite Hg in Eg.
    eapply wp_mono; [apply IH; [rewrite <- Eg in Hf; cbn in Hf; lia|done|done|done]|].
    intros [[rc mh] dh] s4 [? [H|(-> & -> & v & Hin)]]; (split; [done|]); [by left|]. right. split_and!; [done|done|]. exists v. rewrite <- Eg. by right.
Qed.

(** The value of the key for a transaction that has written [tx] to it. *)
Definition own_write (tx : option (option stmt)) (base : option T) : option T :=
  match tx with Some (Some x) => apply_stmt base x | _ => base end.
Definition cached_value (cached : option stmt) (base : option T) : option T :=
  match cached with Some e => if vlsn <? s_lsn e then base else apply_stmt None e | None => base end.

Lemma lookup_done_spec h mh dh s : upto_terminal false (h ++ mh ++ dh) = h ++ mh ++ dh -> Forall upsert_ok (h ++ mh ++ dh) -> true ∉ lk_oom s ->
  wp (lookup_done 0 h mh dh) (fun '(rc, ret) s' => rc = 0 /\ value ret = state_of None (h ++ mh ++ dh) /\
    (forall x, ret = Some x -> s_type x <> IPROTO_DELETE) /\ lk_lsm s' = lk_lsm s) s.
Proof.
  intros Hu Hok Ho. unfold lookup_done. cbn [Z.eqb negb]. apply wp_bind, wp_on_lk. eapply wp_mono; [by apply history_apply_spec|].
  intros [[rc n] r] oom (Ho' & -> & Hv & _ & Hd). apply wp_ret. split_and!; [done|done| |done]. intros x -> Ex. by specialize (Hd x eq_refl Ex).
Qed.

(** The histories before the levels are read. *)
Definition own_stmts tx : list stmt := match tx with Some (Some x) => [x] | _ => [] end.
Lemma terminal_one x : vy_history_is_terminal [x] = true <-> terminal x.
Proof. unfold vy_history_is_terminal. cbn. by rewrite negb_true_iff, has_type_falseP. Qed.
Lemma own_stmts_state tx h : state_of None (own_stmts tx ++ h) = own_write tx (state_of None h).
Proof. by destruct tx as [[x|]|]. Qed.
Lemma own_stmts_upto tx h : vy_history_is_terminal (own_stmts tx) = false -> upto_terminal false h = h -> upto_terminal false (own_stmts tx ++ h) = own_stmts tx ++ h.
Proof. intros Ht Hh. rewrite upto_terminal_after; [by rewrite Hh|done|]. destruct tx as [[x|]|]; [|done|done]. cbn. by destruct (has_type _ _). Qed.

Lemma scan_txw_spec tx s : true ∉ lk_oom s ->
  wp (vy_point_lookup_scan_txw tx []) (fun '(rc, h) s' => rc = 0 /\ h = own_stmts tx /\ exists oom, true ∉ oom /\ s' = only_oom s oom) s.
Proof.
  intros Ho. destruct tx as [[x|]|]; cbn [vy_point_lookup_scan_txw]; [by apply lookup_append_spec| |]; apply wp_ret; (split; [done|]; split; [done|]; exists (lk_oom s); by destruct s).
Qed.
Definition in_cache (cached : option stmt) : list stmt := match cached with Some e => if vlsn <? s_lsn e then [] else [e] | None => [] end.
Lemma in_cache_open cached : Forall terminal (in_cache cached) -> vy_history_is_terminal (in_cache cached) = false -> in_cache cached = [].
Proof.
  unfold in_cache. destruct cached as [e|]; [|done]. destruct (vlsn <? s_lsn e); [done|]. intros Hc Ht. apply Forall_inv, terminal_one in Hc. congruence.
Qed.
Lemma scan_cache_spec cached h s : true ∉ lk_oom s ->
  wp (vy_point_lookup_scan_cache vlsn cached h) (fun '(rc, h') s' => rc = 0 /\ h' = h ++ in_cache cached /\ exists oom, true ∉ oom /\ s' = only_oom s oom) s.
Proof.
  intros Ho. assert (exists oom, true ∉ oom /\ s = only_oom s oom) as Hs by (exists (lk_oom s); by destruct s).
  destruct cached as [e|]; cbn [vy_point_lookup_scan_cache in_cache]; [destruct (vlsn <? s_lsn e)|]; rewrite ?app_nil_r; [by apply wp_ret|by apply lookup_append_spec|by apply wp_ret].
Qed.

(** The lookup ends with the LSM tree of one of its yields. *)
Definition goes_on s s' : Prop := exists gone, lk_future s = gone ++ lk_future s' /\ (gone = [] /\ lk_lsm s' = lk_lsm s \/ lk_lsm s' ∈ map fst gone).
#[local] Instance goes_on_preorder : PreOrder goes_on.
Proof.
  split.
  - intros s. exists []. split; [done|by left].
  - intros s1 s2 s3 (g & E & H) (g' & E' & H'). exists (g ++ g'). rewrite E, E', app_assoc. split; [done|]. rewrite map_app.
    destruct H' as [[-> ->]|H']; [destruct H as [[-> ->]|H]; [by left|right; apply elem_of_app; by left]|right; apply elem_of_app; by right].
Qed.

Lemma goes_on_same s s' : lk_lsm s' = lk_lsm s -> lk_future s' = lk_future s -> goes_on s s'.
Proof. intros E E'. exists []. split; [by rewrite E'|by left]. Qed.
Lemma on_lk_goes_on {A} (m : oprog A) : keeps goes_on (on_lk m).
Proof. intros s a s'. unfold on_lk. destruct (m (lk_oom s)) as [[b oom]|]; [|done]. intros [= _ <-]. by apply goes_on_same. Qed.
Lemma append_goes_on h x : keeps goes_on (append h x).
Proof. unfold append. eauto using on_lk_goes_on with keeps typeclass_instances. Qed.
Lemma scan_mem_goes_on m h : keeps goes_on (vy_point_lookup_scan_mem key vlsn m h).
Proof. intros s a s'. unfold vy_point_lookup_scan_mem. destruct (vy_mem_iterator_next _ _ _ _ _) as [[b i]|]; [|done]. intros [= _ <-]. by apply goes_on_same. Qed.
Lemma scan_slice_goes_on sl h : keeps goes_on (vy_point_lookup_scan_slice key vlsn sl h).
Proof. intros s a s'. unfold vy_point_lookup_scan_slice. destruct (vy_run_iterator_next _ _ _ _ _) as [[b i]|]; [|done]. intros [= _ <-]. by apply goes_on_same. Qed.
Lemma yield_goes_on : keeps goes_on yield.
Proof.
  intros s a s'. unfold yield. destruct (lk_future s) as [|[v b] f] eqn:E; intros [= <- <-]; [reflexivity|]. exists [(v, b)]. rewrite E. split; [done|right]. cbn. by left.
Qed.
Lemma scan_sealed_goes_on sealed : forall rc h, keeps goes_on (scan_sealed key vlsn rc sealed h).
Proof.
  induction sealed as [|m sealed IH]; intros rc h; cbn [scan_sealed]; [apply keeps_ret; apply _|]. apply keeps_if; [apply keeps_ret; apply _|].
  apply keeps_bind; [apply _|apply scan_mem_goes_on|]. intros [rc' h']. apply IH.
Qed.
Lemma scan_slices_goes_on slices : forall rc h, keeps goes_on (scan_slices key vlsn rc slices h).
Proof.
  induction slices as [|m slices IH]; intros rc h; cbn [scan_slices]; [apply keeps_ret; apply _|]. apply keeps_if; [|apply IH].
  apply keeps_bind; [apply _|apply scan_slice_goes_on|]. intros [rc' h']. apply IH.
Qed.

Ltac walk := repeat match goal with
  | |- keeps _ (mbind _ _) => apply keeps_bind; [apply _|..]
  | |- keeps _ (mret _) => apply keeps_ret, _
  | |- keeps _ (gets _) => apply keeps_gets, _
  | |- keeps _ abort => apply keeps_abort
  | |- keeps _ yield => apply yield_goes_on
  | |- keeps _ (on_lk _) => apply on_lk_goes_on
  | |- keeps _ (append _ _) => apply append_goes_on
  | |- keeps _ (scan_sealed _ _ _ _ _) => apply scan_sealed_goes_on
  | |- keeps _ (scan_slices _ _ _ _ _) => apply scan_slices_goes_on
  | |- keeps _ (vy_point_lookup_scan_mem _ _ _ _) => apply scan_mem_goes_on
  | |- keeps _ (match ?x with _ => _ end) => destruct x
  | |- keeps _ (let _ := _ in _) => cbv zeta
  | |- forall _, _ => intros ?
  end.
Lemma levels_goes_on fuel tx : keeps goes_on (lookup_levels key vlsn fuel tx).
Proof.
  induction fuel as [|fuel IH]; cbn [lookup_levels]; [apply keeps_abort|]. unfold vy_point_lookup_scan_mems, vy_point_lookup_scan_slices.
  walk; apply IH.
Qed.
Lemma lookup_goes_on fuel tx cached : keeps goes_on (vy_point_lookup key vlsn fuel tx cached).
Proof.
  unfold vy_point_lookup, vy_point_lookup_scan_txw, vy_point_lookup_scan_cache, lookup_done. walk; apply levels_goes_on.
Qed.
Lemma goes_on_elem s s' : goes_on s s' -> lk_lsm s' ∈ lk_lsm s :: map fst (lk_future s).
Proof.
  intros (gone & E & [[-> ->]|H]); [by left|right]. rewrite E, map_app. apply elem_of_app. by left.
Qed.

Lemma lookup_spec fuel tx cached s :
  view_ok (lk_lsm s) -> follows (lk_lsm s) (lk_future s) -> (length (lk_future s) < fuel)%nat -> true ∉ lk_oom s ->
  Forall upsert_ok (own_stmts tx) -> Forall terminal (in_cache cached) ->
  wp (vy_point_lookup key vlsn fuel tx cached) (fun '(rc, ret) s' =>
    rc = 0 /\ value ret = own_write tx (cached_value cached (latest (lk_lsm s'))) /\ (forall x, ret = Some x -> s_type x <> IPROTO_DELETE) \/
    rc = -1 /\ ret = None /\ tx <> None /\ exists v, (v, true) ∈ lk_future s) s.
Proof.
  intros Hv Hfo Hf Ho Hw Hc. unfold vy_point_lookup. apply wp_bind. eapply wp_mono; [by apply scan_txw_spec|].
  intros [rc h] s1 (-> & -> & o1 & Ho1 & ->). cbn [Z.eqb negb orb]. destruct (vy_history_is_terminal (own_stmts tx)) eqn:Et.
  { destruct tx as [[x|]|]; [|done|done]. cbn [own_stmts] in *. apply terminal_one in Et. eapply wp_mono; [apply lookup_done_spec; cbn; rewrite ?has_type_ne by done; done|].
    intros [rc ret] s2 (-> & -> & Hd & E). left. split_and!; [done| |done]. cbn. unfold state_of. cbn. by apply apply_terminal. }
  apply wp_bind. eapply wp_mono; [by apply scan_cache_spec|]. intros [rc h] s2 (-> & -> & o2 & Ho2 & ->). cbn [Z.eqb negb orb].
  destruct (vy_history_is_terminal (own_stmts tx ++ in_cache cached)) eqn:Et2.
  - rewrite is_terminal_app in Et2. unfold cached_value. unfold in_cache in *. destruct cached as [e|]; [|by rewrite Et in Et2]. destruct (vlsn <? s_lsn e) eqn:El; [by rewrite Et in Et2|].
    apply terminal_one in Et2. eapply wp_mono; [apply lookup_done_spec; rewrite ?app_nil_r; [|apply Forall_app_2; [done|]|done]|].
    + apply own_stmts_upto; [done|]. cbn. by rewrite has_type_ne.
    + constructor; [|done]. intros He. by destruct Et2.
    + intros [rc ret] s3 (-> & -> & Hd & E). left. split_and!; [done| |done]. rewrite !app_nil_r. by rewrite own_stmts_state.
  - assert (in_cache cached = []) as Ec by (apply in_cache_open; [done|]; rewrite is_terminal_app in Et2; by destruct (in_cache cached)).
    rewrite Ec, app_nil_r.
    apply wp_bind. eapply wp_mono; [by apply lookup_levels_spec|]. intros [[rc mh] dh] s3 [Ho3 [[-> (Hu & Hok & Hl)]|(-> & Htx & Hin)]].
    + eapply wp_mono; [apply lookup_done_spec; [by apply own_stmts_upto|by apply Forall_app_2|done]|]. intros [rc ret] s4 (-> & -> & Hd & E). left. split_and!; [done| |done].
      rewrite own_stmts_state, Hl, E. unfold cached_value. unfold in_cache in Ec. destruct cached as [e|]; [|done]. by destruct (vlsn <? s_lsn e).
    + apply wp_ret. right. split_and!; [done|done|by destruct tx|done].
Qed.

(** ** The lookup in memory *)

(** A lookup that must not yield finds the value of a key if the cache or the
    memories have a statement that is not an UPSERT, and nothing otherwise. *)
Lemma lookup_mem_spec cached s : view_ok (lk_lsm s) -> true ∉ lk_oom s -> Forall terminal (in_cache cached) ->
  wp (vy_point_lookup_mem key vlsn cached) (fun '(rc, ret) _ => rc = 0 /\
    if vy_history_is_terminal (in_cache cached) || vy_history_is_terminal (collect (ls_mems (lk_lsm s)))
    then value ret = cached_value cached (latest (lk_lsm s)) else ret = None) s.
Proof.
  intros Hv Ho Hc. unfold vy_point_lookup_mem. apply wp_bind. eapply wp_mono; [by apply scan_cache_spec|]. intros [rc h] s1 (-> & -> & o1 & Ho1 & ->).
  cbn [app Z.eqb negb orb]. destruct (vy_history_is_terminal (in_cache cached)) eqn:Et; cbn [orb].
  - apply wp_bind, wp_ret. cbn [Z.eqb negb]. rewrite Et. unfold in_cache, cached_value in *. destruct cached as [e|]; [|done]. destruct (vlsn <? s_lsn e); [done|].
    apply Forall_inv in Hc. apply wp_bind, wp_on_lk. eapply wp_mono; [apply history_apply_spec; [cbn; by rewrite has_type_ne|constructor; [|done]|done]|].
    + intros He. by destruct Hc.
    + intros [[rc n] r] oom (_ & -> & Hr & _). by apply wp_ret.
  - pose proof (in_cache_open cached Hc Et) as Ec. rewrite Ec. apply wp_bind. eapply wp_mono; [by apply scan_mems_spec|]. intros [rc h] s2 (-> & -> & o2 & Ho2 & ->). cbn [app Z.eqb negb].
    change (lk_lsm (only_oom s o1)) with (lk_lsm s). destruct (vy_history_is_terminal (collect (ls_mems (lk_lsm s)))) eqn:Em; [|by apply wp_ret].
    destruct (has_latest_mems _ Hv Em) as (Hu & Hok & Hl). apply wp_bind, wp_on_lk. eapply wp_mono; [by apply history_apply_spec|].
    intros [[rc n] r] oom (_ & -> & Hr & _). apply wp_ret. split; [done|]. rewrite Hr, Hl. unfold cached_value. unfold in_cache in Ec.
    destruct cached as [e|]; [|done]. by destruct (vlsn <? s_lsn e).
Qed.
End Lookups.
