(* ===== verification/VyConcurrent.v ===== *)
(** * Lookups in a running LSM tree

    A lookup yields while it reads runs, and the LSM tree of VyLsm goes on.
    The versions by which vy_point_lookup tells what has changed, the one of
    the list of memories and the one of the active memory, are enough for its
    result to be the one of the moment it returns. *)

From stdpp Require Import list sorting relations.
From S2P Require Import Prelude Heap VyStmt VyVisible VyViews VyWriteIterator VyMerge VyOutput VyCompaction VyTheorems VyMem VyMemSafety VyMemTheorems VyLevels VyLsm VyLsmSafety VyLsmSteps VyLsmTasks VyLsmTheorems.
From S2P Require Import VyRunReader VyPages VyRunScan VyRunSeek VyRunTheorems VyLookup VyLookupTheorems.

Open Scope Z_scope.

Section Changes.
Context {T O : Type} `{!Tuples T O, !TuplesLaws T O}.
Abbreviation stmt := (vy_stmt T O).
Abbreviation mem := (vy_mem T O).
Abbreviation tree := (vinyl T O).
Abbreviation level := (list stmt).
Implicit Types (v w : tree) (m : mem) (e : stmt).

(** ** The versions of the memories *)

(** At most [k] changes of the version of a memory, and no other ones. *)
Definition bumped (k : Z) m m' : Prop :=
  mem_version m' = mem_version m /\ mem_tree m' = mem_tree m \/
  exists n, 0 < n <= k /\ mem_version m' = u32 (mem_version m + n).

Lemma bumped_refl k m : bumped k m m.
Proof. by left. Qed.
Lemma bumped_le j k m m' : j <= k -> bumped j m m' -> bumped k m m'.
Proof. intros Hj [?|(n & ? & ?)]; [by left|right]. exists n. split; [lia|done]. Qed.
Lemma bumped_trans j k m1 m2 m3 : 0 <= j -> 0 <= k -> bumped j m1 m2 -> bumped k m2 m3 -> bumped (j + k) m1 m3.
Proof.
  intros Hj Hk [[E1 E2]|(n & Hn & En)] [[E3 E4]|(n' & Hn' & En')].
  - left. split; congruence.
  - right. exists n'. split; [lia|]. by rewrite En', E1.
  - right. exists n. split; [lia|]. by rewrite E3.
  - right. exists (n + n'). split; [lia|]. rewrite En', En. unfold uwrap. rewrite Zplus_mod_idemp_l. f_equal. lia.
Qed.
(** The version comes back after 2^32 changes only. *)
Lemma bumped_same k m m' : k < 2 ^ 32 -> bumped k m m' -> mem_version m' = mem_version m -> mem_tree m' = mem_tree m.
Proof.
  intros Hk [[_ ?]|(n & Hn & En)] E; [done|]. exfalso. rewrite E in En. unfold uwrap in En.
  assert (0 <= mem_version m < 2 ^ 32) as Hm by (rewrite En; apply Z.mod_pos_bound; lia).
  destruct (Z_lt_le_dec (mem_version m + n) (2 ^ 32)); [rewrite Z.mod_small in En by lia; lia|].
  replace (mem_version m + n) with (mem_version m + n - 2 ^ 32 + 1 * 2 ^ 32) in En by lia. rewrite Z_mod_plus_full, Z.mod_small in En by lia. lia.
Qed.

Lemma insert_bumped m e oom : bumped 1 m (snd (vy_mem_insert m e oom)).
Proof.
  unfold vy_mem_insert. destruct (tree_insert e (mem_tree m)) as [r t]. destruct (oom && _); [by left|]. right. exists 1. split; [lia|done].
Qed.

Section Moves.
Context (P : list level -> list level -> Prop) {HP : PreOrder P}.

Record moved (k : Z) v w : Prop := {
  mv_slices : P (v_slices v) (v_slices w);
  mv_list : v_mem_list_version v <= v_mem_list_version w;
  mv_sealed : v_mem_list_version w = v_mem_list_version v -> v_sealed w = v_sealed v;
  mv_mem : v_mem_list_version w = v_mem_list_version v -> bumped k (v_mem v) (v_mem w);
}.
Definition moves {A} (k : Z) (m : prog tree A) : Prop := forall v a w, m v = Done (a, w) -> moved k v w.

Lemma moved_still k v w : v_slices w = v_slices v -> v_mem_list_version w = v_mem_list_version v -> v_sealed w = v_sealed v -> v_mem w = v_mem v -> moved k v w.
Proof. intros E1 E2 E3 E4. split; rewrite ?E1, ?E4; [reflexivity|lia|done|intros _; apply bumped_refl]. Qed.
Lemma moved_trans j k u v w : 0 <= j -> 0 <= k -> moved j u v -> moved k v w -> moved (j + k) u w.
Proof.
  intros Hj Hk [A1 A2 A3 A4] [B1 B2 B3 B4]. split; [by etransitivity|lia| |].
  - intros E. rewrite B3, A3 by lia. done.
  - intros E. apply (bumped_trans j k _ (v_mem v)); [done|done|apply A4; lia|apply B4; lia].
Qed.
Lemma moves_bind {A B} j k (m : prog tree A) (f : A -> prog tree B) : 0 <= j -> 0 <= k -> moves j m -> (forall a, moves k (f a)) -> moves (j + k) (m ≫= f).
Proof.
  intros Hj Hk Hm Hf v b w. unfold mbind, prog_bind. destruct (m v) as [[a u]|] eqn:E; [|done]. intros E'.
  eapply moved_trans; [done|done|by eapply Hm|by eapply Hf].
Qed.
Lemma moves_then {A B} k (m : prog tree A) (f : A -> prog tree B) : 0 <= k -> moves 0 m -> (forall a, moves k (f a)) -> moves k (m ≫= f).
Proof. intros Hk Hm Hf. change k with (0 + k). by apply moves_bind. Qed.
Lemma moves_ret {A} k (a : A) : moves k (mret a).
Proof. intros v b w [= _ <-]. by apply moved_still. Qed.
Lemma moves_gets {A} k (f : tree -> A) : moves k (gets f).
Proof. intros v b w [= _ <-]. by apply moved_still. Qed.
Lemma moves_assert k c : moves k (assert c).
Proof. intros v b w. unfold assert. destruct (c v); [|done]. intros [= _ <-]. by apply moved_still. Qed.
Lemma moves_abort {A} k : moves k (@abort tree A).
Proof. done. Qed.
Lemma moves_modify k f : (forall v, moved k v (f v)) -> moves k (modify f).
Proof. intros H v b w [= _ <-]. apply H. Qed.
Lemma moves_still k f : (forall v, v_slices (f v) = v_slices v /\ v_mem_list_version (f v) = v_mem_list_version v /\ v_sealed (f v) = v_sealed v /\ v_mem (f v) = v_mem v) ->
  moves k (modify f).
Proof. intros H. apply moves_modify. intros v. destruct (H v) as (? & ? & ? & ?). by apply moved_still. Qed.
Lemma moves_on_alloc {A} k (m : oprog A) : moves k (on_alloc m).
Proof. intros v a w. unfold on_alloc. destruct (m (v_oom v)) as [[b oom]|]; [|done]. intros [= _ <-]. by apply moved_still. Qed.
Lemma moves_on_wi {A} k wi (m : prog (vy_write_iterator T O) A) : moves k (on_wi wi m).
Proof. intros v a w. unfold on_wi. destruct (m _) as [[b oom]|]; [|done]. intros [= _ <-]. by apply moved_still. Qed.

(** ** The operations *)

Ltac walk := repeat match goal with
  | |- moves _ (mbind _ _) => apply moves_then; [lia|..]
  | |- moves _ (mret _) => apply moves_ret
  | |- moves _ skip => apply moves_ret
  | |- moves _ (gets _) => apply moves_gets
  | |- moves _ (assert _) => apply moves_assert
  | |- moves _ abort => apply moves_abort
  | |- moves _ (on_alloc _) => apply moves_on_alloc
  | |- moves _ (on_wi _ _) => apply moves_on_wi
  | |- moves _ (modify _) => solve [apply moves_still; intros; done]
  | |- moves _ (match ?x with _ => _ end) => destruct x
  | |- moves _ (let _ := _ in _) => cbv zeta
  | |- forall _, _ => intros ?
  end.

Ltac after := apply moves_then; [lia|solve [walk]|].

Lemma dup_moves e : moves 0 (vy_stmt_dup_lsregion e).
Proof. unfold vy_stmt_dup_lsregion. walk. Qed.
Lemma mem_insert_moves e oom : moves 1 (mem_insert e oom).
Proof.
  intros v a w. unfold mem_insert, vy_mem_insert_upsert. destruct (has_type IPROTO_UPSERT e); cbn [negb].
  - destruct (count_upserts (v_mem v) e) as [n|]; [|done]. cbn. pose proof (insert_bumped (v_mem v) (e <| s_n_upserts := n |>) oom) as H.
    destruct (vy_mem_insert _ _ oom) as [rc m]. intros [= _ <-]. split; [reflexivity|done|done|done].
  - pose proof (insert_bumped (v_mem v) e oom) as H. destruct (vy_mem_insert _ _ oom) as [rc m]. intros [= _ <-]. split; [reflexivity|done|done|done].
Qed.
Lemma commit_moves e : moves 1 (mem_commit e).
Proof. apply moves_modify. intros v. split; [reflexivity|done|done|]. intros _. right. exists 1. split; [lia|done]. Qed.

Lemma set_moves e r : moves 1 (vy_lsm_set e r).
Proof.
  unfold vy_lsm_set. after. intros _. apply moves_then; [lia|destruct r; [walk|apply dup_moves]|]. intros [x|]; [|walk].
  after. intros b. change 1 with (1 + 0). apply moves_bind; [lia|lia|apply mem_insert_moves|]. walk.
Qed.
Lemma squash_moves e : moves 2 (squash_upsert e).
Proof.
  unfold squash_upsert. after. intros older. after. intros _. after. intros [u|]; [|walk]. destruct (negb _); [walk|]. after. intros _. after. intros _.
  apply moves_then; [lia|apply dup_moves|]. intros [r|]; [|walk].
  change 2 with (1 + 1). apply moves_bind; [lia|lia|apply set_moves|]. intros [rc r']. walk. apply commit_moves.
Qed.
Lemma write_moves e : moves 4 (write_stmt e).
Proof.
  unfold write_stmt. change 4 with (1 + 3). apply moves_bind; [lia|lia|apply set_moves|]. intros [rc [r|]]; [|walk]. destruct (negb (rc =? 0)); [walk|].
  after. intros _. change 3 with (3 + 0). apply moves_bind; [lia|lia| |walk]. unfold vy_lsm_commit_stmt.
  change 3 with (1 + 2). apply moves_bind; [lia|lia|apply commit_moves|]. intros _. after. intros _.
  unfold vy_lsm_commit_upsert. walk; apply squash_moves.
Qed.

Lemma none_gone p (ms : list mem) : gone_of p ms = [] -> left_of p ms = ms.
Proof.
  unfold gone_of, left_of. induction ms as [|m ms IH]; [done|]. destruct (p m) eqn:Ep; [by rewrite filter_cons_True|].
  rewrite filter_cons_False by congruence. intros E. rewrite filter_cons_True by done. by rewrite IH.
Qed.
Lemma delete_sealed_moves p : moves 0 (delete_sealed p).
Proof.
  intros v a w E. assert (wpx False (delete_sealed p) (fun _ w => moved 0 v w) v) as H.
  { apply delete_sealed_spec. split; cbn; [reflexivity|lia| |intros _; apply bumped_refl]. intros En.
    assert (gone_of p (v_sealed v) = []) as Eg by (apply length_zero_iff_nil; lia). by apply none_gone. }
  unfold wpx in H. by rewrite E in H.
Qed.
Lemma rotate_moves : moves 0 vy_lsm_rotate_mem.
Proof. unfold vy_lsm_rotate_mem. walk. apply moves_modify. intros v. split; cbn; [reflexivity|lia|lia|lia]. Qed.
Lemma complete_dump_moves : moves 0 vy_scheduler_complete_dump.
Proof. unfold vy_scheduler_complete_dump. walk. apply moves_still. intros v. by destruct (_ =? _). Qed.
Lemma task_new_moves streams lst handler count older : moves 0 (task_new streams lst handler count older).
Proof. unfold task_new. walk. Qed.
Lemma dump_new_moves : moves 0 vy_task_dump_new.
Proof.
  unfold vy_task_dump_new. walk; first [apply rotate_moves|apply delete_sealed_moves|apply complete_dump_moves|apply task_new_moves].
Qed.
Lemma compaction_new_moves n : moves 0 (vy_task_compaction_new n).
Proof. unfold vy_task_compaction_new. walk. apply task_new_moves. Qed.
Lemma read_view_moves : moves 0 vy_tx_manager_read_view.
Proof. unfold vy_tx_manager_read_view. walk. Qed.
Lemma destroy_view_moves i : moves 0 (vy_tx_manager_destroy_read_view i).
Proof. unfold vy_tx_manager_destroy_read_view. walk. Qed.

(** The tasks change the runs. *)
Lemma dump_run_moves : (forall a b, P a b) -> moves 0 vy_task_dump_run.
Proof.
  intros HPall. unfold vy_task_dump_run, vy_task_execute, vy_task_dump_complete, vy_task_dump_abort.
  assert (forall run : list stmt, moves 0 (modify (fun v => v <| v_slices ::= fun l => match run with [] => l | _ => map persist run :: l end |>))) as Hm.
  { intros run. apply moves_modify. intros v. split; [apply HPall|done|done|]. intros _. apply bumped_refl. }
  walk; first [apply Hm|apply delete_sealed_moves|apply complete_dump_moves].
Qed.
Lemma compaction_run_moves : (forall a b, P a b) -> moves 0 vy_task_compaction_run.
Proof.
  intros HPall. unfold vy_task_compaction_run, vy_task_execute, vy_task_compaction_complete, vy_task_compaction_abort. walk.
  apply moves_modify. intros u. split; [apply HPall|done|done|]. intros _. apply bumped_refl.
Qed.
End Moves.

Lemma levels_below wl lsn (A B : list level) : levels_ok wl lsn (A ++ B) -> levels_ok wl lsn B.
Proof.
  intros [H1 H2 H3 H4]. rewrite concat_app in H2, H3. apply Forall_app in H1 as [_ H1], H2 as [_ H2]. apply newest_first_app in H3 as (_ & H3 & _).
  split; [done|done|done|]. intros Hw A' l B' t x E. apply (H4 Hw (A ++ A') l B' t x). by rewrite E, app_assoc.
Qed.

Section Disk.
Context (wl : workload) (v : tree) (tk : vy_task T O) (Hinv : inv wl v) (Htame : tame wl tk) (Hw : wl_tame wl = true).

Lemma levels_lsn_max : v_lsn v <= INT64_MAX.
Proof. pose proof (i_lsn _ _ Hinv). pose proof max_lsn. lia. Qed.

Lemma dump_run_slices : v_dump v = Some tk ->
  wpx True vy_task_dump_run (fun _ w => v_slices w = v_slices v \/
    v_slices w = put (run_of tk) (v_slices v) /\ v_mem_list_version w = v_mem_list_version v + Z.of_nat (length (gone_of (dumped (v_dump_generation v)) (v_sealed v)))) v.
Proof.
  intros Hd. pose proof (i_dump _ _ Hinv) as Hdo. unfold dump_ok in Hdo. rewrite Hd in Hdo. destruct Hdo as (D1 & _ & new & old & D3 & _ & _ & D6).
  pose proof (i_levels _ _ Hinv) as Hok. unfold levels in Hok. rewrite D3, map_app, <- app_assoc in Hok.
  change (levels_ok wl (v_lsn v) ((mem_tree (v_mem v) :: map mem_tree new) ++ map mem_tree old ++ v_slices v)) in Hok.
  unfold vy_task_dump_run. apply wpx_bind, wpx_gets. rewrite Hd. unfold vy_task_execute. apply wpx_bind.
  eapply task_run_spec; [exact D6|exact Hok|apply levels_lsn_max|done| |].
  - intros _ w oom. unfold vy_task_dump_abort. apply wpx_bind, wpx_bind, wpx_assert; [done|]. apply wpx_modify, wpx_ret. by left.
  - intros w oom _. unfold vy_task_dump_complete. apply wpx_bind, wpx_bind, wpx_assert; [done|]. apply wpx_bind, wpx_alloc_fails; [done|].
    intros [] oom' _ _.
    { apply wpx_ret. cbn [Z.eqb negb]. unfold vy_task_dump_abort. apply wpx_bind, wpx_bind, wpx_assert; [done|]. apply wpx_modify, wpx_ret. by left. }
    apply wpx_bind, wpx_modify, wpx_bind, wpx_gets, wpx_bind, delete_sealed_spec, wpx_bind, wpx_modify, wpx_bind.
    unfold vy_scheduler_complete_dump. apply wpx_bind. unfold wpx at 1, assert. destruct (_ <? _); [|done].
    apply wpx_modify, wpx_ret, wpx_ret. right. by destruct (_ =? _).
Qed.

Lemma dump_run_disk rc w : v_dump v = Some tk -> vy_task_dump_run v = Done (rc, w) -> v_mem_list_version w = v_mem_list_version v ->
  forall t n, open_at v n -> read (v_slices w) t n = read (v_slices v) t n.
Proof.
  intros Hd E El t n Hn. pose proof (wpx_Done _ _ _ _ _ _ (dump_run_slices Hd) E) as [Es|[Es En]]; [by rewrite Es|]. rewrite Es.
  pose proof (i_dump _ _ Hinv) as Hdo. unfold dump_ok in Hdo. rewrite Hd in Hdo. destruct Hdo as (_ & _ & new & old & D3 & D4 & D5 & D6).
  apply Forall_cons in D4 as [_ D4]. destruct (dumped_parts _ _ _ D4 D5) as [_ Eo]. rewrite <- D3 in Eo. rewrite Eo in En.
  assert (old = []) as -> by (apply length_zero_iff_nil; lia). pose proof (i_levels _ _ Hinv) as Hok. unfold levels in Hok. rewrite app_comm_cons in Hok.
  apply levels_below in Hok. exact (task_result_read wl _ _ [] [] _ _ _ D6 Hok levels_lsn_max Htame Hw t n Hn).
Qed.

Lemma compaction_run_slices : v_compaction v = Some tk ->
  wpx True vy_task_compaction_run (fun _ w => v_slices w = v_slices v \/
    exists new S old, v_slices v = new ++ S ++ old /\ task_ok (open_at v) S old true tk /\ v_slices w = new ++ put (run_of tk) old) v.
Proof.
  intros Hc. pose proof (i_compaction _ _ Hinv) as Hco. unfold compaction_ok in Hco. rewrite Hc in Hco. destruct Hco as (new & S & old & C1 & C2 & C3 & _ & C5).
  pose proof (i_levels _ _ Hinv) as Hok. unfold levels in Hok. rewrite C1, app_comm_cons, (app_assoc _ new) in Hok.
  unfold vy_task_compaction_run. apply wpx_bind, wpx_gets. rewrite Hc. unfold vy_task_execute. apply wpx_bind.
  eapply task_run_spec; [exact C5|exact Hok|apply levels_lsn_max|done| |].
  - intros _ w oom. apply wpx_bind, wpx_modify, wpx_ret. by left.
  - intros w oom _. unfold vy_task_compaction_complete. apply wpx_bind, wpx_bind, wpx_alloc_fails; [done|]. intros [] oom' _ _.
    { apply wpx_ret. cbn [Z.eqb negb]. apply wpx_bind, wpx_modify, wpx_ret. by left. }
    apply wpx_bind, wpx_modify, wpx_ret. cbn [Z.eqb negb]. apply wpx_ret. right. exists new, S, old. split_and!; [done|done|]. cbn -[put].
    assert (length (v_slices v) - tk_count tk - tk_older tk = length new)%nat as En by (rewrite C1, !length_app; lia).
    rewrite En, C1, take_app_length, (app_assoc new S), drop_app_length' by (rewrite length_app; lia). by destruct (run_of tk).
Qed.
Lemma compaction_run_disk rc w : v_compaction v = Some tk -> vy_task_compaction_run v = Done (rc, w) ->
  forall t n, open_at v n -> read (v_slices w) t n = read (v_slices v) t n.
Proof.
  intros Hc E t n Hn. pose proof (wpx_Done _ _ _ _ _ _ (compaction_run_slices Hc) E) as [Es|(new & S & old & C1 & C5 & Es)]; [by rewrite Es|]. rewrite Es, C1.
  pose proof (i_levels _ _ Hinv) as Hok. unfold levels in Hok. rewrite app_comm_cons in Hok. apply levels_below in Hok. rewrite C1 in Hok.
  exact (task_result_read wl _ _ new S old _ _ C5 Hok levels_lsn_max Htame Hw t n Hn).
Qed.
End Disk.

(** ** Steps of the LSM tree *)

(** What the versions tell a reader at [n] of what has happened. *)
Record carried (n k : Z) v w : Prop := {
  ca_list : v_mem_list_version v <= v_mem_list_version w;
  ca_sealed : v_mem_list_version w = v_mem_list_version v -> v_sealed w = v_sealed v;
  ca_mem : v_mem_list_version w = v_mem_list_version v -> bumped k (v_mem v) (v_mem w);
  ca_disk : v_mem_list_version w = v_mem_list_version v -> forall t, read (v_slices w) t n = read (v_slices v) t n;
}.
Lemma moved_carried n k v w : moved eq k v w -> carried n k v w.
Proof. intros [H1 H2 H3 H4]. split; [done|done|done|]. intros _ t. by rewrite H1. Qed.
Lemma carried_trans n j k u v w : 0 <= j -> 0 <= k -> carried n j u v -> carried n k v w -> carried n (j + k) u w.
Proof.
  intros Hj Hk [A1 A2 A3 A4] [B1 B2 B3 B4]. split; [lia| | |].
  - intros E. rewrite B2, A2 by lia. done.
  - intros E. apply (bumped_trans j k _ (v_mem v)); [done|done|apply A3; lia|apply B3; lia].
  - intros E t. rewrite B4, A4 by lia. done.
Qed.

Abbreviation anyhow := (fun _ _ : list level => True).
#[local] Instance anyhow_preorder : PreOrder anyhow.
Proof. by split. Qed.

Lemma step_carried wl n v w : wl_tame wl = true -> inv wl v -> open_at v n -> step wl v w -> carried n 4 v w.
Proof.
  intros Hwl Hinv Hn [op rc w' Ha E|oom]; [|by apply moved_carried, (moved_still eq)].
  assert (forall {A} (m : prog tree A) a, m v = Done (a, w') -> moves eq 0 m -> carried n 4 v w') as Hm.
  { intros A m a Em Hm. apply moved_carried. destruct (Hm _ _ _ Em) as [? ? ? H]. split; [done|done|done|]. intros El. eapply bumped_le; [|by apply H]. lia. }
  assert (forall m : prog tree Z, m v = Done (rc, w') -> moves anyhow 0 m ->
    (v_mem_list_version w' = v_mem_list_version v -> forall t n, open_at v n -> read (v_slices w') t n = read (v_slices v) t n) -> carried n 4 v w') as Hr.
  { intros m Em Hm' Hd. destruct (Hm' _ _ _ Em) as [_ ? ? H]. split; [done|done| |]; [|intros El t; by apply Hd]. intros El. eapply bumped_le; [|by apply H]. lia. }
  destruct op as [e| | | | |k| | |i]; cbn [perform allowed] in *.
  - apply moved_carried. by eapply (write_moves eq).
  - eapply (Hm _ _ _ E). apply (moves_then eq); [lia|apply (moves_still eq); intros u; by destruct (vy_scheduler_dump_in_progress u)|]. intros _. apply (moves_ret eq).
  - eapply (Hm _ _ _ E). apply (moves_then eq); [lia|apply (moves_still eq); by intros|]. intros _. apply (moves_ret eq).
  - eapply (Hm _ _ _ E), (dump_new_moves eq).
  - destruct Ha as (tk & Ed & Ht). apply (Hr _ E); [apply (dump_run_moves anyhow); by intros|]. intros El t m Hm'. by eapply dump_run_disk.
  - eapply (Hm _ _ _ E), (compaction_new_moves eq).
  - destruct Ha as (tk & Ed & Ht). apply (Hr _ E); [apply (compaction_run_moves anyhow); by intros|]. intros El t m Hm'. by eapply compaction_run_disk.
  - eapply (Hm _ _ _ E). apply (moves_then eq); [lia|apply (read_view_moves eq)|]. intros r. apply (moves_ret eq).
  - eapply (Hm _ _ _ E). apply (moves_then eq); [lia|apply (destroy_view_moves eq)|]. intros r. apply (moves_ret eq).
Qed.

(** [k] steps while the read view [n] is open. *)
Definition path (wl : workload) (n : Z) : nat -> tree -> tree -> Prop := nsteps (fun v w => open_at v n /\ step wl v w).

Lemma path_carried wl n k v w : wl_tame wl = true -> path wl n k v w -> inv wl v -> inv wl w /\ carried n (4 * Z.of_nat k) v w.
Proof.
  intros Hwl. induction 1 as [v|k v u w [Hn Hs] Hp IH]; intros Hinv.
  - split; [done|]. split; [lia|done|intros _; apply bumped_refl|done].
  - destruct (IH (step_inv _ _ _ Hs Hinv)) as [Hw Hc]. split; [done|]. replace (4 * Z.of_nat (S k)) with (4 + 4 * Z.of_nat k) by lia.
    eapply carried_trans; [lia|lia|by eapply step_carried|done].
Qed.

(** ** What a lookup sees *)

Record shows v (lv : lsm_view T O) : Prop := {
  sh_mem : ls_mem lv = v_mem v;
  sh_sealed : ls_sealed lv = v_sealed v;
  sh_list : ls_mem_list_version lv = v_mem_list_version v;
  sh_disk : ls_disk lv = v_slices v;
  sh_runs : Forall (fun sl => run_ok (sl_run sl)) (ls_slices lv);
}.
Lemma shows_levels v lv : shows v lv -> ls_levels lv = levels v.
Proof. intros [E1 E2 _ E3 _]. unfold ls_levels, ls_mems, levels. by rewrite E1, E2, E3. Qed.

Lemma shows_ok wl v lv : inv wl v -> shows v lv -> view_ok lv.
Proof.
  intros Hinv Hs. pose proof (i_levels _ _ Hinv) as [L1 L2 _ _]. pose proof (i_mems _ _ Hinv) as Hm. unfold mems in Hm. pose proof (shows_levels _ _ Hs) as El.
  destruct Hs as [E1 E2 _ E3 Hr]. split; [|done|].
  - rewrite E1, E2. unfold levels in L1. rewrite app_comm_cons in L1. apply Forall_app in L1 as [L1 _]. change (Forall tree_sorted (map mem_tree (v_mem v :: v_sealed v))) in L1.
    rewrite Forall_map in L1. apply Forall_forall. intros m Hin. rewrite Forall_forall in L1, Hm. split; [by apply L1|].
    eapply Forall_impl; [apply Hm; done|]. by intros x [? _].
  - rewrite El. apply Forall_forall. intros l Hl. apply Forall_forall. intros x Hx. rewrite Forall_forall in L2.
    assert (x ∈ concat (levels v)) as Hin by (apply list_elem_of_In, in_concat; exists l; by rewrite <- !list_elem_of_In).
    destruct (L2 x Hin) as [_ Ho _ _ Hk]. split; [|done]. by apply not_true_is_false.
Qed.

Lemma shows_retains wl (key : T) n k v w lv lw :
  wl_tame wl = true -> inv wl v -> path wl n k v w -> 4 * Z.of_nat k < 2 ^ 32 -> shows v lv -> shows w lw -> retains key n lv lw.
Proof.
  intros Hwl Hinv Hp Hk [E1 E2 E3 E4 _] [F1 F2 F3 F4 _]. destruct (path_carried _ _ _ _ _ Hwl Hp Hinv) as [_ [C1 C2 C3 C4]].
  split; rewrite ?E1, ?E2, ?E3, ?E4, ?F1, ?F2, ?F3, ?F4; intros El; symmetry in El.
  - by rewrite C2.
  - intros Em. symmetry in Em. symmetry. by apply (bumped_same _ _ _ Hk (C3 El)).
  - symmetry. exact (C4 El key).
Qed.

(** The LSM tree goes on while the lookup yields. *)
Fixpoint evolves (wl : workload) (n : Z) v (future : list (lsm_view T O * bool)) : Prop :=
  match future with
  | [] => True
  | (lw, _) :: future => exists k w, path wl n k v w /\ 4 * Z.of_nat k < 2 ^ 32 /\ open_at w n /\ shows w lw /\ evolves wl n w future
  end.

Lemma evolves_follows wl (key : T) n future : wl_tame wl = true -> forall v lv, inv wl v -> shows v lv -> evolves wl n v future -> follows key n lv future.
Proof.
  intros Hwl. induction future as [|[lw a] future IH]; intros v lv Hinv Hs He; [done|]. destruct He as (k & w & Hp & Hk & Hn & Hw & He). cbn.
  destruct (path_carried _ _ _ _ _ Hwl Hp Hinv) as [Hiw _]. split_and!; [by eapply shows_ok|exact (shows_retains wl key n k v w lv lw Hwl Hinv Hp Hk Hs Hw)|by eapply IH].
Qed.
Lemma path_rtc wl n k v w : path wl n k v w -> rtc (step wl) v w.
Proof. induction 1 as [v|k v u w [_ Hs] _ IH]; [constructor|]. by eapply rtc_l. Qed.
Lemma evolves_elem wl n future : forall v lv lw, shows v lv -> open_at v n -> evolves wl n v future -> lw ∈ lv :: map fst future ->
  exists w, rtc (step wl) v w /\ open_at w n /\ shows w lw.
Proof.
  induction future as [|[lu a] future IH]; intros v lv lw Hs Hn He Hin.
  - apply list_elem_of_singleton in Hin as ->. exists v. by split.
  - destruct He as (k & u & Hp & Hk & Hu & Hsu & He). apply elem_of_cons in Hin as [->|Hin]; [exists v; by split|].
    destruct (IH u lu lw Hsu Hu He Hin) as (w & Hr & Hw). exists w. split; [|done]. etransitivity; [by eapply path_rtc|done].
Qed.

(** C9: a lookup of a full key in a running LSM tree, when no allocation of
    the lookup, no read of the disk and no decoding of a row fails; otherwise
    it can miss the key and report success (lookup_loses_memory). While the
    lookup yields, the tree makes any steps, fewer than 2^30 of them for the
    32-bit version of a memory, with the read view of the lookup open. As in
    C6, no dump or compaction that knows of a read view has an UPSERT directly
    on a DELETE of the same key, which the code does not check. A cached
    statement is not an UPSERT. The lookup returns, with the statement of the
    transaction applied to the value from the cache or, if there is none, to
    the value that the journal has for the read view when the lookup goes on
    for the last time; or it fails because the transaction has been aborted.
    *)
Theorem point_lookup_reads_journal upserts (key : T) n fuel tx cached (s : VyLookup.lookup T O) v :
  let wl := mk_workload upserts true in
  reachable wl v -> shows v (lk_lsm s) -> open_at v n -> evolves wl n v (lk_future s) -> n <> INT64_MAX - 1 ->
  (length (lk_future s) < fuel)%nat -> true ∉ lk_oom s ->
  Forall upsert_ok (own_stmts tx) -> Forall terminal (in_cache n cached) ->
  wp (vy_point_lookup key n fuel tx cached) (fun '(rc, ret) s' =>
    (exists w, rtc (step wl) v w /\ shows w (lk_lsm s') /\ rc = 0 /\
       value ret = own_write tx (cached_value n cached (visible None n (of_key key (v_wal w))))) \/
    rc = -1 /\ tx <> None /\ exists lw, (lw, true) ∈ lk_future s) s.
Proof.
  intros wl Hr Hs Hn He Hmax Hf Ho Hw Hc. pose proof (lsm_reachable_inv _ _ Hr) as Hinv. pose proof (lookup_goes_on key n fuel tx cached s) as Hg.
  pose proof (lookup_spec key n Hmax fuel tx cached s (shows_ok _ _ _ Hinv Hs) (evolves_follows wl _ _ _ eq_refl _ _ Hinv Hs He) Hf Ho Hw Hc) as H.
  unfold wp in *. destruct (vy_point_lookup key n fuel tx cached s) as [[[rc ret] s']|]; [|done]. specialize (Hg _ _ eq_refl). apply goes_on_elem in Hg.
  destruct H as [(-> & Hv & _)|(-> & _ & ? & ?)]; [left|by right]. destruct (evolves_elem _ _ _ _ _ _ Hs Hn He Hg) as (w & Hrw & Hnw & Hsw).
  exists w. split_and!; [done|done|done|]. rewrite Hv. unfold latest. rewrite (shows_levels _ _ Hsw). do 2 f_equal.
  assert (reachable wl w) as Hw' by (unfold reachable in *; by etransitivity). exact (i_reads _ _ (lsm_reachable_inv wl _ Hw') eq_refl key n Hnw).
Qed.
End Changes.

(** ** A lookup in the tree of counters *)

Module CounterLookup.
Import Counters CounterTree.

(** Another UPSERT is written; while the lookup reads the run, a dump starts
    and seals the memory. *)
Definition third_write : vy_stmt (Z * Z) Z := mk_stmt None IPROTO_UPSERT 3 0 true (1, 0) [7] 0.
Definition tree7 : tree := Eval vm_compute in done_op (Write third_write) tree6.
Definition tree8 : tree := Eval vm_compute in done_op TriggerDump tree7.
Definition tree9 : tree := Eval vm_compute in done_op DumpNew tree8.

Definition view_of (v : tree) : lsm_view (Z * Z) Z :=
  mk_lsm (v_mem v) (v_sealed v) (v_mem_list_version v) (map (fun l => mk_slice (mk_run [Runs.page_of l] None) None None 0 0) (v_slices v)).
Definition looking : VyLookup.lookup (Z * Z) Z := mk_lookup (view_of tree7) [(view_of tree9, false)] [].

Definition counter_load : workload := mk_workload true true.
Lemma tree7_reachable : reachable counter_load tree7.
Proof.
  eapply rtc_r; [apply tree_reachable|]. apply (step_perform _ _ (Write third_write) 0); [|reflexivity].
  assert (3 < MAX_LSN) by (vm_compute; reflexivity). split; [done|cbn; lia| |done]. split; cbn; try done; lia.
Qed.
Lemma tree_path : path counter_load 3 2 tree7 tree9.
Proof.
  assert (3 <= 3) by lia. apply (nsteps_l _ _ _ tree8). { split; [by right|]. by apply (step_perform _ _ TriggerDump 0). }
  apply nsteps_once. split; [by right|]. apply (step_perform _ _ DumpNew 0); [|reflexivity]. by split.
Qed.
Lemma tree_shows v : v_slices v = v_slices tree6 -> shows v (view_of v).
Proof.
  intros E. split; [done|done|done| |].
  - cbn. rewrite E. reflexivity.
  - cbn. rewrite E. constructor; [|constructor]. split; [|done| |done].
    + constructor; [split; [done|by eexists _, _]|constructor].
    + repeat constructor; vm_compute; reflexivity.
Qed.

Lemma point_lookup_reads_journal_witness :
  wp (vy_point_lookup (1, 0) 3 5 None None) (fun '(rc, ret) _ => value ret = Some (1, 22)) looking /\
  wp (vy_point_lookup (1, 0) 3 5 None None) (fun '(rc, ret) s' => exists w, rtc (step counter_load) tree7 w /\ shows w (lk_lsm s') /\ rc = 0 /\
    value ret = visible None 3 (of_key (1, 0) (v_wal w))) looking.
Proof.
  split; [vm_compute; reflexivity|].
  eapply wp_mono; [apply (point_lookup_reads_journal true (1, 0) 3 5 None None looking tree7)|].
  - exact tree7_reachable.
  - apply tree_shows. reflexivity.
  - right. vm_compute. discriminate.
  - exists 2%nat, tree9. split; [exact tree_path|]. split; [reflexivity|]. split; [right; vm_compute; discriminate|]. split; [|exact I].
    apply tree_shows. reflexivity.
  - vm_compute. discriminate.
  - vm_compute. lia.
  - apply not_elem_of_nil.
  - constructor.
  - constructor.
  - intros [rc ret] s' [H|(_ & H & _)]; [exact H|by destruct H].
Defined.

(** the error of the last memory that is read is lost.  The key is in the
    active memory; when the lookup runs out of memory there, it reports success
    and that there is no such key. *)
Theorem lookup_loses_memory :
  wp (vy_point_lookup (1, 0) 3 1 None None) (fun '(rc, ret) _ => rc = 0 /\ value ret = Some (1, 10)) (mk_lookup (view_of tree1) [] []) /\
  wp (vy_point_lookup (1, 0) 3 1 None None) (fun '(rc, ret) _ => rc = 0 /\ ret = None) (mk_lookup (view_of tree1) [] [true]).
Proof. split; vm_compute; split; reflexivity. Qed.
End CounterLookup.
