(* ===== verification/VyReadSet.v ===== *)
(** * Read sets

    src/box/vy_read_set.c and vy_read_set.h, and vy_tx_track of vy_tx.c: a
    transaction remembers what it has read as intervals of keys.  Its own
    intervals are in one tree, in which they are merged, and the intervals of
    all the transactions that read an LSM tree are in another one, in which the
    intervals that a statement hits are found.

    Keys may be partial: [key_compare] compares the parts that both keys have.
    The trees come from a library.  A tree in which intervals are looked up,
    inserted and removed is the list of its nodes in order; the tree in which
    conflicts are found is a binary tree, of which a walk visits a node and
    then the subtrees it is sent to. *)

From stdpp Require Import list.
From S2P Require Import Prelude.

Open Scope Z_scope.

Class Keys (K : Type) := {
  key_compare : K -> K -> Z;
  key_part_count : K -> Z;   (** vy_stmt_key_part_count *)
}.

(** A key of a statement, which the code knows by its address. *)
Record vy_entry (K : Type) := mk_entry { en_addr : Z; en_key : K }.
Arguments mk_entry {K}. Arguments en_addr {K}. Arguments en_key {K}.

Record vy_read_interval (K : Type) := mk_interval {
  iv_addr : Z;
  iv_tx : Z;
  iv_left : vy_entry K;
  iv_right : vy_entry K;
  iv_left_belongs : bool;
  iv_right_belongs : bool;
}.
Arguments mk_interval {K}. Arguments iv_addr {K}. Arguments iv_tx {K}. Arguments iv_left {K}. Arguments iv_right {K}.
Arguments iv_left_belongs {K}. Arguments iv_right_belongs {K}.
#[export] Instance vy_read_interval_rebuild K : Rebuild (vy_read_interval K) := fun i =>
  mk_interval (iv_addr i) (iv_tx i) (iv_left i) (iv_right i) (iv_left_belongs i) (iv_right_belongs i).

(** [last] is [subtree_last] of the node. *)
Inductive read_tree (K : Type) :=
  | RLeaf
  | RNode (left : read_tree K) (node last : vy_read_interval K) (right : read_tree K).
Arguments RLeaf {K}. Arguments RNode {K}.

Section ReadSet.
Context {K : Type} `{!Keys K}.
Abbreviation interval := (vy_read_interval K).
Abbreviation entry := (vy_entry K).

Definition vy_entry_compare (a b : entry) : Z := key_compare (en_key a) (en_key b).
Definition vy_entry_is_same (a b : entry) : bool := en_addr a =? en_addr b.
Definition part_count (e : entry) : Z := key_part_count (en_key e).

(** ** Comparing intervals *)

Definition vy_read_interval_cmpl (a b : interval) : Z :=
  let cmp := vy_entry_compare (iv_left a) (iv_left b) in
  if negb (cmp =? 0) then cmp
  else if iv_left_belongs a && negb (iv_left_belongs b) then -1
  else if negb (iv_left_belongs a) && iv_left_belongs b then 1
  else
    let a_parts := part_count (iv_left a) in
    let b_parts := part_count (iv_left b) in
    if iv_left_belongs a
    then (if a_parts <? b_parts then -1 else Z.b2z (b_parts <? a_parts))
    else (if b_parts <? a_parts then -1 else Z.b2z (a_parts <? b_parts)).

Definition vy_read_interval_cmpr (a b : interval) : Z :=
  let cmp := vy_entry_compare (iv_right a) (iv_right b) in
  if negb (cmp =? 0) then cmp
  else if iv_right_belongs a && negb (iv_right_belongs b) then 1
  else if negb (iv_right_belongs a) && iv_right_belongs b then -1
  else
    let a_parts := part_count (iv_right a) in
    let b_parts := part_count (iv_right b) in
    if iv_right_belongs a
    then (if b_parts <? a_parts then -1 else Z.b2z (a_parts <? b_parts))
    else (if a_parts <? b_parts then -1 else Z.b2z (b_parts <? a_parts)).

(** No result if the assertion fails. *)
Definition vy_read_interval_should_merge (l r : interval) : option bool :=
  if negb (vy_read_interval_cmpl l r <=? 0) then None
  else
    let cmp := vy_entry_compare (iv_right l) (iv_left r) in
    Some (if 0 <? cmp then true
          else if cmp <? 0 then false
          else if iv_right_belongs l && iv_left_belongs r then true
          else if negb (iv_right_belongs l) && negb (iv_left_belongs r) then false
          else
            let l_parts := part_count (iv_right l) in
            let r_parts := part_count (iv_left r) in
            if iv_right_belongs l then l_parts <=? r_parts else r_parts <=? l_parts).

Definition vy_lsm_read_set_cmp (a b : interval) : Z :=
  let rc := vy_read_interval_cmpl a b in
  if rc =? 0 then (if iv_tx a <? iv_tx b then -1 else Z.b2z (iv_tx b <? iv_tx a)) else rc.

(** ** Conflicts *)

Definition last_of (t : read_tree K) : option interval :=
  match t with RLeaf => None | RNode _ _ last _ => Some last end.

Definition vy_lsm_read_set_aug (node : interval) (left right : read_tree K) : interval :=
  let take (last : interval) (t : read_tree K) :=
    match last_of t with
    | Some l => if 0 <? vy_read_interval_cmpr l last then l else last
    | None => last
    end in
  take (take node left) right.

(** The key of a statement against the bounds of an interval. *)
Definition cmp_with_right (key : entry) (i : interval) : Z :=
  let cmp := vy_entry_compare key (iv_right i) in
  if (cmp =? 0) && negb (iv_right_belongs i) then 1 else cmp.
Definition cmp_with_left (key : entry) (i : interval) : Z :=
  let cmp := vy_entry_compare key (iv_left i) in
  if (cmp =? 0) && negb (iv_left_belongs i) then -1 else cmp.

(** One turn of the loop of vy_tx_conflict_iterator_next: is the node a
    conflict, and is its left and its right subtree to be walked. *)
Definition conflict_visit (key : entry) (curr last : interval) : bool * bool * bool :=
  let cmp_right := cmp_with_right key last in
  if 0 <? cmp_right then (false, false, false)
  else
    let cmp_left := if vy_entry_is_same (iv_left curr) (iv_right last) then cmp_right else cmp_with_left key curr in
    let cmp_right :=
      if vy_entry_is_same (iv_left curr) (iv_right curr) then cmp_left
      else if negb (iv_addr curr =? iv_addr last) then cmp_with_right key curr
      else cmp_right in
    ((0 <=? cmp_left) && (cmp_right <=? 0), true, negb (cmp_left <? 0)).

(** The intervals at which the calls of vy_tx_conflict_iterator_next stop,
    until it returns NULL. *)
Fixpoint vy_tx_conflicts (key : entry) (t : read_tree K) : list interval :=
  match t with
  | RLeaf => []
  | RNode l curr last r =>
      let '(hit, go_left, go_right) := conflict_visit key curr last in
      (if hit then [curr] else []) ++
      (if go_left then vy_tx_conflicts key l else []) ++
      (if go_right then vy_tx_conflicts key r else [])
  end.

(** ** Tracking *)

(** Where the tree has a place for an interval. *)
Fixpoint set_insert (cmp : interval -> interval -> Z) (i : interval) (l : list interval) : list interval :=
  match l with
  | [] => [i]
  | j :: l => if cmp i j <? 0 then i :: j :: l else j :: set_insert cmp i l
  end.
Definition set_remove (i : interval) (l : list interval) : list interval := filter (fun j => iv_addr j <> iv_addr i) l.

(** The intervals up to [i] and those after it: vy_tx_read_set_isearch_le
    stands at the last one of the former. *)
Fixpoint set_split (i : interval) (l : list interval) : list interval * list interval :=
  match l with
  | [] => ([], [])
  | j :: l' => if vy_read_interval_cmpl j i <=? 0 then let '(le, gt) := set_split i l' in (j :: le, gt) else ([], l)
  end.

(** The loop over the intervals after the new one. *)
Fixpoint merge_right (new : interval) (gt : list interval) : option (list interval) :=
  match gt with
  | [] => Some []
  | i :: gt =>
      should ← vy_read_interval_should_merge new i;
      if should : bool then ms ← merge_right new gt; Some (i :: ms) else Some []
  end.

(** [new] grown to span the intervals to be merged with it. *)
Definition merge_bounds (new : interval) (merge : list interval) : interval :=
  match merge, last merge with
  | first :: _, Some last =>
      let n := if 0 <? vy_read_interval_cmpl new first
               then new <| iv_left := iv_left first |> <| iv_left_belongs := iv_left_belongs first |> else new in
      if vy_read_interval_cmpr n last <? 0
      then n <| iv_right := iv_right last |> <| iv_right_belongs := iv_right_belongs last |> else n
  | _, _ => new
  end.

(** The intervals that are replaced by the new one: none if it is spanned by
    an interval of the set; no result if an assertion fails. *)
Definition track_merge (new : interval) (tx_set : list interval) : option (option (list interval)) :=
  let '(le, gt) := set_split new tx_set in
  match last le with
  | Some i =>
      if 0 <=? vy_read_interval_cmpr i new then Some None
      else
        should ← vy_read_interval_should_merge i new;
        ms ← merge_right new gt;
        Some (Some (if should : bool then i :: ms else ms))
  | None => ms ← merge_right new gt; Some (Some ms)
  end.

(** vy_tx_track of a transaction that is not in a read view, with the new
    interval: the read sets of the transaction and of the LSM tree. *)
Definition track_interval (new : interval) (tx_set lsm_set : list interval) : option (list interval * list interval) :=
  merge ← track_merge new tx_set;
  match merge with
  | None => Some (tx_set, lsm_set)
  | Some merge =>
      let new := merge_bounds new merge in
      let remove l := foldl (fun l i => set_remove i l) l merge in
      Some (set_insert vy_read_interval_cmpl new (remove tx_set), set_insert vy_lsm_read_set_cmp new (remove lsm_set))
  end.
End ReadSet.
