(* ===== verification/VyReadSetTheorems.v ===== *)
(** * Theorems on read sets

    A bound of an interval is a cut between keys: before or after all the keys
    that begin with its parts.  Cuts are in a total order, and the functions
    that compare intervals compare cuts. *)

From stdpp Require Import list sorting gmap.
From S2P Require Import Prelude VyReadSet.

Open Scope Z_scope.

Lemma filter_all_in {A} (P : A -> Prop) `{!forall x, Decision (P x)} (l : list A) : (forall x, x ∈ l -> P x) -> filter P l = l.
Proof.
  induction l as [|x l IH]; intros Hl; [done|]. rewrite filter_cons_True by (apply Hl; by left). rewrite IH; [done|]. intros y Hy. apply Hl. by right.
Qed.
Lemma filter_none_in {A} (P : A -> Prop) `{!forall x, Decision (P x)} (l : list A) : (forall x, x ∈ l -> ~ P x) -> filter P l = [].
Proof.
  induction l as [|x l IH]; intros Hl; [done|]. rewrite filter_cons_False by (apply Hl; by left). apply IH. intros y Hy. apply Hl. by right.
Qed.

Lemma sublist_sorted {A} (R : A -> A -> Prop) (l l' : list A) : sublist l l' -> StronglySorted R l' -> StronglySorted R l.
Proof.
  induction 1 as [|x l l' Hsub IH|x l l' Hsub IH]; intros Hs; [done|..]; apply StronglySorted_inv in Hs as [Hs Hf]; [|by apply IH].
  constructor; [by apply IH|]. rewrite Forall_forall in *. eauto using elem_of_sublist.
Qed.

Section Cuts.
Context {K : Type} `{!Keys K}.

(** Before ([false]) or after ([true]) the keys that begin with the key. *)
Definition cut : Type := K * bool.
Definition cut_compare (a b : cut) : Z :=
  let c := key_compare (fst a) (fst b) in
  if negb (c =? 0) then c
  else match snd a, snd b with
       | false, true => -1
       | true, false => 1
       | false, false => key_part_count (fst a) - key_part_count (fst b)
       | true, true => key_part_count (fst b) - key_part_count (fst a)
       end.
Definition cut_le (a b : cut) : Prop := cut_compare a b <= 0.
Definition cut_lt (a b : cut) : Prop := ~ cut_le b a.
End Cuts.
Arguments cut : clear implicits.

Class KeysLaws (K : Type) `{Keys K} : Prop := {
  key_refl : forall a, key_compare a a = 0;
  key_flip : forall a b, key_compare b a < 0 <-> 0 < key_compare a b;
  cut_trans : forall a b c : cut K, cut_le a b -> cut_le b c -> cut_le a c;
}.

Section Theorems.
Context {K : Type} `{!Keys K, !KeysLaws K}.
Abbreviation interval := (vy_read_interval K).
Abbreviation entry := (vy_entry K).
Implicit Types (i j new : interval) (l gt lsm : list interval) (k : K) (a b c : cut K) (t : read_tree K).

(** ** Cuts *)

Lemma cut_compare_flip a b : cut_compare b a < 0 <-> 0 < cut_compare a b.
Proof.
  destruct a as [a s], b as [b s']. unfold cut_compare. cbn [fst snd]. pose proof (key_flip a b). pose proof (key_flip b a).
  destruct (Z.eqb_spec (key_compare a b) 0), (Z.eqb_spec (key_compare b a) 0); cbn; [destruct s, s'; lia|lia|lia|lia].
Qed.
#[export] Instance cut_le_preorder : PreOrder (@cut_le K _).
Proof.
  split; [|intros a b c; apply cut_trans]. intros [a s]. unfold cut_le, cut_compare. cbn. rewrite key_refl. cbn. destruct s; lia.
Qed.
Lemma cut_total a b : cut_le a b \/ cut_lt b a.
Proof. unfold cut_lt, cut_le. lia. Qed.
Lemma cut_lt_le a b : cut_lt a b -> cut_le a b.
Proof. unfold cut_lt, cut_le. pose proof (cut_compare_flip b a). lia. Qed.
Lemma cut_lt_compare a b : cut_lt a b <-> cut_compare a b < 0.
Proof. unfold cut_lt, cut_le. pose proof (cut_compare_flip b a). lia. Qed.
Lemma cut_le_lt a b c : cut_le a b -> cut_lt b c -> cut_lt a c.
Proof. intros H1 H2 H3. apply H2. by transitivity a. Qed.
Lemma cut_lt_le_trans a b c : cut_lt a b -> cut_le b c -> cut_lt a c.
Proof. intros H1 H2 H3. apply H1. by transitivity c. Qed.
Lemma cut_lt_trans a b c : cut_lt a b -> cut_lt b c -> cut_lt a c.
Proof. intros H1 H2. eapply cut_lt_le_trans; [exact H1|]. by apply cut_lt_le. Qed.
Lemma cut_before_after k : cut_lt (k, false) (k, true).
Proof. apply cut_lt_compare. unfold cut_compare. cbn. rewrite key_refl. cbn. lia. Qed.

(** ** Intervals *)

(** Case analysis on the tests of the goal. *)
Ltac ztests := repeat match goal with
  | |- context [?x <? ?y] => destruct (Z.ltb_spec x y)
  | |- context [?x <=? ?y] => destruct (Z.leb_spec x y)
  end; cbn.

Definition left_cut i : cut K := (en_key (iv_left i), negb (iv_left_belongs i)).
Definition right_cut i : cut K := (en_key (iv_right i), iv_right_belongs i).

Lemma cmpl_le i j : vy_read_interval_cmpl i j <= 0 <-> cut_le (left_cut i) (left_cut j).
Proof.
  unfold vy_read_interval_cmpl, cut_le, cut_compare, left_cut, vy_entry_compare, part_count. cbn.
  destruct (Z.eqb_spec (key_compare (en_key (iv_left i)) (en_key (iv_left j))) 0); cbn; [|done].
  destruct (iv_left_belongs i), (iv_left_belongs j); cbn; ztests; lia.
Qed.
Lemma cmpl_flip i j : vy_read_interval_cmpl j i < 0 <-> 0 < vy_read_interval_cmpl i j.
Proof.
  unfold vy_read_interval_cmpl, vy_entry_compare, part_count.
  pose proof (key_flip (en_key (iv_left i)) (en_key (iv_left j))). pose proof (key_flip (en_key (iv_left j)) (en_key (iv_left i))).
  destruct (Z.eqb_spec (key_compare (en_key (iv_left i)) (en_key (iv_left j))) 0),
    (Z.eqb_spec (key_compare (en_key (iv_left j)) (en_key (iv_left i))) 0); cbn; [|lia|lia|lia].
  destruct (iv_left_belongs i), (iv_left_belongs j); cbn; ztests; lia.
Qed.
Lemma cmpr_le i j : vy_read_interval_cmpr i j <= 0 <-> cut_le (right_cut i) (right_cut j).
Proof.
  unfold vy_read_interval_cmpr, cut_le, cut_compare, right_cut, vy_entry_compare, part_count. cbn.
  destruct (Z.eqb_spec (key_compare (en_key (iv_right i)) (en_key (iv_right j))) 0); cbn; [|done].
  destruct (iv_right_belongs i), (iv_right_belongs j); cbn; ztests; lia.
Qed.
Lemma cmpr_ge i j : 0 <= vy_read_interval_cmpr i j <-> cut_le (right_cut j) (right_cut i).
Proof.
  unfold vy_read_interval_cmpr, cut_le, cut_compare, right_cut, vy_entry_compare, part_count. cbn.
  pose proof (key_flip (en_key (iv_right i)) (en_key (iv_right j))). pose proof (key_flip (en_key (iv_right j)) (en_key (iv_right i))).
  destruct (Z.eqb_spec (key_compare (en_key (iv_right i)) (en_key (iv_right j))) 0),
    (Z.eqb_spec (key_compare (en_key (iv_right j)) (en_key (iv_right i))) 0); cbn; [|lia|lia|lia].
  destruct (iv_right_belongs i), (iv_right_belongs j); cbn; ztests; lia.
Qed.
Lemma should_merge_spec i j : cut_le (left_cut i) (left_cut j) ->
  exists m : bool, vy_read_interval_should_merge i j = Some m /\ (m = true <-> cut_le (left_cut j) (right_cut i)).
Proof.
  intros H. apply cmpl_le in H. unfold vy_read_interval_should_merge. destruct (Z.leb_spec (vy_read_interval_cmpl i j) 0); [|lia]. cbn.
  eexists. split; [reflexivity|]. unfold cut_le, cut_compare, left_cut, right_cut, vy_entry_compare, part_count. cbn.
  pose proof (key_flip (en_key (iv_right i)) (en_key (iv_left j))). pose proof (key_flip (en_key (iv_left j)) (en_key (iv_right i))).
  destruct (Z.ltb_spec 0 (key_compare (en_key (iv_right i)) (en_key (iv_left j)))); cbn.
  { destruct (Z.eqb_spec (key_compare (en_key (iv_left j)) (en_key (iv_right i))) 0); cbn; [lia|]. split; [lia|done]. }
  destruct (Z.ltb_spec (key_compare (en_key (iv_right i)) (en_key (iv_left j))) 0); cbn.
  { destruct (Z.eqb_spec (key_compare (en_key (iv_left j)) (en_key (iv_right i))) 0); cbn; [lia|]. split; [done|lia]. }
  destruct (Z.eqb_spec (key_compare (en_key (iv_left j)) (en_key (iv_right i))) 0); cbn; [|lia].
  destruct (iv_right_belongs i), (iv_left_belongs j); cbn; ztests; split; (done || lia).
Qed.

(** A key of a statement has all the parts. *)
Definition full k : Prop := forall k', key_compare k k' = 0 -> key_part_count k' <= key_part_count k.
Definition covers i k : Prop := cut_le (left_cut i) (k, false) /\ cut_le (k, true) (right_cut i).
Definition covered l k : Prop := Exists (fun i => covers i k) l.
(** There is room for a key in the interval. *)
Definition proper i : Prop := cut_lt (left_cut i) (right_cut i).

Lemma full_cut k c : full k -> cut_le (k, true) c \/ cut_le c (k, false).
Proof.
  intros Hk. destruct c as [k' s]. unfold cut_le, cut_compare. cbn. pose proof (key_flip k k'). pose proof (key_flip k' k).
  specialize (Hk k'). destruct (Z.eqb_spec (key_compare k k') 0), (Z.eqb_spec (key_compare k' k) 0); cbn; [destruct s; lia|lia|lia|lia].
Qed.
Lemma key_same_compare (a b : K) : key_compare a b = 0 -> key_compare b a = 0.
Proof. pose proof (key_flip a b). pose proof (key_flip b a). lia. Qed.
Lemma cmp_with_left_spec (e : entry) i : full (en_key e) -> 0 <= cmp_with_left e i <-> cut_le (left_cut i) (en_key e, false).
Proof.
  intros Hk. unfold cmp_with_left, cut_le, cut_compare, left_cut, vy_entry_compare. cbn. specialize (Hk (en_key (iv_left i))).
  pose proof (key_flip (en_key e) (en_key (iv_left i))). pose proof (key_flip (en_key (iv_left i)) (en_key e)).
  destruct (Z.eqb_spec (key_compare (en_key e) (en_key (iv_left i))) 0),
    (Z.eqb_spec (key_compare (en_key (iv_left i)) (en_key e)) 0); cbn; [|lia|lia|lia].
  destruct (iv_left_belongs i); cbn; lia.
Qed.
Lemma cmp_with_right_spec (e : entry) i : full (en_key e) -> cmp_with_right e i <= 0 <-> cut_le (en_key e, true) (right_cut i).
Proof.
  intros Hk. unfold cmp_with_right, cut_le, cut_compare, right_cut, vy_entry_compare. cbn. specialize (Hk (en_key (iv_right i))).
  destruct (Z.eqb_spec (key_compare (en_key e) (en_key (iv_right i))) 0); cbn; [|done].
  destruct (iv_right_belongs i); cbn; lia.
Qed.

(** ** Conflicts *)

Fixpoint nodes t : list interval :=
  match t with RLeaf => [] | RNode l i _ r => nodes l ++ i :: nodes r end.
Fixpoint augmented t : Prop :=
  match t with
  | RLeaf => True
  | RNode l i last r => last = vy_lsm_read_set_aug i l r /\ augmented l /\ augmented r
  end.

(** The statements and intervals are told apart by their addresses. *)
Definition bounds i : list entry := [iv_left i; iv_right i].
Lemma elem_of_bounds (e : entry) i : e ∈ bounds i <-> e = iv_left i \/ e = iv_right i.
Proof. unfold bounds. rewrite elem_of_cons, list_elem_of_singleton. done. Qed.
Definition addressed l : Prop :=
  (forall i j, i ∈ l -> j ∈ l -> iv_addr i = iv_addr j -> i = j) /\
  (forall i j e e', i ∈ l -> j ∈ l -> e ∈ bounds i -> e' ∈ bounds j -> en_addr e = en_addr e' -> en_key e = en_key e').
Lemma addressed_incl l l' : (forall i, i ∈ l -> i ∈ l') -> addressed l' -> addressed l.
Proof. intros H [H1 H2]. split; [intros i j Hi Hj; by apply H1; apply H|]. intros i j e e' Hi Hj. apply H2; by apply H. Qed.

Definition left_sorted l : Prop := StronglySorted (fun i j => cut_le (left_cut i) (left_cut j)) l.

Lemma last_spec t last : augmented t -> last_of t = Some last ->
  last ∈ nodes t /\ Forall (fun i => cut_le (right_cut i) (right_cut last)) (nodes t).
Proof.
  revert last. induction t as [|l IHl i la r IHr]; intros last Ha E; [done|]. cbn in Ha, E. destruct Ha as (-> & Hl & Hr). injection E as <-.
  unfold vy_lsm_read_set_aug. set (m := match last_of l with Some x => _ | None => i end).
  assert (m ∈ nodes l ++ [i] /\ Forall (fun x => cut_le (right_cut x) (right_cut m)) (nodes l ++ [i])) as [Hm Hml].
  { subst m. destruct (last_of l) as [x|] eqn:El; [|destruct l; [|done]; cbn; split; [by left|by constructor]].
    destruct (IHl x Hl eq_refl) as [Hx Hf]. destruct (Z.ltb_spec 0 (vy_read_interval_cmpr x i)) as [H|H].
    - split; [apply elem_of_app; by left|]. apply Forall_app_2; [done|]. constructor; [|done]. apply cmpr_ge. lia.
    - split; [apply elem_of_app; right; by left|]. apply Forall_app_2; [|by constructor]. apply cmpr_le in H.
      eapply Forall_impl; [exact Hf|]. intros y Hy. cbn in Hy. by transitivity (right_cut x). }
  cbn [nodes]. rewrite cons_middle, app_assoc.
  destruct (last_of r) as [x|] eqn:Er; [|destruct r; [|done]; cbn; by rewrite app_nil_r].
  destruct (IHr x Hr eq_refl) as [Hx Hf]. destruct (Z.ltb_spec 0 (vy_read_interval_cmpr x m)) as [H|H].
  - split; [apply elem_of_app; by right|]. apply Forall_app_2; [|done].
    eapply Forall_impl; [exact Hml|]. intros y Hy. cbn in Hy. transitivity (right_cut m); [done|]. apply cmpr_ge. lia.
  - split; [apply elem_of_app; by left|]. apply Forall_app_2; [done|]. apply cmpr_le in H.
    eapply Forall_impl; [exact Hf|]. intros y Hy. cbn in Hy. by transitivity (right_cut x).
Qed.
(** A turn of the loop decides whether the node is a conflict, and leaves out
    subtrees without conflicts only. *)
Lemma visit_spec (e : entry) curr last hit go_left go_right :
  full (en_key e) -> proper curr -> cut_le (right_cut curr) (right_cut last) -> addressed [curr; last] ->
  conflict_visit e curr last = (hit, go_left, go_right) ->
  (hit = true <-> covers curr (en_key e)) /\
  (go_left = false -> ~ cut_le (en_key e, true) (right_cut last)) /\
  (go_right = false -> ~ cut_le (en_key e, true) (right_cut last) \/ ~ cut_le (left_cut curr) (en_key e, false)).
Proof.
  intros Hk Hp Hl [Ha Hb]. assert (curr ∈ [curr; last] /\ last ∈ [curr; last]) as [Hc Hla] by set_solver.
  pose proof (cmp_with_right_spec e last Hk) as Hr. unfold conflict_visit. destruct (Z.ltb_spec 0 (cmp_with_right e last)) as [H|H].
  { intros [= <- <- <-]. assert (~ cut_le (en_key e, true) (right_cut last)) by (rewrite <- Hr; lia).
    split_and!; [|done|by left]. split; [done|]. intros [_ Hc']. exfalso. apply H0. by transitivity (right_cut curr). }
  set (cl := if vy_entry_is_same _ (iv_right last) then _ else _).
  assert ((0 <= cl <-> cut_le (left_cut curr) (en_key e, false)) /\
    (0 <= cl -> iv_left_belongs curr = true -> cl = vy_entry_compare e (iv_left curr))) as [Hcl Hcv].
  { subst cl. rewrite <- (cmp_with_left_spec e curr Hk). unfold vy_entry_is_same. destruct (Z.eqb_spec (en_addr (iv_left curr)) (en_addr (iv_right last))) as [E|E].
    - specialize (Hb curr last _ _ Hc Hla ltac:(by left) ltac:(right; by left) E). unfold proper, left_cut, right_cut in *.
      unfold cmp_with_right, cmp_with_left, vy_entry_compare in *. rewrite <- Hb in *.
      destruct (Z.eqb_spec (key_compare (en_key e) (en_key (iv_left curr))) 0) as [Ec|Ec]; cbn in *; [|done]. rewrite Ec in *.
      destruct (iv_right_belongs last) eqn:Er; cbn in *; [|lia]. destruct (iv_left_belongs curr); cbn in *; [done|]. by destruct Hp.
    - split; [done|]. unfold cmp_with_left. intros H1 ->. by rewrite andb_false_r. }
  set (cr := if vy_entry_is_same _ _ then cl else _).
  assert (0 <= cl -> cr <= 0 <-> cut_le (en_key e, true) (right_cut curr)) as Hcr.
  { intros H1. subst cr. rewrite <- (cmp_with_right_spec e curr Hk). unfold vy_entry_is_same. destruct (Z.eqb_spec (en_addr (iv_left curr)) (en_addr (iv_right curr))) as [E|E].
    - specialize (Hb curr curr _ _ Hc Hc ltac:(by left) ltac:(right; by left) E). apply cut_lt_compare in Hp. revert Hp.
      unfold cut_compare, left_cut, right_cut. cbn. rewrite Hb, key_refl. cbn. intros Hp.
      destruct (iv_left_belongs curr), (iv_right_belongs curr) eqn:Er; cbn in Hp; try lia. rewrite Hcv by done.
      unfold cmp_with_right, vy_entry_compare. by rewrite Er, andb_false_r, Hb.
    - destruct (Z.eqb_spec (iv_addr curr) (iv_addr last)) as [E'|E']; cbn; [by rewrite (Ha curr last)|done]. }
  intros [= <- <- <-]. split_and!; [|done|].
  - unfold covers. rewrite andb_true_iff, !Z.leb_le, <- Hcl. split; intros [H1 H2]; (split; [done|by apply Hcr]).
  - intros H1. right. rewrite <- Hcl. boolp. lia.
Qed.

(** The walk stops exactly at the intervals that have the key. *)
Lemma conflicts_spec (e : entry) t :
  full (en_key e) -> augmented t -> left_sorted (nodes t) -> Forall proper (nodes t) -> addressed (nodes t) ->
  forall i, i ∈ vy_tx_conflicts e t <-> i ∈ nodes t /\ covers i (en_key e).
Proof.
  intros Hk. induction t as [|l IHl curr last r IHr]; intros Ha Hs Hp Hb i; cbn [vy_tx_conflicts nodes]; [set_solver|].
  destruct (last_spec (RNode l curr last r) last Ha eq_refl) as [Hla Hf]. cbn [nodes] in *. destruct Ha as (_ & Hl & Hr).
  assert (curr ∈ nodes l ++ curr :: nodes r) as Hc by set_solver.
  destruct (conflict_visit e curr last) as [[hit go_left] go_right] eqn:E.
  destruct (visit_spec e curr last hit go_left go_right) as (H1 & H2 & H3); [done| | | |done|].
  { rewrite Forall_forall in Hp. by apply Hp. }
  { rewrite Forall_forall in Hf. by apply Hf. }
  { eapply addressed_incl; [|exact Hb]. set_solver. }
  apply Forall_app in Hp as [Hpl Hp], Hf as [Hfl Hf]. apply Forall_cons in Hp as [_ Hpr], Hf as [_ Hfr].
  unfold left_sorted in Hs. apply StronglySorted_app in Hs as (Hs0 & Hsl & Hsr). apply StronglySorted_inv in Hsr as [Hsr Hcr].
  specialize (IHl Hl Hsl Hpl ltac:(eapply addressed_incl; [|exact Hb]; set_solver) i).
  specialize (IHr Hr Hsr Hpr ltac:(eapply addressed_incl; [|exact Hb]; set_solver) i).
  rewrite !elem_of_app, elem_of_cons.
  assert (i ∈ (if hit then [curr] else []) <-> i = curr /\ covers i (en_key e)) as ->.
  { destruct hit; [rewrite list_elem_of_singleton; naive_solver|]. split; [set_solver|]. intros [-> ?]. exfalso. assert (false = true) by (by apply H1). done. }
  assert (i ∈ (if go_left then vy_tx_conflicts e l else []) <-> i ∈ nodes l /\ covers i (en_key e)) as ->.
  { destruct go_left; [done|]. split; [set_solver|]. intros [Hi [_ Hi']]. exfalso. apply H2; [done|]. rewrite Forall_forall in Hfl. specialize (Hfl i Hi). by transitivity (right_cut i). }
  assert (i ∈ (if go_right then vy_tx_conflicts e r else []) <-> i ∈ nodes r /\ covers i (en_key e)) as ->.
  { destruct go_right; [done|]. split; [set_solver|]. intros [Hi [Hi1 Hi2]]. exfalso. rewrite Forall_forall in Hfr, Hcr. specialize (Hfr i Hi). specialize (Hcr i Hi).
    destruct (H3 eq_refl) as [H|H]; apply H; [by transitivity (right_cut i)|by transitivity (left_cut i)]. }
  naive_solver.
Qed.

(** ** Tracking *)

(** The intervals of a transaction are apart from each other. *)
Definition apart i j : Prop := cut_lt (right_cut i) (left_cut j).
Definition set_ok l : Prop := StronglySorted apart l /\ Forall proper l.

Lemma set_ok_app l l' : set_ok (l ++ l') <-> set_ok l /\ set_ok l' /\ (forall i j, i ∈ l -> j ∈ l' -> apart i j).
Proof. unfold set_ok. rewrite Forall_app, StronglySorted_app. naive_solver. Qed.
Lemma apart_left i j : proper i -> apart i j -> cut_lt (left_cut i) (left_cut j).
Proof. apply cut_lt_trans. Qed.
Lemma apart_right i j : proper j -> apart i j -> cut_lt (right_cut i) (right_cut j).
Proof. intros H H'. eapply cut_lt_trans; [exact H'|exact H]. Qed.

Lemma split_spec new l : set_ok l -> exists le gt, set_split new l = (le, gt) /\ l = le ++ gt /\
  (forall i, i ∈ le -> cut_le (left_cut i) (left_cut new)) /\ (forall i, i ∈ gt -> cut_lt (left_cut new) (left_cut i)).
Proof.
  induction l as [|j l IH]; intros Hok; [by exists [], []; split_and!; [..|set_solver|set_solver]|]. cbn [set_split].
  destruct Hok as [Hs Hp]. apply StronglySorted_inv in Hs as [Hs Hf]. apply Forall_cons in Hp as [Hpj Hp].
  destruct (Z.leb_spec (vy_read_interval_cmpl j new) 0) as [H|H].
  - destruct IH as (le & gt & -> & -> & H1 & H2); [done|]. exists (j :: le), gt. split_and!; [done|done| |done].
    intros i Hi. apply elem_of_cons in Hi as [->|Hi]; [by apply cmpl_le|by apply H1].
  - exists [], (j :: l). split_and!; [done|done|set_solver|]. assert (cut_lt (left_cut new) (left_cut j)) as Hj by (intros Hc; apply cmpl_le in Hc; lia).
    intros i Hi. apply elem_of_cons in Hi as [->|Hi]; [done|]. rewrite Forall_forall in Hf. eapply cut_lt_trans; [exact Hj|]. by apply apart_left, Hf.
Qed.

Lemma merge_right_spec new gt : set_ok gt -> (forall i, i ∈ gt -> cut_lt (left_cut new) (left_cut i)) ->
  exists ms rest, merge_right new gt = Some ms /\ gt = ms ++ rest /\
    (forall i, i ∈ ms -> cut_le (left_cut i) (right_cut new)) /\ (forall i, i ∈ rest -> apart new i).
Proof.
  induction gt as [|j gt IH]; intros Hok Hl; [by exists [], []; split_and!; [..|set_solver|set_solver]|]. cbn [merge_right].
  destruct (should_merge_spec new j) as (m & -> & Hm); [apply cut_lt_le, Hl; by left|]. cbn.
  destruct Hok as [Hs Hp]. apply StronglySorted_inv in Hs as [Hs Hf]. apply Forall_cons in Hp as [Hpj Hp]. destruct m.
  - destruct IH as (ms & rest & -> & -> & H1 & H2); [done|intros i Hi; apply Hl; by right|]. cbn. exists (j :: ms), rest.
    split_and!; [done|done| |done]. intros i Hi. apply elem_of_cons in Hi as [->|Hi]; [by apply Hm|by apply H1].
  - exists [], (j :: gt). split_and!; [done|done|set_solver|]. assert (apart new j) as Hj by (intros Hc; apply Hm in Hc; done).
    intros i Hi. apply elem_of_cons in Hi as [->|Hi]; [done|]. rewrite Forall_forall in Hf. eapply cut_lt_trans; [exact Hj|]. by apply apart_left, Hf.
Qed.

(** There is no key between the new interval and one to be merged with it. *)
Definition touches new i : Prop := cut_le (left_cut i) (right_cut new) /\ cut_le (left_cut new) (right_cut i).

Lemma track_merge_spec new l : set_ok l -> proper new ->
  (track_merge new l = Some None /\ exists i, i ∈ l /\ cut_le (left_cut i) (left_cut new) /\ cut_le (right_cut new) (right_cut i)) \/
  (exists pre merge rest, track_merge new l = Some (Some merge) /\ l = pre ++ merge ++ rest /\
    Forall (touches new) merge /\ (forall i, i ∈ pre -> apart i new) /\ (forall i, i ∈ rest -> apart new i)).
Proof.
  intros Hok Hp. unfold track_merge. destruct (split_spec new l Hok) as (le & gt & -> & -> & Hle & Hgt).
  apply set_ok_app in Hok as (Hok1 & Hok2 & Hap). destruct (merge_right_spec new gt Hok2 Hgt) as (ms & rest & -> & -> & Hms & Hrest).
  assert (Forall (touches new) ms) as Ht.
  { apply Forall_forall. intros i Hi. split; [by apply Hms|]. assert (i ∈ ms ++ rest) as Hi' by set_solver. transitivity (left_cut i); [by apply cut_lt_le, Hgt|].
    destruct Hok2 as [_ Hp2]. rewrite Forall_forall in Hp2. by apply cut_lt_le, Hp2. }
  destruct le as [|i le _] using rev_ind; [right; exists [], ms, rest; cbn; split_and!; try done; set_solver|].
  rewrite last_snoc. destruct (Z.leb_spec 0 (vy_read_interval_cmpr i new)) as [H|H].
  { left. split; [done|]. exists i. split_and!; [set_solver|apply Hle; set_solver|by apply cmpr_ge]. }
  right. destruct (should_merge_spec i new) as (m & -> & Hm); [apply Hle; set_solver|]. cbn.
  apply set_ok_app in Hok1 as (Hokl & Hoki & Hapl). destruct Hoki as [_ Hpi]. apply Forall_inv in Hpi.
  assert (cut_le (right_cut i) (right_cut new)) as Hr by (apply cmpr_le; lia).
  assert (forall x, x ∈ le -> apart x new) as Hx.
  { intros x Hx. specialize (Hapl x i Hx ltac:(by left)). eapply cut_lt_le_trans; [exact Hapl|]. apply Hle. set_solver. }
  destruct m.
  - exists le, (i :: ms), rest. split_and!; [done|by rewrite <- app_assoc| |done|done]. constructor; [|done]. split; [|by apply Hm].
    transitivity (right_cut i); [by apply cut_lt_le|done].
  - exists (le ++ [i]), ms, rest. split_and!; [done|done|done| |done]. intros x Hx'. apply elem_of_app in Hx' as [Hx'|Hx']; [by apply Hx|].
    apply list_elem_of_singleton in Hx' as ->. intros Hc. apply Hm in Hc. done.
Qed.

(** The new interval has grown to the bounds of those merged with it. *)
Record widened new merge m : Prop := {
  gr_addr : iv_addr m = iv_addr new;
  gr_tx : iv_tx m = iv_tx new;
  gr_from : forall e, e ∈ bounds m -> exists i, i ∈ new :: merge /\ e ∈ bounds i;
  gr_left : exists i, i ∈ new :: merge /\ left_cut m = left_cut i;
  gr_right : exists i, i ∈ new :: merge /\ right_cut m = right_cut i;
  gr_min : forall i, i ∈ new :: merge -> cut_le (left_cut m) (left_cut i);
  gr_max : forall i, i ∈ new :: merge -> cut_le (right_cut i) (right_cut m);
}.
Lemma set_ok_first i l : set_ok (i :: l) -> forall j, j ∈ i :: l -> cut_le (left_cut i) (left_cut j).
Proof.
  intros [Hs Hp] j Hj. apply StronglySorted_inv in Hs as [_ Hf]. apply Forall_inv in Hp. rewrite Forall_forall in Hf.
  apply elem_of_cons in Hj as [->|Hj]; [done|]. by apply cut_lt_le, apart_left, Hf.
Qed.
Lemma set_ok_last i l : set_ok (l ++ [i]) -> forall j, j ∈ l ++ [i] -> cut_le (right_cut j) (right_cut i).
Proof.
  intros (_ & [_ Hp] & Ha)%set_ok_app j Hj. apply Forall_inv in Hp. apply elem_of_app in Hj as [Hj|Hj].
  - apply cut_lt_le, apart_right; [done|]. apply Ha; [done|by left].
  - by apply list_elem_of_singleton in Hj as ->.
Qed.
Lemma merge_bounds_spec new merge : set_ok merge -> widened new merge (merge_bounds new merge).
Proof.
  intros Hok. destruct merge as [|x l _] using rev_ind.
  { cbn. split; try done; try (exists new; split; [by left|done]); intros i Hi; try (by apply list_elem_of_singleton in Hi as ->). }
  pose proof (set_ok_last x l Hok) as Hl. destruct (l ++ [x]) as [|f r] eqn:E; [by destruct l|]. pose proof (set_ok_first f r Hok) as Hf.
  assert (f ∈ f :: r /\ x ∈ f :: r) as [Hfi Hxi] by (split; [by left|]; rewrite <- E; apply elem_of_app; right; by left).
  unfold merge_bounds. assert (last (f :: r) = Some x) as -> by (by rewrite <- E, last_snoc).
  set (n := if 0 <? _ then _ else new). set (m := if _ <? 0 then _ else n).
  assert (left_cut n = left_cut f /\ cut_le (left_cut f) (left_cut new) /\ iv_left n = iv_left f \/
          left_cut n = left_cut new /\ cut_le (left_cut new) (left_cut f) /\ iv_left n = iv_left new) as Hn.
  { subst n. destruct (Z.ltb_spec 0 (vy_read_interval_cmpl new f)) as [H|H]; [left|right].
    - split_and!; [done| |done]. apply cmpl_flip in H. apply cmpl_le. lia.
    - split_and!; [done|by apply cmpl_le|done]. }
  assert (right_cut n = right_cut new /\ iv_right n = iv_right new /\ iv_addr n = iv_addr new /\ iv_tx n = iv_tx new) as (Hn2 & Hn3 & Hn4 & Hn5).
  { subst n. by destruct (0 <? _). }
  assert (left_cut m = left_cut n /\ iv_left m = iv_left n /\ iv_addr m = iv_addr n /\ iv_tx m = iv_tx n) as (Hm & Hm3 & Hm4 & Hm5).
  { subst m. by destruct (_ <? 0). }
  assert (right_cut m = right_cut x /\ cut_le (right_cut new) (right_cut x) /\ iv_right m = iv_right x \/
          right_cut m = right_cut new /\ cut_le (right_cut x) (right_cut new) /\ iv_right m = iv_right new) as Hm2.
  { subst m. rewrite <- Hn2, <- Hn3. destruct (Z.ltb_spec (vy_read_interval_cmpr n x) 0) as [H|H]; [left|right].
    - split_and!; [done| |done]. apply cmpr_le. lia.
    - split_and!; [done| |done]. by apply cmpr_ge. }
  clearbody m n. split; try congruence.
  - intros e He. unfold bounds in He. rewrite Hm3 in He.
    assert (e = iv_left new \/ e = iv_left f \/ e = iv_right new \/ e = iv_right x) as He'.
    { apply elem_of_cons in He as [->|He]; [destruct Hn as [(_ & _ & ->)|(_ & _ & ->)]; tauto|].
      apply list_elem_of_singleton in He as ->. destruct Hm2 as [(_ & _ & ->)|(_ & _ & ->)]; tauto. }
    destruct He' as [->|[->|[->| ->]]]; [exists new|exists f|exists new|exists x]; (split; [|unfold bounds; (by left) || (by right; left)]); (by left) || (by right).
  - destruct Hn as [(Hn & _)|(Hn & _)]; [exists f|exists new]; (split; [(by left) || (by right)|congruence]).
  - destruct Hm2 as [(Hn' & _)|(Hn' & _)]; [exists x|exists new]; (split; [(by left) || (by right)|congruence]).
  - intros i Hi. rewrite Hm. apply elem_of_cons in Hi as [->|Hi]; [by destruct Hn as [(-> & ? & _)|(-> & ? & _)]|].
    specialize (Hf i Hi). destruct Hn as [(-> & ? & _)|(-> & ? & _)]; [done|by transitivity (left_cut f)].
  - intros i Hi. apply elem_of_cons in Hi as [->|Hi]; [by destruct Hm2 as [(-> & ? & _)|(-> & ? & _)]|].
    specialize (Hl i Hi). destruct Hm2 as [(-> & ? & _)|(-> & ? & _)]; [done|by transitivity (right_cut x)].
Qed.

(** It covers what they did, and no more. *)
Lemma widened_covers new merge m k : widened new merge m -> Forall (touches new) merge -> full k ->
  covers m k <-> covers new k \/ covered merge k.
Proof.
  intros Hg Ht Hk. unfold covered. rewrite Exists_exists. rewrite Forall_forall in Ht. split.
  - intros [Hl Hr]. destruct (full_cut k (left_cut new) Hk) as [H1|H1].
    + destruct (gr_left _ _ _ Hg) as (i & Hi & E). rewrite E in Hl. apply elem_of_cons in Hi as [->|Hi].
      * destruct (cut_before_after k). by transitivity (left_cut new).
      * right. exists i. split; [done|]. split; [done|]. transitivity (left_cut new); [done|by apply Ht].
    + destruct (full_cut k (right_cut new) Hk) as [H2|H2]; [by left|].
      destruct (gr_right _ _ _ Hg) as (i & Hi & E). rewrite E in Hr. apply elem_of_cons in Hi as [->|Hi]; [by left|].
      right. exists i. split; [done|]. split; [|done]. transitivity (right_cut new); [by apply Ht|done].
  - assert (forall i, i ∈ new :: merge -> covers i k -> covers m k) as H.
    { intros i Hi [H1 H2]. split; [transitivity (left_cut i); [by eapply gr_min|done]|transitivity (right_cut i); [done|by eapply gr_max]]. }
    intros [H'|(i & Hi & H')]; [apply (H new); [by left|done]|apply (H i); [by right|done]].
Qed.

(** ** The read sets *)

Lemma removed_spec merge l i : i ∈ foldl (fun l i => set_remove i l) l merge <-> i ∈ l /\ Forall (fun j => iv_addr i <> iv_addr j) merge.
Proof.
  revert l. induction merge as [|j merge IH]; intros l; cbn [foldl]; [split; [by intros; split|by intros []]|].
  rewrite IH. unfold set_remove. rewrite list_elem_of_filter, Forall_cons. naive_solver.
Qed.
Lemma removed_app merge l l' :
  foldl (fun l i => set_remove i l) (l ++ l') merge = foldl (fun l i => set_remove i l) l merge ++ foldl (fun l i => set_remove i l) l' merge.
Proof. revert l l'. induction merge as [|j merge IH]; intros l l'; cbn [foldl]; [done|]. unfold set_remove at 2. by rewrite filter_app, IH. Qed.
Lemma removed_sublist merge l : sublist (foldl (fun l i => set_remove i l) l merge) l.
Proof. revert l. induction merge as [|j merge IH]; intros l; cbn [foldl]; [done|]. etransitivity; [apply IH|]. apply sublist_filter. Qed.
Lemma removed_other merge l : (forall i j, i ∈ l -> j ∈ merge -> iv_addr i <> iv_addr j) -> foldl (fun l i => set_remove i l) l merge = l.
Proof.
  revert l. induction merge as [|j merge IH]; intros l H; cbn [foldl]; [done|]. unfold set_remove at 2.
  rewrite filter_all_in; [apply IH; intros i i' Hi Hi'; apply H; [done|by right]|]. intros i Hi. apply H; [done|by left].
Qed.

Lemma set_insert_elem cmp i l j : j ∈ set_insert cmp i l <-> j = i \/ j ∈ l.
Proof. induction l as [|x l IH]; cbn [set_insert]; [set_solver|]. destruct (_ <? 0); rewrite !elem_of_cons; [tauto|]. rewrite IH. tauto. Qed.
Lemma set_insert_place i pre rest :
  (forall j, j ∈ pre -> cut_le (left_cut j) (left_cut i)) -> (forall j, j ∈ rest -> cut_lt (left_cut i) (left_cut j)) ->
  set_insert vy_read_interval_cmpl i (pre ++ rest) = pre ++ i :: rest.
Proof.
  induction pre as [|j pre IH]; intros H1 H2; cbn [app set_insert].
  - destruct rest as [|j rest]; [done|]. cbn. assert (cut_lt (left_cut i) (left_cut j)) as H by (apply H2; by left).
    destruct (Z.ltb_spec (vy_read_interval_cmpl i j) 0) as [|Hc]; [done|]. destruct H. apply cmpl_le. pose proof (cmpl_flip j i). lia.
  - assert (cut_le (left_cut j) (left_cut i)) as H by (apply H1; by left). apply cmpl_le in H.
    destruct (Z.ltb_spec (vy_read_interval_cmpl i j) 0) as [Hc|_]; [pose proof (cmpl_flip j i); lia|]. rewrite IH; [done| |done]. intros x Hx. apply H1. by right.
Qed.
Lemma set_insert_sorted i l : left_sorted l -> left_sorted (set_insert vy_lsm_read_set_cmp i l).
Proof.
  unfold left_sorted. induction 1 as [|j l Hs IH Hf]; cbn [set_insert]; [repeat constructor|].
  destruct (Z.ltb_spec (vy_lsm_read_set_cmp i j) 0) as [H|H].
  - assert (cut_le (left_cut i) (left_cut j)) as Hij.
    { apply cmpl_le. revert H. unfold vy_lsm_read_set_cmp. destruct (Z.eqb_spec (vy_read_interval_cmpl i j) 0) as [E|E]; lia. }
    constructor; [by constructor|]. constructor; [done|]. eapply Forall_impl; [exact Hf|]. intros x Hx. cbn in Hx. by transitivity (left_cut j).
  - assert (cut_le (left_cut j) (left_cut i)) as Hij.
    { apply cmpl_le. pose proof (cmpl_flip j i). pose proof (cmpl_flip i j). revert H. unfold vy_lsm_read_set_cmp. destruct (Z.eqb_spec (vy_read_interval_cmpl i j) 0) as [E|E]; lia. }
    constructor; [done|]. apply Forall_forall. intros x Hx. apply set_insert_elem in Hx as [->|Hx]; [done|]. rewrite Forall_forall in Hf. by apply Hf.
Qed.

(** The intervals of all the transactions, with addresses below [next], and
    those of the transaction [id]. *)
Record lsm_set_ok (next : Z) l : Prop := {
  lr_sorted : left_sorted l;
  lr_proper : Forall proper l;
  lr_addressed : addressed l;
  lr_fresh : Forall (fun i => iv_addr i < next /\ Forall (fun e => en_addr e < next) (bounds i)) l;
}.
Definition own_set (id : Z) l lsm : Prop := set_ok l /\ forall i, i ∈ l <-> i ∈ lsm /\ iv_tx i = id.

(** A new interval on entries that no interval has yet. *)
Record new_interval (next next' : Z) new : Prop := {
  ni_proper : proper new;
  ni_addr : next <= iv_addr new < next';
  ni_bounds : Forall (fun e => next <= en_addr e < next') (bounds new);
  ni_same : en_addr (iv_left new) = en_addr (iv_right new) -> en_key (iv_left new) = en_key (iv_right new);
}.

Lemma addressed_new next next' new l : lsm_set_ok next l -> new_interval next next' new -> addressed (new :: l).
Proof.
  intros [_ _ [H1 H2] Hf] [_ Ha Hb Hs]. rewrite Forall_forall in Hf. rewrite Forall_forall in Hb. split.
  - intros i j [->|Hi]%elem_of_cons [->|Hj]%elem_of_cons E; [done| | |by apply H1].
    + destruct (Hf j Hj). lia.
    + destruct (Hf i Hi). lia.
  - assert (forall i e, i ∈ l -> e ∈ bounds i -> en_addr e < next) as Hl.
    { intros i e Hi He. destruct (Hf i Hi) as [_ Hf']. rewrite Forall_forall in Hf'. by apply Hf'. }
    intros i j e e' [->|Hi]%elem_of_cons [->|Hj]%elem_of_cons He He' E.
    + apply elem_of_bounds in He as [-> | ->], He' as [-> | ->]; auto. symmetry. by apply Hs.
    + specialize (Hl j e' Hj He'). specialize (Hb e He). lia.
    + specialize (Hl i e Hi He). specialize (Hb e' He'). lia.
    + exact (H2 i j e e' Hi Hj He He' E).
Qed.
Lemma widened_proper new merge m : proper new -> widened new merge m -> proper m.
Proof.
  intros Hp Hg. eapply cut_le_lt; [eapply gr_min; [exact Hg|by left]|]. eapply cut_lt_le_trans; [exact Hp|]. eapply gr_max; [exact Hg|by left].
Qed.

(** The new read set of the transaction. *)
Lemma tracked_set_ok new merge m pre rest : set_ok (pre ++ merge ++ rest) -> proper m -> widened new merge m ->
  (forall i, i ∈ pre -> apart i new) -> (forall i, i ∈ rest -> apart new i) -> set_ok (pre ++ m :: rest).
Proof.
  intros Hok Hp Hg Hpre Hrest. apply set_ok_app in Hok as (Hok1 & Hok2 & Hap). apply set_ok_app in Hok2 as (Hokm & Hok2 & Hap2).
  assert (forall i, i ∈ pre -> apart i m) as H1.
  { intros i Hi. destruct (gr_left _ _ _ Hg) as (j & Hj & E). unfold apart. rewrite E. apply elem_of_cons in Hj as [->|Hj]; [by apply Hpre|].
    apply Hap; [done|]. apply elem_of_app. by left. }
  assert (forall i, i ∈ rest -> apart m i) as H2.
  { intros i Hi. destruct (gr_right _ _ _ Hg) as (j & Hj & E). unfold apart. rewrite E. apply elem_of_cons in Hj as [->|Hj]; [by apply Hrest|]. by apply Hap2. }
  apply set_ok_app. split_and!; [done| |].
  - split; [|constructor; [done|apply Hok2]]. constructor; [apply Hok2|]. by apply Forall_forall.
  - intros i j Hi [->|Hj]%elem_of_cons; [by apply H1|]. apply Hap; [done|]. apply elem_of_app. by right.
Qed.

Lemma apart_irrefl i : proper i -> ~ apart i i.
Proof. intros Hp Ha. apply Hp. by apply cut_lt_le. Qed.
Lemma apart_addr l i j : addressed l -> i ∈ l -> j ∈ l -> proper i -> apart i j \/ apart j i -> iv_addr i <> iv_addr j.
Proof. intros [Ha _] Hi Hj Hp H E. assert (i = j) as <- by (by apply Ha). destruct (apart_irrefl i Hp). tauto. Qed.

Lemma removed_own lsm pre merge rest : addressed lsm -> (forall i, i ∈ pre ++ merge ++ rest -> i ∈ lsm) -> set_ok (pre ++ merge ++ rest) ->
  foldl (fun l i => set_remove i l) (pre ++ merge ++ rest) merge = pre ++ rest.
Proof.
  intros Ha Hin Hok. rewrite !removed_app. apply set_ok_app in Hok as ([_ Hpp] & Hok2 & Hap). apply set_ok_app in Hok2 as ([_ Hpm] & [_ Hpr] & Hap2).
  rewrite Forall_forall in Hpp, Hpm, Hpr. rewrite (removed_other merge pre), (removed_other merge rest).
  - f_equal. destruct (foldl _ merge merge) as [|x l] eqn:E; [done|]. exfalso.
    assert (x ∈ foldl (fun l i => set_remove i l) merge merge) as Hx by (rewrite E; by left). apply removed_spec in Hx as [Hx Hf].
    rewrite Forall_forall in Hf. by destruct (Hf x Hx).
  - intros i j Hi Hj. eapply apart_addr; [exact Ha|apply Hin; set_solver|apply Hin; set_solver|by apply Hpr|right; by apply Hap2].
  - intros i j Hi Hj. eapply apart_addr; [exact Ha|apply Hin; set_solver|apply Hin; set_solver|by apply Hpp|left; apply Hap; [done|set_solver]].
Qed.

(** The intervals of the LSM tree after some were replaced by [m]. *)
Lemma replaced_read_set next next' new merge m lsm :
  lsm_set_ok next lsm -> new_interval next next' new -> (forall i, i ∈ merge -> i ∈ lsm) -> widened new merge m ->
  lsm_set_ok next' (set_insert vy_lsm_read_set_cmp m (foldl (fun l i => set_remove i l) lsm merge)).
Proof.
  intros Hlsm Hnew Hin Hg. pose proof (addressed_new _ _ _ _ Hlsm Hnew) as [Had1 Had2]. destruct Hlsm as [Hs Hp Ha Hf].
  assert (forall i, i ∈ set_insert vy_lsm_read_set_cmp m (foldl (fun l i => set_remove i l) lsm merge) -> i = m \/ i ∈ lsm) as Hm.
  { intros i [->|[Hi _]%removed_spec]%set_insert_elem; tauto. }
  assert (forall i e, i = m \/ i ∈ lsm -> e ∈ bounds i -> exists j, j ∈ new :: lsm /\ e ∈ bounds j) as Hb.
  { intros i e [->|Hi] He; [|exists i; split; [by right|done]]. destruct (gr_from _ _ _ Hg e He) as (j & [->|Hj]%elem_of_cons & Hj'); [exists new; split; [by left|done]|].
    exists j. split; [right; by apply Hin|done]. }
  rewrite Forall_forall in Hf. split.
  - apply set_insert_sorted. unfold left_sorted in *. eapply sublist_sorted; [apply removed_sublist|done].
  - apply Forall_forall. intros i [->|Hi]%Hm; [by eapply widened_proper; [apply Hnew|]|]. rewrite Forall_forall in Hp. by apply Hp.
  - split.
    + pose proof (gr_addr _ _ _ Hg). intros i j [->|Hi]%Hm [->|Hj]%Hm E; [done| | |apply Had1; [by right|by right|done]].
      * destruct (Hf j Hj). destruct (ni_addr _ _ _ Hnew). lia.
      * destruct (Hf i Hi). destruct (ni_addr _ _ _ Hnew). lia.
    + intros i j e e' Hi%Hm Hj%Hm He He' E. destruct (Hb i e Hi He) as (i' & Hi' & He1). destruct (Hb j e' Hj He') as (j' & Hj' & He2). exact (Had2 i' j' e e' Hi' Hj' He1 He2 E).
  - destruct (ni_addr _ _ _ Hnew). pose proof (gr_addr _ _ _ Hg). apply Forall_forall. intros i Hi%Hm. split.
    + destruct Hi as [->|Hi]; [lia|]. destruct (Hf i Hi). lia.
    + apply Forall_forall. intros e He. destruct (Hb i e Hi He) as (j & [->|Hj]%elem_of_cons & Hj').
      * pose proof (ni_bounds _ _ _ Hnew) as H'. rewrite Forall_forall in H'. destruct (H' e Hj'). done.
      * destruct (Hf j Hj) as [_ H']. rewrite Forall_forall in H'. specialize (H' e Hj'). lia.
Qed.

(** Tracking an interval adds exactly its keys to those the transaction has
    read, and leaves the intervals of other transactions alone. *)
Lemma track_spec next next' id new l lsm :
  lsm_set_ok next lsm -> own_set id l lsm -> new_interval next next' new -> iv_tx new = id ->
  exists l' lsm', track_interval new l lsm = Some (l', lsm') /\ lsm_set_ok next' lsm' /\ own_set id l' lsm' /\
    (forall k, full k -> covered l' k <-> covered l k \/ covers new k) /\
    (forall i, iv_tx i <> id -> i ∈ lsm' <-> i ∈ lsm).
Proof.
  intros Hlsm [Hok Hown] Hnew Htx. unfold track_interval. assert (next <= next') as Hnext by (destruct (ni_addr _ _ _ Hnew); lia).
  destruct (track_merge_spec new l Hok (ni_proper _ _ _ Hnew)) as [(-> & i & Hi & Hi1 & Hi2)|(pre & merge & rest & -> & -> & Ht & Hpre & Hrest)].
  - exists l, lsm. cbn. destruct Hlsm as [Hs Hp Ha Hf]. split_and!; [done| |done| |done].
    + split; try done. eapply Forall_impl; [exact Hf|]. intros j [Hj Hj']. split; [lia|]. eapply Forall_impl; [exact Hj'|]. cbn. lia.
    + intros k Hk. split; [tauto|]. intros [H|[H1 H2]]; [done|]. apply Exists_exists. exists i. split; [done|].
      split; [by transitivity (left_cut new)|by transitivity (right_cut new)].
  - cbn. pose proof Hok as (_ & (Hokm & _ & _)%set_ok_app & _)%set_ok_app. pose proof (merge_bounds_spec new merge Hokm) as Hg.
    set (m := merge_bounds new merge) in *. pose proof (widened_proper _ _ _ (ni_proper _ _ _ Hnew) Hg) as Hpm.
    pose proof (tracked_set_ok _ _ _ _ _ Hok Hpm Hg Hpre Hrest) as Hok'.
    assert (forall i, i ∈ merge -> i ∈ lsm /\ iv_tx i = id) as Hin by (intros i Hi; apply Hown; set_solver).
    pose proof (removed_own lsm pre merge rest (lr_addressed _ _ Hlsm) ltac:(intros i Hi; by apply Hown) Hok) as Er. rewrite Er.
    pose proof Hok' as (Hok1 & [_ Hpr] & Hap)%set_ok_app. rewrite set_insert_place.
    + eexists _, _. split; [reflexivity|]. split_and!.
      * eapply replaced_read_set; [done|done|by intros i Hi; apply Hin|done].
      * split; [done|]. intros i. rewrite set_insert_elem, cons_middle, !elem_of_app, list_elem_of_singleton.
        assert (i ∈ pre \/ i ∈ rest <-> i ∈ foldl (fun l i => set_remove i l) lsm merge /\ iv_tx i = id) as H.
        { rewrite <- elem_of_app, <- Er, !removed_spec, Hown. tauto. }
        pose proof (gr_tx _ _ _ Hg). split; [intros [?|[->|?]]; [tauto|split; [tauto|congruence]|tauto]|]. intros [[->|?] ?]; tauto.
      * intros k Hk. unfold covered. rewrite !Exists_app, Exists_cons, (widened_covers new merge m k) by done. unfold covered. tauto.
      * intros i Hi. rewrite set_insert_elem, removed_spec. pose proof (gr_tx _ _ _ Hg). split; [intros [->|[? _]]; congruence|]. intros Hi'. right. split; [done|].
        apply Forall_forall. intros j Hj E. destruct (Hin j Hj) as [Hj1 Hj2]. assert (i = j) as -> by (by apply (lr_addressed _ _ Hlsm)). done.
    + intros j Hj. apply cut_lt_le, apart_left; [|apply Hap; [done|by left]]. destruct Hok1 as [_ Hok1]. rewrite Forall_forall in Hok1. by apply Hok1.
    + intros j Hj. apply apart_left; [done|]. pose proof Hok' as (_ & [Hs _] & _)%set_ok_app. apply StronglySorted_inv in Hs as [_ Hs]. rewrite Forall_forall in Hs. by apply Hs.
Qed.

(** ** Reads and conflicts *)

(** What transactions have asked to be tracked: a key, or the keys between two
    bounds. *)
Inductive read_request :=
  | PointRead (tx : Z) (k : K)
  | RangeRead (tx : Z) (left : K) (left_belongs : bool) (right : K) (right_belongs : bool).
Definition request_tx (rq : read_request) : Z := match rq with PointRead tx _ | RangeRead tx _ _ _ _ => tx end.
(** The interval that is made for a request: its entries have addresses of
    their own. *)
Definition request_interval (next : Z) (rq : read_request) : interval :=
  match rq with
  | PointRead tx k => mk_interval next tx (mk_entry (next + 1) k) (mk_entry (next + 1) k) true true
  | RangeRead tx l lb r rb => mk_interval next tx (mk_entry (next + 1) l) (mk_entry (next + 2) r) lb rb
  end.
Definition reads rq k : Prop := covers (request_interval 0 rq) k.

Record tracker := mk_tracker { tr_next : Z; tr_own : gmap Z (list interval); tr_lsm : list interval }.
Definition tr_set (s : tracker) (id : Z) : list interval := default [] (tr_own s !! id).
Definition track_request (s : tracker) rq : option tracker :=
  let id := request_tx rq in
  '(own, lsm) ← track_interval (request_interval (tr_next s) rq) (tr_set s id) (tr_lsm s);
  Some (mk_tracker (tr_next s + 3) (<[id := own]> (tr_own s)) lsm).
Fixpoint track_requests (s : tracker) (rqs : list read_request) : option tracker :=
  match rqs with
  | [] => Some s
  | rq :: rqs => s ← track_request s rq; track_requests s rqs
  end.
Definition tracker_new : tracker := mk_tracker 0 ∅ [].

Definition tracker_ok (s : tracker) : Prop :=
  lsm_set_ok (tr_next s) (tr_lsm s) /\ forall id, own_set id (tr_set s id) (tr_lsm s).
Definition sees (s : tracker) (id : Z) k : Prop := covered (tr_set s id) k.

Lemma request_covers next rq k : covers (request_interval next rq) k <-> reads rq k.
Proof. by destruct rq. Qed.
Lemma request_new next rq : proper (request_interval 0 rq) -> new_interval next (next + 3) (request_interval next rq).
Proof.
  intros Hp. destruct rq as [tx k|tx l lb r rb]; split; cbn; try done; try lia; try (repeat constructor; cbn; lia).
Qed.
Lemma track_request_ok s rq : tracker_ok s -> proper (request_interval 0 rq) ->
  exists s', track_request s rq = Some s' /\ tracker_ok s' /\
    forall id k, full k -> sees s' id k <-> sees s id k \/ request_tx rq = id /\ reads rq k.
Proof.
  intros [H1 H2] Hp. unfold track_request. set (id := request_tx rq).
  destruct (track_spec (tr_next s) (tr_next s + 3) id (request_interval (tr_next s) rq) (tr_set s id) (tr_lsm s))
    as (own & lsm & -> & Hl & Ho & Hc & Hr); [done|apply H2|by apply request_new|by destruct rq|]. cbn.
  eexists. split; [reflexivity|]. split; [split; [done|]|].
  - intros id'. unfold tr_set. cbn. destruct (decide (id' = id)) as [->|Hne]; [by rewrite lookup_insert_eq|].
    rewrite lookup_insert_ne by done. destruct (H2 id') as [H3 H4]. split; [done|]. intros i. unfold tr_set in H4. rewrite H4.
    split; intros [H5 H6]; (split; [|done]); apply Hr; congruence.
  - intros id' k Hk. unfold sees, tr_set. cbn. destruct (decide (id' = id)) as [->|Hne].
    + rewrite lookup_insert_eq. cbn. rewrite Hc by done. rewrite request_covers. tauto.
    + rewrite lookup_insert_ne by done. split; [tauto|]. intros [?|[? _]]; congruence.
Qed.
Lemma track_requests_ok rqs s : tracker_ok s -> Forall (fun rq => proper (request_interval 0 rq)) rqs ->
  exists s', track_requests s rqs = Some s' /\ tracker_ok s' /\
    forall id k, full k -> sees s' id k <-> sees s id k \/ Exists (fun rq => request_tx rq = id /\ reads rq k) rqs.
Proof.
  revert s. induction rqs as [|rq rqs IH]; intros s Hs Hp; cbn [track_requests].
  { exists s. split_and!; [done|done|]. intros id k _. rewrite Exists_nil. tauto. }
  apply Forall_cons in Hp as [Hp Hps]. destruct (track_request_ok s rq Hs Hp) as (s1 & -> & Hs1 & Hc). cbn.
  destruct (IH s1 Hs1 Hps) as (s2 & -> & Hs2 & Hc2). exists s2. split_and!; [done|done|]. intros id k Hk. rewrite Hc2, Hc, Exists_cons by done. tauto.
Qed.
Lemma tracker_new_ok : tracker_ok tracker_new.
Proof.
  split; [split; cbn; [constructor|done|split; set_solver|done]|]. intros id. unfold tr_set, tracker_new. cbn. rewrite lookup_empty. cbn.
  split; [split; constructor|]. set_solver.
Qed.

(** C12: after any sequence of point and range reads by any transactions, with
    full or partial keys as bounds, no assertion of the read sets has failed
    and the conflicts of a statement, looked for in the interval tree of the
    LSM tree whatever the shape of the tree, are exactly the transactions that
    have read its key. *)
Theorem read_conflicts_exact (rqs : list read_request) (e : entry) :
  Forall (fun rq => proper (request_interval 0 rq)) rqs -> full (en_key e) ->
  exists s, track_requests tracker_new rqs = Some s /\
    forall t, nodes t = tr_lsm s -> augmented t ->
    forall id, id ∈ map iv_tx (vy_tx_conflicts e t) <-> Exists (fun rq => request_tx rq = id /\ reads rq (en_key e)) rqs.
Proof.
  intros Hp Hk. destruct (track_requests_ok rqs tracker_new tracker_new_ok Hp) as (s & -> & [[H1 H2 H3 _] H4] & Hc).
  exists s. split; [done|]. intros t Et Ha id. trans (sees s id (en_key e)).
  - rewrite list_elem_of_fmap. unfold sees, covered. rewrite Exists_exists. rewrite <- Et in *. destruct (H4 id) as [_ H5]. split.
    + intros (i & -> & Hi). apply conflicts_spec in Hi as [Hi Hi']; [|done..]. exists i. split; [by apply H4|done].
    + intros (i & Hi & Hi'). apply H5 in Hi as [Hi <-]. exists i. split; [done|]. by apply conflicts_spec.
  - rewrite Hc by done. unfold sees, tr_set, tracker_new. cbn. rewrite lookup_empty. cbn. unfold covered. rewrite Exists_nil. tauto.
Qed.
End Theorems.

(** ** Keys of parts *)

Module PartKeys.
(** The parts that both keys have are compared. *)
Fixpoint parts_compare (a b : list Z) : Z :=
  match a, b with
  | x :: a, y :: b => if x <? y then -1 else if y <? x then 1 else parts_compare a b
  | _, _ => 0
  end.
#[export] Instance part_keys : Keys (list Z) := {| key_compare := parts_compare; key_part_count k := Z.of_nat (length k) |}.

Lemma parts_refl a : parts_compare a a = 0.
Proof. induction a as [|x a IH]; cbn; [done|]. by rewrite Z.ltb_irrefl. Qed.
Lemma parts_flip a b : parts_compare b a = - parts_compare a b.
Proof.
  revert b. induction a as [|x a IH]; intros [|y b]; cbn; try done. destruct (Z.ltb_spec x y), (Z.ltb_spec y x); try lia. by rewrite IH.
Qed.

Lemma cut_cons x y (a b : list Z) s s' : cut_le (x :: a, s) (y :: b, s') <-> x < y \/ x = y /\ cut_le (a, s) (b, s').
Proof.
  unfold cut_le, cut_compare. cbn [fst snd key_compare key_part_count part_keys parts_compare length].
  destruct (Z.ltb_spec x y), (Z.ltb_spec y x); cbn; try lia. destruct (Z.eqb_spec (parts_compare a b) 0), s, s'; cbn; lia.
Qed.
Lemma cut_nil_l (b : list Z) s s' : cut_le ([], s) (b, s') <-> s = false \/ s' = true /\ b = [].
Proof. unfold cut_le, cut_compare. cbn [fst snd key_compare key_part_count part_keys length parts_compare Z.eqb negb]. destruct b, s, s'; cbn; naive_solver lia. Qed.
Lemma cut_nil_r (a : list Z) s s' : cut_le (a, s) ([], s') <-> s' = true \/ s = false /\ a = [].
Proof. unfold cut_le, cut_compare. destruct a, s, s'; cbn; naive_solver lia. Qed.

#[export] Instance part_keys_laws : KeysLaws (list Z).
Proof.
  split.
  - apply parts_refl.
  - intros a b. cbn. rewrite parts_flip. lia.
  - intros [a s] [b s'] [c s'']. revert b c. induction a as [|x a IH]; intros [|y b] [|z c]; rewrite ?cut_cons, ?cut_nil_l, ?cut_nil_r; try naive_solver lia.
Qed.

(** Keys of an index with two parts: none, the first one or both are given. *)
Inductive key2 := NoParts | OnePart (x : Z) | TwoParts (x y : Z).
Definition parts (k : key2) : list Z := match k with NoParts => [] | OnePart x => [x] | TwoParts x y => [x; y] end.
#[export] Instance key2_keys : Keys key2 := {| key_compare a b := parts_compare (parts a) (parts b); key_part_count k := Z.of_nat (length (parts k)) |}.
#[export] Instance key2_laws : KeysLaws key2.
Proof.
  split.
  - intros a. apply parts_refl.
  - intros a b. cbn. rewrite parts_flip. lia.
  - intros [a s] [b s'] [c s'']. pose proof (cut_trans (parts a, s) (parts b, s') (parts c, s'')) as H.
    unfold cut_le, cut_compare in *. exact H.
Qed.

(** The keys (1, x) up to x = 3, the key (1, 4), the keys (1, x) from x = 3 on
    and all keys after those that begin with 2. *)
Definition some_reads : list read_request :=
  [RangeRead 1 (OnePart 1) true (TwoParts 1 3) true; PointRead 2 (TwoParts 1 4);
   RangeRead 1 (TwoParts 1 3) false (OnePart 1) true; RangeRead 3 (OnePart 2) false NoParts true].

Fixpoint tree_of (l : list (vy_read_interval key2)) : read_tree key2 :=
  match l with [] => RLeaf | i :: l => RNode RLeaf i (vy_lsm_read_set_aug i RLeaf (tree_of l)) (tree_of l) end.
Lemma tree_of_nodes l : nodes (tree_of l) = l.
Proof. induction l as [|i l IH]; cbn; [done|]. by rewrite IH. Qed.
Lemma tree_of_augmented l : augmented (tree_of l).
Proof. by induction l as [|i l IH]; cbn. Qed.

(** The two intervals of the first transaction have become one. *)
Lemma read_conflicts_exact_witness :
  exists s, track_requests tracker_new some_reads = Some s /\ length (tr_lsm s) = 3%nat /\
    map iv_tx (vy_tx_conflicts (mk_entry 100 (TwoParts 1 4)) (tree_of (tr_lsm s))) = [1; 2] /\
    forall id, id ∈ [1; 2] <-> Exists (fun rq => request_tx rq = id /\ reads rq (TwoParts 1 4)) some_reads.
Proof.
  destruct (read_conflicts_exact some_reads (mk_entry 100 (TwoParts 1 4))) as (s & E & H).
  - repeat constructor; apply cut_lt_compare; by vm_compute.
  - intros []; cbn; lia.
  - exists s. pose proof E as E'. vm_compute in E'. injection E' as <-. split_and!; [done|done|by vm_compute|]. intros id.
    apply (H _ (tree_of_nodes _) (tree_of_augmented _) id).
Defined.
End PartKeys.
