(* ===== verification/VyTx.v ===== *)
(** * Transactions of vinyl

    src/box/vy_tx.c and the requests of src/box/vinyl.c that use it: a
    transaction collects its statements in a write set and remembers what it
    has read.  When it is prepared its statements go to the memory of the LSM
    tree, with an LSN above all those of committed statements, and the
    transactions that have read one of its keys go on in a read view without
    it; they can no longer write.  A transaction is committed or rolled back
    when the journal has answered.

    There is one space with one index and no triggers, its cache is switched
    off, and its memory is neither rotated nor dumped, so nothing yields inside
    of an operation.  Of [xm_lsm] the fields of struct vy_lsm are used.
    Transactions, read views, intervals and keys have addresses, of which
    [xm_next] is the next one.  The outcomes of the next allocations are
    [v_oom] of the LSM tree. *)

From stdpp Require Import list gmap.
From S2P Require Import Prelude VyStmt VyMem VyRunReader VyLsm VyLookup VyReadSet.

Open Scope Z_scope.

Inductive tx_state := VINYL_TX_READY | VINYL_TX_COMMIT | VINYL_TX_ABORT.
#[export] Instance tx_state_eq_dec : EqDecision tx_state.
Proof. solve_decision. Defined.

(** [txv_overwritten] is a position in the log of the transaction. *)
Record txv (T O : Type) := mk_txv {
  txv_mem : bool;
  txv_entry : vy_stmt T O;
  txv_region_stmt : option (vy_stmt T O);
  txv_is_first_insert : bool;
  txv_is_overwritten : bool;
  txv_overwritten : option nat;
}.
Arguments mk_txv {T O}. Arguments txv_mem {T O}. Arguments txv_entry {T O}. Arguments txv_region_stmt {T O}.
Arguments txv_is_first_insert {T O}. Arguments txv_is_overwritten {T O}. Arguments txv_overwritten {T O}.
#[export] Instance txv_rebuild T O : Rebuild (txv T O) := fun v =>
  mk_txv (txv_mem v) (txv_entry v) (txv_region_stmt v) (txv_is_first_insert v) (txv_is_overwritten v) (txv_overwritten v).

(** The write set has the positions of its statements in the log, in the order
    of their keys.  [tx_read_view] is none for the global read view. *)
Record vy_tx (T O : Type) := mk_tx {
  tx_last_stmt_space : bool;
  tx_log : list (txv T O);
  tx_write_set : list nat;
  tx_write_set_version : Z;
  tx_write_size : Z;
  tx_st : tx_state;
  tx_is_applier_session : bool;
  tx_read_view : option Z;
  tx_read_set : list (vy_read_interval T);
  tx_psn : Z;
}.
Arguments mk_tx {T O}. Arguments tx_last_stmt_space {T O}. Arguments tx_log {T O}. Arguments tx_write_set {T O}.
Arguments tx_write_set_version {T O}. Arguments tx_write_size {T O}. Arguments tx_st {T O}.
Arguments tx_is_applier_session {T O}. Arguments tx_read_view {T O}. Arguments tx_read_set {T O}. Arguments tx_psn {T O}.
#[export] Instance vy_tx_rebuild T O : Rebuild (vy_tx T O) := fun t =>
  mk_tx (tx_last_stmt_space t) (tx_log t) (tx_write_set t) (tx_write_set_version t) (tx_write_size t) (tx_st t)
    (tx_is_applier_session t) (tx_read_view t) (tx_read_set t) (tx_psn t).

Record vy_read_view := mk_rv { rv_addr : Z; rv_vlsn : Z; rv_refs : Z }.
#[export] Instance vy_read_view_rebuild : Rebuild vy_read_view := fun r => mk_rv (rv_addr r) (rv_vlsn r) (rv_refs r).

(** [xm_read_set] is the read set of the LSM tree. *)
Record vy_tx_manager (T O : Type) := mk_xm {
  xm_lsn : Z;
  xm_psn : Z;
  xm_last_prepared_tx : option Z;
  xm_writers : list Z;
  xm_read_views : list vy_read_view;
  xm_stat_commit : Z;
  xm_stat_rollback : Z;
  xm_stat_conflict : Z;
  xm_txs : gmap Z (vy_tx T O);
  xm_read_set : list (vy_read_interval T);
  xm_lsm : vinyl T O;
  xm_next : Z;
}.
Arguments mk_xm {T O}. Arguments xm_lsn {T O}. Arguments xm_psn {T O}. Arguments xm_last_prepared_tx {T O}.
Arguments xm_writers {T O}. Arguments xm_read_views {T O}. Arguments xm_stat_commit {T O}. Arguments xm_stat_rollback {T O}.
Arguments xm_stat_conflict {T O}. Arguments xm_txs {T O}. Arguments xm_read_set {T O}. Arguments xm_lsm {T O}. Arguments xm_next {T O}.
#[export] Instance vy_tx_manager_rebuild T O : Rebuild (vy_tx_manager T O) := fun x =>
  mk_xm (xm_lsn x) (xm_psn x) (xm_last_prepared_tx x) (xm_writers x) (xm_read_views x) (xm_stat_commit x)
    (xm_stat_rollback x) (xm_stat_conflict x) (xm_txs x) (xm_read_set x) (xm_lsm x) (xm_next x).

(** Keys of the index, all of which are full. *)
#[export] Instance tuple_keys T O `{!Tuples T O} : Keys T := {| key_compare := tuple_compare; key_part_count _ := 1 |}.

(** What the transactions are independent of: the shape of the tree of intervals
    (small/rb.h, which is not in the sources), and two functions of the sources
    that are abstracted here, as nothing but their results matters: the size of
    a statement (tuple_size of tuple.h) and the operations of an UPDATE
    (xrow_update_execute of xrow_update.c), which give a new tuple and the mask
    of changed columns, or fail. *)
Class TxEnv (T O : Type) := {
  rb_tree : list (vy_read_interval T) -> read_tree T;
  tuple_size : vy_stmt T O -> Z;
  xrow_update_execute : O -> T -> option (T * Z);
}.

Section Tx.
Context {T O : Type} `{!Tuples T O, !TxEnv T O}.
Abbreviation stmt := (vy_stmt T O).
Abbreviation tx := (vy_tx T O).
Abbreviation xm := (vy_tx_manager T O).
Abbreviation xprog := (prog xm).
Abbreviation interval := (vy_read_interval T).

Definition on_lsm {A} (m : prog (vinyl T O) A) : xprog A := fun x =>
  match m (xm_lsm x) with
  | Done (a, v) => Done (a, x <| xm_lsm := v |>)
  | Abort => Abort
  end.
Definition alloc_fails : xprog bool := on_lsm (on_alloc fails).
Definition new_addr : xprog Z := a ← gets xm_next; modify (fun x => x <| xm_next := a + 1 |>);; mret a.

Definition get_tx (id : Z) : xprog tx := fun x =>
  match xm_txs x !! id with Some t => Done (t, x) | None => Abort end.
Definition set_tx (id : Z) (f : tx -> tx) : xprog unit := modify (fun x => x <| xm_txs ::= alter f id |>).

Definition vy_tx_manager_new : xm := mk_xm 0 0 None [] [] 0 0 0 ∅ [] vinyl_new 0.

(** ** Read views *)

Definition read_view_at (a : Z) (rvs : list vy_read_view) : option vy_read_view :=
  list_find (fun r => rv_addr r = a) rvs ≫= fun p => Some (snd p).
(** [vlsn] of the read view of a transaction. *)
Definition read_vlsn (rv : option Z) : xprog Z := fun x =>
  match rv with
  | None => Done (INT64_MAX, x)
  | Some a => match read_view_at a (xm_read_views x) with Some r => Done (rv_vlsn r, x) | None => Abort end
  end.
Definition update_rv (a : Z) (f : vy_read_view -> vy_read_view) : list vy_read_view -> list vy_read_view :=
  map (fun r => if rv_addr r =? a then f r else r).

Definition read_view_new (last_prepared : option Z) (vlsn : Z) : xprog (option Z) :=
  oom ← alloc_fails;
  if oom : bool then mret None
  else
    a ← new_addr;
    (match last_prepared with
     | Some id => set_tx id (fun t => t <| tx_read_view := Some a |>)
     | None => skip
     end);;
    modify (fun x => x <| xm_read_views ::= fun l => l ++ [mk_rv a vlsn (match last_prepared with Some _ => 2 | None => 1 end)] |>);;
    mret (Some a).

Definition vy_tx_manager_read_view : xprog (option Z) :=
  rvs ← gets xm_read_views;
  last_prepared ← gets xm_last_prepared_tx;
  vlsn ← (match last_prepared with
          | Some id => t ← get_tx id; mret (MAX_LSN + tx_psn t)
          | None => gets xm_lsn
          end);
  match last rvs with
  | Some rv =>
      if rv_vlsn rv =? vlsn then
        modify (fun x => x <| xm_read_views ::= update_rv (rv_addr rv) (fun r => r <| rv_refs ::= Z.succ |>) |>);;
        mret (Some (rv_addr rv))
      else read_view_new last_prepared vlsn
  | None => read_view_new last_prepared vlsn
  end.

Definition vy_tx_manager_destroy_read_view (rv : option Z) : xprog unit :=
  match rv with
  | None => skip
  | Some a =>
      rvs ← gets xm_read_views;
      match read_view_at a rvs with
      | None => abort
      | Some r =>
          assert (fun _ => negb (rv_refs r =? 0));;
          modify (fun x => x <| xm_read_views ::=
            if rv_refs r - 1 =? 0 then filter (fun r => rv_addr r <> a) else update_rv a (fun r => r <| rv_refs ::= Z.pred |>) |>)
      end
  end.

(** ** The write set *)

Definition log_entry (t : tx) (p : nat) : option stmt := txv_entry <$> tx_log t !! p.
Definition set_log (p : nat) (f : txv T O -> txv T O) (t : tx) : tx := t <| tx_log ::= alter f p |>.

(** The position in the log of the statement of a key. *)
Definition at_entry (t : tx) (key : T) (p : nat) : bool :=
  match log_entry t p with Some e => tuple_compare key (s_tuple e) =? 0 | None => false end.
Definition write_set_search_key (t : tx) (key : T) : option nat :=
  snd <$> list_find (fun p => at_entry t key p = true) (tx_write_set t).
Fixpoint write_set_insert (t : tx) (key : T) (p : nat) (ws : list nat) : list nat :=
  match ws with
  | [] => [p]
  | q :: ws =>
      match log_entry t q with
      | Some e => if tuple_compare key (s_tuple e) <? 0 then p :: q :: ws else q :: write_set_insert t key p ws
      | None => q :: write_set_insert t key p ws
      end
  end.
Definition write_set_remove (p : nat) : list nat -> list nat := filter (fun q => q <> p).

Definition txv_new (entry : stmt) : xprog (option (txv T O)) :=
  oom ← alloc_fails;
  mret (if oom : bool then None else Some (mk_txv false entry None false false None)).

Definition inherit_flag (old entry : stmt) : stmt :=
  if has_flag VY_STMT_DEFERRED_DELETE old then entry <| s_flags ::= fun f => Z.lor f VY_STMT_DEFERRED_DELETE |> else entry.

(** [old] leaves the write set. *)
Definition cover_txv (p : nat) (old : txv T O) (t : tx) : tx :=
  set_log p (fun v => v <| txv_is_overwritten := true |>)
    (t <| tx_write_size ::= fun n => n - tuple_size (txv_entry old) |> <| tx_write_set ::= write_set_remove p |>).
Definition write_set_overwrite (id : Z) (p : nat) (old : txv T O) : xprog unit :=
  t ← get_tx id;
  assert (fun _ => tuple_size (txv_entry old) <=? tx_write_size t);;
  set_tx id (cover_txv p old).

(** [v] comes to the write set and to the end of the log. *)
Definition add_txv (v : txv T O) (t : tx) : tx :=
  let p := length (tx_log t) in
  t <| tx_write_set := write_set_insert t (s_tuple (txv_entry v)) p (tx_write_set t) |>
    <| tx_write_set_version ::= fun n => u32 (n + 1) |>
    <| tx_write_size ::= fun n => u64 (n + tuple_size (txv_entry v)) |>
    <| tx_log ::= fun l => l ++ [v] |>.

Definition vy_tx_set_entry (id : Z) (entry : stmt) : xprog Z :=
  let entry := entry <| s_lsn := INT64_MAX |> in
  t ← get_tx id;
  let old := p ← write_set_search_key t (s_tuple entry); v ← tx_log t !! p; Some (p, v) in
  applied ← (match old with
             | Some (_, o) => if has_type IPROTO_UPSERT entry then on_lsm (on_alloc (vy_apply_upsert entry (Some (txv_entry o)) true))
                              else mret (Some entry)
             | None => mret (Some entry)
             end);
  match applied with
  | None => mret (-1)
  | Some entry =>
      v ← txv_new entry;
      match v, old with
      | None, _ => mret (-1)
      | Some v, Some (p, o) =>
          write_set_overwrite id p o;;
          set_tx id (add_txv (v <| txv_is_first_insert := txv_is_first_insert o |>
                                <| txv_entry ::= inherit_flag (txv_entry o) |> <| txv_overwritten := Some p |>));;
          mret 0
      | Some v, None =>
          set_tx id (add_txv (v <| txv_is_first_insert := has_type IPROTO_INSERT entry |>));;
          mret 0
      end
  end.
Definition vy_tx_set : Z -> stmt -> xprog Z := vy_tx_set_entry.

(** ** Transactions *)

Definition vy_tx_create (is_applier_session : bool) : tx :=
  mk_tx false [] [] 0 0 VINYL_TX_READY is_applier_session None [] 0.

Definition vy_tx_begin (is_applier_session : bool) : xprog (option Z) :=
  oom ← alloc_fails;
  if oom : bool then mret None
  else
    id ← new_addr;
    modify (fun x => x <| xm_txs ::= insert id (vy_tx_create is_applier_session) |>);;
    mret (Some id).

(** With the memory of the transaction given back. *)
Definition vy_tx_destroy (id : Z) : xprog unit :=
  t ← get_tx id;
  vy_tx_manager_destroy_read_view (tx_read_view t);;
  modify (fun x => x <| xm_read_set ::= fun l => foldl (fun l i => set_remove i l) l (tx_read_set t) |>
                     <| xm_writers ::= filter (fun w => w <> id) |>
                     <| xm_txs ::= delete id |>).

Definition vy_tx_abort (id : Z) : xprog unit :=
  t ← get_tx id;
  assert (fun _ => bool_decide (tx_st t = VINYL_TX_READY));;
  set_tx id (fun t => t <| tx_st := VINYL_TX_ABORT |>);;
  modify (fun x => x <| xm_stat_conflict ::= Z.succ |>).

Definition vy_tx_is_ro (t : tx) : bool := match tx_write_set t with [] => true | _ => false end.
Definition vy_tx_is_in_read_view (t : tx) : xprog bool :=
  vlsn ← read_vlsn (tx_read_view t);
  mret (negb (vlsn =? INT64_MAX)).

(** The transactions that conflict with a statement. *)
Definition conflicts (entry : stmt) : xprog (list Z) :=
  gets (fun x => map iv_tx (vy_tx_conflicts (mk_entry 0 (s_tuple entry)) (rb_tree (xm_read_set x)))).

Fixpoint send_loop (id : Z) (cs : list Z) : xprog Z :=
  match cs with
  | [] => mret 0
  | c :: cs =>
      if c =? id then send_loop id cs
      else
        t ← get_tx c;
        if negb (bool_decide (tx_st t = VINYL_TX_READY)) then send_loop id cs
        else
          in_view ← vy_tx_is_in_read_view t;
          if in_view : bool then send_loop id cs
          else
            rv ← vy_tx_manager_read_view;
            match rv with
            | None => mret (-1)
            | Some a => set_tx c (fun t => t <| tx_read_view := Some a |>);; send_loop id cs
            end
  end.
Definition vy_tx_send_to_read_view (id : Z) (entry : stmt) : xprog Z :=
  cs ← conflicts entry;
  send_loop id cs.

Fixpoint abort_loop (id : Z) (cs : list Z) : xprog unit :=
  match cs with
  | [] => skip
  | c :: cs =>
      if c =? id then abort_loop id cs
      else
        t ← get_tx c;
        if negb (bool_decide (tx_st t = VINYL_TX_READY)) then abort_loop id cs
        else vy_tx_abort c;; abort_loop id cs
  end.
Definition vy_tx_abort_readers (id : Z) (entry : stmt) : xprog unit :=
  cs ← conflicts entry;
  abort_loop id cs.

(** ** Preparing *)

(** The statements of the write set, in order. *)
Definition write_set_entries (t : tx) : list stmt := omap (log_entry t) (tx_write_set t).

Fixpoint send_all (id : Z) (entries : list stmt) : xprog Z :=
  match entries with
  | [] => mret 0
  | e :: entries =>
      rc ← vy_tx_send_to_read_view id e;
      if negb (rc =? 0) then mret (-1) else send_all id entries
  end.

(** What type a statement is written with. *)
Definition prepared_entry (v : txv T O) : stmt :=
  let e := txv_entry v in
  if txv_is_first_insert v && has_type IPROTO_REPLACE e
  then e <| s_type := IPROTO_INSERT |> <| s_flags ::= fun f => Z.ldiff f VY_STMT_DEFERRED_DELETE |>
  else if negb (txv_is_first_insert v) && has_type IPROTO_INSERT e then e <| s_type := IPROTO_REPLACE |>
  else e.

(** The memory is of the current generation, so it is not rotated. *)
Definition vy_tx_write_prepare (id : Z) (p : nat) : xprog Z :=
  assert (fun x => mem_generation (v_mem (xm_lsm x)) =? v_generation (xm_lsm x));;
  set_tx id (set_log p (fun v => v <| txv_mem := true |>));;
  mret 0.

(** The cache is empty. *)
Definition vy_tx_write (entry : stmt) : xprog (Z * option stmt) :=
  assert (fun _ => s_refable entry);;
  on_lsm (vy_lsm_set entry None).

(** The loop over the log, from the position [p] on.  The space has one index,
    so no DELETE is deferred. *)
Fixpoint prepare_log (id : Z) (psn : Z) (p : nat) (log : list (txv T O)) : xprog Z :=
  match log with
  | [] => mret 0
  | v :: log =>
      if txv_is_overwritten v then prepare_log id psn (S p) log
      else if txv_is_first_insert v && has_type IPROTO_DELETE (txv_entry v) then prepare_log id psn (S p) log
      else
        let entry := prepared_entry v in
        set_tx id (set_log p (fun v => v <| txv_entry := entry |>));;
        rc ← vy_tx_write_prepare id p;
        if negb (rc =? 0) then mret (-1)
        else
          assert (fun _ => negb (has_flag VY_STMT_DEFERRED_DELETE entry));;
          let entry := entry <| s_lsn := MAX_LSN + psn |> in
          set_tx id (set_log p (fun v => v <| txv_entry := entry |>));;
          '(rc, region_stmt) ← vy_tx_write entry;
          if negb (rc =? 0) then mret (-1)
          else
            set_tx id (set_log p (fun v => v <| txv_region_stmt := region_stmt |>));;
            prepare_log id psn (S p) log
  end.

Definition vy_tx_prepare (id : Z) : xprog Z :=
  t ← get_tx id;
  if bool_decide (tx_st t = VINYL_TX_ABORT) then mret (-1)
  else
    assert (fun _ => bool_decide (tx_st t = VINYL_TX_READY));;
    if vy_tx_is_ro t then set_tx id (fun t => t <| tx_st := VINYL_TX_COMMIT |>);; mret 0
    else
      in_view ← vy_tx_is_in_read_view t;
      if in_view : bool then modify (fun x => x <| xm_stat_conflict ::= Z.succ |>);; mret (-1)
      else
        assert (fun _ => bool_decide (tx_read_view t = None));;
        psn ← gets (fun x => xm_psn x + 1);
        modify (fun x => x <| xm_psn := psn |>);;
        set_tx id (fun t => t <| tx_st := VINYL_TX_COMMIT |> <| tx_psn := psn |>);;
        rc ← send_all id (write_set_entries t);
        if negb (rc =? 0) then mret (-1)
        else
          rc ← prepare_log id psn 0 (tx_log t);
          if negb (rc =? 0) then mret (-1)
          else
            modify (fun x => x <| xm_last_prepared_tx := Some id |>);;
            mret 0.

(** ** Committing *)

(** vy_stmt_set_lsn of a statement in the memory. *)
Definition same_addr (r e : stmt) : bool := match s_addr r, s_addr e with Some a, Some b => a =? b | _, _ => false end.
Definition set_region_lsn (r : stmt) (lsn : Z) : xprog unit :=
  on_lsm (modify (fun v => v <| v_mem ::= fun m => m <| mem_tree ::=
    map (fun e => if same_addr r e then e <| s_lsn := lsn |> else e) |> |>)).

Fixpoint commit_log (lsn : Z) (log : list (txv T O)) : xprog unit :=
  match log with
  | [] => skip
  | v :: log =>
      (match txv_region_stmt v with
       | Some r => set_region_lsn r lsn;; on_lsm (vy_lsm_commit_stmt (r <| s_lsn := lsn |>))
       | None => skip
       end);;
      commit_log lsn log
  end.

Definition vy_tx_commit (id : Z) (lsn : Z) : xprog unit :=
  t ← get_tx id;
  assert (fun _ => bool_decide (tx_st t = VINYL_TX_COMMIT));;
  modify (fun x => x <| xm_stat_commit ::= Z.succ |>
                     <| xm_last_prepared_tx ::= fun l => if decide (l = Some id) then None else l |>);;
  (if vy_tx_is_ro t then skip
   else
     assert (fun x => xm_lsn x <=? lsn);;
     modify (fun x => x <| xm_lsn := lsn |>);;
     commit_log lsn (tx_log t);;
     match tx_read_view t with
     | Some a => modify (fun x => x <| xm_read_views ::= update_rv a (fun r => r <| rv_vlsn := lsn |>) |>)
     | None => skip
     end);;
  vy_tx_destroy id.

(** ** Rolling back *)

Fixpoint rollback_log (log : list (txv T O)) : xprog unit :=
  match log with
  | [] => skip
  | v :: log =>
      (match txv_region_stmt v with
       | Some r =>
           assert (fun _ => negb (s_refable r));;
           assert (fun x => existsb (fun e => vy_mem_tree_cmp r e =? 0) (mem_tree (v_mem (xm_lsm x))));;
           on_lsm (modify (fun v => v <| v_mem ::= fun m => vy_mem_rollback_stmt m r |>))
       | None => skip
       end);;
      rollback_log log
  end.

Fixpoint abort_all (id : Z) (entries : list stmt) : xprog unit :=
  match entries with
  | [] => skip
  | e :: entries => vy_tx_abort_readers id e;; abort_all id entries
  end.

Definition vy_tx_rollback_after_prepare (id : Z) : xprog unit :=
  t ← get_tx id;
  assert (fun _ => bool_decide (tx_st t = VINYL_TX_COMMIT));;
  modify (fun x => x <| xm_last_prepared_tx ::= fun l => if decide (l = Some id) then None else l |>);;
  rollback_log (tx_log t);;
  abort_all id (write_set_entries t).

Definition vy_tx_rollback (id : Z) : xprog unit :=
  modify (fun x => x <| xm_stat_rollback ::= Z.succ |>);;
  t ← get_tx id;
  (if bool_decide (tx_st t = VINYL_TX_COMMIT) then vy_tx_rollback_after_prepare id else skip);;
  vy_tx_destroy id.

(** ** Statements *)

(** The return code and the savepoint, the length of the log. *)
Definition vy_tx_begin_statement (id : Z) : xprog (Z * nat) :=
  t ← get_tx id;
  if bool_decide (tx_st t = VINYL_TX_ABORT) then mret (-1, 0%nat)
  else
    assert (fun _ => bool_decide (tx_st t = VINYL_TX_READY));;
    set_tx id (fun t => t <| tx_last_stmt_space := true |>);;
    is_writer ← gets (fun x => bool_decide (id ∈ xm_writers x));
    (if is_writer : bool then skip
     else
       assert (fun _ => match tx_log t with [] => true | _ => false end);;
       modify (fun x => x <| xm_writers ::= cons id |>));;
    mret (0, length (tx_log t)).

(** The last statement of the log is taken back. *)
Definition rollback_last (t : tx) : tx :=
  match last (tx_log t) with
  | None => t
  | Some v =>
      let p := (length (tx_log t) - 1)%nat in
      let t := t <| tx_write_set ::= write_set_remove p |> in
      let t := match txv_overwritten v with
               | None => t
               | Some q =>
                   let key := default (s_tuple (txv_entry v)) (s_tuple <$> log_entry t q) in
                   set_log q (fun v => v <| txv_is_overwritten := false |>)
                     (t <| tx_write_set ::= write_set_insert t key q |>)
               end in
      t <| tx_write_set_version ::= fun n => u32 (n + 1) |> <| tx_log ::= take p |>
  end.
Fixpoint rollback_tail (n : nat) (t : tx) : tx :=
  match n with
  | 0%nat => t
  | S n => rollback_tail n (rollback_last t)
  end.

Definition vy_tx_rollback_statement (id : Z) (svp : nat) : xprog unit :=
  t ← get_tx id;
  match tx_st t with
  | VINYL_TX_ABORT | VINYL_TX_COMMIT => skip
  | VINYL_TX_READY =>
      set_tx id (fun t => (rollback_tail (length (tx_log t) - svp) t) <| tx_last_stmt_space := false |>);;
      t ← get_tx id;
      match tx_log t with
      | [] => modify (fun x => x <| xm_writers ::= filter (fun w => w <> id) |>)
      | _ => skip
      end
  end.

(** ** Reading *)

Definition vy_tx_track (id : Z) (left : vy_entry T) (left_belongs : bool) (right : vy_entry T) (right_belongs : bool) : xprog Z :=
  t ← get_tx id;
  in_view ← vy_tx_is_in_read_view t;
  if in_view : bool then mret 0
  else
    oom ← alloc_fails;
    if oom : bool then mret (-1)
    else
      a ← new_addr;
      lsm_set ← gets xm_read_set;
      match track_interval (mk_interval a id left right left_belongs right_belongs) (tx_read_set t) lsm_set with
      | None => abort
      | Some (own, lsm_set) =>
          set_tx id (fun t => t <| tx_read_set := own |>);;
          modify (fun x => x <| xm_read_set := lsm_set |>);;
          mret 0
      end.

Definition vy_tx_track_point (id : Z) (entry : vy_entry T) : xprog Z :=
  t ← get_tx id;
  in_view ← vy_tx_is_in_read_view t;
  if in_view : bool then mret 0
  else
    match write_set_search_key t (en_key entry) ≫= log_entry t with
    | Some e => if negb (has_type IPROTO_UPSERT e) then mret 0 else vy_tx_track id entry true entry true
    | None => vy_tx_track id entry true entry true
    end.

(** vy_point_lookup in the memories of the LSM tree. *)
Definition point_lookup (key : T) (vlsn : Z) (own : option stmt) : xprog (Z * option stmt) := fun x =>
  let v := xm_lsm x in
  match vy_point_lookup key vlsn 1 (Some own) None (mk_lookup (mk_lsm (v_mem v) (v_sealed v) (v_mem_list_version v) []) [] (v_oom v)) with
  | Done (r, s) => Done (r, x <| xm_lsm ::= fun v => v <| v_oom := lk_oom s |> |>)
  | Abort => Abort
  end.

(** The return code and what was found. *)
Definition vy_get (id : Z) (key : T) : xprog (Z * option stmt) :=
  t ← get_tx id;
  assert (fun _ => bool_decide (tx_st t = VINYL_TX_READY));;
  a ← new_addr;
  rc ← vy_tx_track_point id (mk_entry a key);
  if negb (rc =? 0) then mret (-1, None)
  else
    vlsn ← read_vlsn (tx_read_view t);
    '(rc, r) ← point_lookup key vlsn (write_set_search_key t key ≫= log_entry t);
    if negb (rc =? 0) then mret (-1, None) else mret (0, r).

(** ** Requests *)

Definition stmt_new (ty : iproto_type) (t : T) (ops : list O) : xprog (option stmt) :=
  oom ← alloc_fails;
  mret (if oom : bool then None else Some (mk_stmt None ty 0 0 true t ops 0)).

(** assert(tx != NULL && tx->state == VINYL_TX_READY) of a request. *)
Definition assert_ready (id : Z) : xprog unit :=
  t ← get_tx id;
  assert (fun _ => bool_decide (tx_st t = VINYL_TX_READY)).

(** A request returns its return code and the tuple it has found, if any.  The
    index exists, and nothing is being recovered. *)
Definition vy_check_is_unique_primary (id : Z) (s : stmt) : xprog (Z * option stmt) :=
  '(rc, found) ← vy_get id (s_tuple s);
  if negb (rc =? 0) then mret (-1, None)
  else match found with Some f => mret (-1, Some f) | None => mret (0, None) end.

Definition vy_insert (id : Z) (tuple : T) : xprog (Z * option stmt) :=
  assert_ready id;;
  if negb (tuple_validate_raw tuple) then mret (-1, None)
  else
    s ← stmt_new IPROTO_INSERT tuple [];
    match s with
    | None => mret (-1, None)
    | Some s =>
        '(rc, found) ← vy_check_is_unique_primary id s;
        if negb (rc =? 0) then mret (-1, found) else rc ← vy_tx_set id s; mret (rc, None)
    end.

Definition vy_replace (id : Z) (tuple : T) : xprog Z :=
  assert_ready id;;
  if negb (tuple_validate_raw tuple) then mret (-1)
  else
    s ← stmt_new IPROTO_REPLACE tuple [];
    match s with None => mret (-1) | Some s => vy_tx_set id s end.

Definition vy_delete (id : Z) (key : T) : xprog Z :=
  s ← stmt_new IPROTO_DELETE key [];
  match s with None => mret (-1) | Some s => vy_tx_set id s end.

(** The operations have been checked. *)
Definition vy_upsert (id : Z) (tuple : T) (ops : O) : xprog Z :=
  assert_ready id;;
  if negb (tuple_validate_raw tuple) then mret (-1)
  else
    s ← stmt_new IPROTO_UPSERT tuple [ops];
    match s with None => mret (-1) | Some s => vy_tx_set id s end.

Definition vy_check_update (old_tuple new_tuple : T) (column_mask : Z) : Z :=
  if negb (key_update_can_be_skipped key_column_mask column_mask) && negb (tuple_compare old_tuple new_tuple =? 0) then -1 else 0.

(** vy_get_by_raw_key makes a statement of the key. *)
Definition vy_get_by_raw_key (id : Z) (key : T) : xprog (Z * option stmt) :=
  oom ← alloc_fails;
  if oom : bool then mret (-1, None) else vy_get id key.

Definition vy_update (id : Z) (key : T) (ops : O) : xprog (Z * option stmt) :=
  assert_ready id;;
  '(rc, old) ← vy_get_by_raw_key id key;
  if negb (rc =? 0) then mret (-1, None)
  else
    match old with
    | None => mret (0, None)
    | Some o =>
        match xrow_update_execute ops (s_tuple o) with
        | None => mret (-1, Some o)
        | Some (new_tuple, column_mask) =>
            if negb (tuple_validate_raw new_tuple) then mret (-1, Some o)
            else
              s ← stmt_new IPROTO_REPLACE new_tuple [];
              match s with
              | None => mret (-1, Some o)
              | Some s =>
                  if negb (vy_check_update (s_tuple o) new_tuple column_mask =? 0) then mret (-1, Some o)
                  else rc ← vy_tx_set id (s <| s_flags := VY_STMT_UPDATE |>); mret (rc, Some o)
              end
        end
    end.

(** ** Aborting writers *)

Fixpoint abort_writers (p : tx -> bool) (ws : list Z) : xprog unit :=
  match ws with
  | [] => skip
  | w :: ws =>
      t ← get_tx w;
      (if bool_decide (tx_st t = VINYL_TX_READY) && p t then vy_tx_abort w else skip);;
      abort_writers p ws
  end.
Definition vy_tx_manager_abort_writers_for_ro : xprog unit :=
  ws ← gets xm_writers;
  abort_writers (fun t => negb (tx_is_applier_session t)) ws.
(** Whether the journal has to be synced. *)
Definition vy_tx_manager_abort_writers_for_ddl : xprog bool :=
  ws ← gets xm_writers;
  need_wal_sync ← gets (fun x => existsb (fun w => match xm_txs x !! w with
                                                  | Some t => bool_decide (tx_st t = VINYL_TX_COMMIT)
                                                  | None => false
                                                  end) ws);
  abort_writers (fun t => tx_last_stmt_space t || negb (vy_tx_is_ro t)) ws;;
  mret need_wal_sync.
End Tx.
