(* ===== verification/VyTxLog.v ===== *)
(** * The log and the write set of a transaction

    What the statements in the write set of a transaction have to do with the
    statements the transaction was given: the statement of a key has the effect
    of all of them on the key, and taking back the last one restores the write
    set. *)

From stdpp Require Import list sorting gmap.
From S2P Require Import Prelude VyStmt VyVisible VyCompaction VyLevels VyMem VyReadSet VyReadSetTheorems VyTx.

Open Scope Z_scope.

Lemma sorted_in {A} (R R' : A -> A -> Prop) (l : list A) :
  StronglySorted R l -> (forall x y, x ∈ l -> y ∈ l -> R x y -> R' x y) -> StronglySorted R' l.
Proof.
  induction 1 as [|x l Hs IH Hf]; intros Hr; constructor; [apply IH; intros y z Hy Hz; apply Hr; by right|].
  rewrite Forall_forall in *. intros y Hy. apply Hr; [by left|by right|by apply Hf].
Qed.

Section Log.
Context {T O : Type} `{!Tuples T O, !TuplesLaws T O, !TxEnv T O}.
Abbreviation stmt := (vy_stmt T O).
Abbreviation tx := (vy_tx T O).
Implicit Types (x e : stmt) (raws : list stmt) (t : tx) (v o : txv T O) (p q : nat) (ws : list nat) (key k : T).

(** ** The write set *)

Definition lt_key (a : option stmt) (b : option stmt) : Prop :=
  match a, b with Some a, Some b => tuple_compare (s_tuple a) (s_tuple b) < 0 | _, _ => False end.

Record ws_ok t : Prop := {
  wo_in : forall p, p ∈ tx_write_set t <-> exists v, tx_log t !! p = Some v /\ txv_is_overwritten v = false;
  wo_sorted : StronglySorted (fun p q => lt_key (log_entry t p) (log_entry t q)) (tx_write_set t);
}.

Lemma ws_entry t p : ws_ok t -> p ∈ tx_write_set t -> exists v, tx_log t !! p = Some v /\ log_entry t p = Some (txv_entry v).
Proof. intros Ht Hp. apply (wo_in t Ht) in Hp as (v & Hv & _). exists v. split; [done|]. unfold log_entry. by rewrite Hv. Qed.

Lemma at_entry_true t key p : at_entry t key p = true <-> exists e, log_entry t p = Some e /\ same_key key (s_tuple e).
Proof.
  unfold at_entry, same_key. destruct (log_entry t p) as [e|]; [|naive_solver]. rewrite Z.eqb_eq. naive_solver.
Qed.
Lemma search_some t key p : write_set_search_key t key = Some p ->
  p ∈ tx_write_set t /\ exists e, log_entry t p = Some e /\ same_key key (s_tuple e).
Proof.
  unfold write_set_search_key. destruct (list_find _ _) as [[i q]|] eqn:E; [|done]. intros [= ->].
  apply list_find_Some in E as (Hi & Hq & _). apply at_entry_true in Hq. split; [by eapply list_elem_of_lookup_2|done].
Qed.
Lemma search_none t key : write_set_search_key t key = None ->
  forall p e, p ∈ tx_write_set t -> log_entry t p = Some e -> ~ same_key key (s_tuple e).
Proof.
  unfold write_set_search_key. destruct (list_find _ _) as [[i q]|] eqn:E; [done|]. intros _ p e Hp He Hk.
  apply list_find_None in E. rewrite Forall_forall in E. apply (E p Hp). apply at_entry_true. by exists e.
Qed.

(** Where a statement comes into the write set. *)
Definition below key (e : option stmt) : Prop := match e with Some e => tuple_compare (s_tuple e) key < 0 | None => False end.
Definition above key (e : option stmt) : Prop := match e with Some e => tuple_compare key (s_tuple e) < 0 | None => False end.
Lemma insert_place t key p l1 l2 : Forall (fun q => below key (log_entry t q)) l1 -> Forall (fun q => above key (log_entry t q)) l2 ->
  write_set_insert t key p (l1 ++ l2) = l1 ++ p :: l2.
Proof.
  induction l1 as [|q l1 IH]; intros H1 H2; cbn [app write_set_insert].
  - destruct l2 as [|q l2]; [done|]. cbn. apply Forall_inv in H2. unfold above in H2. destruct (log_entry t q) as [e|]; [|done].
    by rewrite (proj2 (Z.ltb_lt _ _) H2).
  - apply Forall_cons in H1 as [Hq H1]. unfold below in Hq. destruct (log_entry t q) as [e|]; [|done].
    destruct (Z.ltb_spec (tuple_compare key (s_tuple e)) 0) as [H|H]; [pose proof (compare_flip key (s_tuple e)); lia|]. by rewrite IH.
Qed.
Lemma split_place t key ws : StronglySorted (fun p q => lt_key (log_entry t p) (log_entry t q)) ws ->
  Forall (fun q => exists e, log_entry t q = Some e /\ ~ same_key key (s_tuple e)) ws ->
  exists l1 l2, ws = l1 ++ l2 /\ Forall (fun q => below key (log_entry t q)) l1 /\ Forall (fun q => above key (log_entry t q)) l2.
Proof.
  induction 1 as [|q ws Hs IH Hf]; intros Hk; [by exists [], []|]. apply Forall_cons in Hk as [(e & He & Hne) Hk].
  destruct (Z.lt_ge_cases (tuple_compare (s_tuple e) key) 0) as [H|H].
  - destruct (IH Hk) as (l1 & l2 & -> & H1 & H2). exists (q :: l1), l2. split_and!; [done| |done]. constructor; [|done]. unfold below. by rewrite He.
  - assert (tuple_compare key (s_tuple e) < 0) as H'.
    { unfold same_key in Hne. pose proof (compare_flip key (s_tuple e)). pose proof (compare_flip (s_tuple e) key). lia. }
    exists [], (q :: ws). split_and!; [done|done|]. constructor; [unfold above; by rewrite He|].
    eapply Forall_impl; [exact Hf|]. intros r Hr. cbn in Hr. rewrite He in Hr. unfold above. destruct (log_entry t r) as [e'|]; [|done]. cbn in Hr.
    eapply compare_lt_trans; [exact H'|lia].
Qed.

(** ** Adding and covering *)

Definition same_log t t' : Prop := tx_log t = tx_log t' /\ tx_write_set t = tx_write_set t'.
Lemma same_log_entry t t' p : same_log t t' -> log_entry t p = log_entry t' p.
Proof. intros [H _]. unfold log_entry. by rewrite H. Qed.
Lemma same_log_search t t' key : same_log t t' -> write_set_search_key t key = write_set_search_key t' key.
Proof.
  intros H. unfold write_set_search_key. rewrite (proj2 H). f_equal. apply list_find_ext. intros p. unfold at_entry. by rewrite (same_log_entry t t').
Qed.
Lemma same_log_ok t t' : same_log t t' -> ws_ok t -> ws_ok t'.
Proof.
  intros H [H1 H2]. split.
  - intros p. by rewrite <- (proj2 H), <- (proj1 H).
  - rewrite <- (proj2 H). eapply sorted_in; [exact H2|]. intros p q _ _ Hpq. by rewrite <- !(same_log_entry t t').
Qed.

Lemma add_entry v t p : (p < length (tx_log t))%nat -> log_entry (add_txv v t) p = log_entry t p.
Proof. intros H. unfold log_entry. cbn. by rewrite lookup_app_l. Qed.
Lemma add_entry_new v t : log_entry (add_txv v t) (length (tx_log t)) = Some (txv_entry v).
Proof. unfold log_entry. cbn. by rewrite lookup_app_r, Nat.sub_diag. Qed.
Lemma ws_bound t p : ws_ok t -> p ∈ tx_write_set t -> (p < length (tx_log t))%nat.
Proof. intros Ht Hp. apply (wo_in t Ht) in Hp as (v & Hv & _). by eapply lookup_lt_Some. Qed.

(** The new statement is put between those with smaller and greater keys. *)
Lemma add_split v t : ws_ok t -> (forall p e, p ∈ tx_write_set t -> log_entry t p = Some e -> ~ same_key (s_tuple (txv_entry v)) (s_tuple e)) ->
  exists l1 l2, tx_write_set t = l1 ++ l2 /\ tx_write_set (add_txv v t) = l1 ++ length (tx_log t) :: l2 /\
    Forall (fun q => below (s_tuple (txv_entry v)) (log_entry t q)) l1 /\ Forall (fun q => above (s_tuple (txv_entry v)) (log_entry t q)) l2.
Proof.
  intros Ht Hk. destruct (split_place t (s_tuple (txv_entry v)) (tx_write_set t)) as (l1 & l2 & E & H1 & H2).
  - apply Ht.
  - apply Forall_forall. intros q Hq. destruct (ws_entry t q Ht Hq) as (w & _ & Hw). exists (txv_entry w). split; [done|by eapply Hk].
  - exists l1, l2. split_and!; [done| |done|done]. cbn. rewrite E. by apply insert_place.
Qed.
Lemma add_ok v t : ws_ok t -> txv_is_overwritten v = false ->
  (forall p e, p ∈ tx_write_set t -> log_entry t p = Some e -> ~ same_key (s_tuple (txv_entry v)) (s_tuple e)) ->
  ws_ok (add_txv v t) /\ forall p, p ∈ tx_write_set (add_txv v t) <-> p = length (tx_log t) \/ p ∈ tx_write_set t.
Proof.
  intros Ht Hv Hk. destruct (add_split v t Ht Hk) as (l1 & l2 & E & E' & H1 & H2).
  assert (forall p, p ∈ tx_write_set (add_txv v t) <-> p = length (tx_log t) \/ p ∈ tx_write_set t) as Hin.
  { intros p. rewrite E, E', !elem_of_app, elem_of_cons. tauto. }
  split; [|done]. split.
  - intros p. rewrite Hin. cbn. split.
    + intros [->|Hp]; [exists v; by rewrite lookup_app_r, Nat.sub_diag|]. rewrite lookup_app_l by (by apply ws_bound). by apply (wo_in t Ht).
    + intros (w & Hw & Ho). destruct (decide (p < length (tx_log t))%nat) as [Hp|Hp].
      * right. apply (wo_in t Ht). exists w. by rewrite lookup_app_l in Hw.
      * left. apply lookup_lt_Some in Hw. rewrite length_app in Hw. cbn in Hw. lia.
  - assert (forall p, p ∈ l1 ++ l2 -> log_entry (add_txv v t) p = log_entry t p) as Hl.
    { intros p Hp. rewrite <- E in Hp. by apply add_entry, ws_bound. }
    rewrite E'. pose proof (wo_sorted t Ht) as Hs. rewrite E in Hs. apply StronglySorted_app in Hs as (Hs & Hs1 & Hs2).
    apply StronglySorted_app. split_and!.
    + intros p q Hp Hq. rewrite (Hl p) by set_solver. apply elem_of_cons in Hq as [->|Hq]; [|rewrite Hl by set_solver; by apply Hs].
      rewrite add_entry_new. rewrite Forall_forall in H1. apply (H1 p Hp).
    + eapply sorted_in; [exact Hs1|]. intros p q Hp Hq. by rewrite !Hl by set_solver.
    + constructor.
      * eapply sorted_in; [exact Hs2|]. intros p q Hp Hq. by rewrite !Hl by set_solver.
      * apply Forall_forall. intros q Hq. rewrite add_entry_new, Hl by set_solver. rewrite Forall_forall in H2. apply (H2 q Hq).
Qed.

Lemma cover_entry p o t q : log_entry (cover_txv p o t) q = log_entry t q.
Proof.
  unfold log_entry. cbn. destruct (decide (p = q)) as [->|Hne]; [|by rewrite list_lookup_alter_ne].
  rewrite list_lookup_alter_eq. by destruct (tx_log t !! q).
Qed.
Lemma cover_ok p o t : ws_ok t -> p ∈ tx_write_set t ->
  ws_ok (cover_txv p o t) /\ forall q, q ∈ tx_write_set (cover_txv p o t) <-> q ∈ tx_write_set t /\ q <> p.
Proof.
  intros Ht Hp. assert (forall q, q ∈ tx_write_set (cover_txv p o t) <-> q ∈ tx_write_set t /\ q <> p) as Hin.
  { intros q. cbn. unfold write_set_remove. rewrite list_elem_of_filter. tauto. }
  split; [|done]. split.
  - intros q. rewrite Hin, (wo_in t Ht). cbn. destruct (decide (p = q)) as [->|Hne].
    + rewrite list_lookup_alter_eq. split; [by intros [_ []]|]. destruct (tx_log t !! q); cbn; [|by intros (? & ? & _)]. intros (v & [= <-] & H). cbn in H. done.
    + rewrite list_lookup_alter_ne by done. naive_solver.
  - apply sorted_in with (R := fun p q => lt_key (log_entry t p) (log_entry t q)); [|intros; by rewrite !cover_entry].
    cbn. unfold write_set_remove. eapply sublist_sorted; [apply sublist_filter|apply Ht].
Qed.

Lemma sorted_keys t p q e e' : ws_ok t -> p ∈ tx_write_set t -> q ∈ tx_write_set t -> log_entry t p = Some e -> log_entry t q = Some e' ->
  same_key (s_tuple e) (s_tuple e') -> p = q.
Proof.
  intros [_ Hs]. induction Hs as [|r ws Hs IH Hf]; [set_solver|]. rewrite Forall_forall in Hf.
  intros [->|Hp]%elem_of_cons [->|Hq]%elem_of_cons He He' Hk; [done| | |by apply IH].
  - specialize (Hf q Hq). rewrite He, He' in Hf. cbn in Hf. unfold same_key in Hk. lia.
  - specialize (Hf p Hp). rewrite He, He' in Hf. cbn in Hf. unfold same_key in Hk. pose proof (compare_flip (s_tuple e) (s_tuple e')). lia.
Qed.

(** Taking back a statement. *)
Lemma remove_other p ws : p ∉ ws -> write_set_remove p ws = ws.
Proof. intros H. apply filter_all_in. intros q Hq ->. done. Qed.
Lemma remove_between p l1 l2 : p ∉ l1 ++ l2 -> write_set_remove p (l1 ++ p :: l2) = l1 ++ l2.
Proof.
  intros H. unfold write_set_remove. rewrite filter_app, filter_cons_False by tauto.
  fold (write_set_remove p l1) (write_set_remove p l2). by rewrite !remove_other by set_solver.
Qed.
Lemma rollback_new v t : ws_ok t -> txv_overwritten v = None ->
  (forall p e, p ∈ tx_write_set t -> log_entry t p = Some e -> ~ same_key (s_tuple (txv_entry v)) (s_tuple e)) ->
  forall t', same_log t' (add_txv v t) -> same_log (rollback_last t') t.
Proof.
  intros Ht Ho Hk t' [El Ew]. destruct (add_split v t Ht Hk) as (l1 & l2 & E & E' & _). unfold rollback_last. rewrite El. cbn. rewrite last_snoc, Ho.
  assert (length (tx_log t ++ [v]) - 1 = length (tx_log t))%nat as -> by (rewrite length_app; cbn; lia).
  split; cbn; rewrite ?El, ?Ew; cbn; [by rewrite take_app_length|]. cbn in E'. rewrite E', E. apply remove_between.
  rewrite <- E. intros H. apply ws_bound in H; [lia|done].
Qed.
Lemma alter_twice (f g : txv T O -> txv T O) p v (l : list (txv T O)) : l !! p = Some v -> f (g v) = v -> alter f p (alter g p l) = l.
Proof.
  intros Hl Hv. apply list_eq. intros q. destruct (decide (p = q)) as [->|Hne].
  - rewrite !list_lookup_alter_eq, Hl. cbn. by rewrite Hv.
  - by rewrite !list_lookup_alter_ne.
Qed.
Lemma ws_around t p e : ws_ok t -> p ∈ tx_write_set t -> log_entry t p = Some e ->
  exists m1 m2, tx_write_set t = m1 ++ p :: m2 /\ p ∉ m1 ++ m2 /\
    Forall (fun q => below (s_tuple e) (log_entry t q)) m1 /\ Forall (fun q => above (s_tuple e) (log_entry t q)) m2.
Proof.
  intros Ht Hp He. apply list_elem_of_split in Hp as (m1 & m2 & E). exists m1, m2. pose proof (wo_sorted t Ht) as Hs. rewrite E in Hs.
  apply StronglySorted_app in Hs as (Hs & _ & Hs2). apply StronglySorted_inv in Hs2 as [_ Hf].
  assert (Forall (fun q => below (s_tuple e) (log_entry t q)) m1) as H1.
  { apply Forall_forall. intros q Hq. specialize (Hs q p Hq ltac:(by left)). rewrite He in Hs. exact Hs. }
  assert (Forall (fun q => above (s_tuple e) (log_entry t q)) m2) as H2.
  { eapply Forall_impl; [exact Hf|]. intros q Hq. cbn in Hq. rewrite He in Hq. exact Hq. }
  split_and!; [done| |done|done]. rewrite Forall_forall in H1. rewrite Forall_forall in H2. pose proof (compare_refl (s_tuple e)).
  intros [Hp|Hp]%elem_of_app; [apply H1 in Hp|apply H2 in Hp]; rewrite He in Hp; cbn in Hp; lia.
Qed.
Lemma rollback_over v t p o : ws_ok t -> p ∈ tx_write_set t -> tx_log t !! p = Some o ->
  txv_overwritten v = Some p -> same_key (s_tuple (txv_entry o)) (s_tuple (txv_entry v)) ->
  forall t', same_log t' (add_txv v (cover_txv p o t)) -> same_log (rollback_last t') t.
Proof.
  intros Ht Hp Ho Hv Hk t' [El Ew]. destruct (cover_ok p o t Ht Hp) as [Hc Hin].
  assert (log_entry t p = Some (txv_entry o)) as He by (unfold log_entry; by rewrite Ho).
  assert (txv_is_overwritten o = false) as Hno by (apply (wo_in t Ht) in Hp as (w & Hw & ?); congruence).
  destruct (add_split v (cover_txv p o t) Hc) as (l1 & l2 & E & E' & _).
  { intros q e Hq Hqe Hk'. apply Hin in Hq as [Hq Hne]. rewrite cover_entry in Hqe. apply Hne.
    eapply (sorted_keys t q p); [done..|]. etransitivity; [symmetry; exact Hk'|by symmetry]. }
  destruct (ws_around t p (txv_entry o) Ht Hp He) as (m1 & m2 & Em & Hpm & H1 & H2).
  assert (length (tx_log (cover_txv p o t)) = length (tx_log t)) as Elen by (cbn; apply length_alter).
  assert (p < length (tx_log t))%nat as Hlt by (by apply ws_bound).
  assert (write_set_remove (length (tx_log t)) (tx_write_set t') = m1 ++ m2) as Er.
  { rewrite Ew, E', Elen, remove_between; [|rewrite <- E; intros [H _]%Hin; apply ws_bound in H; [lia|done]].
    rewrite <- E. cbn. rewrite Em. by apply remove_between. }
  assert (tx_log t' = alter (fun v => v <| txv_is_overwritten := true |>) p (tx_log t) ++ [v]) as El' by (rewrite El; done).
  assert (forall q, q ∈ m1 ++ m2 \/ q = p -> log_entry t' q = log_entry t q) as Hle.
  { intros q Hq. assert (q < length (tx_log t))%nat by (apply ws_bound; [done|]; rewrite Em; set_solver).
    transitivity (log_entry (add_txv v (cover_txv p o t)) q); [by apply same_log_entry|]. rewrite add_entry by (rewrite Elen; lia). apply cover_entry. }
  unfold rollback_last. rewrite El', last_snoc, Hv. rewrite length_app, length_alter. cbn [length].
  replace (length (tx_log t) + 1 - 1)%nat with (length (tx_log t)) by lia.
  split; cbn.
  - rewrite El', alter_app_l by (rewrite length_alter; lia). rewrite take_app_le by (rewrite !length_alter; lia).
    rewrite take_ge by (rewrite !length_alter; lia). eapply alter_twice; [exact Ho|]. destruct o. cbn in *. by subst.
  - rewrite Er, Em. change (log_entry _ p) with (log_entry t' p). rewrite (Hle p), He by tauto. cbn.
    assert (forall ws key, write_set_insert (t' <| tx_write_set := m1 ++ m2 |>) key p ws = write_set_insert t' key p ws) as Ei.
    { intros ws key. induction ws as [|q ws IH]; cbn [write_set_insert]; [done|]. change (log_entry (_ <| tx_write_set := _ |>) q) with (log_entry t' q). by rewrite IH. }
    etransitivity; [apply Ei|]. apply insert_place; eapply Forall_forall; intros q Hq; rewrite Hle by set_solver; [rewrite Forall_forall in H1; by apply H1|rewrite Forall_forall in H2; by apply H2].
Qed.

(** ** The log and the statements it was made from *)

(** A statement as a request makes it. *)
Record client_stmt x : Prop := {
  cs_upsert : upsert_ok x;
  cs_refable : s_refable x = true;
  cs_flags : has_flag VY_STMT_DEFERRED_DELETE x = false /\ has_flag VY_STMT_SKIP_READ x = false;
}.
Definition covering x e : stmt :=
  let x := x <| s_lsn := INT64_MAX |> in if has_type IPROTO_UPSERT x then upsert_result x (Some e) else x.
Definition new_txv x : txv T O := mk_txv false (x <| s_lsn := INT64_MAX |>) None (has_type IPROTO_INSERT x) false None.
Definition over_txv x p o : txv T O :=
  mk_txv false (inherit_flag (txv_entry o) (covering x (txv_entry o))) None (txv_is_first_insert o) false (Some p).

(** [raws] are the statements, the last one first. *)
Inductive logged : list stmt -> tx -> Prop :=
  | logged_nil t : tx_log t = [] -> tx_write_set t = [] -> logged [] t
  | logged_new raws x t t' : logged raws t -> client_stmt x -> write_set_search_key t (s_tuple x) = None ->
      same_log t' (add_txv (new_txv x) t) -> logged (x :: raws) t'
  | logged_over raws x t t' p o : logged raws t -> client_stmt x -> write_set_search_key t (s_tuple x) = Some p -> tx_log t !! p = Some o ->
      same_log t' (add_txv (over_txv x p o) (cover_txv p o t)) -> logged (x :: raws) t'.

Lemma of_key_same k k' (l : list stmt) : same_key k k' -> of_key k l = of_key k' l.
Proof. intros H. apply list_filter_iff. intros x. unfold at_key. split; intros H'; [rewrite <- H; done|by rewrite H]. Qed.
Lemma of_key_cons k x (l : list stmt) : of_key k (x :: l) = if decide (same_key k (s_tuple x)) then x :: of_key k l else of_key k l.
Proof. unfold of_key, at_key. by rewrite filter_cons. Qed.
Lemma of_key_hit k x (l : list stmt) : same_key k (s_tuple x) -> of_key k (x :: l) = x :: of_key k l.
Proof. intros H. rewrite of_key_cons. by destruct (decide _). Qed.
Lemma of_key_miss k x (l : list stmt) : ~ same_key k (s_tuple x) -> of_key k (x :: l) = of_key k l.
Proof. intros H. rewrite of_key_cons. by destruct (decide _). Qed.

(** What the statement of a key in the write set stands for. *)
Record stands_for raws v : Prop := {
  sf_value : forall b, apply_stmt b (txv_entry v) = state_of b (of_key (s_tuple (txv_entry v)) raws);
  sf_some : of_key (s_tuple (txv_entry v)) raws <> [];
  sf_first : txv_is_first_insert v = true <-> exists x, last (of_key (s_tuple (txv_entry v)) raws) = Some x /\ s_type x = IPROTO_INSERT;
  sf_terminal : terminal (txv_entry v) -> Exists terminal (of_key (s_tuple (txv_entry v)) raws);
  sf_stmt : client_stmt (txv_entry v);
}.

Lemma client_lsn x n : client_stmt x -> client_stmt (x <| s_lsn := n |>).
Proof. intros [H1 H2 H3]. by split. Qed.
Lemma inherit_flag_none e x : has_flag VY_STMT_DEFERRED_DELETE e = false -> inherit_flag e x = x.
Proof. unfold inherit_flag. by intros ->. Qed.
Lemma covering_ok x e : client_stmt x -> client_stmt e -> client_stmt (covering x e).
Proof.
  intros Hx He. unfold covering. cbv zeta. destruct (has_type IPROTO_UPSERT (x <| s_lsn := INT64_MAX |>)) eqn:E; [|by apply client_lsn].
  apply has_typeP in E. split.
  - apply upsert_result_ok; [by apply (client_lsn x INT64_MAX)|done].
  - unfold upsert_result. by destruct (has_type IPROTO_UPSERT e).
  - unfold upsert_result. by destruct (has_type IPROTO_UPSERT e).
Qed.
Lemma covering_key x e : same_key (s_tuple x) (s_tuple e) -> same_key (s_tuple x) (s_tuple (covering x e)).
Proof.
  intros Hk. unfold covering. cbv zeta. destruct (has_type IPROTO_UPSERT (x <| s_lsn := INT64_MAX |>)) eqn:E; [|reflexivity].
  change (s_tuple x) with (s_tuple (x <| s_lsn := INT64_MAX |>)). apply upsert_result_key. intros q [= <-]. by symmetry.
Qed.
Lemma covering_value x e b : client_stmt e -> apply_stmt b (covering x e) = apply_stmt (apply_stmt b e) x.
Proof.
  intros He. unfold covering. cbv zeta. destruct (has_type IPROTO_UPSERT (x <| s_lsn := INT64_MAX |>)) eqn:E.
  - apply has_typeP in E. rewrite upsert_result_some; [done|done|apply He].
  - apply has_type_falseP in E. transitivity (apply_stmt b x); [done|]. by apply apply_terminal.
Qed.
Lemma covering_terminal x e : terminal (covering x e) -> terminal x \/ terminal e.
Proof.
  unfold covering. cbv zeta. destruct (has_type IPROTO_UPSERT (x <| s_lsn := INT64_MAX |>)) eqn:E.
  - intros H. right. unfold upsert_result in H. destruct (has_type IPROTO_UPSERT e) eqn:E2; [done|]. by apply has_type_falseP in E2.
  - intros _. left. by apply has_type_falseP in E.
Qed.

Lemma stands_new raws x : client_stmt x -> of_key (s_tuple x) raws = [] -> stands_for (x :: raws) (new_txv x).
Proof.
  intros Hx E. assert (of_key (s_tuple x) (x :: raws) = [x]) as E' by (rewrite of_key_hit, E by reflexivity; done).
  split; cbn [new_txv txv_entry txv_is_first_insert]; change (s_tuple (x <| s_lsn := INT64_MAX |>)) with (s_tuple x); rewrite ?E'.
  - intros b. reflexivity.
  - done.
  - rewrite has_typeP. naive_solver.
  - intros H. by constructor.
  - by apply client_lsn.
Qed.
Lemma stands_over raws x p o : client_stmt x -> stands_for raws o -> same_key (s_tuple x) (s_tuple (txv_entry o)) -> stands_for (x :: raws) (over_txv x p o).
Proof.
  intros Hx [H1 H2 H3 H4 H5] Hk. pose proof (covering_key x (txv_entry o) Hk) as Hk2. pose proof H5 as [_ _ [Hf _]].
  assert (of_key (s_tuple (covering x (txv_entry o))) (x :: raws) = x :: of_key (s_tuple (txv_entry o)) raws) as E.
  { rewrite of_key_hit by (by symmetry). f_equal. apply of_key_same. by rewrite <- Hk2. }
  split; unfold over_txv; cbn [txv_entry txv_is_first_insert]; rewrite inherit_flag_none, ?E by done.
  - intros b. rewrite covering_value by done. by rewrite state_of_cons, H1.
  - done.
  - rewrite H3. destruct (of_key (s_tuple (txv_entry o)) raws); [done|]. by rewrite last_cons_cons.
  - intros [H|H]%covering_terminal; [by left|]. right. by apply H4.
  - by apply covering_ok.
Qed.
Lemma stands_other raws x v : ~ same_key (s_tuple (txv_entry v)) (s_tuple x) -> stands_for raws v -> stands_for (x :: raws) v.
Proof. intros Hk [H1 H2 H3 H4 H5]. split; rewrite ?of_key_miss by done; done. Qed.

(** The write set against the statements. *)
Record log_ok raws t : Prop := {
  lo_ws : ws_ok t;
  lo_length : length raws = length (tx_log t);
  lo_stmts : Forall client_stmt raws;
  lo_none : forall k, write_set_search_key t k = None -> of_key k raws = [];
  lo_stands : forall p v, p ∈ tx_write_set t -> tx_log t !! p = Some v -> stands_for raws v;
  lo_fresh : Forall (fun v => txv_region_stmt v = None) (tx_log t);
}.
Lemma same_log_log_ok raws t t' : same_log t t' -> log_ok raws t -> log_ok raws t'.
Proof.
  intros H [H1 H2 H3 H4 H5 H6]. pose proof H as [E1 E2]. split; [by eapply same_log_ok|congruence|done| | |congruence].
  - intros k Hk. apply H4. by rewrite (same_log_search t t').
  - intros p v. rewrite <- E1, <- E2. apply H5.
Qed.
Lemma search_add t v k : ws_ok t -> ws_ok (add_txv v t) -> (forall p, p ∈ tx_write_set (add_txv v t) <-> p = length (tx_log t) \/ p ∈ tx_write_set t) ->
  write_set_search_key (add_txv v t) k = None -> ~ same_key k (s_tuple (txv_entry v)) /\ write_set_search_key t k = None.
Proof.
  intros Ht Ha Hin Hn. pose proof (search_none _ _ Hn) as Hs. split.
  - apply (Hs (length (tx_log t))); [apply Hin; by left|apply add_entry_new].
  - destruct (write_set_search_key t k) as [p|] eqn:E; [|done]. apply search_some in E as (Hp & e & He & Hk). exfalso.
    eapply Hs; [apply Hin; by right| |exact Hk]. by rewrite add_entry by (by apply ws_bound).
Qed.
(** A statement on a key of its own. *)
Lemma log_ok_new raws x t : log_ok raws t -> client_stmt x -> write_set_search_key t (s_tuple x) = None -> log_ok (x :: raws) (add_txv (new_txv x) t).
Proof.
  intros [Hws Hlen Hst Hnone Hsf Hfr] Hx Hs.
  pose proof (search_none _ _ Hs) as Hsn. destruct (add_ok (new_txv x) t Hws eq_refl Hsn) as [Ha Hin]. split.
  - done.
  - cbn. rewrite length_app, Hlen. cbn. lia.
  - by constructor.
  - intros k Hk. apply search_add in Hk as [Hk1 Hk2]; [|done..]. rewrite of_key_miss by done. by apply Hnone.
  - intros p v Hp Hv. apply Hin in Hp as [->|Hp].
    + cbn in Hv. rewrite lookup_app_r, Nat.sub_diag in Hv by lia. injection Hv as <-. apply stands_new; [done|by apply Hnone].
    + cbn in Hv. rewrite lookup_app_l in Hv by (by apply ws_bound). apply stands_other; [|by eapply Hsf].
      intros Hk. apply (Hsn p (txv_entry v) Hp); [unfold log_entry; by rewrite Hv|by symmetry].
  - cbn. apply Forall_app_2; [done|by constructor].
Qed.

(** A statement on the key of another one. *)
Lemma over_key raws t p o x : log_ok raws t -> p ∈ tx_write_set t -> tx_log t !! p = Some o -> same_key (s_tuple x) (s_tuple (txv_entry o)) ->
  same_key (s_tuple x) (s_tuple (txv_entry (over_txv x p o))).
Proof.
  intros Ht Hp Ho Hk. destruct (sf_stmt _ _ (lo_stands _ _ Ht p o Hp Ho)) as [_ _ [Hf _]]. cbn. rewrite inherit_flag_none by done. by apply covering_key.
Qed.
Lemma over_absent raws t p o x : log_ok raws t -> p ∈ tx_write_set t -> tx_log t !! p = Some o -> same_key (s_tuple x) (s_tuple (txv_entry o)) ->
  forall q e, q ∈ tx_write_set (cover_txv p o t) -> log_entry (cover_txv p o t) q = Some e -> ~ same_key (s_tuple (txv_entry (over_txv x p o))) (s_tuple e).
Proof.
  intros Ht Hp Ho Hk q e Hq Hqe Hk'. pose proof (over_key raws t p o x Ht Hp Ho Hk) as Hk2. destruct (cover_ok p o t (lo_ws _ _ Ht) Hp) as [_ Hcin].
  apply Hcin in Hq as [Hq Hne]. rewrite cover_entry in Hqe. apply Hne. eapply (sorted_keys t q p); [apply Ht|done|done|done|unfold log_entry; by rewrite Ho|].
  rewrite <- Hk, Hk2. by symmetry.
Qed.
Lemma log_ok_over raws x t p o : log_ok raws t -> client_stmt x -> p ∈ tx_write_set t -> tx_log t !! p = Some o ->
  same_key (s_tuple x) (s_tuple (txv_entry o)) -> log_ok (x :: raws) (add_txv (over_txv x p o) (cover_txv p o t)).
Proof.
  intros Ht Hx Hp Ho Hk. pose proof (over_key raws t p o x Ht Hp Ho Hk) as Hk2. pose proof (over_absent raws t p o x Ht Hp Ho Hk) as Hsn.
  destruct Ht as [Hws Hlen Hst Hnone Hsf Hfr]. destruct (cover_ok p o t Hws Hp) as [Hc Hcin].
  assert (stands_for (x :: raws) (over_txv x p o)) as Hso by (apply stands_over; [done|by eapply Hsf|done]).
  destruct (add_ok (over_txv x p o) (cover_txv p o t) Hc eq_refl Hsn) as [Ha Hin]. split.
  - done.
  - cbn. rewrite length_app, length_alter, Hlen. cbn. lia.
  - by constructor.
  - intros k Hn. apply search_add in Hn as [Hk1 Hn2]; [|done..]. rewrite of_key_miss by (by rewrite Hk2). apply Hnone.
    destruct (write_set_search_key t k) as [q|] eqn:E; [|done]. apply search_some in E as (Hq & e & Hqe & Hk').
    exfalso. destruct (decide (q = p)) as [->|Hne].
    + apply Hk1. unfold log_entry in Hqe. rewrite Ho in Hqe. injection Hqe as <-. by rewrite <- Hk2, Hk.
    + eapply (search_none _ _ Hn2 q); [by apply Hcin|by rewrite cover_entry|done].
  - intros q v Hq Hv. apply Hin in Hq as [->|Hq].
    + cbn in Hv. rewrite lookup_app_r, Nat.sub_diag in Hv by (rewrite ?length_alter; lia). by injection Hv as <-.
    + assert (q < length (tx_log t))%nat as Hlt by (apply Hcin in Hq as [? _]; by apply ws_bound).
      assert (tx_log t !! q = Some v) as Hv'.
      { cbn in Hv. rewrite lookup_app_l in Hv by (by rewrite length_alter). apply Hcin in Hq as [_ Hne]. by rewrite list_lookup_alter_ne in Hv. }
      pose proof (Hsn q (txv_entry v) Hq) as Hne. rewrite cover_entry in Hne. specialize (Hne ltac:(unfold log_entry; by rewrite Hv')).
      apply Hcin in Hq as [Hq _]. apply stands_other; [|by eapply Hsf]. intros Hk'. apply Hne. rewrite <- Hk2. by symmetry.
  - cbn. apply Forall_app_2; [|by constructor]. rewrite Forall_lookup in *. intros q v Hv. destruct (decide (p = q)) as [->|Hne].
    + rewrite list_lookup_alter_eq, Ho in Hv. cbn in Hv. injection Hv as <-. cbn. by eapply Hfr.
    + rewrite list_lookup_alter_ne in Hv by done. by eapply Hfr.
Qed.

Lemma search_found t key p o : write_set_search_key t key = Some p -> tx_log t !! p = Some o -> p ∈ tx_write_set t /\ same_key key (s_tuple (txv_entry o)).
Proof. intros (Hp & e & He & Hk)%search_some Ho. unfold log_entry in He. rewrite Ho in He. by injection He as <-. Qed.
Lemma logged_ok raws t : logged raws t -> log_ok raws t.
Proof.
  induction 1 as [t E1 E2|raws x t t' Hl IH Hx Hs [E1 E2]|raws x t t' p o Hl IH Hx Hs Ho [E1 E2]].
  - assert (ws_ok t). { split; rewrite ?E1, ?E2; [|constructor]. intros p. split; [set_solver|]. by intros (v & ? & _). }
    split; rewrite ?E1, ?E2; try done; set_solver.
  - eapply same_log_log_ok; [|by apply log_ok_new]. done.
  - destruct (search_found _ _ _ _ Hs Ho) as [Hp Hk]. eapply same_log_log_ok; [|by apply (log_ok_over raws x t p o)]. done.
Qed.

Lemma logged_same raws t t' : same_log t' t -> logged raws t -> logged raws t'.
Proof.
  intros [E1 E2]. destruct 1 as [t|raws x t t1 Hl Hx Hs [E3 E4]|raws x t t1 p o Hl Hx Hs Ho [E3 E4]]; [constructor; congruence|eapply logged_new|eapply logged_over]; try done; split; congruence.
Qed.

(** Taking back a statement leaves the others. *)
Lemma logged_rollback raws x t : logged (x :: raws) t -> logged raws (rollback_last t).
Proof.
  intros H. inversion H as [|? ? t0 ? Hl Hx Hs E|? ? t0 ? p o Hl Hx Hs Ho E]; subst; pose proof (logged_ok _ _ Hl) as Hok.
  - eapply logged_same; [|exact Hl]. eapply (rollback_new (new_txv x) t0); [apply Hok|done|by apply search_none|done].
  - apply search_some in Hs as (Hp & e & He & Hk). unfold log_entry in He. rewrite Ho in He. injection He as <-.
    eapply logged_same; [|exact Hl]. eapply (rollback_over (over_txv x p o) t0 p o); [apply Hok|done|done|done| |done].
    destruct (sf_stmt _ _ (lo_stands _ _ Hok p o Hp Ho)) as [_ _ [Hf _]]. cbn. rewrite inherit_flag_none by done.
    rewrite <- Hk. by apply covering_key.
Qed.
Lemma logged_rollback_tail n raws t : logged raws t -> (n <= length raws)%nat -> logged (drop n raws) (rollback_tail n t).
Proof.
  revert raws t. induction n as [|n IH]; intros raws t Hl Hn; cbn [rollback_tail drop]; [done|].
  destruct raws as [|x raws]; [cbn in Hn; lia|]. apply IH; [by eapply logged_rollback|cbn in Hn; lia].
Qed.
End Log.
