(* ===== verification/VyTxLsm.v ===== *)
(** * The LSM tree under the transaction manager

    What writing, committing and rolling back a statement of a transaction does
    to the memory of the LSM tree.  Statements of prepared transactions have
    LSNs from [MAX_LSN] on. *)

From stdpp Require Import list sorting gmap.
From S2P Require Import Prelude VyStmt VyVisible VyCompaction VyLevels VyInsert VyMem VyMemSafety VyMemTheorems VyLsm VyLsmSafety VyLsmSteps.
From S2P Require Import VyReadSet VyReadSetTheorems VyTx VyTxLog VyTheorems VyDeferred.

Open Scope Z_scope.

Section TxLsm.
Context {T O : Type} `{!Tuples T O, !TuplesLaws T O, !TxEnv T O}.
Abbreviation stmt := (vy_stmt T O).
Implicit Types (x y e r : stmt) (l S : list stmt) (v w : vinyl T O) (k : T).

Abbreviation tree v := (mem_tree (v_mem v)).

(** The counters of the UPSERTs of a key, newest first. *)
Fixpoint counts_ok l : Prop :=
  match l with
  | [] => True
  | x :: l =>
      (s_type x = IPROTO_UPSERT -> (s_n_upserts x = 0 -> forall p, head l = Some p -> terminal p) /\
        (s_n_upserts x = VY_UPSERT_THRESHOLD -> exists o, head l = Some o /\ s_type o = IPROTO_UPSERT /\ s_n_upserts o = VY_UPSERT_THRESHOLD - 1)) /\
      counts_ok l
  end.

(** A statement in the memory. *)
Record mem_stmt x : Prop := {
  ms_upsert : upsert_ok x;
  ms_skip : has_flag VY_STMT_SKIP_READ x = false;
  ms_refable : s_refable x = false;
}.

Definition committed S : list stmt := filter (fun x => s_lsn x < MAX_LSN) S.

Record lsm_ok v : Prop := {
  lm_sorted : tree_sorted (tree v);
  lm_sealed : v_sealed v = [];
  lm_slices : v_slices v = [];
  lm_gen : mem_generation (v_mem v) = v_generation v;
  lm_mem : mem_ok (v_mem v);
  lm_addr : forall x y, x ∈ tree v -> y ∈ tree v -> s_addr x = s_addr y -> x = y;
  lm_next : forall x a, x ∈ tree v -> s_addr x = Some a -> a < v_next v;
  lm_stmts : Forall mem_stmt (tree v);
  lm_rows : v_rows v = Z.of_nat (length (committed (tree v)));
  lm_counts : forall k, counts_ok (of_key k (tree v));
}.

Lemma lsm_ok_oom v oom : lsm_ok v -> lsm_ok (v <| v_oom := oom |>).
Proof. by intros []. Qed.
Lemma lsm_ok_next v n : lsm_ok v -> v_next v <= n -> lsm_ok (v <| v_next := n |>).
Proof. intros Hv H. pose proof (lm_next v Hv) as Hn. destruct Hv. split; try done. cbn. intros x a Hx E. specialize (Hn x a Hx E). lia. Qed.

Lemma wp_on_alloc {A} (m : oprog A) (Q : A -> vinyl T O -> Prop) v :
  wp m (fun a oom => Q a (v <| v_oom := oom |>)) (v_oom v) -> wp (on_alloc m) Q v.
Proof. unfold wp, on_alloc. by destruct (m (v_oom v)) as [[a oom]|]. Qed.
(** An allocation may fail. *)
Lemma wp_fails_any (Q : bool -> list bool -> Prop) oom : (forall b oom', (b = true -> true ∈ oom) -> (true ∉ oom -> true ∉ oom') -> Q b oom') -> wp fails Q oom.
Proof. intros H. destruct oom as [|b oom]; cbn; apply H; try done; set_solver. Qed.

(** ** Writing *)

Lemma newest_sorted e S : tree_sorted S -> key_newest e S -> tree_sorted (snd (tree_insert e S)).
Proof. intros Hs Hn. by apply insert_newest. Qed.

Lemma written_lsm v x x1 m :
  lsm_ok v -> key_newest x (tree v) -> mem_stmt x -> MAX_LSN <= s_lsn x -> s_addr x = Some (v_next v) -> s_n_upserts x = 0 ->
  counted (v_mem v) x x1 -> grown (v_mem v) x1 m ->
  lsm_ok (v <| v_next ::= Z.succ |> <| v_mem := m |>) /\ (forall y, y ∈ mem_tree m <-> y = x1 \/ y ∈ tree v) /\
  (forall k, of_key k (mem_tree m) = of_key k [x1] ++ of_key k (tree v)).
Proof.
  intros [H1 H2 H3 H4 H5 H6 H7 H8 H9 H10] Hn Hx Hl Ha Hn0 Hc Hg. destruct (counted_fields _ _ _ Hc) as (Et & El & Eu & Ea).
  assert (key_newest x1 (tree v)) as Hn1 by (unfold key_newest; by rewrite Eu, El).
  destruct (insert_newest x1 (tree v) H1 Hn1) as (I1 & I2 & _ & I4). destruct Hg as [G1 G2 G3]. rewrite <- G1 in *.
  assert (forall y, y ∈ mem_tree m <-> y = x1 \/ y ∈ tree v) as Hin by (intros y; by rewrite I2, elem_of_cons).
  assert (s_addr x1 = Some (v_next v)) as Ea1 by congruence.
  assert (mem_stmt x1) as Hx1.
  { destruct Hc as [[_ ->]|(_ & n & -> & _)]; [done|]. destruct Hx. by split. }
  split_and!; [|done|done]. split; cbn; try done.
  - congruence.
  - destruct H5 as [M1 M2]. split; [rewrite G2, M1, I2; cbn; lia|]. rewrite I2. constructor; [|done]. split; [congruence|].
    destruct Hc as [[_ ->]|(_ & n & -> & Hb & _)]; [rewrite Hn0; by vm_compute|done].
  - intros y z [->|Hy]%Hin [->|Hz]%Hin E; [done| | |by apply H6].
    + rewrite Ea1 in E. symmetry in E. specialize (H7 z _ Hz E). lia.
    + rewrite Ea1 in E. specialize (H7 y _ Hy E). lia.
  - intros y a [->|Hy]%Hin E; [rewrite Ea1 in E; injection E as <-; lia|]. specialize (H7 y a Hy E). lia.
  - rewrite I2. by constructor.
  - rewrite H9. unfold committed. rewrite I2, filter_cons_False by lia. done.
  - intros k. rewrite I4. destruct (decide (same_key k (s_tuple x1))) as [Hk|Hk]; [|rewrite of_key_miss by done; apply H10].
    rewrite of_key_hit by done. cbn. split; [|apply H10]. rewrite (of_key_same k (s_tuple x)) by (by rewrite <- Eu). intros Hu.
    destruct Hc as [[Hc _]|(_ & n & -> & _ & C1 & C2)]; [congruence|]. by split.
Qed.

Lemma lsm_set_spec v e : lsm_ok v -> client_stmt e -> key_newest e (tree v) -> MAX_LSN <= s_lsn e ->
  wp (vy_lsm_set e None) (fun '(rc, r) w => lsm_ok w /\
    ((rc = -1 /\ true ∈ v_oom v /\ tree w = tree v) \/
     (rc = 0 /\ exists x, r = Some x /\ alike e x /\ (forall y, y ∈ tree w <-> y = x \/ y ∈ tree v) /\
       (forall k, of_key k (tree w) = of_key k [x] ++ of_key k (tree v)) /\ (true ∉ v_oom v -> true ∉ v_oom w)))) v.
Proof.
  intros Hv [C1 C2 [C3 C4]] Hn Hl. unfold vy_lsm_set. apply wp_bind, wp_assert. split; [done|]. apply wp_bind. unfold vy_stmt_dup_lsregion.
  apply wp_bind, wp_on_alloc, wp_fails_any. intros [] oom Hb Ho; [apply wp_ret, wp_ret; split; [by apply lsm_ok_oom|left; split_and!; [done|by apply Hb|done]]|].
  apply wp_bind, wp_gets, wp_bind, wp_modify, wp_ret. set (x := e <| s_addr := Some _ |> <| s_refable := _ |> <| s_n_upserts := 0 |>).
  apply wp_bind, wp_on_alloc, wp_fails_any. intros b oom2 Hb2 Ho2. cbn in Hb2, Ho2.
  apply wp_bind. set (v1 := v <| v_oom := oom2 |>). pose proof (lsm_ok_oom v oom2 Hv) as Hv1.
  apply mem_insert_spec; [apply Hv|done|apply Hv|done| |].
  - intros -> x1. apply wp_ret. split; [apply (lsm_ok_next v1); [done|cbn; lia]|]. left. split_and!; [done| |done].
    specialize (Hb2 eq_refl). destruct (decide (true ∈ v_oom v)); [done|]. by apply Ho in Hb2.
  - intros x1 m Hc Hg. apply wp_ret. assert (mem_stmt x) by (by split). destruct (written_lsm v1 x x1 m) as (W1 & W2 & W3); [done..|].
    split; [exact W1|]. right. split; [done|]. exists x1. split_and!; [done| |done|done|cbn; tauto].
    destruct Hc as [[_ ->]|(_ & n & -> & _)]; done.
Qed.

(** ** A statement in its place *)

Lemma tree_split S1 r S2 : tree_sorted (S1 ++ r :: S2) ->
  tree_sorted S1 /\ tree_sorted S2 /\ (forall y, y ∈ S1 -> vy_mem_tree_cmp y r < 0) /\ (forall y, y ∈ S2 -> vy_mem_tree_cmp r y < 0) /\
  (forall x y, x ∈ S1 -> y ∈ S2 -> vy_mem_tree_cmp x y < 0).
Proof.
  unfold tree_sorted. intros (H1 & H2 & H3)%StronglySorted_app. apply StronglySorted_inv in H3 as [H3 Hf]. rewrite Forall_forall in Hf.
  split_and!; [done|done| |done|]; intros; apply H1; (done || by left || by right).
Qed.
Lemma cmp_lt_key x y : vy_mem_tree_cmp x y < 0 -> same_key (s_tuple x) (s_tuple y) -> s_lsn y < s_lsn x.
Proof. intros [H|[_ H]]%tree_cmp_before Hk; [unfold same_key in Hk; lia|done]. Qed.
Lemma split_not_in S1 r S2 : tree_sorted (S1 ++ r :: S2) -> r ∉ S1 /\ r ∉ S2.
Proof.
  intros (_ & _ & H1 & H2 & _)%tree_split. assert (vy_mem_tree_cmp r r = 0) as E.
  { unfold vy_mem_tree_cmp. rewrite compare_refl. cbn. by rewrite Z.ltb_irrefl. }
  split; intros H; [apply H1 in H|apply H2 in H]; lia.
Qed.

(** Another statement of the key comes to the place of [r]. *)
Lemma replace_sorted S1 r S2 x : tree_sorted (S1 ++ r :: S2) -> same_key (s_tuple r) (s_tuple x) ->
  (forall y, y ∈ S1 -> same_key (s_tuple r) (s_tuple y) -> s_lsn x < s_lsn y) ->
  (forall y, y ∈ S2 -> same_key (s_tuple r) (s_tuple y) -> s_lsn y < s_lsn x) -> tree_sorted (S1 ++ x :: S2).
Proof.
  intros Hs Hk H1 H2. apply tree_split in Hs as (Hs1 & Hs2 & Ha & Hb & Hab). unfold tree_sorted in *.
  assert (forall y, y ∈ S1 -> vy_mem_tree_cmp y x < 0) as Hx1.
  { intros y Hy. specialize (Ha y Hy). apply tree_cmp_before. apply tree_cmp_before in Ha as [Ha|[Ha _]].
    - left. eapply compare_lt_trans; [exact Ha|]. unfold same_key in Hk. lia.
    - right. split; [by etransitivity|]. apply H1; [done|by symmetry]. }
  assert (forall y, y ∈ S2 -> vy_mem_tree_cmp x y < 0) as Hx2.
  { intros y Hy. specialize (Hb y Hy). apply tree_cmp_before. apply tree_cmp_before in Hb as [Hb|[Hb _]].
    - left. symmetry in Hk. eapply compare_le_lt_trans; [|exact Hb]. unfold same_key in Hk. lia.
    - right. split; [rewrite <- Hk; done|by apply H2]. }
  apply StronglySorted_app. split_and!; [|done|by constructor; [|apply Forall_forall]].
  intros y z Hy [->|Hz]%elem_of_cons; [by apply Hx1|by apply Hab].
Qed.
Lemma insert_replaces S1 r S2 x : tree_sorted (S1 ++ r :: S2) -> vy_mem_tree_cmp x r = 0 ->
  tree_insert x (S1 ++ r :: S2) = (Some r, S1 ++ x :: S2).
Proof.
  intros Hs E. induction S1 as [|y S1 IH]; cbn [app tree_insert].
  - rewrite E. done.
  - pose proof Hs as (_ & _ & H1 & _)%(tree_split (y :: S1)). specialize (H1 y ltac:(by left)).
    destruct (cmp_same_place r x y E) as [_ H2].
    assert (0 < vy_mem_tree_cmp x y) as H3.
    { assert (vy_mem_tree_cmp r y <> 0) as Hn.
      { intros Ez. apply cmp_zero in Ez as [Ek El]. apply tree_cmp_before in H1 as [H1|[_ H1]]; [|lia]. symmetry in Ek. unfold same_key in Ek. lia. }
      destruct (Z.lt_trichotomy (vy_mem_tree_cmp x y) 0) as [Hlt|[Hz|Hgt]]; [|tauto|done].
      assert (vy_mem_tree_cmp r y < 0) as Hry by (by apply (cmp_same_place r x y E)).
      pose proof (tree_cmp_trans _ _ _ Hry H1) as Hrr. unfold vy_mem_tree_cmp in Hrr. rewrite compare_refl in Hrr. cbn in Hrr. rewrite Z.ltb_irrefl in Hrr. lia. }
    destruct (Z.ltb_spec (vy_mem_tree_cmp x y) 0); [lia|]. destruct (Z.eqb_spec (vy_mem_tree_cmp x y) 0); [lia|].
    rewrite IH; [done|]. unfold tree_sorted in *. by apply StronglySorted_inv in Hs as [? _].
Qed.

(** vy_mem_older_lsn finds the next statement of the key. *)
Lemma older_lsn_at m S1 e S2 : tree_sorted (S1 ++ e :: S2) -> mem_tree m = S1 ++ e :: S2 -> s_lsn e <= INT64_MAX - 1 ->
  vy_mem_older_lsn m e = head (of_key (s_tuple e) S2).
Proof.
  intros Hs Em Hl. apply tree_split in Hs as (_ & Hs2 & H1 & H2 & _). unfold vy_mem_older_lsn, lower_bound. rewrite Em, cons_middle, app_assoc.
  rewrite (bound_spec _ (S1 ++ [e]) S2).
  - destruct S2 as [|y S2]; [done|]. unfold mbind, option_bind. rewrite lookup_at.
    destruct (Z.eqb_spec (tuple_compare (s_tuple y) (s_tuple e)) 0) as [Ek|Ek].
    + rewrite of_key_hit; [done|]. symmetry. exact Ek.
    + cbn [negb]. assert (of_key (s_tuple e) (y :: S2) = []) as ->; [|done]. apply filter_none_in. intros z Hz Hk. unfold at_key in Hk.
      specialize (H2 y ltac:(by left)). apply tree_cmp_before in H2 as [H2|[H2 _]]; [|symmetry in H2; done].
      apply elem_of_cons in Hz as [->|Hz]; [unfold same_key in Hk; lia|]. unfold tree_sorted in Hs2. apply StronglySorted_inv in Hs2 as [_ Hf]. rewrite Forall_forall in Hf.
      specialize (Hf z Hz). assert (tuple_compare (s_tuple y) (s_tuple z) <= 0) by (apply tree_cmp_before in Hf as [?|[? _]]; unfold same_key in *; lia).
      pose proof (compare_lt_trans _ _ _ H2 H). unfold same_key in Hk. lia.
  - apply Forall_app_2; [|constructor; [by apply older_self_test|done]]. apply Forall_forall. intros y Hy. specialize (H1 y Hy). apply Z.leb_gt. unfold vy_mem_tree_cmp_key; cbn [tuple_compare_with_key search_tuples].
    apply tree_cmp_before in H1 as [H1|[H1 H1']]; [destruct (Z.eqb_spec (tuple_compare (s_tuple y) (s_tuple e)) 0); lia|].
    unfold same_key in H1. rewrite H1. cbn. destruct (Z.eqb_spec (s_lsn e - 1) (INT64_MAX - 1)); [lia|]. destruct (Z.ltb_spec (s_lsn e - 1) (s_lsn y)); lia.
  - destruct S2 as [|y S2]; [done|]. specialize (H2 y ltac:(by left)). apply Z.leb_le. unfold vy_mem_tree_cmp_key; cbn [tuple_compare_with_key search_tuples].
    pose proof (compare_flip (s_tuple y) (s_tuple e)). apply tree_cmp_before in H2 as [H2|[H2 H2']].
    + destruct (Z.eqb_spec (tuple_compare (s_tuple y) (s_tuple e)) 0); lia.
    + symmetry in H2. unfold same_key in H2. rewrite H2. cbn. destruct (Z.eqb_spec (s_lsn e - 1) (INT64_MAX - 1)); [lia|].
      destruct (Z.ltb_spec (s_lsn e - 1) (s_lsn y)); [lia|]. destruct (Z.ltb_spec (s_lsn y) (s_lsn e - 1)); lia.
Qed.

(** ** Rolling back *)

Lemma counts_ok_tail x l : counts_ok (x :: l) -> counts_ok l.
Proof. by intros [_ H]. Qed.
Lemma rollback_filter S1 r S2 : tree_sorted (S1 ++ r :: S2) -> filter (fun e => vy_mem_tree_cmp r e <> 0) (S1 ++ r :: S2) = S1 ++ S2.
Proof.
  intros (_ & _ & H1 & H2 & _)%tree_split. assert (vy_mem_tree_cmp r r = 0) as E.
  { unfold vy_mem_tree_cmp. rewrite compare_refl. cbn. by rewrite Z.ltb_irrefl. }
  rewrite filter_app, filter_cons_False by (intros H; by apply H). f_equal; apply filter_all_in; intros y Hy Ez.
  - specialize (H1 y Hy). apply cmp_zero in Ez as [Ek El]. symmetry in Ek. pose proof (cmp_lt_key _ _ H1 Ek). lia.
  - specialize (H2 y Hy). lia.
Qed.
Lemma of_key_newest k S1 r S2 : (forall y, y ∈ S1 -> ~ same_key (s_tuple r) (s_tuple y)) ->
  of_key k (S1 ++ r :: S2) = of_key k [r] ++ of_key k (S1 ++ S2).
Proof.
  intros H. rewrite !of_key_app. change (r :: S2) with ([r] ++ S2). rewrite of_key_app, !app_assoc. f_equal. destruct (decide (same_key k (s_tuple r))) as [Hk|Hk].
  - assert (of_key k S1 = []) as ->; [|by rewrite app_nil_r]. apply filter_none_in. intros y Hy Hy'. apply (H y Hy). unfold at_key in Hy'. rewrite <- Hk. done.
  - rewrite of_key_miss by done. by rewrite app_nil_r.
Qed.

Definition rolled_back v r : vinyl T O := v <| v_mem ::= fun m => vy_mem_rollback_stmt m r |>.
Lemma rollback_lsm v r : lsm_ok v -> r ∈ tree v -> MAX_LSN <= s_lsn r -> (forall y, y ∈ tree v -> same_key (s_tuple r) (s_tuple y) -> s_lsn y <= s_lsn r) ->
  lsm_ok (rolled_back v r) /\ (forall y, y ∈ tree v <-> y = r \/ y ∈ tree (rolled_back v r)) /\ r ∉ tree (rolled_back v r) /\
  (forall k, of_key k (tree v) = of_key k [r] ++ of_key k (tree (rolled_back v r))).
Proof.
  intros [H1 H2 H3 H4 H5 H6 H7 H8 H9 H10] Hr Hl Hn. apply list_elem_of_split in Hr as (S1 & S2 & E). rewrite E in *.
  assert (forall y, y ∈ S1 -> ~ same_key (s_tuple r) (s_tuple y)) as Hk.
  { intros y Hy Hk. pose proof H1 as (_ & _ & H1' & _)%tree_split. specialize (H1' y Hy). symmetry in Hk. pose proof (cmp_lt_key _ _ H1' Hk).
    specialize (Hn y ltac:(set_solver) ltac:(by symmetry)). lia. }
  assert (tree (rolled_back v r) = S1 ++ S2) as Et by (cbn; rewrite E; by apply rollback_filter).
  pose proof (of_key_newest) as Hok. destruct (split_not_in _ _ _ H1) as [Hni1 Hni2].
  assert (forall y, y ∈ S1 ++ r :: S2 <-> y = r \/ y ∈ S1 ++ S2) as Hin by (intros y; set_solver).
  rewrite Et. split_and!; [|done|set_solver|intros k; by apply of_key_newest].
  split; rewrite ?Et; try done.
  - apply tree_split in H1 as (Hs1 & Hs2 & _ & _ & Hs). unfold tree_sorted in *. by apply StronglySorted_app.
  - destruct H5 as [M1 M2]. rewrite E in M1, M2. split.
    + change (mem_rows (v_mem v) - 1 = Z.of_nat (length (tree (rolled_back v r)))). rewrite Et, M1, !length_app. cbn. lia.
    + change (Forall (fun x => s_addr x <> None /\ 0 <= s_n_upserts x <= VY_UPSERT_INF) (tree (rolled_back v r))). rewrite Et.
      apply Forall_app in M2 as [M2 M3]. apply Forall_cons in M3 as [_ M3]. by apply Forall_app_2.
  - intros x y Hx Hy. apply H6; apply Hin; by right.
  - intros x a Hx. apply H7. apply Hin. by right.
  - apply Forall_app in H8 as [M2 M3]. apply Forall_cons in M3 as [_ M3]. by apply Forall_app_2.
  - cbn. rewrite H9. unfold committed. rewrite !filter_app, filter_cons_False by lia. done.
  - intros k. specialize (H10 k). rewrite (of_key_newest k S1 r S2 Hk) in H10. destruct (decide (same_key k (s_tuple r))) as [Hkr|Hkr].
    + rewrite of_key_hit in H10 by done. by apply counts_ok_tail in H10.
    + by rewrite of_key_miss in H10 by done.
Qed.

(** ** Committing *)

(** What a read view sees of a statement that has got an LSN. *)
Definition later (lsn tag n : Z) : Z := if decide (lsn <= n < tag) then tag else n.

Lemma visible_in b n l : (forall y, y ∈ l -> s_lsn y <= n) -> visible b n l = state_of b l.
Proof. intros H. unfold visible. by rewrite filter_all_in. Qed.
Lemma visible_out b n l : (forall y, y ∈ l -> n < s_lsn y) -> visible b n l = b.
Proof. intros H. unfold visible. rewrite filter_none_in; [done|]. intros y Hy Hle. specialize (H y Hy). lia. Qed.
Lemma visible_cons b n x l : visible b n (x :: l) = if decide (s_lsn x <= n) then apply_stmt (visible b n l) x else visible b n l.
Proof. unfold visible. rewrite filter_cons. destruct (decide (s_lsn x <= n)); [|done]. apply state_of_cons. Qed.

(** [r] was the oldest statement of the key that was not committed yet. *)
Record oldest S1 r S2 (lsn : Z) : Prop := {
  od_lsn : lsn < s_lsn r;
  od_above : forall y, y ∈ S1 -> same_key (s_tuple r) (s_tuple y) -> s_lsn r < s_lsn y;
  od_below : forall y, y ∈ S2 -> same_key (s_tuple r) (s_tuple y) -> s_lsn y < lsn;
}.
Lemma visible_committed k n S1 r S2 x lsn : oldest S1 r S2 lsn -> s_lsn x = lsn -> same_key (s_tuple r) (s_tuple x) ->
  apply_stmt (state_of None (of_key (s_tuple r) S2)) x = apply_stmt (state_of None (of_key (s_tuple r) S2)) r ->
  visible None n (of_key k (S1 ++ x :: S2)) =
    visible None (if decide (same_key k (s_tuple r)) then later lsn (s_lsn r) n else n) (of_key k (S1 ++ r :: S2)).
Proof.
  intros [H1 H2 H3] El Hk Hv. rewrite !of_key_app. destruct (decide (same_key k (s_tuple r))) as [Hkr|Hkr].
  - rewrite !of_key_hit by (rewrite Hkr; done). rewrite (of_key_same k (s_tuple r)) by done. rewrite !(of_key_same k (s_tuple r)) by done.
    assert (forall y, y ∈ of_key (s_tuple r) S1 -> s_lsn r < s_lsn y) as HA by (intros y [Hy Hy']%of_key_elem; by apply H2).
    assert (forall y, y ∈ of_key (s_tuple r) S2 -> s_lsn y < lsn) as HB by (intros y [Hy Hy']%of_key_elem; by apply H3).
    rewrite !visible_app, !visible_cons, El. unfold later. destruct (decide (lsn <= n < s_lsn r)) as [Hn|Hn].
    + rewrite (visible_out _ n) by (intros y Hy; specialize (HA y Hy); lia). rewrite (visible_out _ (s_lsn r)) by done.
      rewrite !visible_in by (intros y Hy; specialize (HB y Hy); lia). rewrite decide_True, decide_True by lia. done.
    + destruct (decide (lsn <= n)) as [Hn2|Hn2].
      * rewrite decide_True by lia. rewrite !visible_in with (l := of_key (s_tuple r) S2) by (intros y Hy; specialize (HB y Hy); lia). by rewrite Hv.
      * rewrite decide_False by lia. done.
  - rewrite !of_key_miss by (try rewrite <- Hk; done). done.
Qed.

Lemma counts_replace A r x B : counts_ok (A ++ r :: B) ->
  (s_type x = s_type r /\ s_n_upserts x = s_n_upserts r) \/ (terminal x /\ s_type r = IPROTO_UPSERT /\ s_n_upserts r = 0) -> counts_ok (A ++ x :: B).
Proof.
  intros H Hx. induction A as [|y A IH]; cbn [app counts_ok] in *.
  - destruct H as [H1 H2]. split; [|done]. intros Ht. destruct Hx as [[E1 E2]|[Hx _]]; [|done]. rewrite E1 in Ht. rewrite E2. by apply H1.
  - destruct H as [H1 H2]. split; [|by apply IH]. intros Ht. destruct (H1 Ht) as [H3 H4]. destruct A as [|z A]; [|done]. cbn in *. split.
    + intros Hn p [= <-]. specialize (H3 Hn r eq_refl). destruct Hx as [[E1 _]|[Hx _]]; [unfold terminal in *; congruence|done].
    + intros Hn. destruct (H4 Hn) as (o & [= <-] & Ho1 & Ho2). exists x. destruct Hx as [[E1 E2]|(_ & _ & E)]; [split_and!; congruence|]. unfold VY_UPSERT_THRESHOLD in Ho2. lia.
Qed.

(** The LSM tree with [x] in the place of [r]. *)
Record replaced v S1 r S2 x w : Prop := {
  rp_tree : tree w = S1 ++ x :: S2;
  rp_sealed : v_sealed w = v_sealed v;
  rp_slices : v_slices w = v_slices v;
  rp_gen : v_generation w = v_generation v;
  rp_mem_gen : mem_generation (v_mem w) = mem_generation (v_mem v);
  rp_mem_rows : mem_rows (v_mem w) = mem_rows (v_mem v);
  rp_next : v_next v <= v_next w;
  rp_addr : s_addr x = s_addr r \/ exists a, s_addr x = Some a /\ v_next v <= a < v_next w;
  rp_rows : v_rows w = Z.of_nat (length (committed (S1 ++ x :: S2)));
}.
Lemma replaced_lsm v S1 r S2 x w :
  lsm_ok v -> tree v = S1 ++ r :: S2 -> replaced v S1 r S2 x w -> tree_sorted (S1 ++ x :: S2) -> mem_stmt x -> 0 <= s_n_upserts x <= VY_UPSERT_INF ->
  same_key (s_tuple r) (s_tuple x) ->
  (s_type x = s_type r /\ s_n_upserts x = s_n_upserts r) \/ (terminal x /\ s_type r = IPROTO_UPSERT /\ s_n_upserts r = 0) -> lsm_ok w.
Proof.
  intros [H1 H2 H3 H4 H5 H6 H7 H8 H9 H10] E [R1 R2 R3 R4 R5 R6 R7 R8 R9] Hs Hx Hn Hk Hc. rewrite E in *.
  assert (forall y, y ∈ S1 ++ x :: S2 -> y = x \/ y ∈ S1 ++ r :: S2 /\ y <> r) as Hin.
  { destruct (split_not_in _ _ _ H1). intros y [Hy|[->|Hy]%elem_of_cons]%elem_of_app; [right|by left|right]; (split; [set_solver|congruence]). }
  assert (r ∈ S1 ++ r :: S2) as Hr by set_solver.
  assert (forall y, y ∈ S1 ++ r :: S2 -> y <> r -> s_addr y <> s_addr x) as Ha.
  { intros y Hy Hne Ey. destruct R8 as [R8|(a & R8 & Hb)]; [apply Hne, H6; [done|done|congruence]|]. rewrite R8 in Ey. specialize (H7 y a Hy Ey). lia. }
  split; rewrite ?R1; try congruence.
  - destruct H5 as [M1 M2]. rewrite E in M1, M2. split; [rewrite R6, M1, R1, !length_app; done|]. rewrite R1.
    apply Forall_app in M2 as [M2 M3]. apply Forall_cons in M3 as [[M3 M4] M5]. apply Forall_app_2; [done|]. constructor; [|done]. split; [|done].
    destruct R8 as [->|(a & -> & _)]; done.
  - intros y z [->|[Hy Hy']]%Hin [->|[Hz Hz']]%Hin Ea; [done| | |by apply H6].
    + by destruct (Ha z Hz Hz').
    + by destruct (Ha y Hy Hy').
  - intros y a [->|[Hy Hy']]%Hin Ea; [|specialize (H7 y a Hy Ea); lia]. destruct R8 as [R8|(b & R8 & Hb)].
    + rewrite R8 in Ea. specialize (H7 r a Hr Ea). lia.
    + rewrite R8 in Ea. injection Ea as <-. lia.
  - apply Forall_app in H8 as [M2 M3]. apply Forall_cons in M3 as [_ M3]. apply Forall_app_2; [done|by constructor].
  - intros k. specialize (H10 k). rewrite of_key_app in H10 |- *. destruct (decide (same_key k (s_tuple r))) as [Hkr|Hkr].
    + rewrite of_key_hit in H10 |- * by (rewrite Hkr; done). by eapply counts_replace.
    + rewrite of_key_miss in H10 by done. by rewrite of_key_miss by (rewrite <- Hk; done).
Qed.

Definition relabel r (lsn : Z) : prog (vinyl T O) unit :=
  modify (fun v => v <| v_mem ::= fun m => m <| mem_tree ::= map (fun e => if same_addr r e then e <| s_lsn := lsn |> else e) |> |>).
Lemma relabel_tree v S1 r S2 (lsn : Z) : lsm_ok v -> tree v = S1 ++ r :: S2 ->
  map (fun e => if same_addr r e then e <| s_lsn := lsn |> else e) (tree v) = S1 ++ r <| s_lsn := lsn |> :: S2.
Proof.
  intros Hv E. pose proof (mo_stmts _ (lm_mem _ Hv)) as Ha. pose proof (lm_addr _ Hv) as Hu. pose proof (lm_sorted _ Hv) as Hs. rewrite E in *.
  destruct (split_not_in _ _ _ Hs) as [N1 N2]. rewrite Forall_forall in Ha. destruct (Ha r ltac:(set_solver)) as [Hr _].
  assert (forall e, e ∈ S1 ++ S2 -> same_addr r e = false) as Hne.
  { intros e He. unfold same_addr. destruct (s_addr r) as [a|] eqn:Er; [|done]. destruct (s_addr e) as [b|] eqn:Ee; [|done].
    apply Z.eqb_neq. intros ->. assert (r = e) by (apply Hu; [set_solver|set_solver|congruence]). set_solver. }
  assert (same_addr r r = true) as Hrr by (unfold same_addr; destruct (s_addr r); [apply Z.eqb_refl|done]).
  rewrite map_app. cbn [map]. rewrite Hrr. f_equal; [|f_equal].
  - transitivity (map id S1); [|apply map_id]. apply map_ext_in. intros e He%list_elem_of_In. by rewrite Hne by set_solver.
  - transitivity (map id S2); [|apply map_id]. apply map_ext_in. intros e He%list_elem_of_In. by rewrite Hne by set_solver.
Qed.
Lemma counts_at A x B : counts_ok (A ++ x :: B) -> s_type x = IPROTO_UPSERT ->
  (s_n_upserts x = 0 -> forall p, head B = Some p -> terminal p) /\
  (s_n_upserts x = VY_UPSERT_THRESHOLD -> exists o, head B = Some o /\ s_type o = IPROTO_UPSERT /\ s_n_upserts o = VY_UPSERT_THRESHOLD - 1).
Proof. intros H Ht. induction A as [|y A IH]; cbn in H; destruct H as [H1 H2]; [by apply H1|by apply IH]. Qed.

Section Commit.
Context (v : vinyl T O) (S1 : list stmt) (r : stmt) (S2 : list stmt) (lsn : Z).
Context (Hv : lsm_ok v) (E : tree v = S1 ++ r :: S2) (Htag : MAX_LSN <= s_lsn r) (Hlsn : lsn < MAX_LSN) (Hold : oldest S1 r S2 lsn).
Abbreviation r' := (r <| s_lsn := lsn |>).
Abbreviation below := (state_of None (of_key (s_tuple r) S2)).

(** The statement has been committed, maybe as a REPLACE. *)
Definition committed_as w x : Prop :=
  lsm_ok w /\ true ∉ v_oom w /\ tree w = S1 ++ x :: S2 /\ s_lsn x = lsn /\ same_key (s_tuple r) (s_tuple x) /\ apply_stmt below x = apply_stmt below r.

Lemma in_place x : s_lsn x = lsn -> same_key (s_tuple r) (s_tuple x) -> tree_sorted (S1 ++ x :: S2).
Proof.
  intros El Hk. eapply (replace_sorted S1 r S2); [rewrite <- E; apply Hv|done| |].
  - intros y Hy Hky. pose proof (od_above _ _ _ _ Hold y Hy Hky). pose proof (od_lsn _ _ _ _ Hold). lia.
  - intros y Hy Hky. pose proof (od_below _ _ _ _ Hold y Hy Hky). lia.
Qed.
Lemma one_more x : s_lsn x = lsn -> length (committed (S1 ++ x :: S2)) = Datatypes.S (length (committed (tree v))).
Proof.
  intros El. rewrite E. unfold committed. rewrite !filter_app, !length_app, filter_cons_True by lia. rewrite filter_cons_False by lia. cbn. lia.
Qed.
Lemma r_in : mem_stmt r /\ 0 <= s_n_upserts r <= VY_UPSERT_INF /\ s_addr r <> None.
Proof.
  assert (r ∈ tree v) as Hr by (rewrite E; set_solver). pose proof (lm_stmts _ Hv) as Hs. pose proof (mo_stmts _ (lm_mem _ Hv)) as Hm.
  rewrite Forall_forall in Hs. rewrite Forall_forall in Hm. split; [by apply Hs|]. destruct (Hm r Hr). done.
Qed.

(** After the counters of rows. *)
Lemma counted_lsm w : replaced v S1 r S2 r' w -> lsm_ok w.
Proof.
  intros Hr. destruct r_in as ([M1 M2 M3] & Hn & _). eapply replaced_lsm; [exact Hv|exact E|exact Hr|by apply in_place|by split|done|reflexivity|by left].
Qed.
Lemma counts_r w : lsm_ok w -> tree w = S1 ++ r' :: S2 -> s_type r = IPROTO_UPSERT ->
  (s_n_upserts r = 0 -> forall p, head (of_key (s_tuple r) S2) = Some p -> terminal p) /\
  (s_n_upserts r = VY_UPSERT_THRESHOLD -> exists o, head (of_key (s_tuple r) S2) = Some o /\ s_type o = IPROTO_UPSERT /\ s_n_upserts o = VY_UPSERT_THRESHOLD - 1).
Proof.
  intros Hw Ew Ht. pose proof (lm_counts _ Hw (s_tuple r)) as Hc. rewrite Ew, of_key_app, of_key_hit in Hc by reflexivity.
  by apply (counts_at _ r') in Hc.
Qed.

Abbreviation older := (head (of_key (s_tuple r) S2)).
Lemma older_value : s_type r = IPROTO_UPSERT -> upsert_ok r -> (forall p, older = Some p -> terminal p /\ upsert_ok p) ->
  apply_stmt below (upsert_result r' older) = apply_stmt below r.
Proof.
  intros Ht Hok Hterm. destruct (of_key (s_tuple r) S2) as [|p B]; cbn [head] in *.
  - change (state_of None []) with (@None T). by rewrite upsert_result_none.
  - destruct (Hterm p eq_refl) as [Hp Hpo]. rewrite upsert_result_some by done. rewrite state_of_cons, (apply_terminal p _ (state_of None B)) by done. done.
Qed.
Lemma older_at w p : lsm_ok w -> tree w = S1 ++ r' :: S2 -> older = Some p -> p ∈ S2 /\ same_key (s_tuple r) (s_tuple p) /\ upsert_ok p /\ s_lsn p < lsn.
Proof.
  intros Hw Ew Hp. assert (p ∈ of_key (s_tuple r) S2) as Hi by (by apply head_Some_elem_of). apply of_key_elem in Hi as [Hk Hi].
  pose proof (lm_stmts _ Hw) as Hs. rewrite Ew, Forall_forall in Hs. split_and!; [done|done| |by apply (od_below _ _ _ _ Hold)].
  apply Hs. set_solver.
Qed.

Lemma tx_squash_spec w : lsm_ok w -> tree w = S1 ++ r' :: S2 -> v_rows w = Z.of_nat (length (committed (tree w))) -> true ∉ v_oom w ->
  s_type r = IPROTO_UPSERT -> s_n_upserts r = 0 -> wp (squash_upsert r') (fun _ w => exists x, committed_as w x) w.
Proof.
  intros Hw Ew Hrows Ho Ht Hn0. destruct (counts_r w Hw Ew Ht) as [Hterm _]. specialize (Hterm Hn0). destruct r_in as ([M1 M2 M3] & Hn & Ha).
  assert (lsn <= INT64_MAX - 1) as Hmax by (assert (MAX_LSN <= INT64_MAX - 1) by (by vm_compute); lia).
  assert (vy_mem_older_lsn (v_mem w) r' = older) as Eo.
  { rewrite (older_lsn_at (v_mem w) S1 r' S2); [done|rewrite <- Ew; apply Hw|done|done]. }
  unfold squash_upsert. apply wp_bind, wp_gets. rewrite Eo. apply wp_bind, wp_assert. split; [destruct older as [o|] eqn:Eol; [|done]; by rewrite has_type_ne by (by apply Hterm)|].
  apply wp_bind, wp_on_alloc. eapply wp_mono; [by apply apply_upsert_fine|]. intros u oom [Ho1 ->].
  set (u := upsert_result r' older). assert (s_lsn u = lsn) as El by apply upsert_result_lsn.
  change (s_lsn r') with lsn. rewrite El, Z.eqb_refl. cbn [negb]. apply wp_bind, wp_assert. split.
  { destruct older as [o|] eqn:Eol; [|done]. destruct (older_at w o Hw Ew Eol) as (_ & _ & _ & H). destruct (Z.eqb_spec lsn (s_lsn o)); [lia|done]. }
  assert (s_type u = IPROTO_REPLACE) as Hu by (by apply upsert_result_terminal). apply wp_bind, wp_assert. split; [by apply has_type_eq|].
  assert (same_key (s_tuple r) (s_tuple u)) as Hk.
  { change (s_tuple r) with (s_tuple r'). apply upsert_result_key. intros p Hp. destruct (older_at w p Hw Ew Hp) as (_ & H & _). by symmetry. }
  assert (s_refable u = true /\ has_flag VY_STMT_SKIP_READ u = false) as [Hru Hsu].
  { subst u. unfold upsert_result. destruct older as [o|]; [by destruct (has_type IPROTO_UPSERT o)|done]. }
  assert (apply_stmt below u = apply_stmt below r) as Hval.
  { apply older_value; [done|done|]. intros p Hp. split; [by apply Hterm|]. by destruct (older_at w p Hw Ew Hp) as (_ & _ & H & _). }
  clearbody u. unfold vy_stmt_dup_lsregion. apply wp_bind, wp_bind, wp_on_alloc, wp_fails; [done|]. intros o2 Ho2.
  apply wp_bind, wp_gets, wp_bind, wp_modify, wp_ret. set (x := u <| s_addr := Some _ |> <| s_refable := _ |> <| s_n_upserts := 0 |>).
  apply wp_bind. unfold vy_lsm_set. apply wp_bind, wp_assert. split; [done|]. apply wp_bind, wp_ret, wp_bind, wp_on_alloc, wp_fails; [done|]. intros o3 Ho3.
  apply wp_bind. set (w1 := update v_oom _ _).
  assert (vy_mem_insert (v_mem w1) x false = (0, (v_mem w) <| mem_tree := S1 ++ x :: S2 |> <| mem_version ::= fun n => u32 (n + 1) |>)) as Ei.
  { unfold vy_mem_insert. change (v_mem w1) with (v_mem w). rewrite Ew, insert_replaces; [by destruct (v_mem w)|rewrite <- Ew; apply Hw|].
    unfold vy_mem_tree_cmp. change (s_tuple x) with (s_tuple u). change (s_lsn x) with (s_lsn u). cbn. rewrite El. symmetry in Hk. unfold same_key in Hk. rewrite Hk. cbn. by rewrite Z.ltb_irrefl. }
  unfold wp at 1. unfold mem_insert. rewrite has_type_ne by (cbn; congruence). rewrite Ei. apply wp_ret, wp_bind, wp_assert. split; [done|].
  apply wp_modify. exists x. split_and!; [|done|done|done|done|done].
  eapply (replaced_lsm w S1 r' S2 x); [done|done| |by apply in_place| |by vm_compute|done|right; split_and!; [by unfold terminal; cbn; rewrite Hu|done|done]].
  - split; try done; [cbn; lia|right; exists (v_next w); split; [done|cbn; lia]|].
    transitivity (v_rows w); [done|]. rewrite Hrows, Ew. f_equal. unfold committed. rewrite !filter_app, !length_app, !filter_cons_True by (cbn; lia). done.
  - split; [|done|done]. intros Hx. cbn in Hx. congruence.
Qed.

Lemma tx_commit_spec : true ∉ v_oom v -> wp (relabel r lsn;; vy_lsm_commit_stmt r') (fun _ w => exists x, committed_as w x) v.
Proof.
  intros Ho. unfold relabel, vy_lsm_commit_stmt. apply wp_bind, wp_modify, wp_bind, wp_modify, wp_bind, wp_modify.
  set (w := update v_rows _ _).
  assert (tree w = S1 ++ r' :: S2) as Ew by (exact (relabel_tree v S1 r S2 lsn Hv E)).
  assert (v_rows w = Z.of_nat (length (committed (S1 ++ r' :: S2)))) as Er.
  { rewrite one_more by done. cbn. rewrite (lm_rows _ Hv). lia. }
  assert (lsm_ok w) as Hw by (apply counted_lsm; split; try done; by left).
  assert (committed_as w r') as Hc by (split_and!; try done; reflexivity). assert (true ∉ v_oom w) as How by done.
  clearbody w. destruct (has_type IPROTO_UPSERT r') eqn:Et; [|apply wp_ret; by exists r']. apply has_typeP in Et. change (s_type r') with (s_type r) in Et.
  destruct (counts_r w Hw Ew Et) as [_ Hth]. unfold vy_lsm_commit_upsert. apply wp_bind, wp_assert. split; [by apply has_type_eq|]. cbv zeta. change (s_n_upserts r') with (s_n_upserts r).
  destruct (Z.eqb_spec (s_n_upserts r) VY_UPSERT_INF) as [_|_]; [apply wp_ret; by exists r'|].
  destruct (Z.eqb_spec (s_n_upserts r) VY_UPSERT_THRESHOLD) as [En|_].
  - apply wp_assert. split; [|by exists r']. destruct (Hth En) as (o & Eo & Ho1 & Ho2).
    assert (lsn <= INT64_MAX - 1) as Hmax by (assert (MAX_LSN <= INT64_MAX - 1) by (by vm_compute); lia).
    rewrite (older_lsn_at (v_mem w) S1 r' S2); [|rewrite <- Ew; apply Hw|done|done]. change (s_tuple r') with (s_tuple r). rewrite Eo, has_type_eq by done. by apply Z.eqb_eq.
  - apply wp_bind, wp_gets. destruct (_ && _) eqn:Ec; [|apply wp_ret; by exists r'].
    apply andb_prop in Ec as [Ec _]. apply andb_prop in Ec as [En _]. apply Z.eqb_eq in En. apply tx_squash_spec; [done|done|by rewrite Ew|done|done|done].
Qed.
End Commit.
End TxLsm.
