(* ===== verification/VyTxTheorems.v ===== *)
(** * Theorems on transactions

    The statements of a transaction and what a rolled back statement leaves,
    and two executions in which the transaction manager does not do what it
    means to. *)

From stdpp Require Import list sorting gmap.
From S2P Require Import Prelude VyStmt VyVisible VyCompaction VyLevels VyMem VyLsm VyLsmSafety VyTheorems VyReadSet VyReadSetTheorems VyTx VyTxLog VyTxLsm.

Open Scope Z_scope.

(** The size of a statement: a header, at most 2^15 bytes of offsets, and data
    of at most 2^32 bytes.  The tree of intervals has the intervals of the read
    set, in order. *)
Class TxEnvLaws (T O : Type) `{!TxEnv T O} : Prop := {
  rb_tree_nodes : forall l : list (vy_read_interval T), nodes (rb_tree l) = l;
  tuple_size_range : forall e : vy_stmt T O, 0 <= tuple_size e < 2 ^ 33;
}.

Section Theorems.
Context {T O : Type} `{!Tuples T O, !TuplesLaws T O, !TxEnv T O, !TxEnvLaws T O}.
Abbreviation stmt := (vy_stmt T O).
Abbreviation tx := (vy_tx T O).
Abbreviation xm := (vy_tx_manager T O).
Implicit Types (e : stmt) (raws xs : list stmt) (t : tx) (v o : txv T O) (p q : nat) (ws : list nat) (x : xm) (id : Z).

Lemma wp_on_lsm {A} (m : prog (vinyl T O) A) (Q : A -> xm -> Prop) x :
  wp m (fun a w => Q a (x <| xm_lsm := w |>)) (xm_lsm x) -> wp (on_lsm m) Q x.
Proof. unfold wp, on_lsm. by destruct (m (xm_lsm x)) as [[a w]|]. Qed.
Lemma wp_get_tx (Q : tx -> xm -> Prop) id t x : xm_txs x !! id = Some t -> Q t x -> wp (get_tx id) Q x.
Proof. unfold wp, get_tx. by intros ->. Qed.

(** ** The size of the write set *)

Definition size_at (log : list (txv T O)) p : Z := match log !! p with Some v => tuple_size (txv_entry v) | None => 0 end.
Fixpoint sizes (log : list (txv T O)) ws : Z := match ws with [] => 0 | p :: ws => size_at log p + sizes log ws end.
Definition sized t : Prop := tx_write_size t = sizes (tx_log t) (tx_write_set t).

Lemma size_at_range log p : 0 <= size_at log p < 2 ^ 33.
Proof. unfold size_at. destruct (log !! p); [apply tuple_size_range|lia]. Qed.
Lemma sizes_range log ws : 0 <= sizes log ws <= Z.of_nat (length ws) * 2 ^ 33.
Proof. induction ws as [|p ws IH]; cbn [sizes length]; [lia|]. rewrite Nat2Z.inj_succ. pose proof (size_at_range log p). lia. Qed.
Lemma sizes_app log ws ws' : sizes log (ws ++ ws') = sizes log ws + sizes log ws'.
Proof. induction ws as [|p ws IH]; cbn [sizes app]; [done|]. rewrite IH. lia. Qed.
Lemma sizes_ext log log' ws : (forall p, p ∈ ws -> size_at log p = size_at log' p) -> sizes log ws = sizes log' ws.
Proof. induction ws as [|p ws IH]; intros H; cbn [sizes]; [done|]. rewrite (H p), IH; [done|intros q Hq; apply H; by right|by left]. Qed.

Lemma ws_length t : ws_ok t -> (length (tx_write_set t) <= length (tx_log t))%nat.
Proof.
  intros H. assert (NoDup (tx_write_set t)) as Hd.
  { pose proof (wo_sorted _ H) as Hs. induction Hs as [|p ws Hs IH Hf]; constructor; [|done]. intros Hin. rewrite Forall_forall in Hf. specialize (Hf p Hin).
    unfold lt_key in Hf. destruct (log_entry t p); [|done]. rewrite compare_refl in Hf. lia. }
  assert (length (tx_write_set t) <= length (seq 0 (length (tx_log t))))%nat as Hle; [|by rewrite length_seq in Hle]. apply submseteq_length, NoDup_submseteq; [done|]. intros p Hp. apply elem_of_seq. pose proof (ws_bound t p H Hp). lia.
Qed.

Lemma sized_add v t : ws_ok t -> (forall p e, p ∈ tx_write_set t -> log_entry t p = Some e -> ~ same_key (s_tuple (txv_entry v)) (s_tuple e)) ->
  (Z.of_nat (length (tx_log t)) < 2 ^ 30) -> sized t -> sized (add_txv v t).
Proof.
  intros Ht Hk Hn Hs. destruct (add_split v t Ht Hk) as (l1 & l2 & E & E' & _). unfold sized in *. rewrite E'. cbn [tx_write_size add_txv update Setter tx_log].
  assert (forall p, p ∈ l1 ++ l2 -> size_at (tx_log t ++ [v]) p = size_at (tx_log t) p) as Hl.
  { intros p Hp. rewrite <- E in Hp. unfold size_at. by rewrite lookup_app_l by (by apply ws_bound). }
  assert (size_at (tx_log t ++ [v]) (length (tx_log t)) = tuple_size (txv_entry v)) as Hv by (unfold size_at; by rewrite lookup_app_r, Nat.sub_diag by lia).
  transitivity (u64 (tx_write_size t + tuple_size (txv_entry v))); [done|].
  pose proof (sizes_range (tx_log t) (tx_write_set t)). pose proof (ws_length t Ht). pose proof (tuple_size_range (txv_entry v)).
  rewrite uwrap_small by (rewrite Hs; nia). rewrite Hs, E. change (tx_log (add_txv v t)) with (tx_log t ++ [v]). rewrite !sizes_app. cbn [sizes].
  rewrite (sizes_ext (tx_log t ++ [v]) (tx_log t) l1), (sizes_ext (tx_log t ++ [v]) (tx_log t) l2) by (intros; apply Hl; set_solver). lia.
Qed.
Lemma sized_cover p o t : ws_ok t -> p ∈ tx_write_set t -> tx_log t !! p = Some o -> sized t ->
  tuple_size (txv_entry o) <= tx_write_size t /\ sized (cover_txv p o t).
Proof.
  intros Ht Hp Ho Hs. destruct (ws_around t p (txv_entry o) Ht Hp) as (l1 & l2 & E & Hni & _); [unfold log_entry; by rewrite Ho|].
  assert (tx_write_set (cover_txv p o t) = l1 ++ l2) as E' by (cbn; rewrite E; by apply remove_between).
  assert (forall l, sizes (tx_log (cover_txv p o t)) l = sizes (tx_log t) l) as Hl.
  { intros l. apply sizes_ext. intros q _. unfold size_at. pose proof (cover_entry p o t q) as Hq. unfold log_entry in Hq.
    destruct (tx_log (cover_txv p o t) !! q), (tx_log t !! q); cbn in Hq; congruence. }
  unfold sized in *. rewrite Hl, E', E, sizes_app in *. cbn [sizes] in Hs. assert (size_at (tx_log t) p = tuple_size (txv_entry o)) as Hp' by (unfold size_at; by rewrite Ho).
  pose proof (sizes_range (tx_log t) l1). pose proof (sizes_range (tx_log t) l2). change (tx_write_size (cover_txv p o t)) with (tx_write_size t - tuple_size (txv_entry o)).
  lia.
Qed.

(** ** Statements *)

Definition with_oom x oom : xm := x <| xm_lsm ::= fun w => w <| v_oom := oom |> |>.
Lemma alloc_fails_spec (Q : bool -> xm -> Prop) x :
  (forall b oom, (b = true -> true ∈ v_oom (xm_lsm x)) -> (true ∉ v_oom (xm_lsm x) -> true ∉ oom) -> Q b (with_oom x oom)) -> wp alloc_fails Q x.
Proof. intros H. apply wp_on_lsm, wp_on_alloc, wp_fails_any. intros b oom Hb Ho. by apply (H b oom). Qed.

(** What the new statement of a key becomes. *)
Lemma applied_spec (old : option (nat * txv T O)) e (Q : option stmt -> xm -> Prop) x : client_stmt e ->
  (forall p o, old = Some (p, o) -> client_stmt (txv_entry o)) -> (s_type e = IPROTO_UPSERT -> true ∉ v_oom (xm_lsm x)) ->
  (forall oom, (true ∉ v_oom (xm_lsm x) -> true ∉ oom) ->
    Q (Some (match old with Some (_, o) => covering e (txv_entry o) | None => e <| s_lsn := INT64_MAX |> end)) (with_oom x oom)) ->
  wp (match old with
      | Some (_, o) => if has_type IPROTO_UPSERT (e <| s_lsn := INT64_MAX |>) then on_lsm (on_alloc (vy_apply_upsert (e <| s_lsn := INT64_MAX |>) (Some (txv_entry o)) true))
                       else mret (Some (e <| s_lsn := INT64_MAX |>))
      | None => mret (Some (e <| s_lsn := INT64_MAX |>))
      end) Q x.
Proof.
  intros He Hold Hoom HQ. assert (with_oom x (v_oom (xm_lsm x)) = x) as Ex by (destruct x as [? ? ? ? ? ? ? ? ? ? [] ?]; done).
  destruct old as [[p o]|]; [|apply wp_ret; specialize (HQ (v_oom (xm_lsm x))); rewrite Ex in HQ; by apply HQ].
  unfold covering in HQ. cbv zeta in HQ. destruct (has_type IPROTO_UPSERT (e <| s_lsn := INT64_MAX |>)) eqn:Et.
  - pose proof (proj1 (has_typeP _ _) Et) as Ht. apply wp_on_lsm, wp_on_alloc. eapply wp_mono; [apply apply_upsert_fine; [done|by apply (client_lsn e)|by apply Hoom]|].
    intros r oom [Ho ->]. by apply HQ.
  - apply wp_ret. specialize (HQ (v_oom (xm_lsm x))). rewrite Ex in HQ. by apply HQ.
Qed.

(** The transaction with another log. *)
Definition set_done id (oom : list bool) t' x : xm := with_oom (x <| xm_txs := <[id := t']> (xm_txs x) |>) oom.
Record same_tx t t' : Prop := {
  st_state : tx_st t' = tx_st t;
  st_view : tx_read_view t' = tx_read_view t;
  st_reads : tx_read_set t' = tx_read_set t;
  st_psn : tx_psn t' = tx_psn t;
  st_applier : tx_is_applier_session t' = tx_is_applier_session t;
}.
Lemma alter_found {A} (f : A -> A) id a (m : gmap Z A) : m !! id = Some a -> alter f id m = <[id := f a]> m.
Proof.
  intros H. apply map_eq. intros i. destruct (decide (i = id)) as [->|Hne]; [by rewrite lookup_alter_eq, lookup_insert_eq, H|].
  by rewrite lookup_alter_ne, lookup_insert_ne by done.
Qed.
Lemma set_entry_spec id e x t raws : xm_txs x !! id = Some t -> logged raws t -> sized t -> Z.of_nat (length (tx_log t)) < 2 ^ 30 -> client_stmt e ->
  (s_type e = IPROTO_UPSERT -> true ∉ v_oom (xm_lsm x)) ->
  wp (vy_tx_set_entry id e) (fun rc x' => exists oom : list bool, (true ∉ v_oom (xm_lsm x) -> true ∉ oom) /\
    ((rc = -1 /\ true ∈ v_oom (xm_lsm x) /\ x' = with_oom x oom) \/
     (rc = 0 /\ exists t', logged (e :: raws) t' /\ sized t' /\ same_tx t t' /\ x' = set_done id oom t' x))) x.
Proof.
  intros Hid Hl Hsz Hn He Hoom. pose proof (logged_ok _ _ Hl) as Hok. unfold vy_tx_set_entry. cbv zeta.
  apply wp_bind, (wp_get_tx _ id t); [done|]. change (s_tuple (e <| s_lsn := INT64_MAX |>)) with (s_tuple e).
  set (old := p ← write_set_search_key t (s_tuple e); v ← tx_log t !! p; Some (p, v)).
  assert (forall p o, old = Some (p, o) -> write_set_search_key t (s_tuple e) = Some p /\ tx_log t !! p = Some o) as Hold.
  { subst old. destruct (write_set_search_key t (s_tuple e)) as [p|]; cbn; [|done]. destruct (tx_log t !! p) eqn:Ep; cbn; [|done]. intros ? ? [= <- <-]. done. }
  apply wp_bind, applied_spec; [done| |done|].
  { intros p o [Hs Ho]%Hold. destruct (search_found _ _ _ _ Hs Ho) as [Hp _]. by destruct (lo_stands _ _ Hok p o Hp Ho). }
  intros oom1 Ho1. apply wp_bind. unfold txv_new. apply wp_bind, alloc_fails_spec. intros [] oom Hb Ho; apply wp_ret.
  { apply wp_ret. exists oom. split; [cbn in Ho; tauto|]. left. split_and!; [done| |done]. destruct (decide (true ∈ v_oom (xm_lsm x))); [done|].
    by destruct (Ho1 n (Hb eq_refl)). }
  assert (true ∉ v_oom (xm_lsm x) -> true ∉ oom) as Ho2 by (cbn in Ho; tauto). destruct old as [[p o]|] eqn:Eold.
  - destruct (Hold p o eq_refl) as [Hs Hlo]. destruct (search_found _ _ _ _ Hs Hlo) as [Hp Hk]. pose proof (lo_ws _ _ Hok) as Hws.
    destruct (sized_cover p o t Hws Hp Hlo Hsz) as [Hle Hsz']. apply wp_bind. unfold write_set_overwrite. apply wp_bind, (wp_get_tx _ id t); [done|].
    apply wp_bind, wp_assert. split; [by apply Z.leb_le|]. apply wp_modify, wp_bind, wp_modify, wp_ret. exists oom. split; [done|]. right. split; [done|].
    exists (add_txv (over_txv e p o) (cover_txv p o t)). split_and!; [by eapply logged_over| |by split|].
    + apply sized_add; [by apply cover_ok|by eapply over_absent| |done]. cbn. by rewrite length_alter.
    + transitivity (with_oom (x <| xm_txs := alter (add_txv (over_txv e p o)) id (alter (cover_txv p o) id (xm_txs x)) |>) oom); [done|].
      rewrite (alter_found (cover_txv p o) id t) by done. rewrite (alter_found _ id (cover_txv p o t)) by (by rewrite lookup_insert_eq).
      by rewrite insert_insert_eq.
  - assert (write_set_search_key t (s_tuple e) = None) as Hs.
    { subst old. destruct (write_set_search_key t (s_tuple e)) as [p|] eqn:Es; [|done]. cbn in Eold. apply search_some in Es as (_ & e' & He' & _).
      unfold log_entry in He'. by destruct (tx_log t !! p). }
    apply wp_bind, wp_modify, wp_ret. exists oom. split; [done|]. right. split; [done|].
    exists (add_txv (new_txv e) t). split_and!; [by eapply logged_new| |by split|].
    + apply sized_add; [apply Hok|by apply search_none|done|done].
    + transitivity (with_oom (x <| xm_txs := alter (add_txv (new_txv e)) id (xm_txs x) |>) oom); [done|]. by rewrite (alter_found _ id t).
Qed.

(** Gives the statements to the transaction; the result is those it has
    accepted, the last one first. *)
Fixpoint set_all id (acc : list stmt) xs : prog xm (list stmt) :=
  match xs with
  | [] => mret acc
  | e :: xs => rc ← vy_tx_set id e; set_all id (if rc =? 0 then e :: acc else acc) xs
  end.

Record holds id raws t x : Prop := {
  hd_tx : xm_txs x !! id = Some t;
  hd_logged : logged raws t;
  hd_sized : sized t;
}.
Lemma set_done_id id t x : xm_txs x !! id = Some t -> set_done id (v_oom (xm_lsm x)) t x = x.
Proof. intros H. unfold set_done. rewrite insert_id by done. by destruct x as [? ? ? ? ? ? ? ? ? ? [] ?]. Qed.
Lemma set_done_twice id oom oom' t t' x : set_done id oom' t' (set_done id oom t x) = set_done id oom' t' x.
Proof. unfold set_done, with_oom. cbn. by rewrite insert_insert_eq. Qed.
Lemma set_all_spec id xs : forall acc base t x, holds id (acc ++ base) t x -> Forall client_stmt xs ->
  Z.of_nat (length (acc ++ base) + length xs) < 2 ^ 30 -> (Exists (fun e => s_type e = IPROTO_UPSERT) xs -> true ∉ v_oom (xm_lsm x)) ->
  wp (set_all id acc xs) (fun acc' x' => exists zs t', acc' = zs ++ acc /\ sublist zs (rev xs) /\ (true ∉ v_oom (xm_lsm x) -> zs = rev xs /\ true ∉ v_oom (xm_lsm x')) /\
    holds id (acc' ++ base) t' x' /\ same_tx t t' /\ x' = set_done id (v_oom (xm_lsm x')) t' x) x.
Proof.
  induction xs as [|e xs IH]; intros acc base t x [H1 H2 H3] Hc Hn Hu; cbn [set_all].
  { apply wp_ret. exists [], t. split_and!; try done. by rewrite set_done_id. }
  apply Forall_cons in Hc as [He Hc]. pose proof (lo_length _ _ (logged_ok _ _ H2)) as Hlen. cbn [length] in Hn.
  apply wp_bind. eapply wp_mono; [apply (set_entry_spec id e x t (acc ++ base)); [done|done|done|lia|done|intros Ht; apply Hu; by left]|].
  intros rc x1 (oom & Ho & [(-> & Hf & ->)|(-> & t1 & Hl1 & Hs1 & Hst & ->)]); cbn [Z.eqb].
  - eapply wp_mono; [apply (IH acc base t); [done|done|lia|]|].
    + intros Hx. apply Ho, Hu. by right.
    + intros acc' x' (zs & t' & -> & Hz & Hz' & Hh & Hs & Hw). exists zs, t'. split_and!; try done.
      cbn [rev]. by apply sublist_inserts_r.
  - eapply wp_mono; [apply (IH (e :: acc) base t1); [split; [by apply lookup_insert_eq|done|done]|done|cbn; lia|]|].
    + intros Hx. apply Ho, Hu. by right.
    + intros acc' x' (zs & t' & -> & Hz & Hz' & Hh & Hs & Hw). exists (zs ++ [e]), t'. rewrite set_done_twice in Hw. split_and!; try done.
      * by rewrite <- app_assoc.
      * cbn [rev]. by apply sublist_app.
      * intros Hx. destruct (Hz' (Ho Hx)) as [-> ?]. done.
      * destruct Hs, Hst. split; congruence.
Qed.

Lemma begin_statement_spec id raws t x : holds id raws t x -> tx_st t = VINYL_TX_READY -> (id ∈ xm_writers x \/ raws = []) ->
  wp (vy_tx_begin_statement id) (fun r x' => r = (0, length raws) /\ id ∈ xm_writers x' /\ xm_lsm x' = xm_lsm x /\
    exists t', holds id raws t' x' /\ same_tx t t') x.
Proof.
  intros [H1 H2 H3] Hst Hw. pose proof (lo_length _ _ (logged_ok _ _ H2)) as Hlen. unfold vy_tx_begin_statement.
  apply wp_bind, (wp_get_tx _ id t); [done|]. rewrite bool_decide_eq_false_2 by congruence.
  apply wp_bind, wp_assert. split; [by rewrite bool_decide_eq_true|]. apply wp_bind, wp_modify, wp_bind, wp_gets.
  set (t' := t <| tx_last_stmt_space := true |>).
  assert (forall x', xm_txs x' = <[id := t']> (xm_txs x) -> holds id raws t' x') as Hh.
  { intros x' E. split; [rewrite E; apply lookup_insert_eq|by apply (logged_same raws t)|done]. }
  destruct (bool_decide _) eqn:E; [apply bool_decide_eq_true in E|apply bool_decide_eq_false in E].
  - apply wp_bind, wp_ret, wp_ret. split_and!; [by rewrite Hlen|done|done|]. exists t'. split; [|by split]. apply Hh. cbn. by apply alter_found.
  - apply wp_bind, wp_bind, wp_assert. split.
    { destruct Hw as [Hw| ->]; [done|]. by destruct (tx_log t). }
    apply wp_modify, wp_ret. split_and!; [by rewrite Hlen|set_solver|done|]. exists t'. split; [|by split]. apply Hh. cbn. by apply alter_found.
Qed.

Lemma rollback_statement_spec id raws t x svp : holds id raws t x -> tx_st t = VINYL_TX_READY -> (svp <= length raws)%nat ->
  wp (vy_tx_rollback_statement id svp) (fun _ x' => exists t', xm_txs x' !! id = Some t' /\ logged (drop (length raws - svp) raws) t' /\
    xm_writers x' = if decide (svp = 0%nat) then filter (fun w => w <> id) (xm_writers x) else xm_writers x) x.
Proof.
  intros [H1 H2 H3] Hst Hle. pose proof (lo_length _ _ (logged_ok _ _ H2)) as Hlen. unfold vy_tx_rollback_statement.
  apply wp_bind, (wp_get_tx _ id t); [done|]. rewrite Hst. apply wp_bind, wp_modify.
  set (t' := (rollback_tail (length (tx_log t) - svp) t) <| tx_last_stmt_space := false |>).
  assert (logged (drop (length raws - svp) raws) t') as Hl.
  { apply (logged_same _ (rollback_tail (length (tx_log t) - svp) t)); [done|]. rewrite <- Hlen. apply logged_rollback_tail; [done|lia]. }
  assert (length (tx_log t') = svp) as Hlen'.
  { rewrite <- (lo_length _ _ (logged_ok _ _ Hl)), length_drop. lia. }
  apply wp_bind, (wp_get_tx _ id t'); [cbn; by rewrite lookup_alter_eq, H1|].
  destruct (tx_log t') as [|v l]; cbn [length] in Hlen'; subst svp.
  - apply wp_modify. exists t'. split_and!; [cbn; by rewrite lookup_alter_eq, H1|done|done].
  - apply wp_ret. exists t'. split_and!; [cbn; by rewrite lookup_alter_eq, H1|done|done].
Qed.

(** What the transaction has for a key against the statements it was given. *)
Definition stands t raws : Prop :=
  StronglySorted (fun p q => lt_key (log_entry t p) (log_entry t q)) (tx_write_set t) /\
  forall k, match write_set_search_key t k ≫= log_entry t with
            | Some e => of_key k raws <> [] /\ forall b, apply_stmt b e = state_of b (of_key k raws)
            | None => of_key k raws = []
            end.
Lemma logged_stands raws t : logged raws t -> stands t raws.
Proof.
  intros [Hws Hlen Hst Hnone Hsf Hfr]%logged_ok. split; [apply Hws|]. intros k. destruct (write_set_search_key t k) as [p|] eqn:E; cbn; [|by apply Hnone].
  apply search_some in E as (Hp & e & He & Hk). rewrite He. unfold log_entry in He. destruct (tx_log t !! p) as [v|] eqn:Ev; [|done].
  injection He as <-. destruct (Hsf p v Hp Ev) as [S1 S2 _ _ _]. by rewrite (of_key_same k (s_tuple (txv_entry v))).
Qed.

(** Two statements of a client, of which the second is rolled back. *)
Definition two_statements id xs ys : prog xm (Z * Z * list stmt) :=
  '(rc, _) ← vy_tx_begin_statement id;
  raws ← set_all id [] xs;
  '(rc', svp) ← vy_tx_begin_statement id;
  set_all id [] ys;;
  vy_tx_rollback_statement id svp;;
  mret (rc, rc', raws).

(** C22: rollback to one savepoint. A fresh transaction, with nothing in its
    write set and a write size of 0, is given statements, then others, which
    are rolled back to the savepoint between them; if there is an UPSERT among
    the statements no allocation fails. Then no assertion fails up to the end
    of this rollback; a statement is not accepted only if an allocation has
    failed; and in the end the write set is in the order of keys, has a
    statement just for each key of an accepted statement of the first part,
    and its effect on any value is that of all the accepted statements of the
    key one after another. The transaction is a writer just if there are any.
    Nothing is said of statements after the rollback: it does not restore the
    write size, and the next statement can fail an assertion (C36). *)
Theorem tx_statement_rollback id t xs ys x :
  xm_txs x !! id = Some t -> tx_st t = VINYL_TX_READY -> tx_log t = [] -> tx_write_set t = [] -> tx_write_size t = 0 ->
  Forall client_stmt (xs ++ ys) -> Z.of_nat (length (xs ++ ys)) < 2 ^ 30 ->
  (Exists (fun e => s_type e = IPROTO_UPSERT) (xs ++ ys) -> true ∉ v_oom (xm_lsm x)) ->
  wp (two_statements id xs ys) (fun '(rc, rc', raws) x' => rc = 0 /\ rc' = 0 /\ sublist raws (rev xs) /\ (true ∉ v_oom (xm_lsm x) -> raws = rev xs) /\
    (id ∈ xm_writers x' <-> raws <> []) /\ exists t', xm_txs x' !! id = Some t' /\ length (tx_log t') = length raws /\ stands t' raws) x.
Proof.
  intros Hid Hst El Ew Es [Hc1 Hc2]%Forall_app Hn Hu. rewrite length_app in Hn. rewrite Exists_app in Hu. unfold two_statements.
  assert (holds id [] t x) as H0 by (split; [done|by constructor|unfold sized; by rewrite El, Ew]).
  apply wp_bind. eapply wp_mono; [eapply begin_statement_spec; [exact H0|done|by right]|].
  intros [rc n] x1 ([= -> ->] & Hw1 & Ex1 & t1 & Hh1 & Hs1). apply wp_bind. eapply wp_mono; [apply (set_all_spec id xs [] [] t1); [done|done|cbn; lia|rewrite Ex1; tauto]|].
  intros raws x2 (zs & t2 & Ez & Hz & Hz' & Hh2 & Hs2 & Hw2). rewrite app_nil_r in Ez, Hh2. subst zs. rewrite Ex1 in Hz'.
  assert (xm_writers x2 = xm_writers x1) as Hw2' by (by rewrite Hw2).
  assert (tx_st t2 = VINYL_TX_READY) as Hst2 by (destruct Hs1, Hs2; congruence).
  apply wp_bind. eapply wp_mono; [eapply begin_statement_spec; [exact Hh2|done|left; congruence]|].
  intros [rc svp] x3 ([= -> ->] & Hw3 & Ex3 & t3 & Hh3 & Hs3). pose proof (sublist_length _ _ Hz) as Hlz. rewrite length_rev in Hlz.
  apply wp_bind. eapply wp_mono; [apply (set_all_spec id ys [] raws t3); [done|done|cbn; lia|]|].
  { rewrite Ex3. intros Hy. apply Hz'. tauto. }
  intros acc x4 (zs & t4 & -> & Hzy & _ & Hh4 & Hs4 & Hw4). rewrite app_nil_r in Hh4.
  apply wp_bind. eapply wp_mono; [eapply rollback_statement_spec; [exact Hh4|destruct Hs3, Hs4; congruence|rewrite length_app; lia]|].
  intros _ x5 (t5 & H5 & Hl5 & Hw5). apply wp_ret. rewrite length_app, Nat.add_sub, drop_app_length in Hl5.
  split_and!; [done|done|done|by intros Ho; apply Hz'| |].
  - assert (xm_writers x4 = xm_writers x3) as Hw4' by (by rewrite Hw4). rewrite Hw5, Hw4'. destruct (decide _) as [E|E]; [rewrite list_elem_of_filter|]; destruct raws; naive_solver.
  - exists t5. split_and!; [done|by rewrite <- (lo_length _ _ (logged_ok _ _ Hl5))|by apply logged_stands].
Qed.
End Theorems.

(** ** Transactions on counters *)

Module CounterTxs.
Import Counters.

Fixpoint tree_of (l : list (vy_read_interval (Z * Z))) : read_tree (Z * Z) :=
  match l with [] => RLeaf | i :: l => RNode RLeaf i (vy_lsm_read_set_aug i RLeaf (tree_of l)) (tree_of l) end.
(** The size of a number in MessagePack. *)
Definition mp_sizeof_uint (n : Z) : Z := if n <? 128 then 1 else if n <? 256 then 2 else if n <? 65536 then 3 else if n <? 2 ^ 32 then 5 else 9.
#[export] Instance counter_env : TxEnv (Z * Z) Z := {|
  rb_tree := tree_of;
  tuple_size e := 24 + mp_sizeof_uint (fst (s_tuple e)) + mp_sizeof_uint (snd (s_tuple e)) + Z.of_nat (length (s_ops e)) mod 2 ^ 32;
  xrow_update_execute o t := Some ((fst t, snd t + o), 2);
|}.
#[export] Instance counter_env_laws : TxEnvLaws (Z * Z) Z.
Proof.
  assert (forall n, 1 <= mp_sizeof_uint n <= 9) as H by (intros n; unfold mp_sizeof_uint; repeat case_match; lia).
  split; [intros l; induction l as [|i l IH]; cbn; [done|by f_equal]|]. intros e. cbn -[Z.pow Z.modulo Z.of_nat]. pose proof (H (fst (s_tuple e))). pose proof (H (snd (s_tuple e))).
  pose proof (Z.mod_pos_bound (Z.of_nat (length (s_ops e))) (2 ^ 32) ltac:(lia)). lia.
Qed.

Definition raw (ty : iproto_type) (k v : Z) (ops : list Z) : vy_stmt (Z * Z) Z := mk_stmt None ty 0 0 true (k, v) ops 0.
Definition first_part : list (vy_stmt (Z * Z) Z) := [raw IPROTO_REPLACE 7 1000 []; raw IPROTO_UPSERT 5 1 [0]; raw IPROTO_UPSERT 7 1 [5]].
Definition second_part : list (vy_stmt (Z * Z) Z) := [raw IPROTO_DELETE 7 0 []; raw IPROTO_UPSERT 5 3 [2]; raw IPROTO_INSERT 1 1 []].
Definition one_tx : vy_tx_manager (Z * Z) Z := vy_tx_manager_new <| xm_txs := {[3 := vy_tx_create false]} |>.

(** An execution as its result. *)
Definition result {S A} (m : prog S A) (s : S) : option A := match m s with Done (a, _) => Some a | Abort => None end.

Lemma tx_statement_rollback_witness :
  match two_statements 3 first_part second_part one_tx with
  | Done (rc, rc', raws, x) => raws = rev first_part /\ 3 ∈ xm_writers x /\
      exists t, xm_txs x !! 3 = Some t /\ length (tx_log t) = 3%nat /\ length (tx_write_set t) = 2%nat /\ stands t raws
  | Abort => False
  end.
Proof.
  pose proof (tx_statement_rollback 3 (vy_tx_create false) first_part second_part one_tx) as H.
  assert (Forall client_stmt (first_part ++ second_part)) as Hc.
  { repeat constructor; cbn; try done. }
  specialize (H ltac:(reflexivity) eq_refl eq_refl eq_refl eq_refl Hc ltac:(cbn; lia) ltac:(intros _; cbn; set_solver)).
  unfold wp in H. destruct (two_statements 3 first_part second_part one_tx) as [[[[rc rc'] raws] x]|] eqn:E; [|done].
  destruct H as (_ & _ & _ & H1 & H2 & t & H3 & H4 & H5). specialize (H1 ltac:(cbn; set_solver)). split_and!; [done|apply H2; by rewrite H1|].
  exists t. split_and!; [done|by rewrite H4, H1| |done]. vm_compute in E. injection E as <- <- <- <-. vm_compute in H3. injection H3 as <-. reflexivity.
Defined.

(** ** What goes wrong *)

Definition begin : prog (vy_tx_manager (Z * Z) Z) Z := r ← vy_tx_begin false; mret (default (-1) r).
Definition replace (id k v : Z) : prog (vy_tx_manager (Z * Z) Z) Z := vy_tx_begin_statement id;; vy_replace id (k, v).
Definition get (id k : Z) : prog (vy_tx_manager (Z * Z) Z) (option Z) := '(_, r) ← vy_get id (k, 0); mret ((fun e => snd (s_tuple e)) <$> r).

(** A statement that replaces a tuple by a smaller one is rolled back. *)
Definition rolled_back_statement : prog (vy_tx_manager (Z * Z) Z) Z :=
  id ← begin;
  replace id 7 1000;;
  '(_, svp) ← vy_tx_begin_statement id;
  vy_replace id (7, 1);;
  vy_tx_rollback_statement id svp;;
  mret id.

(** Reader 1 has read what transaction 2 has prepared.  Transaction 3 is
    prepared after it and then rolled back alone. *)
Definition rolled_back_alone : prog (vy_tx_manager (Z * Z) Z) (option Z * option Z * Z) :=
  reader ← begin; t2 ← begin; t3 ← begin; t4 ← begin;
  replace t2 7 70;; vy_tx_prepare t2;;
  replace t3 8 80;; vy_tx_prepare t3;;
  vy_tx_rollback t3;;
  before ← get reader 7;
  get reader 5;;
  replace t4 5 50;; vy_tx_prepare t4;;
  after ← get reader 7;
  vy_tx_commit t2 1;; vy_tx_commit t4 2;;
  rc ← vy_tx_prepare reader;
  mret (before, after, rc).

(** C36: rolling back a statement does not restore the size of the write set:
    when a tuple that was to be replaced by a smaller one is replaced again,
    an assertion fails. *)
Theorem tx_rollback_statement_size : match rolled_back_statement vy_tx_manager_new with
  | Done (id, x) => (tx_write_size <$> xm_txs x !! id) = Some (tuple_size (raw IPROTO_REPLACE 7 1 [])) /\ replace id 7 2 x = Abort
  | Abort => False
  end.
Proof. vm_compute. by split. Qed.

(** C33: when the last prepared transaction is rolled back alone, the older
    ones are forgotten: a reader that is sent to a read view then no longer
    sees what it has read before, and is committed nevertheless. *)
Theorem tx_rollback_forgets_prepared : result rolled_back_alone vy_tx_manager_new = Some (Some 70, None, 0).
Proof. by vm_compute. Qed.
End CounterTxs.
