(* ===== verification/VyTxWrite.v ===== *)
(** * The statements of a prepared transaction

    What preparing, committing and rolling back a transaction does to the
    memory of the LSM tree: the loops over the log of vy_tx_prepare,
    vy_tx_commit and vy_tx_rollback_after_prepare. *)

From stdpp Require Import list sorting gmap.
From S2P Require Import Prelude VyStmt VyVisible VyCompaction VyLevels VyInsert VyMem VyMemSafety VyLsm VyLsmSafety VyTheorems VyReadSet VyReadSetTheorems VyTx VyTxLog VyTxLsm VyTxTheorems.

Open Scope Z_scope.

Lemma alter_middle {A} (f : A -> A) (l1 l2 : list A) a : alter f (length l1) (l1 ++ a :: l2) = l1 ++ f a :: l2.
Proof. induction l1 as [|b l1 IH]; [done|]. cbn. f_equal. apply IH. Qed.

Section Write.
Context {T O : Type} `{!Tuples T O, !TuplesLaws T O, !TxEnv T O}.
Abbreviation stmt := (vy_stmt T O).
Abbreviation tx := (vy_tx T O).
Abbreviation xm := (vy_tx_manager T O).
Abbreviation memory x := (mem_tree (v_mem (xm_lsm x))).
Implicit Types (e r y : stmt) (raws rs S : list stmt) (t : tx) (v o : txv T O) (log : list (txv T O)) (x : xm) (id : Z) (k : T).

(** The statements that a transaction has in the memory. *)
Definition regions log : list stmt := omap txv_region_stmt log.

(** The memory [S] is [S0] with the statements [rs], of which no two have the
    same key. *)
Record wrote S0 rs S : Prop := {
  wr_in : forall y, y ∈ S <-> y ∈ rs \/ y ∈ S0;
  wr_keys : forall k, of_key k S = of_key k rs ++ of_key k S0;
  wr_one : forall k, (length (of_key k rs) <= 1)%nat;
}.
Lemma wrote_nil S0 : wrote S0 [] S0.
Proof. split; [set_solver|done|cbn; lia]. Qed.
Lemma of_key_absent k rs : (forall r, r ∈ rs -> ~ same_key k (s_tuple r)) -> of_key k rs = [].
Proof. intros H. apply of_key_none, Forall_forall. intros r Hr. by apply H. Qed.
Lemma wrote_snoc S0 rs S r S' : wrote S0 rs S -> (forall y, y ∈ rs -> ~ same_key (s_tuple r) (s_tuple y)) ->
  (forall y, y ∈ S' <-> y = r \/ y ∈ S) -> (forall k, of_key k S' = of_key k [r] ++ of_key k S) -> wrote S0 (rs ++ [r]) S'.
Proof.
  intros [H1 H2 H3] Hr Hin Hk. split.
  - intros y. rewrite Hin, H1. set_solver.
  - intros k. rewrite Hk, H2, of_key_app, app_assoc. f_equal. destruct (decide (same_key k (s_tuple r))) as [E|E].
    + rewrite (of_key_absent k rs); [by rewrite app_nil_r|]. intros y Hy Hy'. apply (Hr y Hy). by rewrite <- E.
    + rewrite of_key_miss by done. by rewrite app_nil_r.
  - intros k. rewrite of_key_app. destruct (decide (same_key k (s_tuple r))) as [E|E].
    + rewrite (of_key_absent k rs); [by rewrite of_key_hit by done; cbn; lia|]. intros y Hy Hy'. apply (Hr y Hy). by rewrite <- E.
    + rewrite of_key_miss, app_nil_r by done. apply H3.
Qed.

(** ** Preparing *)

(** Statements that are not written. *)
Definition left_out v : bool := txv_is_overwritten v || txv_is_first_insert v && has_type IPROTO_DELETE (txv_entry v).
(** An element of the log before and after the loop. *)
Definition processed (tag : Z) v v' : Prop :=
  if left_out v then v' = v
  else exists r, txv_region_stmt v' = Some r /\ alike ((prepared_entry v) <| s_lsn := tag |>) r.

Lemma cleared_flag (f g h : Z) : Z.land f g = 0 -> Z.land (Z.ldiff f h) g = 0.
Proof.
  intros E. apply Z.bits_inj'. intros n Hn. rewrite Z.land_spec, Z.ldiff_spec, Z.bits_0 by done.
  assert (Z.testbit (Z.land f g) n = false) as H by (by rewrite E, Z.bits_0). rewrite Z.land_spec in H. by destruct (Z.testbit f n), (Z.testbit g n), (Z.testbit h n).
Qed.
Lemma prepared_client v : client_stmt (txv_entry v) -> client_stmt (prepared_entry v).
Proof.
  intros [H1 H2 [H3 H4]]. unfold prepared_entry. cbv zeta. repeat case_match; [|by split|by split]. split; [done|done|]. unfold has_flag in *.
  apply negb_false_iff, Z.eqb_eq in H3. apply negb_false_iff, Z.eqb_eq in H4. split; apply negb_false_iff, Z.eqb_eq; by apply cleared_flag.
Qed.
Lemma prepared_effect v b : apply_stmt b (prepared_entry v) = apply_stmt b (txv_entry v).
Proof.
  unfold prepared_entry. cbv zeta. case_match eqn:E1; [apply andb_prop in E1 as [_ E1]; apply has_typeP in E1; unfold apply_stmt; by rewrite E1|].
  case_match eqn:E2; [apply andb_prop in E2 as [_ E2]; apply has_typeP in E2; unfold apply_stmt; by rewrite E2|done].
Qed.
Lemma prepared_tuple v : s_tuple (prepared_entry v) = s_tuple (txv_entry v).
Proof. unfold prepared_entry. cbv zeta. by repeat case_match. Qed.

(** The manager with another log of the transaction and another LSM tree. *)
Definition with_log id t log w x : xm := x <| xm_txs := <[id := t <| tx_log := log |>]> (xm_txs x) |> <| xm_lsm := w |>.
Lemma wp_set_log id t w x l1 v l2 (f : txv T O -> txv T O) (Q : unit -> xm -> Prop) :
  Q tt (with_log id t (l1 ++ f v :: l2) w x) -> wp (set_tx id (set_log (length l1) f)) Q (with_log id t (l1 ++ v :: l2) w x).
Proof.
  intros HQ. apply wp_modify. assert (forall y y' : xm, y = y' -> Q tt y' -> Q tt y) as Heq by (by intros ? ? ->). eapply Heq; [|exact HQ].
  unfold with_log. cbn. rewrite (alter_found _ id (t <| tx_log := l1 ++ v :: l2 |>)) by apply lookup_insert_eq. rewrite insert_insert_eq.
  unfold set_log. cbn. by rewrite alter_middle.
Qed.

Section Prepare.
Context (id psn : Z) (raws : list stmt) (t : tx) (x : xm) (S0 : list stmt).
Abbreviation tag := (MAX_LSN + psn).
Context (Hok : log_ok raws t) (Hpsn : 0 <= psn) (Hold : forall y, y ∈ S0 -> s_lsn y < tag).

Lemma region_none v : v ∈ tx_log t -> txv_region_stmt v = None.
Proof. intros Hv. pose proof (lo_fresh _ _ Hok) as H. rewrite Forall_forall in H. by apply H. Qed.
Lemma regions_none l : (forall v, v ∈ l -> v ∈ tx_log t) -> regions l = [].
Proof.
  induction l as [|v l IH]; intros H; [done|]. cbn. rewrite region_none by (apply H; by left). apply IH. intros o Ho. apply H. by right.
Qed.

(** The statement of a region is the one of its place in the log. *)
Lemma region_from done done' r : (forall v, v ∈ done -> v ∈ tx_log t) -> Forall2 (processed tag) done done' -> r ∈ regions done' ->
  exists q v, done !! q = Some v /\ left_out v = false /\ alike ((prepared_entry v) <| s_lsn := tag |>) r.
Proof.
  intros Hsub Hp (v' & Hv' & Hr)%list_elem_of_omap. apply list_elem_of_lookup in Hv' as [q Hq].
  destruct (Forall2_lookup_r _ _ _ _ _ Hp Hq) as (v & Hv & Hvv). exists q, v. split; [done|]. unfold processed in Hvv. destruct (left_out v).
  - subst v'. rewrite region_none in Hr; [done|]. by eapply Hsub, list_elem_of_lookup_2.
  - destruct Hvv as (r' & Hr' & Ha). by simplify_eq.
Qed.
Lemma in_write_set p v : tx_log t !! p = Some v -> left_out v = false -> p ∈ tx_write_set t /\ client_stmt (txv_entry v).
Proof.
  intros Hv [Ho _]%orb_false_iff. assert (p ∈ tx_write_set t) as Hp by (apply (wo_in _ (lo_ws _ _ Hok)); by exists v).
  split; [done|]. apply (sf_stmt raws). by eapply (lo_stands _ _ Hok).
Qed.
Lemma same_place p q v o : tx_log t !! p = Some v -> left_out v = false -> tx_log t !! q = Some o -> left_out o = false ->
  same_key (s_tuple (txv_entry v)) (s_tuple (txv_entry o)) -> p = q.
Proof.
  intros Hv Hv' Ho Ho' Hk. eapply (sorted_keys t); [apply Hok|by eapply in_write_set|by eapply in_write_set| | |exact Hk]; unfold log_entry; by rewrite ?Hv, ?Ho.
Qed.

Lemma regions_apart done v rest done' r : tx_log t = done ++ v :: rest -> left_out v = false -> Forall2 (processed tag) done done' -> r ∈ regions done' ->
  ~ same_key (s_tuple (txv_entry v)) (s_tuple r) /\ s_lsn r = tag.
Proof.
  intros E Hv Hp Hr. destruct (region_from done done' r) as (q & o & Hq & Ho & Ha); [rewrite E; set_solver|done|done|].
  pose proof (lookup_lt_Some _ _ _ Hq) as Hlt. split; [|by rewrite <- (al_lsn _ _ Ha)]. intros Hk. assert (length done = q) as <-; [|lia].
  apply (same_place _ _ v o); [by rewrite E, lookup_app_r, Nat.sub_diag by lia|done|by rewrite E, lookup_app_l|done|].
  rewrite Hk, <- (al_tuple _ _ Ha). change (s_tuple ((prepared_entry o) <| s_lsn := tag |>)) with (s_tuple (prepared_entry o)). by rewrite prepared_tuple.
Qed.
Lemma region_tag done done' r : (forall v, v ∈ done -> v ∈ tx_log t) -> Forall2 (processed tag) done done' -> r ∈ regions done' -> s_lsn r = tag.
Proof. intros Hs Hp Hr. destruct (region_from done done' r Hs Hp Hr) as (_ & o & _ & _ & Ha). by rewrite <- (al_lsn _ _ Ha). Qed.

(** The loop has come to its end, or an allocation has failed. *)
Definition prepared (w : vinyl T O) (rc : Z) (x' : xm) : Prop := exists log' w', x' = with_log id t log' w' x /\ lsm_ok w' /\
  wrote S0 (regions log') (mem_tree (v_mem w')) /\ (forall r, r ∈ regions log' -> s_lsn r = tag) /\
  (true ∉ v_oom w -> rc = 0 /\ true ∉ v_oom w') /\ (rc = 0 -> Forall2 (processed tag) (tx_log t) log').

Lemma prepare_write_spec done v rest done' v1 w : tx_log t = done ++ v :: rest -> left_out v = false -> Forall2 (processed tag) done done' ->
  lsm_ok w -> wrote S0 (regions done') (mem_tree (v_mem w)) -> txv_region_stmt v1 = None ->
  wp (vy_tx_write ((prepared_entry v) <| s_lsn := tag |>)) (fun '(rc, r) x' => exists w', x' = with_log id t (done' ++ v1 :: rest) w' x /\ lsm_ok w' /\
    ((rc = -1 /\ true ∈ v_oom w /\ mem_tree (v_mem w') = mem_tree (v_mem w)) \/
     (rc = 0 /\ exists e, r = Some e /\ alike ((prepared_entry v) <| s_lsn := tag |>) e /\ wrote S0 (regions done' ++ [e]) (mem_tree (v_mem w')) /\
       (true ∉ v_oom w -> true ∉ v_oom w')))) (with_log id t (done' ++ v1 :: rest) w x).
Proof.
  intros E Hv Hp Hw Hwr Hv1. destruct (in_write_set (length done) v) as [_ Hc]; [by rewrite E, lookup_app_r, Nat.sub_diag by lia|done|].
  assert (client_stmt ((prepared_entry v) <| s_lsn := tag |>)) as Hc' by (by apply client_lsn, prepared_client).
  assert (key_newest ((prepared_entry v) <| s_lsn := tag |>) (mem_tree (v_mem w))) as Hn.
  { apply Forall_forall. intros y [Hy|Hy]%(wr_in _ _ _ Hwr); [|intros _; by apply Hold]. intros Hk.
    destruct (regions_apart done v rest done' y E Hv Hp Hy) as [Hne _]. destruct Hne. by rewrite <- prepared_tuple. }
  unfold vy_tx_write. apply wp_bind, wp_assert. split; [apply Hc'|]. apply wp_on_lsm. eapply wp_mono; [apply lsm_set_spec; [exact Hw|done|done|cbn; lia]|].
  intros [rc r] w' [Hw' [(-> & Hf & Et)|(-> & e & -> & Ha & Hin & Hk & Ho)]]; exists w'; (split_and!; [done|done|]); [by left|].
  right. split; [done|]. exists e. split_and!; [done|done| |done]. eapply wrote_snoc; [done| |done|done].
  intros y Hy Hky. destruct (regions_apart done v rest done' y E Hv Hp Hy) as [Hne _]. apply Hne. by rewrite <- prepared_tuple, <- Hky, <- (al_tuple _ _ Ha).
Qed.

Lemma prepare_log_spec rest : forall done done' w, tx_log t = done ++ rest -> Forall2 (processed tag) done done' -> lsm_ok w ->
  wrote S0 (regions done') (mem_tree (v_mem w)) ->
  wp (prepare_log id psn (length done) rest) (prepared w) (with_log id t (done' ++ rest) w x).
Proof.
  induction rest as [|v rest IH]; intros done done' w E Hp Hw Hwr; cbn [prepare_log].
  { rewrite app_nil_r in *. subst done. apply wp_ret. exists done', w. split_and!; try done. intros r. by apply (region_tag (tx_log t)). }
  assert (tx_log t = (done ++ [v]) ++ rest) as E' by (by rewrite <- app_assoc). pose proof (Forall2_length _ _ _ Hp) as Hlen.
  assert (forall v', processed tag v v' -> forall w', lsm_ok w' -> wrote S0 (regions (done' ++ [v'])) (mem_tree (v_mem w')) -> (true ∉ v_oom w -> true ∉ v_oom w') ->
    wp (prepare_log id psn (S (length done)) rest) (prepared w) (with_log id t (done' ++ v' :: rest) w' x)) as Hnext.
  { intros v' Hv' w' Hw' Hwr' Ho. replace (S (length done)) with (length (done ++ [v])) by (rewrite length_app; cbn; lia).
    rewrite (cons_middle v' done' rest), app_assoc. eapply wp_mono; [apply (IH (done ++ [v]) (done' ++ [v'])); [done|by apply Forall2_app; [|constructor]|done|done]|].
    intros rc x' (log' & w2 & -> & H1 & H2 & H3 & H4 & H5). exists log', w2. split_and!; try done. intros Hx. by apply H4, Ho. }
  assert (v ∈ tx_log t) as Hin by (rewrite E; set_solver).
  assert (left_out v = true -> wp (prepare_log id psn (S (length done)) rest) (prepared w) (with_log id t (done' ++ v :: rest) w x)) as Hskip.
  { intros Hl. apply Hnext; [unfold processed; by rewrite Hl|done| |done]. unfold regions. rewrite omap_app. cbn. rewrite region_none by done. by rewrite app_nil_r. }
  destruct (txv_is_overwritten v) eqn:Ev1; [apply Hskip; unfold left_out; by rewrite Ev1|].
  destruct (txv_is_first_insert v && has_type IPROTO_DELETE (txv_entry v)) eqn:Ev2; [apply Hskip; unfold left_out; by rewrite Ev1, Ev2|].
  assert (left_out v = false) as Hl by (unfold left_out; by rewrite Ev1, Ev2). clear Hskip. cbv zeta. rewrite Hlen in *.
  apply wp_bind, wp_set_log, wp_bind. unfold vy_tx_write_prepare. apply wp_bind, wp_assert. split; [apply Z.eqb_eq, Hw|]. apply wp_bind, wp_set_log, wp_ret.
  cbn [Z.eqb negb]. pose proof (prepared_client v (proj2 (in_write_set (length done) v ltac:(by rewrite E, lookup_app_r, Nat.sub_diag by lia) Hl))) as [_ _ [Hfl _]].
  apply wp_bind, wp_assert. split; [by rewrite Hfl|]. apply wp_bind, wp_set_log, wp_bind. set (v1 := update txv_entry _ _).
  eapply wp_mono; [apply (prepare_write_spec done v rest done' v1 w); [done|done|done|done|done|exact (region_none v Hin)]|].
  intros [rc r] x' (w' & -> & Hw' & [(-> & Hf & Et)|(-> & e & -> & Ha & Hwr' & Ho)]); cbn [Z.eqb negb].
  - apply wp_ret. exists (done' ++ v1 :: rest), w'. assert (regions (done' ++ v1 :: rest) = regions done') as Er.
    { unfold regions at 1. rewrite omap_app. change (omap txv_region_stmt (v1 :: rest)) with (regions (v :: rest)).
      rewrite (regions_none (v :: rest)) by (rewrite E; set_solver). by rewrite app_nil_r. }
    rewrite Er, Et. split_and!; try done. intros r0. apply (region_tag done); [rewrite E; set_solver|done].
  - apply wp_bind, wp_set_log. apply Hnext; [unfold processed; rewrite Hl; by exists e|done| |done].
    unfold regions. rewrite omap_app. exact Hwr'.
Qed.

(** What the written statements do to a key. *)
Lemma alike_effect e r b : alike e r -> apply_stmt b r = apply_stmt b e.
Proof. intros [E1 _ E3 E4 _ _]. unfold apply_stmt. by rewrite E1, E3, E4. Qed.
Lemma region_key log' k r : Forall2 (processed tag) (tx_log t) log' -> r ∈ of_key k (regions log') ->
  exists q v, tx_log t !! q = Some v /\ left_out v = false /\ same_key k (s_tuple (txv_entry v)).
Proof.
  intros Hp [Hk Hr]%of_key_elem. destruct (region_from (tx_log t) log' r) as (q & v & Hq & Hl & Ha); [done|done|done|].
  exists q, v. split_and!; [done|done|]. unfold at_key in Hk. rewrite Hk, <- (al_tuple _ _ Ha). cbn. by rewrite prepared_tuple.
Qed.
Lemma no_region log' k : Forall2 (processed tag) (tx_log t) log' ->
  (forall q v, tx_log t !! q = Some v -> left_out v = false -> ~ same_key k (s_tuple (txv_entry v))) -> of_key k (regions log') = [].
Proof.
  intros Hp H. destruct (of_key k (regions log')) as [|r l] eqn:E; [done|]. destruct (region_key log' k r Hp) as (q & v & Hq & Hl & Hk); [rewrite E; by left|].
  by destruct (H q v Hq Hl).
Qed.
Lemma prepared_value log' k b : Forall2 (processed tag) (tx_log t) log' -> (length (of_key k (regions log')) <= 1)%nat ->
  (forall e, last (of_key k raws) = Some e -> s_type e = IPROTO_INSERT -> b = None) ->
  state_of b (of_key k (regions log')) = state_of b (of_key k raws).
Proof.
  intros Hp H1 Hi. pose proof Hok as [Hws _ _ Hnone Hsf _]. destruct (write_set_search_key t k) as [p|] eqn:Es.
  - apply search_some in Es as (Hpw & e & He & Hk). unfold log_entry in He. destruct (tx_log t !! p) as [v|] eqn:Ev; [|done]. injection He as <-.
    destruct (Hsf p v Hpw Ev) as [S1 S2 S3 _ _]. rewrite <- !(of_key_same k (s_tuple (txv_entry v))) in S3 by done.
    assert (state_of b (of_key k raws) = apply_stmt b (txv_entry v)) as -> by (by rewrite S1, (of_key_same k (s_tuple (txv_entry v)))).
    destruct (left_out v) eqn:El.
    + rewrite no_region; [|done|].
      * apply (wo_in _ Hws) in Hpw as (v2 & Hv2 & Ho). simplify_eq. unfold left_out in El. rewrite Ho in El. apply andb_prop in El as [Ef Ed]. apply has_typeP in Ed.
        destruct (proj1 S3 Ef) as (e & He & Ht). rewrite (Hi e He Ht). unfold apply_stmt. by rewrite Ed.
      * intros q o Hq Ho Hk'. assert (p = q) as <-; [|congruence]. eapply (sorted_keys t p q (txv_entry v) (txv_entry o)); [done|done|by eapply in_write_set| | |by rewrite <- Hk].
        -- unfold log_entry. by rewrite Ev.
        -- unfold log_entry. by rewrite Hq.
    + destruct (Forall2_lookup_l _ _ _ _ _ Hp Ev) as (v' & Hv' & Hvv). unfold processed in Hvv. rewrite El in Hvv. destruct Hvv as (r & Hr & Ha).
      assert (r ∈ of_key k (regions log')) as Hin.
      { apply of_key_elem. split; [unfold at_key; rewrite <- (al_tuple _ _ Ha); cbn; by rewrite prepared_tuple|].
        apply list_elem_of_omap. exists v'. split; [by eapply list_elem_of_lookup_2|done]. }
      destruct (of_key k (regions log')) as [|r1 [|r2 l]]; [by apply elem_of_nil in Hin| |cbn in H1; lia]. apply list_elem_of_singleton in Hin as ->.
      rewrite state_of_cons. rewrite (alike_effect _ _ _ Ha). apply prepared_effect.
  - rewrite (Hnone k Es), no_region; [done|done|]. intros q v Hq Hl Hk. eapply (search_none _ _ Es q (txv_entry v)); [by eapply in_write_set| |done].
    unfold log_entry. by rewrite Hq.
Qed.
End Prepare.

(** ** Rolling back *)

Lemma key_elem y S : y ∈ S <-> y ∈ of_key (s_tuple y) S.
Proof. rewrite of_key_elem. split; [|by intros [_ ?]]. intros H. split; [unfold at_key; reflexivity|done]. Qed.
Lemma wrote_uncons S0 r rs S S' : wrote S0 (r :: rs) S -> (forall k, of_key k S = of_key k [r] ++ of_key k S') -> wrote S0 rs S'.
Proof.
  intros [_ H2 H3] Hk. assert (forall k, of_key k S' = of_key k rs ++ of_key k S0) as E.
  { intros k. specialize (H2 k). rewrite Hk in H2. change (r :: rs) with ([r] ++ rs) in H2. rewrite of_key_app, <- app_assoc in H2. by apply app_inv_head in H2. }
  split; [|done|].
  - intros y. rewrite (key_elem y S'), (key_elem y rs), (key_elem y S0), E. apply elem_of_app.
  - intros k. specialize (H3 k). change (r :: rs) with ([r] ++ rs) in H3. rewrite of_key_app, length_app in H3. lia.
Qed.
Lemma region_newest S0 r rs (tag : Z) w : wrote S0 (r :: rs) (mem_tree (v_mem w)) -> (forall e, e ∈ r :: rs -> s_lsn e = tag) -> (forall y, y ∈ S0 -> s_lsn y < tag) ->
  forall y, y ∈ mem_tree (v_mem w) -> same_key (s_tuple r) (s_tuple y) -> s_lsn y <= s_lsn r.
Proof.
  intros Hw Ht Ho y [Hy|Hy]%(wr_in _ _ _ Hw) _; [rewrite (Ht y Hy), (Ht r) by (by left); lia|]. specialize (Ho y Hy). rewrite (Ht r) by (by left). lia.
Qed.
Lemma rollback_log_spec S0 (tag : Z) log : MAX_LSN <= tag -> (forall y, y ∈ S0 -> s_lsn y < tag) -> forall x,
  lsm_ok (xm_lsm x) -> wrote S0 (regions log) (memory x) -> (forall r, r ∈ regions log -> s_lsn r = tag) ->
  wp (rollback_log log) (fun _ x' => exists w, x' = x <| xm_lsm := w |> /\ lsm_ok w /\ v_oom w = v_oom (xm_lsm x) /\ wrote S0 [] (mem_tree (v_mem w))) x.
Proof.
  intros Htag Hold. induction log as [|v log IH]; intros x Hx Hwr Ht; cbn [rollback_log].
  { apply wp_ret. exists (xm_lsm x). split_and!; try done. by destruct x. }
  unfold regions in Hwr, Ht. cbn [omap list_omap] in Hwr, Ht. destruct (txv_region_stmt v) as [r|]; [|apply wp_bind, wp_ret; by apply IH].
  change (omap txv_region_stmt log) with (regions log) in *. pose proof (Ht r ltac:(by left)) as Hr.
  assert (r ∈ memory x) as Hin by (apply (wr_in _ _ _ Hwr); left; by left).
  destruct (rollback_lsm (xm_lsm x) r) as (R1 & R2 & R3 & R4); [done|done|lia|by eapply region_newest|].
  apply wp_bind, wp_bind, wp_assert. split.
  { pose proof (lm_stmts _ Hx) as Hs. rewrite Forall_forall in Hs. by rewrite (ms_refable _ (Hs r Hin)). }
  apply wp_bind, wp_assert. split.
  { apply existsb_exists. exists r. split; [by apply list_elem_of_In|]. apply Z.eqb_eq. unfold vy_mem_tree_cmp. rewrite compare_refl. cbn. by rewrite Z.ltb_irrefl. }
  apply wp_on_lsm, wp_modify. change (update v_mem _ _) with (rolled_back (xm_lsm x) r).
  eapply wp_mono; [apply IH; [done| |intros e He; apply Ht; by right]|].
  - by eapply wrote_uncons.
  - intros _ x' (w & -> & Hw & Eo & Hww). by exists w.
Qed.

(** ** Committing *)

(** The statements of a transaction are older than those of other prepared
    ones and newer than those that are committed. *)
Definition next_to_commit (lsn tag : Z) rs S : Prop :=
  forall r, r ∈ rs -> r ∈ S /\ s_lsn r = tag /\ forall y, y ∈ S -> same_key (s_tuple r) (s_tuple y) -> y = r \/ s_lsn y < lsn \/ tag < s_lsn y.

Lemma commit_one S1 r S2 rs (lsn tag : Z) S : tree_sorted S -> S = S1 ++ r :: S2 -> lsn < tag -> next_to_commit lsn tag (r :: rs) S -> oldest S1 r S2 lsn.
Proof.
  intros Hs -> Hl Hn. apply tree_split in Hs as (_ & _ & H1 & H2 & _). destruct (Hn r ltac:(by left)) as (_ & Er & Hy). split; [lia| |].
  - intros y Hi Hk. specialize (H1 y Hi). symmetry in Hk. by apply cmp_lt_key in H1.
  - intros y Hi Hk. specialize (H2 y Hi). apply cmp_lt_key in H2; [|done]. destruct (Hy y ltac:(set_solver) Hk) as [->|[?|?]]; lia.
Qed.
Definition seen_at (lsn tag : Z) k rs (n : Z) : Z := if decide (of_key k rs = []) then n else later lsn tag n.

Lemma wp_on_lsm_both (m : prog (vinyl T O) unit) (m' : prog (vinyl T O) unit) (Q : unit -> xm -> Prop) x :
  wp (m;; m') (fun a w => Q a (x <| xm_lsm := w |>)) (xm_lsm x) -> wp (on_lsm m;; on_lsm m') Q x.
Proof. intros H%wp_bind. apply wp_bind, wp_on_lsm. eapply wp_mono; [exact H|]. intros [] w Hw. by apply wp_on_lsm. Qed.
(** One turn of the loop. *)
Lemma commit_stmt_spec (lsn tag : Z) r rs x : MAX_LSN <= tag -> lsn < MAX_LSN -> lsm_ok (xm_lsm x) -> true ∉ v_oom (xm_lsm x) ->
  next_to_commit lsn tag (r :: rs) (memory x) -> (forall y, y ∈ rs -> ~ same_key (s_tuple r) (s_tuple y)) ->
  wp (set_region_lsn r lsn;; on_lsm (vy_lsm_commit_stmt (r <| s_lsn := lsn |>))) (fun _ x' => exists w, x' = x <| xm_lsm := w |> /\ lsm_ok w /\ true ∉ v_oom w /\
    next_to_commit lsn tag rs (mem_tree (v_mem w)) /\
    forall k n, visible None n (of_key k (mem_tree (v_mem w))) = visible None (if decide (same_key k (s_tuple r)) then later lsn tag n else n) (of_key k (memory x))) x.
Proof.
  intros Htag Hlsn Hx Ho Hn Hne. destruct (Hn r ltac:(by left)) as (Hin & Er & _). apply list_elem_of_split in Hin as (S1 & S2 & E).
  pose proof (commit_one S1 r S2 rs lsn tag (memory x) (lm_sorted _ Hx) E ltac:(lia) Hn) as Hold.
  apply wp_on_lsm_both. eapply wp_mono; [apply (tx_commit_spec (xm_lsm x) S1 r S2 lsn Hx E); [lia|done|done|done]|].
  intros [] w (e & Hw & How & Ew & El & Hk & Hv). exists w. rewrite Ew. split_and!; [done|done|done| |].
  - intros r0 Hr0. destruct (Hn r0 ltac:(by right)) as (Hi & Et & Hy). rewrite E in Hi, Hy. specialize (Hne r0 Hr0).
    assert (r0 <> r) as Hne' by (intros ->; by apply Hne). split_and!; [set_solver|done|].
    intros y [Hy'|[->|Hy']%elem_of_cons]%elem_of_app Hky; [apply Hy; [set_solver|done]| |apply Hy; [set_solver|done]].
    destruct Hne. rewrite Hk. by symmetry.
  - intros k n. rewrite E, (visible_committed k n S1 r S2 e lsn) by done. by rewrite Er.
Qed.

Lemma commit_log_spec (lsn tag : Z) log : MAX_LSN <= tag -> lsn < MAX_LSN -> forall x, lsm_ok (xm_lsm x) -> true ∉ v_oom (xm_lsm x) ->
  (forall k, (length (of_key k (regions log)) <= 1)%nat) -> next_to_commit lsn tag (regions log) (memory x) ->
  wp (commit_log lsn log) (fun _ x' => exists w, x' = x <| xm_lsm := w |> /\ lsm_ok w /\ true ∉ v_oom w /\
    forall k n, visible None n (of_key k (mem_tree (v_mem w))) = visible None (seen_at lsn tag k (regions log) n) (of_key k (memory x))) x.
Proof.
  intros Htag Hlsn. induction log as [|v log IH]; intros x Hx Ho H1 Hn; cbn [commit_log].
  { apply wp_ret. exists (xm_lsm x). split_and!; try done. by destruct x. }
  unfold regions in H1, Hn |- *. cbn [omap list_omap] in H1, Hn |- *. destruct (txv_region_stmt v) as [r|]; [|apply wp_bind, wp_ret; by apply IH].
  change (omap txv_region_stmt log) with (regions log) in *.
  assert (forall k, same_key k (s_tuple r) -> of_key k (regions log) = []) as He.
  { intros k Hk. specialize (H1 k). rewrite of_key_hit in H1 by done. destruct (of_key k (regions log)); [done|cbn in H1; lia]. }
  apply wp_bind. eapply wp_mono; [apply (commit_stmt_spec lsn tag r (regions log)); try done|].
  { intros y Hy Hk. assert (y ∈ of_key (s_tuple r) (regions log)) as Hy' by (by apply of_key_elem). rewrite He in Hy' by reflexivity. by apply elem_of_nil in Hy'. }
  intros [] x1 (w & -> & Hw & How & Hn' & Hv). eapply wp_mono; [apply IH; try done|].
  { intros k. specialize (H1 k). rewrite of_key_cons in H1. destruct (decide _); cbn in H1; lia. }
  intros [] x2 (w2 & -> & Hw2 & How2 & Hv2). exists w2. split_and!; try done. intros k n. rewrite Hv2. cbn [xm_lsm update Setter]. etransitivity; [apply Hv|].
  unfold seen_at. rewrite of_key_cons. destruct (decide (same_key k (s_tuple r))) as [Hk|Hk]; [|done]. rewrite (He k Hk). by rewrite decide_True, decide_False by done.
Qed.
End Write.
