(* ===== verification/VyTxAtomic.v ===== *)
(** * A transaction takes effect at once or not at all

    What vy_tx_prepare, vy_tx_commit and vy_tx_rollback do to the database. *)

From stdpp Require Import list sorting gmap.
From S2P Require Import Prelude VyStmt VyVisible VyCompaction VyLevels VyInsert VyMem VyMemSafety VyLsm VyLsmSafety VyTheorems VyDeferred VyReadSet VyReadSetTheorems VyTx VyTxLog VyTxLsm VyTxTheorems VyTxWrite.

Open Scope Z_scope.

Section Atomic.
Context {T O : Type} `{!Tuples T O, !TuplesLaws T O, !TxEnv T O, !TxEnvLaws T O}.
Abbreviation stmt := (vy_stmt T O).
Abbreviation tx := (vy_tx T O).
Abbreviation xm := (vy_tx_manager T O).
Abbreviation memory x := (mem_tree (v_mem (xm_lsm x))).
Implicit Types (e : stmt) (raws : list stmt) (t : tx) (x y : xm) (id c a : Z) (k : T).

(** References between the objects of the manager, when the transaction [id]
    is not the last prepared one. *)
Record steady id x : Prop := {
  sd_readers : forall i, i ∈ xm_read_set x -> is_Some (xm_txs x !! iv_tx i);
  sd_views : forall c t a, xm_txs x !! c = Some t -> tx_read_view t = Some a -> is_Some (read_view_at a (xm_read_views x));
  sd_refs : forall r, r ∈ xm_read_views x -> 0 < rv_refs r /\ rv_addr r < xm_next x;
  sd_last : forall c, xm_last_prepared_tx x = Some c -> c <> id /\ is_Some (xm_txs x !! c);
}.
(** [x] and [y] differ in other transactions, read views and allocations. *)
Record aside id x y : Prop := {
  as_tx : xm_txs y !! id = xm_txs x !! id;
  as_mem : xm_lsm y = (xm_lsm x) <| v_oom := v_oom (xm_lsm y) |>;
  as_oom : true ∉ v_oom (xm_lsm x) -> true ∉ v_oom (xm_lsm y);
  as_lsn : xm_lsn y = xm_lsn x;
  as_last : xm_last_prepared_tx y = xm_last_prepared_tx x;
}.
Lemma aside_refl id x : aside id x x.
Proof. split; try done. by destruct (xm_lsm x). Qed.
Lemma aside_trans id x y z : aside id x y -> aside id y z -> aside id x z.
Proof.
  intros [A1 A2 A3 A4 A5] [B1 B2 B3 B4 B5]. split; try congruence; [|tauto]. rewrite B2, A2. done.
Qed.

Lemma steady_oom id x oom : steady id x -> steady id (with_oom x oom).
Proof. intros []. by split. Qed.
Lemma steady_tx id x t t' : steady id x -> xm_txs x !! id = Some t -> tx_read_view t' = tx_read_view t -> steady id (x <| xm_txs := <[id := t']> (xm_txs x) |>).
Proof.
  intros [H1 H2 H3 H4] Ht Hv. assert (forall c, is_Some (xm_txs x !! c) -> is_Some (<[id := t']> (xm_txs x) !! c)) as Hk.
  { intros c Hc. destruct (decide (c = id)) as [->|Hne]; [by rewrite lookup_insert_eq|by rewrite lookup_insert_ne]. }
  split; [by intros i Hi; apply Hk, H1| |done|intros c Hc; destruct (H4 c Hc); split; [done|by apply Hk]].
  intros c t0 a. cbn. destruct (decide (c = id)) as [->|Hne]; [rewrite lookup_insert_eq; intros [= <-]; rewrite Hv; by apply (H2 id t)|rewrite lookup_insert_ne by done; apply H2].
Qed.

(** ** Conflicts *)

Lemma conflicts_in key (tr : read_tree T) i : i ∈ vy_tx_conflicts key tr -> i ∈ nodes tr.
Proof.
  induction tr as [|l IHl n last r IHr]; cbn [vy_tx_conflicts nodes]; [done|]. destruct (conflict_visit key n last) as [[hit gl] gr].
  rewrite !elem_of_app, elem_of_cons. destruct hit, gl, gr; set_solver.
Qed.
Lemma wp_conflicts id e x (Q : list Z -> xm -> Prop) : steady id x -> (forall cs, (forall c, c ∈ cs -> is_Some (xm_txs x !! c)) -> Q cs x) -> wp (conflicts e) Q x.
Proof.
  intros Hx HQ. apply wp_gets, HQ. intros c (i & -> & Hi)%list_elem_of_fmap. apply conflicts_in in Hi. rewrite rb_tree_nodes in Hi. by apply (sd_readers _ _ Hx).
Qed.
Lemma wp_in_read_view id c t x (Q : bool -> xm -> Prop) : steady id x -> xm_txs x !! c = Some t -> (forall b, (tx_read_view t = None -> b = false) -> Q b x) -> wp (vy_tx_is_in_read_view t) Q x.
Proof.
  intros Hx Hc HQ. unfold vy_tx_is_in_read_view. apply wp_bind. unfold wp, read_vlsn. destruct (tx_read_view t) as [a|] eqn:E.
  - destruct (sd_views _ _ Hx c t a Hc E) as [r ->]. by apply wp_ret, HQ.
  - by apply wp_ret, HQ.
Qed.

(** ** Read views *)

Lemma view_app a rvs r : a <> rv_addr r -> read_view_at a (rvs ++ [r]) = read_view_at a rvs.
Proof.
  intros Hne. unfold read_view_at. induction rvs as [|r' rvs IH]; cbn; [by rewrite decide_False by congruence|].
  destruct (decide (rv_addr r' = a)); [done|]. destruct (list_find _ (rvs ++ [r])) as [[]|], (list_find _ rvs) as [[]|]; cbn in *; congruence.
Qed.
Lemma view_new a rvs r : (forall r', r' ∈ rvs -> rv_addr r' <> a) -> rv_addr r = a -> read_view_at a (rvs ++ [r]) = Some r.
Proof.
  intros Hne Er. unfold read_view_at. induction rvs as [|r' rvs IH]; cbn; [by rewrite decide_True|].
  rewrite decide_False by (apply Hne; by left). destruct (list_find _ (rvs ++ [r])) as [[]|]; cbn in *; apply IH; intros r0 H0; apply Hne; by right.
Qed.
Lemma view_found rvs r : r ∈ rvs -> is_Some (read_view_at (rv_addr r) rvs).
Proof.
  intros H. unfold read_view_at. destruct (list_find (fun r0 => rv_addr r0 = rv_addr r) rvs) as [[i r']|] eqn:E; [by exists r'|].
  apply list_find_None in E. rewrite Forall_forall in E. by destruct (E r H).
Qed.
Lemma view_elem a rvs r : read_view_at a rvs = Some r -> r ∈ rvs /\ rv_addr r = a.
Proof.
  unfold read_view_at. destruct (list_find _ rvs) as [[i r']|] eqn:E; [|done]. intros [= ->]. apply list_find_Some in E as (E & Ha & _).
  split; [by eapply list_elem_of_lookup_2|done].
Qed.
Lemma view_update a b (f : vy_read_view -> vy_read_view) rvs : (forall r, rv_addr (f r) = rv_addr r) ->
  read_view_at a (update_rv b f rvs) = (fun r => if rv_addr r =? b then f r else r) <$> read_view_at a rvs.
Proof.
  intros Hf. unfold read_view_at, update_rv. induction rvs as [|r rvs IH]; cbn; [done|].
  assert (rv_addr (if rv_addr r =? b then f r else r) = rv_addr r) as -> by (by destruct (rv_addr r =? b)).
  destruct (decide (rv_addr r = a)); [done|]. destruct (list_find _ (map _ rvs)) as [[]|], (list_find _ rvs) as [[]|]; cbn in *; congruence.
Qed.
Lemma steady_more id x b : steady id x -> steady id (x <| xm_read_views ::= update_rv b (fun r => r <| rv_refs ::= Z.succ |>) |>).
Proof.
  intros [H1 H2 H3 H4]. split; [done| | |done].
  - intros c t a Hc Ha. destruct (H2 c t a Hc Ha) as [r Hr]. eapply mk_is_Some. etransitivity; [by apply view_update|]. by rewrite Hr.
  - intros r (r' & -> & Hr')%list_elem_of_fmap. destruct (H3 r' Hr'). cbn [xm_next update Setter]. case_match; cbn; lia.
Qed.
(** A transaction is put into a read view that exists. *)
Lemma steady_enter id x c a : steady id x -> is_Some (read_view_at a (xm_read_views x)) ->
  steady id (x <| xm_txs ::= alter (fun t => t <| tx_read_view := Some a |>) c |>).
Proof.
  intros [H1 H2 H3 H4] Hr. split; cbn; [| |done|].
  - intros i Hi. rewrite lookup_alter_is_Some. by apply H1.
  - intros c' t b. destruct (decide (c' = c)) as [->|Hne]; [|rewrite lookup_alter_ne by done; apply H2].
    rewrite lookup_alter_eq. destruct (xm_txs x !! c) as [t0|]; [|done]. intros [= <-] [= <-]. done.
  - intros c' Hc'. destruct (H4 c' Hc'). by rewrite lookup_alter_is_Some.
Qed.
Lemma steady_new id x (vlsn refs : Z) : steady id x -> 0 < refs ->
  steady id (x <| xm_next ::= Z.succ |> <| xm_read_views ::= fun l => l ++ [mk_rv (xm_next x) vlsn refs] |>).
Proof.
  intros [H1 H2 H3 H4] Hp. split; [done| | |done].
  - intros c t a Hc Ha. destruct (H2 c t a Hc Ha) as [r Hr]. exists r. cbn [xm_read_views update Setter]. etransitivity; [apply view_app|exact Hr].
    apply view_elem in Hr as [Hr <-]. destruct (H3 r Hr). cbn. lia.
  - intros r [Hr|Hr]%elem_of_app; [destruct (H3 r Hr)|apply list_elem_of_singleton in Hr as ->]; cbn; lia.
Qed.

(** The transactions that [y] has. *)
Definition keeps x y : Prop := forall c, is_Some (xm_txs x !! c) -> is_Some (xm_txs y !! c).
Lemma read_view_new_spec id x (vlsn : Z) (Q : option Z -> xm -> Prop) : steady id x ->
  (forall y, aside id x y -> steady id y -> keeps x y -> true ∈ v_oom (xm_lsm x) -> Q None y) ->
  (forall a y, aside id x y -> steady id y -> keeps x y -> is_Some (read_view_at a (xm_read_views y)) -> Q (Some a) y) ->
  wp (read_view_new (xm_last_prepared_tx x) vlsn) Q x.
Proof.
  intros Hx HN HS. unfold read_view_new. apply wp_bind, alloc_fails_spec. intros [] oom Hb Ho.
  { apply wp_ret, HN; [by split|by destruct Hx; split|by intros c|by apply Hb]. }
  set (x1 := with_oom x oom). assert (steady id x1) as Hx1 by (by destruct Hx; split). apply wp_bind. unfold new_addr. apply wp_bind, wp_gets, wp_bind, wp_modify, wp_ret.
  assert (forall rvs : list vy_read_view, (forall r, r ∈ rvs -> 0 < rv_refs r /\ rv_addr r < xm_next x1) -> forall refs, is_Some (read_view_at (xm_next x1) (rvs ++ [mk_rv (xm_next x1) vlsn refs]))) as Hnew.
  { intros rvs Hr refs. eapply mk_is_Some, view_new; [|done]. intros r' Hr'. destruct (Hr r' Hr'). lia. }
  specialize (Hnew (xm_read_views x1) (sd_refs _ _ Hx1)). destruct (xm_last_prepared_tx x) as [c|] eqn:El.
  - destruct (sd_last _ _ Hx c El) as [Hne Hc]. apply wp_bind, wp_modify, wp_bind, wp_modify, wp_ret. pose proof (steady_new id x1 vlsn 2 Hx1 ltac:(lia)) as H2.
    apply HS; [|exact (steady_enter id _ c (xm_next x1) H2 (Hnew 2))| |exact (Hnew 2)].
    + split; try done. cbn. by rewrite lookup_alter_ne.
    + intros c' Hc'. cbn. by rewrite lookup_alter_is_Some.
  - apply wp_bind, wp_ret, wp_bind, wp_modify, wp_ret. apply HS; [by split|exact (steady_new id x1 vlsn 1 Hx1 ltac:(lia))|by intros c|exact (Hnew 1)].
Qed.
Lemma tx_read_view_spec id x (Q : option Z -> xm -> Prop) : steady id x ->
  (forall y, aside id x y -> steady id y -> keeps x y -> true ∈ v_oom (xm_lsm x) -> Q None y) ->
  (forall a y, aside id x y -> steady id y -> keeps x y -> is_Some (read_view_at a (xm_read_views y)) -> Q (Some a) y) ->
  wp vy_tx_manager_read_view Q x.
Proof.
  intros Hx HN HS. unfold vy_tx_manager_read_view. apply wp_bind, wp_gets, wp_bind, wp_gets, wp_bind.
  assert (forall vlsn, wp (match last (xm_read_views x) with
    | Some rv => if rv_vlsn rv =? vlsn then
        modify (fun x => x <| xm_read_views ::= update_rv (rv_addr rv) (fun r => r <| rv_refs ::= Z.succ |>) |>);; mret (Some (rv_addr rv))
        else read_view_new (xm_last_prepared_tx x) vlsn
    | None => read_view_new (xm_last_prepared_tx x) vlsn end) Q x) as Hr.
  { intros vlsn. destruct (last (xm_read_views x)) as [rv|] eqn:El; [|exact (read_view_new_spec id x vlsn Q Hx HN HS)]. destruct (rv_vlsn rv =? vlsn); [|exact (read_view_new_spec id x vlsn Q Hx HN HS)].
    apply wp_bind, wp_modify, wp_ret. apply HS; [split; try done; cbn; by destruct (xm_lsm x)|by apply steady_more|by intros c|].
    destruct (view_found (xm_read_views x) rv) as [r Hr]; [by apply last_Some_elem_of|]. eapply mk_is_Some. etransitivity; [by apply view_update|]. by rewrite Hr. }
  destruct (xm_last_prepared_tx x) as [c|] eqn:E; [|by apply wp_gets].
  destruct (sd_last _ _ Hx c E) as [_ [t Ht]]. apply wp_bind, (wp_get_tx _ c t); [done|]. by apply wp_ret.
Qed.

Lemma aside_alter id x c (f : tx -> tx) : c <> id -> aside id x (x <| xm_txs ::= alter f c |>).
Proof. intros Hne. split; try done; cbn; [by rewrite lookup_alter_ne|by destruct (xm_lsm x)]. Qed.
Lemma keeps_trans x y (z : xm) : keeps x y -> keeps y z -> keeps x z.
Proof. intros H1 H2 c Hc. by apply H2, H1. Qed.

(** ** The loops over the readers *)

Lemma send_loop_spec id cs : forall x, steady id x -> (forall c, c ∈ cs -> is_Some (xm_txs x !! c)) ->
  wp (send_loop id cs) (fun rc y => aside id x y /\ steady id y /\ keeps x y /\ (rc = 0 \/ rc = -1 /\ true ∈ v_oom (xm_lsm x))) x.
Proof.
  induction cs as [|c cs IH]; intros x Hx Hcs; cbn [send_loop].
  { apply wp_ret. split_and!; [apply aside_refl|done|by intros c|by left]. }
  assert (forall c, c ∈ cs -> is_Some (xm_txs x !! c)) as Hcs' by (intros; apply Hcs; by right).
  destruct (Z.eqb_spec c id) as [->|Hne]; [by apply IH|]. destruct (Hcs c ltac:(by left)) as [t Ht].
  apply wp_bind, (wp_get_tx _ c t); [done|]. destruct (negb _); [by apply IH|]. apply wp_bind, (wp_in_read_view id c t); [done|done|]. intros [] _; [by apply IH|].
  apply wp_bind, (tx_read_view_spec id); [done| |].
  - intros y Ha Hy Hk Ho. apply wp_ret. split_and!; try done. by right.
  - intros a y Ha Hy Hk Hv. apply wp_bind, wp_modify. set (z := y <| xm_txs ::= _ |>).
    assert (aside id x z) as Haz by (eapply aside_trans; [exact Ha|by apply aside_alter]).
    assert (keeps x z) as Hkz by (intros c' Hc'; cbn; rewrite lookup_alter_is_Some; by apply Hk).
    eapply wp_mono; [apply (IH z); [by apply steady_enter|intros c' Hc'; by apply Hkz, Hcs']|].
    intros rc z' (H1 & H2 & H3 & H4). split_and!; [by eapply aside_trans|done|by eapply keeps_trans|]. destruct H4 as [H4|[H4 H5]]; [by left|right].
    split; [done|]. destruct (decide (true ∈ v_oom (xm_lsm x))) as [?|Hn]; [done|]. by apply (as_oom _ _ _ Haz) in Hn.
Qed.
Lemma send_all_spec id es : forall x, steady id x ->
  wp (send_all id es) (fun rc y => aside id x y /\ steady id y /\ (rc = 0 \/ rc = -1 /\ true ∈ v_oom (xm_lsm x))) x.
Proof.
  induction es as [|e es IH]; intros x Hx; cbn [send_all]; [apply wp_ret; split_and!; [apply aside_refl|done|by left]|].
  apply wp_bind. unfold vy_tx_send_to_read_view. apply wp_bind, (wp_conflicts id); [done|]. intros cs Hcs.
  eapply wp_mono; [by apply send_loop_spec|]. intros rc y (H1 & H2 & _ & H4). destruct H4 as [->|[-> H4]]; cbn [Z.eqb negb]; [|apply wp_ret; split_and!; try done; by right].
  eapply wp_mono; [by apply IH|]. intros rc z (H5 & H6 & H7). split_and!; [by eapply aside_trans|done|]. destruct H7 as [H7|[H7 H8]]; [by left|right].
  split; [done|]. destruct (decide (true ∈ v_oom (xm_lsm x))) as [?|Hn]; [done|]. by apply (as_oom _ _ _ H1) in Hn.
Qed.

Lemma steady_state id x c (f : tx -> tx) : steady id x -> (forall t, tx_read_view (f t) = tx_read_view t) -> steady id (x <| xm_txs ::= alter f c |>).
Proof.
  intros [H1 H2 H3 H4] Hf. split; cbn; [| |done|].
  - intros i Hi. rewrite lookup_alter_is_Some. by apply H1.
  - intros c' t b. destruct (decide (c' = c)) as [->|Hne]; [|rewrite lookup_alter_ne by done; apply H2].
    rewrite lookup_alter_eq. destruct (xm_txs x !! c) as [t0|] eqn:E; [|done]. intros [= <-]. rewrite Hf. by apply (H2 c).
  - intros c' Hc'. destruct (H4 c' Hc'). by rewrite lookup_alter_is_Some.
Qed.
Lemma abort_loop_spec id cs : forall x, steady id x -> (forall c, c ∈ cs -> is_Some (xm_txs x !! c)) ->
  wp (abort_loop id cs) (fun _ y => aside id x y /\ steady id y) x.
Proof.
  induction cs as [|c cs IH]; intros x Hx Hcs; cbn [abort_loop]; [apply wp_ret; split; [apply aside_refl|done]|].
  assert (forall c, c ∈ cs -> is_Some (xm_txs x !! c)) as Hcs' by (intros; apply Hcs; by right).
  destruct (Z.eqb_spec c id) as [->|Hne]; [by apply IH|]. destruct (Hcs c ltac:(by left)) as [t Ht].
  apply wp_bind, (wp_get_tx _ c t); [done|]. destruct (bool_decide (tx_st t = VINYL_TX_READY)) eqn:Er; cbn [negb]; [|by apply IH].
  apply wp_bind. unfold vy_tx_abort. apply wp_bind, (wp_get_tx _ c t); [done|]. apply wp_bind, wp_assert. split; [done|]. apply wp_bind, wp_modify, wp_modify.
  set (y := update xm_stat_conflict _ _). assert (aside id x y) as Ha by (destruct (aside_alter id x c (fun t => t <| tx_st := VINYL_TX_ABORT |>) Hne); by split).
  assert (steady id y) as Hy by (destruct (steady_state id x c (fun t => t <| tx_st := VINYL_TX_ABORT |>) Hx ltac:(done)); by split).
  eapply wp_mono; [apply IH; [done|intros c' Hc'; cbn; rewrite lookup_alter_is_Some; by apply Hcs']|]. intros [] z [H1 H2]. split; [by eapply aside_trans|done].
Qed.
Lemma abort_all_spec id es : forall x, steady id x -> wp (abort_all id es) (fun _ y => aside id x y /\ steady id y) x.
Proof.
  induction es as [|e es IH]; intros x Hx; cbn [abort_all]; [apply wp_ret; split; [apply aside_refl|done]|].
  apply wp_bind. unfold vy_tx_abort_readers. apply wp_bind, (wp_conflicts id); [done|]. intros cs Hcs. eapply wp_mono; [by apply abort_loop_spec|].
  intros [] y [H1 H2]. eapply wp_mono; [by apply IH|]. intros [] z [H3 H4]. split; [by eapply aside_trans|done].
Qed.
Lemma tx_destroy_spec id t x : steady id x -> xm_txs x !! id = Some t -> wp (vy_tx_destroy id) (fun _ y => xm_lsm y = xm_lsm x) x.
Proof.
  intros Hx Ht. unfold vy_tx_destroy. apply wp_bind, (wp_get_tx _ id t); [done|]. apply wp_bind. unfold vy_tx_manager_destroy_read_view.
  destruct (tx_read_view t) as [a|] eqn:Ea; [|apply wp_ret; by apply wp_modify]. apply wp_bind, wp_gets.
  destruct (sd_views _ _ Hx id t a Ht Ea) as [r Hr]. rewrite Hr. apply view_elem in Hr as [Hr _]. destruct (sd_refs _ _ Hx r Hr).
  apply wp_bind, wp_assert. split; [destruct (Z.eqb_spec (rv_refs r) 0); [lia|done]|]. by apply wp_modify, wp_modify.
Qed.

(** ** Preparing, committing and rolling back *)

Lemma steady_log id t log w x : steady id x -> xm_txs x !! id = Some t -> steady id (with_log id t log w x).
Proof. intros Hx Ht. destruct (steady_tx id x t (t <| tx_log := log |>) Hx Ht ltac:(done)). by split. Qed.
Lemma steady_last id x : steady id x -> steady id (x <| xm_last_prepared_tx := None |>).
Proof. intros [H1 H2 H3 H4]. by split. Qed.

(** The transaction [id] has been prepared in [x], or preparing it has failed. *)
Record pending id (tag : Z) (S0 : list stmt) x t : Prop := {
  pd_steady : steady id (x <| xm_last_prepared_tx ::= fun l => if decide (l = Some id) then None else l |>);
  pd_tx : xm_txs x !! id = Some t;
  pd_state : tx_st t = VINYL_TX_COMMIT;
  pd_lsm : lsm_ok (xm_lsm x);
  pd_wrote : wrote S0 (regions (tx_log t)) (memory x);
  pd_tag : forall r, r ∈ regions (tx_log t) -> s_lsn r = tag;
}.
(** The statements written are those of the client. *)
Definition complete raws (S0 : list stmt) t : Prop := (tx_write_set t = [] -> regions (tx_log t) = []) /\
  forall k, state_of (state_of None (of_key k S0)) (of_key k (regions (tx_log t))) = state_of (state_of None (of_key k S0)) (of_key k raws).

(** An INSERT is given to the transaction when the key is not there. *)
Definition inserts_ok raws (S0 : list stmt) : Prop :=
  forall k e, last (of_key k raws) = Some e -> s_type e = IPROTO_INSERT -> state_of None (of_key k S0) = None.

Section Prepare.
Context (id : Z) (raws : list stmt) (t : tx) (x : xm).
Abbreviation tag := (MAX_LSN + (xm_psn x + 1)).
Context (Hx : steady id x) (Ht : xm_txs x !! id = Some t) (Hst : tx_st t = VINYL_TX_READY) (Hrv : tx_read_view t = None) (Hl : logged raws t).
Context (Hlsm : lsm_ok (xm_lsm x)) (Hpsn : 0 <= xm_psn x) (Hold : forall e, e ∈ memory x -> s_lsn e < tag) (Hins : inserts_ok raws (memory x)).

Lemma decide_last : (if decide (xm_last_prepared_tx x = Some id) then None else xm_last_prepared_tx x) = xm_last_prepared_tx x.
Proof. destruct (decide _) as [E|]; [|done]. by destruct (sd_last _ _ Hx id E). Qed.
Lemma regions_empty : regions (tx_log t) = [].
Proof. eapply regions_none; [by apply logged_ok|done]. Qed.

Definition prepare_post (rc : Z) (x1 : xm) : Prop := exists t1, pending id tag (memory x) x1 t1 /\ xm_lsn x1 = xm_lsn x /\
  (true ∉ v_oom (xm_lsm x) -> rc = 0 /\ true ∉ v_oom (xm_lsm x1)) /\ (rc = 0 -> complete raws (memory x) t1).

Lemma prepare_ro : vy_tx_is_ro t = true -> prepare_post 0 (x <| xm_txs ::= alter (fun t => t <| tx_st := VINYL_TX_COMMIT |>) id |>).
Proof.
  intros Hro. pose proof (logged_ok _ _ Hl) as Hok. assert (tx_write_set t = []) as Ew by (unfold vy_tx_is_ro in Hro; by destruct (tx_write_set t)).
  assert (exists t', t' = t <| tx_st := VINYL_TX_COMMIT |> /\ tx_st t' = VINYL_TX_COMMIT /\ regions (tx_log t') = []) as (t' & Et & Ec & Er).
  { eexists. split_and!; [reflexivity|done|exact regions_empty]. }
  exists t'. split_and!; [|done|done|].
  - split; [|cbn; by rewrite lookup_alter_eq, Ht, Et|done|done|rewrite Er; apply wrote_nil|rewrite Er; set_solver].
    pose proof (steady_state id x id (fun t => t <| tx_st := VINYL_TX_COMMIT |>) Hx ltac:(done)) as [H1 H2 H3 H4]. split; [done|done|done|].
    cbn. rewrite decide_last. exact H4.
  - intros _. split; [done|]. intros k. rewrite Er, (lo_none _ _ Hok k); [done|].
    unfold write_set_search_key. by rewrite Ew.
Qed.

Lemma with_log_id (z : xm) t2 : xm_txs z !! id = Some t2 -> with_log id t2 (tx_log t2) (xm_lsm z) z = z.
Proof.
  intros Hz. unfold with_log. assert (t2 <| tx_log := tx_log t2 |> = t2) as -> by (by destruct t2).
  rewrite insert_id by done. by destruct z.
Qed.
Lemma prepare_loop t2 (z : xm) : same_log t2 t -> tx_st t2 = VINYL_TX_COMMIT -> steady id z -> xm_txs z !! id = Some t2 -> lsm_ok (xm_lsm z) -> memory z = memory x ->
  xm_lsn z = xm_lsn x -> xm_last_prepared_tx z = xm_last_prepared_tx x -> (true ∉ v_oom (xm_lsm x) -> true ∉ v_oom (xm_lsm z)) ->
  wp (rc ← prepare_log id (xm_psn x + 1) 0 (tx_log t);
      if negb (rc =? 0) then mret (-1) else modify (fun x => x <| xm_last_prepared_tx := Some id |>);; mret 0) prepare_post z.
Proof.
  intros Hs Hc Hz Htz Hlz Em El Ela Ho. assert (log_ok raws t2) as Hok.
  { apply logged_ok. by apply (logged_same raws t). }
  pose proof Hs as [Elog _]. rewrite <- (with_log_id z t2) by done. rewrite <- Elog.
  apply wp_bind. eapply wp_mono; [apply (prepare_log_spec id (xm_psn x + 1) raws t2 z (memory x) Hok ltac:(lia) Hold (tx_log t2) [] []); [done|constructor|done|]|].
  { rewrite Em. apply wrote_nil. }
  intros rc x1 (log' & w' & -> & Hw' & Hwr & Htag & Hoom & Hdone).
  assert (steady id (with_log id t2 log' w' z)) as Hsz by (by apply steady_log).
  assert (xm_txs (with_log id t2 log' w' z) !! id = Some (t2 <| tx_log := log' |>)) as Htx by (cbn; apply lookup_insert_eq).
  destruct (Z.eqb_spec rc 0) as [->|Hrc]; cbn [negb].
  - apply wp_bind, wp_modify, wp_ret. exists (t2 <| tx_log := log' |>). split_and!; [|done|intros Hx0; split; [done|by apply Hoom, Ho]|].
    + split; try done. cbn. rewrite decide_True by done. exact (steady_last _ _ Hsz).
    + intros _. specialize (Hdone eq_refl). split; change (tx_log (t2 <| tx_log := log' |>)) with log'.
      * intros Ew. change (tx_write_set t2 = []) in Ew. destruct (regions log') as [|r rs] eqn:Er; [done|].
        destruct (region_from (xm_psn x + 1) raws t2 Hok (tx_log t2) log' r) as (q & v & Hq & Hlo & _); [done|done|rewrite Er; by left|].
        destruct (in_write_set raws t2 Hok q v Hq Hlo) as [Hin _]. rewrite Ew in Hin. by apply elem_of_nil in Hin.
      * intros k. eapply (prepared_value (xm_psn x + 1) raws t2 Hok); [done|apply (wr_one _ _ _ Hwr)|]. intros e. apply Hins.
  - apply wp_ret. exists (t2 <| tx_log := log' |>). split_and!; [|done|intros Hx0; by destruct (Hoom (Ho Hx0))|done].
    split; try done. cbn. rewrite Ela, decide_last, <- Ela. destruct Hsz. by split.
Qed.

Lemma prepare_spec : wp (vy_tx_prepare id) prepare_post x.
Proof.
  pose proof (logged_ok _ _ Hl) as Hok. unfold vy_tx_prepare. apply wp_bind, (wp_get_tx _ id t); [done|]. rewrite bool_decide_eq_false_2 by congruence.
  apply wp_bind, wp_assert. split; [by rewrite bool_decide_eq_true|]. destruct (vy_tx_is_ro t) eqn:Ero.
  { apply wp_bind, wp_modify, wp_ret. by apply prepare_ro. }
  apply wp_bind, (wp_in_read_view id id t); [done|done|]. intros b Hb. rewrite (Hb Hrv). apply wp_bind, wp_assert. split; [by rewrite bool_decide_eq_true|].
  apply wp_bind, wp_gets, wp_bind, wp_modify, wp_bind, wp_modify. set (x2 := update xm_txs _ _). set (t2 := t <| tx_st := VINYL_TX_COMMIT |> <| tx_psn := xm_psn x + 1 |>).
  assert (xm_txs x2 !! id = Some t2) as Ht2 by (cbn; by rewrite lookup_alter_eq, Ht).
  assert (steady id x2) as Hx2.
  { destruct (steady_state id x id (fun t => t <| tx_st := VINYL_TX_COMMIT |> <| tx_psn := xm_psn x + 1 |>) Hx ltac:(done)). by split. }
  apply wp_bind. eapply wp_mono; [by apply send_all_spec|]. intros rc z ([A1 A2 A3 A4 A5] & Hz & Hrc). change (xm_lsm x2) with (xm_lsm x) in *. rewrite Ht2 in A1.
  assert (lsm_ok (xm_lsm z)) as Hlz by (rewrite A2; by apply lsm_ok_oom). assert (memory z = memory x) as Em by (by rewrite A2).
  destruct Hrc as [->|[-> Hf]]; cbn [Z.eqb negb].
  - by apply (prepare_loop t2).
  - assert (regions (tx_log t2) = []) as Er by exact regions_empty. apply wp_ret. exists t2. split_and!; [|done|done|done].
    split; [|done|done|done|rewrite Er, Em; apply wrote_nil|rewrite Er; set_solver].
    destruct Hz as [Z1 Z2 Z3 Z4]. split; [done|done|done|]. cbn. rewrite A5. change (xm_last_prepared_tx x2) with (xm_last_prepared_tx x). rewrite decide_last.
    intros c Hc. apply Z4. by rewrite A5.
Qed.
End Prepare.

(** The transaction is rolled back, whether or not it was prepared to the end. *)
Lemma rollback_spec id (tag : Z) S0 x t : pending id tag S0 x t -> MAX_LSN <= tag -> (forall e, e ∈ S0 -> s_lsn e < tag) ->
  wp (vy_tx_rollback id) (fun _ y => lsm_ok (xm_lsm y) /\ forall k, of_key k (memory y) = of_key k S0) x.
Proof.
  intros [P1 P2 P3 P4 P5 P6] Htag Hold. unfold vy_tx_rollback. apply wp_bind, wp_modify, wp_bind, (wp_get_tx _ id t); [done|]. rewrite bool_decide_eq_true_2 by done.
  apply wp_bind. unfold vy_tx_rollback_after_prepare. apply wp_bind, (wp_get_tx _ id t); [done|]. apply wp_bind, wp_assert. split; [by rewrite bool_decide_eq_true|].
  apply wp_bind, wp_modify. set (x1 := update xm_last_prepared_tx _ _). assert (steady id x1) as H1 by (destruct P1; by split).
  apply wp_bind. eapply wp_mono; [by apply (rollback_log_spec S0 tag (tx_log t) Htag Hold x1)|].
  intros [] x2 (w & -> & Hw & _ & [_ Hk _]). assert (steady id (x1 <| xm_lsm := w |>)) as H2 by (destruct H1; by split).
  eapply wp_mono; [by apply abort_all_spec|]. intros [] y [[A1 A2 _ _ _] Hy]. change (xm_lsm (x1 <| xm_lsm := w |>)) with w in A2.
  eapply wp_mono; [eapply (tx_destroy_spec id t); [done|by rewrite A1]|]. intros [] z Ez. rewrite Ez, A2. split; [by apply lsm_ok_oom|exact Hk].
Qed.

(** The database after a transaction whose effect is at [lsn]. *)
Definition applied_at (lsn : Z) raws (S0 S : list stmt) : Prop := forall k n, visible None n (of_key k S) =
  if decide (lsn <= n) then state_of (state_of None (of_key k S0)) (of_key k raws) else visible None n (of_key k S0).

Lemma pending_applied id (tag : Z) raws S0 x t : pending id tag S0 x t -> complete raws S0 t -> (forall e, e ∈ S0 -> s_lsn e < tag) -> applied_at tag raws S0 (memory x).
Proof.
  intros [_ _ _ _ P5 P6] [_ Hc] Hold k n. rewrite (wr_keys _ _ _ P5), visible_app, <- Hc.
  assert (forall e, e ∈ of_key k (regions (tx_log t)) -> s_lsn e = tag) as Ht by (intros e [_ He]%of_key_elem; by apply P6).
  destruct (decide (tag <= n)) as [Hn|Hn].
  - rewrite !visible_in; [done| |].
    + intros e [_ He]%of_key_elem. specialize (Hold e He). lia.
    + intros e He. rewrite (Ht e He). lia.
  - apply visible_out. intros e He. rewrite (Ht e He). lia.
Qed.
Lemma committed_applied (lsn tag : Z) raws rs S0 S S' : wrote S0 rs S -> lsn < tag -> (forall e, e ∈ S0 -> s_lsn e < lsn) -> (forall e, e ∈ rs -> s_lsn e = tag) ->
  (forall k, state_of (state_of None (of_key k S0)) (of_key k rs) = state_of (state_of None (of_key k S0)) (of_key k raws)) -> applied_at tag raws S0 S ->
  (forall k n, visible None n (of_key k S') = visible None (seen_at lsn tag k rs n) (of_key k S)) -> applied_at lsn raws S0 S'.
Proof.
  intros Hw Hlt Hold Hrs Hc Ha Hv k n. rewrite Hv, Ha. unfold seen_at. destruct (decide (of_key k rs = [])) as [E|E].
  - rewrite <- Hc, E. destruct (decide (tag <= n)), (decide (lsn <= n)); [done|lia| |done].
    transitivity (state_of None (of_key k S0)); [|done]. apply visible_in. intros e [_ He]%of_key_elem. specialize (Hold e He). lia.
  - unfold later. destruct (decide (lsn <= n < tag)); [rewrite !decide_True by lia; done|].
    destruct (decide (tag <= n)), (decide (lsn <= n)); try lia; done.
Qed.
Lemma regions_next S0 rs S (lsn tag : Z) : wrote S0 rs S -> (forall e, e ∈ S0 -> s_lsn e < lsn) -> (forall e, e ∈ rs -> s_lsn e = tag) -> next_to_commit lsn tag rs S.
Proof.
  intros Hw Hold Ht r Hr. split_and!; [apply (wr_in _ _ _ Hw); by left|by apply Ht|]. intros e [He|He]%(wr_in _ _ _ Hw) Hk; [left|right; left; by apply Hold].
  assert (forall y : stmt, y ∈ rs -> same_key (s_tuple r) (s_tuple y) -> y ∈ of_key (s_tuple r) rs) as Hin by (intros; by apply of_key_elem).
  pose proof (Hin e He Hk) as H1. pose proof (Hin r Hr ltac:(reflexivity)) as H2. pose proof (wr_one _ _ _ Hw (s_tuple r)) as H3.
  destruct (of_key (s_tuple r) rs) as [|a [|b l]]; [by apply elem_of_nil in H1| |cbn in H3; lia]. apply list_elem_of_singleton in H1. apply list_elem_of_singleton in H2. congruence.
Qed.

Lemma tx_committed_spec id (tag lsn : Z) raws S0 x t : pending id tag S0 x t -> complete raws S0 t -> true ∉ v_oom (xm_lsm x) -> MAX_LSN <= tag -> lsn < MAX_LSN ->
  (forall e, e ∈ S0 -> s_lsn e < lsn) -> xm_lsn x <= lsn ->
  wp (vy_tx_commit id lsn) (fun _ y => lsm_ok (xm_lsm y) /\ applied_at lsn raws S0 (memory y)) x.
Proof.
  intros HP HC Ho Htag Hlsn Hold Hl. pose proof (pending_applied _ _ _ _ _ _ HP HC ltac:(intros e He; specialize (Hold e He); lia)) as Happ.
  destruct HP as [P1 P2 P3 P4 P5 P6]. destruct HC as [Hro Hc]. unfold vy_tx_commit. apply wp_bind, (wp_get_tx _ id t); [done|].
  apply wp_bind, wp_assert. split; [by rewrite bool_decide_eq_true|]. apply wp_bind, wp_modify. set (x1 := update xm_last_prepared_tx _ _).
  assert (steady id x1) as H1 by (destruct P1; by split). apply wp_bind. destruct (vy_tx_is_ro t) eqn:Ero.
  - apply wp_ret. eapply wp_mono; [by apply (tx_destroy_spec id t)|]. intros [] z Ez. rewrite Ez. split; [done|].
    eapply (committed_applied lsn tag); [exact P5|lia|done|done|done|exact Happ|]. rewrite Hro by (unfold vy_tx_is_ro in Ero; by destruct (tx_write_set t)). done.
  - apply wp_bind, wp_assert. split; [by apply Z.leb_le|]. apply wp_bind, wp_modify. set (x2 := update xm_lsn _ _). assert (steady id x2) as H2 by (destruct H1; by split).
    apply wp_bind. eapply wp_mono; [apply (commit_log_spec lsn tag (tx_log t) Htag Hlsn x2); [done|done|apply (wr_one _ _ _ P5)|by eapply regions_next]|].
    intros [] x3 (w & -> & Hw & How & Hv). assert (steady id (x2 <| xm_lsm := w |>)) as H3 by (destruct H2; by split).
    assert (applied_at lsn raws S0 (mem_tree (v_mem w))) as Hfin by (eapply (committed_applied lsn tag); [exact P5|lia|done|done|done|exact Happ|exact Hv]).
    assert (forall z : xm, steady id z -> xm_txs z !! id = Some t -> xm_lsm z = w -> wp (vy_tx_destroy id) (fun _ y => lsm_ok (xm_lsm y) /\ applied_at lsn raws S0 (memory y)) z) as Hd.
    { intros z Hz Htz Ez. eapply wp_mono; [by apply (tx_destroy_spec id t)|]. intros [] y Ey. by rewrite Ey, Ez. }
    destruct (tx_read_view t) as [a|]; [|by apply wp_ret, Hd]. apply wp_modify, Hd; [|done|done].
    destruct H3 as [S1 S2 S3 S4]. split; [done| | |done].
    + intros c t' a' Hc' Ha'. destruct (S2 c t' a' Hc' Ha') as [r Hr]. eapply mk_is_Some. etransitivity; [by apply view_update|]. by rewrite Hr.
    + intros r (r' & -> & Hr')%list_elem_of_fmap. destruct (S3 r' Hr'). case_match; cbn; done.
Qed.

(** The statements of a client, and the attempt to commit them. *)
Definition statements_and_prepare id (xs : list stmt) : prog xm (list stmt * Z) :=
  raws ← set_all id [] xs;
  rc ← vy_tx_prepare id;
  mret (raws, rc).

Lemma inserts_sublist (xs : list stmt) raws S0 : (forall e, e ∈ xs -> s_type e = IPROTO_INSERT -> state_of None (of_key (s_tuple e) S0) = None) ->
  sublist raws (rev xs) -> inserts_ok raws S0.
Proof.
  intros Hi Hs k e He Ht. apply last_Some_elem_of, of_key_elem in He as [Hk He]. rewrite (of_key_same k (s_tuple e)) by done. apply Hi; [|done].
  pose proof (elem_of_sublist _ _ _ He Hs) as H. by apply list_elem_of_In, in_rev, list_elem_of_In in H.
Qed.

(** C10: a transaction changes the database at one LSN or not at all. The
    database is an LSM tree with one memory and no runs, the transaction is a
    fresh one, an INSERT is of a key that is not there, and if there is an
    UPSERT among the statements no allocation fails: with an UPSERT and a
    failed allocation the effect of an accepted statement can be lost
    (vy_upsert.c:121), which the theorem does not cover. Whatever other
    transactions have read and wherever they are, the transaction is given its
    statements and prepared. A statement is refused, or the preparation fails,
    only if an allocation has failed. When the preparation succeeds, readers
    of prepared statements see just the effect of the accepted statements, one
    after another on every key, and other readers nothing. A rollback at this
    point, or after a failed preparation, gives every key the statements it
    had before. A commit without a failed allocation, at an LSN above all
    statements of the memory from before, succeeds, and the effect is then at
    this LSN: read views before it see nothing of the transaction, and the
    others all of it. *)
Theorem tx_is_atomic id t (xs : list stmt) x :
  xm_txs x !! id = Some t -> tx_st t = VINYL_TX_READY -> tx_read_view t = None -> tx_log t = [] -> tx_write_set t = [] -> tx_write_size t = 0 ->
  Forall client_stmt xs -> Z.of_nat (length xs) < 2 ^ 30 -> (Exists (fun e => s_type e = IPROTO_UPSERT) xs -> true ∉ v_oom (xm_lsm x)) ->
  (forall e, e ∈ xs -> s_type e = IPROTO_INSERT -> state_of None (of_key (s_tuple e) (memory x)) = None) ->
  steady id x -> lsm_ok (xm_lsm x) -> 0 <= xm_psn x -> (forall e, e ∈ memory x -> s_lsn e <= MAX_LSN + xm_psn x) ->
  wp (statements_and_prepare id xs) (fun '(raws, rc) x1 => sublist raws (rev xs) /\ (true ∉ v_oom (xm_lsm x) -> raws = rev xs /\ rc = 0) /\
    (rc = 0 -> applied_at (MAX_LSN + (xm_psn x + 1)) raws (memory x) (memory x1)) /\
    wp (vy_tx_rollback id) (fun _ y => forall k, of_key k (memory y) = of_key k (memory x)) x1 /\
    forall lsn, true ∉ v_oom (xm_lsm x) -> (forall e, e ∈ memory x -> s_lsn e < lsn) -> xm_lsn x <= lsn < MAX_LSN ->
      wp (vy_tx_commit id lsn) (fun _ y => applied_at lsn raws (memory x) (memory y)) x1) x.
Proof.
  intros Hid Hst Hrv El Ew Es Hc Hn Hu Hi Hx Hlsm Hpsn Hold. unfold statements_and_prepare.
  apply wp_bind. eapply wp_mono; [apply (set_all_spec id xs [] [] t); [split; [done|by constructor|unfold sized; by rewrite El, Ew]|done|cbn; lia|done]|].
  intros raws x1 (zs & t1 & Ez & Hz & Hz' & [Hid1 Hl1 _] & [S1 S2 _ _ _] & Ex1). rewrite app_nil_r in Ez, Hl1. subst zs.
  assert (memory x1 = memory x) as Em by (by rewrite Ex1). assert (lsm_ok (xm_lsm x1)) as Hlsm1 by (rewrite Ex1; by apply lsm_ok_oom).
  assert (xm_psn x1 = xm_psn x) as Ep by (by rewrite Ex1). assert (xm_lsn x1 = xm_lsn x) as Els by (by rewrite Ex1).
  assert (steady id x1) as Hx1.
  { rewrite Ex1. apply steady_oom. by eapply steady_tx. }
  apply wp_bind. eapply wp_mono; [apply (prepare_spec id raws t1 x1 Hx1 Hid1); [congruence|congruence|done|done|lia| |]|].
  { rewrite Em, Ep. intros e He. specialize (Hold e He). lia. }
  { rewrite Em. by eapply inserts_sublist. }
  intros rc x2 (t2 & Hp & El2 & Ho & Hcomp). rewrite Em, Ep in *. apply wp_ret. assert (forall e, e ∈ memory x -> s_lsn e < MAX_LSN + (xm_psn x + 1)) as Hold' by (intros e He; specialize (Hold e He); lia).
  split_and!; [done|intros H; destruct (Hz' H) as [? H2]; split; [done|by apply Ho]| | |].
  - intros ->. by eapply pending_applied; [|apply Hcomp|].
  - eapply wp_mono; [eapply rollback_spec; [exact Hp|lia|done]|]. by intros [] y [_ H].
  - intros lsn H Hlt Hlsn. destruct (Hz' H) as [_ H2]. destruct (Ho H2) as [-> H3].
    eapply wp_mono; [eapply tx_committed_spec; [exact Hp|by apply Hcomp|done|lia|lia|done|lia]|]. by intros [] y [_ Hy].
Qed.
End Atomic.

Module CounterDatabase.
Import Counters CounterTxs.

(** A database with one tuple, which transaction 4 has read. *)
Definition tuple_7 : vy_stmt (Z * Z) Z := mk_stmt (Some 0) IPROTO_REPLACE 5 0 false (7, 10) [] 0.
Definition reader : vy_tx (Z * Z) Z :=
  (vy_tx_create false) <| tx_read_set := [mk_interval 8 4 (mk_entry 9 (7, 0)) (mk_entry 9 (7, 0)) true true] |>.
Definition database : vinyl (Z * Z) Z :=
  vinyl_new <| v_mem ::= fun m => m <| mem_tree := [tuple_7] |> <| mem_rows := 1 |> |> <| v_rows := 1 |> <| v_next := 1 |>.
Definition manager : vy_tx_manager (Z * Z) Z :=
  vy_tx_manager_new <| xm_lsn := 5 |> <| xm_psn := 1 |> <| xm_txs := {[3 := vy_tx_create false; 4 := reader]} |>
    <| xm_read_set := tx_read_set reader |> <| xm_lsm := database |> <| xm_next := 10 |>.
Definition some_statements : list (vy_stmt (Z * Z) Z) :=
  [raw IPROTO_REPLACE 7 1000 []; raw IPROTO_UPSERT 5 1 [0]; raw IPROTO_UPSERT 7 1 [5]; raw IPROTO_INSERT 1 1 []; raw IPROTO_DELETE 1 0 []].

Lemma no_failure : true ∉ v_oom (xm_lsm manager).
Proof. apply not_elem_of_nil. Qed.
Lemma manager_steady : steady 3 manager.
Proof.
  split.
  - intros i Hi. apply list_elem_of_singleton in Hi as ->. by exists reader.
  - intros c t a Hc Ha. cbn in Hc. destruct (decide (c = 3)) as [->|H3]; [by injection Hc as <-|]. rewrite lookup_insert_ne in Hc by done.
    apply lookup_singleton_Some in Hc as [_ <-]. done.
  - intros r Hr. by apply elem_of_nil in Hr.
  - done.
Qed.
Lemma database_ok : lsm_ok database.
Proof.
  split; try done.
  - constructor; [constructor|done].
  - split; [done|]. constructor; [|constructor]. split; [done|by vm_compute].
  - intros x y ->%list_elem_of_singleton ->%list_elem_of_singleton _. done.
  - intros x a ->%list_elem_of_singleton [= <-]. by cbn.
  - constructor; [|constructor]. by split.
  - intros k. change (counts_ok (of_key k [tuple_7])). rewrite of_key_cons. destruct (decide _); by cbn.
Qed.

Lemma inserts_fresh e : e ∈ some_statements -> s_type e = IPROTO_INSERT -> state_of None (of_key (s_tuple e) (mem_tree (v_mem (xm_lsm manager)))) = None.
Proof.
  intros He Ht. unfold some_statements in He. rewrite !elem_of_cons in He. destruct He as [->|[->|[->|[->|[->|He]]]]]; try discriminate Ht; [reflexivity|].
  by apply elem_of_nil in He.
Qed.

Lemma tx_is_atomic_witness :
  match (r ← statements_and_prepare 3 some_statements; vy_tx_commit 3 8;; mret r) manager with
  | Done (raws, rc, y) => raws = rev some_statements /\ rc = 0 /\ match xm_txs y !! 4 with Some t => tx_read_view t <> None | None => False end /\
      visible None 8 (of_key (7, 0) (mem_tree (v_mem (xm_lsm y)))) = Some (7, 1005) /\
      visible None 7 (of_key (7, 0) (mem_tree (v_mem (xm_lsm y)))) = Some (7, 10)
  | Abort => False
  end.
Proof.
  pose proof (tx_is_atomic 3 (vy_tx_create false) some_statements manager) as H.
  assert (Forall client_stmt some_statements) as Hc by (repeat constructor; cbn; try done).
  specialize (H ltac:(reflexivity) eq_refl eq_refl eq_refl eq_refl eq_refl Hc ltac:(cbn; lia) ltac:(intros _; exact no_failure)).
  specialize (H inserts_fresh manager_steady database_ok ltac:(by cbn)).
  assert (forall e, e ∈ mem_tree (v_mem (xm_lsm manager)) -> s_lsn e <= MAX_LSN + xm_psn manager) as Hl by (intros e ->%list_elem_of_singleton; by vm_compute).
  specialize (H Hl). unfold wp in H at 1. unfold mbind at 1, prog_bind at 1. destruct (statements_and_prepare 3 some_statements manager) as [[[raws rc] x1]|] eqn:E; [|done].
  destruct H as (_ & H1 & _ & _ & H2). destruct (H1 no_failure) as [-> ->].
  specialize (H2 8 no_failure ltac:(intros e ->%list_elem_of_singleton; by cbn) ltac:(by vm_compute)). unfold wp in H2. unfold mbind, prog_bind.
  destruct (vy_tx_commit 3 8 x1) as [[[] y]|] eqn:E2; [|done]. cbn [mret prog_ret]. split_and!; [done|done| | |].
  - vm_compute in E. injection E as <-. vm_compute in E2. injection E2 as <-. by vm_compute.
  - rewrite H2. by vm_compute.
  - rewrite H2. by vm_compute.
Defined.
End CounterDatabase.
